(* ===== verification/_CoqProject ===== *)
-Q . S2P
Prelude.v
GoLib.v
F32.v
Heap.v
GoStrings.v
Utf8.v
Strconv.v
Core.v
Chunk.v
State.v
Frame.v
Bloom.v
CMS.v
HLL.v
MisraGries.v
Select.v
MinHash.v
Dag.v
DagIndex.v
DagSlice.v
DagLog.v
DagJson.v
DagRun.v
DagSpec.v
DagBuild.v
Sequitur.v
SeqInv.v
SeqSplice.v
SeqCascade.v
SeqAppend.v
SeqRead.v
SeqSpec.v
SeqRestore.v
SeqRebuild.v
Varint.v
SeqCodec.v
StateWarn.v
WarnSpec.v
F64Ops.v
GoSort.v
Greedy.v
GreedySpec.v
BlockSelect.v
BlockSpec.v
RepSelect.v
RepSolve.v
RepSpec.v
Admission.v
AdmissionSpec.v
Canon.v
CanonSpec.v
Scheduler.v
SchedSpec.v
GcGate.v
GcGateSpec.v
Pins.v
PinsSpec.v
PinsJson.v
Radix.v
RadixBits.v
RadixTree.v
RadixRead.v
RadixSpec.v
RadixTxn.v
RadixCommit.v
RadixSafe.v
Generations.v
GenerationsSpec.v
