(* ===== verification/Prelude.v ===== *)
(** * Qompack: a verification of its evidence, chunking, state, sketch, dependence-graph, grammar, selection, admission, canonicalisation, scheduling, collection-gate and pin core

    Qompack is a Go sidecar that records what a coding session produces into a local store, seals
    checkpoints and answers retrieval questions.  This library models the packages its permanent
    memory rests on and proves what makes them correct.

    ** The program and where it is modelled

    - [GoLib.v], [F32.v], [Heap.v], [GoStrings.v], [Utf8.v], [Strconv.v], [F64Ops.v], [GoSort.v], [Varint.v]:
      what the modelled packages use of the language and its standard library: SHA-256, CRC-32C, hex,
      the bit-level view of float64, float32 and float64 arithmetic, [container/heap], stable sorting, the string functions, UTF-8 validity, decimal integers.
    - [Core.v] ([internal/core]): the domain-separated digest [HashBytes], its text form, ids, the
      closed label sets of evidence and [EvidenceEnvelope.Qualified].  Every other package imports it.
    - [Chunk.v] ([internal/chunk]): FastCDC.  [Normalized], the gear table, the boundary scan
      [nextCut], the batch splitter [Split], the streaming splitter [SplitStream] over any reader and
      callback, [RootHash].  The store addresses content by these chunks, so a stream and a batch
      must cut at the same places.
    - [State.v] ([internal/state]): the append-only set of derived records: [Add], [Supersede],
      [Correct], [Conflict] (here [DeclareConflict]), [Resolve], the queries [Applicable] and
      [Conflicts], the snapshot [Encode]/[Decode].  The Go map from ids to record pointers is a
      [gmap]; an assignment through a pointer is an update of the map.
    - [Frame.v] ([internal/sketch/header.go], [errors.go], [util.go], [hash.go]): the QPKS frame
      every sketch file is wrapped in, and the interface [Sketch].  The class [Sketch] is the Go
      interface, [SketchLaws] and [SketchDecodes] state what a sketch type promises the code that
      saves and loads it; each sketch file discharges them.
    - [Bloom.v], [CMS.v], [HLL.v], [MisraGries.v] ([internal/sketch]): the four sketches with their
      operations, merges and frames; [MisraGries.v] also holds [CMS.HeavyHitters], which combines two
      of them.
    - [Select.v], [MinHash.v] ([internal/sketch/minhash.go]): near-duplicate signatures.  [Select.v] has
      the sampler's quickselect and open-addressed set, [MinHash.v] shingle hashing, the bottom-k
      sampler, the permutation minima, the comparison and both encodings.
    - The dependence graph ([internal/dag]).  [Dag.v] ([kinds.go], [nodeid.go], [node.go], [edge.go],
      the maps of [graph.go]): kinds, identities, validation, merging, the five maps and their updates.
      [DagIndex.v] ([index.go], [stats.go]): the position index and its queries.  [DagSlice.v]
      ([traverse.go], [slice.go]): the best-first relevance walk.  [DagLog.v] ([wire.go], [log.go],
      [compact.go], the mutations of [graph.go]): the log file, loading, appending, compaction.
      [DagJson.v]: an instance of the JSON laws.  [DagRun.v]: the invariant of runs.  [DagSpec.v]: the
      theorems over runs and the abstract graph of plain maps.  [DagBuild.v] ([builders.go]): the
      constructors that turn observations into nodes and edges, over the graph interface as a class
      ([GraphOps], [GraphLaws]) that both the concrete and the abstract graph implement.
    - The grammar ([internal/grammar]).  [Sequitur.v] ([rules.go], [sequitur.go], [types.go]): the live
      grammar as a pointer program over a heap of nodes and rules, every operation and every read.
      [SeqInv.v], [SeqSplice.v], [SeqCascade.v], [SeqAppend.v]: the representation invariant, each splice
      of the linked bodies, the cascade of folds and inlinings, and one append.  [SeqRead.v], [SeqSpec.v]:
      what the reads report, over every session.  [SeqRestore.v], [SeqRebuild.v] ([sequitur.go]): the
      validation and rebuilding of a grammar from a snapshot.  [SeqCodec.v] ([codec.go]): the snapshot
      frame, its reader, saving and loading.  [StateWarn.v], [WarnSpec.v] ([statewarn.go]): the state-aware
      loop detector with its windows, and its theorems over every run of observations.
    - Selection ([internal/analyzer]).  [Greedy.v] ([greedy.go]): the lazy-greedy engine over any problem,
      the closures of a [greedyProblem] as functions of the objective's state; [GreedySpec.v]: its
      theorems.  [BlockSelect.v], [BlockSpec.v] ([selector.go]): the selector of blocks.  [RepSelect.v]
      ([greedy.go], [types.go]): [Propose] with its solver, bundles and reserve; [RepSolve.v], [RepSpec.v]:
      what they compute and what a proposal guarantees.
    - Admission ([internal/admission]).  [Admission.v]: the gate, the envelope markers, meanings,
      baselines and the representation decision, the pipeline over arbitrary ports (functions of a world,
      absent when not wired, every call logged), the rollback rules and the quality comparison;
      [AdmissionSpec.v]: its theorems.
    - Canonicalisation ([internal/canon]).  [Canon.v]: the registry, the one-pass composition of matches,
      restoring, the line-ending canonicaliser and byte helpers; a [Canonicalizer] is a record of its
      methods, so the composition is that of any matchers.  [CanonSpec.v]: its theorems.
    - Scheduling ([internal/scheduler]).  [Scheduler.v]: [Evaluate] as a function of its inputs in float64
      arithmetic, with thresholds, cache regimes, cadence and the choice of the cut, and the registers and
      policies beside it; [SchedSpec.v]: its theorems.
    - The collection gate ([internal/store/gcgate.go]).  [GcGate.v]: each critical section, wake-up, ending of a
      pass or of a context is an event, and a trace of events an interleaving of any number of calls;
      [GcGateSpec.v]: invariants and progress by induction on the trace.
    - Pins ([internal/pins], with the append of [internal/paths/appendonly.go] and [barriers.go]).  [Pins.v]: ids,
      the log of pins and tombstones with its bounded line reader, the fold into memory, catching up with other
      writers, and the operations; [PinsSpec.v]: what memory holds against the log, over every run of one store
      beside other processes; [PinsJson.v]: an instance of the JSON laws and the witnesses.

    - The delivery index ([internal/daemon/delivery_radix.go]).  [Radix.v]: pages, packs, root pointers, the cache,
      lookups, the write transaction and its commit; [RadixBits.v]: the bit loops; [RadixTree.v]: the trees
      the pages stand for; [RadixRead.v]: reading pages back; [RadixSpec.v]: comparisons of keys;
      [RadixTxn.v]: lookups and updates as operations on maps; [RadixCommit.v]: packs and commits;
      [RadixSafe.v]: lookups in damaged files.  [Generations.v] ([delivery_generation.go]): the writer of
      generations over the index; [GenerationsSpec.v]: the map with a history that a store of them is.

    ** How the code is represented

    Strings and byte slices are lists of bytes.  Machine integers are [Z] with the wrap-around
    written out ([u64], [add64], [mul64], [s64], [shl64]); a float64 is its 64-bit pattern, a float32
    an integer number of units of 2^-149 with a sign.  Fallible code returns [outcome]: [Ok], [Err]
    with a sentinel, or [Panic] for an index out of range or a nil dereference, so "does not panic" is
    part of what is proved.  Wrapped errors keep their sentinel only.  [int] is 64 bits wide, the width
    of every released target.  Go maps are [gmap]; an iteration whose order Go leaves open is modelled
    by an order-independent function of the map.  A nil receiver or a nil argument of a sketch method
    is outside the model.  The file system of the graph's log is a value: the file's bytes or its
    absence, with a record [io] of what each call answers, a write that stops part way included.  The
    marshalling calls of [encoding/json] are the parameters of the class [Json]; [JsonLaws] names what
    the log relies on (the round trip on valid values, one line per object, six bytes per byte at
    most), and [DagJson.v] shows that the laws can hold; [PinJson], [PinJsonLaws] and [PinsJson.v] do the same for pins.  A walk's clock and a
    context's cancellation are oracles.  Sums and products of float64 values round once each, as on
    targets that do not fuse them.

    ** Fuel

    Loops are structural on the data they consume where they can be.  [split_loop] has the length of
    the data as fuel (each cut is at least one byte).  [SplitStream] has the number of read results
    plus delivered bytes plus three, and [stream_equals_split] and [stream_failure_prefix] prove it
    returns.  [halve] in [NewCMS] has enough steps for any 64-bit width.  The loops of [selectKth] and of the
    shingle set have the length of the array as fuel, and [select_kth_correct] and
    [minhash_equals_reference] prove they finish.  The slice walk has one step per criterion and edge
    plus one, and [slice_terminates] proves it is enough; the sifts of the heap have its length.
    [Append]'s cascade and utility sweep have twice the number of allocated nodes plus three, enough
    because each fold and each inlining lowers twice the cells less the rules ([mu], [append_step]);
    a walk over a body has the number of nodes, the expansion and the cycle search the number of rules.
    A varint has nine continuation bytes at most.  [runLazyGreedy] has [(2m+2)(m+1)] turns for [m] moves: an
    entry is popped twice at most between two acceptances and an acceptance removes one
    ([greedy_ends_guarded]); a bundle's queue has the number of listed requirements ([close_spec]).
    The line reader and the fold of pins have the length of what is left to read ([capped_loop_line], [fold_loop_acts]).
    A descent of the delivery index and the writing of a pack have one step per bit of a digest and one more
    ([lookup_loop_reads], [insertAt_spec], [emit_pages]).
    No theorem has running out of fuel as a way to hold.

    ** What the theorems show

    - [Core]: evidence qualification fails closed; digests survive their text form.
    - [Chunk]: chunking partitions its input within its size bounds, the windowed scan equals the
      full-history definition, streaming equals batching for every reader, failures included, and
      two inputs resynchronise after a shared boundary.
    - [State]: the record set is append-only and well formed under every sequence of operations,
      supersession never lowers authority, queries are exact, conflicts are never settled silently,
      and snapshots round-trip; [resolve_admits_supersession_cycle] and [decoded_set_can_panic]
      exhibit two gaps of the code.
    - [Frame]: frames round-trip, decoding is total and canonical, any one-byte change is refused.
    - [Bloom], [CMS], [HLL], [MisraGries]: no false negatives; estimates never below the truth and exact
      merges; registers that depend on the set of keys only; the two-sided Misra-Gries bound for streams
      and merges, heavy hitters, and one state that is written but cannot be read back; every
      constructible sketch persists.
    - [Select], [MinHash]: quickselect is correct and terminates; MinHash, with its seeded threshold,
      trimmed buffer and unrolled hashing, equals the minima over the 8,192 smallest distinct shingle
      hashes; similarity is total, symmetric and a function of the shingle sets; signatures persist.
    - The dependence graph: identities round-trip; every run of the operations, over a file system that
      may refuse any call and across restarts, with no flush cut short in its write and no tombstone of an
      empty identity, keeps the maps and the index coherent, refines a graph of
      plain maps, and loses nothing that was written; a cut log loads a prefix; compaction keeps the live
      part; the two position queries are exact; slices terminate with the best path scores; the
      constructors are idempotent and their chain of turns is acyclic.  [refused_tombstone_stale],
      [retried_flush_loses_record], [torn_tail_swallows_next], [truncation_unreported],
      [depth_limit_misses] and [read_then_write_cycle] exhibit behaviours the comments do not describe.
    - The grammar: over every session no operation dereferences nil or runs on, the compressed sequence
      expands to exactly the stream, every rule is used twice and recurs as often as it claims; a restore
      accepts exactly the well-formed snapshots, changes nothing on a refusal, and goes on without loss;
      frames round-trip, are prefix-free and bounded by their length, and loading is safe on any bytes.
      [digram_repeats] and [restored_diverges] exhibit a repeated pair the index forgot.  The loop
      detector, on observations in turn order none of which recurs across a window boundary, warns as the
      whole history calls for, its memory is bounded whatever it is fed, its own warnings never reach its history and
      claimed outcomes never decide; [boundary_splits_run] exhibits a run its windows cut.
    - Selection: the engine ends for every problem and takes only legal, improving, affordable moves; lazy
      and eager evaluation agree with the reference rule where gains do not grow; a block selection
      partitions the candidates within the budget; a proposal carries every binding record and all it
      requires within the budget, and, where the representations of a record require the same, overflows exactly
      when nothing can be delivered.
      [overflow_despite_fit], [propose_duplicate_overrun], [propose_loses_move], [lazy_select_diverges] and
      [select_value_negative] exhibit behaviours the comments do not describe.

    - Admission: a result is replaced exactly when every stage said yes in order, any other record is inert,
      nothing is captured before privacy, gate and envelope allowed it, and what admission produced is
      never admitted again.  [version_order_inverted] and [nan_margin_enables] exhibit two gaps.
    - Canonicalisation: a pass over any matchers that stay in their buffer is undone byte for byte by
      [Restore], rewrites only disjoint accepted matches and never grows the text; [Restore] reports every
      malformed list of deltas that does not overflow ([restore_overflow_panics] exhibits one that does);
      the line-ending canonicaliser is exact.
    - Scheduling: above the soft floor the trigger fires exactly on its named conditions, the cut is the best of the legal
      candidates it scores, the decision is finite and does not depend on the order of the candidates.
      [urgency_without_trigger] exhibits a pair of thresholds in the wrong order,
      [reasons_withheld] a condition that holds and is not reported.
    - The collection gate, over every interleaving shorter than 2^64 events (the width of the pass counter): one
      pass at a time, answers only from passes that started after the request, one follow-up for everyone of
      a kind, nobody dropped but by their own context, and every call returns.
    - Pins: over every run of a store beside other processes, with failing calls, torn appends and reopening, an
      answer is the one of the log and holds exactly the pins whose last record adds them; the operations only
      append, and their success shows in the log.  The runs append records of valid UTF-8 whose text fits a line
      when escaped ([fits]), on a log whose unfinished line is not exactly as long as the cap ([tame]), through
      calls that read the log to its end ([steady]).  [oversize_pin_lost] exhibits a pin the log cannot keep.

    - The delivery index: a store of generations, over every sequence of its operations with failing commits and
      restarts, is a map with the history of its published versions; a lookup in damaged files gives the
      answer of the tree or none.  The trees a run writes are told apart by the digests of their pages
      ([universe], [genuine]), and no two keys share the first 255 bits of their digests ([spread]).
      [retried_commit_loses] exhibits a commit that succeeds without its pages.

    ** Not modelled

    Floating-point formulas that need logarithms ([bloomSizing]'s and [NewCMS]'s sizing) are
    parameters of the constructors, and the theorems hold whatever they return; the estimators
    [HLL.Cardinality], [Bloom.EstimatedFPRate] and [CMS.Scale] are left out.  The text of JSON
    documents is [encoding/json]'s.  Locks and goroutines other than those of the collection gate, sockets,
    the command line and the daemon are outside; the canonicalisers' pattern tables are regular expressions; the changepoint detector is a
    posterior in logarithms and gamma functions of the math package. *)

From stdpp Require Export base list strings gmap countable numbers list_numbers sorting.
From Stdlib Require Export ZArith Strings.Byte.
#[global] Open Scope Z_scope.

(** ** Bytes

    A Go [byte] is a [Stdlib] byte; [[]byte] and [string] contents are lists of them. *)

#[global] Instance byte_eq_decision : EqDecision byte := Byte.byte_eq_dec.

#[global] Program Instance byte_countable : Countable byte :=
  inj_countable Byte.to_N Byte.of_N _.
Next Obligation. exact Byte.of_to_N. Qed.

Abbreviation bytes := (list byte).

#[global] Instance byte_inhabited : Inhabited byte := populate x00.

(** The text of a string constant of the source, as bytes. *)
Definition str (s : string) : bytes := String.list_byte_of_string s.

(** [uint64(b)] and friends: the value of a byte. *)
Definition b2z (b : byte) : Z := Z.of_N (Byte.to_N b).

(** [byte(z)]: the conversion keeps the low eight bits. *)
Definition z2b (z : Z) : byte :=
  match Byte.of_N (Z.to_N (z mod 256)) with Some b => b | None => x00 end.

(** ** Machine integers

    An unsigned w-bit value is a [Z] in [[0, 2^w)]; arithmetic wraps. *)

Definition u64 (z : Z) : Z := z mod 2 ^ 64.
Definition u32 (z : Z) : Z := z mod 2 ^ 32.

Definition MaxUint64 : Z := 2 ^ 64 - 1.
Definition MaxUint32 : Z := 2 ^ 32 - 1.
(** [math.MaxInt] on the 64-bit targets the program is released for. *)
Definition MaxInt : Z := 2 ^ 63 - 1.

Declare Scope go_scope.
Delimit Scope go_scope with go.

(** [uint64] addition, multiplication and left shift. *)
Definition add64 (x y : Z) : Z := u64 (x + y).
Definition mul64 (x y : Z) : Z := u64 (x * y).
Definition shl64 (x k : Z) : Z := u64 (Z.shiftl x k).

(** [bits.Len64], [bits.TrailingZeros64], [bits.LeadingZeros64] and [bits.OnesCount64]. *)
Definition bits_Len (x : Z) : Z := if x <=? 0 then 0 else Z.log2 x + 1.
Definition bits_LeadingZeros64 (x : Z) : Z := 64 - bits_Len x.

Fixpoint pos_ctz (p : positive) : Z :=
  match p with xO q => 1 + pos_ctz q | _ => 0 end.
Definition bits_TrailingZeros64 (x : Z) : Z :=
  match x with Zpos p => pos_ctz p | _ => 64 end.

Fixpoint pos_popcount (p : positive) : Z :=
  match p with xH => 1 | xO q => pos_popcount q | xI q => 1 + pos_popcount q end.
Definition bits_OnesCount64 (x : Z) : Z :=
  match x with Zpos p => pos_popcount p | _ => 0 end.

(** ** Little- and big-endian encodings ([encoding/binary]) *)

Fixpoint le_put (n : nat) (z : Z) : bytes :=
  match n with O => [] | S n => z2b z :: le_put n (Z.shiftr z 8) end.

Fixpoint le_get (l : bytes) : Z :=
  match l with [] => 0 | b :: l => b2z b + 256 * le_get l end.

Definition be_put (n : nat) (z : Z) : bytes := reverse (le_put n z).
Definition be_get (l : bytes) : Z := le_get (reverse l).

(** ** Slices, bytewise comparison and outcomes *)

(** [l[lo:hi]] for in-range bounds. *)
Definition slice {A} (l : list A) (lo hi : nat) : list A := take (hi - lo) (drop lo l).

(** [bytes.Compare], and the order of Go strings. *)
Fixpoint bytes_compare (a b : bytes) : comparison :=
  match a, b with
  | [], [] => Eq
  | [], _ => Lt
  | _, [] => Gt
  | x :: a, y :: b =>
      match Z.compare (b2z x) (b2z y) with Eq => bytes_compare a b | c => c end
  end.

Definition bytes_lt (a b : bytes) : Prop := bytes_compare a b = Lt.
Definition bytes_le (a b : bytes) : Prop := bytes_compare a b <> Gt.

(** The result of a Go function that returns an error value, or indexes and may panic. *)
Inductive outcome (E A : Type) : Type :=
  | Ok (a : A)
  | Err (e : E)
  | Panic.
Arguments Ok {E A} a.
Arguments Err {E A} e.
Arguments Panic {E A}.

Definition obind {E A B} (m : outcome E A) (f : A -> outcome E B) : outcome E B :=
  match m with Ok a => f a | Err e => Err e | Panic => Panic end.

Notation "'let!' x := m 'in' k" := (obind m (fun x => k))
  (at level 10, x pattern, m at level 100, k at level 200) : go_scope.
(** Checked indexing and slicing: out of range is a Go panic. *)
Definition get_at {E} (b : bytes) (i : nat) : outcome E byte :=
  match b !! i with Some x => Ok x | None => Panic end.
Definition get_sub {E} (b : bytes) (lo hi : nat) : outcome E bytes :=
  if (lo <=? hi)%nat && (hi <=? length b)%nat then Ok (slice b lo hi) else Panic.

(** ** Automation *)

Create HintDb qompack.

(** Split every boolean test of the goal and the context into its arithmetic meaning. *)
Ltac bsolve :=
  repeat match goal with
  | H : (_ && _)%bool = true |- _ => apply andb_prop in H; destruct H
  | H : (_ || _)%bool = false |- _ => apply orb_false_elim in H; destruct H
  | H : negb _ = true |- _ => apply negb_true_iff in H
  | H : negb _ = false |- _ => apply negb_false_iff in H
  | H : (_ <=? _)%Z = true |- _ => apply Z.leb_le in H
  | H : (_ <=? _)%Z = false |- _ => apply Z.leb_gt in H
  | H : (_ <? _)%Z = true |- _ => apply Z.ltb_lt in H
  | H : (_ <? _)%Z = false |- _ => apply Z.ltb_ge in H
  | H : (_ >? _)%Z = true |- _ => apply Z.gtb_lt in H
  | H : (_ >? _)%Z = false |- _ => rewrite Z.gtb_ltb in H; apply Z.ltb_ge in H
  | H : (_ >=? _)%Z = true |- _ => rewrite Z.geb_leb in H; apply Z.leb_le in H
  | H : (_ >=? _)%Z = false |- _ => rewrite Z.geb_leb in H; apply Z.leb_gt in H
  | H : (_ =? _)%Z = true |- _ => apply Z.eqb_eq in H
  | H : (_ =? _)%Z = false |- _ => apply Z.eqb_neq in H
  | H : (_ <=? _)%nat = true |- _ => apply Nat.leb_le in H
  | H : (_ <=? _)%nat = false |- _ => apply Nat.leb_gt in H
  | H : (_ <? _)%nat = true |- _ => apply Nat.ltb_lt in H
  | H : (_ <? _)%nat = false |- _ => apply Nat.ltb_ge in H
  | H : (_ =? _)%nat = true |- _ => apply Nat.eqb_eq in H
  | H : (_ =? _)%nat = false |- _ => apply Nat.eqb_neq in H
  end.

(** Case on the first [if] of the goal and turn its test into arithmetic. *)
Ltac ifcase :=
  match goal with
  | |- context [if ?b then _ else _] => destruct b eqn:?
  end; bsolve.

Ltac ifcase_in H :=
  match type of H with
  | context [if ?b then _ else _] => destruct b eqn:?
  end; bsolve.

(** ** Lemmas on bytes and machine integers *)

Lemma b2z_range b : 0 <= b2z b < 256.
Proof. pose proof (Byte.to_N_bounded b). unfold b2z. lia. Qed.

Lemma z2b_b2z b : z2b (b2z b) = b.
Proof.
  unfold z2b. rewrite Z.mod_small by apply b2z_range.
  unfold b2z. rewrite N2Z.id, Byte.of_to_N. done.
Qed.

Lemma b2z_z2b z : b2z (z2b z) = z mod 256.
Proof.
  unfold z2b, b2z.
  pose proof (Z.mod_pos_bound z 256 eq_refl).
  destruct (Byte.of_N (Z.to_N (z mod 256))) eqn:E.
  - apply Byte.to_of_N in E. rewrite E, Z2N.id; lia.
  - apply Byte.of_N_None_iff in E. lia.
Qed.

Lemma b2z_inj a b : b2z a = b2z b -> a = b.
Proof. intros H. rewrite <- (z2b_b2z a), <- (z2b_b2z b), H. done. Qed.

Lemma u64_range z : 0 <= u64 z < 2 ^ 64.
Proof. apply Z.mod_pos_bound. lia. Qed.

Lemma u64_small z : 0 <= z < 2 ^ 64 -> u64 z = z.
Proof. apply Z.mod_small. Qed.

Lemma le_put_length n z : length (le_put n z) = n.
Proof. revert z; induction n; intros; simpl; [done|]. rewrite IHn. done. Qed.

Lemma le_get_range l : 0 <= le_get l < 256 ^ Z.of_nat (length l).
Proof.
  induction l as [|b l IH]; simpl length; [simpl; lia|].
  cbn [le_get]. pose proof (b2z_range b).
  rewrite Nat2Z.inj_succ, Z.pow_succ_r by lia. nia.
Qed.

Lemma le_get_put n z : le_get (le_put n z) = z mod 256 ^ Z.of_nat n.
Proof.
  revert z; induction n as [|n IH]; intros z; cbn [le_put le_get].
  - rewrite Z.mod_1_r. done.
  - rewrite IH, b2z_z2b, Z.shiftr_div_pow2 by lia.
    change (2 ^ 8) with 256. rewrite Nat2Z.inj_succ, Z.pow_succ_r by lia.
    rewrite Z.rem_mul_r by lia. done.
Qed.

Lemma le_put_get l : le_put (length l) (le_get l) = l.
Proof.
  induction l as [|b l IH]; cbn [length le_put le_get]; [done|]. pose proof (b2z_range b). f_equal.
  - apply b2z_inj. rewrite b2z_z2b. rewrite (Z.mul_comm 256), Z.mod_add by lia.
    apply Z.mod_small. done.
  - rewrite Z.shiftr_div_pow2 by lia. change (2 ^ 8) with 256.
    rewrite (Z.mul_comm 256), Z.div_add by lia. rewrite Z.div_small by done. done.
Qed.

(** ** Checked indexing at the front of a suffix *)

Lemma get_at_drop {E} (b : bytes) i x t : drop i b = x :: t -> get_at (E:=E) b i = Ok x.
Proof.
  intros H. unfold get_at. replace (b !! i) with (drop i b !! 0%nat) by (rewrite lookup_drop; f_equal; lia).
  rewrite H. done.
Qed.

Lemma get_sub_drop {E} (b : bytes) lo hi u t :
  drop lo b = u ++ t -> hi = (lo + length u)%nat -> (0 < length u)%nat -> get_sub (E:=E) b lo hi = Ok u.
Proof.
  intros H -> Hu. unfold get_sub, slice. rewrite H.
  assert (length (drop lo b) = length u + length t)%nat as HL by (rewrite H, length_app; done).
  rewrite length_drop in HL. rewrite !(proj2 (Nat.leb_le _ _)) by lia. cbn.
  replace (lo + length u - lo)%nat with (length u) by lia. rewrite take_app_length. done.
Qed.

Lemma drop_past {A} (b : list A) lo u t : drop lo b = u ++ t -> drop (lo + length u) b = t.
Proof. intros H. rewrite <- drop_drop, H, drop_app_length. done. Qed.

(** A checked slice inside the buffer, and what is left after it. *)
Lemma get_sub_in {E} (b : bytes) lo hi :
  (lo <= hi <= length b)%nat -> get_sub (E:=E) b lo hi = Ok (slice b lo hi).
Proof. intros H. unfold get_sub. rewrite !(proj2 (Nat.leb_le _ _)) by lia. done. Qed.

Lemma drop_slice {A} (b : list A) lo hi :
  (lo <= hi <= length b)%nat -> drop lo b = slice b lo hi ++ drop hi b.
Proof.
  intros H. unfold slice. rewrite <- (take_drop (hi - lo) (drop lo b)) at 1. f_equal.
  rewrite drop_drop. f_equal. lia.
Qed.

Lemma slice_length {A} (b : list A) lo hi :
  (lo <= hi <= length b)%nat -> length (slice b lo hi) = (hi - lo)%nat.
Proof. intros H. unfold slice. rewrite length_take, length_drop. lia. Qed.

(** One more element of a set of byte strings. *)
Lemma size_add (k : bytes) (Y : gset bytes) : k ∉ Y -> size ({[k]} ∪ Y) = S (size Y).
Proof. intros H. rewrite size_union by set_solver. rewrite size_singleton. done. Qed.

Lemma ctz_pow2 k : 0 <= k -> bits_TrailingZeros64 (2 ^ k) = k.
Proof.
  intros Hk. revert k Hk. apply (natlike_ind (fun k => bits_TrailingZeros64 (2 ^ k) = k)); [done|].
  intros x Hx IH. rewrite Z.pow_succ_r by lia.
  pose proof (Z.pow_pos_nonneg 2 x ltac:(lia) Hx). unfold bits_TrailingZeros64 in *.
  destruct (2 ^ x) as [|q|q] eqn:E; [lia| |lia].
  change (2 * Z.pos q) with (Z.pos (xO q)). cbn [pos_ctz]. lia.
Qed.
