(* ===== verification/GoLib.v ===== *)
(** * The parts of Go's standard library the modelled packages compute with

    [crypto/sha256], [hash/crc32] (the Castagnoli table), [encoding/hex], and the bit-level view of
    [float64] that [math.Float64bits] exposes.  Everything is executable; the examples at the end of
    each section are published test vectors. *)

From S2P Require Import Prelude.
From Stdlib Require Import SpecFloat.

(** ** SHA-256 (FIPS 180-4), as [sha256.New], [Write] and [Sum] compute it *)
Module Sha256.

(** The constants are the leading fractional bits of roots of the first primes, and are computed as
    such: 32 bits of the cube roots for the rounds, of the square roots for the initial state. *)
Definition is_prime (n : nat) : bool :=
  forallb (fun d => negb (n mod d =? 0)%nat) (seq 2 (n - 2)).

Definition primes : list Z := Z.of_nat <$> List.filter is_prime (seq 2 310).

(** The integer cube root, bit by bit. *)
Fixpoint cbrt_bits (i : nat) (r n : Z) : Z :=
  match i with
  | O => r
  | S i => let r' := r + 2 ^ Z.of_nat i in cbrt_bits i (if r' ^ 3 <=? n then r' else r) n
  end.

Definition K : list Z := Eval vm_compute in (fun p => u32 (cbrt_bits 36 0 (p * 2 ^ 96))) <$> primes.

Record st := St { sa : Z; sb : Z; sc : Z; sd : Z; se : Z; sf : Z; sg : Z; sh : Z }.

Definition root (i : nat) : Z := u32 (Z.sqrt (nth i primes 0 * 2 ^ 64)).

Definition init : st := Eval vm_compute in
  St (root 0) (root 1) (root 2) (root 3) (root 4) (root 5) (root 6) (root 7).

Definition rotr (x n : Z) : Z := Z.lor (Z.shiftr x n) (u32 (Z.shiftl x (32 - n))).
Definition xor3 (a b c : Z) : Z := Z.lxor a (Z.lxor b c).
Definition S0 (x : Z) : Z := xor3 (rotr x 2) (rotr x 13) (rotr x 22).
Definition S1 (x : Z) : Z := xor3 (rotr x 6) (rotr x 11) (rotr x 25).
Definition s0 (x : Z) : Z := xor3 (rotr x 7) (rotr x 18) (Z.shiftr x 3).
Definition s1 (x : Z) : Z := xor3 (rotr x 17) (rotr x 19) (Z.shiftr x 10).
Definition Ch (x y z : Z) : Z := Z.lxor (Z.land x y) (Z.land (MaxUint32 - x) z).
Definition Maj (x y z : Z) : Z := xor3 (Z.land x y) (Z.land x z) (Z.land y z).

Definition round (s : st) (kw : Z * Z) : st :=
  let t1 := u32 (sh s + S1 (se s) + Ch (se s) (sf s) (sg s) + fst kw + snd kw) in
  let t2 := u32 (S0 (sa s) + Maj (sa s) (sb s) (sc s)) in
  St (u32 (t1 + t2)) (sa s) (sb s) (sc s) (u32 (sd s + t1)) (se s) (sf s) (sg s).

(** The message schedule, newest word first. *)
Fixpoint extend (n : nat) (w : list Z) : list Z :=
  match n with
  | O => w
  | S n =>
      extend n (u32 (s1 (nth 1 w 0) + nth 6 w 0 + s0 (nth 14 w 0) + nth 15 w 0) :: w)
  end.

Fixpoint words (n : nat) (b : bytes) : list Z :=
  match n with O => [] | S n => be_get (take 4 b) :: words n (drop 4 b) end.

Definition block (s : st) (b : bytes) : st :=
  let w := reverse (extend 48 (reverse (words 16 b))) in
  let t := fold_left round (zip K w) s in
  St (u32 (sa s + sa t)) (u32 (sb s + sb t)) (u32 (sc s + sc t)) (u32 (sd s + sd t))
     (u32 (se s + se t)) (u32 (sf s + sf t)) (u32 (sg s + sg t)) (u32 (sh s + sh t)).

Fixpoint blocks (n : nat) (s : st) (b : bytes) : st :=
  match n with O => s | S n => blocks n (block s (take 64 b)) (drop 64 b) end.

Definition pad (msg : bytes) : bytes :=
  let l := length msg in
  let z := ((119 - l mod 64) mod 64)%nat in
  msg ++ x80 :: replicate z x00 ++ be_put 8 (8 * Z.of_nat l).

Definition sum (msg : bytes) : bytes :=
  let m := pad msg in
  let s := blocks (length m / 64) init m in
  be_put 4 (sa s) ++ be_put 4 (sb s) ++ be_put 4 (sc s) ++ be_put 4 (sd s) ++
  be_put 4 (se s) ++ be_put 4 (sf s) ++ be_put 4 (sg s) ++ be_put 4 (sh s).

Lemma sum_length msg : length (sum msg) = 32%nat.
Proof. unfold sum, be_put. rewrite !length_app, !length_reverse, !le_put_length. done. Qed.

End Sha256.

(** ** CRC-32C, [crc32.Checksum(b, crc32.MakeTable(crc32.Castagnoli))] *)
Module Crc32c.

Definition poly : Z := 0x82f63b78.

Definition shift1 (c : Z) : Z :=
  if Z.odd c then Z.lxor (Z.shiftr c 1) poly else Z.shiftr c 1.

Definition step (c : Z) (b : byte) : Z := Nat.iter 8 shift1 (Z.lxor c (b2z b)).

Definition checksum (b : bytes) : Z := Z.lxor (fold_left step b MaxUint32) MaxUint32.

(** The CRC catalogue's check value for CRC-32C. *)
Example checksum_check : checksum (str "123456789") = 0xe3069283.
Proof. vm_compute. reflexivity. Qed.

Lemma lxor_range a b : 0 <= a < 2 ^ 32 -> 0 <= b < 2 ^ 32 -> 0 <= Z.lxor a b < 2 ^ 32.
Proof.
  intros Ha Hb. assert (0 <= Z.lxor a b) by (apply Z.lxor_nonneg; lia). split; [done|].
  apply Z.bounded_iff_bits_nonneg; [lia|done|]. intros i Hi.
  rewrite Z.lxor_spec.
  rewrite (proj1 (Z.bounded_iff_bits_nonneg 32 a ltac:(lia) ltac:(lia)) ltac:(lia) i Hi).
  rewrite (proj1 (Z.bounded_iff_bits_nonneg 32 b ltac:(lia) ltac:(lia)) ltac:(lia) i Hi). done.
Qed.

Lemma shift1_range c : 0 <= c < 2 ^ 32 -> 0 <= shift1 c < 2 ^ 32.
Proof.
  intros H. unfold shift1.
  assert (0 <= Z.shiftr c 1 < 2 ^ 32).
  { rewrite Z.shiftr_div_pow2 by lia. split; [apply Z.div_pos; lia|].
    apply Z.div_lt_upper_bound; lia. }
  destruct (Z.odd c); [apply lxor_range; [done|unfold poly; lia]|done].
Qed.

Lemma step_range c b : 0 <= c < 2 ^ 32 -> 0 <= step c b < 2 ^ 32.
Proof.
  intros H. pose proof (b2z_range b). unfold step. simpl.
  repeat apply shift1_range. apply lxor_range; lia.
Qed.

Lemma checksum_range b : 0 <= checksum b < 2 ^ 32.
Proof.
  unfold checksum. apply lxor_range; [|unfold MaxUint32; lia].
  assert (0 <= MaxUint32 < 2 ^ 32) as H by (unfold MaxUint32; lia).
  revert H. generalize MaxUint32. induction b as [|x b IH]; intros z H; [done|].
  apply IH, step_range, H.
Qed.

(** Every step is injective in the running state and in the byte, so a change confined to one byte
    always changes the checksum. *)
Lemma lxor_inj_r a b c : Z.lxor a c = Z.lxor b c -> a = b.
Proof.
  intros H. rewrite <- (Z.lxor_0_r a), <- (Z.lxor_0_r b), <- (Z.lxor_nilpotent c), <- !Z.lxor_assoc, H. done.
Qed.

Lemma shift1_inj a b : 0 <= a < 2 ^ 32 -> 0 <= b < 2 ^ 32 -> shift1 a = shift1 b -> a = b.
Proof.
  intros Ha Hb. unfold shift1.
  assert (forall x, 0 <= x < 2 ^ 32 -> Z.testbit (Z.shiftr x 1) 31 = false) as Hs.
  { intros x Hx. rewrite Z.shiftr_spec by lia.
    apply (proj1 (Z.bounded_iff_bits_nonneg 32 x ltac:(lia) ltac:(lia))); lia. }
  assert (forall x, 0 <= x < 2 ^ 32 -> Z.testbit (Z.lxor (Z.shiftr x 1) poly) 31 = true) as Ht.
  { intros x Hx. rewrite Z.lxor_spec, Hs by done. done. }
  rewrite !Z.shiftr_div_pow2 by lia. change (2 ^ 1) with 2.
  pose proof (Zdiv2_odd_eqn a) as Ea. pose proof (Zdiv2_odd_eqn b) as Eb. rewrite !Z.div2_div in *.
  destruct (Z.odd a) eqn:Oa, (Z.odd b) eqn:Ob; intros H.
  - apply lxor_inj_r in H. lia.
  - exfalso. apply (f_equal (fun z => Z.testbit z 31)) in H. change 2 with (2 ^ 1) in H.
    rewrite <- !Z.shiftr_div_pow2 in H by lia. rewrite Ht, Hs in H by done. done.
  - exfalso. apply (f_equal (fun z => Z.testbit z 31)) in H. change 2 with (2 ^ 1) in H.
    rewrite <- !Z.shiftr_div_pow2 in H by lia. rewrite Ht, Hs in H by done. done.
  - lia.
Qed.

Lemma iter_shift1_inj n a b :
  0 <= a < 2 ^ 32 -> 0 <= b < 2 ^ 32 -> Nat.iter n shift1 a = Nat.iter n shift1 b -> a = b.
Proof.
  intros Ha Hb. assert (forall x, 0 <= x < 2 ^ 32 -> 0 <= Nat.iter n shift1 x < 2 ^ 32) as Hr.
  { intros x Hx. induction n as [|n IH]; cbn; [done|]. apply shift1_range, IH. }
  induction n as [|n IH]; cbn; [done|]. intros H. apply IH.
  - intros x Hx. clear -Hx. induction n as [|n IH]; cbn; [done|]. apply shift1_range, IH.
  - apply shift1_inj; [..|exact H]; clear -Ha Hb;
      (induction n as [|n IH]; cbn; [done|]; apply shift1_range, IH).
Qed.

Lemma byte_range32 b : 0 <= b2z b < 2 ^ 32.
Proof. pose proof (b2z_range b). lia. Qed.

Lemma step_inj_state a b x : 0 <= a < 2 ^ 32 -> 0 <= b < 2 ^ 32 -> step a x = step b x -> a = b.
Proof.
  intros Ha Hb H. unfold step in H.
  apply iter_shift1_inj in H; [|apply lxor_range; [done|apply byte_range32]..].
  eapply lxor_inj_r, H.
Qed.

Lemma step_inj_byte a x y : 0 <= a < 2 ^ 32 -> step a x = step a y -> x = y.
Proof.
  intros Ha H. unfold step in H.
  apply iter_shift1_inj in H; [|apply lxor_range; [done|apply byte_range32]..].
  apply b2z_inj. rewrite !(Z.lxor_comm a) in H. eapply lxor_inj_r, H.
Qed.

Lemma fold_step_range l a : 0 <= a < 2 ^ 32 -> 0 <= fold_left step l a < 2 ^ 32.
Proof. revert a. induction l as [|x l IH]; intros a Ha; [done|]. apply IH, step_range, Ha. Qed.

Lemma fold_step_inj l a b :
  0 <= a < 2 ^ 32 -> 0 <= b < 2 ^ 32 -> fold_left step l a = fold_left step l b -> a = b.
Proof.
  revert a b. induction l as [|x l IH]; intros a b Ha Hb; cbn [fold_left]; [done|]. intros H.
  apply IH in H; [|by apply step_range..]. apply step_inj_state in H; done.
Qed.

Lemma checksum_one_byte pre post x y :
  checksum (pre ++ x :: post) = checksum (pre ++ y :: post) -> x = y.
Proof.
  unfold checksum. intros H%lxor_inj_r. rewrite !fold_left_app in H. cbn [fold_left] in H.
  assert (0 <= fold_left step pre MaxUint32 < 2 ^ 32) as Hr
    by (apply fold_step_range; unfold MaxUint32; lia).
  apply fold_step_inj in H; [|by apply step_range..]. apply step_inj_byte in H; done.
Qed.

End Crc32c.

(** ** [encoding/hex] *)
Module Hex.

Definition digits : bytes := str "0123456789abcdef".

Definition digit (n : Z) : byte := nth (Z.to_nat n) digits x00.

Definition encode (b : bytes) : bytes :=
  flat_map (fun c => [digit (b2z c / 16); digit (b2z c mod 16)]) b.

(** [fromHexChar]: both cases of the letters are accepted. *)
Definition value (c : byte) : option Z :=
  let z := b2z c in
  if (48 <=? z) && (z <=? 57) then Some (z - 48)
  else if (97 <=? z) && (z <=? 102) then Some (z - 87)
  else if (65 <=? z) && (z <=? 70) then Some (z - 55)
  else None.

(** [DecodeString]: an odd length or a byte outside the alphabet is an error. *)
Fixpoint decode (s : bytes) : option bytes :=
  match s with
  | [] => Some []
  | [_] => None
  | a :: b :: s =>
      match value a, value b, decode s with
      | Some x, Some y, Some r => Some (z2b (16 * x + y) :: r)
      | _, _, _ => None
      end
  end.

(** FIPS 180-4's "abc" vector, through both functions. *)
Example sha256_abc :
  encode (Sha256.sum (str "abc")) =
  str "ba7816bf8f01cfea414140de5dae2223b00361a396177a9cb410ff61f20015ad".
Proof. vm_compute. reflexivity. Qed.

Lemma value_digit n : 0 <= n < 16 -> value (digit n) = Some n.
Proof.
  intros H.
  assert (Forall (fun i => value (digit (Z.of_nat i)) = Some (Z.of_nat i)) (seq 0 16)) as HF
    by (repeat constructor).
  rewrite Forall_forall in HF.
  specialize (HF (Z.to_nat n)). rewrite Z2Nat.id in HF by lia.
  apply HF, elem_of_seq. lia.
Qed.

Lemma digit_not_h n : digit n <> "h"%byte.
Proof.
  unfold digit. destruct (nth_in_or_default (Z.to_nat n) digits x00) as [Hin| ->]; [|done].
  intros Hh. rewrite Hh in Hin. vm_compute in Hin. intuition congruence.
Qed.

Lemma hex_decode_encode b : decode (encode b) = Some b.
Proof.
  induction b as [|c b IH]; [done|].
  cbn [encode flat_map app decode]. fold (encode b).
  pose proof (b2z_range c).
  pose proof (Z.div_lt_upper_bound (b2z c) 16 16).
  pose proof (Z.div_pos (b2z c) 16).
  pose proof (Z.mod_pos_bound (b2z c) 16 eq_refl).
  rewrite !value_digit, IH by lia.
  rewrite <- Z.div_mod, z2b_b2z by lia. done.
Qed.

Lemma encode_length b : length (encode b) = (2 * length b)%nat.
Proof.
  induction b as [|c b IH]; [done|].
  cbn [encode flat_map app length]. fold (encode b). rewrite IH. lia.
Qed.

Lemma decode_length s b : decode s = Some b -> length s = (2 * length b)%nat.
Proof.
  revert b. induction s as [s IH] using (induction_ltof1 _ (@length byte)).
  unfold ltof in IH. destruct s as [|x [|y s]]; intros b; cbn [decode]; try done.
  - intros [= <-]. done.
  - destruct (value x), (value y), (decode s) eqn:E; try done. intros [= <-].
    apply IH in E; cbn [length] in *; lia.
Qed.

End Hex.

(** ** [float64], as its IEEE 754 bit pattern

    A Go [float64] is represented by the 64-bit value [math.Float64bits] returns, so
    [Float64bits] and [Float64frombits] are the identity and every NaN payload is kept. *)
Module F64.

Inductive class := NaN | Inf (neg : bool) | Fin (neg : bool) (m e : Z).

(** [Fin s m e] is [(-1)^s * m * 2^e]. *)
Definition classify (bits : Z) : class :=
  let s := Z.testbit bits 63 in
  let e := Z.land (Z.shiftr bits 52) 2047 in
  let m := Z.land bits (2 ^ 52 - 1) in
  if e =? 2047 then (if m =? 0 then Inf s else NaN)
  else if e =? 0 then Fin s m (-1074)
  else Fin s (m + 2 ^ 52) (e - 1075).

Definition isNaN (v : Z) : bool := match classify v with NaN => true | _ => false end.

(** [v == math.Trunc(v)], for a value that is not a NaN. *)
Definition isIntegral (v : Z) : bool :=
  match classify v with
  | NaN => false
  | Inf _ => true
  | Fin _ m e => (0 <=? e) || (m mod 2 ^ (- e) =? 0)
  end.

(** Comparison with an integer constant that a float64 represents exactly; a comparison with a NaN
    is false. *)
Definition cmp_int (v z : Z) : option comparison :=
  match classify v with
  | NaN => None
  | Inf s => Some (if s then Lt else Gt)
  | Fin s m e =>
      let m := if s then - m else m in
      Some (if 0 <=? e then Z.compare (m * 2 ^ e) z else Z.compare m (z * 2 ^ (- e)))
  end.
Definition lt_int (v z : Z) : bool := match cmp_int v z with Some Lt => true | _ => false end.
Definition gt_int (v z : Z) : bool := match cmp_int v z with Some Gt => true | _ => false end.
Definition le_int (v z : Z) : bool :=
  match cmp_int v z with Some Lt | Some Eq => true | _ => false end.
Definition ge_int (v z : Z) : bool :=
  match cmp_int v z with Some Gt | Some Eq => true | _ => false end.

(** [int(v)], which truncates toward zero (finite values only). *)
Definition to_int (v : Z) : Z :=
  match classify v with
  | Fin s m e =>
      let a := if 0 <=? e then m * 2 ^ e else m / 2 ^ (- e) in if s then - a else a
  | _ => 0
  end.

(** [float64(n)] for a non-negative integer: round to nearest, ties to even. *)
Definition of_int (n : Z) : Z :=
  if n <=? 0 then 0
  else
    let l := Z.log2 n in
    if l <=? 52 then (l + 1023) * 2 ^ 52 + (n * 2 ^ (52 - l) - 2 ^ 52)
    else
      let d := 2 ^ (l - 52) in
      let q := n / d in
      let r := 2 * (n mod d) in
      let q := if (d <? r) || ((r =? d) && Z.odd q) then q + 1 else q in
      (l + 1023) * 2 ^ 52 + (q - 2 ^ 52).

(** Agreement with the Standard Library's IEEE 754 rounding on both sides of [2^53]. *)
Definition sf_bits (f : spec_float) : Z :=
  match f with
  | S754_finite false m e =>
      if Zpos m <? 2 ^ 52 then Zpos m else (e + 1075) * 2 ^ 52 + (Zpos m - 2 ^ 52)
  | _ => 0
  end.

Example of_int_rounds :
  Forall (fun n => of_int n = sf_bits (binary_normalize 53 1024 n 0 false))
    [1; 2; 3; 64; 2719; 95872; 2 ^ 53 - 1; 2 ^ 53; 2 ^ 53 + 1; 2 ^ 53 + 2; 2 ^ 53 + 3;
     2 ^ 54 - 1; 2 ^ 61; 2 ^ 61 + 255; 2 ^ 61 + 256; 2 ^ 61 + 768; 2 ^ 63 - 1].
Proof. repeat constructor. Qed.

Lemma classify_normal E f :
  0 < E < 2047 -> 0 <= f < 2 ^ 52 ->
  classify (E * 2 ^ 52 + f) = Fin false (f + 2 ^ 52) (E - 1075).
Proof.
  intros HE Hf. unfold classify.
  assert (Z.shiftr (E * 2 ^ 52 + f) 52 = E) as Hs.
  { rewrite Z.shiftr_div_pow2 by lia. rewrite Z.add_comm, Z.div_add, Z.div_small by lia. lia. }
  assert (Z.land (E * 2 ^ 52 + f) (2 ^ 52 - 1) = f) as Hm.
  { change (2 ^ 52 - 1) with (Z.ones 52). rewrite Z.land_ones by lia.
    rewrite Z.add_comm, Z.mod_add, Z.mod_small by lia. done. }
  assert (Z.testbit (E * 2 ^ 52 + f) 63 = false) as Ht.
  { apply Z.bits_above_log2; [lia|]. apply Z.log2_lt_pow2; lia. }
  rewrite Hs, Hm, Ht. change 2047 with (Z.ones 11). rewrite Z.land_ones by lia.
  rewrite Z.mod_small by lia. change (Z.ones 11) with 2047.
  destruct (E =? 2047) eqn:E1; bsolve; [lia|]. destruct (E =? 0) eqn:E2; bsolve; [lia|done].
Qed.

(** The integers a header param carries: below [2^53], and the powers of two up to [2^62]. *)
Definition exact_int (n : Z) : Prop :=
  0 <= n < 2 ^ 53 \/ exists k, 0 <= k <= 62 /\ n = 2 ^ k.

Lemma classify_of_int n :
  exact_int n -> 0 < n ->
  exists m e, classify (of_int n) = Fin false m e /\
    ((e <= 0 /\ m = n * 2 ^ (- e)) \/ (0 <= e /\ n = m * 2 ^ e)).
Proof.
  intros Hx Hn. unfold of_int. destruct (n <=? 0) eqn:E0; bsolve; [lia|].
  pose proof (Z.log2_spec n Hn) as [Hl1 Hl2]. pose proof (Z.log2_nonneg n).
  rewrite Z.pow_succ_r in Hl2 by lia.
  destruct (Z.log2 n <=? 52) eqn:El; bsolve.
  - assert (2 ^ 52 = 2 ^ Z.log2 n * 2 ^ (52 - Z.log2 n)) as H52
      by (rewrite <- Z.pow_add_r by lia; f_equal; lia).
    rewrite classify_normal by nia.
    eexists _, _. split; [done|]. left. split; [lia|].
    replace (- (Z.log2 n + 1023 - 1075)) with (52 - Z.log2 n) by lia. lia.
  - destruct Hx as [Hx|(k & Hk & ->)].
    { pose proof (Z.log2_lt_pow2 n 53). lia. }
    rewrite Z.log2_pow2 in * by lia.
    assert (2 ^ k = 2 ^ 52 * 2 ^ (k - 52)) as Hp
      by (rewrite <- Z.pow_add_r by lia; f_equal; lia).
    assert (0 < 2 ^ (k - 52)) by lia.
    rewrite Hp, Z.mod_mul, Z.div_mul by lia.
    change (2 * 0) with 0.
    destruct (2 ^ (k - 52) <? 0) eqn:E1; bsolve; [lia|].
    destruct (0 =? 2 ^ (k - 52)) eqn:E2; bsolve; [lia|]. cbn [orb andb].
    rewrite classify_normal by lia.
    eexists _, _. split; [done|]. right. split; [lia|].
    replace (k + 1023 - 1075) with (k - 52) by lia. lia.
Qed.

Lemma of_int_0 : classify (of_int 0) = Fin false 0 (-1074).
Proof. reflexivity. Qed.

Lemma isNaN_of_int n : exact_int n -> isNaN (of_int n) = false.
Proof.
  intros Hx. unfold isNaN. destruct (decide (0 < n)) as [Hn|Hn].
  - destruct (classify_of_int n Hx Hn) as (m & e & -> & _). done.
  - unfold of_int. destruct (n <=? 0) eqn:E; bsolve; [done|lia].
Qed.

Lemma isIntegral_of_int n : exact_int n -> isIntegral (of_int n) = true.
Proof.
  intros Hx. unfold isIntegral. destruct (decide (0 < n)) as [Hn|Hn].
  - destruct (classify_of_int n Hx Hn) as (m & e & -> & [[He ->]|[He _]]).
    + destruct (0 <=? e) eqn:E; [done|]. rewrite Z.mod_mul by lia. done.
    + destruct (0 <=? e) eqn:E; bsolve; [done|lia].
  - unfold of_int. destruct (n <=? 0) eqn:E; bsolve; [done|lia].
Qed.

Lemma cmp_int_of_int n z : exact_int n -> cmp_int (of_int n) z = Some (Z.compare n z).
Proof.
  intros Hx. unfold cmp_int. destruct (decide (0 < n)) as [Hn|Hn].
  - destruct (classify_of_int n Hx Hn) as (m & e & -> & [[He ->]|[He ->]]).
    + destruct (0 <=? e) eqn:E; bsolve.
      * replace e with 0 by lia. f_equal. rewrite !Z.mul_1_r. done.
      * f_equal. symmetry. apply Zmult_compare_compat_r. lia.
    + destruct (0 <=? e) eqn:E; bsolve; [done|lia].
  - assert (n = 0) as -> by (destruct Hx as [|(k & ? & ->)]; [lia|]; pose proof (Z.pow_pos_nonneg 2 k); lia).
    rewrite of_int_0. cbn [Z.leb]. f_equal. change (0 <=? -1074) with false. cbn iota.
    rewrite <- (Z.mul_0_l (2 ^ (- -1074))) at 1. symmetry. apply Zmult_compare_compat_r. lia.
Qed.

Lemma to_int_of_int n : exact_int n -> to_int (of_int n) = n.
Proof.
  intros Hx. unfold to_int. destruct (decide (0 < n)) as [Hn|Hn].
  - destruct (classify_of_int n Hx Hn) as (m & e & -> & [[He ->]|[He ->]]).
    + destruct (0 <=? e) eqn:E; bsolve.
      * replace e with 0 by lia. lia.
      * rewrite Z.div_mul by lia. done.
    + destruct (0 <=? e) eqn:E; bsolve; [done|lia].
  - assert (n = 0) as -> by (destruct Hx as [|(k & ? & ->)]; [lia|]; pose proof (Z.pow_pos_nonneg 2 k); lia).
    reflexivity.
Qed.

Lemma of_int_range n : exact_int n -> 0 <= of_int n < 2 ^ 64.
Proof.
  intros Hx. unfold of_int. destruct (n <=? 0) eqn:E0; bsolve; [lia|].
  pose proof (Z.log2_spec n ltac:(lia)) as [Hl1 Hl2]. pose proof (Z.log2_nonneg n).
  rewrite Z.pow_succ_r in Hl2 by lia.
  assert (Z.log2 n < 63) by (apply Z.log2_lt_pow2; [lia|]; destruct Hx as [|(k & ? & ->)];
    [lia|apply Z.pow_lt_mono_r; lia]).
  destruct (Z.log2 n <=? 52) eqn:El; bsolve.
  - assert (2 ^ 52 = 2 ^ Z.log2 n * 2 ^ (52 - Z.log2 n)) as H52
      by (rewrite <- Z.pow_add_r by lia; f_equal; lia). nia.
  - set (d := 2 ^ (Z.log2 n - 52)).
    assert (2 ^ Z.log2 n = 2 ^ 52 * d) as Hp
      by (unfold d; rewrite <- Z.pow_add_r by lia; f_equal; lia).
    assert (0 < d) by (unfold d; lia).
    assert (2 ^ 52 <= n / d) by (apply Z.div_le_lower_bound; lia).
    assert (n / d < 2 ^ 53) by (apply Z.div_lt_upper_bound; lia).
    match goal with |- context [if ?b then _ else _] => destruct b end; lia.
Qed.

(** Comparison of two floats: a finite value is an integer multiple of [2^-1074]. *)
Definition scaled (s : bool) (m e : Z) : Z := (if s then - m else m) * 2 ^ (e + 1074).

Definition cmp (v w : Z) : option comparison :=
  match classify v, classify w with
  | NaN, _ | _, NaN => None
  | Inf s, Inf t => Some (if Bool.eqb s t then Eq else if s then Lt else Gt)
  | Inf s, Fin _ _ _ => Some (if s then Lt else Gt)
  | Fin _ _ _, Inf t => Some (if t then Gt else Lt)
  | Fin s m e, Fin t n f => Some (Z.compare (scaled s m e) (scaled t n f))
  end.
(** [v / w]: the Standard Library's IEEE 754 division, on bit patterns. *)
Definition to_sf (v : Z) : spec_float :=
  match classify v with
  | NaN => S754_nan
  | Inf s => S754_infinity s
  | Fin s (Zpos m) e => S754_finite s m e
  | Fin s _ _ => S754_zero s
  end.

Definition of_sf (f : spec_float) : Z :=
  let sign (s : bool) := if s then 2 ^ 63 else 0 in
  match f with
  | S754_zero s => sign s
  | S754_infinity s => sign s + 0x7ff0000000000000
  | S754_nan => 0x7ff8000000000001
  | S754_finite s m e =>
      sign s + (if Zpos m <? 2 ^ 52 then Zpos m else (e + 1075) * 2 ^ 52 + (Zpos m - 2 ^ 52))
  end.

Definition div (v w : Z) : Z := of_sf (SFdiv 53 1024 (to_sf v) (to_sf w)).

(** 1/3, 2/3, 100/128 and 1/0. *)
Example div_vectors :
  (div (of_int 1) (of_int 3), div (of_int 2) (of_int 3), div (of_int 100) (of_int 128), div (of_int 1) (of_int 0))
  = (0x3fd5555555555555, 0x3fe5555555555555, 0x3fe9000000000000, 0x7ff0000000000000).
Proof. reflexivity. Qed.

Definition ge (v w : Z) : bool := match cmp v w with Some Gt | Some Eq => true | _ => false end.

Definition lt (v w : Z) : bool := match cmp v w with Some Lt => true | _ => false end.
Definition gt (v w : Z) : bool := match cmp v w with Some Gt => true | _ => false end.

Lemma classify_exp v s m e : classify v = Fin s m e -> -1074 <= e.
Proof.
  unfold classify. destruct (_ =? 2047); [by destruct (_ =? 0)|]. destruct (_ =? 0) eqn:E; intros [= <- <- <-]; [lia|].
  bsolve. assert (0 <= Z.land (v ≫ 52) 2047) by (apply Z.land_nonneg; right; lia). lia.
Qed.

Lemma compare_mul_pos a b p : 0 < p -> Z.compare (a * p) (b * p) = Z.compare a b.
Proof.
  intros Hp. destruct (Z.compare_spec a b) as [->|H|H].
  - apply Z.compare_refl.
  - apply Z.compare_lt_iff. nia.
  - apply Z.compare_gt_iff. nia.
Qed.

Lemma cmp_int_scaled v z s m e :
  classify v = Fin s m e -> cmp_int v z = Some (Z.compare (scaled s m e) (z * 2 ^ 1074)).
Proof.
  intros Hc. pose proof (classify_exp v s m e Hc) as He. unfold cmp_int. rewrite Hc. f_equal. unfold scaled.
  set (M := if s then - m else m).
  assert (0 < 2 ^ 1074) by (apply Z.pow_pos_nonneg; lia).
  assert (0 < 2 ^ (e + 1074)) by (apply Z.pow_pos_nonneg; lia).
  destruct (0 <=? e) eqn:E; bsolve.
  - rewrite Z.pow_add_r, Z.mul_assoc, compare_mul_pos by lia. done.
  - replace (2 ^ 1074) with (2 ^ (- e) * 2 ^ (e + 1074)) by (rewrite <- Z.pow_add_r by lia; f_equal; lia).
    rewrite Z.mul_assoc, compare_mul_pos by lia. done.
Qed.

(** A value between two constants of the open interval (0, 1) is in it. *)
Lemma between_rates v lo hi :
  isNaN v = false -> lt v lo = false -> gt v hi = false ->
  le_int lo 0 = false -> ge_int hi 1 = false -> isNaN lo = false -> isNaN hi = false ->
  le_int v 0 = false /\ ge_int v 1 = false.
Proof.
  unfold isNaN, lt, gt, cmp, le_int, ge_int.
  destruct (classify v) as [|s|s m e] eqn:Ev; [done|..]; intros _;
    destruct (classify lo) as [|t|t n f] eqn:El, (classify hi) as [|u|u o g] eqn:Eh; try done;
    rewrite ?(cmp_int_scaled lo _ _ _ _ El), ?(cmp_int_scaled hi _ _ _ _ Eh), ?(cmp_int_scaled v _ _ _ _ Ev);
    unfold cmp_int; rewrite ?Ev, ?El, ?Eh;
    repeat match goal with |- context [Bool.eqb ?a ?b] => destruct a, b; cbn end; try (destruct s; done); try (destruct t; done);
    try (destruct u; done); try (destruct s, t, u; done).
  repeat match goal with |- context [Z.compare ?a ?b] => destruct (Z.compare_spec a b) end;
    intros; try done; try (split; done); lia.
Qed.

(** An integral float lies in the range its comparisons say, and so does its conversion. *)
Lemma to_int_scaled v s m e :
  classify v = Fin s m e -> isIntegral v = true -> scaled s m e = to_int v * 2 ^ 1074.
Proof.
  intros Hc. pose proof (classify_exp v s m e Hc) as He. unfold isIntegral, to_int, scaled. rewrite Hc.
  destruct (0 <=? e) eqn:E; bsolve; cbn [orb]; intros Hi.
  - rewrite Z.pow_add_r by lia. generalize (2 ^ e) (2 ^ 1074). intros. destruct s; ring.
  - bsolve. assert (0 < 2 ^ (- e)) by (apply Z.pow_pos_nonneg; lia).
    assert (m = m / 2 ^ (- e) * 2 ^ (- e)) as Hm by (rewrite (Z.div_mod m (2 ^ (- e))) at 1 by lia; lia).
    replace (2 ^ 1074) with (2 ^ (- e) * 2 ^ (e + 1074)) by (rewrite <- Z.pow_add_r by lia; f_equal; lia).
    remember (m / 2 ^ (- e)) as q eqn:Hq. clear Hq. rewrite Hm.
    generalize (2 ^ (- e)) (2 ^ (e + 1074)). intros. destruct s; ring.
Qed.

Lemma to_int_bounds v lo hi :
  isNaN v = false -> isIntegral v = true -> lt_int v lo = false -> gt_int v hi = false ->
  lo <= to_int v <= hi.
Proof.
  intros Hn Hi. unfold isNaN in Hn. unfold lt_int, gt_int.
  destruct (classify v) as [|s|s m e] eqn:E; [done| |].
  - unfold cmp_int. rewrite E. by destruct s.
  - rewrite !(cmp_int_scaled v _ _ _ _ E), (to_int_scaled v _ _ _ E Hi).
    rewrite !compare_mul_pos by (apply Z.pow_pos_nonneg; lia).
    destruct (Z.compare_spec (to_int v) lo), (Z.compare_spec (to_int v) hi); intros; try done; lia.
Qed.

End F64.
