(* ===== verification/F32.v ===== *)
(** * float32 arithmetic

    The relevance scores of the dependence graph are Go [float32] values.  A finite value is kept as
    its sign and its magnitude in units of 2^-149, the spacing of the subnormals, so every finite
    [float32] is an integer number of units and comparison is integer comparison.  Multiplication
    rounds to nearest, ties to even, at 24 bits of precision, and overflows to infinity, as IEEE 754
    and the Go specification ask.  The lemmas the score propagation needs follow: rounding is
    monotone, exact on representable values, and multiplying by a factor of at most one never
    increases a value. *)

From S2P Require Import Prelude.
From Stdlib Require Import Floats.SpecFloat.

(** A [float32], NaN payloads identified. *)
Inductive f32 :=
  | NaN
  | Inf (neg : bool)
  | Fin (neg : bool) (v : Z).

#[global] Instance f32_eq_dec : EqDecision f32.
Proof. solve_decision. Defined.

#[local] Instance spec_float_eq_dec : EqDecision spec_float.
Proof. solve_decision. Defined.

Module F32.

(** One, in units of 2^-149, and the first magnitude that overflows. *)
Definition unit_one : Z := 2 ^ 149.
Definition overflow : Z := 2 ^ 277.

Definition bitlen (n : Z) : Z := if n <=? 0 then 0 else Z.log2 n + 1.

(** The quotient rounded to the nearest integer, ties to even. *)
Definition div_rne (p d : Z) : Z :=
  let q := p / d in
  match Z.compare (2 * (p mod d)) d with
  | Lt => q
  | Gt => q + 1
  | Eq => if Z.even q then q else q + 1
  end.

(** [p / d] units rounded to 24 significant bits. *)
Definition excess (n : Z) : Z := Z.max 0 (bitlen n - 24).
Definition round (p d : Z) : Z :=
  let k := excess (p / d) in div_rne p (d * 2 ^ k) * 2 ^ k.

Definition make (neg : bool) (v : Z) : f32 := if v >=? overflow then Inf neg else Fin neg v.

(** A decimal constant of the source, [p / q], as the compiler converts it. *)
Definition of_ratio (p q : Z) : f32 := make false (round (p * unit_one) q).

Definition one : f32 := Fin false unit_one.
Definition zero : f32 := Fin false 0.

(** [x * y]. *)
Definition mul (x y : f32) : f32 :=
  match x, y with
  | NaN, _ | _, NaN => NaN
  | Inf s, Inf t => Inf (xorb s t)
  | Inf s, Fin t v | Fin t v, Inf s => if v =? 0 then NaN else Inf (xorb s t)
  | Fin s v, Fin t w => make (xorb s t) (round (v * w) unit_one)
  end.

Definition signed (neg : bool) (v : Z) : Z := if neg then - v else v.

(** The comparisons of the language: false whenever an operand is NaN. *)
Definition cmp (x y : f32) : option comparison :=
  match x, y with
  | NaN, _ | _, NaN => None
  | Inf s, Inf t => Some (match s, t with true, false => Lt | false, true => Gt | _, _ => Eq end)
  | Inf s, Fin _ _ => Some (if s then Lt else Gt)
  | Fin _ _, Inf t => Some (if t then Gt else Lt)
  | Fin s v, Fin t w => Some (Z.compare (signed s v) (signed t w))
  end.

Definition ltb (x y : f32) : bool := match cmp x y with Some Lt => true | _ => false end.
Definition gtb (x y : f32) : bool := match cmp x y with Some Gt => true | _ => false end.
Definition leb (x y : f32) : bool := match cmp x y with Some (Lt | Eq) => true | _ => false end.
(** [x != y], true for NaN. *)
Definition neb (x y : f32) : bool := match cmp x y with Some Eq => false | _ => true end.

Definition isNaN (x : f32) : bool := match x with NaN => true | _ => false end.
Definition isInf (x : f32) : bool := match x with Inf _ => true | _ => false end.

(** The Standard Library's specification of a binary float, for comparison with it. *)
Definition to_sf (x : f32) : spec_float :=
  match x with
  | NaN => S754_nan
  | Inf s => S754_infinity s
  | Fin s 0 => S754_zero s
  | Fin s v => let k := excess v in
      match v / 2 ^ k with Zpos m => S754_finite s m (k - 149) | _ => S754_nan end
  end.

(** ** Correctness of the arithmetic against the Standard Library on sample operands *)

Definition samples : list f32 :=
  [of_ratio 85 100; of_ratio 60 100; of_ratio 88 100; of_ratio 95 100; of_ratio 30 100; one; zero;
   of_ratio 1 10000; Fin false 1; Fin true 3; of_ratio 16777217 1; make false (2 ^ 276); Inf true; NaN].

Example mul_agrees_with_specfloat :
  forallb (fun x => forallb (fun y =>
    bool_decide (to_sf (mul x y) = SFmul 24 128 (to_sf x) (to_sf y))) samples) samples = true.
Proof. vm_compute. reflexivity. Qed.

Example default_decay_value : of_ratio 85 100 = Fin false (0xD9999A * 2 ^ 125).
Proof. vm_compute. reflexivity. Qed.

Lemma cmp_antisym x y : cmp y x = CompOpp <$> cmp x y.
Proof.
  destruct x as [|s|s v], y as [|t|t w]; cbn; try done; try (destruct s; done); try (destruct t; done);
    try (destruct s, t; done). by rewrite Z.compare_antisym.
Qed.

Lemma neb_sym x y : neb x y = neb y x.
Proof. unfold neb. rewrite (cmp_antisym x y). destruct (cmp x y) as [[]|]; done. Qed.

Lemma gtb_asym x y : gtb x y = true -> gtb y x = false.
Proof. unfold gtb. rewrite (cmp_antisym x y). destruct (cmp x y) as [[]|]; done. Qed.

(** ** Rounding *)

(** Representable magnitudes: 24 significant bits. *)
Definition representable (v : Z) : Prop := exists q k, 0 <= q <= 2 ^ 24 /\ 0 <= k /\ v = q * 2 ^ k.

Lemma div_rne_mono p p' d : 0 < d -> p <= p' -> div_rne p d <= div_rne p' d.
Proof.
  intros Hd Hp. unfold div_rne.
  pose proof (Z.div_mod p d ltac:(lia)). pose proof (Z.div_mod p' d ltac:(lia)).
  pose proof (Z.mod_pos_bound p d Hd). pose proof (Z.mod_pos_bound p' d Hd).
  pose proof (Z.div_le_mono p p' d Hd Hp).
  destruct (Z.eq_dec (p / d) (p' / d)) as [E|E].
  - rewrite E in *. assert (p mod d <= p' mod d) by lia.
    destruct (Z.compare_spec (2 * (p mod d)) d), (Z.compare_spec (2 * (p' mod d)) d);
      destruct (Z.even (p' / d)); lia.
  - destruct (2 * (p mod d) ?= d), (2 * (p' mod d) ?= d);
      destruct (Z.even (p / d)), (Z.even (p' / d)); lia.
Qed.

Lemma div_rne_exact q d : 0 < d -> div_rne (q * d) d = q.
Proof.
  intros Hd. unfold div_rne. rewrite Z.div_mul, Z.mod_mul by lia.
  change (2 * 0) with 0. destruct (Z.compare_spec 0 d); lia.
Qed.

Lemma div_rne_le n p d : 0 < d -> p <= n * d -> div_rne p d <= n.
Proof. intros Hd H. rewrite <- (div_rne_exact n d Hd). apply div_rne_mono; done. Qed.

Lemma div_rne_ge n p d : 0 < d -> n * d <= p -> n <= div_rne p d.
Proof. intros Hd H. rewrite <- (div_rne_exact n d Hd) at 1. apply div_rne_mono; done. Qed.

Lemma bitlen_spec n : 0 < n -> 2 ^ (bitlen n - 1) <= n < 2 ^ bitlen n.
Proof.
  intros H. unfold bitlen. destruct (Z.leb_spec n 0); [lia|].
  replace (Z.log2 n + 1 - 1) with (Z.log2 n) by lia.
  pose proof (Z.log2_spec n H). replace (Z.log2 n + 1) with (Z.succ (Z.log2 n)) by lia. done.
Qed.

Lemma bitlen_nonneg n : 0 <= bitlen n.
Proof. unfold bitlen. destruct (Z.leb_spec n 0); [lia|]. pose proof (Z.log2_nonneg n). lia. Qed.

Lemma bitlen_mono n m : n <= m -> bitlen n <= bitlen m.
Proof.
  intros H. unfold bitlen. destruct (Z.leb_spec n 0), (Z.leb_spec m 0); try lia.
  - pose proof (Z.log2_nonneg m). lia.
  - pose proof (Z.log2_le_mono n m H). lia.
Qed.

Lemma excess_nonneg n : 0 <= excess n.
Proof. unfold excess. lia. Qed.

(** The rounded magnitude lies in the binade of the value, its upper end included. *)
Lemma round_upper p d : 0 <= p -> 0 < d ->
  div_rne p (d * 2 ^ excess (p / d)) <= 2 ^ 24.
Proof.
  intros Hp Hd. set (n := p / d). pose proof (Z.pow_pos_nonneg 2 (excess n) ltac:(lia) (excess_nonneg n)).
  apply div_rne_le; [lia|].
  assert (n < 2 ^ (24 + excess n)).
  { destruct (Z_le_gt_dec n 0); [pose proof (Z.pow_pos_nonneg 2 (24 + excess n)); pose proof (excess_nonneg n); lia|].
    pose proof (bitlen_spec n ltac:(lia)) as [_ Hn]. eapply Z.lt_le_trans; [exact Hn|].
    apply Z.pow_le_mono_r; unfold excess; lia. }
  rewrite Z.pow_add_r in H0 by (pose proof (excess_nonneg n); lia).
  pose proof (Z.mul_succ_div_gt p d Hd) as Hs. fold n in Hs. nia.
Qed.

Lemma round_lower p d : 0 <= p -> 0 < d -> 0 < excess (p / d) ->
  2 ^ (bitlen (p / d) - 1) <= round p d.
Proof.
  intros Hp Hd He. unfold round. set (n := p / d) in *.
  assert (excess n = bitlen n - 24) as Hk by (unfold excess in *; lia).
  assert (Hn : 0 < n). { unfold excess, bitlen in He. destruct (Z.leb_spec n 0); lia. }
  pose proof (bitlen_spec n Hn) as [Hb _].
  replace (bitlen n - 1) with (23 + excess n) in * by lia. rewrite Z.pow_add_r in * by lia.
  pose proof (Z.pow_pos_nonneg 2 (excess n) ltac:(lia) ltac:(lia)).
  apply Z.mul_le_mono_nonneg_r; [lia|]. apply div_rne_ge; [lia|].
  pose proof (Z.mul_div_le p d Hd) as Hq. fold n in Hq. nia.
Qed.

Lemma round_mono p p' d : 0 <= p -> 0 < d -> p <= p' -> round p d <= round p' d.
Proof.
  intros Hp Hd Hle. pose proof (Z.div_le_mono p p' d Hd Hle) as Hn.
  pose proof (bitlen_mono _ _ Hn) as Hb.
  destruct (Z.eq_dec (excess (p / d)) (excess (p' / d))) as [E|E].
  - unfold round. rewrite E.
    pose proof (Z.pow_pos_nonneg 2 (excess (p' / d)) ltac:(lia) (excess_nonneg _)).
    apply Z.mul_le_mono_nonneg_r; [lia|]. apply div_rne_mono; lia.
  - assert (excess (p / d) < excess (p' / d)) as Hlt by (unfold excess in *; lia).
    pose proof (excess_nonneg (p / d)).
    etransitivity; [|apply round_lower; lia].
    assert (24 + excess (p / d) <= bitlen (p' / d) - 1) by (unfold excess in *; lia).
    unfold round. etransitivity; [apply Z.mul_le_mono_nonneg_r; [apply Z.pow_nonneg; lia|apply round_upper; lia]|].
    rewrite <- Z.pow_add_r by lia. apply Z.pow_le_mono_r; lia.
Qed.

Lemma round_nonneg p d : 0 <= p -> 0 < d -> 0 <= round p d.
Proof.
  intros Hp Hd. unfold round.
  pose proof (Z.pow_pos_nonneg 2 (excess (p / d)) ltac:(lia) (excess_nonneg _)).
  apply Z.mul_nonneg_nonneg; [|lia]. apply div_rne_ge; lia.
Qed.

Lemma round_representable p d : 0 <= p -> 0 < d -> representable (round p d).
Proof.
  intros Hp Hd. exists (div_rne p (d * 2 ^ excess (p / d))), (excess (p / d)).
  pose proof (Z.pow_pos_nonneg 2 (excess (p / d)) ltac:(lia) (excess_nonneg _)).
  split; [split; [apply div_rne_ge; lia|apply round_upper; done]|]. split; [apply excess_nonneg|done].
Qed.

(** A representable magnitude is a multiple of its own spacing. *)
Lemma representable_multiple v : 0 <= v -> representable v -> exists q, v = q * 2 ^ excess v.
Proof.
  intros Hv (q & k & Hq & Hk & ->).
  destruct (Z.eq_dec q (2 ^ 24)) as [->|Hne].
  - rewrite <- Z.pow_add_r by lia. assert (excess (2 ^ (24 + k)) = k + 1) as ->.
    { unfold excess, bitlen. pose proof (Z.pow_pos_nonneg 2 (24 + k) ltac:(lia) ltac:(lia)).
      destruct (Z.leb_spec (2 ^ (24 + k)) 0); [lia|]. rewrite Z.log2_pow2 by lia. lia. }
    exists (2 ^ 23). rewrite <- Z.pow_add_r by lia. f_equal. lia.
  - assert (excess (q * 2 ^ k) <= k) as He.
    { unfold excess. destruct (Z.eq_dec q 0) as [->|Hq0]; [rewrite Z.mul_0_l; cbn; lia|].
      enough (bitlen (q * 2 ^ k) <= 24 + k) by lia. unfold bitlen.
      pose proof (Z.pow_pos_nonneg 2 k ltac:(lia) Hk).
      destruct (Z.leb_spec (q * 2 ^ k) 0); [nia|]. rewrite Z.log2_mul_pow2 by lia.
      assert (Z.log2 q < 24) by (apply Z.log2_lt_pow2; lia). lia. }
    pose proof (excess_nonneg (q * 2 ^ k)).
    exists (q * 2 ^ (k - excess (q * 2 ^ k))). rewrite <- Z.mul_assoc, <- Z.pow_add_r by lia.
    do 2 f_equal. lia.
Qed.

Lemma round_exact v d : 0 <= v -> 0 < d -> representable v -> round (v * d) d = v.
Proof.
  intros Hv Hd Hr. unfold round. rewrite Z.div_mul by lia.
  destruct (representable_multiple v Hv Hr) as [q Hq].
  pose proof (Z.pow_pos_nonneg 2 (excess v) ltac:(lia) (excess_nonneg v)).
  rewrite Hq at 1. replace (q * 2 ^ excess v * d) with (q * (d * 2 ^ excess v)) by ring.
  rewrite div_rne_exact by lia. done.
Qed.

(** ** Scores: the finite non-negative values not above one *)

Definition score (x : f32) : Prop := exists v, x = Fin false v /\ 0 <= v <= unit_one /\ representable v.

(** The order of scores, the magnitude order. *)
Definition mag (x : f32) : Z := match x with Fin false v => v | _ => 0 end.

(** The invariant of the representation: what a machine float can be. *)
Definition wellformed (x : f32) : Prop :=
  match x with Fin _ v => 0 <= v < overflow /\ representable v | _ => True end.

Lemma representable_one : representable unit_one.
Proof. exists 1, 149. unfold unit_one. lia. Qed.

Lemma score_one : score one.
Proof. exists unit_one. split; [done|]. split; [unfold unit_one; lia|apply representable_one]. Qed.

Lemma unit_one_pos : 0 < unit_one < overflow.
Proof. unfold unit_one, overflow. lia. Qed.

(** A constant between zero and one, as compiled, is a score. *)
Lemma score_of_ratio p q : 0 <= p <= q -> 0 < q -> score (of_ratio p q).
Proof.
  intros Hp Hq. pose proof unit_one_pos. unfold of_ratio, make.
  assert (round (p * unit_one) q <= unit_one).
  { rewrite <- (round_exact unit_one q) at 2 by (try apply representable_one; lia). apply round_mono; nia. }
  destruct (Z.geb_spec (round (p * unit_one) q) overflow); [lia|]. eexists. split; [done|].
  split; [split; [apply round_nonneg; nia|done]|apply round_representable; nia].
Qed.

Lemma score_mul_spec x y : score x -> score y ->
  mul x y = Fin false (round (mag x * mag y) unit_one) /\ round (mag x * mag y) unit_one <= mag x.
Proof.
  intros (v & -> & Hv & Hr) (w & -> & Hw & Hs). cbn [mag mul xorb].
  pose proof unit_one_pos.
  assert (round (v * w) unit_one <= v).
  { rewrite <- (round_exact v unit_one) at 2 by (done || lia). apply round_mono; nia. }
  split; [|done]. unfold make. destruct (Z.geb_spec (round (v * w) unit_one) overflow); [lia|done].
Qed.

Lemma score_mul x y : score x -> score y -> score (mul x y).
Proof.
  intros Hx Hy. destruct (score_mul_spec x y Hx Hy) as [-> Hle].
  destruct Hx as (v & -> & Hv & Hr), Hy as (w & -> & Hw & Hs). cbn [mag] in *.
  pose proof unit_one_pos. eexists. split; [done|]. split.
  - split; [apply round_nonneg; nia|lia].
  - apply round_representable; nia.
Qed.

Lemma mul_le x y : score x -> score y -> mag (mul x y) <= mag x.
Proof. intros Hx Hy. destruct (score_mul_spec x y Hx Hy) as [-> Hle]. done. Qed.

Lemma mul_mono x x' y : score x -> score x' -> score y -> mag x <= mag x' -> mag (mul x y) <= mag (mul x' y).
Proof.
  intros Hx Hx' Hy Hle. destruct (score_mul_spec x y Hx Hy) as [-> _].
  destruct (score_mul_spec x' y Hx' Hy) as [-> _]. cbn [mag].
  destruct Hx as (v & -> & Hv & _), Hx' as (v' & -> & Hv' & _), Hy as (w & -> & Hw & _). cbn [mag] in *.
  pose proof unit_one_pos. apply round_mono; nia.
Qed.

Lemma score_eq x y : score x -> score y -> mag x = mag y -> x = y.
Proof. intros (v & -> & _) (w & -> & _) H. cbn in H. by subst. Qed.

Lemma score_cmp x y : score x -> score y -> cmp x y = Some (Z.compare (mag x) (mag y)).
Proof. intros (v & -> & _) (w & -> & _). done. Qed.

Lemma score_ltb x y : score x -> score y -> ltb x y = (mag x <? mag y).
Proof. intros Hx Hy. unfold ltb. rewrite score_cmp by done. unfold Z.ltb. by destruct (_ ?= _). Qed.

Lemma score_leb x y : score x -> score y -> leb x y = (mag x <=? mag y).
Proof. intros Hx Hy. unfold leb. rewrite score_cmp by done. unfold Z.leb. by destruct (_ ?= _). Qed.

Lemma score_gtb x y : score x -> score y -> gtb x y = (mag y <? mag x).
Proof.
  intros Hx Hy. unfold gtb. rewrite score_cmp by done. unfold Z.ltb.
  rewrite (Z.compare_antisym (mag x) (mag y)). by destruct (_ ?= _).
Qed.

Lemma score_neb x y : score x -> score y -> neb x y = negb (mag x =? mag y).
Proof.
  intros Hx Hy. unfold neb. rewrite score_cmp by done. destruct (Z.compare_spec (mag x) (mag y)) as [->| |].
  - by rewrite Z.eqb_refl.
  - rewrite (proj2 (Z.eqb_neq _ _)) by lia. done.
  - rewrite (proj2 (Z.eqb_neq _ _)) by lia. done.
Qed.

End F32.
