(* ===== verification/Heap.v ===== *)
(** * container/heap

    The array heap of the Go standard library, [heap.Push] and [heap.Pop] with their [up] and [down]
    loops, over any comparison.  The graph walk uses it with a comparison that does not separate
    every pair of items, so which of two tied items leaves first is decided by these loops and they
    are modelled as they are.  For a comparison whose negation is transitive the lemmas show that a
    push or a pop rearranges the items and nothing else, keeps the heap order, and that the popped
    item is one no remaining item precedes. *)

From S2P Require Import Prelude.

Section Heap.
Context {A : Type} (less : A -> A -> bool).

(** [h.Less(j, i)] and [h.Swap(i, j)] on the backing slice; the loops only use indices in range. *)
Definition less_at (l : list A) (j i : nat) : bool :=
  match l !! j, l !! i with Some x, Some y => less x y | _, _ => false end.

Definition swap (l : list A) (i j : nat) : list A :=
  match l !! i, l !! j with Some x, Some y => <[i := y]> (<[j := x]> l) | _, _ => l end.

Definition parent (j : nat) : nat := ((j - 1) / 2)%nat.

Fixpoint up (fuel : nat) (l : list A) (j : nat) : list A :=
  match fuel with
  | O => l
  | S f =>
      let i := parent j in
      if (i =? j)%nat || negb (less_at l j i) then l else up f (swap l i j) i
  end.

(** The child [down] compares with: the second one if there is one and it precedes the first. *)
Definition pick_child (l : list A) (j1 n : nat) : nat :=
  if (j1 + 1 <? n)%nat && less_at l (j1 + 1) j1 then (j1 + 1)%nat else j1.

Fixpoint down (fuel : nat) (l : list A) (i n : nat) : list A :=
  match fuel with
  | O => l
  | S f =>
      let j1 := (2 * i + 1)%nat in
      if (n <=? j1)%nat then l else
      let j := pick_child l j1 n in
      if negb (less_at l j i) then l else down f (swap l i j) j n
  end.

(** [heap.Push]. *)
Definition heap_push (l : list A) (x : A) : list A := up (S (length l)) (l ++ [x]) (length l).

(** [heap.Pop] with the front of the slice read first: the item and what is left. *)
Definition heap_pop (l : list A) : option (A * list A) :=
  match l !! 0%nat with
  | None => None
  | Some top =>
      let n := (length l - 1)%nat in
      Some (top, take n (down (length l) (swap l 0 n) 0 n))
  end.

(** ** The loops only rearrange *)

Lemma swap_length l i j : length (swap l i j) = length l.
Proof. unfold swap. repeat case_match; by rewrite ?length_insert. Qed.

Definition transpose (i j k : nat) : nat := if decide (k = i) then j else if decide (k = j) then i else k.

Lemma swap_lookup l i j k : (i < length l)%nat -> (j < length l)%nat -> swap l i j !! k = l !! transpose i j k.
Proof.
  intros [x Hx]%lookup_lt_is_Some_2 [y Hy]%lookup_lt_is_Some_2. unfold swap. rewrite Hx, Hy.
  pose proof (lookup_lt_Some _ _ _ Hx). pose proof (lookup_lt_Some _ _ _ Hy). unfold transpose.
  destruct (decide (k = i)) as [->|]; [rewrite list_lookup_insert_eq by (rewrite length_insert; done); done|].
  rewrite list_lookup_insert_ne by done.
  destruct (decide (k = j)) as [->|]; [rewrite list_lookup_insert_eq by done; done|].
  rewrite list_lookup_insert_ne by done. done.
Qed.

Lemma swap_perm l i j : swap l i j ≡ₚ l.
Proof.
  destruct (decide (i < length l /\ j < length l)%nat) as [[Hi Hj]|Hn].
  - apply Permutation_inj. split; [apply swap_length|]. exists (transpose i j). split.
    + intros a b. unfold transpose. repeat case_decide; congruence.
    + intros k. by apply swap_lookup.
  - unfold swap. destruct (l !! i) eqn:Ei; [|done]. destruct (l !! j) eqn:Ej; [|done].
    apply lookup_lt_Some in Ei, Ej. tauto.
Qed.

Lemma up_perm fuel l j : up fuel l j ≡ₚ l.
Proof.
  revert l j. induction fuel as [|f IH]; intros l j; cbn [up]; [done|].
  case_match; [done|]. rewrite IH. apply swap_perm.
Qed.

Lemma down_perm fuel l i n : down fuel l i n ≡ₚ l.
Proof.
  revert l i. induction fuel as [|f IH]; intros l i; cbn [down]; [done|].
  case_match; [done|]. case_match; [done|]. rewrite IH. apply swap_perm.
Qed.

(** [down] below [n] leaves the rest of the slice alone. *)
Lemma down_above fuel l i n k : (n <= length l)%nat -> (i < n)%nat -> (n <= k)%nat -> down fuel l i n !! k = l !! k.
Proof.
  revert l i. induction fuel as [|f IH]; intros l i Hn Hi Hk; cbn [down]; [done|].
  destruct (n <=? 2 * i + 1)%nat eqn:E; [done|]. bsolve. set (j := pick_child l (2 * i + 1) n).
  assert (i < j < n)%nat. { unfold j, pick_child. case_match; bsolve; lia. }
  destruct (negb _); [done|]. rewrite IH by (rewrite ?swap_length; lia).
  rewrite swap_lookup by lia. unfold transpose. rewrite !decide_False by lia. done.
Qed.

Lemma heap_push_perm l x : heap_push l x ≡ₚ x :: l.
Proof. unfold heap_push. rewrite up_perm. by rewrite Permutation_app_comm. Qed.

Lemma heap_pop_perm l x l' : heap_pop l = Some (x, l') -> l ≡ₚ x :: l'.
Proof.
  unfold heap_pop. destruct (l !! 0%nat) as [top|] eqn:E; [|done]. intros [= -> <-].
  pose proof (lookup_lt_Some _ _ _ E) as Hl. set (n := (length l - 1)%nat).
  set (d := down (length l) (swap l 0 n) 0 n).
  assert (Hd : d ≡ₚ l) by (unfold d; rewrite down_perm; apply swap_perm).
  assert (Hlen : length d = S n) by (rewrite (Permutation_length Hd); lia).
  rewrite <- Hd at 1. rewrite <- (take_drop n d) at 1.
  assert (drop n d = [x]) as ->; [|by rewrite Permutation_app_comm].
  assert (d !! n = Some x) as Hx.
  { unfold d. destruct (decide (n = 0)%nat) as [E0|].
    - rewrite E0. destruct l as [|y [|]]; cbn in *; [lia| |lia]. done.
    - rewrite down_above by (rewrite ?swap_length; lia). rewrite swap_lookup by lia. unfold transpose.
      rewrite decide_False, decide_True by done. done. }
  rewrite (drop_S d x n Hx). rewrite drop_ge by lia. done.
Qed.

Lemma heap_pop_some l : l <> [] -> exists x l', heap_pop l = Some (x, l').
Proof. destruct l; [done|]. intros _. unfold heap_pop. cbn. eauto. Qed.

(** ** The heap order *)

(** [below x y]: [x] may stand under [y]; the comparison is a strict weak order. *)
Definition below (x y : A) : Prop := less x y = false.
Context (P : A -> Prop)
  (below_trans : forall x y z, P x -> P y -> P z -> below x y -> below y z -> below x z)
  (less_asym : forall x y, P x -> P y -> less x y = true -> less y x = false)
  (less_irrefl : forall x, P x -> less x x = false).

Definition okp (l : list A) (k p : nat) : Prop :=
  forall x y, l !! k = Some x -> l !! p = Some y -> below x y.

Definition heap_ordered (n : nat) (l : list A) : Prop :=
  forall k, (0 < k < n)%nat -> okp l k (parent k).

Lemma okp_less l k p : okp l k p <-> less_at l k p = false.
Proof.
  unfold okp, less_at, below. destruct (l !! k), (l !! p); naive_solver.
Qed.

Lemma P_at l k x : Forall P l -> l !! k = Some x -> P x.
Proof. intros HP Hx. by eapply Forall_lookup_1. Qed.

Lemma okp_trans l a b c : Forall P l -> is_Some (l !! b) -> okp l a b -> okp l b c -> okp l a c.
Proof.
  intros HP [y Hy] H1 H2 x z Hx Hz.
  eapply (below_trans x y z); eauto using P_at.
Qed.

Lemma okp_flip l a b : Forall P l -> less_at l a b = true -> okp l b a.
Proof.
  intros HP H x y Hx Hy. unfold less_at in H. rewrite Hx, Hy in H.
  eapply less_asym; eauto using P_at.
Qed.

Lemma parent_lt k : (0 < k)%nat -> (parent k < k)%nat.
Proof. intros H. unfold parent. apply Nat.Div0.div_lt_upper_bound; lia. Qed.

Lemma parent_child k i : (0 < k)%nat -> parent k = i <-> (k = 2 * i + 1 \/ k = 2 * i + 2)%nat.
Proof.
  intros H. unfold parent. pose proof (Nat.div_mod (k - 1) 2 ltac:(lia)).
  pose proof (Nat.mod_upper_bound (k - 1) 2 ltac:(lia)). lia.
Qed.

(** An order constraint after a swap, by where its two ends came from. *)
Lemma okp_swap l i j a b :
  (i < length l)%nat -> (j < length l)%nat -> okp l (transpose i j a) (transpose i j b) -> okp (swap l i j) a b.
Proof. intros Hi Hj H x y. rewrite !swap_lookup by done. apply H. Qed.

Ltac transp := unfold transpose; repeat case_decide; try (exfalso; lia); try (exfalso; congruence); try done.

Lemma up_ordered fuel l j :
  Forall P l -> (j < fuel)%nat -> (j < length l)%nat ->
  (forall k, (0 < k < length l)%nat -> k <> j -> okp l k (parent k)) ->
  (forall c, (0 < c < length l)%nat -> parent c = j -> (0 < j)%nat -> okp l c (parent j)) ->
  heap_ordered (length l) (up fuel l j).
Proof.
  revert l j. induction fuel as [|f IH]; intros l j HP Hf Hj H1 H2; [lia|]. cbn [up].
  destruct (_ || _) eqn:E.
  - intros k Hk. destruct (decide (k = j)) as [->|]; [|auto]. apply orb_true_iff in E as [E|E].
    + apply Nat.eqb_eq in E. pose proof (parent_lt j). lia.
    + apply negb_true_iff in E. by apply okp_less.
  - apply orb_false_elim in E as [E1 E2]. apply Nat.eqb_neq in E1. apply negb_false_iff in E2.
    assert (0 < j)%nat by (destruct j; [done|lia]). pose proof (parent_lt j ltac:(lia)) as Hp.
    assert (Hpj : parent j = parent j) by done. set (i := parent j) in Hp, E1, E2, H2, Hpj at 2 |- *. clearbody i. assert (is_Some (l !! i)) as Hsi by (apply lookup_lt_is_Some_2; lia).
    pose proof (okp_flip l j i HP E2) as Hflip.
    rewrite <- (swap_length l i j). apply IH; rewrite ?swap_length; try lia.
    + by rewrite swap_perm.
    + intros k Hk Hki. apply okp_swap; try lia. pose proof (parent_lt k ltac:(lia)).
      destruct (decide (k = j)) as [->|Hkj]; [rewrite Hpj; transp|].
      destruct (decide (parent k = j)) as [Ej|]; [rewrite Ej; transp; apply H2; [lia|done|lia]|].
      destruct (decide (parent k = i)) as [Ei|].
      * rewrite Ei. transp. apply (okp_trans l k i j HP Hsi); [|done]. rewrite <- Ei. apply H1; lia.
      * transp. apply H1; lia.
    + intros c Hc Hci Hi0. pose proof (parent_lt i Hi0). pose proof (parent_lt c ltac:(lia)). apply okp_swap; try lia.
      destruct (decide (c = j)) as [->|].
      * transp. apply H1; lia.
      * transp. apply (okp_trans l c i _ HP Hsi); [rewrite <- Hci; apply H1; lia|apply H1; lia].
Qed.

Lemma down_ordered fuel l i n :
  Forall P l -> (n <= length l)%nat -> (i < n)%nat -> (n < fuel + i)%nat ->
  (forall k, (0 < k < n)%nat -> parent k <> i -> okp l k (parent k)) ->
  (forall c, (0 < c < n)%nat -> parent c = i -> (0 < i)%nat -> okp l c (parent i)) ->
  heap_ordered n (down fuel l i n).
Proof.
  revert l i. induction fuel as [|f IH]; intros l i HP Hn Hi Hf H1 H2; [lia|]. cbn [down].
  destruct (n <=? 2 * i + 1)%nat eqn:E; bsolve.
  { intros k Hk. apply H1; [done|]. intros Hp. apply parent_child in Hp; lia. }
  set (j := pick_child l (2 * i + 1) n).
  assert (Hj : (0 < j < n)%nat /\ parent j = i /\ (forall c, (0 < c < n)%nat -> parent c = i -> okp l c j)).
  { unfold j, pick_child. destruct ((2 * i + 1 + 1 <? n)%nat && less_at l (2 * i + 1 + 1) (2 * i + 1)) eqn:Ej.
    - bsolve. split; [lia|]. split; [apply parent_child; lia|]. intros c Hc Hp.
      apply parent_child in Hp as [->| ->]; [..|lia]; [by apply okp_flip|].
      replace (2 * i + 1 + 1)%nat with (2 * i + 2)%nat by lia. intros x y Hx Hy. rewrite Hx in Hy.
      injection Hy as ->. eapply less_irrefl, P_at; eauto.
    - split; [lia|]. split; [apply parent_child; lia|]. intros c Hc Hp.
      apply parent_child in Hp as [->| ->]; [..|lia].
      + intros x y Hx Hy. rewrite Hx in Hy. injection Hy as ->. eapply less_irrefl, P_at; eauto.
      + apply okp_less. apply andb_false_iff in Ej as [Ej|Ej]; bsolve; [lia|].
        replace (2 * i + 2)%nat with (2 * i + 1 + 1)%nat by lia. done. }
  destruct Hj as (Hjn & Hpj & Hmin). clearbody j.
  pose proof (parent_lt j ltac:(lia)). assert (is_Some (l !! j)) as Hsj by (apply lookup_lt_is_Some_2; lia).
  destruct (less_at l j i) eqn:Eji; cbn [negb].
  - pose proof (okp_flip l j i HP Eji) as Hflip.
    apply IH; rewrite ?swap_length; try lia; [by rewrite swap_perm| |].
    + intros k Hk Hpk. pose proof (parent_lt k ltac:(lia)). apply okp_swap; try lia.
      destruct (decide (parent k = i)) as [Ei|].
      * rewrite Ei. destruct (decide (k = j)) as [->|]; [transp|]. transp. apply Hmin; [lia|done].
      * destruct (decide (k = i)) as [->|]; [|transp; apply H1; lia].
        transp. apply H2; [lia|done|lia].
    + intros c Hc Hpc _. pose proof (parent_lt c ltac:(lia)). rewrite Hpj. apply okp_swap; try lia. transp.
      rewrite <- Hpc. apply H1; lia.
  - intros k Hk. destruct (decide (parent k = i)) as [Ei|]; [|auto]. rewrite Ei.
    apply (okp_trans l k j i HP Hsj); [apply Hmin; done|by apply okp_less].
Qed.

Lemma heap_ordered_top n l x : Forall P l -> (n <= length l)%nat -> heap_ordered n l -> l !! 0%nat = Some x ->
  forall k y, (k < n)%nat -> l !! k = Some y -> below y x.
Proof.
  intros HP Hn Hh Hx k. induction (lt_wf k) as [k _ IH]. intros y Hk Hy.
  destruct (decide (k = 0)%nat) as [->|].
  - rewrite Hx in Hy. injection Hy as ->. eapply less_irrefl, P_at; eauto.
  - pose proof (parent_lt k ltac:(lia)). destruct (lookup_lt_is_Some_2 l (parent k) ltac:(lia)) as [z Hz].
    eapply (below_trans y z x); eauto using P_at; [|apply (IH (parent k)); eauto; lia].
    apply (Hh k ltac:(lia)); done.
Qed.

Lemma heap_push_ordered l x : Forall P (x :: l) -> heap_ordered (length l) l ->
  heap_ordered (length (heap_push l x)) (heap_push l x).
Proof.
  intros HP Hh. rewrite (Permutation_length (heap_push_perm l x)). unfold heap_push.
  replace (length (x :: l)) with (length (l ++ [x])) by (rewrite length_app; cbn; lia).
  apply up_ordered; rewrite ?length_app; cbn [length]; try lia.
  - rewrite Permutation_app_comm. done.
  - intros k Hk Hne y z. pose proof (parent_lt k ltac:(lia)). rewrite !lookup_app_l by lia. apply Hh. lia.
  - intros c Hc Hp Hl. pose proof (parent_lt c ltac:(lia)). lia.
Qed.

Lemma heap_pop_ordered l x l' : Forall P l -> heap_ordered (length l) l -> heap_pop l = Some (x, l') ->
  heap_ordered (length l') l' /\ Forall (fun y => below y x) l'.
Proof.
  intros HP Hh Hpop. pose proof (heap_pop_perm _ _ _ Hpop) as Hperm.
  pose proof (Permutation_length Hperm) as Hlen. cbn [length] in Hlen.
  unfold heap_pop in Hpop. destruct (l !! 0%nat) as [top|] eqn:E; [|done]. injection Hpop as -> <-.
  set (n := (length l - 1)%nat) in *. set (d := down (length l) (swap l 0 n) 0 n) in *.
  assert (Hn : length (take n d) = n) by lia. split.
  - rewrite Hn. destruct (decide (n = 0)%nat) as [->|]; [intros k Hk; lia|].
    assert (heap_ordered n d) as Hd.
    { apply down_ordered; rewrite ?swap_length; try lia; [by rewrite swap_perm|].
      intros k Hk Hp. pose proof (parent_lt k ltac:(lia)). apply okp_swap; try lia. transp. apply Hh; lia. }
    intros k Hk y z Hy Hz. pose proof (parent_lt k ltac:(lia)). rewrite lookup_take_lt in Hy, Hz by lia. eapply Hd; eauto.
  - rewrite Forall_forall. intros y Hy. assert (y ∈ l) as Hyl by (rewrite Hperm; by right).
    apply list_elem_of_lookup in Hyl as [k Hk]. eapply heap_ordered_top; eauto using lookup_lt_Some.
Qed.

End Heap.
