(* ===== verification/GoStrings.v ===== *)
(** The functions of Go's [strings] package the modelled code calls, on byte strings, with the facts that
    specify them. *)

From S2P Require Import Prelude.

Definition HasPrefix (s p : bytes) : bool := bool_decide (take (length p) s = p).

Definition HasSuffix (s p : bytes) : bool :=
  (length p <=? length s)%nat && bool_decide (drop (length s - length p) s = p).

(** The remainder when the prefix or suffix is there. *)
Definition CutPrefix (s p : bytes) : option bytes := if HasPrefix s p then Some (drop (length p) s) else None.
Definition CutSuffix (s p : bytes) : option bytes :=
  if HasSuffix s p then Some (take (length s - length p) s) else None.

(** The index of the first and of the last occurrence; Go's -1 is [None]. *)
Fixpoint Index (s p : bytes) : option nat :=
  if HasPrefix s p then Some O else match s with [] => None | _ :: t => S <$> Index t p end.

Fixpoint LastIndex (s p : bytes) : option nat :=
  match match s with [] => None | _ :: t => S <$> LastIndex t p end with
  | Some i => Some i
  | None => if HasPrefix s p then Some O else None
  end.

Definition Contains (s p : bytes) : bool := match Index s p with Some _ => true | None => false end.

Fixpoint Join (l : list bytes) (sep : bytes) : bytes :=
  match l with
  | [] => []
  | [x] => x
  | x :: l => x ++ sep ++ Join l sep
  end.

(** The UTF-8 encodings of the runes [unicode.IsSpace] accepts. *)
Definition spaces : list bytes :=
  [[x09]; [x0a]; [x0b]; [x0c]; [x0d]; [x20]; [xc2; x85]; [xc2; xa0]; [xe1; x9a; x80]]
  ++ ((fun k => [xe2; x80; z2b (0x80 + Z.of_nat k)]) <$> seq 0 11)
  ++ [[xe2; x80; xa8]; [xe2; x80; xa9]; [xe2; x80; xaf]; [xe2; x81; x9f]; [xe3; x80; x80]].

(** [strings.TrimSpace]: a rune at either end is one of these encodings exactly when the bytes are. *)
Fixpoint trim_left (fuel : nat) (s : bytes) : bytes :=
  match fuel with
  | O => s
  | S f => match List.find (HasPrefix s) spaces with Some p => trim_left f (drop (length p) s) | None => s end
  end.

Fixpoint trim_right (fuel : nat) (s : bytes) : bytes :=
  match fuel with
  | O => s
  | S f => match List.find (HasSuffix s) spaces with
           | Some p => trim_right f (take (length s - length p) s)
           | None => s
           end
  end.

Definition TrimSpace (s : bytes) : bytes := let s := trim_left (length s) s in trim_right (length s) s.

Example trim_space_vectors :
  TrimSpace (str "  a b	") = str "a b" /\ TrimSpace [xe2; x80; x83; x20; xc2; x85] = [] /\
  TrimSpace [x61; xe3; x80; x80; x20] = [x61] /\ TrimSpace [xe2; x80] = [xe2; x80].
Proof. vm_compute. split_and!; reflexivity. Qed.

(** ** Facts *)

Lemma HasPrefix_spec s p : HasPrefix s p = true <-> exists t, s = p ++ t.
Proof.
  unfold HasPrefix. rewrite bool_decide_eq_true. split.
  - intros H. exists (drop (length p) s). rewrite <- H at 1. rewrite take_drop. done.
  - intros [t ->]. apply take_app_length.
Qed.

Lemma HasPrefix_app p t : HasPrefix (p ++ t) p = true.
Proof. apply HasPrefix_spec. eauto. Qed.

Lemma HasSuffix_spec s p : HasSuffix s p = true <-> exists t, s = t ++ p.
Proof.
  unfold HasSuffix. rewrite andb_true_iff, Nat.leb_le, bool_decide_eq_true. split.
  - intros [_ H]. exists (take (length s - length p) s). rewrite <- H at 2. rewrite take_drop. done.
  - intros [t ->]. rewrite length_app. split; [lia|]. rewrite Nat.add_sub. apply drop_app_length.
Qed.

Lemma CutPrefix_spec s p r : CutPrefix s p = Some r <-> s = p ++ r.
Proof.
  unfold CutPrefix. destruct (HasPrefix s p) eqn:E.
  - apply HasPrefix_spec in E as [t ->]. rewrite drop_app_length. split; [congruence|]. intros H. apply app_inv_head in H. congruence.
  - split; [done|]. intros ->. rewrite HasPrefix_app in E. done.
Qed.

Lemma CutSuffix_spec s p r : CutSuffix s p = Some r <-> s = r ++ p.
Proof.
  unfold CutSuffix. destruct (HasSuffix s p) eqn:E.
  - apply HasSuffix_spec in E as [t ->]. rewrite length_app, Nat.add_sub, take_app_length. split; [congruence|].
    intros H. apply app_inv_tail in H. congruence.
  - split; [done|]. intros ->. rewrite (proj2 (HasSuffix_spec _ _)) in E by eauto. done.
Qed.

(** [Index] finds the first occurrence. *)
Lemma Index_spec s p : match Index s p with
  | Some i => (exists b, s = take i s ++ p ++ b) /\ (i <= length s)%nat /\ forall j, (j < i)%nat -> HasPrefix (drop j s) p = false
  | None => forall a b, s <> a ++ p ++ b
  end.
Proof.
  induction s as [|c s IH]; cbn [Index].
  - destruct (HasPrefix [] p) eqn:E.
    + apply HasPrefix_spec in E as [t Ht]. split; [exists t; done|]. split; [done|]. intros j Hj. lia.
    + intros [|x a] b H; [|done]. cbn in H. rewrite H, HasPrefix_app in E. done.
  - destruct (HasPrefix (c :: s) p) eqn:E.
    + apply HasPrefix_spec in E as [t Ht]. split; [exists t; done|]. split; [lia|]. intros j Hj. lia.
    + destruct (Index s p) as [i|].
      * destruct IH as ([b Hb] & Hi & Hj). cbn. split; [exists b; f_equal; done|]. split; [lia|].
        intros [|j] Hlt; [done|]. apply Hj. lia.
      * intros [|c' a] b H; [cbn in H; rewrite H, HasPrefix_app in E; done|]. injection H as -> H. eapply IH. done.
Qed.

Lemma Contains_spec s p : Contains s p = true <-> exists a b, s = a ++ p ++ b.
Proof.
  unfold Contains. pose proof (Index_spec s p) as H. destruct (Index s p) as [i|].
  - destruct H as ([b Hb] & _). split; [eauto|done].
  - split; [done|]. intros (a & b & Hs). destruct (H a b Hs).
Qed.

Lemma Contains_app a b c p : Contains b p = true -> Contains (a ++ b ++ c) p = true.
Proof.
  rewrite !Contains_spec. intros (x & y & ->). exists (a ++ x), (y ++ c). rewrite <- !app_assoc. done.
Qed.

(** [LastIndex] finds the last one. *)
Lemma LastIndex_spec s p : p <> [] -> match LastIndex s p with
  | Some i => (exists b, s = take i s ++ p ++ b) /\ (i <= length s)%nat /\ forall j, (i < j)%nat -> HasPrefix (drop j s) p = false
  | None => forall a b, s <> a ++ p ++ b
  end.
Proof.
  intros Hp. assert (HasPrefix [] p = false) as Hnil.
  { destruct (HasPrefix [] p) eqn:E; [|done]. apply HasPrefix_spec in E as [t Ht]. symmetry in Ht. apply app_eq_nil in Ht as [? _]. done. }
  induction s as [|c s IH]; cbn [LastIndex].
  - rewrite Hnil. intros [|x a] b H; [|done]. cbn in H. rewrite H, HasPrefix_app in Hnil. done.
  - destruct (LastIndex s p) as [i|]; cbn.
    + destruct IH as ([b Hb] & Hi & Hj). split; [exists b; f_equal; done|]. split; [lia|]. intros [|j] Hlt; [lia|]. apply Hj. lia.
    + assert (forall j, HasPrefix (drop (S j) (c :: s)) p = false) as Hno.
      { intros j. cbn. destruct (HasPrefix (drop j s) p) eqn:E; [|done]. apply HasPrefix_spec in E as [t Ht].
        destruct (IH (take j s) t). rewrite <- Ht, take_drop. done. }
      destruct (HasPrefix (c :: s) p) eqn:E.
      * apply HasPrefix_spec in E as [t Ht]. split; [exists t; done|]. split; [lia|]. intros [|j] Hj; [lia|]. apply (Hno j).
      * intros [|c' a] b H; [cbn in H; rewrite H, HasPrefix_app in E; done|]. injection H as -> H. eapply IH. done.
Qed.
