(* ===== verification/Utf8.v ===== *)
(** * UTF-8

    What the program uses of [unicode/utf8] and [strings]: the width of the first rune of a string
    under Go's acceptance table, [utf8.RuneStart], [utf8.ValidString], [strings.ToValidUTF8] and the
    back-off to a rune boundary that two truncation routines share.  The lemmas show that repairing
    a string makes it valid, leaves a valid string alone, and that cutting a valid string in front
    of a rune start leaves it valid. *)

From S2P Require Import Prelude.

Definition between (lo hi : Z) (b : byte) : bool := (lo <=? b2z b) && (b2z b <=? hi).
Definition cont (b : byte) : bool := between 0x80 0xBF b.

(** [utf8.RuneStart]. *)
Definition RuneStart (b : byte) : bool := negb (Z.land (b2z b) 0xC0 =? 0x80).

(** The accepted second byte of a multi-byte rune, by its first byte. *)
Definition second_ok (b0 b1 : byte) : bool :=
  if b2z b0 =? 0xE0 then between 0xA0 0xBF b1
  else if b2z b0 =? 0xED then between 0x80 0x9F b1
  else if b2z b0 =? 0xF0 then between 0x90 0xBF b1
  else if b2z b0 =? 0xF4 then between 0x80 0x8F b1
  else cont b1.

(** The width [utf8.DecodeRuneInString] reports for a well-formed first rune, 0 when the first byte
    does not begin one. *)
Definition rune_width (s : bytes) : nat :=
  match s with
  | [] => 0
  | b0 :: s =>
      if between 0x00 0x7F b0 then 1
      else match s with
      | [] => 0
      | b1 :: s =>
          if between 0xC2 0xDF b0 then if cont b1 then 2 else 0
          else if negb (second_ok b0 b1) then 0
          else match s with
          | [] => 0
          | b2 :: s =>
              if between 0xE0 0xEF b0 then if cont b2 then 3 else 0
              else match s with
              | [] => 0
              | b3 :: _ => if between 0xF0 0xF4 b0 && cont b2 && cont b3 then 4 else 0
              end
          end
      end
  end%nat.

(** [utf8.ValidString]. *)
Fixpoint valid_from (fuel : nat) (s : bytes) : bool :=
  match s, fuel with
  | [], _ => true
  | _, O => false
  | _, S f => if (rune_width s =? 0)%nat then false else valid_from f (drop (rune_width s) s)
  end.
Definition ValidString (s : bytes) : bool := valid_from (length s) s.

(** [strings.ToValidUTF8]: each run of invalid bytes becomes one replacement. *)
Fixpoint to_valid (fuel : nat) (invalid : bool) (rep s : bytes) : bytes :=
  match fuel, s with
  | S f, _ :: t =>
      if (rune_width s =? 0)%nat then
        (if invalid then [] else rep) ++ to_valid f true rep t
      else take (rune_width s) s ++ to_valid f false rep (drop (rune_width s) s)
  | _, _ => []
  end.
Definition ToValidUTF8 (s rep : bytes) : bytes := to_valid (length s) false rep s.

(** [for n > 0 && !utf8.RuneStart(s[n]) { n-- }]; [s[n]] is read only while [n] is in range. *)
Fixpoint back_off (s : bytes) (n : nat) : nat :=
  match n with
  | O => O
  | S m => match s !! n with
           | Some b => if RuneStart b then n else back_off s m
           | None => n
           end
  end.

(** ** Widths *)

Lemma rune_width_le s : (rune_width s <= length s)%nat.
Proof. destruct s as [|b0 [|b1 [|b2 [|b3 s]]]]; cbn; repeat case_match; cbn; lia. Qed.

(** The bytes of a rune after the first are continuation bytes, and nothing after it is read. *)
Lemma cont_not_start b : cont b = true -> RuneStart b = false.
Proof. destruct b; vm_compute; congruence. Qed.

Lemma rune_tail s j b : (0 < j < rune_width s)%nat -> s !! j = Some b -> RuneStart b = false.
Proof.
  intros Hj Hb. apply cont_not_start. revert Hj Hb.
  assert (Hs : forall b0 b1, second_ok b0 b1 = true -> cont b1 = true).
  { intros b0 b1. unfold second_ok, cont, between. repeat case_match; intros; bsolve; apply andb_true_intro; split; apply Z.leb_le; lia. }
  destruct s as [|b0 [|b1 [|b2 [|b3 s]]]]; cbn [rune_width length]; repeat case_match; intros Hj Hb; try lia; bsolve;
    destruct j as [|[|[|[|j]]]]; cbn in Hb; try lia; simplify_eq; eauto.
Qed.

Lemma rune_width_prefix s t : rune_width s <> 0%nat -> rune_width (s ++ t) = rune_width s.
Proof. destruct s as [|b0 [|b1 [|b2 [|b3 s]]]]; cbn; repeat case_match; cbn; done. Qed.

Lemma rune_width_take s : rune_width (take (rune_width s) s) = rune_width s.
Proof.
  destruct s as [|b0 [|b1 [|b2 [|b3 s]]]]; cbn; repeat case_match; cbn;
    repeat match goal with H : _ = _ |- _ => rewrite H end; cbn; rewrite ?H; done.
Qed.

(** ** Validity as a decomposition into runes *)

Inductive runes : bytes -> Prop :=
  | runes_nil : runes []
  | runes_cons s : rune_width s <> 0%nat -> runes (drop (rune_width s) s) -> runes s.

Lemma valid_from_runes fuel s : (length s <= fuel)%nat -> valid_from fuel s = true <-> runes s.
Proof.
  revert s. induction fuel as [|f IH]; intros s Hf.
  - destruct s; cbn in *; [|lia]. split; [constructor|done].
  - destruct s as [|x s]; [split; [constructor|done]|]. cbn [valid_from].
    pose proof (rune_width_le (x :: s)).
    destruct (rune_width (x :: s) =? 0)%nat eqn:E; bsolve.
    + split; [done|]. intros Hr. inversion Hr; done.
    + rewrite IH by (rewrite length_drop; lia). split; [by constructor|]. intros Hr. by inversion Hr.
Qed.

Lemma ValidString_runes s : ValidString s = true <-> runes s.
Proof. by apply valid_from_runes. Qed.

Lemma runes_app s t : runes s -> runes t -> runes (s ++ t).
Proof.
  intros Hs Ht. induction Hs as [|s Hw Hs IH]; [done|]. constructor; rewrite rune_width_prefix by done; [done|].
  rewrite drop_app_le by apply rune_width_le. done.
Qed.

Lemma runes_rune s : rune_width s <> 0%nat -> runes (take (rune_width s) s).
Proof.
  intros H. constructor; rewrite rune_width_take; [done|]. rewrite drop_ge by (rewrite length_take; lia). constructor.
Qed.

Lemma to_valid_runes fuel inv rep s : runes rep -> runes (to_valid fuel inv rep s).
Proof.
  intros Hrep. revert inv s. induction fuel as [|f IH]; intros inv [|x s]; cbn [to_valid]; try apply runes_nil.
  destruct (rune_width (x :: s) =? 0)%nat eqn:E; bsolve; apply runes_app; auto.
  - destruct inv; [constructor|done].
  - by apply runes_rune.
Qed.

Lemma to_valid_id fuel inv rep s : (length s <= fuel)%nat -> runes s -> to_valid fuel inv rep s = s.
Proof.
  revert inv s. induction fuel as [|f IH]; intros inv s Hf Hr; [destruct s; cbn in *; [done|lia]|].
  destruct s as [|x s]; [done|]. inversion Hr as [|? Hw Hd]; subst. cbn [to_valid].
  destruct (rune_width (x :: s) =? 0)%nat eqn:E; bsolve; [done|].
  rewrite IH by (rewrite ?length_drop; done || (pose proof (rune_width_le (x :: s)); lia)). apply take_drop.
Qed.

(** Every byte of the repaired string is a byte of the input or of the replacement. *)
Lemma to_valid_bytes fuel inv rep s b : b ∈ to_valid fuel inv rep s -> b ∈ s \/ b ∈ rep.
Proof.
  revert inv s. induction fuel as [|f IH]; intros inv s; [destruct s; cbn; set_solver|].
  destruct s as [|x s]; [cbn; set_solver|]. cbn [to_valid]. case_match.
  - rewrite elem_of_app. intros [H1|H1]; [destruct inv; set_solver|]. apply IH in H1. set_solver.
  - rewrite elem_of_app. intros [H1|H1]; [left; eapply elem_of_take in H1; destruct H1 as (i & H1 & _); by eapply list_elem_of_lookup_2|].
    apply IH in H1 as [H1|H1]; [left|by right]. apply list_elem_of_lookup in H1 as [i Hi]. rewrite lookup_drop in Hi.
    by eapply list_elem_of_lookup_2.
Qed.

(** Cutting a valid string in front of a rune start, or at its end, leaves it valid. *)
Lemma runes_take s n : runes s -> (forall b, s !! n = Some b -> n <> 0%nat -> RuneStart b = true) -> runes (take n s).
Proof.
  intros Hr. revert n. induction Hr as [|s Hw Hs IH]; intros n Hn; [rewrite take_nil; constructor|].
  destruct (decide (n = 0)%nat) as [->|]; [constructor|]. pose proof (rune_width_le s).
  destruct (decide (n < rune_width s)%nat).
  - destruct (lookup_lt_is_Some_2 s n ltac:(lia)) as [b Hb]. pose proof (rune_tail s n b ltac:(lia) Hb) as Hf.
    rewrite (Hn b Hb ltac:(done)) in Hf. done.
  - replace (take n s) with (take (rune_width s) s ++ take (n - rune_width s) (drop (rune_width s) s)).
    + apply runes_app; [by apply runes_rune|]. apply IH. intros b. rewrite lookup_drop.
      replace (rune_width s + (n - rune_width s))%nat with n by lia. auto.
    + rewrite take_drop_commute. replace (rune_width s + (n - rune_width s))%nat with n by lia.
      rewrite <- (take_drop (rune_width s) (take n s)) at 2. f_equal. rewrite take_take. f_equal. lia.
Qed.

Lemma back_off_le s n : (back_off s n <= n)%nat.
Proof. induction n as [|n IH]; cbn; [done|]. repeat case_match; lia. Qed.

Lemma back_off_start s n b : s !! back_off s n = Some b -> back_off s n <> 0%nat -> RuneStart b = true.
Proof.
  induction n as [|n IH]; cbn [back_off]; [done|]. destruct (s !! S n) as [c|] eqn:E; [|congruence].
  destruct (RuneStart c) eqn:Ec; [|done]. intros. congruence.
Qed.

Lemma runes_back_off s n : runes s -> runes (take (back_off s n) s).
Proof. intros Hr. apply runes_take; [done|]. intros b. apply back_off_start. Qed.

Lemma runes_ascii s : Forall (fun b => between 0 0x7F b = true) s -> runes s.
Proof.
  induction 1 as [|b s Hb _ IH]; [constructor|]. assert (rune_width (b :: s) = 1%nat) as Hw by (cbn; by rewrite Hb).
  constructor; rewrite Hw; [done|]. exact IH.
Qed.
