(* ===== verification/Strconv.v ===== *)
(** * Decimal integers

    [strconv.Itoa], [strconv.Atoi] and what the program's encodings need of them: printing is
    injective, its output is ASCII digits with an optional sign, and parsing it gives the number
    back. *)

From S2P Require Import Prelude.

Definition dec_digit (d : Z) : byte := z2b (48 + d).

(** The digits of a non-negative number, most significant first; [fuel] bounds their count. *)
Fixpoint digits (fuel : nat) (n : Z) (acc : bytes) : bytes :=
  match fuel with
  | O => acc
  | S f => let acc := dec_digit (n mod 10) :: acc in if n <? 10 then acc else digits f (n / 10) acc
  end.

Definition digit_fuel (n : Z) : nat := S (Z.to_nat (Z.log2 n)).
Definition udec (n : Z) : bytes := digits (digit_fuel n) n [].

Definition minus : byte := "-"%byte.
Definition plus : byte := "+"%byte.

(** [strconv.Itoa]. *)
Definition Itoa (n : Z) : bytes := if n <? 0 then minus :: udec (- n) else udec n.

Definition digit_value (b : byte) : option Z :=
  let d := b2z b - 48 in if (0 <=? d) && (d <=? 9) then Some d else None.

Fixpoint parse_digits (s : bytes) (acc : Z) : option Z :=
  match s with
  | [] => Some acc
  | b :: s => match digit_value b with Some d => parse_digits s (10 * acc + d) | None => None end
  end.

(** [strconv.Atoi] on 64-bit targets: an optional sign, at least one digit, in the range of [int]. *)
Definition Atoi (s : bytes) : option Z :=
  let '(neg, t) := match s with
    | b :: t => if bool_decide (b = minus) then (true, t) else if bool_decide (b = plus) then (false, t) else (false, s)
    | [] => (false, []) end in
  match t with
  | [] => None
  | _ => match parse_digits t 0 with
         | Some n => let v := if neg then - n else n in
             if (- 2 ^ 63 <=? v) && (v <=? MaxInt) then Some v else None
         | None => None
         end
  end.

(** ** Lemmas *)

Lemma digit_value_dec d : 0 <= d <= 9 -> digit_value (dec_digit d) = Some d.
Proof.
  intros H. unfold digit_value, dec_digit. rewrite b2z_z2b, Z.mod_small by lia.
  replace (48 + d - 48) with d by lia. rewrite (proj2 (Z.leb_le 0 d)), (proj2 (Z.leb_le d 9)) by lia. done.
Qed.

Lemma parse_digits_app s t acc :
  parse_digits (s ++ t) acc = match parse_digits s acc with Some a => parse_digits t a | None => None end.
Proof. revert acc. induction s as [|b s IH]; intros acc; cbn; [done|]. destruct (digit_value b); auto. Qed.

(** What [digits] prepends to its accumulator, as a number. *)
Lemma digits_spec fuel n acc : 0 <= n < 2 ^ Z.of_nat fuel -> exists s,
  digits fuel n acc = s ++ acc /\ (n = 0 /\ fuel = 0%nat \/ s <> []) /\
  Forall (fun b => is_Some (digit_value b)) s /\
  forall a, parse_digits s a = Some (a * 10 ^ Z.of_nat (length s) + n).
Proof.
  revert n acc. induction fuel as [|f IH]; intros n acc Hn; cbn [digits].
  { exists []. cbn in *. split; [done|]. split; [left; lia|]. split; [constructor|]. intros a. f_equal. lia. }
  pose proof (Z.mod_pos_bound n 10 ltac:(lia)). pose proof (Z.div_mod n 10 ltac:(lia)).
  assert (is_Some (digit_value (dec_digit (n mod 10)))) by (rewrite digit_value_dec by lia; eauto).
  destruct (Z.ltb_spec n 10).
  - exists [dec_digit (n mod 10)]. split; [done|]. split; [right; done|]. split; [by repeat constructor|].
    intros a. cbn [parse_digits length]. rewrite digit_value_dec by lia. rewrite Z.mod_small by lia. f_equal. lia.
  - destruct (IH (n / 10) (dec_digit (n mod 10) :: acc)) as (s & -> & Hne & Hs & Hp).
    { rewrite Nat2Z.inj_succ, Z.pow_succ_r in Hn by lia. split; [apply Z.div_pos; lia|].
      apply Z.div_lt_upper_bound; lia. }
    exists (s ++ [dec_digit (n mod 10)]). rewrite <- app_assoc. split; [done|]. split; [right; by destruct s|].
    split; [apply Forall_app; split; [done|by repeat constructor]|].
    intros a. rewrite parse_digits_app, Hp. cbn [parse_digits]. rewrite digit_value_dec by lia. f_equal.
    rewrite length_app. cbn [length]. rewrite Nat2Z.inj_add, Z.pow_add_r by lia. lia.
Qed.

Lemma udec_spec n : 0 <= n ->
  udec n <> [] /\ Forall (fun b => is_Some (digit_value b)) (udec n) /\ parse_digits (udec n) 0 = Some n.
Proof.
  intros Hn. unfold udec. destruct (digits_spec (digit_fuel n) n []) as (s & -> & Hne & Hs & Hp).
  { unfold digit_fuel. rewrite Nat2Z.inj_succ, Z2Nat.id by apply Z.log2_nonneg.
    destruct (Z.eq_dec n 0) as [->|]; [cbn; lia|]. pose proof (Z.log2_spec n ltac:(lia)). lia. }
  rewrite app_nil_r. split; [|split; [done|]].
  - destruct Hne as [[_ Hf]|Hne]; [discriminate|done].
  - rewrite Hp. done.
Qed.

Lemma digit_not_sign b : is_Some (digit_value b) -> b <> minus /\ b <> plus.
Proof. intros [d Hd]. split; intros ->; discriminate Hd. Qed.

Lemma Itoa_parse n : - 2 ^ 63 <= n <= MaxInt -> Atoi (Itoa n) = Some n.
Proof.
  intros Hn. unfold Itoa, Atoi. destruct (Z.ltb_spec n 0).
  - destruct (udec_spec (- n) ltac:(lia)) as (Hne & _ & Hp). rewrite bool_decide_true by done.
    destruct (udec (- n)) as [|b t]; [done|]. rewrite Hp.
    replace (- - n) with n by lia. rewrite !(proj2 (Z.leb_le _ _)) by lia. done.
  - destruct (udec_spec n ltac:(lia)) as (Hne & Hd & Hp). destruct (udec n) as [|b t]; [done|].
    destruct (digit_not_sign b ltac:(by inversion Hd)). rewrite !bool_decide_false by done. rewrite Hp.
    rewrite !(proj2 (Z.leb_le _ _)) by lia. done.
Qed.

Lemma Itoa_inj n m : Itoa n = Itoa m -> n = m.
Proof.
  assert (Hs : forall k, 0 <= k -> exists b t, udec k = b :: t /\ b <> minus).
  { intros k Hk. destruct (udec_spec k Hk) as (Hne & Hd & _). destruct (udec k) as [|b t]; [done|].
    exists b, t. split; [done|]. apply digit_not_sign. by inversion Hd. }
  unfold Itoa. destruct (Z.ltb_spec n 0), (Z.ltb_spec m 0); intros E.
  - injection E as E. pose proof (udec_spec (- n) ltac:(lia)) as (_ & _ & Hp). rewrite E in Hp.
    pose proof (udec_spec (- m) ltac:(lia)) as (_ & _ & Hq). rewrite Hp in Hq. injection Hq. lia.
  - destruct (Hs m ltac:(lia)) as (b & t & Hb & Hne). rewrite Hb in E. congruence.
  - destruct (Hs n ltac:(lia)) as (b & t & Hb & Hne). rewrite Hb in E. congruence.
  - pose proof (udec_spec n ltac:(lia)) as (_ & _ & Hp). rewrite E in Hp.
    pose proof (udec_spec m ltac:(lia)) as (_ & _ & Hq). rewrite Hp in Hq. injection Hq. lia.
Qed.

Lemma Itoa_not_nil n : Itoa n <> [].
Proof.
  unfold Itoa. destruct (Z.ltb_spec n 0); [done|]. apply (udec_spec n ltac:(lia)).
Qed.

Example itoa_samples : Itoa 0 = str "0" /\ Itoa 1204 = str "1204" /\ Itoa (-37) = str "-37" /\ Atoi (str "+7") = Some 7.
Proof. vm_compute. done. Qed.

Lemma digits_length fuel n acc : (length (digits fuel n acc) <= fuel + length acc)%nat.
Proof.
  revert n acc. induction fuel as [|f IH]; intros n acc; cbn [digits]; [lia|]. destruct (n <? 10); [cbn; lia|].
  etransitivity; [apply IH|]. cbn. lia.
Qed.
