(* ===== verification/Core.v ===== *)
(** * [internal/core]: identities, digests and the evidence vocabulary

    The shared kernel every other package imports: the domain-separated digest, its text form, the
    closed label sets of evidence records and the envelope that carries them. *)

From S2P Require Import Prelude GoLib.

(** ** Sentinel errors ([errors.go])

    Callers branch on the sentinel with [errors.Is]; the message around it is not modelled. *)
Inductive core_error :=
  | ErrNotImplemented | ErrNotFound | ErrAppendOnly | ErrAlreadyEncoded
  | ErrBudget | ErrDegraded | ErrContract
  | ErrArrivalUnassigned (** the unnamed error of [NewObservationID] *).

(** ** Digests ([hash.go]) *)

Definition DomainChunk : bytes := str "qompack.chunk.v1".
Definition DomainRoot : bytes := str "qompack.root.v1".
Definition DomainDecision : bytes := str "qompack.decision".

(** [Hash], a [sha256.Size]-byte array; every digest below has that length. *)
Abbreviation Hash := (bytes).

Definition HashBytes (domain b : bytes) : Hash := Sha256.sum (domain ++ [x00] ++ b).

Definition hashTextPrefix : bytes := str "sha256:".
Definition hexLen : nat := 64.

Definition Hash_String (h : Hash) : bytes := hashTextPrefix ++ Hex.encode h.
Definition Hash_Short (h : Hash) : bytes := take 12 (Hex.encode h).
Definition zeroHash : Hash := replicate 32 x00.
Definition Hash_IsZero (h : Hash) : bool := bool_decide (h = zeroHash).

(** [strings.TrimPrefix]. *)
Definition TrimPrefix (s p : bytes) : bytes :=
  if bool_decide (take (length p) s = p) then drop (length p) s else s.

Definition ParseHash (s : bytes) : outcome core_error Hash :=
  let s := TrimPrefix s hashTextPrefix in
  if negb (length s =? hexLen)%nat then Err ErrNotFound
  else match Hex.decode s with None => Err ErrNotFound | Some b => Ok b end.

(** ** Identities ([ids.go], [evidence.go]) *)

Record ChunkRef := MkChunkRef { cr_Hash : Hash; cr_Len : Z }.

Record Dep := MkDep { dep_Path : bytes; dep_Hash : Hash }.

Definition decisionIDPrefix : bytes := str "dec_".

Definition NewDecisionID (seed : bytes) : bytes :=
  decisionIDPrefix ++ Hash_Short (HashBytes DomainDecision seed).

Definition NewObservationID (session : bytes) (arrival : Z) : outcome core_error bytes :=
  if arrival =? 0 then Err ErrArrivalUnassigned
  else Ok (Hash_String (HashBytes (str "qompack.observation.v1") (session ++ be_put 8 arrival))).

(** ** Evidence labels ([evidence.go])

    Each label type is a Go string with a closed set of constants; a label outside the set is a
    value the program may meet and has to refuse, so the types stay strings. *)

Definition EvidenceVersion : Z := 1.

Definition FidelityExact := str "exact".
Definition FidelityPrefix := str "prefix".
Definition FidelityPartial := str "partial".
Definition FidelityRedacted := str "redacted".
Definition FidelityTruncated := str "truncated".
Definition FidelityBinary := str "binary".
Definition FidelityFailure := str "failure".
Definition FidelityUnknown := str "unknown".

Definition Fidelity_Valid (f : bytes) : bool :=
  bool_decide (f ∈ [FidelityExact; FidelityPrefix; FidelityPartial; FidelityRedacted;
                    FidelityTruncated; FidelityBinary; FidelityFailure; FidelityUnknown]).

Definition CoverageQompackIncluded := str "qompack_included".
Definition CoverageArchiveOnly := str "archive_only".
Definition CoverageNativeLoadObserved := str "native_load_observed".
Definition CoverageExpiredDeleted := str "expired_deleted".
Definition CoverageUnknown := str "unknown".

(** The label list of [Qualified]'s first switch. *)
Definition Coverage_known (c : bytes) : bool :=
  bool_decide (c ∈ [CoverageQompackIncluded; CoverageArchiveOnly; CoverageNativeLoadObserved;
                    CoverageExpiredDeleted; CoverageUnknown]).

Definition OutcomeOK := str "ok".
Definition OutcomeAbsent := str "absent".
Definition OutcomeUnavailable := str "unavailable".
Definition OutcomeDenied := str "denied".
Definition OutcomeCorrupt := str "corrupt".
Definition OutcomeExpired := str "expired".
Definition OutcomeUncertain := str "uncertain".

(** The label list of [Qualified]'s second switch. *)
Definition Outcome_known (o : bytes) : bool :=
  bool_decide (o ∈ [OutcomeOK; OutcomeAbsent; OutcomeUnavailable; OutcomeDenied; OutcomeCorrupt;
                    OutcomeExpired; OutcomeUncertain]).

Definition AuthorityUserCorrection := str "user_correction".
Definition AuthorityExplicitDecision := str "explicit_decision".
Definition AuthorityToolObservation := str "tool_observation".
Definition AuthorityCandidateExtraction := str "candidate_extraction".
Definition AuthorityHypothesis := str "hypothesis".
Definition AuthorityConflict := str "conflict".

Definition Authority_Valid (a : bytes) : bool :=
  bool_decide (a ∈ [AuthorityUserCorrection; AuthorityExplicitDecision; AuthorityToolObservation;
                    AuthorityCandidateExtraction; AuthorityHypothesis; AuthorityConflict]).

(** Turns are Go [int]s; the generation is a [uint64]. *)
Record EvidenceValidity := MkValidity { v_From : Z; v_To : Z; v_Generation : Z }.
Definition zeroValidity : EvidenceValidity := MkValidity 0 0 0.

Record EvidencePage := MkPage { pg_Cursor : bytes; pg_HasMore : bool }.
Record Omission := MkOmission { om_Reason : bytes; om_Recovery : bytes }.

Record EvidenceEnvelope := MkEnvelope {
  ev_Version : Z;
  ev_ObservationID : bytes;
  ev_HostID : bytes;
  ev_Root : Hash;
  ev_Fidelity : bytes;
  ev_Coverage : bytes;
  ev_Validity : EvidenceValidity;
  ev_Omissions : list Omission;
  ev_Page : EvidencePage;
  ev_Outcome : bytes
}.

Definition set_Fidelity (f : bytes) (e : EvidenceEnvelope) : EvidenceEnvelope :=
  MkEnvelope (ev_Version e) (ev_ObservationID e) (ev_HostID e) (ev_Root e) f (ev_Coverage e)
    (ev_Validity e) (ev_Omissions e) (ev_Page e) (ev_Outcome e).
Definition set_Coverage (c : bytes) (e : EvidenceEnvelope) : EvidenceEnvelope :=
  MkEnvelope (ev_Version e) (ev_ObservationID e) (ev_HostID e) (ev_Root e) (ev_Fidelity e) c
    (ev_Validity e) (ev_Omissions e) (ev_Page e) (ev_Outcome e).
Definition set_Validity (v : EvidenceValidity) (e : EvidenceEnvelope) : EvidenceEnvelope :=
  MkEnvelope (ev_Version e) (ev_ObservationID e) (ev_HostID e) (ev_Root e) (ev_Fidelity e)
    (ev_Coverage e) v (ev_Omissions e) (ev_Page e) (ev_Outcome e).
Definition set_Outcome (o : bytes) (e : EvidenceEnvelope) : EvidenceEnvelope :=
  MkEnvelope (ev_Version e) (ev_ObservationID e) (ev_HostID e) (ev_Root e) (ev_Fidelity e)
    (ev_Coverage e) (ev_Validity e) (ev_Omissions e) (ev_Page e) o.

(** The interval test of [Qualified]: negative turns, or a closed interval ending before it starts. *)
Definition badInterval (v : EvidenceValidity) : bool :=
  (v_From v <? 0) || (v_To v <? 0) || (negb (v_To v =? 0) && (v_To v <? v_From v)).

Definition Qualified (e : EvidenceEnvelope) : EvidenceEnvelope :=
  if negb (ev_Version e =? EvidenceVersion) then
    set_Outcome OutcomeUncertain (set_Coverage CoverageUnknown (set_Fidelity FidelityUnknown e))
  else
    let e := if negb (Fidelity_Valid (ev_Fidelity e))
             then set_Outcome OutcomeUncertain (set_Fidelity FidelityUnknown e) else e in
    let e := if negb (Coverage_known (ev_Coverage e))
             then set_Outcome OutcomeUncertain (set_Coverage CoverageUnknown e) else e in
    let e := if negb (Outcome_known (ev_Outcome e)) then set_Outcome OutcomeUncertain e else e in
    let e := if bool_decide (ev_Outcome e = OutcomeAbsent)
             then set_Outcome OutcomeUncertain e else e in
    if badInterval (ev_Validity e)
    then set_Outcome OutcomeUncertain (set_Validity zeroValidity e) else e.

(** ** Lemmas *)

Lemma HashBytes_length d b : length (HashBytes d b) = 32%nat.
Proof. apply Sha256.sum_length. Qed.

Lemma TrimPrefix_app p s : TrimPrefix (p ++ s) p = s.
Proof.
  unfold TrimPrefix. rewrite take_app_length, drop_app_length.
  rewrite bool_decide_eq_true_2 by done. done.
Qed.

Lemma ParseHash_accepts_32 s h : ParseHash s = Ok h -> length h = 32%nat.
Proof.
  unfold ParseHash. destruct (negb _) eqn:E; [done|]. bsolve.
  destruct (Hex.decode _) as [b|] eqn:D; [|done]. intros [= <-].
  apply Hex.decode_length in D. unfold hexLen in E. lia.
Qed.

(** The text form of a digest is lossless: parsing the canonical "sha256:<hex>" form of a
    32-byte digest gives that digest back, the bare hex form does too, and anything [ParseHash]
    accepts is a 32-byte digest. *)
Theorem parse_hash_roundtrip (h : Hash) (s : bytes) :
  length h = 32%nat ->
  ParseHash (Hash_String h) = Ok h /\
  ParseHash (Hex.encode h) = Ok h /\
  (forall h', ParseHash s = Ok h' -> length h' = 32%nat).
Proof.
  intros Hl. split; [|split].
  - unfold ParseHash, Hash_String. rewrite TrimPrefix_app, Hex.encode_length, Hl, Hex.hex_decode_encode.
    done.
  - unfold ParseHash, TrimPrefix. case_bool_decide as Hp.
    + exfalso. destruct h as [|c h]; [done|].
      apply (f_equal (fun l => l !! 1%nat)) in Hp.
      change (Some (Hex.digit (b2z c mod 16)) = Some "h"%byte) in Hp.
      apply (Hex.digit_not_h (b2z c mod 16)). congruence.
    + rewrite Hex.encode_length, Hl, Hex.hex_decode_encode. done.
  - intros h'. apply ParseHash_accepts_32.
Qed.

Lemma parse_hash_roundtrip_witness :
  length (HashBytes DomainChunk (str "x")) = 32%nat /\
  ParseHash (Hash_String (HashBytes DomainChunk (str "x"))) = Ok (HashBytes DomainChunk (str "x")).
Proof.
  split; [apply HashBytes_length|].
  apply (parse_hash_roundtrip (HashBytes DomainChunk (str "x")) []), HashBytes_length.
Defined.

(** The well-formed envelopes: the ones [Qualified] leaves alone. *)
Definition env_qualified (e : EvidenceEnvelope) : bool :=
  (ev_Version e =? EvidenceVersion) && Fidelity_Valid (ev_Fidelity e) &&
  Coverage_known (ev_Coverage e) && Outcome_known (ev_Outcome e) &&
  negb (bool_decide (ev_Outcome e = OutcomeAbsent)) && negb (badInterval (ev_Validity e)).

Lemma qualified_id e : env_qualified e = true -> Qualified e = e.
Proof.
  unfold env_qualified, Qualified. rewrite !andb_true_iff, !negb_true_iff.
  intros (((((H1 & H2) & H3) & H4) & H5) & H6).
  rewrite H1, H2. cbn [negb]. rewrite H3. cbn [negb]. rewrite H4. cbn [negb]. rewrite H5, H6. done.
Qed.

(** The facts on label constants the case analysis below needs, so that no proof unfolds a string. *)
Lemma outcome_constants :
  bool_decide (OutcomeUncertain = OutcomeAbsent) = false /\ OutcomeUncertain <> OutcomeOK /\
  Outcome_known OutcomeUncertain = true /\ Coverage_known CoverageUnknown = true /\
  Fidelity_Valid FidelityUnknown = true.
Proof. split_and!; try reflexivity. discriminate. Qed.

#[local] Opaque OutcomeUncertain OutcomeAbsent OutcomeOK CoverageUnknown FidelityUnknown
  Outcome_known Coverage_known Fidelity_Valid badInterval.

Ltac qualified_simpl :=
  cbn [negb ev_Version ev_Outcome ev_Coverage ev_Fidelity ev_Validity ev_ObservationID ev_Root
       ev_Omissions set_Outcome set_Coverage set_Fidelity set_Validity].

(** Case on every test of a [Qualified] goal. *)
Ltac qualified_cases :=
  destruct outcome_constants as (?HA & ?HO & ?HK & ?HC & ?HF);
  repeat (qualified_simpl; first [ match goal with H : ?b = _ |- context [if ?b then _ else _] => rewrite H end
                | match goal with H : ?b = _ |- context [if negb ?b then _ else _] => rewrite H end
                | match goal with
                  | |- context [if negb ?b then _ else _] =>
                      lazymatch b with context [if _ then _ else _] => fail | _ => destruct b eqn:? end
                  | |- context [if ?b then _ else _] =>
                      lazymatch b with context [if _ then _ else _] => fail | _ => destruct b eqn:? end
                  end ]); qualified_simpl.

Lemma qualified_ok_id e : ev_Outcome (Qualified e) = OutcomeOK -> env_qualified e = true.
Proof.
  unfold env_qualified, Qualified. destruct e as [v oi hi ro f c va om pg o].
  qualified_cases; intros H; try congruence; [].
  repeat match goal with Hx : ?b = _ |- context [?b] => rewrite Hx; clear Hx end. done.
Qed.

Lemma qualified_labels e :
  Fidelity_Valid (ev_Fidelity (Qualified e)) = true /\
  Coverage_known (ev_Coverage (Qualified e)) = true /\
  Outcome_known (ev_Outcome (Qualified e)) = true /\
  bool_decide (ev_Outcome (Qualified e) = OutcomeAbsent) = false.
Proof.
  split_and!; unfold Qualified; destruct e as [v oi hi ro f c va om pg o];
    qualified_cases; congruence.
Qed.

Lemma qualified_version e :
  ev_Version (Qualified e) = ev_Version e /\
  (ev_Version e = EvidenceVersion -> badInterval (ev_Validity (Qualified e)) = false).
Proof.
  assert (badInterval zeroValidity = false) as Hz by reflexivity.
  split; unfold Qualified; destruct e as [v oi hi ro f c va om pg o];
    qualified_cases; bsolve; congruence.
Qed.

Lemma qualified_idem e : Qualified (Qualified e) = Qualified e.
Proof.
  destruct (qualified_labels e) as (H1 & H2 & H3 & H4), (qualified_version e) as [Hv Hi].
  destruct (ev_Version e =? EvidenceVersion) eqn:E; bsolve.
  - apply qualified_id. unfold env_qualified.
    rewrite Hv, E, H1, H2, H3, H4, (Hi E). done.
  - unfold Qualified. rewrite (proj2 (Z.eqb_neq _ _) E). qualified_simpl.
    rewrite (proj2 (Z.eqb_neq _ _) E). done.
Qed.

(** [Qualified] fails closed: whatever envelope it is given, the labels it returns belong to the
    closed sets and never say "absent", it reports success only for an envelope that was already
    well-formed and said so itself (and then returns it unchanged), it is idempotent, and it never
    touches the identity, the root or the omissions. *)
Theorem qualified_fails_closed (e : EvidenceEnvelope) :
  Fidelity_Valid (ev_Fidelity (Qualified e)) = true /\
  Coverage_known (ev_Coverage (Qualified e)) = true /\
  Outcome_known (ev_Outcome (Qualified e)) = true /\
  ev_Outcome (Qualified e) <> OutcomeAbsent /\
  (ev_Outcome (Qualified e) = OutcomeOK -> Qualified e = e) /\
  Qualified (Qualified e) = Qualified e /\
  ev_ObservationID (Qualified e) = ev_ObservationID e /\ ev_Root (Qualified e) = ev_Root e /\
  ev_Omissions (Qualified e) = ev_Omissions e.
Proof.
  destruct (qualified_labels e) as (H1 & H2 & H3 & H4).
  split_and!; try done.
  - intros H. rewrite bool_decide_eq_true_2 in H4 by done. done.
  - intros H. apply qualified_id, qualified_ok_id, H.
  - apply qualified_idem.
  - unfold Qualified; destruct e; qualified_cases; done.
  - unfold Qualified; destruct e; qualified_cases; done.
  - unfold Qualified; destruct e; qualified_cases; done.
Qed.
