(* ===== verification/Chunk.v ===== *)
(** * [internal/chunk]: content-defined chunking

    FastCDC over a gear rolling hash: the parameter normalization, the boundary scan [nextCut], the
    batch splitter [Split], the streaming splitter [SplitStream] over an arbitrary reader, and the
    Merkle root of a chunk list.  Lengths and offsets inside one buffer are [nat] (they are lengths
    of slices); the configured parameters are Go [int]s and stay in [Z] until normalized. *)

From S2P Require Import Prelude GoLib Core.

(** ** Parameters ([types.go], [params.go]) *)

Record Params := MkParams { Min : Z; Target : Z; Max : Z }.

Definition GearWindow : Z := 64.
Definition targetFloor : Z := 256.
Definition targetCeiling : Z := 2 ^ 20.
Definition minTargetRatio : Z := 8.
Definition minFallbackRatio : Z := 4.
Definition maxFloorRatio : Z := 2.
Definition maxCeilingRatio : Z := 16.
Definition maxDefaultRatio : Z := 4.

(** [config.Defaults().Store.Chunk], as [DefaultParams] reads it. *)
Definition DefaultParams : Params := MkParams 1024 4096 16384.

Inductive validate_error := ErrMinNotPositive | ErrTargetNotAboveMin | ErrMaxNotAboveTarget.

Definition Validate (p : Params) : option validate_error :=
  if Min p <=? 0 then Some ErrMinNotPositive
  else if Target p <=? Min p then Some ErrTargetNotAboveMin
  else if Max p <=? Target p then Some ErrMaxNotAboveTarget
  else None.

Definition clamp (v lo hi : Z) : Z := Z.min (Z.max v lo) hi.

Definition Normalized (p : Params) : Params :=
  let target := if Target p <=? 0 then Target DefaultParams else Target p in
  let target := Z.shiftl 1 (bits_Len target - 1) in
  let target := clamp target targetFloor targetCeiling in
  let minLen := Z.max (Min p) (Z.max GearWindow (target / minTargetRatio)) in
  let minLen := if minLen >=? target then target / minFallbackRatio else minLen in
  let maxLen := if Max p <=? 0 then maxDefaultRatio * target else Max p in
  let maxLen := clamp maxLen (maxFloorRatio * target) (maxCeilingRatio * target) in
  MkParams minLen target maxLen.

(** ** The gear table ([gear.go]) *)

Definition gearSeed : Z := 0x90674E5A1CDB7F31.
Definition gearSize : nat := 256.

(** One step of the generator: the new state and the value it returns. *)
Definition splitmix64 (x : Z) : Z * Z :=
  let x := add64 x 0x9E3779B97F4A7C15 in
  let z := mul64 (Z.lxor x (Z.shiftr x 30)) 0xBF58476D1CE4E5B9 in
  let z := mul64 (Z.lxor z (Z.shiftr z 27)) 0x94D049BB133111EB in
  (x, Z.lxor z (Z.shiftr z 31)).

Fixpoint gear_loop (n : nat) (state : Z) : list Z :=
  match n with
  | O => []
  | S n => let '(state, v) := splitmix64 state in v :: gear_loop n state
  end.

Definition newGearTable (seed : Z) : list Z := gear_loop gearSize seed.

Definition gear : list Z := Eval vm_compute in newGearTable gearSeed.

(** The digest the repository freezes in [testdata/golden/chunk/gear-table.sha256]. *)
Example gear_golden :
  Hash_String (Sha256.sum (flat_map (le_put 8) gear)) =
  str "sha256:ea40b3c8e3005b31c205eb9677828d9508511f65641f23029a1989db37827ec5".
Proof. vm_compute. reflexivity. Qed.

(** ** The boundary scan ([fastcdc.go]) *)

Definition maskWidthDelta : Z := 1.

Record chunker := MkChunker { p : Params; maskS : Z; maskL : Z }.

(** [^uint64(0) << (64 - n)]. *)
Definition topBits (n : Z) : Z := shl64 MaxUint64 (64 - n).

Definition New (ps : Params) : chunker :=
  let np := Normalized ps in
  let width := bits_TrailingZeros64 (Target np) in
  MkChunker np (topBits (width + maskWidthDelta)) (topBits (width - maskWidthDelta)).

Definition cMin (c : chunker) : nat := Z.to_nat (Min (p c)).
Definition cTarget (c : chunker) : nat := Z.to_nat (Target (p c)).
Definition cMax (c : chunker) : nat := Z.to_nat (Max (p c)).
Definition window : nat := Z.to_nat GearWindow.

(** [fp = (fp << 1) ^ gear[b]]. *)
Definition roll (fp : Z) (b : byte) : Z :=
  Z.lxor (shl64 fp 1) (nth (Z.to_nat (b2z b)) gear 0).

(** [for ; i < len; i++ { fp = ...; if fp&mask == 0 { return i + 1 } }]: the cut it returns, or the
    fingerprint and index it leaves behind. *)
Fixpoint scan (mask fp : Z) (i : nat) (l : bytes) : nat + (Z * nat) :=
  match l with
  | [] => inr (fp, i)
  | b :: l =>
      let fp := roll fp b in
      if Z.land fp mask =? 0 then inl (S i) else scan mask fp (S i) l
  end.

Definition nextCut (c : chunker) (data : bytes) : nat :=
  let n := length data in
  if (n <=? cMin c)%nat then n
  else
    let n := if (cMax c <? n)%nat then cMax c else n in
    let normal := if (n <? cTarget c)%nat then n else cTarget c in
    let fp := fold_left roll (slice data (cMin c - window) (cMin c)) 0 in
    match scan (maskS c) fp (cMin c) (slice data (cMin c) normal) with
    | inl cut => cut
    | inr (fp, i) =>
        match scan (maskL c) fp i (slice data i n) with
        | inl cut => cut
        | inr _ => n
        end
    end.

(** ** Chunks and the batch splitter ([types.go], [fastcdc.go], [roothash.go]) *)

Record Chunk := MkChunk { Offset : Z; Len : Z; ck_Hash : Hash }.

Definition Ref (c : Chunk) : ChunkRef := MkChunkRef (ck_Hash c) (Len c).
Definition Refs (chunks : list Chunk) : list ChunkRef := map Ref chunks.

Definition chunkHashPrefix : bytes := DomainChunk ++ [x00].

(** [hashInto]: reset, write the prefix, write the payload, sum. *)
Definition hashInto (payload : bytes) : Hash := Sha256.sum (chunkHashPrefix ++ payload).

(** One pass of [Split]'s loop per unit of fuel; [pieces_fuel] shows the length of the data is
    enough. *)
Fixpoint split_loop (c : chunker) (fuel : nat) (off : nat) (data : bytes) : list Chunk :=
  match fuel with
  | O => []
  | S fuel =>
      match data with
      | [] => []
      | _ =>
          let n := nextCut c data in
          MkChunk (Z.of_nat off) (Z.of_nat n) (hashInto (take n data))
            :: split_loop c fuel (off + n) (drop n data)
      end
  end.

Definition Split (c : chunker) (data : bytes) : list Chunk := split_loop c (length data) 0 data.

Definition domainSeparator : byte := x00.

Definition RootHash (chunks : list Chunk) : Hash :=
  Sha256.sum (DomainRoot ++ [domainSeparator] ++ concat (map ck_Hash chunks)).

(** ** Streaming ([stream.go]) *)

(** What one call of an [io.Reader] returns: the bytes it stored and the error beside them. *)
Inductive read_error := EOF | UnexpectedEOF | OtherError (code : nat).
Record read_result := MkRead { rd_bytes : bytes; rd_err : option read_error }.

(** A reader is the sequence of results it will give.  [Read] never stores more than the buffer
    holds: a longer result is delivered over several calls, its error with the last of them.  Past
    the end every call reports [EOF]. *)
Abbreviation reader := (list read_result).

Definition Read (space : nat) (r : reader) : bytes * option read_error * reader :=
  match r with
  | [] => ([], Some EOF, [])
  | MkRead bs e :: r =>
      if (length bs <=? space)%nat then (bs, e, r)
      else (take space bs, None, MkRead (drop space bs) e :: r)
  end.

Definition maxEmptyReads : nat := 100.

Inductive stream_error (E : Type) :=
  | ErrNilFn
  | ErrNoProgress
  | ErrRead (e : read_error)
  | ErrFn (e : E).
Arguments ErrNilFn {E}.
Arguments ErrNoProgress {E}.
Arguments ErrRead {E} e.
Arguments ErrFn {E} e.

(** The refill loop's variables. *)
Record fill := MkFill { f_buf : bytes; f_eof : bool; f_empty : nat; f_reader : reader }.

(** [for !eof && len(buf) <= Max { ... }].  [None] is out of fuel. *)
Fixpoint refill {E} (c : chunker) (fuel : nat) (s : fill) : option (stream_error E + fill) :=
  match fuel with
  | O => None
  | S fuel =>
      if negb (f_eof s) && (length (f_buf s) <=? cMax c)%nat then
        let '(bs, err, r) := Read (2 * cMax c - length (f_buf s)) (f_reader s) in
        let buf := f_buf s ++ bs in
        let got := (0 <? length bs)%nat in
        let empty := if got then 0%nat
                     else match err with None => S (f_empty s) | Some _ => f_empty s end in
        match err with
        | None =>
            if negb got && (maxEmptyReads <=? empty)%nat then Some (inl ErrNoProgress)
            else refill c fuel (MkFill buf false empty r)
        | Some EOF => refill c fuel (MkFill buf true empty r)
        | Some UnexpectedEOF =>
            if got then refill c fuel (MkFill buf true empty r)
            else Some (inl (ErrRead UnexpectedEOF))
        | Some e => Some (inl (ErrRead e))
        end
      else Some (inr s)
  end.

Section Stream.
Context {A E : Type}.
(** The callback, threading the state it closes over; [Some e] is a non-nil error. *)
Variable fn : A -> Chunk -> bytes -> A * option E.

(** [for len(buf) > Max || (eof && len(buf) > 0) { ... }]: the callback's error, or the offset and
    the unconsumed tail. *)
Fixpoint emit (c : chunker) (fuel : nat) (a : A) (off : nat) (buf : bytes) (eof : bool)
    : option (A * (E + nat * bytes)) :=
  match fuel with
  | O => None
  | S fuel =>
      if (cMax c <? length buf)%nat || (eof && (0 <? length buf)%nat) then
        let n := nextCut c buf in
        let chunk := MkChunk (Z.of_nat off) (Z.of_nat n) (hashInto (take n buf)) in
        match fn a chunk (take n buf) with
        | (a, Some e) => Some (a, inl e)
        | (a, None) => emit c fuel a (off + n) (drop n buf) eof
        end
      else Some (a, inr (off, buf))
  end.

(** The outer loop. *)
Fixpoint stream_loop (c : chunker) (fuel rfuel : nat) (a : A) (off : nat) (s : fill)
    : option (A * option (stream_error E)) :=
  match fuel with
  | O => None
  | S fuel =>
      match refill c rfuel s with
      | None => None
      | Some (inl e) => Some (a, Some e)
      | Some (inr s) =>
          match emit c (S (length (f_buf s))) a off (f_buf s) (f_eof s) with
          | None => None
          | Some (a, inl e) => Some (a, Some (ErrFn e))
          | Some (a, inr (off, buf)) =>
              if f_eof s && (length buf =? 0)%nat then Some (a, None)
              else stream_loop c fuel rfuel a off (MkFill buf (f_eof s) (f_empty s) (f_reader s))
          end
      end
  end.

(** How many calls a reader can still answer before it only reports [EOF]. *)
Definition rsize (r : reader) : nat := sum_list_with (fun x => S (length (rd_bytes x))) r.

End Stream.

#[global] Arguments rsize : simpl never.

(** [SplitStream(r, fn)]; [None] stands for a nil reader or a nil callback.  The fuel is read off the
    reader: each pass of either loop consumes at least one of its results or one of its bytes. *)
Definition SplitStream {A E} (c : chunker) (r : option reader)
    (fn : option (A -> Chunk -> bytes -> A * option E)) (a : A) : option (A * option (stream_error E)) :=
  match r with
  | None => Some (a, None)
  | Some r =>
      match fn with
      | None => Some (a, Some ErrNilFn)
      | Some fn => stream_loop fn c (rsize r + 3) (rsize r + 3) a 0 (MkFill [] false 0 r)
      end
  end.

(** ** Normalization *)

(** What [Normalized] guarantees and the scan relies on. *)
Record wf_params (q : Params) : Prop := {
  wf_target : exists k, 8 <= k <= 20 /\ Target q = 2 ^ k;
  wf_min_window : GearWindow <= Min q;
  wf_min_ratio : Target q / minTargetRatio <= Min q;
  wf_min_target : Min q < Target q;
  wf_max_lo : maxFloorRatio * Target q <= Max q;
  wf_max_hi : Max q <= maxCeilingRatio * Target q
}.

Lemma pow2_bounds k : 8 <= k <= 20 -> 2 ^ 8 <= 2 ^ k <= 2 ^ 20.
Proof. intros H. split; apply Z.pow_le_mono_r; lia. Qed.

Lemma pow2_split k j : 0 <= j <= k -> 2 ^ k = 2 ^ j * 2 ^ (k - j).
Proof. intros H. rewrite <- Z.pow_add_r by lia. f_equal. lia. Qed.

Lemma clamp_pow2 j : 0 <= j -> exists k, 8 <= k <= 20 /\ clamp (2 ^ j) targetFloor targetCeiling = 2 ^ k.
Proof.
  intros Hj. unfold clamp, targetFloor, targetCeiling. exists (Z.min (Z.max j 8) 20).
  split; [lia|]. change 256 with (2 ^ 8).
  destruct (Z.le_gt_cases j 8), (Z.le_gt_cases j 20); try lia.
  - pose proof (Z.pow_le_mono_r 2 j 8 ltac:(lia) ltac:(lia)).
    rewrite (Z.max_r j), Z.max_r, Z.min_l, Z.min_l by lia. done.
  - pose proof (Z.pow_le_mono_r 2 8 j ltac:(lia) ltac:(lia)).
    pose proof (Z.pow_le_mono_r 2 j 20 ltac:(lia) ltac:(lia)).
    rewrite (Z.max_l j), Z.max_l, Z.min_l, Z.min_l by lia. done.
  - pose proof (Z.pow_le_mono_r 2 20 j ltac:(lia) ltac:(lia)).
    rewrite (Z.max_l j), Z.max_l, Z.min_r, Z.min_r by lia. done.
Qed.

Lemma Normalized_wf q : wf_params (Normalized q).
Proof.
  unfold Normalized.
  set (t0 := if Target q <=? 0 then _ else _).
  assert (0 < t0) by (unfold t0; destruct (Target q <=? 0) eqn:?; bsolve; [done|lia]).
  assert (bits_Len t0 - 1 = Z.log2 t0) as ->.
  { unfold bits_Len. destruct (t0 <=? 0) eqn:?; bsolve; lia. }
  rewrite Z.shiftl_1_l.
  destruct (clamp_pow2 (Z.log2 t0) (Z.log2_nonneg t0)) as (k & Hk & ->).
  pose proof (pow2_bounds k Hk). pose proof (pow2_split k 3 ltac:(lia)) as H3.
  pose proof (pow2_split k 2 ltac:(lia)) as H2.
  change (2 ^ 3) with 8 in H3. change (2 ^ 2) with 4 in H2.
  assert (2 ^ k / 8 = 2 ^ (k - 3)) as E8 by (rewrite H3, Z.mul_comm, Z.div_mul; lia).
  assert (2 ^ k / 4 = 2 ^ (k - 2)) as E4 by (rewrite H2, Z.mul_comm, Z.div_mul; lia).
  split; cbn [Min Target Max]; [eauto|..];
    unfold minTargetRatio, minFallbackRatio, maxFloorRatio, maxCeilingRatio, maxDefaultRatio,
      GearWindow, clamp in *; rewrite ?E8, ?E4; try (ifcase; lia); lia.
Qed.

Lemma Normalized_id q : wf_params q -> Normalized q = q.
Proof.
  destruct q as [mn tg mx]. intros [(k & Hk & Ht) H1 H2 H3 H4 H5]. cbn in *. subst tg.
  unfold Normalized. cbn. pose proof (pow2_bounds k Hk).
  destruct (2 ^ k <=? 0) eqn:?; bsolve; [lia|].
  assert (bits_Len (2 ^ k) - 1 = k) as ->.
  { unfold bits_Len. destruct (2 ^ k <=? 0) eqn:?; bsolve; [lia|]. rewrite Z.log2_pow2; lia. }
  rewrite Z.shiftl_1_l.
  assert (clamp (2 ^ k) targetFloor targetCeiling = 2 ^ k) as ->
    by (unfold clamp, targetFloor, targetCeiling; lia).
  unfold maxFloorRatio, maxCeilingRatio in *.
  f_equal; [|unfold clamp; ifcase; lia].
  rewrite Z.max_l by lia. ifcase; lia.
Qed.

(** ** Masks and the rolling hash *)

Lemma u64_testbit z i : 0 <= i -> Z.testbit (u64 z) i = Z.testbit z i && (i <? 64).
Proof.
  intros Hi. unfold u64. rewrite <- Z.land_ones, Z.land_spec, Z.testbit_ones by lia.
  destruct (Z.ltb_spec i 64); destruct (Z.leb_spec 0 i); try lia; done.
Qed.

Lemma topBits_testbit n i :
  0 <= n <= 64 -> 0 <= i -> Z.testbit (topBits n) i = (64 - n <=? i) && (i <? 64).
Proof.
  intros Hn Hi. unfold topBits, shl64. rewrite u64_testbit by done.
  rewrite Z.shiftl_spec by done. unfold MaxUint64.
  change (2 ^ 64 - 1) with (Z.ones 64).
  destruct (Z.ltb_spec i 64); [|rewrite !andb_false_r; done]. rewrite !andb_true_r.
  destruct (Z.leb_spec (64 - n) i).
  - rewrite Z.testbit_ones by lia.
    destruct (Z.leb_spec 0 (i - (64 - n))), (Z.ltb_spec (i - (64 - n)) 64); try lia; done.
  - rewrite Z.testbit_neg_r by lia. done.
Qed.

(** A chunker in the shape [New] builds. *)
Record wf_chunker (c : chunker) : Prop := {
  wfc_params : wf_params (p c);
  wfc_maskS : maskS c = topBits (bits_TrailingZeros64 (Target (p c)) + maskWidthDelta);
  wfc_maskL : maskL c = topBits (bits_TrailingZeros64 (Target (p c)) - maskWidthDelta)
}.

Lemma New_wf ps : wf_chunker (New ps).
Proof. split; [apply Normalized_wf|done|done]. Qed.

Lemma wf_lengths c : wf_chunker c ->
  (window <= cMin c /\ 0 < cMin c < cTarget c /\ cTarget c < cMax c)%nat.
Proof.
  intros [[(k & Hk & Ht) H1 H2 H3 H4 H5] _ _]. unfold cMin, cTarget, cMax, window.
  unfold GearWindow, maxFloorRatio in *. pose proof (pow2_bounds k Hk). lia.
Qed.

(** A fingerprint the strict mask accepts is one the lenient mask accepts. *)
Lemma mask_subset c fp : wf_chunker c ->
  Z.land fp (maskS c) = 0 -> Z.land fp (maskL c) = 0.
Proof.
  intros [[(k & Hk & Ht) _ _ _ _ _] HS HL] H.
  rewrite HS in H. rewrite HL. rewrite Ht, ctz_pow2 in * by lia. unfold maskWidthDelta in *.
  apply Z.bits_inj_0. intros i. destruct (Z.lt_ge_cases i 0); [apply Z.testbit_neg_r; lia|].
  apply (f_equal (fun z => Z.testbit z i)) in H.
  rewrite Z.land_spec, topBits_testbit, Z.testbit_0_l in * by lia.
  destruct (Z.testbit fp i), (Z.leb_spec (64 - (k + 1)) i), (Z.leb_spec (64 - (k - 1)) i),
    (Z.ltb_spec i 64); cbn in *; try done; lia.
Qed.

Lemma shl64_lxor a b k : 0 <= k -> shl64 (Z.lxor a b) k = Z.lxor (shl64 a k) (shl64 b k).
Proof.
  intros Hk. apply Z.bits_inj'. intros i Hi. unfold shl64.
  rewrite Z.lxor_spec, !u64_testbit, !Z.shiftl_spec, Z.lxor_spec by lia.
  destruct (i <? 64); rewrite ?andb_true_r, ?andb_false_r; done.
Qed.

Lemma shl64_shl64 a j k : 0 <= j -> 0 <= k -> shl64 (shl64 a j) k = shl64 a (j + k).
Proof.
  intros Hj Hk. apply Z.bits_inj'. intros i Hi. unfold shl64.
  rewrite !u64_testbit, !Z.shiftl_spec by lia.
  destruct (Z.lt_ge_cases (i - k) 0).
  - rewrite !Z.testbit_neg_r by lia. done.
  - rewrite u64_testbit, Z.shiftl_spec by lia.
    destruct (Z.ltb_spec i 64), (Z.ltb_spec (i - k) 64); try lia;
      rewrite ?andb_true_r, ?andb_false_r; f_equal; lia.
Qed.

Lemma shl64_all a k : 64 <= k -> shl64 a k = 0.
Proof.
  intros Hk. apply Z.bits_inj_0. intros i. destruct (Z.lt_ge_cases i 0); [apply Z.testbit_neg_r; lia|].
  unfold shl64. rewrite u64_testbit, Z.shiftl_spec by lia.
  destruct (Z.ltb_spec i 64); [|apply andb_false_r]. rewrite Z.testbit_neg_r by lia. done.
Qed.


Lemma u64_shl64 a k : u64 (shl64 a k) = shl64 a k.
Proof. apply u64_small, u64_range. Qed.

(** The recurrence is linear: what was in the fingerprint before a run of bytes contributes only its
    own bits, shifted left once per byte. *)
Lemma roll_linear l a b :
  fold_left roll l (Z.lxor (u64 a) b)
  = Z.lxor (shl64 a (Z.of_nat (length l))) (fold_left roll l b).
Proof.
  revert a b. induction l as [|x l IH]; intros a b; cbn [fold_left].
  - unfold shl64. rewrite Z.shiftl_0_r. done.
  - unfold roll at 2. rewrite shl64_lxor by lia.
    replace (shl64 (u64 a) 1) with (u64 (shl64 a 1)).
    + rewrite Z.lxor_assoc, IH, shl64_shl64 by lia.
      f_equal. f_equal. cbn [length]. lia.
    + rewrite u64_shl64. change (u64 a) with (u64 (Z.shiftl a 0)). fold (shl64 a 0).
      rewrite shl64_shl64 by lia. done.
Qed.

(** After [GearWindow] bytes the fingerprint has forgotten everything earlier. *)
Lemma roll_forgets l fp :
  0 <= fp < 2 ^ 64 -> (window <= length l)%nat -> fold_left roll l fp = fold_left roll l 0.
Proof.
  intros Hfp Hl. rewrite <- (Z.lxor_0_r fp), <- (u64_small fp) by done.
  rewrite roll_linear, shl64_all, Z.lxor_0_l; [done|]. unfold window, GearWindow in Hl. lia.
Qed.

Lemma gear_range b : 0 <= nth (Z.to_nat (b2z b)) gear 0 < 2 ^ 64.
Proof.
  assert (Forall (fun z => 0 <= z < 2 ^ 64) gear) as HF.
  { apply (bool_decide_unpack _). vm_compute. exact I. }
  destruct (nth_in_or_default (Z.to_nat (b2z b)) gear 0) as [Hin|Hd]; [|rewrite Hd; lia].
  rewrite Forall_forall in HF. apply HF. apply list_elem_of_In, Hin.
Qed.

Lemma lxor_u64_range a b :
  0 <= a < 2 ^ 64 -> 0 <= b < 2 ^ 64 -> 0 <= Z.lxor a b < 2 ^ 64.
Proof.
  intros Ha Hb. assert (0 <= Z.lxor a b) by (apply Z.lxor_nonneg; lia). split; [done|].
  apply Z.bounded_iff_bits_nonneg; [lia|done|]. intros i Hi. rewrite Z.lxor_spec.
  rewrite (proj1 (Z.bounded_iff_bits_nonneg 64 a ltac:(lia) ltac:(lia)) ltac:(lia) i Hi).
  rewrite (proj1 (Z.bounded_iff_bits_nonneg 64 b ltac:(lia) ltac:(lia)) ltac:(lia) i Hi). done.
Qed.

Lemma roll_range l fp : 0 <= fp < 2 ^ 64 -> 0 <= fold_left roll l fp < 2 ^ 64.
Proof.
  revert fp. induction l as [|b l IH]; intros fp H; [done|]. cbn [fold_left]. apply IH.
  apply lxor_u64_range; [apply u64_range|apply gear_range].
Qed.

(** ** What [nextCut] computes *)

(** The fingerprint of the whole prefix [data[0:i]], rolled from the first byte. *)
Definition prefix_fp (data : bytes) (i : nat) : Z := fold_left roll (take i data) 0.

(** Position [i] is a content boundary: the strict mask before Target, the lenient one after. *)
Definition boundary (c : chunker) (data : bytes) (i : nat) : bool :=
  Z.land (prefix_fp data (S i)) (if (i <? cTarget c)%nat then maskS c else maskL c) =? 0.

(** The first boundary in [[lo, lo+n)], if any. *)
Fixpoint first_boundary (f : nat -> bool) (lo n : nat) : option nat :=
  match n with
  | O => None
  | S n => if f lo then Some lo else first_boundary f (S lo) n
  end.

(** The reference: cut after the first boundary at or past Min, else at Max or the end. *)
Definition cut_spec (c : chunker) (data : bytes) : nat :=
  let n := Nat.min (length data) (cMax c) in
  match first_boundary (boundary c data) (cMin c) (n - cMin c) with
  | Some i => S i
  | None => n
  end.

Lemma prefix_fp_S data i b :
  data !! i = Some b -> prefix_fp data (S i) = roll (prefix_fp data i) b.
Proof. intros H. unfold prefix_fp. rewrite (take_S_r _ _ b H), fold_left_app. done. Qed.

Lemma slice_cons {A} (l : list A) lo hi b :
  (lo < hi)%nat -> l !! lo = Some b -> slice l lo hi = b :: slice l (S lo) hi.
Proof.
  intros H Hb. unfold slice. rewrite (drop_S _ b) by done.
  replace (hi - lo)%nat with (S (hi - S lo)) by lia. done.
Qed.

Lemma slice_nil {A} (l : list A) lo hi : (hi <= lo)%nat -> slice l lo hi = [].
Proof. intros H. unfold slice. replace (hi - lo)%nat with 0%nat by lia. done. Qed.

Lemma scan_spec mask data lo hi :
  (hi <= length data)%nat ->
  scan mask (prefix_fp data lo) lo (slice data lo hi) =
  match first_boundary (fun i => Z.land (prefix_fp data (S i)) mask =? 0) lo (hi - lo) with
  | Some i => inl (S i)
  | None => inr (prefix_fp data (Nat.max lo hi), Nat.max lo hi)
  end.
Proof.
  intros Hhi. remember (hi - lo)%nat as n eqn:En. revert lo En.
  induction n as [|n IH]; intros lo En.
  - rewrite slice_nil by lia. cbn. rewrite Nat.max_l by lia. done.
  - destruct (lookup_lt_is_Some_2 data lo ltac:(lia)) as [b Hb].
    rewrite (slice_cons _ _ _ b) by (lia || done). cbn [scan first_boundary].
    rewrite <- (prefix_fp_S _ _ _ Hb).
    destruct (Z.land (prefix_fp data (S lo)) mask =? 0); [done|].
    rewrite IH by lia. rewrite !Nat.max_r by lia. done.
Qed.

Lemma first_boundary_app f lo a b :
  first_boundary f lo (a + b) =
  match first_boundary f lo a with
  | Some i => Some i
  | None => first_boundary f (lo + a) b
  end.
Proof.
  revert lo. induction a as [|a IH]; intros lo; cbn [first_boundary Nat.add].
  - rewrite Nat.add_0_r. done.
  - destruct (f lo); [done|]. rewrite IH. replace (S lo + a)%nat with (lo + S a)%nat by lia. done.
Qed.

Lemma first_boundary_ext f g lo n :
  (forall i, (lo <= i < lo + n)%nat -> f i = g i) -> first_boundary f lo n = first_boundary g lo n.
Proof.
  revert lo. induction n as [|n IH]; intros lo H; cbn [first_boundary]; [done|].
  rewrite (H lo) by lia. destruct (g lo); [done|]. apply IH. intros; apply H; lia.
Qed.

Lemma first_boundary_spec f lo n :
  match first_boundary f lo n with
  | Some i => (lo <= i < lo + n)%nat /\ f i = true /\ forall j, (lo <= j < i)%nat -> f j = false
  | None => forall j, (lo <= j < lo + n)%nat -> f j = false
  end.
Proof.
  revert lo. induction n as [|n IH]; intros lo; cbn [first_boundary]; [intros; lia|].
  destruct (f lo) eqn:E.
  - split; [lia|]. split; [done|]. intros; lia.
  - specialize (IH (S lo)). destruct (first_boundary f (S lo) n) as [i|].
    + destruct IH as (H1 & H2 & H3). split; [lia|]. split; [done|]. intros j Hj.
      destruct (decide (j = lo)) as [->|]; [done|]. apply H3; lia.
    + intros j Hj. destruct (decide (j = lo)) as [->|]; [done|]. apply IH; lia.
Qed.

Lemma primed_fp c data :
  wf_chunker c -> (cMin c <= length data)%nat ->
  fold_left roll (slice data (cMin c - window) (cMin c)) 0 = prefix_fp data (cMin c).
Proof.
  intros Hc Hlen. pose proof (wf_lengths c Hc).
  unfold prefix_fp. rewrite <- (take_drop (cMin c - window) (take (cMin c) data)), fold_left_app.
  rewrite skipn_firstn_comm. fold (slice data (cMin c - window) (cMin c)).
  symmetry. apply roll_forgets; [apply roll_range; lia|].
  unfold slice. rewrite length_take, length_drop. lia.
Qed.

Lemma nextCut_spec c data : wf_chunker c -> nextCut c data = cut_spec c data.
Proof.
  intros Hc. pose proof (wf_lengths c Hc) as Hl. unfold nextCut, cut_spec.
  destruct (length data <=? cMin c)%nat eqn:E; bsolve.
  { rewrite Nat.min_l by lia. replace (length data - cMin c)%nat with 0%nat by lia. done. }
  set (n := if (cMax c <? length data)%nat then cMax c else length data).
  assert (n = Nat.min (length data) (cMax c)) as Hn by (unfold n; ifcase; lia).
  rewrite <- Hn. set (normal := if (n <? cTarget c)%nat then n else cTarget c).
  assert (normal = Nat.min n (cTarget c)) as Hnormal by (unfold normal; ifcase; lia).
  rewrite primed_fp, scan_spec by (done || lia).
  replace (n - cMin c)%nat with ((normal - cMin c) + (n - normal))%nat by lia.
  rewrite first_boundary_app.
  rewrite (first_boundary_ext (boundary c data) (fun i => Z.land (prefix_fp data (S i)) (maskS c) =? 0)).
  2: { intros i Hi. unfold boundary. rewrite (proj2 (Nat.ltb_lt i (cTarget c))) by lia. done. }
  destruct (first_boundary _ (cMin c) _); [done|].
  rewrite Nat.max_r, scan_spec by lia. replace (cMin c + (normal - cMin c))%nat with normal by lia.
  rewrite (first_boundary_ext (boundary c data) (fun i => Z.land (prefix_fp data (S i)) (maskL c) =? 0)).
  2: { intros i Hi. unfold boundary. rewrite (proj2 (Nat.ltb_ge i (cTarget c))) by lia. done. }
  destruct (first_boundary _ normal _); done.
Qed.

Lemma cut_bounds c data : wf_chunker c -> data <> [] ->
  (0 < nextCut c data <= Nat.min (length data) (cMax c))%nat /\
  (nextCut c data <= cMin c -> nextCut c data = length data)%nat.
Proof.
  intros Hc Hd. pose proof (wf_lengths c Hc). rewrite nextCut_spec by done. unfold cut_spec.
  destruct data as [|x data]; [done|].
  pose proof (first_boundary_spec (boundary c (x :: data)) (cMin c)
    (Nat.min (length (x :: data)) (cMax c) - cMin c)) as Hf.
  destruct (first_boundary _ _ _) as [i|]; cbn [length] in *; lia.
Qed.

(** Nothing past Max bytes can change the answer. *)
Lemma cut_local c d e : wf_chunker c -> (cMax c <= length d)%nat ->
  nextCut c (d ++ e) = nextCut c d.
Proof.
  intros Hc Hl. rewrite !nextCut_spec by done. unfold cut_spec.
  rewrite length_app, !Nat.min_r by lia.
  rewrite (first_boundary_ext (boundary c (d ++ e)) (boundary c d)); [done|].
  intros i Hi. pose proof (wf_lengths c Hc).
  unfold boundary, prefix_fp. rewrite take_app_le by lia. done.
Qed.

(** ** The batch splitter *)

(** The chunks together with the bytes they stand for. *)
Fixpoint pieces_loop (c : chunker) (fuel off : nat) (data : bytes) : list (Chunk * bytes) :=
  match fuel with
  | O => []
  | S fuel =>
      match data with
      | [] => []
      | _ =>
          let n := nextCut c data in
          (MkChunk (Z.of_nat off) (Z.of_nat n) (hashInto (take n data)), take n data)
            :: pieces_loop c fuel (off + n) (drop n data)
      end
  end.

Definition pieces (c : chunker) (off : nat) (data : bytes) : list (Chunk * bytes) :=
  pieces_loop c (length data) off data.

Lemma split_loop_pieces c n off data :
  split_loop c n off data = map fst (pieces_loop c n off data).
Proof.
  revert off data. induction n as [|n IH]; intros off data; [done|].
  destruct data as [|b data]; [done|]. cbn [split_loop pieces_loop map fst]. f_equal. apply IH.
Qed.

Lemma split_pieces c data : Split c data = map fst (pieces c 0 data).
Proof. apply split_loop_pieces. Qed.

Lemma pieces_fuel c fuel off data : wf_chunker c -> (length data <= fuel)%nat ->
  pieces_loop c fuel off data = pieces c off data.
Proof.
  intros Hc. unfold pieces. revert fuel off. 
  induction data as [data IH] using (induction_ltof1 _ (@length byte)). unfold ltof in IH.
  intros fuel off Hf. destruct data as [|b data]; [destruct fuel; done|].
  destruct fuel as [|fuel]; [cbn in Hf; lia|]. cbn [length pieces_loop].
  pose proof (cut_bounds c (b :: data) Hc ltac:(done)) as [Hb _].
  f_equal. rewrite (IH (drop (nextCut c (b :: data)) (b :: data))).
  - symmetry. apply IH; rewrite length_drop; cbn [length] in *; lia.
  - rewrite length_drop; cbn [length] in *; lia.
  - rewrite length_drop; cbn [length] in *; lia.
Qed.

Lemma pieces_step c off data : wf_chunker c -> data <> [] ->
  pieces c off data =
  let n := nextCut c data in
  (MkChunk (Z.of_nat off) (Z.of_nat n) (hashInto (take n data)), take n data)
    :: pieces c (off + n) (drop n data).
Proof.
  intros Hc Hd. unfold pieces at 1. pose proof (cut_bounds c data Hc Hd) as [Hb _].
  destruct data as [|b data]; [done|]. cbn [length pieces_loop].
  rewrite pieces_fuel by (done || (rewrite length_drop; cbn [length] in *; lia)). done.
Qed.

(** Induction along the cuts. *)
Lemma cut_ind c (P : nat -> bytes -> Prop) : wf_chunker c ->
  (forall off, P off []) ->
  (forall off data, data <> [] -> P (off + nextCut c data)%nat (drop (nextCut c data) data) -> P off data) ->
  forall off data, P off data.
Proof.
  intros Hc H0 HS off data. revert off.
  induction data as [data IH] using (induction_ltof1 _ (@length byte)). unfold ltof in IH.
  intros off. destruct (decide (data = [])) as [->|Hd]; [done|].
  apply HS; [done|]. apply IH. pose proof (cut_bounds c data Hc Hd) as [Hb _].
  rewrite length_drop. lia.
Qed.

(** The chunk list of a partition: offsets are running lengths, hashes are chunk-domain digests. *)
Fixpoint chunks_of (off : nat) (parts : list bytes) : list Chunk :=
  match parts with
  | [] => []
  | b :: parts =>
      MkChunk (Z.of_nat off) (Z.of_nat (length b)) (HashBytes DomainChunk b)
        :: chunks_of (off + length b) parts
  end.

Lemma hashInto_HashBytes b : hashInto b = HashBytes DomainChunk b.
Proof. unfold hashInto, HashBytes, chunkHashPrefix. rewrite <- app_assoc. done. Qed.

Lemma pieces_parts c off data : wf_chunker c ->
  concat (map snd (pieces c off data)) = data /\
  map fst (pieces c off data) = chunks_of off (map snd (pieces c off data)).
Proof.
  intros Hc. revert off data.
  apply (cut_ind c (fun off data => concat (map snd (pieces c off data)) = data /\
    map fst (pieces c off data) = chunks_of off (map snd (pieces c off data)))); [done|done|].
  intros off data Hd [IH1 IH2]. pose proof (cut_bounds c data Hc Hd) as [Hb _].
  rewrite pieces_step by done. cbn [map fst snd concat chunks_of].
  rewrite length_take, Nat.min_l, IH1, IH2, take_drop, hashInto_HashBytes by lia. done.
Qed.

Lemma pieces_sizes c off data : wf_chunker c ->
  Forall (fun b => (0 < length b <= cMax c)%nat) (map snd (pieces c off data)) /\
  Forall (fun b => (cMin c < length b)%nat) (removelast (map snd (pieces c off data))).
Proof.
  intros Hc. revert off data.
  apply (cut_ind c (fun off data => Forall _ (map snd (pieces c off data)) /\
    Forall _ (removelast (map snd (pieces c off data))))); [done|split; constructor|].
  intros off data Hd [IH1 IH2]. pose proof (cut_bounds c data Hc Hd) as [Hb Hm].
  rewrite pieces_step by done. cbn [map snd].
  assert (length (take (nextCut c data) data) = nextCut c data) as Hlt
    by (rewrite length_take; lia).
  split; [constructor; [lia|done]|].
  destruct (map snd (pieces c (off + nextCut c data) (drop (nextCut c data) data))) eqn:E; [constructor|].
  cbn [removelast] in *. constructor; [|done].
  destruct (Nat.le_gt_cases (nextCut c data) (cMin c)) as [Hle|]; [|lia].
  rewrite (Hm Hle), drop_all in E. done.
Qed.

(** C28: [Split] partitions its input: the chunks are consecutive non-overlapping runs that
    concatenate back to the data, offsets are the running lengths, and each hash is the
    chunk-domain digest [core.HashBytes(core.DomainChunk, run)] of exactly its run. *)
Theorem split_partition (ps : Params) (data : bytes) :
  exists parts, concat parts = data /\ Split (New ps) data = chunks_of 0 parts /\
    length parts = length (Split (New ps) data).
Proof.
  destruct (pieces_parts (New ps) 0 data (New_wf ps)) as [H1 H2].
  exists (map snd (pieces (New ps) 0 data)). rewrite split_pieces. split_and!; [done|done|].
  rewrite !length_map. done.
Qed.

Lemma chunks_of_lens off parts : map Len (chunks_of off parts) = map (fun b => Z.of_nat (length b)) parts.
Proof. revert off. induction parts; intros; cbn; [done|]. rewrite IHparts. done. Qed.

Lemma removelast_map {A B} (f : A -> B) l : removelast (map f l) = map f (removelast l).
Proof. induction l as [|x [|y l] IH]; [done|done|]. cbn in *. rewrite IH. done. Qed.

Lemma sum_big (m : nat) (l : list bytes) :
  Forall (fun b => (m < length b)%nat) (removelast l) ->
  ((length l - 1) * m <= length (concat l))%nat.
Proof.
  induction l as [|x [|y l] IH]; intros HF; [cbn; lia|cbn; lia|].
  cbn [removelast] in HF. inversion HF as [|? ? Hx HF']; subst. specialize (IH HF').
  change (concat (x :: y :: l)) with (x ++ concat (y :: l)). rewrite length_app.
  replace (length (x :: y :: l) - 1)%nat with (S (length (y :: l) - 1)) by (cbn; lia).
  rewrite Nat.mul_succ_l. lia.
Qed.

(** Chunk sizes and the exactness of the preallocated slice: every chunk is between one byte and
    Max bytes, every chunk but the last is longer than Min, and there are at most [len/Min + 1] of
    them, so [append] never grows the slice [Split] allocates. *)
Theorem split_sizes (ps : Params) (data : bytes) :
  Forall (fun ck => 0 < Len ck <= Max (Normalized ps)) (Split (New ps) data) /\
  Forall (fun ck => Min (Normalized ps) < Len ck) (removelast (Split (New ps) data)) /\
  (length (Split (New ps) data) <= length data / Z.to_nat (Min (Normalized ps)) + 1)%nat.
Proof.
  pose proof (New_wf ps) as Hc. pose proof (wf_lengths _ Hc) as Hl.
  destruct (pieces_parts _ 0 data Hc) as [H1 H2], (pieces_sizes _ 0 data Hc) as [H3 H4].
  rewrite split_pieces, H2. clear H2. set (parts := map snd (pieces (New ps) 0 data)) in *.
  assert (forall (P : Z -> Prop) l, Forall P (map Len l) -> Forall (fun ck => P (Len ck)) l) as Hm
    by (intros P l; induction l; cbn; inversion 1; constructor; auto).
  assert (forall off, length (chunks_of off parts) = length parts) as Hcl
    by (intros off; rewrite <- (length_map Len), chunks_of_lens, length_map; done).
  unfold cMin, cMax in *. cbn [p New] in *.
  split_and!.
  - apply (Hm (fun z => 0 < z <= Max (Normalized ps))). rewrite chunks_of_lens.
    apply Forall_map. eapply Forall_impl; [exact H3|]. intros b. cbn. lia.
  - apply (Hm (fun z => Min (Normalized ps) < z)). rewrite <- removelast_map, chunks_of_lens, removelast_map.
    apply Forall_map. eapply Forall_impl; [exact H4|]. intros b. cbn. lia.
  - rewrite Hcl. apply sum_big in H4. rewrite H1 in H4.
    set (m := Z.to_nat (Min (Normalized ps))) in *.
    assert (length parts - 1 <= length data / m)%nat by (apply Nat.div_le_lower_bound; lia). lia.
Qed.

(** [nextCut] is correct: although it primes its fingerprint over the 64 bytes before Min only,
    the length it returns is the one the full-history definition gives: one past the first position
    at or after Min (within the first Max bytes) where the fingerprint of the whole prefix,
    rolled from byte 0, has all bits of the applicable mask clear (the strict mask before Target, the
    lenient one from Target on), and otherwise Max, or the length of a shorter input. *)
Theorem nextCut_correct (ps : Params) (data : bytes) :
  let c := New ps in
  match first_boundary (boundary c data) (cMin c) (Nat.min (length data) (cMax c) - cMin c) with
  | Some i => nextCut c data = S i /\ (cMin c <= i)%nat
  | None => nextCut c data = Nat.min (length data) (cMax c)
  end /\
  (forall fp, Z.land fp (maskS c) = 0 -> Z.land fp (maskL c) = 0).
Proof.
  intros c. split; [|intros fp; apply mask_subset, New_wf].
  rewrite nextCut_spec by apply New_wf. unfold cut_spec.
  pose proof (first_boundary_spec (boundary c data) (cMin c) (Nat.min (length data) (cMax c) - cMin c)) as H.
  destruct (first_boundary _ _ _); [split; [done|apply H]|done].
Qed.

(** [Normalized] turns any parameters into runnable ones: a power-of-two Target between 256 and
    2^20, a Min that leaves room for the priming window and stays below Target, a Max between twice
    and sixteen times Target; it is idempotent and the identity on the defaults. *)
Theorem normalized_runnable (ps : Params) :
  wf_params (Normalized ps) /\ Normalized (Normalized ps) = Normalized ps /\
  Normalized DefaultParams = DefaultParams.
Proof.
  split_and!; [apply Normalized_wf|apply Normalized_id, Normalized_wf|reflexivity].
Qed.

(** ** Streaming *)

(** Everything a reader delivers, and the error it ends with ([None] is a clean end): bytes beside an
    [EOF] or an [UnexpectedEOF] count, and a run of [maxEmptyReads] empty results is an error. *)
Fixpoint delivered {E} (empty : nat) (r : reader) : bytes * option (stream_error E) :=
  match r with
  | [] => ([], None)
  | MkRead bs e :: r =>
      match e with
      | None =>
          match bs with
          | [] => if (maxEmptyReads <=? S empty)%nat then ([], Some ErrNoProgress)
                  else delivered (S empty) r
          | _ => (bs ++ fst (delivered (E:=E) 0 r), snd (delivered (E:=E) 0 r))
          end
      | Some EOF => (bs, None)
      | Some UnexpectedEOF =>
          match bs with [] => ([], Some (ErrRead UnexpectedEOF)) | _ => (bs, None) end
      | Some e => (bs, Some (ErrRead e))
      end
  end.

(** What is still to come when the loop is in state [s]. *)
Definition to_come {E} (s : fill) : bytes * option (stream_error E) :=
  if f_eof s then ([], None) else delivered (f_empty s) (f_reader s).

Lemma delivered_app {E} k x y e r : x <> [] -> y <> [] ->
  delivered (E:=E) k (MkRead (x ++ y) e :: r) =
  (x ++ fst (delivered (E:=E) 0 (MkRead y e :: r)), snd (delivered (E:=E) 0 (MkRead y e :: r))).
Proof.
  intros Hx Hy. destruct x as [|a x]; [done|]. destruct y as [|b y]; [done|].
  cbn [delivered app]. destruct e as [[| |]|]; cbn [fst snd]; try done.
  rewrite <- app_assoc. done.
Qed.

Lemma rsize_cons x r : rsize (x :: r) = (S (length (rd_bytes x)) + rsize r)%nat.
Proof. done. Qed.

(** One pass of the refill loop, on a state that enters it. *)
Lemma read_step {E} (c : chunker) (s : fill) bs err r :
  wf_chunker c -> f_eof s = false -> (length (f_buf s) <= cMax c)%nat ->
  Read (2 * cMax c - length (f_buf s)) (f_reader s) = (bs, err, r) ->
  (f_reader s = [] /\ bs = [] /\ err = Some EOF /\ r = []) \/
  ((rsize r < rsize (f_reader s))%nat /\
   match err, bs with
   | None, [] => to_come (E:=E) s =
                 if (maxEmptyReads <=? S (f_empty s))%nat then ([], Some ErrNoProgress)
                 else delivered (S (f_empty s)) r
   | None, _ => to_come (E:=E) s = (bs ++ fst (delivered (E:=E) 0 r), snd (delivered (E:=E) 0 r))
   | Some EOF, _ => to_come (E:=E) s = (bs, None)
   | Some UnexpectedEOF, [] => to_come (E:=E) s = ([], Some (ErrRead UnexpectedEOF))
   | Some UnexpectedEOF, _ => to_come (E:=E) s = (bs, None)
   | Some e, _ => to_come (E:=E) s = (bs, Some (ErrRead e))
   end).
Proof.
  intros Hc He Hl HR. pose proof (wf_lengths c Hc). unfold to_come. rewrite He.
  remember (2 * cMax c - length (f_buf s))%nat as sp eqn:Hsp.
  destruct (f_reader s) as [|[b e] r0]; cbn [Read] in HR; [injection HR as <- <- <-; left; done|right].
  destruct (length b <=? _)%nat eqn:E0; bsolve; injection HR as <- <- <-.
  - rewrite rsize_cons. split; [cbn; lia|]. cbn [delivered].
    destruct e as [[| |]|]; destruct b; done.
  - assert (take sp b <> []) as Ht
      by (intros Hn; apply (f_equal length) in Hn; rewrite length_take in Hn; cbn in Hn; lia).
    assert (drop sp b <> []) as Hdn
      by (intros Hn; apply (f_equal length) in Hn; rewrite length_drop in Hn; cbn in Hn; lia).
    rewrite !rsize_cons. cbn [rd_bytes]. rewrite length_drop. split; [lia|].
    pose proof (delivered_app (E:=E) (f_empty s) (take sp b) (drop sp b) e r0 Ht Hdn) as HD.
    rewrite take_drop in HD. rewrite HD. destruct (take sp b); done.
Qed.

Definition refill_post {E} (c : chunker) (s : fill) (o : option (stream_error E + fill)) : Prop :=
  match o with
  | None => False
  | Some (inl e) => snd (to_come (E:=E) s) = Some e /\ (forall x, e <> ErrFn x)
  | Some (inr s') =>
      f_buf s' ++ fst (to_come (E:=E) s') = f_buf s ++ fst (to_come (E:=E) s) /\
      snd (to_come (E:=E) s') = snd (to_come (E:=E) s) /\
      (f_eof s' = true \/ (cMax c < length (f_buf s'))%nat) /\
      (rsize (f_reader s') <= rsize (f_reader s))%nat /\
      (f_eof s = false -> (length (f_buf s) <= cMax c)%nat -> f_eof s' = false ->
       (rsize (f_reader s') < rsize (f_reader s))%nat) /\
      (f_eof s = true -> f_eof s' = true)
  end.

(** A pass that reads and goes on keeps the postcondition. *)
Lemma refill_post_step {E} (c : chunker) (s s1 : fill) (o : option (stream_error E + fill)) bs :
  f_eof s = false ->
  f_buf s1 = f_buf s ++ bs ->
  to_come (E:=E) s = (bs ++ fst (to_come (E:=E) s1), snd (to_come (E:=E) s1)) ->
  (rsize (f_reader s1) < rsize (f_reader s))%nat \/
    (f_eof s1 = true /\ (rsize (f_reader s1) <= rsize (f_reader s))%nat) ->
  refill_post c s1 o -> (f_eof s1 = true -> match o with Some (inr s') => f_eof s' = true | _ => True end) ->
  refill_post c s o.
Proof.
  intros He Hb Ht Hr Hp Heof. unfold refill_post in *.
  destruct o as [[e|s']|]; [|..|done].
  - rewrite Ht. exact Hp.
  - destruct Hp as (H1 & H2 & H3 & H4 & H5 & H6). rewrite Ht. cbn [fst snd].
    rewrite H1, H2, Hb, <- app_assoc. split_and!; [done|done|done|lia| |congruence].
    intros _ _ Hf. destruct Hr as [Hr|[Hr1 Hr2]]; [lia|]. specialize (Heof Hr1). congruence.
Qed.

Lemma refill_eof {E} (c : chunker) fuel (s : fill) : f_eof s = true ->
  refill (E:=E) c (S fuel) s = Some (inr s).
Proof. intros H. cbn [refill]. rewrite H. done. Qed.

Lemma refill_spec {E} (c : chunker) fuel (s : fill) : wf_chunker c ->
  (rsize (f_reader s) + (if f_eof s then 0 else 1) < fuel)%nat ->
  refill_post (E:=E) c s (refill c fuel s).
Proof.
  intros Hc. revert s. induction fuel as [|fuel IH]; intros s Hf; [lia|].
  destruct (f_eof s) eqn:Ee.
  { rewrite refill_eof by done. cbn. split_and!; auto; congruence. }
  cbn [refill]. rewrite Ee. cbn [negb andb].
  destruct (length (f_buf s) <=? cMax c)%nat eqn:El; bsolve.
  2: { cbn. split_and!; auto; lia. }
  destruct (Read _ _) as [[bs err] r] eqn:ER.
  assert (forall empty, refill_post (E:=E) c s (refill (E:=E) c fuel (MkFill (f_buf s ++ bs) true empty r)) <->
    refill_post (E:=E) c s (Some (inr (MkFill (f_buf s ++ bs) true empty r)))) as Hstop.
  { intros empty. destruct fuel; [lia|]. rewrite refill_eof by done. done. }
  destruct (read_step (E:=E) c s bs err r Hc Ee El ER) as [(Hr & -> & -> & ->)|[Hr Ht]].
  { apply Hstop. cbn. unfold to_come. rewrite Ee, Hr. cbn.
    rewrite !app_nil_r. split_and!; auto; intros; congruence. }
  assert (forall empty, to_come (E:=E) s = (bs, None) ->
    refill_post (E:=E) c s (refill (E:=E) c fuel (MkFill (f_buf s ++ bs) true empty r))) as Hend.
  { intros empty Hx. apply Hstop. cbn. rewrite Hx. cbn. rewrite app_nil_r.
    split_and!; auto; intros; (lia || congruence). }
  destruct err as [[| |k]|].
  - destruct bs; apply Hend, Ht.
  - destruct bs as [|b bs]; [|apply Hend, Ht]. cbn. rewrite Ht. done.
  - destruct bs; cbn; rewrite Ht; done.
  - destruct bs as [|b bs]; cbn [length Nat.ltb Nat.leb negb andb].
    + destruct (maxEmptyReads <=? S (f_empty s))%nat eqn:Em.
      * cbn. rewrite Ht. done.
      * apply (refill_post_step c s (MkFill (f_buf s ++ []) false (S (f_empty s)) r) _ []);
          [done|done| |left; done| |done].
        { rewrite Ht. cbn. destruct (delivered (S (f_empty s)) r); done. }
        apply IH. cbn. lia.
    + apply (refill_post_step c s (MkFill (f_buf s ++ b :: bs) false 0 r) _ (b :: bs));
        [done|done|exact Ht|left; done| |done].
      apply IH. cbn. lia.
Qed.

Section Refinement.
Context {A E : Type} (fn : A -> Chunk -> bytes -> A * option E) (c : chunker) (Hc : wf_chunker c).

(** Calling back on a list of chunks in order, stopping at the first error. *)
Fixpoint feed (a : A) (l : list (Chunk * bytes)) : A * option E :=
  match l with
  | [] => (a, None)
  | (ck, b) :: l =>
      match fn a ck b with
      | (a, Some e) => (a, Some e)
      | (a, None) => feed a l
      end
  end.

Lemma feed_app a l1 l2 :
  feed a (l1 ++ l2) = match feed a l1 with (a, None) => feed a l2 | r => r end.
Proof.
  revert a. induction l1 as [|[ck b] l1 IH]; intros a; [done|]. cbn [feed app].
  destruct (fn a ck b) as [a' [e|]]; [done|apply IH].
Qed.

Lemma emit_spec fuel a off buf eof d :
  (length buf < fuel)%nat -> (eof = true -> d = []) ->
  exists l1 l2, pieces c off (buf ++ d) = l1 ++ l2 /\
  match emit fn c fuel a off buf eof with
  | None => False
  | Some (a', inl e) => feed a l1 = (a', Some e)
  | Some (a', inr (off', buf')) =>
      feed a l1 = (a', None) /\ l2 = pieces c off' (buf' ++ d) /\ (length buf' <= cMax c)%nat /\
      (eof = true -> buf' = [])
  end.
Proof.
  revert a off buf. induction fuel as [|fuel IH]; intros a off buf Hf Heof; [lia|].
  cbn [emit]. destruct ((cMax c <? length buf)%nat || (eof && (0 <? length buf)%nat)) eqn:Eg.
  - assert (buf <> []) as Hb.
    { intros ->. apply orb_prop in Eg as [Eg|Eg]; bsolve; cbn [length] in *; lia. }
    assert (nextCut c (buf ++ d) = nextCut c buf) as Hcut.
    { apply orb_prop in Eg as [Eg|Eg].
      - bsolve. apply cut_local; [done|lia].
      - apply andb_prop in Eg as [-> _]. rewrite (Heof eq_refl), app_nil_r. done. }
    pose proof (cut_bounds c buf Hc Hb) as [Hn _].
    assert (buf ++ d <> []) as Hbd by (destruct buf; done).
    rewrite pieces_step by done. cbv zeta. rewrite Hcut, take_app_le, drop_app_le by lia.
    set (ck := (MkChunk _ _ _)).
    destruct (fn a ck (take (nextCut c buf) buf)) as [a' [e|]] eqn:Efn.
    + exists [(ck, take (nextCut c buf) buf)], (pieces c (off + nextCut c buf) (drop (nextCut c buf) buf ++ d)).
      split; [done|]. cbn [feed]. rewrite Efn. done.
    + destruct (IH a' (off + nextCut c buf)%nat (drop (nextCut c buf) buf)) as (l1 & l2 & Hl & Hr);
        [rewrite length_drop; lia|done|].
      exists ((ck, take (nextCut c buf) buf) :: l1), l2. split; [rewrite Hl; done|].
      cbn [feed]. rewrite Efn. exact Hr.
  - apply orb_false_elim in Eg as [Eg1 Eg2]. bsolve.
    exists [], (pieces c off (buf ++ d)). split; [done|]. split_and!; [done|done|done|].
    intros ->. cbn in Eg2. bsolve. destruct buf; [done|cbn in Eg2; lia].
Qed.

(** What the outer loop returns from a state whose unread and buffered bytes are [rest]. *)
Definition stream_post (a : A) (off : nat) (rest : bytes) (ending : option (stream_error E))
    (o : option (A * option (stream_error E))) : Prop :=
  exists l1 l2, pieces c off rest = l1 ++ l2 /\
  match o with
  | None => False
  | Some (a', None) => ending = None /\ l2 = [] /\ feed a l1 = (a', None)
  | Some (a', Some (ErrFn e)) => feed a l1 = (a', Some e)
  | Some (a', Some e) => ending = Some e /\ feed a l1 = (a', None)
  end.

Lemma stream_post_app a a' off off' rest rest' l1 ending o :
  pieces c off rest = l1 ++ pieces c off' rest' -> feed a l1 = (a', None) ->
  stream_post a' off' rest' ending o -> stream_post a off rest ending o.
Proof.
  intros Hp Hf (k1 & k2 & Hk & Ho). exists (l1 ++ k1), k2.
  split; [rewrite Hp, Hk, app_assoc; done|].
  assert (feed a (l1 ++ k1) = feed a' k1) as -> by (rewrite feed_app, Hf; done). exact Ho.
Qed.

Lemma stream_loop_spec fuel rfuel a off s :
  (rsize (f_reader s) + (if f_eof s then 0 else 2) < fuel)%nat -> (rsize (f_reader s) + 1 < rfuel)%nat ->
  (f_eof s = false -> (length (f_buf s) <= cMax c)%nat) ->
  stream_post a off (f_buf s ++ fst (to_come (E:=E) s)) (snd (to_come (E:=E) s))
    (stream_loop fn c fuel rfuel a off s).
Proof.
  revert a off s. induction fuel as [|fuel IH]; intros a off s Hf Hrf Hb; [lia|].
  cbn [stream_loop].
  pose proof (refill_spec (E:=E) c rfuel s Hc ltac:(destruct (f_eof s); lia)) as Hp.
  destruct (refill c rfuel s) as [[e|s']|]; cbn [refill_post] in Hp; [|..|done].
  - destruct Hp as [Hp Hne]. exists [], (pieces c off (f_buf s ++ fst (to_come (E:=E) s))).
    split; [done|]. destruct e; try done. destruct (Hne e); done.
  - destruct Hp as (H1 & H2 & H3 & H4 & H5 & H6). rewrite <- H1, <- H2.
    destruct (emit_spec (S (length (f_buf s'))) a off (f_buf s') (f_eof s') (fst (to_come (E:=E) s')))
      as (l1 & l2 & Hl & He); [lia|unfold to_come; intros ->; done|].
    destruct (emit fn c _ a off _ _) as [[a' [e|[off' buf']]]|]; [|..|done].
    + exists l1, l2. done.
    + destruct He as (Hfeed & -> & Hlen & Hnil).
      destruct (f_eof s') eqn:Ee.
      * rewrite (Hnil eq_refl) in *. cbn [andb length Nat.eqb]. 
        unfold to_come in *. rewrite Ee in *. cbn [fst snd app] in *.
        exists l1, (pieces c off' []). done.
      * cbn [andb]. apply (stream_post_app a a' off off' _ (buf' ++ fst (to_come (E:=E) s')) l1 _ _ Hl Hfeed).
        pose proof (IH a' off' (MkFill buf' false (f_empty s') (f_reader s'))) as IH'.
        unfold to_come in *. cbn [f_eof f_buf f_empty f_reader] in IH'. rewrite Ee in *.
        apply IH'; [|lia|done].
        destruct H3 as [|H3]; [done|].
        destruct (f_eof s) eqn:Es; [discriminate (H6 eq_refl)|].
        specialize (H5 eq_refl (Hb eq_refl) eq_refl). lia.
Qed.

End Refinement.

Lemma splitStream_post {A E} ps (fn : A -> Chunk -> bytes -> A * option E) r a :
  stream_post fn (New ps) a 0 (fst (delivered (E:=E) 0 r)) (snd (delivered (E:=E) 0 r))
    (SplitStream (New ps) (Some r) (Some fn) a).
Proof.
  apply (stream_loop_spec fn (New ps) (New_wf ps) _ _ a 0 (MkFill [] false 0 r)); cbn; lia.
Qed.

(** C29: Streaming equals batching: for every reader that ends cleanly, whatever the sizes of its
    reads and however many empty ones (below the limit) it interleaves, [SplitStream] terminates
    after calling back on exactly the chunks [Split] returns for the delivered bytes, in order, each
    with its own bytes, up to and including the first callback that fails; the error it returns is
    that callback's error, and nil when none failed. *)
Theorem stream_equals_split {A E} (ps : Params) (r : reader)
    (fn : A -> Chunk -> bytes -> A * option E) (a : A) :
  snd (delivered (E:=E) 0 r) = None ->
  let data := fst (delivered (E:=E) 0 r) in
  let called := pieces (New ps) 0 data in
  map fst called = Split (New ps) data /\ concat (map snd called) = data /\
  SplitStream (New ps) (Some r) (Some fn) a =
    Some (fst (feed fn a called), option_map ErrFn (snd (feed fn a called))).
Proof.
  intros Hend data called. split_and!; [symmetry; apply split_pieces|apply pieces_parts, New_wf|].
  destruct (splitStream_post ps fn r a) as (l1 & l2 & Hl & Ho). rewrite Hend in Ho.
  unfold called, data. rewrite Hl, feed_app.
  destruct (SplitStream _ _ _ a) as [[a' [[| | |e]|]]|]; [destruct Ho; done..| | |done].
  - rewrite Ho. done.
  - destruct Ho as (_ & -> & ->). done.
Qed.

(** A reader of three results, one of them empty, over a callback that collects offsets. *)
Lemma stream_equals_split_witness :
  let r := [MkRead (str "content-defined ") None; MkRead [] None; MkRead (str "chunking") (Some EOF)] in
  let fn := fun (acc : list Z) ck (_ : bytes) => (acc ++ [Offset ck], @None nat) in
  snd (delivered (E:=nat) 0 r) = None /\
  SplitStream (New DefaultParams) (Some r) (Some fn) [] =
    Some (fst (feed fn [] (pieces (New DefaultParams) 0 (str "content-defined chunking"))),
          option_map ErrFn (snd (feed fn [] (pieces (New DefaultParams) 0 (str "content-defined chunking"))))).
Proof.
  split; [reflexivity|].
  exact (proj2 (proj2 (stream_equals_split DefaultParams
    [MkRead (str "content-defined ") None; MkRead [] None; MkRead (str "chunking") (Some EOF)]
    (fun (acc : list Z) ck (_ : bytes) => (acc ++ [Offset ck], @None nat)) [] eq_refl))).
Defined.

(** A failing reader never yields a wrong chunk: when the reader ends in an error (a read error,
    a bare [ErrUnexpectedEOF], or a hundred empty reads in a row), [SplitStream] still terminates, the
    callbacks it made are on a prefix of the batch chunks of the delivered bytes, and it returns
    either the reader's error unchanged or the error of the callback that failed first. *)
Theorem stream_failure_prefix {A E} (ps : Params) (r : reader)
    (fn : A -> Chunk -> bytes -> A * option E) (a : A) (err : stream_error E) :
  snd (delivered (E:=E) 0 r) = Some err ->
  exists called rest a' e,
    called ++ rest = pieces (New ps) 0 (fst (delivered (E:=E) 0 r)) /\
    SplitStream (New ps) (Some r) (Some fn) a = Some (a', Some e) /\
    ((e = err /\ feed fn a called = (a', None)) \/ (exists x, e = ErrFn x /\ feed fn a called = (a', Some x))).
Proof.
  intros Hend. destruct (splitStream_post ps fn r a) as (l1 & l2 & Hl & Ho). rewrite Hend in Ho.
  destruct (SplitStream _ _ _ a) as [[a' [e|]]|]; [|destruct Ho; done|done].
  exists l1, l2, a', e. split_and!; [done|done|].
  destruct e; [destruct Ho as [Ho1 Ho2]; left; split; [congruence|done]..|]. right. eauto.
Qed.

Lemma stream_failure_prefix_witness :
  let r := [MkRead (str "abc") None; MkRead [] (Some (OtherError 5))] in
  snd (delivered (E:=nat) 0 r) = Some (ErrRead (OtherError 5)) /\
  exists called rest a' e,
    called ++ rest = pieces (New DefaultParams) 0 (str "abc") /\
    SplitStream (New DefaultParams) (Some r) (Some (fun n (_ : Chunk) (_ : bytes) => (S n, @None nat))) 0%nat
      = Some (a', Some e) /\
    ((e = ErrRead (OtherError 5) /\ feed (fun n (_ : Chunk) (_ : bytes) => (S n, @None nat)) 0%nat called = (a', None)) \/
     (exists x, e = ErrFn x /\ feed (fun n (_ : Chunk) (_ : bytes) => (S n, @None nat)) 0%nat called = (a', Some x))).
Proof.
  split; [reflexivity|].
  exact (stream_failure_prefix DefaultParams [MkRead (str "abc") None; MkRead [] (Some (OtherError 5))]
    (fun n (_ : Chunk) (_ : bytes) => (S n, @None nat)) 0%nat (ErrRead (OtherError 5)) eq_refl).
Defined.

(** ** Resynchronization *)

Lemma drop_pieces c i off data ck b : wf_chunker c ->
  pieces c off data !! i = Some (ck, b) ->
  exists k, Offset ck = Z.of_nat (off + k) /\ drop i (pieces c off data) = pieces c (off + k) (drop k data).
Proof.
  intros Hc. revert off data. induction i as [|i IH]; intros off data Hi.
  - exists 0%nat. rewrite !drop_0, Nat.add_0_r. split; [|done].
    destruct (decide (data = [])) as [->|Hd]; [done|].
    rewrite pieces_step in Hi by done. cbn in Hi. injection Hi as <- <-. done.
  - destruct (decide (data = [])) as [->|Hd]; [done|].
    rewrite pieces_step in Hi |- * by done. cbv zeta in *.
    destruct (IH _ _ Hi) as (k & Ho & Hdr).
    exists (nextCut c data + k)%nat. rewrite Ho, skipn_cons, Hdr, drop_drop, Nat.add_assoc. done.
Qed.

Lemma pieces_refs c off off' data : wf_chunker c ->
  map (fun x => Ref (fst x)) (pieces c off data) = map (fun x => Ref (fst x)) (pieces c off' data).
Proof.
  intros Hc. revert off'. revert off data.
  apply (cut_ind c (fun off data => forall off', _ = map (fun x => Ref (fst x)) (pieces c off' data)));
    [done|done|].
  intros off data Hd IH off'. rewrite !(pieces_step c _ data) by done. cbn [map fst].
  rewrite (IH (off' + nextCut c data)%nat). done.
Qed.

Lemma refs_after c a s i ck : wf_chunker c ->
  Split c (a ++ s) !! i = Some ck -> Offset ck = Z.of_nat (length a) ->
  drop i (Refs (Split c (a ++ s))) = map (fun x => Ref (fst x)) (pieces c 0 s).
Proof.
  intros Hc Hi Ho. rewrite split_pieces in *. unfold Refs. rewrite map_map, skipn_map.
  rewrite list_lookup_fmap in Hi. destruct (pieces c 0 (a ++ s) !! i) as [[ck' b]|] eqn:E; [|done].
  injection Hi as ->. destruct (drop_pieces _ _ _ _ _ _ Hc E) as (k & Hk & ->).
  assert (k = length a) as -> by lia. rewrite drop_app_length. apply pieces_refs, Hc.
Qed.

(** Deduplication after an edit: two streams that share a suffix and each have a chunk starting
    exactly where that suffix starts produce the same chunk references (hash and length) from there
    on, whatever came before. *)
Theorem split_resync (ps : Params) (a b s : bytes) (i j : nat) (ck ck' : Chunk) :
  Split (New ps) (a ++ s) !! i = Some ck -> Offset ck = Z.of_nat (length a) ->
  Split (New ps) (b ++ s) !! j = Some ck' -> Offset ck' = Z.of_nat (length b) ->
  drop i (Refs (Split (New ps) (a ++ s))) = drop j (Refs (Split (New ps) (b ++ s))).
Proof.
  intros H1 H2 H3 H4. pose proof (New_wf ps) as Hc.
  rewrite (refs_after _ a s i ck Hc H1 H2), (refs_after _ b s j ck' Hc H3 H4). done.
Qed.

(** Runs of zeros are force-cut at Max, so both streams have a boundary where the tail starts. *)
Lemma split_resync_witness :
  let ps := MkParams 64 256 512 in
  let a := replicate 512 x00 in let s := str "tail" in
  drop 1 (Refs (Split (New ps) (a ++ s))) = drop 2 (Refs (Split (New ps) ((a ++ a) ++ s))).
Proof.
  eapply (split_resync (MkParams 64 256 512) (replicate 512 x00) (replicate 512 x00 ++ replicate 512 x00)
    (str "tail") 1 2); vm_compute; reflexivity.
Defined.
