(* ===== verification/State.v ===== *)
(** * [internal/state]: derived-state records and the authority rules

    The append-only set of derived records, its transitions (add, supersede, correct, conflict,
    resolve), its queries and its durable snapshot.  The Go set maps ids to record pointers that never
    leave the package (every value crossing the boundary is cloned), so the model updates the map in
    place, one assignment of the source at a time. *)

From S2P Require Import Prelude GoLib Core.

(** ** Records ([record.go]) *)

Definition RecordVersion : Z := 1.
Definition DomainRecordID : bytes := str "qompack.state.record.v1".
Definition fieldSep : byte := x1f.

Abbreviation RecordID := (bytes).

Record Scope := MkScope { Worktree : bytes; Session : bytes }.

#[global] Instance Scope_eq_dec : EqDecision Scope.
Proof. solve_decision. Defined.

Definition WorktreeScope (worktree : bytes) : Scope := MkScope worktree [].
Definition SessionScope (worktree session : bytes) : Scope := MkScope worktree session.

Definition Scope_IsZero (s : Scope) : bool := bool_decide (s = MkScope [] []).

Definition AppliesTo (s q : Scope) : bool :=
  if Scope_IsZero s || Scope_IsZero q then false
  else if negb (bool_decide (Worktree s = Worktree q)) then false
  else bool_decide (Session s = []) || bool_decide (Session s = Session q).

Definition NewRecordID (scope : Scope) (sequence : Z) : outcome core_error RecordID :=
  if sequence =? 0 then Err ErrContract
  else
    let preimage := Worktree scope ++ [fieldSep] ++ Session scope ++ [fieldSep] ++ be_put 8 sequence in
    Ok (Hash_String (HashBytes DomainRecordID preimage)).

Definition DepCoverageComplete := str "complete".
Definition DepCoveragePartial := str "partial".
Definition DepCoverageUnknown := str "unknown".

Definition DepCoverage_Valid (c : bytes) : bool :=
  bool_decide (c ∈ [DepCoverageComplete; DepCoveragePartial; DepCoverageUnknown]).

Record Dependencies := MkDependencies { Deps : list Dep; Coverage : bytes; dep_Reason : bytes }.

Definition LineageSuperseded := str "superseded".
Definition LineageCorrected := str "corrected".
Definition LineageConflicted := str "conflicted".
Definition LineageResolved := str "resolved".

Record LineageEntry := MkEntry {
  le_Kind : bytes; le_Other : RecordID; le_Authority : bytes; le_Turn : Z; le_Note : bytes }.

Record Lineage := MkLineage {
  Supersedes : list RecordID;
  SupersededBy : list RecordID;
  Corrects : list RecordID;
  CorrectedBy : list RecordID;
  ConflictedBy : list RecordID;
  History : list LineageEntry
}.

Definition emptyLineage : Lineage := MkLineage [] [] [] [] [] [].

Definition is_nil {A} (l : list A) : bool := match l with [] => true | _ => false end.

Definition Lineage_IsZero (l : Lineage) : bool :=
  is_nil (Supersedes l) && is_nil (SupersededBy l) && is_nil (Corrects l) &&
  is_nil (CorrectedBy l) && is_nil (ConflictedBy l) && is_nil (History l).

Record Resolution := MkResolution {
  By : RecordID; rs_Authority : bytes; rs_Turn : Z; rs_Reason : bytes }.

Record Conflict := MkConflict {
  Parties : list RecordID; cf_Reason : bytes; cf_Resolution : option Resolution }.

(** [Conflict.Resolved]: a nil conflict is not resolved. *)
Definition Resolved (c : option Conflict) : bool :=
  match c with Some (MkConflict _ _ (Some _)) => true | _ => false end.

Record SRecord := MkSRecord {
  Version : Z;
  ID : RecordID;
  Authority : bytes;
  rScope : Scope;
  Claim : bytes;
  rDependencies : Dependencies;
  Validity : EvidenceValidity;
  Sources : list bytes;
  TransformVersion : bytes;
  HashVersion : bytes;
  rLineage : Lineage;
  rConflict : option Conflict;
  RecordedAt : Z
}.

Definition Superseded (r : SRecord) : bool := negb (is_nil (SupersededBy (rLineage r))).

Definition validInterval (v : EvidenceValidity) : bool :=
  (0 <=? v_From v) && (0 <=? v_To v) && ((v_To v =? 0) || (v_From v <=? v_To v)).

(** [validateFields]: every refusal wraps [ErrContract]. *)
Definition validateFields (r : SRecord) : option core_error :=
  if negb (Version r =? RecordVersion) then Some ErrContract
  else if bool_decide (ID r = []) then Some ErrContract
  else if negb (Authority_Valid (Authority r)) then Some ErrContract
  else if Scope_IsZero (rScope r) then Some ErrContract
  else if bool_decide (Claim r = []) then Some ErrContract
  else if is_nil (Sources r) then Some ErrContract
  else if negb (DepCoverage_Valid (Coverage (rDependencies r))) then Some ErrContract
  else if bool_decide (TransformVersion r = []) then Some ErrContract
  else if bool_decide (HashVersion r = []) then Some ErrContract
  else if negb (validInterval (Validity r)) then Some ErrContract
  else if negb (Lineage_IsZero (rLineage r)) then Some ErrContract
  else match rConflict r with
  | Some _ => Some ErrContract
  | None => if existsb is_nil (Sources r) then Some ErrContract else None
  end.

Definition Validate (r : SRecord) : option core_error :=
  if bool_decide (Authority r = AuthorityConflict) then Some ErrContract else validateFields r.

(** ** The authority rules *)

Definition Authoritative (a : bytes) : bool :=
  bool_decide (a = AuthorityUserCorrection) || bool_decide (a = AuthorityExplicitDecision).

Definition authorityRank (a : bytes) : Z :=
  if bool_decide (a = AuthorityUserCorrection) || bool_decide (a = AuthorityExplicitDecision) then 4
  else if bool_decide (a = AuthorityToolObservation) then 3
  else if bool_decide (a = AuthorityCandidateExtraction) then 2
  else if bool_decide (a = AuthorityHypothesis) then 1
  else 0.

Definition CanSupersede (newer existing : bytes) : bool :=
  if negb (Authority_Valid newer) || negb (Authority_Valid existing) ||
     bool_decide (newer = AuthorityConflict) then false
  else if Authoritative existing then Authoritative newer
  else authorityRank existing <=? authorityRank newer.

(** ** The set ([set.go]) *)

Record RSet := MkRSet { byID : gmap RecordID SRecord; order : list RecordID }.

Definition NewSet : RSet := MkRSet ∅ [].

(** Assignment through a record pointer: the record changes, the map and the order do not. *)
Definition update (id : RecordID) (f : SRecord -> SRecord) (s : RSet) : RSet :=
  MkRSet (alter f id (byID s)) (order s).

Definition with_lineage (f : Lineage -> Lineage) (r : SRecord) : SRecord :=
  MkSRecord (Version r) (ID r) (Authority r) (rScope r) (Claim r) (rDependencies r) (Validity r)
    (Sources r) (TransformVersion r) (HashVersion r) (f (rLineage r)) (rConflict r) (RecordedAt r).

Definition with_conflict (c : option Conflict) (r : SRecord) : SRecord :=
  MkSRecord (Version r) (ID r) (Authority r) (rScope r) (Claim r) (rDependencies r) (Validity r)
    (Sources r) (TransformVersion r) (HashVersion r) (rLineage r) c (RecordedAt r).

Definition push_Supersedes (id : RecordID) (l : Lineage) : Lineage :=
  MkLineage (Supersedes l ++ [id]) (SupersededBy l) (Corrects l) (CorrectedBy l) (ConflictedBy l) (History l).
Definition push_SupersededBy (id : RecordID) (l : Lineage) : Lineage :=
  MkLineage (Supersedes l) (SupersededBy l ++ [id]) (Corrects l) (CorrectedBy l) (ConflictedBy l) (History l).
Definition push_Corrects (id : RecordID) (l : Lineage) : Lineage :=
  MkLineage (Supersedes l) (SupersededBy l) (Corrects l ++ [id]) (CorrectedBy l) (ConflictedBy l) (History l).
Definition push_CorrectedBy (id : RecordID) (l : Lineage) : Lineage :=
  MkLineage (Supersedes l) (SupersededBy l) (Corrects l) (CorrectedBy l ++ [id]) (ConflictedBy l) (History l).
Definition push_ConflictedBy (id : RecordID) (l : Lineage) : Lineage :=
  MkLineage (Supersedes l) (SupersededBy l) (Corrects l) (CorrectedBy l) (ConflictedBy l ++ [id]) (History l).

(** [Record.note]: the entry, with the far side of the transition filled in. *)
Definition note (e : LineageEntry) (other : RecordID) : SRecord -> SRecord :=
  with_lineage (fun l =>
    MkLineage (Supersedes l) (SupersededBy l) (Corrects l) (CorrectedBy l) (ConflictedBy l)
      (History l ++ [MkEntry (le_Kind e) other (le_Authority e) (le_Turn e) (le_Note e)])).

Definition admit_record (r : SRecord) (s : RSet) : outcome core_error RSet :=
  match byID s !! ID r with
  | Some _ => Err ErrAppendOnly
  | None => Ok (MkRSet (<[ID r := r]> (byID s)) (order s ++ [ID r]))
  end.

Definition Add (r : SRecord) (s : RSet) : outcome core_error RSet :=
  match Validate r with Some e => Err e | None => admit_record r s end.

Definition Get (s : RSet) (id : RecordID) : option SRecord := byID s !! id.

(** [for _, id := range s.order { ... s.byID[id] ... }]. *)
Definition All (s : RSet) : list SRecord := omap (fun id => byID s !! id) (order s).

(** [c, ok := s.byID[cid]; ok && !c.Conflict.Resolved()] for some [cid]. *)
Definition blocked (s : RSet) (r : SRecord) : bool :=
  existsb (fun cid => match byID s !! cid with
                      | Some c => negb (Resolved (rConflict c))
                      | None => false
                      end) (ConflictedBy (rLineage r)).

Definition applies (s : RSet) (r : SRecord) (q : Scope) : bool :=
  if bool_decide (Authority r = AuthorityConflict) || negb (Authority_Valid (Authority r)) then false
  else if is_nil (Sources r) || Superseded r then false
  else if blocked s r then false
  else AppliesTo (rScope r) q.

Definition Applicable (s : RSet) (q : Scope) : list SRecord :=
  List.filter (fun r => applies s r q) (All s).

Definition is_open_conflict (r : SRecord) : bool :=
  bool_decide (Authority r = AuthorityConflict) && negb (Resolved (rConflict r)).

Definition Conflicts (s : RSet) (q : Scope) : list SRecord :=
  List.filter (fun r => is_open_conflict r && AppliesTo (rScope r) q) (All s).

(** The two-sided link a supersession writes, with its history entries. *)
Definition link_superseded (newer target : RecordID) (e : LineageEntry) (s : RSet) : RSet :=
  update newer (note e target) (update target (note e newer)
    (update newer (with_lineage (push_Supersedes target))
      (update target (with_lineage (push_SupersededBy newer)) s))).

Definition link_corrected (newer target : RecordID) (e : LineageEntry) (s : RSet) : RSet :=
  update newer (note e target) (update target (note e newer)
    (update newer (with_lineage (push_Corrects target))
      (update target (with_lineage (push_CorrectedBy newer)) s))).

Definition supersede (newer : SRecord) (target : RecordID) (at_ : Z) (nt : bytes) (correcting : bool)
    (s : RSet) : outcome core_error RSet :=
  match byID s !! target with
  | None => Err ErrNotFound
  | Some existing =>
      match Validate newer with
      | Some e => Err e
      | None =>
          if bool_decide (is_Some (byID s !! ID newer)) then Err ErrAppendOnly
          else if correcting && negb (Authoritative (Authority newer)) then Err ErrContract
          else if negb (CanSupersede (Authority newer) (Authority existing)) then Err ErrContract
          else if negb (bool_decide (rScope newer = rScope existing)) then Err ErrContract
          else if Superseded existing then Err ErrContract
          else
            match admit_record newer s with
            | Err e => Err e
            | Panic => Panic
            | Ok s =>
                let s := link_superseded (ID newer) target
                           (MkEntry LineageSuperseded [] (Authority newer) at_ nt) s in
                Ok (if correcting
                    then link_corrected (ID newer) target
                           (MkEntry LineageCorrected [] (Authority newer) at_ nt) s
                    else s)
            end
      end
  end.

Definition Supersede (newer : SRecord) (target : RecordID) (at_ : Z) (nt : bytes) :=
  supersede newer target at_ nt false.
Definition Correct (newer : SRecord) (target : RecordID) (at_ : Z) (nt : bytes) :=
  supersede newer target at_ nt true.

(** The party checks of [Conflict], in order, with the ids already seen. *)
Fixpoint check_parties (s : RSet) (scope : Scope) (seen : list RecordID) (parties : list RecordID)
    : option core_error :=
  match parties with
  | [] => None
  | id :: parties =>
      match byID s !! id with
      | None => Some ErrNotFound
      | Some party =>
          if bool_decide (id ∈ seen) then Some ErrContract
          else if negb (bool_decide (rScope party = scope)) then Some ErrContract
          else if Superseded party then Some ErrContract
          else check_parties s scope (id :: seen) parties
      end
  end.

Definition mark_conflicted (marker : RecordID) (reason : bytes) (at_ : Z) (s : RSet) (id : RecordID) : RSet :=
  update id (note (MkEntry LineageConflicted [] AuthorityConflict at_ reason) marker)
    (update id (with_lineage (push_ConflictedBy marker)) s).

Definition DeclareConflict (marker : SRecord) (parties : list RecordID) (reason : bytes) (at_ : Z)
    (s : RSet) : outcome core_error RSet :=
  if negb (bool_decide (Authority marker = AuthorityConflict)) then Err ErrContract
  else match validateFields marker with
  | Some e => Err e
  | None =>
      if (length parties <? 2)%nat then Err ErrContract
      else match check_parties s (rScope marker) [] parties with
      | Some e => Err e
      | None =>
          match admit_record (with_conflict (Some (MkConflict parties reason None)) marker) s with
          | Err e => Err e
          | Panic => Panic
          | Ok s => Ok (fold_left (mark_conflicted (ID marker) reason at_) parties s)
          end
      end
  end.

(** One pass of [Resolve]'s loop over the parties; a party missing from the set is a nil pointer. *)
Definition resolve_party (by_ : RecordID) (entry : LineageEntry) (id : RecordID) (s : RSet)
    : outcome core_error RSet :=
  if bool_decide (id = by_) then Ok s
  else match byID s !! id with
  | None => Panic
  | Some party => if Superseded party then Ok s else Ok (link_superseded by_ id entry s)
  end.

Fixpoint resolve_parties (by_ : RecordID) (entry : LineageEntry) (ids : list RecordID) (s : RSet)
    : outcome core_error RSet :=
  match ids with
  | [] => Ok s
  | id :: ids => obind (resolve_party by_ entry id s) (resolve_parties by_ entry ids)
  end.

Definition set_resolution (rs : Resolution) (r : SRecord) : SRecord :=
  match rConflict r with
  | Some c => with_conflict (Some (MkConflict (Parties c) (cf_Reason c) (Some rs))) r
  | None => r
  end.

Definition Resolve (conflictID by_ : RecordID) (at_ : Z) (reason : bytes) (s : RSet)
    : outcome core_error RSet :=
  match byID s !! conflictID with
  | None => Err ErrNotFound
  | Some conflict =>
      match rConflict conflict with
      | None => Err ErrContract
      | Some c =>
          if negb (bool_decide (Authority conflict = AuthorityConflict)) then Err ErrContract
          else if Resolved (Some c) then Err ErrContract
          else match byID s !! by_ with
          | None => Err ErrNotFound
          | Some winner =>
              if negb (Authoritative (Authority winner)) then Err ErrContract
              else if negb (bool_decide (rScope winner = rScope conflict)) then Err ErrContract
              else
                let s := update conflictID
                           (set_resolution (MkResolution by_ (Authority winner) at_ reason)) s in
                let resolved := MkEntry LineageResolved [] (Authority winner) at_ reason in
                let s := update by_ (note resolved conflictID) (update conflictID (note resolved by_) s) in
                resolve_parties by_ (MkEntry LineageSuperseded [] (Authority winner) at_ reason)
                  (Parties c) s
          end
      end
  end.

(** ** Snapshots ([codec.go])

    [Encode] marshals the snapshot as JSON and [Decode] unmarshals it; the model starts at the
    snapshot value. *)

Definition SnapshotVersion : Z := 1.

Record Snapshot := MkSnapshot { sn_Version : Z; sn_Records : list SRecord }.

Definition Encode (s : RSet) : Snapshot := MkSnapshot SnapshotVersion (All s).

Definition qualify (r : SRecord) : SRecord :=
  let cov := if negb (DepCoverage_Valid (Coverage (rDependencies r))) then DepCoverageUnknown
             else Coverage (rDependencies r) in
  let val := if negb (validInterval (Validity r)) then zeroValidity else Validity r in
  MkSRecord (Version r) (ID r) (Authority r) (rScope r) (Claim r)
    (MkDependencies (Deps (rDependencies r)) cov (dep_Reason (rDependencies r))) val
    (Sources r) (TransformVersion r) (HashVersion r) (rLineage r) (rConflict r) (RecordedAt r).

Fixpoint decode_records (rs : list SRecord) (s : RSet) : outcome core_error RSet :=
  match rs with
  | [] => Ok s
  | r :: rs =>
      if Version r =? 0 then Err ErrContract
      else if negb (Version r =? RecordVersion) then Err ErrContract
      else if bool_decide (ID r = []) then Err ErrContract
      else match admit_record (qualify r) s with
      | Ok s => decode_records rs s
      | Err _ => Err ErrContract
      | Panic => Panic
      end
  end.

Definition Decode (snap : Snapshot) : outcome core_error RSet :=
  if sn_Version snap =? 0 then Err ErrContract
  else if negb (sn_Version snap =? SnapshotVersion) then Err ErrContract
  else decode_records (sn_Records snap) NewSet.

(** ** Growth: what a transition may do to a record and to the set *)

(** [r'] is [r] with links and history appended and, at most, an open conflict resolved: everything
    a producer said is unchanged. *)
Record grows (r r' : SRecord) : Prop := {
  gr_content : (Version r', ID r', Authority r', rScope r', Claim r', rDependencies r', Validity r',
                Sources r', TransformVersion r', HashVersion r', RecordedAt r')
             = (Version r, ID r, Authority r, rScope r, Claim r, rDependencies r, Validity r,
                Sources r, TransformVersion r, HashVersion r, RecordedAt r);
  gr_sups : Supersedes (rLineage r) `prefix_of` Supersedes (rLineage r');
  gr_supby : SupersededBy (rLineage r) `prefix_of` SupersededBy (rLineage r');
  gr_corr : Corrects (rLineage r) `prefix_of` Corrects (rLineage r');
  gr_corrby : CorrectedBy (rLineage r) `prefix_of` CorrectedBy (rLineage r');
  gr_confby : ConflictedBy (rLineage r) `prefix_of` ConflictedBy (rLineage r');
  gr_hist : History (rLineage r) `prefix_of` History (rLineage r');
  gr_conflict :
    rConflict r' = rConflict r \/
    exists c rs, rConflict r = Some c /\ cf_Resolution c = None /\
      rConflict r' = Some (MkConflict (Parties c) (cf_Reason c) (Some rs))
}.

#[global] Instance grows_refl : Reflexive grows.
Proof. intros r. split; auto. Qed.

#[global] Instance grows_trans : Transitive grows.
Proof.
  intros a b c [] []. split; try (etrans; eassumption); try congruence.
  destruct gr_conflict0 as [E1|(x & rs & E1 & E2 & E3)], gr_conflict1 as [F1|(y & rt & F1 & F2 & F3)].
  - left. congruence.
  - right. exists y, rt. split_and!; congruence.
  - right. exists x, rs. split_and!; congruence.
  - exfalso. rewrite E3 in F1. injection F1 as <-. done.
Qed.

(** The set only grows: admission order is extended at the end, and every record is still there. *)
Record extends (s s' : RSet) : Prop := {
  ex_order : order s `prefix_of` order s';
  ex_records : forall id r, byID s !! id = Some r -> exists r', byID s' !! id = Some r' /\ grows r r'
}.

#[global] Instance extends_refl : Reflexive extends.
Proof. intros s. split; [done|]. intros id r H. exists r. split; [done|reflexivity]. Qed.

#[global] Instance extends_trans : Transitive extends.
Proof.
  intros a b c [O1 R1] [O2 R2]. split; [etrans; eassumption|].
  intros id r H. destruct (R1 id r H) as (r1 & H1 & G1), (R2 id r1 H1) as (r2 & H2 & G2).
  exists r2. split; [done|etrans; eassumption].
Qed.

Lemma update_lookup id f s k :
  byID (update id f s) !! k = if decide (k = id) then f <$> byID s !! k else byID s !! k.
Proof.
  unfold update. cbn [byID]. rewrite lookup_alter. repeat case_decide; congruence.
Qed.

Lemma update_extends id f s :
  (forall r, byID s !! id = Some r -> grows r (f r)) -> extends s (update id f s).
Proof.
  intros Hf. split; [done|]. intros k r H. rewrite update_lookup. case_decide as Hk.
  - subst k. rewrite H. exists (f r). split; [done|auto].
  - exists r. split; [done|reflexivity].
Qed.

Lemma grows_note e o r : grows r (note e o r).
Proof. split; cbn; auto. apply prefix_app_r. done. Qed.
Lemma grows_push_Supersedes i r : grows r (with_lineage (push_Supersedes i) r).
Proof. split; cbn; auto. apply prefix_app_r. done. Qed.
Lemma grows_push_SupersededBy i r : grows r (with_lineage (push_SupersededBy i) r).
Proof. split; cbn; auto. apply prefix_app_r. done. Qed.
Lemma grows_push_Corrects i r : grows r (with_lineage (push_Corrects i) r).
Proof. split; cbn; auto. apply prefix_app_r. done. Qed.
Lemma grows_push_CorrectedBy i r : grows r (with_lineage (push_CorrectedBy i) r).
Proof. split; cbn; auto. apply prefix_app_r. done. Qed.
Lemma grows_push_ConflictedBy i r : grows r (with_lineage (push_ConflictedBy i) r).
Proof. split; cbn; auto. apply prefix_app_r. done. Qed.
Lemma grows_set_resolution rs r : Resolved (rConflict r) = false -> grows r (set_resolution rs r).
Proof.
  unfold set_resolution. destruct (rConflict r) as [[ps rn [x|]]|] eqn:E; cbn; intros H; try done.
  split; cbn; auto. right. exists (MkConflict ps rn None), rs. auto.
Qed.

#[export] Hint Resolve grows_note grows_push_Supersedes grows_push_SupersededBy grows_push_Corrects
  grows_push_CorrectedBy grows_push_ConflictedBy grows_set_resolution update_extends : qompack.

Lemma link_superseded_extends n t e s : extends s (link_superseded n t e s).
Proof. unfold link_superseded. do 3 (etrans; [|eauto with qompack]). eauto with qompack. Qed.

Lemma link_corrected_extends n t e s : extends s (link_corrected n t e s).
Proof. unfold link_corrected. do 3 (etrans; [|eauto with qompack]). eauto with qompack. Qed.

Lemma mark_conflicted_extends m rn t s ids : extends s (fold_left (mark_conflicted m rn t) ids s).
Proof.
  revert s. induction ids as [|id ids IH]; intros s; [reflexivity|]. cbn [fold_left].
  etrans; [|apply IH]. unfold mark_conflicted. etrans; [|eauto with qompack]. eauto with qompack.
Qed.

Lemma admit_extends r s s' : admit_record r s = Ok s' -> extends s s'.
Proof.
  unfold admit_record. destruct (byID s !! ID r) eqn:E; [done|]. intros [= <-].
  split; cbn; [apply prefix_app_r; done|].
  intros id x H. exists x. split; [|reflexivity]. rewrite lookup_insert_ne; [done|congruence].
Qed.

Lemma resolve_parties_extends b e ids s s' : resolve_parties b e ids s = Ok s' -> extends s s'.
Proof.
  revert s. induction ids as [|id ids IH]; intros s; cbn [resolve_parties]; [intros [= <-]; reflexivity|].
  unfold resolve_party. case_bool_decide; cbn [obind]; [apply IH|].
  destruct (byID s !! id); cbn [obind]; [|done].
  destruct (Superseded _); cbn [obind]; [apply IH|].
  intros H1. etrans; [apply link_superseded_extends|apply IH, H1].
Qed.

(** ** Transitions as operations *)

Inductive op :=
  | OpAdd (r : SRecord)
  | OpSupersede (newer : SRecord) (target : RecordID) (at_ : Z) (nt : bytes)
  | OpCorrect (newer : SRecord) (target : RecordID) (at_ : Z) (nt : bytes)
  | OpConflict (marker : SRecord) (parties : list RecordID) (reason : bytes) (at_ : Z)
  | OpResolve (conflictID by_ : RecordID) (at_ : Z) (reason : bytes).

Definition apply_op (o : op) (s : RSet) : outcome core_error RSet :=
  match o with
  | OpAdd r => Add r s
  | OpSupersede n t a nt => Supersede n t a nt s
  | OpCorrect n t a nt => Correct n t a nt s
  | OpConflict m ps rn a => DeclareConflict m ps rn a s
  | OpResolve c b a rn => Resolve c b a rn s
  end.

(** The sets a caller can build: a refused operation leaves the set as it was. *)
Inductive reachable : RSet -> Prop :=
  | reach_new : reachable NewSet
  | reach_step o s s' : reachable s -> apply_op o s = Ok s' -> reachable s'.

Lemma supersede_extends n t a nt b s s' : supersede n t a nt b s = Ok s' -> extends s s'.
Proof.
  unfold supersede. destruct (byID s !! t); [|done]. destruct (Validate n); [done|].
  repeat (ifcase; [done|]). destruct (admit_record n s) as [s1| |] eqn:Ea; [|done|done].
  intros [= <-]. apply admit_extends in Ea. etrans; [exact Ea|].
  destruct b; [etrans; [|apply link_corrected_extends]|]; apply link_superseded_extends.
Qed.

Lemma apply_op_extends o s s' : apply_op o s = Ok s' -> extends s s'.
Proof.
  destruct o; cbn [apply_op].
  - unfold Add. destruct (Validate r); [done|]. apply admit_extends.
  - apply supersede_extends.
  - apply supersede_extends.
  - unfold DeclareConflict. ifcase; [done|]. destruct (validateFields marker); [done|].
    ifcase; [done|]. destruct (check_parties _ _ _ _); [done|].
    destruct (admit_record _ _) as [s1| |] eqn:Ea; [|done|done]. intros [= <-].
    etrans; [eapply admit_extends, Ea|apply mark_conflicted_extends].
  - unfold Resolve. destruct (byID s !! conflictID) as [rc|] eqn:Ec; [|done].
    destruct (rConflict rc) as [c|] eqn:Ecf; [|done]. ifcase; [done|]. ifcase; [done|].
    destruct (byID s !! by_); [|done]. ifcase; [done|]. ifcase; [done|].
    intros H. apply resolve_parties_extends in H. etrans; [|exact H].
    etrans; [|eauto with qompack]. etrans; [|eauto with qompack]. apply update_extends.
    intros r Hr. apply grows_set_resolution. congruence.
Qed.

(** ** The invariant of reachable sets *)

(** The producer-supplied part of a record passed validation. *)
Definition content_ok (r : SRecord) : Prop :=
  Version r = RecordVersion /\ ID r <> [] /\ Authority_Valid (Authority r) = true /\
  Scope_IsZero (rScope r) = false /\ Claim r <> [] /\ is_nil (Sources r) = false /\
  DepCoverage_Valid (Coverage (rDependencies r)) = true /\ TransformVersion r <> [] /\
  HashVersion r <> [] /\ validInterval (Validity r) = true /\ existsb is_nil (Sources r) = false.

Definition parties_of (r : SRecord) : list RecordID :=
  match rConflict r with Some c => Parties c | None => [] end.

(** Every link of kind [L1] is answered by a link of kind [L2] on the far side, and the two records
    are related by [Q]. *)
Definition links (L1 L2 : SRecord -> list RecordID) (Q : SRecord -> SRecord -> Prop) (s : RSet) : Prop :=
  forall id r b, byID s !! id = Some r -> b ∈ L1 r ->
    exists rb, byID s !! b = Some rb /\ id ∈ L2 rb /\ Q r rb.

Definition any (_ _ : SRecord) : Prop := True.
Definition Q_superseded (r rb : SRecord) : Prop :=
  CanSupersede (Authority rb) (Authority r) = true /\ rScope rb = rScope r.
Definition Q_corrected (_ rb : SRecord) : Prop := Authoritative (Authority rb) = true.
Definition Q_scope (r rb : SRecord) : Prop := rScope rb = rScope r.

Definition lSupersedes (r : SRecord) := Supersedes (rLineage r).
Definition lSupersededBy (r : SRecord) := SupersededBy (rLineage r).
Definition lCorrects (r : SRecord) := Corrects (rLineage r).
Definition lCorrectedBy (r : SRecord) := CorrectedBy (rLineage r).
Definition lConflictedBy (r : SRecord) := ConflictedBy (rLineage r).

(** What holds of each record on its own. *)
Record record_ok (id : RecordID) (r : SRecord) : Prop := {
  ro_id : ID r = id;
  ro_content : content_ok r;
  ro_head : (length (lSupersededBy r) <= 1)%nat;
  ro_conflict : match rConflict r with
                | None => Authority r <> AuthorityConflict
                | Some c => Authority r = AuthorityConflict /\ NoDup (Parties c) /\ (2 <= length (Parties c))%nat
                end
}.

(** A recorded resolution names an authoritative record of the set. *)
Definition resolution_ok (s : RSet) : Prop :=
  forall id r c rs, byID s !! id = Some r -> rConflict r = Some c -> cf_Resolution c = Some rs ->
    Authoritative (rs_Authority rs) = true /\
    exists rw, byID s !! By rs = Some rw /\ Authority rw = rs_Authority rs.

(** Every party of a resolved conflict is the winner or has been superseded. *)
Definition settled (s : RSet) : Prop :=
  forall id r c rs p, byID s !! id = Some r -> rConflict r = Some c -> cf_Resolution c = Some rs ->
    p ∈ Parties c -> p = By rs \/ exists rp, byID s !! p = Some rp /\ Superseded rp = true.

Record linked (s : RSet) : Prop := {
  ln_nodup : NoDup (order s);
  ln_dom : forall id, id ∈ order s <-> is_Some (byID s !! id);
  ln_record : forall id r, byID s !! id = Some r -> record_ok id r;
  ln_supby : links lSupersededBy lSupersedes Q_superseded s;
  ln_sups : links lSupersedes lSupersededBy any s;
  ln_corrby : links lCorrectedBy lCorrects Q_corrected s;
  ln_corr : links lCorrects lCorrectedBy any s;
  ln_confby : links lConflictedBy parties_of Q_scope s;
  ln_parties : links parties_of lConflictedBy Q_scope s;
  ln_resolution : resolution_ok s
}.

Record inv (s : RSet) : Prop := { inv_linked : linked s; inv_settled : settled s }.

(** *** Transport along growth *)

Lemma grows_parties r r' : grows r r' -> parties_of r' = parties_of r.
Proof.
  intros [_ _ _ _ _ _ _ [E|(c & rs & E1 & E2 & E3)]]; unfold parties_of; [rewrite E; done|].
  rewrite E1, E3. done.
Qed.

Lemma grows_auth r r' : grows r r' -> Authority r' = Authority r /\ rScope r' = rScope r /\ ID r' = ID r.
Proof. intros []. split_and!; congruence. Qed.

Lemma grows_content r r' : grows r r' -> content_ok r -> content_ok r'.
Proof.
  intros [E _ _ _ _ _ _ _]. injection E as ? ? ? ? ? ? ? ? ? ? ?. unfold content_ok.
  intros Hok. split_and!; repeat match goal with H : _ = _ |- _ => rewrite H; clear H end; apply Hok.
Qed.

Lemma grows_superseded r r' : grows r r' -> Superseded r = true -> Superseded r' = true.
Proof.
  intros [_ _ [k E] _ _ _ _ _]. unfold Superseded. rewrite E.
  destruct (SupersededBy (rLineage r)); done.
Qed.

Definition mono (L : SRecord -> list RecordID) : Prop :=
  forall r r' x, grows r r' -> x ∈ L r -> x ∈ L r'.
Definition stable (Q : SRecord -> SRecord -> Prop) : Prop :=
  forall r r' t t', grows r r' -> grows t t' -> Q r t -> Q r' t'.

Lemma elem_prefix {A} (l k : list A) x : l `prefix_of` k -> x ∈ l -> x ∈ k.
Proof. intros [e ->] H. apply elem_of_app. auto. Qed.

Lemma mono_lists :
  mono lSupersedes /\ mono lSupersededBy /\ mono lCorrects /\ mono lCorrectedBy /\
  mono lConflictedBy /\ mono parties_of.
Proof.
  split_and!; intros r r' x G Hx; try (destruct G; eapply elem_prefix; eassumption).
  rewrite (grows_parties _ _ G). done.
Qed.

Lemma stable_rels : stable any /\ stable Q_superseded /\ stable Q_corrected /\ stable Q_scope.
Proof.
  split_and!; intros r r' t t' G1 G2;
    destruct (grows_auth _ _ G1) as (E1 & E2 & _), (grows_auth _ _ G2) as (F1 & F2 & _).
  - done.
  - unfold Q_superseded. rewrite E1, E2, F1, F2. done.
  - unfold Q_corrected. rewrite F1. done.
  - unfold Q_scope. rewrite E2, F2. done.
Qed.

(** A link invariant survives a transition that answers its new links. *)
Lemma links_step L1 L2 Q s s' :
  mono L2 -> stable Q -> links L1 L2 Q s -> extends s s' ->
  (forall id r' b, byID s' !! id = Some r' -> b ∈ L1 r' ->
     (exists r, byID s !! id = Some r /\ grows r r' /\ b ∈ L1 r) \/
     (exists rb', byID s' !! b = Some rb' /\ id ∈ L2 rb' /\ Q r' rb')) ->
  links L1 L2 Q s'.
Proof.
  intros HL HQ Hl [_ Hx] Hnew id r' b Hr Hb.
  destruct (Hnew id r' b Hr Hb) as [(r & Hr0 & G & Hb0)|H]; [|done].
  destruct (Hl id r b Hr0 Hb0) as (rb & H1 & H2 & H3), (Hx b rb H1) as (rb' & H4 & G').
  exists rb'. split_and!; [done|eapply HL; eassumption|eapply HQ; eassumption].
Qed.

(** *** Each transition preserves the links *)

Lemma record_ok_grows id r r' :
  grows r r' -> (length (lSupersededBy r') <= 1)%nat -> record_ok id r -> record_ok id r'.
Proof.
  intros G Hh [H1 H2 H3 H4]. destruct (grows_auth _ _ G) as (E1 & E2 & E3).
  split; [congruence|eapply grows_content; eassumption|done|].
  destruct G as [_ _ _ _ _ _ _ [E|(c & rs & F1 & F2 & F3)]].
  - rewrite E, E1. done.
  - rewrite F1 in H4. rewrite F3, E1. done.
Qed.

(** Updating one record without touching its links. *)
Lemma linked_quiet id f s :
  linked s ->
  (forall r, byID s !! id = Some r -> grows r (f r) /\ lSupersedes (f r) = lSupersedes r /\
     lSupersededBy (f r) = lSupersededBy r /\ lCorrects (f r) = lCorrects r /\
     lCorrectedBy (f r) = lCorrectedBy r /\ lConflictedBy (f r) = lConflictedBy r) ->
  resolution_ok (update id f s) -> linked (update id f s).
Proof.
  intros [H1 H2 H3 H4 H5 H6 H7 H8 H9 H10] Hf Hres.
  assert (extends s (update id f s)) as Hx by (apply update_extends; intros; apply Hf; done).
  assert (forall k r', byID (update id f s) !! k = Some r' -> exists r, byID s !! k = Some r /\ grows r r' /\
     lSupersedes r' = lSupersedes r /\ lSupersededBy r' = lSupersededBy r /\ lCorrects r' = lCorrects r /\
     lCorrectedBy r' = lCorrectedBy r /\ lConflictedBy r' = lConflictedBy r) as Hold.
  { intros k r'. rewrite update_lookup. case_decide as Hk; [subst k|].
    - destruct (byID s !! id) as [r|] eqn:E; [|done]. intros [= <-]. exists r. split; [done|]. apply Hf. done.
    - intros Hr. exists r'. split_and!; done. }
  destruct mono_lists as (M1 & M2 & M3 & M4 & M5 & M6), stable_rels as (S1 & S2 & S3 & S4).
  split; [done| | |..|done].
  - intros k. rewrite H2, update_lookup. case_decide; [|done]. subst. rewrite fmap_is_Some. done.
  - intros k r' Hr. destruct (Hold k r' Hr) as (r & Hr0 & G & E1 & E2 & _).
    specialize (H3 k r Hr0). eapply record_ok_grows; [done| |done]. rewrite E2. apply H3.
  - eapply links_step; [..|exact H4|exact Hx|]; [done..|]. intros k r' b Hr Hb. left.
    destruct (Hold k r' Hr) as (r & ? & ? & ? & E & ?). exists r. rewrite <- E. done.
  - eapply links_step; [..|exact H5|exact Hx|]; [done..|]. intros k r' b Hr Hb. left.
    destruct (Hold k r' Hr) as (r & ? & ? & E & ?). exists r. rewrite <- E. done.
  - eapply links_step; [..|exact H6|exact Hx|]; [done..|]. intros k r' b Hr Hb. left.
    destruct (Hold k r' Hr) as (r & ? & ? & ? & ? & ? & E & ?). exists r. rewrite <- E. done.
  - eapply links_step; [..|exact H7|exact Hx|]; [done..|]. intros k r' b Hr Hb. left.
    destruct (Hold k r' Hr) as (r & ? & ? & ? & ? & E & ?). exists r. rewrite <- E. done.
  - eapply links_step; [..|exact H8|exact Hx|]; [done..|]. intros k r' b Hr Hb. left.
    destruct (Hold k r' Hr) as (r & ? & ? & ? & ? & ? & ? & E). exists r. rewrite <- E. done.
  - eapply links_step; [..|exact H9|exact Hx|]; [done..|]. intros k r' b Hr Hb. left.
    destruct (Hold k r' Hr) as (r & ? & G & ?). exists r. rewrite <- (grows_parties _ _ G). done.
Qed.

Lemma resolution_ok_extends s s' :
  resolution_ok s -> extends s s' ->
  (forall id r' c rs, byID s' !! id = Some r' -> rConflict r' = Some c -> cf_Resolution c = Some rs ->
     (exists r c0, byID s !! id = Some r /\ rConflict r = Some c0 /\ cf_Resolution c0 = Some rs) \/
     (Authoritative (rs_Authority rs) = true /\
      exists rw, byID s' !! By rs = Some rw /\ Authority rw = rs_Authority rs)) ->
  resolution_ok s'.
Proof.
  intros Hr [_ Hx] Hn id r' c rs H1 H2 H3.
  destruct (Hn id r' c rs H1 H2 H3) as [(r & c0 & F1 & F2 & F3)|]; [|done].
  destruct (Hr id r c0 rs F1 F2 F3) as (G1 & rw & G2 & G3). split; [done|].
  destruct (Hx _ _ G2) as (rw' & F4 & F5). exists rw'. split; [done|].
  destruct (grows_auth _ _ F5). congruence.
Qed.

Lemma linked_note id e o s : linked s -> linked (update id (note e o) s).
Proof.
  intros H. apply linked_quiet; [done| |].
  { intros r _. split_and!; [apply grows_note|done..]. }
  eapply resolution_ok_extends; [apply H|eauto with qompack|].
  intros k r' c rs. rewrite update_lookup. intros Hr Hc Hrs. left.
  case_decide as Hk; [subst k|]; [destruct (byID s !! id) as [r|]; [|done]; injection Hr as <-|]; eauto.
Qed.

Lemma linked_push_links s (fn ft : SRecord -> SRecord) n t rn rt :
  (* [n] and [t] change, nothing else does *)
  let s' := update n fn (update t ft s) in
  n <> t -> byID s !! n = Some rn -> byID s !! t = Some rt ->
  forall k, byID s' !! k = if decide (k = t) then Some (ft rt) else if decide (k = n) then Some (fn rn) else byID s !! k.
Proof.
  intros s' Hne Hn Ht k. unfold s'. rewrite !update_lookup.
  repeat case_decide; subst; rewrite ?Ht, ?Hn; done.
Qed.

(** The record changes of the two link operations, without the history entries. *)
Definition bare_superseded (n t : RecordID) (s : RSet) : RSet :=
  update n (with_lineage (push_Supersedes t)) (update t (with_lineage (push_SupersededBy n)) s).
Definition bare_corrected (n t : RecordID) (s : RSet) : RSet :=
  update n (with_lineage (push_Corrects t)) (update t (with_lineage (push_CorrectedBy n)) s).

(** Case analysis on which record of the set a lookup after a link is. *)
Ltac link_cases HL Hr :=
  rewrite HL in Hr; repeat case_decide; subst; try (injection Hr as <-).

(** A link that was there before the transition. *)
Ltac old_link :=
  left; eexists; split_and!; [eassumption|first [reflexivity|eauto with qompack]|done].

(** The link the transition wrote, answered by the other record of the pair. *)
Ltac new_link HL :=
  right; eexists; rewrite HL; repeat case_decide; try done; split_and!;
    [reflexivity|apply elem_of_app; right; constructor|done].

(** A kind of link the transition leaves alone. *)
Ltac quiet_links H Hx HL :=
  eapply links_step; [..|exact H|exact Hx|]; [done..|];
  intros ? ? ? Hr Hb; link_cases HL Hr; old_link.

(** A kind of link the transition writes once. *)
Ltac wrote_links H Hx HL :=
  eapply links_step; [..|exact H|exact Hx|]; [done..|];
  intros ? ? ? Hr Hb; link_cases HL Hr; try old_link;
  apply elem_of_app in Hb as [Hb|Hb%list_elem_of_singleton]; [old_link|subst; new_link HL].

Lemma linked_bare_superseded n t rn rt s :
  linked s -> n <> t -> byID s !! n = Some rn -> byID s !! t = Some rt ->
  Superseded rt = false -> Q_superseded rt rn -> linked (bare_superseded n t s).
Proof.
  intros Hlk Hne Hn Ht Hs HQ. pose proof Hlk as [H1 H2 H3 H4 H5 H6 H7 H8 H9 H10].
  assert (extends s (bare_superseded n t s)) as Hx
    by (unfold bare_superseded; etrans; [|eauto with qompack]; eauto with qompack).
  pose proof (linked_push_links s (with_lineage (push_Supersedes t))
    (with_lineage (push_SupersededBy n)) n t rn rt Hne Hn Ht) as HL. cbv zeta in HL.
  change (update n _ (update t _ s)) with (bare_superseded n t s) in HL.
  destruct mono_lists as (M1 & M2 & M3 & M4 & M5 & M6), stable_rels as (S1 & S2 & S3 & S4).
  split; [done| | |wrote_links H4 Hx HL|wrote_links H5 Hx HL|quiet_links H6 Hx HL|quiet_links H7 Hx HL
         |quiet_links H8 Hx HL|quiet_links H9 Hx HL|].
  - intros k. rewrite H2, HL. repeat case_decide; subst; rewrite ?Hn, ?Ht; split; eauto.
  - intros k r' Hr. link_cases HL Hr.
    + eapply record_ok_grows; [apply grows_push_SupersededBy| |apply H3, Ht].
      unfold Superseded, is_nil in Hs. unfold lSupersededBy. cbn.
      destruct (SupersededBy (rLineage rt)); [cbn; lia|done].
    + eapply record_ok_grows; [apply grows_push_Supersedes| |apply H3, Hn]. apply (H3 n rn Hn).
    + apply H3, Hr.
  - eapply resolution_ok_extends; [exact H10|exact Hx|]. intros k r' c rs Hr Hc Hrs. left.
    link_cases HL Hr; eauto.
Qed.

Lemma linked_bare_corrected n t rn rt s :
  linked s -> n <> t -> byID s !! n = Some rn -> byID s !! t = Some rt ->
  Q_corrected rt rn -> linked (bare_corrected n t s).
Proof.
  intros Hlk Hne Hn Ht HQ. pose proof Hlk as [H1 H2 H3 H4 H5 H6 H7 H8 H9 H10].
  assert (extends s (bare_corrected n t s)) as Hx
    by (unfold bare_corrected; etrans; [|eauto with qompack]; eauto with qompack).
  pose proof (linked_push_links s (with_lineage (push_Corrects t))
    (with_lineage (push_CorrectedBy n)) n t rn rt Hne Hn Ht) as HL. cbv zeta in HL.
  change (update n _ (update t _ s)) with (bare_corrected n t s) in HL.
  destruct mono_lists as (M1 & M2 & M3 & M4 & M5 & M6), stable_rels as (S1 & S2 & S3 & S4).
  split; [done| | |quiet_links H4 Hx HL|quiet_links H5 Hx HL|wrote_links H6 Hx HL|wrote_links H7 Hx HL
         |quiet_links H8 Hx HL|quiet_links H9 Hx HL|].
  - intros k. rewrite H2, HL. repeat case_decide; subst; rewrite ?Hn, ?Ht; split; eauto.
  - intros k r' Hr. link_cases HL Hr; [| |apply H3, Hr].
    + eapply record_ok_grows; [apply grows_push_CorrectedBy|apply (H3 t rt Ht)|apply H3, Ht].
    + eapply record_ok_grows; [apply grows_push_Corrects|apply (H3 n rn Hn)|apply H3, Hn].
  - eapply resolution_ok_extends; [exact H10|exact Hx|]. intros k r' c rs Hr Hc Hrs. left.
    link_cases HL Hr; eauto.
Qed.

Lemma linked_superseded n t e rn rt s :
  linked s -> n <> t -> byID s !! n = Some rn -> byID s !! t = Some rt ->
  Superseded rt = false -> Q_superseded rt rn -> linked (link_superseded n t e s).
Proof. intros. do 2 apply linked_note. eapply linked_bare_superseded; eassumption. Qed.

Lemma linked_corrected n t e rn rt s :
  linked s -> n <> t -> byID s !! n = Some rn -> byID s !! t = Some rt ->
  Q_corrected rt rn -> linked (link_corrected n t e s).
Proof. intros. do 2 apply linked_note. eapply linked_bare_corrected; eassumption. Qed.

(** *** Admission *)

Definition marked (m : RecordID) (reason : bytes) (at_ : Z) (r : SRecord) : SRecord :=
  note (MkEntry LineageConflicted [] AuthorityConflict at_ reason) m (with_lineage (push_ConflictedBy m) r).

Lemma grows_marked m rn a r : grows r (marked m rn a r).
Proof. unfold marked. etrans; eauto with qompack. Qed.
#[export] Hint Resolve grows_marked : qompack.

Lemma mark_conflicted_lookup m rn a ids s k :
  NoDup ids ->
  byID (fold_left (mark_conflicted m rn a) ids s) !! k
  = if decide (k ∈ ids) then marked m rn a <$> byID s !! k else byID s !! k.
Proof.
  revert s. induction ids as [|id ids IH]; intros s Hnd; cbn [fold_left]; [done|].
  apply NoDup_cons in Hnd as [Hni Hnd]. rewrite IH by done. unfold mark_conflicted.
  rewrite !update_lookup. destruct (decide (k = id)) as [->|Hk].
  - rewrite decide_False by done. rewrite decide_True by constructor.
    destruct (byID s !! id); done.
  - repeat case_decide; try done; exfalso; set_solver.
Qed.

Lemma mark_conflicted_order m rn a ids s : order (fold_left (mark_conflicted m rn a) ids s) = order s.
Proof. revert s. induction ids as [|id ids IH]; intros s; cbn [fold_left]; [done|]. rewrite IH. done. Qed.

(** A record admitted with no links of its own, whose parties (if it is a conflict) are marked. *)
Section Admission.
  Context (m : SRecord) (rn : bytes) (a : Z) (s s' : RSet).
  Hypothesis Hlk : linked s.
  Hypothesis Hfresh : byID s !! ID m = None.
  Hypothesis Hm : record_ok (ID m) m.
  Hypothesis Hl : rLineage m = emptyLineage.
  Hypothesis Hr : Resolved (rConflict m) = false.
  Hypothesis Hp : forall p, p ∈ parties_of m -> exists rp, byID s !! p = Some rp /\ rScope rp = rScope m.
  Hypothesis Ho : order s' = order s ++ [ID m].
  Hypothesis HL : forall k, byID s' !! k = if decide (k = ID m) then Some m
     else if decide (k ∈ parties_of m) then marked (ID m) rn a <$> byID s !! k else byID s !! k.

Lemma admitted_self : byID s' !! ID m = Some m.
Proof. rewrite HL, decide_True; done. Qed.

Lemma admitted_extends : extends s s'.
Proof.
  split; [rewrite Ho; apply prefix_app_r; done|]. intros k r Hk. rewrite HL.
  repeat case_decide; subst; [congruence| |].
  - rewrite Hk. eexists. split; [reflexivity|eauto with qompack].
  - exists r. split; [done|reflexivity].
Qed.

Lemma admitted_old k r' :
  byID s' !! k = Some r' -> k <> ID m ->
  exists r, byID s !! k = Some r /\
    r' = (if decide (k ∈ parties_of m) then marked (ID m) rn a r else r).
Proof.
  intros Hk Hne. rewrite HL, decide_False in Hk by done. case_decide.
  - destruct (byID s !! k) as [r|]; [|done]. injection Hk as <-. eauto.
  - eauto.
Qed.

(** Links that admission does not write. *)
Lemma admitted_quiet L1 L2 Q :
  mono L2 -> stable Q -> links L1 L2 Q s -> L1 m = [] ->
  (forall r, L1 (marked (ID m) rn a r) = L1 r) -> links L1 L2 Q s'.
Proof.
  intros HM HS Hls Hnil Hmk. eapply links_step; [..|exact Hls|apply admitted_extends|]; [done..|].
  intros k r' b Hk Hb. destruct (decide (k = ID m)) as [->|Hne].
  { rewrite admitted_self in Hk. injection Hk as <-. rewrite Hnil in Hb. set_solver. }
  left. destruct (admitted_old k r' Hk Hne) as (r & H1 & H2). exists r. subst r'.
  case_decide; (split_and!; [done|first [reflexivity|eauto with qompack]|]); [rewrite Hmk in Hb|]; done.
Qed.

Lemma admitted_confby : links lConflictedBy parties_of Q_scope s'.
Proof.
  destruct mono_lists as (_ & _ & _ & _ & _ & M6), stable_rels as (_ & _ & _ & S4).
  eapply links_step; [..|apply (ln_confby _ Hlk)|apply admitted_extends|]; [done..|].
  intros k r' b Hk Hb. destruct (decide (k = ID m)) as [->|Hne].
  { rewrite admitted_self in Hk. injection Hk as <-. unfold lConflictedBy in Hb. rewrite Hl in Hb.
    cbn in Hb. set_solver. }
  destruct (admitted_old k r' Hk Hne) as (r & H1 & H2). subst r'. case_decide as Hin.
  - apply elem_of_app in Hb as [Hb|Hb%list_elem_of_singleton].
    + left. exists r. split_and!; [done|eauto with qompack|done].
    + right. subst b. exists m. split_and!; [apply admitted_self|done|].
      destruct (Hp k Hin) as (rp & E1 & E2). unfold Q_scope. cbn. congruence.
  - left. exists r. split_and!; [done|reflexivity|done].
Qed.

Lemma admitted_parties : links parties_of lConflictedBy Q_scope s'.
Proof.
  destruct mono_lists as (_ & _ & _ & _ & M5 & _), stable_rels as (_ & _ & _ & S4).
  eapply links_step; [..|apply (ln_parties _ Hlk)|apply admitted_extends|]; [done..|].
  intros k r' b Hk Hb. destruct (decide (k = ID m)) as [->|Hne].
  - right. rewrite admitted_self in Hk. injection Hk as <-.
    destruct (Hp b Hb) as (rp & E1 & E2). exists (marked (ID m) rn a rp). rewrite HL.
    rewrite decide_False by congruence. rewrite decide_True, E1 by done.
    split_and!; [done|apply elem_of_app; right; constructor|done].
  - left. destruct (admitted_old k r' Hk Hne) as (r & H1 & H2). exists r. subst r'.
    case_decide; (split_and!; [done|first [reflexivity|eauto with qompack]|done]).
Qed.

Lemma linked_admitted : linked s'.
Proof.
  pose proof Hlk as [H1 H2 H3 H4 H5 H6 H7 H8 H9 H10].
  destruct mono_lists as (M1 & M2 & M3 & M4 & M5 & M6), stable_rels as (S1 & S2 & S3 & S4).
  split; [| | |apply admitted_quiet|apply admitted_quiet|apply admitted_quiet|apply admitted_quiet
         |apply admitted_confby|apply admitted_parties|];
    try done; try (unfold lSupersededBy, lSupersedes, lCorrectedBy, lCorrects; rewrite Hl; done).
  - rewrite Ho. apply NoDup_app. split_and!; [done| |apply NoDup_singleton].
    intros k Hk ->%list_elem_of_singleton. apply H2 in Hk. rewrite Hfresh in Hk. by destruct Hk.
  - intros k. rewrite Ho, elem_of_app, list_elem_of_singleton, H2, HL.
    case_decide; [split; eauto|]. case_decide; rewrite ?fmap_is_Some; naive_solver.
  - intros k r' Hk. destruct (decide (k = ID m)) as [->|Hne].
    + rewrite admitted_self in Hk. injection Hk as <-. done.
    + destruct (admitted_old k r' Hk Hne) as (r & Hr0 & ->). specialize (H3 k r Hr0).
      case_decide; [|done]. eapply record_ok_grows; [eauto with qompack|apply H3|done].
  - eapply resolution_ok_extends; [exact H10|apply admitted_extends|]. intros k r' c rs Hk Hc Hrs.
    destruct (decide (k = ID m)) as [->|Hne].
    + rewrite admitted_self in Hk. injection Hk as <-. rewrite Hc in Hr. destruct c. cbn in Hrs.
      subst. done.
    + left. destruct (admitted_old k r' Hk Hne) as (r & Hr0 & ->). exists r, c.
      case_decide; done.
Qed.

End Admission.

Lemma lineage_zero l : Lineage_IsZero l = true -> l = emptyLineage.
Proof. destruct l as [[] [] [] [] [] []]; done. Qed.

Lemma validateFields_ok r :
  validateFields r = None -> content_ok r /\ rLineage r = emptyLineage /\ rConflict r = None.
Proof.
  unfold validateFields. repeat (ifcase; [done|]).
  intros _. repeat match goal with
    | H : negb _ = false |- _ => apply negb_false_iff in H
    | H : bool_decide _ = false |- _ => apply bool_decide_eq_false in H
    | H : (_ =? _) = true |- _ => apply Z.eqb_eq in H
    end.
  split_and!; [|auto using lineage_zero|done]. unfold content_ok. split_and!; done.
Qed.

Lemma Validate_ok r :
  Validate r = None ->
  record_ok (ID r) r /\ rLineage r = emptyLineage /\ rConflict r = None.
Proof.
  unfold Validate. case_bool_decide; [done|]. intros (H1 & H2 & H3)%validateFields_ok.
  split_and!; try done. split; [done|done| |rewrite H3; done].
  unfold lSupersededBy. rewrite H2. cbn. lia.
Qed.

Lemma linked_admit r s s' :
  linked s -> Validate r = None -> admit_record r s = Ok s' -> linked s'.
Proof.
  intros Hlk (H1 & H2 & H3)%Validate_ok. unfold admit_record. destruct (byID s !! ID r) eqn:E; [done|].
  intros [= <-]. eapply (linked_admitted r [] 0); try done.
  - rewrite H3. done.
  - unfold parties_of. rewrite H3. set_solver.
  - intros k. cbn. unfold parties_of. rewrite H3. rewrite lookup_insert.
    destruct (decide (k = ID r)) as [->|]; [rewrite decide_True by done; done|].
    rewrite !decide_False; [done|set_solver|done].
Qed.

Lemma admit_record_lookup r s s' :
  admit_record r s = Ok s' ->
  byID s !! ID r = None /\ forall k, byID s' !! k = if decide (k = ID r) then Some r else byID s !! k.
Proof.
  unfold admit_record. destruct (byID s !! ID r) eqn:E; [done|]. intros [= <-]. split; [done|].
  intros k. cbn. rewrite lookup_insert. repeat case_decide; congruence.
Qed.

(** *** Conflicts recorded so far *)

(** No resolution is new in [s']. *)
Definition same_conflicts (s s' : RSet) : Prop :=
  forall id r', byID s' !! id = Some r' ->
    (exists r, byID s !! id = Some r /\ rConflict r = rConflict r') \/ Resolved (rConflict r') = false.

#[global] Instance same_conflicts_refl : Reflexive same_conflicts.
Proof. intros s id r' H. left. eauto. Qed.

#[global] Instance same_conflicts_trans : Transitive same_conflicts.
Proof.
  intros a b c H1 H2 id r' Hr. destruct (H2 id r' Hr) as [(r & Hr0 & E)|]; [|by right].
  rewrite <- E. apply H1, Hr0.
Qed.

Lemma update_same_conflicts id f s :
  (forall r, rConflict (f r) = rConflict r) -> same_conflicts s (update id f s).
Proof.
  intros Hf k r'. rewrite update_lookup. case_decide; [|left; eauto].
  destruct (byID s !! k) as [r|]; [|done]. intros [= <-]. left. exists r. rewrite Hf. done.
Qed.

Lemma link_superseded_same n t e s : same_conflicts s (link_superseded n t e s).
Proof. unfold link_superseded. do 3 (etrans; [|apply update_same_conflicts; done]). apply update_same_conflicts. done. Qed.

Lemma link_corrected_same n t e s : same_conflicts s (link_corrected n t e s).
Proof. unfold link_corrected. do 3 (etrans; [|apply update_same_conflicts; done]). apply update_same_conflicts. done. Qed.

Lemma mark_conflicted_same m rn a ids s : same_conflicts s (fold_left (mark_conflicted m rn a) ids s).
Proof.
  revert s. induction ids as [|id ids IH]; intros s; [reflexivity|]. cbn [fold_left].
  etrans; [|apply IH]. unfold mark_conflicted. etrans; apply update_same_conflicts; done.
Qed.

Lemma admit_same r s s' :
  admit_record r s = Ok s' -> Resolved (rConflict r) = false -> same_conflicts s s'.
Proof.
  intros [_ HL]%admit_record_lookup Hr k r'. rewrite HL. case_decide; [|left; eauto].
  intros [= <-]. by right.
Qed.

Lemma settled_same s s' : settled s -> extends s s' -> same_conflicts s s' -> settled s'.
Proof.
  intros Hs [_ Hx] Hc id r' c rs p Hr Hcf Hrs Hp.
  destruct (Hc id r' Hr) as [(r & Hr0 & E)|E]; [|rewrite Hcf in E; destruct c; cbn in *; subst; done].
  destruct (Hs id r c rs p Hr0 ltac:(congruence) Hrs Hp) as [|(rp & H1 & H2)]; [by left|].
  right. destruct (Hx p rp H1) as (rp' & H3 & H4). exists rp'. split; [done|].
  eapply grows_superseded; eassumption.
Qed.

(** *** Every operation preserves the invariant *)

Lemma authoritative_cases w :
  Authoritative w = true -> w = AuthorityUserCorrection \/ w = AuthorityExplicitDecision.
Proof. unfold Authoritative. intros [H|H]%orb_true_iff; apply bool_decide_eq_true in H; auto. Qed.

Lemma authoritative_not_conflict w : Authoritative w = true -> w <> AuthorityConflict.
Proof. intros [->| ->]%authoritative_cases; done. Qed.

Lemma authority_rank_range x : 0 <= authorityRank x <= 4.
Proof. unfold authorityRank. repeat case_match; lia. Qed.

Lemma CanSupersede_authoritative w x :
  Authoritative w = true -> Authority_Valid x = true -> CanSupersede w x = true.
Proof.
  intros Hw Hx. unfold CanSupersede. rewrite Hx, Hw. pose proof (authority_rank_range x).
  assert (authorityRank w = 4) as -> by (destruct (authoritative_cases w Hw); subst; done).
  assert (Authority_Valid w = true) as -> by (destruct (authoritative_cases w Hw); subst; done).
  rewrite bool_decide_false by (apply authoritative_not_conflict; done). cbn.
  destruct (Authoritative x); [done|]. apply Z.leb_le. lia.
Qed.

Lemma CanSupersede_rank newer existing :
  CanSupersede newer existing = true ->
  authorityRank existing <= authorityRank newer /\
  (Authoritative existing = true -> Authoritative newer = true).
Proof.
  unfold CanSupersede. destruct (_ || _); [done|].
  destruct (Authoritative existing) eqn:E; [|rewrite Z.leb_le; done]. intros H. split; [|done].
  pose proof (authority_rank_range existing).
  assert (authorityRank newer = 4) as -> by (destruct (authoritative_cases _ H); by subst). lia.
Qed.

Lemma check_parties_ok s sc ps seen :
  check_parties s sc seen ps = None ->
  NoDup ps /\ (forall p, p ∈ ps -> p ∉ seen) /\
  forall p, p ∈ ps -> exists rp, byID s !! p = Some rp /\ rScope rp = sc /\ Superseded rp = false.
Proof.
  revert seen. induction ps as [|id ps IH]; intros seen; cbn [check_parties].
  { intros _. split_and!; [constructor|set_solver..]. }
  destruct (byID s !! id) as [rp|] eqn:E; [|done]. case_bool_decide as Hs; [done|].
  destruct (bool_decide (rScope rp = sc)) eqn:Hsc; [|done]. apply bool_decide_eq_true in Hsc.
  destruct (Superseded rp) eqn:Hsup; [done|]. cbn. intros (H1 & H2 & H3)%IH.
  split_and!.
  - constructor; [|done]. intros Hin. apply (H2 id Hin). constructor.
  - intros p [->|Hp]%elem_of_cons; [done|]. specialize (H2 p Hp). set_solver.
  - intros p [->|Hp]%elem_of_cons; eauto.
Qed.

Lemma inv_Add r s s' : inv s -> Add r s = Ok s' -> inv s'.
Proof.
  intros [Hlk Hst]. unfold Add. destruct (Validate r) eqn:Ev; [done|]. intros Ha.
  split; [eapply linked_admit; eassumption|].
  eapply settled_same; [done|eapply admit_extends, Ha|eapply admit_same; [exact Ha|]].
  apply Validate_ok in Ev as (_ & _ & ->). done.
Qed.

(** What a supersession that goes through has checked and admitted. *)
Lemma supersede_ok n t a nt b s s' :
  supersede n t a nt b s = Ok s' ->
  exists rt s1, byID s !! t = Some rt /\ Validate n = None /\ (b = true -> Authoritative (Authority n) = true) /\
    CanSupersede (Authority n) (Authority rt) = true /\ rScope n = rScope rt /\ Superseded rt = false /\
    admit_record n s = Ok s1 /\
    s' = (let s2 := link_superseded (ID n) t (MkEntry LineageSuperseded [] (Authority n) a nt) s1 in
          if b then link_corrected (ID n) t (MkEntry LineageCorrected [] (Authority n) a nt) s2 else s2).
Proof.
  unfold supersede. destruct (byID s !! t) as [rt|]; [|done]. destruct (Validate n); [done|].
  case_bool_decide; [done|].
  destruct (b && negb (Authoritative (Authority n))) eqn:Hb; [done|].
  destruct (CanSupersede _ _) eqn:Hc; [|done].
  destruct (bool_decide (rScope n = rScope rt)) eqn:Hsc; [|done]. apply bool_decide_eq_true in Hsc.
  destruct (Superseded rt) eqn:Hs; [done|]. cbn.
  destruct (admit_record n s) as [s1| |]; [|done|done]. intros [= <-]. exists rt, s1.
  split_and!; try done. intros ->. by destruct (Authoritative _).
Qed.

Lemma link_superseded_lookup n t e s k r :
  byID s !! k = Some r -> exists r', byID (link_superseded n t e s) !! k = Some r' /\ grows r r'.
Proof. intros H. apply (link_superseded_extends n t e s). done. Qed.

Lemma inv_supersede n t a nt b s s' : inv s -> supersede n t a nt b s = Ok s' -> inv s'.
Proof.
  intros [Hlk Hst] H. pose proof (supersede_extends _ _ _ _ _ _ _ H) as Hx.
  apply supersede_ok in H as (rt & s1 & Ht & Hv & Hb & Hc & Hsc & Hs & Ha & ->).
  destruct (admit_record_lookup _ _ _ Ha) as [Hf HL].
  assert (t <> ID n) as Hne by congruence.
  assert (byID s1 !! ID n = Some n) as E1 by (rewrite HL, decide_True; done).
  assert (byID s1 !! t = Some rt) as E2 by (rewrite HL, decide_False; done).
  set (s2 := link_superseded _ _ _ s1) in *.
  assert (linked s2) as Hl2.
  { eapply linked_superseded; [eapply linked_admit; eassumption|done|done|done|done|done]. }
  assert (same_conflicts s s2) as Hsame.
  { etrans; [|apply link_superseded_same]. eapply admit_same; [exact Ha|].
    apply Validate_ok in Hv as (_ & _ & ->). done. }
  cbv zeta in *. destruct b; [|split; [done|eapply settled_same; eassumption]].
  destruct (link_superseded_lookup (ID n) t (MkEntry LineageSuperseded [] (Authority n) a nt) s1 _ _ E1) as (n' & N1 & N2).
  destruct (link_superseded_lookup (ID n) t (MkEntry LineageSuperseded [] (Authority n) a nt) s1 _ _ E2) as (t' & T1 & T2).
  split.
  - eapply linked_corrected; [done|done|exact N1|exact T1|].
    unfold Q_corrected. destruct (grows_auth _ _ N2) as [-> _]. auto.
  - eapply settled_same; [done|exact Hx|]. etrans; [exact Hsame|apply link_corrected_same].
Qed.

Lemma inv_DeclareConflict m ps rn a s s' : inv s -> DeclareConflict m ps rn a s = Ok s' -> inv s'.
Proof.
  intros [Hlk Hst] H. pose proof (apply_op_extends (OpConflict m ps rn a) s s' H) as Hx. revert H.
  unfold DeclareConflict. destruct (bool_decide (Authority m = AuthorityConflict)) eqn:Hm; [|done].
  apply bool_decide_eq_true in Hm. cbn [negb].
  destruct (validateFields m) eqn:Hv; [done|]. apply validateFields_ok in Hv as (V1 & V2 & V3).
  destruct (length ps <? 2)%nat eqn:Hlen; [done|]. apply Nat.ltb_ge in Hlen.
  destruct (check_parties _ _ _ _) eqn:Hc; [done|].
  apply check_parties_ok in Hc as (C1 & _ & C3).
  set (m' := with_conflict _ m). destruct (admit_record m' s) as [s1| |] eqn:Ha; [|done|done].
  intros [= <-]. pose proof (admit_same m' s s1 Ha eq_refl) as Hsame.
  apply admit_record_lookup in Ha as Hb. destruct Hb as [Hf HL].
  split.
  - apply (linked_admitted m' rn a s); try done.
    + split; try done. unfold lSupersededBy. cbn. rewrite V2. cbn. lia.
    + intros p Hp. destruct (C3 p Hp) as (rp & ? & ? & ?). eauto.
    + rewrite mark_conflicted_order. revert Ha. unfold admit_record. rewrite Hf. intros [= <-]. done.
    + intros k. rewrite mark_conflicted_lookup by done. rewrite HL. change (parties_of m') with ps.
      change (ID m') with (ID m) in *.
      destruct (decide (k = ID m)) as [->|]; [|done]. rewrite decide_False; [done|].
      intros Hin. destruct (C3 _ Hin) as (rp & ? & ?). congruence.
  - eapply settled_same; [done|exact Hx|]. etrans; [exact Hsame|apply mark_conflicted_same].
Qed.

Lemma superseded_after n t e rt s :
  byID s !! t = Some rt -> exists r', byID (link_superseded n t e s) !! t = Some r' /\ Superseded r' = true.
Proof.
  intros H. assert (exists r1, byID (update t (with_lineage (push_SupersededBy n)) s) !! t = Some r1 /\
    Superseded r1 = true) as (r1 & E1 & E2).
  { rewrite update_lookup, decide_True, H by done. eexists. split; [reflexivity|].
    unfold Superseded. cbn. destruct (SupersededBy _); done. }
  assert (extends (update t (with_lineage (push_SupersededBy n)) s) (link_superseded n t e s)) as [_ Hx].
  { unfold link_superseded. do 2 (etrans; [|eauto with qompack]). eauto with qompack. }
  destruct (Hx _ _ E1) as (r' & E3 & G). exists r'. split; [done|]. eapply grows_superseded; eassumption.
Qed.

(** The loop over the parties of a resolved conflict runs to the end and settles each of them. *)
Lemma resolve_parties_ok b e ids s w :
  linked s -> byID s !! b = Some w -> Authoritative (Authority w) = true ->
  (forall p, p ∈ ids -> exists rp, byID s !! p = Some rp /\ rScope rp = rScope w) ->
  exists s', resolve_parties b e ids s = Ok s' /\ linked s' /\ same_conflicts s s' /\
    forall p, p ∈ ids -> p = b \/ exists rp, byID s' !! p = Some rp /\ Superseded rp = true.
Proof.
  revert s w. induction ids as [|id ids IH]; intros s w Hlk Hw Ha Hp; cbn [resolve_parties].
  { exists s. split_and!; [done..|]. set_solver. }
  destruct (Hp id ltac:(constructor)) as (rp & Hid & Hsc).
  assert (exists s1, resolve_party b e id s = Ok s1 /\ linked s1 /\ same_conflicts s s1 /\ extends s s1 /\
    (id = b \/ exists rp, byID s1 !! id = Some rp /\ Superseded rp = true)) as (s1 & R1 & R2 & R3 & R4 & R5).
  { unfold resolve_party. case_bool_decide as Hb; [exists s; split_and!; auto; reflexivity|].
    rewrite Hid. destruct (Superseded rp) eqn:Hs; [exists s; split_and!; eauto; reflexivity|].
    eexists. split_and!; [reflexivity| |apply link_superseded_same|apply link_superseded_extends|].
    - eapply linked_superseded; try eassumption; [congruence|]. split; [|done].
      apply CanSupersede_authoritative; [done|]. apply (ln_record _ Hlk _ _ Hid).
    - right. eapply superseded_after, Hid. }
  rewrite R1. cbn [obind]. pose proof (ex_records _ _ R4) as Hx.
  destruct (Hx _ _ Hw) as (w' & W1 & G). destruct (grows_auth _ _ G) as (G1 & G2 & _).
  destruct (IH s1 w' R2 W1) as (s' & F1 & F2 & F3 & F4); [congruence| |].
  { intros p Hin. destruct (Hp p ltac:(set_solver)) as (r0 & P1 & P2), (Hx _ _ P1) as (r1 & P3 & P4).
    exists r1. split; [done|]. destruct (grows_auth _ _ P4) as (_ & -> & _). congruence. }
  exists s'. split_and!; [done|done|etrans; eassumption|].
  intros p [->|Hin]%elem_of_cons; [|auto]. destruct R5 as [|(r1 & P1 & P2)]; [by left|]. right.
  destruct (resolve_parties_extends _ _ _ _ _ F1) as [_ Hy], (Hy _ _ P1) as (r2 & P3 & P4).
  exists r2. split; [done|]. eapply grows_superseded; eassumption.
Qed.

(** Recording a resolution on the conflict it resolves. *)
Lemma linked_set_resolution cid rc c rs w s :
  linked s -> byID s !! cid = Some rc -> rConflict rc = Some c -> cf_Resolution c = None ->
  byID s !! By rs = Some w -> Authority w = rs_Authority rs -> Authoritative (Authority w) = true ->
  linked (update cid (set_resolution rs) s).
Proof.
  intros Hlk Hc Hcf Hno Hw Haw Hauth.
  assert (Resolved (rConflict rc) = false) as Hnr by (rewrite Hcf; destruct c; cbn in *; subst; done).
  assert (extends s (update cid (set_resolution rs) s)) as Hx.
  { apply update_extends. intros r Hr. apply grows_set_resolution. congruence. }
  apply linked_quiet; [done| |].
  - intros r Hr. assert (r = rc) as -> by congruence. split_and!; [auto using grows_set_resolution|..];
      unfold lSupersedes, lSupersededBy, lCorrects, lCorrectedBy, lConflictedBy, set_resolution;
      rewrite Hcf; done.
  - eapply resolution_ok_extends; [apply (ln_resolution _ Hlk)|exact Hx|].
    intros k r' c' rs' Hk Hc' Hrs'. rewrite update_lookup in Hk. case_decide as Hkc; [|left; eauto].
    subst k. rewrite Hc in Hk. injection Hk as <-. unfold set_resolution in Hc'. rewrite Hcf in Hc'.
    cbn in Hc'. injection Hc' as <-. cbn in Hrs'. injection Hrs' as <-. right.
    split; [congruence|]. destruct (ex_records _ _ Hx _ _ Hw) as (w' & W1 & W2).
    exists w'. split; [done|]. destruct (grows_auth _ _ W2). congruence.
Qed.

(** A set whose one new resolution is settled. *)
Lemma settled_resolve cid rc c rs s s' :
  settled s -> byID s !! cid = Some rc -> rConflict rc = Some c -> extends s s' ->
  same_conflicts (update cid (set_resolution rs) s) s' ->
  (forall p, p ∈ Parties c -> p = By rs \/ exists rp, byID s' !! p = Some rp /\ Superseded rp = true) ->
  settled s'.
Proof.
  intros Hst Hc Hcf [_ X3] C2 Hset id r' c' rs' p Hr Hc' Hrs' Hp.
  destruct (C2 id r' Hr) as [(r1 & R1 & R2)|Hnr'].
  2: { rewrite Hc' in Hnr'. destruct c'. cbn in *. subst. done. }
  rewrite update_lookup in R1. case_decide as Hid.
  - subst id. rewrite Hc in R1. injection R1 as <-. unfold set_resolution in R2. rewrite Hcf in R2.
    cbn in R2. rewrite Hc' in R2. injection R2 as <-. cbn in Hrs', Hp. injection Hrs' as <-.
    apply Hset, Hp.
  - destruct (Hst id r1 c' rs' p R1 ltac:(congruence) Hrs' Hp) as [|(rp & P1 & P2)]; [by left|]. right.
    destruct (X3 _ _ P1) as (rp' & P3 & P4). exists rp'. split; [done|].
    eapply grows_superseded; eassumption.
Qed.

(** On a well-formed set [Resolve] either refuses or settles the conflict: it never panics. *)
Lemma Resolve_inv cid b a rn s :
  inv s ->
  match Resolve cid b a rn s with
  | Ok s' => inv s'
  | Err _ => True
  | Panic => False
  end.
Proof.
  intros [Hlk Hst]. unfold Resolve. destruct (byID s !! cid) as [rc|] eqn:Hc; [|done].
  destruct (rConflict rc) as [c|] eqn:Hcf; [|done].
  destruct (bool_decide (Authority rc = AuthorityConflict)) eqn:Hca; [|done]. apply bool_decide_eq_true in Hca.
  destruct (Resolved (Some c)) eqn:Hnr; [done|]. destruct (byID s !! b) as [w|] eqn:Hw; [|done].
  destruct (Authoritative (Authority w)) eqn:Ha; [|done].
  destruct (bool_decide (rScope w = rScope rc)) eqn:Hsc; [|done]. apply bool_decide_eq_true in Hsc.
  cbn [negb]. set (rs := MkResolution b (Authority w) a rn). set (e := MkEntry LineageResolved _ _ _ _).
  set (s1 := update cid (set_resolution rs) s).
  assert (cf_Resolution c = None) as Hno by (destruct c as [? ? []]; done).
  assert (linked s1) as L1 by (eapply linked_set_resolution; try eassumption; done).
  assert (extends s s1) as X1.
  { apply update_extends. intros r Hr. apply grows_set_resolution. congruence. }
  set (s2 := update b (note e cid) (update cid (note e b) s1)).
  assert (linked s2) as L2 by (do 2 apply linked_note; done).
  assert (extends s s2) as X2 by (etrans; [exact X1|]; etrans; [|apply update_extends; eauto with qompack]; apply update_extends; eauto with qompack).
  assert (same_conflicts s1 s2) as C2 by (etrans; [|apply update_same_conflicts; done]; apply update_same_conflicts; done).
  destruct (ex_records _ _ X2 _ _ Hw) as (w2 & W1 & W2). destruct (grows_auth _ _ W2) as (W3 & W4 & _).
  edestruct (resolve_parties_ok b (MkEntry LineageSuperseded [] (Authority w) a rn) (Parties c) s2 w2)
    as (s' & E & L3 & C3 & Hset); [done|done|congruence| |].
  { intros p Hp. destruct (ln_parties _ Hlk cid rc p Hc) as (rp & P1 & _ & P3); [unfold parties_of; rewrite Hcf; done|].
    destruct (ex_records _ _ X2 _ _ P1) as (rp' & P4 & P5). destruct (grows_auth _ _ P5) as (_ & P6 & _).
    exists rp'. split; [done|]. unfold Q_scope in P3. congruence. }
  rewrite E. split; [done|]. assert (extends s s') as X3.
  { etrans; [exact X2|]. eapply resolve_parties_extends, E. }
  eapply (settled_resolve cid rc c rs); try eassumption. etrans; eassumption.
Qed.

Lemma inv_new : inv NewSet.
Proof.
  split; [split|]; try (intros ? ? ? H; cbn in H; rewrite lookup_empty in H; done);
    try (intros ? ? ? ? H; cbn in H; rewrite lookup_empty in H; done);
    try (intros ? ? ? ? ? H; cbn in H; rewrite lookup_empty in H; done).
  - constructor.
  - intros id. cbn. rewrite lookup_empty. split; [set_solver|intros [? ?]; done].
  - intros ? ? H. cbn in H. rewrite lookup_empty in H. done.
Qed.

Lemma apply_op_inv o s s' : inv s -> apply_op o s = Ok s' -> inv s'.
Proof.
  intros Hi. destruct o; cbn [apply_op].
  - apply inv_Add, Hi.
  - apply inv_supersede, Hi.
  - apply inv_supersede, Hi.
  - apply inv_DeclareConflict, Hi.
  - intros H. pose proof (Resolve_inv conflictID by_ at_ reason s Hi) as HR. rewrite H in HR. done.
Qed.

Lemma reachable_inv s : reachable s -> inv s.
Proof. induction 1; eauto using inv_new, apply_op_inv. Qed.

(** ** What the set promises *)

(** A caller's sequence of operations: a refused one leaves the set as it was. *)
Fixpoint run (ops : list op) (s : RSet) : outcome core_error RSet :=
  match ops with
  | [] => Ok s
  | o :: ops => match apply_op o s with
                | Ok s' => run ops s'
                | Err _ => run ops s
                | Panic => Panic
                end
  end.

Lemma admit_no_panic r s : admit_record r s <> Panic.
Proof. unfold admit_record. by destruct (byID s !! ID r). Qed.

Lemma apply_op_no_panic o s : inv s -> apply_op o s <> Panic.
Proof.
  intros Hi. assert (forall n t a nt b, supersede n t a nt b s <> Panic) as Hsup.
  { intros. unfold supersede. destruct (byID s !! t); [|done]. destruct (Validate n); [done|].
    repeat (case_match; try done). exfalso. eapply admit_no_panic. eassumption. }
  destruct o; cbn [apply_op]; [|apply Hsup|apply Hsup| |].
  - unfold Add. destruct (Validate r); [done|apply admit_no_panic].
  - unfold DeclareConflict. repeat (case_match; try done). exfalso. eapply admit_no_panic. eassumption.
  - pose proof (Resolve_inv conflictID by_ at_ reason s Hi) as HR. intros E. rewrite E in HR. done.
Qed.

Lemma run_ok ops s : reachable s -> exists s', run ops s = Ok s' /\ extends s s' /\ reachable s'.
Proof.
  revert s. induction ops as [|o ops IH]; intros s Hr; cbn [run].
  { exists s. split_and!; [done|reflexivity|done]. }
  pose proof (apply_op_no_panic o s (reachable_inv s Hr)) as Hnp.
  destruct (apply_op o s) as [s1| |] eqn:E; [|auto|done].
  destruct (IH s1) as (s' & H1 & H2 & H3); [eapply reach_step; eassumption|].
  exists s'. split_and!; [done| |done]. etrans; [eapply apply_op_extends, E|done].
Qed.

Lemma All_elem s r : linked s -> r ∈ All s <-> exists id, byID s !! id = Some r.
Proof.
  intros Hlk. unfold All. rewrite list_elem_of_omap. split; [naive_solver|].
  intros [id Hid]. exists id. split; [|done]. apply (ln_dom _ Hlk). eauto.
Qed.

Lemma blocked_false s r id :
  linked s -> byID s !! id = Some r ->
  blocked s r = false <->
  forall cid rc c, byID s !! cid = Some rc -> rConflict rc = Some c -> id ∈ Parties c ->
    Resolved (Some c) = true.
Proof.
  intros Hlk Hid. unfold blocked. rewrite <- not_true_iff_false, existsb_exists. split.
  - intros Hn cid rc c Hc Hcf Hp. destruct (Resolved (Some c)) eqn:E; [done|]. exfalso. apply Hn.
    exists cid. rewrite Hc, Hcf, E. split; [|done]. apply list_elem_of_In.
    destruct (ln_parties _ Hlk cid rc id Hc) as (rp & P1 & P2 & _); [unfold parties_of; rewrite Hcf; done|].
    assert (rp = r) as -> by congruence. done.
  - intros H (cid & Hin & Hb). apply list_elem_of_In in Hin.
    destruct (ln_confby _ Hlk id r cid Hid Hin) as (rc & Hc & Hp & _). rewrite Hc in Hb.
    unfold parties_of in Hp. destruct (rConflict rc) as [c|] eqn:Hcf; [|set_solver].
    rewrite (H cid rc c Hc Hcf Hp) in Hb. done.
Qed.

Lemma Applicable_elem s q r :
  linked s ->
  r ∈ Applicable s q <->
  exists id, byID s !! id = Some r /\ Authority r <> AuthorityConflict /\ Superseded r = false /\
    AppliesTo (rScope r) q = true /\
    forall cid rc c, byID s !! cid = Some rc -> rConflict rc = Some c -> id ∈ Parties c ->
      Resolved (Some c) = true.
Proof.
  intros Hlk. unfold Applicable. rewrite list_elem_of_In, filter_In, <- list_elem_of_In, All_elem by done.
  unfold applies. split.
  - intros ((id & Hid) & Ha). exists id. split; [done|]. revert Ha.
    case_bool_decide; [done|]. cbn [orb]. destruct (negb _); [done|].
    destruct (is_nil (Sources r)); [done|]. cbn [orb]. destruct (Superseded r); [done|].
    destruct (blocked s r) eqn:Hb; [done|]. intros Ha.
    split_and!; try done. apply (blocked_false s r id Hlk Hid), Hb.
  - intros (id & Hid & H1 & H2 & H3 & H4). split; [eauto|].
    pose proof (ln_record _ Hlk id r Hid) as [_ (_ & _ & C1 & _ & _ & C2 & _) _ _].
    rewrite bool_decide_false, C1, C2, H2, (proj2 (blocked_false s r id Hlk Hid)) by done. done.
Qed.

Lemma Conflicts_elem s q r :
  linked s ->
  r ∈ Conflicts s q <->
  (exists id, byID s !! id = Some r) /\ is_open_conflict r = true /\ AppliesTo (rScope r) q = true.
Proof.
  intros Hlk. unfold Conflicts. rewrite list_elem_of_In, filter_In, <- list_elem_of_In, All_elem by done.
  rewrite andb_true_iff. done.
Qed.

(** *** Round trip *)

Lemma qualify_id r : content_ok r -> qualify r = r.
Proof.
  intros (_ & _ & _ & _ & _ & _ & C & _ & _ & V & _). unfold qualify. rewrite C, V. cbn.
  destruct r as [? ? ? ? ? [] ? ? ? ? ? ? ?]. done.
Qed.

Definition keyed (r : SRecord) : RecordID * SRecord := (ID r, r).

Lemma decode_records_ok rs s :
  (forall r, r ∈ rs -> content_ok r) -> NoDup (ID <$> rs) -> (forall r, r ∈ rs -> byID s !! ID r = None) ->
  decode_records rs s = Ok (MkRSet (list_to_map (keyed <$> rs) ∪ byID s) (order s ++ (ID <$> rs))).
Proof.
  revert s. induction rs as [|r rs IH]; intros s Hc Hnd Hf; cbn [decode_records].
  { rewrite app_nil_r. cbn. rewrite (left_id_L ∅ (∪)). by destruct s. }
  rewrite fmap_cons in Hnd. apply NoDup_cons in Hnd as [Hni Hnd].
  pose proof (Hc r ltac:(constructor)) as Hr. pose proof Hr as (V & I & _). rewrite V.
  rewrite bool_decide_false by done. cbn. rewrite qualify_id by done. unfold admit_record.
  rewrite (Hf r ltac:(constructor)). rewrite IH.
  - cbn. f_equal. f_equal; [|by rewrite <- app_assoc]. rewrite <- insert_union_l. symmetry.
    apply insert_union_r. apply not_elem_of_list_to_map_1. rewrite <- list_fmap_compose. done.
  - intros r' Hr'. apply Hc. by right.
  - done.
  - intros r' Hr'. cbn. rewrite lookup_insert_ne; [apply Hf; by right|].
    intros E. apply Hni. rewrite E. apply list_elem_of_fmap_2. done.
Qed.

Lemma All_IDs s : linked s -> ID <$> All s = order s.
Proof.
  intros Hlk. unfold All. pose proof (ln_dom _ Hlk) as Hd. pose proof (ln_record _ Hlk) as Hr.
  assert (forall l : list RecordID, (forall k, k ∈ l -> k ∈ order s) ->
    ID <$> omap (fun id => byID s !! id) l = l) as H.
  { induction l as [|k l IH]; intros Hl; [done|]. cbn.
    destruct (proj1 (Hd k) (Hl k ltac:(constructor))) as [r E]. rewrite E. cbn.
    rewrite (ro_id _ _ (Hr k r E)), IH; [done|]. intros. apply Hl. by right. }
  apply H. done.
Qed.

Lemma keyed_All s : linked s -> list_to_map (keyed <$> All s) = byID s.
Proof.
  intros Hlk. assert (NoDup (keyed <$> All s).*1) as Hnd.
  { rewrite <- list_fmap_compose. change (fst ∘ keyed) with ID. rewrite All_IDs by done. apply Hlk. }
  apply map_eq. intros k. apply option_eq. intros r. rewrite <- elem_of_list_to_map by done.
  rewrite list_elem_of_fmap. unfold keyed. split.
  - intros (r' & [= -> ->] & Hin). apply All_elem in Hin as [id Hid]; [|done].
    rewrite (ro_id _ _ (ln_record _ Hlk _ _ Hid)). done.
  - intros Hk. exists r. split; [by rewrite (ro_id _ _ (ln_record _ Hlk _ _ Hk))|].
    apply All_elem; eauto.
Qed.

Lemma Decode_Encode s : linked s -> Decode (Encode s) = Ok s.
Proof.
  intros Hlk. unfold Decode, Encode. cbn [sn_Version sn_Records].
  change (SnapshotVersion =? 0) with false. rewrite Z.eqb_refl. cbn [negb].
  rewrite decode_records_ok.
  - rewrite keyed_All, All_IDs by done. cbn. rewrite (right_id_L ∅ (∪)). by destruct s.
  - intros r Hr. apply All_elem in Hr as [id Hid]; [|done]. apply (ln_record _ Hlk id r Hid).
  - rewrite All_IDs by done. apply Hlk.
  - intros r _. apply lookup_empty.
Qed.

(** *** What a supersession makes visible *)

Lemma link_superseded_other n t e s k :
  k <> n -> k <> t -> byID (link_superseded n t e s) !! k = byID s !! k.
Proof. intros. unfold link_superseded. rewrite !update_lookup, !decide_False; done. Qed.

Lemma link_corrected_other n t e s k :
  k <> n -> k <> t -> byID (link_corrected n t e s) !! k = byID s !! k.
Proof. intros. unfold link_corrected. rewrite !update_lookup, !decide_False; done. Qed.

Lemma link_superseded_newer n t e s :
  n <> t -> byID (link_superseded n t e s) !! n
  = (note e t ∘ with_lineage (push_Supersedes t)) <$> byID s !! n.
Proof.
  intros. unfold link_superseded. rewrite !update_lookup, !(decide_False (P := n = t)) by done.
  rewrite !decide_True by done. by destruct (byID s !! n).
Qed.

Lemma link_corrected_newer n t e s :
  n <> t -> byID (link_corrected n t e s) !! n
  = (note e t ∘ with_lineage (push_Corrects t)) <$> byID s !! n.
Proof.
  intros. unfold link_corrected. rewrite !update_lookup, !(decide_False (P := n = t)) by done.
  rewrite !decide_True by done. by destruct (byID s !! n).
Qed.

(** The records after a supersession: the target is superseded, the newer record is live, the rest
    are as they were. *)
Lemma supersede_effect n t a nt b s s' :
  supersede n t a nt b s = Ok s' ->
  order s' = order s ++ [ID n] /\ byID s !! ID n = None /\ is_Some (byID s !! t) /\
  (forall k, k <> ID n -> k <> t -> byID s' !! k = byID s !! k) /\
  (exists rt, byID s' !! t = Some rt /\ Superseded rt = true) /\
  (exists rn, byID s' !! ID n = Some rn /\ grows n rn /\ Superseded rn = false /\
     ConflictedBy (rLineage rn) = []).
Proof.
  intros (rt & s1 & Ht & Hv & _ & _ & _ & _ & Ha & ->)%supersede_ok. cbv zeta.
  assert (order s1 = order s ++ [ID n]) as Ho.
  { revert Ha. unfold admit_record. destruct (byID s !! ID n); [done|]. by intros [= <-]. }
  apply admit_record_lookup in Ha as [Hf HL]. assert (ID n <> t) as Hne by congruence.
  apply Validate_ok in Hv as (_ & Hl & _).
  assert (byID s1 !! ID n = Some n) as E1 by (rewrite HL, decide_True; done).
  assert (byID s1 !! t = Some rt) as E2 by (rewrite HL, decide_False; done).
  set (e := MkEntry LineageSuperseded _ _ _ _). set (e' := MkEntry LineageCorrected _ _ _ _).
  split_and!; [destruct b; done|done|eauto| | |].
  - intros k H1 H2. destruct b; [rewrite link_corrected_other by done|];
      rewrite link_superseded_other by done; rewrite HL, decide_False; done.
  - destruct (superseded_after (ID n) t e rt s1 E2) as (r' & F1 & F2). destruct b; [|eauto].
    destruct (ex_records _ _ (link_corrected_extends (ID n) t e' (link_superseded (ID n) t e s1)) _ _ F1)
      as (r2 & F3 & F4). exists r2. split; [done|]. eapply grows_superseded; eassumption.
  - assert (grows n ((note e t ∘ with_lineage (push_Supersedes t)) n)) as G
      by (cbn; etrans; [|apply grows_note]; apply grows_push_Supersedes).
    destruct b; [rewrite link_corrected_newer by done|]; rewrite link_superseded_newer, E1 by done;
      (eexists; split_and!; [reflexivity| |unfold Superseded; cbn; rewrite Hl; done|cbn; rewrite Hl; done]);
      [|exact G]. etrans; [exact G|]. cbn. etrans; [|apply grows_note]. apply grows_push_Corrects.
Qed.

(** Visibility of a record, by id. *)
Definition visible (s : RSet) (q : Scope) (id : RecordID) : bool :=
  match byID s !! id with Some r => applies s r q | None => false end.

Lemma Applicable_IDs s q : linked s -> ID <$> Applicable s q = List.filter (visible s q) (order s).
Proof.
  intros Hlk. unfold Applicable, All.
  assert (forall l : list RecordID, (forall k, k ∈ l -> k ∈ order s) ->
    ID <$> List.filter (fun r => applies s r q) (omap (fun id => byID s !! id) l)
    = List.filter (visible s q) l) as H; [|apply H; done].
  induction l as [|k l IH]; intros Hl; [done|]. cbn.
  destruct (proj1 (ln_dom _ Hlk k) (Hl k ltac:(constructor))) as [r E].
  unfold visible at 1. rewrite E. cbn. rewrite <- IH by (intros; apply Hl; by right).
  destruct (applies s r q); [|done]. cbn. by rewrite (ro_id _ _ (ln_record _ Hlk k r E)).
Qed.

Lemma blocked_same s s' r :
  (forall cid, cid ∈ ConflictedBy (rLineage r) -> is_Some (byID s !! cid)) ->
  extends s s' -> same_conflicts s s' -> blocked s' r = blocked s r.
Proof.
  unfold blocked. intros Hin [_ Hx] Hc. induction (ConflictedBy (rLineage r)) as [|cid l IH]; [done|].
  cbn. rewrite IH by (intros; apply Hin; by right). f_equal.
  destruct (Hin cid ltac:(constructor)) as [c E]. rewrite E. destruct (Hx _ _ E) as (c' & E' & G).
  rewrite E'. destruct (Hc _ _ E') as [(c0 & E0 & E1)|Hn].
  - rewrite <- E1. congruence.
  - rewrite Hn. destruct (gr_conflict _ _ G) as [<-|(x & rs & F1 & F2 & F3)]; [by rewrite Hn|].
    rewrite F3 in Hn. done.
Qed.

Lemma supersede_same n t a nt b s s' : supersede n t a nt b s = Ok s' -> same_conflicts s s'.
Proof.
  intros (rt & s1 & _ & Hv & _ & _ & _ & _ & Ha & ->)%supersede_ok. cbv zeta.
  apply Validate_ok in Hv as (_ & _ & Hc).
  assert (same_conflicts s s1) as H by (eapply admit_same; [exact Ha|]; by rewrite Hc).
  etrans; [exact H|]. destruct b; [etrans; [|apply link_corrected_same]|]; apply link_superseded_same.
Qed.

Lemma supersede_visible n t a nt b s s' q k :
  inv s -> supersede n t a nt b s = Ok s' -> k ∈ order s ->
  visible s' q k = visible s q k && negb (bool_decide (k = t)).
Proof.
  intros [Hlk _] H Hk. pose proof (supersede_effect _ _ _ _ _ _ _ H) as (Ho & Hf & Ht & Hother & (rt & T1 & T2) & _).
  apply (ln_dom _ Hlk) in Hk as [r Hr]. unfold visible. case_bool_decide as Hkt.
  - subst k. rewrite T1, andb_false_r. unfold applies. rewrite T2, orb_true_r. by destruct (_ || _).
  - rewrite Hother, Hr, andb_true_r by congruence. unfold applies.
    rewrite (blocked_same s s' r); [done| |eapply supersede_extends, H|eapply supersede_same, H].
    intros cid Hc. destruct (ln_confby _ Hlk k r cid Hr Hc) as (rc & ? & _). eauto.
Qed.

Lemma supersede_visible_new n t a nt b s s' q :
  inv s -> supersede n t a nt b s = Ok s' -> visible s' q (ID n) = AppliesTo (rScope n) q.
Proof.
  intros Hi H. pose proof (inv_supersede _ _ _ _ _ _ _ Hi H) as [Hlk' _].
  pose proof (supersede_effect _ _ _ _ _ _ _ H) as (_ & _ & _ & _ & _ & rn & N1 & N2 & N3 & N4).
  unfold visible. rewrite N1. unfold applies, blocked. rewrite N3, N4. cbn.
  pose proof (ln_record _ Hlk' _ _ N1) as [_ (_ & _ & -> & _ & _ & -> & _) _ _].
  destruct (grows_auth _ _ N2) as (-> & -> & _). cbn.
  apply supersede_ok in H as (? & ? & _ & Hv & _). revert Hv. unfold Validate.
  by case_bool_decide; [|rewrite bool_decide_false].
Qed.

Definition superseded_by (s : RSet) (a b : RecordID) : Prop :=
  exists r, byID s !! a = Some r /\ b ∈ SupersededBy (rLineage r).

(** ** Demonstration records *)

Definition demo (id auth : string) : SRecord :=
  MkSRecord 1 (str id) (str auth) (MkScope (str "w") []) (str "claim")
    (MkDependencies [] (str "unknown") []) zeroValidity [str "src"] (str "t1") (str "h1")
    emptyLineage None 0.

Definition demo_scope : Scope := MkScope (str "w") (str "s").

(** Two observations, a conflict between them, and the correction that settles it. *)
Definition demo_ops : list op :=
  [OpAdd (demo "a" "tool_observation"); OpAdd (demo "b" "tool_observation");
   OpConflict (demo "c" "conflict") [str "a"; str "b"] (str "disagree") 3].

Definition built (ops : list op) : RSet :=
  match run ops NewSet with Ok s => s | _ => NewSet end.

Lemma built_reachable ops : reachable (built ops).
Proof. unfold built. destruct (run_ok ops NewSet reach_new) as (s & E & _ & H). rewrite E. done. Qed.

Definition demo_set : RSet := built demo_ops.

Lemma demo_reachable : reachable demo_set.
Proof. apply built_reachable. Qed.

Definition ids (l : list SRecord) : list RecordID := ID <$> l.

Example demo_blocked : ids (Applicable demo_set demo_scope) = [] /\ ids (Conflicts demo_set demo_scope) = [str "c"].
Proof. vm_compute. done. Qed.

(** ** Claims *)

(** C30: every set a caller can build is well formed: ids are unique and agree with the admission
    order, every record's content passed validation, supersession, correction and conflict links are
    recorded on both sides, a record has at most one superseder and one its authority and scope allow,
    resolutions name an authoritative record of the set, and every party of a resolved conflict is the
    winner or superseded. *)
Theorem reachable_well_formed s : reachable s -> inv s.
Proof. apply reachable_inv. Qed.

Lemma reachable_well_formed_witness : inv demo_set.
Proof. apply (reachable_well_formed demo_set demo_reachable). Defined.

(** C31: from any reachable set, any sequence of operations runs without a panic and only appends:
    the admission order is extended, every record stays, what its producer said is unchanged, its
    lineage only grows, and at most an open conflict gains its resolution. *)
Theorem operations_append_only ops s :
  reachable s -> exists s', run ops s = Ok s' /\ extends s s' /\ reachable s'.
Proof. apply run_ok. Qed.

Lemma operations_append_only_witness :
  exists s', run [OpAdd (demo "d" "user_correction"); OpResolve (str "c") (str "d") 4 []] demo_set = Ok s' /\
    extends demo_set s' /\ reachable s'.
Proof. apply (operations_append_only _ demo_set demo_reachable). Defined.

(** Along any chain of supersessions the authority rank never falls, an authoritative record is
    only ever replaced by an authoritative one, and the scope stays the same. *)
Theorem supersession_never_demotes s a b ra rb :
  reachable s -> rtc (superseded_by s) a b -> byID s !! a = Some ra -> byID s !! b = Some rb ->
  authorityRank (Authority ra) <= authorityRank (Authority rb) /\
  (Authoritative (Authority ra) = true -> Authoritative (Authority rb) = true) /\
  rScope rb = rScope ra.
Proof.
  intros [Hlk _]%reachable_inv Hch. revert ra. induction Hch as [x|x y z [rx [Hx Hy]] _ IH]; intros ra Ha Hb.
  { assert (ra = rb) as -> by congruence. split_and!; [lia|done|done]. }
  assert (rx = ra) as -> by congruence.
  destruct (ln_supby _ Hlk x ra y Ha Hy) as (ry & Hry & _ & HQ & Hsc).
  destruct (IH ry Hry Hb) as (R1 & R2 & R3), (CanSupersede_rank _ _ HQ) as [C1 C2].
  split_and!; [lia|auto|congruence].
Qed.

Definition demo_replaced : RSet :=
  built [OpAdd (demo "a" "hypothesis"); OpSupersede (demo "b" "tool_observation") (str "a") 2 []].

Lemma supersession_never_demotes_witness :
  exists ra rb, rtc (superseded_by demo_replaced) (str "a") (str "b") /\
    byID demo_replaced !! str "a" = Some ra /\ byID demo_replaced !! str "b" = Some rb /\
    authorityRank (Authority ra) <= authorityRank (Authority rb).
Proof.
  assert (exists ra rb, byID demo_replaced !! str "a" = Some ra /\ byID demo_replaced !! str "b" = Some rb /\
    SupersededBy (rLineage ra) = [str "b"]) as (ra & rb & Ha & Hb & Hl).
  { do 2 eexists. split_and!; [vm_compute; reflexivity|vm_compute; reflexivity|reflexivity]. }
  assert (rtc (superseded_by demo_replaced) (str "a") (str "b")) as Hch.
  { apply rtc_once. exists ra. split; [exact Ha|]. rewrite Hl. apply list_elem_of_singleton. reflexivity. }
  exists ra, rb. split_and!; [exact Hch|exact Ha|exact Hb|].
  exact (proj1 (supersession_never_demotes demo_replaced _ _ ra rb (built_reachable _) Hch Ha Hb)).
Defined.

(** [Applicable] returns exactly the records of the set that are not conflict markers, not
    superseded, whose scope applies to the query, and whose every conflict is resolved. *)
Theorem applicable_exact s q r :
  reachable s ->
  r ∈ Applicable s q <->
  exists id, byID s !! id = Some r /\ Authority r <> AuthorityConflict /\ Superseded r = false /\
    AppliesTo (rScope r) q = true /\
    forall cid rc c, byID s !! cid = Some rc -> rConflict rc = Some c -> id ∈ Parties c ->
      Resolved (Some c) = true.
Proof. intros [Hlk _]%reachable_inv. apply Applicable_elem, Hlk. Qed.

Definition demo_one : RSet := built [OpAdd (demo "a" "tool_observation")].

Lemma applicable_exact_witness :
  exists id, byID demo_one !! id = Some (demo "a" "tool_observation") /\
    Superseded (demo "a" "tool_observation") = false.
Proof.
  assert (demo "a" "tool_observation" ∈ Applicable demo_one demo_scope) as Hin.
  { apply list_elem_of_In. vm_compute. left. reflexivity. }
  destruct (proj1 (applicable_exact demo_one demo_scope _ (built_reachable _)) Hin) as (id & H1 & _ & H2 & _).
  exists id. split; [exact H1|exact H2].
Defined.

(** A conflict is never settled silently: while it is open [Conflicts] reports it to every query
    in its scope and none of its parties is applicable; once resolved, a party that is applicable is
    the one the resolution names, and that record is authoritative. *)
Theorem conflict_withheld_until_resolved s cid rc c p rp q :
  reachable s -> byID s !! cid = Some rc -> rConflict rc = Some c ->
  p ∈ Parties c -> byID s !! p = Some rp ->
  (cf_Resolution c = None ->
     (AppliesTo (rScope rc) q = true -> rc ∈ Conflicts s q) /\ rp ∉ Applicable s q) /\
  (rp ∈ Applicable s q ->
     exists rs, cf_Resolution c = Some rs /\ By rs = p /\ Authoritative (Authority rp) = true).
Proof.
  intros [Hlk Hst]%reachable_inv Hc Hcf Hp Hrp.
  assert (rp ∈ Applicable s q -> Superseded rp = false /\ Resolved (Some c) = true) as Happ.
  { intros (id & Hid & _ & Hs & _ & Hres)%Applicable_elem; [|done]. split; [done|].
    apply (Hres cid rc c Hc Hcf). assert (id = p) as ->; [|done].
    rewrite <- (ro_id _ _ (ln_record _ Hlk _ _ Hid)). apply (ro_id _ _ (ln_record _ Hlk _ _ Hrp)). }
  split.
  - intros Hno. split.
    + intros Hap. apply Conflicts_elem; [done|]. split_and!; [eauto| |done].
      pose proof (ro_conflict _ _ (ln_record _ Hlk _ _ Hc)) as Hro. rewrite Hcf in Hro.
      unfold is_open_conflict. rewrite bool_decide_true by apply Hro. rewrite Hcf.
      destruct c. cbn in *. by subst.
    + intros [_ Hr]%Happ. destruct c. cbn in *. by subst.
  - intros [Hs Hr]%Happ. destruct (cf_Resolution c) as [rs|] eqn:Ers; [|destruct c; cbn in *; by subst].
    exists rs. split; [done|]. destruct (Hst cid rc c rs p Hc Hcf Ers Hp) as [->|(r1 & E1 & E2)]; [|congruence].
    split; [done|]. destruct (ln_resolution _ Hlk cid rc c rs Hc Hcf Ers) as (A1 & w & W1 & W2). congruence.
Qed.

Lemma conflict_withheld_until_resolved_witness :
  exists rc rp, byID demo_set !! str "c" = Some rc /\ byID demo_set !! str "a" = Some rp /\
    rc ∈ Conflicts demo_set demo_scope /\ rp ∉ Applicable demo_set demo_scope.
Proof.
  assert (exists rc c rp, byID demo_set !! str "c" = Some rc /\ rConflict rc = Some c /\
    str "a" ∈ Parties c /\ byID demo_set !! str "a" = Some rp /\ cf_Resolution c = None /\
    AppliesTo (rScope rc) demo_scope = true) as (rc & c & rp & H1 & H2 & H3 & H4 & H5 & H6).
  { do 3 eexists. split_and!; [vm_compute; reflexivity|reflexivity| |vm_compute; reflexivity|reflexivity|reflexivity].
    apply list_elem_of_In. vm_compute. left. reflexivity. }
  exists rc, rp. split; [exact H1|]. split; [exact H4|].
  destruct (conflict_withheld_until_resolved demo_set _ rc c _ rp demo_scope demo_reachable H1 H2 H3 H4) as [Ho _].
  destruct (Ho H5) as [Ha Hb]. split; [exact (Ha H6)|exact Hb].
Defined.

(** A supersession (or correction) that goes through changes what a query sees in exactly one
    way: the target disappears, the newer record appears last if its scope applies, and every other
    record keeps its place and its visibility. *)
Theorem supersede_replaces_in_view newer target at_ nt correcting s s' q :
  reachable s -> supersede newer target at_ nt correcting s = Ok s' ->
  ID <$> Applicable s' q
  = List.filter (fun id => negb (bool_decide (id = target))) (ID <$> Applicable s q) ++
    (if AppliesTo (rScope newer) q then [ID newer] else []).
Proof.
  intros Hi%reachable_inv H. pose proof (inv_supersede _ _ _ _ _ _ _ Hi H) as [Hlk' _].
  rewrite !Applicable_IDs by (done || apply Hi).
  pose proof (supersede_effect _ _ _ _ _ _ _ H) as (Ho & _). rewrite Ho, List.filter_app. f_equal.
  - assert (forall l : list RecordID, (forall k, k ∈ l -> k ∈ order s) ->
      List.filter (visible s' q) l
      = List.filter (fun id => negb (bool_decide (id = target))) (List.filter (visible s q) l)) as Hf;
      [|apply Hf; done].
    induction l as [|k l IH]; intros Hl; [done|]. cbn.
    rewrite (supersede_visible _ _ _ _ _ _ _ q k Hi H (Hl k ltac:(constructor))).
    rewrite IH by (intros; apply Hl; by right). destruct (visible s q k); [|done]. cbn.
    by destruct (bool_decide (k = target)).
  - cbn. rewrite (supersede_visible_new _ _ _ _ _ _ _ q Hi H). by destruct (AppliesTo _ _).
Qed.

Lemma supersede_replaces_in_view_witness :
  exists s', supersede (demo "b" "user_correction") (str "a") 2 [] true demo_one = Ok s' /\
    ID <$> Applicable s' demo_scope = [str "b"].
Proof.
  destruct (supersede (demo "b" "user_correction") (str "a") 2 [] true demo_one) as [s'| |] eqn:E;
    [|exfalso; revert E; vm_compute; discriminate..].
  exists s'. split; [reflexivity|].
  rewrite (supersede_replaces_in_view _ _ _ _ _ demo_one s' demo_scope (built_reachable _) E).
  vm_compute. reflexivity.
Defined.

(** The snapshot of a reachable set decodes to the same set: records, links, history, conflicts
    and admission order. *)
Theorem snapshot_roundtrip s : reachable s -> Decode (Encode s) = Ok s.
Proof. intros [Hlk _]%reachable_inv. apply Decode_Encode, Hlk. Qed.

Lemma snapshot_roundtrip_witness : Decode (Encode demo_set) = Ok demo_set.
Proof. apply (snapshot_roundtrip demo_set demo_reachable). Defined.

(** Supersession is not acyclic: [Resolve] does not ask whether the record it makes the winner
    has itself been superseded, so a set can be built in which two records supersede each other and
    neither is visible. *)
Theorem resolve_admits_supersession_cycle :
  exists s, reachable s /\ superseded_by s (str "w") (str "p") /\ superseded_by s (str "p") (str "w") /\
    ID <$> Applicable s demo_scope = [].
Proof.
  exists (built
    [OpAdd (demo "w" "user_correction"); OpSupersede (demo "p" "user_correction") (str "w") 2 [];
     OpAdd (demo "q" "tool_observation"); OpConflict (demo "c" "conflict") [str "p"; str "q"] [] 3;
     OpResolve (str "c") (str "w") 4 []]).
  split; [apply built_reachable|].
  split_and!; [| |vm_compute; reflexivity]; (eexists; split; [vm_compute; reflexivity|]);
    apply list_elem_of_In; left; reflexivity.
Qed.

(** [Decode] does not check that a conflict's parties are in the snapshot, and [Resolve] then
    dereferences a missing record: on a decoded set an operation can panic, which C11 excludes for
    the sets the operations build. *)
Theorem decoded_set_can_panic :
  exists snap s, Decode snap = Ok s /\ Resolve (str "c") (str "w") 4 [] s = Panic.
Proof.
  set (snap := MkSnapshot 1
    [with_conflict (Some (MkConflict [str "x"; str "y"] [] None)) (demo "c" "conflict");
     demo "w" "user_correction"]).
  assert (match Decode snap with Ok s => Resolve (str "c") (str "w") 4 [] s = Panic | _ => False end) as H
    by (vm_compute; reflexivity).
  exists snap. destruct (Decode snap) as [s| |]; [|done|done]. exists s. done.
Qed.
