(* ===== verification/Frame.v ===== *)
(** * [internal/sketch]: the QPKS frame

    The self-describing, checksummed frame every persisted sketch is wrapped in ([header.go]), the
    numeric helpers of the package ([util.go], [hash.go]) and its error sentinels ([errors.go]).
    The decoder is modelled with checked indexing: an out-of-range index or slice is a [Panic]. *)

From stdpp Require Import sorting.
From S2P Require Import Prelude GoLib Core.

(** ** Sentinels and ceilings ([errors.go]) *)

Inductive sketch_error :=
  | ErrBadMagic | ErrUnsupportedVersion | ErrKindMismatch | ErrCorrupt | ErrTruncated
  | ErrMalformed | ErrShapeMismatch | ErrTooLarge | ErrGenerational.

#[global] Instance sketch_error_eq_dec : EqDecision sketch_error.
Proof. solve_decision. Defined.

Definition MaxFrameBytes : Z := 64 * 2 ^ 20.
Definition MaxBloomCapacity : Z := 2 ^ 24.
Definition MaxBloomBits : Z := 2 ^ 28.
Definition MaxCMSCells : Z := 2 ^ 23.
Definition MaxCMSDepth : Z := 64.
Definition MaxHLLRegisters : Z := 65536.
Definition MinHLLRegisters : Z := 64.
Definition MaxMGCounters : Z := 2 ^ 20.
Definition MaxMGKeyBytes : Z := 8192.

(** ** Helpers ([util.go], [hash.go]) *)

Definition clampInt (v lo hi : Z) : Z := if v <? lo then lo else if v >? hi then hi else v.

Definition clamp (v lo hi : Z) : Z :=
  if F64.isNaN v then lo else if F64.lt v lo then lo else if F64.gt v hi then hi else v.

Definition satAdd64 (a b : Z) : Z := if a >? MaxUint64 - b then MaxUint64 else a + b.

Definition domainBloom : bytes := str "qompack.sketch.bloom.v1".
Definition domainCMS : bytes := str "qompack.sketch.cms.v1".
Definition domainHLL : bytes := str "qompack.sketch.hll.v1".

(** Two words of one domain-separated digest; the second is forced odd. *)
Definition hash128 (domain key : bytes) : Z * Z :=
  let sum := HashBytes domain key in
  (le_get (slice sum 0 8), Z.lor (le_get (slice sum 8 16)) 1).

(** ** Header ([header.go]) *)

Definition magicLen : nat := 4.
Definition headerPrefixLen : nat := 32.
Definition crcLen : nat := 4.
Definition minFrameLen : nat := headerPrefixLen + crcLen.
Definition paramValueLen : nat := 8.
Definition maxParams : Z := 64.
Definition maxParamNameLen : Z := 32.

Definition offVer : nat := 4.
Definition offKind : nat := 6.
Definition offReserved : nat := 7.
Definition offCount : nat := 8.
Definition offCreated : nat := 16.
Definition offParamCount : nat := 24.
Definition offBodyLen : nat := 28.

Definition FormatVersion : Z := 1.

Definition KindBloom : Z := 1.
Definition KindCMS : Z := 2.
Definition KindHLL : Z := 3.
Definition KindMisraGries : Z := 4.
Definition KindMinHash : Z := 5.

Definition Kind_Valid (k : Z) : bool := (k >=? KindBloom) && (k <=? KindMinHash).

Definition HeaderMagic : bytes := str "QPKS".

(** [Params] maps a name to a float64, held as its bit pattern; Go's nil map is the empty one. *)
Record Header := MkHeader {
  Magic : bytes;
  Ver : Z;
  hKind : Z;
  Params : gmap bytes Z;
  Count : Z;
  Created : Z;
  CRC32C : Z
}.

(** [int64(u)] of a 64-bit pattern. *)
Definition s64 (z : Z) : Z := let u := u64 z in if u <? 2 ^ 63 then u else u - 2 ^ 64.

Definition paramByteOK (c : byte) : bool :=
  let c := b2z c in
  ((c >=? 97) && (c <=? 122)) || ((c >=? 48) && (c <=? 57)) || (c =? 46).

Definition paramNameOK (name : bytes) : bool :=
  if bool_decide (name = []) || (Z.of_nat (length name) >? maxParamNameLen) then false
  else forallb paramByteOK name.

#[global] Instance bytes_le_dec : RelDecision bytes_le.
Proof. intros a b. unfold bytes_le. solve_decision. Defined.
#[global] Instance bytes_lt_dec : RelDecision bytes_lt.
Proof. intros a b. unfold bytes_lt. solve_decision. Defined.

(** [slices.Sort] of the names of the map. *)
Definition sorted_names (m : gmap bytes Z) : list bytes := merge_sort bytes_le (map_to_list m).*1.

Definition encode_param (name : bytes) (v : Z) : bytes :=
  [z2b (Z.of_nat (length name))] ++ name ++ le_put 8 v.

Definition encode_params (ps : list (bytes * Z)) : bytes :=
  concat (map (fun p => encode_param p.1 p.2) ps).

Definition named_params (m : gmap bytes Z) : list (bytes * Z) :=
  omap (fun name => pair name <$> m !! name) (sorted_names m).

Definition header_prefix (h : Header) (nparams bodyLen : nat) : bytes :=
  HeaderMagic ++ le_put 2 (Ver h) ++ [z2b (hKind h)] ++ [x00] ++ le_put 8 (Count h) ++
  le_put 8 (u64 (Created h)) ++ le_put 4 (Z.of_nat nparams) ++ le_put 4 (Z.of_nat bodyLen).

Definition EncodeHeader (h : Header) (body : bytes) : outcome sketch_error bytes :=
  if Z.of_nat (size (Params h)) >? maxParams then Err ErrMalformed
  else if Z.of_nat (length body) >? MaxFrameBytes then Err ErrTooLarge
  else if negb (forallb paramNameOK (map_to_list (Params h)).*1) then Err ErrMalformed
  else
    let ps := named_params (Params h) in
    let total := (headerPrefixLen + length (encode_params ps) + length body + crcLen)%nat in
    if Z.of_nat total >? MaxFrameBytes then Err ErrTooLarge
    else
      let frame := header_prefix h (length ps) (length body) ++ encode_params ps ++ body in
      Ok (frame ++ le_put 4 (Crc32c.checksum frame)).

Open Scope go_scope.

(** Pass 1 over the params block, by index: [n] entries left of [i + n]. *)
Fixpoint walk_params (b : bytes) (limit i n prevStart prevEnd off : nat) : outcome sketch_error nat :=
  match n with
  | O => Ok off
  | S n =>
      if (limit <=? off)%nat then Err ErrTruncated
      else
        let! nb := get_at b off in
        let nameLen := Z.to_nat (b2z nb) in
        if (nameLen =? 0)%nat || (Z.of_nat nameLen >? maxParamNameLen) then Err ErrMalformed
        else if (limit <? off + 1 + nameLen + paramValueLen)%nat then Err ErrTruncated
        else
          let nameStart := (off + 1)%nat in
          let nameEnd := (nameStart + nameLen)%nat in
          let! name := get_sub b nameStart nameEnd in
          if negb (forallb paramByteOK name) then Err ErrMalformed
          else
            let! prev := get_sub b prevStart prevEnd in
            if (0 <? i)%nat && negb (bool_decide (bytes_lt prev name)) then Err ErrMalformed
            else walk_params b limit (S i) n nameStart nameEnd (nameEnd + paramValueLen)
  end.

(** Pass 2: the same entries, into the map. *)
Fixpoint fill_params (b : bytes) (n p : nat) (m : gmap bytes Z) : outcome sketch_error (gmap bytes Z) :=
  match n with
  | O => Ok m
  | S n =>
      let! nb := get_at b p in
      let nameStart := (p + 1)%nat in
      let nameEnd := (nameStart + Z.to_nat (b2z nb))%nat in
      let! name := get_sub b nameStart nameEnd in
      let! v := get_sub b nameEnd (nameEnd + paramValueLen) in
      fill_params b n (nameEnd + paramValueLen) (<[name := le_get v]> m)
  end.

Definition DecodeHeader (b : bytes) : outcome sketch_error (Header * bytes) :=
  if (length b <? minFrameLen)%nat then Err ErrTruncated
  else if Z.of_nat (length b) >? MaxFrameBytes then Err ErrTooLarge
  else
    let! magic := get_sub b 0 magicLen in
    if negb (bool_decide (magic = HeaderMagic)) then Err ErrBadMagic
    else
      let! vb := get_sub b offVer offKind in
      let ver := le_get vb in
      if (ver =? 0) || (ver >? FormatVersion) then Err ErrUnsupportedVersion
      else
        let! kb := get_at b offKind in
        let kind := b2z kb in
        if negb (Kind_Valid kind) then Err ErrMalformed
        else
          let! pcb := get_sub b offParamCount offBodyLen in
          let paramCount := le_get pcb in
          if paramCount >? maxParams then Err ErrMalformed
          else
            let limit := (length b - crcLen)%nat in
            let! off := walk_params b limit 0 (Z.to_nat paramCount) 0 0 headerPrefixLen in
            let paramBytes := (off - headerPrefixLen)%nat in
            let! blb := get_sub b offBodyLen headerPrefixLen in
            let bodyLen := le_get blb in
            if bodyLen >? MaxFrameBytes then Err ErrTooLarge
            else if negb (Z.of_nat (headerPrefixLen + paramBytes) + bodyLen =? Z.of_nat limit)
            then Err ErrTruncated
            else
              let! cb := get_sub b limit (length b) in
              let stored := le_get cb in
              let! covered := get_sub b 0 limit in
              if negb (Crc32c.checksum covered =? stored) then Err ErrCorrupt
              else
                let! countb := get_sub b offCount offCreated in
                let! createdb := get_sub b offCreated offParamCount in
                let! params := fill_params b (Z.to_nat paramCount) headerPrefixLen ∅ in
                let! body := get_sub b off (off + Z.to_nat bodyLen) in
                Ok (MkHeader HeaderMagic ver kind params (le_get countb) (s64 (le_get createdb)) stored, body).

Definition Param (h : Header) (name : bytes) : option Z := Params h !! name.

Definition MustParamInt (h : Header) (name : bytes) (lo hi : Z) : outcome sketch_error Z :=
  match Params h !! name with
  | None => Err ErrMalformed
  | Some v =>
      if F64.isNaN v || negb (F64.isIntegral v) then Err ErrMalformed
      else if F64.lt_int v lo || F64.gt_int v hi then Err ErrMalformed
      else Ok (F64.to_int v)
  end.

(** ** Bytewise order *)

Lemma bytes_compare_refl a : bytes_compare a a = Eq.
Proof. induction a as [|x a IH]; cbn; [done|]. rewrite Z.compare_refl. done. Qed.

Lemma bytes_compare_eq a b : bytes_compare a b = Eq -> a = b.
Proof.
  revert b. induction a as [|x a IH]; intros [|y b]; cbn; try done.
  destruct (Z.compare_spec (b2z x) (b2z y)) as [E|E|E]; [|done|done].
  apply b2z_inj in E as ->. intros H. f_equal. auto.
Qed.

Lemma bytes_compare_antisym a b : bytes_compare b a = CompOpp (bytes_compare a b).
Proof.
  revert b. induction a as [|x a IH]; intros [|y b]; cbn; try done.
  rewrite Z.compare_antisym. destruct (b2z x ?= b2z y); cbn; [apply IH|done|done].
Qed.

Lemma bytes_lt_trans a b c : bytes_lt a b -> bytes_lt b c -> bytes_lt a c.
Proof.
  unfold bytes_lt. revert b c. induction a as [|x a IH]; intros [|y b] [|z c]; cbn; try done.
  destruct (Z.compare_spec (b2z x) (b2z y)), (Z.compare_spec (b2z y) (b2z z)); intros H1 H2; try done.
  - rewrite (proj2 (Z.compare_eq_iff (b2z x) (b2z z))) by lia. eauto.
  - rewrite (proj2 (Z.compare_lt_iff (b2z x) (b2z z))) by lia. done.
  - rewrite (proj2 (Z.compare_lt_iff (b2z x) (b2z z))) by lia. done.
  - rewrite (proj2 (Z.compare_lt_iff (b2z x) (b2z z))) by lia. done.
Qed.

Lemma bytes_lt_irrefl a : ~ bytes_lt a a.
Proof. unfold bytes_lt. rewrite bytes_compare_refl. done. Qed.

Lemma bytes_le_lt a b : bytes_le a b <-> a = b \/ bytes_lt a b.
Proof.
  unfold bytes_le, bytes_lt. split.
  - destruct (bytes_compare a b) eqn:E; [left; by apply bytes_compare_eq|auto|done].
  - intros [->|E]; [rewrite bytes_compare_refl; done|rewrite E; done].
Qed.

#[global] Instance bytes_lt_transitive : Transitive bytes_lt.
Proof. intros a b c. apply bytes_lt_trans. Qed.

#[global] Instance bytes_le_transitive : Transitive bytes_le.
Proof.
  intros a b c. rewrite !bytes_le_lt. intros [->|H1] [->|H2]; auto. right. etrans; eassumption.
Qed.

#[global] Instance bytes_le_total : Total bytes_le.
Proof.
  intros a b. unfold bytes_le. rewrite (bytes_compare_antisym a b).
  destruct (bytes_compare a b); cbn; auto.
Qed.

#[global] Instance bytes_le_antisymm : AntiSymm (=) bytes_le.
Proof.
  intros a b. rewrite !bytes_le_lt. intros [->|H1] [|H2]; try done.
  exfalso. eapply bytes_lt_irrefl. etrans; eassumption.
Qed.

(** The names of a map in ascending order, and nothing else. *)
Definition ascending (l : list bytes) : Prop := StronglySorted bytes_lt l.

Lemma ascending_NoDup l : ascending l -> NoDup l.
Proof.
  induction 1 as [|x l _ IH Hx]; constructor; [|done]. intros Hin. rewrite Forall_forall in Hx.
  eapply bytes_lt_irrefl, Hx, Hin.
Qed.

Lemma ascending_le l : ascending l -> StronglySorted bytes_le l.
Proof.
  induction 1 as [|x l _ IH Hx]; constructor; [done|]. eapply Forall_impl; [exact Hx|].
  intros y Hy. apply bytes_le_lt. auto.
Qed.

Lemma le_NoDup_ascending l : StronglySorted bytes_le l -> NoDup l -> ascending l.
Proof.
  induction 1 as [|x l _ IH Hx]; intros Hnd; constructor; apply NoDup_cons in Hnd as [Hni Hnd]; auto.
  - apply IH, Hnd.
  - rewrite Forall_forall in *. intros y Hy. specialize (Hx y Hy). apply bytes_le_lt in Hx as [->|]; done.
Qed.

Lemma sorted_names_perm m : sorted_names m ≡ₚ (map_to_list m).*1.
Proof. apply merge_sort_Permutation. Qed.

Lemma sorted_names_ascending m : ascending (sorted_names m).
Proof.
  apply le_NoDup_ascending.
  - apply StronglySorted_merge_sort; apply _.
  - rewrite sorted_names_perm. apply NoDup_fst_map_to_list.
Qed.

Lemma sorted_names_unique m l :
  ascending l -> (forall x, x ∈ l <-> is_Some (m !! x)) -> sorted_names m = l.
Proof.
  intros Hl Hx. apply (StronglySorted_unique bytes_le).
  - apply ascending_le, sorted_names_ascending.
  - apply ascending_le, Hl.
  - apply NoDup_Permutation.
    + apply ascending_NoDup, sorted_names_ascending.
    + apply ascending_NoDup, Hl.
    + intros x. rewrite sorted_names_perm, Hx, list_elem_of_fmap. split.
      * intros ([k v] & -> & Hin). apply elem_of_map_to_list in Hin. cbn. eauto.
      * intros [v Hv]. exists (x, v). split; [done|]. apply elem_of_map_to_list. done.
Qed.

(** ** The params block *)

Definition params_ok (ps : list (bytes * Z)) : Prop :=
  Forall (fun p => paramNameOK p.1 = true /\ 0 <= p.2 < 2 ^ 64) ps.

Lemma paramNameOK_spec name :
  paramNameOK name = true <-> (1 <= length name <= 32)%nat /\ forallb paramByteOK name = true.
Proof.
  unfold paramNameOK, maxParamNameLen. case_bool_decide as Hn; cbn [orb].
  - subst. cbn. split; [done|lia].
  - assert (0 < length name)%nat by (destruct name; [done|cbn; lia]).
    destruct (Z.of_nat (length name) >? 32) eqn:E; bsolve; (split; [|intros [? ?]]); try done; try lia.
    intros H1. split; [lia|done].
Qed.

Lemma encode_param_length name v : length (encode_param name v) = (9 + length name)%nat.
Proof. unfold encode_param. rewrite !length_app, le_put_length. cbn. lia. Qed.

(** The name of an entry that passed the order check extends the ascending list. *)
Lemma ascending_prev (i : nat) prev name l :
  (0 <? i)%nat && negb (bool_decide (bytes_lt prev name)) = false -> ascending (name :: l) ->
  ascending (if (0 <? i)%nat then prev :: name :: l else name :: l).
Proof.
  intros E K. destruct (0 <? i)%nat; [|exact K]. cbn in E. bsolve. apply bool_decide_eq_true in E.
  constructor; [exact K|]. constructor; [done|]. apply StronglySorted_inv in K as [_ K].
  eapply Forall_impl; [exact K|]. intros y Hy. etrans; eassumption.
Qed.

(** A bounded slice of a buffer, read as an integer and written back. *)
Lemma le_put_slice (b : bytes) lo n : (lo + n <= length b)%nat -> le_put n (le_get (slice b lo (lo + n))) = slice b lo (lo + n).
Proof.
  intros H. pose proof (le_put_get (slice b lo (lo + n))) as X. rewrite slice_length in X by lia.
  replace (lo + n - lo)%nat with n in X by lia. exact X.
Qed.

(** One entry of the params block, as its bytes. *)
Lemma param_layout (b : bytes) off nb :
  let nameLen := Z.to_nat (b2z nb) in
  b !! off = Some nb -> (off + 1 + nameLen + 8 <= length b)%nat ->
  drop off b = encode_param (slice b (off + 1) (off + 1 + nameLen))
      (le_get (slice b (off + 1 + nameLen) (off + 1 + nameLen + 8))) ++ drop (off + 1 + nameLen + 8) b.
Proof.
  intros nameLen Hb Hl. unfold encode_param. rewrite le_put_slice by lia.
  rewrite slice_length by lia. replace (off + 1 + nameLen - (off + 1))%nat with nameLen by lia.
  unfold nameLen at 1. pose proof (b2z_range nb). rewrite Z2Nat.id, z2b_b2z by lia.
  rewrite (drop_S b nb off Hb). cbn [app]. f_equal. replace (S off) with (off + 1)%nat by lia.
  rewrite <- !app_assoc, <- drop_slice, <- drop_slice by lia. done.
Qed.

Lemma walk_params_spec b limit n i prevStart prevEnd prev off :
  (limit <= length b)%nat -> (off <= limit)%nat -> get_sub (E:=sketch_error) b prevStart prevEnd = Ok prev ->
  match walk_params b limit i n prevStart prevEnd off with
  | Ok off' => exists ps, length ps = n /\ params_ok ps /\
      ascending (if (0 <? i)%nat then prev :: ps.*1 else ps.*1) /\
      drop off b = encode_params ps ++ drop off' b /\
      off' = (off + length (encode_params ps))%nat /\ (off' <= limit)%nat
  | Err _ => True
  | Panic => False
  end.
Proof.
  intros Hlim. revert i prevStart prevEnd prev off.
  induction n as [|n IH]; intros i pS pE prev off Hoff Hprev; cbn [walk_params].
  { exists []. split_and!; [done|constructor|case_match; repeat constructor|done|cbn; lia|done]. }
  destruct (limit <=? off)%nat eqn:E0; bsolve; [done|].
  destruct (lookup_lt_is_Some_2 b off ltac:(lia)) as [nb Hnb]. unfold get_at. rewrite Hnb. cbn [obind].
  set (nameLen := Z.to_nat (b2z nb)). pose proof (b2z_range nb).
  destruct ((nameLen =? 0)%nat || _) eqn:E1; [done|]. bsolve. unfold maxParamNameLen, paramValueLen in *.
  destruct (limit <? _)%nat eqn:E2; bsolve; [done|].
  rewrite get_sub_in by lia. cbn [obind]. set (name := slice b (off + 1) (off + 1 + nameLen)).
  assert (length name = nameLen) as Hlen by (unfold name; rewrite slice_length; lia).
  destruct (forallb paramByteOK name) eqn:E3; [|done]. cbn [negb]. rewrite Hprev. cbn [obind].
  destruct ((0 <? i)%nat && _) eqn:E4; [done|].
  specialize (IH (S i) (off + 1)%nat (off + 1 + nameLen)%nat name (off + 1 + nameLen + 8)%nat).
  destruct (walk_params _ _ _ _ _ _ _) as [off'| |]; [|done|].
  2: { apply IH; [lia|]. rewrite get_sub_in by lia. done. }
  destruct IH as (ps & K1 & K2 & K3 & K4 & K5 & K6); [lia|rewrite get_sub_in by lia; done|].
  set (vb := slice b (off + 1 + nameLen) (off + 1 + nameLen + 8)).
  assert (length vb = 8%nat) as Hvb by (unfold vb; rewrite slice_length; lia).
  pose proof (param_layout b off nb Hnb ltac:(fold nameLen; lia)) as Hhd. fold nameLen name vb in Hhd.
  exists ((name, le_get vb) :: ps). split_and!.
  - cbn. lia.
  - constructor; [|done]. cbn. split; [apply paramNameOK_spec; split; [lia|done]|].
    pose proof (le_get_range vb) as Hr. rewrite Hvb in Hr. exact Hr.
  - by apply ascending_prev.
  - unfold encode_params in *. cbn [map concat]. cbn [fst snd]. rewrite <- app_assoc, <- K4. exact Hhd.
  - unfold encode_params in *. cbn [map concat fst snd]. rewrite length_app, encode_param_length, K5. lia.
  - lia.
Qed.

Lemma encode_params_cons name v ps : encode_params ((name, v) :: ps) = encode_param name v ++ encode_params ps.
Proof. done. Qed.

(** Reading one entry at the front of a suffix. *)
Lemma entry_at b off name v t :
  drop off b = encode_param name v ++ t -> paramNameOK name = true ->
  get_at (E:=sketch_error) b off = Ok (z2b (Z.of_nat (length name))) /\
  Z.to_nat (b2z (z2b (Z.of_nat (length name)))) = length name /\
  get_sub (E:=sketch_error) b (off + 1) (off + 1 + length name) = Ok name /\
  get_sub (E:=sketch_error) b (off + 1 + length name) (off + 1 + length name + 8) = Ok (le_put 8 v) /\
  drop (off + 1 + length name + 8) b = t.
Proof.
  intros H [Hn _]%paramNameOK_spec. unfold encode_param in H. rewrite <- !app_assoc in H.
  pose proof (drop_past _ _ _ _ H) as H1. cbn [length] in H1.
  pose proof (drop_past _ _ _ _ H1) as H2. pose proof (drop_past _ _ _ _ H2) as H3.
  rewrite le_put_length in H3. split_and!.
  - eapply get_at_drop. exact H.
  - rewrite b2z_z2b, Z.mod_small, Nat2Z.id; lia.
  - eapply get_sub_drop; [exact H1|done|lia].
  - eapply get_sub_drop; [exact H2|rewrite le_put_length; lia|rewrite le_put_length; lia].
  - exact H3.
Qed.

Lemma walk_params_ok ps b limit i pS pE prev off R :
  drop off b = encode_params ps ++ R -> params_ok ps -> get_sub (E:=sketch_error) b pS pE = Ok prev ->
  ascending (if (0 <? i)%nat then prev :: ps.*1 else ps.*1) ->
  (off + length (encode_params ps) <= limit)%nat ->
  walk_params b limit i (length ps) pS pE off = Ok (off + length (encode_params ps))%nat.
Proof.
  revert i pS pE prev off.
  induction ps as [|[name v] ps IH]; intros i pS pE prev off Hd Hok Hprev Hasc Hlim; cbn [length walk_params].
  { cbn. rewrite Nat.add_0_r. done. }
  rewrite encode_params_cons, <- app_assoc in Hd. rewrite encode_params_cons, length_app, encode_param_length in *.
  apply Forall_cons in Hok as [[Hn Hv] Hok]. cbn [fst snd] in *.
  destruct (entry_at _ _ _ _ _ Hd Hn) as (E1 & E2 & E3 & E4 & E5).
  rewrite (proj2 (Nat.leb_gt _ _)) by lia. rewrite E1. cbn [obind]. rewrite E2.
  pose proof (proj1 (paramNameOK_spec _) Hn) as [Hl Hf]. unfold maxParamNameLen, paramValueLen.
  rewrite (proj2 (Nat.eqb_neq _ _)) by lia. cbn [orb].
  replace (Z.of_nat (length name) >? 32) with false by (symmetry; rewrite Z.gtb_ltb; apply Z.ltb_ge; lia).
  rewrite (proj2 (Nat.ltb_ge _ _)) by lia. rewrite E3. cbn [obind]. rewrite Hf, Hprev. cbn [negb obind].
  replace ((0 <? i)%nat && negb (bool_decide (bytes_lt prev name))) with false.
  - rewrite (IH _ _ _ name); [f_equal; lia|done|done|done| |lia].
    change (0 <? S i)%nat with true. destruct (0 <? i)%nat; [|exact Hasc].
    apply StronglySorted_inv in Hasc as [Hasc _]. exact Hasc.
  - destruct (0 <? i)%nat; [|done]. apply StronglySorted_inv in Hasc as [_ Hasc].
    apply Forall_cons in Hasc as [Hlt _]. rewrite bool_decide_true by done. done.
Qed.

Definition fill (ps : list (bytes * Z)) (m : gmap bytes Z) : gmap bytes Z :=
  fold_left (fun m p => <[p.1 := p.2]> m) ps m.

Lemma fill_params_ok ps b p m R :
  drop p b = encode_params ps ++ R -> params_ok ps -> fill_params b (length ps) p m = Ok (fill ps m).
Proof.
  revert p m. induction ps as [|[name v] ps IH]; intros p m Hd Hok; cbn [length fill_params]; [done|].
  rewrite encode_params_cons, <- app_assoc in Hd. apply Forall_cons in Hok as [[Hn Hv] Hok]. cbn [fst snd] in *.
  destruct (entry_at _ _ _ _ _ Hd Hn) as (E1 & E2 & E3 & E4 & E5). unfold paramValueLen.
  rewrite E1. cbn [obind]. rewrite E2, E3. cbn [obind]. rewrite E4. cbn [obind].
  rewrite le_get_put, Z.mod_small by done. apply IH; done.
Qed.

Lemma fill_lookup ps m k :
  NoDup ps.*1 ->
  fill ps m !! k = match list_to_map (M := gmap bytes Z) ps !! k with Some v => Some v | None => m !! k end.
Proof.
  revert m. induction ps as [|[name v] ps IH]; intros m Hnd; cbn; [rewrite lookup_empty; done|].
  rewrite fmap_cons in Hnd. apply NoDup_cons in Hnd as [Hni Hnd]. unfold fill in *. rewrite IH by done. cbn.
  destruct (decide (name = k)) as [->|Hne].
  - rewrite lookup_insert_eq. rewrite not_elem_of_list_to_map_1 by done. rewrite lookup_insert_eq. done.
  - rewrite !lookup_insert_ne by done. done.
Qed.

Lemma fill_empty ps : NoDup ps.*1 -> fill ps ∅ = list_to_map ps.
Proof.
  intros H. apply map_eq. intros k. rewrite fill_lookup by done. rewrite lookup_empty.
  by destruct (list_to_map ps !! k).
Qed.

Lemma named_params_names m : (named_params m).*1 = sorted_names m.
Proof.
  unfold named_params. assert (forall x, x ∈ sorted_names m -> is_Some (m !! x)) as H.
  { intros x. rewrite sorted_names_perm, list_elem_of_fmap. intros ([k v] & -> & Hin).
    apply elem_of_map_to_list in Hin. eauto. }
  induction (sorted_names m) as [|x l IH]; [done|]. cbn. destruct (H x ltac:(constructor)) as [v Hv].
  rewrite Hv. cbn. f_equal. apply IH. intros. apply H. by right.
Qed.

Lemma named_params_elem m k v : (k, v) ∈ named_params m <-> m !! k = Some v.
Proof.
  unfold named_params. rewrite list_elem_of_omap. split.
  - intros (x & _ & H). destruct (m !! x) eqn:E; [|done]. cbn in H. injection H as -> ->. done.
  - intros H. exists k. rewrite H. split; [|done]. rewrite sorted_names_perm, list_elem_of_fmap.
    exists (k, v). split; [done|]. by apply elem_of_map_to_list.
Qed.

Lemma named_params_map m : list_to_map (named_params m) = m.
Proof.
  apply map_eq. intros k. apply option_eq. intros v.
  rewrite <- elem_of_list_to_map, named_params_elem; [done|].
  rewrite named_params_names. apply ascending_NoDup, sorted_names_ascending.
Qed.

(** The params of a map built from an ascending list are that list. *)
Lemma named_params_unique ps : ascending ps.*1 -> named_params (list_to_map ps) = ps.
Proof.
  intros Ha. pose proof (ascending_NoDup _ Ha) as Hnd.
  unfold named_params. rewrite (sorted_names_unique _ ps.*1); [|done|].
  - assert (forall l, l ⊆ ps -> omap (fun name => pair name <$> (list_to_map ps : gmap bytes Z) !! name) l.*1 = l) as H.
    { induction l as [|[k v] l IH]; intros Hl; [done|]. cbn.
      rewrite (proj1 (elem_of_list_to_map (M := gmap bytes) ps k v Hnd)) by (apply Hl; left). cbn.
      rewrite IH; [done|]. intros x Hx. apply Hl. by right. }
    apply H. done.
  - intros x. rewrite list_elem_of_fmap. split.
    + intros ([k v] & -> & Hin). exists v. apply elem_of_list_to_map; done.
    + intros [v Hv]. exists (x, v). split; [done|]. apply elem_of_list_to_map in Hv; done.
Qed.

(** ** Encoding and decoding a frame *)

Definition header_ok (h : Header) : Prop :=
  1 <= Ver h <= FormatVersion /\ Kind_Valid (hKind h) = true /\ 0 <= Count h < 2 ^ 64 /\
  - 2 ^ 63 <= Created h < 2 ^ 63 /\ forall k v, Params h !! k = Some v -> 0 <= v < 2 ^ 64.

Definition stamped (h : Header) (crc : Z) : Header :=
  MkHeader HeaderMagic (Ver h) (hKind h) (Params h) (Count h) (Created h) crc.

(** The prefix with an arbitrary reserved byte: the writer stores 0, the reader ignores it. *)
Definition prefix_with (r : byte) (h : Header) (nparams bodyLen : nat) : bytes :=
  HeaderMagic ++ le_put 2 (Ver h) ++ [z2b (hKind h)] ++ [r] ++ le_put 8 (Count h) ++
  le_put 8 (u64 (Created h)) ++ le_put 4 (Z.of_nat nparams) ++ le_put 4 (Z.of_nat bodyLen).

Definition frame_with (r : byte) (h : Header) (ps : list (bytes * Z)) (body : bytes) : bytes :=
  prefix_with r h (length ps) (length body) ++ encode_params ps ++ body.

Lemma s64_u64 z : - 2 ^ 63 <= z < 2 ^ 63 -> s64 (u64 z) = z.
Proof.
  intros H. unfold s64, u64. rewrite Z.mod_mod by lia. destruct (Z.ltb_spec (z mod 2 ^ 64) (2 ^ 63)).
  - destruct (Z_lt_le_dec z 0); [|rewrite Z.mod_small in *; lia].
    rewrite <- (Z.mod_add z 1 (2 ^ 64)), Z.mod_small in H0 by lia. lia.
  - destruct (Z_lt_le_dec z 0); [|rewrite Z.mod_small in *; lia].
    rewrite <- (Z.mod_add z 1 (2 ^ 64)), Z.mod_small by lia. lia.
Qed.

Lemma u64_s64 z : 0 <= z < 2 ^ 64 -> u64 (s64 z) = z /\ - 2 ^ 63 <= s64 z < 2 ^ 63.
Proof.
  intros H. unfold s64. rewrite (u64_small z) by done. destruct (Z.ltb_spec z (2 ^ 63)).
  - split; [apply u64_small|]; lia.
  - split; [|lia]. unfold u64. rewrite <- (Z.mod_add (z - 2 ^ 64) 1 (2 ^ 64)), Z.mod_small; lia.
Qed.

Lemma prefix_length r h n m : length (prefix_with r h n m) = 32%nat.
Proof. done. Qed.

(** What the fixed-size fields of a frame read back as. *)
Lemma prefix_fields r h n m t :
  let b := prefix_with r h n m ++ t in
  get_sub (E:=sketch_error) b 0 magicLen = Ok HeaderMagic /\
  get_sub (E:=sketch_error) b offVer offKind = Ok (le_put 2 (Ver h)) /\
  get_at (E:=sketch_error) b offKind = Ok (z2b (hKind h)) /\
  get_sub (E:=sketch_error) b offParamCount offBodyLen = Ok (le_put 4 (Z.of_nat n)) /\
  get_sub (E:=sketch_error) b offBodyLen headerPrefixLen = Ok (le_put 4 (Z.of_nat m)) /\
  get_sub (E:=sketch_error) b offCount offCreated = Ok (le_put 8 (Count h)) /\
  get_sub (E:=sketch_error) b offCreated offParamCount = Ok (le_put 8 (u64 (Created h))).
Proof. cbv zeta. split_and!; reflexivity. Qed.

Lemma gtb_false m n : m <= n -> (m >? n) = false.
Proof. intros H. rewrite Z.gtb_ltb. apply Z.ltb_ge. lia. Qed.

Lemma frame_length r h ps body :
  length (frame_with r h ps body) = (32 + length (encode_params ps) + length body)%nat.
Proof. unfold frame_with. rewrite !length_app, prefix_length. lia. Qed.

(** A checksummed buffer splits into what the checksum covers and the checksum. *)
Lemma frame_trailer (f : bytes) crc :
  let b := f ++ le_put 4 crc in
  get_sub (E:=sketch_error) b (length f) (length b) = Ok (le_put 4 crc) /\
  get_sub (E:=sketch_error) b 0 (length f) = Ok f.
Proof.
  intros b. assert (length b = length f + 4)%nat as Hl by (unfold b; rewrite length_app, le_put_length; lia).
  split.
  - eapply get_sub_drop; [unfold b; rewrite drop_app_length; symmetry; apply app_nil_r| |];
      rewrite ?le_put_length; lia.
  - destruct f as [|x f']; [done|].
    eapply get_sub_drop; [unfold b; rewrite drop_0; reflexivity|done|cbn; lia].
Qed.

(** A frame laid out as the format says decodes to its parts. *)
Lemma DecodeHeader_frame r h ps body :
  header_ok h -> params_ok ps -> ascending ps.*1 -> Z.of_nat (length ps) <= maxParams ->
  Params h = list_to_map ps -> Z.of_nat (36 + length (encode_params ps) + length body) <= MaxFrameBytes ->
  let f := frame_with r h ps body in
  DecodeHeader (f ++ le_put 4 (Crc32c.checksum f)) = Ok (stamped h (Crc32c.checksum f), body).
Proof.
  intros (Hv & Hk & Hc & Hcr & _) Hps Hasc Hn HP Hmax f. unfold maxParams, FormatVersion in *.
  pose proof (Crc32c.checksum_range f) as Hcrc.
  assert (HL : length (f ++ le_put 4 (Crc32c.checksum f)) = (36 + length (encode_params ps) + length body)%nat).
  { unfold f. rewrite length_app, frame_length, le_put_length. lia. }
  unfold DecodeHeader. rewrite HL. unfold minFrameLen, headerPrefixLen, crcLen.
  rewrite (proj2 (Nat.ltb_ge _ _)) by lia.
  rewrite gtb_false by lia.
  assert (Hf : f ++ le_put 4 (Crc32c.checksum f)
    = prefix_with r h (length ps) (length body) ++ (encode_params ps ++ body ++ le_put 4 (Crc32c.checksum f)))
    by (unfold f, frame_with; rewrite <- !app_assoc; done).
  destruct (prefix_fields r h (length ps) (length body) (encode_params ps ++ body ++ le_put 4 (Crc32c.checksum f)))
    as (F1 & F2 & F3 & F4 & F5 & F6 & F7). rewrite <- Hf in F1, F2, F3, F4, F5, F6, F7.
  change headerPrefixLen with 32%nat in F5.
  rewrite F1. cbn [obind]. rewrite bool_decide_true by done. cbn [negb].
  rewrite F2. cbn [obind]. rewrite le_get_put. replace (Ver h) with 1 by lia.
  change (1 mod 256 ^ Z.of_nat 2) with 1. change ((1 =? 0) || (1 >? FormatVersion)) with false. cbn iota.
  rewrite F3. cbn [obind]. rewrite b2z_z2b.
  assert (1 <= hKind h <= 5) as Hk' by (unfold Kind_Valid, KindBloom, KindMinHash in Hk; bsolve; lia).
  rewrite (Z.mod_small (hKind h)) by lia. rewrite Hk. cbn [negb].
  rewrite F4. cbn [obind]. rewrite le_get_put. rewrite (Z.mod_small (Z.of_nat (length ps))) by lia.
  rewrite gtb_false by (unfold maxParams; lia).
  rewrite Nat2Z.id. set (b := f ++ le_put 4 (Crc32c.checksum f)) in *.
  assert (Hd : drop 32 b = encode_params ps ++ body ++ le_put 4 (Crc32c.checksum f)).
  { rewrite Hf. rewrite <- (prefix_length r h (length ps) (length body)) at 1. apply drop_app_length. }
  rewrite (walk_params_ok ps b _ _ _ _ [] 32 _ Hd Hps); [|unfold get_sub, slice; cbn; done|exact Hasc|lia].
  cbn [obind]. rewrite F5. cbn [obind]. rewrite le_get_put.
  change (256 ^ Z.of_nat 4) with (2 ^ 32). unfold MaxFrameBytes in *.
  rewrite (Z.mod_small (Z.of_nat (length body))) by lia.
  rewrite gtb_false by lia.
  replace (Z.of_nat _ + Z.of_nat (length body) =? _) with true by (symmetry; apply Z.eqb_eq; lia). cbn [negb].
  destruct (frame_trailer f (Crc32c.checksum f)) as [T1 T2]. fold b in T1, T2. rewrite HL in T1.
  assert (Hlf : length f = (32 + length (encode_params ps) + length body)%nat) by apply frame_length.
  replace (36 + length (encode_params ps) + length body - 4)%nat with (length f) by lia.
  rewrite T1. cbn [obind]. rewrite T2. cbn [obind]. rewrite le_get_put. change (256 ^ Z.of_nat 4) with (2 ^ 32). rewrite (Z.mod_small _ _ Hcrc), Z.eqb_refl. cbn [negb].
  rewrite F6, F7. cbn [obind]. rewrite (fill_params_ok ps b 32 ∅ _ Hd Hps). cbn [obind].
  rewrite Nat2Z.id, !le_get_put. change (256 ^ Z.of_nat 8) with (2 ^ 64).
  rewrite (Z.mod_small _ _ Hc), (Z.mod_small _ _ (u64_range _)), s64_u64 by done.
  rewrite fill_empty by (apply ascending_NoDup; done).
  assert (drop (32 + length (encode_params ps)) b = body ++ le_put 4 (Crc32c.checksum f)) as Hb
    by (eapply drop_past; exact Hd).
  replace (get_sub b (32 + length (encode_params ps)) _) with (Ok (E:=sketch_error) body).
  - cbn [obind]. unfold stamped. rewrite HP. replace (Ver h) with 1 by lia. done.
  - unfold get_sub, slice. rewrite Hb, HL, !(proj2 (Nat.leb_le _ _)) by lia. cbn [andb].
    replace (_ - _)%nat with (length body) by lia. rewrite take_app_length. done.
Qed.

Lemma slice_one (b : bytes) i x : b !! i = Some x -> slice b i (i + 1) = [x].
Proof.
  intros H. unfold slice. replace (i + 1 - i)%nat with 1%nat by lia.
  rewrite (drop_S b x i H). done.
Qed.

Lemma prefix_split (b : bytes) :
  (36 <= length b)%nat ->
  b = slice b 0 4 ++ slice b 4 6 ++ slice b 6 7 ++ slice b 7 8 ++ slice b 8 16 ++ slice b 16 24 ++
      slice b 24 28 ++ slice b 28 32 ++ drop 32 b.
Proof.
  intros H. rewrite <- (drop_slice b 28 32), <- (drop_slice b 24 28), <- (drop_slice b 16 24),
    <- (drop_slice b 8 16), <- (drop_slice b 7 8), <- (drop_slice b 6 7), <- (drop_slice b 4 6),
    <- (drop_slice b 0 4) by lia. done.
Qed.

(** The fixed-size prefix of any buffer, as the fields it decodes to. *)
Lemma prefix_view (b : bytes) kb r n m ps crc :
  (36 <= length b)%nat -> slice b 0 4 = HeaderMagic -> b !! 6%nat = Some kb -> b !! 7%nat = Some r ->
  le_get (slice b 24 28) = Z.of_nat n -> le_get (slice b 28 32) = Z.of_nat m ->
  let h := MkHeader HeaderMagic (le_get (slice b 4 6)) (b2z kb) ps (le_get (slice b 8 16))
             (s64 (le_get (slice b 16 24))) crc in
  b = prefix_with r h n m ++ drop 32 b.
Proof.
  intros Hl Hm Hk Hr Hn Hbl h. rewrite (prefix_split b Hl) at 1. unfold prefix_with. cbn [Ver hKind Count Created h].
  assert (forall lo hi, (lo <= hi <= length b)%nat -> le_put (hi - lo) (le_get (slice b lo hi)) = slice b lo hi) as HP.
  { intros lo hi Hb. rewrite <- (slice_length b lo hi Hb) at 1. apply le_put_get. }
  rewrite <- Hn, <- Hbl, Hm. rewrite (slice_one b 6 kb Hk : slice b 6 7 = _), (slice_one b 7 r Hr : slice b 7 8 = _), z2b_b2z.
  rewrite (proj1 (u64_s64 (le_get (slice b 16 24)) ltac:(pose proof (le_get_range (slice b 16 24)) as X;
    rewrite slice_length in X by lia; exact X))).
  rewrite (HP 4%nat 6%nat ltac:(lia) : le_put 2 _ = _), (HP 8%nat 16%nat ltac:(lia) : le_put 8 _ = _),
    (HP 16%nat 24%nat ltac:(lia) : le_put 8 _ = _), (HP 24%nat 28%nat ltac:(lia) : le_put 4 _ = _),
    (HP 28%nat 32%nat ltac:(lia) : le_put 4 _ = _).
  rewrite <- !app_assoc. done.
Qed.

Lemma slice_get_range (b : bytes) lo hi :
  (lo <= hi <= length b)%nat -> 0 <= le_get (slice b lo hi) < 256 ^ Z.of_nat (hi - lo).
Proof. intros H. pose proof (le_get_range (slice b lo hi)) as X. rewrite slice_length in X; done. Qed.

(** What follows the parameters of a buffer of the right length: its body and the checksum field. *)
Lemma frame_tail (b : bytes) off n :
  (36 <= length b)%nat -> (off + n = length b - 4)%nat ->
  drop off b = slice b off (off + n) ++ le_put 4 (le_get (slice b (length b - 4) (length b))).
Proof.
  intros Hl Hn. rewrite (drop_slice b off (off + n)) by lia. f_equal. rewrite Hn.
  pose proof (le_put_slice b (length b - 4) 4 ltac:(lia)) as X.
  replace (length b - 4 + 4)%nat with (length b) in X by lia. rewrite X.
  rewrite (drop_slice b _ (length b)) by lia. rewrite drop_all, app_nil_r. done.
Qed.

(** The bytes under the checksum of a buffer that is a frame and a checksum. *)
Lemma frame_covered (b f : bytes) crc : b = f ++ le_put 4 crc -> slice b 0 (length b - 4) = f.
Proof.
  intros ->. unfold slice. rewrite drop_0, length_app, le_put_length.
  replace (_ + 4 - 4 - 0)%nat with (length f) by lia. apply take_app_length.
Qed.

(** The header read from a buffer's fields is in range. *)
Lemma read_header_ok (b : bytes) kb ps crc :
  (36 <= length b)%nat -> 1 <= le_get (slice b 4 6) <= FormatVersion -> Kind_Valid (b2z kb) = true ->
  params_ok ps -> ascending ps.*1 ->
  header_ok (MkHeader HeaderMagic (le_get (slice b 4 6)) (b2z kb) (list_to_map ps) (le_get (slice b 8 16))
    (s64 (le_get (slice b 16 24))) crc).
Proof.
  intros Hl Hv Hk Hp Ha. unfold header_ok. cbn [Ver hKind Count Created Params].
  split; [exact Hv|]. split; [done|]. split; [apply (slice_get_range b 8 16); lia|].
  split; [apply (u64_s64 _ (slice_get_range b 16 24 ltac:(lia)))|].
  intros k v Hkv. apply elem_of_list_to_map in Hkv; [|apply ascending_NoDup; exact Ha].
  unfold params_ok in Hp. rewrite Forall_forall in Hp. apply (Hp _ Hkv).
Qed.

(** Decoding is total, and an accepted buffer is laid out as the format says. *)
Lemma DecodeHeader_spec b :
  match DecodeHeader b with
  | Ok (h, body) => exists r ps,
      header_ok h /\ params_ok ps /\ ascending ps.*1 /\ Z.of_nat (length ps) <= maxParams /\
      Params h = list_to_map ps /\ Magic h = HeaderMagic /\ b !! offReserved = Some r /\
      CRC32C h = Crc32c.checksum (frame_with r h ps body) /\
      b = frame_with r h ps body ++ le_put 4 (CRC32C h) /\ Z.of_nat (length b) <= MaxFrameBytes
  | Err _ => True
  | Panic => False
  end.
Proof.
  unfold DecodeHeader, minFrameLen, headerPrefixLen, crcLen, magicLen, offVer, offKind, offParamCount,
    offBodyLen, offCount, offCreated, maxParams, FormatVersion.
  destruct (length b <? 32 + 4)%nat eqn:E0; bsolve; [done|].
  destruct (Z.of_nat (length b) >? MaxFrameBytes) eqn:E1; bsolve; [done|].
  rewrite get_sub_in by lia. cbn [obind]. case_bool_decide as Hm; [|done]. cbn [negb].
  rewrite get_sub_in by lia. cbn [obind].
  pose proof (slice_get_range b 4 6 ltac:(lia)) as Hver. destruct (_ || _) eqn:E2; [done|]. bsolve.
  destruct (lookup_lt_is_Some_2 b 6 ltac:(lia)) as [kb Hkb].
  destruct (lookup_lt_is_Some_2 b 7 ltac:(lia)) as [r Hr].
  unfold get_at. rewrite Hkb. cbn [obind]. destruct (Kind_Valid (b2z kb)) eqn:Ek; [|done]. cbn [negb].
  rewrite get_sub_in by lia. cbn [obind]. pose proof (slice_get_range b 24 28 ltac:(lia)) as Hpc.
  destruct (_ >? 64) eqn:E3; bsolve; [done|].
  pose proof (walk_params_spec b (length b - 4) (Z.to_nat (le_get (slice b 24 28))) 0 0 0 [] 32
    ltac:(lia) ltac:(lia) (get_sub_in b 0 0 ltac:(lia))) as Hw.
  destruct (walk_params _ _ _ _ _ _ _) as [off| |]; [|done|done]. cbn [obind].
  destruct Hw as (ps & P1 & P2 & P3 & P4 & P5 & P6).
  rewrite get_sub_in by lia. cbn [obind]. pose proof (slice_get_range b 28 32 ltac:(lia)) as Hbl.
  destruct (_ >? MaxFrameBytes) eqn:E4; bsolve; [done|].
  destruct (_ =? Z.of_nat (length b - 4)) eqn:E5; bsolve; [|done]. cbn [negb].
  rewrite get_sub_in by lia. cbn [obind]. rewrite get_sub_in by lia. cbn [obind].
  destruct (_ =? _) eqn:E6; bsolve; [|done]. cbn [negb].
  rewrite !get_sub_in by lia. cbn [obind]. rewrite <- P1. rewrite (fill_params_ok ps b 32 ∅ _ P4 P2).
  cbn [obind]. rewrite fill_empty by (apply ascending_NoDup; exact P3).
  set (bodyLen := le_get (slice b 28 32)) in *.
  set (body := slice b off (off + Z.to_nat bodyLen)).
  assert (Hbody : length body = Z.to_nat bodyLen) by (unfold body; rewrite slice_length; lia).
  set (crc := le_get (slice b (length b - 4) (length b))) in *.
  set (h := MkHeader _ _ _ _ _ _ _).
  assert (Hb : b = prefix_with r h (length ps) (length body) ++ drop 32 b).
  { apply prefix_view; try done; [rewrite P1, Z2Nat.id by lia; done|].
    rewrite Hbody, Z2Nat.id by lia. done. }
  assert (Hfull : b = frame_with r h ps body ++ le_put 4 crc).
  { unfold frame_with. rewrite Hb at 1. rewrite P4, (frame_tail b off (Z.to_nat bodyLen)) by lia.
    rewrite <- !app_assoc. done. }
  exists r, ps. split_and!; try done.
  - apply read_header_ok; try done; unfold FormatVersion; lia.
  - lia.
  - cbn [CRC32C h]. rewrite <- E6. f_equal. exact (frame_covered _ _ _ Hfull).
Qed.

Lemma params_ok_named h : 
  header_ok h -> forallb paramNameOK (map_to_list (Params h)).*1 = true -> params_ok (named_params (Params h)).
Proof.
  intros (_ & _ & _ & _ & Hv) Hn. apply Forall_forall. intros [k v] Hin%named_params_elem. cbn. split; [|eauto].
  rewrite forallb_forall in Hn. apply Hn. apply list_elem_of_In, list_elem_of_fmap. exists (k, v).
  split; [done|]. by apply elem_of_map_to_list.
Qed.

Lemma named_params_length m : length (named_params m) = size m.
Proof.
  rewrite <- (length_fmap fst), named_params_names, sorted_names_perm, length_fmap, length_map_to_list. done.
Qed.

(** [EncodeHeader] by cases. *)
Lemma EncodeHeader_spec h body :
  EncodeHeader h body =
  (if (Z.of_nat (length (named_params (Params h))) >? maxParams) then Err ErrMalformed
   else if Z.of_nat (length body) >? MaxFrameBytes then Err ErrTooLarge
   else if negb (forallb paramNameOK (map_to_list (Params h)).*1) then Err ErrMalformed
   else if Z.of_nat (36 + length (encode_params (named_params (Params h))) + length body) >? MaxFrameBytes
   then Err ErrTooLarge
   else let f := frame_with x00 h (named_params (Params h)) body in Ok (f ++ le_put 4 (Crc32c.checksum f))).
Proof.
  unfold EncodeHeader. rewrite named_params_length. repeat (case_match; [done|]).
  unfold headerPrefixLen, crcLen.
  replace (32 + length (encode_params (named_params (Params h))) + length body + 4)%nat
    with (36 + length (encode_params (named_params (Params h))) + length body)%nat by lia.
  case_match; [done|]. unfold frame_with. rewrite named_params_length. done.
Qed.

Lemma encode_decode h body f :
  header_ok h -> EncodeHeader h body = Ok f ->
  exists g, f = g ++ le_put 4 (Crc32c.checksum g) /\ DecodeHeader f = Ok (stamped h (Crc32c.checksum g), body).
Proof.
  intros Hh. rewrite EncodeHeader_spec. destruct (_ >? maxParams) eqn:E1; bsolve; [done|].
  destruct (Z.of_nat (length body) >? _) eqn:E2; bsolve; [done|].
  destruct (forallb _ _) eqn:E3; [|done]. cbn [negb].
  destruct (_ >? MaxFrameBytes) eqn:E4; bsolve; [done|]. cbv zeta. intros [= <-].
  exists (frame_with x00 h (named_params (Params h)) body). split; [done|].
  apply DecodeHeader_frame; try done; try lia.
  - apply params_ok_named; done.
  - rewrite named_params_names. apply sorted_names_ascending.
  - rewrite named_params_map. done.
Qed.

Lemma params_ok_names ps : params_ok ps -> NoDup ps.*1 -> forallb paramNameOK (map_to_list (list_to_map ps : gmap bytes Z)).*1 = true.
Proof.
  intros Hps Hnd. apply forallb_forall. intros k Hk%list_elem_of_In. apply list_elem_of_fmap in Hk as ([x v] & -> & Hin).
  apply elem_of_map_to_list, elem_of_list_to_map in Hin; [|done]. unfold params_ok in Hps.
  rewrite Forall_forall in Hps. apply (Hps _ Hin).
Qed.

Lemma decode_encode b h body :
  DecodeHeader b = Ok (h, body) -> b !! offReserved = Some x00 -> EncodeHeader h body = Ok b.
Proof.
  intros Hd Hr. pose proof (DecodeHeader_spec b) as H. rewrite Hd in H.
  destruct H as (r & ps & Hh & Hps & Hasc & Hn & HP & _ & Hr' & Hcrc & Hb & Hmax).
  assert (r = x00) as -> by congruence.
  assert (Z.of_nat (36 + length (encode_params ps) + length body) <= MaxFrameBytes) as Hlen.
  { rewrite Hb in Hmax. unfold frame_with in Hmax. rewrite !length_app, prefix_length, le_put_length in Hmax. lia. }
  rewrite EncodeHeader_spec, HP, named_params_unique by done.
  rewrite params_ok_names by (done || apply ascending_NoDup; done). cbn [negb].
  repeat match goal with |- context [?a >? ?b] =>
    replace (a >? b) with false by (symmetry; rewrite Z.gtb_ltb; apply Z.ltb_ge; lia) end.
  cbv zeta. rewrite <- Hcrc. f_equal. symmetry. exact Hb.
Qed.

(** An accepted buffer ends with the checksum of the rest. *)
Lemma decode_checksum b h body :
  DecodeHeader b = Ok (h, body) -> exists g, b = g ++ le_put 4 (Crc32c.checksum g).
Proof.
  intros Hd. pose proof (DecodeHeader_spec b) as H. rewrite Hd in H.
  destruct H as (r & ps & _ & _ & _ & _ & _ & _ & _ & Hcrc & Hb & _). rewrite Hcrc in Hb. eauto.
Qed.

Lemma insert_split (b : bytes) i x y :
  b !! i = Some x -> exists pre post, b = pre ++ x :: post /\ <[i := y]> b = pre ++ y :: post /\ length pre = i.
Proof.
  intros H. exists (take i b), (drop (S i) b). pose proof (lookup_lt_Some _ _ _ H).
  split_and!; [symmetry; apply take_drop_middle, H| |rewrite length_take; lia].
  apply insert_take_drop. done.
Qed.

Lemma checksum_suffix g g' i x y :
  let b := g ++ le_put 4 (Crc32c.checksum g) in
  b !! i = Some x -> <[i := y]> b = g' ++ le_put 4 (Crc32c.checksum g') -> x = y.
Proof.
  intros b Hx Hb'. pose proof (lookup_lt_Some _ _ _ Hx) as Hlt.
  assert (length g = length g') as Hg.
  { apply (f_equal length) in Hb'. rewrite length_insert in Hb'. unfold b in Hb'.
    rewrite !length_app, !le_put_length in Hb'. lia. }
  destruct (decide (i < length g)%nat) as [Hi|Hi].
  - unfold b in Hb', Hx. rewrite insert_app_l in Hb' by done. rewrite lookup_app_l in Hx by done.
    apply app_inj_1 in Hb' as [G1 G2]; [|rewrite length_insert; done].
    apply (f_equal le_get) in G2. rewrite !le_get_put in G2. change (256 ^ Z.of_nat 4) with (2 ^ 32) in G2.
    rewrite !Z.mod_small in G2 by apply Crc32c.checksum_range. rewrite <- G1 in G2.
    destruct (insert_split g i x y Hx) as (pre & post & E1 & E2 & _). rewrite E2, E1 in G2.
    eapply Crc32c.checksum_one_byte, G2.
  - assert (g' = g) as ->.
    { apply (f_equal (take (length g))) in Hb'. rewrite take_insert_ge in Hb' by lia.
      unfold b in Hb'. rewrite take_app_length, Hg, take_app_length in Hb'. done. }
    apply (f_equal (lookup i)) in Hb'. rewrite list_lookup_insert_eq in Hb' by done.
    fold b in Hb'. congruence.
Qed.

(** [MustParamInt] of a param written as [float64(n)] with [n] in range. *)
Lemma MustParamInt_of_int h name n lo hi :
  Params h !! name = Some (F64.of_int n) -> F64.exact_int n -> lo <= n <= hi ->
  MustParamInt h name lo hi = Ok n.
Proof.
  intros HP Hn Hb. unfold MustParamInt. rewrite HP, F64.isNaN_of_int, F64.isIntegral_of_int by done.
  unfold F64.lt_int, F64.gt_int. rewrite !F64.cmp_int_of_int by done. cbn [orb negb].
  destruct (Z.compare_spec n lo), (Z.compare_spec n hi); try lia; cbn [orb];
    rewrite F64.to_int_of_int by done; done.
Qed.

(** ** Arrays of fixed-width words

    The body of a Bloom filter or a Count-Min table: little-endian words one after the other. *)

Definition encode_words (w : nat) (ws : list Z) : bytes := concat (map (le_put w) ws).

(** [ws[i] = Uint32/Uint64(body[i*w:])] for each of [n] words. *)
Fixpoint decode_words (w n : nat) (body : bytes) : outcome sketch_error (list Z) :=
  match n with
  | O => Ok []
  | S n =>
      let! x := get_sub body 0 w in
      let! ws := decode_words w n (drop w body) in
      Ok (le_get x :: ws)
  end.

(** A rate param: strictly inside (0, 1), and not a NaN. *)
Definition rate_ok (v : Z) : bool := negb (F64.isNaN v || F64.le_int v 0 || F64.ge_int v 1).

Lemma encode_words_length w ws : length (encode_words w ws) = (w * length ws)%nat.
Proof.
  unfold encode_words. induction ws as [|x ws IH]; cbn; [lia|]. rewrite length_app, le_put_length, IH. lia.
Qed.

Lemma decode_encode_words w ws :
  (0 < w)%nat -> Forall (fun x => 0 <= x < 256 ^ Z.of_nat w) ws ->
  decode_words w (length ws) (encode_words w ws) = Ok ws.
Proof.
  intros Hw. induction 1 as [|x ws Hx _ IH]; cbn [length decode_words]; [done|].
  change (encode_words w (x :: ws)) with (le_put w x ++ encode_words w ws).
  rewrite (get_sub_drop _ 0 w (le_put w x) (encode_words w ws))
    by (rewrite ?drop_0, ?le_put_length; done || lia).
  cbn [obind]. rewrite drop_app_length' by (rewrite le_put_length; done). rewrite IH. cbn [obind].
  rewrite le_get_put, Z.mod_small by done. done.
Qed.

(** A body long enough for its words always decodes, to words of that width. *)
Lemma decode_words_ok w n body :
  (w * n <= length body)%nat ->
  exists ws, decode_words w n body = Ok ws /\ length ws = n /\ Forall (fun x => 0 <= x < 256 ^ Z.of_nat w) ws.
Proof.
  revert body. induction n as [|n IH]; intros body H; cbn [decode_words]; [exists []; done|].
  rewrite get_sub_in by lia. cbn [obind].
  destruct (IH (drop w body)) as (ws & E & Hl & Hf); [rewrite length_drop; lia|]. rewrite E. cbn [obind].
  eexists. split; [reflexivity|]. split; [cbn; lia|]. constructor; [|done].
  pose proof (le_get_range (slice body 0 w)) as Hr. rewrite slice_length, Nat.sub_0_r in Hr by lia. done.
Qed.

Lemma satAdd64_range a b : 0 <= a < 2 ^ 64 -> 0 <= b < 2 ^ 64 -> 0 <= satAdd64 a b < 2 ^ 64 /\ satAdd64 a b <= a + b.
Proof. intros Ha Hb. unfold satAdd64, MaxUint64. ifcase; lia. Qed.

Lemma clampInt_range v lo hi : lo <= hi -> lo <= clampInt v lo hi <= hi.
Proof. intros H. unfold clampInt. repeat ifcase; lia. Qed.

Lemma MustParamInt_no_panic h name lo hi : MustParamInt h name lo hi <> Panic.
Proof. unfold MustParamInt. repeat case_match; done. Qed.

(** Clamping into a band of legal rates gives a legal rate, NaN and infinities included. *)
Lemma clamp_rate v lo hi : rate_ok lo = true -> rate_ok hi = true -> rate_ok (clamp v lo hi) = true.
Proof.
  intros Hlo Hhi. unfold clamp. destruct (F64.isNaN v) eqn:E1; [done|]. destruct (F64.lt v lo) eqn:E2; [done|].
  destruct (F64.gt v hi) eqn:E3; [done|]. unfold rate_ok in *. bsolve. rewrite E1.
  destruct (F64.between_rates v lo hi) as [-> ->]; done.
Qed.

Lemma clamp_bits v lo hi : 0 <= v < 2 ^ 64 -> 0 <= lo < 2 ^ 64 -> 0 <= hi < 2 ^ 64 -> 0 <= clamp v lo hi < 2 ^ 64.
Proof. intros. unfold clamp. repeat ifcase; lia. Qed.

(** A header with legal names and few params always encodes, if the body leaves room. *)
Lemma encode_params_bound ps : params_ok ps -> (length (encode_params ps) <= 41 * length ps)%nat.
Proof.
  induction 1 as [|[k v] ps [Hk _] _ IH]; cbn [length]; [cbn; lia|].
  rewrite encode_params_cons, length_app, encode_param_length.
  apply paramNameOK_spec in Hk as [Hk _]. cbn in Hk. lia.
Qed.

Lemma map_size_insert_le (m : gmap bytes Z) k v : (size (<[k := v]> m) <= S (size m))%nat.
Proof. rewrite map_size_insert. destruct (m !! k); cbn; lia. Qed.

Lemma encode_fits h body :
  header_ok h -> (forall k v, Params h !! k = Some v -> paramNameOK k = true) -> (size (Params h) <= 64)%nat ->
  Z.of_nat (length body) + 36 + 41 * Z.of_nat (size (Params h)) <= MaxFrameBytes ->
  exists f, EncodeHeader h body = Ok f.
Proof.
  intros Hh Hn Hs Hl. assert (forallb paramNameOK (map_to_list (Params h)).*1 = true) as Hf.
  { apply forallb_forall. intros k Hk%list_elem_of_In. apply list_elem_of_fmap in Hk as ([x v] & -> & Hin).
    apply elem_of_map_to_list in Hin. eapply Hn, Hin. }
  pose proof (encode_params_bound _ (params_ok_named h Hh Hf)) as Hb. rewrite named_params_length in Hb.
  rewrite EncodeHeader_spec, Hf, named_params_length. cbn [negb]. unfold maxParams.
  repeat match goal with |- context [?a >? ?b] =>
    replace (a >? b) with false by (symmetry; rewrite Z.gtb_ltb; apply Z.ltb_ge; lia) end.
  eauto.
Qed.

(** The value [MustParamInt] returns is in the range it was given. *)
Lemma MustParamInt_range h name lo hi n : MustParamInt h name lo hi = Ok n -> lo <= n <= hi.
Proof.
  unfold MustParamInt. destruct (Params h !! name) as [v|]; [|done].
  destruct (F64.isNaN v) eqn:E1; [done|]. destruct (F64.isIntegral v) eqn:E2; [|done]. cbn [orb negb].
  destruct (F64.lt_int v lo) eqn:E3; [done|]. destruct (F64.gt_int v hi) eqn:E4; [done|].
  intros [= <-]. apply F64.to_int_bounds; done.
Qed.

(** ** The interface of a persistable sketch

    [UnmarshalBinary] replaces the receiver's whole state or leaves it untouched, so it is modelled
    as a function from bytes to the new state. *)

Class Sketch (T : Type) := {
  Header_of : T -> Header;
  MarshalBinary : T -> outcome sketch_error bytes;
  UnmarshalBinary : bytes -> outcome sketch_error T
}.

(** What a sketch type promises the code that saves and loads it: [wf] is its invariant. *)
Class SketchLaws (T : Type) `{Sketch T} (wf : T -> Prop) := {
  marshal_loads : forall x f, wf x -> MarshalBinary x = Ok f -> UnmarshalBinary f = Ok x;
  unmarshal_safe : forall b, UnmarshalBinary b <> Panic
}.

(** Whatever bytes it accepted, a decoded sketch satisfies its invariant. *)
Class SketchDecodes (T : Type) `{Sketch T} (wf : T -> Prop) :=
  unmarshal_wf : forall b x, UnmarshalBinary b = Ok x -> wf x.

(** A well-formed sketch survives any number of save/load cycles, and its bytes never change. *)
Lemma marshal_stable `{Sketch T} {wf : T -> Prop} {L : SketchLaws T wf} x f y :
  wf x -> MarshalBinary x = Ok f -> UnmarshalBinary f = Ok y -> MarshalBinary y = Ok f.
Proof. intros Hx Hm Hu. rewrite (marshal_loads x f Hx Hm) in Hu. injection Hu as <-. done. Qed.

(** ** Claims *)

Definition demo_header : Header :=
  MkHeader HeaderMagic 1 KindMisraGries {[ str "k" := F64.of_int 64 ]} 5 (-7) 0.

Lemma demo_header_ok : header_ok demo_header.
Proof.
  unfold header_ok, demo_header, FormatVersion. cbn [Ver hKind Params Count Created].
  split; [lia|]. split; [done|]. split; [lia|]. split; [lia|].
  intros k v [_ <-]%lookup_singleton_Some. vm_compute. split; [discriminate|reflexivity].
Qed.

Definition demo_frame : bytes :=
  match EncodeHeader demo_header (str "body") with Ok f => f | _ => [] end.

Example demo_frame_ok :
  EncodeHeader demo_header (str "body") = Ok demo_frame /\ length demo_frame = 50%nat.
Proof. vm_compute. split; reflexivity. Qed.

(** A frame [EncodeHeader] writes decodes to the same version, kind, params, count, creation
    time and body, with the stored checksum filled in. *)
Theorem frame_roundtrip h body f :
  header_ok h -> EncodeHeader h body = Ok f ->
  DecodeHeader f = Ok (stamped h (Crc32c.checksum (take (length f - 4) f)), body).
Proof.
  intros Hh He. destruct (encode_decode h body f Hh He) as (g & -> & Hd). rewrite Hd.
  rewrite length_app, le_put_length. replace (length g + 4 - 4)%nat with (length g) by lia.
  rewrite take_app_length. done.
Qed.

Lemma frame_roundtrip_witness : exists crc,
  DecodeHeader demo_frame = Ok (stamped demo_header crc, str "body").
Proof.
  eexists. apply (frame_roundtrip demo_header (str "body") demo_frame demo_header_ok).
  exact (proj1 demo_frame_ok).
Defined.

(** C32: [DecodeHeader] never indexes out of range, whatever the bytes, and a buffer it accepts whose reserved byte is 0, as
    the writer stores it, is the canonical encoding of what it returned: re-encoding gives the same bytes back.  The reader
    accepts any reserved byte; of re-encoding a buffer with another one nothing is claimed. *)
Theorem decode_total_and_canonical b :
  DecodeHeader b <> Panic /\
  (forall h body, DecodeHeader b = Ok (h, body) -> b !! offReserved = Some x00 -> EncodeHeader h body = Ok b).
Proof.
  split; [|intros h body; apply decode_encode].
  pose proof (DecodeHeader_spec b) as H. by destruct (DecodeHeader b).
Qed.

Lemma decode_total_and_canonical_witness :
  exists h, DecodeHeader demo_frame = Ok (h, str "body") /\ EncodeHeader h (str "body") = Ok demo_frame.
Proof.
  destruct (DecodeHeader demo_frame) as [[h body]| |] eqn:E; [|exfalso; revert E; vm_compute; discriminate..].
  assert (body = str "body") as ->.
  { pose proof (f_equal (fun o => match o with Ok (_, x) => x | _ => [] end) E) as X. revert X. vm_compute. intros <-. reflexivity. }
  exists h. split; [reflexivity|].
  exact (proj2 (decode_total_and_canonical demo_frame) h (str "body") E eq_refl).
Defined.

(** A change confined to one byte of an accepted frame, wherever it falls, is always refused. *)
Theorem one_byte_corruption_detected b h body i x y :
  DecodeHeader b = Ok (h, body) -> b !! i = Some x -> x <> y ->
  exists e, DecodeHeader (<[i := y]> b) = Err e.
Proof.
  intros Hd Hx Hne. destruct (DecodeHeader (<[i := y]> b)) as [[h' body']|e|] eqn:E; [|eauto|].
  - exfalso. destruct (decode_checksum _ _ _ Hd) as (g & Hg), (decode_checksum _ _ _ E) as (g' & Hg').
    rewrite Hg in Hx, Hg'. apply Hne. eapply checksum_suffix; eassumption.
  - exfalso. pose proof (DecodeHeader_spec (<[i := y]> b)) as H. rewrite E in H. done.
Qed.

Lemma one_byte_corruption_detected_witness :
  exists e, DecodeHeader (<[44%nat := x00]> demo_frame) = Err e.
Proof.
  destruct (DecodeHeader demo_frame) as [[h body]| |] eqn:E; [|exfalso; revert E; vm_compute; discriminate..].
  apply (one_byte_corruption_detected demo_frame h body 44 "d"%byte x00 E); [vm_compute; reflexivity|discriminate].
Defined.
