(* ===== verification/Bloom.v ===== *)
(** * [internal/sketch/bloom.go]: the Bloom filter behind [tried.bloom]

    The filter, its probe loops over the word array (an out-of-range word is a [Panic]), its sizing
    and its frame.  The logarithm-based sizing formulas of [bloomSizing] are floating-point library
    calls: they are the parameters [mRaw] and [kRaw] of [NewBloom], everything around them is the
    code's. *)

From S2P Require Import Prelude GoLib Core Frame.

Open Scope go_scope.

(** ** The filter *)

Definition wordBits : Z := 64.
Definition wordBytes : Z := 8.
Definition wordShift : Z := 6.
Definition wordMask : Z := 63.
Definition bitsPerByte : Z := 8.
Definition maxBloomHashes : Z := 64.

(** [minBloomFPRate = 1e-6] and [maxBloomFPRate = 0.5], as float64 bit patterns. *)
Definition minBloomFPRate : Z := 0x3eb0c6f7a0b5ed8d.
Definition maxBloomFPRate : Z := 0x3fe0000000000000.

Definition paramCapacity : bytes := str "capacity".
Definition paramFPRate : bytes := str "fprate".
Definition paramK : bytes := str "k".
Definition paramM : bytes := str "m".

Record Bloom := MkBloom {
  mBits : Z; bk : Z; words : list Z; bcount : Z; capacity : Z; fpRate : Z; bcreated : Z }.

(** Clearing the low bits of [uint64(mRaw) + 63], the ceiling, the floor. *)
Definition bloomSizing (mRaw : Z -> Z -> Z) (kRaw : Z -> Z -> Z) (n p : Z) : Z * Z :=
  let raw := mRaw n p in
  let k := clampInt (kRaw raw n) 1 maxBloomHashes in
  let m := Z.ldiff (add64 raw (wordBits - 1)) wordMask in
  let '(k, m) := if m >? MaxBloomBits then (clampInt (kRaw MaxBloomBits n) 1 maxBloomHashes, MaxBloomBits)
                 else (k, m) in
  (k, if m =? 0 then wordBits else m).

Definition NewBloom (mRaw kRaw : Z -> Z -> Z) (cap rate : Z) : Bloom :=
  let n := clampInt cap 1 MaxBloomCapacity in
  let p := clamp rate minBloomFPRate maxBloomFPRate in
  let '(k, m) := bloomSizing mRaw kRaw n p in
  MkBloom m k (replicate (Z.to_nat (m / wordBits)) 0) 0 n p 0.

(** The [i]-th probe: [(h1 + i*h2 + i*i) % m] in uint64 arithmetic. *)
Definition probe (h1 h2 m i : Z) : Z := add64 (add64 h1 (mul64 i h2)) (mul64 i i) mod m.

Fixpoint add_loop (n : nat) (i h1 h2 m : Z) (ws : list Z) (fresh : bool)
    : outcome sketch_error (list Z * bool) :=
  match n with
  | O => Ok (ws, fresh)
  | S n =>
      let idx := probe h1 h2 m i in
      let w := Z.to_nat (Z.shiftr idx wordShift) in
      let bit := shl64 1 (Z.land idx wordMask) in
      match ws !! w with
      | None => Panic
      | Some x =>
          if Z.land x bit =? 0
          then add_loop n (i + 1) h1 h2 m (<[w := Z.lor x bit]> ws) true
          else add_loop n (i + 1) h1 h2 m ws fresh
      end
  end.

Definition Add (b : Bloom) (key : bytes) : outcome sketch_error Bloom :=
  if mBits b =? 0 then Ok b
  else
    let '(h1, h2) := hash128 domainBloom key in
    let! (ws, fresh) := add_loop (Z.to_nat (bk b)) 0 h1 h2 (mBits b) (words b) false in
    Ok (MkBloom (mBits b) (bk b) ws (if fresh then satAdd64 (bcount b) 1 else bcount b)
          (capacity b) (fpRate b) (bcreated b)).

Fixpoint test_loop (n : nat) (i h1 h2 m : Z) (ws : list Z) : outcome sketch_error bool :=
  match n with
  | O => Ok true
  | S n =>
      let idx := probe h1 h2 m i in
      match ws !! Z.to_nat (Z.shiftr idx wordShift) with
      | None => Panic
      | Some x =>
          if Z.land x (shl64 1 (Z.land idx wordMask)) =? 0 then Ok false
          else test_loop n (i + 1) h1 h2 m ws
      end
  end.

Definition Test (b : Bloom) (key : bytes) : outcome sketch_error bool :=
  if mBits b =? 0 then Ok false
  else
    let '(h1, h2) := hash128 domainBloom key in
    test_loop (Z.to_nat (bk b)) 0 h1 h2 (mBits b) (words b).

Definition Bloom_Count (b : Bloom) : Z := if bcount b >? MaxInt then MaxInt else bcount b.

Fixpoint add_keys (b : Bloom) (keys : list bytes) : outcome sketch_error Bloom :=
  match keys with
  | [] => Ok b
  | k :: keys => let! b := Add b k in add_keys b keys
  end.

Definition RebuildBloom (mRaw kRaw : Z -> Z -> Z) (cap rate : Z) (keys : list bytes) :=
  add_keys (NewBloom mRaw kRaw cap rate) keys.

Definition setBits (b : Bloom) : Z := fold_left (fun s w => add64 s (bits_OnesCount64 w)) (words b) 0.

Definition SetCreated (b : Bloom) (t : Z) : Bloom :=
  MkBloom (mBits b) (bk b) (words b) (bcount b) (capacity b) (fpRate b) t.

(** ** Its frame *)

Definition Bloom_Header (b : Bloom) : Header :=
  MkHeader HeaderMagic FormatVersion KindBloom
    (<[paramCapacity := F64.of_int (capacity b)]> (<[paramFPRate := fpRate b]>
      (<[paramK := F64.of_int (bk b)]> {[paramM := F64.of_int (mBits b)]})))
    (bcount b) (bcreated b) 0.

Definition Bloom_MarshalBinary (b : Bloom) : outcome sketch_error bytes :=
  if (mBits b =? 0) || (bk b =? 0) then Err ErrMalformed
  else EncodeHeader (Bloom_Header b) (encode_words 8 (words b)).

Definition Bloom_decodeV1 (h : Header) (body : bytes) : outcome sketch_error Bloom :=
  let! m := MustParamInt h paramM wordBits MaxBloomBits in
  if negb (m mod wordBits =? 0) then Err ErrMalformed
  else
    let! k := MustParamInt h paramK 1 maxBloomHashes in
    let! cap := MustParamInt h paramCapacity 1 MaxBloomCapacity in
    match Param h paramFPRate with
    | None => Err ErrMalformed
    | Some rate =>
        if negb (rate_ok rate) then Err ErrMalformed
        else if negb (Z.of_nat (length body) =? m / bitsPerByte) then Err ErrTruncated
        else
          let! ws := decode_words 8 (Z.to_nat (m / wordBits)) body in
          Ok (MkBloom m k ws (Count h) cap rate (Created h))
    end.

Definition Bloom_UnmarshalBinary (data : bytes) : outcome sketch_error Bloom :=
  let! (h, body) := DecodeHeader data in
  if negb (hKind h =? KindBloom) then Err ErrKindMismatch
  else if Ver h =? 1 then Bloom_decodeV1 h body else Err ErrUnsupportedVersion.

#[global] Instance Bloom_Sketch : Sketch Bloom := {
  Header_of := Bloom_Header;
  MarshalBinary := Bloom_MarshalBinary;
  UnmarshalBinary := Bloom_UnmarshalBinary
}.

(** ** Well-formed filters *)

Record wf (b : Bloom) : Prop := {
  wf_m : mBits b mod 64 = 0;
  wf_m_range : 64 <= mBits b <= MaxBloomBits;
  wf_k : 1 <= bk b <= 64;
  wf_words : Z.of_nat (length (words b)) = mBits b / 64;
  wf_word : Forall (fun w => 0 <= w < 2 ^ 64) (words b);
  wf_count : 0 <= bcount b < 2 ^ 64;
  wf_capacity : 1 <= capacity b <= MaxBloomCapacity;
  wf_rate : rate_ok (fpRate b) = true;
  wf_rate_bits : 0 <= fpRate b < 2 ^ 64;
  wf_created : - 2 ^ 63 <= bcreated b < 2 ^ 63
}.

(** ** The bit array *)

Definition bit_at (ws : list Z) (idx : Z) : bool :=
  match ws !! Z.to_nat (Z.shiftr idx 6) with Some w => Z.testbit w (Z.land idx 63) | None => false end.

Definition in_range (ws : list Z) (idx : Z) : Prop := 0 <= idx < 64 * Z.of_nat (length ws).

Lemma land63 idx : Z.land idx 63 = idx mod 64.
Proof. change 63 with (Z.ones 6). rewrite Z.land_ones by lia. done. Qed.

Lemma word_index ws idx : in_range ws idx -> exists w, ws !! Z.to_nat (Z.shiftr idx 6) = Some w.
Proof.
  intros H. apply lookup_lt_is_Some_2. unfold in_range in H. rewrite Z.shiftr_div_pow2 by lia.
  change (2 ^ 6) with 64. pose proof (Z.div_lt_upper_bound idx 64 (Z.of_nat (length ws))). lia.
Qed.

Lemma bit_mask j : 0 <= j < 64 -> shl64 1 j = 2 ^ j.
Proof.
  intros H. unfold shl64. rewrite Z.shiftl_1_l. apply u64_small. split; [lia|].
  apply Z.pow_lt_mono_r; lia.
Qed.

Lemma land_bit w j : 0 <= j < 64 -> (Z.land w (shl64 1 j) =? 0) = negb (Z.testbit w j).
Proof.
  intros H. rewrite bit_mask by done. destruct (Z.testbit w j) eqn:E; cbn.
  - apply Z.eqb_neq. intros H0. apply (f_equal (fun z => Z.testbit z j)) in H0.
    rewrite Z.land_spec, E, Z.pow2_bits_true, Z.bits_0 in H0 by lia. done.
  - apply Z.eqb_eq. apply Z.bits_inj'. intros i Hi. rewrite Z.land_spec, Z.bits_0.
    destruct (decide (i = j)) as [->|Hne]; [rewrite E; done|].
    rewrite Z.pow2_bits_false by lia. apply andb_false_r.
Qed.

Lemma lor_bit w j i : 0 <= j < 64 -> 0 <= i -> Z.testbit (Z.lor w (shl64 1 j)) i = Z.testbit w i || (i =? j).
Proof.
  intros H Hi. rewrite bit_mask by done. rewrite Z.lor_spec. f_equal.
  rewrite Z.pow2_bits_eqb by lia. apply Z.eqb_sym.
Qed.

Lemma lor_range w j : 0 <= w < 2 ^ 64 -> 0 <= j < 64 -> 0 <= Z.lor w (shl64 1 j) < 2 ^ 64.
Proof.
  intros Hw Hj. rewrite bit_mask by done. assert (0 <= Z.lor w (2 ^ j)) as H0 by (apply Z.lor_nonneg; lia).
  split; [done|]. apply Z.bounded_iff_bits_nonneg; [lia|done|]. intros i Hi. rewrite Z.lor_spec.
  rewrite (proj1 (Z.bounded_iff_bits_nonneg 64 w ltac:(lia) ltac:(lia)) ltac:(lia) i Hi).
  apply Z.pow2_bits_false. lia.
Qed.

Definition set_bit (ws : list Z) (idx : Z) : list Z :=
  match ws !! Z.to_nat (Z.shiftr idx 6) with
  | Some x => <[Z.to_nat (Z.shiftr idx 6) := Z.lor x (shl64 1 (Z.land idx 63))]> ws
  | None => ws
  end.

Lemma set_bit_at ws idx j :
  in_range ws idx -> 0 <= j -> bit_at (set_bit ws idx) j = bit_at ws j || (j =? idx).
Proof.
  intros Hr Hj. destruct (word_index ws idx Hr) as [w Hw]. unfold bit_at, set_bit. unfold in_range in Hr. rewrite Hw.
  pose proof (Z.mod_pos_bound idx 64 ltac:(lia)) as M1. pose proof (Z.mod_pos_bound j 64 ltac:(lia)) as M2.
  assert (forall z, 0 <= z -> 0 <= Z.shiftr z 6) as Hs by (intros; apply Z.shiftr_nonneg; done).
  destruct (decide (Z.shiftr idx 6 = Z.shiftr j 6)) as [E|E].
  - rewrite <- E, list_lookup_insert_eq by (eapply lookup_lt_Some, Hw). rewrite Hw, !land63, lor_bit by lia. f_equal.
    rewrite !Z.shiftr_div_pow2 in E by lia. change (2 ^ 6) with 64 in E.
    destruct (Z.eqb_spec (j mod 64) (idx mod 64)), (Z.eqb_spec j idx); try done; subst; try done.
    exfalso. apply n. rewrite (Z.div_mod j 64), (Z.div_mod idx 64) by lia. lia.
  - rewrite list_lookup_insert_ne by (pose proof (Hs idx); pose proof (Hs j); lia).
    destruct (Z.eqb_spec j idx) as [->|]; [done|]. rewrite orb_false_r. done.
Qed.

Lemma set_bit_same ws idx : in_range ws idx -> bit_at ws idx = true -> set_bit ws idx = ws.
Proof.
  intros Hr Hb. unfold bit_at in Hb. destruct (word_index ws idx Hr) as [w Hw]. rewrite Hw in Hb.
  unfold set_bit. rewrite Hw. apply list_insert_id. rewrite Hw. f_equal.
  pose proof (Z.mod_pos_bound idx 64 ltac:(lia)). apply Z.bits_inj'. intros i Hi.
  rewrite land63 in *. symmetry. rewrite lor_bit by lia. destruct (Z.eqb_spec i (idx mod 64)) as [->|]; [by rewrite Hb|].
  apply orb_false_r.
Qed.

Lemma set_bit_length ws idx : length (set_bit ws idx) = length ws.
Proof. unfold set_bit. destruct (ws !! _); [apply length_insert|done]. Qed.

Lemma set_bit_word ws idx :
  Forall (fun w => 0 <= w < 2 ^ 64) ws -> Forall (fun w => 0 <= w < 2 ^ 64) (set_bit ws idx).
Proof.
  intros H. unfold set_bit. destruct (ws !! _) as [x|] eqn:E; [|done]. apply Forall_insert; [done|].
  apply lor_range; [|rewrite land63; apply Z.mod_pos_bound; lia].
  rewrite Forall_lookup in H. eapply H, E.
Qed.

(** Setting a list of bits. *)
Definition set_bits (ws : list Z) (ids : list Z) : list Z := fold_left set_bit ids ws.

Lemma set_bits_cons ws x ids : set_bits ws (x :: ids) = set_bits (set_bit ws x) ids.
Proof. done. Qed.

Lemma set_bits_length ws ids : length (set_bits ws ids) = length ws.
Proof. revert ws. induction ids as [|x ids IH]; intros ws; [done|]. rewrite set_bits_cons, IH. apply set_bit_length. Qed.

Lemma set_bits_word ws ids :
  Forall (fun w => 0 <= w < 2 ^ 64) ws -> Forall (fun w => 0 <= w < 2 ^ 64) (set_bits ws ids).
Proof. revert ws. induction ids as [|x ids IH]; intros ws H; [done|]. rewrite set_bits_cons. apply IH, set_bit_word, H. Qed.

Lemma set_bits_at ws ids j :
  Forall (in_range ws) ids -> 0 <= j -> bit_at (set_bits ws ids) j = bit_at ws j || bool_decide (j ∈ ids).
Proof.
  revert ws. induction ids as [|x ids IH]; intros ws H Hj; [by rewrite orb_false_r|].
  apply Forall_cons in H as [Hx H]. rewrite set_bits_cons, IH; [|eapply Forall_impl; [exact H|]; intros y Hy; unfold in_range in *; rewrite set_bit_length; done|done].
  rewrite set_bit_at by done. rewrite <- orb_assoc. f_equal.
  destruct (Z.eqb_spec j x) as [->|Hne]; [rewrite (bool_decide_true (x ∈ x :: ids)) by constructor; done|].
  cbn. apply bool_decide_ext. rewrite elem_of_cons. naive_solver.
Qed.

Lemma set_bits_same ws ids :
  Forall (in_range ws) ids -> forallb (bit_at ws) ids = true -> set_bits ws ids = ws.
Proof.
  induction ids as [|x ids IH]; intros H Hb; [done|]. apply Forall_cons in H as [Hx H].
  cbn in Hb. bsolve. rewrite set_bits_cons, set_bit_same by done. apply IH; done.
Qed.

(** ** The probe loops *)

Fixpoint probes (n : nat) (i h1 h2 m : Z) : list Z :=
  match n with O => [] | S n => probe h1 h2 m i :: probes n (i + 1) h1 h2 m end.

Lemma add_loop_spec n i h1 h2 m ws fresh :
  Forall (in_range ws) (probes n i h1 h2 m) ->
  add_loop n i h1 h2 m ws fresh
  = Ok (set_bits ws (probes n i h1 h2 m), fresh || negb (forallb (bit_at ws) (probes n i h1 h2 m))).
Proof.
  revert i ws fresh. induction n as [|n IH]; intros i ws fresh H; cbn [add_loop probes]; [by rewrite orb_false_r|].
  cbn [probes] in H. apply Forall_cons in H as [Hx H]. set (idx := probe h1 h2 m i) in *.
  destruct (word_index ws idx Hx) as [w Hw]. unfold wordShift, wordMask. rewrite Hw.
  rewrite land_bit by (rewrite land63; apply Z.mod_pos_bound; lia).
  assert (bit_at ws idx = Z.testbit w (Z.land idx 63)) as Hb by (unfold bit_at; rewrite Hw; done).
  rewrite <- Hb. cbn [forallb]. rewrite set_bits_cons.
  destruct (bit_at ws idx) eqn:Eb; cbn [negb andb].
  - rewrite IH, set_bit_same by done. done.
  - assert (<[Z.to_nat (idx ≫ 6) := Z.lor w (shl64 1 (Z.land idx 63))]> ws = set_bit ws idx) as ->
      by (unfold set_bit; rewrite Hw; done).
    rewrite IH.
    + rewrite orb_true_r. done.
    + eapply Forall_impl; [exact H|]. intros y Hy. unfold in_range in *. rewrite set_bit_length. done.
Qed.

Lemma test_loop_spec n i h1 h2 m ws :
  Forall (in_range ws) (probes n i h1 h2 m) ->
  test_loop n i h1 h2 m ws = Ok (forallb (bit_at ws) (probes n i h1 h2 m)).
Proof.
  revert i. induction n as [|n IH]; intros i H; cbn [test_loop probes]; [done|].
  cbn [probes] in H. apply Forall_cons in H as [Hx H]. set (idx := probe h1 h2 m i) in *.
  destruct (word_index ws idx Hx) as [w Hw]. unfold wordShift, wordMask. rewrite Hw.
  rewrite land_bit by (rewrite land63; apply Z.mod_pos_bound; lia).
  assert (bit_at ws idx = Z.testbit w (Z.land idx 63)) as Hb by (unfold bit_at; rewrite Hw; done).
  rewrite <- Hb. cbn [forallb]. destruct (bit_at ws idx); cbn [negb andb]; [apply IH, H|done].
Qed.

Definition key_probes (b : Bloom) (key : bytes) : list Z :=
  let '(h1, h2) := hash128 domainBloom key in probes (Z.to_nat (bk b)) 0 h1 h2 (mBits b).

Lemma probes_range n i h1 h2 m ws :
  0 < m -> m = 64 * Z.of_nat (length ws) -> Forall (in_range ws) (probes n i h1 h2 m).
Proof.
  intros Hm E. revert i. induction n as [|n IH]; intros i; cbn; constructor; [|apply IH].
  unfold in_range, probe. rewrite <- E. apply Z.mod_pos_bound, Hm.
Qed.

Lemma wf_bits b : wf b -> 0 < mBits b /\ mBits b = 64 * Z.of_nat (length (words b)).
Proof.
  intros H. pose proof (wf_m_range b H). pose proof (wf_words b H) as ->. pose proof (wf_m b H).
  split; [lia|]. rewrite (Z.div_mod (mBits b) 64) at 1 by lia. lia.
Qed.

Lemma key_probes_range b key : wf b -> Forall (in_range (words b)) (key_probes b key).
Proof. intros [H1 H2]%wf_bits. unfold key_probes. destruct (hash128 _ _). apply probes_range; done. Qed.

(** [Add] and [Test] of a well-formed filter, in terms of the bits. *)
Lemma bloom_Add_spec b key :
  wf b ->
  Add b key = Ok (MkBloom (mBits b) (bk b) (set_bits (words b) (key_probes b key))
    (if forallb (bit_at (words b)) (key_probes b key) then bcount b else satAdd64 (bcount b) 1)
    (capacity b) (fpRate b) (bcreated b)).
Proof.
  intros H. pose proof (key_probes_range b key H) as Hr. destruct (wf_bits b H) as [Hm _]. unfold Add, key_probes in *.
  rewrite (proj2 (Z.eqb_neq _ _)) by lia. destruct (hash128 domainBloom key) as [h1 h2].
  rewrite add_loop_spec by done. cbn [obind]. destruct (forallb _ _); done.
Qed.

Lemma Test_spec b key : wf b -> Test b key = Ok (forallb (bit_at (words b)) (key_probes b key)).
Proof.
  intros H. pose proof (key_probes_range b key H) as Hr. destruct (wf_bits b H) as [Hm _]. unfold Test, key_probes in *.
  rewrite (proj2 (Z.eqb_neq _ _)) by lia. destruct (hash128 domainBloom key) as [h1 h2].
  apply test_loop_spec. done.
Qed.

Lemma wf_Add b key :
  wf b -> exists b', Add b key = Ok b' /\ wf b' /\ Test b' key = Ok true /\
    (forall k, Test b k = Ok true -> Test b' k = Ok true) /\
    (Test b key = Ok true -> b' = b) /\ bcount b' <= bcount b + 1.
Proof.
  intros H. rewrite bloom_Add_spec by done. eexists. split; [reflexivity|].
  pose proof (key_probes_range b key H) as Hr. set (ws := set_bits _ _).
  destruct (satAdd64_range (bcount b) 1 (wf_count b H) ltac:(lia)) as [Hs1 Hs2].
  match goal with |- wf ?x /\ _ => set (b' := x) end.
  assert (wf b') as Hwf.
  { destruct H. split; unfold b'; cbn [mBits bk words bcount capacity fpRate bcreated]; try done.
    - unfold ws. rewrite set_bits_length. done.
    - apply set_bits_word. done.
    - by destruct (forallb _ _). }
  assert (forall k, key_probes b' k = key_probes b k) as Hp by done.
  assert (forall j, 0 <= j -> bit_at (words b') j = bit_at (words b) j || bool_decide (j ∈ key_probes b key)) as Hb
    by (intros; apply set_bits_at; done).
  split; [done|]. rewrite !Test_spec by done.
  assert (forall k, Test b k = Ok true -> Test b' k = Ok true) as Hmono.
  { intros k. rewrite !Test_spec by done. intros [= Hk]. f_equal. rewrite Hp. apply forallb_forall. intros j Hj.
    rewrite forallb_forall in Hk. pose proof (key_probes_range b k H) as Hr'. rewrite Forall_forall in Hr'.
    rewrite Hb by (apply (Hr' j), list_elem_of_In, Hj). rewrite Hk by done. done. }
  split_and!; [|done| |].
  - f_equal. rewrite Hp. apply forallb_forall. intros j Hj%list_elem_of_In. rewrite Forall_forall in Hr.
    rewrite Hb by (apply (Hr j), Hj). rewrite bool_decide_true by done. apply orb_true_r.
  - intros [= Ht]. unfold b', ws. rewrite Ht, set_bits_same by done. by destruct b.
  - unfold b'. cbn. destruct (forallb _ _); lia.
Qed.

(** Any sequence of keys. *)
Lemma add_keys_ok (ks : list bytes) (b : Bloom) (S : gset bytes) :
  wf b -> (forall k, k ∈ S -> Test b k = Ok true) ->
  exists b', add_keys b ks = Ok b' /\ wf b' /\ (forall k, k ∈ ks -> Test b' k = Ok true) /\
    (forall k, Test b k = Ok true -> Test b' k = Ok true) /\
    bcount b' <= bcount b + Z.of_nat (size ((list_to_set ks : gset bytes) ∖ S)).
Proof.
  revert b S. induction ks as [|k ks IH]; intros b S H HS; cbn [add_keys].
  { exists b. split_and!; [done|done|set_solver|done|]. lia. }
  destruct (wf_Add b k H) as (b1 & E & H1 & T1 & T2 & T3 & C). rewrite E. cbn [obind].
  destruct (IH b1 (S ∪ {[k]}) H1) as (b' & E' & H' & T1' & T2' & C').
  { intros x Hx. apply elem_of_union in Hx as [Hx|Hx%elem_of_singleton]; [auto|by subst]. }
  exists b'. split_and!; [done|done| |auto|].
  - intros x [->|Hx]%elem_of_cons; auto.
  - etrans; [exact C'|]. cbn [list_to_set].
    destruct (decide (k ∈ S)) as [Hk|Hk].
    + rewrite (T3 (HS k Hk)).
      replace (({[k]} ∪ list_to_set ks) ∖ S) with ((list_to_set ks : gset bytes) ∖ (S ∪ {[k]})) by set_solver. lia.
    + replace (({[k]} ∪ list_to_set ks) ∖ S) with ({[k]} ∪ ((list_to_set ks : gset bytes) ∖ (S ∪ {[k]}))).
      2: { apply set_eq. intros x. destruct (decide (x = k)); set_solver. }
      rewrite size_add by set_solver. lia.
Qed.

(** ** Construction *)

Lemma ldiff_mask z : 0 <= z -> Z.ldiff z 63 = z - z mod 64 /\ Z.ldiff z 63 mod 64 = 0.
Proof.
  intros Hz. change 63 with (Z.ones 6). rewrite Z.ldiff_ones_r, Z.shiftl_mul_pow2, Z.shiftr_div_pow2 by lia.
  change (2 ^ 6) with 64. split; [pose proof (Z.div_mod z 64); lia|apply Z.mod_mul; lia].
Qed.

(** The sizing always lands on a whole number of words within the ceiling. *)
Lemma bloomSizing_range mRaw kRaw n p :
  let '(k, m) := bloomSizing mRaw kRaw n p in 1 <= k <= 64 /\ 64 <= m <= MaxBloomBits /\ m mod 64 = 0.
Proof.
  unfold bloomSizing, wordBits, wordMask, maxBloomHashes. set (z := add64 _ _).
  assert (0 <= z) as Hz by apply u64_range. destruct (ldiff_mask z Hz) as [_ Hm]. unfold MaxBloomBits.
  pose proof (clampInt_range (kRaw (mRaw n p) n) 1 64). pose proof (clampInt_range (kRaw (2 ^ 28) n) 1 64).
  destruct (_ >? 2 ^ 28) eqn:E; bsolve; cbn [Z.eqb].
  - change (2 ^ 28 =? 0) with false. cbn iota. split_and!; try lia. done.
  - assert (0 <= Z.ldiff z 63) by (apply Z.ldiff_nonneg; lia).
    destruct (_ =? 0) eqn:E0; bsolve; split_and!; try lia; try done.
    pose proof (Z.div_mod (Z.ldiff z 63) 64). lia.
Qed.

Lemma wf_NewBloom mRaw kRaw cap rate : 0 <= rate < 2 ^ 64 -> wf (NewBloom mRaw kRaw cap rate).
Proof.
  intros Hr. unfold NewBloom. pose proof (bloomSizing_range mRaw kRaw (clampInt cap 1 MaxBloomCapacity)
    (clamp rate minBloomFPRate maxBloomFPRate)) as H. destruct (bloomSizing _ _ _ _) as [k m].
  destruct H as (H1 & H2 & H3). unfold wordBits. split; cbn; try done; try lia.
  - rewrite length_replicate, Z2Nat.id; [done|]. apply Z.div_pos; lia.
  - apply Forall_replicate. lia.
  - apply clampInt_range. unfold MaxBloomCapacity. lia.
  - by apply clamp_rate.
  - apply clamp_bits; [done|unfold minBloomFPRate; lia|unfold maxBloomFPRate; lia].
Qed.

(** ** Round trip *)

Lemma small_exact n : 0 <= n < 2 ^ 53 -> F64.exact_int n.
Proof. by left. Qed.

Lemma bloom_params b :
  Params (Bloom_Header b) !! paramM = Some (F64.of_int (mBits b)) /\
  Params (Bloom_Header b) !! paramK = Some (F64.of_int (bk b)) /\
  Params (Bloom_Header b) !! paramCapacity = Some (F64.of_int (capacity b)) /\
  Params (Bloom_Header b) !! paramFPRate = Some (fpRate b).
Proof. cbn [Params Bloom_Header]. split_and!; by simplify_map_eq. Qed.

Lemma bloom_wf_exact b : wf b -> F64.exact_int (mBits b) /\ F64.exact_int (bk b) /\ F64.exact_int (capacity b).
Proof.
  intros H. pose proof (wf_m_range b H). pose proof (wf_k b H). pose proof (wf_capacity b H).
  unfold MaxBloomBits, MaxBloomCapacity in *. split_and!; apply small_exact; lia.
Qed.

Lemma bloom_header_ok b : wf b -> header_ok (Bloom_Header b).
Proof.
  intros H. destruct (bloom_wf_exact b H) as (E1 & E2 & E3). unfold header_ok, Bloom_Header, FormatVersion.
  cbn [Ver hKind Params Count Created]. split; [lia|]. split; [done|]. split; [apply H|]. split; [apply H|].
  intros k v Hv. rewrite !lookup_insert_Some, lookup_singleton_Some in Hv.
  destruct Hv as [[_ <-]|[_ [[_ <-]|[_ [[_ <-]|[_ [_ <-]]]]]]]; try (apply F64.of_int_range; done). apply H.
Qed.

Lemma bloom_words b : wf b -> (8 * length (words b))%nat = Z.to_nat (mBits b / 8) /\ Z.to_nat (mBits b / 64) = length (words b).
Proof.
  intros H. destruct (wf_bits b H) as [_ Hm]. rewrite Hm. split.
  - replace (64 * Z.of_nat (length (words b))) with (8 * Z.of_nat (length (words b)) * 8) by lia.
    rewrite Z.div_mul by lia. lia.
  - rewrite Z.mul_comm, Z.div_mul by lia. apply Nat2Z.id.
Qed.

Lemma Bloom_decode_encode b :
  wf b -> forall crc, Bloom_decodeV1 (stamped (Bloom_Header b) crc) (encode_words 8 (words b)) = Ok b.
Proof.
  intros H crc. destruct (bloom_wf_exact b H) as (E1 & E2 & E3), (bloom_params b) as (P1 & P2 & P3 & P4).
  pose proof (wf_m_range b H). pose proof (wf_k b H). pose proof (wf_capacity b H). pose proof (wf_m b H).
  destruct (bloom_words b H) as [W1 W2]. unfold Bloom_decodeV1, wordBits, bitsPerByte, maxBloomHashes.
  rewrite (MustParamInt_of_int _ paramM (mBits b)) by done. cbn [obind]. rewrite wf_m by done. cbn [Z.eqb negb].
  rewrite (MustParamInt_of_int _ paramK (bk b)) by done. cbn [obind].
  rewrite (MustParamInt_of_int _ paramCapacity (capacity b)) by done. cbn [obind].
  unfold Param. change (Params (stamped (Bloom_Header b) crc)) with (Params (Bloom_Header b)). rewrite P4.
  rewrite (wf_rate b H). cbn [negb]. rewrite encode_words_length, W1, Z2Nat.id by (apply Z.div_pos; lia).
  rewrite Z.eqb_refl, W2. cbn [negb]. rewrite decode_encode_words; [|lia|apply H]. cbn [obind]. by destruct b.
Qed.

Lemma Bloom_roundtrip b f : wf b -> Bloom_MarshalBinary b = Ok f -> Bloom_UnmarshalBinary f = Ok b.
Proof.
  intros H. unfold Bloom_MarshalBinary. destruct (_ || _); [done|]. intros Hm.
  destruct (encode_decode _ _ _ (bloom_header_ok b H) Hm) as (g & _ & Hd). unfold Bloom_UnmarshalBinary.
  rewrite Hd. cbn [obind hKind stamped Bloom_Header Ver]. rewrite Z.eqb_refl. cbn [negb Z.eqb FormatVersion].
  apply Bloom_decode_encode, H.
Qed.

Lemma bloom_param_count b : (size (Params (Bloom_Header b)) <= 4)%nat.
Proof.
  cbn [Params Bloom_Header]. do 3 (etrans; [apply map_size_insert_le|apply le_n_S]).
  rewrite map_size_singleton. done.
Qed.

(** Every filter within the ceilings encodes: the frame always fits. *)
Lemma Bloom_marshal_ok b : wf b -> exists f, Bloom_MarshalBinary b = Ok f.
Proof.
  intros H. pose proof (wf_m_range b H) as Hm. pose proof (wf_k b H). unfold Bloom_MarshalBinary.
  rewrite (proj2 (Z.eqb_neq _ _)), (proj2 (Z.eqb_neq _ _)) by lia. cbn [orb].
  apply encode_fits; [apply bloom_header_ok, H| | |].
  - intros k v Hv. cbn [Params Bloom_Header] in Hv. rewrite !lookup_insert_Some, lookup_singleton_Some in Hv.
    destruct Hv as [[<- _]|[_ [[<- _]|[_ [[<- _]|[_ [<- _]]]]]]]; reflexivity.
  - pose proof (bloom_param_count b). lia.
  - pose proof (bloom_param_count b). rewrite encode_words_length. destruct (bloom_words b H) as [-> _].
    rewrite Z2Nat.id by (apply Z.div_pos; lia). unfold MaxBloomBits, MaxFrameBytes in *.
    pose proof (Z.div_le_mono (mBits b) (2 ^ 28) 8). change (2 ^ 28 / 8) with (2 ^ 25) in *. lia.
Qed.

(** ** The interface is implemented *)

Lemma Bloom_decode_spec b :
  match Bloom_UnmarshalBinary b with Ok x => wf x | Err _ => True | Panic => False end.
Proof.
  unfold Bloom_UnmarshalBinary. pose proof (DecodeHeader_spec b) as Hd.
  destruct (DecodeHeader b) as [[h body]| |]; [|done|done]. cbn [obind].
  destruct Hd as (_ & _ & (_ & _ & Hcnt & Hcr & Hval) & _).
  destruct (negb _); [done|]. destruct (Ver h =? 1); [|done]. unfold Bloom_decodeV1.
  destruct (MustParamInt h paramM _ _) as [m| |] eqn:E1; [|done|by apply MustParamInt_no_panic in E1].
  cbn [obind]. destruct (m mod wordBits =? 0) eqn:E2; [|done]. cbn [negb].
  destruct (MustParamInt h paramK _ _) as [k| |] eqn:E3; [|done|by apply MustParamInt_no_panic in E3].
  cbn [obind].
  destruct (MustParamInt h paramCapacity _ _) as [c| |] eqn:E4; [|done|by apply MustParamInt_no_panic in E4].
  cbn [obind]. destruct (Param h paramFPRate) as [r|] eqn:Er; [|done].
  destruct (rate_ok r) eqn:Ero; [|done]. cbn [negb].
  destruct (Z.of_nat (length body) =? _) eqn:E5; [|done]. cbn [negb]. bsolve.
  apply MustParamInt_range in E1, E3, E4. unfold wordBits, bitsPerByte in *.
  assert (0 <= m / 64) as Hm by (apply Z.div_pos; lia).
  destruct (decode_words_ok 8 (Z.to_nat (m / 64)) body) as (ws & -> & Hl & Hf).
  - apply Nat2Z.inj_le. rewrite Nat2Z.inj_mul, Z2Nat.id, E5 by done.
    rewrite (Z.div_mod m 64) at 2 by lia. rewrite E2.
    replace (64 * (m / 64) + 0) with (8 * (m / 64) * 8) by lia. rewrite Z.div_mul by lia. lia.
  - cbn [obind]. split; cbn [mBits bk words bcount capacity fpRate bcreated]; try done.
    + rewrite Hl, Z2Nat.id by done. done.
    + eapply Hval, Er.
Qed.

#[global] Instance Bloom_Laws : SketchLaws Bloom wf.
Proof.
  split.
  - apply Bloom_roundtrip.
  - intros b. pose proof (Bloom_decode_spec b) as H. cbn. by destruct (Bloom_UnmarshalBinary b).
Qed.

#[global] Instance Bloom_Decodes : SketchDecodes Bloom wf.
Proof. intros b x E. pose proof (Bloom_decode_spec b) as H. cbn in E. rewrite E in H. done. Qed.

(** ** Claims *)

(** A filter sized by 10 bits per entry and 7 probes. *)
Definition demo_mRaw (n _ : Z) : Z := 10 * n.
Definition demo_kRaw (_ _ : Z) : Z := 7.
Definition demo_bloom : Bloom := NewBloom demo_mRaw demo_kRaw 100 0x3f847ae147ae147b.

Example demo_bloom_size : mBits demo_bloom = 1024 /\ bk demo_bloom = 7 /\ capacity demo_bloom = 100.
Proof. vm_compute. split_and!; reflexivity. Qed.

Lemma demo_bloom_wf : wf demo_bloom.
Proof. apply wf_NewBloom. lia. Qed.

(** The filter has no false negatives: after any sequence of additions to a well-formed filter
    no word access is out of range, every added key tests true, every key that tested true before
    still does, and the count has grown by at most the number of distinct keys added. *)
Theorem bloom_no_false_negatives b ks :
  wf b ->
  exists b', add_keys b ks = Ok b' /\ wf b' /\ (forall k, k ∈ ks -> Test b' k = Ok true) /\
    (forall k, Test b k = Ok true -> Test b' k = Ok true) /\
    bcount b' <= bcount b + Z.of_nat (size (list_to_set ks : gset bytes)).
Proof.
  intros H. destruct (add_keys_ok ks b ∅ H) as (b' & E & H1 & H2 & H3 & H4); [set_solver|].
  exists b'. split_and!; try done. replace (list_to_set ks ∖ ∅) with (list_to_set ks : gset bytes) in H4 by set_solver.
  exact H4.
Qed.

Lemma bloom_no_false_negatives_witness :
  exists b', add_keys demo_bloom [str "a"; str "b"; str "a"] = Ok b' /\ Test b' (str "b") = Ok true.
Proof.
  destruct (bloom_no_false_negatives demo_bloom [str "a"; str "b"; str "a"] demo_bloom_wf) as (b' & E & _ & H & _).
  exists b'. split; [exact E|]. apply H. apply list_elem_of_In. right. left. reflexivity.
Defined.

(** Adding a key that already tests true leaves the filter exactly as it was, count included. *)
Theorem bloom_add_present_noop b key : wf b -> Test b key = Ok true -> Add b key = Ok b.
Proof.
  intros H Ht. destruct (wf_Add b key H) as (b' & E & _ & _ & _ & Hsame & _). rewrite E, (Hsame Ht). done.
Qed.

Lemma bloom_add_present_noop_witness :
  exists b, Add demo_bloom (str "a") = Ok b /\ Add b (str "a") = Ok b.
Proof.
  destruct (wf_Add demo_bloom (str "a") demo_bloom_wf) as (b & E & Hw & Ht & _). exists b.
  split; [exact E|]. exact (bloom_add_present_noop b (str "a") Hw Ht).
Defined.

(** Whatever the requested capacity and rate (NaN and infinities included) and whatever the
    logarithms return, the filter [NewBloom] builds is well formed, can be saved, and after any
    additions loads back as the same filter. *)
Theorem bloom_constructible_persists mRaw kRaw cap rate keys :
  0 <= rate < 2 ^ 64 ->
  exists b f, RebuildBloom mRaw kRaw cap rate keys = Ok b /\ wf b /\
    MarshalBinary b = Ok f /\ UnmarshalBinary f = Ok b.
Proof.
  intros Hr. destruct (add_keys_ok keys (NewBloom mRaw kRaw cap rate) ∅ (wf_NewBloom _ _ _ _ Hr))
    as (b & E & Hw & _); [set_solver|]. destruct (Bloom_marshal_ok b Hw) as [f Hf].
  exists b, f. split_and!; [done|done|done|]. exact (marshal_loads b f Hw Hf).
Qed.

Lemma bloom_constructible_persists_witness :
  exists b f, RebuildBloom demo_mRaw demo_kRaw 100 0x7ff8000000000001 [str "x"] = Ok b /\ wf b /\
    MarshalBinary b = Ok f /\ UnmarshalBinary f = Ok b.
Proof. apply (bloom_constructible_persists demo_mRaw demo_kRaw 100 0x7ff8000000000001 [str "x"]). lia. Defined.
