(* ===== verification/CMS.v ===== *)
(** * [internal/sketch/cms.go]: the Count-Min sketch behind [touch.cms]

    The table, its probe loops (an out-of-range cell is a [Panic]), merging and its frame.  The two
    floating-point sizing formulas of [NewCMS] are library calls: they are the parameters [widthOf]
    and [depthOf]; the halving loop and the clamps around them are the code's.  [Scale], a
    floating-point multiplication of every counter, is not modelled. *)

From S2P Require Import Prelude GoLib Core Frame.

Open Scope go_scope.

(** ** The table *)

Definition counterBytes : Z := 4.

(** [minCMSEpsilon = 1e-5], [minCMSDelta = 1e-9] and the two ceilings of 0.5, as bit patterns. *)
Definition minCMSEpsilon : Z := 0x3ee4f8b588e368f1.
Definition maxCMSEpsilon : Z := 0x3fe0000000000000.
Definition minCMSDelta : Z := 0x3e112e0be826d695.
Definition maxCMSDelta : Z := 0x3fe0000000000000.

Definition paramDelta : bytes := str "delta".
Definition paramDepth : bytes := str "depth".
Definition paramEpsilon : bytes := str "epsilon".
Definition paramWidth : bytes := str "width".

Record CMS := MkCMS {
  width : Z; depth : Z; cells : list Z; total : Z; epsilon : Z; delta : Z; created : Z }.

(** [for width*depth > MaxCMSCells { width /= 2 }]: [fuel] halvings reach 0 from any machine int. *)
Fixpoint halve (fuel : nat) (w d : Z) : Z :=
  match fuel with
  | O => w
  | S fuel => if w * d >? MaxCMSCells then halve fuel (Z.quot w 2) d else w
  end.

Definition NewCMS (widthOf depthOf : Z -> Z) (eps dlt : Z) : CMS :=
  let eps := clamp eps minCMSEpsilon maxCMSEpsilon in
  let dlt := clamp dlt minCMSDelta maxCMSDelta in
  let d := clampInt (depthOf dlt) 1 MaxCMSDepth in
  let w := halve 64 (widthOf eps) d in
  let w := if w <? 1 then 1 else w in
  MkCMS w d (replicate (Z.to_nat (w * d)) 0) 0 eps dlt 0.

Definition cellIndex (w j h1 h2 : Z) : Z := j * w + add64 h1 (mul64 j h2) mod w.

(** [if cell > MaxUint32-n { cell = MaxUint32 } else { cell += n }]. *)
Definition satCell (x n : Z) : Z := if x >? MaxUint32 - n then MaxUint32 else x + n.

Fixpoint add_rows (rows : nat) (j w h1 h2 n : Z) (cs : list Z) : outcome sketch_error (list Z) :=
  match rows with
  | O => Ok cs
  | S rows =>
      let idx := Z.to_nat (cellIndex w j h1 h2) in
      match cs !! idx with
      | None => Panic
      | Some x => add_rows rows (j + 1) w h1 h2 n (<[idx := satCell x n]> cs)
      end
  end.

Definition Add (c : CMS) (key : bytes) (n : Z) : outcome sketch_error CMS :=
  if (n =? 0) || (width c <? 1) || (depth c <? 1) then Ok c
  else
    let '(h1, h2) := hash128 domainCMS key in
    let! cs := add_rows (Z.to_nat (depth c)) 0 (width c) h1 h2 n (cells c) in
    Ok (MkCMS (width c) (depth c) cs (satAdd64 (total c) n) (epsilon c) (delta c) (created c)).

Fixpoint min_rows (rows : nat) (j w h1 h2 best : Z) (cs : list Z) : outcome sketch_error Z :=
  match rows with
  | O => Ok best
  | S rows =>
      match cs !! Z.to_nat (cellIndex w j h1 h2) with
      | None => Panic
      | Some v => min_rows rows (j + 1) w h1 h2 (if v <? best then v else best) cs
      end
  end.

Definition Estimate (c : CMS) (key : bytes) : outcome sketch_error Z :=
  if (width c <? 1) || (depth c <? 1) then Ok 0
  else
    let '(h1, h2) := hash128 domainCMS key in
    min_rows (Z.to_nat (depth c)) 0 (width c) h1 h2 MaxUint32 (cells c).

(** [for i, v := range o.cells { c.cells[i] ... }]. *)
Fixpoint merge_cells (cs os : list Z) : outcome sketch_error (list Z) :=
  match os with
  | [] => Ok cs
  | v :: os =>
      match cs with
      | [] => Panic
      | x :: cs => let! r := merge_cells cs os in Ok (satCell x v :: r)
      end
  end.

Definition MergeFrom (c o : CMS) : outcome sketch_error CMS :=
  if negb (width c =? width o) || negb (depth c =? depth o) then Err ErrShapeMismatch
  else
    let! cs := merge_cells (cells c) (cells o) in
    Ok (MkCMS (width c) (depth c) cs (satAdd64 (total c) (total o)) (epsilon c) (delta c) (created c)).

Definition CMS_SetCreated (c : CMS) (t : Z) : CMS :=
  MkCMS (width c) (depth c) (cells c) (total c) (epsilon c) (delta c) t.

(** ** Its frame *)

Definition CMS_Header (c : CMS) : Header :=
  MkHeader HeaderMagic FormatVersion KindCMS
    (<[paramDelta := delta c]> (<[paramDepth := F64.of_int (depth c)]>
      (<[paramEpsilon := epsilon c]> {[paramWidth := F64.of_int (width c)]})))
    (total c) (created c) 0.

Definition CMS_MarshalBinary (c : CMS) : outcome sketch_error bytes :=
  if (width c <? 1) || (depth c <? 1) then Err ErrMalformed
  else EncodeHeader (CMS_Header c) (encode_words 4 (cells c)).

Definition cmsRateParam (h : Header) (name : bytes) : outcome sketch_error Z :=
  match Param h name with
  | None => Err ErrMalformed
  | Some v => if negb (rate_ok v) then Err ErrMalformed else Ok v
  end.

Definition CMS_decodeV1 (h : Header) (body : bytes) : outcome sketch_error CMS :=
  let! d := MustParamInt h paramDepth 1 MaxCMSDepth in
  let! w := MustParamInt h paramWidth 1 MaxCMSCells in
  if w * d >? MaxCMSCells then Err ErrMalformed
  else
    let! eps := cmsRateParam h paramEpsilon in
    let! dlt := cmsRateParam h paramDelta in
    if negb (Z.of_nat (length body) =? w * d * counterBytes) then Err ErrTruncated
    else
      let! cs := decode_words 4 (Z.to_nat (w * d)) body in
      Ok (MkCMS w d cs (Count h) eps dlt (Created h)).

Definition CMS_UnmarshalBinary (data : bytes) : outcome sketch_error CMS :=
  let! (h, body) := DecodeHeader data in
  if negb (hKind h =? KindCMS) then Err ErrKindMismatch
  else if Ver h =? 1 then CMS_decodeV1 h body else Err ErrUnsupportedVersion.

#[global] Instance CMS_Sketch : Sketch CMS := {
  Header_of := CMS_Header;
  MarshalBinary := CMS_MarshalBinary;
  UnmarshalBinary := CMS_UnmarshalBinary
}.

(** ** Well-formed tables *)

Definition cell_ok (x : Z) : Prop := 0 <= x <= MaxUint32.

Record wf (c : CMS) : Prop := {
  wf_width : 1 <= width c;
  wf_depth : 1 <= depth c <= MaxCMSDepth;
  wf_size : width c * depth c <= MaxCMSCells;
  wf_cells : Z.of_nat (length (cells c)) = width c * depth c;
  wf_cell : Forall cell_ok (cells c);
  wf_total : 0 <= total c < 2 ^ 64;
  wf_epsilon : rate_ok (epsilon c) = true;
  wf_epsilon_bits : 0 <= epsilon c < 2 ^ 64;
  wf_delta : rate_ok (delta c) = true;
  wf_delta_bits : 0 <= delta c < 2 ^ 64;
  wf_created : - 2 ^ 63 <= created c < 2 ^ 63
}.

(** ** Saturating cells *)

Lemma satCell_min x n : cell_ok x -> cell_ok n -> satCell x n = Z.min MaxUint32 (x + n).
Proof. unfold cell_ok, satCell. intros. ifcase; lia. Qed.

Lemma satCell_ok x n : cell_ok x -> cell_ok n -> cell_ok (satCell x n).
Proof. intros Hx Hn. rewrite satCell_min by done. unfold cell_ok, MaxUint32 in *. lia. Qed.

Lemma satCell_0_r x : cell_ok x -> satCell x 0 = x.
Proof. intros H. rewrite satCell_min by (done || unfold cell_ok, MaxUint32; lia). unfold cell_ok in H. lia. Qed.

Lemma satCell_assoc x y n : cell_ok x -> cell_ok y -> cell_ok n -> satCell x (satCell y n) = satCell (satCell x y) n.
Proof.
  intros Hx Hy Hn. rewrite (satCell_min x), (satCell_min (satCell x y)) by (done || apply satCell_ok; done).
  rewrite !satCell_min by done. unfold cell_ok, MaxUint32 in *. lia.
Qed.

(** The cells a key touches, row by row. *)
Fixpoint key_cells (rows : nat) (j w h1 h2 : Z) : list nat :=
  match rows with
  | O => []
  | S rows => Z.to_nat (cellIndex w j h1 h2) :: key_cells rows (j + 1) w h1 h2
  end.

Definition bump (n : Z) (cs : list Z) (i : nat) : list Z := alter (fun x => satCell x n) i cs.
Definition bumps (n : Z) (cs : list Z) (ix : list nat) : list Z := fold_left (bump n) ix cs.

Lemma cellIndex_range w j h1 h2 : 1 <= w -> 0 <= j -> j * w <= cellIndex w j h1 h2 < (j + 1) * w.
Proof. intros Hw Hj. unfold cellIndex. pose proof (Z.mod_pos_bound (add64 h1 (mul64 j h2)) w). lia. Qed.

Lemma key_cells_range rows j w h1 h2 L :
  1 <= w -> 0 <= j -> (j + Z.of_nat rows) * w <= Z.of_nat L ->
  Forall (fun i => (i < L)%nat) (key_cells rows j w h1 h2).
Proof.
  intros Hw. revert j. induction rows as [|rows IH]; intros j Hj HL; cbn [key_cells]; constructor.
  - pose proof (cellIndex_range w j h1 h2 Hw Hj). nia.
  - apply IH; [lia|]. rewrite <- HL. nia.
Qed.

Lemma bumps_cons n cs i ix : bumps n cs (i :: ix) = bumps n (bump n cs i) ix.
Proof. done. Qed.

Lemma bumps_length n cs ix : length (bumps n cs ix) = length cs.
Proof. revert cs. induction ix as [|i ix IH]; intros cs; [done|]. rewrite bumps_cons, IH. apply length_alter. Qed.

Lemma bump_ok n cs i : cell_ok n -> Forall cell_ok cs -> Forall cell_ok (bump n cs i).
Proof.
  intros Hn H. unfold bump. apply Forall_alter; [done|]. intros x Hx _. apply satCell_ok; [|done].
  rewrite Forall_lookup in H. eapply H, Hx.
Qed.

Lemma bumps_ok n cs ix : cell_ok n -> Forall cell_ok cs -> Forall cell_ok (bumps n cs ix).
Proof.
  intros Hn. revert cs. induction ix as [|i ix IH]; intros cs H; [done|]. rewrite bumps_cons.
  apply IH, bump_ok; done.
Qed.

Lemma add_rows_spec rows j w h1 h2 n cs :
  Forall (fun i => (i < length cs)%nat) (key_cells rows j w h1 h2) ->
  add_rows rows j w h1 h2 n cs = Ok (bumps n cs (key_cells rows j w h1 h2)).
Proof.
  revert j cs. induction rows as [|rows IH]; intros j cs H; cbn [add_rows key_cells]; [done|].
  cbn [key_cells] in H. apply Forall_cons in H as [Hi H].
  destruct (lookup_lt_is_Some_2 cs _ Hi) as [x Hx]. rewrite Hx, bumps_cons.
  assert (bump n cs (Z.to_nat (cellIndex w j h1 h2)) = <[Z.to_nat (cellIndex w j h1 h2) := satCell x n]> cs) as ->
    by (unfold bump; rewrite list_insert_alter; apply (list_alter_ext _ _ cs cs); [intros y Hy; congruence|done]).
  apply IH. rewrite length_insert. done.
Qed.

Definition cells_of (c : CMS) (key : bytes) : list nat :=
  let '(h1, h2) := hash128 domainCMS key in key_cells (Z.to_nat (depth c)) 0 (width c) h1 h2.

Lemma cells_of_range c key : wf c -> Forall (fun i => (i < length (cells c))%nat) (cells_of c key).
Proof.
  intros H. unfold cells_of. destruct (hash128 _ _). pose proof (wf_depth c H). pose proof (wf_width c H).
  apply key_cells_range; [done|lia|]. rewrite (wf_cells c H). nia.
Qed.

Lemma cms_Add_spec c key n :
  wf c -> 1 <= n <= MaxUint32 ->
  Add c key n = Ok (MkCMS (width c) (depth c) (bumps n (cells c) (cells_of c key)) (satAdd64 (total c) n)
    (epsilon c) (delta c) (created c)).
Proof.
  intros H Hn. pose proof (cells_of_range c key H) as Hr. pose proof (wf_depth c H). pose proof (wf_width c H).
  unfold Add, cells_of in *. rewrite (proj2 (Z.eqb_neq n 0)), !(proj2 (Z.ltb_ge _ _)) by lia. cbn [orb].
  destruct (hash128 domainCMS key) as [h1 h2]. rewrite add_rows_spec by done. done.
Qed.

Lemma min_rows_spec rows j w h1 h2 best cs :
  Forall (fun i => (i < length cs)%nat) (key_cells rows j w h1 h2) ->
  min_rows rows j w h1 h2 best cs
  = Ok (fold_left Z.min ((fun i => cs !!! i) <$> key_cells rows j w h1 h2) best).
Proof.
  revert j best. induction rows as [|rows IH]; intros j best H; cbn [min_rows key_cells]; [done|].
  cbn [key_cells] in H. apply Forall_cons in H as [Hi H].
  destruct (lookup_lt_is_Some_2 cs _ Hi) as [x Hx]. rewrite Hx, IH by done. cbn.
  rewrite (list_lookup_total_correct _ _ _ Hx). do 2 f_equal. ifcase; lia.
Qed.

Lemma Estimate_spec c key :
  wf c -> Estimate c key = Ok (fold_left Z.min ((fun i => cells c !!! i) <$> cells_of c key) MaxUint32).
Proof.
  intros H. pose proof (cells_of_range c key H) as Hr. pose proof (wf_depth c H). pose proof (wf_width c H).
  unfold Estimate, cells_of in *. rewrite !(proj2 (Z.ltb_ge _ _)) by lia. cbn [orb].
  destruct (hash128 domainCMS key) as [h1 h2]. apply min_rows_spec. done.
Qed.

Lemma fold_min_le l b x : x <= fold_left Z.min l b <-> x <= b /\ Forall (fun y => x <= y) l.
Proof.
  revert b. induction l as [|y l IH]; intros b; cbn [fold_left].
  - split; [intros; split; [done|constructor]|by intros []].
  - rewrite IH, Forall_cons, Z.min_glb_iff. tauto.
Qed.

(** Bumping never lowers a cell, and raises every cell it names. *)
Lemma bump_lookup n cs i k :
  (k < length cs)%nat -> bump n cs i !!! k = if decide (i = k) then satCell (cs !!! k) n else cs !!! k.
Proof.
  intros Hk. destruct (lookup_lt_is_Some_2 cs k Hk) as [x Hx]. apply list_lookup_total_correct.
  unfold bump. rewrite list_lookup_alter. rewrite (list_lookup_total_correct _ _ _ Hx).
  case_decide; subst; rewrite Hx; cbn; repeat case_decide; done.
Qed.

Lemma cell_total cs k : Forall cell_ok cs -> (k < length cs)%nat -> cell_ok (cs !!! k).
Proof.
  intros H Hk. destruct (lookup_lt_is_Some_2 cs k Hk) as [x Hx]. rewrite (list_lookup_total_correct _ _ _ Hx).
  rewrite Forall_lookup in H. eapply H, Hx.
Qed.

Lemma bumps_ge n cs ix k :
  cell_ok n -> Forall cell_ok cs -> (k < length cs)%nat ->
  cs !!! k <= bumps n cs ix !!! k /\ (k ∈ ix -> Z.min MaxUint32 (cs !!! k + n) <= bumps n cs ix !!! k).
Proof.
  intros Hn. revert cs. induction ix as [|i ix IH]; intros cs H Hk; [split; [cbn; lia|set_solver]|].
  rewrite bumps_cons. destruct (IH (bump n cs i)) as [I1 I2]; [by apply bump_ok|unfold bump; rewrite length_alter; done|].
  rewrite bump_lookup in I1, I2 by done. pose proof (cell_total cs k H Hk) as Hc.
  destruct (decide (i = k)) as [->|Hne].
  - rewrite satCell_min in I1, I2 by done. unfold cell_ok, MaxUint32 in *. split; [lia|]. intros _. lia.
  - split; [done|]. intros [->|Hin]%elem_of_cons; [done|]. auto.
Qed.

(** ** Streams of additions *)

Fixpoint add_all (c : CMS) (l : list (bytes * Z)) : outcome sketch_error CMS :=
  match l with
  | [] => Ok c
  | (key, n) :: l => let! c := Add c key n in add_all c l
  end.

(** The true count of a key in a stream. *)
Fixpoint weight (key : bytes) (l : list (bytes * Z)) : Z :=
  match l with
  | [] => 0
  | (k, n) :: l => (if bool_decide (k = key) then n else 0) + weight key l
  end.

Definition weights_ok (l : list (bytes * Z)) : Prop := Forall (fun p => 0 <= p.2 <= MaxUint32) l.

(** The table after one addition, whatever the weight. *)
Definition added (c : CMS) (key : bytes) (n : Z) : CMS :=
  MkCMS (width c) (depth c) (bumps n (cells c) (cells_of c key)) (satAdd64 (total c) n)
    (epsilon c) (delta c) (created c).

Lemma bumps_0 cs ix : Forall cell_ok cs -> bumps 0 cs ix = cs.
Proof.
  revert cs. induction ix as [|i ix IH]; intros cs H; [done|]. rewrite bumps_cons.
  assert (bump 0 cs i = cs) as ->; [|auto]. unfold bump. rewrite <- (list_alter_id (fun x => x) cs i) at 2 by done.
  apply list_alter_ext; [|done]. intros x Hx. apply satCell_0_r. rewrite Forall_lookup in H. eapply H, Hx.
Qed.

Lemma satAdd64_0 t : 0 <= t < 2 ^ 64 -> satAdd64 t 0 = t.
Proof. unfold satAdd64, MaxUint64. intros. ifcase; lia. Qed.

Lemma Add_added c key n : wf c -> 0 <= n <= MaxUint32 -> Add c key n = Ok (added c key n).
Proof.
  intros H Hn. destruct (decide (n = 0)) as [->|Hz]; [|apply cms_Add_spec; [done|lia]].
  unfold Add, added. cbn [Z.eqb orb]. rewrite bumps_0, satAdd64_0 by apply H. by destruct c.
Qed.

Lemma wf_added c key n : wf c -> 0 <= n <= MaxUint32 -> wf (added c key n).
Proof.
  intros H Hn. assert (0 <= n < 2 ^ 64) as Hn' by (unfold MaxUint32 in Hn; lia).
  pose proof (proj1 (satAdd64_range (total c) n (wf_total c H) Hn')).
  destruct H. split; unfold added; cbn [width depth cells total epsilon delta created]; try done.
  - rewrite bumps_length. done.
  - apply bumps_ok; done.
Qed.

Lemma add_all_cons c key n l :
  wf c -> 0 <= n <= MaxUint32 -> add_all c ((key, n) :: l) = add_all (added c key n) l.
Proof. intros H Hn. cbn [add_all]. rewrite Add_added by done. done. Qed.

Lemma add_all_ok c l : wf c -> weights_ok l -> exists c', add_all c l = Ok c' /\ wf c' /\
  width c' = width c /\ depth c' = depth c.
Proof.
  revert c. induction l as [|[key n] l IH]; intros c H Hl; [exists c; done|].
  apply Forall_cons in Hl as [Hn Hl]. rewrite add_all_cons by done. apply (IH (added c key n)); [|done].
  apply wf_added; done.
Qed.

(** A lower bound of every cell of a key stays one, and grows with the key's own weight. *)
Lemma add_all_cells c l c' key x :
  wf c -> weights_ok l -> add_all c l = Ok c' ->
  Forall (fun i => Z.min MaxUint32 x <= cells c !!! i) (cells_of c key) ->
  Forall (fun i => Z.min MaxUint32 (x + weight key l) <= cells c' !!! i) (cells_of c' key).
Proof.
  revert c x. induction l as [|[k n] l IH]; intros c x H Hl Ha Hx.
  { injection Ha as <-. cbn [weight]. rewrite Z.add_0_r. done. }
  apply Forall_cons in Hl as [Hn Hl]. cbn [snd] in Hn. rewrite add_all_cons in Ha by done. cbn [weight].
  rewrite Z.add_assoc. eapply IH; [by apply wf_added|done|exact Ha|].
  change (cells_of (added c k n) key) with (cells_of c key).
  pose proof (cells_of_range c key H) as Hr. rewrite Forall_forall in *. intros i Hi.
  destruct (bumps_ge n (cells c) (cells_of c k) i Hn (wf_cell c H) (Hr i Hi)) as [B1 B2].
  specialize (Hx i Hi). cbn [added cells]. cbn in Hn. case_bool_decide as Hk; [subst k; specialize (B2 Hi)|]; lia.
Qed.

Lemma estimate_cells c key e :
  wf c -> Estimate c key = Ok e ->
  e <= MaxUint32 /\ Forall (fun i => e <= cells c !!! i) (cells_of c key).
Proof.
  intros H. rewrite Estimate_spec by done. intros [= <-].
  pose proof (proj1 (fold_min_le ((fun i => cells c !!! i) <$> cells_of c key) MaxUint32 _) (Z.le_refl _)) as [H1 H2].
  split; [done|]. rewrite Forall_forall in H2. apply Forall_forall. intros i Hi.
  apply H2, list_elem_of_fmap. eauto.
Qed.

(** The estimate after a stream covers any earlier lower bound plus the key's own weight. *)
Lemma estimate_grows c l c' key e e' :
  wf c -> weights_ok l -> add_all c l = Ok c' -> wf c' ->
  Forall (fun i => e <= cells c !!! i) (cells_of c key) -> Estimate c' key = Ok e' ->
  Z.min MaxUint32 (e + weight key l) <= e' <= MaxUint32.
Proof.
  intros H Hl Ha Hw He. rewrite Estimate_spec by done. intros [= <-].
  pose proof (add_all_cells c l c' key e H Hl Ha) as Hc. split.
  - apply fold_min_le. split; [lia|]. apply Forall_forall. intros x Hx. apply list_elem_of_fmap in Hx as (i & -> & Hi).
    revert i Hi. apply Forall_forall. apply Hc. eapply Forall_impl; [exact He|]. intros i Hi. cbn in Hi. lia.
  - apply (proj1 (fold_min_le _ MaxUint32 _) (Z.le_refl _)).
Qed.

Lemma estimate_at_least c l c' key e :
  wf c -> weights_ok l -> add_all c l = Ok c' -> Estimate c' key = Ok e -> Z.min MaxUint32 (weight key l) <= e.
Proof.
  intros H Hl Ha He. destruct (add_all_ok c l H Hl) as (x & Ex & Hx & _). assert (x = c') as -> by congruence.
  destruct (estimate_grows c l c' key 0 e H Hl Ha Hx) as [? _]; [|done|lia].
  pose proof (cells_of_range c key H) as Hr. eapply Forall_impl; [exact Hr|]. intros i Hi.
  apply (cell_total _ _ (wf_cell c H) Hi).
Qed.

(** ** Merging *)

Lemma zip_bump n a b i :
  cell_ok n -> Forall cell_ok a -> Forall cell_ok b ->
  zip_with satCell a (bump n b i) = bump n (zip_with satCell a b) i.
Proof.
  intros Hn Ha. revert b i. induction Ha as [|x a Hx Ha IH]; intros b i Hb; [done|].
  destruct Hb as [|y b Hy Hb]; [done|]. destruct i as [|i]; cbn.
  - f_equal. apply satCell_assoc; done.
  - f_equal. apply IH, Hb.
Qed.

Lemma zip_bumps n a b ix :
  cell_ok n -> Forall cell_ok a -> Forall cell_ok b ->
  zip_with satCell a (bumps n b ix) = bumps n (zip_with satCell a b) ix.
Proof.
  intros Hn Ha. revert b. induction ix as [|i ix IH]; intros b Hb; [done|]. rewrite !bumps_cons.
  rewrite IH by (done || by apply bump_ok). rewrite zip_bump by done. done.
Qed.

Lemma merge_cells_spec cs os : length cs = length os -> merge_cells cs os = Ok (zip_with satCell cs os).
Proof.
  revert cs. induction os as [|v os IH]; intros [|x cs] H; cbn [merge_cells]; try done.
  injection H as H. rewrite IH by done. done.
Qed.

Lemma satAdd64_assoc a b n :
  0 <= a < 2 ^ 64 -> 0 <= b < 2 ^ 64 -> 0 <= n < 2 ^ 64 -> satAdd64 a (satAdd64 b n) = satAdd64 (satAdd64 a b) n.
Proof.
  assert (forall x y, 0 <= x < 2 ^ 64 -> 0 <= y < 2 ^ 64 -> satAdd64 x y = Z.min MaxUint64 (x + y)) as H.
  { unfold satAdd64, MaxUint64. intros. ifcase; lia. }
  intros Ha Hb Hn. rewrite (H a), (H (satAdd64 a b)) by (done || by apply satAdd64_range).
  rewrite !H by done. unfold MaxUint64. lia.
Qed.

Lemma zip_ok a b : Forall cell_ok a -> Forall cell_ok b -> Forall cell_ok (zip_with satCell a b).
Proof.
  intros Ha. revert b. induction Ha as [|x a Hx Ha IH]; intros b Hb; [constructor|].
  destruct Hb; cbn; constructor; [by apply satCell_ok|auto].
Qed.

Lemma MergeFrom_spec a b :
  wf a -> wf b -> width a = width b -> depth a = depth b ->
  MergeFrom a b = Ok (MkCMS (width a) (depth a) (zip_with satCell (cells a) (cells b))
    (satAdd64 (total a) (total b)) (epsilon a) (delta a) (created a)).
Proof.
  intros Ha Hb Ew Ed. unfold MergeFrom. rewrite Ew, Ed, !Z.eqb_refl. cbn [negb orb].
  rewrite merge_cells_spec; [done|]. apply Nat2Z.inj. rewrite !wf_cells by done. congruence.
Qed.

Lemma wf_merged a b m :
  wf a -> wf b -> width a = width b -> depth a = depth b -> MergeFrom a b = Ok m -> wf m.
Proof.
  intros Ha Hb Ew Ed. rewrite MergeFrom_spec by done. intros [= <-].
  pose proof (satAdd64_range _ _ (wf_total a Ha) (wf_total b Hb)) as [Ht _].
  pose proof (zip_ok _ _ (wf_cell a Ha) (wf_cell b Hb)). pose proof (wf_cells b Hb).
  destruct Ha. split; cbn [width depth cells total epsilon delta created]; try done.
  rewrite length_zip_with. nia.
Qed.

(** Merging a table is the same as replaying its stream. *)
Lemma merge_replay a z l b :
  wf a -> wf z -> width a = width z -> depth a = depth z -> weights_ok l -> add_all z l = Ok b ->
  forall m, MergeFrom a z = Ok m -> MergeFrom a b = add_all m l.
Proof.
  revert z. induction l as [|[k n] l IH]; intros z Ha Hz Ew Ed Hl Hb m Hm; [by injection Hb as <-|].
  pose proof (wf_merged a z m Ha Hz Ew Ed Hm) as Hwm.
  apply Forall_cons in Hl as [Hn Hl]. cbn [snd] in Hn. rewrite add_all_cons in Hb by done.
  rewrite add_all_cons by done. pose proof (wf_added z k n Hz Hn) as Hz'. apply (IH _ Ha Hz' Ew Ed Hl Hb).
  rewrite MergeFrom_spec in * by done. injection Hm as <-. unfold added.
  cbn [cells total width depth epsilon delta created]. f_equal. f_equal.
  - rewrite zip_bumps by (apply Ha || apply Hz || done). unfold cells_of. cbn. rewrite Ed, Ew. done.
  - apply satAdd64_assoc; [apply Ha|apply Hz|unfold MaxUint32 in Hn; lia].
Qed.

(** A table nothing has been added to. *)
Definition empty (c : CMS) : Prop := total c = 0 /\ cells c = replicate (length (cells c)) 0.

Lemma zip_zero cs n : Forall cell_ok cs -> n = length cs -> zip_with satCell cs (replicate n 0) = cs.
Proof.
  intros H ->. induction H as [|x cs Hx H IH]; [done|]. cbn. f_equal; [by apply satCell_0_r|done].
Qed.

Lemma merge_empty a z :
  wf a -> wf z -> empty z -> width a = width z -> depth a = depth z -> MergeFrom a z = Ok a.
Proof.
  intros Ha Hz [Et Ec] Ew Ed. rewrite MergeFrom_spec by done. rewrite Ec, Et.
  rewrite zip_zero; [|apply Ha|apply Nat2Z.inj; rewrite !wf_cells by done; congruence].
  rewrite satAdd64_0 by apply Ha. by destruct a.
Qed.

Lemma add_all_app c l1 l2 a : add_all c l1 = Ok a -> add_all c (l1 ++ l2) = add_all a l2.
Proof.
  revert c. induction l1 as [|[k n] l1 IH]; intros c; cbn [add_all app]; [by intros [= <-]|].
  destruct (Add c k n); cbn [obind]; [apply IH|done|done].
Qed.

(** ** Construction *)

(** The halving loop ends within the fuel, inside the ceiling. *)
Lemma halve_spec fuel w d :
  0 <= w < 2 ^ Z.of_nat fuel -> 1 <= d -> 0 <= halve fuel w d /\ halve fuel w d * d <= MaxCMSCells.
Proof.
  unfold MaxCMSCells. revert w. induction fuel as [|fuel IH]; intros w Hw Hd; cbn [halve].
  - change (2 ^ Z.of_nat 0) with 1 in Hw. assert (w = 0) as -> by lia. split; lia.
  - rewrite Nat2Z.inj_succ, Z.pow_succ_r in Hw by lia. unfold MaxCMSCells in *. ifcase; [|split; lia].
    rewrite Z.quot_div_nonneg by lia. apply IH; [|done]. split; [apply Z.div_pos; lia|].
    apply Z.div_lt_upper_bound; lia.
Qed.

Section Construction.
  Context (widthOf depthOf : Z -> Z).
  (** [int(math.Ceil(math.E/eps))]: at most 271 829 for the clamped [eps], so the product with a
      depth of at most 64 stays a machine integer. *)
  Hypothesis width_range : forall e, 0 <= widthOf e < 2 ^ 57.

Lemma wf_NewCMS eps dlt :
  0 <= eps < 2 ^ 64 -> 0 <= dlt < 2 ^ 64 ->
  wf (NewCMS widthOf depthOf eps dlt) /\ empty (NewCMS widthOf depthOf eps dlt).
Proof.
  intros He Hd. unfold NewCMS. set (e := clamp eps _ _). set (dl := clamp dlt _ _).
  set (d := clampInt (depthOf dl) 1 MaxCMSDepth).
  assert (1 <= d <= MaxCMSDepth) as Hdr by (apply clampInt_range; unfold MaxCMSDepth; lia).
  pose proof (width_range e) as Hw. destruct (halve_spec 64 (widthOf e) d) as [H1 H2]; [cbn; lia|lia|].
  set (w := halve 64 (widthOf e) d) in *.
  assert (1 <= (if w <? 1 then 1 else w) /\ (if w <? 1 then 1 else w) * d <= MaxCMSCells) as [H3 H4].
  { unfold MaxCMSDepth, MaxCMSCells in *. ifcase; lia. }
  split.
  - split; cbn [width depth cells total epsilon delta created]; try done; try lia.
    + rewrite length_replicate, Z2Nat.id by nia. done.
    + apply Forall_replicate. unfold cell_ok, MaxUint32. lia.
    + by apply clamp_rate.
    + apply clamp_bits; [done|unfold minCMSEpsilon; lia|unfold maxCMSEpsilon; lia].
    + by apply clamp_rate.
    + apply clamp_bits; [done|unfold minCMSDelta; lia|unfold maxCMSDelta; lia].
  - split; [done|]. cbn [cells]. rewrite length_replicate. done.
Qed.

End Construction.

(** ** Round trip *)

Lemma cms_wf_exact c : wf c -> F64.exact_int (width c) /\ F64.exact_int (depth c) /\ width c <= MaxCMSCells.
Proof.
  intros H. pose proof (wf_width c H). pose proof (wf_depth c H). pose proof (wf_size c H).
  assert (width c <= MaxCMSCells) by nia. unfold MaxCMSCells, MaxCMSDepth in *.
  split_and!; [left; lia|left; lia|done].
Qed.

Lemma cms_params c :
  Params (CMS_Header c) !! paramWidth = Some (F64.of_int (width c)) /\
  Params (CMS_Header c) !! paramDepth = Some (F64.of_int (depth c)) /\
  Params (CMS_Header c) !! paramEpsilon = Some (epsilon c) /\
  Params (CMS_Header c) !! paramDelta = Some (delta c).
Proof. cbn [Params CMS_Header]. split_and!; by simplify_map_eq. Qed.

Lemma cms_param_cases c k v :
  Params (CMS_Header c) !! k = Some v ->
  paramNameOK k = true /\ (v = delta c \/ v = epsilon c \/ v = F64.of_int (width c) \/ v = F64.of_int (depth c)).
Proof.
  cbn [Params CMS_Header]. rewrite !lookup_insert_Some, lookup_singleton_Some.
  intros [[<- <-]|[_ [[<- <-]|[_ [[<- <-]|[_ [<- <-]]]]]]]; split; auto.
Qed.

Lemma cms_header_ok c : wf c -> header_ok (CMS_Header c).
Proof.
  intros H. destruct (cms_wf_exact c H) as (E1 & E2 & _). unfold header_ok, FormatVersion.
  split; [done|]. split; [done|]. split; [apply H|]. split; [apply H|].
  intros k v [_ [->|[->|[->| ->]]]]%cms_param_cases; [apply H|apply H|by apply F64.of_int_range..].
Qed.

Lemma CMS_decode_encode c crc : wf c -> CMS_decodeV1 (stamped (CMS_Header c) crc) (encode_words 4 (cells c)) = Ok c.
Proof.
  intros H. destruct (cms_wf_exact c H) as (E1 & E2 & E3), (cms_params c) as (P1 & P2 & P3 & P4).
  pose proof (wf_width c H). pose proof (wf_depth c H). pose proof (wf_size c H) as Hs. unfold CMS_decodeV1.
  rewrite (MustParamInt_of_int _ paramDepth (depth c)) by done. cbn [obind].
  rewrite (MustParamInt_of_int _ paramWidth (width c)) by done. cbn [obind].
  replace (width c * depth c >? MaxCMSCells) with false by (symmetry; rewrite Z.gtb_ltb; apply Z.ltb_ge; lia).
  unfold cmsRateParam, Param. change (Params (stamped (CMS_Header c) crc)) with (Params (CMS_Header c)).
  rewrite P3, (wf_epsilon c H). cbn [obind negb]. rewrite P4, (wf_delta c H). cbn [obind negb].
  rewrite encode_words_length. unfold counterBytes.
  replace (Z.of_nat (4 * length (cells c))) with (width c * depth c * 4) by (rewrite <- (wf_cells c H); lia).
  rewrite Z.eqb_refl, <- (wf_cells c H), Nat2Z.id. cbn [negb].
  rewrite decode_encode_words; [cbn [obind]; by destruct c|lia|].
  eapply Forall_impl; [apply H|]. unfold cell_ok, MaxUint32. cbn. lia.
Qed.

Lemma CMS_roundtrip c f : wf c -> CMS_MarshalBinary c = Ok f -> CMS_UnmarshalBinary f = Ok c.
Proof.
  intros H. unfold CMS_MarshalBinary. destruct (_ || _); [done|]. intros Hm.
  destruct (encode_decode _ _ _ (cms_header_ok c H) Hm) as (g & _ & Hd). unfold CMS_UnmarshalBinary.
  rewrite Hd. cbn [obind hKind stamped CMS_Header Ver]. rewrite Z.eqb_refl. cbn [negb Z.eqb FormatVersion].
  apply CMS_decode_encode, H.
Qed.

Lemma CMS_marshal_ok c : wf c -> exists f, CMS_MarshalBinary c = Ok f.
Proof.
  intros H. pose proof (wf_width c H). pose proof (wf_depth c H). pose proof (wf_size c H). unfold CMS_MarshalBinary.
  rewrite !(proj2 (Z.ltb_ge _ _)) by lia. cbn [orb].
  assert (size (Params (CMS_Header c)) <= 4)%nat.
  { cbn [Params CMS_Header]. do 3 (etrans; [apply map_size_insert_le|apply le_n_S]). rewrite map_size_singleton. done. }
  apply encode_fits; [by apply cms_header_ok|by intros k v [? _]%cms_param_cases|lia|].
  rewrite encode_words_length, Nat2Z.inj_mul, (wf_cells c H). unfold MaxCMSCells, MaxFrameBytes in *. lia.
Qed.

Lemma CMS_decode_spec b :
  match CMS_UnmarshalBinary b with Ok x => wf x | Err _ => True | Panic => False end.
Proof.
  unfold CMS_UnmarshalBinary. pose proof (DecodeHeader_spec b) as Hd.
  destruct (DecodeHeader b) as [[h body]| |]; [|done|done]. cbn [obind].
  destruct Hd as (_ & _ & (_ & _ & Hcnt & Hcr & Hval) & _).
  destruct (negb _); [done|]. destruct (Ver h =? 1); [|done]. unfold CMS_decodeV1.
  destruct (MustParamInt h paramDepth _ _) as [d| |] eqn:E1; [|done|by apply MustParamInt_no_panic in E1].
  cbn [obind].
  destruct (MustParamInt h paramWidth _ _) as [w| |] eqn:E2; [|done|by apply MustParamInt_no_panic in E2].
  cbn [obind]. destruct (w * d >? MaxCMSCells) eqn:E3; [done|]. unfold cmsRateParam, Param.
  destruct (Params h !! paramEpsilon) as [e|] eqn:Ee; [|done]. destruct (rate_ok e) eqn:Re; [|done]. cbn [obind negb].
  destruct (Params h !! paramDelta) as [dl|] eqn:Ed; [|done]. destruct (rate_ok dl) eqn:Rd; [|done]. cbn [obind negb].
  destruct (Z.of_nat (length body) =? _) eqn:E5; [|done]. cbn [negb]. bsolve.
  apply MustParamInt_range in E1, E2. unfold counterBytes in *.
  destruct (decode_words_ok 4 (Z.to_nat (w * d)) body) as (ws & -> & Hl & Hf); [nia|]. cbn [obind].
  split; cbn [width depth cells total epsilon delta created]; try done; try lia; eauto.
  eapply Forall_impl; [exact Hf|]. unfold cell_ok, MaxUint32. cbn. lia.
Qed.

#[global] Instance CMS_Laws : SketchLaws CMS wf.
Proof.
  split.
  - apply CMS_roundtrip.
  - intros b. pose proof (CMS_decode_spec b) as H. cbn. by destruct (CMS_UnmarshalBinary b).
Qed.

#[global] Instance CMS_Decodes : SketchDecodes CMS wf.
Proof. intros b x E. pose proof (CMS_decode_spec b) as H. cbn in E. rewrite E in H. done. Qed.

(** ** Claims *)

(** A 16-column, 3-row table. *)
Definition demo_cms : CMS := NewCMS (fun _ => 16) (fun _ => 3) 0x3fb999999999999a 0x3fa999999999999a.

Lemma demo_cms_ok : wf demo_cms /\ empty demo_cms.
Proof. apply (wf_NewCMS (fun _ => 16) (fun _ => 3)); intros; lia. Qed.

Definition demo_stream : list (bytes * Z) := [(str "a", 3); (str "b", 4); (str "a", 5)].

Lemma demo_stream_ok : weights_ok demo_stream.
Proof. repeat constructor; unfold MaxUint32; cbn; lia. Qed.

(** An estimate is never below the truth: after any stream of additions to a well-formed table,
    no cell access is out of range and every key's estimate is at least its earlier estimate plus
    the weight added for it (both capped at the counter ceiling, where counters saturate instead of
    wrapping). *)
Theorem cms_never_undercounts c l key e :
  wf c -> weights_ok l -> Estimate c key = Ok e ->
  exists c' e', add_all c l = Ok c' /\ wf c' /\ Estimate c' key = Ok e' /\
    Z.min MaxUint32 (e + weight key l) <= e' <= MaxUint32.
Proof.
  intros H Hl He. destruct (add_all_ok c l H Hl) as (c' & Ha & Hw & _). exists c'. eexists.
  split; [done|]. split; [done|]. split; [by apply Estimate_spec|].
  eapply (estimate_grows c l c' key e); try done; [apply (estimate_cells c key e H He)|by apply Estimate_spec].
Qed.

Lemma cms_never_undercounts_witness :
  exists c' e', add_all demo_cms demo_stream = Ok c' /\ wf c' /\ Estimate c' (str "a") = Ok e' /\
    Z.min MaxUint32 (0 + 8) <= e' <= MaxUint32.
Proof.
  apply (cms_never_undercounts demo_cms demo_stream (str "a") 0 (proj1 demo_cms_ok) demo_stream_ok).
  vm_compute. reflexivity.
Defined.

(** Merging is exact: merging the tables of two streams, both built on the same empty shape,
    gives cell for cell the table of the two streams read one after the other, saturation included. *)
Theorem cms_merge_exact z l1 l2 a b :
  wf z -> empty z -> weights_ok l1 -> weights_ok l2 -> add_all z l1 = Ok a -> add_all z l2 = Ok b ->
  MergeFrom a b = add_all z (l1 ++ l2).
Proof.
  intros Hz He H1 H2 Ha Hb. destruct (add_all_ok z l1 Hz H1) as (a' & Ea & Hwa & Ew & Ed).
  assert (a' = a) as -> by congruence. rewrite (add_all_app z l1 l2 a Ha).
  apply (merge_replay a z l2 b); try done. apply merge_empty; done.
Qed.

Lemma cms_merge_exact_witness :
  exists a b, add_all demo_cms demo_stream = Ok a /\ add_all demo_cms [(str "c", 2)] = Ok b /\
    MergeFrom a b = add_all demo_cms (demo_stream ++ [(str "c", 2)]).
Proof.
  destruct demo_cms_ok as [Hw He].
  assert (weights_ok [(str "c", 2)]) as H2 by (repeat constructor; unfold MaxUint32; cbn; lia).
  destruct (add_all_ok demo_cms demo_stream Hw demo_stream_ok) as (a & Ea & _).
  destruct (add_all_ok demo_cms [(str "c", 2)] Hw H2) as (b & Eb & _).
  exists a, b. split; [exact Ea|]. split; [exact Eb|].
  exact (cms_merge_exact demo_cms demo_stream [(str "c", 2)] a b Hw He demo_stream_ok H2 Ea Eb).
Defined.

(** Whatever rates are requested, [NewCMS] builds a table that counts any stream, can be saved,
    and loads back as the same table. *)
Theorem cms_constructible_persists widthOf depthOf eps dlt l :
  (forall e, 0 <= widthOf e < 2 ^ 57) -> 0 <= eps < 2 ^ 64 -> 0 <= dlt < 2 ^ 64 -> weights_ok l ->
  exists c f, add_all (NewCMS widthOf depthOf eps dlt) l = Ok c /\ wf c /\
    MarshalBinary c = Ok f /\ UnmarshalBinary f = Ok c.
Proof.
  intros Hwd He Hd Hl. destruct (wf_NewCMS widthOf depthOf Hwd eps dlt He Hd) as [Hw _].
  destruct (add_all_ok _ l Hw Hl) as (c & Ec & Hc & _). destruct (CMS_marshal_ok c Hc) as [f Hf].
  exists c, f. split_and!; [done|done|done|]. exact (marshal_loads c f Hc Hf).
Qed.

Lemma cms_constructible_persists_witness :
  exists c f, add_all demo_cms demo_stream = Ok c /\ wf c /\ MarshalBinary c = Ok f /\ UnmarshalBinary f = Ok c.
Proof.
  apply (cms_constructible_persists (fun _ => 16) (fun _ => 3) 0x3fb999999999999a 0x3fa999999999999a demo_stream);
    [intros; lia|lia|lia|apply demo_stream_ok].
Defined.
