(* ===== verification/HLL.v ===== *)
(** * [internal/sketch/hll.go]: the HyperLogLog behind [explore.hll]

    The register array, its update, merging and its frame.  The floating-point estimator
    [Cardinality] is a function of the registers alone and is not modelled: the theorems are about
    the registers it reads. *)

From S2P Require Import Prelude GoLib Core Frame.

Open Scope go_scope.

(** ** The sketch *)

Definition paramRegisters : bytes := str "registers".
Definition rankHashBits : Z := 64.

Record HLL := MkHLL { hp : Z; regs : bytes; hcount : Z; hcreated : Z }.

Definition NewHLL (registers : Z) : HLL :=
  let m := clampInt registers MinHLLRegisters MaxHLLRegisters in
  let m := if negb (Z.land m (m - 1) =? 0) then Z.shiftl 1 (bits_Len (m - 1)) else m in
  let m := if m >? MaxHLLRegisters then MaxHLLRegisters else m in
  MkHLL (bits_TrailingZeros64 m) (replicate (Z.to_nat m) x00) 0 0.

(** The register a key selects and the rank it carries. *)
Definition slot (p len : Z) (key : bytes) : Z * Z :=
  let '(x, _) := hash128 domainHLL key in
  (Z.land x (len - 1), b2z (z2b (bits_LeadingZeros64 (Z.shiftr x p) - p + 1))).

Definition Add (h : HLL) (key : bytes) : outcome sketch_error HLL :=
  if (length (regs h) =? 0)%nat then Ok h
  else
    let '(idx, rho) := slot (hp h) (Z.of_nat (length (regs h))) key in
    let! r := get_at (regs h) (Z.to_nat idx) in
    let rs := if rho >? b2z r then <[Z.to_nat idx := z2b rho]> (regs h) else regs h in
    Ok (MkHLL (hp h) rs (add64 (hcount h) 1) (hcreated h)).

Definition Registers (h : HLL) : Z := Z.of_nat (length (regs h)).

(** [for i, r := range o.regs { if r > h.regs[i] { h.regs[i] = r } }]. *)
Fixpoint merge_regs (hs os : bytes) : outcome sketch_error bytes :=
  match os with
  | [] => Ok hs
  | o :: os =>
      match hs with
      | [] => Panic
      | r :: hs => let! rs := merge_regs hs os in Ok ((if b2z o >? b2z r then o else r) :: rs)
      end
  end.

Definition MergeFrom (h o : HLL) : outcome sketch_error HLL :=
  if negb (hp o =? hp h) || negb (length (regs o) =? length (regs h))%nat then Err ErrShapeMismatch
  else
    let! rs := merge_regs (regs h) (regs o) in
    Ok (MkHLL (hp h) rs (satAdd64 (hcount h) (hcount o)) (hcreated h)).

Definition HLL_SetCreated (h : HLL) (t : Z) : HLL := MkHLL (hp h) (regs h) (hcount h) t.

(** ** Its frame *)

Definition HLL_Header (h : HLL) : Header :=
  MkHeader HeaderMagic FormatVersion KindHLL {[paramRegisters := F64.of_int (Registers h)]}
    (hcount h) (hcreated h) 0.

Definition HLL_MarshalBinary (h : HLL) : outcome sketch_error bytes :=
  if (length (regs h) =? 0)%nat then Err ErrMalformed else EncodeHeader (HLL_Header h) (regs h).

Definition HLL_decodeV1 (h : Header) (body : bytes) : outcome sketch_error HLL :=
  let! m := MustParamInt h paramRegisters MinHLLRegisters MaxHLLRegisters in
  if negb (Z.land m (m - 1) =? 0) then Err ErrMalformed
  else if negb (Z.of_nat (length body) =? m) then Err ErrTruncated
  else
    let p := bits_TrailingZeros64 m in
    let maxRank := b2z (z2b (rankHashBits - p + 1)) in
    if existsb (fun r => b2z r >? maxRank) body then Err ErrMalformed
    else Ok (MkHLL p body (Count h) (Created h)).

Definition HLL_UnmarshalBinary (data : bytes) : outcome sketch_error HLL :=
  let! (h, body) := DecodeHeader data in
  if negb (hKind h =? KindHLL) then Err ErrKindMismatch
  else if Ver h =? 1 then HLL_decodeV1 h body else Err ErrUnsupportedVersion.

#[global] Instance HLL_Sketch : Sketch HLL := {
  Header_of := HLL_Header;
  MarshalBinary := HLL_MarshalBinary;
  UnmarshalBinary := HLL_UnmarshalBinary
}.

(** ** Well-formed sketches *)

Record wf (h : HLL) : Prop := {
  wf_p : 6 <= hp h <= 16;
  wf_regs : Z.of_nat (length (regs h)) = 2 ^ hp h;
  wf_rank : Forall (fun r => b2z r <= 65 - hp h) (regs h);
  wf_count : 0 <= hcount h < 2 ^ 64;
  wf_created : - 2 ^ 63 <= hcreated h < 2 ^ 63
}.

(** ** Powers of two *)

(** [m & (m-1) == 0] picks the powers of two, and [TrailingZeros] their exponents. *)
Lemma land_pred m : 0 < m -> Z.land m (m - 1) = 0 <-> m = 2 ^ Z.log2 m.
Proof.
  intros Hm. pose proof (Z.log2_spec m Hm) as [H1 H2]. pose proof (Z.log2_nonneg m) as H0. split.
  - intros H. destruct (Z.eq_dec m (2 ^ Z.log2 m)) as [|Hne]; [done|]. exfalso.
    apply (f_equal (fun z => Z.testbit z (Z.log2 m))) in H. rewrite Z.land_spec, Z.bits_0, Z.bit_log2 in H by lia.
    cbn [andb] in H. replace (Z.log2 m) with (Z.log2 (m - 1)) in H; [rewrite Z.bit_log2 in H by lia; done|].
    apply Z.log2_unique; [done|]. lia.
  - remember (Z.log2 m) as k. intros ->. replace (2 ^ k - 1) with (Z.ones k) by (rewrite Z.ones_equiv; lia).
    rewrite Z.land_ones by done. apply Z.mod_same. lia.
Qed.

Lemma wf_NewHLL n : wf (NewHLL n).
Proof.
  unfold NewHLL, MinHLLRegisters, MaxHLLRegisters. pose proof (clampInt_range n 64 65536 ltac:(lia)) as Hm.
  set (m := clampInt n 64 65536) in *.
  assert (exists k, 6 <= k <= 16 /\ (if negb (Z.land m (m - 1) =? 0) then Z.shiftl 1 (bits_Len (m - 1)) else m) = 2 ^ k)
    as (k & Hk & ->).
  { destruct (Z.eqb_spec (Z.land m (m - 1)) 0) as [E|E]; cbn [negb].
    - apply land_pred in E; [|lia]. exists (Z.log2 m). split; [|done].
      pose proof (Z.log2_le_mono 64 m). pose proof (Z.log2_le_mono m 65536).
      change (Z.log2 64) with 6 in *. change (Z.log2 65536) with 16 in *. lia.
    - exists (bits_Len (m - 1)). rewrite Z.shiftl_1_l. split; [|done]. unfold bits_Len.
      destruct (m - 1 <=? 0) eqn:E0; bsolve; [lia|].
      assert (m <> 64) by (intros E64; rewrite E64 in E; done).
      pose proof (Z.log2_le_mono 64 (m - 1)). pose proof (Z.log2_le_mono (m - 1) 65535).
      change (Z.log2 64) with 6 in *. change (Z.log2 65535) with 15 in *. lia. }
  assert (2 ^ 6 <= 2 ^ k <= 2 ^ 16) by (split; apply Z.pow_le_mono_r; lia).
  replace (2 ^ k >? 65536) with false by (symmetry; rewrite Z.gtb_ltb; apply Z.ltb_ge; lia).
  rewrite ctz_pow2 by lia. split; cbn [hp regs hcount hcreated]; try lia.
  - rewrite length_replicate. lia.
  - apply Forall_replicate. change (b2z x00) with 0. lia.
Qed.

(** ** Ranks *)

(** A key selects a register of the array and a rank between 1 and 65 - p. *)
Lemma slot_range p len key :
  6 <= p <= 16 -> len = 2 ^ p -> let '(idx, rho) := slot p len key in 0 <= idx < len /\ 1 <= rho <= 65 - p.
Proof.
  intros Hp Hlen. unfold slot, hash128. set (x := le_get _).
  assert (0 <= x < 2 ^ 64) as Hx.
  { unfold x. pose proof (le_get_range (slice (HashBytes domainHLL key) 0 8)) as Hr.
    rewrite slice_length in Hr by (rewrite HashBytes_length; lia). exact Hr. }
  assert (0 < 2 ^ p) by lia. split.
  - subst len. replace (2 ^ p - 1) with (Z.ones p) by (rewrite Z.ones_equiv; lia).
    rewrite Z.land_ones by lia. apply Z.mod_pos_bound. done.
  - assert (0 <= Z.shiftr x p < 2 ^ (64 - p)) as Hw.
    { rewrite Z.shiftr_div_pow2 by lia. split; [apply Z.div_pos; lia|]. apply Z.div_lt_upper_bound; [lia|].
      rewrite <- Z.pow_add_r by lia. replace (p + (64 - p)) with 64 by lia. lia. }
    unfold bits_LeadingZeros64, bits_Len. rewrite b2z_z2b.
    destruct (Z.shiftr x p <=? 0) eqn:E; bsolve.
    + rewrite Z.mod_small by lia. lia.
    + pose proof (Z.log2_nonneg (Z.shiftr x p)). pose proof (proj1 (Z.log2_lt_pow2 (Z.shiftr x p) (64 - p) E) ltac:(lia)).
      rewrite Z.mod_small by lia. lia.
Qed.

(** ** Registers hold maxima *)

Definition raise (rs : bytes) (s : Z * Z) : bytes :=
  if s.2 >? b2z (rs !!! Z.to_nat s.1) then <[Z.to_nat s.1 := z2b s.2]> rs else rs.

Definition slot_ok (p : Z) (n : nat) (s : Z * Z) : Prop := 0 <= s.1 < Z.of_nat n /\ 1 <= s.2 <= 65 - p.

Lemma raise_length rs s : length (raise rs s) = length rs.
Proof. unfold raise. case_match; [apply length_insert|done]. Qed.

Lemma raise_at rs s i p :
  6 <= p -> slot_ok p (length rs) s -> (i < length rs)%nat ->
  b2z (raise rs s !!! i) = if decide (Z.to_nat s.1 = i) then Z.max (b2z (rs !!! i)) s.2 else b2z (rs !!! i).
Proof.
  intros Hp [H1 H2] Hi. unfold raise. destruct (s.2 >? _) eqn:E; bsolve.
  - destruct (decide (Z.to_nat s.1 = i)) as [<-|Hne].
    + rewrite list_lookup_total_insert_eq by done. rewrite b2z_z2b, Z.mod_small; lia.
    + rewrite list_lookup_total_insert_ne by done. done.
  - case_decide; [subst; lia|done].
Qed.

Definition raises (rs : bytes) (l : list (Z * Z)) : bytes := fold_left raise l rs.

Lemma raises_cons rs s l : raises rs (s :: l) = raises (raise rs s) l.
Proof. done. Qed.

Lemma raises_length rs l : length (raises rs l) = length rs.
Proof. revert rs. induction l as [|s l IH]; intros rs; [done|]. rewrite raises_cons, IH. apply raise_length. Qed.

(** A register is the least value above its start and every rank sent to it. *)
Lemma raises_le p rs l i z :
  6 <= p -> Forall (slot_ok p (length rs)) l -> (i < length rs)%nat ->
  b2z (raises rs l !!! i) <= z <->
  b2z (rs !!! i) <= z /\ forall s, s ∈ l -> Z.to_nat s.1 = i -> s.2 <= z.
Proof.
  intros Hp. revert rs. induction l as [|s l IH]; intros rs Hl Hi.
  { split; [intros; split; [done|set_solver]|by intros []]. }
  apply Forall_cons in Hl as [Hs Hl]. rewrite raises_cons, IH by (rewrite ?raise_length; done).
  rewrite (raise_at rs s i p Hp Hs Hi). split.
  - intros [H1 H2]. split; [case_decide; lia|]. intros t [->|Ht]%elem_of_cons E; [|auto].
    rewrite decide_True in H1 by done. lia.
  - intros [H1 H2]. split; [|intros t Ht; apply H2; by right]. case_decide as E; [|done].
    pose proof (H2 s ltac:(constructor) E). lia.
Qed.

Lemma bytes_total_eq (a b : bytes) :
  length a = length b -> (forall i, (i < length a)%nat -> b2z (a !!! i) = b2z (b !!! i)) -> a = b.
Proof.
  intros Hl H. apply list_eq_same_length with (length a); [done|done|]. intros i x y Hi Hx Hy.
  apply b2z_inj. rewrite <- (list_lookup_total_correct _ _ _ Hx), <- (list_lookup_total_correct _ _ _ Hy). auto.
Qed.

(** The registers depend only on the set of (register, rank) pairs seen. *)
Lemma raises_same p rs l l' :
  6 <= p -> Forall (slot_ok p (length rs)) l -> Forall (slot_ok p (length rs)) l' ->
  (forall s, s ∈ l <-> s ∈ l') -> raises rs l = raises rs l'.
Proof.
  intros Hp Hl Hl' He. apply bytes_total_eq; [rewrite !raises_length; done|].
  rewrite raises_length. intros i Hi. apply Z.le_antisymm.
  - apply (raises_le p); [done|done|done|].
    destruct (proj1 (raises_le p rs l' i _ Hp Hl' Hi) (Z.le_refl _)) as [H1 H2]. split; [done|].
    intros s Hs. apply H2, He, Hs.
  - apply (raises_le p); [done|done|done|].
    destruct (proj1 (raises_le p rs l i _ Hp Hl Hi) (Z.le_refl _)) as [H1 H2]. split; [done|].
    intros s Hs. apply H2, He, Hs.
Qed.

(** ** Streams *)

Fixpoint add_keys (h : HLL) (keys : list bytes) : outcome sketch_error HLL :=
  match keys with
  | [] => Ok h
  | k :: keys => let! h := Add h k in add_keys h keys
  end.

Definition slot_of (h : HLL) (key : bytes) : Z * Z := slot (hp h) (Z.of_nat (length (regs h))) key.

Lemma slot_of_ok h key : wf h -> slot_ok (hp h) (length (regs h)) (slot_of h key).
Proof.
  intros H. pose proof (slot_range (hp h) _ key (wf_p h H) (wf_regs h H)) as Hs. unfold slot_of.
  destruct (slot _ _ _) as [i r]. done.
Qed.

Lemma hll_Add_spec h key :
  wf h -> Add h key = Ok (MkHLL (hp h) (raise (regs h) (slot_of h key)) (add64 (hcount h) 1) (hcreated h)).
Proof.
  intros H. pose proof (slot_of_ok h key H) as [H1 _]. pose proof (wf_regs h H) as Hl. pose proof (wf_p h H).
  assert (0 < 2 ^ hp h) by lia. unfold Add, slot_of, raise in *.
  rewrite (proj2 (Nat.eqb_neq _ _)) by lia. destruct (slot _ _ _) as [i r]. cbn [fst snd] in *.
  destruct (lookup_lt_is_Some_2 (regs h) (Z.to_nat i) ltac:(lia)) as [x Hx].
  unfold get_at. rewrite Hx. cbn [obind]. rewrite (list_lookup_total_correct _ _ _ Hx). done.
Qed.

Lemma raise_rank p rs s :
  6 <= p -> slot_ok p (length rs) s -> Forall (fun r => b2z r <= 65 - p) rs ->
  Forall (fun r => b2z r <= 65 - p) (raise rs s).
Proof.
  intros Hp [H1 H2] H. unfold raise. case_match; [|done]. apply Forall_insert; [done|].
  rewrite b2z_z2b, Z.mod_small; lia.
Qed.

Lemma add_keys_spec keys h :
  wf h -> exists c, add_keys h keys = Ok (MkHLL (hp h) (raises (regs h) (slot_of h <$> keys)) c (hcreated h)) /\
    wf (MkHLL (hp h) (raises (regs h) (slot_of h <$> keys)) c (hcreated h)).
Proof.
  revert h. induction keys as [|k keys IH]; intros h H; cbn [add_keys].
  { exists (hcount h). cbn. destruct h; done. }
  rewrite hll_Add_spec by done. cbn [obind]. set (h' := MkHLL _ _ _ _).
  assert (wf h') as H'.
  { pose proof (slot_of_ok h k H) as Hs. pose proof (wf_p h H). split; cbn [hp regs hcount hcreated h']; try apply H.
    - rewrite raise_length. apply H.
    - apply raise_rank; [lia|done|apply H].
    - apply u64_range. }
  destruct (IH h' H') as (c & E & Hw). exists c.
  assert (slot_of h' <$> keys = slot_of h <$> keys) as Es.
  { apply list_fmap_ext. intros i x _. unfold slot_of. cbn [hp regs h']. rewrite raise_length. done. }
  rewrite Es in *. rewrite E. done.
Qed.

(** ** Merging *)

Lemma merge_regs_spec hs os :
  length hs = length os ->
  exists rs, merge_regs hs os = Ok rs /\ length rs = length hs /\
    forall i, (i < length hs)%nat -> b2z (rs !!! i) = Z.max (b2z (hs !!! i)) (b2z (os !!! i)).
Proof.
  revert hs. induction os as [|o os IH]; intros [|r hs] H; cbn [merge_regs]; try done.
  { exists []. split_and!; [done|done|]. cbn. lia. }
  injection H as H. destruct (IH hs H) as (rs & -> & Hl & Hi). cbn [obind]. eexists. split; [reflexivity|].
  split; [cbn; lia|]. intros [|i] Hlt.
  - change (b2z (if b2z o >? b2z r then o else r) = Z.max (b2z r) (b2z o)).
    destruct (b2z o >? b2z r) eqn:E; bsolve; lia.
  - apply Hi. cbn in Hlt. lia.
Qed.

Lemma merge_raises p rs l1 l2 :
  6 <= p -> Forall (slot_ok p (length rs)) l1 -> Forall (slot_ok p (length rs)) l2 ->
  merge_regs (raises rs l1) (raises rs l2) = Ok (raises rs (l1 ++ l2)).
Proof.
  intros Hp H1 H2. destruct (merge_regs_spec (raises rs l1) (raises rs l2)) as (m & -> & Hl & Hm);
    [rewrite !raises_length; done|]. f_equal. rewrite raises_length in *.
  apply bytes_total_eq; [rewrite Hl, raises_length; done|]. rewrite Hl. intros i Hi. rewrite Hm by done.
  assert (Forall (slot_ok p (length rs)) (l1 ++ l2)) as H12 by (apply Forall_app; done).
  assert (forall z, Z.max (b2z (raises rs l1 !!! i)) (b2z (raises rs l2 !!! i)) <= z <->
    b2z (raises rs (l1 ++ l2) !!! i) <= z) as Heq.
  { intros z. rewrite Z.max_lub_iff, !(raises_le p) by done. split.
    - intros [[A1 A2] [B1 B2]]. split; [done|]. intros s [Hs|Hs]%elem_of_app; auto.
    - intros [A1 A2]. split; (split; [done|]); intros s Hs; apply A2, elem_of_app; auto. }
  apply Z.le_antisymm; [apply (proj2 (Heq _)), Z.le_refl|apply (proj1 (Heq _)), Z.le_refl].
Qed.

(** ** Round trip *)

Lemma hll_exact h : wf h -> F64.exact_int (Registers h) /\ 64 <= Registers h <= 65536.
Proof.
  intros H. unfold Registers. rewrite (wf_regs h H). pose proof (wf_p h H).
  assert (2 ^ 6 <= 2 ^ hp h <= 2 ^ 16) by (split; apply Z.pow_le_mono_r; lia).
  split; [left; lia|lia].
Qed.

Lemma hll_header_ok h : wf h -> header_ok (HLL_Header h).
Proof.
  intros H. unfold header_ok, FormatVersion. split; [done|]. split; [done|]. split; [apply H|]. split; [apply H|].
  intros k v Hv. cbn [Params HLL_Header] in Hv. apply lookup_singleton_Some in Hv as [_ <-]. apply F64.of_int_range, hll_exact, H.
Qed.

Lemma rank_byte p : 6 <= p <= 16 -> b2z (z2b (rankHashBits - p + 1)) = 65 - p.
Proof. intros H. unfold rankHashBits. rewrite b2z_z2b, Z.mod_small; lia. Qed.

Lemma HLL_decode_encode h crc : wf h -> HLL_decodeV1 (stamped (HLL_Header h) crc) (regs h) = Ok h.
Proof.
  intros H. destruct (hll_exact h H) as [Hx Hr]. unfold HLL_decodeV1, MinHLLRegisters, MaxHLLRegisters.
  rewrite (MustParamInt_of_int _ paramRegisters (Registers h)); [|apply lookup_singleton_eq|done|done].
  cbn [obind]. unfold Registers. pose proof (wf_p h H). rewrite (wf_regs h H).
  rewrite (proj2 (land_pred (2 ^ hp h) ltac:(lia))) by (rewrite Z.log2_pow2 by lia; done).
  rewrite Z.eqb_refl. cbn [negb Z.eqb]. rewrite ctz_pow2, rank_byte by lia.
  rewrite Z.eqb_refl. cbn [negb]. destruct (existsb _ _) eqn:E; [|by destruct h].
  apply existsb_exists in E as (r & Hin%list_elem_of_In & Hgt). bsolve.
  pose proof (wf_rank h H) as Hrk. rewrite Forall_forall in Hrk. specialize (Hrk r Hin). lia.
Qed.

Lemma HLL_roundtrip h f : wf h -> HLL_MarshalBinary h = Ok f -> HLL_UnmarshalBinary f = Ok h.
Proof.
  intros H. unfold HLL_MarshalBinary. destruct (_ =? 0)%nat; [done|]. intros Hm.
  destruct (encode_decode _ _ _ (hll_header_ok h H) Hm) as (g & _ & Hd). unfold HLL_UnmarshalBinary.
  rewrite Hd. cbn [obind hKind stamped HLL_Header Ver]. rewrite Z.eqb_refl. cbn [negb Z.eqb FormatVersion].
  apply HLL_decode_encode, H.
Qed.

Lemma HLL_marshal_ok h : wf h -> exists f, HLL_MarshalBinary h = Ok f.
Proof.
  intros H. destruct (hll_exact h H) as [_ Hr]. unfold Registers in Hr. unfold HLL_MarshalBinary.
  rewrite (proj2 (Nat.eqb_neq _ _)) by lia.
  apply encode_fits; [by apply hll_header_ok| | |].
  - intros k v Hv. cbn [Params HLL_Header] in Hv. apply lookup_singleton_Some in Hv as [<- _]. reflexivity.
  - cbn [Params HLL_Header]. rewrite map_size_singleton. lia.
  - cbn [Params HLL_Header]. rewrite map_size_singleton. unfold MaxFrameBytes. lia.
Qed.

Lemma HLL_decode_spec b :
  match HLL_UnmarshalBinary b with Ok x => wf x | Err _ => True | Panic => False end.
Proof.
  unfold HLL_UnmarshalBinary. pose proof (DecodeHeader_spec b) as Hd.
  destruct (DecodeHeader b) as [[h body]| |]; [|done|done]. cbn [obind].
  destruct Hd as (_ & _ & (_ & _ & Hcnt & Hcr & _) & _).
  destruct (negb _); [done|]. destruct (Ver h =? 1); [|done]. unfold HLL_decodeV1.
  destruct (MustParamInt h paramRegisters _ _) as [m| |] eqn:E1; [|done|by apply MustParamInt_no_panic in E1].
  cbn [obind]. apply MustParamInt_range in E1. unfold MinHLLRegisters, MaxHLLRegisters in E1.
  destruct (Z.land m (m - 1) =? 0) eqn:E2; [|done]. destruct (Z.of_nat (length body) =? m) eqn:E3; [|done]. bsolve.
  cbn [negb]. apply land_pred in E2; [|lia].
  pose proof (Z.log2_le_mono 64 m). pose proof (Z.log2_le_mono m 65536).
  change (Z.log2 64) with 6 in *. change (Z.log2 65536) with 16 in *.
  assert (bits_TrailingZeros64 m = Z.log2 m) as -> by (rewrite E2 at 1; apply ctz_pow2; lia).
  rewrite rank_byte by lia. destruct (existsb _ _) eqn:E4; [done|].
  split; cbn [hp regs hcount hcreated]; try done; try lia.
  apply Forall_forall. intros r Hr. apply Z.nlt_ge. intros Hgt.
  assert (existsb (fun r => b2z r >? 65 - Z.log2 m) body = true) as E; [|congruence].
  apply existsb_exists. exists r. split; [by apply list_elem_of_In|]. rewrite Z.gtb_ltb. by apply Z.ltb_lt.
Qed.

#[global] Instance HLL_Laws : SketchLaws HLL wf.
Proof.
  split.
  - apply HLL_roundtrip.
  - intros b. pose proof (HLL_decode_spec b) as H. cbn. by destruct (HLL_UnmarshalBinary b).
Qed.

#[global] Instance HLL_Decodes : SketchDecodes HLL wf.
Proof. intros b x E. pose proof (HLL_decode_spec b) as H. cbn in E. rewrite E in H. done. Qed.

(** ** Claims *)

Definition demo_hll : HLL := NewHLL 100.

Example demo_hll_size : Registers demo_hll = 128 /\ hp demo_hll = 7.
Proof. vm_compute. split; reflexivity. Qed.

(** The registers are a function of the set of keys: two streams with the same distinct keys,
    whatever their order and repetitions, leave the same registers, and so the same estimate. *)
Theorem hll_registers_depend_on_set h ks ks' a b :
  wf h -> (forall k, k ∈ ks <-> k ∈ ks') -> add_keys h ks = Ok a -> add_keys h ks' = Ok b ->
  regs a = regs b /\ hp a = hp b.
Proof.
  intros H He Ha Hb. destruct (add_keys_spec ks h H) as (c & E & _), (add_keys_spec ks' h H) as (c' & E' & _).
  rewrite E in Ha. rewrite E' in Hb. injection Ha as <-. injection Hb as <-. split; [|done]. cbn [regs].
  pose proof (wf_p h H).
  apply (raises_same (hp h)); [lia|apply Forall_fmap, Forall_true; intros; by apply slot_of_ok
    |apply Forall_fmap, Forall_true; intros; by apply slot_of_ok|].
  intros s. rewrite !list_elem_of_fmap. split; intros (k & -> & Hk); exists k; (split; [done|]); by apply He.
Qed.

Lemma hll_registers_depend_on_set_witness :
  exists a b, add_keys demo_hll [str "x"; str "y"; str "x"] = Ok a /\ add_keys demo_hll [str "y"; str "x"] = Ok b /\
    regs a = regs b /\ hp a = hp b.
Proof.
  pose proof (wf_NewHLL 100) as Hw.
  destruct (add_keys_spec [str "x"; str "y"; str "x"] demo_hll Hw) as (c & E & _).
  destruct (add_keys_spec [str "y"; str "x"] demo_hll Hw) as (c' & E' & _).
  do 2 eexists. split; [exact E|]. split; [exact E'|].
  apply (hll_registers_depend_on_set demo_hll [str "x"; str "y"; str "x"] [str "y"; str "x"] _ _ Hw); [|exact E|exact E'].
  intros k. rewrite !list_elem_of_In. cbn. tauto.
Defined.

(** Merging is exact: the merge of the sketches of two streams has exactly the registers of the
    sketch of the two streams together. *)
Theorem hll_merge_is_union h ks ks' a b :
  wf h -> add_keys h ks = Ok a -> add_keys h ks' = Ok b ->
  exists m u, MergeFrom a b = Ok m /\ add_keys h (ks ++ ks') = Ok u /\ regs m = regs u /\ hp m = hp u.
Proof.
  intros H Ha Hb. destruct (add_keys_spec ks h H) as (c & E & _), (add_keys_spec ks' h H) as (c' & E' & _).
  destruct (add_keys_spec (ks ++ ks') h H) as (c'' & E'' & _).
  rewrite E in Ha. rewrite E' in Hb. injection Ha as <-. injection Hb as <-.
  do 2 eexists. split; [|split; [exact E''|]].
  - unfold MergeFrom. cbn [hp regs]. rewrite Z.eqb_refl, !raises_length, Nat.eqb_refl. cbn [negb orb].
    pose proof (wf_p h H). rewrite (merge_raises (hp h)) by (lia || apply Forall_fmap, Forall_true; intros; by apply slot_of_ok).
    reflexivity.
  - cbn [regs hp]. rewrite fmap_app. done.
Qed.

Lemma hll_merge_is_union_witness :
  exists a b m u, add_keys demo_hll [str "x"] = Ok a /\ add_keys demo_hll [str "y"] = Ok b /\
    MergeFrom a b = Ok m /\ add_keys demo_hll ([str "x"] ++ [str "y"]) = Ok u /\ regs m = regs u.
Proof.
  pose proof (wf_NewHLL 100) as Hw.
  destruct (add_keys_spec [str "x"] demo_hll Hw) as (c & E & _).
  destruct (add_keys_spec [str "y"] demo_hll Hw) as (c' & E' & _).
  destruct (hll_merge_is_union demo_hll _ _ _ _ Hw E E') as (m & u & H1 & H2 & H3 & _).
  do 4 eexists. split; [exact E|]. split; [exact E'|]. split; [exact H1|]. split; [exact H2|exact H3].
Defined.

(** Whatever register count is requested, [NewHLL] builds a power-of-two array; after any keys
    every rank is within the bound the decoder checks, the sketch can be saved, and it loads back as
    the same sketch. *)
Theorem hll_constructible_persists n keys :
  exists h f, add_keys (NewHLL n) keys = Ok h /\ wf h /\ MarshalBinary h = Ok f /\ UnmarshalBinary f = Ok h.
Proof.
  destruct (add_keys_spec keys (NewHLL n) (wf_NewHLL n)) as (c & E & Hw). eexists.
  destruct (HLL_marshal_ok _ Hw) as [f Hf]. exists f. split_and!; [exact E|exact Hw|exact Hf|].
  exact (marshal_loads _ f Hw Hf).
Qed.
