(* ===== verification/MisraGries.v ===== *)
(** * [internal/sketch/misragries.go]: the Misra-Gries top-k summary

    The counter table as a finite map, the decrement step, the mergeable-summary construction, the
    ordered report, the frame with its entry walk, and [CMS.HeavyHitters], which pairs the summary
    with a Count-Min table.  The theorems are about an arbitrary stream of weighted keys. *)

From S2P Require Import Prelude GoLib Core Frame CMS.

Open Scope go_scope.

(** ** The summary *)

Definition paramErr : bytes := str "err".
Definition paramMGK : bytes := str "k".
Definition mgEntryCountBytes : nat := 4.
Definition mgKeyLenBytes : nat := 2.
Definition mgCountBytes : nat := 8.

(** [min(1<<61, math.MaxInt)] on a 64-bit build. *)
Definition maxMGCount : Z := 2 ^ 61.

Definition mgSatTotal (t n : Z) : Z :=
  let s := satAdd64 (u64 t) (u64 n) in if s <=? maxMGCount then s64 s else maxMGCount.

Definition mgSatCount (a b : Z) : Z := if b >? maxMGCount - a then maxMGCount else a + b.

Record Counted := MkCounted { ct_Key : bytes; ct_Count : Z }.

Record MisraGries := MkMG {
  mk : Z; counters : gmap bytes Z; mtotal : Z; merr : Z; mcreated : Z }.

Definition NewMisraGries (k : Z) : MisraGries := MkMG (clampInt k 1 MaxMGCounters) ∅ 0 0 0.

(** [key[:MaxMGKeyBytes]] for a longer key. *)
Definition truncKey (key : bytes) : bytes :=
  if Z.of_nat (length key) >? MaxMGKeyBytes then take (Z.to_nat MaxMGKeyBytes) key else key.

(** The stored counts, in the map's iteration order. *)
Definition counts (m : gmap bytes Z) : list Z := (map_to_list m).*2.

(** Every counter loses [d]; those that reach zero are deleted. *)
Definition decrement (d : Z) (m : gmap bytes Z) : gmap bytes Z :=
  omap (fun c => if c - d <=? 0 then None else Some (c - d)) m.

Definition Add (m : MisraGries) (key : bytes) (n : Z) : MisraGries :=
  if (n <=? 0) || (mk m <? 1) then m
  else
    let key := truncKey key in
    let total := mgSatTotal (mtotal m) n in
    match counters m !! key with
    | Some c => MkMG (mk m) (<[key := mgSatCount c n]> (counters m)) total (merr m) (mcreated m)
    | None =>
        if Z.of_nat (size (counters m)) <? mk m
        then MkMG (mk m) (<[key := clampInt n 1 maxMGCount]> (counters m)) total (merr m) (mcreated m)
        else
          let d := fold_left (fun d c => if c <? d then c else d) (counts (counters m)) n in
          let cs := decrement d (counters m) in
          let cs := if n - d >? 0 then <[key := clampInt (n - d) 1 maxMGCount]> cs else cs in
          MkMG (mk m) cs total (mgSatTotal (merr m) d) (mcreated m)
    end.

(** The comparator of [sortCounted]: count descending, then key ascending. *)
Definition counted_le (a b : Counted) : Prop :=
  ct_Count b < ct_Count a \/ ct_Count a = ct_Count b /\ bytes_le (ct_Key a) (ct_Key b).

#[global] Instance counted_le_dec : RelDecision counted_le.
Proof. intros a b. unfold counted_le. solve_decision. Defined.

Definition sortCounted (l : list Counted) : list Counted := merge_sort counted_le l.

Definition Top (m : MisraGries) (n : Z) : list Counted :=
  let out := sortCounted ((fun p => MkCounted p.1 p.2) <$> map_to_list (counters m)) in
  if (n >? 0) && (n <? Z.of_nat (length out)) then take (Z.to_nat n) out else out.

(** [m.counters[kk] = mgSatCount(m.counters[kk], c)] for every entry of [o]: a missing counter
    reads as 0. *)
Definition merge_counters (m o : gmap bytes Z) : gmap bytes Z :=
  merge (fun a b => match b with None => a | Some c => Some (mgSatCount (default 0 a) c) end) m o.

(** [slices.SortFunc(counts, descending)]. *)
Definition sort_desc (l : list Z) : list Z := merge_sort Z.ge l.

Definition MergeFrom (m o : MisraGries) : outcome sketch_error MisraGries :=
  if negb (mk o =? mk m) then Err ErrShapeMismatch
  else
    let cs := merge_counters (counters m) (counters o) in
    let! (cs, e) :=
      if Z.of_nat (size cs) >? mk m
      then match sort_desc (counts cs) !! Z.to_nat (mk m) with
           | None => Panic
           | Some d => Ok (decrement d cs, s64 (merr m + d))
           end
      else Ok (cs, merr m) in
    Ok (MkMG (mk m) cs (s64 (mtotal m + mtotal o)) (s64 (e + merr o)) (mcreated m)).

Definition MG_SetCreated (m : MisraGries) (t : Z) : MisraGries := MkMG (mk m) (counters m) (mtotal m) (merr m) t.

(** ** Heavy hitters ([cms.go]) *)

Fixpoint estimate_each (c : CMS) (l : list Counted) : outcome sketch_error (list Counted) :=
  match l with
  | [] => Ok []
  | cand :: l =>
      let! est := Estimate c (ct_Key cand) in
      let! out := estimate_each c l in
      Ok (MkCounted (ct_Key cand) (Z.min est MaxInt) :: out)
  end.

Definition HeavyHitters (c : CMS) (mg : MisraGries) (n : Z) : outcome sketch_error (list Counted) :=
  if n <=? 0 then Ok []
  else
    let! out := estimate_each c (Top mg 0) in
    let out := sortCounted out in
    Ok (if n <? Z.of_nat (length out) then take (Z.to_nat n) out else out).

(** ** Its frame *)

Definition MG_Header (m : MisraGries) : Header :=
  MkHeader HeaderMagic FormatVersion KindMisraGries
    (<[paramErr := F64.of_int (merr m)]> {[paramMGK := F64.of_int (mk m)]})
    (u64 (mtotal m)) (mcreated m) 0.

Definition encode_entry (p : bytes * Z) : bytes :=
  le_put 2 (Z.of_nat (length p.1)) ++ p.1 ++ le_put 8 (u64 p.2).

Definition encode_entries (ps : list (bytes * Z)) : bytes := concat (map encode_entry ps).

(** The first refusal met over the map's entries (all keys are checked before anything is built). *)
Definition entry_error (p : bytes * Z) : option sketch_error :=
  if Z.of_nat (length p.1) >? MaxMGKeyBytes then Some ErrTooLarge
  else if (p.2 <? 1) || (p.2 >? maxMGCount) then Some ErrMalformed
  else None.

Definition MG_MarshalBinary (m : MisraGries) : outcome sketch_error bytes :=
  if mk m <? 1 then Err ErrMalformed
  else if (mtotal m <? 0) || (mtotal m >? maxMGCount) then Err ErrMalformed
  else match omap entry_error (map_to_list (counters m)) with
  | e :: _ => Err e
  | [] =>
      let ps := named_params (counters m) in
      EncodeHeader (MG_Header m) (le_put 4 (Z.of_nat (length ps)) ++ encode_entries ps)
  end.

(** Pass 1 over the entries, by index. *)
Fixpoint walk_entries (body : bytes) (i n prevStart prevEnd off : nat) : outcome sketch_error nat :=
  match n with
  | O => Ok off
  | S n =>
      if (length body <? off + mgKeyLenBytes)%nat then Err ErrTruncated
      else
        let! kb := get_sub body off (off + mgKeyLenBytes) in
        let keyLen := Z.to_nat (le_get kb) in
        if (Z.of_nat keyLen <? 1) || (Z.of_nat keyLen >? MaxMGKeyBytes) then Err ErrMalformed
        else if (length body <? off + mgKeyLenBytes + keyLen + mgCountBytes)%nat then Err ErrTruncated
        else
          let start := (off + mgKeyLenBytes)%nat in
          let end_ := (start + keyLen)%nat in
          let! prev := get_sub body prevStart prevEnd in
          let! key := get_sub body start end_ in
          if (0 <? i)%nat && negb (bool_decide (bytes_lt prev key)) then Err ErrMalformed
          else
            let! cb := get_sub body end_ (end_ + mgCountBytes) in
            let count := s64 (le_get cb) in
            if (count <? 1) || (count >? maxMGCount) then Err ErrMalformed
            else walk_entries body (S i) n start end_ (end_ + mgCountBytes)
  end.

(** Pass 2. *)
Fixpoint fill_entries (body : bytes) (n p : nat) (m : gmap bytes Z) : outcome sketch_error (gmap bytes Z) :=
  match n with
  | O => Ok m
  | S n =>
      let! kb := get_sub body p (p + mgKeyLenBytes) in
      let start := (p + mgKeyLenBytes)%nat in
      let end_ := (start + Z.to_nat (le_get kb))%nat in
      let! key := get_sub body start end_ in
      let! cb := get_sub body end_ (end_ + mgCountBytes) in
      fill_entries body n (end_ + mgCountBytes) (<[key := s64 (le_get cb)]> m)
  end.

Definition MG_decodeV1 (h : Header) (body : bytes) : outcome sketch_error MisraGries :=
  let! k := MustParamInt h paramMGK 1 MaxMGCounters in
  let! errBound := MustParamInt h paramErr 0 maxMGCount in
  if Count h >? maxMGCount then Err ErrMalformed
  else if (length body <? mgEntryCountBytes)%nat then Err ErrTruncated
  else
    let! db := get_sub body 0 mgEntryCountBytes in
    let declared := le_get db in
    if declared >? k then Err ErrMalformed
    else
      let entries := Z.to_nat declared in
      let! off := walk_entries body 0 entries 0 0 mgEntryCountBytes in
      if negb (off =? length body)%nat then Err ErrTruncated
      else
        let! cs := fill_entries body entries mgEntryCountBytes ∅ in
        Ok (MkMG k cs (s64 (Count h)) errBound (Created h)).

Definition MG_UnmarshalBinary (data : bytes) : outcome sketch_error MisraGries :=
  let! (h, body) := DecodeHeader data in
  if negb (hKind h =? KindMisraGries) then Err ErrKindMismatch
  else if Ver h =? 1 then MG_decodeV1 h body else Err ErrUnsupportedVersion.

#[global] Instance MG_Sketch : Sketch MisraGries := {
  Header_of := MG_Header;
  MarshalBinary := MG_MarshalBinary;
  UnmarshalBinary := MG_UnmarshalBinary
}.

(** ** Saturating arithmetic below the ceiling *)

Lemma mgSatTotal_small t n : 0 <= t -> 0 <= n -> t + n <= maxMGCount -> mgSatTotal t n = t + n.
Proof.
  unfold mgSatTotal, maxMGCount. intros Ht Hn Hs. rewrite !u64_small by lia.
  unfold satAdd64, MaxUint64. rewrite Z.gtb_ltb, (proj2 (Z.ltb_ge _ _)) by lia.
  rewrite (proj2 (Z.leb_le _ _)) by lia. rewrite <- (u64_small (t + n)) at 1 by lia. apply s64_u64. lia.
Qed.

Lemma mgSatCount_small a b : a + b <= maxMGCount -> mgSatCount a b = a + b.
Proof. unfold mgSatCount, maxMGCount. intros H. rewrite Z.gtb_ltb, (proj2 (Z.ltb_ge _ _)) by lia. done. Qed.

(** ** The mass of a table *)

Definition sumZ (l : list Z) : Z := foldr Z.add 0 l.
Definition mass (m : gmap bytes Z) : Z := sumZ (counts m).
(** How many counters hold at least, or more than, [d]. *)
Definition at_least (d : Z) (l : list Z) : nat := length (List.filter (fun c => d <=? c) l).
Definition above (d : Z) (l : list Z) : nat := length (List.filter (fun c => d <? c) l).

#[global] Instance sumZ_proper : Proper ((≡ₚ) ==> (=)) sumZ.
Proof. unfold sumZ. induction 1; cbn; lia. Qed.
#[global] Instance at_least_proper d : Proper ((≡ₚ) ==> (=)) (at_least d).
Proof.
  unfold at_least. induction 1; cbn; repeat match goal with |- context [if ?b then _ else _] => destruct b end;
    cbn; congruence.
Qed.
#[global] Instance above_proper d : Proper ((≡ₚ) ==> (=)) (above d).
Proof.
  unfold above. induction 1; cbn; repeat match goal with |- context [if ?b then _ else _] => destruct b end;
    cbn; congruence.
Qed.

Lemma counts_insert m i x : m !! i = None -> counts (<[i := x]> m) ≡ₚ x :: counts m.
Proof. intros H. unfold counts. rewrite map_to_list_insert by done. done. Qed.

Lemma counts_elem m c : c ∈ counts m <-> exists k, m !! k = Some c.
Proof.
  unfold counts. rewrite list_elem_of_fmap. split.
  - intros ([k v] & -> & H). apply elem_of_map_to_list in H. eauto.
  - intros [k H]. exists (k, c). split; [done|]. by apply elem_of_map_to_list.
Qed.

Lemma counts_length m : length (counts m) = size m.
Proof. unfold counts. rewrite length_fmap, length_map_to_list. done. Qed.

Lemma mass_insert m i x : m !! i = None -> mass (<[i := x]> m) = x + mass m.
Proof. intros H. unfold mass. rewrite counts_insert by done. done. Qed.

Lemma mass_update m i x y : m !! i = Some x -> mass (<[i := y]> m) = mass m + (y - x).
Proof.
  intros H. rewrite <- (insert_delete_id m i x H). rewrite insert_insert_eq.
  rewrite !mass_insert by (apply lookup_delete_eq). lia.
Qed.

Definition positive (m : gmap bytes Z) : Prop := forall k c, m !! k = Some c -> 0 < c.

Lemma mass_nonneg m : positive m -> 0 <= mass m.
Proof.
  intros Hp. unfold mass. assert (Forall (fun c => 0 < c) (counts m)) as Hf
    by (apply Forall_forall; intros x [j Hj]%counts_elem; eauto).
  unfold sumZ. induction Hf; cbn; lia.
Qed.

Lemma mass_bound m k c : positive m -> m !! k = Some c -> c <= mass m.
Proof.
  intros Hp H. rewrite <- (insert_delete_id m k c H), mass_insert by apply lookup_delete_eq.
  assert (0 <= mass (delete k m)); [|lia]. apply mass_nonneg.
  intros j x [_ Hj]%lookup_delete_Some. eauto.
Qed.

(** ** The decrement *)

Lemma decrement_lookup d m k :
  decrement d m !! k = match m !! k with Some c => if c - d <=? 0 then None else Some (c - d) | None => None end.
Proof. unfold decrement. rewrite lookup_omap. by destruct (m !! k). Qed.

Lemma decrement_insert d m i x :
  m !! i = None ->
  decrement d (<[i := x]> m) = if x - d <=? 0 then decrement d m else <[i := x - d]> (decrement d m).
Proof.
  intros Hi. apply map_eq. intros k. rewrite decrement_lookup. destruct (decide (i = k)) as [<-|Hne].
  - rewrite lookup_insert_eq. destruct (x - d <=? 0); [rewrite decrement_lookup, Hi; done|by rewrite lookup_insert_eq].
  - rewrite lookup_insert_ne by done. destruct (x - d <=? 0); rewrite ?lookup_insert_ne by done; by rewrite decrement_lookup.
Qed.

(** The mass that leaves: at least [d] for every counter that held [d] or more. *)
Lemma decrement_mass d m :
  0 <= d -> positive m -> mass (decrement d m) + d * Z.of_nat (at_least d (counts m)) <= mass m.
Proof.
  intros Hd. induction m as [|i x m Hi IH] using map_ind; intros Hp.
  { unfold decrement, mass, counts, at_least. rewrite omap_empty, map_to_list_empty. cbn. lia. }
  assert (0 < x) as Hx by (eapply Hp, lookup_insert_eq).
  assert (positive m) as Hpm.
  { intros k c Hk. apply (Hp k). rewrite lookup_insert_ne; [done|congruence]. }
  specialize (IH Hpm). rewrite decrement_insert by done. rewrite mass_insert, counts_insert by done.
  unfold at_least in *. cbn [List.filter]. destruct (x - d <=? 0) eqn:E; bsolve.
  - destruct (d <=? x) eqn:E2; bsolve; cbn [length]; nia.
  - rewrite (proj2 (Z.leb_le d x)) by lia. cbn [length].
    rewrite mass_insert by (rewrite decrement_lookup, Hi; done). nia.
Qed.

Lemma decrement_size d m : size (decrement d m) = above d (counts m).
Proof.
  induction m as [|i x m Hi IH] using map_ind; [unfold decrement, counts; rewrite omap_empty, map_to_list_empty; done|].
  rewrite decrement_insert, counts_insert by done. unfold above in *. cbn [List.filter].
  destruct (x - d <=? 0) eqn:E; bsolve.
  - rewrite (proj2 (Z.ltb_ge d x)) by lia. done.
  - rewrite (proj2 (Z.ltb_lt d x)) by lia. cbn [length]. rewrite <- IH.
    apply map_size_insert_None. rewrite decrement_lookup, Hi. done.
Qed.

Lemma decrement_positive d m : positive (decrement d m).
Proof.
  intros k c. rewrite decrement_lookup. destruct (m !! k); [|done]. destruct (_ <=? 0) eqn:E; bsolve; [done|].
  intros [= <-]. lia.
Qed.

(** ** What a summary promises about a stream *)

(** [f x] is the true count of [x], [N] the sum of the weights, below the saturation ceiling. *)
Record bounds (m : MisraGries) (f : bytes -> Z) (N : Z) : Prop := {
  b_k : 1 <= mk m;
  b_total : mtotal m = N;
  b_ceiling : N <= maxMGCount;
  b_true : forall x, 0 <= f x;
  b_size : Z.of_nat (size (counters m)) <= mk m;
  b_pos : positive (counters m);
  b_upper : forall x c, counters m !! x = Some c -> c <= f x;
  b_lower : forall x, f x <= default 0 (counters m !! x) + merr m;
  b_err : 0 <= merr m;
  b_mass : mass (counters m) + (mk m + 1) * merr m <= N
}.

Lemma min_fold l n :
  let r := fold_left (fun d c => if c <? d then c else d) l n in
  r <= n /\ Forall (fun c => r <= c) l /\ (r = n \/ r ∈ l).
Proof.
  revert n. induction l as [|c l IH]; intros n; cbn [fold_left].
  { split_and!; [lia|constructor|auto]. }
  destruct (IH (if c <? n then c else n)) as (H1 & H2 & H3). cbv zeta in *.
  set (r := fold_left _ l _) in *. destruct (c <? n) eqn:E; bsolve.
  - split_and!; [lia|constructor; done|]. destruct H3 as [->|H3]; right; [constructor|by right].
  - split_and!; [lia|constructor; [lia|done]|]. destruct H3 as [->|H3]; [by left|right; by right].
Qed.

Lemma at_least_all d l : Forall (fun c => d <= c) l -> at_least d l = length l.
Proof.
  unfold at_least. induction 1 as [|c l Hc _ IH]; cbn; [done|].
  rewrite (proj2 (Z.leb_le d c)) by done. cbn. lia.
Qed.

Lemma above_lt d l : d ∈ l -> (above d l < length l)%nat.
Proof.
  unfold above. induction 1 as [d l|x d l _ IH]; cbn.
  - rewrite Z.ltb_irrefl. pose proof (List.filter_length_le (fun c => d <? c) l). lia.
  - destruct (x <? d); cbn; lia.
Qed.

Definition bump_true (f : bytes -> Z) (key : bytes) (n : Z) : bytes -> Z :=
  fun x => f x + if bool_decide (x = key) then n else 0.

(** The decrement step, on a table with no room for a new key. *)
Section Decrement.
Context (m : MisraGries) (f : bytes -> Z) (N : Z) (key : bytes) (n : Z).
Hypothesis Hb : bounds m f N.
Hypothesis Hn : 0 < n.
Hypothesis Hceil : N + n <= maxMGCount.
Hypothesis Hnew : counters m !! key = None.
Hypothesis Hfull : mk m <= Z.of_nat (size (counters m)).
Let d := fold_left (fun d c => if c <? d then c else d) (counts (counters m)) n.
Let cs := if n - d >? 0 then <[key := n - d]> (decrement d (counters m)) else decrement d (counters m).

Lemma decr_min : d <= n /\ 0 < d /\ (forall k c, counters m !! k = Some c -> d <= c) /\
  (d < n -> d ∈ counts (counters m)).
Proof.
  destruct (min_fold (counts (counters m)) n) as (H1 & H2 & H3). fold d in H1, H2, H3.
  rewrite Forall_forall in H2. split_and!; [done| | |].
  - destruct H3 as [->|[k Hk]%counts_elem]; [done|]. apply (b_pos _ _ _ Hb k). done.
  - intros k c Hk. apply H2, counts_elem. eauto.
  - intros Hlt. destruct H3 as [E|]; [lia|done].
Qed.

Lemma decr_room : Z.of_nat (size cs) <= mk m.
Proof.
  destruct decr_min as (H1 & H2 & H3 & H4). pose proof (b_size _ _ _ Hb) as Hs. unfold cs.
  destruct (n - d >? 0) eqn:E; bsolve.
  - assert (above d (counts (counters m)) < length (counts (counters m)))%nat by (apply above_lt, H4; lia).
    pose proof (map_size_insert_le (decrement d (counters m)) key (n - d)).
    rewrite decrement_size in *. rewrite counts_length in *. lia.
  - rewrite decrement_size. unfold above. rewrite <- counts_length in Hs.
    pose proof (List.filter_length_le (fun c => d <? c) (counts (counters m))). lia.
Qed.

Lemma decr_mass : mass cs + (mk m + 1) * (merr m + d) <= N + n.
Proof.
  destruct decr_min as (H1 & H2 & H3 & H4). pose proof (b_mass _ _ _ Hb).
  pose proof (decrement_mass d (counters m) ltac:(lia) (b_pos _ _ _ Hb)) as Hm.
  rewrite at_least_all, counts_length in Hm
    by (apply Forall_forall; intros c [k Hk]%counts_elem; eauto).
  unfold cs. destruct (n - d >? 0) eqn:E; bsolve; [|nia].
  rewrite mass_insert by (rewrite decrement_lookup, Hnew; done). nia.
Qed.

Lemma decr_bounds : bounds (MkMG (mk m) cs (N + n) (merr m + d) (mcreated m)) (bump_true f key n) (N + n).
Proof.
  destruct decr_min as (H1 & H2 & H3 & H4). pose proof decr_mass. pose proof decr_room.
  destruct Hb. split; cbn [mk counters mtotal merr]; try done; try lia.
  - intros x. unfold bump_true. specialize (b_true0 x). case_bool_decide; lia.
  - unfold cs. destruct (n - d >? 0) eqn:E; bsolve; [|apply decrement_positive].
    intros k c [[<- <-]|[_ Hk]]%lookup_insert_Some; [lia|]. eapply decrement_positive, Hk.
  - intros x c. unfold cs, bump_true. specialize (b_true0 x).
    assert (forall c, decrement d (counters m) !! x = Some c -> c <= f x) as Hd.
    { intros c'. rewrite decrement_lookup. destruct (counters m !! x) as [c0|] eqn:E0; [|done].
      destruct (_ <=? 0); [done|]. intros [= <-]. specialize (b_upper0 x c0 E0). lia. }
    destruct (n - d >? 0); [intros [[<- <-]|[_ Hk]]%lookup_insert_Some|intros Hk];
      [rewrite bool_decide_true by done; lia|specialize (Hd c Hk); case_bool_decide; lia..].
  - intros x. unfold cs, bump_true. specialize (b_lower0 x). pose proof (H3 x) as H3x.
    assert (default 0 (counters m !! x) <= default 0 (decrement d (counters m) !! x) + d) as Hd.
    { rewrite decrement_lookup. destruct (counters m !! x) as [c|]; cbn; [|lia].
      destruct (c - d <=? 0) eqn:E; bsolve; cbn; lia. }
    case_bool_decide as Hx.
    + subst x. rewrite Hnew in b_lower0. cbn in b_lower0.
      destruct (n - d >? 0) eqn:E; bsolve; [rewrite lookup_insert_eq; cbn; lia|].
      rewrite decrement_lookup, Hnew. cbn. lia.
    + destruct (n - d >? 0); rewrite ?lookup_insert_ne by done; lia.
Qed.

End Decrement.

Lemma bounds_ext m f g N : (forall x, f x = g x) -> bounds m f N -> bounds m g N.
Proof.
  intros E []. split; try done.
  - intros x. rewrite <- E. done.
  - intros x c Hc. rewrite <- E. auto.
  - intros x. rewrite <- E. done.
Qed.

Lemma bounds_total m f N : bounds m f N -> 0 <= N.
Proof.
  intros [? ? ? ? ? Hp ? ? ? ?]. pose proof (mass_nonneg _ Hp). nia.
Qed.

Lemma clampInt_id n lo hi : lo <= n <= hi -> clampInt n lo hi = n.
Proof. intros H. unfold clampInt. repeat ifcase; lia. Qed.

(** A key that has a counter. *)
Lemma Add_known_bounds m f N key n c :
  bounds m f N -> 0 < n -> N + n <= maxMGCount -> counters m !! key = Some c ->
  bounds (MkMG (mk m) (<[key := c + n]> (counters m)) (N + n) (merr m) (mcreated m)) (bump_true f key n) (N + n).
Proof.
  intros [] Hn Hceil Hc. split; cbn [mk counters mtotal merr]; try done.
  - intros x. unfold bump_true. specialize (b_true0 x). case_bool_decide; lia.
  - rewrite map_size_insert_Some by eauto. done.
  - intros k x [[<- <-]|[_ Hk]]%lookup_insert_Some; [|eauto]. specialize (b_pos0 key c Hc). lia.
  - intros x y. unfold bump_true. intros [[<- <-]|[Hne Hk]]%lookup_insert_Some.
    + rewrite bool_decide_true by done. specialize (b_upper0 key c Hc). lia.
    + rewrite bool_decide_false by congruence. specialize (b_upper0 x y Hk). lia.
  - intros x. unfold bump_true. specialize (b_lower0 x). case_bool_decide as Hx.
    + subst x. rewrite lookup_insert_eq. rewrite Hc in b_lower0. cbn in *. lia.
    + rewrite lookup_insert_ne by done. lia.
  - rewrite (mass_update _ _ _ _ Hc). lia.
Qed.

(** A new key, with room for it. *)
Lemma Add_fresh_bounds m f N key n :
  bounds m f N -> 0 < n -> N + n <= maxMGCount -> counters m !! key = None ->
  Z.of_nat (size (counters m)) < mk m ->
  bounds (MkMG (mk m) (<[key := n]> (counters m)) (N + n) (merr m) (mcreated m)) (bump_true f key n) (N + n).
Proof.
  intros [] Hn Hceil Hc Hroom. split; cbn [mk counters mtotal merr]; try done.
  - intros x. unfold bump_true. specialize (b_true0 x). case_bool_decide; lia.
  - rewrite map_size_insert_None by done. lia.
  - intros k x [[<- <-]|[_ Hk]]%lookup_insert_Some; [done|eauto].
  - intros x y. unfold bump_true. intros [[<- <-]|[Hne Hk]]%lookup_insert_Some.
    + rewrite bool_decide_true by done. specialize (b_true0 key). lia.
    + rewrite bool_decide_false by congruence. specialize (b_upper0 x y Hk). lia.
  - intros x. unfold bump_true. specialize (b_lower0 x). case_bool_decide as Hx.
    + subst x. rewrite lookup_insert_eq. rewrite Hc in b_lower0. cbn in *. lia.
    + rewrite lookup_insert_ne by done. lia.
  - rewrite mass_insert by done. lia.
Qed.

Lemma Add_bounds m f N key n :
  bounds m f N -> N + Z.max 0 n <= maxMGCount ->
  bounds (Add m key n) (bump_true f (truncKey key) (Z.max 0 n)) (N + Z.max 0 n).
Proof.
  intros Hb Hceil. pose proof (bounds_total _ _ _ Hb) as HN. pose proof (b_k _ _ _ Hb). unfold Add.
  destruct (n <=? 0) eqn:En; bsolve; cbn [orb].
  { rewrite Z.max_l by lia. rewrite Z.add_0_r. eapply bounds_ext; [|exact Hb].
    intros x. unfold bump_true. case_bool_decide; lia. }
  rewrite Z.max_r in * by lia. rewrite (proj2 (Z.ltb_ge _ _)) by done. set (k := truncKey key).
  rewrite (b_total _ _ _ Hb), mgSatTotal_small by lia.
  destruct (counters m !! k) as [c|] eqn:Ec.
  - pose proof (mass_bound _ _ _ (b_pos _ _ _ Hb) Ec). pose proof (b_mass _ _ _ Hb). pose proof (b_err _ _ _ Hb).
    rewrite mgSatCount_small by nia. apply Add_known_bounds; done.
  - rewrite clampInt_id by lia. destruct (_ <? mk m) eqn:Es; bsolve; [apply Add_fresh_bounds; done|].
    pose proof (decr_mass m f N k n Hb En Ec Es) as Hm.
    pose proof (decr_bounds m f N k n Hb En Hceil Ec Es) as Hbd.
    destruct (decr_min m f N k n Hb En) as (D1 & D2 & _). pose proof (b_err _ _ _ Hb).
    pose proof (mass_nonneg _ (b_pos _ _ _ Hbd)) as Hms. cbn [counters] in Hms. set (d := fold_left _ _ n) in *.
    rewrite mgSatTotal_small by nia. destruct (n - d >? 0) eqn:E; bsolve; [rewrite clampInt_id by lia|]; exact Hbd.
Qed.

(** *** Streams *)

Definition add_stream (m : MisraGries) (l : list (bytes * Z)) : MisraGries :=
  fold_left (fun m p => Add m p.1 p.2) l m.

(** The true count of a stored key, and the weight of the stream: weights below 1 are ignored. *)
Fixpoint true_count (x : bytes) (l : list (bytes * Z)) : Z :=
  match l with
  | [] => 0
  | (key, n) :: l => (if bool_decide (x = truncKey key) then Z.max 0 n else 0) + true_count x l
  end.

Fixpoint stream_weight (l : list (bytes * Z)) : Z :=
  match l with [] => 0 | (_, n) :: l => Z.max 0 n + stream_weight l end.

Lemma stream_weight_nonneg l : 0 <= stream_weight l.
Proof. induction l as [|[k n] l IH]; cbn; lia. Qed.

Lemma add_stream_bounds m f N l :
  bounds m f N -> N + stream_weight l <= maxMGCount ->
  bounds (add_stream m l) (fun x => f x + true_count x l) (N + stream_weight l).
Proof.
  revert m f N. induction l as [|[key n] l IH]; intros m f N Hb Hc; cbn [stream_weight true_count] in *.
  { rewrite Z.add_0_r. eapply bounds_ext; [|exact Hb]. intros x. lia. }
  pose proof (stream_weight_nonneg l).
  pose proof (IH (Add m key n) _ _ (Add_bounds m f N key n Hb ltac:(lia)) ltac:(lia)) as H'.
  rewrite Z.add_assoc. eapply bounds_ext; [|exact H']. intros x. unfold bump_true. cbn. lia.
Qed.

Lemma Add_k m key n : mk (Add m key n) = mk m.
Proof. unfold Add. destruct (_ || _); [done|]. destruct (counters m !! _); [done|]. by destruct (_ <? _). Qed.

Lemma add_stream_k m l : mk (add_stream m l) = mk m.
Proof. revert m. induction l as [|p l IH]; intros m; [done|]. etrans; [apply IH|apply Add_k]. Qed.

Lemma new_bounds k : bounds (NewMisraGries k) (fun _ => 0) 0.
Proof.
  pose proof (clampInt_range k 1 MaxMGCounters ltac:(unfold MaxMGCounters; lia)).
  split; cbn [NewMisraGries mk counters mtotal merr]; try done; try lia.
  - rewrite map_size_empty. lia.
  - unfold mass, counts. rewrite map_to_list_empty. cbn. lia.
Qed.

(** *** Merging *)

#[global] Instance Zge_transitive : Transitive Z.ge.
Proof. intros a b c. lia. Qed.
#[global] Instance Zge_total : Total Z.ge.
Proof. intros a b. lia. Qed.

(** The element at position [k] of a descending list: [k+1] elements reach it, at most [k] exceed it. *)
Lemma sorted_nth l k d :
  StronglySorted Z.ge l -> l !! k = Some d -> (k + 1 <= at_least d l)%nat /\ (above d l <= k)%nat.
Proof.
  unfold at_least, above. intros Hs. revert k. induction Hs as [|x l Hs IH Hx]; intros k Hk; [done|].
  rewrite Forall_forall in Hx. destruct k as [|k]; cbn in Hk |- *.
  - injection Hk as ->. rewrite (proj2 (Z.leb_le d d)), Z.ltb_irrefl by lia. cbn. split; [lia|].
    assert (List.filter (fun c => d <? c) l = []) as ->; [|cbn; lia].
    clear -Hx. induction l as [|y l IH]; [done|]. cbn. pose proof (Hx y ltac:(constructor)).
    rewrite (proj2 (Z.ltb_ge d y)) by lia. apply IH. intros z Hz. apply Hx. by right.
  - destruct (IH k Hk) as [I1 I2]. pose proof (Hx d (list_elem_of_lookup_2 _ _ _ Hk)).
    rewrite (proj2 (Z.leb_le d x)) by lia. cbn. split; [lia|]. destruct (d <? x); cbn; lia.
Qed.

Lemma sort_desc_nth cs k :
  (k < size cs)%nat ->
  exists d, sort_desc (counts cs) !! k = Some d /\ d ∈ counts cs /\
    (k + 1 <= at_least d (counts cs))%nat /\ (above d (counts cs) <= k)%nat.
Proof.
  intros Hk. unfold sort_desc. pose proof (merge_sort_Permutation Z.ge (counts cs)) as Hp.
  destruct (lookup_lt_is_Some_2 (merge_sort Z.ge (counts cs)) k) as [d Hd].
  { rewrite Hp, counts_length. done. }
  exists d. split; [done|].
  destruct (sorted_nth _ k d (StronglySorted_merge_sort Z.ge (counts cs)) Hd) as [H1 H2].
  rewrite <- Hp. split; [eapply list_elem_of_lookup_2, Hd|]. split; [|]; first [rewrite <- Hp; done|done].
Qed.

Lemma merge_lookup m o k :
  merge_counters m o !! k = match o !! k with
                            | None => m !! k
                            | Some c => Some (mgSatCount (default 0 (m !! k)) c)
                            end.
Proof. unfold merge_counters. rewrite lookup_merge. destruct (m !! k), (o !! k); done. Qed.

Definition no_saturation (m o : gmap bytes Z) : Prop :=
  forall k, default 0 (m !! k) + default 0 (o !! k) <= maxMGCount.

Lemma merge_insert m o i c :
  o !! i = None ->
  merge_counters m (<[i := c]> o) = <[i := mgSatCount (default 0 (m !! i)) c]> (merge_counters m o).
Proof.
  intros Hi. apply map_eq. intros k. rewrite merge_lookup. destruct (decide (i = k)) as [<-|Hne].
  - rewrite !lookup_insert_eq. done.
  - rewrite !lookup_insert_ne by done. rewrite merge_lookup. done.
Qed.

Lemma merge_mass m o : positive o -> no_saturation m o -> mass (merge_counters m o) = mass m + mass o.
Proof.
  induction o as [|i c o Hi IH] using map_ind; intros Hp Hns.
  { assert (merge_counters m ∅ = m) as ->.
    { apply map_eq. intros k. rewrite merge_lookup, lookup_empty. done. }
    unfold mass at 3, counts. rewrite map_to_list_empty. cbn. lia. }
  pose proof (Hp i c ltac:(apply lookup_insert_eq)) as Hc. pose proof (Hns i) as Hni.
  rewrite lookup_insert_eq in Hni. change (default 0 (Some c)) with c in Hni.
  assert (positive o) as Hp'.
  { intros k x Hk. apply (Hp k). rewrite lookup_insert_ne; [done|congruence]. }
  assert (no_saturation m o) as Hns'.
  { intros k. specialize (Hns k). destruct (decide (i = k)) as [<-|Hne]; [|by rewrite lookup_insert_ne in Hns].
    rewrite Hi. change (default 0 None) with 0. lia. }
  rewrite merge_insert, (mass_insert o) by done. specialize (IH Hp' Hns').
  rewrite mgSatCount_small by done. destruct (m !! i) as [x|] eqn:Em.
  - change (default 0 (Some x)) with x. rewrite (mass_update _ _ x); [lia|]. rewrite merge_lookup, Hi. done.
  - change (default 0 None) with 0. rewrite mass_insert; [lia|]. rewrite merge_lookup, Hi. done.
Qed.

Lemma s64_small z : 0 <= z < 2 ^ 63 -> s64 z = z.
Proof. intros H. unfold s64. rewrite u64_small by lia. rewrite (proj2 (Z.ltb_lt _ _)) by lia. done. Qed.

(** Two summaries of two streams, before the table is trimmed. *)
Lemma merged_counters a f N b g M :
  bounds a f N -> bounds b g M -> N + M <= maxMGCount ->
  let cs := merge_counters (counters a) (counters b) in
  positive cs /\ (forall x c, cs !! x = Some c -> c <= f x + g x) /\
  (forall x, f x + g x <= default 0 (cs !! x) + (merr a + merr b)) /\
  mass cs = mass (counters a) + mass (counters b).
Proof.
  intros Ha Hb Hc cs. pose proof (mass_nonneg _ (b_pos _ _ _ Ha)) as Ma. pose proof (mass_nonneg _ (b_pos _ _ _ Hb)) as Mb.
  pose proof (b_mass _ _ _ Ha). pose proof (b_mass _ _ _ Hb). pose proof (b_k _ _ _ Ha). pose proof (b_k _ _ _ Hb).
  pose proof (b_err _ _ _ Ha). pose proof (b_err _ _ _ Hb).
  assert (no_saturation (counters a) (counters b)) as Hns.
  { intros k. assert (default 0 (counters a !! k) <= mass (counters a)).
    { destruct (counters a !! k) eqn:E; [exact (mass_bound _ _ _ (b_pos _ _ _ Ha) E)|done]. }
    assert (default 0 (counters b !! k) <= mass (counters b)).
    { destruct (counters b !! k) eqn:E; [exact (mass_bound _ _ _ (b_pos _ _ _ Hb) E)|done]. }
    nia. }
  assert (forall x, cs !! x = match counters b !! x with None => counters a !! x
      | Some c => Some (default 0 (counters a !! x) + c) end) as Hcs.
  { intros x. unfold cs. rewrite merge_lookup. destruct (counters b !! x) as [c|] eqn:E; [|done].
    specialize (Hns x). rewrite E in Hns. rewrite mgSatCount_small by exact Hns. done. }
  split_and!; [..|apply merge_mass; [apply Hb|done]].
  - intros x c. rewrite Hcs. destruct (counters b !! x) as [cb|] eqn:E; [|apply Ha].
    intros [= <-]. pose proof (b_pos _ _ _ Hb x cb E). destruct (counters a !! x) as [ca|] eqn:E'; cbn; [|lia].
    pose proof (b_pos _ _ _ Ha x ca E'). unfold id. lia.
  - intros x c. rewrite Hcs. pose proof (b_true _ _ _ Ha x). pose proof (b_true _ _ _ Hb x).
    destruct (counters b !! x) as [cb|] eqn:E.
    + pose proof (b_upper _ _ _ Hb x cb E). intros [= <-].
      destruct (counters a !! x) as [ca|] eqn:E'; cbn; [pose proof (b_upper _ _ _ Ha x ca E'); unfold id|]; lia.
    + intros E'. pose proof (b_upper _ _ _ Ha x c E'). lia.
  - intros x. rewrite Hcs. pose proof (b_lower _ _ _ Ha x). pose proof (b_lower _ _ _ Hb x).
    destruct (counters b !! x), (counters a !! x); cbn in *; unfold id in *; lia.
Qed.

Lemma MergeFrom_bounds a f N b g M :
  bounds a f N -> bounds b g M -> mk b = mk a -> N + M <= maxMGCount ->
  exists m, MergeFrom a b = Ok m /\ bounds m (fun x => f x + g x) (N + M).
Proof.
  intros Ha Hb Hk Hc. destruct (merged_counters a f N b g M Ha Hb Hc) as (Hp & Hu & Hlo & Hm).
  unfold MergeFrom. rewrite Hk, Z.eqb_refl. cbn [negb]. set (cs := merge_counters _ _) in *.
  pose proof (mass_nonneg _ (b_pos _ _ _ Ha)) as Ma. pose proof (mass_nonneg _ (b_pos _ _ _ Hb)) as Mb.
  pose proof (b_mass _ _ _ Ha). pose proof (b_mass _ _ _ Hb) as Hmb. rewrite Hk in Hmb. pose proof (b_k _ _ _ Ha).
  pose proof (b_err _ _ _ Ha). pose proof (b_err _ _ _ Hb). unfold maxMGCount in Hc.
  rewrite (b_total _ _ _ Ha), (b_total _ _ _ Hb).
  pose proof (bounds_total _ _ _ Ha). pose proof (bounds_total _ _ _ Hb). rewrite (s64_small (N + M)) by lia.
  assert (forall x, 0 <= f x + g x) as Ht by (intros x; pose proof (b_true _ _ _ Ha x); pose proof (b_true _ _ _ Hb x); lia).
  destruct (_ >? mk a) eqn:Es; bsolve.
  - destruct (sort_desc_nth cs (Z.to_nat (mk a)) ltac:(lia)) as (d & -> & Hd & Hal & Hab). cbn [obind].
    apply counts_elem in Hd as [kd Hd]. pose proof (Hp kd d Hd) as Hd0.
    pose proof (decrement_mass d cs ltac:(lia) Hp) as Hdm. pose proof (mass_nonneg _ (decrement_positive d cs)).
    assert (d * (mk a + 1) <= d * Z.of_nat (at_least d (counts cs))) by (apply Z.mul_le_mono_nonneg_l; lia).
    assert (mass (decrement d cs) + (mk a + 1) * (merr a + d + merr b) <= N + M) as Hfin by lia.
    assert (merr a + d + merr b <= N + M) by nia.
    rewrite (s64_small (merr a + d)), s64_small by lia. eexists. split; [reflexivity|].
    split; cbn [mk counters mtotal merr]; try done; [| | | |lia].
    + rewrite decrement_size. lia.
    + apply decrement_positive.
    + intros x c. rewrite decrement_lookup. destruct (cs !! x) as [c0|] eqn:E; [|done].
      destruct (_ <=? 0); [done|]. intros [= <-]. specialize (Hu x c0 E). lia.
    + intros x. specialize (Hlo x). rewrite decrement_lookup. destruct (cs !! x) as [c|]; cbn in *; [|lia].
      unfold id in *. destruct (c - d <=? 0) eqn:E; bsolve; cbn; unfold id; lia.
  - cbn [obind]. assert (mass cs + (mk a + 1) * (merr a + merr b) <= N + M) by lia.
    assert (merr a + merr b <= N + M) by nia. rewrite s64_small by lia. eexists. split; [reflexivity|].
    split; cbn [mk counters mtotal merr]; try done. lia.
Qed.

(** ** The report *)

#[global] Instance counted_le_trans : Transitive counted_le.
Proof.
  intros a b c. unfold counted_le. intros [H1|[H1 K1]] [H2|[H2 K2]]; [left; lia..|].
  right. split; [congruence|]. etrans; eassumption.
Qed.

#[global] Instance counted_le_total : Total counted_le.
Proof.
  intros a b. unfold counted_le. destruct (Z.lt_trichotomy (ct_Count a) (ct_Count b)) as [|[E|]]; auto.
  destruct (bytes_le_total (ct_Key a) (ct_Key b)); auto.
Qed.

Definition counted (m : MisraGries) : list Counted :=
  (fun p => MkCounted p.1 p.2) <$> map_to_list (counters m).

Lemma counted_elem m k c : MkCounted k c ∈ counted m <-> counters m !! k = Some c.
Proof.
  unfold counted. rewrite list_elem_of_fmap. split.
  - intros ([k' c'] & [= -> ->] & H). by apply elem_of_map_to_list.
  - intros H. exists (k, c). split; [done|]. by apply elem_of_map_to_list.
Qed.

Lemma Top_all m : Top m 0 = sortCounted (counted m).
Proof. done. Qed.

Lemma Top_prefix m n : Top m n `prefix_of` Top m 0.
Proof.
  rewrite Top_all. unfold Top. fold (counted m). destruct (_ && _); [|done].
  exists (drop (Z.to_nat n) (sortCounted (counted m))). symmetry. apply take_drop.
Qed.

(** ** The entries of a frame *)

Definition entries_ok (ps : list (bytes * Z)) : Prop :=
  Forall (fun p => 1 <= Z.of_nat (length p.1) <= MaxMGKeyBytes /\ 1 <= p.2 <= maxMGCount) ps.

Lemma encode_entries_cons p ps : encode_entries (p :: ps) = encode_entry p ++ encode_entries ps.
Proof. done. Qed.

Lemma encode_entry_length key c : length (encode_entry (key, c)) = (10 + length key)%nat.
Proof. unfold encode_entry. rewrite !length_app, !le_put_length. cbn. lia. Qed.

Lemma mg_entry_at body off key c t :
  drop off body = encode_entry (key, c) ++ t -> 1 <= Z.of_nat (length key) <= MaxMGKeyBytes -> 1 <= c <= maxMGCount ->
  get_sub (E:=sketch_error) body off (off + 2) = Ok (le_put 2 (Z.of_nat (length key))) /\
  Z.to_nat (le_get (le_put 2 (Z.of_nat (length key)))) = length key /\
  get_sub (E:=sketch_error) body (off + 2) (off + 2 + length key) = Ok key /\
  get_sub (E:=sketch_error) body (off + 2 + length key) (off + 2 + length key + 8) = Ok (le_put 8 (u64 c)) /\
  s64 (le_get (le_put 8 (u64 c))) = c /\
  drop (off + 2 + length key + 8) body = t.
Proof.
  intros H Hk Hc. unfold encode_entry in H. cbn [fst snd] in H. rewrite <- !app_assoc in H. unfold maxMGCount in Hc.
  unfold MaxMGKeyBytes in Hk.
  pose proof (drop_past _ _ _ _ H) as H1. rewrite le_put_length in H1.
  pose proof (drop_past _ _ _ _ H1) as H2. pose proof (drop_past _ _ _ _ H2) as H3. rewrite le_put_length in H3.
  split_and!.
  - eapply get_sub_drop; [exact H|rewrite le_put_length; lia|rewrite le_put_length; lia].
  - rewrite le_get_put, Z.mod_small, Nat2Z.id; [done|]. change (256 ^ Z.of_nat 2) with 65536. lia.
  - eapply get_sub_drop; [exact H1|done|lia].
  - eapply get_sub_drop; [exact H2|rewrite le_put_length; lia|rewrite le_put_length; lia].
  - rewrite le_get_put. change (256 ^ Z.of_nat 8) with (2 ^ 64). rewrite Z.mod_small by apply u64_range.
    rewrite u64_small by lia. apply s64_small. lia.
  - exact H3.
Qed.

Lemma walk_entries_ok ps body i pS pE prev off :
  drop off body = encode_entries ps -> entries_ok ps -> get_sub (E:=sketch_error) body pS pE = Ok prev ->
  ascending (if (0 <? i)%nat then prev :: ps.*1 else ps.*1) -> (off <= length body)%nat ->
  walk_entries body i (length ps) pS pE off = Ok (length body).
Proof.
  revert i pS pE prev off. induction ps as [|[key c] ps IH]; intros i pS pE prev off Hd Hok Hprev Hasc Hle;
    cbn [length walk_entries].
  { apply (f_equal length) in Hd. rewrite length_drop in Hd. cbn in Hd. f_equal. lia. }
  rewrite encode_entries_cons in Hd. apply Forall_cons in Hok as [[Hk Hc] Hok]. cbn [fst snd] in *.
  destruct (mg_entry_at _ _ _ _ _ Hd Hk Hc) as (E1 & E2 & E3 & E4 & E5 & E6).
  assert (off + 10 + length key <= length body)%nat as Hlen.
  { apply (f_equal length) in Hd. rewrite length_drop, length_app, encode_entry_length in Hd. lia. }
  unfold mgKeyLenBytes, mgCountBytes, MaxMGKeyBytes in *. rewrite (proj2 (Nat.ltb_ge _ _)) by lia.
  rewrite E1. cbn [obind]. rewrite E2. rewrite (proj2 (Z.ltb_ge _ _)) by lia. cbn [orb].
  rewrite Z.gtb_ltb, (proj2 (Z.ltb_ge _ _)) by lia. rewrite (proj2 (Nat.ltb_ge _ _)) by lia.
  rewrite Hprev. cbn [obind]. rewrite E3. cbn [obind].
  replace ((0 <? i)%nat && negb (bool_decide (bytes_lt prev key))) with false.
  - rewrite E4. cbn [obind]. rewrite E5. rewrite (proj2 (Z.ltb_ge _ _)) by lia. cbn [orb].
    rewrite Z.gtb_ltb, (proj2 (Z.ltb_ge _ _)) by lia.
    apply (IH _ _ _ key); [done|done|done| |lia].
    change (0 <? S i)%nat with true. destruct (0 <? i)%nat; [|exact Hasc].
    apply StronglySorted_inv in Hasc as [Hasc _]. exact Hasc.
  - destruct (0 <? i)%nat; [|done]. apply StronglySorted_inv in Hasc as [_ Hasc].
    apply Forall_cons in Hasc as [Hlt _]. rewrite bool_decide_true by done. done.
Qed.

Lemma fill_entries_ok ps body p m :
  drop p body = encode_entries ps -> entries_ok ps -> fill_entries body (length ps) p m = Ok (fill ps m).
Proof.
  revert p m. induction ps as [|[key c] ps IH]; intros p m Hd Hok; cbn [length fill_entries]; [done|].
  rewrite encode_entries_cons in Hd. apply Forall_cons in Hok as [[Hk Hc] Hok]. cbn [fst snd] in *.
  destruct (mg_entry_at _ _ _ _ _ Hd Hk Hc) as (E1 & E2 & E3 & E4 & E5 & E6).
  unfold mgKeyLenBytes, mgCountBytes. rewrite E1. cbn [obind]. rewrite E2, E3. cbn [obind]. rewrite E4. cbn [obind].
  rewrite E5. apply IH; done.
Qed.

(** What the walk has established when it succeeds; it never indexes out of range. *)
(** One entry of the body, as its bytes. *)
Lemma entry_layout (body : bytes) off :
  let keyLen := Z.to_nat (le_get (slice body off (off + 2))) in
  let c := le_get (slice body (off + 2 + keyLen) (off + 2 + keyLen + 8)) in
  (off + 2 + keyLen + 8 <= length body)%nat ->
  0 <= c < 2 ^ 64 /\
  drop off body = encode_entry (slice body (off + 2) (off + 2 + keyLen), s64 c) ++ drop (off + 2 + keyLen + 8) body.
Proof.
  intros keyLen c Hl. pose proof (slice_get_range body off (off + 2) ltac:(lia)) as Hk.
  pose proof (slice_get_range body (off + 2 + keyLen) (off + 2 + keyLen + 8) ltac:(lia)) as Hc.
  replace (off + 2 + keyLen + 8 - (off + 2 + keyLen))%nat with 8%nat in Hc by lia. split; [exact Hc|].
  unfold encode_entry. cbn [fst snd]. rewrite (proj1 (u64_s64 c Hc)). unfold c. rewrite le_put_slice by lia.
  rewrite slice_length by lia. replace (off + 2 + keyLen - (off + 2))%nat with keyLen by lia.
  unfold keyLen at 1. rewrite Z2Nat.id, le_put_slice by lia. rewrite <- !app_assoc, <- !drop_slice by lia. done.
Qed.

Lemma walk_entries_spec body n i pS pE prev off :
  (off <= length body)%nat -> get_sub (E:=sketch_error) body pS pE = Ok prev ->
  match walk_entries body i n pS pE off with
  | Ok off' => exists ps, length ps = n /\ entries_ok ps /\
      ascending (if (0 <? i)%nat then prev :: ps.*1 else ps.*1) /\
      drop off body = encode_entries ps ++ drop off' body /\ (off' <= length body)%nat
  | Err _ => True
  | Panic => False
  end.
Proof.
  revert i pS pE prev off. induction n as [|n IH]; intros i pS pE prev off Hoff Hprev; cbn [walk_entries].
  { exists []. split_and!; [done|constructor|case_match; repeat constructor|done|done]. }
  unfold mgKeyLenBytes, mgCountBytes.
  destruct (length body <? off + 2)%nat eqn:E0; bsolve; [done|]. rewrite get_sub_in by lia. cbn [obind].
  set (kb := slice body off (off + 2)). pose proof (slice_get_range body off (off + 2) ltac:(lia)) as Hkb. fold kb in Hkb.
  replace (off + 2 - off)%nat with 2%nat in Hkb by lia. change (256 ^ Z.of_nat 2) with 65536 in Hkb.
  set (keyLen := Z.to_nat (le_get kb)) in *.
  destruct (_ || _) eqn:E1; [done|]. bsolve. destruct (length body <? _)%nat eqn:E2; bsolve; [done|].
  rewrite Hprev. cbn [obind]. rewrite get_sub_in by lia. cbn [obind].
  set (key := slice body (off + 2) (off + 2 + keyLen)).
  assert (length key = keyLen) as Hlen by (unfold key; rewrite slice_length; lia).
  destruct ((0 <? i)%nat && _) eqn:E3; [done|]. rewrite get_sub_in by lia. cbn [obind].
  set (cb := slice body (off + 2 + keyLen) (off + 2 + keyLen + 8)).
  destruct (entry_layout body off ltac:(fold kb keyLen; lia)) as [Hcb Hhd]. fold kb keyLen key cb in Hcb, Hhd.
  destruct (_ || _) eqn:E4; [done|]. bsolve.
  specialize (IH (S i) (off + 2)%nat (off + 2 + keyLen)%nat key (off + 2 + keyLen + 8)%nat).
  destruct (walk_entries _ _ _ _ _ _) as [off'| |]; [|done|].
  2: { apply IH; [lia|]. rewrite get_sub_in by lia. done. }
  destruct IH as (ps & K1 & K2 & K3 & K4 & K6); [lia|rewrite get_sub_in by lia; done|].
  exists ((key, s64 (le_get cb)) :: ps). split_and!.
  - cbn. lia.
  - constructor; [|done]. cbn [fst snd]. rewrite Hlen. split; [lia|lia].
  - by apply ascending_prev.
  - rewrite encode_entries_cons, <- app_assoc, <- K4. exact Hhd.
  - lia.
Qed.

(** ** Persistence *)

Record wf (m : MisraGries) : Prop := {
  wf_k : 1 <= mk m <= MaxMGCounters;
  wf_size : Z.of_nat (size (counters m)) <= mk m;
  wf_entry : forall k c, counters m !! k = Some c ->
    1 <= Z.of_nat (length k) <= MaxMGKeyBytes /\ 1 <= c <= maxMGCount;
  wf_total : 0 <= mtotal m <= maxMGCount;
  wf_err : 0 <= merr m <= maxMGCount;
  wf_created : - 2 ^ 63 <= mcreated m < 2 ^ 63
}.

Lemma mg_params m :
  Params (MG_Header m) !! paramMGK = Some (F64.of_int (mk m)) /\
  Params (MG_Header m) !! paramErr = Some (F64.of_int (merr m)).
Proof. cbn [Params MG_Header]. split; by simplify_map_eq. Qed.

Lemma mg_k_exact m : wf m -> F64.exact_int (mk m).
Proof. intros H. pose proof (wf_k m H). unfold MaxMGCounters in *. left. lia. Qed.

Lemma mg_header_ok m : wf m -> F64.exact_int (merr m) -> header_ok (MG_Header m).
Proof.
  intros H He. unfold header_ok, FormatVersion. split; [done|]. split; [done|].
  split; [apply u64_range|]. split; [apply H|].
  intros k v Hv. cbn [Params MG_Header] in Hv. rewrite lookup_insert_Some, lookup_singleton_Some in Hv.
  destruct Hv as [[_ <-]|[_ [_ <-]]]; apply F64.of_int_range; [done|by apply mg_k_exact].
Qed.

Lemma named_entries_ok m : wf m -> entries_ok (named_params (counters m)).
Proof.
  intros H. apply Forall_forall. intros [k c] Hin%named_params_elem. cbn [fst snd]. by apply (wf_entry m H).
Qed.

Lemma MG_decode_encode m crc :
  wf m -> F64.exact_int (merr m) ->
  MG_decodeV1 (stamped (MG_Header m) crc)
    (le_put 4 (Z.of_nat (length (named_params (counters m)))) ++ encode_entries (named_params (counters m))) = Ok m.
Proof.
  intros H He. destruct (mg_params m) as [P1 P2]. pose proof (wf_k m H) as Hk. pose proof (wf_err m H).
  pose proof (wf_total m H) as Ht. pose proof (wf_size m H) as Hs. unfold MG_decodeV1.
  rewrite (MustParamInt_of_int _ paramMGK (mk m)) by (done || by apply mg_k_exact). cbn [obind].
  rewrite (MustParamInt_of_int _ paramErr (merr m)) by done. cbn [obind]. cbn [Count stamped MG_Header].
  unfold maxMGCount, MaxMGCounters in *. rewrite u64_small by lia. rewrite Z.gtb_ltb, (proj2 (Z.ltb_ge _ _)) by lia.
  set (ps := named_params (counters m)). set (body := le_put 4 _ ++ _).
  assert (length body = 4 + length (encode_entries ps))%nat as Hl by (unfold body; rewrite length_app, le_put_length; done).
  unfold mgEntryCountBytes. rewrite (proj2 (Nat.ltb_ge _ _)) by lia.
  assert (Z.of_nat (length ps) <= mk m) as Hps by (unfold ps; rewrite named_params_length; done).
  rewrite (get_sub_drop body 0 4 (le_put 4 (Z.of_nat (length ps))) (encode_entries ps))
    by (rewrite ?le_put_length; done || lia).
  cbn [obind]. rewrite le_get_put. change (256 ^ Z.of_nat 4) with (2 ^ 32). rewrite Z.mod_small by lia.
  rewrite Z.gtb_ltb, (proj2 (Z.ltb_ge _ _)) by lia. rewrite Nat2Z.id.
  assert (drop 4 body = encode_entries ps) as Hd by (apply drop_app_length'; rewrite le_put_length; done).
  assert (ascending ps.*1) as Hasc by (unfold ps; rewrite named_params_names; apply sorted_names_ascending).
  rewrite (walk_entries_ok ps body _ _ _ [] 4 Hd (named_entries_ok m H));
    [|rewrite get_sub_in by lia; done|exact Hasc|lia].
  cbn [obind]. rewrite Nat.eqb_refl. cbn [negb]. rewrite (fill_entries_ok ps body 4 ∅ Hd (named_entries_ok m H)).
  cbn [obind Created stamped MG_Header]. rewrite fill_empty by (apply ascending_NoDup, Hasc).
  unfold ps. rewrite named_params_map, s64_small by lia. by destruct m.
Qed.

(** Header params are floats: the error bound survives them below [2^53]. *)
Definition persistable (m : MisraGries) : Prop := wf m /\ merr m < 2 ^ 53.

Lemma persistable_exact m : persistable m -> F64.exact_int (merr m).
Proof. intros [H He]. pose proof (wf_err m H). left. lia. Qed.

Lemma MG_marshal_cases m :
  wf m -> MG_MarshalBinary m = EncodeHeader (MG_Header m)
    (le_put 4 (Z.of_nat (length (named_params (counters m)))) ++ encode_entries (named_params (counters m))).
Proof.
  intros H. pose proof (wf_k m H). pose proof (wf_total m H). unfold MG_MarshalBinary.
  rewrite (proj2 (Z.ltb_ge _ _)), (proj2 (Z.ltb_ge _ _)) by lia. cbn [orb].
  rewrite Z.gtb_ltb, (proj2 (Z.ltb_ge _ _)) by lia.
  assert (omap entry_error (map_to_list (counters m)) = []) as ->; [|done].
  assert (forall p, p ∈ map_to_list (counters m) -> entry_error p = None) as Hp.
  { intros [k c] Hin%elem_of_map_to_list. destruct (wf_entry m H k c Hin) as [W1 W2]. unfold entry_error.
    cbn [fst snd]. rewrite !Z.gtb_ltb, !(proj2 (Z.ltb_ge _ _)) by lia. done. }
  induction (map_to_list (counters m)) as [|p l IH]; [done|]. cbn. rewrite Hp by constructor.
  apply IH. intros. apply Hp. by right.
Qed.

Lemma MG_roundtrip m f : persistable m -> MG_MarshalBinary m = Ok f -> MG_UnmarshalBinary f = Ok m.
Proof.
  intros Hp Hm. pose proof Hp as [H _]. pose proof (persistable_exact m Hp) as He.
  rewrite MG_marshal_cases in Hm by done.
  destruct (encode_decode _ _ _ (mg_header_ok m H He) Hm) as (g & _ & Hd). unfold MG_UnmarshalBinary.
  rewrite Hd. cbn [obind hKind stamped MG_Header Ver]. rewrite Z.eqb_refl. cbn [negb Z.eqb FormatVersion].
  apply MG_decode_encode; done.
Qed.

Lemma MG_decode_spec b :
  match MG_UnmarshalBinary b with Ok x => wf x | Err _ => True | Panic => False end.
Proof.
  unfold MG_UnmarshalBinary. pose proof (DecodeHeader_spec b) as Hd.
  destruct (DecodeHeader b) as [[h body]| |]; [|done|done]. cbn [obind].
  destruct Hd as (_ & _ & (_ & _ & Hcnt & Hcr & _) & _).
  destruct (negb _); [done|]. destruct (Ver h =? 1); [|done]. unfold MG_decodeV1.
  destruct (MustParamInt h paramMGK _ _) as [k| |] eqn:E1; [|done|by apply MustParamInt_no_panic in E1].
  cbn [obind].
  destruct (MustParamInt h paramErr _ _) as [e| |] eqn:E2; [|done|by apply MustParamInt_no_panic in E2].
  cbn [obind]. apply MustParamInt_range in E1, E2. destruct (Count h >? maxMGCount) eqn:E3; bsolve; [done|].
  unfold mgEntryCountBytes. destruct (length body <? 4)%nat eqn:E4; bsolve; [done|]. rewrite get_sub_in by lia. cbn [obind].
  pose proof (slice_get_range body 0 4 ltac:(lia)) as Hdec. destruct (_ >? k) eqn:E5; bsolve; [done|].
  pose proof (walk_entries_spec body (Z.to_nat (le_get (slice body 0 4))) 0 0 0 [] 4 ltac:(lia)
    (get_sub_in body 0 0 ltac:(lia))) as Hw.
  destruct (walk_entries _ _ _ _ _ _) as [off| |]; [|done|done]. cbn [obind].
  destruct Hw as (ps & K1 & K2 & K3 & K4 & _). destruct (off =? length body)%nat eqn:E6; bsolve; [|done]. cbn [negb].
  subst off. rewrite drop_all, app_nil_r in K4. change (ascending ps.*1) in K3.
  rewrite <- K1, (fill_entries_ok ps body 4 ∅ K4 K2). cbn [obind].
  pose proof (ascending_NoDup _ K3) as Hnd. rewrite fill_empty by done.
  unfold maxMGCount in *. split; cbn [mk counters mtotal merr mcreated]; try done.
  - rewrite <- named_params_length, named_params_unique, K1, Z2Nat.id by (done || lia). done.
  - intros key c Hc. apply elem_of_list_to_map in Hc; [|done]. unfold entries_ok in K2. rewrite Forall_forall in K2.
    apply (K2 _ Hc).
  - unfold maxMGCount. rewrite s64_small by lia. lia.
Qed.

#[global] Instance MG_Laws : SketchLaws MisraGries persistable.
Proof.
  split.
  - apply MG_roundtrip.
  - intros b. pose proof (MG_decode_spec b) as H. cbn. by destruct (MG_UnmarshalBinary b).
Qed.

#[global] Instance MG_Decodes : SketchDecodes MisraGries wf.
Proof. intros b x E. pose proof (MG_decode_spec b) as H. cbn in E. rewrite E in H. done. Qed.

(** ** Claims *)

Definition demo_mg_stream : list (bytes * Z) :=
  [(str "a", 5); (str "b", 2); (str "c", 1); (str "a", 4); (str "d", 3); (str "b", 0)].

(** Unconditionally, a counter belongs to a key that was added. *)
Lemma add_stream_keys l m k c :
  counters (add_stream m l) !! k = Some c ->
  (exists c0, counters m !! k = Some c0) \/ exists p, p ∈ l /\ k = truncKey p.1.
Proof.
  revert m. induction l as [|[key n] l IH]; intros m H; [left; eauto|]. cbn in H.
  destruct (IH _ H) as [[c0 H0]|(p & Hp & ->)]; [|right; exists p; split; [by right|done]].
  unfold Add in H0. destruct (_ || _); [left; eauto|].
  assert (forall x (cs : gmap bytes Z), <[truncKey key := x]> cs !! k = Some c0 ->
    cs !! k = Some c0 \/ exists p, p ∈ (key, n) :: l /\ k = truncKey p.1) as Hi.
  { intros x cs [[<- _]|[_ E]]%lookup_insert_Some; [right; exists (key, n); split; [constructor|done]|by left]. }
  assert (forall d, decrement d (counters m) !! k = Some c0 -> exists c1, counters m !! k = Some c1) as Hd.
  { intros d. rewrite decrement_lookup. destruct (counters m !! k); [eauto|done]. }
  destruct (counters m !! truncKey key); [destruct (Hi _ _ H0); eauto|].
  destruct (_ <? mk m); [destruct (Hi _ _ H0); eauto|]. cbn [counters] in H0.
  destruct (_ >? 0); [destruct (Hi _ _ H0) as [?%Hd|]|apply Hd in H0]; eauto.
Qed.

Lemma add_stream_new_keys k l key c :
  counters (add_stream (NewMisraGries k) l) !! key = Some c -> exists p, p ∈ l /\ key = truncKey p.1.
Proof. intros [[c0 H]|H]%add_stream_keys; [cbn in H; by rewrite lookup_empty in H|done]. Qed.

(** C33: the two-sided guarantee of the summary, for every stream whose weight stays below the
    saturation ceiling: at most [k] counters; every counter belongs to a key that was added; a
    reported count is positive, never above the true count, and within [MaxError] of it;
    [(k+1) * MaxError] never exceeds the weight of the stream; hence every key heavier than
    [Total/(k+1)] is still present. *)
Theorem mg_stream_bounds k l :
  stream_weight l <= maxMGCount ->
  let m := add_stream (NewMisraGries k) l in
  mtotal m = stream_weight l /\
  Z.of_nat (size (counters m)) <= mk m /\
  (forall x c, counters m !! x = Some c ->
     (exists p, p ∈ l /\ x = truncKey p.1) /\ 0 < c <= true_count x l) /\
  (forall x, true_count x l <= default 0 (counters m !! x) + merr m) /\
  (mk m + 1) * merr m <= stream_weight l /\
  (forall x, stream_weight l < (mk m + 1) * true_count x l -> is_Some (counters m !! x)).
Proof.
  intros Hw m. destruct (add_stream_bounds (NewMisraGries k) _ 0 l (new_bounds k) Hw) as [B1 B2 B3 B4 B5 B6 B7 B8 B9 B10].
  fold m in B1, B2, B5, B6, B7, B8, B9, B10. cbn [Z.add] in *. pose proof (mass_nonneg _ B6).
  split_and!; [done|done| |done|lia|].
  - intros x c Hc. split; [exact (add_stream_new_keys k l x c Hc)|]. eauto.
  - intros x Hx. specialize (B8 x). destruct (counters m !! x); [eauto|]. cbn in B8. nia.
Qed.

Lemma mg_stream_bounds_witness :
  let m := add_stream (NewMisraGries 2) demo_mg_stream in
  merr m = 2 /\ true_count (str "a") demo_mg_stream = 9 /\ is_Some (counters m !! str "a").
Proof.
  split; [vm_compute; reflexivity|]. split; [vm_compute; reflexivity|].
  apply (mg_stream_bounds 2 demo_mg_stream); vm_compute; congruence.
Defined.

(** Merging two summaries with the same budget, of two streams whose joint weight stays below
    the ceiling, never fails and gives a summary with the same two-sided guarantee for the two
    streams together. *)
Theorem mg_merge_bounds k l1 l2 :
  stream_weight l1 + stream_weight l2 <= maxMGCount ->
  exists m, MergeFrom (add_stream (NewMisraGries k) l1) (add_stream (NewMisraGries k) l2) = Ok m /\
    bounds m (fun x => true_count x l1 + true_count x l2) (stream_weight l1 + stream_weight l2) /\
    (forall x, stream_weight l1 + stream_weight l2 < (mk m + 1) * (true_count x l1 + true_count x l2) ->
       is_Some (counters m !! x)).
Proof.
  intros Hw. pose proof (stream_weight_nonneg l1). pose proof (stream_weight_nonneg l2).
  pose proof (add_stream_bounds _ _ 0 l1 (new_bounds k) ltac:(lia)) as B1.
  pose proof (add_stream_bounds _ _ 0 l2 (new_bounds k) ltac:(lia)) as B2. cbn [Z.add] in *.
  destruct (MergeFrom_bounds _ _ _ _ _ _ B1 B2) as (m & E & B); [by rewrite !add_stream_k|lia|].
  exists m. split; [exact E|]. split; [exact B|]. intros x Hx. pose proof (b_lower _ _ _ B x) as Hlo.
  pose proof (mass_nonneg _ (b_pos _ _ _ B)). pose proof (b_mass _ _ _ B). cbn beta in Hlo.
  destruct (counters m !! x); [eauto|]. cbn in Hlo. pose proof (b_k _ _ _ B). nia.
Qed.

Lemma mg_merge_bounds_witness :
  exists m, MergeFrom (add_stream (NewMisraGries 2) demo_mg_stream) (add_stream (NewMisraGries 2) [(str "e", 6)]) = Ok m /\
    9 <= default 0 (counters m !! str "a") + merr m /\ (mk m + 1) * merr m <= 21.
Proof.
  destruct (mg_merge_bounds 2 demo_mg_stream [(str "e", 6)]) as (m & E & B & H); [vm_compute; congruence|].
  exists m. split; [exact E|]. split; [exact (b_lower _ _ _ B (str "a"))|].
  pose proof (mass_nonneg _ (b_pos _ _ _ B)). pose proof (b_mass _ _ _ B) as Hm.
  change (stream_weight demo_mg_stream + stream_weight [(str "e", 6)]) with 21 in Hm. lia.
Defined.

Lemma sortCounted_sorted l : StronglySorted counted_le (sortCounted l).
Proof. apply StronglySorted_merge_sort; apply _. Qed.

Lemma sortCounted_perm l : sortCounted l ≡ₚ l.
Proof. apply merge_sort_Permutation. Qed.

(** The order is total on distinct keys: whatever order the map is read in, and whichever comparison
    sort is used, the report is the same list. *)
#[global] Instance counted_le_antisymm : AntiSymm (=) counted_le.
Proof.
  intros [k1 c1] [k2 c2]. unfold counted_le. cbn. intros [?|[E H1]] [?|[E2 H2]]; [lia..|].
  f_equal; [|done]. by apply (anti_symm bytes_le).
Qed.

Lemma sortCounted_unique l l' : l ≡ₚ l' -> StronglySorted counted_le l' -> l' = sortCounted l.
Proof.
  intros Hp Hs. apply (StronglySorted_unique counted_le); [done|apply sortCounted_sorted|].
  rewrite sortCounted_perm. done.
Qed.

(** [Top] is the sorted table: count descending, key ascending on ties; an unlimited report
    holds every counter exactly once, a limited one is its first [n] entries; and the answer does
    not depend on the order the counters are iterated in: any sorted arrangement of them is it. *)
Theorem mg_top_sorted m n :
  StronglySorted counted_le (Top m 0) /\
  (forall k c, MkCounted k c ∈ Top m 0 <-> counters m !! k = Some c) /\
  NoDup (Top m 0) /\
  (forall l, l ≡ₚ counted m -> StronglySorted counted_le l -> l = Top m 0) /\
  Top m n = (if n <=? 0 then Top m 0 else take (Z.to_nat n) (Top m 0)).
Proof.
  rewrite Top_all. split_and!.
  - apply sortCounted_sorted.
  - intros k c. rewrite sortCounted_perm. apply counted_elem.
  - rewrite sortCounted_perm. unfold counted. apply NoDup_fmap_2; [|apply NoDup_map_to_list].
    intros [a b] [a' b']. cbn. congruence.
  - intros l Hp. apply sortCounted_unique. done.
  - unfold Top. fold (counted m). destruct (n <=? 0) eqn:E; bsolve.
    + rewrite Z.gtb_ltb, (proj2 (Z.ltb_ge _ _)) by lia. done.
    + rewrite Z.gtb_ltb, (proj2 (Z.ltb_lt 0 n)) by lia. cbn [andb]. destruct (_ <? _) eqn:E2; bsolve; [done|].
      rewrite take_ge by lia. done.
Qed.

(** *** Heavy hitters *)

Lemma estimate_each_spec c l :
  CMS.wf c -> exists out, estimate_each c l = Ok out /\ ct_Key <$> out = ct_Key <$> l /\
    Forall (fun x => Estimate c (ct_Key x) = Ok (ct_Count x)) out.
Proof.
  intros H. induction l as [|[k n] l (out & E & Hk & Hf)]; [exists []; split_and!; [done|done|constructor]|].
  cbn [estimate_each ct_Key]. pose proof (Estimate_spec c k H) as He. rewrite He. cbn [obind]. rewrite E. cbn [obind].
  eexists. split; [reflexivity|]. cbn [fmap list_fmap ct_Key]. split; [by rewrite Hk|].
  constructor; [|done]. cbn [ct_Key ct_Count]. rewrite He, Z.min_l; [done|].
  pose proof (proj1 (fold_min_le ((fun i => cells c !!! i) <$> cells_of c k) MaxUint32 _) (Z.le_refl _)) as [Hle _].
  unfold MaxUint32, MaxInt in *. lia.
Qed.

Lemma true_count_weight x l :
  weights_ok l -> Forall (fun p => Z.of_nat (length p.1) <= MaxMGKeyBytes) l -> true_count x l = weight x l.
Proof.
  induction l as [|[k n] l IH]; [done|]. intros Hw Hk. apply Forall_cons in Hw as [Hn Hw], Hk as [Hk Hks]. cbn in *.
  rewrite IH by done. unfold truncKey. rewrite Z.gtb_ltb, (proj2 (Z.ltb_ge _ _)) by done.
  rewrite Z.max_r by lia. repeat case_bool_decide; congruence || lia.
Qed.

Definition short_keys (l : list (bytes * Z)) : Prop :=
  Forall (fun p => 1 <= Z.of_nat (length p.1) <= MaxMGKeyBytes) l.

Lemma short_key_trunc key : Z.of_nat (length key) <= MaxMGKeyBytes -> truncKey key = key.
Proof. intros H. unfold truncKey. rewrite Z.gtb_ltb, (proj2 (Z.ltb_ge _ _)) by done. done. Qed.

(** A summary and a Count-Min table fed the same stream answer "which keys are heaviest": the
    keys are keys of the stream, each count is the table's estimate and so never below the key's
    true weight, every key heavier than [Total/(k+1)] is a candidate, and the report is the first [n]
    of all candidates in the order of their counts. *)
Theorem heavy_hitters_sound k z l n :
  CMS.wf z -> weights_ok l -> short_keys l -> stream_weight l <= maxMGCount -> 0 < n ->
  exists c out all, add_all z l = Ok c /\ HeavyHitters c (add_stream (NewMisraGries k) l) n = Ok out /\
    out = take (Z.to_nat n) all /\ StronglySorted counted_le all /\
    (forall x, stream_weight l < (mk (NewMisraGries k) + 1) * weight x l -> x ∈ ct_Key <$> all) /\
    Forall (fun h => (exists p, p ∈ l /\ ct_Key h = p.1) /\ Estimate c (ct_Key h) = Ok (ct_Count h) /\
      Z.min MaxUint32 (weight (ct_Key h) l) <= ct_Count h) all.
Proof.
  intros Hz Hw Hs Hc Hn. destruct (add_all_ok z l Hz Hw) as (c & Ec & Hwc & _).
  set (m := add_stream (NewMisraGries k) l). destruct (estimate_each_spec c (Top m 0) Hwc) as (raw & Er & Hk & Hf).
  assert (forall x, x ∈ ct_Key <$> sortCounted raw <-> is_Some (counters m !! x)) as Hkeys.
  { intros x. rewrite sortCounted_perm, Hk, Top_all, sortCounted_perm, list_elem_of_fmap. split.
    - intros ([k' c'] & -> & Hin%counted_elem). eauto.
    - intros [y Hy]. exists (MkCounted x y). split; [done|]. by apply counted_elem. }
  exists c. eexists. exists (sortCounted raw). split; [exact Ec|]. unfold HeavyHitters.
  rewrite (proj2 (Z.leb_gt _ _)) by done. fold m. rewrite Er. cbn [obind]. split; [reflexivity|].
  split_and!; [|apply sortCounted_sorted| |].
  - destruct (_ <? _) eqn:E; bsolve; [done|]. rewrite take_ge by lia. done.
  - intros x Hx. apply Hkeys. pose proof (add_stream_bounds _ _ 0 l (new_bounds k) Hc) as B. fold m in B.
    cbn [Z.add] in B. pose proof (mass_nonneg _ (b_pos _ _ _ B)). pose proof (b_mass _ _ _ B).
    pose proof (b_lower _ _ _ B x) as Hlo. cbn beta in Hlo.
    rewrite true_count_weight in Hlo by first [done|eapply Forall_impl; [exact Hs|]; cbn; lia].
    pose proof (b_k _ _ _ B). pose proof (add_stream_k (NewMisraGries k) l : mk m = _) as Hmk. rewrite Hmk in *.
    destruct (counters m !! x); [eauto|]. cbn in Hlo. nia.
  - rewrite Forall_forall. intros h Hh. assert (ct_Key h ∈ ct_Key <$> sortCounted raw) as Hin by (by apply list_elem_of_fmap_2).
    apply Hkeys in Hin as [v Hv]. split.
    + destruct (add_stream_new_keys k l _ _ Hv) as (p & Hp & E). exists p. split; [done|].
      unfold short_keys in Hs. rewrite Forall_forall in Hs. rewrite E. apply short_key_trunc. specialize (Hs p Hp). lia.
    + rewrite sortCounted_perm in Hh. rewrite Forall_forall in Hf. specialize (Hf h Hh). split; [exact Hf|].
      exact (estimate_at_least z l c (ct_Key h) _ Hz Hw Ec Hf).
Qed.

Lemma heavy_hitters_sound_witness :
  exists c out all, add_all demo_cms demo_stream = Ok c /\
    HeavyHitters c (add_stream (NewMisraGries 4) demo_stream) 1 = Ok out /\ out = take 1 all /\
    str "a" ∈ ct_Key <$> all.
Proof.
  destruct (heavy_hitters_sound 4 demo_cms demo_stream 1 (proj1 demo_cms_ok) demo_stream_ok) as (c & out & all & E1 & E2 & E3 & _ & H & _);
    [repeat constructor; vm_compute; congruence|vm_compute; congruence|lia|].
  exists c, out, all. split; [exact E1|]. split; [exact E2|]. split; [exact E3|]. apply H. vm_compute. reflexivity.
Defined.

(** *** Saving *)

Definition entry_bytes (L : Z) (ps : list (bytes * Z)) : Prop :=
  Forall (fun p => Z.of_nat (length p.1) <= L) ps.

Lemma encode_entries_length L ps :
  entry_bytes L ps -> Z.of_nat (length (encode_entries ps)) <= Z.of_nat (length ps) * (10 + L).
Proof.
  induction 1 as [|[k c] ps Hk _ IH]; [cbn; lia|]. cbn [fst] in Hk.
  rewrite encode_entries_cons, length_app, encode_entry_length. cbn [length]. lia.
Qed.

Lemma mg_marshal_ok m L :
  persistable m -> entry_bytes L (named_params (counters m)) -> 0 <= L ->
  mk m * (10 + L) + 122 <= MaxFrameBytes -> exists f, MG_MarshalBinary m = Ok f.
Proof.
  intros Hp HL H0 Hfit. pose proof Hp as [H _]. rewrite MG_marshal_cases by done.
  assert (size (Params (MG_Header m)) <= 2)%nat as Hs.
  { cbn [Params MG_Header]. etrans; [apply map_size_insert_le|]. rewrite map_size_singleton. done. }
  apply encode_fits; [apply mg_header_ok; [done|by apply persistable_exact]| |lia|].
  - intros k v. cbn [Params MG_Header]. intros [[<- _]|[_ [<- _]%lookup_singleton_Some]]%lookup_insert_Some; done.
  - rewrite length_app, le_put_length. pose proof (encode_entries_length L _ HL). pose proof (wf_size m H).
    rewrite named_params_length in *. nia.
Qed.

Lemma stream_persistable k l t :
  stream_weight l <= 2 ^ 53 -> Forall (fun p => 1 <= Z.of_nat (length p.1)) l -> - 2 ^ 63 <= t < 2 ^ 63 ->
  let m := add_stream (NewMisraGries k) l in persistable (MkMG (mk m) (counters m) (mtotal m) (merr m) t).
Proof.
  intros Hw Hk Ht m. pose proof (add_stream_bounds _ _ 0 l (new_bounds k) ltac:(unfold maxMGCount; lia)) as B.
  fold m in B. cbn [Z.add] in B. destruct B as [B1 B2 B3 B4 B5 B6 B7 B8 B9 B10]. pose proof (mass_nonneg _ B6).
  pose proof (clampInt_range k 1 MaxMGCounters ltac:(unfold MaxMGCounters; lia)) as Hc.
  assert (mk m = clampInt k 1 MaxMGCounters) as Em by (unfold m; by rewrite add_stream_k).
  split; [split|]; cbn [mk counters mtotal merr mcreated]; unfold maxMGCount in *; try lia; [|nia..].
  intros key c Hc'. pose proof (mass_bound _ _ _ B6 Hc'). pose proof (B6 key c Hc').
  destruct (add_stream_new_keys k l key c Hc') as ([key0 n] & Hin & ->). rewrite Forall_forall in Hk.
  specialize (Hk _ Hin). cbn [fst] in *. split; [|nia]. unfold truncKey, MaxMGKeyBytes.
  destruct (_ >? 8192) eqn:E; bsolve; [rewrite length_take|]; lia.
Qed.

(** A summary of any stream of non-empty keys of at most [L] bytes, weighing at most [2^53],
    with a budget whose frame fits the frame ceiling, can be saved and loads back as the same
    summary: counters, total, error bound and stamp. *)
Theorem mg_constructible_persists k l t L :
  stream_weight l <= 2 ^ 53 -> Forall (fun p => 1 <= Z.of_nat (length p.1) <= L) l -> 1 <= L ->
  - 2 ^ 63 <= t < 2 ^ 63 -> mk (NewMisraGries k) * (10 + L) + 122 <= MaxFrameBytes ->
  let m := MG_SetCreated (add_stream (NewMisraGries k) l) t in
  exists f, MarshalBinary m = Ok f /\ UnmarshalBinary f = Ok m.
Proof.
  intros Hw Hl HL Ht Hfit m. rewrite <- (add_stream_k _ l) in Hfit.
  assert (persistable m) as Hp.
  { apply stream_persistable; [done| |done]. eapply Forall_impl; [exact Hl|]. cbn. lia. }
  destruct (mg_marshal_ok m L Hp) as [f Hf]; [|lia|done|exists f; split; [exact Hf|exact (marshal_loads m f Hp Hf)]].
  apply Forall_forall. intros [key c] Hin. cbn [fst].
  apply named_params_elem in Hin. destruct (add_stream_new_keys k l key c Hin) as (p & Hp' & ->).
  rewrite Forall_forall in Hl. specialize (Hl p Hp'). unfold truncKey. destruct (_ >? _); [rewrite length_take|]; lia.
Qed.

Lemma mg_constructible_persists_witness :
  let m := MG_SetCreated (add_stream (NewMisraGries 2) demo_mg_stream) 1700000000000 in
  exists f, MarshalBinary m = Ok f /\ UnmarshalBinary f = Ok m.
Proof.
  apply (mg_constructible_persists 2 demo_mg_stream 1700000000000 8);
    [vm_compute; congruence|repeat constructor; vm_compute; congruence|lia|lia|vm_compute; congruence].
Defined.

(** One state the encoder writes is refused by the decoder: a summary that counted the empty key
    saves without error, and the saved frame does not load. *)
Theorem mg_empty_key_unloadable :
  exists f, MarshalBinary (Add (NewMisraGries 2) [] 1) = Ok f /\
    UnmarshalBinary (T := MisraGries) f = Err ErrMalformed.
Proof. eexists. split; [vm_compute; reflexivity|]. vm_compute. reflexivity. Qed.
