(* ===== verification/Select.v ===== *)
(** * [internal/sketch/minhash.go]: the sampler's two data structures

    [selectKth], a quickselect with a median-of-three pivot over a mutable array, and [shingleSet], an
    open-addressed set with linear probing that is never grown.  Neither returns an error; both have
    loops whose termination rests on an invariant (the pivot bounds the scans, a free slot bounds the
    probing), so a loop that does not finish within its fuel is the error [Diverges], and the theorems
    show it is never returned.  An index out of range is a [Panic]. *)

From S2P Require Import Prelude GoLib Core Frame.

Open Scope go_scope.

Inductive stuck := Diverges.

(** [a[i]] for an [int] index. *)
Definition zget (a : list Z) (i : Z) : outcome stuck Z :=
  if i <? 0 then Panic else match a !! Z.to_nat i with Some x => Ok x | None => Panic end.

(** [a[i] = x]. *)
Definition zset (a : list Z) (i x : Z) : outcome stuck (list Z) :=
  if (i <? 0) || (Z.of_nat (length a) <=? i) then Panic else Ok (<[Z.to_nat i := x]> a).

(** ** Quickselect *)

Definition medianOfThree (a : list Z) (lo hi : Z) : outcome stuck Z :=
  let! x := zget a lo in
  let! y := zget a (lo + (hi - lo) / 2) in
  let! z := zget a hi in
  let '(x, y) := if x >? y then (y, x) else (x, y) in
  let y := if y >? z then z else y in
  let y := if x >? y then x else y in
  Ok y.

(** [for a[l] < pivot { l++ }]. *)
Fixpoint scan_up (fuel : nat) (a : list Z) (pivot l : Z) : outcome stuck Z :=
  match fuel with
  | O => Err Diverges
  | S fuel => let! x := zget a l in if x <? pivot then scan_up fuel a pivot (l + 1) else Ok l
  end.

(** [for a[r] > pivot { r-- }]. *)
Fixpoint scan_down (fuel : nat) (a : list Z) (pivot r : Z) : outcome stuck Z :=
  match fuel with
  | O => Err Diverges
  | S fuel => let! x := zget a r in if x >? pivot then scan_down fuel a pivot (r - 1) else Ok r
  end.

(** [for l <= r { ... }]: the array and the two indices it leaves. *)
Fixpoint partition_loop (fuel : nat) (a : list Z) (pivot l r : Z) : outcome stuck (list Z * Z * Z) :=
  match fuel with
  | O => Err Diverges
  | S fuel =>
      if l <=? r then
        let! l := scan_up (S (length a)) a pivot l in
        let! r := scan_down (S (length a)) a pivot r in
        if l <=? r then
          let! x := zget a l in
          let! y := zget a r in
          let! a := zset a l y in
          let! a := zset a r x in
          partition_loop fuel a pivot (l + 1) (r - 1)
        else partition_loop fuel a pivot l r
      else Ok (a, l, r)
  end.

(** [for lo < hi { ... }], and [return a[k]]: the rearranged array and the value. *)
Fixpoint select_loop (fuel : nat) (a : list Z) (k lo hi : Z) : outcome stuck (list Z * Z) :=
  match fuel with
  | O => Err Diverges
  | S fuel =>
      if lo <? hi then
        let! pivot := medianOfThree a lo hi in
        let! (a, l, r) := partition_loop (S (S (length a))) a pivot lo hi in
        if k <=? r then select_loop fuel a k lo r
        else if k >=? l then select_loop fuel a k l hi
        else let! v := zget a k in Ok (a, v)
      else let! v := zget a k in Ok (a, v)
  end.

Definition selectKth (a : list Z) (k : Z) : outcome stuck (list Z * Z) :=
  select_loop (S (length a)) a k 0 (Z.of_nat (length a) - 1).

(** ** The set of shingle hashes *)

Definition shingleSetMix : Z := 0x9E3779B97F4A7C15.
Definition shingleHashBits : Z := 64.

Record shingleSet := MkShingleSet { slots : list Z; shift : Z; zero : bool }.

Definition newShingleSet (n : Z) : shingleSet :=
  let width := bits_Len (2 * n - 1) in
  MkShingleSet (replicate (Z.to_nat (Z.shiftl 1 width)) 0) (shingleHashBits - width) false.

(** [for s.slots[i] != 0 { ... }]: [None] when [h] is already there, else the free slot. *)
Fixpoint probe_slot (fuel : nat) (s : list Z) (h i : Z) : outcome stuck (option Z) :=
  match fuel with
  | O => Err Diverges
  | S fuel =>
      let! x := zget s i in
      if x =? 0 then Ok (Some i)
      else if x =? h then Ok None
      else probe_slot fuel s h (if i + 1 =? Z.of_nat (length s) then 0 else i + 1)
  end.

Definition set_add (s : shingleSet) (h : Z) : outcome stuck (shingleSet * bool) :=
  if h =? 0 then
    if zero s then Ok (s, false) else Ok (MkShingleSet (slots s) (shift s) true, true)
  else
    let! i := probe_slot (S (length (slots s))) (slots s) h (Z.shiftr (mul64 h shingleSetMix) (shift s)) in
    match i with
    | None => Ok (s, false)
    | Some i => let! sl := zset (slots s) i h in Ok (MkShingleSet sl (shift s) (zero s), true)
    end.

Definition reset (s : shingleSet) : shingleSet :=
  MkShingleSet (replicate (length (slots s)) 0) (shift s) false.

(** ** Array access *)

Definition at_ (a : list Z) (i : Z) : Z := a !!! Z.to_nat i.
Definition len (a : list Z) : Z := Z.of_nat (length a).

Lemma zget_ok a i : 0 <= i < len a -> zget a i = Ok (at_ a i).
Proof.
  unfold len, zget, at_. intros H. rewrite (proj2 (Z.ltb_ge _ _)) by lia.
  destruct (lookup_lt_is_Some_2 a (Z.to_nat i)) as [x Hx]; [lia|]. rewrite Hx.
  by rewrite (list_lookup_total_correct _ _ _ Hx).
Qed.

Lemma zset_ok a i x : 0 <= i < len a -> zset a i x = Ok (<[Z.to_nat i := x]> a).
Proof.
  unfold len, zset. intros H. rewrite (proj2 (Z.ltb_ge _ _)), (proj2 (Z.leb_gt _ _)) by lia. done.
Qed.

Lemma len_insert a i x : len (<[Z.to_nat i := x]> a) = len a.
Proof. unfold len. by rewrite length_insert. Qed.

Lemma at_insert a i j x :
  0 <= i < len a -> 0 <= j -> at_ (<[Z.to_nat i := x]> a) j = if decide (j = i) then x else at_ a j.
Proof.
  unfold at_, len. intros Hi Hj. destruct (decide (j = i)) as [->|Hne].
  - apply list_lookup_total_insert_eq. lia.
  - apply list_lookup_total_insert_ne. lia.
Qed.

Lemma elem_at a x : x ∈ a -> exists i, 0 <= i < len a /\ at_ a i = x.
Proof.
  intros [i Hi]%list_elem_of_lookup. exists (Z.of_nat i). unfold len, at_. pose proof (lookup_lt_Some _ _ _ Hi).
  split; [lia|]. rewrite Nat2Z.id. by apply list_lookup_total_correct.
Qed.

Lemma at_elem a i : 0 <= i < len a -> at_ a i ∈ a.
Proof. unfold len, at_. intros H. apply list_elem_of_lookup_total_2. lia. Qed.

(** The array after [a[l], a[r] = a[r], a[l]]. *)
Definition swapped (a : list Z) (l r : Z) : list Z :=
  <[Z.to_nat r := at_ a l]> (<[Z.to_nat l := at_ a r]> a).

Definition transp (l r i : Z) : Z := if decide (i = l) then r else if decide (i = r) then l else i.

Lemma swapped_at a l r i :
  0 <= l < len a -> 0 <= r < len a -> 0 <= i -> at_ (swapped a l r) i = at_ a (transp l r i).
Proof.
  intros Hl Hr Hi. unfold swapped, transp. rewrite at_insert by (rewrite ?len_insert; done).
  rewrite at_insert by done. repeat case_decide; subst; done.
Qed.

Lemma swapped_len a l r : len (swapped a l r) = len a.
Proof. unfold swapped. by rewrite !len_insert. Qed.

Lemma perm_of_index a b (f : Z -> Z) :
  len a = len b -> (forall i, 0 <= i < len a -> 0 <= f i < len a /\ f (f i) = i /\ at_ a i = at_ b (f i)) -> a ≡ₚ b.
Proof.
  intros El Hf. apply Permutation_inj. unfold len in *. split; [lia|].
  exists (fun i => if decide (i < length a)%nat then Z.to_nat (f (Z.of_nat i)) else i). split.
  - intros i j. repeat case_decide; intros E; try done.
    + destruct (Hf (Z.of_nat i) ltac:(lia)) as (B1 & E1 & _). destruct (Hf (Z.of_nat j) ltac:(lia)) as (B2 & E2 & _).
      assert (f (Z.of_nat i) = f (Z.of_nat j)) by lia. rewrite <- (Nat2Z.id i), <- (Nat2Z.id j), <- E1, <- E2. by f_equal; f_equal.
    + destruct (Hf (Z.of_nat i) ltac:(lia)) as (B1 & _). lia.
    + destruct (Hf (Z.of_nat j) ltac:(lia)) as (B1 & _). lia.
  - intros i. case_decide as Hd.
    + destruct (Hf (Z.of_nat i) ltac:(lia)) as (B1 & _ & E). unfold at_ in E. rewrite Nat2Z.id in E.
      rewrite !list_lookup_lookup_total_lt by lia. by rewrite E.
    + rewrite !lookup_ge_None_2 by lia. done.
Qed.

Lemma swapped_perm a l r : 0 <= l < len a -> 0 <= r < len a -> swapped a l r ≡ₚ a.
Proof.
  intros Hl Hr. apply (perm_of_index _ _ (transp l r)); [apply swapped_len|]. rewrite swapped_len. intros i Hi.
  split; [|split; [|apply swapped_at; lia]]; unfold transp; repeat case_decide; lia.
Qed.

(** ** The two scans *)

Lemma scan_up_spec fuel a pivot l s :
  0 <= l <= s -> s < len a -> pivot <= at_ a s -> s - l < Z.of_nat fuel ->
  exists l', scan_up fuel a pivot l = Ok l' /\ l <= l' <= s /\ pivot <= at_ a l' /\
    (forall i, l <= i < l' -> at_ a i < pivot).
Proof.
  revert l. induction fuel as [|fuel IH]; intros l Hl Hs Hp Hf; [lia|]. cbn [scan_up].
  rewrite zget_ok by lia. cbn [obind]. destruct (_ <? pivot) eqn:E; bsolve.
  - assert (l <> s) by (intros ->; lia). destruct (IH (l + 1)) as (l' & -> & H1 & H2 & H3); [lia..|].
    exists l'. split_and!; [done|lia|lia|done|]. intros i Hi. destruct (decide (i = l)) as [->|]; [done|]. apply H3. lia.
  - exists l. split_and!; [done|lia|lia|done|]. lia.
Qed.

Lemma scan_down_spec fuel a pivot r s :
  0 <= s <= r -> r < len a -> at_ a s <= pivot -> r - s < Z.of_nat fuel ->
  exists r', scan_down fuel a pivot r = Ok r' /\ s <= r' <= r /\ at_ a r' <= pivot /\
    (forall i, r' < i <= r -> pivot < at_ a i).
Proof.
  revert r. induction fuel as [|fuel IH]; intros r Hs Hr Hp Hf; [lia|]. cbn [scan_down].
  rewrite zget_ok by lia. cbn [obind]. destruct (_ >? pivot) eqn:E; bsolve.
  - assert (r <> s) by (intros ->; lia). destruct (IH (r - 1)) as (r' & -> & H1 & H2 & H3); [lia..|].
    exists r'. split_and!; [done|lia|lia|done|]. intros i Hi. destruct (decide (i = r)) as [->|]; [done|]. apply H3. lia.
  - exists r. split_and!; [done|lia|lia|done|]. lia.
Qed.

(** ** The partition *)

(** [a] rearranges [a0] inside [[lo, hi]] only. *)
Record rearranged (a0 a : list Z) (lo hi : Z) : Prop := {
  re_perm : a ≡ₚ a0;
  re_out : forall j, 0 <= j -> j < lo \/ hi < j -> at_ a j = at_ a0 j;
  re_in : forall j, lo <= j <= hi -> exists j', lo <= j' <= hi /\ at_ a j = at_ a0 j'
}.

Lemma rearranged_len a0 a lo hi : rearranged a0 a lo hi -> len a = len a0.
Proof. intros [H _ _]. unfold len. by rewrite H. Qed.

Lemma rearranged_refl a lo hi : rearranged a a lo hi.
Proof. split; [done|done|eauto]. Qed.

Lemma rearranged_swap a0 a lo hi l r :
  rearranged a0 a lo hi -> 0 <= lo <= l -> l <= hi -> lo <= r <= hi -> hi < len a ->
  rearranged a0 (swapped a l r) lo hi.
Proof.
  intros [H1 H2 H3] Hl Hl' Hr Hh. split.
  - rewrite swapped_perm by lia. done.
  - intros j Hj Ho. rewrite swapped_at by lia. unfold transp. repeat case_decide; [lia..|]. auto.
  - intros j Hj. rewrite swapped_at by lia. apply H3. unfold transp. repeat case_decide; lia.
Qed.

(** The partition loop before a pass: either untouched, with the pivot in the range, or after a swap,
    when each side bounds the other side's scan. *)
Record parting (a0 a : list Z) (lo hi pivot l r : Z) : Prop := {
  pt_re : rearranged a0 a lo hi;
  pt_low : forall i, lo <= i < l -> at_ a i <= pivot;
  pt_high : forall i, r < i <= hi -> pivot <= at_ a i;
  pt_phase : (l = lo /\ r = hi /\ exists s, lo <= s <= hi /\ at_ a s = pivot) \/ (lo < l /\ r < hi)
}.

(** Each scan stops inside the array. *)
Lemma parting_scans a0 a lo hi pivot l r :
  parting a0 a lo hi pivot l r -> 0 <= lo -> hi < len a -> l <= r ->
  exists l' r', scan_up (S (length a)) a pivot l = Ok l' /\ scan_down (S (length a)) a pivot r = Ok r' /\
    l <= l' <= hi /\ lo <= r' <= r /\ pivot <= at_ a l' /\ at_ a r' <= pivot /\
    (forall i, l <= i < l' -> at_ a i < pivot) /\ (forall i, r' < i <= r -> pivot < at_ a i) /\
    (l' <= r' \/ lo < l /\ r < hi).
Proof.
  intros [_ Hlow Hhigh Hph] Hlo Hhi Hlr. unfold len in Hhi.
  assert (exists s t, l <= s <= hi /\ lo <= t <= r /\ pivot <= at_ a s /\ at_ a t <= pivot /\ (s <= t \/ lo < l /\ r < hi))
    as (s & t & Hs & Ht & Ps & Pt & Hst).
  { destruct Hph as [(-> & -> & s & Hs & <-)|[H1 H2]].
    - exists s, s. lia.
    - exists (r + 1), (l - 1). split_and!; try lia; [apply Hhigh|apply Hlow]; lia. }
  destruct (scan_up_spec (S (length a)) a pivot l s) as (l' & E1 & A1 & A2 & A3); [lia|unfold len; lia|done|lia|].
  destruct (scan_down_spec (S (length a)) a pivot r t) as (r' & E2 & B1 & B2 & B3); [lia|unfold len; lia|done|lia|].
  exists l', r'. split_and!; try done; lia.
Qed.

Lemma parting_swap a0 a lo hi pivot l r l' r' :
  parting a0 a lo hi pivot l r -> 0 <= lo -> hi < len a -> lo <= l -> r <= hi ->
  l <= l' -> r' <= r -> l' <= r' -> pivot <= at_ a l' -> at_ a r' <= pivot ->
  (forall i, l <= i < l' -> at_ a i < pivot) -> (forall i, r' < i <= r -> pivot < at_ a i) ->
  parting a0 (swapped a l' r') lo hi pivot (l' + 1) (r' - 1).
Proof.
  intros [Hre Hlow Hhigh _] Hlo Hhi Hl Hr Hll Hrr Hlr P1 P2 Q1 Q2. split.
  - apply rearranged_swap; [done|lia..].
  - intros i Hi. rewrite swapped_at by lia. unfold transp. case_decide; [done|]. case_decide; [lia|].
    destruct (decide (i < l)); [apply Hlow; lia|]. specialize (Q1 i). lia.
  - intros i Hi. rewrite swapped_at by lia. unfold transp. case_decide as D1; [subst i|].
    { replace r' with l' by lia. done. }
    case_decide; [done|].
    destruct (decide (r < i)); [apply Hhigh; lia|]. specialize (Q2 i). lia.
  - right. lia.
Qed.

Lemma partition_spec fuel a0 a lo hi pivot l r :
  parting a0 a lo hi pivot l r -> 0 <= lo <= hi -> hi < len a0 -> lo <= l -> r <= hi ->
  Z.max 0 (r - l + 1) + 2 <= Z.of_nat fuel ->
  exists a' l' r', partition_loop fuel a pivot l r = Ok (a', l', r') /\ rearranged a0 a' lo hi /\
    lo < l' /\ r' < hi /\ r' < l' /\
    (forall i, lo <= i < l' -> at_ a' i <= pivot) /\ (forall i, r' < i <= hi -> pivot <= at_ a' i).
Proof.
  revert a l r. induction fuel as [|fuel IH]; intros a l r Hpt Hlo Hhi Hl Hr Hf; [lia|].
  cbn [partition_loop]. pose proof (rearranged_len _ _ _ _ (pt_re _ _ _ _ _ _ _ Hpt)) as El.
  destruct (l <=? r) eqn:Elr; bsolve.
  2:{ exists a, l, r. pose proof Hpt as [H1 H2 H3 H4]. split_and!; try done; lia. }
  destruct (parting_scans _ _ _ _ _ _ _ Hpt) as (l' & r' & -> & -> & A1 & A2 & P1 & P2 & Q1 & Q2 & Hc); [lia..|].
  cbn [obind]. destruct (l' <=? r') eqn:E; bsolve.
  - rewrite zget_ok, zget_ok by lia. cbn [obind]. rewrite zset_ok by lia. cbn [obind].
    rewrite zset_ok by (rewrite len_insert; lia). cbn [obind]. fold (swapped a l' r').
    apply IH; try lia. eapply parting_swap; eauto; lia.
  - destruct Hc as [|[]]; [lia|]. apply IH; try lia. destruct Hpt as [H1 H2 H3 H4]. split; [done| | |right; lia].
    + intros i Hi. destruct (decide (i < l)); [apply H2; lia|]. specialize (Q1 i). lia.
    + intros i Hi. destruct (decide (r < i)); [apply H3; lia|]. specialize (Q2 i). lia.
Qed.

Lemma median_spec a lo hi :
  0 <= lo <= hi -> hi < len a -> exists p, medianOfThree a lo hi = Ok p /\ exists s, lo <= s <= hi /\ at_ a s = p.
Proof.
  intros Hlo Hhi. unfold medianOfThree. assert (0 <= (hi - lo) / 2 <= hi - lo).
  { split; [apply Z.div_pos; lia|]. apply Z.div_le_upper_bound; lia. }
  rewrite !zget_ok by lia. cbn [obind].
  set (m := lo + (hi - lo) / 2). assert (lo <= m <= hi) by (unfold m; lia).
  repeat match goal with |- context [if ?b then _ else _] => destruct b end; eexists; (split; [reflexivity|]);
    first [exists lo; split; [lia|done] | exists m; split; [lia|done] | exists hi; split; [lia|done]].
Qed.

(** ** Selection *)

(** Everything at or before [b] is no larger than everything after it. *)
Definition split_at (a : list Z) (b : Z) : Prop :=
  forall i j, 0 <= i < b -> b <= j < len a -> at_ a i <= at_ a j.

(** A bound outside or at the edge of the rearranged range survives. *)
Lemma split_at_rearranged a0 a lo hi b :
  rearranged a0 a lo hi -> 0 <= lo -> hi < len a0 -> b <= lo \/ hi < b -> split_at a0 b -> split_at a b.
Proof.
  intros Hre Hlo Hhi Hb Hs i j Hi Hj. rewrite (rearranged_len _ _ _ _ Hre) in Hj. destruct Hre as [_ Ho Hin].
  assert (forall x, 0 <= x < len a0 -> exists y, 0 <= y < len a0 /\ at_ a x = at_ a0 y /\ (y < b <-> x < b)) as Hx.
  { intros x Hx. destruct (decide (lo <= x <= hi)) as [Hr|Hr].
    - destruct (Hin x Hr) as (y & Hy & E). exists y. split; [lia|]. split; [done|]. lia.
    - exists x. split; [done|]. split; [apply Ho; lia|done]. }
  destruct (Hx i) as (i' & I1 & -> & I2); [lia|]. destruct (Hx j) as (j' & J1 & -> & J2); [lia|].
  apply Hs; lia.
Qed.

Definition selected (a0 a : list Z) (k v : Z) : Prop :=
  a ≡ₚ a0 /\ at_ a k = v /\
  (forall i, 0 <= i <= k -> at_ a i <= v) /\ (forall j, k <= j < len a -> v <= at_ a j).

Lemma select_spec fuel a0 a k lo hi :
  a ≡ₚ a0 -> 0 <= lo <= k -> k <= hi -> hi < len a -> split_at a lo -> split_at a (hi + 1) ->
  hi - lo + 1 <= Z.of_nat fuel ->
  exists a' v, select_loop fuel a k lo hi = Ok (a', v) /\ selected a0 a' k v.
Proof.
  revert a lo hi. induction fuel as [|fuel IH]; intros a lo hi Hp Hlo Hk Hhi S1 S2 Hf; [lia|].
  cbn [select_loop]. destruct (lo <? hi) eqn:E; bsolve.
  2:{ rewrite zget_ok by lia. cbn [obind]. exists a. eexists. split; [done|]. split_and!; [done|done| |].
      - intros i Hi. destruct (decide (i = k)) as [->|]; [lia|]. apply S1; lia.
      - intros j Hj. destruct (decide (j = k)) as [->|]; [lia|]. apply S2; lia. }
  destruct (median_spec a lo hi) as (pivot & -> & s & Hs & Es); [lia..|]. cbn [obind].
  pose proof (eq_refl : len a = Z.of_nat (length a)).
  destruct (partition_spec (S (S (length a))) a a lo hi pivot lo hi) as (b & l & r & -> & Hre & L1 & R1 & LR & Hlow & Hhigh);
    [|lia..|].
  { split; [apply rearranged_refl|lia..|left; eauto]. }
  cbn [obind]. pose proof (rearranged_len _ _ _ _ Hre) as El. pose proof (re_perm _ _ _ _ Hre) as Hpb.
  assert (split_at b lo) as S1' by (eapply split_at_rearranged; eauto; lia).
  assert (split_at b (hi + 1)) as S2' by (eapply split_at_rearranged; eauto; lia).
  assert (forall i, 0 <= i < l -> i <= hi -> forall j, r < j < len b -> lo <= j -> at_ b i <= at_ b j) as Hmid.
  { intros i Hi Hih j Hj Hlj. destruct (decide (i < lo)); [apply S1'; lia|].
    destruct (decide (hi < j)); [apply S2'; lia|]. specialize (Hlow i). specialize (Hhigh j). lia. }
  destruct (k <=? r) eqn:Ek; bsolve; [|destruct (k >=? l) eqn:Ekl; bsolve].
  - apply IH; try lia; [by rewrite Hpb|done|]. intros i j Hi Hj. apply Hmid; lia.
  - apply IH; try lia; [by rewrite Hpb| |done]. intros i j Hi Hj. apply Hmid; lia.
  - rewrite zget_ok by lia. cbn [obind]. exists b. eexists. split; [done|]. split_and!; [by rewrite Hpb|done| |].
    + intros i Hi. apply Hmid; lia.
    + intros j Hj. apply Hmid; lia.
Qed.

Lemma selectKth_selected a k :
  0 <= k < len a -> exists a' v, selectKth a k = Ok (a', v) /\ selected a a' k v.
Proof.
  unfold selectKth. intros H. change (Z.of_nat (length a)) with (len a).
  apply select_spec; [done|lia|lia|lia| | |unfold len; lia]; intros i j; lia.
Qed.

(** ** The set: a table with a free slot represents a finite set *)

(** Where the probing for [h] looks in its [t]-th step, in a table of [n] slots. *)
Definition home (s : shingleSet) (h : Z) : Z := Z.shiftr (mul64 h shingleSetMix) (shift s).
Definition probe_at (s : shingleSet) (h t : Z) : Z := (home s h + t) mod len (slots s).

Record represents (s : shingleSet) (S : gset Z) : Prop := {
  rp_shift : 0 <= shift s <= 63;
  rp_len : len (slots s) = 2 ^ (64 - shift s);
  rp_zero : zero s = bool_decide (0 ∈ S);
  rp_sound : forall i, 0 <= i < len (slots s) -> at_ (slots s) i <> 0 -> at_ (slots s) i ∈ S;
  rp_inj : forall i j, 0 <= i < len (slots s) -> 0 <= j < len (slots s) ->
    at_ (slots s) i = at_ (slots s) j -> at_ (slots s) i <> 0 -> i = j;
  rp_reach : forall h, h ∈ S -> h <> 0 -> exists t, 0 <= t /\ at_ (slots s) (probe_at s h t) = h /\
    forall u, 0 <= u < t -> at_ (slots s) (probe_at s h u) <> 0
}.

Lemma represents_pos s S : represents s S -> 0 < len (slots s).
Proof. intros H. rewrite (rp_len _ _ H). pose proof (rp_shift _ _ H). apply Z.pow_pos_nonneg; lia. Qed.

Lemma home_range s S h : represents s S -> 0 <= home s h < len (slots s).
Proof.
  intros H. pose proof (rp_shift _ _ H). rewrite (rp_len _ _ H). unfold home. rewrite Z.shiftr_div_pow2 by lia.
  pose proof (u64_range (h * shingleSetMix)) as Hu. unfold mul64. split; [apply Z.div_pos; lia|].
  apply Z.div_lt_upper_bound; [lia|]. rewrite <- Z.pow_add_r by lia. replace (shift s + (64 - shift s)) with 64 by lia. lia.
Qed.

Lemma probe_range s S h t : represents s S -> 0 <= probe_at s h t < len (slots s).
Proof. intros H. apply Z.mod_pos_bound. by eapply represents_pos. Qed.

(** [i++], wrapping to 0 at the end, is the next probe. *)
Lemma probe_next s S h t :
  represents s S ->
  (if probe_at s h t + 1 =? len (slots s) then 0 else probe_at s h t + 1) = probe_at s h (t + 1).
Proof.
  intros H. pose proof (represents_pos _ _ H) as Hp. unfold probe_at. set (n := len (slots s)) in *.
  replace (home s h + (t + 1)) with (home s h + t + 1) by lia. rewrite <- (Zplus_mod_idemp_l (home s h + t) 1 n).
  pose proof (Z.mod_pos_bound (home s h + t) n Hp). destruct (_ =? n) eqn:E; bsolve.
  - rewrite E. by rewrite Z.mod_same by lia.
  - symmetry; apply Z.mod_small; lia.
Qed.

(** A table with fewer members than slots has a free slot. *)
Lemma free_slot s S :
  represents s S -> Z.of_nat (size S) < len (slots s) -> exists i, 0 <= i < len (slots s) /\ at_ (slots s) i = 0.
Proof.
  intros H Hsz. destruct (decide (0 ∈ slots s)) as [Hin|Hin]; [by apply elem_at in Hin|]. exfalso.
  assert (NoDup (slots s)) as Hnd.
  { apply NoDup_alt. intros i j x Hi Hj. pose proof (lookup_lt_Some _ _ _ Hi). pose proof (lookup_lt_Some _ _ _ Hj).
    assert (x <> 0) by (intros ->; apply Hin; by eapply list_elem_of_lookup_2).
    apply Nat2Z.inj. apply (rp_inj _ _ H); unfold len, at_; rewrite ?Nat2Z.id; try lia;
      rewrite ?(list_lookup_total_correct _ _ _ Hi), ?(list_lookup_total_correct _ _ _ Hj); done. }
  assert ((list_to_set (slots s) : gset Z) ⊆ S) as Hsub.
  { intros x Hx%elem_of_list_to_set. apply elem_at in Hx as (i & Hi & <-). apply (rp_sound _ _ H); [done|].
    intros E. apply Hin. rewrite <- E. by apply at_elem. }
  apply subseteq_size in Hsub. rewrite size_list_to_set in Hsub by done. unfold len in Hsz. lia.
Qed.

Lemma probe_of_slot s S h i :
  represents s S -> 0 <= i < len (slots s) -> exists t, 0 <= t < len (slots s) /\ probe_at s h t = i.
Proof.
  intros H Hi. pose proof (home_range _ _ h H) as Hh. exists ((i - home s h) mod len (slots s)).
  split; [apply Z.mod_pos_bound; lia|]. unfold probe_at. rewrite Zplus_mod_idemp_r.
  replace (home s h + (i - home s h)) with i by lia. apply Z.mod_small. lia.
Qed.

(** The probe loop stops at the first step whose slot is free or holds [h]. *)
Lemma probe_slot_spec s S h fuel t T :
  represents s S -> h <> 0 -> 0 <= t <= T -> at_ (slots s) (probe_at s h T) = 0 -> T - t < Z.of_nat fuel ->
  (forall u, 0 <= u < t -> at_ (slots s) (probe_at s h u) <> 0 /\ at_ (slots s) (probe_at s h u) <> h) ->
  exists u, t <= u /\ (forall w, 0 <= w < u -> at_ (slots s) (probe_at s h w) <> 0 /\ at_ (slots s) (probe_at s h w) <> h) /\
    ((probe_slot fuel (slots s) h (probe_at s h t) = Ok None /\ at_ (slots s) (probe_at s h u) = h) \/
     (probe_slot fuel (slots s) h (probe_at s h t) = Ok (Some (probe_at s h u)) /\ at_ (slots s) (probe_at s h u) = 0)).
Proof.
  intros H Hh. revert t. induction fuel as [|fuel IH]; intros t Ht HT Hf Hpre; [lia|]. cbn [probe_slot].
  rewrite zget_ok by (eapply probe_range; done). cbn [obind]. destruct (_ =? 0) eqn:E0; bsolve; [exists t; eauto with lia|].
  destruct (_ =? h) eqn:E1; bsolve; [exists t; eauto with lia|].
  change (Z.of_nat (length (slots s))) with (len (slots s)). rewrite (probe_next _ _ h t H).
  assert (t <> T) by (intros ->; done). destruct (IH (t + 1)) as (u & Hu & Hw & Hr); [lia|done|lia| |exists u; split; [lia|done]].
  intros w Hw. destruct (decide (w = t)) as [->|]; [done|]. apply Hpre. lia.
Qed.

(** What the table looks like after the free slot on [h]'s path is filled. *)
Lemma represents_fill s S h T :
  represents s S -> h <> 0 -> h ∉ S -> 0 <= T -> at_ (slots s) (probe_at s h T) = 0 ->
  (forall u, 0 <= u < T -> at_ (slots s) (probe_at s h u) <> 0) ->
  represents (MkShingleSet (<[Z.to_nat (probe_at s h T) := h]> (slots s)) (shift s) (zero s)) ({[h]} ∪ S).
Proof.
  intros H Hh Hn HT Hz Hpre. pose proof (probe_range _ _ h T H) as Hr.
  set (i := probe_at s h T) in *. set (s' := MkShingleSet _ _ _).
  assert (len (slots s') = len (slots s)) as El by apply len_insert.
  assert (forall j, 0 <= j -> at_ (slots s') j = if decide (j = i) then h else at_ (slots s) j) as Hat
    by (intros j Hj; apply at_insert; done).
  assert (forall g t, probe_at s' g t = probe_at s g t) as Hpr by (intros; unfold probe_at; rewrite El; done).
  split; rewrite ?El.
  - apply H.
  - apply H.
  - cbn. rewrite (rp_zero _ _ H). apply bool_decide_ext. set_solver.
  - intros j Hj. rewrite Hat by lia. case_decide; [set_solver|]. intros Hne. pose proof (rp_sound _ _ H j Hj Hne). set_solver.
  - intros j1 j2 H1 H2. rewrite !Hat by lia. repeat case_decide; intros E Hne; [congruence|..].
    + exfalso. apply Hn. rewrite E. apply (rp_sound _ _ H); [done|]. by rewrite <- E.
    + exfalso. apply Hn. rewrite <- E. apply (rp_sound _ _ H); done.
    + apply (rp_inj _ _ H); done.
  - intros g Hg Hg0. destruct (decide (g = h)) as [->|Hgh].
    + exists T. rewrite Hpr, Hat by (fold i; lia). fold i. rewrite decide_True by done. split_and!; [done|done|].
      intros u Hu. pose proof (probe_range _ _ h u H). rewrite Hpr, Hat by lia. case_decide; auto.
    + destruct (rp_reach _ _ H g) as (t & Ht & Eg & Hu); [set_solver|done|]. exists t.
      pose proof (probe_range _ _ g t H). rewrite Hpr, Hat by lia. split; [done|]. split.
      * case_decide as D; [|done]. exfalso. rewrite D, Hz in Eg. congruence.
      * intros u Hlt. pose proof (probe_range _ _ g u H). rewrite Hpr, Hat by lia. case_decide; [done|]. auto.
Qed.

(** [add] on a table that is not full: it terminates, and it is the set's insertion, reporting
    whether the hash is new. *)
Lemma set_add_spec s S h :
  represents s S -> Z.of_nat (size S) < len (slots s) ->
  exists s', set_add s h = Ok (s', bool_decide (h ∉ S)) /\ represents s' ({[h]} ∪ S) /\
    len (slots s') = len (slots s).
Proof.
  intros H Hsz. unfold set_add. destruct (h =? 0) eqn:E; bsolve; [subst h|].
  - rewrite (rp_zero _ _ H). case_bool_decide as Hz.
    + exists s. rewrite bool_decide_false by auto. replace ({[0]} ∪ S) with S by set_solver. done.
    + eexists. rewrite bool_decide_true by done. split; [done|]. split; [|done].
      destruct H as [H1 H2 H3 H4 H5 H6]. split; cbn [slots shift zero]; try done.
      * symmetry. apply bool_decide_true. set_solver.
      * intros i Hi Hne. specialize (H4 i Hi Hne). set_solver.
      * intros g Hg Hg0. apply H6; [set_solver|done].
  - destruct (free_slot s S H Hsz) as (i & Hi & Ei). destruct (probe_of_slot s S h i H Hi) as (T & HT & <-).
    change (Z.shiftr (mul64 h shingleSetMix) (shift s)) with (home s h).
    assert (home s h = probe_at s h 0) as ->.
    { unfold probe_at. rewrite Z.add_0_r, Z.mod_small; [done|]. by eapply home_range. }
    destruct (probe_slot_spec s S h (Datatypes.S (length (slots s))) 0 T) as (u & Hu & Hw & Hr); try done;
      [lia|unfold len in *; lia|lia|].
    destruct Hr as [[-> Eu]|[-> Eu]]; cbn [obind].
    + exists s. assert (h ∈ S) by (rewrite <- Eu; apply (rp_sound _ _ H); [by eapply probe_range|by rewrite Eu]).
      rewrite bool_decide_false by auto. replace ({[h]} ∪ S) with S by set_solver. done.
    + assert (h ∉ S) as Hn.
      { intros Hin. destruct (rp_reach _ _ H h Hin E) as (t & Ht & Et & Hpre).
        destruct (Z.lt_trichotomy t u) as [Hlt|[->|Hgt]]; [|congruence|by destruct (Hpre u)].
        destruct (Hw t); [lia|done]. }
      rewrite zset_ok by (by eapply probe_range). cbn [obind]. eexists. rewrite bool_decide_true by done. split; [done|].
      split; [|apply len_insert]. apply represents_fill; try done. intros w Hw'. apply Hw. lia.
Qed.

Lemma empty_represents n w :
  0 <= 64 - w <= 63 -> n = Z.to_nat (2 ^ w) -> represents (MkShingleSet (replicate n 0) (64 - w) false) ∅.
Proof.
  intros Hw Hn. assert (forall i, 0 <= i < len (replicate n 0) -> at_ (replicate n 0) i = 0) as Hat.
  { unfold len, at_. rewrite length_replicate. intros i Hi. apply lookup_total_replicate_2. lia. }
  split; cbn [slots shift zero].
  - done.
  - unfold len. rewrite length_replicate. subst n. rewrite Z2Nat.id by (apply Z.pow_nonneg; lia). f_equal. lia.
  - symmetry. apply bool_decide_false. set_solver.
  - intros i Hi Hne. by rewrite Hat in Hne.
  - intros i j Hi _ _ Hne. by rewrite Hat in Hne.
  - set_solver.
Qed.

Lemma reset_spec s S : represents s S -> represents (reset s) ∅.
Proof.
  intros H. unfold reset. replace (shift s) with (64 - (64 - shift s)) by lia. pose proof (rp_shift _ _ H).
  apply empty_represents; [lia|]. rewrite <- (rp_len _ _ H). unfold len. lia.
Qed.

(** A set built for [n] members has more than [n] slots. *)
Lemma newShingleSet_spec n :
  1 <= n < 2 ^ 61 -> represents (newShingleSet n) ∅ /\ 2 * n - 1 < len (slots (newShingleSet n)).
Proof.
  intros Hn. unfold newShingleSet, bits_Len, shingleHashBits. rewrite (proj2 (Z.leb_gt _ _)) by lia.
  pose proof (Z.log2_spec (2 * n - 1) ltac:(lia)) as Hl. pose proof (Z.log2_nonneg (2 * n - 1)).
  assert (Z.log2 (2 * n - 1) < 62) by (apply Z.log2_lt_pow2; lia). rewrite Z.shiftl_1_l. split.
  - apply empty_represents; [lia|done].
  - cbn [slots]. unfold len. rewrite length_replicate, Z2Nat.id by (apply Z.pow_nonneg; lia). lia.
Qed.

(** ** The smallest elements of a list *)

Definition sorted (l : list Z) : list Z := merge_sort Z.le l.
Definition bottom (n : nat) (l : list Z) : list Z := take n (sorted l).

Lemma sorted_perm l : sorted l ≡ₚ l.
Proof. apply merge_sort_Permutation. Qed.

Lemma sorted_sorted l : StronglySorted Z.le (sorted l).
Proof. apply StronglySorted_merge_sort; apply _. Qed.

Lemma sorted_unique l l' : l ≡ₚ l' -> StronglySorted Z.le l' -> sorted l = l'.
Proof.
  intros Hp Hs. apply (StronglySorted_unique Z.le); [apply sorted_sorted|done|]. rewrite sorted_perm. done.
Qed.

#[global] Instance sorted_proper : Proper ((≡ₚ) ==> (=)) sorted.
Proof. intros l l' H. apply sorted_unique; [rewrite H; symmetry; apply sorted_perm|apply sorted_sorted]. Qed.
#[global] Instance bottom_proper n : Proper ((≡ₚ) ==> (=)) (bottom n).
Proof. intros l l' H. unfold bottom. by rewrite H. Qed.

(** Sorting a list whose first part is below its second sorts the parts. *)
Lemma sorted_app l1 l2 : (forall x y, x ∈ l1 -> y ∈ l2 -> x <= y) -> sorted (l1 ++ l2) = sorted l1 ++ sorted l2.
Proof.
  intros H. apply sorted_unique; [by rewrite !sorted_perm|]. apply StronglySorted_app_2; [|apply sorted_sorted..].
  intros x y Hx Hy. rewrite sorted_perm in Hx, Hy. auto.
Qed.

Lemma length_sorted l : length (sorted l) = length l.
Proof. by rewrite sorted_perm. Qed.

Lemma bottom_app n l1 l2 :
  (forall x y, x ∈ l1 -> y ∈ l2 -> x <= y) -> (n <= length l1)%nat -> bottom n (l1 ++ l2) = bottom n l1.
Proof. intros H Hn. unfold bottom. rewrite sorted_app by done. apply take_app_le. by rewrite length_sorted. Qed.

Lemma bottom_all n l : (length l <= n)%nat -> bottom n l ≡ₚ l.
Proof. intros H. unfold bottom. rewrite take_ge by (by rewrite length_sorted). apply sorted_perm. Qed.

Lemma length_bottom n l : length (bottom n l) = Nat.min n (length l).
Proof. unfold bottom. by rewrite length_take, length_sorted. Qed.

(** A threshold that leaves at least [n] elements does not change the [n] smallest. *)
Lemma bottom_filter n c l :
  (n <= length (filter (fun x => (x <= c)%Z) l))%nat -> bottom n (filter (fun x => (x <= c)%Z) l) = bottom n l.
Proof.
  intros H. rewrite <- (filter_app_complement (fun x => (x <= c)%Z) l) at 2.
  symmetry. apply bottom_app; [|done]. intros x y [? _]%list_elem_of_filter [? _]%list_elem_of_filter. lia.
Qed.

Lemma selected_split a0 a k v :
  selected a0 a k v -> 0 <= k < len a ->
  let n := S (Z.to_nat k) in
  (forall x y, x ∈ take n a -> y ∈ drop n a -> x <= v <= y) /\ v ∈ take n a.
Proof.
  intros (Hp & Ev & Hlo & Hhi) Hk n. split.
  - intros x y (i & Hi)%list_elem_of_lookup (j & Hj)%list_elem_of_lookup.
    apply lookup_take_Some in Hi as [Hi Hlt]. rewrite lookup_drop in Hj.
    pose proof (lookup_lt_Some _ _ _ Hi). pose proof (lookup_lt_Some _ _ _ Hj). unfold n, len, at_ in *.
    specialize (Hlo (Z.of_nat i) ltac:(lia)). specialize (Hhi (Z.of_nat (S (Z.to_nat k) + j)) ltac:(lia)).
    rewrite Nat2Z.id in *. rewrite (list_lookup_total_correct _ _ _ Hi) in Hlo.
    rewrite (list_lookup_total_correct _ _ _ Hj) in Hhi. lia.
  - apply list_elem_of_lookup. exists (Z.to_nat k). unfold n, at_, len in *. rewrite lookup_take_lt by lia.
    rewrite list_lookup_lookup_total_lt by lia. by rewrite Ev.
Qed.

(** Keeping the selected prefix keeps the smallest elements. *)
Lemma selected_bottom a0 a k v :
  selected a0 a k v -> 0 <= k < len a -> take (S (Z.to_nat k)) a ≡ₚ bottom (S (Z.to_nat k)) a0.
Proof.
  intros Hs Hk. destruct (selected_split _ _ _ _ Hs Hk) as [H _]. destruct Hs as (Hp & _). unfold len in Hk.
  rewrite <- Hp. rewrite <- (take_drop (S (Z.to_nat k)) a) at 2.
  rewrite bottom_app; [|intros x y Hx Hy; specialize (H x y Hx Hy); lia|rewrite length_take; lia].
  symmetry. apply bottom_all. rewrite length_take. lia.
Qed.

(** The value is the one at index [k] of the sorted array. *)
Lemma selected_value a0 a k v : selected a0 a k v -> 0 <= k < len a -> v = at_ (sorted a0) k.
Proof.
  intros Hs Hk. pose proof Hs as (Hp & Ev & Hlo & Hhi). unfold len in Hk. set (n := Z.to_nat k).
  assert (a = take n a ++ v :: drop (S n) a) as Ha.
  { rewrite <- (take_drop n a) at 1. f_equal. rewrite (drop_S a v); [done|].
    rewrite list_lookup_lookup_total_lt by lia. f_equal. exact Ev. }
  destruct (selected_split _ _ _ _ Hs Hk) as [H1 _]. fold n in H1.
  assert (forall x, x ∈ take n a -> x <= v) as H2.
  { intros x (i & Hi)%list_elem_of_lookup. apply lookup_take_Some in Hi as [Hi Hlt].
    specialize (Hlo (Z.of_nat i) ltac:(lia)). unfold at_ in Hlo. rewrite Nat2Z.id in Hlo.
    by rewrite (list_lookup_total_correct _ _ _ Hi) in Hlo. }
  assert (sorted a0 = sorted (take n a) ++ v :: sorted (drop (S n) a)) as ->.
  { rewrite <- Hp, Ha at 1. apply sorted_unique; [by rewrite !sorted_perm|].
    apply StronglySorted_app_2; [|apply sorted_sorted|].
    - intros x y Hx Hy. rewrite sorted_perm in Hx. specialize (H2 x Hx). rewrite elem_of_cons in Hy.
      destruct Hy as [->|Hy]; [done|]. rewrite sorted_perm in Hy. destruct (H1 v y); [|done|lia].
      apply (selected_split _ _ _ _ Hs Hk).
    - constructor; [apply sorted_sorted|]. apply Forall_forall. intros y Hy. rewrite sorted_perm in Hy.
      destruct (H1 v y); [|done|done]. apply (selected_split _ _ _ _ Hs Hk). }
  unfold at_. fold n. symmetry. apply list_lookup_total_correct. rewrite lookup_app_r; rewrite length_sorted, length_take; [|lia].
  replace (n - Nat.min n (length a))%nat with 0%nat by lia. done.
Qed.

(** ** Claims *)

(** [selectKth] terminates without leaving the array, only rearranges it, and returns the value
    at index [k] of the sorted array, with nothing larger before index [k] and nothing smaller after
    it. *)
Theorem select_kth_correct a k :
  0 <= k < len a ->
  exists a' v, selectKth a k = Ok (a', v) /\ a' ≡ₚ a /\ v = at_ (sorted a) k /\ at_ a' k = v /\
    (forall i, 0 <= i <= k -> at_ a' i <= v) /\ (forall j, k <= j < len a' -> v <= at_ a' j).
Proof.
  intros Hk. destruct (selectKth_selected a k Hk) as (a' & v & E & Hs). exists a', v.
  pose proof Hs as (Hp & Ev & Hlo & Hhi). split; [done|]. split; [done|]. split; [|done].
  eapply selected_value; [done|]. unfold len in *. by rewrite Hp.
Qed.

Lemma select_kth_correct_witness :
  exists a' v, selectKth [9; 4; 7; 1; 4; 8] 2 = Ok (a', v) /\ a' ≡ₚ [9; 4; 7; 1; 4; 8] /\ v = 4.
Proof.
  destruct (select_kth_correct [9; 4; 7; 1; 4; 8] 2) as (a' & v & E & Hp & Hv & _); [unfold len; cbn; lia|].
  exists a', v. split; [exact E|]. split; [exact Hp|]. rewrite Hv. vm_compute. reflexivity.
Defined.
