(* ===== verification/MinHash.v ===== *)
(** * [internal/sketch/minhash.go]: MinHash signatures

    Shingle hashing with its unrolled five-byte loop, the bottom-k sampler (seeded threshold, open
    addressing set, buffer trimmed by quickselect), the permutation minima, the comparison of two
    signatures, and both encodings.  [Select.v] has the sampler's data structures.  The main theorem
    says that all of it computes the short definition [signature_of]: the minima, over the 8,192
    smallest distinct shingle hashes, of the permutations. *)

From S2P Require Import Prelude GoLib Core Frame Select.

Open Scope go_scope.

(** ** Hashing ([hash.go]) *)

Definition splitmix64 (x : Z) : Z :=
  let x := add64 x 0x9E3779B97F4A7C15 in
  let x := mul64 (Z.lxor x (Z.shiftr x 30)) 0xBF58476D1CE4E5B9 in
  let x := mul64 (Z.lxor x (Z.shiftr x 27)) 0x94D049BB133111EB in
  Z.lxor x (Z.shiftr x 31).

Definition fnvOffset64 : Z := 14695981039346656037.
Definition fnvPrime64 : Z := 1099511628211.

Definition fnv1a64 (b : bytes) : Z :=
  fold_left (fun h c => mul64 (Z.lxor h (b2z c)) fnvPrime64) b fnvOffset64.

(** ** Options and signatures *)

Definition DefaultShingleSize : Z := 8.
Definition MinHashSampleTarget : Z := 8192.
Definition MinPermutations : Z := 16.
Definition MaxPermutations : Z := 512.
Definition minShingleSize : Z := 2.
Definition maxShingleSize : Z := 64.
Definition shingleChunk : Z := 1024.
Definition sampleSeedSlack : Z := 2.
Definition sampleBufferSlack : Z := 2.
Definition storeShingleSize : Z := 5.

Record MinHashOptions := MkOptions {
  Enabled : bool; Permutations : Z; ShingleSize : Z; NearDupThreshold : Z }.

Record Signature := MkSignature { Perms : Z; Mins : list Z }.

(** ** Shingles *)

(** [dst[i] = fnv1a64(data[off+i : off+i+w])] for [n] values. *)
Fixpoint hash_each (data : bytes) (n off w : nat) : outcome stuck (list Z) :=
  match n with
  | O => Ok []
  | S n =>
      let! s := get_sub data off (off + w) in
      let! r := hash_each data n (S off) w in
      Ok (fnv1a64 s :: r)
  end.

(** The multiply chain written out for five bytes. *)
Definition fnv5 (s : bytes) : outcome stuck Z :=
  let! s0 := get_at s 0 in
  let h := mul64 (Z.lxor fnvOffset64 (b2z s0)) fnvPrime64 in
  let! s1 := get_at s 1 in
  let h := mul64 (Z.lxor h (b2z s1)) fnvPrime64 in
  let! s2 := get_at s 2 in
  let h := mul64 (Z.lxor h (b2z s2)) fnvPrime64 in
  let! s3 := get_at s 3 in
  let h := mul64 (Z.lxor h (b2z s3)) fnvPrime64 in
  let! s4 := get_at s 4 in
  Ok (mul64 (Z.lxor h (b2z s4)) fnvPrime64).

Fixpoint hash5_each (d : bytes) (n i : nat) : outcome stuck (list Z) :=
  match n with
  | O => Ok []
  | S n =>
      let! s := get_sub d i (i + 5) in
      let! h := fnv5 s in
      let! r := hash5_each d n (S i) in
      Ok (h :: r)
  end.

Definition hashShingles5 (n : nat) (d : bytes) : outcome stuck (list Z) :=
  let! d := get_sub d 0 (n + Z.to_nat storeShingleSize - 1) in
  hash5_each d n 0.

Definition hashShingles (n : nat) (data : bytes) (off w : nat) : outcome stuck (list Z) :=
  if Z.of_nat w =? storeShingleSize then
    let! d := get_sub data off (off + n + Z.to_nat storeShingleSize - 1) in
    hashShingles5 n d
  else if Z.of_nat w =? DefaultShingleSize then hash_each data n off (Z.to_nat DefaultShingleSize)
  else hash_each data n off w.

(** [for off := 0; off < nsh; off += shingleChunk { batch := ...; ... }]. *)
Fixpoint over_batches {St : Type} (step : St -> list Z -> outcome stuck St) (fuel : nat) (data : bytes)
    (w nsh off : Z) (st : St) : outcome stuck St :=
  match fuel with
  | O => Err Diverges
  | S fuel =>
      if off <? nsh then
        let! batch := hashShingles (Z.to_nat (Z.min shingleChunk (nsh - off))) data (Z.to_nat off) (Z.to_nat w) in
        let! st := step st batch in
        over_batches step fuel data w nsh (off + shingleChunk) st
      else Ok st
  end.

(** ** The sampler *)

Definition capacity : Z := sampleBufferSlack * MinHashSampleTarget.

(** [distinctBelow]'s variables. *)
Record sampler := MkSampler { keep : Z; seen : shingleSet; sample : list Z }.

(** [for _, v := range sample { seen.add(v) }]. *)
Fixpoint add_each (s : shingleSet) (l : list Z) : outcome stuck shingleSet :=
  match l with
  | [] => Ok s
  | v :: l => let! (s, _) := set_add s v in add_each s l
  end.

Fixpoint sample_batch (st : sampler) (batch : list Z) : outcome stuck sampler :=
  match batch with
  | [] => Ok st
  | h :: batch =>
      if h >? keep st then sample_batch st batch
      else
        let! (seen, fresh) := set_add (seen st) h in
        if negb fresh then sample_batch (MkSampler (keep st) seen (sample st)) batch
        else
          let sample := sample st ++ [h] in
          if Z.of_nat (length sample) <? capacity then sample_batch (MkSampler (keep st) seen sample) batch
          else
            let! (sample, kth) := selectKth sample (MinHashSampleTarget - 1) in
            let sample := take (Z.to_nat MinHashSampleTarget) sample in
            let! seen := add_each (reset seen) sample in
            sample_batch (MkSampler kth seen sample) batch
  end.

Definition distinctBelow (data : bytes) (w nsh keep : Z) : outcome stuck (list Z) :=
  let! st := over_batches sample_batch (S (length data)) data w nsh 0
               (MkSampler keep (newShingleSet capacity) []) in
  if Z.of_nat (length (sample st)) >? MinHashSampleTarget then
    let! (s, _) := selectKth (sample st) (MinHashSampleTarget - 1) in
    Ok (take (Z.to_nat MinHashSampleTarget) s)
  else Ok (sample st).

Definition bottomKShingles (data : bytes) (w nsh : Z) : outcome stuck (list Z) :=
  let admitted := sampleSeedSlack * MinHashSampleTarget in
  let keep := if admitted <? nsh then mul64 (MaxUint64 / u64 nsh) (u64 admitted) else MaxUint64 in
  let! s := distinctBelow data w nsh keep in
  if (Z.of_nat (length s) <? MinHashSampleTarget) && negb (keep =? MaxUint64)
  then distinctBelow data w nsh MaxUint64
  else Ok s.

(** ** Permutations *)

Definition coef_a (i : nat) : Z := Z.lor (splitmix64 (u64 (2 * Z.of_nat i))) 1.
Definition coef_b (i : nat) : Z := splitmix64 (u64 (2 * Z.of_nat i + 1)).

(** [for j, aj := range a { if v := aj*h + b[j]; v < mins[j] { mins[j] = v } }]. *)
Fixpoint permute_row (h : Z) (a b mins : list Z) : outcome stuck (list Z) :=
  match a with
  | [] => Ok mins
  | aj :: a =>
      match b, mins with
      | bj :: b, mj :: mins =>
          let v := add64 (mul64 aj h) bj in
          let! r := permute_row h a b mins in
          Ok ((if v <? mj then v else mj) :: r)
      | _, _ => Panic
      end
  end.

Fixpoint permuteInto (mins a b hashes : list Z) : outcome stuck (list Z) :=
  match hashes with
  | [] => Ok mins
  | h :: hashes => let! mins := permute_row h a b mins in permuteInto mins a b hashes
  end.

Definition minHashWithStats (data : bytes) (o : MinHashOptions) : outcome stuck (Signature * Z) :=
  if negb (Enabled o) then Ok (MkSignature 0 [], 0)
  else
    let w := if ShingleSize o <=? 0 then DefaultShingleSize else ShingleSize o in
    let w := clampInt w minShingleSize maxShingleSize in
    let p := clampInt (Permutations o) MinPermutations MaxPermutations in
    let mins := replicate (Z.to_nat p) MaxUint64 in
    let nsh := Z.of_nat (length data) - w + 1 in
    if nsh <=? 0 then Ok (MkSignature p mins, 0)
    else
      let a := coef_a <$> seq 0 (Z.to_nat p) in
      let b := coef_b <$> seq 0 (Z.to_nat p) in
      if nsh >? MinHashSampleTarget then
        let! s := bottomKShingles data w nsh in
        let! mins := permuteInto mins a b s in
        Ok (MkSignature p mins, Z.of_nat (length s))
      else
        let! mins := over_batches (fun mins batch => permuteInto mins a b batch) (S (length data)) data w nsh 0 mins in
        Ok (MkSignature p mins, nsh).

Definition MinHash (data : bytes) (o : MinHashOptions) : outcome stuck Signature :=
  let! (sig, _) := minHashWithStats data o in Ok sig.

(** ** Comparing signatures *)

(** [for i := range s.Mins { if s.Mins[i] == o.Mins[i] { eq++ } }]. *)
Fixpoint count_eq (s o : list Z) : outcome stuck Z :=
  match s with
  | [] => Ok 0
  | x :: s =>
      match o with
      | [] => Panic
      | y :: o => let! n := count_eq s o in Ok (if x =? y then n + 1 else n)
      end
  end.

Definition Jaccard (s o : Signature) : outcome stuck Z :=
  if (Perms s =? 0) || negb (Perms s =? Perms o) || negb (Z.of_nat (length (Mins s)) =? Perms s)
     || negb (Z.of_nat (length (Mins o)) =? Perms o)
  then Ok 0
  else let! eq := count_eq (Mins s) (Mins o) in Ok (F64.div (F64.of_int eq) (F64.of_int (Perms s))).

Definition IsNearDup (s o : Signature) (threshold : Z) : outcome stuck bool :=
  if negb (Perms s =? 0) && (Perms s =? Perms o)
  then let! j := Jaccard s o in Ok (F64.ge j threshold)
  else Ok false.

(** ** Encodings *)

Definition paramPerms : bytes := str "perms".
Definition sigPermsLen : nat := 2.
Definition sigMinLen : nat := 8.

Definition Signature_MarshalBinary (s : Signature) : outcome sketch_error bytes :=
  if negb (Z.of_nat (length (Mins s)) =? Perms s) then Err ErrMalformed
  else if Perms s >? MaxPermutations then Err ErrMalformed
  else Ok (le_put sigPermsLen (Perms s) ++ encode_words sigMinLen (Mins s)).

Definition Signature_UnmarshalBinary (data : bytes) : outcome sketch_error Signature :=
  if (length data <? sigPermsLen)%nat then Err ErrTruncated
  else
    let! pb := get_sub data 0 sigPermsLen in
    let perms := le_get pb in
    if perms >? MaxPermutations then Err ErrMalformed
    else if negb (length data =? sigPermsLen + sigMinLen * Z.to_nat perms)%nat then Err ErrTruncated
    else if perms =? 0 then Ok (MkSignature 0 [])
    else
      let! mins := decode_words sigMinLen (Z.to_nat perms) (drop sigPermsLen data) in
      Ok (MkSignature perms mins).

Record SigSketch := MkSigSketch { Sig : Signature; sk_Created : Z }.

Definition Sig_Header (s : SigSketch) : Header :=
  MkHeader HeaderMagic FormatVersion KindMinHash {[paramPerms := F64.of_int (Perms (Sig s))]}
    (u64 (Perms (Sig s))) (sk_Created s) 0.

Definition Sig_MarshalBinary (s : SigSketch) : outcome sketch_error bytes :=
  let! body := Signature_MarshalBinary (Sig s) in EncodeHeader (Sig_Header s) body.

Definition Sig_decodeV1 (hdr : Header) (body : bytes) : outcome sketch_error SigSketch :=
  let! perms := MustParamInt hdr paramPerms 0 MaxPermutations in
  let! sig := Signature_UnmarshalBinary body in
  if negb (Perms sig =? perms) then Err ErrMalformed else Ok (MkSigSketch sig (Created hdr)).

Definition Sig_UnmarshalBinary (data : bytes) : outcome sketch_error SigSketch :=
  let! (hdr, body) := DecodeHeader data in
  if negb (hKind hdr =? KindMinHash) then Err ErrKindMismatch
  else if Ver hdr =? 1 then Sig_decodeV1 hdr body else Err ErrUnsupportedVersion.

#[global] Instance Sig_Sketch : Sketch SigSketch := {
  Header_of := Sig_Header;
  MarshalBinary := Sig_MarshalBinary;
  UnmarshalBinary := Sig_UnmarshalBinary
}.

(** ** What it computes *)

Definition shingle_hash (data : bytes) (w i : nat) : Z := fnv1a64 (slice data i (i + w)).

(** The hash of every shingle, by position. *)
Definition shingle_hashes (data : bytes) (w nsh : nat) : list Z := shingle_hash data w <$> seq 0 nsh.

Definition permuted (a b h : Z) : Z := add64 (mul64 a h) b.

(** The minimum of one permutation over a collection of hashes. *)
Definition min_over (a b : Z) (hashes : list Z) : Z := foldr (fun h m => Z.min (permuted a b h) m) MaxUint64 hashes.

(** The reference: the minima over the smallest distinct shingle hashes. *)
Definition width_of (o : MinHashOptions) : Z :=
  clampInt (if ShingleSize o <=? 0 then DefaultShingleSize else ShingleSize o) minShingleSize maxShingleSize.

Definition perms_of (o : MinHashOptions) : Z := clampInt (Permutations o) MinPermutations MaxPermutations.

Definition sample_of (data : bytes) (o : MinHashOptions) : list Z :=
  bottom (Z.to_nat MinHashSampleTarget)
    (remove_dups (shingle_hashes data (Z.to_nat (width_of o)) (Z.to_nat (Z.of_nat (length data) - width_of o + 1)))).

Definition signature_of (data : bytes) (o : MinHashOptions) : Signature :=
  if Enabled o then
    MkSignature (perms_of o) ((fun i => min_over (coef_a i) (coef_b i) (sample_of data o)) <$> seq 0 (Z.to_nat (perms_of o)))
  else MkSignature 0 [].

(** ** Shingle hashing *)

Lemma fnv5_spec s : length s = 5%nat -> fnv5 s = Ok (fnv1a64 s).
Proof. destruct s as [|s0 [|s1 [|s2 [|s3 [|s4 [|]]]]]]; try done. Qed.

Lemma hash_each_spec data n off w :
  (off + n + w <= length data + 1)%nat -> (1 <= w)%nat -> hash_each data n off w = Ok (shingle_hash data w <$> seq off n).
Proof.
  revert off. induction n as [|n IH]; intros off Hl Hw; [done|]. cbn [hash_each seq fmap list_fmap].
  rewrite get_sub_in by lia. cbn [obind]. rewrite IH by lia. done.
Qed.

Lemma slice_slice {A} (l : list A) lo hi i j :
  (lo <= hi)%nat -> (i <= j)%nat -> (j <= hi - lo)%nat -> slice (slice l lo hi) i j = slice l (lo + i) (lo + j).
Proof.
  intros H1 H2 H3. unfold slice. rewrite skipn_firstn_comm, take_take, drop_drop. f_equal. lia.
Qed.

Lemma hash5_each_spec data off n d i m :
  d = slice data off (off + m + 4) -> (off + m + 4 <= length data)%nat -> (i + n <= m)%nat ->
  hash5_each d n i = Ok (shingle_hash data 5 <$> seq (off + i) n).
Proof.
  intros -> Hl. revert i. induction n as [|n IH]; intros i Hi; [done|]. cbn [hash5_each seq fmap list_fmap].
  assert (length (slice data off (off + m + 4)) = (m + 4)%nat) as El by (rewrite slice_length; lia).
  rewrite get_sub_in by lia. cbn [obind]. rewrite fnv5_spec by (rewrite slice_length; lia). cbn [obind].
  rewrite IH by lia. cbn [obind]. unfold shingle_hash at 2. rewrite slice_slice by lia.
  rewrite <- Nat.add_succ_r. do 3 f_equal. f_equal. lia.
Qed.

Lemma hashShingles_spec n data off w :
  (off + n + w <= length data + 1)%nat -> (1 <= w)%nat -> hashShingles n data off w = Ok (shingle_hash data w <$> seq off n).
Proof.
  intros Hl Hw. unfold hashShingles, storeShingleSize, DefaultShingleSize. change (Z.to_nat 5) with 5%nat. change (Z.to_nat 8) with 8%nat.
  destruct (_ =? 5) eqn:E5; bsolve; [|destruct (_ =? 8) eqn:E8; bsolve].
  - assert (w = 5%nat) as -> by lia. rewrite get_sub_in by lia. cbn [obind]. unfold hashShingles5, storeShingleSize.
    change (Z.to_nat 5) with 5%nat. rewrite get_sub_in by (rewrite slice_length; lia). cbn [obind].
    rewrite slice_slice by lia. rewrite (hash5_each_spec data off n _ 0 n); [by rewrite Nat.add_0_r| |lia|lia].
    f_equal; lia.
  - assert (w = 8%nat) as -> by lia. apply hash_each_spec; lia.
  - apply hash_each_spec; lia.
Qed.

(** ** The batches cover every shingle, once and in order *)

Lemma over_batches_spec {St} (step : St -> list Z -> outcome stuck St) (I : list Z -> St -> Prop) data (w nsh : Z) :
  1 <= w -> nsh = Z.of_nat (length data) - w + 1 ->
  (forall done_ st batch, I done_ st -> Forall (fun h => h ∈ shingle_hashes data (Z.to_nat w) (Z.to_nat nsh)) batch ->
     exists st', step st batch = Ok st' /\ I (done_ ++ batch) st') ->
  forall fuel off st, 0 <= off -> Z.max 0 (nsh - off) < Z.of_nat fuel ->
  I (shingle_hashes data (Z.to_nat w) (Z.to_nat (Z.min off nsh))) st ->
  exists st', over_batches step fuel data w nsh off st = Ok st' /\ I (shingle_hashes data (Z.to_nat w) (Z.to_nat nsh)) st'.
Proof.
  intros Hw Hnsh Hstep fuel. induction fuel as [|fuel IH]; intros off st Ho Hf HI; [lia|]. cbn [over_batches].
  unfold shingleChunk in *. destruct (off <? nsh) eqn:E; bsolve.
  - rewrite hashShingles_spec by lia. cbn [obind]. set (n := Z.to_nat (Z.min 1024 (nsh - off))).
    destruct (Hstep _ st (shingle_hash data (Z.to_nat w) <$> seq (Z.to_nat off) n) HI) as (st' & -> & HI').
    { apply Forall_forall. intros h (i & -> & Hi%elem_of_seq)%list_elem_of_fmap. unfold shingle_hashes.
      apply list_elem_of_fmap_2, elem_of_seq. lia. }
    cbn [obind]. apply IH; [lia|lia|]. rewrite Z.min_l in HI' by lia. unfold shingle_hashes in *.
    rewrite <- fmap_app in HI'. replace (Z.to_nat (Z.min (off + 1024) nsh)) with (Z.to_nat off + n)%nat by lia. by rewrite seq_app.
  - exists st. rewrite Z.min_r in HI by lia. done.
Qed.

(** ** Permutation minima *)

Lemma min_over_le a b l x : x <= min_over a b l <-> x <= MaxUint64 /\ forall h, h ∈ l -> x <= permuted a b h.
Proof.
  induction l as [|h l IH]; cbn [min_over foldr].
  - split; [intros; split; [done|by intros ? ?%not_elem_of_nil]|by intros []].
  - change (foldr _ MaxUint64 l) with (min_over a b l). rewrite Z.min_glb_iff, IH. split.
    + intros (H1 & H2 & H3). split; [done|]. intros g [->|Hg]%elem_of_cons; auto.
    + intros [H1 H2]. split_and!; [apply H2; by left|done|]. intros g Hg. apply H2. by right.
Qed.

(** The minimum depends on the set of hashes only. *)
Lemma min_over_mono a b l l' : (forall h, h ∈ l' -> h ∈ l) -> min_over a b l <= min_over a b l'.
Proof.
  intros H. apply min_over_le. destruct (proj1 (min_over_le a b l _) (Z.le_refl _)) as [H1 H2]. split; [done|]. auto.
Qed.

Lemma min_over_ext a b l l' : (forall h, h ∈ l <-> h ∈ l') -> min_over a b l = min_over a b l'.
Proof. intros H. apply Z.le_antisymm; apply min_over_mono; intros h; apply H. Qed.

Lemma min_over_snoc a b l h : min_over a b (l ++ [h]) = Z.min (permuted a b h) (min_over a b l).
Proof. induction l as [|g l IH]; [done|]. unfold min_over in *. cbn [app foldr]. rewrite IH. lia. Qed.

(** The state of the loops: the minima over the hashes seen. *)
Definition minima (p : nat) (hashes : list Z) : list Z :=
  (fun i => min_over (coef_a i) (coef_b i) hashes) <$> seq 0 p.

Lemma minima_ext p l l' : (forall h, h ∈ l <-> h ∈ l') -> minima p l = minima p l'.
Proof. intros H. apply list_fmap_ext. intros _ i _. by apply min_over_ext. Qed.

Lemma minima_nil p : minima p [] = replicate p MaxUint64.
Proof. unfold minima. generalize 0%nat. induction p as [|p IH]; intros k; [done|]. cbn. f_equal. apply IH. Qed.

Lemma permute_row_spec h l g :
  permute_row h (coef_a <$> l) (coef_b <$> l) (g <$> l)
  = Ok ((fun i => Z.min (permuted (coef_a i) (coef_b i) h) (g i)) <$> l).
Proof.
  induction l as [|i l IH]; [done|]. cbn [fmap list_fmap permute_row]. rewrite IH. cbn [obind]. do 2 f_equal.
  unfold permuted. ifcase; lia.
Qed.

Lemma permuteInto_spec p done_ batch :
  permuteInto (minima p done_) (coef_a <$> seq 0 p) (coef_b <$> seq 0 p) batch = Ok (minima p (done_ ++ batch)).
Proof.
  revert done_. induction batch as [|h batch IH]; intros done_; [by rewrite app_nil_r|]. cbn [permuteInto].
  unfold minima at 1. rewrite permute_row_spec. cbn [obind].
  replace (done_ ++ h :: batch) with ((done_ ++ [h]) ++ batch) by (by rewrite <- app_assoc). rewrite <- IH.
  f_equal. apply list_fmap_ext. intros _ i _. by rewrite min_over_snoc.
Qed.

(** ** The sampler *)

Lemma add_each_spec l s S :
  represents s S -> Z.of_nat (size S + length l) <= len (slots s) ->
  exists s', add_each s l = Ok s' /\ represents s' (list_to_set l ∪ S) /\ len (slots s') = len (slots s).
Proof.
  revert s S. induction l as [|v l IH]; intros s S H Hsz; cbn [add_each list_to_set length] in *.
  { exists s. rewrite (left_id_L ∅ (∪) S). done. }
  destruct (set_add_spec s S v H) as (s1 & -> & H1 & E1); [lia|]. cbn [obind].
  destruct (IH s1 _ H1) as (s2 & -> & H2 & E2).
  { rewrite E1. assert (size ({[v]} ∪ S) <= 1 + size S)%nat; [|lia]. rewrite size_union_alt, size_singleton.
    pose proof (subseteq_size (S ∖ {[v]}) S ltac:(set_solver)). lia. }
  exists s2. split; [done|]. split; [|lia]. replace ({[v]} ∪ list_to_set l ∪ S) with (list_to_set l ∪ ({[v]} ∪ S)) by set_solver. done.
Qed.

(** After the hashes [P] with the threshold starting at [keep0]: the buffer holds exactly the
    distinct hashes at or below the current threshold, and lowering the threshold left at least the
    target number of them. *)
Record sampling (keep0 : Z) (P : list Z) (st : sampler) : Prop := {
  sp_nodup : NoDup (sample st);
  sp_elem : forall x, x ∈ sample st <-> x ∈ P /\ x <= keep st;
  sp_keep : keep st <= keep0;
  sp_full : keep st = keep0 \/ MinHashSampleTarget <= Z.of_nat (length (sample st));
  sp_room : Z.of_nat (length (sample st)) < capacity;
  sp_seen : represents (seen st) (list_to_set (sample st));
  sp_slots : capacity < len (slots (seen st))
}.

Lemma sampling_start keep0 : sampling keep0 [] (MkSampler keep0 (newShingleSet capacity) []).
Proof.
  destruct (newShingleSet_spec capacity) as [H1 H2]; [unfold capacity, sampleBufferSlack, MinHashSampleTarget; lia|].
  revert H1 H2. generalize (newShingleSet capacity). intros s H1 H2. split; cbn [keep seen sample].
  - constructor.
  - intros x. split; [by intros ?%not_elem_of_nil|by intros [?%not_elem_of_nil _]].
  - lia.
  - by left.
  - unfold capacity, sampleBufferSlack, MinHashSampleTarget. cbn. lia.
  - exact H1.
  - unfold capacity, sampleBufferSlack, MinHashSampleTarget in *. lia.
Qed.

(** The selected prefix of a list without repetitions is everything at or below the value. *)
Lemma selected_exact a0 a k v :
  selected a0 a k v -> 0 <= k < len a -> NoDup a0 ->
  forall x, x ∈ take (S (Z.to_nat k)) a <-> x ∈ a0 /\ x <= v.
Proof.
  intros Hs Hk Hnd x. destruct (selected_split _ _ _ _ Hs Hk) as [H1 H2]. pose proof Hs as (Hp & Ev & Hlo & _).
  set (n := S (Z.to_nat k)) in *. rewrite <- Hp in Hnd |- *. split.
  - intros Hx. split; [rewrite <- (take_drop n a); apply elem_of_app; by left|].
    apply list_elem_of_lookup in Hx as [i [Hi Hlt]%lookup_take_Some]. specialize (Hlo (Z.of_nat i)). unfold at_ in Hlo.
    rewrite Nat2Z.id, (list_lookup_total_correct _ _ _ Hi) in Hlo. lia.
  - intros [Hx Hle]. rewrite <- (take_drop n a) in Hx, Hnd. apply elem_of_app in Hx as [|Hx]; [done|]. exfalso.
    apply NoDup_app in Hnd as (_ & Hnd & _). apply (Hnd v H2). destruct (H1 v x H2 Hx). by replace v with x by lia.
Qed.

(** The trim: what is kept of a full buffer. *)
Lemma sampling_trim keep0 P st h seen1 :
  sampling keep0 P st -> h <= keep st -> h ∉ sample st -> represents seen1 ({[h]} ∪ list_to_set (sample st)) ->
  capacity < len (slots seen1) -> capacity <= Z.of_nat (length (sample st ++ [h])) ->
  exists a v s, selectKth (sample st ++ [h]) (MinHashSampleTarget - 1) = Ok (a, v) /\
    add_each (reset seen1) (take (Z.to_nat MinHashSampleTarget) a) = Ok s /\
    sampling keep0 (P ++ [h]) (MkSampler v s (take (Z.to_nat MinHashSampleTarget) a)).
Proof.
  intros [H1 H2 H3 H4 H5 H6 H7] Hk Hn Hs Hsl Hc. set (l := sample st ++ [h]) in *.
  assert (0 <= MinHashSampleTarget - 1 < len l) as Hr.
  { unfold len. unfold capacity, sampleBufferSlack, MinHashSampleTarget in *. lia. }
  destruct (selectKth_selected l (MinHashSampleTarget - 1) Hr) as (a & v & E & Hsel).
  assert (len a = len l) as El by (unfold len; by rewrite (proj1 Hsel)).
  assert (NoDup l) as Hnd.
  { apply NoDup_app. split_and!; [done| |apply NoDup_singleton]. intros x Hx ->%list_elem_of_singleton. done. }
  pose proof (selected_exact _ _ _ _ Hsel ltac:(lia) Hnd) as Hex.
  replace (S (Z.to_nat (MinHashSampleTarget - 1))) with (Z.to_nat MinHashSampleTarget) in Hex
    by (unfold MinHashSampleTarget; lia).
  assert (forall x, x ∈ l -> x <= keep st) as Hle.
  { intros x [Hx|Hx%list_elem_of_singleton]%elem_of_app; [by apply H2 in Hx as [_ ?]|by subst]. }
  assert (v ∈ l) as Hv. { destruct Hsel as (Hp & <- & _). rewrite <- Hp. apply at_elem. lia. }
  set (t := take _ a) in *. assert (Z.of_nat (length t) = MinHashSampleTarget) as Et.
  { unfold t. rewrite length_take. unfold len in *. unfold MinHashSampleTarget in *. lia. }
  assert (NoDup t) as Hndt. { unfold t. apply (sublist_NoDup _ a); [rewrite (proj1 Hsel); done|apply sublist_take]. }
  destruct (add_each_spec t (reset seen1) ∅) as (s & Ea & Hrep & Els).
  { by eapply reset_spec. }
  { rewrite size_empty. unfold reset, len in *. cbn [slots]. rewrite length_replicate.
    unfold capacity, sampleBufferSlack in *. unfold MinHashSampleTarget in *. lia. }
  exists a, v, s. split; [done|]. split; [done|]. fold t.
  split; cbn [keep seen sample]; [done|..].
  - intros x. rewrite Hex. split.
    + intros [[Hx|Hx%list_elem_of_singleton]%elem_of_app Hxv]; (split; [|done]); apply elem_of_app;
        [left; by apply H2 in Hx as [? _]|right; by apply list_elem_of_singleton].
    + intros [[Hx|Hx]%elem_of_app Hxv]; (split; [|done]); apply elem_of_app; [left|by right].
      apply H2. split; [done|]. specialize (Hle v Hv). lia.
  - specialize (Hle v Hv). lia.
  - right. lia.
  - unfold capacity, sampleBufferSlack, MinHashSampleTarget in *. lia.
  - rewrite (right_id_L ∅ (∪)) in Hrep. done.
  - rewrite Els. unfold reset, len in *. cbn [slots]. by rewrite length_replicate.
Qed.

Lemma sampling_skip keep0 P st h seen1 :
  sampling keep0 P st -> (h <= keep st -> h ∈ sample st) ->
  represents seen1 (list_to_set (sample st)) -> capacity < len (slots seen1) ->
  sampling keep0 (P ++ [h]) (MkSampler (keep st) seen1 (sample st)).
Proof.
  intros [H1 H2 H3 H4 H5 H6 H7] Hh Hs Hl. split; cbn [keep seen sample]; try done. intros x. split.
  - intros Hx. pose proof Hx as [? ?]%H2. split; [apply elem_of_app; by left|done].
  - intros [[Hx|Hx%list_elem_of_singleton]%elem_of_app Hle]; [by apply H2|subst; auto].
Qed.

Lemma sampling_push keep0 P st h seen1 :
  sampling keep0 P st -> h <= keep st -> h ∉ sample st -> represents seen1 ({[h]} ∪ list_to_set (sample st)) ->
  capacity < len (slots seen1) -> Z.of_nat (length (sample st ++ [h])) < capacity ->
  sampling keep0 (P ++ [h]) (MkSampler (keep st) seen1 (sample st ++ [h])).
Proof.
  intros [H1 H2 H3 H4 H5 H6 H7] Hh Hn Hs Hl Hc. split; cbn [keep seen sample]; try done.
  - apply NoDup_app. split_and!; [done| |apply NoDup_singleton]. intros x Hx ->%list_elem_of_singleton. done.
  - intros x. rewrite !elem_of_app, H2, list_elem_of_singleton. split; [intros [[? ?]| ->]; auto|intros [[|] ?]; auto].
  - rewrite length_app. cbn [length]. destruct H4; [by left|right; lia].
  - rewrite list_to_set_app_L, (comm_L (∪)). cbn. by rewrite (right_id_L ∅ (∪)).
Qed.

Lemma sample_batch_spec keep0 batch P st :
  sampling keep0 P st -> exists st', sample_batch st batch = Ok st' /\ sampling keep0 (P ++ batch) st'.
Proof.
  revert P st. induction batch as [|h batch IH]; intros P st H; cbn [sample_batch]; [exists st; by rewrite app_nil_r|].
  pose proof H as [H1 H2 H3 H4 H5 H6 H7].
  assert (forall st1, sampling keep0 (P ++ [h]) st1 ->
    exists st', sample_batch st1 batch = Ok st' /\ sampling keep0 (P ++ h :: batch) st') as Hgo.
  { intros st1 Hst. destruct (IH _ st1 Hst) as (st' & E & Hs). exists st'. split; [done|]. by rewrite <- app_assoc in Hs. }
  destruct (h >? keep st) eqn:E; bsolve.
  { apply Hgo. replace st with (MkSampler (keep st) (seen st) (sample st)) by (by destruct st).
    apply sampling_skip; [done|lia|done|done]. }
  assert (Z.of_nat (size (list_to_set (sample st) : gset Z)) < len (slots (seen st))) as Hroom.
  { rewrite size_list_to_set by done. lia. }
  destruct (set_add_spec (seen st) _ h H6 Hroom) as (seen1 & -> & Hs1 & Es1). cbn [obind].
  assert (h ∉ (list_to_set (sample st) : gset Z) <-> h ∉ sample st) as Hin by (by rewrite elem_of_list_to_set).
  case_bool_decide as Hf; cbn [negb].
  - apply Hin in Hf. cbv zeta. destruct (_ <? capacity) eqn:Ec; bsolve; [apply Hgo, sampling_push; done || lia|].
    destruct (sampling_trim keep0 P st h seen1 H) as (a & v & s & -> & Ea & Hst); [done|done|done|lia|lia|].
    cbn [obind]. rewrite Ea. cbn [obind]. by apply Hgo.
  - apply Hgo, sampling_skip; [done| | |lia].
    + intros _. by apply elem_of_list_to_set in Hf.
    + by replace (list_to_set (sample st) : gset Z) with ({[h]} ∪ list_to_set (sample st) : gset Z) by set_solver.
Qed.

(** The buffer at the end: trimmed, it is the bottom of the distinct hashes below the threshold. *)
Lemma sampling_bottom keep0 P st :
  sampling keep0 P st ->
  bottom (Z.to_nat MinHashSampleTarget) (sample st)
  = bottom (Z.to_nat MinHashSampleTarget) (filter (fun x => x <= keep0) (remove_dups P)).
Proof.
  intros [H1 H2 H3 H4 H5 H6 H7].
  assert (sample st ≡ₚ filter (fun x => x <= keep st) (remove_dups P)) as Hp.
  { apply NoDup_Permutation; [done|apply NoDup_filter, NoDup_remove_dups|].
    intros x. rewrite list_elem_of_filter, elem_of_remove_dups, H2. tauto. }
  rewrite Hp. destruct H4 as [E|Hl]; [by rewrite E|].
  rewrite <- (list_filter_filter_l (fun x => x <= keep st) (fun x => x <= keep0)) by (intros; lia).
  apply bottom_filter. rewrite list_filter_filter_l by (intros; lia). rewrite <- Hp. lia.
Qed.

Lemma distinctBelow_spec data w nsh keep0 :
  1 <= w -> nsh = Z.of_nat (length data) - w + 1 -> 0 < nsh ->
  exists s, distinctBelow data w nsh keep0 = Ok s /\
    s ≡ₚ bottom (Z.to_nat MinHashSampleTarget)
           (filter (fun x => x <= keep0) (remove_dups (shingle_hashes data (Z.to_nat w) (Z.to_nat nsh)))).
Proof.
  intros Hw Hn Hp. unfold distinctBelow.
  destruct (over_batches_spec sample_batch (sampling keep0) data w nsh Hw Hn) with
    (fuel := S (length data)) (off := 0) (st := MkSampler keep0 (newShingleSet capacity) []) as (st & -> & Hst); [|lia|lia| |].
  { intros P st batch Hs _. by apply sample_batch_spec. }
  { rewrite Z.min_l by lia. apply sampling_start. }
  cbn [obind]. rewrite <- (sampling_bottom _ _ _ Hst). destruct (_ >? MinHashSampleTarget) eqn:E; bsolve.
  - assert (0 <= MinHashSampleTarget - 1 < len (sample st)) as Hr by (unfold len; unfold MinHashSampleTarget in *; lia).
    destruct (selectKth_selected (sample st) _ Hr) as (a & v & -> & Hsel). cbn [obind]. eexists. split; [done|].
    replace (Z.to_nat MinHashSampleTarget) with (S (Z.to_nat (MinHashSampleTarget - 1))) by (unfold MinHashSampleTarget; lia).
    eapply selected_bottom; [done|]. unfold len in *. by rewrite (proj1 Hsel).
  - exists (sample st). split; [done|]. symmetry. apply bottom_all. lia.
Qed.

Lemma filter_all (P : Z -> Prop) `{!forall x, Decision (P x)} l : Forall P l -> filter P l = l.
Proof. induction 1 as [|x l Hx _ IH]; [done|]. rewrite filter_cons_True by done. by rewrite IH. Qed.

Lemma remove_dups_length (l : list Z) : (length (remove_dups l) <= length l)%nat.
Proof. induction l as [|x l IH]; [done|]. cbn. destruct (decide_rel _ x l); cbn; lia. Qed.

Lemma mul64_range a b : 0 <= mul64 a b <= MaxUint64.
Proof. unfold mul64, MaxUint64. pose proof (u64_range (a * b)). lia. Qed.

Lemma shingle_hash_range data w i : (1 <= w)%nat -> (i + w <= length data)%nat -> shingle_hash data w i <= MaxUint64.
Proof.
  intros Hw Hl. unfold shingle_hash, fnv1a64. assert (length (slice data i (i + w)) = w) as El by (rewrite slice_length; lia).
  destruct (slice data i (i + w)) as [|b l _] using rev_ind; [cbn in El; lia|]. rewrite fold_left_app. apply mul64_range.
Qed.

Lemma bottomKShingles_spec data w nsh :
  1 <= w -> nsh = Z.of_nat (length data) - w + 1 -> 0 < nsh ->
  exists s, bottomKShingles data w nsh = Ok s /\
    s ≡ₚ bottom (Z.to_nat MinHashSampleTarget) (remove_dups (shingle_hashes data (Z.to_nat w) (Z.to_nat nsh))).
Proof.
  intros Hw Hn Hp. unfold bottomKShingles. set (k := if _ <? nsh then _ else _). set (D := remove_dups _).
  assert (filter (fun x => x <= MaxUint64) D = D) as Hall.
  { apply filter_all. apply Forall_forall. intros x Hx. unfold D in Hx. rewrite elem_of_remove_dups in Hx.
    apply list_elem_of_fmap in Hx as (i & -> & Hi%elem_of_seq). apply shingle_hash_range; lia. }
  destruct (distinctBelow_spec data w nsh k Hw Hn Hp) as (s & -> & Hs). fold D in Hs. cbn [obind].
  destruct (distinctBelow_spec data w nsh MaxUint64 Hw Hn Hp) as (s' & -> & Hs'). fold D in Hs'. rewrite Hall in Hs'.
  destruct (_ && _) eqn:E; [exists s'; done|]. exists s. split; [done|]. rewrite Hs.
  apply andb_false_iff in E as [E|E]; bsolve; [|by rewrite E, Hall].
  rewrite bottom_filter; [done|]. rewrite Hs, length_bottom in E. lia.
Qed.

(** ** The signature *)

Lemma width_range o : 2 <= width_of o <= 64.
Proof. unfold width_of. apply clampInt_range. unfold minShingleSize, maxShingleSize. lia. Qed.

Lemma perms_range o : 16 <= perms_of o <= 512.
Proof. unfold perms_of. apply clampInt_range. unfold MinPermutations, MaxPermutations. lia. Qed.

Lemma minHash_spec data o :
  exists n, minHashWithStats data o = Ok (signature_of data o, n) /\ 0 <= n <= MinHashSampleTarget.
Proof.
  unfold minHashWithStats, signature_of. destruct (Enabled o); cbn [negb]; [|exists 0; done].
  fold (width_of o) (perms_of o). pose proof (width_range o) as Hw. set (w := width_of o) in *. set (p := perms_of o).
  unfold sample_of. fold w. set (nsh := Z.of_nat (length data) - w + 1). set (H := shingle_hashes data (Z.to_nat w) (Z.to_nat nsh)).
  fold (minima (Z.to_nat p) (bottom (Z.to_nat MinHashSampleTarget) (remove_dups H))). rewrite <- minima_nil.
  destruct (nsh <=? 0) eqn:E; bsolve.
  { exists 0. unfold H. replace (Z.to_nat nsh) with 0%nat by lia. done. }
  destruct (nsh >? MinHashSampleTarget) eqn:E2; bsolve.
  - destruct (bottomKShingles_spec data w nsh) as (s & -> & Hs); [lia|done|lia|]. cbn [obind]. rewrite permuteInto_spec. cbn [obind app].
    eexists. split; [do 2 f_equal; f_equal; apply minima_ext; intros h; by rewrite Hs|].
    rewrite Hs, length_bottom. unfold MinHashSampleTarget. lia.
  - destruct (over_batches_spec (fun mins batch => permuteInto mins (coef_a <$> seq 0 (Z.to_nat p)) (coef_b <$> seq 0 (Z.to_nat p)) batch)
      (fun P mins => mins = minima (Z.to_nat p) P) data w nsh) with
      (fuel := S (length data)) (off := 0) (st := minima (Z.to_nat p) []) as (mins & -> & ->); [lia|done| |lia|lia| |].
    { intros P st batch -> _. eexists. split; [apply permuteInto_spec|done]. }
    { by rewrite Z.min_l by lia. }
    cbn [obind]. exists nsh. split; [|lia]. fold H. do 2 f_equal. f_equal. apply minima_ext. intros h.
    rewrite bottom_all; [by rewrite elem_of_remove_dups|].
    pose proof (remove_dups_length H) as Hl. unfold H, shingle_hashes in *. rewrite length_fmap, length_seq in Hl. lia.
Qed.

(** ** Comparing *)

Lemma count_eq_ok s o : length s = length o -> exists n, count_eq s o = Ok n /\ count_eq o s = Ok n /\ 0 <= n <= len s.
Proof.
  unfold len. revert o. induction s as [|x s IH]; intros [|y o]; try done; cbn [length count_eq]; [exists 0; done|].
  intros [= H]. destruct (IH o H) as (n & -> & -> & Hn). cbn [obind]. rewrite (Z.eqb_sym y x).
  eexists. split; [done|]. split; [done|]. destruct (x =? y); lia.
Qed.

Lemma count_eq_refl s : count_eq s s = Ok (len s).
Proof.
  unfold len. induction s as [|x s IH]; [done|]. cbn [count_eq length]. rewrite IH. cbn [obind]. rewrite Z.eqb_refl. f_equal. lia.
Qed.

Definition one : Z := 0x3ff0000000000000.

Lemma div_self_all : forallb (fun n => F64.div (F64.of_int n) (F64.of_int n) =? one) (seqZ 1 512) = true.
Proof. vm_compute. reflexivity. Qed.

Lemma div_self n : 1 <= n <= 512 -> F64.div (F64.of_int n) (F64.of_int n) = one.
Proof.
  intros Hn. pose proof div_self_all as H. rewrite forallb_forall in H. specialize (H n). apply Z.eqb_eq, H.
  apply list_elem_of_In, elem_of_seqZ. lia.
Qed.

(** ** Signatures of documents *)

Record sig_ok (s : Signature) : Prop := {
  so_perms : 0 <= Perms s <= MaxPermutations;
  so_len : Z.of_nat (length (Mins s)) = Perms s;
  so_min : Forall (fun m => 0 <= m < 2 ^ 64) (Mins s)
}.

Lemma permuted_mod a b h : permuted a b h = (a * h + b) mod 2 ^ 64.
Proof. unfold permuted, add64, mul64, u64. apply Zplus_mod_idemp_l. Qed.

Lemma min_over_range a b l : 0 <= min_over a b l <= MaxUint64.
Proof.
  split; [|apply (min_over_le a b l), Z.le_refl]. apply min_over_le. split; [unfold MaxUint64; lia|].
  intros h _. rewrite permuted_mod. apply Z.mod_pos_bound. lia.
Qed.

Lemma signature_ok data o : sig_ok (signature_of data o).
Proof.
  unfold signature_of. pose proof (perms_range o). destruct (Enabled o); split; cbn [Perms Mins]; unfold MaxPermutations.
  - lia.
  - rewrite length_fmap, length_seq. lia.
  - apply Forall_fmap, Forall_forall. intros i _. cbn. pose proof (min_over_range (coef_a i) (coef_b i) (sample_of data o)).
    unfold MaxUint64 in *. lia.
  - lia.
  - done.
  - constructor.
Qed.

(** No hash is the largest value under both of the first two permutations. *)
Lemma two_permutations h : permuted (coef_a 0) (coef_b 0) h = MaxUint64 -> permuted (coef_a 1) (coef_b 1) h <> MaxUint64.
Proof.
  rewrite !permuted_mod. unfold MaxUint64. intros H1 H2.
  pose proof (Z.div_mod (coef_a 0 * h + coef_b 0) (2 ^ 64) ltac:(lia)) as E1. rewrite H1 in E1.
  pose proof (Z.div_mod (coef_a 1 * h + coef_b 1) (2 ^ 64) ltac:(lia)) as E2. rewrite H2 in E2.
  set (t := _ / _) in E1. set (u := _ / _) in E2. clearbody t u. clear H1 H2.
  assert (2 ^ 64 * (coef_a 1 * t - coef_a 0 * u) =
    coef_a 0 * (2 ^ 64 - 1 - coef_b 1) - coef_a 1 * (2 ^ 64 - 1 - coef_b 0)) as E by nia.
  apply (f_equal (fun z => z mod 2 ^ 64)) in E. rewrite Z.mul_comm, Z.mod_mul in E by lia. vm_compute in E. done.
Qed.

Lemma sample_nonempty data o :
  0 < Z.of_nat (length data) - width_of o + 1 -> exists h, h ∈ sample_of data o.
Proof.
  intros Hn. unfold sample_of. set (H := shingle_hashes _ _ _). set (D := remove_dups H).
  assert (0 < length D)%nat as Hl.
  { assert (shingle_hash data (Z.to_nat (width_of o)) 0 ∈ D) as Hin.
    { unfold D. apply elem_of_remove_dups, list_elem_of_fmap_2, elem_of_seq. lia. }
    destruct D; [by apply not_elem_of_nil in Hin|cbn; lia]. }
  destruct (bottom (Z.to_nat MinHashSampleTarget) D) as [|x l] eqn:E; [|exists x; constructor].
  apply (f_equal length) in E. rewrite length_bottom in E. unfold MinHashSampleTarget in E. cbn in E. lia.
Qed.

(** The shingles themselves. *)
Definition shingles (data : bytes) (w : nat) : list bytes :=
  (fun i => slice data i (i + w)) <$> seq 0 (Z.to_nat (Z.of_nat (length data) - Z.of_nat w + 1)).

Lemma shingle_hashes_shingles data w :
  shingle_hashes data w (Z.to_nat (Z.of_nat (length data) - Z.of_nat w + 1)) = fnv1a64 <$> shingles data w.
Proof. unfold shingle_hashes, shingles. by rewrite <- list_fmap_compose. Qed.

(** The sample, hence the signature, is a function of the set of shingles. *)
Lemma sample_same_shingles data data' o :
  (forall s, s ∈ shingles data (Z.to_nat (width_of o)) <-> s ∈ shingles data' (Z.to_nat (width_of o))) ->
  sample_of data o = sample_of data' o.
Proof.
  intros H. unfold sample_of. pose proof (width_range o) as Hw. set (w := Z.to_nat (width_of o)) in *.
  replace (width_of o) with (Z.of_nat w) by lia. rewrite !shingle_hashes_shingles.
  apply bottom_proper, NoDup_Permutation; [apply NoDup_remove_dups..|]. intros h. rewrite !elem_of_remove_dups, !list_elem_of_fmap.
  split; intros (s & -> & Hs); exists s; (split; [done|]); by apply H.
Qed.

(** ** Persistence *)

Lemma Signature_roundtrip s b : sig_ok s -> Signature_MarshalBinary s = Ok b -> Signature_UnmarshalBinary b = Ok s.
Proof.
  intros [Hp Hl Hm]. unfold Signature_MarshalBinary, sigPermsLen, sigMinLen, MaxPermutations in *.
  rewrite Hl, Z.eqb_refl. cbn [negb]. destruct (_ >? _); [done|]. intros Eb.
  assert (b = le_put 2 (Perms s) ++ encode_words 8 (Mins s)) as -> by congruence. clear Eb.
  unfold Signature_UnmarshalBinary, sigPermsLen, sigMinLen.
  assert (length (le_put 2 (Perms s) ++ encode_words 8 (Mins s)) = (2 + 8 * length (Mins s))%nat) as Elen
    by (rewrite length_app, le_put_length, encode_words_length; done).
  rewrite Elen. rewrite (proj2 (Nat.ltb_ge _ _)) by lia.
  rewrite (get_sub_drop _ 0 2 (le_put 2 (Perms s)) (encode_words 8 (Mins s))) by (rewrite ?drop_0, ?le_put_length; done || lia).
  cbn [obind]. rewrite le_get_put, Z.mod_small by lia. unfold MaxPermutations. rewrite Z.gtb_ltb, (proj2 (Z.ltb_ge _ _)) by lia.
  rewrite <- Hl at 1. rewrite Nat2Z.id, Nat.eqb_refl. cbn [negb]. destruct (Perms s =? 0) eqn:E0; bsolve.
  - destruct s as [p mins]. cbn in *. destruct mins; [by subst|cbn in Hl; lia].
  - rewrite drop_app_length' by (by rewrite le_put_length). rewrite <- Hl, Nat2Z.id. rewrite decode_encode_words; [|lia|].
    + cbn [obind]. rewrite Hl. by destruct s.
    + eapply Forall_impl; [exact Hm|]. cbn. lia.
Qed.

Lemma Signature_decode_spec b :
  match Signature_UnmarshalBinary b with Ok s => sig_ok s | Err _ => True | Panic => False end.
Proof.
  unfold Signature_UnmarshalBinary, sigPermsLen, sigMinLen. destruct (_ <? 2)%nat eqn:E1; bsolve; [done|].
  rewrite get_sub_in by lia. cbn [obind]. pose proof (slice_get_range b 0 2 ltac:(lia)) as Hr.
  set (p := le_get _) in *. destruct (p >? _) eqn:E2; bsolve; [done|].
  destruct (_ =? _)%nat eqn:E3; bsolve; [|done]. cbn [negb]. destruct (p =? 0) eqn:E4; bsolve.
  { split; cbn; [unfold MaxPermutations; lia|done|constructor]. }
  destruct (decode_words_ok 8 (Z.to_nat p) (drop 2 b)) as (ws & -> & Hl & Hf); [rewrite length_drop; lia|]. cbn [obind].
  split; cbn [Perms Mins]; [lia|lia|]. eapply Forall_impl; [exact Hf|]. cbn. lia.
Qed.

Record sketch_ok (s : SigSketch) : Prop := {
  sk_sig : sig_ok (Sig s);
  sk_created : - 2 ^ 63 <= sk_Created s < 2 ^ 63
}.

Lemma sig_exact s : sketch_ok s -> F64.exact_int (Perms (Sig s)).
Proof. intros [[H _ _] _]. unfold MaxPermutations in H. left. lia. Qed.

Lemma sig_header_ok s : sketch_ok s -> header_ok (Sig_Header s).
Proof.
  intros H. unfold header_ok, FormatVersion. split; [done|]. split; [done|]. split; [apply u64_range|]. split; [apply H|].
  intros k v Hv. cbn [Params Sig_Header] in Hv. apply lookup_singleton_Some in Hv as [_ <-]. apply F64.of_int_range. by apply sig_exact.
Qed.

Lemma Sig_roundtrip s f : sketch_ok s -> Sig_MarshalBinary s = Ok f -> Sig_UnmarshalBinary f = Ok s.
Proof.
  intros H. unfold Sig_MarshalBinary. destruct (Signature_MarshalBinary (Sig s)) as [body| |] eqn:E; [|done|done].
  cbn [obind]. intros Hm. destruct (encode_decode _ _ _ (sig_header_ok s H) Hm) as (g & _ & Hd).
  unfold Sig_UnmarshalBinary. rewrite Hd. cbn [obind hKind stamped Sig_Header Ver]. rewrite Z.eqb_refl. cbn [negb Z.eqb FormatVersion].
  unfold Sig_decodeV1. rewrite (MustParamInt_of_int _ paramPerms (Perms (Sig s)));
    [|apply lookup_singleton_eq|by apply sig_exact|apply H]. cbn [obind].
  rewrite (Signature_roundtrip _ _ (sk_sig _ H) E). cbn [obind]. rewrite Z.eqb_refl. by destruct s.
Qed.

Lemma Sig_marshal_ok s : sketch_ok s -> exists b f, Signature_MarshalBinary (Sig s) = Ok b /\ Sig_MarshalBinary s = Ok f.
Proof.
  intros H. destruct (sk_sig _ H) as [Hp Hl _]. unfold Sig_MarshalBinary, Signature_MarshalBinary. rewrite Hl, Z.eqb_refl. cbn [negb].
  rewrite Z.gtb_ltb, (proj2 (Z.ltb_ge _ _)) by lia. cbn [obind]. eexists. unfold sigPermsLen, sigMinLen.
  destruct (encode_fits (Sig_Header s) (le_put 2 (Perms (Sig s)) ++ encode_words 8 (Mins (Sig s)))) as [f Hf];
    [by apply sig_header_ok| | | |exists f; split; [done|exact Hf]].
  - intros k v Hv. cbn [Params Sig_Header] in Hv. apply lookup_singleton_Some in Hv as [<- _]. reflexivity.
  - cbn [Params Sig_Header]. rewrite map_size_singleton. lia.
  - cbn [Params Sig_Header]. rewrite map_size_singleton, length_app, le_put_length, encode_words_length.
    unfold MaxPermutations, MaxFrameBytes in *. lia.
Qed.

#[global] Instance Sig_Laws : SketchLaws SigSketch sketch_ok.
Proof.
  split; [apply Sig_roundtrip|]. intros b. cbn. unfold Sig_UnmarshalBinary. pose proof (DecodeHeader_spec b) as Hd.
  destruct (DecodeHeader b) as [[h body]| |]; [|done|done]. cbn [obind]. destruct (negb _); [done|]. destruct (_ =? 1); [|done].
  unfold Sig_decodeV1. destruct (MustParamInt h _ _ _) eqn:E; [|done|by apply MustParamInt_no_panic in E]. cbn [obind].
  pose proof (Signature_decode_spec body) as Hs. destruct (Signature_UnmarshalBinary body); [|done|done]. cbn [obind].
  by destruct (negb _).
Qed.

(** ** Facts about similarity *)

Lemma MinHash_reference data o : MinHash data o = Ok (signature_of data o).
Proof. unfold MinHash. destruct (minHash_spec data o) as (n & -> & _). done. Qed.

Lemma Jaccard_total s t : exists j, Jaccard s t = Ok j /\ Jaccard t s = Ok j.
Proof.
  unfold Jaccard. destruct (Z.eqb_spec (Perms s) (Perms t)) as [E|E].
  2:{ exists 0. rewrite (proj2 (Z.eqb_neq (Perms t) (Perms s))) by congruence. cbn [negb]. rewrite !orb_true_r. done. }
  rewrite <- E, Z.eqb_refl. cbn [negb]. rewrite !orb_false_r. destruct (Perms s =? 0) eqn:E0; [exists 0; done|]. cbn [orb].
  destruct (Z.eqb_spec (Z.of_nat (length (Mins s))) (Perms s)); cbn [negb orb]; [|exists 0; rewrite orb_true_r; done].
  destruct (Z.eqb_spec (Z.of_nat (length (Mins t))) (Perms s)); cbn [negb orb]; [|exists 0; done].
  destruct (count_eq_ok (Mins s) (Mins t)) as (n & -> & -> & _); [lia|]. cbn [obind]. eauto.
Qed.

Lemma Jaccard_self s : sig_ok s -> Perms s <> 0 -> Jaccard s s = Ok one.
Proof.
  intros [Hp Hl _] Hne. unfold Jaccard, MaxPermutations in *. rewrite Hl, Z.eqb_refl, (proj2 (Z.eqb_neq _ _)) by done. cbn [negb orb].
  rewrite count_eq_refl. cbn [obind]. unfold len. rewrite Hl, div_self by lia. done.
Qed.

Lemma signature_nonempty data o :
  Enabled o = true -> 0 < Z.of_nat (length data) - width_of o + 1 -> signature_of data o <> signature_of [] o.
Proof.
  intros He Hn E. unfold signature_of in E. rewrite He in E. apply (f_equal Mins) in E. cbn [Mins] in E.
  destruct (sample_nonempty data o Hn) as [h Hh]. pose proof (perms_range o). pose proof (width_range o).
  assert (sample_of [] o = []) as Hnil.
  { unfold sample_of. assert (Z.to_nat (Z.of_nat (length (@nil byte)) - width_of o + 1) = 0%nat) as -> by (cbn [length]; lia). done. }
  rewrite Hnil in E. assert (forall i, (i < 16)%nat -> permuted (coef_a i) (coef_b i) h = MaxUint64) as Hmax.
  { intros i Hi. apply (f_equal (fun l => l !! i)) in E. rewrite !list_lookup_fmap, lookup_seq_lt in E by lia.
    apply Some_inj in E. destruct (proj1 (min_over_le (coef_a i) (coef_b i) (sample_of data o) MaxUint64)) as [_ Hall].
    - cbn [Nat.add] in E. rewrite E. done.
    - specialize (Hall h Hh). rewrite permuted_mod in *. unfold MaxUint64 in *.
      pose proof (Z.mod_pos_bound (coef_a i * h + coef_b i) (2 ^ 64) ltac:(lia)). lia. }
  exact (two_permutations h (Hmax 0%nat ltac:(lia)) (Hmax 1%nat ltac:(lia))).
Qed.

(** Two lists with the same members, decided. *)
Lemma set_ext_check (l l' : list bytes) :
  forallb (fun x => bool_decide (x ∈ l')) l && forallb (fun x => bool_decide (x ∈ l)) l' = true ->
  forall s, s ∈ l <-> s ∈ l'.
Proof.
  rewrite andb_true_iff, !forallb_forall. intros [H1 H2] s. split; intros Hs.
  - specialize (H1 s (proj1 (list_elem_of_In _ _) Hs)). by apply bool_decide_eq_true in H1.
  - specialize (H2 s (proj1 (list_elem_of_In _ _) Hs)). by apply bool_decide_eq_true in H2.
Qed.

(** ** Claims *)

(** C34: the sampler computes what it is defined to compute: for every document and every option set
    [MinHash] terminates, never indexes out of range, and returns the minima over the
    [MinHashSampleTarget] smallest distinct shingle hashes, whatever the seeded threshold admitted,
    however often the buffer was trimmed, and whichever hashing loop ran; and it never permutes more
    than [MinHashSampleTarget] hashes. *)
Theorem minhash_equals_reference data o :
  MinHash data o = Ok (signature_of data o) /\
  exists n, minHashWithStats data o = Ok (signature_of data o, n) /\ 0 <= n <= MinHashSampleTarget.
Proof.
  destruct (minHash_spec data o) as (n & E & Hn). split; [unfold MinHash; by rewrite E|]. exists n. done.
Qed.

(** Signatures compare as similarities of documents: [Jaccard] is total and symmetric on any two
    signatures, forged ones included; documents with the same set of shingles have the same
    signature, and a document's similarity to itself is 1; a document with at least one shingle never
    has the signature of the empty document; and a disabled (zero) signature is a near-duplicate of
    nothing, whatever the threshold. *)
Theorem minhash_similarity data data' o :
  Enabled o = true ->
  (forall s t, exists j, Jaccard s t = Ok j /\ Jaccard t s = Ok j) /\
  ((forall s, s ∈ shingles data (Z.to_nat (width_of o)) <-> s ∈ shingles data' (Z.to_nat (width_of o))) ->
     MinHash data o = MinHash data' o) /\
  (exists sig, MinHash data o = Ok sig /\ Jaccard sig sig = Ok one) /\
  (shingles data (Z.to_nat (width_of o)) <> [] -> MinHash data o <> MinHash [] o) /\
  (forall t threshold, IsNearDup (MkSignature 0 []) t threshold = Ok false).
Proof.
  intros He. split; [apply Jaccard_total|]. rewrite !MinHash_reference. split; [|split; [|split]].
  - intros H. unfold signature_of. by rewrite (sample_same_shingles data data' o H).
  - eexists. split; [done|]. apply Jaccard_self; [apply signature_ok|]. unfold signature_of. rewrite He. cbn. pose proof (perms_range o). lia.
  - intros Hne [= E]. revert E. apply signature_nonempty; [done|]. pose proof (width_range o).
    unfold shingles in Hne. rewrite Z2Nat.id in Hne by lia. destruct (Z.to_nat (_ + 1)) eqn:En in Hne; [done|lia].
  - done.
Qed.

Definition demo_options : MinHashOptions := MkOptions true 16 2 0.

Lemma minhash_similarity_witness :
  MinHash (str "abab") demo_options = MinHash (str "ababab") demo_options /\
  MinHash (str "abab") demo_options <> MinHash [] demo_options.
Proof.
  destruct (minhash_similarity (str "abab") (str "ababab") demo_options eq_refl) as (_ & H & _ & Hn & _).
  split; [|by apply Hn]. apply H. apply set_ext_check. vm_compute. reflexivity.
Defined.

(** The signature of any document survives both encodings: the compact form decodes to it, and
    the checksummed frame loads back as the same sketch. *)
Theorem signature_persists data o t :
  - 2 ^ 63 <= t < 2 ^ 63 ->
  exists sig b f, MinHash data o = Ok sig /\ Signature_MarshalBinary sig = Ok b /\ Signature_UnmarshalBinary b = Ok sig /\
    MarshalBinary (MkSigSketch sig t) = Ok f /\ UnmarshalBinary f = Ok (MkSigSketch sig t).
Proof.
  intros Ht. exists (signature_of data o). assert (sketch_ok (MkSigSketch (signature_of data o) t)) as H.
  { split; [apply signature_ok|done]. }
  destruct (Sig_marshal_ok _ H) as (b & f & Eb & Ef). exists b, f. split; [apply MinHash_reference|]. split; [done|].
  split; [by apply Signature_roundtrip; [apply signature_ok|]|]. split; [exact Ef|exact (marshal_loads _ f H Ef)].
Qed.

Lemma signature_persists_witness :
  exists sig b f, MinHash (str "abab") demo_options = Ok sig /\ Signature_MarshalBinary sig = Ok b /\
    Signature_UnmarshalBinary b = Ok sig /\ MarshalBinary (MkSigSketch sig 7) = Ok f /\
    UnmarshalBinary f = Ok (MkSigSketch sig 7).
Proof. apply (signature_persists (str "abab") demo_options 7). lia. Defined.
