(* ===== verification/Dag.v ===== *)
(** * The dependence graph: identities, nodes, edges and the in-memory store

    Models [src/internal/dag]: node identities ([nodeid.go]), the kinds and their multipliers
    ([kinds.go]), nodes and edges ([node.go], [edge.go]) and the in-memory half of [graph.go]: the
    maps of the concrete graph, validation, the merge and fold rules, and the read accessors.  The
    position index, the scored walk, the log and the builders are in the files that follow.

    Go [int]s are [Z]; a [NodeID] is its bytes; [map[NodeID]bool] with only [true] entries is a set. *)

From S2P Require Import Prelude GoLib Core Frame F32 Utf8 Strconv.

Inductive dag_error := ErrInvalidNode | ErrInvalidEdge | ErrClosed | ErrIO | ErrContext.

#[global] Instance dag_error_eq_dec : EqDecision dag_error.
Proof. solve_decision. Defined.

(** ** Kinds ([node.go], [edge.go], [kinds.go]) *)

Definition KindToolUse : Z := 0.
Definition KindToolResult : Z := 1.
Definition KindAssistant : Z := 2.
Definition KindUserPrompt : Z := 3.
Definition KindFile : Z := 4.
Definition KindSymbol : Z := 5.
Definition KindDecision : Z := 6.
Definition KindElimination : Z := 7.
Definition KindSegment : Z := 8.
Definition KindInvalid : Z := 9.

Definition EdgeSequence : Z := 0.
Definition EdgeProduces : Z := 1.
Definition EdgeConsumes : Z := 2.
Definition EdgeSharedFile : Z := 3.
Definition EdgeSharedSymbol : Z := 4.
Definition EdgeSupersedes : Z := 5.
Definition EdgeExplains : Z := 6.
Definition EdgeControlOnly : Z := 7.
Definition EdgeInvalid : Z := 8.

Definition invalidKindName : bytes := str "invalid".

Definition nodeKindNames : list bytes :=
  [str "tool_use"; str "tool_result"; str "assistant"; str "user_prompt"; str "file"; str "symbol";
   str "decision"; str "elimination"; str "segment"; invalidKindName].
Definition edgeKindNames : list bytes :=
  [str "seq"; str "produces"; str "consumes"; str "shared_file"; str "shared_symbol";
   str "supersedes"; str "explains"; str "control"; invalidKindName].

(** [edgeKindMultipliers], as the compiler rounds the constants. *)
Definition edgeKindMultipliers : list f32 := Eval vm_compute in
  [F32.of_ratio 60 100; F32.of_ratio 1 1; F32.of_ratio 1 1; F32.of_ratio 88 100; F32.of_ratio 95 100;
   F32.of_ratio 30 100; F32.of_ratio 1 1; F32.of_ratio 50 100; F32.of_ratio 0 1].

(** A table indexed by a [uint8] kind, with the value for kinds past its end. *)
Definition table_at {A} (t : list A) (d : A) (k : Z) : A := nth (Z.to_nat k) t d.

Definition NodeKind_String (k : Z) : bytes := table_at nodeKindNames invalidKindName k.
Definition EdgeKind_String (k : Z) : bytes := table_at edgeKindNames invalidKindName k.
Definition Multiplier (k : Z) : f32 := table_at edgeKindMultipliers F32.zero k.

(** The index of the first entry equal to [s]: the inverse map [init] builds, sentinel excluded. *)
Fixpoint index_of (t : list bytes) (s : bytes) (i : Z) : option Z :=
  match t with
  | [] => None
  | x :: t => if bool_decide (x = s) then Some i else index_of t s (i + 1)
  end.

Definition ParseNodeKind (s : bytes) : option Z := index_of (take 9 nodeKindNames) s 0.
Definition ParseEdgeKind (s : bytes) : option Z := index_of (take 8 edgeKindNames) s 0.

(** ** Node identities ([nodeid.go]) *)

Definition nodeIDSep : byte := ":"%byte.
Definition symbolSep : byte := "#"%byte.
Definition keyHashSep : byte := "~"%byte.
Definition nodeIDHashDomain : bytes := str "qompack.dag.nodeid".
Definition maxKeyBytes : nat := 384.
Definition keyHeadBytes : nat := 360.
Definition sanitizeReplacement : byte := "_"%byte.

Definition nodeKindPrefixes : list bytes :=
  [str "tooluse"; str "toolresult"; str "assistant"; str "userprompt"; str "file"; str "symbol";
   str "decision"; str "elimination"; str "segment"; []].

Definition prefixOf (k : Z) : bytes := table_at nodeKindPrefixes [] k.
Definition kindOfPrefix (p : bytes) : option Z := index_of (take 9 nodeKindPrefixes) p 0.

Definition sanitize_byte (c : byte) : byte :=
  if (b2z c <? 0x20) || (b2z c =? 0x7F) then sanitizeReplacement else c.

Definition sanitizeKey (k : bytes) : bytes :=
  let s := ToValidUTF8 (map sanitize_byte k) [sanitizeReplacement] in
  if (length s <=? maxKeyBytes)%nat then s
  else take (back_off s keyHeadBytes) s ++ [keyHashSep] ++ Hash_Short (HashBytes nodeIDHashDomain s).

Definition newNodeID (k : Z) (key : bytes) : bytes := prefixOf k ++ [nodeIDSep] ++ sanitizeKey key.

Definition ToolUseNode (id : bytes) : bytes := newNodeID KindToolUse id.
Definition ToolResultNode (id : bytes) : bytes := newNodeID KindToolResult id.
Definition AssistantNode (t : Z) : bytes := newNodeID KindAssistant (Itoa t).
Definition UserPromptNode (t : Z) : bytes := newNodeID KindUserPrompt (Itoa t).
Definition FileNode (pathKey : bytes) : bytes := newNodeID KindFile pathKey.
Definition SymbolNode (pathKey name : bytes) : bytes := newNodeID KindSymbol (pathKey ++ [symbolSep] ++ name).
Definition DecisionNode (id : bytes) : bytes := newNodeID KindDecision id.
Definition EliminationNode (id : bytes) : bytes := newNodeID KindElimination id.
Definition SegmentNode (id : Z) : bytes := newNodeID KindSegment (Itoa id).

(** [strings.Cut] on one byte. *)
Fixpoint cut (s : bytes) (sep : byte) : option (bytes * bytes) :=
  match s with
  | [] => None
  | b :: s => if bool_decide (b = sep) then Some ([], s)
              else match cut s sep with Some (p, k) => Some (b :: p, k) | None => None end
  end.

Definition ParseNodeID (id : bytes) : option (Z * bytes) :=
  match cut id nodeIDSep with
  | Some (prefix, key) =>
      if bool_decide (key = []) then None
      else match kindOfPrefix prefix with Some k => Some (k, key) | None => None end
  | None => None
  end.

(** ** Nodes, edges, log records *)

Record Node := MkNode {
  nID : bytes; nKind : Z; nTurn : Z; nTS : Z; nPos : Z; nRef : bytes; nRoot : Hash;
  nTokens : Z; nEphemeral : bool
}.

Record Edge := MkEdge { eFrom : bytes; eTo : bytes; eKind : Z; eWeight : f32; eTurn : Z }.

#[global] Instance Node_eq_dec : EqDecision Node.
Proof. solve_decision. Defined.
#[global] Instance Edge_eq_dec : EqDecision Edge.
Proof. solve_decision. Defined.

(** One line of the log: what its kind makes meaningful of the record struct. *)
Inductive record :=
  | recNode (n : Node)
  | recEdge (e : Edge)
  | recTomb (id : bytes) (ts : Z)
  | recGen (gen ts : Z).

Abbreviation edgeKey := (bytes * bytes * Z)%type.
Definition key_of (e : Edge) : edgeKey := (eFrom e, eTo e, eKind e).

(** The maps of the concrete graph. *)
Record memory := MkMemory {
  nodes : gmap bytes Node;
  edges : list Edge;
  out : gmap bytes (list nat);
  inn : gmap bytes (list nat);
  edgeIdx : gmap edgeKey nat;
  dead : gset bytes
}.

Definition empty_memory : memory := MkMemory ∅ [] ∅ ∅ ∅ ∅.

(** ** Validation and merging ([graph.go]) *)

Definition validateNode (n : Node) : bool :=
  match ParseNodeID (nID n) with
  | Some (kind, _) => (kind =? nKind n) && (nPos n >=? 0) && (nTokens n >=? 0)
  | None => false
  end.

Definition isAnchorKind (k : Z) : bool := (k =? KindFile) || (k =? KindSymbol) || (k =? KindSegment).

Definition earliest (prev incoming : Z) : Z :=
  if incoming =? 0 then prev
  else if prev =? 0 then incoming
  else if incoming <? prev then incoming else prev.

(** A non-zero incoming field, or what was there. *)
Definition supplied (prev incoming : Z) : Z := if incoming =? 0 then prev else incoming.

Definition mergeNode (prev incoming : Node) : Node :=
  let anchor := isAnchorKind (nKind incoming) in
  {| nID := nID prev;
     nKind := nKind incoming;
     nTurn := if anchor then earliest (nTurn prev) (nTurn incoming) else supplied (nTurn prev) (nTurn incoming);
     nTS := supplied (nTS prev) (nTS incoming);
     nPos := if anchor then earliest (nPos prev) (nPos incoming) else supplied (nPos prev) (nPos incoming);
     nRef := if bool_decide (nRef incoming = []) then nRef prev else nRef incoming;
     nRoot := if Hash_IsZero (nRoot incoming) then nRoot prev else nRoot incoming;
     nTokens := supplied (nTokens prev) (nTokens incoming);
     nEphemeral := nEphemeral prev || nEphemeral incoming |}.

Definition set_weight (w : f32) (e : Edge) : Edge := MkEdge (eFrom e) (eTo e) (eKind e) w (eTurn e).
Definition set_turn (t : Z) (e : Edge) : Edge := MkEdge (eFrom e) (eTo e) (eKind e) (eWeight e) t.

(** [validateEdge]: the normalized edge, or the refusal. *)
Definition validateEdge (e : Edge) : option Edge :=
  match ParseNodeID (eFrom e), ParseNodeID (eTo e) with
  | Some _, Some _ =>
      if bool_decide (eFrom e = eTo e) then None
      else if eKind e >? EdgeControlOnly then None
      else if F32.isNaN (eWeight e) || F32.isInf (eWeight e) then None
      else Some (if F32.leb (eWeight e) F32.zero || F32.gtb (eWeight e) F32.one then set_weight F32.one e else e)
  | _, _ => None
  end.

(** [AddNode]'s update of the maps: what is stored, and the merged node it logs. *)
Definition merged_node (m : memory) (n : Node) : Node :=
  match nodes m !! nID n with Some prev => mergeNode prev n | None => n end.

Definition store_node (m : memory) (n : Node) : memory :=
  MkMemory (<[nID n := merged_node m n]> (nodes m)) (edges m) (out m) (inn m) (edgeIdx m) (dead m ∖ {[nID n]}).

(** Appending an index to an adjacency list. *)
Definition push_index (a : gmap bytes (list nat)) (id : bytes) (i : nat) : gmap bytes (list nat) :=
  <[id := default [] (a !! id) ++ [i]]> a.

(** The fold of a re-emitted edge into the stored one: the larger weight, the smaller turn. *)
Definition fold_edge (old e : Edge) : Edge :=
  let w := if F32.gtb (eWeight e) (eWeight old) then eWeight e else eWeight old in
  let t := if eTurn e <? eTurn old then eTurn e else eTurn old in
  MkEdge (eFrom old) (eTo old) (eKind old) w t.
Definition fold_changes (old e : Edge) : bool :=
  F32.gtb (eWeight e) (eWeight old) || (eTurn e <? eTurn old).

(** Appending a new edge to the slice, the adjacency lists and the identity map. *)
Definition append_edge (m : memory) (e : Edge) : memory :=
  let idx := length (edges m) in
  MkMemory (nodes m) (edges m ++ [e]) (push_index (out m) (eFrom e) idx) (push_index (inn m) (eTo e) idx)
    (<[key_of e := idx]> (edgeIdx m)) (dead m).

Definition set_edge (m : memory) (i : nat) (e : Edge) : memory :=
  MkMemory (nodes m) (<[i := e]> (edges m)) (out m) (inn m) (edgeIdx m) (dead m).

(** [AddEdge]'s update of the maps by a normalized edge, and the record it logs, if any.  The index
    [edgeIdx] holds is in range in every reachable graph ([wf]); out of range Go would panic. *)
Definition store_edge (m : memory) (e : Edge) : memory * option Edge :=
  match edgeIdx m !! key_of e with
  | Some i =>
      match edges m !! i with
      | Some old => if fold_changes old e then (set_edge m i (fold_edge old e), Some (fold_edge old e)) else (m, None)
      | None => (m, None)
      end
  | None => (append_edge m e, Some e)
  end.

Definition kill (m : memory) (id : bytes) : memory :=
  MkMemory (nodes m) (edges m) (out m) (inn m) (edgeIdx m) (dead m ∪ {[id]}).

(** ** Accessors *)

Definition liveb (m : memory) (id : bytes) : bool :=
  if bool_decide (id ∈ dead m) then false else bool_decide (is_Some (nodes m !! id)).

(** [Node] on an open graph. *)
Definition node_of (m : memory) (id : bytes) : option Node :=
  if bool_decide (id ∈ dead m) then None else nodes m !! id.

(** [adjacentLocked]. *)
Definition adjacent (m : memory) (id : bytes) (backward : bool) : list nat :=
  default [] ((if backward then inn m else out m) !! id).

Definition edge_visible (m : memory) (e : Edge) : bool :=
  negb (bool_decide (eFrom e ∈ dead m) || bool_decide (eTo e ∈ dead m)).

(** [incident], the body of [Out] and [In], on an open graph. *)
Definition incident (m : memory) (id : bytes) (backward : bool) : list Edge :=
  if bool_decide (id ∈ dead m) then []
  else List.filter (edge_visible m) (omap (fun i => edges m !! i) (adjacent m id backward)).

(** [danglingLocked]. *)
Definition dangling (m : memory) (e : Edge) : bool := negb (liveb m (eFrom e)) || negb (liveb m (eTo e)).
Definition danglingLocked (m : memory) : nat := length (List.filter (dangling m) (edges m)).

(** ** Node identities: lemmas *)

Definition plain_byte (b : byte) : bool := negb ((b2z b <? 0x20) || (b2z b =? 0x7F)).

(** What a sanitized key looks like: valid UTF-8, no control byte, bounded. *)
Record clean_key (s : bytes) : Prop := {
  ck_utf8 : runes s;
  ck_plain : Forall (fun b => plain_byte b = true) s;
  ck_len : (length s <= maxKeyBytes)%nat
}.

Lemma sanitize_byte_plain c : plain_byte (sanitize_byte c) = true.
Proof.
  unfold sanitize_byte, plain_byte. destruct ((b2z c <? 32) || (b2z c =? 127)) eqn:E; [done|]. by rewrite E.
Qed.

Lemma sanitize_byte_id c : plain_byte c = true -> sanitize_byte c = c.
Proof. unfold sanitize_byte, plain_byte. intros H. apply negb_true_iff in H. by rewrite H. Qed.

Lemma map_sanitize_id s : Forall (fun b => plain_byte b = true) s -> map sanitize_byte s = s.
Proof. induction 1 as [|b s Hb _ IH]; [done|]. cbn. by rewrite sanitize_byte_id, IH. Qed.

Lemma hex_digits_ascii s b : b ∈ Hex.encode s -> between 0x20 0x7E b = true.
Proof.
  unfold Hex.encode. rewrite list_elem_of_In, in_flat_map. intros (c & _ & Hb).
  assert (Hd : forall n, 0 <= n < 16 -> between 0x20 0x7E (Hex.digit n) = true).
  { intros n Hn. assert (Forall (fun b => between 0x20 0x7E b = true) Hex.digits) as HF by (repeat constructor).
    rewrite Forall_forall in HF. apply HF. rewrite list_elem_of_In. apply nth_In. cbn. lia. }
  pose proof (b2z_range c). pose proof (Z.mod_pos_bound (b2z c) 16 ltac:(lia)).
  assert (0 <= b2z c / 16 < 16) by (split; [apply Z.div_pos|apply Z.div_lt_upper_bound]; lia).
  destruct Hb as [<-|[<-|[]]]; apply Hd; lia.
Qed.

Lemma hash_short_ascii h : Forall (fun b => between 0x20 0x7E b = true) (Hash_Short h).
Proof.
  apply Forall_forall. intros b Hb. unfold Hash_Short in Hb. apply elem_of_take in Hb as (i & Hi & _).
  eapply hex_digits_ascii. by eapply list_elem_of_lookup_2.
Qed.

Lemma ascii_weaken s : Forall (fun b => between 0x20 0x7E b = true) s ->
  Forall (fun b => between 0 0x7F b = true) s /\ Forall (fun b => plain_byte b = true) s.
Proof.
  intros H. split; eapply Forall_impl; try exact H; intros b Hb; unfold between, plain_byte in *; bsolve.
  - apply andb_true_intro. split; apply Z.leb_le; lia.
  - apply negb_true_iff, orb_false_intro; [apply Z.ltb_ge|apply Z.eqb_neq]; lia.
Qed.

Lemma repaired_clean k : let s := ToValidUTF8 (map sanitize_byte k) [sanitizeReplacement] in
  runes s /\ Forall (fun b => plain_byte b = true) s.
Proof.
  intros s. split.
  - apply to_valid_runes, runes_ascii. by repeat constructor.
  - apply Forall_forall. intros b [Hb|Hb]%to_valid_bytes.
    + apply list_elem_of_fmap in Hb as (c & -> & _). apply sanitize_byte_plain.
    + apply list_elem_of_singleton in Hb as ->. done.
Qed.

Lemma sanitizeKey_clean k : clean_key (sanitizeKey k).
Proof.
  unfold sanitizeKey. destruct (repaired_clean k) as [Hr Hp].
  set (s := ToValidUTF8 _ _) in *. destruct (length s <=? maxKeyBytes)%nat eqn:E; bsolve; [by split|].
  destruct (ascii_weaken _ (hash_short_ascii (HashBytes nodeIDHashDomain s))) as [Ha Hq]. split.
  - apply runes_app; [by apply runes_back_off|]. apply runes_app; apply runes_ascii; [by repeat constructor|done].
  - apply Forall_app. split; [by apply Forall_take|]. apply Forall_app. split; [by repeat constructor|done].
  - rewrite !length_app, length_take. pose proof (back_off_le s keyHeadBytes). unfold Hash_Short.
    rewrite length_take. unfold maxKeyBytes, keyHeadBytes in *. cbn [length]. lia.
Qed.

Lemma sanitizeKey_fixed s : clean_key s -> sanitizeKey s = s.
Proof.
  intros [Hr Hp Hl]. unfold sanitizeKey. rewrite map_sanitize_id by done.
  unfold ToValidUTF8. rewrite to_valid_id by done. by rewrite (proj2 (Nat.leb_le _ _) Hl).
Qed.

Lemma to_valid_nonempty s rep : rep <> [] -> s <> [] -> ToValidUTF8 s rep <> [].
Proof.
  intros Hrep Hs. destruct s as [|x s]; [done|]. unfold ToValidUTF8. cbn [length to_valid].
  destruct (rune_width (x :: s) =? 0)%nat eqn:E; bsolve; [by destruct rep|].
  destruct (rune_width (x :: s)); done.
Qed.

Lemma sanitizeKey_nonempty k : k <> [] -> sanitizeKey k <> [].
Proof.
  intros Hk. unfold sanitizeKey. case_match; [|by intros [_ ?]%app_eq_nil].
  apply to_valid_nonempty; [done|]. by destruct k.
Qed.

Lemma cut_app p k sep : sep ∉ p -> cut (p ++ [sep] ++ k) sep = Some (p, k).
Proof.
  induction p as [|b p IH]; intros Hp; cbn [app cut]; [by rewrite bool_decide_true|].
  apply not_elem_of_cons in Hp as [Hb Hp]. rewrite bool_decide_false by congruence. cbn [app] in IH. by rewrite IH.
Qed.

(** Every real kind has its prefix, without a separator in it. *)
Lemma prefix_table k : 0 <= k < KindInvalid -> (nodeIDSep ∉ prefixOf k) /\ kindOfPrefix (prefixOf k) = Some k.
Proof.
  intros Hk. assert (Forall (fun i => (nodeIDSep ∉ prefixOf (Z.of_nat i)) /\ kindOfPrefix (prefixOf (Z.of_nat i)) = Some (Z.of_nat i)) (seq 0 9)) as HF.
  { repeat (constructor; [split; [|vm_compute; done]; eapply (bool_decide_unpack _); vm_compute; done|]). constructor. }
  rewrite Forall_forall in HF. specialize (HF (Z.to_nat k)). rewrite Z2Nat.id in HF by lia.
  apply HF, elem_of_seq. unfold KindInvalid in Hk. lia.
Qed.

Lemma ParseNodeID_newNodeID k key : 0 <= k < KindInvalid -> key <> [] ->
  ParseNodeID (newNodeID k key) = Some (k, sanitizeKey key).
Proof.
  intros Hk Hne. destruct (prefix_table k Hk) as [Hs Hp]. unfold ParseNodeID, newNodeID.
  rewrite cut_app by done. rewrite bool_decide_false by (by apply sanitizeKey_nonempty). by rewrite Hp.
Qed.

Lemma newNodeID_inj k k' key key' : 0 <= k < KindInvalid -> 0 <= k' < KindInvalid ->
  newNodeID k key = newNodeID k' key' -> k = k' /\ sanitizeKey key = sanitizeKey key'.
Proof.
  intros Hk Hk' H. destruct (prefix_table k Hk) as [Hs Hp], (prefix_table k' Hk') as [Hs' Hp'].
  pose proof (f_equal (fun s => cut s nodeIDSep) H) as HC. unfold newNodeID in HC. rewrite !cut_app in HC by done.
  injection HC as HC ->. rewrite HC, Hp' in Hp. by injection Hp.
Qed.

(** ** The invariant of the maps

    The adjacency lists and the identity map are functions of the edge slice; every stored node and
    edge has passed validation; no edge identity is stored twice. *)

Definition indexed (es : list Edge) : list (nat * Edge) := imap pair es.

Definition build_adj (f : Edge -> bytes) (es : list Edge) : gmap bytes (list nat) :=
  fold_left (fun a p => push_index a (f p.2) p.1) (indexed es) ∅.

Definition build_idx (es : list Edge) : gmap edgeKey nat :=
  fold_left (fun a p => <[key_of p.2 := p.1]> a) (indexed es) ∅.

(** A normalized edge: what [validateEdge] returns. *)
Record normal (e : Edge) : Prop := {
  nm_from : is_Some (ParseNodeID (eFrom e));
  nm_to : is_Some (ParseNodeID (eTo e));
  nm_loop : eFrom e <> eTo e;
  nm_kind : eKind e <= EdgeControlOnly;
  nm_weight : F32.score (eWeight e) /\ 0 < F32.mag (eWeight e)
}.

Record wf (m : memory) : Prop := {
  wf_nodes : map_Forall (fun id n => nID n = id /\ validateNode n = true) (nodes m);
  wf_edges : Forall normal (edges m);
  wf_keys : NoDup (key_of <$> edges m);
  wf_out : out m = build_adj eFrom (edges m);
  wf_in : inn m = build_adj eTo (edges m);
  wf_idx : edgeIdx m = build_idx (edges m)
}.

Lemma indexed_snoc es e : indexed (es ++ [e]) = indexed es ++ [(length es, e)].
Proof. unfold indexed. rewrite imap_app. cbn. by rewrite Nat.add_0_r. Qed.

Lemma indexed_elem es i e : (i, e) ∈ indexed es <-> es !! i = Some e.
Proof.
  unfold indexed. rewrite elem_of_lookup_imap. split.
  - intros (j & x & [= -> ->] & H). done.
  - intros H. eauto.
Qed.

Lemma build_adj_snoc f es e : build_adj f (es ++ [e]) = push_index (build_adj f es) (f e) (length es).
Proof. unfold build_adj. rewrite indexed_snoc, fold_left_app. done. Qed.

Lemma build_idx_snoc es e : build_idx (es ++ [e]) = <[key_of e := length es]> (build_idx es).
Proof. unfold build_idx. rewrite indexed_snoc, fold_left_app. done. Qed.

Lemma push_index_lookup a id i x :
  default [] (push_index a id i !! x) = if decide (id = x) then default [] (a !! x) ++ [i] else default [] (a !! x).
Proof. unfold push_index. case_decide; [subst; by rewrite lookup_insert_eq|by rewrite lookup_insert_ne]. Qed.

(** The adjacency list of a node holds exactly the indices of its edges. *)
Lemma build_adj_elem f es id i :
  i ∈ default [] (build_adj f es !! id) <-> exists e, es !! i = Some e /\ f e = id.
Proof.
  induction es as [|e es IH] using rev_ind.
  { change (i ∈ default [] ((∅ : gmap bytes (list nat)) !! id) <-> exists e, ([] : list Edge) !! i = Some e /\ f e = id).
    rewrite lookup_empty. cbn. rewrite lookup_nil. split; [by intros ?%elem_of_nil|by intros (? & ? & ?)]. }
  rewrite build_adj_snoc, push_index_lookup.
  assert (Hs : (exists x, (es ++ [e]) !! i = Some x /\ f x = id) <->
               (exists x, es !! i = Some x /\ f x = id) \/ i = length es /\ f e = id).
  { setoid_rewrite lookup_snoc_Some. split.
    - intros (x & [[_ H]|[-> ->]] & Hf); [left; eauto|right; eauto].
    - intros [(x & H & Hf)|[-> Hf]]; [|eauto]. exists x. split; [|done]. left. split; [by eapply lookup_lt_Some|done]. }
  rewrite Hs. case_decide; [rewrite elem_of_app, list_elem_of_singleton|]; rewrite IH; naive_solver.
Qed.

Lemma build_idx_lookup es k i : NoDup (key_of <$> es) ->
  build_idx es !! k = Some i <-> exists e, es !! i = Some e /\ key_of e = k.
Proof.
  induction es as [|e es IH] using rev_ind; intros Hnd.
  { change (((∅ : gmap edgeKey nat) !! k = Some i) <-> exists e, ([] : list Edge) !! i = Some e /\ key_of e = k).
    rewrite lookup_empty, lookup_nil. split; [done|by intros (? & ? & ?)]. }
  rewrite build_idx_snoc. rewrite fmap_app in Hnd. apply NoDup_app in Hnd as (Hnd & Hd & _).
  setoid_rewrite lookup_snoc_Some. destruct (decide (key_of e = k)) as [<-|Hne].
  - rewrite lookup_insert_eq. split; [intros [= <-]; eauto|].
    intros (x & [[_ Hx]|[-> ->]] & Hk); [|done]. exfalso.
    apply (Hd (key_of x)); [by apply list_elem_of_fmap_2, list_elem_of_lookup_2 in Hx || (apply list_elem_of_fmap; eauto using list_elem_of_lookup_2)|].
    cbn. rewrite Hk. by apply list_elem_of_singleton.
  - rewrite lookup_insert_ne, IH by done. split; [intros (x & H & Hk)|intros (x & [[_ H]|[-> ->]] & Hk)].
    + exists x. split; [|done]. left. split; [by eapply lookup_lt_Some|done].
    + eauto.
    + done.
Qed.

(** Updating a stored edge without changing its identity. *)
Lemma indexed_insert es i e : (i < length es)%nat -> indexed (<[i := e]> es) = <[i := (i, e)]> (indexed es).
Proof.
  intros Hi. apply list_eq. intros j. unfold indexed. rewrite list_lookup_imap.
  destruct (decide (i = j)) as [<-|].
  - rewrite !list_lookup_insert_eq; [done|by rewrite length_imap|done].
  - rewrite !list_lookup_insert_ne by done. by rewrite list_lookup_imap.
Qed.

Lemma fold_indexed_insert {B} (h : B -> nat * Edge -> B) es i old e b :
  es !! i = Some old -> (forall b, h b (i, e) = h b (i, old)) ->
  fold_left h (indexed (<[i := e]> es)) b = fold_left h (indexed es) b.
Proof.
  intros Hi Hh. pose proof (lookup_lt_Some _ _ _ Hi) as Hl. rewrite indexed_insert by done.
  assert (Hix : indexed es !! i = Some (i, old)) by (unfold indexed; by rewrite list_lookup_imap, Hi).
  rewrite insert_take_drop by (unfold indexed; by rewrite length_imap).
  rewrite <- (take_drop_middle _ _ _ Hix) at 3.
  rewrite !fold_left_app. cbn [fold_left]. by rewrite Hh.
Qed.

Lemma build_insert es i old e : es !! i = Some old -> key_of e = key_of old ->
  build_adj eFrom (<[i := e]> es) = build_adj eFrom es /\ build_adj eTo (<[i := e]> es) = build_adj eTo es /\
  build_idx (<[i := e]> es) = build_idx es /\ key_of <$> <[i := e]> es = key_of <$> es.
Proof.
  intros Hi Hk. assert (Hft : eFrom e = eFrom old /\ eTo e = eTo old) by (unfold key_of in Hk; split; congruence).
  destruct Hft as [Hf Ht]. unfold build_adj, build_idx.
  split_and!; [eapply fold_indexed_insert; [done|]; intros b; cbn; congruence..|].
  rewrite list_fmap_insert. apply list_insert_id. by rewrite list_lookup_fmap, Hi, Hk.
Qed.

(** ** The updates preserve the invariant *)

Lemma validateEdge_spec e e' : F32.wellformed (eWeight e) -> validateEdge e = Some e' ->
  normal e' /\ key_of e' = key_of e /\ eTurn e' = eTurn e.
Proof.
  intros Hw. unfold validateEdge. destruct (ParseNodeID (eFrom e)) eqn:Ef; [|done].
  destruct (ParseNodeID (eTo e)) eqn:Et; [|done]. case_bool_decide as Hl; [done|].
  destruct (eKind e >? EdgeControlOnly) eqn:Ek; bsolve; [done|].
  destruct (eWeight e) as [| |sg v] eqn:Ew; [done..|]. cbn [F32.isNaN F32.isInf orb].
  cbn in Hw. destruct Hw as [Hv Hr].
  destruct (F32.leb (Fin sg v) F32.zero || F32.gtb (Fin sg v) F32.one) eqn:Ec; intros [= <-].
  - split; [|done]. split; cbn; eauto; try lia. split; [apply F32.score_one|]. cbn. unfold F32.unit_one. lia.
  - split; [|done]. split; eauto; try lia. rewrite Ew. apply orb_false_elim in Ec as [E1 E2].
    unfold F32.leb, F32.gtb, F32.cmp, F32.zero, F32.one, F32.signed in E1, E2.
    destruct sg.
    + destruct (Z.compare_spec (- v) 0); try done; lia.
    + destruct (Z.compare_spec v 0); try done. destruct (Z.compare_spec v F32.unit_one); try done;
        (split; [exists v; split; [done|]; split; [lia|done]|cbn; lia]).
Qed.

Lemma validateEdge_normal e : normal e -> validateEdge e = Some e.
Proof.
  intros [[[] Hf] [[] Ht] Hl Hk [(v & Hv & Hr & _) Hp]]. unfold validateEdge. rewrite Hf, Ht.
  rewrite bool_decide_false by done. destruct (eKind e >? EdgeControlOnly) eqn:Ek; bsolve; [lia|].
  rewrite Hv in *. cbn [F32.isNaN F32.isInf orb F32.mag] in *. unfold F32.leb, F32.gtb, F32.cmp, F32.zero, F32.one, F32.signed.
  destruct (Z.compare_spec v 0); try lia. destruct (Z.compare_spec v F32.unit_one); try lia; done.
Qed.

Lemma normal_wellformed e : normal e -> F32.wellformed (eWeight e).
Proof. intros [_ _ _ _ [(v & -> & Hv & Hr) _]]. cbn. pose proof F32.unit_one_pos. split; [lia|done]. Qed.

Lemma fold_edge_key old e : key_of (fold_edge old e) = key_of old.
Proof. done. Qed.

Lemma fold_edge_normal old e : normal old -> normal e -> normal (fold_edge old e).
Proof.
  intros [] []. unfold fold_edge. split; cbn; try done. by case_match.
Qed.

(** Folding what was folded changes nothing: re-reading a logged edge is harmless. *)
Lemma fold_edge_again old e : normal old -> normal e ->
  fold_changes (fold_edge old e) (fold_edge old e) = false.
Proof.
  intros Ho He. pose proof (nm_weight _ (fold_edge_normal old e Ho He)) as [Hs _].
  unfold fold_changes. rewrite F32.score_gtb, !Z.ltb_irrefl by done. done.
Qed.

Lemma mergeNode_valid prev n : validateNode prev = true -> validateNode n = true -> nID prev = nID n ->
  validateNode (mergeNode prev n) = true.
Proof.
  unfold validateNode, mergeNode. cbn [nID nKind nPos nTokens]. intros Hp Hn Hid. rewrite Hid in *.
  destruct (ParseNodeID (nID n)) as [[k key]|]; [|done]. bsolve.
  assert (0 <= supplied (nTokens prev) (nTokens n)) by (unfold supplied; case_match; lia).
  assert (0 <= supplied (nPos prev) (nPos n)) by (unfold supplied; case_match; lia).
  assert (0 <= earliest (nPos prev) (nPos n)) by (unfold earliest; repeat case_match; lia).
  rewrite !andb_true_iff, !Z.geb_le, Z.eqb_eq. split; [split; [lia|case_match; lia]|lia].
Qed.

Lemma wf_empty : wf empty_memory.
Proof. split; cbn; try done; constructor. Qed.

Lemma store_node_wf m n : wf m -> validateNode n = true -> wf (store_node m n).
Proof.
  intros [] Hn. split; cbn; try done. apply map_Forall_insert_2; [|done]. unfold merged_node.
  destruct (nodes m !! nID n) as [prev|] eqn:E; [|done]. destruct (wf_nodes0 _ _ E) as [Hid Hv].
  split; [done|]. by apply mergeNode_valid.
Qed.

Lemma edgeIdx_key m e : wf m -> edgeIdx m !! key_of e = None -> key_of e ∉ (key_of <$> edges m).
Proof.
  intros W Hn (x & Hk & Hx)%list_elem_of_fmap. apply list_elem_of_lookup in Hx as [i Hi].
  rewrite (wf_idx _ W) in Hn. assert (build_idx (edges m) !! key_of e = Some i) by (apply build_idx_lookup; [apply W|eauto]).
  congruence.
Qed.

Lemma append_edge_wf m e : wf m -> normal e -> edgeIdx m !! key_of e = None -> wf (append_edge m e).
Proof.
  intros W He Hn. pose proof (edgeIdx_key m e W Hn) as Hk. destruct W. split; unfold append_edge; cbn [nodes edges out inn edgeIdx]; try done.
  - apply Forall_app. split; [done|by apply Forall_singleton].
  - rewrite fmap_app. apply NoDup_app. split; [done|]. split; [|apply NoDup_singleton].
    intros x Hx Hx'. apply list_elem_of_singleton in Hx'. by subst.
  - by rewrite build_adj_snoc, wf_out0.
  - by rewrite build_adj_snoc, wf_in0.
  - by rewrite build_idx_snoc, wf_idx0.
Qed.

Lemma set_edge_wf m i old e : wf m -> edges m !! i = Some old -> normal e -> key_of e = key_of old -> wf (set_edge m i e).
Proof.
  intros [] Hi He Hk. destruct (build_insert _ _ _ _ Hi Hk) as (H1 & H2 & H3 & H4).
  split; unfold set_edge; cbn [nodes edges out inn edgeIdx]; try congruence;
    [done|by apply Forall_insert].
Qed.

(** The three ways [store_edge] can go in a well-formed memory. *)
Lemma store_edge_cases m e : wf m -> normal e ->
  (edgeIdx m !! key_of e = None /\ store_edge m e = (append_edge m e, Some e)) \/
  (exists i old, edgeIdx m !! key_of e = Some i /\ edges m !! i = Some old /\ key_of old = key_of e /\ normal old /\
     ((fold_changes old e = true /\ store_edge m e = (set_edge m i (fold_edge old e), Some (fold_edge old e))) \/
      (fold_changes old e = false /\ store_edge m e = (m, None)))).
Proof.
  intros W He. unfold store_edge. destruct (edgeIdx m !! key_of e) as [i|] eqn:E; [right|by left].
  pose proof E as E'. rewrite (wf_idx _ W) in E'. apply build_idx_lookup in E' as (old & Hi & Hk); [|apply W].
  exists i, old. rewrite Hi. split_and!; try done; [by eapply (Forall_lookup_1 _ _ _ _ (wf_edges _ W))|].
  destruct (fold_changes old e); eauto.
Qed.

Lemma store_edge_wf m e : wf m -> normal e -> wf (store_edge m e).1.
Proof.
  intros W He. destruct (store_edge_cases m e W He) as [[Hn ->]|(i & old & _ & Hi & Hk & Ho & [[_ ->]|[_ ->]])]; cbn.
  - by apply append_edge_wf.
  - eapply set_edge_wf; eauto using fold_edge_normal.
  - done.
Qed.

Lemma kill_wf m id : wf m -> wf (kill m id).
Proof. by intros []. Qed.

#[export] Hint Resolve wf_empty store_node_wf store_edge_wf kill_wf append_edge_wf fold_edge_normal : qompack.
