(* ===== verification/DagIndex.v ===== *)
(** * The dependence graph: the position index

    Models [src/internal/dag/index.go] and the state of the concrete graph around the maps
    ([graph.go], [stats.go]): the lazily rebuilt position index, [CrossingEdges] and [NodesAfter]
    with their binary searches, and [Stats].  The two counting queries are proved equal to their
    definitions over the live edges and nodes. *)

From S2P Require Import Prelude GoLib Core Frame Select F32 Dag.

(** ** State *)

Record GraphStats := MkStats {
  stNodes : Z; stEdges : Z; stNodesByKind : gmap bytes Z; stEdgesByKind : gmap bytes Z;
  stTombstoned : Z; stDangling : Z; stPendingRecords : Z; stLogRecords : Z; stLogBytes : Z;
  stGeneration : Z; stMaxPos : Z; stLastCompaction : Z; stLoadErrors : Z; stTruncatedTail : bool;
  stNeedsCompaction : bool
}.

Definition zero_stats : GraphStats := MkStats 0 0 ∅ ∅ 0 0 0 0 0 0 0 0 0 false false.

Record index := MkIndex { posIdx : list bytes; posVals : list Z; ix_lo : list Z; ix_hi : list Z }.

Record graph := MkGraph {
  mem : memory; idx : index; idxDirty : bool; pending : list record; gen : Z;
  stats : GraphStats; closed : bool
}.

(** [newGraph], less the paths, the logger and the clock. *)
Definition newGraph : graph := MkGraph empty_memory (MkIndex [] [] [] []) false [] 0 zero_stats false.

Definition set_mem (m : memory) (g : graph) : graph := MkGraph m (idx g) true (pending g) (gen g) (stats g) (closed g).

(** ** Rebuilding ([rebuildIndexLocked]) *)

(** The sort key of a node: position, turn, identity, in this order. *)
Abbreviation pos_key := (Z * Z * bytes)%type.

Definition key_le (a b : pos_key) : Prop :=
  let '(p, t, i) := a in let '(q, u, j) := b in
  p < q \/ p = q /\ (t < u \/ t = u /\ bytes_le i j).

#[global] Instance key_le_dec : RelDecision key_le.
Proof. intros [[p t] i] [[q u] j]. unfold key_le. apply _. Defined.

Definition live_nodes (m : memory) : list (bytes * Node) :=
  List.filter (fun p => negb (bool_decide (p.1 ∈ dead m))) (map_to_list (nodes m)).

Definition node_key (p : bytes * Node) : pos_key := (nPos p.2, nTurn p.2, p.1).

Definition sorted_keys (m : memory) : list pos_key := merge_sort key_le (node_key <$> live_nodes m).

(** The positions an edge spans, when both its ends are live. *)
Definition span (m : memory) (e : Edge) : option (Z * Z) :=
  match nodes m !! eFrom e, nodes m !! eTo e with
  | Some from, Some to =>
      if bool_decide (eFrom e ∈ dead m) || bool_decide (eTo e ∈ dead m) then None
      else if nPos from >? nPos to then Some (nPos to, nPos from) else Some (nPos from, nPos to)
  | _, _ => None
  end.

Definition spans (m : memory) : list (Z * Z) := omap (span m) (edges m).

Definition rebuild (m : memory) : index :=
  let ks := sorted_keys m in
  MkIndex ((fun k => k.2) <$> ks) ((fun k => k.1.1) <$> ks) (sorted (spans m).*1) (sorted (spans m).*2).

Definition rebuildIndexLocked (g : graph) : graph :=
  MkGraph (mem g) (rebuild (mem g)) false (pending g) (gen g) (stats g) (closed g).

(** [withIndex]: the graph its function runs on. *)
Definition withIndex (g : graph) : graph := if idxDirty g then rebuildIndexLocked g else g.

(** ** Queries *)

(** [sort.SearchInts]: the binary search of [sort.Search]. *)
Fixpoint search_ints (fuel : nat) (a : list Z) (x : Z) (i j : nat) : nat :=
  match fuel with
  | O => i
  | S f =>
      if (i <? j)%nat then
        let h := ((i + j) / 2)%nat in
        if nth h a 0 <? x then search_ints f a x (h + 1) j else search_ints f a x i h
      else i
  end.
Definition SearchInts (a : list Z) (x : Z) : nat := search_ints (length a) a x 0 (length a).

Definition CrossingEdges (g : graph) (pos : Z) : Z * graph :=
  if pos <=? 0 then (0, g)
  else
    let g := withIndex g in
    (if closed g then 0
     else Z.of_nat (SearchInts (ix_lo (idx g)) pos) - Z.of_nat (SearchInts (ix_hi (idx g)) pos), g).

Definition NodesAfter (g : graph) (pos : Z) : list Node * graph :=
  let g := withIndex g in
  (if closed g then []
   else omap (fun id => nodes (mem g) !! id) (drop (SearchInts (posVals (idx g)) pos) (posIdx (idx g))), g).

(** [autoFlushRecords], [compactWasteDivisor]. *)
Definition autoFlushRecords : Z := 2000.
Definition compactWasteDivisor : Z := 4.

Definition needsCompactionLocked (g : graph) : bool :=
  if stLogRecords (stats g) <? autoFlushRecords then false
  else (Z.of_nat (size (dead (mem g))) + Z.of_nat (danglingLocked (mem g))) * compactWasteDivisor >=? stLogRecords (stats g).

(** Counting by the text of a kind. *)
Definition count_kind (name : Z -> bytes) (ks : list Z) : gmap bytes Z :=
  fold_left (fun c k => <[name k := default 0 (c !! name k) + 1]> c) ks ∅.

Definition Stats (g : graph) : GraphStats :=
  if closed g then stats g
  else
    let m := mem g in
    let s := stats g in
    {| stNodes := Z.of_nat (length (live_nodes m));
       stEdges := Z.of_nat (length (edges m));
       stNodesByKind := count_kind NodeKind_String ((fun p => nKind p.2) <$> live_nodes m);
       stEdgesByKind := count_kind EdgeKind_String (eKind <$> edges m);
       stTombstoned := Z.of_nat (size (dead m));
       stDangling := Z.of_nat (danglingLocked m);
       stPendingRecords := Z.of_nat (length (pending g));
       stLogRecords := stLogRecords s;
       stLogBytes := stLogBytes s;
       stGeneration := gen g;
       stMaxPos := fold_left (fun mx p => if nPos p.2 >? mx then nPos p.2 else mx) (live_nodes m) 0;
       stLastCompaction := stLastCompaction s;
       stLoadErrors := stLoadErrors s;
       stTruncatedTail := stTruncatedTail s;
       stNeedsCompaction := needsCompactionLocked g |}.

(** The reads on a graph that may be closed. *)
Definition Graph_Node (g : graph) (id : bytes) : option Node := if closed g then None else node_of (mem g) id.
Definition Out (g : graph) (id : bytes) : list Edge := if closed g then [] else incident (mem g) id false.
Definition In_ (g : graph) (id : bytes) : list Edge := if closed g then [] else incident (mem g) id true.

(** ** Binary search *)

Definition below_count (a : list Z) (x : Z) : nat := length (List.filter (fun y => y <? x) a).

Lemma below_count_app a b x : below_count (a ++ b) x = (below_count a x + below_count b x)%nat.
Proof. unfold below_count. by rewrite List.filter_app, length_app. Qed.

Lemma below_count_all a x : Forall (fun y => y < x) a -> below_count a x = length a.
Proof.
  unfold below_count. induction 1 as [|y a Hy _ IH]; [done|]. cbn. rewrite (proj2 (Z.ltb_lt _ _) Hy). cbn. by rewrite IH.
Qed.

Lemma below_count_none a x : Forall (fun y => x <= y) a -> below_count a x = 0%nat.
Proof.
  unfold below_count. induction 1 as [|y a Hy _ IH]; [done|]. cbn. by rewrite (proj2 (Z.ltb_ge _ _) Hy).
Qed.

Lemma below_count_perm a b x : a ≡ₚ b -> below_count a x = below_count b x.
Proof.
  unfold below_count. induction 1 as [|y a b _ IH|y z a|a b c _ IH1 _ IH2]; cbn; try done.
  - case_match; cbn; by rewrite IH.
  - repeat case_match; done.
  - by rewrite IH1.
Qed.

(** The invariant of the search: everything before [i] is below [x], nothing from [j] on is. *)
Lemma search_ints_spec fuel a x i j : StronglySorted Z.le a -> (j <= length a)%nat -> (i <= j)%nat -> (j <= fuel + i)%nat ->
  Forall (fun y => y < x) (take i a) -> Forall (fun y => x <= y) (drop j a) ->
  search_ints fuel a x i j = below_count a x.
Proof.
  intros Hs. revert i j. induction fuel as [|f IH]; intros i j Hj Hij Hf Hlo Hhi; cbn [search_ints].
  - assert (i = j) as <- by lia. rewrite <- (take_drop i a), below_count_app, below_count_all, below_count_none by done.
    rewrite length_take. lia.
  - destruct (i <? j)%nat eqn:E; bsolve.
    + set (h := ((i + j) / 2)%nat). assert (i <= h < j)%nat as Hh.
      { unfold h. pose proof (Nat.div_mod (i + j) 2 ltac:(lia)). pose proof (Nat.mod_upper_bound (i + j) 2 ltac:(lia)). lia. }
      destruct (lookup_lt_is_Some_2 a h ltac:(lia)) as [y Hy]. rewrite (nth_lookup_Some _ _ _ _ Hy).
      rewrite <- (take_drop_middle _ _ _ Hy) in Hs. apply StronglySorted_app in Hs as (Hs1 & Hs2 & Hs3).
      apply StronglySorted_inv in Hs3 as [Hs4 Hs5].
      destruct (Z.ltb_spec y x).
      * apply IH; try lia; [|done]. rewrite Nat.add_1_r, (take_S_r _ _ _ Hy). apply Forall_app.
        split; [|by repeat constructor]. apply Forall_forall. intros z Hz.
        specialize (Hs1 z y Hz ltac:(by left)). cbn in Hs1. lia.
      * apply IH; try lia; [done|]. rewrite (drop_S _ _ _ Hy). constructor; [done|].
        eapply Forall_impl; [exact Hs5|]. cbn. lia.
    + assert (i = j) as <- by lia. rewrite <- (take_drop i a), below_count_app, below_count_all, below_count_none by done.
      rewrite length_take. lia.
Qed.

Lemma SearchInts_spec a x : StronglySorted Z.le a -> SearchInts a x = below_count a x.
Proof.
  intros Hs. apply search_ints_spec; try done; try lia; rewrite ?drop_ge by lia; constructor.
Qed.

(** ** The queries are exact *)

(** A clean index is the one a rebuild would give. *)
Definition coherent (g : graph) : Prop := idxDirty g = false -> idx g = rebuild (mem g).

#[global] Instance key_le_trans : Transitive key_le.
Proof.
  intros [[p t] i] [[q u] j] [[r v] k]. unfold key_le. intros H1 H2.
  destruct H1 as [?|[-> [?|[-> ?]]]], H2 as [?|[-> [?|[-> ?]]]]; try (left; lia); try (right; split; [lia|left; lia]).
  right. split; [done|]. right. split; [done|]. by etransitivity.
Qed.

#[global] Instance key_le_total : Total key_le.
Proof.
  intros [[p t] i] [[q u] j]. unfold key_le. destruct (Z.lt_total p q) as [?|[->|?]]; [tauto| |tauto].
  destruct (Z.lt_total t u) as [?|[->|?]]; [tauto| |tauto]. destruct (total bytes_le i j); tauto.
Qed.

Lemma live_nodes_elem m id n : (id, n) ∈ live_nodes m <-> node_of m id = Some n.
Proof.
  unfold live_nodes, node_of. rewrite list_elem_of_In, filter_In, <- list_elem_of_In, elem_of_map_to_list. cbn.
  case_bool_decide; cbn; naive_solver.
Qed.

(** The live nodes in index order. *)
Lemma index_order m : exists L, L ≡ₚ live_nodes m /\ StronglySorted key_le (node_key <$> L) /\
  posIdx (rebuild m) = L.*1 /\ posVals (rebuild m) = (fun p => nPos p.2) <$> L.
Proof.
  pose proof (merge_sort_Permutation key_le (node_key <$> live_nodes m)) as HP.
  apply Permutation_map_inv in HP as (L & HL & HP). exists L. split; [done|].
  assert (Hk : sorted_keys m = node_key <$> L) by exact HL. split.
  - rewrite <- Hk. apply Sorted_StronglySorted; [apply _|]. apply Sorted_merge_sort, _.
  - cbn. rewrite Hk, <- !list_fmap_compose. split; apply list_fmap_ext; by intros ? [].
Qed.

Lemma withIndex_spec g : coherent g ->
  idx (withIndex g) = rebuild (mem g) /\ mem (withIndex g) = mem g /\ closed (withIndex g) = closed g /\ coherent (withIndex g).
Proof. intros Hc. unfold withIndex. destruct (idxDirty g) eqn:E; cbn; [done|]. split_and!; auto. Qed.

Lemma count_straddle (l : list (Z * Z)) x : Forall (fun p => p.1 <= p.2) l ->
  Z.of_nat (below_count l.*1 x) - Z.of_nat (below_count l.*2 x)
  = Z.of_nat (length (List.filter (fun p => (p.1 <? x) && (x <=? p.2)) l)).
Proof.
  unfold below_count. induction 1 as [|[lo hi] l Hp _ IH]; [done|]. cbn in *.
  destruct (Z.ltb_spec lo x), (Z.ltb_spec hi x), (Z.leb_spec x hi); cbn; lia.
Qed.

(** The edge straddles [pos]: both ends are live, one before [pos] and one at it or after it. *)
Definition straddles (m : memory) (pos : Z) (e : Edge) : bool :=
  match node_of m (eFrom e), node_of m (eTo e) with
  | Some a, Some b => (Z.min (nPos a) (nPos b) <? pos) && (pos <=? Z.max (nPos a) (nPos b))
  | _, _ => false
  end.

Lemma span_straddles m pos e :
  straddles m pos e = match span m e with Some p => (p.1 <? pos) && (pos <=? p.2) | None => false end.
Proof.
  unfold straddles, span, node_of. destruct (nodes m !! eFrom e) as [a|], (nodes m !! eTo e) as [b|];
    repeat case_bool_decide; cbn; try done.
  destruct (nPos a >? nPos b) eqn:E; bsolve; cbn.
  - rewrite Z.min_r, Z.max_l by lia. done.
  - rewrite Z.min_l, Z.max_r by lia. done.
Qed.

Lemma spans_ordered m : Forall (fun p => p.1 <= p.2) (spans m).
Proof.
  apply Forall_forall. intros p (e & _ & He)%list_elem_of_omap. unfold span in He. repeat case_match; simplify_eq; bsolve; cbn; lia.
Qed.

Lemma filter_spans m pos :
  length (List.filter (fun p => (p.1 <? pos) && (pos <=? p.2)) (spans m)) = length (List.filter (straddles m pos) (edges m)).
Proof.
  unfold spans. induction (edges m) as [|e es IH]; [done|]. cbn [omap list_omap List.filter].
  rewrite span_straddles. destruct (span m e) as [p|]; [|done]. cbn [List.filter]. case_match; cbn; by rewrite IH.
Qed.

Lemma sorted_count l x : SearchInts (sorted l) x = below_count l x.
Proof. rewrite SearchInts_spec by apply sorted_sorted. apply below_count_perm, sorted_perm. Qed.

Lemma node_of_valid m id n : wf m -> node_of m id = Some n -> nID n = id /\ 0 <= nPos n.
Proof.
  intros W. unfold node_of. case_bool_decide; [done|]. intros Hn. destruct (wf_nodes _ W _ _ Hn) as [Hid Hv].
  split; [done|]. unfold validateNode in Hv. case_match; [|done]. case_match. bsolve. lia.
Qed.

Lemma straddles_nonpos m pos e : wf m -> pos <= 0 -> straddles m pos e = false.
Proof.
  intros W Hp. unfold straddles. destruct (node_of m (eFrom e)) as [a|] eqn:Ea; [|done].
  destruct (node_of m (eTo e)) as [b|] eqn:Eb; [|done].
  apply node_of_valid in Ea as [_ Ha], Eb as [_ Hb]; try done.
  rewrite (proj2 (Z.ltb_ge _ _)) by lia. done.
Qed.

Lemma filter_none {A} (f : A -> bool) l : (forall x, f x = false) -> List.filter f l = [].
Proof. intros H. induction l as [|x l IH]; [done|]. cbn. by rewrite H. Qed.

Lemma crossing_exact g pos : wf (mem g) -> coherent g -> closed g = false ->
  (CrossingEdges g pos).1 = Z.of_nat (length (List.filter (straddles (mem g) pos) (edges (mem g)))).
Proof.
  intros W Hc Hcl. unfold CrossingEdges. destruct (pos <=? 0) eqn:E; bsolve; cbn [fst].
  - rewrite filter_none; [done|]. intros e. by apply straddles_nonpos.
  - destruct (withIndex_spec g Hc) as (Hi & Hm & Hcl' & _). rewrite Hcl', Hcl, Hi. cbn [ix_lo ix_hi rebuild].
    rewrite !sorted_count, count_straddle by apply spans_ordered. by rewrite filter_spans.
Qed.

Lemma sorted_fmap_inv {A B} (R : B -> B -> Prop) (f : A -> B) x l :
  StronglySorted R (f <$> x :: l) -> StronglySorted R (f <$> l) /\ Forall (fun q => R (f x) (f q)) l.
Proof. intros H. apply StronglySorted_inv in H as [H1 H2]. split; [done|]. exact (proj1 (Forall_fmap _ _ _) H2). Qed.

(** The nodes at or after a position form the tail of the index. *)
Lemma drop_below (L : list (bytes * Node)) pos : StronglySorted key_le (node_key <$> L) ->
  drop (below_count ((fun p => nPos p.2) <$> L) pos) L = List.filter (fun p => pos <=? nPos p.2) L.
Proof.
  unfold below_count. induction L as [|p L IH]; intros Hs; [done|]. cbn [fmap list_fmap List.filter].
  apply sorted_fmap_inv in Hs as [Hs Hf]. destruct (Z.ltb_spec (nPos p.2) pos).
  - rewrite (proj2 (Z.leb_gt _ _)) by lia. cbn [length drop]. by apply IH.
  - rewrite (proj2 (Z.leb_le _ _)) by lia.
    assert (HF : Forall (fun q => pos <= nPos q.2) L).
    { eapply Forall_impl; [exact Hf|]. intros q. unfold node_key, key_le. cbn. lia. }
    clear Hs Hf IH.
    assert (length (List.filter (fun y => y <? pos) ((fun p => nPos p.2) <$> L)) = 0%nat) as ->.
    { induction HF as [|q L Hq _ IH]; [done|]. cbn. by rewrite (proj2 (Z.ltb_ge _ _)) by lia. }
    cbn [drop]. f_equal. induction HF as [|q L Hq _ IH]; [done|]. cbn.
    rewrite (proj2 (Z.leb_le _ _)) by lia. by rewrite <- IH.
Qed.

(** Looking the indexed identities up gives the indexed nodes. *)
Lemma omap_keys (N : gmap bytes Node) (L : list (bytes * Node)) : Forall (fun p => N !! p.1 = Some p.2) L ->
  omap (fun id => N !! id) L.*1 = L.*2.
Proof. induction 1 as [|[id n] L Hn _ IH]; [done|]. cbn in *. by rewrite Hn, IH. Qed.

Lemma live_nodes_lookup m L : L ≡ₚ live_nodes m -> Forall (fun p => nodes m !! p.1 = Some p.2) L.
Proof.
  intros HP. apply Forall_forall. intros [id n] Hn. rewrite HP in Hn. apply live_nodes_elem in Hn.
  unfold node_of in Hn. by case_bool_decide.
Qed.

Definition node_order (n : Node) : pos_key := (nPos n, nTurn n, nID n).

Lemma posVals_sorted L : StronglySorted key_le (node_key <$> L) -> StronglySorted Z.le ((fun p => nPos p.2) <$> L).
Proof.
  induction L as [|p L IH]; intros Hs; [constructor|]. apply sorted_fmap_inv in Hs as [Hs Hf]. cbn.
  constructor; [by apply IH|]. rewrite Forall_fmap. eapply Forall_impl; [exact Hf|].
  intros q. unfold node_key, key_le. cbn. lia.
Qed.

Lemma nodes_after_exact_aux g pos : wf (mem g) -> coherent g -> closed g = false ->
  exists L, (NodesAfter g pos).1 = L.*2 /\ StronglySorted key_le (node_key <$> L) /\
    L ≡ₚ List.filter (fun p => pos <=? nPos p.2) (live_nodes (mem g)).
Proof.
  intros W Hc Hcl. unfold NodesAfter. destruct (withIndex_spec g Hc) as (Hi & Hm & Hcl' & _).
  cbn [fst]. rewrite Hcl', Hcl, Hi, Hm. destruct (index_order (mem g)) as (L & HP & Hs & -> & ->).
  rewrite SearchInts_spec by (by apply posVals_sorted). rewrite <- fmap_drop, drop_below by done.
  exists (List.filter (fun p => pos <=? nPos p.2) L). split_and!.
  - apply omap_keys, Forall_forall. intros p Hp. rewrite list_elem_of_In, filter_In, <- list_elem_of_In in Hp.
    exact (proj1 (Forall_forall _ _) (live_nodes_lookup _ _ HP) p (proj1 Hp)).
  - clear -Hs. induction L as [|p L IH]; [constructor|]. apply sorted_fmap_inv in Hs as [Hs Hf]. cbn.
    case_match; [|by apply IH]. cbn. constructor; [by apply IH|]. rewrite Forall_fmap.
    apply Forall_forall. intros q Hq. rewrite list_elem_of_In, filter_In, <- list_elem_of_In in Hq.
    rewrite Forall_forall in Hf. apply (Hf q), Hq.
  - clear -HP. induction HP as [|p L L' _ IH|p q L|L1 L2 L3 _ IH1 _ IH2]; cbn; try done.
    + case_match; [by f_equiv|done].
    + repeat case_match; try done. constructor.
    + by rewrite IH1.
Qed.
