(* ===== verification/DagSlice.v ===== *)
(** * The dependence graph: scored slices

    Models [src/internal/dag/slice.go] and [traverse.go]: the best-first walk that scores the nodes a
    criterion set depends on (or that depend on it), over the array heap of [Heap.v] and the
    [float32] products of [F32.v].  The wall clock is a function from the number of finalized nodes
    to whether the deadline has passed. *)

From S2P Require Import Prelude GoLib Core Frame Select F32 Heap Strconv Dag DagIndex.

(** ** Options and results ([slice.go]) *)

Record SliceOptions := MkSliceOptions {
  Thin : bool; MaxDepth : Z; MaxNodes : Z; Decay : f32; Deadline : Z
}.

Record Slice := MkSlice {
  Scores : gmap bytes f32; Order : list bytes; Truncated : bool; Visited : Z; EdgesVisited : Z
}.

Definition DefaultDecay : f32 := Eval vm_compute in F32.of_ratio 85 100.
Definition DefaultMaxNodes : Z := 5000.
Definition DefaultDeadline : Z := 5 * 1000000.

Definition withDefaults (o : SliceOptions) : SliceOptions := {|
  Thin := Thin o;
  MaxDepth := if MaxDepth o <? 0 then 0 else MaxDepth o;
  MaxNodes := if MaxNodes o <=? 0 then DefaultMaxNodes else MaxNodes o;
  Decay := if F32.leb (Decay o) F32.zero || F32.gtb (Decay o) F32.one then DefaultDecay else Decay o;
  Deadline := if Deadline o <? 0 then 0 else Deadline o
|}.

(** ** The walk ([traverse.go]) *)

Definition minScore : f32 := Eval vm_compute in F32.of_ratio 1 10000.
Definition deadlineCheckStride : Z := 256.

Record heapItem := MkItem { hid : bytes; hscore : f32; hdepth : Z; hturn : Z }.

(** The comparison of [maxHeap.Less] and of [orderByScore]'s sort. *)
Definition before (s : f32) (t : Z) (i : bytes) (s' : f32) (t' : Z) (i' : bytes) : bool :=
  if F32.neb s s' then F32.gtb s s'
  else if negb (t =? t') then t <? t'
  else bool_decide (bytes_lt i i').

Definition item_less (a b : heapItem) : bool :=
  before (hscore a) (hturn a) (hid a) (hscore b) (hturn b) (hid b).

Definition hasUnfinalized (h : list heapItem) (done : gmap bytes f32) : bool :=
  existsb (fun it => bool_decide (done !! hid it = None)) h.

(** The score across one hop, in the order the source multiplies. *)
Definition hop (o : SliceOptions) (s : f32) (e : Edge) : f32 :=
  F32.mul (F32.mul (F32.mul s (Decay o)) (Multiplier (eKind e))) (eWeight e).

Definition next_of (backward : bool) (e : Edge) : bytes := if backward then eFrom e else eTo e.

(** One turn of the inner loop: the heap and the count of followed edges.  The index is in range in
    every well-formed memory. *)
Definition visit_edge (m : memory) (o : SliceOptions) (backward : bool) (it : heapItem)
    (scores : gmap bytes f32) (st : list heapItem * Z) (ei : nat) : list heapItem * Z :=
  let '(h, ev) := st in
  match edges m !! ei with
  | None => st
  | Some e =>
      if Thin o && (eKind e =? EdgeControlOnly) then st
      else
        let next := next_of backward e in
        match node_of m next with
        | None => (h, ev + 1)
        | Some n =>
            let s := hop o (hscore it) e in
            if F32.ltb s minScore then (h, ev + 1)
            else match scores !! next with
                 | Some _ => (h, ev + 1)
                 | None => (heap_push item_less h (MkItem next s (hdepth it + 1) (nTurn n)), ev + 1)
                 end
        end
  end.

(** The loop's variables when it ends: scores, truncation, nodes and edges counted. *)
Record walked := MkWalked { w_scores : gmap bytes f32; w_trunc : bool; w_visited : Z; w_edges : Z }.

Fixpoint walk (fuel : nat) (m : memory) (o : SliceOptions) (backward : bool) (expired : Z -> bool)
    (h : list heapItem) (scores : gmap bytes f32) (visited ev : Z) : option walked :=
  match fuel with
  | O => None
  | S f =>
      match heap_pop item_less h with
      | None => Some (MkWalked scores false visited ev)
      | Some (it, h) =>
          match scores !! hid it with
          | Some _ => walk f m o backward expired h scores visited ev
          | None =>
              let scores := <[hid it := hscore it]> scores in
              let visited := visited + 1 in
              if Z.of_nat (size scores) >=? MaxNodes o then
                Some (MkWalked scores (hasUnfinalized h scores) visited ev)
              else if (Deadline o >? 0) && (visited mod deadlineCheckStride =? 0) && expired visited then
                Some (MkWalked scores true visited ev)
              else if (MaxDepth o >? 0) && (hdepth it >=? MaxDepth o) then
                walk f m o backward expired h scores visited ev
              else
                let '(h, ev) := fold_left (visit_edge m o backward it scores) (adjacent m (hid it) backward) (h, ev) in
                walk f m o backward expired h scores visited ev
          end
      end
  end.

(** The criteria that exist and are live, pushed in order. *)
Definition seed (m : memory) (h : list heapItem) (c : bytes) : list heapItem :=
  match node_of m c with
  | Some n => heap_push item_less h (MkItem c F32.one 0 (nTurn n))
  | None => h
  end.

Definition order_le (nodes : gmap bytes Node) (a b : bytes * f32) : Prop :=
  let turn id := match nodes !! id with Some n => nTurn n | None => 0 end in
  before b.2 (turn b.1) b.1 a.2 (turn a.1) a.1 = false.

#[global] Instance order_le_dec nodes : RelDecision (order_le nodes).
Proof. intros a b. unfold order_le. apply _. Defined.

Definition orderByScore (scores : gmap bytes f32) (nodes : gmap bytes Node) : list bytes :=
  (merge_sort (order_le nodes) (map_to_list scores)).*1.

(** Each iteration pops one item and an item is pushed per criterion and per edge at most. *)
Definition walk_fuel (m : memory) (criteria : list bytes) : nat := S (length criteria + length (edges m)).

(** The shared body of [BackwardSlice] and [ForwardSlice]. *)
Definition graph_slice (g : graph) (criteria : list bytes) (o : SliceOptions) (backward : bool)
    (expired : Z -> bool) : option (outcome dag_error Slice) :=
  let o := withDefaults o in
  if closed g then Some (Err ErrClosed)
  else
    let m := mem g in
    match fold_left (seed m) criteria [] with
    | [] => Some (Ok (MkSlice ∅ [] false 0 0))
    | h =>
        match walk (walk_fuel m criteria) m o backward expired h ∅ 0 0 with
        | None => None
        | Some w => Some (Ok (MkSlice (w_scores w) (orderByScore (w_scores w) (nodes m)) (w_trunc w) (w_visited w) (w_edges w)))
        end
    end.

Definition BackwardSlice (g : graph) (criteria : list bytes) (o : SliceOptions) (expired : Z -> bool) :=
  graph_slice g criteria o true expired.
Definition ForwardSlice (g : graph) (criteria : list bytes) (o : SliceOptions) (expired : Z -> bool) :=
  graph_slice g criteria o false expired.

(** ** The specification: scored paths *)

Definition src_of (backward : bool) (e : Edge) : bytes := next_of (negb backward) e.

(** The edge is one the walk follows out of [u]. *)
Definition follows (m : memory) (o : SliceOptions) (backward : bool) (u : bytes) (e : Edge) : Prop :=
  e ∈ edges m /\ src_of backward e = u /\ Thin o && (eKind e =? EdgeControlOnly) = false.

(** [reaches v s d]: a path of [d] hops from a live criterion to [v] scores [s], every hop staying at
    or above the floor, every node on it live, within the depth limit. *)
Inductive reaches (m : memory) (o : SliceOptions) (backward : bool) (criteria : list bytes) : bytes -> f32 -> Z -> Prop :=
  | reaches_start c n : c ∈ criteria -> node_of m c = Some n -> reaches m o backward criteria c F32.one 0
  | reaches_hop u s d e n :
      reaches m o backward criteria u s d -> (MaxDepth o >? 0) && (d >=? MaxDepth o) = false ->
      follows m o backward u e -> node_of m (next_of backward e) = Some n ->
      F32.ltb (hop o s e) minScore = false ->
      reaches m o backward criteria (next_of backward e) (hop o s e) (d + 1).

(** ** Hops *)

Lemma multiplier_score k : F32.score (Multiplier k).
Proof.
  unfold Multiplier, table_at.
  assert (edgeKindMultipliers = (fun p => F32.of_ratio p 100) <$> [60; 100; 100; 88; 95; 30; 100; 50; 0]) as ->
    by (vm_compute; reflexivity).
  destruct (nth_in_or_default (Z.to_nat k) ((fun p => F32.of_ratio p 100) <$> [60; 100; 100; 88; 95; 30; 100; 50; 0]) F32.zero)
    as [Hin| ->].
  - apply list_elem_of_In, list_elem_of_fmap in Hin as (p & -> & Hp). apply F32.score_of_ratio; [|lia].
    repeat (apply elem_of_cons in Hp as [->|Hp]; [lia|]). by apply elem_of_nil in Hp.
  - change F32.zero with (F32.of_ratio 0 1). apply F32.score_of_ratio; lia.
Qed.

(** What the theorems ask of the caller's decay: a machine float that is not NaN. *)
Definition decay_ok (x : f32) : Prop := F32.wellformed x /\ x <> NaN.

Lemma withDefaults_decay o : decay_ok (Decay o) -> F32.score (Decay (withDefaults o)).
Proof.
  intros [Hw Hn]. cbn. assert (Hd : F32.score DefaultDecay).
  { replace DefaultDecay with (F32.of_ratio 85 100) by (vm_compute; reflexivity). apply F32.score_of_ratio; lia. }
  destruct (_ || _) eqn:E; [done|]. apply orb_false_elim in E as [E1 E2].
  destruct (Decay o) as [| [] |sg v]; [done..|]. cbn in Hw. destruct Hw as [Hv Hr].
  unfold F32.leb, F32.gtb, F32.cmp, F32.zero, F32.one, F32.signed in E1, E2. destruct sg.
  - destruct (Z.compare_spec (- v) 0); try done. lia.
  - destruct (Z.compare_spec v F32.unit_one); try done; (exists v; split; [done|]; split; [lia|done]).
Qed.

Section Hop.
Context (o : SliceOptions) (Hd : F32.score (Decay o)).

Lemma hop_score s e : F32.score s -> normal e -> F32.score (hop o s e).
Proof. intros Hs He. unfold hop. repeat apply F32.score_mul; try done; [apply multiplier_score|apply He]. Qed.

Lemma hop_le s e : F32.score s -> normal e -> F32.mag (hop o s e) <= F32.mag s.
Proof.
  intros Hs He. unfold hop. pose proof (multiplier_score (eKind e)) as Hm. destruct (nm_weight _ He) as [Hw _].
  etransitivity; [apply F32.mul_le; [repeat apply F32.score_mul; done|done]|].
  etransitivity; [apply F32.mul_le; [by apply F32.score_mul|done]|]. by apply F32.mul_le.
Qed.

Lemma hop_mono s s' e : F32.score s -> F32.score s' -> normal e -> F32.mag s <= F32.mag s' ->
  F32.mag (hop o s e) <= F32.mag (hop o s' e).
Proof.
  intros Hs Hs' He Hle. unfold hop. pose proof (multiplier_score (eKind e)) as Hm. destruct (nm_weight _ He) as [Hw _].
  repeat (apply F32.mul_mono; [repeat apply F32.score_mul; done..|]). done.
Qed.
End Hop.

(** ** The queue's comparison is a strict weak order on scores *)

Definition score_key (s : f32) (t : Z) (i : bytes) : pos_key := (- F32.mag s, t, i).
Definition ikey (it : heapItem) : pos_key := score_key (hscore it) (hturn it) (hid it).
Definition scored (it : heapItem) : Prop := F32.score (hscore it).

#[global] Instance key_le_refl : Reflexive key_le.
Proof. intros k. destruct (total key_le k k); done. Qed.

Lemma bytes_lt_not_le a b : bytes_lt a b <-> ~ bytes_le b a.
Proof.
  unfold bytes_lt, bytes_le. rewrite (bytes_compare_antisym a b). destruct (bytes_compare a b); cbn; split; try done; naive_solver.
Qed.

Lemma before_false s t i s' t' i' : F32.score s -> F32.score s' ->
  before s t i s' t' i' = false <-> key_le (score_key s' t' i') (score_key s t i).
Proof.
  intros Hs Hs'. unfold before, score_key, key_le. rewrite F32.score_neb, F32.score_gtb by done.
  destruct (Z.eqb_spec (F32.mag s) (F32.mag s')) as [E|E]; cbn [negb].
  - destruct (Z.eqb_spec t t') as [->|Et]; cbn [negb].
    + rewrite bool_decide_eq_false, bytes_lt_not_le. split.
      * intros H. right. split; [lia|]. right. split; [done|]. by apply dec_stable in H.
      * intros [?|[_ [?|[_ ?]]]]; [lia|lia|tauto].
    + rewrite Z.ltb_ge. split; [intros H; right; split; [lia|left; lia]|]. intros [?|[_ [?|[? _]]]]; lia.
  - rewrite Z.ltb_ge. split; [left; lia|]. intros [?|[? _]]; lia.
Qed.

Lemma item_below a b : scored a -> scored b -> below item_less a b <-> key_le (ikey b) (ikey a).
Proof. intros Ha Hb. by apply before_false. Qed.

Lemma item_below_trans a b c : scored a -> scored b -> scored c ->
  below item_less a b -> below item_less b c -> below item_less a c.
Proof. intros Ha Hb Hc. rewrite !item_below by done. intros H1 H2. by transitivity (ikey b). Qed.

Lemma item_asym a b : scored a -> scored b -> item_less a b = true -> item_less b a = false.
Proof.
  intros Ha Hb H. apply item_below; [done..|]. destruct (total key_le (ikey a) (ikey b)) as [?|Hk]; [done|].
  apply item_below in Hk; [|done..]. unfold below in Hk. congruence.
Qed.

Lemma item_irrefl a : scored a -> item_less a a = false.
Proof. intros Ha. by apply item_below. Qed.

Definition queue_ok (h : list heapItem) : Prop := Forall scored h /\ heap_ordered item_less (length h) h.

Lemma queue_push h it : queue_ok h -> scored it -> queue_ok (heap_push item_less h it).
Proof.
  intros [HP Hh] Hi. split.
  - rewrite heap_push_perm. by constructor.
  - eapply (heap_push_ordered item_less scored); eauto using item_below_trans, item_asym.
Qed.

Lemma queue_pop h it h' : queue_ok h -> heap_pop item_less h = Some (it, h') ->
  queue_ok h' /\ scored it /\ h ≡ₚ it :: h' /\ (forall x, x ∈ h' -> F32.mag (hscore x) <= F32.mag (hscore it)).
Proof.
  intros [HP Hh] Hpop. pose proof (heap_pop_perm _ _ _ _ Hpop) as Hperm.
  edestruct (heap_pop_ordered item_less scored) as [Ho Hb]; eauto using item_below_trans, item_asym, item_irrefl.
  rewrite Hperm in HP. apply Forall_cons in HP as [Hi HP]. split; [by split|]. split; [done|]. split; [done|].
  intros x Hx. rewrite Forall_forall in Hb, HP. pose proof (Hb x Hx) as Hle. apply item_below in Hle; [|by apply HP|done].
  unfold ikey, score_key, key_le in Hle. lia.
Qed.

Lemma queue_pop_none h : heap_pop item_less h = None -> h = [].
Proof. intros H. destruct h as [|x h]; [done|]. destruct (heap_pop_some item_less (x :: h)) as (y & l & E); [done|congruence]. Qed.

(** ** Correctness of the walk *)

Lemma adjacent_elem m u backward ei : wf m ->
  ei ∈ adjacent m u backward <-> exists e, edges m !! ei = Some e /\ src_of backward e = u.
Proof.
  intros W. unfold adjacent. destruct backward; [rewrite (wf_in _ W)|rewrite (wf_out _ W)]; apply build_adj_elem.
Qed.

Lemma build_adj_length f es u :
  length (default [] (build_adj f es !! u)) = length (List.filter (fun e => bool_decide (f e = u)) es).
Proof.
  induction es as [|e es IH] using rev_ind; [done|]. rewrite build_adj_snoc, push_index_lookup, List.filter_app, length_app.
  cbn. case_decide; case_bool_decide; cbn; rewrite ?length_app; cbn; lia || congruence.
Qed.

Lemma adjacent_length m u backward : wf m ->
  length (adjacent m u backward) = length (List.filter (fun e => bool_decide (src_of backward e = u)) (edges m)).
Proof.
  intros W. unfold adjacent. destruct backward; [rewrite (wf_in _ W)|rewrite (wf_out _ W)]; apply build_adj_length.
Qed.

Section Walk.
Context (m : memory) (W : wf m) (o : SliceOptions) (Hd : F32.score (Decay o)) (backward : bool) (criteria : list bytes).

#[local] Abbreviation path := (reaches m o backward criteria).

Lemma edge_normal e : e ∈ edges m -> normal e.
Proof. intros He. pose proof (wf_edges _ W) as HF. rewrite Forall_forall in HF. auto. Qed.

Lemma path_score v s d : path v s d -> F32.score s.
Proof.
  induction 1 as [|u s d e n _ IH _ [He _] _ _]; [apply F32.score_one|]. apply hop_score; auto using edge_normal.
Qed.

(** What expanding [it] may push. *)
Definition pushed (it : heapItem) (scores : gmap bytes f32) (x : heapItem) : Prop :=
  exists e n, follows m o backward (hid it) e /\ node_of m (next_of backward e) = Some n /\
    scores !! next_of backward e = None /\ F32.ltb (hop o (hscore it) e) minScore = false /\
    x = MkItem (next_of backward e) (hop o (hscore it) e) (hdepth it + 1) (nTurn n).

(** The queue after the inner loop over the indices [L], from the queue [h]. *)
Record expanded (it : heapItem) (scores : gmap bytes f32) (L : list nat) (h X : list heapItem) : Prop := {
  ex_queue : queue_ok X;
  ex_length : (length X <= length h + length L)%nat;
  ex_new : forall x, x ∈ X -> x ∈ h \/ pushed it scores x;
  ex_old : forall x, x ∈ h -> x ∈ X;
  ex_all : forall ei e n, ei ∈ L -> edges m !! ei = Some e -> Thin o && (eKind e =? EdgeControlOnly) = false ->
    node_of m (next_of backward e) = Some n -> scores !! next_of backward e = None ->
    F32.ltb (hop o (hscore it) e) minScore = false ->
    exists x, x ∈ X /\ hid x = next_of backward e /\ hscore x = hop o (hscore it) e
}.

(** One index: the edge is skipped for a reason [ex_all] knows, or its item is pushed. *)
Lemma visit_one it scores h ev ei : scored it -> queue_ok h -> ei ∈ adjacent m (hid it) backward ->
  exists X ev', visit_edge m o backward it scores (h, ev) ei = (X, ev') /\ expanded it scores [ei] h X.
Proof.
  intros Hi Hq Hei. apply (adjacent_elem m (hid it) backward ei W) in Hei as (e & He & Hsrc). cbn [visit_edge]. rewrite He.
  assert (Hskip : forall ev' : Z, (forall n, Thin o && (eKind e =? EdgeControlOnly) = false ->
      node_of m (next_of backward e) = Some n -> scores !! next_of backward e = None ->
      F32.ltb (hop o (hscore it) e) minScore = false -> False) ->
      exists X ev'', (h, ev') = (X, ev'') /\ expanded it scores [ei] h X).
  { intros ev' Hvoid. exists h, ev'. split; [done|]. split; try done; [cbn; lia|auto|].
    intros ej e' n ->%list_elem_of_singleton He' Ht Hn Hs Hm. rewrite He in He'. injection He' as <-.
    destruct (Hvoid n Ht Hn Hs Hm). }
  destruct (Thin o && (eKind e =? EdgeControlOnly)) eqn:Et; [apply Hskip; congruence|].
  destruct (node_of m (next_of backward e)) as [n|] eqn:En; [|apply Hskip; congruence].
  destruct (F32.ltb (hop o (hscore it) e) minScore) eqn:Em; [apply Hskip; congruence|].
  destruct (scores !! next_of backward e) eqn:Es; [apply Hskip; congruence|].
  assert (He' : e ∈ edges m) by (by eapply list_elem_of_lookup_2).
  set (x := MkItem _ _ _ _). pose proof (heap_push_perm item_less h x) as Hperm.
  exists (heap_push item_less h x), (ev + 1). split; [done|]. split.
  - apply queue_push; [done|]. apply hop_score; auto using edge_normal.
  - rewrite (Permutation_length Hperm). cbn. lia.
  - intros y. rewrite Hperm, elem_of_cons. intros [->|?]; [right|by left]. by exists e, n.
  - intros y Hy. rewrite Hperm. by right.
  - intros ej e2 n2 ->%list_elem_of_singleton He2 _ _ _ _. rewrite He in He2. injection He2 as <-.
    exists x. split; [|done]. rewrite Hperm. by left.
Qed.

Lemma visit_all it scores L : scored it -> (forall ei, ei ∈ L -> ei ∈ adjacent m (hid it) backward) ->
  forall h ev, queue_ok h -> exists X ev',
  fold_left (visit_edge m o backward it scores) L (h, ev) = (X, ev') /\ expanded it scores L h X.
Proof.
  intros Hi. induction L as [|ei L IH]; intros HL h ev Hq; cbn [fold_left].
  { exists h, ev. split; [done|]. split; try done; [cbn; lia|auto|]. intros ? ? ? Hin. by apply elem_of_nil in Hin. }
  destruct (visit_one it scores h ev ei Hi Hq ltac:(apply HL; by left)) as (Y & ev' & -> & [Q1 L1 N1 O1 A1]).
  destruct (IH ltac:(intros j Hj; apply HL; by right) Y ev' Q1) as (X & ev'' & -> & [Q2 L2 N2 O2 A2]).
  exists X, ev''. split; [done|]. split; auto.
  - cbn in *. lia.
  - intros x Hx. destruct (N2 x Hx) as [Hx'|]; [|by right]. auto.
  - intros ej e n [->|Hj]%elem_of_cons He Ht Hn Hs Hm; [|eauto].
    destruct (A1 ei e n ltac:(by apply list_elem_of_singleton) He Ht Hn Hs Hm) as (x & Hx & ?). eauto.
Qed.

(** Soundness: whatever the walk holds has a path. *)
Record sound (scores : gmap bytes f32) (h : list heapItem) : Prop := {
  so_queue : queue_ok h;
  so_items : forall x, x ∈ h -> path (hid x) (hscore x) (hdepth x);
  so_done : forall v s, scores !! v = Some s -> exists d, path v s d
}.

(** Optimality, when the depth is not limited: the settled scores dominate the queue, and every hop
    out of a settled node is settled or queued. *)
Record optimal (scores : gmap bytes f32) (h : list heapItem) : Prop := {
  op_start : forall c n, c ∈ criteria -> node_of m c = Some n ->
    (exists s, scores !! c = Some s /\ F32.mag F32.one <= F32.mag s) \/ (exists x, x ∈ h /\ hid x = c /\ hscore x = F32.one);
  op_edge : forall u s e n, scores !! u = Some s -> follows m o backward u e -> node_of m (next_of backward e) = Some n ->
    F32.ltb (hop o s e) minScore = false ->
    (exists s', scores !! next_of backward e = Some s' /\ F32.mag (hop o s e) <= F32.mag s') \/
    (exists x, x ∈ h /\ hid x = next_of backward e /\ hscore x = hop o s e);
  op_mono : forall x v s, x ∈ h -> scores !! v = Some s -> F32.mag (hscore x) <= F32.mag s
}.

Lemma min_score : F32.score minScore.
Proof. replace minScore with (F32.of_ratio 1 10000) by (vm_compute; reflexivity). apply F32.score_of_ratio; lia. Qed.

(** A path's score is bounded by its node's settled score, or by some queued item. *)
Lemma covered scores h : sound scores h -> optimal scores h -> forall v s d, path v s d ->
  (exists s', scores !! v = Some s' /\ F32.mag s <= F32.mag s') \/
  (scores !! v = None /\ exists x, x ∈ h /\ F32.mag s <= F32.mag (hscore x)).
Proof.
  intros S O v s d Hp.
  assert (Hq : forall v s, (exists x, x ∈ h /\ F32.mag s <= F32.mag (hscore x)) ->
    (exists s', scores !! v = Some s' /\ F32.mag s <= F32.mag s') \/
    (scores !! v = None /\ exists x, x ∈ h /\ F32.mag s <= F32.mag (hscore x))).
  { clear -O. intros v s (x & Hx & Hle). destruct (scores !! v) as [s'|] eqn:E; [left|by right; eauto].
    exists s'. split; [done|]. pose proof (op_mono _ _ O x v s' Hx E). lia. }
  induction Hp as [c n Hc Hn|u s d e n Hp IH _ Hf Hn Hm].
  - destruct (op_start _ _ O c n Hc Hn) as [?|(x & Hx & _ & Hs)]; [by left|]. apply Hq. exists x. rewrite Hs. done.
  - pose proof (path_score _ _ _ Hp) as Hs. pose proof (edge_normal e (proj1 Hf)) as He.
    destruct IH as [(s' & Hu & Hle)|(_ & x & Hx & Hle)].
    + destruct (so_done _ _ S u s' Hu) as [d' Hp']. pose proof (path_score _ _ _ Hp') as Hs'.
      pose proof (hop_mono o Hd s s' e Hs Hs' He Hle) as Hhop.
      assert (Hm' : F32.ltb (hop o s' e) minScore = false).
      { rewrite F32.score_ltb in Hm |- * by (auto using hop_score, min_score). bsolve. apply Z.ltb_ge. lia. }
      destruct (op_edge _ _ O u s' e n Hu Hf Hn Hm') as [(s2 & H2 & Hle2)|(x & Hx & _ & Hxs)].
      * left. exists s2. split; [done|lia].
      * apply Hq. exists x. rewrite Hxs. split; [done|lia].
    + apply Hq. exists x. split; [done|]. pose proof (hop_le o Hd s e Hs He). lia.
Qed.

(** Dropping a popped item whose node is settled. *)
Lemma sound_pop scores h it h' : sound scores h -> heap_pop item_less h = Some (it, h') -> sound scores h'.
Proof.
  intros [Q I D] Hpop. destruct (queue_pop _ _ _ Q Hpop) as (Q' & _ & Hperm & _). split; [done| |done].
  intros x Hx. apply I. rewrite Hperm. by right.
Qed.

Lemma optimal_pop scores h it h' s : sound scores h -> optimal scores h -> heap_pop item_less h = Some (it, h') ->
  scores !! hid it = Some s -> optimal scores h'.
Proof.
  intros S [O1 O2 O3] Hpop Hs. destruct (queue_pop _ _ _ (so_queue _ _ S) Hpop) as (_ & _ & Hperm & _).
  assert (Hit : it ∈ h) by (rewrite Hperm; by left). pose proof (O3 it _ _ Hit Hs) as Hle. split.
  - intros c n Hc Hn. destruct (O1 c n Hc Hn) as [?|(x & Hx & Hid & Hxs)]; [by left|]. rewrite Hperm in Hx.
    apply elem_of_cons in Hx as [->|Hx]; [left; exists s; subst c; split; [done|]; by rewrite <- Hxs|right; eauto].
  - intros u su e n Hu Hf Hn Hm. destruct (O2 u su e n Hu Hf Hn Hm) as [?|(x & Hx & Hid & Hxs)]; [by left|]. rewrite Hperm in Hx.
    apply elem_of_cons in Hx as [->|Hx]; [left; exists s; rewrite <- Hid, <- Hxs; done|right; eauto].
  - intros x v sv Hx Hv. apply (O3 x v sv); [rewrite Hperm; by right|done].
Qed.

(** Settling a popped item. *)
Lemma sound_settle scores h it h' : sound scores h -> heap_pop item_less h = Some (it, h') ->
  sound (<[hid it := hscore it]> scores) h'.
Proof.
  intros S Hpop. destruct (sound_pop _ _ _ _ S Hpop) as [Q I D]. split; try done.
  intros v s. destruct (decide (hid it = v)) as [<-|]; [|rewrite lookup_insert_ne by done; apply D].
  rewrite lookup_insert_eq. intros [= <-]. exists (hdepth it). apply (so_items _ _ S).
  destruct (queue_pop _ _ _ (so_queue _ _ S) Hpop) as (_ & _ & -> & _). by left.
Qed.

Lemma sound_expand scores it h X : sound scores h -> path (hid it) (hscore it) (hdepth it) ->
  (MaxDepth o >? 0) && (hdepth it >=? MaxDepth o) = false ->
  expanded it scores (adjacent m (hid it) backward) h X -> sound scores X.
Proof.
  intros [Q I D] Hp Hlim [Q' _ N _ _]. split; try done. intros x Hx. destruct (N x Hx) as [?|(e & n & Hf & Hn & _ & Hm & ->)]; [auto|].
  cbn. by eapply reaches_hop.
Qed.

Lemma optimal_settle scores h it h' X : sound scores h -> optimal scores h -> heap_pop item_less h = Some (it, h') ->
  scores !! hid it = None ->
  expanded it (<[hid it := hscore it]> scores) (adjacent m (hid it) backward) h' X ->
  optimal (<[hid it := hscore it]> scores) X.
Proof.
  intros S [O1 O2 O3] Hpop Hnone [_ _ N Old A]. destruct (queue_pop _ _ _ (so_queue _ _ S) Hpop) as (_ & Hit & Hperm & Hmax).
  assert (Hith : it ∈ h) by (rewrite Hperm; by left).
  assert (Hge : forall v s, <[hid it := hscore it]> scores !! v = Some s -> F32.mag (hscore it) <= F32.mag s).
  { intros v s. destruct (decide (hid it = v)) as [<-|]; [rewrite lookup_insert_eq; intros [= <-]; done|].
    rewrite lookup_insert_ne by done. by apply O3. }
  assert (Hmove : forall x, x ∈ h -> (exists s, <[hid it := hscore it]> scores !! hid x = Some s /\ F32.mag (hscore x) <= F32.mag s) \/ x ∈ X).
  { intros x Hx. rewrite Hperm in Hx. apply elem_of_cons in Hx as [->|Hx]; [left|right; auto].
    exists (hscore it). by rewrite lookup_insert_eq. }
  assert (Hkeep : forall v s, scores !! v = Some s -> <[hid it := hscore it]> scores !! v = Some s).
  { intros v s Hv. rewrite lookup_insert_ne; [done|]. congruence. }
  split.
  - intros c n Hc Hn. destruct (O1 c n Hc Hn) as [(s & Hs & Hle)|(x & Hx & Hid & Hxs)]; [left; eauto|].
    destruct (Hmove x Hx) as [(s & Hs & Hle)|]; [left; exists s; rewrite <- Hid, <- Hxs; done|right; eauto].
  - intros u s e n Hu Hf Hn Hm. destruct (decide (hid it = u)) as [<-|Hne].
    + rewrite lookup_insert_eq in Hu. injection Hu as <-.
      destruct (<[hid it := hscore it]> scores !! next_of backward e) as [s'|] eqn:Es.
      * left. exists s'. split; [done|]. pose proof (Hge _ _ Es).
        pose proof (hop_le o Hd (hscore it) e Hit (edge_normal e (proj1 Hf))). lia.
      * right. destruct Hf as (He & Hsrc & Ht). pose proof He as He'. apply list_elem_of_lookup in He' as [ei Hei].
        eapply (A ei); eauto. apply adjacent_elem; eauto.
    + rewrite lookup_insert_ne in Hu by done. destruct (O2 u s e n Hu Hf Hn Hm) as [(s' & Hs' & Hle)|(x & Hx & Hid & Hxs)]; [left; eauto|].
      destruct (Hmove x Hx) as [(s' & Hs' & Hle)|]; [left; exists s'; rewrite <- Hid, <- Hxs; done|right; eauto].
  - intros x v s Hx Hv. pose proof (Hge v s Hv). destruct (N x Hx) as [Hx'|(e & n & Hf & _ & _ & _ & ->)].
    + pose proof (Hmax x Hx'). lia.
    + cbn. pose proof (hop_le o Hd (hscore it) e Hit (edge_normal e (proj1 Hf))). lia.
Qed.

(** Edges whose source is not settled yet: what can still be pushed. *)
Definition unsettled (scores : gmap bytes f32) : nat :=
  length (List.filter (fun e => bool_decide (scores !! src_of backward e = None)) (edges m)).

Lemma unsettled_settle scores u s : scores !! u = None ->
  (unsettled (<[u := s]> scores) + length (adjacent m u backward) = unsettled scores)%nat.
Proof.
  intros Hu. rewrite adjacent_length by done. unfold unsettled. induction (edges m) as [|e es IH]; [done|]. cbn [List.filter].
  destruct (decide (src_of backward e = u)) as [E|E].
  - rewrite (bool_decide_true (src_of backward e = u)) by done. rewrite E, lookup_insert_eq.
    rewrite bool_decide_false by done. rewrite (bool_decide_true (scores !! u = None)) by done. cbn [length]. lia.
  - rewrite (bool_decide_false (src_of backward e = u)) by done. rewrite lookup_insert_ne by done.
    case_bool_decide; cbn [length]; lia.
Qed.

(** What the loop's result guarantees. *)
Record walk_post (w : walked) : Prop := {
  wp_path : forall v s, w_scores w !! v = Some s -> exists d, path v s d;
  wp_max : (MaxDepth o >? 0) = false -> forall v s s' d, w_scores w !! v = Some s -> path v s' d -> F32.mag s' <= F32.mag s;
  wp_rest : (MaxDepth o >? 0) = false -> forall v s' d, w_scores w !! v = None -> path v s' d ->
    (w_trunc w = true \/ Z.of_nat (size (w_scores w)) >= MaxNodes o) /\
    (forall u s, w_scores w !! u = Some s -> F32.mag s' <= F32.mag s);
  wp_visited : w_visited w = Z.of_nat (size (w_scores w))
}.

(** Stopping right after a node is settled. *)
Lemma post_stop scores h it h' trunc visited ev : sound scores h -> ((MaxDepth o >? 0) = false -> optimal scores h) ->
  heap_pop item_less h = Some (it, h') -> scores !! hid it = None -> visited = Z.of_nat (size scores) ->
  trunc = true \/ Z.of_nat (size (<[hid it := hscore it]> scores)) >= MaxNodes o ->
  walk_post (MkWalked (<[hid it := hscore it]> scores) trunc (visited + 1) ev).
Proof.
  intros S O Hpop Hnone Hvis Hwhy. destruct (queue_pop _ _ _ (so_queue _ _ S) Hpop) as (_ & _ & Hperm & Hmax).
  assert (Htop : forall x, x ∈ h -> F32.mag (hscore x) <= F32.mag (hscore it)).
  { intros x Hx. rewrite Hperm in Hx. apply elem_of_cons in Hx as [->|Hx]; [done|auto]. }
  split; cbn [w_scores w_trunc w_visited].
  - apply (so_done _ _ (sound_settle _ _ _ _ S Hpop)).
  - intros Hun v s s' d Hv Hp. specialize (O Hun). destruct (covered _ _ S O v s' d Hp) as [(s2 & H2 & Hle)|(H2 & x & Hx & Hle)].
    + rewrite lookup_insert_ne in Hv by congruence. congruence.
    + pose proof (Htop x Hx). destruct (decide (hid it = v)) as [<-|]; [|rewrite lookup_insert_ne in Hv by done; congruence].
      rewrite lookup_insert_eq in Hv. injection Hv as <-. lia.
  - intros Hun v s' d Hv Hp. specialize (O Hun). split; [done|]. intros u s Hu.
    destruct (decide (hid it = v)) as [<-|Hne]; [by rewrite lookup_insert_eq in Hv|]. rewrite lookup_insert_ne in Hv by done.
    destruct (covered _ _ S O v s' d Hp) as [(s2 & H2 & _)|(_ & x & Hx & Hle)]; [congruence|]. pose proof (Htop x Hx).
    destruct (decide (hid it = u)) as [<-|]; [rewrite lookup_insert_eq in Hu; injection Hu as <-; lia|].
    rewrite lookup_insert_ne in Hu by done. pose proof (op_mono _ _ O x u s Hx Hu). lia.
  - rewrite map_size_insert_None by done. lia.
Qed.

Lemma walk_correct expired fuel : forall h scores visited ev,
  sound scores h -> ((MaxDepth o >? 0) = false -> optimal scores h) -> visited = Z.of_nat (size scores) ->
  (length h + unsettled scores < fuel)%nat ->
  exists w, walk fuel m o backward expired h scores visited ev = Some w /\ walk_post w.
Proof.
  induction fuel as [|f IH]; intros h scores visited ev S O Hvis Hfuel; [lia|]. cbn [walk].
  destruct (heap_pop item_less h) as [[it h']|] eqn:Hpop.
  2:{ apply queue_pop_none in Hpop as ->. eexists. split; [done|]. split; cbn; [apply S| | |done].
      - intros Hun v s s' d Hv Hp. destruct (covered _ _ S (O Hun) v s' d Hp) as [(s2 & H2 & Hle)|(_ & x & Hx & _)]; [congruence|].
        by apply elem_of_nil in Hx.
      - intros Hun v s' d Hv Hp. destruct (covered _ _ S (O Hun) v s' d Hp) as [(s2 & H2 & Hle)|(_ & x & Hx & _)]; [congruence|].
        by apply elem_of_nil in Hx. }
  destruct (queue_pop _ _ _ (so_queue _ _ S) Hpop) as (Q' & Hit & Hperm & Hmax).
  pose proof (Permutation_length Hperm) as Hlen. cbn in Hlen.
  destruct (scores !! hid it) as [s0|] eqn:Hdone.
  { apply IH; [by eapply sound_pop|intros Hun; eapply optimal_pop; eauto|done|lia]. }
  pose proof (unsettled_settle scores (hid it) (hscore it) Hdone) as Hun'.
  pose proof (sound_settle _ _ _ _ S Hpop) as S'.
  assert (Hvis' : visited + 1 = Z.of_nat (size (<[hid it := hscore it]> scores))) by (rewrite map_size_insert_None by done; lia).
  destruct (Z.of_nat (size _) >=? MaxNodes o) eqn:Ecap; bsolve.
  { eexists. split; [done|]. eapply post_stop; eauto. right. lia. }
  destruct ((Deadline o >? 0) && _ && _) eqn:Edl.
  { eexists. split; [done|]. eapply post_stop; eauto. }
  destruct ((MaxDepth o >? 0) && (hdepth it >=? MaxDepth o)) eqn:Edep.
  { apply IH; [done|intros Hun; rewrite Hun in Edep; done|done|lia]. }
  destruct (visit_all it (<[hid it := hscore it]> scores) (adjacent m (hid it) backward) Hit ltac:(auto) h' ev Q') as (X & ev' & -> & HX).
  apply IH; [|intros Hun; eapply optimal_settle; eauto|done|].
  - eapply sound_expand; eauto. apply (so_items _ _ S). rewrite Hperm. by left.
  - pose proof (ex_length _ _ _ _ _ HX). lia.
Qed.
End Walk.

(** ** The slice as a whole *)

Section Slice.
Context (g : graph) (criteria : list bytes) (o : SliceOptions) (backward : bool).

(** The seeded queue holds the live criteria. *)
Lemma seeds_ok m C h : wf m -> F32.score (Decay (withDefaults o)) -> queue_ok h ->
  let h' := fold_left (seed m) C h in
  queue_ok h' /\ (length h' <= length h + length C)%nat /\
  (forall x, x ∈ h' -> x ∈ h \/ exists n, hid x ∈ C /\ node_of m (hid x) = Some n /\ hscore x = F32.one /\ hdepth x = 0) /\
  (forall x, x ∈ h -> x ∈ h') /\
  (forall c n, c ∈ C -> node_of m c = Some n -> exists x, x ∈ h' /\ hid x = c /\ hscore x = F32.one).
Proof.
  intros W Hd. revert h. induction C as [|c C IH]; intros h Hq; cbn [fold_left].
  { split_and!; try done; [cbn; lia|auto|]. intros c n Hc. by apply elem_of_nil in Hc. }
  unfold seed at 2 4 6 8 10. destruct (node_of m c) as [n|] eqn:En.
  - set (x := MkItem c F32.one 0 (nTurn n)). pose proof (heap_push_perm item_less h x) as Hperm.
    destruct (IH (heap_push item_less h x)) as (H1 & H2 & H3 & H4 & H5); [apply queue_push; [done|apply F32.score_one]|].
    split_and!; try done.
    + rewrite (Permutation_length Hperm) in H2. cbn in *. lia.
    + intros y Hy. destruct (H3 y Hy) as [Hy'|(n' & Hin & ?)]; [|right; exists n'; split; [by right|done]].
      rewrite Hperm in Hy'. apply elem_of_cons in Hy' as [->|]; [right|by left]. exists n. split; [by left|done].
    + intros y Hy. apply H4. rewrite Hperm. by right.
    + intros c' n' [->|Hc]%elem_of_cons Hn'; [|eauto]. exists x. split; [|done]. apply H4. rewrite Hperm. by left.
  - destruct (IH h Hq) as (H1 & H2 & H3 & H4 & H5). split_and!; try done.
    + cbn. lia.
    + intros y Hy. destruct (H3 y Hy) as [|(n' & Hin & ?)]; [by left|]. right. exists n'. split; [by right|done].
    + intros c' n' [->|Hc]%elem_of_cons Hn'; [congruence|eauto].
Qed.

Lemma unsettled_empty m : unsettled m backward ∅ = length (edges m).
Proof.
  unfold unsettled. induction (edges m) as [|e es IH]; [done|]. cbn [List.filter].
  rewrite lookup_empty, bool_decide_true by done. cbn [length]. by rewrite IH.
Qed.

(** The walk of a slice always ends, and its result has the loop's guarantees. *)
Lemma slice_runs expired : wf (mem g) -> closed g = false -> decay_ok (Decay o) -> exists w r,
  graph_slice g criteria o backward expired = Some (Ok r) /\
  walk_post (mem g) (withDefaults o) backward criteria w /\ Scores r = w_scores w /\ Truncated r = w_trunc w /\
  Visited r = w_visited w /\ Order r = orderByScore (w_scores w) (nodes (mem g)).
Proof.
  intros W Hcl Hdec. pose proof (withDefaults_decay o Hdec) as Hd. set (m := mem g) in *.
  destruct (seeds_ok m criteria [] W Hd) as (Hq & Hlen & Hin & _ & Hall); [split; [constructor|intros k Hk; cbn in Hk; lia]|].
  unfold graph_slice. rewrite Hcl. fold m. set (h := fold_left (seed m) criteria []) in *.
  assert (S : sound m (withDefaults o) backward criteria ∅ h).
  { split; [done| |intros v s; by rewrite lookup_empty]. intros x Hx.
    destruct (Hin x Hx) as [Hx'|(n & Hc & Hn & -> & ->)]; [by apply elem_of_nil in Hx'|]. by eapply reaches_start. }
  assert (O : optimal m (withDefaults o) backward criteria ∅ h).
  { split; [intros c n Hc Hn; right; eauto|intros u s e n; by rewrite lookup_empty|intros x v s _; by rewrite lookup_empty]. }
  destruct (walk_correct m W (withDefaults o) Hd backward criteria expired (walk_fuel m criteria) h ∅ 0 0 S (fun _ => O) eq_refl)
    as (w & Hw & Hpost).
  { rewrite unsettled_empty. unfold walk_fuel. cbn in Hlen. lia. }
  destruct h as [|x h'] eqn:Eh; rewrite <- Eh in *.
  - exists w. eexists. split; [done|]. subst h. rewrite Eh in Hw. cbn in Hw. injection Hw as <-. split; [done|].
    cbn. unfold orderByScore. rewrite map_to_list_empty. done.
  - exists w. eexists. split; [by rewrite Hw|]. done.
Qed.
End Slice.

Lemma slice_score_path m o backward criteria w v s : wf m -> F32.score (Decay o) ->
  walk_post m o backward criteria w -> w_scores w !! v = Some s -> F32.score s.
Proof. intros W Hd Hp Hv. destruct (wp_path _ _ _ _ _ Hp v s Hv) as [d Hr]. by eapply path_score. Qed.

Definition turn_of (ns : gmap bytes Node) (id : bytes) : Z := match ns !! id with Some n => nTurn n | None => 0 end.
Definition order_key (ns : gmap bytes Node) (p : bytes * f32) : pos_key := score_key p.2 (turn_of ns p.1) p.1.

Lemma before_asym s t i s' t' i' : before s t i s' t' i' = true -> before s' t' i' s t i = false.
Proof.
  unfold before. rewrite (F32.neb_sym s' s). destruct (F32.neb s s'); [apply F32.gtb_asym|].
  rewrite (Z.eqb_sym t' t). destruct (Z.eqb_spec t t') as [->|]; cbn [negb].
  - rewrite bool_decide_eq_true, bool_decide_eq_false. intros H1 H2. apply (bytes_lt_irrefl i). by etransitivity.
  - rewrite Z.ltb_lt, Z.ltb_ge. lia.
Qed.

#[global] Instance order_le_total ns : Total (order_le ns).
Proof.
  intros a b. unfold order_le. destruct (before b.2 _ b.1 a.2 _ a.1) eqn:E; [right|by left]. by apply before_asym in E.
Qed.

(** The order of a slice: its scored nodes once each, best first, ties by turn and then identity. *)
Lemma order_sorted ns scores : (forall v s, scores !! v = Some s -> F32.score s) -> exists L,
  orderByScore scores ns = L.*1 /\ L ≡ₚ map_to_list scores /\ StronglySorted key_le (order_key ns <$> L).
Proof.
  intros Hsc. set (L := merge_sort (order_le ns) (map_to_list scores)). exists L. split; [done|].
  assert (HP : L ≡ₚ map_to_list scores) by apply merge_sort_Permutation. split; [done|].
  assert (Hin : Forall (fun p => F32.score p.2) L).
  { apply Forall_forall. intros [v s] Hp. rewrite HP in Hp. apply elem_of_map_to_list in Hp. eauto. }
  apply Sorted_StronglySorted; [apply _|].
  assert (HS : Sorted (order_le ns) L) by (apply Sorted_merge_sort; apply _).
  clearbody L. clear HP. induction HS as [|a l Hs IH Hh]; [constructor|]. apply Forall_cons in Hin as [Ha Hin].
  cbn. constructor; [by apply IH|]. destruct Hh as [|b l Hab]; [constructor|]. apply Forall_cons in Hin as [Hb _].
  cbn. constructor. by apply before_false.
Qed.

(** ** Termination, whatever the options *)

Lemma visit_edge_length m o backward it scores h ev ei :
  (length (visit_edge m o backward it scores (h, ev) ei).1 <= S (length h))%nat.
Proof.
  cbn [visit_edge]. repeat case_match; cbn [fst]; try lia. rewrite (Permutation_length (heap_push_perm _ _ _)). cbn. lia.
Qed.

Lemma visit_fold_length m o backward it scores L h ev :
  (length (fold_left (visit_edge m o backward it scores) L (h, ev)).1 <= length h + length L)%nat.
Proof.
  revert h ev. induction L as [|ei L IH]; intros h ev; cbn [fold_left length]; [cbn; lia|].
  pose proof (visit_edge_length m o backward it scores h ev ei) as H1.
  destruct (visit_edge m o backward it scores (h, ev) ei) as [h' ev']. specialize (IH h' ev'). cbn in H1. lia.
Qed.

Lemma walk_ends m o backward expired fuel : wf m -> forall h scores visited ev,
  (length h + unsettled m backward scores < fuel)%nat -> walk fuel m o backward expired h scores visited ev <> None.
Proof.
  intros W. induction fuel as [|f IH]; intros h scores visited ev Hf; [lia|]. cbn [walk].
  destruct (heap_pop item_less h) as [[it h']|] eqn:Hpop; [|done].
  pose proof (Permutation_length (heap_pop_perm _ _ _ _ Hpop)) as Hlen. cbn in Hlen.
  destruct (scores !! hid it) eqn:Hdone; [apply IH; lia|].
  pose proof (unsettled_settle m W backward scores (hid it) (hscore it) Hdone).
  repeat case_match; try done; [apply IH; lia|].
  pose proof (visit_fold_length m o backward it (<[hid it := hscore it]> scores) (adjacent m (hid it) backward) h' ev) as Hv.
  match goal with E : fold_left _ _ _ = _ |- _ => rewrite E in Hv end. cbn in Hv. apply IH. lia.
Qed.

Lemma seeds_length m C h : (length (fold_left (seed m) C h) <= length h + length C)%nat.
Proof.
  revert h. induction C as [|c C IH]; intros h; cbn [fold_left length]; [lia|]. etransitivity; [apply IH|].
  unfold seed. case_match; [rewrite (Permutation_length (heap_push_perm _ _ _)); cbn|]; lia.
Qed.

(** ** A concrete graph *)

Module Sample.
Definition nd (id : bytes) (k turn pos : Z) : Node := MkNode id k turn 0 pos [] zeroHash 10 false.
Definition use (i : Z) : bytes := ToolUseNode (Itoa i).
Definition ed (i j : Z) (k : Z) : Edge := MkEdge (use i) (use j) k F32.one 1.

Definition build (ns : list Z) (es : list (Z * Z * Z)) : memory :=
  fold_left (fun m e => (store_edge m (ed e.1.1 e.1.2 e.2)).1) es
    (fold_left (fun m i => store_node m (nd (use i) KindToolUse i (10 * i))) ns empty_memory).

Definition on (m : memory) : graph := MkGraph m (MkIndex [] [] [] []) true [] 0 zero_stats false.

(** 1 depends on 2 directly through a weak edge and through 3 by strong ones; 2 depends on 4. *)
Definition diamond : memory :=
  build [1; 2; 3; 4] [(2, 1, EdgeSupersedes); (3, 1, EdgeProduces); (2, 3, EdgeConsumes); (4, 2, EdgeControlOnly)].

Definition full : SliceOptions := MkSliceOptions false 0 0 F32.zero 0.
Definition never : Z -> bool := fun _ => false.

Lemma use_nonempty i : Itoa i <> [].
Proof. apply Itoa_not_nil. Qed.

Lemma build_wf ns es : Forall (fun i => 0 <= i) ns -> Forall (fun e => normal (ed e.1.1 e.1.2 e.2)) es -> wf (build ns es).
Proof.
  intros Hn He. unfold build. set (m0 := fold_left _ ns empty_memory). assert (W0 : wf m0).
  { unfold m0. clear m0. assert (H0 : wf empty_memory) by apply wf_empty. revert H0. generalize empty_memory.
    induction Hn as [|i ns Hi _ IH]; intros m W; cbn [fold_left]; [done|]. apply IH. apply store_node_wf; [done|].
    unfold validateNode. cbn [nID nd]. unfold use, ToolUseNode. rewrite ParseNodeID_newNodeID by (done || apply Itoa_not_nil).
    cbn [nKind nPos nTokens nd]. rewrite !andb_true_iff, !Z.geb_le, Z.eqb_eq. lia. }
  clearbody m0. revert m0 W0. induction He as [|e es He _ IH]; intros m W; cbn [fold_left]; [done|]. apply IH. by apply store_edge_wf.
Qed.

Lemma ed_normal i j k : use i <> use j -> k <= EdgeControlOnly -> normal (ed i j k).
Proof.
  intros Hij Hk. split; cbn [eFrom eTo eKind eWeight ed]; try done.
  - unfold use, ToolUseNode. rewrite ParseNodeID_newNodeID by (done || apply Itoa_not_nil). eauto.
  - unfold use, ToolUseNode. rewrite ParseNodeID_newNodeID by (done || apply Itoa_not_nil). eauto.
  - split; [apply F32.score_one|]. cbn. unfold F32.unit_one. lia.
Qed.

Lemma diamond_wf : wf diamond.
Proof.
  apply build_wf; [repeat constructor; lia|].
  repeat (apply Forall_cons; split; [apply ed_normal; vm_compute; congruence|]). constructor.
Qed.
End Sample.

(** ** Claims *)

(** Every slice call returns: whatever the graph, the criteria, the options (a NaN decay
    included), the direction and the clock, the walk ends within one iteration per criterion and
    edge, so the result is a slice, or the closed error on a closed graph. *)
Theorem slice_terminates g criteria o backward expired : wf (mem g) ->
  exists r, graph_slice g criteria o backward expired = Some r /\ r <> Panic.
Proof.
  intros W. unfold graph_slice. destruct (closed g); [eexists; done|].
  pose proof (seeds_length (mem g) criteria []) as Hl. cbn in Hl.
  destruct (fold_left (seed (mem g)) criteria []) as [|x h] eqn:E; [eexists; done|].
  destruct (walk _ _ _ _ _ _ _ _ _) eqn:Ew; [eexists; done|]. exfalso. eapply walk_ends; [exact W| |exact Ew].
  rewrite unsettled_empty. unfold walk_fuel. lia.
Qed.

Lemma slice_terminates_witness : exists r,
  graph_slice (Sample.on Sample.diamond) [Sample.use 1] (MkSliceOptions true 3 2 NaN 1) true (fun _ => true) = Some r /\ r <> Panic.
Proof. apply slice_terminates. exact Sample.diamond_wf. Defined.



(** What the sample slice computes: 2 gets the two-hop score of about 0.7225, not the direct 0.255. *)
Example diamond_scores :
  option_map (fun r => match r with Ok r => ((fun i => Scores r !! Sample.use i) <$> [1; 3; 2; 4], Order r) | _ => ([], []) end)
    (BackwardSlice (Sample.on Sample.diamond) [Sample.use 1] Sample.full Sample.never)
  = let h := F32.mul (F32.mul DefaultDecay DefaultDecay) (F32.mul DefaultDecay (F32.of_ratio 50 100)) in
    Some ([Some F32.one; Some DefaultDecay; Some (F32.mul DefaultDecay DefaultDecay); Some h], Sample.use <$> [1; 3; 2; 4]).
Proof. vm_compute. reflexivity. Qed.

(** A thin path is a full path with the same score. *)
Lemma thin_reaches m o o' backward criteria v s d :
  Decay o' = Decay o -> MaxDepth o' = MaxDepth o -> Thin o' = false ->
  reaches m o backward criteria v s d -> reaches m o' backward criteria v s d.
Proof.
  intros Hdec Hdep Ht. induction 1 as [c n Hc Hn|u s d e n _ IH Hlim (He & Hsrc & _) Hn Hm]; [by eapply reaches_start|].
  assert (Hh : hop o s e = hop o' s e) by (unfold hop; by rewrite Hdec). rewrite Hh in *.
  eapply reaches_hop; eauto; [by rewrite Hdep|]. split_and!; try done. by rewrite Ht.
Qed.

(** A thin slice is contained in the full one: when the full walk is not cut by its node cap or
    deadline, every node a thin walk scores, with whatever caps and clock of its own, is scored by
    the full walk at least as high.  Both list their nodes best first, ties by turn and then
    identity, each node once. *)
Theorem slice_thin_contained g criteria thin backward expired expired' :
  wf (mem g) -> closed g = false -> decay_ok (Decay thin) -> MaxDepth thin <= 0 -> Thin thin = true ->
  exists rt, graph_slice g criteria thin backward expired = Some (Ok rt) /\
  forall cap dl, let full := MkSliceOptions false (MaxDepth thin) cap (Decay thin) dl in
  exists rf, graph_slice g criteria full backward expired' = Some (Ok rf) /\
    (Truncated rf = false -> Z.of_nat (size (Scores rf)) < MaxNodes (withDefaults full) ->
     forall v s, Scores rt !! v = Some s -> exists s', Scores rf !! v = Some s' /\ F32.leb s s' = true) /\
    (forall r, r = rt \/ r = rf -> exists L, Order r = L.*1 /\ L ≡ₚ map_to_list (Scores r) /\
       StronglySorted key_le (order_key (nodes (mem g)) <$> L)).
Proof.
  intros W Hcl Hdec Hdep Hthin.
  destruct (slice_runs g criteria thin backward expired W Hcl Hdec) as (w & rt & Hrt & Hp & Hs & _ & _ & Ho).
  exists rt. split; [done|]. intros cap dl full.
  assert (Hdec' : decay_ok (Decay full)) by done.
  destruct (slice_runs g criteria full backward expired' W Hcl Hdec') as (wf' & rf & Hrf & Hp' & Hs' & Ht' & _ & Ho').
  exists rf. split; [done|]. pose proof (withDefaults_decay _ Hdec) as Hd. pose proof (withDefaults_decay _ Hdec') as Hd'.
  assert (Hun : (MaxDepth (withDefaults full) >? 0) = false) by (cbn; case_match; bsolve; apply gtb_false; lia).
  split.
  - rewrite Hs, Hs', Ht'. intros Htr Hcap v s Hv. destruct (wp_path _ _ _ _ _ Hp v s Hv) as [d Hpath].
    apply (thin_reaches _ _ (withDefaults full)) in Hpath; [|done..].
    destruct (w_scores wf' !! v) as [s'|] eqn:Hf.
    + exists s'. split; [done|]. pose proof (wp_max _ _ _ _ _ Hp' Hun v s' s d Hf Hpath).
      rewrite F32.score_leb; [by apply Z.leb_le|by eapply path_score|by eapply slice_score_path].
    + destruct (wp_rest _ _ _ _ _ Hp' Hun v s d Hf Hpath) as [[?|?] _]; [congruence|lia].
  - intros r [->| ->].
    + rewrite Ho, Hs. apply order_sorted. intros v s. exact (slice_score_path _ _ _ _ _ v s W Hd Hp).
    + rewrite Ho', Hs'. apply order_sorted. intros v s. exact (slice_score_path _ _ _ _ _ v s W Hd' Hp').
Qed.

Lemma slice_thin_contained_witness : exists rt,
  graph_slice (Sample.on Sample.diamond) [Sample.use 1] (MkSliceOptions true 0 0 F32.one 0) true Sample.never = Some (Ok rt).
Proof.
  destruct (slice_thin_contained (Sample.on Sample.diamond) [Sample.use 1] (MkSliceOptions true 0 0 F32.one 0) true
    Sample.never Sample.never) as (rt & Hrt & _); [exact Sample.diamond_wf|reflexivity| |cbn; lia|reflexivity|eauto].
  split; [cbn; split; [vm_compute; split; congruence|apply F32.representable_one]|done].
Defined.

(** ** Divergences *)

(** A two-hop path through concrete edges, checked by evaluation. *)
Lemma two_hops m o c u e1 e2 n0 n1 n2 : node_of m c = Some n0 -> e1 ∈ edges m -> e2 ∈ edges m ->
  eTo e1 = c -> eFrom e1 = u -> eTo e2 = u -> Thin o = false -> (MaxDepth o >? 0) && (0 + 1 >=? MaxDepth o) = false ->
  (MaxDepth o >? 0) && (0 >=? MaxDepth o) = false ->
  node_of m u = Some n1 -> node_of m (eFrom e2) = Some n2 ->
  F32.ltb (hop o F32.one e1) minScore = false -> F32.ltb (hop o (hop o F32.one e1) e2) minScore = false ->
  reaches m o true [c] (eFrom e2) (hop o (hop o F32.one e1) e2) 2.
Proof.
  intros Hc He1 He2 Ht1 Hf1 Ht2 Hthin Hl1 Hl0 Hn1 Hn2 Hm1 Hm2. change 2 with (0 + 1 + 1).
  apply (reaches_hop m o true [c] u _ _ e2 n2); [|done| |done|done].
  - rewrite <- Hf1. apply (reaches_hop m o true [c] c _ _ e1 n1); [|done| |by rewrite <- Hf1 in Hn1|done].
    + eapply reaches_start; [by left|done].
    + split_and!; [done..|]. by rewrite Hthin.
  - split_and!; [done..|]. by rewrite Hthin.
Qed.

Ltac by_eval := vm_compute; reflexivity.
Ltac by_member i := eapply (list_elem_of_lookup_2 _ i); by_eval.

(** The chain 3 -> 2 -> 1. *)
Definition chain : memory := Sample.build [1; 2; 3] [(2, 1, EdgeProduces); (3, 2, EdgeProduces)].

(** The node cap is tested before the node that reaches it is expanded, so a slice cut by it can
    report [Truncated = false] although a reachable node was withheld: node 3 of the chain, sliced
    with a cap of two nodes. *)
Theorem truncation_unreported : exists r s,
  BackwardSlice (Sample.on chain) [Sample.use 1] (MkSliceOptions false 0 2 F32.zero 0) Sample.never = Some (Ok r) /\
  Truncated r = false /\ Scores r !! Sample.use 3 = None /\
  reaches chain (withDefaults (MkSliceOptions false 0 2 F32.zero 0)) true [Sample.use 1] (Sample.use 3) s 2.
Proof.
  eexists _, _. split; [by_eval|]. split; [reflexivity|]. split; [by_eval|].
  change (Sample.use 3) with (eFrom (Sample.ed 3 2 EdgeProduces)).
  eapply (two_hops chain _ _ (Sample.use 2) (Sample.ed 2 1 EdgeProduces) (Sample.ed 3 2 EdgeProduces));
    try by_eval; [by_member 0%nat|by_member 1%nat].
Qed.

(** A depth limit does not give the bounded neighbourhood: a node settled first through a long strong
    path is not expanded, although a shorter weak path to it leaves hops to spare.  In the diamond
    node 4 is two hops from node 1, and a slice limited to two hops does not list it. *)
Theorem depth_limit_misses : exists r s,
  BackwardSlice (Sample.on Sample.diamond) [Sample.use 1] (MkSliceOptions false 2 0 F32.zero 0) Sample.never = Some (Ok r) /\
  Truncated r = false /\ Scores r !! Sample.use 4 = None /\
  reaches Sample.diamond (withDefaults (MkSliceOptions false 2 0 F32.zero 0)) true [Sample.use 1] (Sample.use 4) s 2.
Proof.
  eexists _, _. split; [by_eval|]. split; [reflexivity|]. split; [by_eval|].
  change (Sample.use 4) with (eFrom (Sample.ed 4 2 EdgeControlOnly)).
  eapply (two_hops Sample.diamond _ _ (Sample.use 2) (Sample.ed 2 1 EdgeSupersedes) (Sample.ed 4 2 EdgeControlOnly));
    try by_eval; [by_member 0%nat|by_member 3%nat].
Qed.
