(* ===== verification/DagLog.v ===== *)
(** * The dependence graph: the log

    Models [src/internal/dag/wire.go], [log.go], [compact.go] and the mutating half of [graph.go]:
    records as lines of [deps.jsonl], loading with its hold-back of the last line, appending with
    every failure point of the file system, tombstones and compaction.  The text of a JSON document
    is [encoding/json]'s: the marshalling and unmarshalling calls are the operations of the class
    [Json], and [JsonLaws] states what the code relies on. *)

From S2P Require Import Prelude GoLib Core Frame Select F32 Utf8 Strconv Dag DagIndex.

(** ** [encoding/json] as the file uses it *)

Class Json := {
  enc_node : Node -> bytes;
  enc_edge : Edge -> bytes;
  enc_tomb : bytes -> Z -> bytes;
  (** version, generation, time, node and edge counts *)
  enc_gen : Z -> Z -> Z -> Z -> Z -> bytes;
  (** [json.Unmarshal] into the probe, a node, an edge, a tombstone line, a generation line *)
  dec_type : bytes -> option bytes;
  dec_node : bytes -> option Node;
  dec_edge : bytes -> option Edge;
  dec_tomb : bytes -> option (bytes * Z);
  dec_gen : bytes -> option (Z * Z * Z)
}.

(** ** The wire ([wire.go]) *)

Definition wireVersion : Z := 1.
Definition maxLineBytes : nat := Z.to_nat (2 ^ 20).
Definition newline : byte := x0a.
Definition carriage : byte := x0d.

Definition type_node : bytes := str "node".
Definition type_edge : bytes := str "edge".
Definition type_tomb : bytes := str "tombstone".
Definition type_gen : bytes := str "generation".

(** The UTF-8 texts of the white-space runes ([unicode.IsSpace]). *)
Definition space_runes : list bytes := map (map z2b)
  ([[9]; [10]; [11]; [12]; [13]; [32]; [0xC2; 0x85]; [0xC2; 0xA0]; [0xE1; 0x9A; 0x80];
    [0xE2; 0x80; 0xA8]; [0xE2; 0x80; 0xA9]; [0xE2; 0x80; 0xAF]; [0xE2; 0x81; 0x9F]; [0xE3; 0x80; 0x80]]
   ++ map (fun c => [0xE2; 0x80; c]) (seqZ 0x80 11)).

(** The width of a leading white-space rune, 0 if there is none. *)
Definition space_width (s : bytes) : nat :=
  match List.find (fun r => bool_decide (take (length r) s = r)) space_runes with Some r => length r | None => 0%nat end.

(** [len(bytes.TrimSpace(line)) == 0]. *)
Fixpoint blank (fuel : nat) (s : bytes) : bool :=
  match s, fuel with
  | [], _ => true
  | _, O => false
  | _, S f => if (space_width s =? 0)%nat then false else blank f (drop (space_width s) s)
  end.

Inductive decoded := DErr | DSkip | DRec (r : record).

(** The graph in memory and the log file, if it exists. *)
Abbreviation world := (graph * option bytes)%type.

Section Log.
Context {J : Json}.

Definition encode_line (r : record) : bytes :=
  match r with
  | recNode n => enc_node n
  | recEdge e => enc_edge e
  | recTomb id ts => enc_tomb id ts
  | recGen gen ts => enc_gen wireVersion gen ts 0 0
  end.

Definition encodeRecord (r : record) : outcome dag_error bytes :=
  let line := encode_line r in
  if (maxLineBytes <? length line)%nat
  then Err (match r with recEdge _ => ErrInvalidEdge | _ => ErrInvalidNode end)
  else Ok line.

Definition decodeRecord (line : bytes) : decoded :=
  if blank (length line) line then DSkip
  else match dec_type line with
  | None => DErr
  | Some t =>
      if bool_decide (t = type_node) then
        match dec_node line with
        | None => DErr
        | Some n => if nKind n >=? KindInvalid then DErr
                    else match ParseNodeID (nID n) with Some _ => DRec (recNode n) | None => DErr end
        end
      else if bool_decide (t = type_edge) then
        match dec_edge line with
        | None => DErr
        | Some e => if eKind e >=? EdgeInvalid then DErr
                    else match ParseNodeID (eFrom e), ParseNodeID (eTo e) with
                         | Some _, Some _ => DRec (recEdge e)
                         | _, _ => DErr
                         end
        end
      else if bool_decide (t = type_tomb) then
        match dec_tomb line with
        | None => DErr
        | Some (id, ts) => if bool_decide (id = []) then DErr else DRec (recTomb id ts)
        end
      else if bool_decide (t = type_gen) then
        match dec_gen line with
        | None => DErr
        | Some (v, gn, ts) => if v >? wireVersion then DSkip else if v <? wireVersion then DErr else DRec (recGen gn ts)
        end
      else DSkip
  end.

(** ** Loading ([log.go]) *)

(** [applyRecordLocked] on the maps and the generation; [None] is its error. *)
Definition apply_record (st : memory * Z) (r : record) : option (memory * Z) :=
  let '(m, gn) := st in
  match r with
  | recNode n => if validateNode n then Some (store_node m n, gn) else None
  | recEdge e => match validateEdge e with Some e' => Some ((store_edge m e').1, gn) | None => None end
  | recTomb id _ => if bool_decide (id = []) then None else Some (kill m id, gn)
  | recGen gn' _ => Some (m, gn')
  end.

(** The lines a [bufio.Scanner] yields: text before each newline, then a non-empty rest. *)
Fixpoint split_lines (s : bytes) (cur : bytes) : list bytes * bytes :=
  match s with
  | [] => ([], cur)
  | b :: s =>
      if bool_decide (b = newline) then let '(ls, t) := split_lines s [] in (cur :: ls, t)
      else split_lines s (cur ++ [b])
  end.

Definition raw_lines (s : bytes) : list bytes :=
  let '(ls, t) := split_lines s [] in if bool_decide (t = []) then ls else ls ++ [t].

Definition dropCR (l : bytes) : bytes :=
  match last l with
  | Some b => if bool_decide (b = carriage) then take (length l - 1) l else l
  | None => l
  end.

(** The tokens before the first line the scanner's buffer cannot hold together with its newline, and
    whether there is such a line. *)
Fixpoint tokens (ls : list bytes) : list bytes * bool :=
  match ls with
  | [] => ([], false)
  | l :: ls => if (maxLineBytes <=? length l)%nat then ([], true)
               else let '(ts, long) := tokens ls in (dropCR l :: ts, long)
  end.

(** The loop's variables: maps and generation, dirtiness, records, load errors, offset. *)
Record loading := MkLoading { ld_st : memory * Z; ld_dirty : bool; ld_records : Z; ld_errors : Z; ld_offset : Z }.

(** The closure [apply]. *)
Definition load_apply (l : loading) (line : bytes) : loading :=
  let l := MkLoading (ld_st l) (ld_dirty l) (ld_records l + 1) (ld_errors l) (ld_offset l) in
  match decodeRecord line with
  | DSkip => l
  | DErr => MkLoading (ld_st l) (ld_dirty l) (ld_records l) (ld_errors l + 1) (ld_offset l)
  | DRec r => match apply_record (ld_st l) r with
              | Some st => MkLoading st true (ld_records l) (ld_errors l) (ld_offset l)
              | None => MkLoading (ld_st l) (ld_dirty l) (ld_records l) (ld_errors l + 1) (ld_offset l)
              end
  end.

Definition advance (l : loading) (n : Z) : loading :=
  MkLoading (ld_st l) (ld_dirty l) (ld_records l) (ld_errors l) (ld_offset l + n).

(** The scan: one line is always held back. *)
Fixpoint load_scan (ts : list bytes) (held : option bytes) (l : loading) : loading * option bytes :=
  match ts with
  | [] => (l, held)
  | line :: ts =>
      let l := match held with Some h => load_apply l h | None => l end in
      load_scan ts (Some line) (advance l (Z.of_nat (length line) + 1))
  end.

Definition lastByteIsNotNewline (s : bytes) : bool :=
  match last s with Some b => negb (bool_decide (b = newline)) | None => false end.

(** [load] on the contents of the log. *)
Definition load_bytes (s : bytes) : loading * bool :=
  let torn := lastByteIsNotNewline s in
  let '(ts, long) := tokens (raw_lines s) in
  let '(l, held) := load_scan ts None (MkLoading (empty_memory, 0) false 0 0 0) in
  match long, held with
  | true, _ =>
      let l := match held with Some h => load_apply l h | None => l end in
      (MkLoading (ld_st l) (ld_dirty l) (ld_records l) (ld_errors l + 1) (ld_offset l), false)
  | false, Some h => if torn then (advance l (- (Z.of_nat (length h) + 1)), true) else (load_apply l h, false)
  | false, None => (l, false)
  end.

(** [Open]: a missing log is an empty graph. *)
Definition Open (file : option bytes) : graph :=
  match file with
  | None => newGraph
  | Some s =>
      let '(l, torn) := load_bytes s in
      MkGraph (ld_st l).1 (MkIndex [] [] [] []) (ld_dirty l) [] (ld_st l).2
        (MkStats 0 0 ∅ ∅ 0 0 0 (ld_records l) (ld_offset l) 0 0 0 (ld_errors l) torn false) false
  end.

(** ** Appending *)

(** What the operating system answers during one call: the context, creating the directory, opening
    the log, writing (the bytes that reached the file before a failure), the second look at the
    context and the atomic replacement of a compaction. *)
Record io := MkIo {
  io_ctx : bool; io_dir : bool; io_open : bool; io_write : option nat; io_ctx2 : bool; io_replace : bool
}.

Definition contents (f : option bytes) : bytes := default [] f.

Definition set_pending (p : list record) (g : graph) : graph :=
  MkGraph (mem g) (idx g) (idxDirty g) p (gen g) (stats g) (closed g).

Fixpoint encode_all (rs : list record) : outcome dag_error bytes :=
  match rs with
  | [] => Ok []
  | r :: rs =>
      match encodeRecord r with
      | Ok line => match encode_all rs with Ok b => Ok (line ++ [newline] ++ b) | e => e end
      | Err e => Err e
      | Panic => Panic
      end
  end.

Definition add_log_stats (records bytes_ : Z) (s : GraphStats) : GraphStats :=
  MkStats (stNodes s) (stEdges s) (stNodesByKind s) (stEdgesByKind s) (stTombstoned s) (stDangling s)
    (stPendingRecords s) (stLogRecords s + records) (stLogBytes s + bytes_) (stGeneration s) (stMaxPos s)
    (stLastCompaction s) (stLoadErrors s) (stTruncatedTail s) (stNeedsCompaction s).

Definition flushLocked (i : io) (w : world) : world * option dag_error :=
  let '(g, f) := w in
  if closed g then (w, Some ErrClosed)
  else if bool_decide (pending g = []) then (w, None)
  else if negb (io_ctx i) then (w, Some ErrContext)
  else if negb (io_dir i) then (w, Some ErrIO)
  else if negb (io_open i) then (w, Some ErrIO)
  else match encode_all (pending g) with
  | Ok buf =>
      match io_write i with
      | Some n => ((g, Some (contents f ++ take n buf)), Some ErrIO)
      | None =>
          let s := add_log_stats (Z.of_nat (length (pending g))) (Z.of_nat (length buf)) (stats g) in
          ((MkGraph (mem g) (idx g) (idxDirty g) [] (gen g) s (closed g), Some (contents f ++ buf)), None)
      end
  | Err e => ((g, Some (contents f)), Some e)
  | Panic => (w, None)
  end.

(** [Flush]. *)
Definition Flush (i : io) (w : world) : world * option dag_error := flushLocked i w.

(** [maybeAutoFlushLocked]: the background context never fails. *)
Definition maybeAutoFlush (i : io) (w : world) : world :=
  if Z.of_nat (length (pending w.1)) <? autoFlushRecords then w
  else (flushLocked (MkIo true (io_dir i) (io_open i) (io_write i) (io_ctx2 i) (io_replace i)) w).1.

(** ** The mutating operations ([graph.go]) *)

Definition AddNode (i : io) (w : world) (n : Node) : world * option dag_error :=
  let '(g, f) := w in
  if negb (validateNode n) then (w, Some ErrInvalidNode)
  else if closed g then (w, Some ErrClosed)
  else
    let merged := merged_node (mem g) n in
    let g := set_pending (pending g ++ [recNode merged]) (set_mem (store_node (mem g) n) g) in
    (maybeAutoFlush i (g, f), None).

Definition AddEdge (i : io) (w : world) (e : Edge) : world * option dag_error :=
  let '(g, f) := w in
  match validateEdge e with
  | None => (w, Some ErrInvalidEdge)
  | Some e =>
      if closed g then (w, Some ErrClosed)
      else match store_edge (mem g) e with
      | (_, None) => (w, None)
      | (m, Some logged) =>
          let dirty := match edgeIdx (mem g) !! key_of e with Some _ => idxDirty g | None => true end in
          let g := MkGraph m (idx g) dirty (pending g ++ [recEdge logged]) (gen g) (stats g) (closed g) in
          (maybeAutoFlush i (g, f), None)
      end
  end.

(** The loop of [Tombstone]: it stops at an empty id, keeping what it did. *)
Fixpoint tombstone_loop (ids : list bytes) (now : Z) (g : graph) : graph * bool :=
  match ids with
  | [] => (g, true)
  | id :: ids =>
      if bool_decide (id = []) then (g, false)
      else tombstone_loop ids now
        (MkGraph (kill (mem g) id) (idx g) (idxDirty g) (pending g ++ [recTomb id now]) (gen g) (stats g) (closed g))
  end.

Definition Tombstone (i : io) (w : world) (ids : list bytes) (now : Z) : world * option dag_error :=
  let '(g, f) := w in
  if closed g then (w, Some ErrClosed)
  else match tombstone_loop ids now g with
  | (g, false) => ((g, f), Some ErrInvalidNode)
  | (g, true) =>
      if bool_decide (ids = []) then ((g, f), None)
      else (maybeAutoFlush i (set_mem (mem g) g, f), None)
  end.

(** ** Compaction ([compact.go]) *)

Definition encode_header (gn ts : Z) (nodes edges : nat) : bytes :=
  enc_gen wireVersion gn ts (Z.of_nat nodes) (Z.of_nat edges).

Definition materialize (gn ts : Z) (ns : list Node) (es : list Edge) : outcome dag_error bytes :=
  match encode_all (map recNode ns ++ map recEdge es) with
  | Ok body => Ok (encode_header gn ts (length ns) (length es) ++ [newline] ++ body)
  | e => e
  end.

Definition adoptMemory (ns : list Node) (es : list Edge) : memory :=
  MkMemory (fold_left (fun m n => <[nID n := n]> m) ns ∅) es (build_adj eFrom es) (build_adj eTo es) (build_idx es) ∅.

Definition adopt_stats (records bytes_ at_ : Z) (s : GraphStats) : GraphStats :=
  MkStats (stNodes s) (stEdges s) (stNodesByKind s) (stEdgesByKind s) (stTombstoned s) (stDangling s)
    (stPendingRecords s) records bytes_ (stGeneration s) (stMaxPos s)
    at_ (stLoadErrors s) (stTruncatedTail s) (stNeedsCompaction s).

Definition adoptGeneration (g : graph) (ns : list Node) (es : list Edge) (logBytes at_ : Z) : graph :=
  MkGraph (adoptMemory ns es) (idx g) true (pending g) (gen g + 1)
    (adopt_stats (1 + Z.of_nat (length ns) + Z.of_nat (length es)) logBytes at_ (stats g)) (closed g).

Definition degree (a : gmap bytes (list nat)) : nat := sum_list (length <$> (map_to_list a).*2).

Definition verifyAdjacency (g : graph) : graph * option dag_error :=
  let m := mem g in
  if (degree (out m) =? length (edges m))%nat && (degree (inn m) =? length (edges m))%nat then (g, None)
  else (MkGraph (mem g) (idx g) (idxDirty g) (pending g) (gen g) (stats g) true, Some ErrClosed).

Definition live_edges (m : memory) : list Edge := List.filter (fun e => liveb m (eFrom e) && liveb m (eTo e)) (edges m).

Definition Compact (i : io) (w : world) (now : Z) : world * option dag_error :=
  if closed w.1 then (w, Some ErrClosed)
  else
    let '(w, err) := if bool_decide (pending w.1 = []) then (w, None) else flushLocked i w in
    match err with
    | Some e => (w, Some e)
    | None =>
        let '(g, f) := w in
        if negb (needsCompactionLocked g) then (w, None)
        else
          let g := if idxDirty g then rebuildIndexLocked g else g in
          let liveNodes := omap (fun id => nodes (mem g) !! id) (posIdx (idx g)) in
          let keptEdges := live_edges (mem g) in
          match materialize (gen g + 1) now liveNodes keptEdges with
          | Ok buf =>
              if negb (io_ctx2 i) then ((g, f), Some ErrContext)
              else if negb (io_replace i) then ((g, f), Some ErrIO)
              else
                let '(g, err) := verifyAdjacency (adoptGeneration g liveNodes keptEdges (Z.of_nat (length buf)) now) in
                ((g, Some buf), err)
          | Err e => ((g, f), Some e)
          | Panic => ((g, f), None)
          end
    end.

(** ** Runs *)

Inductive op :=
  | OpAddNode (n : Node) | OpAddEdge (e : Edge) | OpTombstone (ids : list bytes) (now : Z)
  | OpFlush | OpCompact (now : Z) | OpCrossing (pos : Z) | OpNodesAfter (pos : Z)
  | OpRestart.

(** One call, its error value discarded, or a restart, which loses what was not written. *)
Definition step (i : io) (w : world) (o : op) : world :=
  match o with
  | OpAddNode n => (AddNode i w n).1
  | OpAddEdge e => (AddEdge i w e).1
  | OpTombstone ids now => (Tombstone i w ids now).1
  | OpFlush => (Flush i w).1
  | OpCompact now => (Compact i w now).1
  | OpCrossing pos => ((CrossingEdges w.1 pos).2, w.2)
  | OpNodesAfter pos => ((NodesAfter w.1 pos).2, w.2)
  | OpRestart => (Open w.2, w.2)
  end.

(** ** What the code relies on of [encoding/json] *)

Definition int64 (z : Z) : Prop := - 2 ^ 63 <= z < 2 ^ 63.

(** Strings the wire carries exactly (the encoder replaces invalid UTF-8), of at most 64 KiB. *)
Definition small (s : bytes) : Prop := runes s /\ Z.of_nat (length s) <= 65536.

(** The values the wire carries exactly: machine integers and floats, 32-byte roots, small strings. *)
Definition wire_ok (r : record) : Prop :=
  match r with
  | recNode n => small (nID n) /\ small (nRef n) /\ 0 <= nKind n < 256 /\ int64 (nTurn n) /\ int64 (nTS n) /\
      int64 (nPos n) /\ int64 (nTokens n) /\ length (nRoot n) = 32%nat
  | recEdge e => small (eFrom e) /\ small (eTo e) /\ 0 <= eKind e < 256 /\ int64 (eTurn e) /\ F32.score (eWeight e)
  | recTomb id ts => small id /\ int64 ts
  | recGen gn ts => int64 gn /\ int64 ts
  end.

(** The bytes of a record's strings. *)
Definition text_length (r : record) : nat :=
  match r with
  | recNode n => length (nID n) + length (nRef n)
  | recEdge e => length (eFrom e) + length (eTo e)
  | recTomb id _ => length id
  | recGen _ _ => 0
  end.

Definition open_brace : byte := "{"%byte.
Definition close_brace : byte := "}"%byte.

(** A compact JSON object is one line between braces. *)
Definition object_line (l : bytes) : Prop := exists t, l = open_brace :: t ++ [close_brace] /\ (newline ∉ t).

(** The discriminator a marshalled line carries, the round trip, that a line is one object, and that
    escaping costs at most six bytes per byte of a string, the rest of a line being bounded. *)
Class JsonLaws : Prop := {
  node_type n : dec_type (enc_node n) = Some type_node;
  edge_type e : dec_type (enc_edge e) = Some type_edge;
  tomb_type id ts : dec_type (enc_tomb id ts) = Some type_tomb;
  gen_type v gn ts n e : dec_type (enc_gen v gn ts n e) = Some type_gen;
  node_round n : wire_ok (recNode n) -> dec_node (enc_node n) = Some n;
  edge_round e : wire_ok (recEdge e) -> dec_edge (enc_edge e) = Some e;
  tomb_round id ts : wire_ok (recTomb id ts) -> dec_tomb (enc_tomb id ts) = Some (id, ts);
  gen_round v gn ts n e : int64 v -> int64 gn -> int64 ts -> int64 n -> int64 e ->
    dec_gen (enc_gen v gn ts n e) = Some (v, gn, ts);
  lines_are_objects r : object_line (encode_line r);
  gen_object v gn ts n e : object_line (enc_gen v gn ts n e);
  line_length r : wire_ok r -> (length (encode_line r) <= 6 * text_length r + 1000)%nat;
  gen_length v gn ts n e : int64 v -> int64 gn -> int64 ts -> int64 n -> int64 e ->
    (length (enc_gen v gn ts n e) <= 1000)%nat
}.

(** Records that validation accepts whatever the graph. *)
Definition rec_ok (r : record) : Prop :=
  match r with
  | recNode n => validateNode n = true
  | recEdge e => normal e
  | recTomb id _ => id <> []
  | recGen _ _ => True
  end.

(** A record that survives the wire. *)
Definition storable (r : record) : Prop := wire_ok r /\ rec_ok r.

(** ** Lines *)

Lemma maxLineBytes_pos : (0 < maxLineBytes)%nat.
Proof. unfold maxLineBytes. lia. Qed.

Definition line_ok (l : bytes) : Prop := (newline ∉ l) /\ dropCR l = l /\ (length l < maxLineBytes)%nat.

Definition render (ls : list bytes) : bytes := concat (map (fun l => l ++ [newline]) ls).

Lemma render_app a b : render (a ++ b) = render a ++ render b.
Proof. unfold render. by rewrite map_app, concat_app. Qed.

Lemma split_lines_text t cur : newline ∉ t -> split_lines t cur = ([], cur ++ t).
Proof.
  revert cur. induction t as [|b t IH]; intros cur Ht; cbn; [by rewrite app_nil_r|].
  apply not_elem_of_cons in Ht as [Hb Ht]. rewrite bool_decide_false by congruence. rewrite IH by done. by rewrite <- app_assoc.
Qed.

Lemma split_lines_line l s cur : newline ∉ l ->
  split_lines (l ++ newline :: s) cur = let '(ls, t) := split_lines s [] in ((cur ++ l) :: ls, t).
Proof.
  revert cur. induction l as [|b l IH]; intros cur Hl; cbn [app split_lines].
  - rewrite bool_decide_true by done. by rewrite app_nil_r.
  - apply not_elem_of_cons in Hl as [Hb Hl]. rewrite bool_decide_false by congruence. rewrite IH by done. by rewrite <- app_assoc.
Qed.

Lemma split_lines_render ls t : Forall (fun l => newline ∉ l) ls -> newline ∉ t ->
  split_lines (render ls ++ t) [] = (ls, t).
Proof.
  intros Hls Ht. induction Hls as [|l ls Hl _ IH]; [by rewrite split_lines_text|].
  unfold render in *. cbn [map concat]. rewrite <- !app_assoc. cbn [app]. rewrite split_lines_line by done. by rewrite IH.
Qed.

Lemma tokens_ok ls : Forall line_ok ls -> tokens ls = (ls, false).
Proof.
  induction 1 as [|l ls (Hl & Hc & Hs) _ IH]; [done|]. cbn [tokens].
  destruct (Nat.leb_spec maxLineBytes (length l)); [lia|]. by rewrite IH, Hc.
Qed.

Lemma tokens_tail ls t : Forall line_ok ls -> (length t < maxLineBytes)%nat -> tokens (ls ++ [t]) = (ls ++ [dropCR t], false).
Proof.
  intros Hls Ht. induction Hls as [|l ls (Hl & Hc & Hs) _ IH]; cbn [app tokens].
  - destruct (Nat.leb_spec maxLineBytes (length t)); [lia|done].
  - destruct (Nat.leb_spec maxLineBytes (length l)); [lia|]. by rewrite IH, Hc.
Qed.

Lemma object_line_ok l : object_line l -> (length l < maxLineBytes)%nat -> line_ok l /\ blank (length l) l = false.
Proof.
  intros (t & -> & Ht) Hs. split; [split_and!; [|..|done]|].
  - apply not_elem_of_cons. split; [done|]. apply not_elem_of_app. split; [done|].
    intros Hn%list_elem_of_singleton. discriminate Hn.
  - unfold dropCR. rewrite app_comm_cons, last_snoc. by rewrite bool_decide_false.
  - cbn [length blank]. assert (space_width (open_brace :: t ++ [close_brace]) = 0%nat) as ->; [|done].
    unfold space_width. destruct (List.find _ _) as [r|] eqn:E; [|done]. apply List.find_some in E as [Hr Hp].
    apply bool_decide_eq_true in Hp. exfalso. clear Hs Ht.
    assert (HF : Forall (fun r => exists b u, r = b :: u /\ b <> open_brace) space_runes).
    { vm_compute. repeat (constructor; [eexists _, _; split; [reflexivity|congruence]|]). constructor. }
    rewrite Forall_forall in HF. destruct (HF r) as (b & u & -> & Hb); [by apply list_elem_of_In|].
    cbn in Hp. injection Hp. congruence.
Qed.

(** ** Loading replays the records *)

Definition replay (st : memory * Z) (rs : list record) : memory * Z :=
  fold_left (fun st r => default st (apply_record st r)) rs st.

(** The log holds the records [rs], a line each. *)
Definition logged (s : bytes) (rs : list record) : Prop :=
  exists ls, s = render ls /\ Forall2 (fun l r => line_ok l /\ decodeRecord l = DRec r) ls rs.

Lemma apply_record_ok st r : rec_ok r -> exists st', apply_record st r = Some st'.
Proof.
  destruct st as [m gn], r as [n|e|id ts|g' ts]; cbn; intros H.
  - rewrite H. eauto.
  - rewrite (validateEdge_normal e H). eauto.
  - rewrite bool_decide_false by done. eauto.
  - eauto.
Qed.

(** Everything of the loading state but the offset. *)
Definition load_core (l : loading) : (memory * Z) * bool * Z * Z := (ld_st l, ld_dirty l, ld_records l, ld_errors l).

Lemma load_apply_core l l' line : load_core l = load_core l' -> load_core (load_apply l line) = load_core (load_apply l' line).
Proof.
  unfold load_core. intros [= H1 H2 H3 H4]. unfold load_apply. rewrite H1, H2, H3, H4.
  destruct (decodeRecord line); cbn; try done. case_match; done.
Qed.

Definition settle_held (p : loading * option bytes) : loading :=
  match p.2 with Some h => load_apply p.1 h | None => p.1 end.

Lemma load_scan_core ts held l l' : load_core (settle_held (l, held)) = load_core l' ->
  load_core (settle_held (load_scan ts held l)) = load_core (fold_left load_apply ts l').
Proof.
  revert held l l'. induction ts as [|line ts IH]; intros held l l' H; cbn [load_scan fold_left]; [done|].
  apply IH. unfold settle_held. cbn [fst snd]. apply load_apply_core. rewrite <- H. unfold settle_held. cbn. by destruct held.
Qed.

Lemma load_scan_snoc ts line held l :
  load_scan (ts ++ [line]) held l = (advance (settle_held (load_scan ts held l)) (Z.of_nat (length line) + 1), Some line).
Proof. revert held l. induction ts as [|x ts IH]; intros held l; [done|]. cbn [app load_scan]. apply IH. Qed.

Lemma load_lines ls rs l : Forall2 (fun l r => line_ok l /\ decodeRecord l = DRec r) ls rs -> Forall rec_ok rs ->
  let l' := fold_left load_apply ls l in
  ld_st l' = replay (ld_st l) rs /\ ld_errors l' = ld_errors l /\ ld_records l' = ld_records l + Z.of_nat (length rs) /\
  ld_dirty l' = (ld_dirty l || negb (bool_decide (rs = []))).
Proof.
  intros H. revert l. induction H as [|x r ls rs [_ Hx] _ IH]; intros l Hok; cbn [fold_left].
  { cbn. rewrite Z.add_0_r, orb_false_r. done. }
  apply Forall_cons in Hok as [Hr Hok]. destruct (apply_record_ok (ld_st l) r Hr) as [st' Hst].
  destruct (IH (load_apply l x) Hok) as (H1 & H2 & H3 & H4). unfold load_apply in H1, H2, H3, H4 |- *. rewrite Hx in *. cbn [ld_st] in *.
  rewrite Hst in *. cbn in *. rewrite H1, H2, H3, H4. split_and!; [by rewrite Hst|done|lia|]. by rewrite orb_true_r.
Qed.

Lemma last_render ls : lastByteIsNotNewline (render ls) = false.
Proof.
  destruct ls as [|l ls _] using rev_ind; [done|]. unfold lastByteIsNotNewline.
  rewrite render_app. unfold render at 2. cbn. rewrite app_nil_r, app_assoc, last_snoc. by rewrite bool_decide_true.
Qed.

(** Loading a whole log. *)
Lemma load_logged s rs : logged s rs -> Forall rec_ok rs -> let '(l, torn) := load_bytes s in
  ld_st l = replay (empty_memory, 0) rs /\ ld_errors l = 0 /\ ld_records l = Z.of_nat (length rs) /\ torn = false /\
  ld_dirty l = negb (bool_decide (rs = [])).
Proof.
  intros (ls & -> & Hls) Hok. unfold load_bytes. rewrite last_render. unfold raw_lines.
  assert (Hl : Forall line_ok ls) by (clear -Hls; induction Hls as [|? ? ? ? [? _]]; constructor; auto).
  assert (Hn : Forall (fun l => newline ∉ l) ls) by (eapply Forall_impl; [exact Hl|]; by intros x [? _]).
  rewrite <- (app_nil_r (render ls)), split_lines_render by (done || apply not_elem_of_nil).
  rewrite bool_decide_true by done. rewrite tokens_ok by done.
  set (l0 := MkLoading (empty_memory, 0) false 0 0 0).
  pose proof (load_scan_core ls None l0 l0 eq_refl) as Hc. pose proof (load_lines ls rs l0 Hls Hok) as (H1 & H2 & H3 & H4).
  destruct (load_scan ls None l0) as [l held]. unfold settle_held in Hc. cbn [fst snd] in Hc.
  unfold load_core in Hc. injection Hc as C1 C2 C3 C4.
  destruct held as [h|]; cbn; rewrite ?C1, ?C2, ?C3, ?C4, ?H1, ?H2, ?H3, ?H4; done.
Qed.

(** Loading a log whose last line was cut short. *)
Lemma load_torn s rs t : logged s rs -> Forall rec_ok rs -> newline ∉ t -> t <> [] -> (length t < maxLineBytes)%nat ->
  let '(l, torn) := load_bytes (s ++ t) in
  ld_st l = replay (empty_memory, 0) rs /\ ld_errors l = 0 /\ ld_records l = Z.of_nat (length rs) /\ torn = true /\
  ld_dirty l = negb (bool_decide (rs = [])).
Proof.
  intros (ls & -> & Hls) Hok Ht Hne Hs. unfold load_bytes.
  assert (lastByteIsNotNewline (render ls ++ t) = true) as ->.
  { unfold lastByteIsNotNewline. destruct t as [|b t' _] using rev_ind; [done|]. rewrite app_assoc, last_snoc.
    apply not_elem_of_app in Ht as [_ Ht]. rewrite bool_decide_false; [done|]. intros ->. apply Ht. by left. }
  unfold raw_lines.
  assert (Hl : Forall line_ok ls) by (clear -Hls; induction Hls as [|? ? ? ? [? _]]; constructor; auto).
  assert (Hn : Forall (fun l => newline ∉ l) ls) by (eapply Forall_impl; [exact Hl|]; by intros x [? _]).
  rewrite split_lines_render by done. rewrite bool_decide_false by done. rewrite tokens_tail by done.
  set (l0 := MkLoading (empty_memory, 0) false 0 0 0).
  rewrite load_scan_snoc. pose proof (load_scan_core ls None l0 l0 eq_refl) as Hc.
  pose proof (load_lines ls rs l0 Hls Hok) as (H1 & H2 & H3 & H4).
  unfold load_core in Hc. injection Hc as C1 C2 C3 C4. cbn. rewrite C1, C2, C3, C4, H1, H2, H3, H4. done.
Qed.

(** Cutting a log at any byte leaves whole lines and part of the next one. *)
Lemma take_render ls n : Forall line_ok ls -> exists k t, take n (render ls) = render (take k ls) ++ t /\
  (k <= length ls)%nat /\ (newline ∉ t) /\ (length t < maxLineBytes)%nat /\
  (forall l, ls !! k = Some l -> (n < length (render (take k ls)) + length l + 1)%nat).
Proof.
  intros Hls. revert n. induction Hls as [|l ls (Hl & Hc & Hs) _ IH]; intros n.
  { pose proof maxLineBytes_pos. exists 0%nat, []. split_and!; [by destruct n|lia|apply not_elem_of_nil|done|done]. }
  unfold render in *. cbn [map concat]. destruct (decide (n < length l + 1)%nat) as [Hn|Hn].
  - exists 0%nat, (take n l). split_and!; [|lia| |rewrite length_take; lia|].
    + rewrite take_app_le by (rewrite length_app; cbn; lia). rewrite take_app_le by lia. done.
    + intros Hin. apply Hl. apply elem_of_take in Hin as (i & Hi & _). by eapply list_elem_of_lookup_2.
    + intros x [= <-]. cbn. lia.
  - destruct (IH (n - (length l + 1))%nat) as (k & t & Ht & Hk & Hnl & Hlen & Hmax). exists (S k), t.
    split_and!; try done; [|cbn; lia|].
    + rewrite take_app_ge by (rewrite length_app; cbn; lia). rewrite length_app. cbn [length take map concat].
      rewrite Ht. by rewrite app_assoc.
    + intros x Hx. cbn in Hx. specialize (Hmax x Hx). cbn [take map concat]. rewrite !length_app in *. cbn [length] in *. lia.
Qed.

End Log.
