(* ===== verification/DagJson.v ===== *)
(** * The dependence graph: the laws of [encoding/json] can hold

    An instance of the class [Json] that satisfies [JsonLaws]: objects between braces whose fields
    are comma-separated, strings in hexadecimal and integers in decimal.  It is not the program's
    text format; it shows that the laws are consistent, and the witnesses of the log's theorems are
    evaluated with it. *)

From S2P Require Import Prelude GoLib Core Frame Select F32 Utf8 Strconv Dag DagIndex DagLog.

Definition comma : byte := ","%byte.

(** Texts that may stand between commas. *)
Definition field_byte (b : byte) : Prop := b <> comma /\ b <> newline.
Definition field (s : bytes) : Prop := Forall field_byte s.

Definition object (fs : list bytes) : bytes := open_brace :: concat (map (fun f => f ++ [comma]) fs) ++ [close_brace].

Fixpoint fields (fuel : nat) (s : bytes) : list bytes :=
  match fuel with
  | O => []
  | S fuel => match cut s comma with Some (f, s) => f :: fields fuel s | None => [] end
  end.

Definition object_fields (s : bytes) : list bytes := match s with _ :: s => fields (length s) s | [] => [] end.

Definition bool_text (b : bool) : bytes := if b then str "1" else str "0".

#[global] Instance TextJson : Json := {
  enc_node n := object [type_node; Hex.encode (nID n); Itoa (nKind n); Itoa (nTurn n); Itoa (nTS n); Itoa (nPos n);
    Hex.encode (nRef n); Hex.encode (nRoot n); Itoa (nTokens n); bool_text (nEphemeral n)];
  enc_edge e := object [type_edge; Hex.encode (eFrom e); Hex.encode (eTo e); Itoa (eKind e); Itoa (F32.mag (eWeight e)); Itoa (eTurn e)];
  enc_tomb id ts := object [type_tomb; Hex.encode id; Itoa ts];
  enc_gen v gn ts n e := object [type_gen; Itoa v; Itoa gn; Itoa ts; Itoa n; Itoa e];
  dec_type s := head (object_fields s);
  dec_node s :=
    match object_fields s with
    | [_; id; kind; turn; ts; pos; ref; root; tokens; eph] =>
        match Hex.decode id, Atoi kind, Atoi turn, Atoi ts, Atoi pos, Hex.decode ref, Hex.decode root, Atoi tokens with
        | Some id, Some kind, Some turn, Some ts, Some pos, Some ref, Some root, Some tokens =>
            Some (MkNode id kind turn ts pos ref root tokens (bool_decide (eph = bool_text true)))
        | _, _, _, _, _, _, _, _ => None
        end
    | _ => None
    end;
  dec_edge s :=
    match object_fields s with
    | [_; from; to; kind; weight; turn] =>
        match Hex.decode from, Hex.decode to, Atoi kind, parse_digits weight 0, Atoi turn with
        | Some from, Some to, Some kind, Some weight, Some turn => Some (MkEdge from to kind (Fin false weight) turn)
        | _, _, _, _, _ => None
        end
    | _ => None
    end;
  dec_tomb s :=
    match object_fields s with
    | [_; id; ts] => match Hex.decode id, Atoi ts with Some id, Some ts => Some (id, ts) | _, _ => None end
    | _ => None
    end;
  dec_gen s :=
    match object_fields s with
    | [_; v; gn; ts; _; _] => match Atoi v, Atoi gn, Atoi ts with Some v, Some gn, Some ts => Some (v, gn, ts) | _, _, _ => None end
    | _ => None
    end
}.

(** ** Fields *)

Lemma field_no_comma s : field s -> comma ∉ s.
Proof. intros H Hc. unfold field in H. rewrite Forall_forall in H. by destruct (H _ Hc). Qed.

Lemma fields_spec fs fuel : Forall field fs -> (length fs < fuel)%nat ->
  fields fuel (concat (map (fun f => f ++ [comma]) fs) ++ [close_brace]) = fs.
Proof.
  intros H. revert fuel. induction H as [|f fs Hf _ IH]; intros [|fuel] Hl; cbn [length] in Hl; try lia; [done|].
  cbn [fields map concat]. rewrite <- !app_assoc. change ([comma] ++ ?x) with ([comma] ++ x).
  rewrite cut_app by (by apply field_no_comma). f_equal. apply IH. lia.
Qed.

Lemma length_fields fs : (length fs <= length (concat (map (fun f => f ++ [comma]) fs)))%nat.
Proof. induction fs as [|f fs IH]; [done|]. cbn [map concat length]. rewrite !length_app. cbn. lia. Qed.

Lemma object_fields_spec fs : Forall field fs -> object_fields (object fs) = fs.
Proof.
  intros H. unfold object_fields, object. rewrite fields_spec; [done|done|]. rewrite length_app. cbn. pose proof (length_fields fs). lia.
Qed.

Lemma hex_field s : field (Hex.encode s).
Proof.
  assert (Hd : forall n, field_byte (Hex.digit n)).
  { intros n. unfold Hex.digit. destruct (nth_in_or_default (Z.to_nat n) Hex.digits x00) as [Hin| ->]; [|done].
    revert Hin. generalize (nth (Z.to_nat n) Hex.digits x00). apply List.Forall_forall. by repeat (constructor; [done|]). }
  induction s as [|c s IH]; [constructor|]. cbn [Hex.encode flat_map app]. by repeat (constructor; [apply Hd|]).
Qed.

Lemma digit_field b : is_Some (digit_value b) -> field_byte b.
Proof. intros [d Hd]. split; intros ->; discriminate Hd. Qed.

Lemma udec_field n : 0 <= n -> field (udec n).
Proof. intros Hn. destruct (udec_spec n Hn) as (_ & Hd & _). eapply Forall_impl; [exact Hd|]. apply digit_field. Qed.

Lemma Itoa_field n : field (Itoa n).
Proof.
  unfold Itoa. destruct (Z.ltb_spec n 0); [|by apply udec_field]. constructor; [done|]. apply udec_field. lia.
Qed.

Lemma bool_field b : field (bool_text b).
Proof. destruct b; by repeat constructor. Qed.

Lemma Itoa_length n k : 0 < k -> - 2 ^ k <= n <= 2 ^ k -> (length (Itoa n) <= Z.to_nat k + 2)%nat.
Proof.
  intros Hk Hn. assert (Hu : forall m, 0 <= m <= 2 ^ k -> (length (udec m) <= Z.to_nat k + 1)%nat).
  { intros m Hm. etransitivity; [apply digits_length|]. unfold digit_fuel. cbn [length].
    pose proof (Z.log2_le_mono m (2 ^ k) ltac:(lia)). rewrite Z.log2_pow2 in * by lia. lia. }
  unfold Itoa. destruct (Z.ltb_spec n 0); [cbn [length]; specialize (Hu (- n))|specialize (Hu n)]; lia.
Qed.

Lemma int64_length z : int64 z -> (length (Itoa z) <= 65)%nat.
Proof. intros H. unfold int64 in H. etransitivity; [apply (Itoa_length z 63); lia|lia]. Qed.

Lemma byte_length z : 0 <= z < 256 -> (length (Itoa z) <= 65)%nat.
Proof. intros H. apply int64_length. unfold int64. lia. Qed.

Lemma int64_parse z : int64 z -> Atoi (Itoa z) = Some z.
Proof. intros H. apply Itoa_parse. unfold int64, MaxInt in *. lia. Qed.

Lemma weight_parse w : F32.score w -> parse_digits (Itoa (F32.mag w)) 0 = Some (F32.mag w) /\ Fin false (F32.mag w) = w /\
  (length (Itoa (F32.mag w)) <= 151)%nat.
Proof.
  intros (v & -> & Hv & _). cbn [F32.mag]. unfold Itoa. rewrite (proj2 (Z.ltb_ge v 0)) by lia.
  split_and!; [apply udec_spec; lia|done|]. pose proof (Itoa_length v 149) as Hl. unfold Itoa in Hl.
  rewrite (proj2 (Z.ltb_ge v 0)) in Hl by lia. apply Hl; [lia|]. unfold F32.unit_one in Hv. lia.
Qed.

Lemma object_is_line fs : Forall field fs -> object_line (object fs).
Proof.
  intros H. eexists. split; [reflexivity|]. induction H as [|f fs Hf _ IH]; [apply not_elem_of_nil|].
  cbn [map concat]. rewrite !not_elem_of_app. split_and!; [|intros Hc%list_elem_of_singleton; discriminate Hc|done].
  unfold field in Hf. rewrite Forall_forall in Hf. intros Hn. by destruct (Hf _ Hn).
Qed.

Lemma tag_fields : field type_node /\ field type_edge /\ field type_tomb /\ field type_gen.
Proof. split_and!; by repeat constructor. Qed.

(** Every field of an encoded line is a field. *)
Ltac fields_ok := repeat (apply Forall_cons; split; [first [apply tag_fields | apply hex_field | apply Itoa_field | apply bool_field]|]);
  constructor.

#[global] Instance TextJson_laws : @JsonLaws TextJson.
Proof.
  split.
  - intros n. cbn -[object object_fields]. rewrite object_fields_spec; [done|fields_ok].
  - intros e. cbn -[object object_fields]. rewrite object_fields_spec; [done|fields_ok].
  - intros id ts. cbn -[object object_fields]. rewrite object_fields_spec; [done|fields_ok].
  - intros v gn ts n e. cbn -[object object_fields]. rewrite object_fields_spec; [done|fields_ok].
  - intros n (H1 & H2 & H3 & H4 & H5 & H6 & H7 & H8). cbn -[object object_fields Atoi Hex.decode].
    rewrite object_fields_spec by fields_ok. rewrite !Hex.hex_decode_encode, !int64_parse by (done || unfold int64; lia).
    destruct n as [id k t ts p r rt tk []]; done.
  - intros e (H1 & H2 & H3 & H4 & H5). destruct (weight_parse _ H5) as (Hp & Hw & _). cbn -[object object_fields Atoi Hex.decode parse_digits].
    rewrite object_fields_spec by fields_ok. rewrite !Hex.hex_decode_encode, Hp, !int64_parse by (done || unfold int64; lia).
    rewrite Hw. by destruct e.
  - intros id ts [H1 H2]. cbn -[object object_fields Atoi Hex.decode].
    rewrite object_fields_spec by fields_ok. by rewrite Hex.hex_decode_encode, int64_parse.
  - intros v gn ts n e H1 H2 H3 H4 H5. cbn -[object object_fields Atoi].
    rewrite object_fields_spec by fields_ok. by rewrite !int64_parse.
  - intros [n|e|id ts|gn ts]; apply object_is_line; fields_ok.
  - intros v gn ts n e. apply object_is_line; fields_ok.
  - intros [n|e|id ts|gn ts]; cbn [wire_ok text_length encode_line enc_node enc_edge enc_tomb enc_gen TextJson]; unfold object;
      cbn [map concat]; repeat (rewrite !length_app || rewrite Hex.encode_length || cbn [length]).
    + intros (H1 & H2 & H3 & H4 & H5 & H6 & H7 & ->). apply byte_length in H3. apply int64_length in H4, H5, H6, H7.
      destruct (nEphemeral n); cbn [length bool_text type_node str]; cbn; lia.
    + intros (H1 & H2 & H3 & H4 & H5). apply byte_length in H3. apply int64_length in H4.
      destruct (weight_parse _ H5) as (_ & _ & Hw). cbn; lia.
    + intros [H1 H2]. apply int64_length in H2. cbn; lia.
    + intros [H1 H2]. apply int64_length in H1, H2. cbn; lia.
  - intros v gn ts n e H1 H2 H3 H4 H5. apply int64_length in H1, H2, H3, H4, H5. cbn [enc_gen TextJson]. unfold object.
    cbn [map concat]; repeat (rewrite !length_app || cbn [length]). cbn. lia.
Qed.
