(* ===== verification/DagRun.v ===== *)
(** * The dependence graph: every run of the operations

    Runs of the graph's operations over a file system that may refuse or fail any call, with
    restarts in between.  The invariant: the maps stay well formed, the graph is never closed, and
    the log together with the unwritten records replays to exactly the graph in memory. *)

From S2P Require Import Prelude GoLib Core Frame Select F32 Utf8 Strconv Dag DagIndex DagLog.

Section Run.
Context {J : Json} {laws : JsonLaws}.

(** ** Encoded records decode *)

Lemma index_of_range t s i k : index_of t s i = Some k -> i <= k < i + Z.of_nat (length t).
Proof.
  revert i. induction t as [|x t IH]; intros i; cbn [index_of length]; [done|].
  case_bool_decide; [intros [= <-]; lia|]. intros H1%IH. lia.
Qed.

Lemma ParseNodeID_kind id k key : ParseNodeID id = Some (k, key) -> 0 <= k < KindInvalid.
Proof.
  unfold ParseNodeID. repeat case_match; try done. intros [= -> ->].
  match goal with H : kindOfPrefix _ = _ |- _ => apply index_of_range in H; cbn in H end. unfold KindInvalid. lia.
Qed.

Lemma storable_length r : storable r -> (length (encode_line r) < maxLineBytes)%nat.
Proof.
  intros [Hw _]. pose proof (line_length r Hw) as Hl. unfold maxLineBytes.
  enough (Z.of_nat (text_length r) <= 131072) by lia.
  destruct r as [n|e|id ts|gn ts]; cbn [wire_ok text_length] in *; unfold small in Hw; lia.
Qed.

Lemma decode_storable r : storable r -> line_ok (encode_line r) /\ decodeRecord (encode_line r) = DRec r.
Proof.
  intros Hs. pose proof (storable_length r Hs) as Hlen. destruct Hs as [Hw Hr].
  destruct (object_line_ok _ (lines_are_objects r) Hlen) as [Hok Hb]. split; [done|].
  unfold decodeRecord. rewrite Hb. destruct r as [n|e|id ts|gn ts]; cbn [encode_line rec_ok] in *.
  - rewrite node_type, node_round by done. rewrite bool_decide_true by done. unfold validateNode in Hr.
    destruct (ParseNodeID (nID n)) as [[k key]|] eqn:Ep; [|done]. apply ParseNodeID_kind in Ep. bsolve.
    destruct (nKind n >=? KindInvalid) eqn:Ek; bsolve; [lia|done].
  - rewrite edge_type, edge_round by done. rewrite bool_decide_false, bool_decide_true by done.
    destruct Hr as [[? ->] [? ->] _ Hk _]. destruct (eKind e >=? EdgeInvalid) eqn:Ek; bsolve; [unfold EdgeControlOnly, EdgeInvalid in *; lia|done].
  - rewrite tomb_type, tomb_round by done.
    rewrite (bool_decide_false (type_tomb = type_node)), (bool_decide_false (type_tomb = type_edge)) by done.
    rewrite (bool_decide_true (type_tomb = type_tomb)), (bool_decide_false (id = [])) by done. done.
  - rewrite gen_type, gen_round by (try apply Hw; unfold int64, wireVersion; lia).
    rewrite (bool_decide_false (type_gen = type_node)), (bool_decide_false (type_gen = type_edge)) by done.
    rewrite (bool_decide_false (type_gen = type_tomb)), (bool_decide_true (type_gen = type_gen)) by done. done.
Qed.

Lemma encode_all_storable rs : Forall storable rs -> exists buf, encode_all rs = Ok buf /\ logged buf rs.
Proof.
  induction 1 as [|r rs Hr _ (buf & Hb & ls & -> & Hls)]; [exists []; split; [done|]; exists []; split; [done|constructor]|].
  destruct (decode_storable r Hr) as [Hok Hd]. pose proof (storable_length r Hr). cbn [encode_all].
  unfold encodeRecord. destruct (Nat.ltb_spec maxLineBytes (length (encode_line r))); [lia|]. rewrite Hb.
  eexists. split; [done|]. exists (encode_line r :: ls). split; [|by constructor].
  unfold render. cbn [map concat]. by rewrite <- app_assoc.
Qed.

Lemma logged_app s s' rs rs' : logged s rs -> logged s' rs' -> logged (s ++ s') (rs ++ rs').
Proof.
  intros (ls & -> & H) (ls' & -> & H'). exists (ls ++ ls'). rewrite render_app. split; [done|]. by apply Forall2_app.
Qed.

Lemma logged_nil : logged [] [].
Proof. exists []. split; [done|constructor]. Qed.

(** ** Replaying what an operation logs redoes what it did *)

Lemma replay_app st a b : replay st (a ++ b) = replay (replay st a) b.
Proof. apply fold_left_app. Qed.

Lemma earliest_idem p x : earliest p (earliest p x) = earliest p x.
Proof. unfold earliest. repeat case_match; bsolve; lia. Qed.

Lemma supplied_idem p x : supplied p (supplied p x) = supplied p x.
Proof. unfold supplied. repeat case_match; bsolve; lia. Qed.

Lemma mergeNode_idem p n : mergeNode p (mergeNode p n) = mergeNode p n.
Proof.
  unfold mergeNode. cbn [nID nKind nTurn nTS nPos nRef nRoot nTokens nEphemeral].
  f_equal; rewrite ?earliest_idem, ?supplied_idem; try done.
  - destruct (isAnchorKind (nKind n)); [by rewrite earliest_idem|by rewrite supplied_idem].
  - destruct (isAnchorKind (nKind n)); [by rewrite earliest_idem|by rewrite supplied_idem].
  - repeat case_bool_decide; done.
  - destruct (Hash_IsZero (nRoot n)) eqn:E; [by destruct (Hash_IsZero (nRoot p))|by rewrite E].
  - by destruct (nEphemeral p).
Qed.

Lemma merged_id m n : wf m -> nID (merged_node m n) = nID n.
Proof. intros W. unfold merged_node. destruct (nodes m !! nID n) eqn:E; [|done]. cbn. by destruct (wf_nodes _ W _ _ E). Qed.

Lemma merged_valid m n : wf m -> validateNode n = true -> validateNode (merged_node m n) = true.
Proof.
  intros W Hn. unfold merged_node. destruct (nodes m !! nID n) eqn:E; [|done].
  destruct (wf_nodes _ W _ _ E) as [Hid Hv]. by apply mergeNode_valid.
Qed.

Lemma store_merged m n : wf m -> store_node m (merged_node m n) = store_node m n.
Proof.
  intros W. unfold store_node. rewrite merged_id by done. f_equal. f_equal. unfold merged_node at 1. rewrite merged_id by done.
  unfold merged_node. destruct (nodes m !! nID n) eqn:E; [|done]. apply mergeNode_idem.
Qed.

Lemma fold_edge_idem old e : normal old -> normal e -> fold_edge old (fold_edge old e) = fold_edge old e.
Proof.
  intros Ho He. unfold fold_edge. cbn [eWeight eTurn]. f_equal.
  - destruct (F32.gtb (eWeight e) (eWeight old)) eqn:E; [by rewrite E|].
    rewrite F32.score_gtb by apply Ho. by rewrite Z.ltb_irrefl.
  - destruct (Z.ltb_spec (eTurn e) (eTurn old)); [by rewrite (proj2 (Z.ltb_lt _ _))|by rewrite Z.ltb_irrefl].
Qed.

Lemma fold_changes_idem old e : fold_changes old e = true -> fold_changes old (fold_edge old e) = true.
Proof.
  unfold fold_changes, fold_edge. cbn. rewrite !orb_true_iff. intros [H|H].
  - left. by rewrite H.
  - right. rewrite H. done.
Qed.

(** Storing the edge that was logged gives the same memory as storing the one that was given. *)
Lemma store_logged m e logged_ : wf m -> normal e -> (store_edge m e).2 = Some logged_ ->
  normal logged_ /\ (store_edge m logged_).1 = (store_edge m e).1.
Proof.
  intros W He. destruct (store_edge_cases m e W He) as [[Hn ->]|(i & old & Hi & Ho & Hk & Hno & [[Hc ->]|[Hc ->]])]; cbn [snd].
  - intros [= <-]. split; [done|]. unfold store_edge. by rewrite Hn.
  - intros [= <-]. split; [by apply fold_edge_normal|]. unfold store_edge.
    replace (key_of (fold_edge old e)) with (key_of e) by (by rewrite fold_edge_key). rewrite Hi, Ho.
    rewrite fold_changes_idem by done. by rewrite fold_edge_idem.
  - done.
Qed.
(** ** What replayed records build *)

(** A memory of validated, wire-clean nodes and edges. *)
Record tidy (m : memory) : Prop := {
  td_wf : wf m;
  td_nodes : map_Forall (fun _ n => wire_ok (recNode n)) (nodes m);
  td_edges : Forall (fun e => wire_ok (recEdge e)) (edges m)
}.

Lemma tidy_empty : tidy empty_memory.
Proof. split; [apply wf_empty|apply map_Forall_empty|constructor]. Qed.

Lemma merge_wire p n : wire_ok (recNode p) -> wire_ok (recNode n) -> wire_ok (recNode (mergeNode p n)).
Proof.
  cbn. intros (P1 & P2 & P3 & P4 & P5 & P6 & P7 & P8) (N1 & N2 & N3 & N4 & N5 & N6 & N7 & N8).
  assert (He : forall x y, int64 x -> int64 y -> int64 (earliest x y)) by (intros x y; unfold earliest; repeat case_match; done).
  assert (Hs : forall x y, int64 x -> int64 y -> int64 (supplied x y)) by (intros x y; unfold supplied; repeat case_match; done).
  destruct (isAnchorKind (nKind n)); split_and!; auto; try done;
    first [by destruct (bool_decide (nRef n = [])) | by destruct (Hash_IsZero (nRoot n)) | lia].
Qed.

Lemma merged_wire m n : tidy m -> wire_ok (recNode n) -> wire_ok (recNode (merged_node m n)).
Proof.
  intros T Hn. unfold merged_node. destruct (nodes m !! nID n) eqn:E; [|done]. apply merge_wire; [|done]. exact (td_nodes _ T _ _ E).
Qed.

Lemma fold_edge_wire old e : wire_ok (recEdge old) -> wire_ok (recEdge e) -> wire_ok (recEdge (fold_edge old e)).
Proof. cbn. intros (O1 & O2 & O3 & O4 & O5) (E1 & E2 & E3 & E4 & E5). unfold fold_edge; cbn. split_and!; try done; try lia; case_match; done. Qed.

Lemma store_node_tidy m n : tidy m -> storable (recNode n) -> tidy (store_node m n).
Proof.
  intros T [Hw Hr]. split; [apply store_node_wf; [apply T|done]| |apply T].
  apply map_Forall_insert_2; [by apply merged_wire|apply T].
Qed.

(** The edge [store_edge] logs is on the wire what its operands were. *)
Lemma store_edge_tidy m e : tidy m -> storable (recEdge e) ->
  tidy (store_edge m e).1 /\ (forall x, (store_edge m e).2 = Some x -> storable (recEdge x)).
Proof.
  intros T [Hw Hr]. pose proof (td_wf _ T) as W. pose proof (td_edges _ T) as TE.
  assert (Hwf : wf (store_edge m e).1) by (by apply store_edge_wf).
  destruct (store_edge_cases m e W Hr) as [[_ E]|(i & old & _ & Ho & _ & Hno & [[_ E]|[_ E]])]; rewrite E in *; cbn [fst snd] in *.
  - split; [split; [done|apply T|apply Forall_app; split; [done|by apply Forall_singleton]]|]. by intros x [= <-].
  - assert (Hf : wire_ok (recEdge (fold_edge old e))) by (apply fold_edge_wire; [exact (Forall_lookup_1 _ _ _ _ TE Ho)|done]).
    split; [split; [done|apply T|by apply Forall_insert]|]. intros x [= <-]. split; [done|by apply fold_edge_normal].
  - split; [done|]. done.
Qed.

Lemma apply_tidy st r : tidy st.1 -> storable r -> tidy (default st (apply_record st r)).1.
Proof.
  intros T Hs. destruct st as [m gn], r as [n|e|id ts|g' ts]; cbn [apply_record]; pose proof (proj2 Hs) as Hr; cbn in Hr.
  - rewrite Hr. by apply store_node_tidy.
  - rewrite validateEdge_normal by done. by apply store_edge_tidy.
  - rewrite bool_decide_false by done. destruct T. split; try done. by apply kill_wf.
  - done.
Qed.

Lemma replay_tidy st rs : tidy st.1 -> Forall storable rs -> tidy (replay st rs).1.
Proof.
  intros T H. revert st T. induction H as [|r rs Hr _ IH]; intros st T; [done|]. cbn. apply IH. by apply apply_tidy.
Qed.

(** ** The invariant of a run *)

Record durable (w : world) (R : list record) : Prop := {
  du_open : closed w.1 = false;
  du_index : coherent w.1;
  du_log : logged (contents w.2) R;
  du_store : Forall storable (R ++ pending w.1);
  du_replay : replay (empty_memory, 0) (R ++ pending w.1) = (mem w.1, gen w.1)
}.

Lemma durable_open g f R : durable (g, f) R -> closed g = false.
Proof. apply du_open. Qed.

Lemma durable_tidy w R : durable w R -> tidy (mem w.1).
Proof.
  intros [_ _ _ Hs Hr]. change (mem w.1) with (mem w.1, gen w.1).1. rewrite <- Hr. by apply replay_tidy; [apply tidy_empty|].
Qed.

Lemma storable_rec_ok rs : Forall storable rs -> Forall rec_ok rs.
Proof. intros H. eapply Forall_impl; [exact H|]. by intros r [_ ?]. Qed.

(** Appending a record whose replay is what the operation did. *)
Lemma durable_log w R m r d c : durable w R -> c = false -> storable r -> apply_record (mem w.1, gen w.1) r = Some (m, gen w.1) ->
  (d = false -> idx w.1 = rebuild m) ->
  durable (MkGraph m (idx w.1) d (pending w.1 ++ [r]) (gen w.1) (stats w.1) c, w.2) R.
Proof.
  intros [D1 D2 D3 D4 D5] -> Hs Ha Hi. split; cbn; try done.
  - rewrite app_assoc. apply Forall_app. split; [done|by apply Forall_singleton].
  - rewrite app_assoc, replay_app, D5. unfold replay. cbn [fold_left]. by rewrite Ha.
Qed.

(** No call fails after part of a batch reached the file. *)
Definition clean (i : io) : Prop := io_write i = None \/ io_write i = Some 0%nat.

Lemma flush_durable i w R : durable w R -> clean i -> exists R',
  durable (flushLocked i w).1 R' /\ ((flushLocked i w).2 = None -> pending (flushLocked i w).1.1 = []) /\
  mem (flushLocked i w).1.1 = mem w.1 /\ gen (flushLocked i w).1.1 = gen w.1.
Proof.
  destruct w as [g f]. intros D Hi. unfold flushLocked. rewrite (durable_open _ _ _ D). cbn [fst].
  case_bool_decide as Hp; [exists R; done|]. destruct (io_ctx i); cbn [negb]; [|by exists R].
  destruct (io_dir i); cbn [negb]; [|by exists R]. destruct (io_open i); cbn [negb]; [|by exists R].
  pose proof (du_store _ _ D) as Hs. apply Forall_app in Hs as [_ Hs]. cbn [fst] in Hs. destruct (encode_all_storable _ Hs) as (buf & -> & Hb).
  destruct D as [D1 D2 D3 D4 D5]. cbn in *. destruct Hi as [->| ->].
  - exists (R ++ pending g). split; [|done]. split; cbn; try done.
    + by apply logged_app.
    + by rewrite app_nil_r.
    + by rewrite app_nil_r.
  - exists R. split; [|done]. split; cbn; try done. by rewrite take_0, app_nil_r.
Qed.

Lemma autoflush_durable i w R : durable w R -> clean i -> exists R', durable (maybeAutoFlush i w) R'.
Proof.
  intros D Hi. unfold maybeAutoFlush. case_match; [eauto|].
  destruct (flush_durable (MkIo true (io_dir i) (io_open i) (io_write i) (io_ctx2 i) (io_replace i)) w R D Hi) as (R' & ? & _). eauto.
Qed.

(** What the callers supply: machine integers and floats, small strings, and for tombstones no empty
    identity. *)
Definition op_ok (w : world) (o : op) : Prop :=
  match o with
  | OpAddNode n => wire_ok (recNode n)
  | OpAddEdge e => small (eFrom e) /\ small (eTo e) /\ 0 <= eKind e < 256 /\ int64 (eTurn e) /\ F32.wellformed (eWeight e)
  | OpTombstone ids now => Forall (fun id => id <> [] /\ small id) ids /\ int64 now
  | OpCompact now => int64 now /\ int64 (gen w.1 + 1) /\ int64 (Z.of_nat (size (nodes (mem w.1)))) /\
      int64 (Z.of_nat (length (edges (mem w.1))))
  | _ => True
  end.

Lemma add_node_durable i w R n : durable w R -> clean i -> wire_ok (recNode n) -> exists R', durable (AddNode i w n).1 R'.
Proof.
  destruct w as [g f]. intros D Hi Hw. unfold AddNode. rewrite (durable_open _ _ _ D). destruct (validateNode n) eqn:Ev; cbn [negb fst]; [|eauto].
  apply (autoflush_durable _ _ R); [|done]. pose proof (durable_tidy _ _ D) as T. pose proof (td_wf _ T) as W. cbn in T, W.
  apply (durable_log (g, f) R (store_node (mem g) n) (recNode (merged_node (mem g) n)) true _ D (du_open _ _ D)).
  - split; [by apply merged_wire|by apply merged_valid].
  - cbn. rewrite merged_valid by done. by rewrite store_merged.
  - done.
Qed.

(** Folding a stronger weight or an earlier turn into an edge moves no endpoint. *)
Lemma rebuild_set_edge m i old e : edges m !! i = Some old -> key_of e = key_of old -> rebuild (set_edge m i e) = rebuild m.
Proof.
  intros Hi Hk. assert (Hsp : spans (set_edge m i e) = spans m).
  { unfold spans. cbn [edges set_edge]. assert (Hs : forall x, span (set_edge m i e) x = span m x) by done.
    assert (span (set_edge m i e) e = span m old) as He.
    { unfold key_of in Hk. unfold span. cbn. assert (eFrom e = eFrom old) as -> by congruence. assert (eTo e = eTo old) as -> by congruence. done. }
    pose proof (lookup_lt_Some _ _ _ Hi) as Hl. rewrite insert_take_drop by done. rewrite <- (take_drop_middle _ _ _ Hi) at 3.
    rewrite !omap_app. f_equal. cbn. rewrite He. done. }
  unfold rebuild. rewrite Hsp. done.
Qed.

Lemma add_edge_durable i w R e : durable w R -> clean i -> op_ok w (OpAddEdge e) -> exists R', durable (AddEdge i w e).1 R'.
Proof.
  destruct w as [g f]. intros D Hi (H1 & H2 & H3 & H4 & H5). unfold AddEdge. rewrite (durable_open _ _ _ D).
  destruct (validateEdge e) as [e'|] eqn:Ev; cbn [fst]; [|eauto]. apply validateEdge_spec in Ev as (Hn & Hk & Ht); [|done].
  pose proof (durable_tidy _ _ D) as T. pose proof (td_wf _ T) as W. cbn in T, W.
  assert (Hs : storable (recEdge e')).
  { split; [|done]. unfold key_of in Hk. cbn. replace (eFrom e') with (eFrom e) by congruence. replace (eTo e') with (eTo e) by congruence.
    replace (eKind e') with (eKind e) by congruence. rewrite Ht. split_and!; try done; try lia. apply Hn. }
  pose proof (store_edge_cases (mem g) e' W Hn) as Hcase.
  pose proof (store_logged (mem g) e') as Hlog. destruct (store_edge_tidy (mem g) e' T Hs) as [_ Hst].
  destruct (store_edge (mem g) e') as [m [x|]] eqn:Es; cbn [fst snd] in *; [|eauto].
  destruct (Hlog x W Hn eq_refl) as [Hx Hsame]. specialize (Hst x eq_refl).
  apply (autoflush_durable _ _ R); [|done].
  eapply (durable_log (g, f) R m (recEdge x) _ _ D eq_refl Hst).
  - cbn. rewrite validateEdge_normal by done. by rewrite Hsame.
  - cbn. destruct Hcase as [[-> _]|(j & old & -> & Ho & Hko & _ & [[_ [= -> _]]|[_ [=]]])]; [done|].
    intros Hd. rewrite (rebuild_set_edge _ _ old) by done. by apply (du_index _ _ D).
Qed.

Lemma tombstone_loop_spec ids now g f R : durable (g, f) R -> int64 now -> Forall (fun id => id <> [] /\ small id) ids ->
  exists g', tombstone_loop ids now g = (g', true) /\ durable (set_mem (mem g') g', f) R /\ (ids = [] -> g' = g).
Proof.
  intros D Hnow Hids.
  assert (Hgen : forall g, durable (set_mem (mem g) g, f) R -> exists g', tombstone_loop ids now g = (g', true) /\
    durable (set_mem (mem g') g', f) R /\ (ids = [] -> g' = g)).
  { clear D g. induction Hids as [|id ids [Hne Hsm] _ IH]; intros g D; cbn [tombstone_loop]; [eauto|].
    rewrite bool_decide_false by done. edestruct IH as (g' & -> & Hd & _); [|by exists g'].
    apply (durable_log (set_mem (mem g) g, f) R (kill (mem g) id) (recTomb id now) true _ D (du_open _ _ D)); [done| |done].
    cbn. by rewrite bool_decide_false. }
  apply Hgen. destruct D as [D1 D2 D3 D4 D5]. split; cbn; try done.
Qed.

Lemma tombstone_durable i w R ids now : durable w R -> clean i -> op_ok w (OpTombstone ids now) ->
  exists R', durable (Tombstone i w ids now).1 R'.
Proof.
  destruct w as [g f]. intros D Hi [Hids Hnow]. unfold Tombstone. rewrite (durable_open _ _ _ D).
  destruct (tombstone_loop_spec ids now g f R D Hnow Hids) as (g' & -> & Hd & He).
  case_bool_decide as Hn; cbn [fst]; [rewrite (He Hn); eauto|]. by apply (autoflush_durable _ _ R).
Qed.

(** ** Compaction *)

(** The maps over a set of nodes and a list of edges with nothing tombstoned. *)
Definition memory_of (N : gmap bytes Node) (es : list Edge) : memory :=
  MkMemory N es (build_adj eFrom es) (build_adj eTo es) (build_idx es) ∅.

Definition insert_nodes (ns : list Node) (N : gmap bytes Node) : gmap bytes Node := fold_left (fun m n => <[nID n := n]> m) ns N.

Lemma insert_nodes_lookup ns id n : NoDup (nID <$> ns) -> insert_nodes ns ∅ !! id = Some n <-> n ∈ ns /\ nID n = id.
Proof.
  induction ns as [|x ns IH] using rev_ind; intros Hnd.
  { cbn. rewrite lookup_empty. split; [done|by intros [?%elem_of_nil _]]. }
  unfold insert_nodes in *. rewrite fold_left_app. cbn [fold_left]. rewrite fmap_app in Hnd.
  apply NoDup_app in Hnd as (Hnd & Hd & _). rewrite elem_of_app, list_elem_of_singleton.
  destruct (decide (nID x = id)) as [<-|Hne].
  - rewrite lookup_insert_eq. split; [intros [= <-]; eauto|]. intros [[Hn| ->] Hid]; [|done]. exfalso.
    apply (Hd (nID n)); [by apply list_elem_of_fmap_2|]. rewrite Hid. cbn. by apply list_elem_of_singleton.
  - rewrite lookup_insert_ne, IH by done. naive_solver.
Qed.

Lemma replay_nodes ns N gn : Forall (fun n => validateNode n = true) ns -> NoDup (nID <$> ns) ->
  Forall (fun n => N !! nID n = None) ns ->
  replay (memory_of N [], gn) (map recNode ns) = (memory_of (insert_nodes ns N) [], gn).
Proof.
  intros Hv. revert N. induction Hv as [|n ns Hn _ IH]; intros N Hnd Hf; [done|]. cbn [map].
  apply NoDup_cons in Hnd as [Hni Hnd]. apply Forall_cons in Hf as [HN Hf].
  unfold replay in *. cbn [fold_left apply_record]. rewrite Hn. cbn [from_option id]. unfold insert_nodes. cbn [fold_left].
  replace (store_node (memory_of N []) n) with (memory_of (<[nID n := n]> N) []).
  - rewrite IH; [done|done|]. apply Forall_forall. intros x Hx. rewrite lookup_insert_ne; [exact (proj1 (Forall_forall _ _) Hf x Hx)|].
    intros He. apply Hni. rewrite He. by apply list_elem_of_fmap_2.
  - unfold store_node, memory_of, merged_node. cbn [nodes edges out inn edgeIdx dead]. rewrite HN. f_equal. set_solver.
Qed.

Lemma replay_edges es es0 N gn : Forall normal es -> NoDup (key_of <$> (es0 ++ es)) ->
  replay (memory_of N es0, gn) (map recEdge es) = (memory_of N (es0 ++ es), gn).
Proof.
  intros Hn. revert es0. induction Hn as [|e es He _ IH]; intros es0 Hnd; [by rewrite app_nil_r|]. cbn [map].
  unfold replay in *. cbn [fold_left apply_record]. rewrite validateEdge_normal by done. cbn [from_option id].
  replace (store_edge (memory_of N es0) e).1 with (memory_of N (es0 ++ [e])).
  - rewrite IH by (by rewrite <- app_assoc). by rewrite <- app_assoc.
  - unfold store_edge. cbn [edgeIdx memory_of]. rewrite fmap_app in Hnd. apply NoDup_app in Hnd as (Hnd & Hd & _).
    destruct (build_idx es0 !! key_of e) as [i|] eqn:E.
    + apply build_idx_lookup in E as (x & Hx & Hk); [|done]. exfalso. apply (Hd (key_of e)).
      * rewrite <- Hk. apply list_elem_of_fmap_2. by eapply list_elem_of_lookup_2.
      * by left.
    + cbn. unfold append_edge, memory_of. cbn. by rewrite !build_adj_snoc, build_idx_snoc.
Qed.

Lemma degree_delete a id : degree a = (length (default [] (a !! id)) + degree (delete id a))%nat.
Proof.
  unfold degree. destruct (a !! id) as [l|] eqn:E; [|by rewrite delete_id].
  rewrite <- (insert_delete_id a id l E) at 1.
  assert (HP := map_to_list_insert (delete id a) id l (lookup_delete_eq a id)).
  apply (Permutation_map snd) in HP. apply (Permutation_map length) in HP.
  change (sum_list (map length (map snd (map_to_list (<[id := l]> (delete id a))))) =
    (length l + sum_list (map length (map snd (map_to_list (delete id a)))))%nat).
  by rewrite HP.
Qed.

Lemma degree_push a k i : degree (push_index a k i) = S (degree a).
Proof.
  rewrite (degree_delete (push_index a k i) k), (degree_delete a k). unfold push_index.
  rewrite lookup_insert_eq, delete_insert_eq. cbn [from_option id]. rewrite length_app. cbn. lia.
Qed.

(** [verifyAdjacency] finds what [adoptGeneration] built. *)
Lemma degree_build f es : degree (build_adj f es) = length es.
Proof.
  induction es as [|e es IH] using rev_ind; [done|]. rewrite build_adj_snoc, degree_push, IH, length_app. cbn. lia.
Qed.

Lemma verify_adopted g ns es n at_ : verifyAdjacency (adoptGeneration g ns es n at_) = (adoptGeneration g ns es n at_, None).
Proof.
  unfold verifyAdjacency, adoptGeneration, adoptMemory. cbn [mem out inn edges]. by rewrite !degree_build, Nat.eqb_refl.
Qed.

Lemma nodup_filter {A B} (f : A -> B) (q : A -> bool) l : NoDup (f <$> l) -> NoDup (f <$> List.filter q l).
Proof.
  induction l as [|x l IH]; [done|]. cbn. intros [Hx Hl]%NoDup_cons. specialize (IH Hl). destruct (q x); [|done].
  cbn. apply NoDup_cons. split; [|done]. intros (y & Hy & Hin)%list_elem_of_fmap. apply Hx. rewrite Hy.
  apply list_elem_of_fmap_2. rewrite list_elem_of_In, filter_In in Hin. apply list_elem_of_In, Hin.
Qed.

Lemma forall_filter {A} (P : A -> Prop) (q : A -> bool) l : Forall P l -> Forall P (List.filter q l).
Proof.
  induction 1 as [|x l Hx _ IH]; [constructor|]. cbn [List.filter]. destruct (q x); [by constructor|exact IH].
Qed.

(** What a compaction writes: the live nodes in index order and the live edges. *)
Lemma live_listing m : tidy m -> exists L, omap (fun id => nodes m !! id) (posIdx (rebuild m)) = L.*2 /\ L ≡ₚ live_nodes m /\
  nID <$> L.*2 = L.*1 /\ NoDup L.*1 /\ Forall storable (map recNode L.*2) /\ (length L <= size (nodes m))%nat.
Proof.
  intros T. pose proof (td_wf _ T) as W. destruct (index_order m) as (L & HP & _ & -> & _).
  pose proof (live_nodes_lookup m L HP) as HL. exists L. split_and!; [by apply omap_keys|done|..].
  - clear HP. induction HL as [|[id n] L' Hn _ IH]; [done|]. cbn in *. destruct (wf_nodes _ W _ _ Hn) as [<- _]. by f_equal.
  - rewrite HP. apply nodup_filter, NoDup_fst_map_to_list.
  - clear HP. induction HL as [|[id n] L' Hn _ IH]; [constructor|]. cbn in *. constructor; [|done].
    destruct (wf_nodes _ W _ _ Hn) as [_ Hv]. split; [exact (td_nodes _ T _ _ Hn)|exact Hv].
  - rewrite HP. unfold live_nodes. etransitivity; [apply List.filter_length_le|]. by rewrite length_map_to_list.
Qed.

Lemma live_edges_storable m : tidy m -> Forall normal (live_edges m) /\ Forall storable (map recEdge (live_edges m)) /\
  NoDup (key_of <$> live_edges m) /\ (length (live_edges m) <= length (edges m))%nat.
Proof.
  intros T. pose proof (td_wf _ T) as W. assert (Hn : Forall normal (live_edges m)) by apply forall_filter, W.
  assert (Hw : Forall (fun e => wire_ok (recEdge e)) (live_edges m)) by apply forall_filter, T. split_and!; [done| |apply nodup_filter, W|apply List.filter_length_le].
  clear T W. induction Hn as [|e es He _ IH]; [constructor|]. apply Forall_cons in Hw as [Hw1 Hw2]. constructor; [done|by apply IH].
Qed.

Lemma adopted_replay m L gn now : NoDup L.*1 -> nID <$> L.*2 = L.*1 -> Forall storable (map recNode L.*2) ->
  Forall normal (live_edges m) -> NoDup (key_of <$> live_edges m) ->
  replay (empty_memory, 0) (recGen gn now :: map recNode L.*2 ++ map recEdge (live_edges m)) =
    (adoptMemory L.*2 (live_edges m), gn).
Proof.
  intros Hnd Hid Hst Hn Hk. change (recGen gn now :: ?rs) with ([recGen gn now] ++ rs). rewrite !replay_app.
  change (replay (empty_memory, 0) [recGen gn now]) with (memory_of ∅ [], gn).
  rewrite replay_nodes, replay_edges; try done.
  - clear -Hst. induction L.*2 as [|n ns IH]; [constructor|]. cbn in Hst. apply Forall_cons in Hst as [[_ Hv] Hst]. constructor; [done|by apply IH].
  - by rewrite Hid.
  - apply Forall_forall. intros x _. apply lookup_empty.
Qed.

Lemma header_logged gn now a b : int64 gn -> int64 now -> int64 (Z.of_nat a) -> int64 (Z.of_nat b) ->
  logged (encode_header gn now a b ++ [newline]) [recGen gn now].
Proof.
  intros H1 H2 H3 H4. assert (Hv : int64 wireVersion) by (unfold int64, wireVersion; lia).
  exists [encode_header gn now a b]. split; [unfold render; cbn [map concat]; by rewrite app_nil_r|]. constructor; [|constructor].
  unfold encode_header. pose proof (gen_length wireVersion gn now _ _ Hv H1 H2 H3 H4) as Hl.
  destruct (object_line_ok _ (gen_object wireVersion gn now (Z.of_nat a) (Z.of_nat b))) as [Hok Hb]; [unfold maxLineBytes; lia|].
  split; [done|]. unfold decodeRecord. rewrite Hb, gen_type.
  rewrite (bool_decide_false (type_gen = type_node)), (bool_decide_false (type_gen = type_edge)) by done.
  rewrite (bool_decide_false (type_gen = type_tomb)), (bool_decide_true (type_gen = type_gen)) by done.
  by rewrite gen_round.
Qed.

(** What an effective compaction does: the log becomes the header and the live part of the graph. *)
Lemma compact_step g f R now : durable (g, f) R -> pending g = [] -> op_ok (g, f) (OpCompact now) -> idx g = rebuild (mem g) ->
  exists L buf, omap (fun id => nodes (mem g) !! id) (posIdx (idx g)) = L.*2 /\ L ≡ₚ live_nodes (mem g) /\
    materialize (gen g + 1) now L.*2 (live_edges (mem g)) = Ok buf /\
    durable (adoptGeneration g L.*2 (live_edges (mem g)) (Z.of_nat (length buf)) now, Some buf)
      (recGen (gen g + 1) now :: map recNode L.*2 ++ map recEdge (live_edges (mem g))).
Proof.
  intros D Hp (Hnow & Hgen & Hns & Hes) Hix. pose proof (durable_tidy _ _ D) as T. cbn in T, Hgen, Hns, Hes.
  destruct (live_listing (mem g) T) as (L & HL & HP & Hid & Hnd & Hst & Hlen).
  destruct (live_edges_storable (mem g) T) as (Hn & Hse & Hk & Hle).
  assert (HF : Forall storable (map recNode L.*2 ++ map recEdge (live_edges (mem g)))) by (by apply Forall_app).
  destruct (encode_all_storable _ HF) as (body & Hb & Hlog).
  exists L, (encode_header (gen g + 1) now (length L.*2) (length (live_edges (mem g))) ++ [newline] ++ body).
  split_and!; [by rewrite Hix|done|unfold materialize; by rewrite Hb|]. split; cbn [fst snd mem gen pending closed adoptGeneration contents].
  - apply (du_open _ _ D).
  - done.
  - unfold contents. cbn [from_option id]. rewrite app_assoc. change (recGen ?a ?b :: ?r) with ([recGen a b] ++ r). apply logged_app; [|done].
    apply header_logged; try done; unfold int64 in *; rewrite ?length_fmap; lia.
  - rewrite Hp, app_nil_r. constructor; [by split|done].
  - rewrite Hp, app_nil_r. by apply adopted_replay.
Qed.

Lemma rebuild_durable g f R : durable (g, f) R -> let g' := if idxDirty g then rebuildIndexLocked g else g in
  durable (g', f) R /\ idx g' = rebuild (mem g) /\ mem g' = mem g /\ gen g' = gen g /\ pending g' = pending g.
Proof.
  intros D. cbn. destruct (idxDirty g) eqn:E; [|split_and!; try done; by apply (du_index _ _ D)].
  split_and!; try done. destruct D as [D1 D2 D3 D4 D5]. by split.
Qed.

Lemma flush_first i w R : durable w R -> clean i -> exists R',
  let r := if bool_decide (pending w.1 = []) then (w, None) else flushLocked i w in
  durable r.1 R' /\ (r.2 = None -> pending r.1.1 = []) /\ mem r.1.1 = mem w.1 /\ gen r.1.1 = gen w.1.
Proof. intros D Hi. case_bool_decide; [by exists R|]. by apply (flush_durable _ _ R). Qed.

(** [Compact] keeps the invariant, and when it reports success the live nodes and edges are what
    they were. *)
Lemma compact_durable i w R now : durable w R -> clean i -> op_ok w (OpCompact now) ->
  let r := Compact i w now in
  (exists R', durable r.1 R') /\
  (mem r.1.1 = mem w.1 \/
   r.2 = None /\ pending r.1.1 = [] /\ exists L, L ≡ₚ live_nodes (mem w.1) /\ mem r.1.1 = adoptMemory L.*2 (live_edges (mem w.1))).
Proof.
  intros D Hi Hok. cbn. unfold Compact. rewrite (du_open _ _ D).
  destruct (flush_first i w R D Hi) as (R1 & D1 & Hp & Hm & Hg). cbn zeta in *.
  destruct (if bool_decide (pending w.1 = []) then (w, None) else flushLocked i w) as [[g f] [e|]]; cbn [fst snd] in *; [eauto|].
  specialize (Hp eq_refl). destruct (needsCompactionLocked g); cbn [negb]; [|eauto].
  destruct (rebuild_durable g f R1 D1) as (D2 & Hix & Hm2 & Hg2 & Hp2). cbn zeta in *.
  set (g2 := if idxDirty g then rebuildIndexLocked g else g) in *.
  destruct (compact_step g2 f R1 now) as (L & buf & HL & HP & HM & D3); [done|by rewrite Hp2|unfold op_ok in *; cbn in *; by rewrite Hm2, Hg2, Hm, Hg|by rewrite Hm2|..].
  rewrite HL, HM. destruct (io_ctx2 i); cbn [negb]; [|split; [eauto|left; cbn; congruence]].
  destruct (io_replace i); cbn [negb]; [|split; [eauto|left; cbn; congruence]].
  rewrite verify_adopted. cbn [fst snd]. split; [eauto|]. right. split_and!; [done|cbn; congruence|].
  exists L. rewrite <- Hm, <- Hm2. done.
Qed.

(** ** Restarting *)

Lemma logged_nil_inv R : logged [] R -> R = [].
Proof. intros (ls & Hl & HF). destruct HF as [|l r ls R _ _]; [done|]. by destruct l. Qed.

Lemma rebuild_empty : rebuild empty_memory = MkIndex [] [] [] [].
Proof. reflexivity. Qed.

Lemma restart_durable w R : durable w R -> durable (Open w.2, w.2) R /\
  stLoadErrors (stats (Open w.2)) = 0 /\ stTruncatedTail (stats (Open w.2)) = false /\
  stLogRecords (stats (Open w.2)) = Z.of_nat (length R) /\ pending (Open w.2) = [].
Proof.
  destruct w as [g f]. intros [_ _ Hl Hs _]. apply Forall_app in Hs as [Hs _]. cbn [fst snd] in *.
  destruct f as [s|]; cbn [Open contents from_option id] in *.
  - pose proof (load_logged s R Hl (storable_rec_ok _ Hs)) as Hload. unfold Open.
    destruct (load_bytes s) as [l torn]. destruct Hload as (H1 & H2 & H3 & -> & H5). split; [split; cbn|done]; try done.
    + unfold coherent. cbn. rewrite H5, H1. case_bool_decide; [|done]. by subst.
    + by rewrite app_nil_r.
    + rewrite app_nil_r, <- H1. by destruct (ld_st l).
  - apply logged_nil_inv in Hl as ->. split; [split; cbn; try done; apply logged_nil|done].
Qed.

Lemma index_durable w R : durable w R -> durable (withIndex w.1, w.2) R.
Proof. destruct w as [g f]. intros D. apply (rebuild_durable _ _ _ D). Qed.

(** ** Runs *)

(** From a missing log, any sequence of calls and restarts over a file system that may refuse any call, in which no flush
    fails after part of its batch reached the file ([clean]), no [Tombstone] names an empty identity, and numbers and strings
    are in their ranges ([op_ok]).  What happens outside is shown by [retried_flush_loses_record] and
    [refused_tombstone_stale]. *)
Inductive run : world -> Prop :=
  | run_start : run (Open None, None)
  | run_step w i o : run w -> clean i -> op_ok w o -> run (step i w o).

Lemma step_durable i w R o : durable w R -> clean i -> op_ok w o -> exists R', durable (step i w o) R'.
Proof.
  intros D Hi Ho. destruct o as [n|e|ids now| |now|pos|pos|]; cbn [step].
  - by eapply add_node_durable.
  - by eapply add_edge_durable.
  - by eapply tombstone_durable.
  - destruct (flush_durable i w R D Hi) as (R' & HR & _). eauto.
  - by apply (compact_durable i w R now).
  - exists R. unfold CrossingEdges. case_match; [by destruct w|by apply index_durable].
  - exists R. by apply index_durable.
  - exists R. by apply restart_durable.
Qed.

Lemma run_durable w : run w -> exists R, durable w R.
Proof.
  induction 1 as [|w i o _ [R D] Hi Ho]; [|by eapply step_durable].
  exists []. split; cbn; try done. apply logged_nil.
Qed.
End Run.
