(* ===== verification/DagSpec.v ===== *)
(** * The dependence graph: what its operations promise

    The theorems over every run of the graph ([DagRun]): the invariant, the exactness of the two
    position queries, durability across restarts and cut-off logs, compaction, and a refinement of an
    abstract graph of plain maps.  Witnesses are evaluated with the instance of [DagJson].  The last
    section shows what the log does after a partial write and a refused tombstone. *)

From S2P Require Import Prelude GoLib Core Frame Select F32 Utf8 Strconv Dag DagIndex DagLog DagJson DagRun.

(** ** Lemmas *)

Lemma node_of_live m id : liveb m id = bool_decide (is_Some (node_of m id)).
Proof. unfold liveb, node_of. case_bool_decide; [|done]. symmetry. apply bool_decide_false. by intros [? ?]. Qed.

Lemma filter_again {A} (q r : A -> bool) l : (forall x, q x = r x) -> List.filter q (List.filter r l) = List.filter r l.
Proof.
  intros H. induction l as [|x l IH]; [done|]. cbn. destruct (r x) eqn:E; [|done]. cbn. rewrite H, E. by rewrite IH.
Qed.

Lemma live_member m L id n : L ≡ₚ live_nodes m -> (id, n) ∈ L <-> node_of m id = Some n.
Proof. intros ->. apply live_nodes_elem. Qed.

(** A compacted memory has the live nodes and edges it was built from. *)
Lemma adopted_live m L : wf m -> L ≡ₚ live_nodes m ->
  let m' := adoptMemory L.*2 (live_edges m) in
  (forall id, node_of m' id = node_of m id) /\ live_edges m' = live_edges m /\ dead m' = ∅ /\ danglingLocked m' = 0%nat.
Proof.
  intros W HP m'. assert (Hids : nID <$> L.*2 = L.*1).
  { pose proof (live_nodes_lookup m L HP) as HL. clear HP m'. induction HL as [|[id n] L' Hn _ IH]; [done|]. cbn in *.
    destruct (wf_nodes _ W _ _ Hn) as [<- _]. by f_equal. }
  assert (Hnd : NoDup L.*1) by (rewrite HP; apply nodup_filter, NoDup_fst_map_to_list).
  assert (Hnode : forall id, node_of m' id = node_of m id).
  { intros id. apply option_eq. intros n. unfold node_of at 1. rewrite bool_decide_false by (cbn; set_solver). cbn [nodes m' adoptMemory].
    fold (insert_nodes L.*2 ∅). rewrite insert_nodes_lookup by (by rewrite Hids).
    rewrite <- (live_member m L) by done. split.
    - intros [([id' n'] & -> & Hin)%list_elem_of_fmap <-]. cbn. pose proof Hin as Hv. rewrite (live_member m) in Hv by done.
      apply node_of_valid in Hv as [-> _]; done.
    - intros Hin. split; [apply list_elem_of_fmap; by exists (id, n)|]. rewrite (live_member m) in Hin by done. apply node_of_valid in Hin; [apply Hin|done]. }
  assert (Hl : forall id, liveb m' id = liveb m id) by (intros id; by rewrite !node_of_live, Hnode).
  split_and!; [done| |done|].
  - unfold live_edges at 1. cbn [edges m' adoptMemory]. apply filter_again. intros e. by rewrite !Hl.
  - unfold danglingLocked, dangling. cbn [edges m' adoptMemory]. unfold live_edges.
    induction (edges m) as [|e es IH]; [done|]. cbn [List.filter]. destruct (liveb m (eFrom e) && liveb m (eTo e)) eqn:E; [|done].
    cbn [List.filter]. apply andb_true_iff in E as [E1 E2]. rewrite !Hl, E1, E2. done.
Qed.

(** Straddling is a matter of live edges. *)
Lemma straddles_live m pos : List.filter (straddles m pos) (live_edges m) = List.filter (straddles m pos) (edges m).
Proof.
  unfold live_edges. induction (edges m) as [|e es IH]; [done|]. cbn [List.filter]. rewrite !node_of_live.
  unfold straddles in *. destruct (node_of m (eFrom e)) eqn:E1, (node_of m (eTo e)) eqn:E2; cbn;
    rewrite ?E1, ?E2; try done. cbn. rewrite IH. done.
Qed.

(** ** The abstract graph *)

(** What a client sees of the graph: nodes by identity, edges by their ends and kind, tombstones. *)
Record agraph := MkA { aNodes : gmap bytes Node; aEdges : gmap edgeKey Edge; aDead : gset bytes }.

Definition edge_map (es : list Edge) : gmap edgeKey Edge := list_to_map ((fun e => (key_of e, e)) <$> es).
Definition abs (m : memory) : agraph := MkA (nodes m) (edge_map (edges m)) (dead m).

(** What a [Tombstone] marks: it stops at the first empty identity. *)
Fixpoint marked (ids : list bytes) : list bytes :=
  match ids with [] => [] | id :: ids => if bool_decide (id = []) then [] else id :: marked ids end.

(** The operations on plain maps; the log, the indices and the clock do not appear. *)
Definition spec_step (s : agraph) (o : op) : agraph :=
  match o with
  | OpAddNode n =>
      if validateNode n
      then MkA (<[nID n := match aNodes s !! nID n with Some p => mergeNode p n | None => n end]> (aNodes s)) (aEdges s)
             (aDead s ∖ {[nID n]})
      else s
  | OpAddEdge e =>
      match validateEdge e with
      | Some e => MkA (aNodes s)
          (<[key_of e := match aEdges s !! key_of e with Some old => fold_edge old e | None => e end]> (aEdges s)) (aDead s)
      | None => s
      end
  | OpTombstone ids _ => MkA (aNodes s) (aEdges s) (aDead s ∪ list_to_set (marked ids))
  | _ => s
  end.

Definition alive (s : agraph) (id : bytes) : Prop := (id ∉ aDead s) /\ is_Some (aNodes s !! id).
#[global] Instance alive_dec s id : Decision (alive s id) := and_dec _ _.

(** The part of the graph a compaction keeps. *)
Definition live_part (s : agraph) : agraph :=
  MkA (filter (fun p => p.1 ∉ aDead s) (aNodes s)) (filter (fun p => alive s (eFrom p.2) /\ alive s (eTo p.2)) (aEdges s)) ∅.

Lemma edge_map_lookup es k e : NoDup (key_of <$> es) -> edge_map es !! k = Some e <-> e ∈ es /\ key_of e = k.
Proof.
  intros Hnd. unfold edge_map. rewrite <- elem_of_list_to_map by (by rewrite <- list_fmap_compose).
  rewrite list_elem_of_fmap. naive_solver.
Qed.

Lemma edge_map_at m i e : wf m -> edges m !! i = Some e -> edge_map (edges m) !! key_of e = Some e.
Proof. intros W Hi. apply edge_map_lookup; [apply W|]. split; [by eapply list_elem_of_lookup_2|done]. Qed.

Lemma edge_map_snoc es e : NoDup (key_of <$> (es ++ [e])) -> edge_map (es ++ [e]) = <[key_of e := e]> (edge_map es).
Proof.
  intros Hnd. apply map_eq. intros k. apply option_eq. intros x. rewrite edge_map_lookup by done.
  rewrite fmap_app in Hnd. apply NoDup_app in Hnd as (Hnd & Hd & _). rewrite elem_of_app, list_elem_of_singleton.
  destruct (decide (key_of e = k)) as [<-|Hne].
  - rewrite lookup_insert_eq. split; [|intros [= <-]; auto]. intros [[Hx| ->] Hk]; [|done]. exfalso.
    apply (Hd (key_of x)); [by apply list_elem_of_fmap_2|]. rewrite Hk. by left.
  - rewrite lookup_insert_ne, edge_map_lookup by done. naive_solver.
Qed.

Lemma edge_map_set es i old e : NoDup (key_of <$> es) -> es !! i = Some old -> key_of e = key_of old ->
  edge_map (<[i := e]> es) = <[key_of e := e]> (edge_map es).
Proof.
  intros Hnd Hi Hk. destruct (build_insert es i old e Hi Hk) as (_ & _ & _ & Hks). apply map_eq. intros k. apply option_eq. intros x.
  rewrite edge_map_lookup by (by rewrite Hks). pose proof (lookup_lt_Some _ _ _ Hi) as Hl.
  assert (Hx : x ∈ <[i := e]> es <-> x = e \/ (x ∈ es /\ key_of x <> key_of e)).
  { rewrite !list_elem_of_lookup. split.
    - intros (j & Hj). apply list_lookup_insert_Some in Hj as [(-> & -> & _)|[Hne Hj]]; [by left|]. right. split; [eauto|].
      intros Hke. apply Hne. eapply (NoDup_lookup (key_of <$> es)); [done|by rewrite list_lookup_fmap, Hi|]. rewrite list_lookup_fmap, Hj. cbn. congruence.
    - intros [-> |[(j & Hj) Hne]]; [exists i; by apply list_lookup_insert_eq|]. exists j. rewrite list_lookup_insert_ne; [done|]. intros ->. congruence. }
  rewrite Hx. destruct (decide (key_of e = k)) as [<-|Hne].
  - rewrite lookup_insert_eq. split; [intros [[-> |[_ ?]] ?]; done|]. intros [= <-]. auto.
  - rewrite lookup_insert_ne, edge_map_lookup by done. split; [intros [[-> |[? _]] ?]; done|].
    intros [? <-]. split; [|done]. right. split; [done|]. congruence.
Qed.

Lemma fold_edge_same old e : fold_changes old e = false -> fold_edge old e = old.
Proof. unfold fold_changes, fold_edge. intros [-> ->]%orb_false_elim. by destruct old. Qed.

Lemma abs_store_edge m e : wf m -> normal e ->
  abs (store_edge m e).1 = MkA (nodes m) (<[key_of e := match edge_map (edges m) !! key_of e with Some old => fold_edge old e | None => e end]>
    (edge_map (edges m))) (dead m).
Proof.
  intros W He. pose proof (store_edge_wf m e W He) as W'.
  destruct (store_edge_cases m e W He) as [[Hn E]|(i & old & _ & Ho & Hk & Hno & Hc)].
  - rewrite E in *. cbn [fst] in *. unfold abs. cbn [nodes edges dead append_edge]. f_equal.
    assert (edge_map (edges m) !! key_of e = None) as ->; [|apply edge_map_snoc, W'].
    apply eq_None_not_Some. intros [x [Hx Hkx]%edge_map_lookup]; [|apply W]. apply (edgeIdx_key m e W Hn). rewrite <- Hkx. by apply list_elem_of_fmap_2.
  - rewrite <- Hk, (edge_map_at m i old W Ho). destruct Hc as [[_ ->]|[Hf ->]]; unfold abs; cbn [fst nodes edges dead set_edge]; f_equal.
    + change (key_of old) with (key_of (fold_edge old e)). by apply (edge_map_set _ _ old); [apply W|..].
    + rewrite fold_edge_same by done. symmetry. apply insert_id. by eapply edge_map_at.
Qed.

Lemma abs_adopted m L : wf m -> L ≡ₚ live_nodes m -> abs (adoptMemory L.*2 (live_edges m)) = live_part (abs m).
Proof.
  intros W HP. destruct (adopted_live m L W HP) as (Hn & _ & Hd & _). unfold abs, live_part. cbn [aNodes aEdges aDead]. f_equal.
  - apply map_eq. intros id. specialize (Hn id). unfold node_of in Hn. rewrite (bool_decide_false (id ∈ dead (adoptMemory _ _))) in Hn by (rewrite Hd; set_solver).
    rewrite Hn. rewrite map_lookup_filter. destruct (nodes m !! id); cbn; [|by case_bool_decide].
    case_bool_decide; case_guard; cbn in *; done.
  - apply map_eq. intros k. apply option_eq. intros e. cbn [edges adoptMemory].
    rewrite edge_map_lookup by apply nodup_filter, W. rewrite map_lookup_filter_Some, edge_map_lookup by apply W.
    unfold live_edges. rewrite list_elem_of_In, filter_In, <- list_elem_of_In.
    assert (Hl : forall id, liveb m id = true <-> alive (abs m) id).
    { intros id. unfold liveb, alive. cbn [aDead aNodes abs]. case_bool_decide; [split; [done|tauto]|]. rewrite bool_decide_eq_true. tauto. }
    rewrite andb_true_iff, !Hl. cbn. tauto.
Qed.

Section Claims.
Context {J : Json} {laws : JsonLaws}.

Lemma run_tidy w : run w -> tidy (mem w.1) /\ coherent w.1 /\ closed w.1 = false.
Proof. intros [R D]%run_durable. split; [by eapply durable_tidy|]. split; [apply D|apply D]. Qed.

(** C36: After any [run], that is any calls in any order over a file system that may refuse any of them and across any number of
    restarts, but with no flush failing after part of its batch was written and no [Tombstone] of an empty identity: the maps
    agree with each other (adjacency lists, edge identities, validated nodes and edges), a clean position index is the one a
    rebuild would give, and the adjacency check of a compaction never closes the graph.  Outside these runs the index can be
    stale ([refused_tombstone_stale]). *)
Theorem run_invariant w : run w -> wf (mem w.1) /\ coherent w.1 /\ closed w.1 = false.
Proof. intros (T & Hc & Ho)%run_tidy. split; [apply T|done]. Qed.

(** On every run [CrossingEdges], two binary searches over independently sorted position lists,
    counts exactly the edges whose two ends are live with one end before the position and the other at
    it or after it. *)
Theorem crossing_edges_exact w pos : run w ->
  (CrossingEdges w.1 pos).1 = Z.of_nat (length (List.filter (straddles (mem w.1) pos) (edges (mem w.1)))).
Proof. intros (T & Hc & Ho)%run_tidy. apply crossing_exact; [apply T|done|done]. Qed.

(** On every run [NodesAfter] returns exactly the live nodes at or after the position, each once, by
    position, then turn, then identity. *)
Theorem nodes_after_exact w pos : run w -> exists ns, (NodesAfter w.1 pos).1 = ns /\
  StronglySorted key_le (node_order <$> ns) /\ NoDup (nID <$> ns) /\
  (forall n, n ∈ ns <-> node_of (mem w.1) (nID n) = Some n /\ pos <= nPos n).
Proof.
  intros (T & Hc & Ho)%run_tidy. pose proof (td_wf _ T) as W.
  destruct (nodes_after_exact_aux w.1 pos W Hc Ho) as (L & HL & Hs & HP). exists L.*2. split; [done|].
  assert (HF : Forall (fun p => nID p.2 = p.1) L).
  { apply Forall_forall. intros [id n] Hin. rewrite HP, list_elem_of_In, filter_In, <- list_elem_of_In, live_nodes_elem in Hin.
    destruct Hin as [Hin _]. apply node_of_valid in Hin; [apply Hin|done]. }
  assert (Hk : node_order <$> L.*2 = node_key <$> L).
  { clear -HF. induction HF as [|[id n] L Hid _ IH]; [done|]. cbn in *. f_equal; [|exact IH]. unfold node_order, node_key. cbn. by rewrite Hid. }
  assert (Hid : nID <$> L.*2 = L.*1) by (clear -HF; induction HF as [|[id n] L Hid _ IH]; [done|]; cbn in *; f_equal; done).
  split_and!; [by rewrite Hk| |].
  - rewrite Hid, HP. apply nodup_filter, nodup_filter, NoDup_fst_map_to_list.
  - intros n. split.
    + intros ([id n'] & -> & Hin)%list_elem_of_fmap. rewrite HP, list_elem_of_In, filter_In, <- list_elem_of_In, live_nodes_elem in Hin.
      destruct Hin as [Hin Hpos]. cbn in *. apply node_of_valid in Hin as Hv; [|done]. destruct Hv as [-> _]. split; [done|by apply Z.leb_le].
    + intros [Hn Hpos]. apply list_elem_of_fmap. exists (nID n, n). split; [done|].
      rewrite HP, list_elem_of_In, filter_In, <- list_elem_of_In, live_nodes_elem. split; [done|by apply Z.leb_le].
Qed.

(** C37: Opening the log of a [run] (no flush failed after part of its batch was written, no [Tombstone] named an empty identity)
    replays it without a load error or a torn tail, and applying the records that were not yet written to the loaded graph gives
    the running graph, generation included.  A flush retried after a partial write is [retried_flush_loses_record]. *)
Theorem reload_exact w : run w -> let g := Open w.2 in
  replay (mem g, gen g) (pending w.1) = (mem w.1, gen w.1) /\
  stLoadErrors (stats g) = 0 /\ stTruncatedTail (stats g) = false.
Proof.
  intros [R D]%run_durable. cbn zeta. destruct (restart_durable w R D) as (D' & He & Ht & _ & Hp).
  split; [|done]. pose proof (du_replay _ _ D') as H1. cbn [fst] in H1. rewrite Hp, app_nil_r in H1. rewrite <- H1, <- replay_app. apply D.
Qed.

(** Every call of a flush succeeds. *)
Definition healthy (i : io) : Prop := io_ctx i = true /\ io_dir i = true /\ io_open i = true /\ io_write i = None.

(** When the file system answers, [Flush] on any run reports success, leaves nothing pending and does
    not touch the graph, and a restart from the log it wrote gives the same graph back. *)
Theorem flush_persists i w : run w -> healthy i -> let r := Flush i w in
  r.2 = None /\ pending r.1.1 = [] /\ mem r.1.1 = mem w.1 /\ (mem (Open r.1.2), gen (Open r.1.2)) = (mem w.1, gen w.1).
Proof.
  intros [R D]%run_durable (H1 & H2 & H3 & H4). cbn zeta. unfold Flush.
  assert (Hok : (flushLocked i w).2 = None).
  { destruct w as [g f]. unfold flushLocked. rewrite (durable_open _ _ _ D). case_bool_decide; [done|]. rewrite H1, H2, H3. cbn [negb].
    pose proof (du_store _ _ D) as Hs. apply Forall_app in Hs as [_ Hs]. destruct (encode_all_storable _ Hs) as (buf & Hb & _).
    cbn [fst] in Hb. rewrite Hb, H4. done. }
  destruct (flush_durable i w R D (or_introl H4)) as (R' & D' & Hp & Hm & Hg). specialize (Hp Hok). split_and!; try done.
  destruct (restart_durable _ _ D') as (D'' & _ & _ & _ & Hp''). pose proof (du_replay _ _ D') as E1. pose proof (du_replay _ _ D'') as E2.
  cbn [fst] in *. rewrite Hp, app_nil_r in E1. rewrite Hp'', app_nil_r in E2. congruence.
Qed.

(** C38: Cutting the log of a [run] (no flush failed after part of its batch was written, no [Tombstone] named an empty identity) at
    any byte loses records from its end only: what loads is the replay of a prefix of the logged records, with no load error, and
    all of them when nothing was cut. *)
Theorem torn_log_prefix w n : run w -> exists R k, logged (contents w.2) R /\ (k <= length R)%nat /\
  ((length (contents w.2) <= n)%nat -> k = length R) /\
  let g := Open (Some (take n (contents w.2))) in
  (mem g, gen g) = replay (empty_memory, 0) (take k R) /\ stLoadErrors (stats g) = 0 /\ stLogRecords (stats g) = Z.of_nat k.
Proof.
  intros [R D]%run_durable. destruct D as [_ _ (ls & Hc & HF) Hs _]. apply Forall_app in Hs as [Hs _].
  assert (Hok : Forall line_ok ls) by (clear -HF; induction HF as [|? ? ? ? [? _]]; constructor; auto).
  rewrite Hc. destruct (take_render ls n Hok) as (k & t & Ht & Hk & Hnl & Hlen & Hmax). pose proof (Forall2_length _ _ _ HF) as Hll.
  exists R, k. split; [by exists ls|]. split; [lia|]. split.
  { intros Hn. destruct (decide (k = length R)) as [|Hne]; [done|]. destruct (lookup_lt_is_Some_2 ls k ltac:(lia)) as [l Hl].
    specialize (Hmax l Hl). exfalso. rewrite <- (take_drop_middle _ _ _ Hl), render_app, length_app in Hn. unfold render in Hn at 2.
    cbn [map concat] in Hn. rewrite !length_app in Hn. cbn in Hn. lia. }
  assert (Hlog : logged (render (take k ls)) (take k R)) by (exists (take k ls); split; [done|by apply Forall2_take]).
  assert (Hrec : Forall rec_ok (take k R)) by apply storable_rec_ok, Forall_take, Hs.
  assert (Htk : length (take k R) = k) by (rewrite length_take; lia). cbn zeta. rewrite Ht. unfold Open.
  destruct (decide (t = [])) as [->|Hne].
  - rewrite app_nil_r. pose proof (load_logged _ _ Hlog Hrec) as HL. destruct (load_bytes _) as [l torn].
    destruct HL as (H1 & H2 & H3 & _). cbn. rewrite H2, H3, Htk, <- H1. split; [by destruct (ld_st l)|done].
  - pose proof (load_torn _ _ t Hlog Hrec Hnl Hne Hlen) as HL. destruct (load_bytes _) as [l torn].
    destruct HL as (H1 & H2 & H3 & _). cbn. rewrite H2, H3, Htk, <- H1. split; [by destruct (ld_st l)|done].
Qed.

(** C39: A [Compact] that is not cut short in its write, after any [run] (no flush failed after part of its batch was written, no
    [Tombstone] named an empty identity), whether or not it rewrites the log, keeps every live node, every live edge in order, and
    the answer of [CrossingEdges] at every position; when it changes the maps nothing is left tombstoned or dangling. *)
Theorem compact_preserves i w now : run w -> clean i -> op_ok w (OpCompact now) -> let w' := (Compact i w now).1 in
  (forall id, node_of (mem w'.1) id = node_of (mem w.1) id) /\ live_edges (mem w'.1) = live_edges (mem w.1) /\
  (forall pos, (CrossingEdges w'.1 pos).1 = (CrossingEdges w.1 pos).1) /\
  (mem w'.1 = mem w.1 \/ dead (mem w'.1) = ∅ /\ danglingLocked (mem w'.1) = 0%nat).
Proof.
  intros Hrun Hi Hok. cbn zeta. assert (Hrun' : run (step i w (OpCompact now))) by (by constructor). cbn [step] in Hrun'.
  destruct (run_durable w Hrun) as [R D]. destruct (compact_durable i w R now D Hi Hok) as [_ HC].
  destruct (run_tidy _ Hrun) as (T & Hc & Ho). destruct (run_tidy _ Hrun') as (T' & Hc' & Ho').
  set (w' := (Compact i w now).1) in *.
  assert (HL : (forall id, node_of (mem w'.1) id = node_of (mem w.1) id) /\ live_edges (mem w'.1) = live_edges (mem w.1) /\
    (mem w'.1 = mem w.1 \/ dead (mem w'.1) = ∅ /\ danglingLocked (mem w'.1) = 0%nat)).
  { destruct HC as [->|(_ & _ & L & HP & ->)]; [auto|].
    destruct (adopted_live (mem w.1) L (td_wf _ T) HP) as (H1 & H2 & H3 & H4). auto. }
  destruct HL as (H1 & H2 & H3). split_and!; try done. intros pos.
  rewrite !crossing_exact by (done || apply T || apply T'). rewrite <- (straddles_live (mem w'.1)), <- (straddles_live (mem w.1)), H2.
  do 2 f_equal. apply List.filter_ext. intros e. unfold straddles. by rewrite !H1.
Qed.

Lemma flush_mem i w : mem (flushLocked i w).1.1 = mem w.1.
Proof. destruct w as [g f]. unfold flushLocked. repeat case_match; done. Qed.

Lemma autoflush_mem i w : mem (maybeAutoFlush i w).1 = mem w.1.
Proof. unfold maybeAutoFlush. case_match; [done|]. apply flush_mem. Qed.

Lemma tombstone_loop_abs ids now g : exists g' b,
  tombstone_loop ids now g = (g', b) /\
  abs (mem g') = MkA (nodes (mem g)) (edge_map (edges (mem g))) (dead (mem g) ∪ list_to_set (marked ids)).
Proof.
  revert g. induction ids as [|id ids IH]; intros g; cbn [tombstone_loop marked].
  - exists g, true. split; [done|]. unfold abs. f_equal. cbn. by rewrite union_empty_r_L.
  - case_bool_decide; [exists g, false; split; [done|]; unfold abs; f_equal; cbn; by rewrite union_empty_r_L|].
    edestruct IH as (g' & b & -> & HA). exists g', b. split; [done|]. rewrite HA. cbn. f_equal. set_solver.
Qed.

Lemma marked_all ids : Forall (fun id => id <> []) ids -> marked ids = ids.
Proof. induction 1 as [|id ids Hne _ IH]; [done|]. cbn [marked]. by rewrite bool_decide_false, IH. Qed.

(** What a step needs: a compaction is not cut short and its numbers are in range, an edge is in range, a restart finds nothing
    pending.  A [Tombstone] may name empty identities, and any other call may be cut short. *)
Definition step_ok (i : io) (w : world) (o : op) : Prop :=
  match o with
  | OpAddEdge _ => op_ok w o
  | OpCompact _ => clean i /\ op_ok w o
  | OpRestart => pending w.1 = []
  | _ => True
  end.

(** C40: The graph refines a graph of plain maps.  After any [run], each operation changes the nodes by identity, the edges by
    their ends and kind, and the tombstones exactly as its specification on the maps says, a [Tombstone] that stops at an
    empty identity and a call whose flush is cut short included; a compaction that is not cut short either keeps them or
    restricts them to the live part, and a restart with nothing pending keeps them. *)
Theorem step_refines i w o : run w -> step_ok i w o ->
  abs (mem (step i w o).1) = spec_step (abs (mem w.1)) o \/
  (exists now, o = OpCompact now) /\ abs (mem (step i w o).1) = live_part (abs (mem w.1)).
Proof.
  intros Hrun Hok. destruct (run_tidy w Hrun) as (T & Hc & Ho). pose proof (td_wf _ T) as W.
  destruct o as [n|e|ids now| |now|pos|pos|]; cbn [step spec_step].
  - left. destruct w as [g f]. unfold AddNode. cbn [fst] in *. destruct (validateNode n); cbn [negb]; [|done]. rewrite Ho. cbn [fst].
    by rewrite autoflush_mem.
  - left. destruct w as [g f]. unfold AddEdge. cbn [fst] in *. destruct (validateEdge e) as [e'|] eqn:Ev; [|done]. rewrite Ho.
    apply validateEdge_spec in Ev as (Hn & _); [|apply Hok]. pose proof (abs_store_edge (mem g) e' W Hn) as HA.
    destruct (store_edge (mem g) e') as [m [x|]] eqn:Es; cbn [fst] in *; [by rewrite autoflush_mem|].
    destruct (store_edge_cases (mem g) e' W Hn) as [[_ E]|(j & old & _ & _ & _ & _ & [[_ E]|[_ E]])]; rewrite Es in E; simplify_eq. done.
  - left. destruct w as [g f]. unfold Tombstone. cbn [fst] in *. rewrite Ho. destruct (tombstone_loop_abs ids now g) as (g' & [] & -> & HA); [|done].
    case_bool_decide; cbn [fst]; [done|]. by rewrite autoflush_mem.
  - left. unfold Flush. by rewrite flush_mem.
  - destruct (run_durable w Hrun) as [R D]. destruct Hok as [Hi Hok]. destruct (compact_durable i w R now D Hi Hok) as [_ [->|(_ & _ & L & HP & ->)]]; [by left|].
    right. split; [eauto|by apply abs_adopted].
  - left. unfold CrossingEdges. case_match; [done|]. cbn. by destruct (withIndex_spec w.1 Hc) as (_ & -> & _).
  - left. cbn. by destruct (withIndex_spec w.1 Hc) as (_ & -> & _).
  - left. cbn. destruct (run_durable w Hrun) as [R D]. destruct (restart_durable w R D) as (D' & _ & _ & _ & Hp).
    pose proof (du_replay _ _ D) as E1. pose proof (du_replay _ _ D') as E2. cbn [fst] in E2. rewrite Hp in E2. rewrite Hok in E1. congruence.
Qed.
End Claims.

(** ** Node identities *)

(** A node identity parses back to its kind and its sanitized key, which is valid UTF-8 without control
    bytes and at most 384 bytes long; sanitizing again changes nothing; and two identities are equal
    only for the same kind and sanitized key. *)
Theorem node_id_roundtrip k key : 0 <= k < KindInvalid -> key <> [] ->
  ParseNodeID (newNodeID k key) = Some (k, sanitizeKey key) /\ clean_key (sanitizeKey key) /\
  newNodeID k (sanitizeKey key) = newNodeID k key /\
  (forall k' key', 0 <= k' < KindInvalid -> newNodeID k' key' = newNodeID k key -> k' = k /\ sanitizeKey key' = sanitizeKey key).
Proof.
  intros Hk Hne. split_and!; [by apply ParseNodeID_newNodeID|apply sanitizeKey_clean|..].
  - unfold newNodeID. rewrite (sanitizeKey_fixed (sanitizeKey key)) by apply sanitizeKey_clean. done.
  - intros k' key' Hk' E. by apply newNodeID_inj.
Qed.

Lemma node_id_roundtrip_witness : ParseNodeID (newNodeID KindFile (str "a/b.go")) = Some (KindFile, str "a/b.go").
Proof. apply (node_id_roundtrip KindFile (str "a/b.go")); [unfold KindFile, KindInvalid; lia|done]. Defined.

(** ** Sample runs, with the instance of [DagJson] *)

Definition fine : io := MkIo true true true None true true.
Definition file_a : bytes := Eval vm_compute in FileNode (str "a").
Definition file_b : bytes := Eval vm_compute in FileNode (str "b").
Definition node_a : Node := MkNode file_a KindFile 1 0 1 [] (replicate 32 x00) 10 false.
Definition node_b : Node := MkNode file_b KindFile 2 0 5 [] (replicate 32 x00) 10 false.
Definition edge_ba : Edge := MkEdge file_b file_a EdgeConsumes F32.one 2.
Definition run_ops (ops : list op) : world := fold_left (step fine) ops (Open None, None).

(** Two nodes, an edge between them, and the position index built. *)
Definition small_run : world := run_ops [OpAddNode node_a; OpAddNode node_b; OpAddEdge edge_ba; OpCrossing 3].
(** The same with enough tombstones for a compaction. *)
Definition many_ids : list bytes := (fun z => Itoa (z mod 505)) <$> seqZ 0 2000.
Definition big_run : world := run_ops [OpAddNode node_a; OpAddNode node_b; OpAddEdge edge_ba; OpTombstone many_ids 7].

Definition plain_small (s : bytes) : bool :=
  forallb (between 0 0x7F) s && (Z.of_nat (length s) <=? 65536) && negb (bool_decide (s = [])).

Lemma plain_small_ok s : plain_small s = true -> s <> [] /\ small s.
Proof.
  unfold plain_small. rewrite !andb_true_iff. intros [[H1 H2] H3]. split; [by intros ->|]. split; [|by apply Z.leb_le].
  apply runes_ascii. apply List.Forall_forall. by apply forallb_forall.
Qed.

Lemma wire_node_a : wire_ok (recNode node_a).
Proof.
  cbn. split_and!; try done; try (unfold KindFile; lia); [by apply plain_small_ok|split; [constructor|cbn; lia]].
Qed.

Lemma wire_node_b : wire_ok (recNode node_b).
Proof.
  cbn. split_and!; try done; try (unfold KindFile; lia); [by apply plain_small_ok|split; [constructor|cbn; lia]].
Qed.

Lemma ok_edge_ba w : op_ok w (OpAddEdge edge_ba).
Proof.
  cbn. split_and!; try done; try (unfold EdgeConsumes; lia); try by apply plain_small_ok.
  exists 1, 149. unfold F32.unit_one. lia.
Qed.

Lemma ok_many w : op_ok w (OpTombstone many_ids 7).
Proof.
  split; [|done]. apply List.Forall_forall. intros id Hid. apply plain_small_ok.
  assert (H : forallb plain_small many_ids = true) by (vm_compute; reflexivity). rewrite forallb_forall in H. by apply H.
Qed.

Lemma run_small : run small_run.
Proof.
  unfold small_run, run_ops. cbn [fold_left].
  repeat (apply run_step; [|by left|first [exact wire_node_a|exact wire_node_b|apply ok_edge_ba|exact I]]). constructor.
Qed.

Lemma run_big : run big_run.
Proof.
  unfold big_run, run_ops. cbn [fold_left].
  repeat (apply run_step; [|by left|first [exact wire_node_a|exact wire_node_b|apply ok_edge_ba|apply ok_many]]). constructor.
Qed.

Lemma tuple_inv {A B C D E F} (a a' : A) (b b' : B) (c c' : C) (d d' : D) (e e' : E) (f f' : F) :
  (a, b, c, d, e, f) = (a', b', c', d', e', f') -> a = a' /\ b = b' /\ c = c' /\ d = d' /\ e = e' /\ f = f'.
Proof. by intros [= -> -> -> -> -> ->]. Qed.

(** What the sample looks like, in one evaluation. *)
Lemma big_facts : gen big_run.1 = 0 /\ size (nodes (mem big_run.1)) = 2%nat /\ length (edges (mem big_run.1)) = 1%nat /\
  pending big_run.1 = [] /\ stLogRecords (stats big_run.1) = 2003 /\ closed big_run.1 = false.
Proof. apply tuple_inv. vm_compute. reflexivity. Qed.

(** Its tombstones are the ids it was given. *)
Lemma big_dead : list_to_set many_ids ⊆ dead (mem big_run.1).
Proof.
  unfold big_run, run_ops. cbn [fold_left].
  set (w := step fine (step fine (step fine (Open None, None) (OpAddNode node_a)) (OpAddNode node_b)) (OpAddEdge edge_ba)).
  assert (closed w.1 = false) as Hc by (vm_compute; reflexivity). destruct w as [g f]. cbn [step fst] in *. unfold Tombstone. rewrite Hc.
  destruct (tombstone_loop_abs many_ids 7 g) as (g' & b & -> & HA). rewrite (marked_all many_ids) in HA by (eapply Forall_impl; [apply (ok_many (g, f))|by intros id [? _]]).
  apply (f_equal aDead) in HA. change (dead (mem g') = dead (mem g) ∪ list_to_set many_ids) in HA.
  destruct b; [rewrite bool_decide_false by done; cbn [fst]; rewrite autoflush_mem; change (list_to_set many_ids ⊆ dead (mem g'))|cbn [fst]]; rewrite HA; apply union_subseteq_r.
Qed.

Lemma big_needs_compaction : needsCompactionLocked big_run.1 = true.
Proof.
  destruct big_facts as (_ & _ & _ & _ & HR & _). unfold needsCompactionLocked. rewrite HR. cbn [Z.ltb Z.compare autoFlushRecords].
  assert (505 <= size (dead (mem big_run.1)))%nat as Hs; [|apply Z.geb_le; unfold compactWasteDivisor; lia].
  transitivity (size (list_to_set (Itoa <$> seqZ 0 505) : gset bytes)).
  - rewrite size_list_to_set, length_fmap, length_seqZ; [done|]. apply NoDup_fmap_2; [intros ???; by apply Itoa_inj|apply NoDup_seqZ].
  - apply subseteq_size. etransitivity; [|apply big_dead]. intros x. unfold many_ids. rewrite !elem_of_list_to_set, !list_elem_of_fmap.
    intros (z & -> & Hz%elem_of_seqZ). exists z. rewrite Z.mod_small by lia. split; [done|]. apply elem_of_seqZ. lia.
Qed.

Lemma compact_ok : op_ok big_run (OpCompact 9).
Proof.
  destruct big_facts as (H1 & H2 & H3 & _). unfold op_ok. rewrite H1, H2, H3. unfold int64. split_and!; lia.
Qed.

Lemma run_invariant_witness : wf (mem small_run.1) /\ coherent small_run.1 /\ closed small_run.1 = false.
Proof. apply (run_invariant small_run run_small). Defined.

Lemma crossing_edges_exact_witness :
  (CrossingEdges small_run.1 3).1 = Z.of_nat (length (List.filter (straddles (mem small_run.1) 3) (edges (mem small_run.1)))) /\
  (CrossingEdges small_run.1 3).1 = 1.
Proof. split; [apply (crossing_edges_exact small_run 3 run_small)|vm_compute; reflexivity]. Defined.

Lemma nodes_after_exact_witness : (exists ns, (NodesAfter small_run.1 2).1 = ns /\
  StronglySorted key_le (node_order <$> ns) /\ NoDup (nID <$> ns) /\
  (forall n, n ∈ ns <-> node_of (mem small_run.1) (nID n) = Some n /\ 2 <= nPos n)) /\ (NodesAfter small_run.1 2).1 = [node_b].
Proof. split; [apply (nodes_after_exact small_run 2 run_small)|vm_compute; reflexivity]. Defined.

Lemma reload_exact_witness : pending big_run.1 = [] /\ replay (mem (Open big_run.2), gen (Open big_run.2)) (pending big_run.1) = (mem big_run.1, gen big_run.1).
Proof.
  split; [|apply (reload_exact big_run run_big)]. apply big_facts.
Defined.

Lemma flush_persists_witness : length (pending small_run.1) = 3%nat /\ (Flush fine small_run).2 = None /\
  (mem (Open (Flush fine small_run).1.2), gen (Open (Flush fine small_run).1.2)) = (mem small_run.1, gen small_run.1).
Proof.
  split; [vm_compute; reflexivity|]. destruct (flush_persists fine small_run run_small) as (H1 & _ & _ & H2); [done|]. by split.
Defined.

Lemma torn_log_prefix_witness : exists R k, logged (contents big_run.2) R /\ (k <= length R)%nat /\
  ((length (contents big_run.2) <= 300)%nat -> k = length R) /\
  let g := Open (Some (take 300 (contents big_run.2))) in
  (mem g, gen g) = replay (empty_memory, 0) (take k R) /\ stLoadErrors (stats g) = 0 /\ stLogRecords (stats g) = Z.of_nat k.
Proof. apply (torn_log_prefix big_run 300 run_big). Defined.

Lemma compact_preserves_witness : needsCompactionLocked big_run.1 = true /\
  (forall id, node_of (mem (Compact fine big_run 9).1.1) id = node_of (mem big_run.1) id).
Proof.
  split; [exact big_needs_compaction|]. apply (compact_preserves fine big_run 9 run_big); [by left|exact compact_ok].
Defined.

Lemma step_refines_witness :
  abs (mem (step fine small_run (OpAddNode node_a)).1) = spec_step (abs (mem small_run.1)) (OpAddNode node_a) \/
  (exists now, OpAddNode node_a = OpCompact now) /\
    abs (mem (step fine small_run (OpAddNode node_a)).1) = live_part (abs (mem small_run.1)).
Proof. apply (step_refines fine small_run (OpAddNode node_a) run_small). exact I. Defined.

(** ** What the log and the index do outside these runs *)

(** [Tombstone] marks the ids before an empty one dead, but returns before the index is marked
    dirty: [CrossingEdges] then counts an edge whose end is tombstoned. *)
Lemma refused_tombstone_stale : let '(w, err) := Tombstone fine small_run [file_a; []] 3 in
  err = Some ErrInvalidNode /\ (CrossingEdges w.1 3).1 = 1 /\
  length (List.filter (straddles (mem w.1) 3) (edges (mem w.1))) = 0%nat.
Proof. vm_compute. done. Qed.

(** A write that fails after 20 bytes leaves a torn line; the retry appends the whole batch behind
    it, so the first record is glued to the torn text and does not survive the next load. *)
Lemma retried_flush_loses_record :
  let w := (Flush (MkIo true true true (Some 20%nat) true true) (run_ops [OpAddNode node_a])).1 in
  let '(w', err) := Flush fine w in
  err = None /\ pending w'.1 = [] /\ size (nodes (mem w'.1)) = 1%nat /\
  size (nodes (mem (Open w'.2))) = 0%nat /\ stLoadErrors (stats (Open w'.2)) = 1.
Proof. vm_compute. done. Qed.

(** The same happens to the first record written after a restart on a torn log. *)
Lemma torn_tail_swallows_next :
  let f := (Flush fine (run_ops [OpAddNode node_a])).1.2 in
  let torn := Some (contents f ++ take 20 (contents f)) in
  let w := (Flush fine (AddNode fine (Open torn, torn) node_b).1).1 in
  size (nodes (mem w.1)) = 2%nat /\ nodes (mem (Open w.2)) !! file_b = None.
Proof. vm_compute. done. Qed.
