(* ===== verification/DagBuild.v ===== *)
(** * The dependence graph: the edge constructors

    Models [src/internal/dag/builders.go]: the functions that turn an observed tool call, prompt,
    decision, elimination or segment into nodes and edges.  They are free functions over the
    [Graph] interface, so they are written here over a class of graphs; the class [GraphLaws] says
    what they rely on, the concrete graph of [DagLog] and the abstract one of [DagSpec] are its
    instances, and the theorems are proved against the class. *)

From S2P Require Import Prelude GoLib Core Frame Select F32 Utf8 Strconv Dag DagIndex DagLog DagJson DagRun DagSpec.

(** ** The [Graph] interface *)

Class GraphOps (S : Type) := {
  gAddNode : S -> Node -> S * option dag_error;
  gAddEdge : S -> Edge -> S * option dag_error;
  gOut : S -> bytes -> list Edge;
  gIn : S -> bytes -> list Edge
}.

(** ** Observations *)

Record ObservedTool := MkTool {
  tuToolUseID : bytes; tuPrevToolUseID : bytes; tuPrevTurn : Z; tuSupersedes : bytes; tuTurn : Z; tuTS : Z;
  tuPos : Z; tuResultPos : Z; tuTool : bytes; tuPathKey : bytes; tuWrites : bool; tuSymbols : list bytes;
  tuRoot : Hash; tuTokens : Z; tuEphemeral : bool
}.

Record ObservedPrompt := MkPrompt { opTurn : Z; opTS : Z; opPos : Z; opTokens : Z; opRef : bytes }.

Record DecisionSpec := MkDecision {
  dsID : bytes; dsTurn : Z; dsTS : Z; dsPos : Z; dsTokens : Z; dsEvidence : list bytes; dsSummary : bytes
}.

Record EliminationSpec := MkElimination {
  esRecordID : bytes; esTurn : Z; esTS : Z; esPos : Z; esPathKey : bytes; esSymbol : bytes; esEvidence : list bytes
}.

Record SegmentSpec := MkSegment {
  ssID : Z; ssPrevID : Z; ssStartTurn : Z; ssEndTurn : Z; ssTS : Z; ssStartPos : Z; ssTokens : Z; ssMembers : list bytes
}.

Definition fullWeight : f32 := F32.one.
Definition decisionSummaryMaxBytes : nat := 128.

Definition truncateOnRuneBoundary (s : bytes) (max : nat) : bytes :=
  if (length s <=? max)%nat then s else take (back_off s max) s.

(** [sortedUniqueSymbols]: the first occurrences of the non-empty names, sorted. *)
Fixpoint unique_names (names : list bytes) (seen : gset bytes) : list bytes :=
  match names with
  | [] => []
  | n :: names =>
      if bool_decide (n = []) || bool_decide (n ∈ seen) then unique_names names seen
      else n :: unique_names names (seen ∪ {[n]})
  end.
Definition sortedUniqueSymbols (names : list bytes) : list bytes := merge_sort bytes_le (unique_names names ∅).

(** The zero root of a node literal that names none, and an edge literal. *)
Definition zero_root : Hash := replicate 32 x00.
Definition edge_lit (from to : bytes) (kind turn : Z) : Edge := MkEdge from to kind fullWeight turn.

Definition sharedStateEdge (anchor use : bytes) (kind : Z) (o : ObservedTool) : Edge :=
  if tuWrites o then edge_lit use anchor kind (tuTurn o) else edge_lit anchor use kind (tuTurn o).

(** One mutating call on the interface. *)
Inductive call := CNode (n : Node) | CEdge (e : Edge).

(** The calls of [BuildToolUse] before it asks how the turn is linked. *)
Definition tool_head (o : ObservedTool) : list call :=
  let use := ToolUseNode (tuToolUseID o) in
  let result := ToolResultNode (tuToolUseID o) in
  let assistant := AssistantNode (tuTurn o) in
  let resultPos := if tuResultPos o =? 0 then tuPos o else tuResultPos o in
  [CNode (MkNode use KindToolUse (tuTurn o) (tuTS o) (tuPos o) (tuTool o) zero_root 0 (tuEphemeral o));
   CNode (MkNode result KindToolResult (tuTurn o) (tuTS o) resultPos (tuToolUseID o) (tuRoot o) (tuTokens o) (tuEphemeral o));
   CEdge (edge_lit use result EdgeProduces (tuTurn o));
   CNode (MkNode assistant KindAssistant (tuTurn o) (tuTS o) (tuPos o) [] zero_root 0 false)]
  ++ (if negb (bool_decide (tuPrevToolUseID o = [])) && (tuPrevTurn o <? tuTurn o)
      then [CEdge (edge_lit (ToolResultNode (tuPrevToolUseID o)) assistant EdgeConsumes (tuTurn o))] else []).

(** The calls from the turn link on. *)
Definition tool_tail (kind : Z) (o : ObservedTool) : list call :=
  let use := ToolUseNode (tuToolUseID o) in
  [CEdge (edge_lit (AssistantNode (tuTurn o)) use kind (tuTurn o))]
  ++ (if bool_decide (tuPathKey o = []) then []
      else [CNode (MkNode (FileNode (tuPathKey o)) KindFile (tuTurn o) (tuTS o) (tuPos o) (tuPathKey o) zero_root 0 false);
            CEdge (sharedStateEdge (FileNode (tuPathKey o)) use EdgeSharedFile o)])
  ++ flat_map (fun name =>
       [CNode (MkNode (SymbolNode (tuPathKey o) name) KindSymbol (tuTurn o) (tuTS o) (tuPos o) name zero_root 0 false);
        CEdge (sharedStateEdge (SymbolNode (tuPathKey o) name) use EdgeSharedSymbol o)]) (sortedUniqueSymbols (tuSymbols o))
  ++ (if bool_decide (tuSupersedes o = []) then []
      else [CEdge (edge_lit (ToolUseNode (tuSupersedes o)) use EdgeSupersedes (tuTurn o))]).

Definition prompt_calls (o : ObservedPrompt) : list call :=
  let prompt := UserPromptNode (opTurn o) in
  [CNode (MkNode prompt KindUserPrompt (opTurn o) (opTS o) (opPos o) (opRef o) zero_root (opTokens o) false);
   CEdge (edge_lit prompt (AssistantNode (opTurn o)) EdgeConsumes (opTurn o))].

Definition decision_calls (d : DecisionSpec) : list call :=
  let decision := DecisionNode (dsID d) in
  CNode (MkNode decision KindDecision (dsTurn d) (dsTS d) (dsPos d) (truncateOnRuneBoundary (dsSummary d) decisionSummaryMaxBytes)
    zero_root (dsTokens d) false)
  :: map (fun ev => CEdge (edge_lit ev decision EdgeExplains (dsTurn d))) (dsEvidence d).

Definition elimination_calls (e : EliminationSpec) : list call :=
  let elimination := EliminationNode (esRecordID e) in
  let ref := if bool_decide (esPathKey e = []) then esSymbol e else esPathKey e in
  CNode (MkNode elimination KindElimination (esTurn e) (esTS e) (esPos e) ref zero_root 0 false)
  :: map (fun ev => CEdge (edge_lit ev elimination EdgeExplains (esTurn e))) (esEvidence e)
  ++ (if bool_decide (esPathKey e = []) then []
      else [CEdge (edge_lit (FileNode (esPathKey e)) elimination EdgeSharedFile (esTurn e))])
  ++ (if bool_decide (esSymbol e = []) then []
      else [CEdge (edge_lit (SymbolNode (esPathKey e) (esSymbol e)) elimination EdgeSharedSymbol (esTurn e))]).

Definition segment_calls (s : SegmentSpec) : list call :=
  let segment := SegmentNode (ssID s) in
  let ref := Itoa (ssStartTurn s) ++ str "-" ++ Itoa (ssEndTurn s) in
  CNode (MkNode segment KindSegment (ssStartTurn s) (ssTS s) (ssStartPos s) ref zero_root (ssTokens s) false)
  :: map (fun m => CEdge (edge_lit m segment EdgeSequence (ssStartTurn s))) (ssMembers s)
  ++ (if ssPrevID s =? 0 then [] else [CEdge (edge_lit (SegmentNode (ssPrevID s)) segment EdgeSequence (ssStartTurn s))]).

Section Builders.
Context {S : Type} `{GraphOps S}.

(** Calls in order; what is returned is the joined errors, [nil] when every call succeeded. *)
Fixpoint emit (cs : list call) (s : S) : S * list dag_error :=
  match cs with
  | [] => (s, [])
  | c :: cs =>
      let '(s, err) := match c with CNode n => gAddNode s n | CEdge e => gAddEdge s e end in
      let '(s, errs) := emit cs s in
      (s, match err with Some e => e :: errs | None => errs end)
  end.

(** [collect]: the far ends of the shared-state edges. *)
Definition collect (es : list Edge) (backward : bool) : list bytes :=
  map (if backward then eFrom else eTo)
    (List.filter (fun e => (eKind e =? EdgeSharedFile) || (eKind e =? EdgeSharedSymbol)) es).

Definition sharesState (s : S) (prev pathKey : bytes) (symbols : list bytes) : bool :=
  if bool_decide (pathKey = []) && bool_decide (symbols = []) then false
  else
    let prevUse := ToolUseNode prev in
    let anchors := collect (gOut s prevUse) false ++ collect (gIn s prevUse) true in
    if negb (bool_decide (pathKey = [])) && bool_decide (FileNode pathKey ∈ anchors) then true
    else existsb (fun name => negb (bool_decide (name = [])) && bool_decide (SymbolNode pathKey name ∈ anchors)) symbols.

Definition turnLinkKind (s : S) (o : ObservedTool) : Z :=
  if bool_decide (tuPrevToolUseID o = []) then EdgeSequence
  else if sharesState s (tuPrevToolUseID o) (tuPathKey o) (tuSymbols o) then EdgeSequence
  else EdgeControlOnly.

Definition BuildToolUse (s : S) (o : ObservedTool) : S * list dag_error :=
  if bool_decide (tuToolUseID o = []) then (s, [ErrInvalidNode])
  else if negb (bool_decide (tuPrevToolUseID o = [])) && (tuPrevTurn o >? tuTurn o) then (s, [ErrInvalidEdge])
  else
    let '(s, errs) := emit (tool_head o) s in
    let '(s, errs') := emit (tool_tail (turnLinkKind s o) o) s in
    (s, errs ++ errs').

Definition BuildUserPrompt (s : S) (o : ObservedPrompt) : S * list dag_error := emit (prompt_calls o) s.

Definition BuildDecision (s : S) (d : DecisionSpec) : S * list dag_error :=
  if bool_decide (dsID d = []) then (s, [ErrInvalidNode]) else emit (decision_calls d) s.

Definition BuildElimination (s : S) (e : EliminationSpec) : S * list dag_error :=
  if bool_decide (esRecordID e = []) then (s, [ErrInvalidNode]) else emit (elimination_calls e) s.

Definition BuildSegment (s : S) (g : SegmentSpec) : S * list dag_error :=
  if ssID g =? 0 then (s, [ErrInvalidNode]) else emit (segment_calls g) s.

End Builders.

(** ** What the builders rely on *)

(** The edges the reads show: stored, with both ends not tombstoned. *)
Definition visible (a : agraph) (e : Edge) : Prop := aEdges a !! key_of e = Some e /\ (eFrom e ∉ aDead a) /\ (eTo e ∉ aDead a).

Record a_ok (a : agraph) : Prop := {
  ao_nodes : map_Forall (fun id n => nID n = id /\ validateNode n = true) (aNodes a);
  ao_edges : map_Forall (fun k e => key_of e = k /\ normal e) (aEdges a)
}.

Class GraphLaws (S : Type) `{GraphOps S} := {
  gok : S -> Prop;
  gabs : S -> agraph;
  gabs_ok s : gok s -> a_ok (gabs s);
  node_law s n : gok s -> gok (gAddNode s n).1 /\ gabs (gAddNode s n).1 = spec_step (gabs s) (OpAddNode n) /\
    (gAddNode s n).2 = if validateNode n then None else Some ErrInvalidNode;
  edge_law s e : gok s -> F32.wellformed (eWeight e) ->
    gok (gAddEdge s e).1 /\ gabs (gAddEdge s e).1 = spec_step (gabs s) (OpAddEdge e) /\
    (gAddEdge s e).2 = match validateEdge e with Some _ => None | None => Some ErrInvalidEdge end;
  out_law s id e : gok s -> e ∈ gOut s id <-> visible (gabs s) e /\ eFrom e = id;
  in_law s id e : gok s -> e ∈ gIn s id <-> visible (gabs s) e /\ eTo e = id
}.

(** ** Folds that can be repeated *)

Lemma fold_repeat_comm {A B} (f : A -> B -> A) (P : A -> Prop) (ns : list B) x :
  (forall x n, n ∈ ns -> P x -> P (f x n)) ->
  (forall x n m, n ∈ ns -> m ∈ ns -> P x -> f (f x n) m = f (f x m) n) ->
  (forall x n, n ∈ ns -> P x -> f (f x n) n = f x n) -> P x ->
  fold_left f ns (fold_left f ns x) = fold_left f ns x.
Proof.
  intros HP Hc Hi. revert x.
  assert (Hout : forall l x n, n ∈ ns -> l ⊆ ns -> P x -> fold_left f l (f x n) = f (fold_left f l x) n).
  { induction l as [|m l IH]; intros x n Hn Hl Hx; [done|]. cbn [fold_left].
    assert (m ∈ ns) by (apply Hl; by left). rewrite Hc by done. apply IH; [done|set_solver|by apply HP]. }
  assert (HPf : forall l x, l ⊆ ns -> P x -> P (fold_left f l x)).
  { induction l as [|m l IH]; intros x Hl Hx; [done|]. cbn. apply IH; [set_solver|]. apply HP; [|done]. apply Hl. by left. }
  enough (Hg : forall l x, l ⊆ ns -> P x -> fold_left f l (fold_left f l x) = fold_left f l x) by (intros x; by apply Hg).
  induction l as [|n l IH]; intros x Hl Hx; [done|]. cbn [fold_left].
  assert (Hn : n ∈ ns) by (apply Hl; by left). assert (Hls : l ⊆ ns) by set_solver. assert (Hfx : P (f x n)) by (by apply HP).
  rewrite Hout by (try done; by apply HPf). rewrite IH by done. rewrite <- Hout by done. by rewrite Hi.
Qed.

(** Each step keeps the value or forgets it. *)
Lemma fold_repeat_over {A B} (f : A -> B -> A) (ns : list B) x :
  (forall n, (forall x, f x n = x) \/ (exists c, forall x, f x n = c)) -> fold_left f ns (fold_left f ns x) = fold_left f ns x.
Proof.
  intros H. assert (Hg : (forall x, fold_left f ns x = x) \/ (exists c, forall x, fold_left f ns x = c)).
  { induction ns as [|n ns IH]; [by left|]. cbn. destruct IH as [IH|[c Hc]]; [|right; exists c; intros; apply Hc].
    destruct (H n) as [Hn|[c Hc]]; [left|right; exists c]; intros y; by rewrite IH. }
  destruct Hg as [Hg|[c Hc]]; [by rewrite Hg|by rewrite !Hc].
Qed.

Lemma fold_proj {A B C} (f : A -> B -> A) (p : A -> C) (g : C -> B -> C) (ns : list B) x :
  (forall x n, n ∈ ns -> p (f x n) = g (p x) n) -> p (fold_left f ns x) = fold_left g ns (p x).
Proof.
  revert x. induction ns as [|n ns IH]; intros x H; [done|]. cbn. rewrite IH; [|intros; apply H; by right].
  by rewrite H by (by left).
Qed.

Lemma node_ext a b : nID a = nID b -> nKind a = nKind b -> nTurn a = nTurn b -> nTS a = nTS b -> nPos a = nPos b ->
  nRef a = nRef b -> nRoot a = nRoot b -> nTokens a = nTokens b -> nEphemeral a = nEphemeral b -> a = b.
Proof. destruct a, b; cbn; intros; congruence. Qed.

Lemma fold_field {C} (p : Node -> C) (g : C -> Node -> C) ns x :
  (forall x n, n ∈ ns -> p (mergeNode x n) = g (p x) n) ->
  (forall y, fold_left g ns (fold_left g ns y) = fold_left g ns y) ->
  p (fold_left mergeNode ns (fold_left mergeNode ns x)) = p (fold_left mergeNode ns x).
Proof. intros Hp Hg. rewrite !(fold_proj mergeNode p g) by done. apply Hg. Qed.

Lemma earliest_repeat (v : Node -> Z) ns y :
  fold_left (fun x n => earliest x (v n)) ns (fold_left (fun x n => earliest x (v n)) ns y) = fold_left (fun x n => earliest x (v n)) ns y.
Proof.
  apply (fold_repeat_comm _ (fun _ => True)); try done.
  - intros x n m _ _ _. unfold earliest. repeat case_match; bsolve; lia.
  - intros x n _ _. unfold earliest. repeat case_match; bsolve; lia.
Qed.

Lemma supplied_repeat (v : Node -> Z) ns y :
  fold_left (fun x n => supplied x (v n)) ns (fold_left (fun x n => supplied x (v n)) ns y) = fold_left (fun x n => supplied x (v n)) ns y.
Proof.
  apply fold_repeat_over. intros n. unfold supplied. destruct (v n =? 0); [by left|right; by exists (v n)].
Qed.

(** A field that is the earliest one for anchors and the last supplied one otherwise. *)
Lemma anchored_repeat (p : Node -> Z) k ns x : Forall (fun n => nKind n = k) ns ->
  (forall x n, p (mergeNode x n) = if isAnchorKind (nKind n) then earliest (p x) (p n) else supplied (p x) (p n)) ->
  p (fold_left mergeNode ns (fold_left mergeNode ns x)) = p (fold_left mergeNode ns x).
Proof.
  intros Hk Hp. rewrite Forall_forall in Hk. destruct (isAnchorKind k) eqn:E.
  - apply (fold_field p (fun y n => earliest y (p n))); [|apply earliest_repeat]. intros y n Hn. by rewrite Hp, (Hk n Hn), E.
  - apply (fold_field p (fun y n => supplied y (p n))); [|apply supplied_repeat]. intros y n Hn. by rewrite Hp, (Hk n Hn), E.
Qed.

(** Merging the same observations into a node again changes nothing. *)
Lemma merge_repeat k ns x : Forall (fun n => nKind n = k) ns ->
  fold_left mergeNode ns (fold_left mergeNode ns x) = fold_left mergeNode ns x.
Proof.
  intros Hk. apply node_ext.
  - apply (fold_field nID (fun y _ => y)); [done|]. intros y. apply fold_repeat_over. by left.
  - apply (fold_field nKind (fun _ n => nKind n)); [done|]. intros y. apply fold_repeat_over. right. by exists (nKind n).
  - by apply (anchored_repeat nTurn k).
  - apply (fold_field nTS (fun y n => supplied y (nTS n))); [done|]. apply supplied_repeat.
  - by apply (anchored_repeat nPos k).
  - apply (fold_field nRef (fun y n => if bool_decide (nRef n = []) then y else nRef n)); [done|]. intros y. apply fold_repeat_over.
    intros n. case_bool_decide; [by left|right; by exists (nRef n)].
  - apply (fold_field nRoot (fun y n => if Hash_IsZero (nRoot n) then y else nRoot n)); [done|]. intros y. apply fold_repeat_over.
    intros n. destruct (Hash_IsZero (nRoot n)); [by left|right; by exists (nRoot n)].
  - apply (fold_field nTokens (fun y n => supplied y (nTokens n))); [done|]. apply supplied_repeat.
  - apply (fold_field nEphemeral (fun y n => y || nEphemeral n)); [done|]. intros y. apply fold_repeat_over.
    intros n. destruct (nEphemeral n); [right; exists true; intros; apply orb_true_r|left; intros; apply orb_false_r].
Qed.

Lemma merge_self n : mergeNode n n = n.
Proof.
  assert (He : forall z, earliest z z = z) by (intros z; unfold earliest; repeat case_match; bsolve; lia).
  assert (Hs : forall z, supplied z z = z) by (intros z; unfold supplied; by case_match).
  apply node_ext; cbn; rewrite ?He, ?Hs; try done; try (by case_match).
  by destruct (nEphemeral n).
Qed.

(** ** Edges *)

Lemma fold_edge_weight old e : normal old -> normal e ->
  F32.mag (eWeight (fold_edge old e)) = Z.max (F32.mag (eWeight old)) (F32.mag (eWeight e)).
Proof.
  intros Ho He. unfold fold_edge. cbn [eWeight]. rewrite F32.score_gtb by (apply Ho || apply He). destruct (Z.ltb_spec (F32.mag (eWeight old)) (F32.mag (eWeight e))); lia.
Qed.

Lemma edge_ext a b : normal a -> normal b -> key_of a = key_of b -> F32.mag (eWeight a) = F32.mag (eWeight b) -> eTurn a = eTurn b -> a = b.
Proof.
  intros Ha Hb Hk Hw Ht. apply F32.score_eq in Hw; [|apply Ha|apply Hb]. destruct a, b. unfold key_of in Hk. cbn in *. congruence.
Qed.

Lemma fold_edge_turn old e : eTurn (fold_edge old e) = Z.min (eTurn old) (eTurn e).
Proof. unfold fold_edge. cbn. destruct (Z.ltb_spec (eTurn e) (eTurn old)); lia. Qed.

Lemma edges_repeat k es x : Forall (fun e => normal e /\ key_of e = k) es -> normal x -> key_of x = k ->
  fold_left fold_edge es (fold_left fold_edge es x) = fold_left fold_edge es x.
Proof.
  intros Hes Hx Hk. rewrite Forall_forall in Hes.
  apply (fold_repeat_comm _ (fun e => normal e /\ key_of e = k)); [| | |done].
  - intros e n Hn [He Hke]. destruct (Hes n Hn). split; [by apply fold_edge_normal|done].
  - intros e n m Hn Hm [He Hke]. destruct (Hes n Hn), (Hes m Hm).
    apply edge_ext; rewrite ?fold_edge_weight, ?fold_edge_turn; auto using fold_edge_normal; lia.
  - intros e n Hn [He Hke]. destruct (Hes n Hn).
    apply edge_ext; rewrite ?fold_edge_weight, ?fold_edge_turn; auto using fold_edge_normal; lia.
Qed.

Lemma fold_edge_self e : normal e -> fold_edge e e = e.
Proof. intros He. apply edge_ext; rewrite ?fold_edge_weight, ?fold_edge_turn; auto using fold_edge_normal; lia. Qed.

(** ** Calls on the abstract graph *)

Definition call_op (c : call) : op := match c with CNode n => OpAddNode n | CEdge e => OpAddEdge e end.
Definition call_step (a : agraph) (c : call) : agraph := spec_step a (call_op c).
Definition call_error (c : call) : option dag_error :=
  match c with
  | CNode n => if validateNode n then None else Some ErrInvalidNode
  | CEdge e => match validateEdge e with Some _ => None | None => Some ErrInvalidEdge end
  end.
Definition call_ok (c : call) : Prop := match c with CNode _ => True | CEdge e => F32.wellformed (eWeight e) end.

(** The accepted nodes with an identity, the accepted edges with a key. *)
Definition nodes_at (id : bytes) (c : call) : option Node :=
  match c with CNode n => if validateNode n && bool_decide (nID n = id) then Some n else None | _ => None end.
Definition edges_at (k : edgeKey) (c : call) : option Edge :=
  match c with
  | CEdge e => match validateEdge e with Some e' => if bool_decide (key_of e' = k) then Some e' else None | None => None end
  | _ => None
  end.
Definition revived (c : call) : option bytes := match c with CNode n => if validateNode n then Some (nID n) else None | _ => None end.

Definition merge_opt {A} (f : A -> A -> A) (cur : option A) (n : A) : option A :=
  Some (match cur with Some p => f p n | None => n end).

Lemma fold_nodes cs a id :
  aNodes (fold_left call_step cs a) !! id = fold_left (merge_opt mergeNode) (omap (nodes_at id) cs) (aNodes a !! id).
Proof.
  revert a. induction cs as [|c cs IH]; intros a; [done|]. cbn [fold_left omap list_omap]. rewrite IH.
  destruct c as [n|e]; cbn [nodes_at call_step call_op spec_step].
  - destruct (validateNode n); cbn [andb aNodes]; [|done]. destruct (decide (nID n = id)) as [<-|Hne].
    + rewrite bool_decide_true, lookup_insert_eq by done. done.
    + rewrite bool_decide_false, lookup_insert_ne by done. done.
  - unfold call_step. cbn. by destruct (validateEdge e).
Qed.

Lemma fold_edges cs a k :
  aEdges (fold_left call_step cs a) !! k = fold_left (merge_opt fold_edge) (omap (edges_at k) cs) (aEdges a !! k).
Proof.
  revert a. induction cs as [|c cs IH]; intros a; [done|]. cbn [fold_left omap list_omap]. rewrite IH.
  destruct c as [n|e]; cbn [edges_at]; unfold call_step; cbn [call_op spec_step].
  - by destruct (validateNode n).
  - destruct (validateEdge e) as [e'|]; cbn [aEdges]; [|done]. destruct (decide (key_of e' = k)) as [<-|Hne].
    + rewrite bool_decide_true, lookup_insert_eq by done. done.
    + rewrite bool_decide_false, lookup_insert_ne by done. done.
Qed.

Lemma fold_dead cs a : aDead (fold_left call_step cs a) = aDead a ∖ list_to_set (omap revived cs).
Proof.
  revert a. induction cs as [|c cs IH]; intros a; [cbn; set_solver|]. cbn [fold_left omap list_omap]. rewrite IH.
  destruct c as [n|e]; unfold call_step; cbn [call_op spec_step revived].
  - destruct (validateNode n); cbn; set_solver.
  - destruct (validateEdge e); cbn; set_solver.
Qed.

Lemma merge_opt_repeat {A} (f : A -> A -> A) (P : A -> Prop) ns cur :
  (forall x, P x -> fold_left f ns (fold_left f ns x) = fold_left f ns x) ->
  (forall x, x ∈ ns -> P x) -> (forall x n, n ∈ ns -> P x -> P (f x n)) -> (forall x, P x -> f x x = x) ->
  (forall x, cur = Some x -> P x) ->
  fold_left (merge_opt f) ns (fold_left (merge_opt f) ns cur) = fold_left (merge_opt f) ns cur.
Proof.
  intros Hr Hn Hf Hs Hcur. assert (Hsome : forall l x, fold_left (merge_opt f) l (Some x) = Some (fold_left f l x)).
  { induction l as [|n l IH]; intros x; [done|]. cbn. apply IH. }
  destruct cur as [x|]; [rewrite !Hsome; f_equal; by apply Hr, Hcur|].
  destruct ns as [|n ns]; [done|]. assert (HPn : P n) by (apply Hn; by left).
  assert (Hstart : fold_left (merge_opt f) (n :: ns) None = Some (fold_left f (n :: ns) n)).
  { cbn [fold_left]. change (merge_opt f None n) with (Some n). by rewrite Hsome, Hs. }
  rewrite Hstart, Hsome. f_equal. by apply Hr.
Qed.

Lemma valid_kind n k key : validateNode n = true -> ParseNodeID (nID n) = Some (k, key) -> nKind n = k.
Proof. unfold validateNode. intros H Hp. rewrite Hp in H. bsolve. done. Qed.

Lemma validate_parses n : validateNode n = true -> exists k key, ParseNodeID (nID n) = Some (k, key) /\ nKind n = k.
Proof.
  intros H. destruct (ParseNodeID (nID n)) as [[k key]|] eqn:E; [|unfold validateNode in H; by rewrite E in H].
  exists k, key. split; [done|]. by eapply valid_kind.
Qed.

Lemma nodes_at_elem id (cs : list call) n : n ∈ omap (nodes_at id) cs -> nID n = id /\ validateNode n = true.
Proof.
  intros (c & _ & Hc)%list_elem_of_omap. destruct c as [m|]; [|done]. cbn in Hc.
  destruct (validateNode m) eqn:E; [|done]. cbn in Hc. case_bool_decide; [|done]. by simplify_eq.
Qed.

Lemma edges_at_elem k (cs : list call) e : Forall call_ok cs -> e ∈ omap (edges_at k) cs -> key_of e = k /\ normal e.
Proof.
  intros Hok (c & Hin & Hc)%list_elem_of_omap. rewrite Forall_forall in Hok. specialize (Hok c Hin). destruct c as [|m]; [done|]. cbn in *.
  destruct (validateEdge m) as [m'|] eqn:E; [|done]. apply validateEdge_spec in E as (Hn & _); [|done]. case_bool_decide; [|done]. by simplify_eq.
Qed.

(** Making the same calls again changes nothing. *)
Lemma calls_repeat cs a : a_ok a -> Forall call_ok cs ->
  fold_left call_step cs (fold_left call_step cs a) = fold_left call_step cs a.
Proof.
  intros [Hn He] Hok. set (b := fold_left call_step cs a). enough (Hg : aNodes (fold_left call_step cs b) = aNodes b /\
    aEdges (fold_left call_step cs b) = aEdges b /\ aDead (fold_left call_step cs b) = aDead b).
  { destruct Hg as (H1 & H2 & H3). destruct (fold_left call_step cs b), b. cbn in *. congruence. }
  unfold b. split_and!.
  - apply map_eq. intros id. rewrite !fold_nodes. apply (merge_opt_repeat mergeNode (fun n => nID n = id /\ validateNode n = true)).
    + intros x [Hid Hv]. destruct (validate_parses x Hv) as (k & key & Hp & _). apply (merge_repeat k). apply Forall_forall.
      intros n [Hni Hnv]%nodes_at_elem. eapply valid_kind; [done|]. by rewrite Hni, <- Hid.
    + intros x. apply nodes_at_elem.
    + intros x n [Hni Hnv]%nodes_at_elem [Hid Hv]. split; [done|]. apply mergeNode_valid; congruence.
    + intros x _. apply merge_self.
    + intros x Hx. exact (Hn _ _ Hx).
  - apply map_eq. intros k. rewrite !fold_edges. apply (merge_opt_repeat fold_edge (fun e => key_of e = k /\ normal e)).
    + intros x [Hk Hx]. apply (edges_repeat k); [|done|done]. apply Forall_forall. intros e [? ?]%edges_at_elem; done.
    + intros x Hx. by eapply edges_at_elem.
    + intros x n Hx [Hk Hnx]. apply edges_at_elem in Hx as [? ?]; [|done]. split; [done|by apply fold_edge_normal].
    + intros x [_ Hx]. by apply fold_edge_self.
    + intros x Hx. exact (He _ _ Hx).
  - rewrite !fold_dead. set_solver.
Qed.

Lemma calls_ok cs a : a_ok a -> Forall call_ok cs -> a_ok (fold_left call_step cs a).
Proof.
  intros Ha H. revert a Ha. induction H as [|c cs Hc _ IH]; intros a [Hn He]; [done|]. cbn [fold_left]. apply IH.
  unfold call_step. destruct c as [n|e]; cbn [call_op spec_step].
  - destruct (validateNode n) eqn:Ev; [|done]. split; [|done]. cbn. apply map_Forall_insert_2; [|done].
    destruct (aNodes a !! nID n) as [p|] eqn:E; [|done]. destruct (Hn _ _ E) as [Hid Hp]. split; [done|]. by apply mergeNode_valid.
  - destruct (validateEdge e) as [e'|] eqn:Ev; [|done]. apply validateEdge_spec in Ev as (Hn' & _); [|done].
    split; [done|]. cbn. apply map_Forall_insert_2; [|done]. destruct (aEdges a !! key_of e') as [old|] eqn:E; [|done].
    destruct (He _ _ E) as [Hk Ho]. split; [done|by apply fold_edge_normal].
Qed.

(** ** Builders against the interface *)

(** The two ends share state: a visible shared-file or shared-symbol edge joins them. *)
Definition shared_kind (k : Z) : bool := (k =? EdgeSharedFile) || (k =? EdgeSharedSymbol).
Definition coupled (a : agraph) (u x : bytes) : Prop := (u ∉ aDead a) /\ (x ∉ aDead a) /\
  exists k, shared_kind k = true /\ (is_Some (aEdges a !! (u, x, k)) \/ is_Some (aEdges a !! (x, u, k))).

Lemma fullWeight_ok : F32.wellformed fullWeight.
Proof. unfold fullWeight, F32.one, F32.wellformed. split; [done|]. exists 1, 149. unfold F32.unit_one. lia. Qed.

Lemma edge_lit_ok from to kind turn : call_ok (CEdge (edge_lit from to kind turn)).
Proof. apply fullWeight_ok. Qed.

Lemma shared_ok anchor use kind o : call_ok (CEdge (sharedStateEdge anchor use kind o)).
Proof. unfold sharedStateEdge. destruct (tuWrites o); apply edge_lit_ok. Qed.

(** Every list of calls a builder makes. *)
Ltac lits := repeat first
  [ apply Forall_nil_2 | apply Forall_cons_2; [first [exact I | apply edge_lit_ok | apply shared_ok]|] ].

Lemma tool_head_ok o : Forall call_ok (tool_head o).
Proof. unfold tool_head. apply Forall_app. split; [lits|]. case_match; lits. Qed.

Lemma tool_tail_ok kind o : Forall call_ok (tool_tail kind o).
Proof.
  unfold tool_tail. apply Forall_app. split; [lits|]. apply Forall_app. split; [case_match; lits|]. apply Forall_app. split; [|case_match; lits].
  induction (sortedUniqueSymbols (tuSymbols o)) as [|n ns IH]; [constructor|]. cbn. lits. exact IH.
Qed.

Section Interface.
Context {S : Type} `{GraphLaws S}.

Lemma emit_abs cs s : gok s -> Forall call_ok cs ->
  gok (emit cs s).1 /\ gabs (emit cs s).1 = fold_left call_step cs (gabs s) /\ (emit cs s).2 = omap call_error cs.
Proof.
  intros Hs Hok. revert s Hs. induction Hok as [|c cs Hc _ IH]; intros s Hs; [done|]. cbn [emit fold_left omap list_omap].
  destruct c as [n|e]; cbn [call_ok call_error] in *.
  - destruct (node_law s n Hs) as (H1 & H2 & H3). destruct (gAddNode s n) as [s' err]. cbn [fst snd] in *.
    destruct (IH s' H1) as (G1 & G2 & G3). destruct (emit cs s') as [s2 errs]. cbn [fst snd] in *. rewrite G2, H2, H3, G3. split_and!; [done|done|].
    by destruct (validateNode n).
  - destruct (edge_law s e Hs Hc) as (H1 & H2 & H3). destruct (gAddEdge s e) as [s' err]. cbn [fst snd] in *.
    destruct (IH s' H1) as (G1 & G2 & G3). destruct (emit cs s') as [s2 errs]. cbn [fst snd] in *. rewrite G2, H2, H3, G3. split_and!; [done|done|].
    by destruct (validateEdge e).
Qed.

Lemma collect_elem es backward x : x ∈ collect es backward <-> exists e, e ∈ es /\ shared_kind (eKind e) = true /\ x = (if backward then eFrom else eTo) e.
Proof.
  unfold collect. rewrite list_elem_of_fmap. setoid_rewrite list_elem_of_In at 1. setoid_rewrite filter_In.
  setoid_rewrite <- list_elem_of_In. unfold shared_kind. naive_solver.
Qed.

Lemma anchors_coupled s u x : gok s -> x ∈ collect (gOut s u) false ++ collect (gIn s u) true <-> coupled (gabs s) u x.
Proof.
  intros Hs. pose proof (gabs_ok s Hs) as [_ Hae]. rewrite elem_of_app, !collect_elem. unfold coupled. split.
  - intros [(e & He & Hk & ->)|(e & He & Hk & ->)].
    + apply out_law in He as [(Hv & Hd1 & Hd2) <-]; [|done]. split_and!; [done|done|]. exists (eKind e). split; [done|]. left. unfold key_of in Hv. eauto.
    + apply in_law in He as [(Hv & Hd1 & Hd2) <-]; [|done]. split_and!; [done|done|]. exists (eKind e). split; [done|]. right. unfold key_of in Hv. eauto.
  - intros (Hu & Hx & k & Hk & [[e He]|[e He]]); destruct (Hae _ _ He) as [Hke _].
    + left. exists e. unfold key_of in Hke. simplify_eq. split_and!; [|done|done]. apply out_law; [done|]. done.
    + right. exists e. unfold key_of in Hke. simplify_eq. split_and!; [|done|done]. apply in_law; [done|]. done.
Qed.

(** When a call shares state with its predecessor. *)
Definition shares (a : agraph) (o : ObservedTool) : Prop :=
  let u := ToolUseNode (tuPrevToolUseID o) in
  (tuPathKey o <> [] /\ coupled a u (FileNode (tuPathKey o))) \/
  exists name, name ∈ tuSymbols o /\ name <> [] /\ coupled a u (SymbolNode (tuPathKey o) name).

Lemma any_symbol (anchors names : list bytes) path :
  existsb (fun name => negb (bool_decide (name = [])) && bool_decide (SymbolNode path name ∈ anchors)) names = true <->
  exists name, name ∈ names /\ name <> [] /\ SymbolNode path name ∈ anchors.
Proof.
  rewrite existsb_exists. setoid_rewrite <- list_elem_of_In. setoid_rewrite andb_true_iff. setoid_rewrite negb_true_iff.
  setoid_rewrite bool_decide_eq_false. setoid_rewrite bool_decide_eq_true. done.
Qed.

Lemma sharesState_spec s o : gok s ->
  sharesState s (tuPrevToolUseID o) (tuPathKey o) (tuSymbols o) = true <-> shares (gabs s) o.
Proof.
  intros Hs. unfold sharesState, shares. setoid_rewrite <- (anchors_coupled s); [|done..].
  rewrite <- any_symbol. generalize (collect (gOut s (ToolUseNode (tuPrevToolUseID o))) false ++ collect (gIn s (ToolUseNode (tuPrevToolUseID o))) true).
  intros anchors. destruct (decide (tuPathKey o = [])) as [Hp|Hp].
  - rewrite !(bool_decide_true (tuPathKey o = [])) by done. cbn [negb andb]. destruct (tuSymbols o) as [|n ns] eqn:E; [cbn|rewrite bool_decide_false by done]; tauto.
  - rewrite !(bool_decide_false (tuPathKey o = [])) by done. cbn [negb andb]. case_bool_decide; [tauto|]. tauto.
Qed.

(** What every accepted node and stored edge of a list of calls looks like. *)
Lemma revived_elem (cs : list call) id : id ∈ omap revived cs -> exists n, CNode n ∈ cs /\ nID n = id.
Proof.
  intros (c & Hin & Hc)%list_elem_of_omap. destruct c as [n|e]; [|done]. cbn in Hc. destruct (validateNode n); [|done].
  simplify_eq. eauto.
Qed.

Lemma no_edge_at (cs : list call) k : (forall e, CEdge e ∈ cs -> key_of e <> k) -> Forall call_ok cs -> omap (edges_at k) cs = [].
Proof.
  intros Hne Hok. induction cs as [|c cs IH]; [done|]. apply Forall_cons in Hok as [Hc Hok]. cbn [omap list_omap].
  rewrite IH; [|intros e He; apply Hne; by right|done]. destruct c as [n|e]; [done|]. cbn in *.
  destruct (validateEdge e) as [e'|] eqn:E; [|done]. apply validateEdge_spec in E as (_ & Hk & _); [|done].
  rewrite bool_decide_false; [done|]. rewrite Hk. apply Hne. by left.
Qed.

Lemma coupled_stable cs a u x : Forall call_ok cs -> (forall n, CNode n ∈ cs -> nID n <> u) -> (x ∉ aDead a) ->
  (forall e, CEdge e ∈ cs -> shared_kind (eKind e) = true -> eFrom e <> u /\ eTo e <> u) ->
  coupled (fold_left call_step cs a) u x <-> coupled a u x.
Proof.
  intros Hok Hn Hx He. unfold coupled. rewrite fold_dead.
  assert (Hu : u ∉ aDead a ∖ list_to_set (omap revived cs) <-> u ∉ aDead a).
  { assert (u ∉ (list_to_set (omap revived cs) : gset bytes)); [|set_solver]. rewrite elem_of_list_to_set.
    intros (n & Hin & Hid)%revived_elem. by apply (Hn n). }
  assert (Hk : forall k, shared_kind k = true -> aEdges (fold_left call_step cs a) !! (u, x, k) = aEdges a !! (u, x, k) /\
    aEdges (fold_left call_step cs a) !! (x, u, k) = aEdges a !! (x, u, k)).
  { intros k Hs. rewrite !fold_edges, !no_edge_at; [done|..]; try done; intros e Hin Hke; unfold key_of in Hke; simplify_eq;
      destruct (He e Hin Hs); done. }
  rewrite Hu. split; intros (H1 & H2 & k & Hs & Hl); (split_and!; [done|set_solver|exists k; split; [done|]]);
    destruct (Hk k Hs) as [E1 E2]; [by rewrite <- E1, <- E2|by rewrite E1, E2].
Qed.

(** What a call of [BuildToolUse] names. *)
Definition anchor_of (o : ObservedTool) (x : bytes) : Prop :=
  (tuPathKey o <> [] /\ x = FileNode (tuPathKey o)) \/ exists name, name ∈ tuSymbols o /\ name <> [] /\ x = SymbolNode (tuPathKey o) name.

Lemma unique_names_elem names seen n : n ∈ unique_names names seen <-> n ∈ names /\ n <> [] /\ n ∉ seen.
Proof.
  revert seen. induction names as [|m names IH]; intros seen; cbn [unique_names]; [set_solver|].
  destruct (decide (m = [])) as [->|Hne]; [rewrite bool_decide_true by done; cbn [orb]; rewrite IH; set_solver|].
  rewrite (bool_decide_false (m = [])) by done. cbn [orb]. case_bool_decide; [rewrite IH; set_solver|].
  rewrite elem_of_cons, IH. destruct (decide (n = m)) as [->|]; set_solver.
Qed.

Lemma sorted_symbols_elem names n : n ∈ sortedUniqueSymbols names <-> n ∈ names /\ n <> [].
Proof. unfold sortedUniqueSymbols. rewrite merge_sort_Permutation, unique_names_elem. set_solver. Qed.

Lemma tool_calls_shape kind o c : kind = EdgeSequence \/ kind = EdgeControlOnly -> c ∈ tool_head o ++ tool_tail kind o ->
  let use := ToolUseNode (tuToolUseID o) in
  match c with
  | CNode n => nID n = use \/ nID n = ToolResultNode (tuToolUseID o) \/ nID n = AssistantNode (tuTurn o) \/ anchor_of o (nID n)
  | CEdge e => shared_kind (eKind e) = true -> exists x, anchor_of o x /\ (eFrom e = use /\ eTo e = x \/ eFrom e = x /\ eTo e = use)
  end.
Proof.
  intros Hkind Hc use. unfold tool_head, tool_tail in Hc. rewrite !elem_of_app in Hc.
  assert (Hsh : forall x k, anchor_of o x -> exists y, anchor_of o y /\
    (eFrom (sharedStateEdge x use k o) = use /\ eTo (sharedStateEdge x use k o) = y \/ eFrom (sharedStateEdge x use k o) = y /\ eTo (sharedStateEdge x use k o) = use)).
  { intros x k Hx. exists x. split; [done|]. unfold sharedStateEdge. destruct (tuWrites o); cbn; auto. }
  destruct Hc as [[Hc|Hc]|[Hc|[Hc|[Hc|Hc]]]].
  - repeat (apply elem_of_cons in Hc as [->|Hc]; [cbn; try done; auto|]). by apply elem_of_nil in Hc.
  - case_match; [|by apply elem_of_nil in Hc]. apply list_elem_of_singleton in Hc as ->. by intros [=].
  - apply list_elem_of_singleton in Hc as ->. cbn. destruct Hkind as [->| ->]; done.
  - case_bool_decide as Hp; [by apply elem_of_nil in Hc|]. apply elem_of_cons in Hc as [->|Hc]; [cbn; right; right; right; left; done|].
    apply list_elem_of_singleton in Hc as ->. intros _. apply Hsh. by left.
  - apply list_elem_of_In, in_flat_map in Hc as (n & Hn & Hc). apply list_elem_of_In, sorted_symbols_elem in Hn as [Hn Hne].
    destruct Hc as [<-|[<-|[]]]; [cbn; right; right; right; right; eauto|]. intros _. apply Hsh. right. eauto.
  - case_bool_decide; [by apply elem_of_nil in Hc|]. apply list_elem_of_singleton in Hc as ->. by intros [=].
Qed.

Lemma kinds_differ k k' key key' : 0 <= k < KindInvalid -> 0 <= k' < KindInvalid -> k <> k' -> newNodeID k key <> newNodeID k' key'.
Proof. intros Hk Hk' Hne [? _]%newNodeID_inj; done. Qed.

Lemma anchor_not_use o x id : anchor_of o x -> x <> ToolUseNode id.
Proof. intros [[_ ->]|(n & _ & _ & ->)]; apply kinds_differ; unfold KindInvalid, KindFile, KindSymbol, KindToolUse; lia. Qed.

(** The calls of one observation leave the coupling of its predecessor as it is. *)
Lemma shares_stable kind cs a o : cs ⊆ tool_head o ++ tool_tail kind o -> kind = EdgeSequence \/ kind = EdgeControlOnly ->
  Forall call_ok cs -> ToolUseNode (tuPrevToolUseID o) <> ToolUseNode (tuToolUseID o) -> (forall x, anchor_of o x -> x ∉ aDead a) ->
  shares (fold_left call_step cs a) o <-> shares a o.
Proof.
  intros Hcs Hkind Hok Hne Hlive. unfold shares.
  assert (Hst : forall x, anchor_of o x -> coupled (fold_left call_step cs a) (ToolUseNode (tuPrevToolUseID o)) x <-> coupled a (ToolUseNode (tuPrevToolUseID o)) x).
  { intros x Hx. apply coupled_stable; [done| |by apply Hlive|].
    - intros n Hn%Hcs. apply (tool_calls_shape kind o (CNode n) Hkind) in Hn as [->|[->|[->|Ha]]]; [done|..].
      + apply kinds_differ; unfold KindInvalid, KindToolResult, KindToolUse; lia.
      + apply kinds_differ; unfold KindInvalid, KindAssistant, KindToolUse; lia.
      + by eapply anchor_not_use.
    - intros e He%Hcs Hsk. apply (tool_calls_shape kind o (CEdge e) Hkind) in He as (y & Hy & [[-> ->]|[-> ->]]); [..|done]; split; try done;
        by eapply anchor_not_use. }
  split; (intros [[Hp Hc]|(n & Hn & Hnn & Hc)]; [left; split; [done|]|right; exists n; split_and!; [done|done|]]);
    (eapply Hst; [|exact Hc]); unfold anchor_of; eauto 6.
Qed.

Lemma link_kind s o : turnLinkKind s o = EdgeSequence \/ turnLinkKind s o = EdgeControlOnly.
Proof. unfold turnLinkKind. repeat case_match; auto. Qed.

(** What [BuildToolUse] does not refuse at once. *)
Definition tool_input (o : ObservedTool) : Prop := tuToolUseID o <> [] /\ (tuPrevToolUseID o = [] \/ tuPrevTurn o <= tuTurn o).

Lemma tool_input_dec o : tool_input o <->
  bool_decide (tuToolUseID o = []) = false /\ (negb (bool_decide (tuPrevToolUseID o = [])) && (tuPrevTurn o >? tuTurn o)) = false.
Proof.
  unfold tool_input. rewrite bool_decide_eq_false, andb_false_iff, negb_false_iff, bool_decide_eq_true.
  split; intros [H1 [H2|H2]]; (split; [done|]); auto; right; bsolve; [|lia]. destruct (tuPrevTurn o >? tuTurn o) eqn:E; bsolve; [lia|done].
Qed.

Definition link_of (s : S) (o : ObservedTool) : Z := turnLinkKind (emit (tool_head o) s).1 o.
Definition tool_calls (kind : Z) (o : ObservedTool) : list call := tool_head o ++ tool_tail kind o.

Lemma tool_calls_ok kind o : Forall call_ok (tool_calls kind o).
Proof. apply Forall_app. split; [apply tool_head_ok|apply tool_tail_ok]. Qed.

Lemma build_tool_abs s o : gok s -> tool_input o ->
  gok (BuildToolUse s o).1 /\ gabs (BuildToolUse s o).1 = fold_left call_step (tool_calls (link_of s o) o) (gabs s) /\
  (BuildToolUse s o).2 = omap call_error (tool_calls (link_of s o) o).
Proof.
  intros Hs [H1 H2]%tool_input_dec. unfold BuildToolUse, link_of, tool_calls. rewrite H1, H2.
  destruct (emit_abs (tool_head o) s Hs (tool_head_ok o)) as (G1 & G2 & G3). destruct (emit (tool_head o) s) as [s1 errs]. cbn [fst snd] in *.
  destruct (emit_abs (tool_tail (turnLinkKind s1 o) o) s1 G1 (tool_tail_ok _ o)) as (T1 & T2 & T3).
  destruct (emit (tool_tail (turnLinkKind s1 o) o) s1) as [s2 errs']. cbn [fst snd] in *.
  rewrite fold_left_app, <- G2, omap_app, G3, T3. done.
Qed.

(** The link is decided by the coupling before the call. *)
Lemma link_spec s o : gok s -> tuPrevToolUseID o <> [] ->
  link_of s o = EdgeSequence <-> shares (fold_left call_step (tool_head o) (gabs s)) o.
Proof.
  intros Hs Hp. destruct (emit_abs (tool_head o) s Hs (tool_head_ok o)) as (G1 & G2 & _). unfold link_of.
  rewrite <- G2, <- sharesState_spec by done. unfold turnLinkKind. rewrite bool_decide_false by done.
  by destruct (sharesState _ _ _ _).
Qed.

(** Recording the same tool call again changes nothing a client of the graph can see and returns the same
    errors, on any implementation of the graph interface, provided the call is not its own predecessor and
    the file and symbols it names are not tombstoned. *)
Theorem build_tool_idempotent s o : gok s -> tool_input o ->
  (tuPrevToolUseID o = [] \/ ToolUseNode (tuPrevToolUseID o) <> ToolUseNode (tuToolUseID o) /\ forall x, anchor_of o x -> x ∉ aDead (gabs s)) ->
  let s1 := (BuildToolUse s o).1 in
  gabs (BuildToolUse s1 o).1 = gabs s1 /\ (BuildToolUse s1 o).2 = (BuildToolUse s o).2.
Proof.
  intros Hs Hin Hprev s1. destruct (build_tool_abs s o Hs Hin) as (G1 & G2 & G3). fold s1 in G1, G2.
  destruct (build_tool_abs s1 o G1 Hin) as (_ & T2 & T3). assert (Hlink : link_of s1 o = link_of s o).
  { destruct Hprev as [Hp|[Hne Hlive]]; [unfold link_of, turnLinkKind; by rewrite bool_decide_true|].
    destruct (decide (tuPrevToolUseID o = [])) as [Hp|Hp]; [unfold link_of, turnLinkKind; by rewrite bool_decide_true|].
    pose proof (link_spec s o Hs Hp) as L1. pose proof (link_spec s1 o G1 Hp) as L2.
    assert (Hstep : forall cs a, cs ⊆ tool_calls (link_of s o) o -> Forall call_ok cs -> (forall x, anchor_of o x -> x ∉ aDead a) ->
      shares (fold_left call_step cs a) o <-> shares a o) by (intros; eapply shares_stable; eauto using link_kind; apply link_kind).
    assert (Hh : tool_head o ⊆ tool_calls (link_of s o) o) by (intros c Hc; apply elem_of_app; by left).
    rewrite (Hstep (tool_head o)) in L1, L2; try done; try apply tool_head_ok;
      [|intros x Hx; rewrite G2, fold_dead, elem_of_difference; intros [Hd _]; by apply (Hlive x)].
    rewrite G2, (Hstep (tool_calls (link_of s o) o)) in L2 by (done || apply tool_calls_ok).
    destruct (link_kind (emit (tool_head o) s).1 o) as [E|E], (link_kind (emit (tool_head o) s1).1 o) as [E'|E'];
      fold (link_of s o) (link_of s1 o) in E, E'; rewrite E, E' in *; try done; exfalso.
    - assert (EdgeControlOnly = EdgeSequence) by (apply L2, L1; done). done.
    - assert (EdgeControlOnly = EdgeSequence) by (apply L1, L2; done). done. }
  rewrite T2, T3, G3, Hlink, G2. split; [|done]. apply calls_repeat; [by apply gabs_ok|apply tool_calls_ok].
Qed.

(** ** The chain of turns has no cycle *)

Inductive observation := ObsTool (o : ObservedTool) | ObsPrompt (o : ObservedPrompt).

Definition build (s : S) (o : observation) : S := match o with ObsTool o => (BuildToolUse s o).1 | ObsPrompt o => (BuildUserPrompt s o).1 end.

(** The edge families of the chain: sequence, produces, consumes, control. *)
Definition chain_kind (k : Z) : bool := (k =? EdgeSequence) || (k =? EdgeProduces) || (k =? EdgeConsumes) || (k =? EdgeControlOnly).
Definition chain (a : agraph) (x y : bytes) : Prop := exists k, chain_kind k = true /\ is_Some (aEdges a !! (x, y, k)).

Section Ranks.
(** The turn of each tool call, by the key of its node. *)
Variable turn_of : bytes -> Z.

Definition consistent (o : observation) : Prop :=
  match o with
  | ObsTool o => turn_of (sanitizeKey (tuToolUseID o)) = tuTurn o /\ int64 (tuTurn o) /\ tuToolUseID o <> [] /\
      (tuPrevToolUseID o <> [] -> turn_of (sanitizeKey (tuPrevToolUseID o)) = tuPrevTurn o)
  | ObsPrompt o => int64 (opTurn o)
  end.

Definition rank (id : bytes) : Z :=
  match ParseNodeID id with
  | Some (k, key) =>
      if k =? KindUserPrompt then 4 * default 0 (Atoi key)
      else if k =? KindAssistant then 4 * default 0 (Atoi key) + 1
      else if k =? KindToolUse then 4 * turn_of key + 2
      else if k =? KindToolResult then 4 * turn_of key + 3
      else 0
  | None => 0
  end.

Lemma Itoa_clean t : int64 t -> sanitizeKey (Itoa t) = Itoa t.
Proof.
  intros Ht. apply sanitizeKey_fixed.
  assert (Ha : Forall (fun b => between 0x20 0x7E b = true) (Itoa t)).
  { assert (Hu : forall n, 0 <= n -> Forall (fun b => between 0x20 0x7E b = true) (udec n)).
    { intros n Hn. destruct (udec_spec n Hn) as (_ & Hd & _). eapply Forall_impl; [exact Hd|]. intros b [d Hb]. unfold digit_value in Hb.
      case_match; [|done]. unfold between. bsolve. apply andb_true_intro. split; apply Z.leb_le; lia. }
    unfold Itoa. destruct (Z.ltb_spec t 0); [constructor; [done|apply Hu; lia]|apply Hu; lia]. }
  apply ascii_weaken in Ha as [H1 H2]. split; [by apply runes_ascii|done|]. pose proof (int64_length t Ht). unfold maxKeyBytes. lia.
Qed.

Lemma rank_prompt t : int64 t -> rank (UserPromptNode t) = 4 * t.
Proof.
  intros Ht. unfold rank, UserPromptNode. rewrite ParseNodeID_newNodeID by (apply Itoa_not_nil || (unfold KindUserPrompt, KindInvalid; lia)).
  by rewrite Itoa_clean, int64_parse.
Qed.
Lemma rank_assistant t : int64 t -> rank (AssistantNode t) = 4 * t + 1.
Proof.
  intros Ht. unfold rank, AssistantNode. rewrite ParseNodeID_newNodeID by (apply Itoa_not_nil || (unfold KindAssistant, KindInvalid; lia)).
  by rewrite Itoa_clean, int64_parse.
Qed.
Lemma rank_use id : id <> [] -> rank (ToolUseNode id) = 4 * turn_of (sanitizeKey id) + 2.
Proof. intros Hid. unfold rank, ToolUseNode. by rewrite ParseNodeID_newNodeID by (done || (unfold KindToolUse, KindInvalid; lia)). Qed.
Lemma rank_result id : id <> [] -> rank (ToolResultNode id) = 4 * turn_of (sanitizeKey id) + 3.
Proof. intros Hid. unfold rank, ToolResultNode. by rewrite ParseNodeID_newNodeID by (done || (unfold KindToolResult, KindInvalid; lia)). Qed.

Definition rises (a : agraph) : Prop := forall x y k, chain_kind k = true -> is_Some (aEdges a !! (x, y, k)) -> rank x < rank y.
Definition call_rises (c : call) : Prop := match c with CEdge e => chain_kind (eKind e) = true -> rank (eFrom e) < rank (eTo e) | _ => True end.

Lemma calls_rise cs a : Forall call_ok cs -> Forall call_rises cs -> rises a -> rises (fold_left call_step cs a).
Proof.
  intros Hok Hr. revert a. induction Hr as [|c cs Hc _ IH]; intros a Ha; [done|]. apply Forall_cons in Hok as [Hco Hok].
  cbn [fold_left]. apply IH; [done|]. unfold call_step. destruct c as [n|e]; cbn [call_op spec_step].
  - by destruct (validateNode n).
  - destruct (validateEdge e) as [e'|] eqn:Ev; [|done]. apply validateEdge_spec in Ev as (_ & Hk & _); [|done].
    intros x y k Hck. cbn [aEdges]. destruct (decide (key_of e' = (x, y, k))) as [He|Hne].
    + intros _. rewrite Hk in He. unfold key_of in He. simplify_eq. by apply Hc.
    + rewrite lookup_insert_ne by done. by apply Ha.
Qed.

Lemma shared_rises anchor use kind o : chain_kind kind = false -> call_rises (CEdge (sharedStateEdge anchor use kind o)).
Proof. intros Hk. unfold sharedStateEdge. destruct (tuWrites o); cbn; by rewrite Hk. Qed.

Lemma tool_calls_rise kind o : consistent (ObsTool o) -> Forall call_rises (tool_calls kind o).
Proof.
  intros (Ht & Hi & Hid & Hp). unfold tool_calls, tool_head, tool_tail. repeat (apply Forall_app; split).
  - do 2 (constructor; [exact I|]). constructor; [|constructor; [exact I|constructor]].
    intros _. cbn [eFrom eTo edge_lit]. rewrite rank_use, rank_result by done. lia.
  - destruct (negb (bool_decide (tuPrevToolUseID o = [])) && (tuPrevTurn o <? tuTurn o)) eqn:E; [|constructor]. constructor; [|constructor].
    apply andb_true_iff in E as [E1 E2]. apply negb_true_iff, bool_decide_eq_false in E1. apply Z.ltb_lt in E2. intros _. cbn [eFrom eTo edge_lit].
    rewrite rank_result, rank_assistant, Hp by done. lia.
  - constructor; [|constructor]. intros _. cbn [eFrom eTo edge_lit]. rewrite rank_assistant, rank_use, Ht by done. lia.
  - case_bool_decide; constructor; [done|]. constructor; [|constructor]. by apply shared_rises.
  - induction (sortedUniqueSymbols (tuSymbols o)) as [|n ns IH]; [constructor|]. cbn. constructor; [done|]. constructor; [by apply shared_rises|done].
  - case_bool_decide; constructor; [by intros [=]|constructor].
Qed.

Lemma build_rises s o : gok s -> consistent o -> rises (gabs s) -> gok (build s o) /\ rises (gabs (build s o)).
Proof.
  intros Hs Hc Hr. destruct o as [o|o]; cbn [build].
  - destruct (decide (tool_input o)) as [Hin|Hin].
    + destruct (build_tool_abs s o Hs Hin) as (G1 & G2 & _). split; [done|]. rewrite G2. apply calls_rise; [apply tool_calls_ok| |done].
      by apply tool_calls_rise.
    + rewrite tool_input_dec in Hin. unfold BuildToolUse. repeat case_match; naive_solver.
  - unfold BuildUserPrompt. assert (Hok : Forall call_ok (prompt_calls o)) by (unfold prompt_calls; lits).
    destruct (emit_abs _ s Hs Hok) as (G1 & G2 & _). split; [done|]. rewrite G2. apply calls_rise; [done| |done].
    unfold prompt_calls. constructor; [done|]. constructor; [|constructor]. intros _. cbn [eFrom eTo edge_lit]. rewrite rank_prompt, rank_assistant by done. lia.
Qed.

(** The chain of prompts, assistant turns, tool calls and results never has a cycle, however many
    observations are recorded and in whatever order, on any implementation of the interface, as long as a
    tool call is always reported at the same turn. *)
Theorem chain_acyclic s obs : gok s -> (forall x y, ~ chain (gabs s) x y) -> Forall consistent obs ->
  forall x, ~ tc (chain (gabs (fold_left build obs s))) x x.
Proof.
  intros Hs Hnone Hobs. assert (Hr : rises (gabs (fold_left build obs s))).
  { assert (Hr : rises (gabs s)) by (intros x y k Hk He; exfalso; apply (Hnone x y); by exists k).
    clear Hnone. revert s Hs Hr. induction Hobs as [|o obs Ho _ IH]; intros s Hs Hr; [done|]. cbn [fold_left].
    destruct (build_rises s o Hs Ho Hr). by apply IH. }
  assert (Hlt : forall x y, tc (chain (gabs (fold_left build obs s))) x y -> rank x < rank y).
  { induction 1 as [x y (k & Hk & He)|x y z (k & Hk & He) _ IH]; [by eapply Hr|]. specialize (Hr x y k Hk He). lia. }
  intros x Hx%Hlt. lia.
Qed.
End Ranks.

(** ** Every call of a valid observation takes effect *)

Record tool_valid (o : ObservedTool) : Prop := {
  tv_input : tool_input o;
  tv_pos : 0 <= tuPos o;
  tv_result : 0 <= tuResultPos o;
  tv_tokens : 0 <= tuTokens o;
  tv_self : tuSupersedes o <> [] -> ToolUseNode (tuSupersedes o) <> ToolUseNode (tuToolUseID o)
}.

(** A call the graph accepts as it is given. *)
Definition accepted (c : call) : Prop := match c with CNode n => validateNode n = true | CEdge e => normal e end.

Lemma accepted_error c : accepted c -> call_error c = None.
Proof. destruct c as [n|e]; cbn; [by intros ->|]. intros He. by rewrite validateEdge_normal. Qed.

Lemma lit_node k key turn ts pos ref root tokens eph : 0 <= k < KindInvalid -> key <> [] -> 0 <= pos -> 0 <= tokens ->
  accepted (CNode (MkNode (newNodeID k key) k turn ts pos ref root tokens eph)).
Proof.
  intros Hk Hne Hp Ht. unfold accepted, validateNode. cbn [nID nKind nPos nTokens]. rewrite ParseNodeID_newNodeID by done.
  rewrite Z.eqb_refl. rewrite !andb_true_iff, !Z.geb_le. auto.
Qed.

Lemma lit_edge k key k' key' kind turn : 0 <= k < KindInvalid -> 0 <= k' < KindInvalid -> key <> [] -> key' <> [] -> kind <= EdgeControlOnly ->
  newNodeID k key <> newNodeID k' key' -> accepted (CEdge (edge_lit (newNodeID k key) (newNodeID k' key') kind turn)).
Proof.
  intros Hk Hk' Hne Hne' Hkind Hd. split; cbn [eFrom eTo eKind eWeight edge_lit]; try done.
  - rewrite ParseNodeID_newNodeID by done. eauto.
  - rewrite ParseNodeID_newNodeID by done. eauto.
  - split; [apply F32.score_one|done].
Qed.

Lemma tool_calls_accepted kind o : kind <= EdgeControlOnly -> tool_valid o -> Forall accepted (tool_calls kind o).
Proof.
  intros Hkind [[Hid Hprev] Hp Hr Ht Hs].
  assert (Hk : 0 <= KindToolUse < KindInvalid /\ 0 <= KindToolResult < KindInvalid /\ 0 <= KindAssistant < KindInvalid /\
    0 <= KindFile < KindInvalid /\ 0 <= KindSymbol < KindInvalid) by (vm_compute; intuition congruence).
  destruct Hk as (K1 & K2 & K3 & K4 & K5). pose proof (Itoa_not_nil (tuTurn o)) as HI.
  assert (Hsym : forall n, tuPathKey o ++ [symbolSep] ++ n <> []) by (intros n; by destruct (tuPathKey o)).
  assert (Hres : 0 <= (if tuResultPos o =? 0 then tuPos o else tuResultPos o)) by (case_match; lia).
  assert (Hsh : forall k key sk, 0 <= k < KindInvalid -> key <> [] -> k <> KindToolUse -> sk <= EdgeControlOnly ->
    accepted (CEdge (sharedStateEdge (newNodeID k key) (ToolUseNode (tuToolUseID o)) sk o))).
  { intros k key sk H1 H2 H3 H4. unfold sharedStateEdge. destruct (tuWrites o); apply lit_edge; try done; by apply kinds_differ. }
  unfold tool_calls, tool_head, tool_tail. repeat (apply Forall_app; split).
  - constructor; [by apply lit_node|]. constructor; [by apply lit_node|]. constructor; [apply lit_edge; try done; by apply kinds_differ|].
    constructor; [by apply lit_node|constructor].
  - destruct (negb (bool_decide (tuPrevToolUseID o = [])) && (tuPrevTurn o <? tuTurn o)) eqn:E; [|constructor].
    apply andb_true_iff in E as [E _]. apply negb_true_iff, bool_decide_eq_false in E.
    constructor; [|constructor]. apply lit_edge; try done; by apply kinds_differ.
  - constructor; [|constructor]. apply lit_edge; try done; by apply kinds_differ.
  - case_bool_decide; [constructor|]. constructor; [by apply lit_node|]. constructor; [by apply Hsh|constructor].
  - assert (HF : Forall (fun n : bytes => n <> []) (sortedUniqueSymbols (tuSymbols o)))
      by (apply Forall_forall; intros n Hn; apply sorted_symbols_elem in Hn; apply Hn).
    induction HF as [|n ns Hn _ IH]; [constructor|]. cbn [flat_map app]. constructor; [by apply lit_node|]. constructor; [by apply Hsh|done].
  - case_bool_decide; [constructor|]. constructor; [|constructor]. apply lit_edge; try done. by apply Hs.
Qed.

Lemma fold_keeps es cur e : (forall x, x ∈ es -> normal x /\ key_of x = key_of e) -> (forall x, cur = Some x -> normal x /\ key_of x = key_of e) -> e ∈ es ->
  exists r, fold_left (merge_opt fold_edge) es cur = Some r /\ normal r /\ F32.mag (eWeight e) <= F32.mag (eWeight r) /\ eTurn r <= eTurn e.
Proof.
  intros Hes Hcur Hin.
  assert (Hmono : forall l x, (forall y, y ∈ l -> normal y /\ key_of y = key_of e) -> normal x -> exists r,
    fold_left (merge_opt fold_edge) l (Some x) = Some r /\ normal r /\ F32.mag (eWeight x) <= F32.mag (eWeight r) /\ eTurn r <= eTurn x).
  { induction l as [|y l IH]; intros x Hl Hx; [exists x; split_and!; try done; lia|]. cbn [fold_left].
    destruct (Hl y) as [Hy _]; [by left|]. destruct (IH (fold_edge x y)) as (r & Hr & Hn & Hw & Ht);
      [intros z Hz; apply Hl; by right|by apply fold_edge_normal|]. exists r. rewrite fold_edge_weight in Hw by done. rewrite fold_edge_turn in Ht.
    split_and!; try done; lia. }
  revert cur Hcur. induction es as [|y es IH]; intros cur Hcur; [by apply elem_of_nil in Hin|]. cbn [fold_left].
  destruct (Hes y) as [Hy Hky]; [by left|]. apply elem_of_cons in Hin as [<-|Hin].
  - assert (exists z, merge_opt fold_edge cur e = Some z /\ normal z /\ F32.mag (eWeight e) <= F32.mag (eWeight z) /\ eTurn z <= eTurn e) as (z & -> & Hz & Hw & Ht).
    { destruct cur as [x|]; [|exists e; split_and!; try done; lia]. destruct (Hcur x eq_refl) as [Hx _]. exists (fold_edge x e).
      rewrite fold_edge_weight, fold_edge_turn by done. split_and!; try done; [by apply fold_edge_normal|lia|lia]. }
    destruct (Hmono es z) as (r & -> & Hr & Hw' & Ht'); [intros; apply Hes; by right|done|]. exists r. split_and!; try done; lia.
  - apply IH; [intros; apply Hes; by right|done|]. intros z [= <-]. destruct cur as [x|]; [|done]. destruct (Hcur x eq_refl).
    split; [by apply fold_edge_normal|done].
Qed.

Lemma fold_some {A} (f : A -> A -> A) ns cur x : x ∈ ns -> is_Some (fold_left (merge_opt f) ns cur).
Proof.
  assert (Hs : forall l y, is_Some (fold_left (merge_opt f) l (Some y))) by (induction l as [|z l IH]; intros y; [done|apply IH]).
  revert cur. induction ns as [|y ns IH]; intros cur Hin; [by apply elem_of_nil in Hin|]. apply Hs.
Qed.

(** Every edge carries the full weight and the turn of the observation. *)
Definition literal (o : ObservedTool) (c : call) : Prop :=
  match c with CEdge e => eWeight e = fullWeight /\ eTurn e = tuTurn o | _ => True end.

Lemma tool_calls_literal kind o : Forall (literal o) (tool_calls kind o).
Proof.
  assert (Hsh : forall x u k, literal o (CEdge (sharedStateEdge x u k o))) by (intros; unfold sharedStateEdge; by destruct (tuWrites o)).
  unfold tool_calls, tool_head, tool_tail. repeat (apply Forall_app; split).
  - by repeat (constructor; [done|]).
  - case_match; by repeat (constructor; [done|]).
  - by repeat (constructor; [done|]).
  - case_bool_decide; [done|]. constructor; [done|]. by constructor.
  - induction (sortedUniqueSymbols (tuSymbols o)) as [|n ns IH]; [constructor|]. cbn [flat_map app]. constructor; [done|]. constructor; [apply Hsh|exact IH].
  - case_bool_decide; by repeat (constructor; [done|]).
Qed.

(** A valid tool call is recorded without an error, and every node and edge it stands for is then in the
    graph: nodes live, edges at full weight and dated no later than the call. *)
Theorem build_tool_complete s o : gok s -> tool_valid o ->
  let a := gabs (BuildToolUse s o).1 in
  (BuildToolUse s o).2 = [] /\
  forall c, c ∈ tool_calls (link_of s o) o ->
    match c with
    | CNode n => (nID n ∉ aDead a) /\ is_Some (aNodes a !! nID n)
    | CEdge e => exists e', aEdges a !! key_of e = Some e' /\ eWeight e' = fullWeight /\ eTurn e' <= tuTurn o
    end.
Proof.
  intros Hs Hv a. destruct (build_tool_abs s o Hs (tv_input o Hv)) as (_ & G2 & G3).
  assert (Hacc : Forall accepted (tool_calls (link_of s o) o)).
  { apply tool_calls_accepted; [|done]. unfold link_of. destruct (link_kind (emit (tool_head o) s).1 o) as [->| ->]; done. }
  pose proof (tool_calls_ok (link_of s o) o) as Hok. set (cs := tool_calls (link_of s o) o) in *. split.
  { rewrite G3. clear -Hacc. induction Hacc as [|c cs Hc _ IH]; [done|]. cbn. by rewrite accepted_error. }
  intros c Hc. rewrite Forall_forall in Hacc. specialize (Hacc c Hc) as Hac. unfold a. rewrite G2. pose proof (gabs_ok s Hs) as [_ Hae].
  destruct c as [n|e]; cbn [accepted] in Hac.
  - split.
    + rewrite fold_dead. apply not_elem_of_difference. right. apply elem_of_list_to_set, list_elem_of_omap. exists (CNode n). split; [done|]. unfold revived. by rewrite Hac.
    + rewrite fold_nodes. apply (fold_some _ _ _ n). apply list_elem_of_omap. exists (CNode n). split; [done|]. unfold nodes_at. by rewrite Hac, bool_decide_true.
  - rewrite fold_edges. assert (Hw : eWeight e = fullWeight /\ eTurn e = tuTurn o).
    { pose proof (tool_calls_literal (link_of s o) o) as HF. rewrite Forall_forall in HF. by apply (HF (CEdge e)). }
    destruct Hw as [Hw Ht].
    destruct (fold_keeps (omap (edges_at (key_of e)) cs) (aEdges (gabs s) !! key_of e) e) as (r & -> & Hr & Hm & Htr).
    + intros x Hx. apply edges_at_elem in Hx; [tauto|done].
    + intros x Hx. destruct (Hae _ _ Hx). done.
    + apply list_elem_of_omap. exists (CEdge e). split; [done|]. unfold edges_at. by rewrite validateEdge_normal, bool_decide_true.
    + exists r. split; [done|]. split; [|lia]. apply F32.score_eq; [apply Hr|apply F32.score_one|].
      destruct (nm_weight _ Hr) as [(v & Hv' & Hb & _) _]. rewrite Hw in Hm. cbn in Hm. rewrite Hv' in *. cbn in *. lia.
Qed.
End Interface.

(** ** The abstract graph is an implementation *)

Definition visibleb (a : agraph) (e : Edge) : bool := negb (bool_decide (eFrom e ∈ aDead a) || bool_decide (eTo e ∈ aDead a)).

#[global] Instance agraph_ops : GraphOps agraph := {
  gAddNode a n := (spec_step a (OpAddNode n), if validateNode n then None else Some ErrInvalidNode);
  gAddEdge a e := (spec_step a (OpAddEdge e), match validateEdge e with Some _ => None | None => Some ErrInvalidEdge end);
  gOut a id := List.filter (fun e => visibleb a e && bool_decide (eFrom e = id)) (map_to_list (aEdges a)).*2;
  gIn a id := List.filter (fun e => visibleb a e && bool_decide (eTo e = id)) (map_to_list (aEdges a)).*2
}.

Lemma agraph_filter a (q : Edge -> Prop) `{forall e, Decision (q e)} e : a_ok a ->
  e ∈ List.filter (fun e => visibleb a e && bool_decide (q e)) (map_to_list (aEdges a)).*2 <-> visible a e /\ q e.
Proof.
  intros [_ Ha]. rewrite list_elem_of_In, filter_In, <- list_elem_of_In, list_elem_of_fmap.
  rewrite andb_true_iff, bool_decide_eq_true. unfold visibleb, visible. rewrite negb_true_iff, orb_false_iff, !bool_decide_eq_false.
  assert (Hm : (exists y : edgeKey * Edge, e = y.2 /\ y ∈ map_to_list (aEdges a)) <-> aEdges a !! key_of e = Some e); [|tauto].
  split.
  - intros ([k y] & -> & Hy%elem_of_map_to_list). cbn in *. destruct (Ha _ _ Hy) as [-> _]. done.
  - intros He. exists (key_of e, e). split; [done|]. by apply elem_of_map_to_list.
Qed.

#[global] Instance agraph_laws : GraphLaws agraph.
Proof.
  refine {| gok := a_ok; gabs := fun a => a |}.
  - done.
  - intros a n Ha. split_and!; [|done|done]. apply (calls_ok [CNode n] a Ha). by repeat constructor.
  - intros a e Ha He. split_and!; [|done|done]. apply (calls_ok [CEdge e] a Ha). by repeat constructor.
  - intros a id e Ha. by apply agraph_filter.
  - intros a id e Ha. by apply agraph_filter.
Defined.

(** ** The concrete graph is an implementation *)

Section Concrete.
Context {J : Json}.

(** The graph, its log and what the operating system will answer, call by call. *)
Abbreviation scripted := (list io * world)%type.

#[global] Instance graph_ops : GraphOps scripted := {
  gAddNode s n := let '(w, err) := AddNode (default fine (head s.1)) s.2 n in ((tail s.1, w), err);
  gAddEdge s e := let '(w, err) := AddEdge (default fine (head s.1)) s.2 e in ((tail s.1, w), err);
  gOut s id := Out s.2.1 id;
  gIn s id := In_ s.2.1 id
}.

Lemma autoflush_closed i w : closed (maybeAutoFlush i w).1 = closed w.1.
Proof.
  unfold maybeAutoFlush. case_match; [done|]. destruct w as [g f]. unfold flushLocked. repeat case_match; done.
Qed.

Lemma abs_ok m : wf m -> a_ok (abs m).
Proof.
  intros W. split; cbn.
  - exact (wf_nodes _ W).
  - intros k e He. apply edge_map_lookup in He as [Hin Hk]; [|apply W]. split; [done|].
    exact (proj1 (Forall_forall _ _) (wf_edges _ W) e Hin).
Qed.

Lemma incident_visible m id backward e : wf m ->
  e ∈ incident m id backward <-> visible (abs m) e /\ (if backward then eTo else eFrom) e = id.
Proof.
  intros W. unfold incident, visible. cbn [aEdges aDead abs]. rewrite edge_map_lookup by apply W.
  assert (Hadj : forall i, i ∈ adjacent m id backward <-> exists e, edges m !! i = Some e /\ (if backward then eTo else eFrom) e = id).
  { intros i. unfold adjacent. destruct backward; [rewrite (wf_in _ W)|rewrite (wf_out _ W)]; apply build_adj_elem. }
  case_bool_decide as Hd.
  - split; [by intros ?%elem_of_nil|]. intros [(_ & H1 & H2) <-]. by destruct backward.
  - rewrite list_elem_of_In, filter_In, <- list_elem_of_In, list_elem_of_omap. unfold edge_visible.
    rewrite negb_true_iff, orb_false_iff, !bool_decide_eq_false. split.
    + intros [(i & Hi & He) [H1 H2]]. apply Hadj in Hi as (e' & He' & Hid). rewrite He in He'. injection He' as <-.
      split_and!; try done. by eapply list_elem_of_lookup_2.
    + intros [([Hin _] & H1 & H2) Hid]. split; [|done]. apply list_elem_of_lookup in Hin as [i Hi]. exists i. split; [|done]. apply Hadj. eauto.
Qed.

#[global] Instance graph_laws : GraphLaws scripted.
Proof.
  refine {| gok := fun s => wf (mem s.2.1) /\ closed s.2.1 = false; gabs := fun s => abs (mem s.2.1) |}.
  - intros s [W _]. by apply abs_ok.
  - intros [l [g f]] n [W Hc]. cbn [fst snd] in *. unfold gAddNode, graph_ops, AddNode. cbn [fst snd].
    destruct (validateNode n) eqn:Ev; cbn [negb]; [|cbn; rewrite Ev; done]. rewrite Hc. cbn [fst snd].
    rewrite autoflush_mem, autoflush_closed. cbn [mem closed set_pending set_mem fst]. split_and!; [by apply store_node_wf|done| |done].
    cbn [spec_step]. by rewrite Ev.
  - intros [l [g f]] e [W Hc] Hw. cbn [fst snd] in *. unfold gAddEdge, graph_ops, AddEdge. cbn [fst snd spec_step].
    destruct (validateEdge e) as [e'|] eqn:Ev; [|done]. rewrite Hc. apply validateEdge_spec in Ev as (Hn & _); [|done].
    pose proof (abs_store_edge (mem g) e' W Hn) as HA. pose proof (store_edge_wf (mem g) e' W Hn) as HW.
    pose proof (store_edge_cases (mem g) e' W Hn) as HC.
    destruct (store_edge (mem g) e') as [m [x|]] eqn:Es; cbn [fst snd] in *.
    + rewrite autoflush_mem, autoflush_closed. done.
    + destruct HC as [[_ [=]]|(j & old & _ & _ & _ & _ & [[_ [=]]|[_ [= ->]]])]. done.
  - intros [l [g f]] id e [W Hc]. cbn in *. unfold Out. rewrite Hc. by apply incident_visible.
  - intros [l [g f]] id e [W Hc]. cbn in *. unfold In_. rewrite Hc. by apply incident_visible.
Defined.
End Concrete.

(** ** Refusals and truncation *)

(** A call with no identity, or dated before its predecessor, mutates nothing. *)
Lemma build_tool_refused {S} `{GraphOps S} (s : S) o : ~ tool_input o ->
  (BuildToolUse s o).1 = s /\ exists e, (BuildToolUse s o).2 = [e].
Proof. intros Hn. rewrite tool_input_dec in Hn. unfold BuildToolUse. repeat case_match; cbn; eauto. naive_solver. Qed.

(** A truncated reference is a prefix of the text, within the limit, and still valid UTF-8. *)
Lemma truncate_valid s max : runes s -> let t := truncateOnRuneBoundary s max in
  runes t /\ (length t <= max)%nat /\ exists r, s = t ++ r.
Proof.
  intros Hs. unfold truncateOnRuneBoundary. destruct (Nat.leb_spec (length s) max); cbn zeta.
  - split_and!; [done|done|]. exists []. by rewrite app_nil_r.
  - split_and!; [by apply runes_back_off| |exists (drop (back_off s max) s); by rewrite take_drop].
    rewrite length_take. pose proof (back_off_le s max). lia.
Qed.

(** ** Samples *)

Definition read_a : ObservedTool := MkTool (str "t1") [] 0 [] 1 100 10 12 (str "Read") (str "a") false [str "f"; str "f"] zero_root 5 false.
Definition write_a : ObservedTool := MkTool (str "t2") (str "t1") 1 (str "t1") 2 200 20 0 (str "Edit") (str "a") true [str "f"] zero_root 5 false.
Definition ask : ObservedPrompt := MkPrompt 1 50 0 7 (str "fix it").

#[local] Existing Instance TextJson.
Definition start : list io * world := ([], (Open None, None)).

Lemma start_ok : gok start.
Proof. split; [apply wf_empty|done]. Qed.

Lemma empty_ok : a_ok (MkA ∅ ∅ ∅).
Proof. split; apply map_Forall_empty. Qed.

Lemma write_a_input : tool_input write_a.
Proof. split; [done|]. right. cbn. lia. Qed.

Lemma build_tool_idempotent_witness : let s := (BuildToolUse start read_a).1 in let s1 := (BuildToolUse s write_a).1 in
  gabs (BuildToolUse s1 write_a).1 = gabs s1 /\ (BuildToolUse s1 write_a).2 = (BuildToolUse s write_a).2.
Proof.
  apply (build_tool_idempotent (BuildToolUse start read_a).1 write_a).
  - apply (build_tool_abs start read_a start_ok). split; [done|by left].
  - exact write_a_input.
  - right. split; [intros E; vm_compute in E; discriminate|]. intros x _. vm_compute. set_solver.
Defined.

Lemma chain_acyclic_witness :
  ~ tc (chain (gabs (fold_left build [ObsPrompt ask; ObsTool read_a; ObsTool write_a] start))) (AssistantNode 2) (AssistantNode 2).
Proof.
  apply (chain_acyclic (fun k => if bool_decide (k = str "t1") then 1 else 2) start).
  - exact start_ok.
  - intros x y (k & _ & [e He]). discriminate He.
  - repeat constructor; vm_compute; done.
Defined.

Lemma build_tool_complete_witness : (BuildToolUse start read_a).2 = [] /\ link_of start read_a = EdgeSequence.
Proof.
  split; [|reflexivity]. apply (build_tool_complete start read_a start_ok).
  split; cbn; try done; try lia. split; [done|by left].
Defined.

(** Reading a file and then writing it closes a cycle through the file's node: the read runs from the
    file, the write runs to it, and the chain runs from the read to the write. *)
Lemma read_then_write_cycle :
  let a := gabs (fold_left build [ObsTool read_a; ObsTool write_a] (MkA ∅ ∅ ∅)) in
  let joined x y := exists k, is_Some (aEdges a !! (x, y, k)) in
  tc joined (FileNode (str "a")) (FileNode (str "a")).
Proof.
  assert (H : let a := gabs (fold_left build [ObsTool read_a; ObsTool write_a] (MkA ∅ ∅ ∅)) in
    forallb (fun k => bool_decide (is_Some (aEdges a !! k)))
      [(FileNode (str "a"), ToolUseNode (str "t1"), EdgeSharedFile); (ToolUseNode (str "t1"), ToolResultNode (str "t1"), EdgeProduces);
       (ToolResultNode (str "t1"), AssistantNode 2, EdgeConsumes); (AssistantNode 2, ToolUseNode (str "t2"), EdgeSequence);
       (ToolUseNode (str "t2"), FileNode (str "a"), EdgeSharedFile)] = true) by (vm_compute; reflexivity).
  cbv zeta in *. set (a := gabs _) in *. clearbody a. cbn [forallb] in H. rewrite !andb_true_iff, !bool_decide_eq_true in H.
  destruct H as (H1 & H2 & H3 & H4 & H5 & _).
  eapply tc_l; [eexists; exact H1|]. eapply tc_l; [eexists; exact H2|]. eapply tc_l; [eexists; exact H3|].
  eapply tc_l; [eexists; exact H4|]. apply tc_once. eexists. exact H5.
Qed.
