(* ===== verification/Sequitur.v ===== *)
(** The live grammar of [internal/grammar]: the linked symbols, the digram index and the structural
    operations of [rules.go], the methods of [sequitur.go], and the reference encoding of [types.go].

    The code is a pointer program, so the model keeps the heap: [nodes] and [rules] map addresses to
    cells, an allocated cell is never freed, and a dereference of a nil pointer is the outcome
    [Crash].  [check] calls [match], which calls [substitute] and [expandRef], which call [check]: the
    recursive call is the parameter [chk] of the inner three, and [check] ties the knot on fuel.  A loop
    over a rule's body takes one unit of fuel per visited cell.  [SeqAppend.v] proves that the fuel
    [Append] supplies is enough and that no [Crash] happens. *)

From S2P Require Import Prelude Strconv.

(** ** Data ([types.go], [rules.go]) *)

Abbreviation Symbol := bytes.
Abbreviation RuleID := Z.
Abbreviation ptr := nat.
Abbreviation rptr := nat.

(** A Go slice whose nil value is told apart from the empty one. *)
Abbreviation goslice A := (option (list A)).
Definition elems {A} (s : goslice A) : list A := default [] s.
(** The slice that appending the elements of [l] to a nil slice leaves. *)
Definition appended {A} (l : list A) : goslice A := match l with [] => None | _ => Some l end.

Record Rule := mkRule {
  ID : RuleID;
  Body : goslice Symbol;
  Uses : Z;
  Expansion : goslice Symbol;
  Span : Z }.

Record Snapshot := mkSnapshot {
  Rules_ : goslice Rule;
  Sequence : goslice Symbol;
  NextID : RuleID }.

Definition ruleRefPrefix : bytes := x00 :: str "R".

Definition RuleRef (id : RuleID) : Symbol := ruleRefPrefix ++ Itoa id.

Definition ParseRuleRef (s : Symbol) : option RuleID :=
  match s with
  | c1 :: c2 :: rest =>
      if bool_decide ([c1; c2] = ruleRefPrefix) then
        match Atoi rest with
        | Some n => if (n <? 0) || negb (bool_decide (Itoa n = rest)) then None else Some n
        | None => None
        end
      else None
  | _ => None
  end.

Record node := mkNode {
  val : Symbol;
  ref : option rptr;
  guard : option rptr;
  prev : option ptr;
  next : option ptr }.

Record rule := mkRule_ { id : RuleID; rguard : ptr; uses : Z }.

Record symKey := mkKey { kref : option rptr; kval : Symbol }.

#[global] Instance symKey_eq_dec : EqDecision symKey.
Proof. solve_decision. Defined.

#[global] Program Instance symKey_countable : Countable symKey :=
  inj_countable' (fun k => (kref k, kval k)) (fun p => mkKey p.1 p.2) _.
Next Obligation. intros [r v]. done. Qed.

Abbreviation digramKey := (symKey * symKey)%type.

(** [sequiturGrammar], with the heap its pointers point into. *)
Record gram := mkGram {
  nodes : gmap ptr node;
  rules : gmap rptr rule;
  fresh : nat;
  start : rptr;
  byID : gmap RuleID rptr;
  index : gmap digramKey ptr;
  nextID : RuleID;
  utilitySweeps : Z }.

Definition startRuleID : RuleID := 0.
Definition firstInducedRuleID : RuleID := 1.

(** ** The monad of heap programs *)

Inductive res (A : Type) : Type :=
  | Ret (a : A) (g : gram)
  | Crash
  | OutOfFuel.
Arguments Ret {A} a g.
Arguments Crash {A}.
Arguments OutOfFuel {A}.

Definition M (A : Type) : Type := gram -> res A.

#[global] Instance M_ret : MRet M := fun _ a g => Ret a g.
#[global] Instance M_bind : MBind M := fun _ _ f m g =>
  match m g with Ret a g' => f a g' | Crash => Crash | OutOfFuel => OutOfFuel end.

Definition crash {A} : M A := fun _ => Crash.
Definition out_of_fuel {A} : M A := fun _ => OutOfFuel.
Definition gets {A} (f : gram -> A) : M A := fun g => Ret (f g) g.
Definition modify (f : gram -> gram) : M unit := fun g => Ret tt (f g).
(** The use of a pointer that may be nil. *)
Definition deref {A} (o : option A) : M A := match o with Some a => mret a | None => crash end.

Definition with_nodes (f : gmap ptr node -> gmap ptr node) (g : gram) : gram :=
  mkGram (f (nodes g)) (rules g) (fresh g) (start g) (byID g) (index g) (nextID g) (utilitySweeps g).
Definition with_rules (f : gmap rptr rule -> gmap rptr rule) (g : gram) : gram :=
  mkGram (nodes g) (f (rules g)) (fresh g) (start g) (byID g) (index g) (nextID g) (utilitySweeps g).
Definition with_start (r : rptr) (g : gram) : gram :=
  mkGram (nodes g) (rules g) (fresh g) r (byID g) (index g) (nextID g) (utilitySweeps g).
Definition with_byID (f : gmap RuleID rptr -> gmap RuleID rptr) (g : gram) : gram :=
  mkGram (nodes g) (rules g) (fresh g) (start g) (f (byID g)) (index g) (nextID g) (utilitySweeps g).
Definition with_index (f : gmap digramKey ptr -> gmap digramKey ptr) (g : gram) : gram :=
  mkGram (nodes g) (rules g) (fresh g) (start g) (byID g) (f (index g)) (nextID g) (utilitySweeps g).
Definition with_nextID (i : RuleID) (g : gram) : gram :=
  mkGram (nodes g) (rules g) (fresh g) (start g) (byID g) (index g) i (utilitySweeps g).
Definition with_sweeps (n : Z) (g : gram) : gram :=
  mkGram (nodes g) (rules g) (fresh g) (start g) (byID g) (index g) (nextID g) n.

Definition load (p : ptr) : M node := fun g =>
  match nodes g !! p with Some n => Ret n g | None => Crash end.
Definition store (p : ptr) (n : node) : M unit := modify (with_nodes <[p := n]>).
Definition loadr (r : rptr) : M rule := fun g =>
  match rules g !! r with Some x => Ret x g | None => Crash end.
Definition storer (r : rptr) (x : rule) : M unit := modify (with_rules <[r := x]>).

Definition alloc (n : node) : M ptr := fun g =>
  Ret (fresh g) (mkGram (<[fresh g := n]> (nodes g)) (rules g) (S (fresh g)) (start g) (byID g) (index g)
                   (nextID g) (utilitySweeps g)).

(** Assignments to one field. *)
Definition setNext (p : ptr) (q : option ptr) : M unit :=
  n ← load p; store p (mkNode (val n) (ref n) (guard n) (prev n) q).
Definition setPrev (p : ptr) (q : option ptr) : M unit :=
  n ← load p; store p (mkNode (val n) (ref n) (guard n) q (next n)).
Definition setRef (p : ptr) (r : option rptr) : M unit :=
  n ← load p; store p (mkNode (val n) r (guard n) (prev n) (next n)).
Definition setUses (r : rptr) (f : Z -> Z) : M unit :=
  x ← loadr r; storer r (mkRule_ (id x) (rguard x) (f (uses x))).
Definition getNext (p : ptr) : M ptr := n ← load p; deref (next n).
Definition getPrev (p : ptr) : M ptr := n ← load p; deref (prev n).

(** ** Nodes and rules *)

(** The value of an [int] after an increment: 64 bits, two's complement. *)
Definition wrapInt (z : Z) : Z := (z + 2 ^ 63) mod 2 ^ 64 - 2 ^ 63.

Definition is_guard (n : node) : bool := bool_decide (guard n <> None).
Definition isGuard (p : ptr) : M bool := n ← load p; mret (is_guard n).

Definition key (n : node) : symKey := mkKey (ref n) (val n).

Definition encoded (n : node) : M Symbol :=
  match ref n with
  | Some r => x ← loadr r; mret (RuleRef (id x))
  | None => mret (val n)
  end.

(** [&rule{id: i}] together with its guard [newGuard(r)], a node linked to itself. *)
Definition newGuardedRule (i : RuleID) : M rptr := fun g =>
  let r := fresh g in
  let p := S (fresh g) in
  Ret r (mkGram (<[p := mkNode [] None (Some r) (Some p) (Some p)]> (nodes g))
           (<[r := mkRule_ i p 0]> (rules g)) (S p) (start g) (byID g) (index g) (nextID g)
           (utilitySweeps g)).

Definition newRule : M rptr :=
  i ← gets nextID;
  r ← newGuardedRule i;
  modify (with_nextID (wrapInt (i + 1)));;
  modify (with_byID <[i := r]>);;
  mret r.

Definition link (a b : ptr) : M unit := setNext a (Some b);; setPrev b (Some a).

Definition insertAfter (at_ n : ptr) : M unit :=
  nxt ← getNext at_;
  link at_ n;;
  link n nxt.

(** ** The digram index *)

Definition digramAt (p : ptr) : M (option digramKey) :=
  n ← load p;
  if is_guard n then mret None else
  q ← deref (next n);
  m ← load q;
  if is_guard m then mret None else mret (Some (key n, key m)).

Definition setDigram (p : ptr) : M unit :=
  k ← digramAt p;
  match k with Some k => modify (with_index <[k := p]>) | None => mret tt end.

Definition dropDigram (p : ptr) : M unit :=
  k ← digramAt p;
  match k with
  | None => mret tt
  | Some k =>
      o ← gets (fun g => index g !! k);
      if bool_decide (o = Some p) then modify (with_index (delete k)) else mret tt
  end.

(** ** The four structural operations *)

Definition copyOf (p : ptr) : M ptr :=
  n ← load p;
  match ref n with
  | Some r => setUses r (fun u => u + 1);; alloc (mkNode [] (Some r) None None None)
  | None => alloc (mkNode (val n) None None None None)
  end.

Definition unlinkNode (p : ptr) : M unit :=
  a ← getPrev p;
  b ← getNext p;
  link a b;;
  setPrev p None;; setNext p None;;
  n ← load p;
  match ref n with
  | Some r => setUses r (fun u => u - 1);; setRef p None
  | None => mret tt
  end.

Section cascade.
Context (chk : ptr -> M bool).

(** The tail [if !g.check(a) { g.check(b) }] of [substitute] and of [expandRef]. *)
Definition offer (a b : ptr) : M unit :=
  c ← chk a;
  if (c : bool) then mret tt else chk b;; mret tt.

(** The splice of [substitute], and the reference node it leaves in place of the pair. *)
Definition splice (n : ptr) (r : rptr) : M (ptr * ptr) :=
  before ← getPrev n;
  second ← getNext n;
  dropDigram before;; dropDigram n;; dropDigram second;;
  unlinkNode n;; unlinkNode second;;
  p ← alloc (mkNode [] (Some r) None None None);
  setUses r (fun u => u + 1);;
  insertAfter before p;;
  mret (before, p).

Definition substitute (n : ptr) (r : rptr) : M unit :=
  x ← splice n r;
  offer x.1 x.2.

(** The splice of [expandRef]: the referenced rule's body moves to the place of the reference. *)
Definition inline (p : ptr) : M (ptr * ptr) :=
  n ← load p;
  r ← deref (ref n);
  before ← deref (prev n);
  after ← deref (next n);
  x ← loadr r;
  first ← getNext (rguard x);
  last ← getPrev (rguard x);
  dropDigram before;; dropDigram p;;
  link (rguard x) (rguard x);;
  modify (with_byID (delete (id x)));;
  setUses r (fun _ => 0);;
  setRef p None;;
  setPrev p None;; setNext p None;;
  link before first;;
  link last after;;
  mret (before, last).

Definition expandRef (p : ptr) : M unit :=
  x ← inline p;
  offer x.1 x.2.

(** The condition of [match] that [m]'s occurrence is an entire body. *)
Definition entireBody (m : ptr) : M bool :=
  p ← getPrev m;
  c ← isGuard p;
  if (c : bool) then q ← getNext m; q' ← getNext q; isGuard q' else mret false.

(** [match] after the rule is chosen: the utility repair at its first symbol. *)
Definition repairFirst (r : rptr) : M unit :=
  x ← loadr r;
  first ← getNext (rguard x);
  n ← load first;
  match ref n with
  | Some r1 => y ← loadr r1; if uses y =? 1 then expandRef first else mret tt
  | None => mret tt
  end.

(** The rule a repeated pair is folded into when no existing rule has it as its body. *)
Definition mintPair (n : ptr) : M rptr :=
  r ← newRule;
  x ← loadr r;
  c1 ← copyOf n;
  insertAfter (rguard x) c1;;
  f ← getNext (rguard x);
  n2 ← getNext n;
  c2 ← copyOf n2;
  insertAfter f c2;;
  mret r.

Definition match_ (n m : ptr) : M unit :=
  e ← entireBody m;
  r ← (if (e : bool) then
         p ← getPrev m; np ← load p;
         r ← deref (guard np);
         substitute n r;; mret r
       else
         r ← mintPair n;
         substitute m r;; substitute n r;;
         x ← loadr r; f ← getNext (rguard x);
         setDigram f;; mret r);
  repairFirst r.

End cascade.

Fixpoint check (fuel : nat) (p : ptr) : M bool :=
  match fuel with
  | O => out_of_fuel
  | S fuel =>
      k ← digramAt p;
      match k with
      | None => mret false
      | Some k =>
          o ← gets (fun g => index g !! k);
          match o with
          | None => modify (with_index <[k := p]>);; mret false
          | Some m =>
              nm ← load m; np ← load p;
              if bool_decide (m = p) || bool_decide (next nm = Some p) || bool_decide (next np = Some m)
              then mret false
              else match_ (check fuel) p m;; mret true
          end
      end
  end.

(** ** Walks over a body *)

(** The cells a loop [for n := p; !n.isGuard(); n = n.next] visits. *)
Fixpoint walk (fuel : nat) (p : ptr) : M (list ptr) :=
  match fuel with
  | O => out_of_fuel
  | S fuel =>
      n ← load p;
      if is_guard n then mret [] else
      q ← deref (next n);
      l ← walk fuel q;
      mret (p :: l)
  end.

(** The cells of [r]'s body, from [r.guard.next]. *)
Definition bodyCells (r : rptr) : M (list ptr) :=
  x ← loadr r;
  f ← getNext (rguard x);
  k ← gets (fun g => S (size (nodes g)));
  walk k f.

Fixpoint forEach {A} (f : A -> M unit) (l : list A) : M unit :=
  match l with [] => mret tt | a :: l => f a;; forEach f l end.

(** [sortedIDs]: the map's keys, sorted. *)
Definition sortedIDs (g : gram) : list RuleID := merge_sort Z.le (map_to_list (byID g)).*1.

Fixpoint findRef (l : list ptr) (r : rptr) : M (option ptr) :=
  match l with
  | [] => mret None
  | p :: l => n ← load p; if bool_decide (ref n = Some r) then mret (Some p) else findRef l r
  end.

Definition refIn (owner : option rptr) (r : rptr) : M (option ptr) :=
  match owner with
  | None => mret None
  | Some o => l ← bodyCells o; findRef l r
  end.

Fixpoint soleRefIn (ids : list RuleID) (r : rptr) (own : RuleID) : M (option ptr) :=
  match ids with
  | [] => mret None
  | i :: ids =>
      if i =? own then soleRefIn ids r own else
      o ← gets (fun g => byID g !! i);
      n ← refIn o r;
      match n with Some p => mret (Some p) | None => soleRefIn ids r own end
  end.

Definition soleRef (r : rptr) : M (option ptr) :=
  s ← gets start;
  n ← refIn (Some s) r;
  match n with
  | Some p => mret (Some p)
  | None => x ← loadr r; ids ← gets sortedIDs; soleRefIn ids r (id x)
  end.

(** The second loop of [discardRule], which clears the cells. *)
Definition clearCell (p : ptr) : M unit :=
  n ← load p;
  match ref n with
  | Some r => setUses r (fun u => u - 1);; setRef p None
  | None => mret tt
  end;;
  setPrev p None;; setNext p None.

Definition discardRule (r : rptr) : M unit :=
  l ← bodyCells r;
  forEach dropDigram l;;
  forEach clearCell l;;
  x ← loadr r;
  link (rguard x) (rguard x);;
  modify (with_byID (delete (id x)));;
  setUses r (fun _ => 0).

(** ** Rule utility *)

Definition usesOf (g : gram) (r : rptr) : Z := from_option uses 0 (rules g !! r).

(** The ids of [enforceRuleUtility]'s scan, sorted. *)
Definition underUsed (g : gram) : list RuleID :=
  merge_sort Z.le (filter (fun x => usesOf g x.2 <= 1) (map_to_list (byID g))).*1.

Section utility.
Context (chk : ptr -> M bool).

Definition sweepOne (i : RuleID) : M unit :=
  o ← gets (fun g => byID g !! i);
  match o with
  | None => mret tt
  | Some r =>
      x ← loadr r;
      if uses x =? 0 then discardRule r
      else if uses x =? 1 then
        n ← soleRef r;
        match n with None => discardRule r | Some p => expandRef chk p end
      else mret tt
  end.

Fixpoint enforceRuleUtility (fuel : nat) : M unit :=
  match fuel with
  | O => out_of_fuel
  | S fuel =>
      under ← gets underUsed;
      match under with
      | [] => mret tt
      | _ =>
          k ← gets utilitySweeps;
          modify (with_sweeps (k + 1));;
          forEach sweepOne under;;
          enforceRuleUtility fuel
      end
  end.

End utility.

(** ** The methods ([sequitur.go]) *)

(** Fuel for one append: twice the number of cells, plus three. *)
Definition gas (g : gram) : nat := S (S (S (2 * size (nodes g)))).

Definition Append (s : Symbol) : M unit :=
  n ← alloc (mkNode s None None None None);
  st ← gets start;
  x ← loadr st;
  l ← getPrev (rguard x);
  insertAfter l n;;
  k ← gets gas;
  p ← getPrev n;
  check k p;;
  enforceRuleUtility (check k) k.

Definition clear : M unit :=
  modify (fun g => mkGram (nodes g) (rules g) (fresh g) (start g) ∅ ∅ firstInducedRuleID 0);;
  r ← newGuardedRule startRuleID;
  modify (with_start r).

Definition Reset : M unit := clear.

(** The zero heap, and the grammar of [New]. *)
Definition emptyHeap : gram := mkGram ∅ ∅ 0 0 ∅ ∅ 0 0.
Definition newSequiturGrammar : gram :=
  match clear emptyHeap with Ret _ g => g | _ => emptyHeap end.

Fixpoint encodedAll (l : list ptr) : M (list Symbol) :=
  match l with
  | [] => mret []
  | p :: l => n ← load p; s ← encoded n; t ← encodedAll l; mret (s :: t)
  end.

Definition bodyOf (r : rptr) : M (goslice Symbol) :=
  l ← bodyCells r;
  s ← encodedAll l;
  mret (appended s).

Definition Compressed : M (goslice Symbol) := st ← gets start; bodyOf st.

(** ** Expansions *)

Record memo := mkMemo { done_ : gmap RuleID (list Symbol); busy : gset RuleID }.

(** [expansionOf]'s loop over the cells of a body; [rec] expands a referenced rule. *)
Fixpoint expandCells (rec : rptr -> memo -> M (list Symbol * memo)) (l : list ptr) (m : memo)
    : M (list Symbol * memo) :=
  match l with
  | [] => mret ([], m)
  | p :: l =>
      n ← load p;
      match ref n with
      | Some r =>
          x ← rec r m;
          y ← expandCells rec l x.2;
          mret (x.1 ++ y.1, y.2)
      | None =>
          y ← expandCells rec l m;
          mret (val n :: y.1, y.2)
      end
  end.

Fixpoint expansionOf (fuel : nat) (r : rptr) (m : memo) : M (list Symbol * memo) :=
  match fuel with
  | O => out_of_fuel
  | S fuel =>
      x ← loadr r;
      match done_ m !! id x with
      | Some e => mret (e, m)
      | None =>
          if bool_decide (id x ∈ busy m) then mret ([], m) else
          l ← bodyCells r;
          y ← expandCells (expansionOf fuel) l (mkMemo (done_ m) ({[id x]} ∪ busy m));
          mret (y.1, mkMemo (<[id x := y.1]> (done_ y.2)) (busy y.2 ∖ {[id x]}))
      end
  end.

Fixpoint expandIDs (fuel : nat) (ids : list RuleID) (m : memo) : M memo :=
  match ids with
  | [] => mret m
  | i :: ids =>
      r ← gets (fun g => byID g !! i);
      r ← deref r;
      y ← expansionOf fuel r m;
      expandIDs fuel ids y.2
  end.

Definition expansions : M (gmap RuleID (list Symbol)) :=
  ids ← gets sortedIDs;
  k ← gets (fun g => S (S (size (byID g))));
  m ← expandIDs k ids (mkMemo ∅ ∅);
  mret (done_ m).

Fixpoint renderRules (exp : gmap RuleID (list Symbol)) (ids : list RuleID) : M (list Rule) :=
  match ids with
  | [] => mret []
  | i :: ids =>
      r ← gets (fun g => byID g !! i);
      r ← deref r;
      x ← loadr r;
      b ← bodyOf r;
      let e := default [] (exp !! i) in
      t ← renderRules exp ids;
      mret (mkRule (id x) b (uses x) (appended e) (Z.of_nat (length e)) :: t)
  end.

Definition snapshotRules : M (goslice Rule) :=
  ids ← gets sortedIDs;
  match ids with
  | [] => mret None
  | _ => exp ← expansions; l ← renderRules exp ids; mret (Some l)
  end.

Definition Rules : M (goslice Rule) := snapshotRules.

Definition thrashing (minUses : Z) (r : Rule) : bool :=
  (minUses <? Uses r) && (2 <=? length (elems (Expansion r)))%nat.

Definition Thrash (minUses : Z) : M (goslice Rule) :=
  all ← snapshotRules;
  mret (appended (List.filter (thrashing minUses) (elems all))).

Definition TakeSnapshot : M Snapshot :=
  r ← snapshotRules;
  s ← Compressed;
  i ← gets nextID;
  mret (mkSnapshot r s i).
