(* ===== verification/SeqInv.v ===== *)
(** The invariant of the live grammar of [Sequitur.v].  A grammar is described by the bodies of its
    rules, [B], a map from rule addresses to lists of cells (an address with the symbol it carries):
    [rep] says that the heap holds exactly these circular doubly linked lists, that references are
    live and that the digram index only points at occurrences of its keys.  Each primitive list
    operation of the source is shown to edit [B] as intended. *)

From S2P Require Import Prelude Strconv Sequitur.

(** ** Weakest preconditions: the program returns, and the result satisfies [Q] *)

Definition wp {A} (m : M A) (g : gram) (Q : A -> gram -> Prop) : Prop :=
  match m g with Ret a g' => Q a g' | _ => False end.

Lemma wp_eq {A} (m : M A) g a g' (Q : A -> gram -> Prop) : m g = Ret a g' -> Q a g' -> wp m g Q.
Proof. intros H HQ. unfold wp. rewrite H. done. Qed.

Lemma wp_inv {A} (m : M A) g (Q : A -> gram -> Prop) :
  wp m g Q -> exists a g', m g = Ret a g' /\ Q a g'.
Proof. unfold wp. destruct (m g) as [a g'| |]; [eauto|done|done]. Qed.

Lemma wp_bind {A C} (m : M A) (f : A -> M C) g Q :
  wp m g (fun a g' => wp (f a) g' Q) -> wp (m ≫= f) g Q.
Proof. unfold wp, mbind, M_bind. destruct (m g); done. Qed.

Lemma wp_mono {A} (m : M A) g (Q Q' : A -> gram -> Prop) :
  wp m g Q -> (forall a g', Q a g' -> Q' a g') -> wp m g Q'.
Proof. unfold wp. destruct (m g); auto. Qed.

Lemma bind_ret {A C} (m : M A) (f : A -> M C) g a g' : m g = Ret a g' -> (m ≫= f) g = f a g'.
Proof. intros H. unfold mbind, M_bind. rewrite H. done. Qed.

(** Run the head of a sequence with the equation [H]. *)
Ltac run H := rewrite (bind_ret _ _ _ _ _ H).

(** ** Views of the heap *)

Definition nxt (N : gmap ptr node) (p : ptr) : option ptr := N !! p ≫= next.
Definition prv (N : gmap ptr node) (p : ptr) : option ptr := N !! p ≫= prev.
(** What a cell carries: its key and whose guard it is. *)
Definition tag (N : gmap ptr node) (p : ptr) : option (symKey * option rptr) :=
  (fun n => (key n, guard n)) <$> N !! p.

Definition edge (N : gmap ptr node) (x y : ptr) : Prop := nxt N x = Some y /\ prv N y = Some x.

Fixpoint chain (N : gmap ptr node) (l : list ptr) : Prop :=
  match l with
  | x :: ((y :: _) as t) => edge N x y /\ chain N t
  | _ => True
  end.

Definition nodeNext (q : option ptr) (n : node) : node := mkNode (val n) (ref n) (guard n) (prev n) q.
Definition nodePrev (q : option ptr) (n : node) : node := mkNode (val n) (ref n) (guard n) q (next n).
Definition nodeRef (r : option rptr) (n : node) : node := mkNode (val n) r (guard n) (prev n) (next n).
Definition ruleUses (f : Z -> Z) (x : rule) : rule := mkRule_ (id x) (rguard x) (f (uses x)).

Definition linkN (a b : ptr) (N : gmap ptr node) : gmap ptr node :=
  alter (nodePrev (Some a)) b (alter (nodeNext (Some b)) a N).

Lemma chain_cons N x y l : chain N (x :: y :: l) <-> edge N x y /\ chain N (y :: l).
Proof. done. Qed.

Lemma chain_split N l1 x l2 : chain N (l1 ++ x :: l2) <-> chain N (l1 ++ [x]) /\ chain N (x :: l2).
Proof.
  induction l1 as [|y l1 IH]; [cbn; tauto|]. destruct l1 as [|z l1].
  - cbn. tauto.
  - cbn [app] in *. rewrite !chain_cons, IH. tauto.
Qed.

(** A chain only depends on the links between its elements. *)
Lemma chain_frame N N' l : chain N l ->
  (forall z, z ∈ removelast l -> nxt N' z = nxt N z) -> (forall z, z ∈ tail l -> prv N' z = prv N z) ->
  chain N' l.
Proof.
  induction l as [|x l IH]; [done|]. destruct l as [|y l]; [done|].
  rewrite !chain_cons. intros [[H1 H2] HC] Hn Hp. split.
  - split; [rewrite Hn by (cbn; set_solver)|rewrite Hp by (cbn; set_solver)]; done.
  - apply IH; [done| |]; intros z Hz; [apply Hn|apply Hp]; destruct l; cbn in *; set_solver.
Qed.

#[global] Arguments chain : simpl never.

Lemma last_cons {A} (x y : A) l : List.last (y :: l) x = List.last l y.
Proof. revert x y. induction l as [|z l IH]; intros x y; [done|]. etransitivity; [exact (IH x z)|symmetry; exact (IH y z)]. Qed.

Lemma snoc_last {A} (x : A) l : exists P, x :: l = P ++ [List.last l x].
Proof.
  revert x. induction l as [|y l IH]; intros x; [exists []; done|].
  destruct (IH y) as [P HP]. exists (x :: P). rewrite last_cons. cbn [app]. rewrite <- HP. done.
Qed.

Lemma head_snoc {A} (x : A) l : exists S, l ++ [x] = hd x l :: S.
Proof. destruct l; cbn; eauto. Qed.

Lemma chain_glue N N' P a mid b S :
  chain N (P ++ [a]) -> chain N (b :: S) -> chain N' (a :: mid ++ [b]) ->
  (forall z, z ∈ P -> nxt N' z = nxt N z) -> (forall z, z ∈ tail (P ++ [a]) -> prv N' z = prv N z) ->
  (forall z, z ∈ removelast (b :: S) -> nxt N' z = nxt N z) -> (forall z, z ∈ S -> prv N' z = prv N z) ->
  chain N' (P ++ a :: mid ++ b :: S).
Proof.
  intros H1 H2 HM HP HP' HS HS'. apply chain_split. split.
  - apply (chain_frame N); [done| |done]. rewrite removelast_last. done.
  - change (a :: mid ++ b :: S) with ((a :: mid) ++ b :: S). apply chain_split. split; [done|].
    apply (chain_frame N); done.
Qed.

(** Replacing the middle of a ring: the ends of the replaced part are relinked, nothing else. *)
Lemma ring_edit N N' gd l1 mid l2 mid' :
  chain N (gd :: l1 ++ mid ++ l2 ++ [gd]) -> NoDup (gd :: l1 ++ mid ++ l2) ->
  chain N' (List.last l1 gd :: mid' ++ [hd gd l2]) ->
  (forall z, z <> List.last l1 gd -> z ∉ mid -> z ∉ mid' -> nxt N' z = nxt N z) ->
  (forall z, z <> hd gd l2 -> z ∉ mid -> z ∉ mid' -> prv N' z = prv N z) ->
  (forall z, z ∈ mid' -> z ∉ gd :: l1 ++ l2) ->
  chain N' (gd :: l1 ++ mid' ++ l2 ++ [gd]).
Proof.
  intros HC HN HM Hn Hp Hd.
  destruct (snoc_last gd l1) as [P HP]. destruct (head_snoc gd l2) as [S HS].
  assert (NoDup (P ++ [List.last l1 gd])) as NP.
  { rewrite <- HP. apply (NoDup_app (gd :: l1) (mid ++ l2)). done. }
  assert (NoDup (hd gd l2 :: S)) as NS.
  { rewrite <- HS. apply NoDup_cons in HN as [HN1 HN]. rewrite !NoDup_app in HN.
    apply NoDup_app. split; [tauto|]. split; [|apply NoDup_singleton]. set_solver. }
  assert (hd gd l2 = gd \/ hd gd l2 ∈ l2) as Hb by (destruct l2; cbn; set_solver).
  assert (forall z, z ∈ P ++ [List.last l1 gd] -> z ∈ gd :: l1) as HinP by (rewrite HP; done).
  assert (forall z, z ∈ hd gd l2 :: S -> z ∈ l2 ++ [gd]) as HinS by (rewrite HS; done).
  assert (l1 = tail (P ++ [List.last l1 gd])) as Ht by (rewrite <- HP; done).
  assert (l2 = removelast (hd gd l2 :: S)) as Hr by (rewrite <- HS, removelast_last; done).
  set (a := List.last l1 gd) in *. set (b := hd gd l2) in *. clearbody a b.
  replace (gd :: l1 ++ mid ++ l2 ++ [gd]) with (P ++ a :: mid ++ b :: S) in HC
    by (rewrite HS; change (gd :: l1 ++ mid ++ b :: S) with ((gd :: l1) ++ mid ++ b :: S);
        rewrite HP, <- app_assoc; done).
  replace (gd :: l1 ++ mid' ++ l2 ++ [gd]) with (P ++ a :: mid' ++ b :: S)
    by (rewrite HS; change (gd :: l1 ++ mid' ++ b :: S) with ((gd :: l1) ++ mid' ++ b :: S);
        rewrite HP, <- app_assoc; done).
  apply chain_split in HC as [HC1 HC2].
  change (a :: mid ++ b :: S) with ((a :: mid) ++ b :: S) in HC2. apply chain_split in HC2 as [_ HC2].
  apply NoDup_cons in HN as [HN1 HN]. apply NoDup_app in HN as (_ & HN2 & HN).
  apply NoDup_app in HN as (_ & HN3 & _). apply NoDup_app in NP as (_ & NP & _).
  apply NoDup_cons in NS as [NS _].
  apply (chain_glue N); [done|done|done| | | |]; rewrite <- ?Ht, <- ?Hr; intros z Hz;
    [apply Hn|apply Hp|apply Hn|apply Hp]; try (intros ->); try intros Hm;
    try specialize (Hd z Hm); try specialize (HinP z); try specialize (HinS z);
    try (pose proof (HinP a ltac:(set_solver))); set_solver.
Qed.

(** ** Heap updates, by their effect on the views *)

Lemma alter_eq {K A} `{Countable K} (m : gmap K A) i x (f : A -> A) :
  m !! i = Some x -> <[i := f x]> m = alter f i m.
Proof.
  intros Hx. apply map_eq. intros j. destruct (decide (i = j)) as [->|Hne].
  - rewrite lookup_insert_eq, lookup_alter_eq, Hx. done.
  - rewrite lookup_insert_ne, lookup_alter_ne by done. done.
Qed.

Definition heap_set (N : gmap ptr node) (R : gmap rptr rule) (g : gram) : gram :=
  mkGram N R (fresh g) (start g) (byID g) (index g) (nextID g) (utilitySweeps g).

Lemma setNext_eq p q g : is_Some (tag (nodes g) p) ->
  setNext p q g = Ret tt (heap_set (alter (nodeNext q) p (nodes g)) (rules g) g).
Proof.
  unfold tag. intros [t Ht]. apply fmap_Some in Ht as (n & Hn & _).
  unfold setNext, load, mbind, M_bind. rewrite Hn. cbn. unfold store, modify, with_nodes, heap_set.
  rewrite <- (alter_eq _ _ n) by done. done.
Qed.

Lemma setPrev_eq p q g : is_Some (tag (nodes g) p) ->
  setPrev p q g = Ret tt (heap_set (alter (nodePrev q) p (nodes g)) (rules g) g).
Proof.
  unfold tag. intros [t Ht]. apply fmap_Some in Ht as (n & Hn & _).
  unfold setPrev, load, mbind, M_bind. rewrite Hn. cbn. unfold store, modify, with_nodes, heap_set.
  rewrite <- (alter_eq _ _ n) by done. done.
Qed.

Lemma setRef_eq p q g : is_Some (tag (nodes g) p) ->
  setRef p q g = Ret tt (heap_set (alter (nodeRef q) p (nodes g)) (rules g) g).
Proof.
  unfold tag. intros [t Ht]. apply fmap_Some in Ht as (n & Hn & _).
  unfold setRef, load, mbind, M_bind. rewrite Hn. cbn. unfold store, modify, with_nodes, heap_set.
  rewrite <- (alter_eq _ _ n) by done. done.
Qed.

Lemma setUses_eq r f g : is_Some (rules g !! r) ->
  setUses r f g = Ret tt (heap_set (nodes g) (alter (ruleUses f) r (rules g)) g).
Proof.
  intros [x Hx]. unfold setUses, loadr, mbind, M_bind. rewrite Hx. cbn.
  unfold storer, modify, with_rules, heap_set. rewrite <- (alter_eq _ _ x) by done. done.
Qed.

Lemma tag_alter f p N z : (forall n, key (f n) = key n /\ guard (f n) = guard n) ->
  tag (alter f p N) z = tag N z.
Proof.
  intros Hf. unfold tag. destruct (decide (p = z)) as [->|Hne].
  - rewrite lookup_alter_eq. destruct (N !! z) as [n|]; [|done]. cbn. destruct (Hf n) as [-> ->]. done.
  - rewrite lookup_alter_ne by done. done.
Qed.

Lemma tag_next q p N z : tag (alter (nodeNext q) p N) z = tag N z.
Proof. apply tag_alter. done. Qed.
Lemma tag_prev q p N z : tag (alter (nodePrev q) p N) z = tag N z.
Proof. apply tag_alter. done. Qed.
Lemma tag_link a b N z : tag (linkN a b N) z = tag N z.
Proof. unfold linkN. rewrite tag_prev, tag_next. done. Qed.

Lemma nxt_alter f p N z : (forall n, next (f n) = next n) -> nxt (alter f p N) z = nxt N z.
Proof.
  intros Hf. unfold nxt. destruct (decide (p = z)) as [->|Hne].
  - rewrite lookup_alter_eq. destruct (N !! z) as [n|]; [|done]. cbn. rewrite Hf. done.
  - rewrite lookup_alter_ne by done. done.
Qed.

Lemma prv_alter f p N z : (forall n, prev (f n) = prev n) -> prv (alter f p N) z = prv N z.
Proof.
  intros Hf. unfold prv. destruct (decide (p = z)) as [->|Hne].
  - rewrite lookup_alter_eq. destruct (N !! z) as [n|]; [|done]. cbn. rewrite Hf. done.
  - rewrite lookup_alter_ne by done. done.
Qed.

Lemma nxt_next q p N z : is_Some (tag N p) ->
  nxt (alter (nodeNext q) p N) z = if decide (z = p) then q else nxt N z.
Proof.
  unfold tag, nxt. intros [t Ht]. apply fmap_Some in Ht as (n & Hn & _). destruct (decide (z = p)) as [->|Hne].
  - rewrite lookup_alter_eq, Hn. done.
  - rewrite lookup_alter_ne by done. done.
Qed.

Lemma prv_prev q p N z : is_Some (tag N p) ->
  prv (alter (nodePrev q) p N) z = if decide (z = p) then q else prv N z.
Proof.
  unfold tag, prv. intros [t Ht]. apply fmap_Some in Ht as (n & Hn & _). destruct (decide (z = p)) as [->|Hne].
  - rewrite lookup_alter_eq, Hn. done.
  - rewrite lookup_alter_ne by done. done.
Qed.

Lemma nxt_link a b N z : is_Some (tag N a) ->
  nxt (linkN a b N) z = if decide (z = a) then Some b else nxt N z.
Proof. intros Ha. unfold linkN. rewrite nxt_alter by done. apply nxt_next. done. Qed.

Lemma prv_link a b N z : is_Some (tag N b) ->
  prv (linkN a b N) z = if decide (z = b) then Some a else prv N z.
Proof.
  intros Hb. unfold linkN. rewrite prv_prev by (rewrite tag_next; done). destruct (decide (z = b)); [done|].
  apply prv_alter. done.
Qed.

Lemma link_eq a b g : is_Some (tag (nodes g) a) -> is_Some (tag (nodes g) b) ->
  link a b g = Ret tt (heap_set (linkN a b (nodes g)) (rules g) g).
Proof.
  intros Ha Hb. unfold link. run (setNext_eq a (Some b) g Ha). rewrite setPrev_eq; [done|].
  cbn. rewrite tag_next. done.
Qed.

(** Pointer reads. *)
Lemma deref_eq {A} (a : A) g : deref (Some a) g = Ret a g.
Proof. done. Qed.

Lemma getNext_eq p q g : nxt (nodes g) p = Some q -> getNext p g = Ret q g.
Proof.
  unfold nxt, getNext, load, mbind, M_bind. intros H. apply bind_Some in H as (n & Hn & Hq).
  rewrite Hn, Hq. done.
Qed.

Lemma getPrev_eq p q g : prv (nodes g) p = Some q -> getPrev p g = Ret q g.
Proof.
  unfold prv, getPrev, load, mbind, M_bind. intros H. apply bind_Some in H as (n & Hn & Hq).
  rewrite Hn, Hq. done.
Qed.

Lemma load_tag p k o g : tag (nodes g) p = Some (k, o) -> exists n,
  nodes g !! p = Some n /\ load p g = Ret n g /\ key n = k /\ ref n = kref k /\ val n = kval k /\ guard n = o.
Proof.
  unfold tag, load. intros H. apply fmap_Some in H as (n & -> & Hk). injection Hk as -> ->.
  exists n. repeat split; done.
Qed.

Lemma isGuard_eq p k o g : tag (nodes g) p = Some (k, o) -> isGuard p g = Ret (bool_decide (o <> None)) g.
Proof.
  intros H. destruct (load_tag _ _ _ _ H) as (n & _ & Hl & _ & _ & _ & Hg). unfold isGuard. run Hl.
  rewrite <- Hg. done.
Qed.

Lemma insertAfter_eq p n q g : nxt (nodes g) p = Some q ->
  is_Some (tag (nodes g) p) -> is_Some (tag (nodes g) n) -> is_Some (tag (nodes g) q) ->
  insertAfter p n g = Ret tt (heap_set (linkN n q (linkN p n (nodes g))) (rules g) g).
Proof.
  intros H Hp Hn Hq. unfold insertAfter. run (getNext_eq _ _ _ H). run (link_eq p n g Hp Hn).
  rewrite link_eq; [done| |]; cbn; rewrite tag_link; done.
Qed.

(** ** The representation *)

(** A cell of a body: its address and the symbol it carries. *)
Abbreviation cell := (ptr * symKey)%type.
Abbreviation bodies := (gmap rptr (list cell)).

(** The keys a body node can have: a terminal, or a reference with no terminal text. *)
Definition symbolic (k : symKey) : Prop := kref k <> None -> kval k = [].

Definition term (s : Symbol) : symKey := mkKey None s.
Definition refk (r : rptr) : symKey := mkKey (Some r) [].

Lemma symbolic_term s : symbolic (term s).
Proof. intros H. destruct (H eq_refl). Qed.

Lemma symbolic_ref k r : symbolic k -> kref k = Some r -> k = refk r.
Proof. destruct k as [o v]. cbn. intros Hs ->. unfold refk. f_equal. apply Hs. done. Qed.

Definition cell_ok (N : gmap ptr node) (c : cell) : Prop := tag N c.1 = Some (c.2, None) /\ symbolic c.2.

(** The heap holds [l] as the ring of the rule at [r], closed by the guard [gd]. *)
Record ring (N : gmap ptr node) (R : gmap rptr rule) (r : rptr) (l : list cell) (gd : ptr) : Prop := {
  ring_rule : rguard <$> R !! r = Some gd;
  ring_guard : tag N gd = Some (term [], Some r);
  ring_chain : chain N (gd :: l.*1 ++ [gd]);
  ring_cells : Forall (cell_ok N) l }.

Definition shape (N : gmap ptr node) (R : gmap rptr rule) (B : bodies) : Prop :=
  forall r l, B !! r = Some l -> exists gd, ring N R r l gd.

Definition live (g : gram) (r : rptr) : Prop := exists i, byID g !! i = Some r.

(** The occurrence the index may record for [(a, b)]: a cell carrying [a] followed by one carrying [b]. *)
Definition occurs (B : bodies) (p : ptr) (k : digramKey) : Prop :=
  exists r l1 q l2, B !! r = Some (l1 ++ (p, k.1) :: (q, k.2) :: l2).

Record rep (g : gram) (B : bodies) : Prop := {
  rep_shape : shape (nodes g) (rules g) B;
  rep_dom : forall r, live g r -> is_Some (B !! r);
  rep_freshn : forall p, (fresh g <= p)%nat -> nodes g !! p = None;
  rep_freshr : forall r, (fresh g <= r)%nat -> rules g !! r = None;
  rep_start : is_Some (B !! start g);
  rep_byid : forall i r, byID g !! i = Some r ->
    exists x, rules g !! r = Some x /\ id x = i /\ r <> start g /\ 1 <= i < nextID g;
  rep_dead : forall r l, B !! r = Some l -> r <> start g -> ~ live g r -> l = [];
  rep_refs : forall r l c r', B !! r = Some l -> c ∈ l -> kref c.2 = Some r' -> live g r';
  rep_index : forall k p, index g !! k = Some p -> occurs B p k }.

(** Following the links from a cell determines the rest of its body. *)
Lemma tail_unique N p t t' gd gd' :
  chain N (p :: t ++ [gd]) -> chain N (p :: t' ++ [gd']) ->
  (forall z, z ∈ t \/ z ∈ t' -> exists k, tag N z = Some (k, None)) ->
  (exists k r, tag N gd = Some (k, Some r)) -> (exists k r, tag N gd' = Some (k, Some r)) ->
  t = t' /\ gd = gd'.
Proof.
  revert p t'. induction t as [|z t IH]; intros p [|z' t'] H1 H2 Hc (k1 & r1 & Hg1) (k2 & r2 & Hg2);
    cbn [app] in H1, H2; apply chain_cons in H1 as [[E1 _] H1]; apply chain_cons in H2 as [[E2 _] H2];
    rewrite E1 in E2; injection E2 as E.
  - done.
  - subst z'. destruct (Hc gd) as [k Hk]; [set_solver|]. congruence.
  - subst z. destruct (Hc gd') as [k Hk]; [set_solver|]. congruence.
  - subst z'. destruct (IH z t' H1 H2) as [-> ->]; [|eauto|eauto|done]. intros y Hy. apply Hc. set_solver.
Qed.

Lemma ring_tail N R r l1 p k l2 gd : ring N R r (l1 ++ (p, k) :: l2) gd ->
  chain N (p :: l2.*1 ++ [gd]) /\ (forall z, z ∈ l2.*1 -> exists k, tag N z = Some (k, None)).
Proof.
  intros [_ _ HC HF]. rewrite fmap_app, <- app_assoc in HC. cbn in HC.
  change (gd :: l1.*1 ++ p :: l2.*1 ++ [gd])
    with ((gd :: l1.*1) ++ p :: l2.*1 ++ [gd]) in HC. apply chain_split in HC as [_ HC].
  split; [done|]. intros z (c & -> & Hc)%list_elem_of_fmap. rewrite Forall_forall in HF.
  destruct (HF c) as [Ht _]; [set_solver|]. eauto.
Qed.

Section unique.
Context (N : gmap ptr node) (R : gmap rptr rule) (B : bodies) (HS : shape N R B).

(** A cell belongs to one body, at one place. *)
Lemma cell_unique r l1 p k l2 r' l1' k' l2' :
  B !! r = Some (l1 ++ (p, k) :: l2) -> B !! r' = Some (l1' ++ (p, k') :: l2') ->
  r = r' /\ l1 = l1' /\ k = k' /\ l2 = l2'.
Proof using HS.
  intros H H'. destruct (HS _ _ H) as [gd Hx]. destruct (HS _ _ H') as [gd' Hx'].
  destruct (ring_tail _ _ _ _ _ _ _ _ Hx) as [C1 T1]. destruct (ring_tail _ _ _ _ _ _ _ _ Hx') as [C2 T2].
  destruct (tail_unique _ _ _ _ _ _ C1 C2) as [E1 E2].
  { intros z [Hz|Hz]; auto. }
  { eauto using ring_guard. } { eauto using ring_guard. }
  assert (r = r') as ->.
  { pose proof (ring_guard _ _ _ _ _ Hx). pose proof (ring_guard _ _ _ _ _ Hx'). congruence. }
  split; [done|]. rewrite H in H'. injection H' as H'.
  assert (length l2 = length l2') as HL by (rewrite <- (length_fmap fst l2), E1, length_fmap; done).
  apply app_inj_2 in H' as [-> H']; [|cbn; lia]. injection H' as -> ->. done.
Qed.

Lemma cell_of r l c : B !! r = Some l -> c ∈ l -> cell_ok N c.
Proof using HS.
  intros H Hc. destruct (HS _ _ H) as [gd Hx]. pose proof (ring_cells _ _ _ _ _ Hx) as HF.
  rewrite Forall_forall in HF. auto.
Qed.

Lemma ring_nodup r l gd : B !! r = Some l -> ring N R r l gd -> NoDup (gd :: l.*1).
Proof using HS.
  intros H Hx. apply NoDup_cons. split.
  - intros (c & Hc & Hin)%list_elem_of_fmap. destruct (cell_of _ _ _ H Hin) as [Ht _].
    pose proof (ring_guard _ _ _ _ _ Hx) as Hg. rewrite <- Hc in Ht. congruence.
  - apply NoDup_alt. intros i j p Hi Hj.
    rewrite !list_lookup_fmap in Hi, Hj. apply fmap_Some in Hi as ([p1 k1] & Hi & ->).
    apply fmap_Some in Hj as ([p2 k2] & Hj & E). cbn in E. subst p2.
    rewrite <- (take_drop_middle _ _ _ Hi) in H. pose proof H as H'.
    rewrite (take_drop_middle _ _ _ Hi), <- (take_drop_middle _ _ _ Hj) in H'.
    destruct (cell_unique _ _ _ _ _ _ _ _ _ H H') as (_ & E & _).
    apply (f_equal length) in E. rewrite !length_take in E.
    apply lookup_lt_Some in Hi, Hj. lia.
Qed.

(** Cells of different bodies, and guards, are different addresses. *)
Lemma cell_not_guard r l p k gd r' l' : B !! r = Some l -> (p, k) ∈ l ->
  ring N R r' l' gd -> p <> gd.
Proof using HS.
  intros H Hin Hx ->. destruct (cell_of _ _ _ H Hin) as [Ht _].
  pose proof (ring_guard _ _ _ _ _ Hx) as Hg. cbn in Ht. congruence.
Qed.

Lemma cell_other r l r' l' p : B !! r = Some l -> B !! r' = Some l' -> r <> r' -> p ∈ l.*1 -> p ∉ l'.*1.
Proof using HS.
  intros H H' Hne ([p1 k] & -> & Hin)%list_elem_of_fmap ([p2 k'] & E & Hin')%list_elem_of_fmap.
  cbn in E. subst p2. apply list_elem_of_split in Hin as (l1 & l2 & ->). apply list_elem_of_split in Hin' as (l1' & l2' & ->).
  destruct (cell_unique _ _ _ _ _ _ _ _ _ H H') as [? _]. done.
Qed.

Lemma guard_inj r r' l l' gd gd' : ring N R r l gd -> ring N R r' l' gd' ->
  gd = gd' -> r = r'.
Proof.
  intros Hx Hx' E. pose proof (ring_guard _ _ _ _ _ Hx) as H. pose proof (ring_guard _ _ _ _ _ Hx') as H'.
  rewrite E in H. congruence.
Qed.

End unique.

Lemma live_rule g B r : rep g B -> live g r -> exists x l, rules g !! r = Some x /\ B !! r = Some l /\ r <> start g /\
  byID g !! id x = Some r /\ 1 <= id x < nextID g.
Proof.
  intros HR [i Hi]. destruct (rep_byid g B HR _ _ Hi) as (x & Hx & <- & Hs & Hb).
  destruct (rep_dom g B HR r) as [l Hl]; [eexists; done|]. eauto 10.
Qed.

(** ** Reading a ring *)

(** The neighbours on the two sides of a cut of a body: cells, or the guard at the ends. *)
Abbreviation left gd l := (List.last (l.*1) gd).
Abbreviation right gd l := (hd gd (l.*1)).

Lemma left_snoc gd (l : list cell) c : left gd (l ++ [c]) = c.1.
Proof. rewrite fmap_app. apply last_last. Qed.

Lemma left_in gd (l : list cell) : left gd l ∈ gd :: l.*1.
Proof.
  destruct l as [|c l _] using rev_ind; [set_solver|]. rewrite left_snoc. set_solver.
Qed.

Lemma right_in gd (l : list cell) : right gd l ∈ gd :: l.*1.
Proof. destruct l; set_solver. Qed.

Lemma ring_cut N R r l1 l2 gd : ring N R r (l1 ++ l2) gd -> edge N (left gd l1) (right gd l2).
Proof.
  intros [_ _ HC _]. rewrite fmap_app, <- app_assoc in HC.
  destruct (snoc_last gd l1.*1) as [P HP]. destruct (head_snoc gd l2.*1) as [S HS].
  rewrite HS in HC. change (gd :: l1.*1 ++ right gd l2 :: S) with ((gd :: l1.*1) ++ right gd l2 :: S) in HC.
  rewrite HP, <- app_assoc in HC. cbn [app] in HC. apply chain_split in HC as [_ HC].
  apply chain_cons in HC as [HC _]. done.
Qed.

Lemma ring_tag N R r l gd z : ring N R r l gd -> z ∈ gd :: l.*1 -> is_Some (tag N z).
Proof.
  intros Hx [->|(c & -> & Hc)%list_elem_of_fmap]%elem_of_cons.
  - rewrite (ring_guard _ _ _ _ _ Hx). eauto.
  - pose proof (ring_cells _ _ _ _ _ Hx) as HF. rewrite Forall_forall in HF. destruct (HF c Hc) as [-> _]. eauto.
Qed.

Lemma ring_left N R r l1 l2 gd : ring N R r (l1 ++ l2) gd -> is_Some (tag N (left gd l1)).
Proof. intros Hx. eapply ring_tag; [done|]. pose proof (left_in gd l1). rewrite fmap_app. set_solver. Qed.

Lemma ring_right N R r l1 l2 gd : ring N R r (l1 ++ l2) gd -> is_Some (tag N (right gd l2)).
Proof. intros Hx. eapply ring_tag; [done|]. pose proof (right_in gd l2). rewrite fmap_app. set_solver. Qed.

Lemma ring_cell N R r l1 c l2 gd : ring N R r (l1 ++ c :: l2) gd -> cell_ok N c.
Proof. intros Hx. pose proof (ring_cells _ _ _ _ _ Hx) as HF. rewrite Forall_forall in HF. apply HF. set_solver. Qed.

Lemma ring_next N R r l1 p k l2 gd : ring N R r (l1 ++ (p, k) :: l2) gd -> nxt N p = Some (right gd l2).
Proof.
  intros Hx. rewrite (app_assoc l1 [(p, k)] l2 : l1 ++ (p, k) :: l2 = _) in Hx. apply ring_cut in Hx as [Hx _].
  rewrite left_snoc in Hx. done.
Qed.

Lemma ring_prev N R r l1 p k l2 gd : ring N R r (l1 ++ (p, k) :: l2) gd -> prv N p = Some (left gd l1).
Proof. intros [_ Hx]%ring_cut. done. Qed.

(** The digram across a cut. *)
Definition cutKey (l1 l2 : list cell) : option digramKey :=
  match last l1, head l2 with Some c, Some d => Some (c.2, d.2) | _, _ => None end.

Lemma digramAt_cut g r l1 l2 gd : ring (nodes g) (rules g) r (l1 ++ l2) gd ->
  digramAt (left gd l1) g = Ret (cutKey l1 l2) g.
Proof.
  intros Hx. unfold digramAt, cutKey. pose proof (ring_cut _ _ _ _ _ _ Hx) as [Hc _].
  destruct l1 as [|[p k] l1 _] using rev_ind.
  - cbn. destruct (load_tag _ _ _ _ (ring_guard _ _ _ _ _ Hx)) as (n & _ & Hl & _ & _ & _ & Hg). run Hl.
    unfold is_guard. rewrite Hg. done.
  - rewrite left_snoc in *. rewrite last_snoc, <- app_assoc in *. cbn [app fst snd] in *.
    destruct (ring_cell _ _ _ _ _ _ _ Hx) as [Ht _]. cbn [fst snd] in Ht.
    destruct (load_tag _ _ _ _ Ht) as (n & Hn & Hl & Hk & _ & _ & Hg). run Hl.
    unfold is_guard. rewrite Hg. cbn. unfold nxt in Hc. rewrite Hn in Hc. cbn in Hc. rewrite Hc. cbn.
    destruct l2 as [|[q k'] l2]; cbn.
    + destruct (load_tag _ _ _ _ (ring_guard _ _ _ _ _ Hx)) as (m & _ & Hl' & _ & _ & _ & Hg').
      unfold mbind, M_bind. cbn. rewrite Hl', Hg'. done.
    + replace (l1 ++ (p, k) :: (q, k') :: l2) with ((l1 ++ [(p, k)]) ++ (q, k') :: l2) in Hx
        by (rewrite <- app_assoc; done).
      destruct (ring_cell _ _ _ _ _ _ _ Hx) as [Ht' _]. cbn [fst snd] in Ht'.
      destruct (load_tag _ _ _ _ Ht') as (m & _ & Hl' & Hk' & _ & _ & Hg').
      unfold mbind, M_bind. cbn. rewrite Hl', Hg'. cbn. rewrite Hk, Hk'. done.
Qed.

Lemma digramAt_cell g r l1 p k l2 gd : ring (nodes g) (rules g) r (l1 ++ (p, k) :: l2) gd ->
  digramAt p g = Ret ((fun d => (k, d.2)) <$> head l2) g.
Proof.
  intros Hx. rewrite (app_assoc l1 [(p, k)] l2 : l1 ++ (p, k) :: l2 = _) in Hx. apply digramAt_cut in Hx.
  rewrite left_snoc in Hx. cbn [fst] in Hx. rewrite Hx. unfold cutKey. rewrite last_snoc. destruct l2; done.
Qed.

(** An address the index does not record. *)
Definition unindexed (g : gram) (p : ptr) : Prop := forall k, index g !! k <> Some p.

Definition set_index (ix : gmap digramKey ptr) (g : gram) : gram := with_index (fun _ => ix) g.

Lemma rep_set_index g B ix : rep g B -> (forall k p, ix !! k = Some p -> occurs B p k) -> rep (set_index ix g) B.
Proof. intros [] H. constructor; done. Qed.

(** [dropDigram] removes the entries of one cell from the index and does nothing else. *)
Lemma dropDigram_spec g B r l1 l2 gd : rep g B -> B !! r = Some (l1 ++ l2) ->
  ring (nodes g) (rules g) r (l1 ++ l2) gd -> exists ix,
    dropDigram (left gd l1) g = Ret tt (set_index ix g) /\ ix ⊆ index g /\
    unindexed (set_index ix g) (left gd l1).
Proof.
  intros HR HB Hx. unfold dropDigram. run (digramAt_cut _ _ _ _ _ Hx).
  assert (forall k, index g !! k = Some (left gd l1) -> cutKey l1 l2 = Some k) as Hown.
  { intros [k1 k2] Hk. destruct (rep_index g B HR _ _ Hk) as (r' & m1 & q & m2 & Hm).
    destruct l1 as [|[p k] l1 _] using rev_ind.
    - exfalso. eapply (cell_not_guard _ _ _ (rep_shape g B HR) r' _ _ k1); [exact Hm| |exact Hx|reflexivity].
      cbn. set_solver.
    - rewrite left_snoc in Hm. cbn [fst snd] in Hm. rewrite <- app_assoc in HB. cbn [app] in HB.
      destruct (cell_unique _ _ _ (rep_shape g B HR) _ _ _ _ _ _ _ _ _ HB Hm) as (-> & -> & -> & ->).
      unfold cutKey. rewrite last_snoc. done. }
  destruct (cutKey l1 l2) as [k|] eqn:Ek.
  - run (eq_refl : gets (fun g => index g !! k) g = Ret (index g !! k) g). case_bool_decide as Hk.
    + exists (delete k (index g)). split; [done|]. split; [apply delete_subseteq|].
      intros k' Hk'. cbn in Hk'. apply lookup_delete_Some in Hk' as [Hne Hk'].
      specialize (Hown k' Hk'). congruence.
    + exists (index g). split; [destruct g; done|]. split; [done|]. intros k' Hk'. cbn in Hk'.
      specialize (Hown k' Hk'). congruence.
  - exists (index g). split; [destruct g; done|]. split; [done|]. intros k' Hk'. cbn in Hk'.
    specialize (Hown k' Hk'). done.
Qed.

(** ** Editing a ring in place *)

(** [N'] differs from [N] by relinking the two ends of a cut and by the cells [old] and [new]. *)
Record relinked (N N' : gmap ptr node) (a b : ptr) (old new : list ptr) : Prop := {
  rl_chain : chain N' (a :: new ++ [b]);
  rl_next : forall z, z <> a -> z ∉ old -> z ∉ new -> nxt N' z = nxt N z;
  rl_prev : forall z, z <> b -> z ∉ old -> z ∉ new -> prv N' z = prv N z;
  rl_tag : forall z, z ∉ old -> z ∉ new -> tag N' z = tag N z }.

(** Cells that no ring contains. *)
Definition unowned (N : gmap ptr node) (B : bodies) (new : list ptr) : Prop :=
  forall z, z ∈ new -> (forall r l, B !! r = Some l -> z ∉ l.*1) /\ (forall k r, tag N z <> Some (k, Some r)).

(** A ring whose cells are untouched stays a ring. *)
Lemma ring_frame N N' R r l gd : ring N R r l gd ->
  (forall z, z ∈ gd :: l.*1 -> nxt N' z = nxt N z /\ prv N' z = prv N z /\ tag N' z = tag N z) ->
  ring N' R r l gd.
Proof.
  intros [H1 H2 H3 H4] Hz. constructor; [done| | |].
  - destruct (Hz gd) as (_ & _ & ->); [left|done].
  - apply (chain_frame N); [done| |]; intros z Hin; apply Hz.
    + rewrite app_comm_cons, removelast_last in Hin. done.
    + cbn [tail] in Hin. apply elem_of_app in Hin as [Hin|Hin]; [right; done|].
      apply list_elem_of_singleton in Hin as ->. left.
  - rewrite Forall_forall in *. intros c Hc. destruct (H4 c Hc) as [Hc1 Hc2]. split; [|done].
    destruct (Hz c.1) as (_ & _ & ->); [|done]. right. apply list_elem_of_fmap. eauto.
Qed.

Section edit.
Context (N : gmap ptr node) (R : gmap rptr rule) (B : bodies) (HS : shape N R B).
Context (N' : gmap ptr node) (r : rptr) (l1 mid l2 mid' : list cell) (gd : ptr).
Context (HB : B !! r = Some (l1 ++ mid ++ l2)) (Hx : ring N R r (l1 ++ mid ++ l2) gd).
Context (HL : relinked N N' (left gd l1) (right gd l2) mid.*1 mid'.*1).
Context (Hu : unowned N B mid'.*1).

Lemma edit_fresh r' l' gd' z : ring N R r' l' gd' -> B !! r' = Some l' -> z ∈ gd' :: l'.*1 -> z ∉ mid'.*1.
Proof using Hu.
  intros H1 HB1 Hz Hz'. destruct (Hu z Hz') as [Hz1 Hz2].
  apply elem_of_cons in Hz as [->|Hz]; [eapply Hz2, ring_guard, H1|eapply Hz1; [exact HB1|done]].
Qed.

Lemma edit_apart r' l' gd' z : ring N R r' l' gd' -> B !! r' = Some l' -> r <> r' ->
  z ∈ gd' :: l'.*1 -> z ∉ gd :: (l1 ++ mid ++ l2).*1.
Proof using HS HB Hx.
  intros Hx' Hl Hne Hz Hz'. apply elem_of_cons in Hz as [->|Hz], Hz' as [E|Hz'].
  - apply Hne. symmetry. eapply (guard_inj N R); eauto.
  - apply list_elem_of_fmap in Hz' as ([p k] & E & Hc). cbn in E.
    eapply (cell_not_guard _ _ _ HS); [exact HB|exact Hc|exact Hx'|done].
  - subst z. apply list_elem_of_fmap in Hz as ([p k] & E & Hc). cbn in E.
    eapply (cell_not_guard _ _ _ HS); [exact Hl|exact Hc|exact Hx|done].
  - exact (cell_other _ _ _ HS _ _ _ _ z HB Hl Hne Hz' Hz).
Qed.

(** The edited ring. *)
Lemma edit_ring : Forall (cell_ok N') mid' -> ring N' R r (l1 ++ mid' ++ l2) gd.
Proof using HS HB Hx HL Hu.
  intros Hm. pose proof (ring_nodup _ _ _ HS _ _ _ HB Hx) as HN.
  pose proof (fun z => edit_fresh _ _ _ z Hx HB) as Hf. destruct Hx as [H1 H2 H3 H4]. destruct HL as [HC Hn Hp Ht].
  rewrite !fmap_app, <- ?app_assoc in *. apply NoDup_cons in HN as HN0. destruct HN0 as [HN0 HN'].
  apply NoDup_app in HN' as (_ & HN1 & HN'). apply NoDup_app in HN' as (_ & HN2 & _). constructor; [done| | |].
  - rewrite Ht; [done|set_solver +HN0|apply Hf; set_solver +].
  - rewrite !fmap_app, <- !app_assoc. apply (ring_edit N N' gd l1.*1 mid.*1 l2.*1 mid'.*1); try done.
    intros z Hz Hz'. apply (Hf z); [set_solver +Hz'|done].
  - rewrite !Forall_app in *. rewrite !Forall_forall in *. destruct H4 as (H4 & _ & H5).
    split; [|split; [done|]]; intros c Hc; [destruct (H4 c Hc)|destruct (H5 c Hc)]; (split; [|done]);
      pose proof (proj2 (list_elem_of_fmap fst _ c.1) (ex_intro _ c (conj eq_refl Hc))) as Hc';
      (rewrite Ht; [done| |apply Hf; set_solver +Hc']).
    + specialize (HN1 _ Hc'). set_solver +HN1.
    + intros Hz. exact (HN2 _ Hz Hc').
Qed.

Lemma shape_edit : Forall (cell_ok N') mid' -> shape N' R (<[r := l1 ++ mid' ++ l2]> B).
Proof using HS HB Hx HL Hu.
  intros Hm r' l' Hl. destruct (decide (r = r')) as [<-|Hne].
  - rewrite lookup_insert_eq in Hl. injection Hl as <-. exists gd. apply edit_ring. done.
  - rewrite lookup_insert_ne in Hl by done. destruct (HS r' l' Hl) as [gd' Hx']. exists gd'.
    apply (ring_frame N); [done|]. intros z Hz.
    pose proof (edit_fresh _ _ _ _ Hx' Hl Hz) as Hf. pose proof (edit_apart _ _ _ _ Hx' Hl Hne Hz) as Hd.
    pose proof (left_in gd l1) as Hla. pose proof (right_in gd l2) as Hrb. destruct HL as [HC Hn Hp Ht].
    rewrite !fmap_app in Hd. assert (z <> left gd l1 /\ z <> right gd l2 /\ z ∉ mid.*1) as (Ha & Hb & Hm').
    { split; [intros ->; set_solver +Hd Hla|]. split; [intros ->; set_solver +Hd Hrb|set_solver +Hd]. }
    auto.
Qed.

End edit.

(** ** The list operations of the source, as edits of [B] *)

(** Two rule tables that differ in use counts only. *)
Definition same_rules (R R' : gmap rptr rule) : Prop :=
  forall r, (fun x => (id x, rguard x)) <$> R' !! r = (fun x => (id x, rguard x)) <$> R !! r.

Lemma same_rules_some R R' r x : same_rules R R' -> R !! r = Some x ->
  exists x', R' !! r = Some x' /\ id x' = id x /\ rguard x' = rguard x.
Proof.
  intros H Hx. specialize (H r). rewrite Hx in H. apply fmap_Some in H as (x' & Hx' & E).
  injection E as E1 E2. eauto.
Qed.

Lemma same_rules_sym R R' : same_rules R R' -> same_rules R' R.
Proof. intros H r. rewrite (H r). done. Qed.

Lemma same_rules_none R R' r : same_rules R R' -> R !! r = None -> R' !! r = None.
Proof.
  intros H Hx. specialize (H r). rewrite Hx in H. apply fmap_None in H. done.
Qed.

Lemma same_rules_alter f r R : same_rules R (alter (ruleUses f) r R).
Proof.
  intros r'. destruct (decide (r = r')) as [<-|Hne].
  - rewrite lookup_alter_eq. destruct (R !! r); done.
  - rewrite lookup_alter_ne by done. done.
Qed.

Lemma shape_rules N R R' B : same_rules R R' -> shape N R B -> shape N R' B.
Proof.
  intros HR HS r l Hl. destruct (HS r l Hl) as [gd [H1 H2 H3 H4]]. exists gd.
  apply fmap_Some in H1 as (x & Hx & ->). destruct (same_rules_some _ _ _ _ HR Hx) as (x' & Hx' & _ & Hg).
  constructor; [rewrite Hx'; cbn; congruence|done|done|done].
Qed.

(** An occurrence, by position. *)
Lemma occurs_at B q k : occurs B q k <->
  exists r l i q2, B !! r = Some l /\ l !! i = Some (q, k.1) /\ l !! S i = Some (q2, k.2).
Proof.
  split.
  - intros (r & l1 & q2 & l2 & H). exists r, (l1 ++ (q, k.1) :: (q2, k.2) :: l2), (length l1), q2.
    split; [done|]. rewrite !lookup_app_r by lia. rewrite Nat.sub_diag, Nat.sub_succ_l, Nat.sub_diag by lia. done.
  - intros (r & l & i & q2 & H & Hi & Hj). exists r, (take i l), q2, (drop (S (S i)) l). rewrite H. f_equal.
    rewrite <- (take_drop_middle l i _ Hi) at 1. do 2 f_equal. apply drop_S. done.
Qed.

(** A digram that neither starts at the left end of an edit nor in the replaced part survives it. *)
Lemma occurs_edit B r l1 mid l2 mid' gd q k :
  B !! r = Some (l1 ++ mid ++ l2) -> occurs B q k -> q <> left gd l1 -> q ∉ mid.*1 ->
  occurs (<[r := l1 ++ mid' ++ l2]> B) q k.
Proof.
  rewrite !occurs_at. intros HB (r' & l & i & q2 & Hl & Hi & Hj) Hq Hmid.
  destruct (decide (r = r')) as [<-|Hne].
  2: { exists r', l, i, q2. rewrite lookup_insert_ne by done. done. }
  rewrite HB in Hl. injection Hl as <-. exists r, (l1 ++ mid' ++ l2).
  destruct (decide (S i < length l1)%nat) as [H1|H1].
  { exists i, q2. rewrite lookup_insert_eq, !lookup_app_l in * by lia. done. }
  destruct (decide (i < length l1)%nat) as [H2|H2].
  { exfalso. apply Hq. destruct l1 as [|c l1 _] using rev_ind; [cbn in H2; lia|].
    rewrite left_snoc. rewrite length_app in *. cbn in *. rewrite <- app_assoc in Hi.
    rewrite lookup_app_r in Hi by lia. replace (i - length l1)%nat with 0%nat in Hi by lia. cbn in Hi.
    injection Hi as ->. done. }
  destruct (decide (i < length l1 + length mid)%nat) as [H3|H3].
  { exfalso. apply Hmid. rewrite lookup_app_r, lookup_app_l in Hi by lia.
    apply list_elem_of_fmap. exists (q, k.1). split; [done|]. apply list_elem_of_lookup. eauto. }
  exists (i - length mid + length mid')%nat, q2. rewrite lookup_insert_eq.
  rewrite !lookup_app_r in * by lia. split; [done|]. split; [rewrite <- Hi|rewrite <- Hj]; f_equal; lia.
Qed.

(** What an edit of one body needs to keep the representation. *)
Lemma rep_edit g B N' R' r l1 mid l2 mid' gd :
  rep g B -> B !! r = Some (l1 ++ mid ++ l2) -> ring (nodes g) (rules g) r (l1 ++ mid ++ l2) gd ->
  relinked (nodes g) N' (left gd l1) (right gd l2) mid.*1 mid'.*1 -> unowned (nodes g) B mid'.*1 ->
  Forall (cell_ok N') mid' -> same_rules (rules g) R' ->
  (forall q, (fresh g <= q)%nat -> N' !! q = None) ->
  r = start g \/ live g r ->
  (forall c r', c ∈ mid' -> kref c.2 = Some r' -> live g r') ->
  unindexed g (left gd l1) -> (forall q, q ∈ mid.*1 -> unindexed g q) ->
  rep (heap_set N' R' g) (<[r := l1 ++ mid' ++ l2]> B).
Proof.
  intros HR HB Hx HL Hu Hm HRl Hf Hr Href Hil Him. destruct HR as [H1 H2 H3 H4 H5 H6 H7 H8 H9]. constructor; cbn.
  - apply (shape_rules _ (rules g)); [done|]. eapply shape_edit; done.
  - intros r' Hr'. apply lookup_insert_is_Some'. auto.
  - done.
  - intros r' Hr'. eapply same_rules_none; eauto.
  - apply lookup_insert_is_Some'. auto.
  - intros i r' Hi. destruct (H6 i r' Hi) as (y & Hy & <- & Hs).
    destruct (same_rules_some _ _ _ _ HRl Hy) as (y' & Hy' & E & _). exists y'. rewrite E. done.
  - intros r' l Hl Hs Hd. destruct (decide (r = r')) as [<-|Hne].
    + destruct Hr; done.
    + rewrite lookup_insert_ne in Hl by done. eauto.
  - intros r' l c r'' Hl Hc Hk. destruct (decide (r = r')) as [<-|Hne].
    + rewrite lookup_insert_eq in Hl. injection Hl as <-. rewrite !elem_of_app in Hc.
      destruct Hc as [Hc|[Hc|Hc]]; [|eapply Href; eauto|]; apply (H8 r _ c r'' HB); set_solver +Hc || done.
    + rewrite lookup_insert_ne in Hl by done. eapply H8; eauto.
  - intros k q Hk. apply (occurs_edit _ _ _ _ _ _ gd _ _ HB); [eauto| |].
    + intros ->. eapply Hil; eauto.
    + intros Hq. eapply Him; eauto.
Qed.

(** What the list operations leave alone: the rules, their ids and guards. *)
Record kept (g g' : gram) : Prop := {
  kept_start : start g' = start g;
  kept_byID : byID g' = byID g;
  kept_nextID : nextID g' = nextID g;
  kept_fresh : (fresh g <= fresh g')%nat;
  kept_rules : same_rules (rules g) (rules g') }.

#[global] Instance kept_refl : Reflexive kept.
Proof. intros g. constructor; done. Qed.

#[global] Instance kept_trans : Transitive kept.
Proof.
  intros g1 g2 g3 [] []. constructor; [congruence|congruence|congruence|lia|]. intros r. etransitivity; eauto.
Qed.

Lemma kept_live g g' r : kept g g' -> live g' r <-> live g r.
Proof. intros H. unfold live. rewrite (kept_byID g g' H). done. Qed.

Lemma kept_index g ix : kept g (set_index ix g).
Proof. constructor; done. Qed.

(** How often a key references a rule. *)
Definition hits (k : symKey) (r : rptr) : Z := if decide (kref k = Some r) then 1 else 0.

Definition bumpUse (d : Z) (o : option rptr) (R : gmap rptr rule) : gmap rptr rule :=
  match o with Some r => alter (ruleUses (fun u => u + d)) r R | None => R end.

Lemma same_rules_bump d o R : same_rules R (bumpUse d o R).
Proof. destruct o; [apply same_rules_alter|done]. Qed.

Lemma uses_bump d k N R g r : (forall r', kref k = Some r' -> is_Some (R !! r')) ->
  usesOf (heap_set N (bumpUse d (kref k) R) g) r = from_option uses 0 (R !! r) + d * hits k r.
Proof.
  intros Hk. unfold usesOf, hits, heap_set, bumpUse. cbn [rules]. destruct (kref k) as [r'|].
  - destruct (decide (Some r' = Some r)) as [[= <-]|Hne].
    + rewrite lookup_alter_eq. destruct (Hk r' eq_refl) as [x ->]. cbn. lia.
    + rewrite lookup_alter_ne by congruence. lia.
  - case_decide; [done|]. lia.
Qed.

Lemma owner_live g B r l : rep g B -> B !! r = Some l -> l <> [] -> r = start g \/ live g r.
Proof.
  intros HR Hl Hne. destruct (decide (r = start g)) as [|Hs]; [auto|right].
  destruct (rep_shape g B HR _ _ Hl) as [gd Hg]. pose proof (ring_rule _ _ _ _ _ Hg) as Hx.
  apply fmap_Some in Hx as (x & Hx & _). destruct (decide (byID g !! id x = Some r)) as [H|H]; [eexists; eauto|].
  exfalso. apply Hne, (rep_dead g B HR r); [done|done|]. intros [i Hi].
  destruct (rep_byid g B HR _ _ Hi) as (x' & Hx' & <- & _). rewrite Hx in Hx'.
  congruence.
Qed.

Lemma ref_rule g B r l c r' : rep g B -> B !! r = Some l -> c ∈ l -> kref c.2 = Some r' -> is_Some (rules g !! r').
Proof.
  intros HR Hl Hc Hk. destruct (live_rule g B r' HR) as (x & _ & Hx & _); [|eauto].
  eapply (rep_refs g B HR); eauto.
Qed.

Definition clearN (p : ptr) (N : gmap ptr node) : gmap ptr node :=
  alter (nodeRef None) p (alter (nodeNext None) p (alter (nodePrev None) p N)).

Lemma clear_other p N z : z <> p -> clearN p N !! z = N !! z.
Proof. intros H. unfold clearN. rewrite !lookup_alter_ne by done. done. Qed.

Lemma unlinkNode_eq p k a b g : tag (nodes g) p = Some (k, None) ->
  prv (nodes g) p = Some a -> nxt (nodes g) p = Some b ->
  is_Some (tag (nodes g) a) -> is_Some (tag (nodes g) b) ->
  (forall r, kref k = Some r -> is_Some (rules g !! r)) ->
  unlinkNode p g = Ret tt (heap_set (clearN p (linkN a b (nodes g))) (bumpUse (-1) (kref k) (rules g)) g).
Proof.
  intros Ht Ha Hb Hta Htb Hr. unfold unlinkNode. run (getPrev_eq _ _ _ Ha). run (getNext_eq _ _ _ Hb).
  run (link_eq a b g Hta Htb). assert (is_Some (tag (linkN a b (nodes g)) p)) as Hp by (rewrite tag_link, Ht; eauto).
  run (setPrev_eq p None (heap_set (linkN a b (nodes g)) (rules g) g) Hp). cbn.
  run (setNext_eq p None (heap_set (alter (nodePrev None) p (linkN a b (nodes g))) (rules g) g)
         ltac:(cbn; rewrite tag_prev; done)). cbn.
  set (N' := alter (nodeNext None) p (alter (nodePrev None) p (linkN a b (nodes g)))).
  assert (tag N' p = Some (k, None)) as Ht' by (unfold N'; rewrite tag_next, tag_prev, tag_link; done).
  destruct (load_tag p k None (heap_set N' (rules g) g) Ht') as (n & Hn & Hl & _ & Hk & _). run Hl. rewrite Hk.
  destruct (kref k) as [r|]; cbn [bumpUse].
  - run (setUses_eq r (fun u => u - 1) (heap_set N' (rules g) g) (Hr r eq_refl)). rewrite setRef_eq; [done|]. cbn. rewrite Ht'. eauto.
  - unfold mret, M_ret. f_equal. unfold clearN. fold N'. unfold heap_set. f_equal. cbn in Hn. symmetry.
    apply alter_id. intros n' Hn'. rewrite Hn in Hn'. injection Hn' as <-. destruct n; cbn in *. subst. done.
Qed.

Lemma unlink_relinked p a b N : a <> p -> b <> p -> is_Some (tag N a) -> is_Some (tag N b) ->
  relinked N (clearN p (linkN a b N)) a b [p] [].
Proof.
  intros Ha Hb Hta Htb.
  assert (forall z, z <> p -> nxt (clearN p (linkN a b N)) z = nxt (linkN a b N) z /\
    prv (clearN p (linkN a b N)) z = prv (linkN a b N) z /\ tag (clearN p (linkN a b N)) z = tag N z) as H.
  { intros z Hz. unfold nxt, prv, tag. rewrite clear_other by done. split; [done|]. split; [done|]. apply tag_link. }
  constructor.
  - cbn [app]. apply chain_cons. split; [|done]. split.
    + destruct (H a Ha) as (-> & _). rewrite nxt_link by done. rewrite decide_True by done. done.
    + destruct (H b Hb) as (_ & -> & _). rewrite prv_link by done. rewrite decide_True by done. done.
  - intros z Hz Hp _. destruct (H z) as (-> & _); [set_solver +Hp|]. rewrite nxt_link, decide_False; done.
  - intros z Hz Hp _. destruct (H z) as (_ & -> & _); [set_solver +Hp|]. rewrite prv_link, decide_False; done.
  - intros z Hp _. apply H. set_solver +Hp.
Qed.

Lemma alloc_lt N p : is_Some (tag N p) -> forall f : nat, (forall q, (f <= q)%nat -> N !! q = None) -> (p < f)%nat.
Proof.
  unfold tag. intros [t Ht] f Hf. destruct (decide (p < f)%nat); [done|].
  rewrite Hf in Ht by lia. done.
Qed.

Lemma unlinkNode_spec g B r l1 p k l2 gd :
  rep g B -> B !! r = Some (l1 ++ (p, k) :: l2) -> ring (nodes g) (rules g) r (l1 ++ (p, k) :: l2) gd ->
  unindexed g p -> unindexed g (left gd l1) -> exists g',
    unlinkNode p g = Ret tt g' /\ rep g' (<[r := l1 ++ l2]> B) /\ kept g g' /\ index g' = index g /\
    forall r', usesOf g' r' = usesOf g r' - hits k r'.
Proof.
  intros HR HB Hx Hi Hl. pose proof (ring_prev _ _ _ _ _ _ _ _ Hx) as Hprev.
  pose proof (ring_next _ _ _ _ _ _ _ _ Hx) as Hnext. pose proof (ring_left _ _ _ _ _ _ Hx) as Ha.
  destruct (ring_cell _ _ _ _ _ _ _ Hx) as [Ht _]. cbn [fst snd] in Ht.
  assert (is_Some (tag (nodes g) (right gd l2))) as Hb.
  { rewrite (app_assoc l1 [(p, k)] l2 : l1 ++ (p, k) :: l2 = _) in Hx. eapply ring_right, Hx. }
  assert (forall r', kref k = Some r' -> is_Some (rules g !! r')) as Hk.
  { intros r' Hk. apply (ref_rule g B r _ (p, k) r' HR HB); [set_solver +|done]. }
  pose proof (ring_nodup _ _ _ (rep_shape g B HR) _ _ _ HB Hx) as HN. rewrite fmap_app, fmap_cons in HN. cbn [fst] in HN.
  assert (left gd l1 <> p /\ right gd l2 <> p) as [Hap Hbp].
  { pose proof (left_in gd l1) as H1. pose proof (right_in gd l2) as H2.
    apply NoDup_cons in HN as [HN0 HN]. apply NoDup_app in HN as (_ & HN1 & HN). apply NoDup_cons in HN as [HN _].
    split; intros E; rewrite E in *; set_solver. }
  eexists. split; [eapply unlinkNode_eq; done|]. split; [|split; [|split; [done|]]].
  - apply (rep_edit g B _ _ r l1 [(p, k)] l2 [] gd HR HB Hx); try done.
    + apply unlink_relinked; done.
    + intros z Hz. apply elem_of_nil in Hz. done.
    + apply same_rules_bump.
    + intros q Hq. rewrite clear_other.
      * unfold linkN. rewrite !lookup_alter_None. apply (rep_freshn g B HR). done.
      * intros ->. pose proof (alloc_lt (nodes g) p ltac:(rewrite Ht; eauto) _ (rep_freshn g B HR)). lia.
    + eapply owner_live; [done|exact HB|]. destruct l1; done.
    + intros c r' Hc. apply elem_of_nil in Hc. done.
    + intros q Hq. cbn in Hq. apply list_elem_of_singleton in Hq as ->. done.
  - constructor; try done. apply same_rules_bump.
  - intros r'. rewrite uses_bump by done. unfold usesOf. lia.
Qed.

(** Linking a fresh cell in after the left neighbour of a cut. *)
Lemma insert_relinked p a b N : a <> p -> b <> p -> is_Some (tag N a) -> is_Some (tag N b) -> is_Some (tag N p) ->
  relinked N (linkN p b (linkN a p N)) a b [] [p].
Proof.
  intros Ha Hb Hta Htb Htp.
  assert (forall z, is_Some (tag N z) -> is_Some (tag (linkN a p N) z)) as Ht by (intros z; rewrite tag_link; done).
  constructor.
  - cbn [app]. rewrite !chain_cons. split; [|split; [|done]]; split;
      repeat ((rewrite nxt_link by auto) || (rewrite prv_link by auto));
      repeat case_decide; congruence.
  - intros z Hz _ Hp. rewrite !nxt_link by auto. rewrite !decide_False by set_solver +Hz Hp. done.
  - intros z Hz _ Hp. rewrite !prv_link by auto. rewrite !decide_False by set_solver +Hz Hp. done.
  - intros z _ _. rewrite !tag_link. done.
Qed.

(** A cell outside every ring, ready to be linked in. *)
Definition loose (g : gram) (B : bodies) (p : ptr) (k : symKey) : Prop :=
  tag (nodes g) p = Some (k, None) /\ symbolic k /\ (forall r l, B !! r = Some l -> p ∉ l.*1) /\
  (forall r, kref k = Some r -> live g r).

Lemma insertAfter_spec g B r l1 l2 p k gd :
  rep g B -> B !! r = Some (l1 ++ l2) -> ring (nodes g) (rules g) r (l1 ++ l2) gd ->
  loose g B p k -> r = start g \/ live g r -> unindexed g (left gd l1) -> exists g',
    insertAfter (left gd l1) p g = Ret tt g' /\ rep g' (<[r := l1 ++ (p, k) :: l2]> B) /\ kept g g' /\
    index g' = index g /\ fresh g' = fresh g /\ rules g' = rules g /\
    (forall z, tag (nodes g') z = tag (nodes g) z).
Proof.
  intros HR HB Hx (Ht & Hsym & Hnot & Hk) Hr Hl. pose proof (ring_cut _ _ _ _ _ _ Hx) as [Hc _].
  pose proof (ring_left _ _ _ _ _ _ Hx) as Ha. pose proof (ring_right _ _ _ _ _ _ Hx) as Hb.
  assert (forall z, z ∈ gd :: (l1 ++ l2).*1 -> z <> p) as Hne.
  { intros z Hz ->. apply elem_of_cons in Hz as [->|Hz]; [|eapply Hnot; eauto].
    rewrite (ring_guard _ _ _ _ _ Hx) in Ht. done. }
  rewrite fmap_app in Hne. pose proof (left_in gd l1) as Hla. pose proof (right_in gd l2) as Hrb.
  eexists. split; [apply insertAfter_eq; [done|done|rewrite Ht; eauto|done]|].
  assert (forall z, tag (linkN p (right gd l2) (linkN (left gd l1) p (nodes g))) z = tag (nodes g) z) as Htg
    by (intros z; rewrite !tag_link; done).
  split; [|repeat split; try done]. apply (rep_edit g B _ _ r l1 [] l2 [(p, k)] gd HR HB Hx); try done.
  - apply insert_relinked; [apply Hne; set_solver +Hla|apply Hne; set_solver +Hrb|done|done|rewrite Ht; eauto].
  - intros z Hz. apply list_elem_of_singleton in Hz as ->. split; [exact Hnot|]. intros k' r' E. cbn in E. rewrite Ht in E. done.
  - apply Forall_singleton. split; [rewrite Htg; done|done].
  - intros q Hq. unfold linkN. rewrite !lookup_alter_None. apply (rep_freshn g B HR). done.
  - intros c r' Hc'. apply list_elem_of_singleton in Hc' as ->. auto.
  - intros q Hq. apply elem_of_nil in Hq. done.
Qed.
