(* ===== verification/SeqSplice.v ===== *)
(** The compound list operations of [rules.go] as edits of the bodies [B] of [SeqInv.v]: allocation,
    [copyOf], [newRule], the splice of [substitute] and the inlining of [expandRef]. *)

From S2P Require Import Prelude Strconv Sequitur SeqInv.

(** ** Allocation *)

Lemma index_tag g B k p : rep g B -> index g !! k = Some p -> is_Some (tag (nodes g) p).
Proof.
  intros HR Hk. destruct (rep_index g B HR _ _ Hk) as (r & l1 & q & l2 & Hl).
  destruct (cell_of _ _ _ (rep_shape g B HR) _ _ (p, k.1) Hl) as [Ht _]; [set_solver +|]. cbn in Ht. rewrite Ht. eauto.
Qed.

Lemma fresh_unindexed g B p : rep g B -> (fresh g <= p)%nat -> unindexed g p.
Proof.
  intros HR Hp k Hk. pose proof (index_tag g B k p HR Hk) as Ht.
  pose proof (alloc_lt _ _ Ht _ (rep_freshn g B HR)). lia.
Qed.

Lemma guard_unindexed g B r l gd : rep g B -> ring (nodes g) (rules g) r l gd -> unindexed g gd.
Proof.
  intros HR Hx k Hk. destruct (rep_index g B HR _ _ Hk) as (r' & m1 & q & m2 & Hm).
  apply (cell_not_guard _ _ _ (rep_shape g B HR) r' _ gd k.1 gd r l Hm); [set_solver +|done|done].
Qed.

Lemma ring_lt g B r l gd z : rep g B -> ring (nodes g) (rules g) r l gd -> z ∈ gd :: l.*1 -> (z < fresh g)%nat.
Proof.
  intros HR Hx Hz. apply (alloc_lt (nodes g)); [eapply ring_tag; eauto|apply (rep_freshn g B HR)].
Qed.

(** The heap after one more cell. *)
Lemma rep_more g B n : rep g B ->
  rep (mkGram (<[fresh g := n]> (nodes g)) (rules g) (S (fresh g)) (start g) (byID g) (index g) (nextID g)
         (utilitySweeps g)) B.
Proof.
  intros HR. destruct HR as [H1 H2 H3 H4 H5 H6 H7 H8 H9] eqn:E. constructor; cbn; try done.
  - intros r l Hl. destruct (H1 r l Hl) as [gd Hx]. exists gd. apply (ring_frame (nodes g)); [done|].
    intros z Hz. pose proof (ring_lt g B r l gd z HR Hx Hz). unfold nxt, prv, tag.
    rewrite lookup_insert_ne by lia. done.
  - intros p Hp. rewrite lookup_insert_ne by lia. apply H3. lia.
  - intros r Hr. apply H4. lia.
Qed.

Lemma alloc_spec g B n : rep g B -> guard n = None -> symbolic (key n) ->
  (forall r, ref n = Some r -> live g r) -> exists g',
    alloc n g = Ret (fresh g) g' /\ rep g' B /\ loose g' B (fresh g) (key n) /\ kept g g' /\ index g' = index g /\
    rules g' = rules g /\ fresh g' = S (fresh g) /\ (forall z, z <> fresh g -> tag (nodes g') z = tag (nodes g) z).
Proof.
  intros HR Hg Hs Hr. eexists. split; [reflexivity|]. split; [apply rep_more; done|]. split; [|split; [|split; [|split; [|split]]]]; try done.
  - split; [|split; [done|split]]; cbn.
    + unfold tag. rewrite lookup_insert_eq. cbn. rewrite Hg. done.
    + intros r l Hl Hin. destruct (rep_shape g B HR r l Hl) as [gd Hx].
      pose proof (ring_lt g B r l gd (fresh g) HR Hx ltac:(set_solver +Hin)). lia.
    + exact Hr.
  - constructor; cbn; try done. lia.
  - intros z Hz. unfold tag. cbn. rewrite lookup_insert_ne by done. done.
Qed.

Lemma rep_rules g B R' : rep g B -> same_rules (rules g) R' -> rep (heap_set (nodes g) R' g) B.
Proof.
  intros [H1 H2 H3 H4 H5 H6 H7 H8 H9] HS. constructor; cbn; try done.
  - eapply shape_rules; done.
  - intros r Hr. eapply same_rules_none; eauto.
  - intros i r Hi. destruct (H6 i r Hi) as (x & Hx & <- & Hs).
    destruct (same_rules_some _ _ _ _ HS Hx) as (x' & Hx' & E & _). exists x'. rewrite E. done.
Qed.

(** A use count changes, nothing else. *)
Lemma bump_spec g B d r : rep g B -> live g r -> exists g',
  setUses r (fun u => u + d) g = Ret tt g' /\ rep g' B /\ kept g g' /\ index g' = index g /\ nodes g' = nodes g /\
  fresh g' = fresh g /\ (forall r', usesOf g' r' = usesOf g r' + d * hits (refk r) r') /\
  (forall p k, loose g B p k -> loose g' B p k).
Proof.
  intros HR Hr. destruct (live_rule g B r HR Hr) as (x & l & Hx & _).
  eexists. split; [apply setUses_eq; eauto|]. split; [apply rep_rules; [done|apply same_rules_alter]|].
  split; [constructor; try done; apply same_rules_alter|]. split; [done|]. split; [done|]. split; [done|]. split; [|done].
  intros r'. apply (uses_bump d (refk r) (nodes g) (rules g) g r'). intros r1 [= <-]. eauto.
Qed.

Lemma unindexed_index g g' p : index g' = index g -> unindexed g p -> unindexed g' p.
Proof. unfold unindexed. intros ->. done. Qed.

Lemma copyOf_spec g B r l p k : rep g B -> B !! r = Some l -> (p, k) ∈ l -> exists c g',
  copyOf p g = Ret c g' /\ rep g' B /\ loose g' B c k /\ kept g g' /\ index g' = index g /\
  (forall r', usesOf g' r' = usesOf g r' + hits k r') /\ unindexed g' c.
Proof.
  intros HR Hl Hin. destruct (cell_of _ _ _ (rep_shape g B HR) _ _ _ Hl Hin) as [Ht Hs]. cbn [fst snd] in *.
  destruct (load_tag _ _ _ _ Ht) as (n & _ & Hld & Hk & Hrf & Hv & _). unfold copyOf. run Hld. rewrite Hrf.
  destruct (kref k) as [r'|] eqn:Er.
  - pose proof (rep_refs g B HR r l (p, k) r' Hl Hin Er) as Hlive.
    destruct (bump_spec g B 1 r' HR Hlive) as (g1 & E1 & R1 & K1 & I1 & N1 & F1 & U1 & _). run E1.
    apply symbolic_ref in Er as ->; [|done].
    destruct (alloc_spec g1 B (mkNode [] (Some r') None None None) R1) as (g2 & E2 & R2 & L2 & K2 & I2 & U2 & F2 & _);
      [done|done| |].
    { intros ? [= <-]. apply (kept_live g g1); done. }
    exists (fresh g1), g2. split; [done|]. split; [done|]. split; [done|]. split; [etransitivity; done|].
    split; [congruence|]. split.
    + intros r1. unfold usesOf at 1. rewrite U2. specialize (U1 r1). unfold usesOf at 1 in U1. lia.
    + apply (unindexed_index g1); [done|]. apply (fresh_unindexed g1 B); [done|lia].
  - destruct (alloc_spec g B (mkNode (val n) None None None None) HR) as (g2 & E2 & R2 & L2 & K2 & I2 & U2 & F2 & _);
      [done|apply symbolic_term|done|].
    assert (key (mkNode (val n) None None None None) = k) as Ek.
    { rewrite Hv. destruct k as [o v]. cbn in *. subst o. done. }
    rewrite Ek in L2. exists (fresh g), g2. split; [done|]. split; [done|]. split; [done|]. split; [done|].
    split; [congruence|]. split.
    + intros r1. unfold usesOf. rewrite U2. unfold hits. rewrite Er, decide_False by done. lia.
    + apply (unindexed_index g); [done|]. apply (fresh_unindexed g B); [done|lia].
Qed.

(** ** Minting *)

Lemma wrapInt_small z : - 2 ^ 63 <= z < 2 ^ 63 -> wrapInt z = z.
Proof. intros H. unfold wrapInt. rewrite Z.mod_small by lia. lia. Qed.

(** No body refers to a rule that has not been allocated. *)
Lemma fresh_unreferenced g B r l c : rep g B -> B !! r = Some l -> c ∈ l -> kref c.2 <> Some (fresh g).
Proof.
  intros HR Hl Hc Hk. destruct (live_rule g B _ HR (rep_refs g B HR _ _ _ _ Hl Hc Hk)) as (x & _ & Hx & _).
  rewrite (rep_freshr g B HR) in Hx by lia. done.
Qed.

(** The heap with one more empty rule, under the id [i]. *)
Definition grown (i : RuleID) (g : gram) : gram :=
  mkGram (<[S (fresh g) := mkNode [] None (Some (fresh g)) (Some (S (fresh g))) (Some (S (fresh g)))]> (nodes g))
    (<[fresh g := mkRule_ i (S (fresh g)) 0]> (rules g)) (S (S (fresh g))) (start g) (<[i := fresh g]> (byID g)) (index g)
    (nextID g) (utilitySweeps g).

Lemma fresh_unowned g B : rep g B -> B !! fresh g = None.
Proof.
  intros HR. destruct (B !! fresh g) as [l|] eqn:E; [|done]. destruct (rep_shape g B HR _ _ E) as [gd Hx].
  pose proof (ring_rule _ _ _ _ _ Hx) as Hr. rewrite (rep_freshr g B HR) in Hr by lia. done.
Qed.

Lemma grown_shape g B i : rep g B -> shape (nodes (grown i g)) (rules (grown i g)) (<[fresh g := []]> B).
Proof.
  intros HR r l Hl. cbn. destruct (decide (fresh g = r)) as [<-|Hne].
  - rewrite lookup_insert_eq in Hl. injection Hl as <-. exists (S (fresh g)).
    constructor; unfold nxt, prv, tag; rewrite ?lookup_insert_eq; try done.
    cbn [fmap list_fmap app]. apply chain_cons. split; [|done]. split; unfold nxt, prv; rewrite lookup_insert_eq; done.
  - rewrite lookup_insert_ne in Hl by done. destruct (rep_shape g B HR r l Hl) as [gd Hx]. exists gd.
    assert (ring (nodes (grown i g)) (rules g) r l gd) as [G1 G2 G3 G4].
    { apply (ring_frame (nodes g)); [done|]. intros z Hz. pose proof (ring_lt g B r l gd z HR Hx Hz).
      unfold nxt, prv, tag, grown. cbn. rewrite lookup_insert_ne by lia. done. }
    constructor; try done. rewrite lookup_insert_ne by done. done.
Qed.

Lemma grown_live g i r : byID g !! i = None -> live (grown i g) r <-> live g r \/ r = fresh g.
Proof.
  intros Hi. unfold live. cbn. split.
  - intros [j Hj]. apply lookup_insert_Some in Hj as [[_ <-]|[_ Hj]]; eauto.
  - intros [[j Hj]| ->]; [exists j; rewrite lookup_insert_ne; congruence|exists i; apply lookup_insert_eq].
Qed.

Lemma grown_rep g B i : rep g B -> byID g !! i = None -> 1 <= i < nextID g -> rep (grown i g) (<[fresh g := []]> B).
Proof.
  intros HR Hid Hi. pose proof (fresh_unowned g B HR) as HB. pose proof HR as [H1 H2 H3 H4 H5 H6 H7 H8 H9].
  pose proof (fun r => grown_live g i r Hid) as Hlive.
  assert (forall r l, <[fresh g := []]> B !! r = Some l -> (r = fresh g /\ l = []) \/ (r <> fresh g /\ B !! r = Some l)) as Hcase.
  { intros r l Hl. apply lookup_insert_Some in Hl as [[<- <-]|[Hne Hl]]; auto. }
  constructor; [apply grown_shape; done|..]; cbn.
  - intros r Hr. apply lookup_insert_is_Some'. apply Hlive in Hr as [Hr| ->]; auto.
  - intros p Hp. rewrite lookup_insert_ne by lia. apply H3. lia.
  - intros r Hr. rewrite lookup_insert_ne by lia. apply H4. lia.
  - apply lookup_insert_is_Some'. auto.
  - intros j r Hj. apply lookup_insert_Some in Hj as [[<- <-]|[Hne Hj]].
    + eexists. rewrite lookup_insert_eq. split; [done|]. cbn. split; [done|]. split; [|lia].
      intros E. destruct H5 as [l Hl]. rewrite <- E, HB in Hl. done.
    + destruct (H6 j r Hj) as (x & Hx & Hi' & Hs & Hb). exists x. rewrite lookup_insert_ne; [done|]. intros <-.
      rewrite H4 in Hx by lia. done.
  - intros r l Hl Hs Hd. rewrite Hlive in Hd. apply Hcase in Hl as [[-> ->]|[Hne Hl]]; [done|]. apply (H7 r l Hl Hs). tauto.
  - intros r l c r' Hl Hc Hk. apply Hlive. left. apply Hcase in Hl as [[-> ->]|[Hne Hl]]; [apply elem_of_nil in Hc; done|]. eapply H8; done.
  - intros k p Hk. destruct (H9 k p Hk) as (r & l1 & q & l2 & Hl). exists r, l1, q, l2.
    rewrite lookup_insert_ne; [done|congruence].
Qed.

Lemma grown_uses g B i r : rep g B -> usesOf (grown i g) r = usesOf g r.
Proof.
  intros HR. unfold usesOf. cbn. destruct (decide (fresh g = r)) as [<-|Hne].
  - rewrite lookup_insert_eq, (rep_freshr g B HR) by lia. done.
  - rewrite lookup_insert_ne by done. done.
Qed.

Lemma rep_nextID g B n : rep g B -> nextID g <= n -> rep (with_nextID n g) B.
Proof.
  intros HR Hn. pose proof (rep_byid g B HR) as Hid. destruct HR. constructor; try done.
  intros i r Hi. destruct (Hid i r Hi) as (x & Hx & H1 & H2 & H3). exists x. cbn. split; [done|]. split; [done|]. split; [done|lia].
Qed.

Lemma newRule_spec g B : rep g B -> 1 <= nextID g -> nextID g + 1 < 2 ^ 63 -> exists g',
  newRule g = Ret (fresh g) g' /\ rep g' (<[fresh g := []]> B) /\ B !! fresh g = None /\
  byID g !! nextID g = None /\ byID g' = <[nextID g := fresh g]> (byID g) /\ start g' = start g /\
  nextID g' = nextID g + 1 /\ index g' = index g /\ (forall r, usesOf g' r = usesOf g r).
Proof.
  intros HR Hn1 Hn. assert (byID g !! nextID g = None) as Hid.
  { destruct (byID g !! nextID g) eqn:E; [|done]. destruct (rep_byid g B HR _ _ E) as (x & _ & _ & _ & Hb). lia. }
  exists (grown (nextID g) (with_nextID (nextID g + 1) g)).
  split; [unfold newRule, grown, with_nextID, mbind, M_bind; cbn; rewrite wrapInt_small by lia; done|].
  split; [apply (grown_rep (with_nextID (nextID g + 1) g)); [apply rep_nextID; [done|lia]|done|cbn; lia]|].
  split; [apply (fresh_unowned g B); done|]. split; [done|]. repeat (split; [done|]).
  intros r. apply (grown_uses (with_nextID (nextID g + 1) g) B), rep_nextID; [done|lia].
Qed.

(** ** Counting references *)

Definition cells (B : bodies) : list cell := concat (map_to_list B).*2.

Definition refs (l : list cell) (r : rptr) : Z := foldr (fun c a => hits c.2 r + a) 0 l.

(** References to [r] in the whole grammar. *)
Definition nrefs (B : bodies) (r : rptr) : Z := refs (cells B) r.

(** Every use count is the number of references. *)
Definition exact (g : gram) (B : bodies) : Prop := forall r, is_Some (B !! r) -> usesOf g r = nrefs B r.

Lemma refs_app l1 l2 r : refs (l1 ++ l2) r = refs l1 r + refs l2 r.
Proof. induction l1 as [|c l1 IH]; [done|]. cbn. unfold refs in *. rewrite IH. lia. Qed.

Lemma refs_cons c l r : refs (c :: l) r = hits c.2 r + refs l r.
Proof. done. Qed.

#[global] Instance refs_perm : Proper ((≡ₚ) ==> eq ==> eq) refs.
Proof.
  intros l1 l2 HP r ? <-. induction HP as [| |c d l|]; [done|rewrite !refs_cons, IHHP; done| |congruence].
  rewrite !refs_cons. lia.
Qed.

Lemma cells_split B r l : B !! r = Some l -> cells B ≡ₚ l ++ cells (delete r B).
Proof. intros H. unfold cells. rewrite <- (map_to_list_delete B r l H). done. Qed.

Lemma cells_insert B r l : cells (<[r := l]> B) ≡ₚ l ++ cells (delete r B).
Proof.
  rewrite (cells_split (<[r := l]> B) r l) by apply lookup_insert_eq. rewrite delete_insert_eq. done.
Qed.

Lemma elem_of_cells B c : c ∈ cells B <-> exists r l, B !! r = Some l /\ c ∈ l.
Proof.
  unfold cells. rewrite list_elem_of_In, in_concat. split.
  - intros (l & Hl & Hc). apply list_elem_of_In, list_elem_of_fmap in Hl as ([r l'] & -> & Hl).
    apply elem_of_map_to_list in Hl. apply list_elem_of_In in Hc. eauto.
  - intros (r & l & Hl & Hc). exists l. rewrite <- !list_elem_of_In. split; [|done].
    apply list_elem_of_fmap. exists (r, l). split; [done|]. apply elem_of_map_to_list. done.
Qed.

Lemma nrefs_insert B r l l' r' : B !! r = Some l ->
  nrefs (<[r := l']> B) r' = nrefs B r' - refs l r' + refs l' r'.
Proof. intros H. unfold nrefs. rewrite cells_insert, (cells_split B r l H), !refs_app. lia. Qed.

Lemma nrefs_new B r r' : B !! r = None -> nrefs (<[r := []]> B) r' = nrefs B r'.
Proof. intros H. unfold nrefs. rewrite cells_insert, (delete_id _ _ H). done. Qed.

Lemma refs_nonneg l r : 0 <= refs l r.
Proof. induction l as [|c l IH]; [done|]. rewrite refs_cons. unfold hits. case_decide; lia. Qed.

Lemma refs_pos l r : 1 <= refs l r <-> exists c, c ∈ l /\ kref c.2 = Some r.
Proof.
  induction l as [|c l IH].
  - split; [cbn; lia|intros (c & Hc & _); apply elem_of_nil in Hc; done].
  - rewrite refs_cons. pose proof (refs_nonneg l r). unfold hits. case_decide as E.
    + split; [|lia]. intros _. exists c. split; [left|done].
    + rewrite Z.add_0_l, IH. split; intros (d & Hd & Hk); exists d; (split; [|done]).
      * right. done.
      * apply elem_of_cons in Hd as [->|Hd]; done.
Qed.

Lemma nrefs_pos B r : 1 <= nrefs B r <-> exists r' l c, B !! r' = Some l /\ c ∈ l /\ kref c.2 = Some r.
Proof.
  unfold nrefs. rewrite refs_pos. split.
  - intros (c & Hc & Hk). apply elem_of_cells in Hc as (r' & l & Hl & Hc). eauto 10.
  - intros (r' & l & c & Hl & Hc & Hk). exists c. split; [|done]. apply elem_of_cells. eauto.
Qed.

Lemma nrefs_zero B r : (forall r' l c, B !! r' = Some l -> c ∈ l -> kref c.2 <> Some r) -> nrefs B r = 0.
Proof.
  intros H. pose proof (refs_nonneg (cells B) r). destruct (decide (1 <= nrefs B r)) as [Hp|]; [|unfold nrefs in *; lia].
  apply nrefs_pos in Hp as (r' & l & c & Hl & Hc & Hk). destruct (H r' l c Hl Hc Hk).
Qed.

(** ** The splice of [substitute] *)

Lemma rep_drop g B ix : rep g B -> ix ⊆ index g -> rep (set_index ix g) B.
Proof.
  intros HR Hix. apply rep_set_index; [done|]. intros k p Hk. apply (rep_index g B HR).
  eapply lookup_weaken; done.
Qed.

Lemma unindexed_drop g ix p : unindexed g p -> ix ⊆ index g -> unindexed (set_index ix g) p.
Proof. intros H Hix k Hk. cbn in Hk. apply (H k). eapply lookup_weaken; done. Qed.

(** The three digrams a splice destroys leave the index. *)
Lemma drop3_spec g B r l1 n k1 s k2 l2 gd : rep g B ->
  B !! r = Some (l1 ++ (n, k1) :: (s, k2) :: l2) ->
  ring (nodes g) (rules g) r (l1 ++ (n, k1) :: (s, k2) :: l2) gd -> exists ix,
    (dropDigram (left gd l1);; dropDigram n;; dropDigram s) g = Ret tt (set_index ix g) /\ ix ⊆ index g /\
    unindexed (set_index ix g) (left gd l1) /\ unindexed (set_index ix g) n /\ unindexed (set_index ix g) s.
Proof.
  intros HR HB Hx.
  destruct (dropDigram_spec g B r l1 _ gd HR HB Hx) as (ix1 & E1 & S1 & U1). run E1.
  pose proof (rep_drop g B ix1 HR S1) as R1.
  assert (forall m, l1 ++ (n, k1) :: m = (l1 ++ [(n, k1)]) ++ m) as A1 by (intros m; rewrite <- app_assoc; done).
  rewrite A1 in HB, Hx.
  destruct (dropDigram_spec (set_index ix1 g) B r (l1 ++ [(n, k1)]) _ gd R1 HB Hx) as (ix2 & E2 & S2 & U2).
  rewrite left_snoc in E2, U2. cbn [fst] in E2, U2. run E2. pose proof (rep_drop _ B ix2 R1 S2) as R2.
  assert (forall m, (l1 ++ [(n, k1)]) ++ (s, k2) :: m = (l1 ++ [(n, k1); (s, k2)]) ++ m) as A2
    by (intros m; rewrite <- !app_assoc; done).
  rewrite A2 in HB, Hx.
  destruct (dropDigram_spec (set_index ix2 (set_index ix1 g)) B r (l1 ++ [(n, k1); (s, k2)]) l2 gd R2 HB Hx)
    as (ix3 & E3 & S3 & U3).
  replace (left gd (l1 ++ [(n, k1); (s, k2)])) with s in E3, U3
    by (rewrite (app_assoc l1 [(n, k1)] [(s, k2)] : l1 ++ [(n, k1); (s, k2)] = _), left_snoc; done).
  exists ix3. split; [exact E3|]. cbn in S2, S3. split; [etransitivity; [exact S3|]; etransitivity; done|].
  split; [|split; [|done]].
  - apply (unindexed_drop (set_index ix1 g)); [done|]. cbn. etransitivity; done.
  - apply (unindexed_drop (set_index ix2 (set_index ix1 g))); done.
Qed.

Lemma run3 {A} (m1 m2 m3 : M unit) (k : M A) g g' : (m1;; m2;; m3) g = Ret tt g' -> (m1;; m2;; m3;; k) g = k g'.
Proof.
  unfold mbind, M_bind. destruct (m1 g) as [[] g1| |]; [|done|done]. destruct (m2 g1) as [[] g2| |]; [|done|done].
  intros ->. done.
Qed.

Lemma hits_refk r r' : hits (refk r) r' = if decide (r = r') then 1 else 0.
Proof. unfold hits. cbn. repeat case_decide; congruence. Qed.

(** The guard of a rule does not change. *)
Lemma ring_kept g h C r l l' gd : same_rules (rules g) (rules h) -> ring (nodes g) (rules g) r l gd ->
  rep h C -> C !! r = Some l' -> ring (nodes h) (rules h) r l' gd.
Proof.
  intros K Hx RC HC. destruct (rep_shape h C RC _ _ HC) as [gd' Hg].
  replace gd' with gd in Hg; [done|]. pose proof (ring_rule _ _ _ _ _ Hg) as H1.
  pose proof (ring_rule _ _ _ _ _ Hx) as H2. apply fmap_Some in H2 as (y & Hy & ->).
  destruct (same_rules_some _ _ _ _ K Hy) as (y' & Hy' & _ & Eg). rewrite Hy' in H1. cbn in H1. congruence.
Qed.

Lemma splice_spec g B r0 l1 n k1 s k2 l2 gd r : rep g B ->
  B !! r0 = Some (l1 ++ (n, k1) :: (s, k2) :: l2) ->
  ring (nodes g) (rules g) r0 (l1 ++ (n, k1) :: (s, k2) :: l2) gd -> live g r -> exists p g',
    splice n r g = Ret (left gd l1, p) g' /\ rep g' (<[r0 := l1 ++ (p, refk r) :: l2]> B) /\ kept g g' /\
    index g' ⊆ index g /\ unindexed g' (left gd l1) /\ unindexed g' p /\
    (exact g B -> exact g' (<[r0 := l1 ++ (p, refk r) :: l2]> B)).
Proof.
  intros HR HB Hx Hr. unfold splice. run (getPrev_eq _ _ _ (ring_prev _ _ _ _ _ _ _ _ Hx)).
  run (getNext_eq _ _ _ (ring_next _ _ _ _ _ _ _ _ Hx)). cbn [fmap list_fmap hd fst].
  destruct (drop3_spec g B r0 l1 n k1 s k2 l2 gd HR HB Hx) as (ix & Ei & Si & Ul & Un & Us). rewrite (run3 _ _ _ _ _ _ Ei).
  pose proof (rep_drop g B ix HR Si) as R0. set (g0 := set_index ix g) in *.
  pose proof (owner_live g B r0 _ HR HB ltac:(destruct l1; done)) as Hown.
  destruct (unlinkNode_spec g0 B r0 l1 n k1 _ gd R0 HB Hx Un Ul) as (g1 & E1 & R1 & K1 & I1 & U1). run E1.
  set (B1 := <[r0 := l1 ++ (s, k2) :: l2]> B) in *.
  assert (B1 !! r0 = Some (l1 ++ (s, k2) :: l2)) as HB1 by apply lookup_insert_eq.
  pose proof (fun h C l K => ring_kept g h C r0 _ l gd (kept_rules g h K) Hx) as Hring.
  assert (kept g g1) as K1' by (etransitivity; [apply kept_index|exact K1]).
  destruct (unlinkNode_spec g1 B1 r0 l1 s k2 l2 gd R1 HB1 (Hring g1 B1 _ K1' R1 HB1)) as (g2 & E2 & R2 & K2 & I2 & U2);
    [eapply unindexed_index; done|eapply unindexed_index; done|]. run E2.
  assert (kept g g2) as K2' by (etransitivity; done).
  unfold B1 in R2. rewrite insert_insert_eq in R2. set (B2 := <[r0 := l1 ++ l2]> B) in *.
  destruct (alloc_spec g2 B2 (mkNode [] (Some r) None None None) R2) as (g3 & E3 & R3 & L3 & K3 & I3 & U3 & F3 & _);
    [done|done| |].
  { intros ? [= <-]. apply (kept_live g g2); done. }
  run E3. assert (kept g g3) as K3' by (etransitivity; done).
  destruct (bump_spec g3 B2 1 r R3 ltac:(apply (kept_live g g3); done)) as (g4 & E4 & R4 & K4 & I4 & N4 & F4 & U4 & L4).
  run E4. assert (kept g g4) as K4' by (etransitivity; done).
  assert (B2 !! r0 = Some (l1 ++ l2)) as HB2 by apply lookup_insert_eq.
  assert (index g4 = index g0) as I04 by congruence.
  destruct (insertAfter_spec g4 B2 r0 l1 l2 (fresh g2) (refk r) gd R4 HB2 (Hring g4 B2 _ K4' R4 HB2))
    as (g5 & E5 & R5 & K5 & I5 & F5 & U5 & _).
  { apply L4. done. } { rewrite (kept_start _ _ K4'), (kept_live g g4) by done. done. } { eapply unindexed_index; done. }
  run E5. unfold B2 in R5. rewrite insert_insert_eq in R5. exists (fresh g2), g5. split; [done|]. split; [done|].
  split; [etransitivity; done|]. split; [rewrite I5, I04; exact Si|].
  split; [apply (unindexed_index g0); [congruence|done]|]. split.
  - apply (unindexed_index g2); [congruence|]. apply (fresh_unindexed g2 B2); [done|lia].
  - intros He r' Hr'. rewrite (nrefs_insert _ _ _ _ _ HB), !refs_app, !refs_cons. cbn [snd].
    rewrite <- (He r') by (apply lookup_insert_is_Some' in Hr' as [<-|Hr']; [rewrite HB; eauto|done]).
    unfold usesOf at 1. rewrite U5. fold (usesOf g4 r'). rewrite U4. unfold usesOf at 1. rewrite U3. fold (usesOf g2 r').
    rewrite U2, U1. change (usesOf g0 r') with (usesOf g r'). lia.
Qed.

(** ** The inlining of [expandRef] *)

(** A ring opened at its guard and closed between two other cells. *)
Lemma chain_retarget N N' gr m a b : m <> [] -> NoDup m -> chain N (gr :: m ++ [gr]) ->
  nxt N' a = Some (hd gr m) -> prv N' (hd gr m) = Some a ->
  nxt N' (List.last m gr) = Some b -> prv N' b = Some (List.last m gr) ->
  (forall z, z ∈ m -> z <> List.last m gr -> nxt N' z = nxt N z) ->
  (forall z, z ∈ m -> z <> hd gr m -> prv N' z = prv N z) ->
  chain N' (a :: m ++ [b]).
Proof.
  intros Hm ND HC Ha Hf Hl Hb Hn Hp. destruct m as [|f t]; [done|]. cbn [hd] in *. cbn [app].
  apply chain_cons. split; [done|]. rewrite last_cons in *. destruct (snoc_last f t) as [P HP].
  change (f :: t ++ [b]) with ((f :: t) ++ [b]). rewrite HP, <- app_assoc. apply chain_split. split.
  - apply (chain_frame N).
    + change (gr :: (f :: t) ++ [gr]) with ([gr] ++ (f :: t) ++ [gr]) in HC. cbn [app] in HC.
      apply chain_cons in HC as [_ HC]. change (f :: t ++ [gr]) with ((f :: t) ++ [gr]) in HC.
      rewrite HP, <- app_assoc in HC. apply chain_split in HC as [HC _]. done.
    + rewrite removelast_last. intros z Hz. apply Hn; [rewrite HP; set_solver +Hz|]. intros ->.
      rewrite HP in ND. apply NoDup_app in ND as (_ & ND & _). apply (ND _ Hz). set_solver +.
    + rewrite <- HP. cbn [tail]. intros z Hz. apply Hp; [set_solver +Hz|]. intros ->.
      apply NoDup_cons in ND as [ND _]. done.
  - cbn [app]. apply chain_cons. done.
Qed.

Definition inlined (p : ptr) (gr before after first last : ptr) (N : gmap ptr node) : gmap ptr node :=
  linkN last after (linkN before first
    (alter (nodeNext None) p (alter (nodePrev None) p (alter (nodeRef None) p (linkN gr gr N))))).

Lemma inlined_other p gr a b f t N z : z <> p ->
  is_Some (tag N a) -> is_Some (tag N b) -> is_Some (tag N f) -> is_Some (tag N t) -> a <> p -> b <> p -> f <> p -> t <> p ->
  let N1 := linkN gr gr N in
  nxt (inlined p gr a b f t N) z = (if decide (z = t) then Some b else if decide (z = a) then Some f else nxt N1 z) /\
  prv (inlined p gr a b f t N) z = (if decide (z = b) then Some t else if decide (z = f) then Some a else prv N1 z) /\
  tag (inlined p gr a b f t N) z = tag N z.
Proof.
  intros Hzp Ha Hb Hf Ht Hap Hbp Hfp Htp N1. unfold inlined. fold N1.
  set (N2 := alter (nodeNext None) p (alter (nodePrev None) p (alter (nodeRef None) p N1))).
  assert (forall y, y <> p -> N2 !! y = N1 !! y) as HM by (intros y Hy; unfold N2; rewrite !lookup_alter_ne by done; done).
  assert (forall y, y <> p -> tag N2 y = tag N y) as HT.
  { intros y Hy. unfold tag. rewrite HM by done. apply tag_link. }
  rewrite !nxt_link, !prv_link, !tag_link by (rewrite ?tag_link, HT by done; done).
  rewrite HT by done. unfold nxt, prv. rewrite !HM by done. done.
Qed.

(** The situation of an inlining: the cell [p] of [r0]'s body is the only reference to [r]. *)
Record inlinable (g : gram) (B : bodies) (r0 r : rptr) (l1 l2 m : list cell) (p : ptr) (gd gr : ptr) : Prop := {
  il_rep : rep g B;
  il_body : B !! r0 = Some (l1 ++ (p, refk r) :: l2);
  il_ring : ring (nodes g) (rules g) r0 (l1 ++ (p, refk r) :: l2) gd;
  il_ne : r0 <> r;
  il_rbody : B !! r = Some m;
  il_rring : ring (nodes g) (rules g) r m gr;
  il_nonempty : m <> [];
  il_sole : nrefs B r = 1 }.

Section inline.
Context (g : gram) (B : bodies) (r0 r : rptr) (l1 l2 m : list cell) (p gd gr : ptr).
Context (HI : inlinable g B r0 r l1 l2 m p gd gr).

Abbreviation before := (left gd l1).
Abbreviation after := (right gd l2).
Abbreviation first := (right gr m).
Abbreviation last := (left gr m).

Lemma inline_in : first ∈ m.*1 /\ last ∈ m.*1.
Proof using HI.
  pose proof (il_nonempty _ _ _ _ _ _ _ _ _ _ HI) as Hm. split.
  - destruct m; [done|]. left.
  - clear HI. destruct m as [|c t _] using rev_ind; [done|]. rewrite left_snoc, fmap_app. set_solver +.
Qed.

(** The four ends are not [p], and those of one ring are not those of the other. *)
Lemma inline_distinct :
  (before <> p /\ after <> p) /\ (forall z, z ∈ gr :: m.*1 -> z <> p /\ z ∉ gd :: (l1 ++ l2).*1).
Proof using HI.
  destruct HI as [HR HB Hx Hne HM Hr _ _]. pose proof (rep_shape g B HR) as HS.
  pose proof (ring_nodup _ _ _ HS _ _ _ HB Hx) as HN. rewrite fmap_app, fmap_cons in HN. cbn [fst] in HN.
  pose proof (left_in gd l1) as Hl. pose proof (right_in gd l2) as Hr'. split.
  - apply NoDup_cons in HN as [HN0 HN]. apply NoDup_app in HN as (_ & HN1 & HN). apply NoDup_cons in HN as [HN _].
    split; intros E; rewrite E in *; set_solver.
  - intros z Hz. pose proof (edit_apart (nodes g) (rules g) B HS r0 l1 [(p, refk r)] l2 gd HB Hx r m gr z Hr HM Hne Hz) as H.
    rewrite !fmap_app in H |- *. cbn in H. set_solver +H.
Qed.

Lemma inline_tags : is_Some (tag (nodes g) before) /\ is_Some (tag (nodes g) after) /\
  is_Some (tag (nodes g) first) /\ is_Some (tag (nodes g) last).
Proof using HI.
  destruct HI as [HR HB Hx Hne HM Hr _ _]. split; [eapply ring_left, Hx|]. split; [|split].
  - rewrite (app_assoc l1 [(p, refk r)] l2 : l1 ++ (p, refk r) :: l2 = _) in Hx. eapply ring_right, Hx.
  - eapply ring_tag; [exact Hr|]. apply right_in.
  - eapply ring_tag; [exact Hr|]. apply left_in.
Qed.

Lemma inline_eq : exists x ix, rules g !! r = Some x /\ ix ⊆ index g /\
  unindexed (set_index ix g) before /\ unindexed (set_index ix g) p /\
  inline p g = Ret (before, last)
    (mkGram (inlined p gr before after first last (nodes g)) (alter (ruleUses (fun _ => 0)) r (rules g)) (fresh g)
       (start g) (delete (id x) (byID g)) ix (nextID g) (utilitySweeps g)).
Proof using HI.
  pose proof inline_tags as (Ta & Tb & Tf & Tl). pose proof inline_distinct as [[Hap Hbp] Hd].
  pose proof inline_in as [Hfm Hlm].
  destruct HI as [HR HB Hx Hne HM Hr Hm _].
  destruct (ring_cell _ _ _ _ _ _ _ Hx) as [Ht _]. cbn [fst snd] in Ht.
  pose proof (ring_rule _ _ _ _ _ Hr) as Hxr. apply fmap_Some in Hxr as (x & Hxr & Eg).
  destruct (load_tag _ _ _ _ Ht) as (n & Hn & Hld & _ & Hrf & _).
  pose proof (ring_prev _ _ _ _ _ _ _ _ Hx) as Hpv. unfold prv in Hpv. rewrite Hn in Hpv. cbn in Hpv.
  pose proof (ring_next _ _ _ _ _ _ _ _ Hx) as Hnx. unfold nxt in Hnx. rewrite Hn in Hnx. cbn in Hnx.
  destruct (dropDigram_spec g B r0 l1 _ gd HR HB Hx) as (ix1 & E1 & S1 & U1).
  pose proof (rep_drop g B ix1 HR S1) as R1.
  assert (l1 ++ (p, refk r) :: l2 = (l1 ++ [(p, refk r)]) ++ l2) as A1 by (rewrite <- app_assoc; done).
  rewrite A1 in HB, Hx.
  destruct (dropDigram_spec (set_index ix1 g) B r0 (l1 ++ [(p, refk r)]) l2 gd R1 HB Hx) as (ix2 & E2 & S2 & U2).
  rewrite left_snoc in E2, U2. cbn [fst] in E2, U2. cbn in S2.
  assert (nxt (nodes g) gr = Some first /\ prv (nodes g) gr = Some last) as [Gn Gp].
  { split; [apply (ring_cut _ _ _ [] m gr Hr)|]. rewrite <- (app_nil_r m) in Hr. apply (ring_cut _ _ _ m [] gr Hr). }
  exists x, ix2. split; [done|]. split; [etransitivity; done|].
  split; [apply (unindexed_drop (set_index ix1 g)); done|]. split; [exact U2|].
  unfold inline. run Hld. rewrite Hrf, Hpv, Hnx. cbn [kref refk].
  run (deref_eq r g). run (deref_eq before g). run (deref_eq after g).
  assert (loadr r g = Ret x g) as Elr by (unfold loadr; rewrite Hxr; done). run Elr. rewrite <- Eg.
  run (getNext_eq _ _ _ Gn). run (getPrev_eq _ _ _ Gp). run E1. run E2.
  assert (is_Some (tag (nodes g) gr)) as Tg by (rewrite (ring_guard _ _ _ _ _ Hr); eauto).
  run (link_eq gr gr (set_index ix2 (set_index ix1 g)) Tg Tg).
  set (g1 := heap_set _ _ _).
  run (eq_refl : modify (with_byID (delete (id x))) g1 = Ret tt (with_byID (delete (id x)) g1)). set (g2 := with_byID _ _).
  run (setUses_eq r (fun _ => 0) g2 ltac:(cbn; eauto)). set (g3 := heap_set _ _ g2).
  assert (is_Some (tag (nodes g3) p)) as T3 by (cbn; rewrite tag_link, Ht; eauto).
  run (setRef_eq p None g3 T3). set (g4 := heap_set _ _ g3).
  assert (forall z, tag (nodes g3) z = tag (nodes g) z) as E3 by (intros z; cbn; apply tag_link).
  assert (forall z, z <> p -> tag (nodes g4) z = tag (nodes g) z) as E4.
  { intros z Hz. cbn. unfold tag. rewrite lookup_alter_ne by done. apply E3. }
  assert (is_Some (tag (nodes g4) p)) as T4.
  { cbn. unfold tag. rewrite lookup_alter_eq. destruct T3 as [t T3]. unfold tag in T3. cbn in T3.
    apply fmap_Some in T3 as (y & -> & _). cbn. eauto. }
  run (setPrev_eq p None g4 T4). set (g5 := heap_set _ _ g4).
  run (setNext_eq p None g5 ltac:(cbn; rewrite tag_prev; exact T4)). set (g6 := heap_set _ _ g5).
  assert (forall z, z <> p -> tag (nodes g6) z = tag (nodes g) z) as E6.
  { intros z Hz. cbn. rewrite tag_next, tag_prev. apply E4. done. }
  assert (first <> p /\ last <> p) as [Hfp Hlp] by (split; apply Hd; right; done).
  run (link_eq before first g6 ltac:(rewrite E6; done) ltac:(rewrite E6; done)).
  set (g7 := heap_set _ _ g6).
  assert (forall z, z <> p -> tag (nodes g7) z = tag (nodes g) z) as E7.
  { intros z Hz. change (nodes g7) with (linkN before first (nodes g6)). rewrite tag_link. auto. }
  run (link_eq last after g7 ltac:(rewrite E7; done) ltac:(rewrite E7; done)).
  done.
Qed.

Abbreviation N1 := (linkN gr gr (nodes g)).
Abbreviation N' := (inlined p gr before after first last (nodes g)).

(** First the body is detached from its guard. *)
Lemma inline_detach : shape N1 (rules g) (<[r := []]> B).
Proof using HI.
  destruct HI as [HR HB Hx Hne HM Hr _ _]. assert (is_Some (tag (nodes g) gr)) as Tg.
  { rewrite (ring_guard _ _ _ _ _ Hr). eauto. }
  rewrite <- (app_nil_r m) in HM, Hr.
  apply (shape_edit (nodes g) (rules g) B (rep_shape g B HR) N1 r [] m [] [] gr HM Hr); [|intros z Hz|constructor].
  - cbn [fmap list_fmap List.last hd]. constructor.
    + cbn [app]. apply chain_cons. split; [|done].
      split; [rewrite nxt_link by done|rewrite prv_link by done]; rewrite decide_True by done; done.
    + intros z Hz _ _. rewrite nxt_link, decide_False by done. done.
    + intros z Hz _ _. rewrite prv_link, decide_False by done. done.
    + intros z _ _. apply tag_link.
  - apply elem_of_nil in Hz. done.
Qed.

(** The links of the heap after the inlining, away from the removed reference. *)
Lemma inline_views z : z <> p ->
  nxt N' z = (if decide (z = last) then Some after else if decide (z = before) then Some first else nxt N1 z) /\
  prv N' z = (if decide (z = after) then Some last else if decide (z = first) then Some before else prv N1 z) /\
  tag N' z = tag (nodes g) z.
Proof using HI.
  pose proof inline_tags as (Ta & Tb & Tf & Tl). pose proof inline_distinct as [[Hap Hbp] Hd].
  pose proof inline_in as [Hfm Hlm]. intros Hz. apply inlined_other; try done; apply Hd; right; done.
Qed.

(** A cell of the moved body is none of the other cells involved. *)
Lemma inline_moved z : z ∈ m.*1 -> z <> p /\ z <> before /\ z <> after /\ z <> gr.
Proof using HI.
  intros Hz. destruct inline_distinct as [_ Hd]. destruct (Hd z ltac:(right; done)) as [H1 H2]. split; [done|].
  pose proof (left_in gd l1) as HLa. pose proof (right_in gd l2) as HRb. rewrite fmap_app in H2.
  split; [intros ->; set_solver +H2 HLa|]. split; [intros ->; set_solver +H2 HRb|].
  pose proof (ring_nodup _ _ _ (rep_shape g B (il_rep _ _ _ _ _ _ _ _ _ _ HI)) _ _ _
    (il_rbody _ _ _ _ _ _ _ _ _ _ HI) (il_rring _ _ _ _ _ _ _ _ _ _ HI)) as HN.
  apply NoDup_cons in HN as [HN _]. intros ->. done.
Qed.

Lemma inline_relinked : relinked N1 N' before after [p] m.*1.
Proof using HI.
  pose proof inline_distinct as [[Hap Hbp] _]. pose proof inline_in as [Hfm Hlm].
  pose proof (inline_moved _ Hfm) as (Hfp & Hfa & Hfb & _). pose proof (inline_moved _ Hlm) as (Hlp & Hla & Hlb & _).
  pose proof inline_views as HV. pose proof inline_moved as Hz4.
  destruct HI as [HR HB Hx Hne HM Hr Hm _]. pose proof (ring_nodup _ _ _ (rep_shape g B HR) _ _ _ HM Hr) as HN.
  apply NoDup_cons in HN as [_ HN].
  assert (is_Some (tag (nodes g) gr)) as Tg by (rewrite (ring_guard _ _ _ _ _ Hr); eauto). constructor.
  - apply (chain_retarget (nodes g) N' gr m.*1); [destruct m; done|done|apply (ring_chain _ _ _ _ _ Hr)| | | | | |].
    + destruct (HV before Hap) as (-> & _). rewrite decide_False, decide_True by done. done.
    + destruct (HV first Hfp) as (_ & -> & _). rewrite decide_False, decide_True by done. done.
    + destruct (HV last Hlp) as (-> & _). rewrite decide_True by done. done.
    + destruct (HV after Hbp) as (_ & -> & _). rewrite decide_True by done. done.
    + intros z Hz Hl. destruct (Hz4 z Hz) as (Hp & Ha & Hb & Hg). destruct (HV z Hp) as (-> & _).
      rewrite !decide_False by done. rewrite nxt_link, decide_False; done.
    + intros z Hz Hf. destruct (Hz4 z Hz) as (Hp & Ha & Hb & Hg). destruct (HV z Hp) as (_ & -> & _).
      rewrite !decide_False by done. rewrite prv_link, decide_False; done.
  - intros z Hz Hp Hzm. destruct (HV z ltac:(set_solver +Hp)) as (-> & _). rewrite !decide_False; [done|done|congruence].
  - intros z Hz Hp Hzm. destruct (HV z ltac:(set_solver +Hp)) as (_ & -> & _). rewrite !decide_False; [done|congruence|done].
  - intros z Hp _. destruct (HV z ltac:(set_solver +Hp)) as (_ & _ & ->). rewrite tag_link. done.
Qed.

(** Then it replaces the reference. *)
Lemma inline_shape : shape N' (rules g) (<[r0 := l1 ++ m ++ l2]> (<[r := []]> B)).
Proof using HI.
  pose proof inline_detach as HS1. pose proof inline_relinked as HL. pose proof inline_views as HV.
  pose proof inline_moved as Hz4. destruct HI as [HR HB Hx Hne HM Hr Hm _]. pose proof (rep_shape g B HR) as HS.
  assert (<[r := []]> B !! r0 = Some (l1 ++ [(p, refk r)] ++ l2)) as HB1 by (rewrite lookup_insert_ne by done; done).
  destruct (HS1 _ _ HB1) as [gd1 Hx1]. assert (gd1 = gd) as ->.
  { pose proof (ring_rule _ _ _ _ _ Hx1) as E1. pose proof (ring_rule _ _ _ _ _ Hx) as E2. congruence. }
  apply (shape_edit N1 (rules g) _ HS1 N' r0 l1 [(p, refk r)] l2 m gd HB1 Hx1); [done| |].
  - intros z Hz. split.
    + intros r' l' Hl' Hin. destruct (decide (r = r')) as [<-|Hr'].
      * rewrite lookup_insert_eq in Hl'. injection Hl' as <-. apply elem_of_nil in Hin. done.
      * rewrite lookup_insert_ne in Hl' by done. exact (cell_other _ _ _ HS _ _ _ _ z HM Hl' Hr' Hz Hin).
    + intros k r' Ht. rewrite tag_link in Ht. apply list_elem_of_fmap in Hz as (c & -> & Hc).
      destruct (cell_of _ _ _ HS _ _ _ HM Hc) as [Hc' _]. congruence.
  - rewrite Forall_forall. intros c Hc. destruct (cell_of _ _ _ HS _ _ _ HM Hc) as [Hc1 Hc2]. split; [|done].
    destruct (HV c.1) as (_ & _ & ->); [|done]. apply Hz4. apply list_elem_of_fmap. eauto.
Qed.

(** References after the inlining: those to [r] are gone, the others are as many. *)
Lemma inline_nrefs r' : nrefs (<[r0 := l1 ++ m ++ l2]> (<[r := []]> B)) r' = if decide (r = r') then 0 else nrefs B r'.
Proof using HI.
  destruct HI as [HR HB Hx Hne HM Hr Hm Hs].
  rewrite (nrefs_insert _ r0 (l1 ++ (p, refk r) :: l2)) by (rewrite lookup_insert_ne by done; done).
  rewrite (nrefs_insert _ r m) by done. rewrite !refs_app, !refs_cons. cbn [snd]. rewrite hits_refk.
  change (refs [] r') with 0. case_decide; [subst r'|]; lia.
Qed.

Lemma inline_rule x : rules g !! r = Some x ->
  live g r /\ r <> start g /\ byID g !! id x = Some r /\
  (forall r', live g r' -> r' <> r -> exists i, delete (id x) (byID g) !! i = Some r').
Proof using HI.
  intros Hxr. destruct HI as [HR HB Hx Hne HM Hr Hm Hs].
  assert (live g r) as Hlr by (apply (rep_refs g B HR r0 _ (p, refk r) r HB); [set_solver +|done]). split; [done|].
  destruct (live_rule g B r HR Hlr) as (y & _ & Hy & _ & H1 & H2 & _). rewrite Hxr in Hy. injection Hy as <-.
  split; [done|]. split; [done|]. intros r' [i Hi] Hr'. exists i. rewrite lookup_delete_ne; congruence.
Qed.

(** A recorded digram that is not dropped survives, inside the moved body too. *)
Lemma inline_occurs q k : occurs B q k -> q <> before -> q <> p ->
  occurs (<[r0 := l1 ++ m ++ l2]> (<[r := []]> B)) q k.
Proof using HI.
  destruct HI as [HR HB Hx Hne HM Hr Hm Hs]. intros (r' & m1 & q2 & m2 & Hl) Hb Hp.
  destruct (decide (r = r')) as [<-|Hr'].
  - rewrite HM in Hl. injection Hl as ->. exists r0, (l1 ++ m1), q2, (m2 ++ l2).
    rewrite lookup_insert_eq, <- !app_assoc. done.
  - apply (occurs_edit _ r0 l1 [(p, refk r)] l2 m gd); [rewrite lookup_insert_ne by done; done| |done|set_solver +Hp].
    exists r', m1, q2, m2. rewrite lookup_insert_ne by done. done.
Qed.

Lemma inline_rep x ix : rules g !! r = Some x -> ix ⊆ index g ->
  unindexed (set_index ix g) before -> unindexed (set_index ix g) p ->
  rep (mkGram N' (alter (ruleUses (fun _ => 0)) r (rules g)) (fresh g) (start g) (delete (id x) (byID g)) ix (nextID g)
         (utilitySweeps g)) (<[r0 := l1 ++ m ++ l2]> (<[r := []]> B)).
Proof using HI.
  intros Hxr Hix Ub Up. destruct (inline_rule x Hxr) as (Hlr & Hrs & Hrid & Hlive).
  pose proof inline_shape as HS'. pose proof inline_nrefs as Hnr. pose proof inline_occurs as Hocc.
  destruct HI as [HR HB Hx Hne HM Hr Hm Hs]. pose proof (owner_live g B r0 _ HR HB ltac:(destruct l1; done)) as Hown.
  pose proof (same_rules_alter (fun _ => 0) r (rules g)) as HSR.
  set (B' := <[r0 := l1 ++ m ++ l2]> (<[r := []]> B)) in *.
  assert (forall r', is_Some (B !! r') -> is_Some (B' !! r')) as Hdom.
  { intros r' Hr'. unfold B'. rewrite !lookup_insert_is_Some'. auto. }
  pose proof HR as [H1 H2 H3 H4 H5 H6 H7 H8 H9]. constructor; cbn.
  - eapply shape_rules; done.
  - intros r' [i Hi]. cbn in Hi. apply lookup_delete_Some in Hi as [_ Hi]. apply Hdom, H2. eexists; done.
  - intros q Hq. unfold inlined, linkN. rewrite !lookup_alter_None. auto.
  - intros r' Hr'. eapply same_rules_none; eauto.
  - auto.
  - intros i r' Hi. apply lookup_delete_Some in Hi as [_ Hi]. destruct (H6 i r' Hi) as (y & Hy & <- & Hrest).
    destruct (same_rules_some _ _ _ _ HSR Hy) as (y' & Hy' & Ei & _). exists y'. rewrite Ei. done.
  - intros r1 l Hl Hs1 Hd. unfold B' in Hl. destruct (decide (r0 = r1)) as [<-|Hr01].
    { destruct Hd. destruct Hown as [?|Hown]; [done|]. apply Hlive; congruence. }
    rewrite lookup_insert_ne in Hl by done. destruct (decide (r = r1)) as [<-|Hr1].
    { rewrite lookup_insert_eq in Hl. congruence. }
    rewrite lookup_insert_ne in Hl by done. apply (H7 r1 l Hl Hs1). intros Hlv. apply Hd, Hlive; congruence.
  - intros r1 l c r2 Hl Hc Hk. apply Hlive.
    + unfold B' in Hl. destruct (decide (r0 = r1)) as [<-|Hr01].
      * rewrite lookup_insert_eq in Hl. injection Hl as <-. rewrite !elem_of_app in Hc. destruct Hc as [Hc|[Hc|Hc]];
          [apply (H8 r0 _ c r2 HB)|apply (H8 r _ c r2 HM)|apply (H8 r0 _ c r2 HB)]; done || set_solver +Hc.
      * rewrite lookup_insert_ne in Hl by done. destruct (decide (r = r1)) as [<-|Hr1].
        { rewrite lookup_insert_eq in Hl. injection Hl as <-. apply elem_of_nil in Hc. done. }
        rewrite lookup_insert_ne in Hl by done. eapply H8; eauto.
    + intros ->. specialize (Hnr r). rewrite decide_True in Hnr by done.
      assert (1 <= nrefs B' r) by (apply nrefs_pos; eauto 10). lia.
  - intros k q Hk. apply Hocc; [eapply H9, lookup_weaken; done| |]; intros ->; [eapply Ub|eapply Up]; eauto.
Qed.

Lemma inline_spec : exists x g', rules g !! r = Some x /\ inline p g = Ret (before, last) g' /\
  rep g' (<[r0 := l1 ++ m ++ l2]> (<[r := []]> B)) /\ start g' = start g /\ nextID g' = nextID g /\
  fresh g' = fresh g /\ byID g !! id x = Some r /\ byID g' = delete (id x) (byID g) /\
  same_rules (rules g) (rules g') /\
  (exact g B -> exact g' (<[r0 := l1 ++ m ++ l2]> (<[r := []]> B))).
Proof using HI.
  destruct inline_eq as (x & ix & Hxr & Hix & Ub & Up & E). eexists x, _. split; [done|]. split; [exact E|].
  split; [apply inline_rep; done|]. cbn. repeat (split; [done|]). split; [apply (inline_rule x Hxr)|]. split; [done|].
  split; [apply same_rules_alter|]. intros He r' Hin. rewrite inline_nrefs. unfold usesOf. cbn.
  destruct (decide (r = r')) as [<-|Hr'].
  - rewrite lookup_alter_eq, Hxr. done.
  - rewrite lookup_alter_ne by done. apply He. rewrite !lookup_insert_is_Some' in Hin.
    destruct Hin as [<-|[<-|Hin]]; [rewrite (il_body _ _ _ _ _ _ _ _ _ _ HI); eauto|done|done].
Qed.

End inline.
