(* ===== verification/SeqCascade.v ===== *)
(** The cascade of [check], [match], [substitute] and [expandRef]: from a well-formed grammar it
    terminates without a crash, within the fuel given by the measure [mu], in a well-formed grammar
    with the same expansion of the start rule. *)

From S2P Require Import Prelude Strconv Sequitur SeqInv SeqSplice.

(** ** The meaning of a grammar *)

(** Expansions of the rules: what each symbol and each body stand for. *)
Definition symE (E : rptr -> list Symbol) (k : symKey) : list Symbol :=
  match kref k with Some r => E r | None => [kval k] end.
Definition sem (E : rptr -> list Symbol) (l : list cell) : list Symbol := concat ((fun c => symE E c.2) <$> l).
Definition solves (B : bodies) (E : rptr -> list Symbol) : Prop := forall r l, B !! r = Some l -> E r = sem E l.

(** Acyclicity, by a rank that decreases along references. *)
Definition symRank (rk : rptr -> nat) (k : symKey) : nat := match kref k with Some r => rk r | None => 0 end.
Definition ranked (B : bodies) (rk : rptr -> nat) : Prop :=
  forall r l c, B !! r = Some l -> c ∈ l -> (symRank rk c.2 < rk r)%nat.

Lemma sem_app E l1 l2 : sem E (l1 ++ l2) = sem E l1 ++ sem E l2.
Proof. unfold sem. rewrite fmap_app, concat_app. done. Qed.

Lemma sem_cons E c l : sem E (c :: l) = symE E c.2 ++ sem E l.
Proof. done. Qed.

Lemma sem_ext E E' l : (forall c r, c ∈ l -> kref c.2 = Some r -> E' r = E r) -> sem E' l = sem E l.
Proof.
  induction l as [|c l IH]; intros H; [done|]. rewrite !sem_cons, IH.
  - f_equal. unfold symE. destruct (kref c.2) eqn:Ek; [|done]. eapply H; [left|done].
  - intros d r Hd. apply H. right. done.
Qed.

(** An acyclic grammar has at most one meaning. *)
Lemma solves_unique B rk E E' r : ranked B rk -> solves B E -> solves B E' ->
  (forall r l c r', B !! r = Some l -> c ∈ l -> kref c.2 = Some r' -> is_Some (B !! r')) ->
  is_Some (B !! r) -> E r = E' r.
Proof.
  intros Hrk HE HE' Hcl. assert (forall n r, (rk r < n)%nat -> is_Some (B !! r) -> E r = E' r) as H; [|eauto].
  intros n. induction n as [|n IH]; intros r' Hn [l Hl]; [lia|]. rewrite (HE r' l Hl), (HE' r' l Hl). apply sem_ext.
  intros c r1 Hc Hk. apply IH; [|eauto]. pose proof (Hrk r' l c Hl Hc) as H. unfold symRank in H. rewrite Hk in H. lia.
Qed.

(** The rank of a rule whose body is a pair can be lowered below every other rule with that pair. *)
Lemma rerank B rk r c1 k1 c2 k2 : ranked B rk -> B !! r = Some [(c1, k1); (c2, k2)] -> exists rk', ranked B rk' /\
  forall r0 l d1 d2, B !! r0 = Some l -> r0 <> r -> (d1, k1) ∈ l -> (d2, k2) ∈ l -> (rk' r < rk' r0)%nat.
Proof.
  intros Hrk Hr. remember (Nat.max (symRank rk k1) (symRank rk k2)) as mx eqn:Hmx.
  assert (symRank rk k1 < rk r)%nat as H1 by (apply (Hrk r _ (c1, k1) Hr); set_solver +).
  assert (symRank rk k2 < rk r)%nat as H2 by (apply (Hrk r _ (c2, k2) Hr); set_solver +).
  exists (fun x => if decide (x = r) then 2 * mx + 1 else 2 * rk x)%nat. split.
  - intros x l c Hl Hc. pose proof (Hrk x l c Hl Hc) as H. unfold symRank in H |- *.
    destruct (decide (x = r)) as [->|Hne].
    + rewrite Hr in Hl. injection Hl as <-. assert (symRank rk c.2 <= mx)%nat as Hm.
      { rewrite !elem_of_cons in Hc. destruct Hc as [->|[->|Hc]]; [cbn [snd]; lia|cbn [snd]; lia|]. apply elem_of_nil in Hc. done. }
      unfold symRank in Hm. destruct (kref c.2) as [y|]; [|lia]. case_decide; [subst; lia|lia].
    + destruct (kref c.2) as [y|]; [|lia]. case_decide; [subst; lia|lia].
  - intros r0 l d1 d2 Hl Hne Hd1 Hd2. pose proof (Hrk r0 l _ Hl Hd1). pose proof (Hrk r0 l _ Hl Hd2). cbn in *.
    rewrite decide_True, decide_False by done. lia.
Qed.

(** ** The invariant *)

Record inv (g : gram) (B : bodies) (E : rptr -> list Symbol) : Prop := {
  inv_rep : rep g B;
  inv_exact : exact g B;
  inv_nonempty : forall r, live g r -> B !! r <> Some [];
  inv_solves : solves B E;
  inv_acyclic : exists rk, ranked B rk;
  inv_next : 1 <= nextID g }.

(** Every rule is referenced. *)
Definition useful (g : gram) (B : bodies) : Prop := forall r, live g r -> 1 <= nrefs B r.

(** Twice the cells less the rules: each fold and each inlining lowers it. *)
Definition mu (g : gram) (B : bodies) : Z := 2 * Z.of_nat (length (cells B)) - Z.of_nat (size (byID g)).

Lemma rules_le_cells g B : rep g B -> useful g B -> (size (byID g) <= length (cells B))%nat.
Proof.
  intros HR HU. set (rs := (map_to_list (byID g)).*2).
  assert (size (byID g) = length (Some <$> rs)) as -> by (unfold rs; rewrite !length_fmap, length_map_to_list; done).
  rewrite <- (length_fmap (fun c : cell => kref c.2) (cells B)).
  apply submseteq_length, NoDup_submseteq.
  - apply NoDup_fmap; [intros a b [= ->]; done|]. unfold rs. apply NoDup_fmap_2_strong; [|apply NoDup_map_to_list].
    intros [i r] [j r'] Hi Hj E. cbn in E. subst r'. apply elem_of_map_to_list in Hi, Hj.
    destruct (rep_byid g B HR _ _ Hi) as (x & Hx & <- & _). destruct (rep_byid g B HR _ _ Hj) as (y & Hy & <- & _). congruence.
  - intros o Ho. apply list_elem_of_fmap in Ho as (r & -> & Hr). unfold rs in Hr.
    apply list_elem_of_fmap in Hr as ([i r'] & -> & Hr). apply elem_of_map_to_list in Hr. cbn.
    destruct (proj1 (nrefs_pos B r') (HU r' (ex_intro _ i Hr))) as (r1 & l & c & Hl & Hc & Hk).
    apply list_elem_of_fmap. exists c. split; [done|]. apply elem_of_cells. eauto.
Qed.

Lemma mu_cells g B : rep g B -> useful g B -> Z.of_nat (length (cells B)) <= mu g B.
Proof. intros HR HU. pose proof (rules_le_cells g B HR HU). unfold mu. lia. Qed.

Lemma cells_length_insert B r l l' : B !! r = Some l ->
  (length (cells (<[r := l']> B)) + length l = length (cells B) + length l')%nat.
Proof. intros H. rewrite (cells_insert B r l'), (cells_split B r l H), !length_app. lia. Qed.

Lemma cells_length_new B r l : B !! r = None -> length (cells (<[r := l]> B)) = (length l + length (cells B))%nat.
Proof. intros H. rewrite (cells_insert B r l), (delete_id _ _ H), length_app. done. Qed.

(** ** One fold and one inlining, on the invariant *)

Lemma hits_cases k r : (kref k = Some r /\ hits k r = 1) \/ (kref k <> Some r /\ hits k r = 0).
Proof. unfold hits. case_decide; auto. Qed.

Section fold.
Context (g : gram) (B : bodies) (E : rptr -> list Symbol) (HI : inv g B E).
Context (r0 r : rptr) (l1 l2 : list cell) (n s : ptr) (k1 k2 : symKey) (c1 c2 : ptr).
Context (HB : B !! r0 = Some (l1 ++ (n, k1) :: (s, k2) :: l2)).
Context (HBr : B !! r = Some [(c1, k1); (c2, k2)]) (Hne : r <> r0).

Lemma fold_solves p : solves (<[r0 := l1 ++ (p, refk r) :: l2]> B) E.
Proof using HI HB HBr.
  pose proof (inv_solves g B E HI) as HE. intros r' l Hl. destruct (decide (r0 = r')) as [<-|Hr'].
  - rewrite lookup_insert_eq in Hl. injection Hl as <-. rewrite (HE r0 _ HB), !sem_app, !sem_cons. cbn [snd].
    change (symE E (refk r)) with (E r). rewrite (HE r _ HBr), !sem_cons. cbn [snd]. rewrite app_nil_r, <- app_assoc. done.
  - rewrite lookup_insert_ne in Hl by done. apply HE. done.
Qed.

Lemma fold_acyclic p : exists rk, ranked (<[r0 := l1 ++ (p, refk r) :: l2]> B) rk.
Proof using HI HB HBr Hne.
  destruct (inv_acyclic g B E HI) as [rk0 Hrk0]. destruct (rerank B rk0 r c1 k1 c2 k2 Hrk0 HBr) as (rk & Hrk & Hlow).
  exists rk. intros r' l c Hl Hc. destruct (decide (r0 = r')) as [<-|Hr'].
  - rewrite lookup_insert_eq in Hl. injection Hl as <-. apply elem_of_app in Hc as [Hc|Hc%elem_of_cons].
    + apply (Hrk r0 _ c HB). set_solver +Hc.
    + destruct Hc as [->|Hc]; [|apply (Hrk r0 _ c HB); set_solver +Hc]. cbn.
      apply (Hlow r0 _ n s HB); [done|set_solver +|set_solver +].
  - rewrite lookup_insert_ne in Hl by done. eapply Hrk; eauto.
Qed.

Lemma fold_useful p r' : (r' <> r -> 1 <= nrefs B r') -> 1 <= nrefs (<[r0 := l1 ++ (p, refk r) :: l2]> B) r'.
Proof using HB HBr Hne.
  intros Hu. destruct (decide (r' = r)) as [->|Hr'].
  - apply nrefs_pos. exists r0, (l1 ++ (p, refk r) :: l2), (p, refk r). rewrite lookup_insert_eq. split; [done|].
    split; [set_solver +|done].
  - assert (forall c, c ∈ [(c1, k1); (c2, k2)] -> kref c.2 = Some r' ->
      1 <= nrefs (<[r0 := l1 ++ (p, refk r) :: l2]> B) r') as Hin.
    { intros c Hc Hk. apply nrefs_pos. exists r, [(c1, k1); (c2, k2)], c. rewrite lookup_insert_ne by done. done. }
    destruct (hits_cases k1 r') as [[Hk _]|[_ H1]]; [apply (Hin (c1, k1)); [set_solver +|done]|].
    destruct (hits_cases k2 r') as [[Hk _]|[_ H2]]; [apply (Hin (c2, k2)); [set_solver +|done]|].
    rewrite (nrefs_insert _ _ _ _ _ HB), !refs_app, !refs_cons. cbn [snd]. rewrite H1, H2, hits_refk.
    specialize (Hu Hr'). case_decide; [congruence|lia].
Qed.

Lemma fold_spec gd : ring (nodes g) (rules g) r0 (l1 ++ (n, k1) :: (s, k2) :: l2) gd -> live g r ->
  (forall r', live g r' -> r' <> r -> 1 <= nrefs B r') -> exists p g',
    splice n r g = Ret (left gd l1, p) g' /\ inv g' (<[r0 := l1 ++ (p, refk r) :: l2]> B) E /\
    useful g' (<[r0 := l1 ++ (p, refk r) :: l2]> B) /\ kept g g' /\ index g' ⊆ index g /\
    unindexed g' (left gd l1) /\ unindexed g' p /\
    mu g' (<[r0 := l1 ++ (p, refk r) :: l2]> B) = mu g B - 2.
Proof using HI HB HBr Hne.
  intros Hx Hr Hu. pose proof (inv_rep g B E HI) as HR.
  destruct (splice_spec g B r0 l1 n k1 s k2 l2 gd r HR HB Hx Hr) as (p & g' & Es & R' & K & Hix & Ul & Up & Hex).
  exists p, g'. split; [done|]. split; [|split; [|do 4 (split; [done|])]].
  - constructor; [done|apply Hex, HI| |apply fold_solves|apply fold_acyclic|rewrite (kept_nextID _ _ K); apply HI].
    intros r' Hr'. apply (kept_live g g') in Hr'; [|done]. destruct (decide (r0 = r')) as [<-|Hr0].
    + rewrite lookup_insert_eq. destruct l1; done.
    + rewrite lookup_insert_ne by done. apply (inv_nonempty g B E HI). done.
  - intros r' Hr'. apply (kept_live g g') in Hr'; [|done]. apply fold_useful. auto.
  - unfold mu. rewrite (kept_byID _ _ K). pose proof (cells_length_insert B r0 _ (l1 ++ (p, refk r) :: l2) HB) as HL.
    rewrite !length_app in HL. cbn [length] in HL. lia.
Qed.

End fold.

(** Undoing a rule with a single use. *)
Section unfold.
Context (g : gram) (B : bodies) (E : rptr -> list Symbol) (HI : inv g B E) (HU : useful g B).
Context (r0 r : rptr) (l1 l2 : list cell) (p gd : ptr).
Context (HB : B !! r0 = Some (l1 ++ (p, refk r) :: l2)).
Context (Hx : ring (nodes g) (rules g) r0 (l1 ++ (p, refk r) :: l2) gd) (H1 : usesOf g r = 1).

Lemma unfold_inlinable : exists m gr, inlinable g B r0 r l1 l2 m p gd gr.
Proof using HI HB Hx H1.
  pose proof (inv_rep g B E HI) as HR.
  assert (live g r) as Hlr by (apply (rep_refs g B HR r0 _ (p, refk r) r HB); [set_solver +|done]).
  destruct (live_rule g B r HR Hlr) as (x & m & _ & Hm & _). destruct (rep_shape g B HR _ _ Hm) as [gr Hr].
  exists m, gr. constructor; try done.
  - intros ->. destruct (inv_acyclic g B E HI) as [rk Hrk]. specialize (Hrk r _ (p, refk r) HB ltac:(set_solver +)).
    cbn in Hrk. lia.
  - intros ->. apply (inv_nonempty g B E HI r Hlr). done.
  - rewrite <- H1. symmetry. apply (inv_exact g B E HI). eauto.
Qed.

(** The bodies and the meaning after the inlining of [m]. *)
Definition inlinedB (m : list cell) : bodies := <[r0 := l1 ++ m ++ l2]> (<[r := []]> B).
Definition inlinedE : rptr -> list Symbol := fun r' => if decide (r' = r) then [] else E r'.

Lemma unfold_lookup m r' l : r0 <> r -> inlinedB m !! r' = Some l ->
  (r' = r0 /\ l = l1 ++ m ++ l2) \/ (r' = r /\ l = []) \/ (r' <> r0 /\ r' <> r /\ B !! r' = Some l).
Proof using.
  intros Hne Hl. unfold inlinedB in Hl. destruct (decide (r0 = r')) as [<-|Hr0].
  - rewrite lookup_insert_eq in Hl. injection Hl as <-. auto.
  - rewrite lookup_insert_ne in Hl by done. destruct (decide (r = r')) as [<-|Hr'].
    + rewrite lookup_insert_eq in Hl. injection Hl as <-. auto.
    + rewrite lookup_insert_ne in Hl by done. auto 10.
Qed.

Lemma unfold_gone m gr r' l c : inlinable g B r0 r l1 l2 m p gd gr -> inlinedB m !! r' = Some l -> c ∈ l -> kref c.2 <> Some r.
Proof using.
  intros HL Hl Hc Hk. pose proof (inline_nrefs _ _ _ _ _ _ _ _ _ _ HL r) as Hnr. rewrite decide_True in Hnr by done.
  assert (1 <= nrefs (inlinedB m) r) as H by (apply nrefs_pos; eauto 10). unfold inlinedB in H. lia.
Qed.

Lemma unfold_solves m gr : inlinable g B r0 r l1 l2 m p gd gr -> solves (inlinedB m) inlinedE.
Proof using HI HB.
  intros HL r' l Hl. pose proof (inv_solves g B E HI) as HE.
  rewrite (sem_ext E inlinedE).
  2: { intros c r1 Hc Hk. unfold inlinedE. rewrite decide_False; [done|]. intros ->. eapply unfold_gone; done. }
  unfold inlinedE. destruct HL as [HR _ _ Hne HM _ _ _].
  apply (unfold_lookup m r' l Hne) in Hl as [[-> ->]|[[-> ->]|(Hr0 & Hr & Hl)]].
  - rewrite decide_False by done. rewrite (HE r0 _ HB), !sem_app, !sem_cons. cbn [snd].
    change (symE E (refk r)) with (E r). rewrite (HE r _ HM). done.
  - rewrite decide_True by done. done.
  - rewrite decide_False by done. apply HE. done.
Qed.

Lemma unfold_acyclic m gr : inlinable g B r0 r l1 l2 m p gd gr -> exists rk, ranked (inlinedB m) rk.
Proof using HI HB.
  intros [HR _ _ Hne HM _ _ _]. destruct (inv_acyclic g B E HI) as [rk Hrk]. exists rk. intros r' l c Hl Hc.
  apply (unfold_lookup m r' l Hne) in Hl as [[-> ->]|[[-> ->]|(Hr0 & Hr & Hl)]]; [| |eapply Hrk; eauto].
  - rewrite !elem_of_app in Hc. destruct Hc as [Hc|[Hc|Hc]];
      [apply (Hrk r0 _ c HB); set_solver +Hc| |apply (Hrk r0 _ c HB); set_solver +Hc].
    specialize (Hrk r0 _ (p, refk r) HB ltac:(set_solver +)) as Hlt. cbn in Hlt. specialize (Hrk r m c HM Hc). lia.
  - apply elem_of_nil in Hc. done.
Qed.

Lemma unfold_mu m g' x : r0 <> r -> B !! r = Some m -> byID g !! id x = Some r -> byID g' = delete (id x) (byID g) ->
  mu g' (inlinedB m) = mu g B - 1.
Proof using HB.
  intros Hne HM Hid Hby. unfold mu. rewrite Hby. pose proof (cells_length_insert B r m [] HM) as L1.
  pose proof (cells_length_insert (<[r := []]> B) r0 (l1 ++ (p, refk r) :: l2) (l1 ++ m ++ l2)
    ltac:(rewrite lookup_insert_ne by done; done)) as L2. fold (inlinedB m) in L2.
  pose proof (map_size_delete_Some (id x) (byID g) (ex_intro _ r Hid)) as L3.
  assert (size (byID g) <> 0%nat) as L4 by (intros L4; apply map_size_empty_inv in L4; rewrite L4 in Hid; done).
  rewrite !length_app in L2. cbn [length] in *. lia.
Qed.

Lemma unfold_spec : exists m g', m <> [] /\ B !! r = Some m /\ inline p g = Ret (left gd l1, left gd (l1 ++ m)) g' /\
  inv g' (inlinedB m) inlinedE /\ useful g' (inlinedB m) /\ inlinedE (start g) = E (start g) /\
  start g' = start g /\ nextID g' = nextID g /\ mu g' (inlinedB m) = mu g B - 1 /\
  ring (nodes g') (rules g') r0 (l1 ++ m ++ l2) gd.
Proof using HI HU HB Hx H1.
  destruct unfold_inlinable as (m & gr & HL). pose proof (inline_nrefs _ _ _ _ _ _ _ _ _ _ HL) as Hnr.
  destruct (inline_spec _ _ _ _ _ _ _ _ _ _ HL) as (x & g' & Hxr & Es & R' & Hst & Hnx & Hfr & Hid & Hby & HSR & Hex).
  pose proof (inline_rule _ _ _ _ _ _ _ _ _ _ HL x Hxr) as (Hlr & Hrs & _ & _).
  pose proof (unfold_solves m gr HL) as HS. pose proof (unfold_acyclic m gr HL) as HA.
  destruct HL as [HR _ _ Hne HM Hr Hm _].
  assert (forall r', live g' r' -> live g r' /\ r' <> r) as Hlive.
  { intros r' [i Hi]. rewrite Hby in Hi. apply lookup_delete_Some in Hi as [Hni Hi]. split; [eexists; eauto|].
    intros ->. destruct (rep_byid g B HR _ _ Hi) as (y & Hy & <- & _). congruence. }
  assert (left gr m = left gd (l1 ++ m)) as El.
  { clear -Hm. destruct m as [|c t _] using rev_ind; [done|]. rewrite (app_assoc l1 t [c]), !left_snoc. done. }
  rewrite El in Es. exists m, g'. split; [done|]. split; [done|]. split; [exact Es|].
  split; [|split; [|split; [unfold inlinedE; rewrite decide_False by done; done|
    split; [done|split; [done|split; [eapply unfold_mu; done|]]]]]].
  - constructor; [done|apply Hex, HI| |done|done|rewrite Hnx; apply HI].
    intros r' Hr' Hl. apply Hlive in Hr' as [Hr' Hn].
    apply (unfold_lookup m r' [] Hne) in Hl as [[-> El0]|[[-> _]|(_ & _ & Hl)]]; [|done|].
    + symmetry in El0. apply app_nil in El0 as [_ El0]. apply app_nil in El0 as [El0 _]. done.
    + apply (inv_nonempty g B E HI r'); done.
  - intros r' Hr'. apply Hlive in Hr' as [Hr' Hn]. unfold inlinedB. rewrite Hnr, decide_False by done. auto.
  - eapply ring_kept; [done|exact Hx|exact R'|apply lookup_insert_eq].
Qed.

End unfold.

(** ** What a cascade guarantees *)

Record evolves (g : gram) (B : bodies) (E : rptr -> list Symbol) (g' : gram) (B' : bodies) (E' : rptr -> list Symbol) : Prop := {
  ev_inv : inv g' B' E';
  ev_useful : useful g' B';
  ev_start : start g' = start g;
  ev_sem : E' (start g) = E (start g);
  ev_mu : mu g' B' <= mu g B;
  ev_next : nextID g' + mu g' B' <= nextID g + mu g B;
  ev_dom : forall r, is_Some (B !! r) -> is_Some (B' !! r) }.

Lemma evolves_trans g1 B1 E1 g2 B2 E2 g3 B3 E3 :
  evolves g1 B1 E1 g2 B2 E2 -> evolves g2 B2 E2 g3 B3 E3 -> evolves g1 B1 E1 g3 B3 E3.
Proof.
  intros [] []. constructor; try done; [congruence|congruence|lia|lia|auto].
Qed.

(** A cell or a guard: the left neighbour of some cut. *)
Definition place (g : gram) (B : bodies) (p : ptr) : Prop :=
  exists r l1 l2 gd, B !! r = Some (l1 ++ l2) /\ ring (nodes g) (rules g) r (l1 ++ l2) gd /\ p = left gd l1.

Lemma place_left g B r l1 l2 gd : B !! r = Some (l1 ++ l2) -> ring (nodes g) (rules g) r (l1 ++ l2) gd -> place g B (left gd l1).
Proof. intros. exists r, l1, l2, gd. done. Qed.

Lemma place_cell g B r l1 c l2 gd : B !! r = Some (l1 ++ c :: l2) -> ring (nodes g) (rules g) r (l1 ++ c :: l2) gd -> place g B c.1.
Proof.
  intros HB Hx. exists r, (l1 ++ [c]), l2, gd. rewrite <- app_assoc, left_snoc. done.
Qed.

Lemma inv_set_index g B E ix : inv g B E -> (forall k p, ix !! k = Some p -> occurs B p k) -> inv (set_index ix g) B E.
Proof. intros [] H. constructor; try done. apply rep_set_index; done. Qed.

Lemma evolves_index g B E ix : inv g B E -> useful g B -> (forall k p, ix !! k = Some p -> occurs B p k) ->
  evolves g B E (set_index ix g) B E.
Proof. intros HI HU H. constructor; try done. apply inv_set_index; done. Qed.

(** What [check] promises with fuel [f]: it returns, the grammar evolves, and an answer of [false] means that
    only the index changed. *)
Definition check_ok (chk : ptr -> M bool) (f : nat) : Prop := forall g B E p,
  inv g B E -> useful g B -> place g B p -> mu g B < Z.of_nat f -> nextID g + mu g B < 2 ^ 63 ->
  exists b g' B' E', chk p g = Ret b g' /\ evolves g B E g' B' E' /\
    (b = false -> B' = B /\ exists ix, g' = set_index ix g).

Section cascade.
Context (chk : ptr -> M bool) (f : nat) (HC : check_ok chk f).

Lemma offer_spec g B E a b : inv g B E -> useful g B -> place g B a -> place g B b ->
  mu g B < Z.of_nat f -> nextID g + mu g B < 2 ^ 63 -> exists g' B' E',
    offer chk a b g = Ret tt g' /\ evolves g B E g' B' E'.
Proof using HC.
  intros HI HU Ha Hb Hm Hn. destruct (HC g B E a HI HU Ha Hm Hn) as (c & g1 & B1 & E1 & Ec & V1 & Hf).
  unfold offer. run Ec. destruct c; [eauto 10|]. destruct (Hf eq_refl) as [-> [ix ->]].
  destruct (HC (set_index ix g) B E1 b) as (c & g2 & B2 & E2 & Ec2 & V2 & _); [apply V1|apply V1|done|apply Hm|apply Hn|].
  run Ec2. exists g2, B2, E2. split; [done|]. eapply evolves_trans; done.
Qed.

(** [substitute] on a pair that is the body of [r]. *)
Lemma substitute_spec g B E r0 r l1 l2 n s k1 k2 c1 c2 : inv g B E ->
  B !! r0 = Some (l1 ++ (n, k1) :: (s, k2) :: l2) -> B !! r = Some [(c1, k1); (c2, k2)] -> r <> r0 -> live g r ->
  (forall r', live g r' -> r' <> r -> 1 <= nrefs B r') -> mu g B - 2 < Z.of_nat f -> nextID g + mu g B - 2 < 2 ^ 63 ->
  exists g' B' E', substitute chk n r g = Ret tt g' /\ inv g' B' E' /\ useful g' B' /\ start g' = start g /\
    E' (start g) = E (start g) /\ mu g' B' <= mu g B - 2 /\ nextID g' + mu g' B' <= nextID g + mu g B - 2 /\
    (forall r, is_Some (B !! r) -> is_Some (B' !! r)).
Proof using HC.
  intros HI HB HBr Hne Hlr Hu Hm Hn. destruct (rep_shape g B (inv_rep g B E HI) _ _ HB) as [gd Hx].
  destruct (fold_spec g B E HI r0 r l1 l2 n s k1 k2 c1 c2 HB HBr Hne gd Hx Hlr Hu)
    as (p & g1 & Es & HI1 & HU1 & K & _ & _ & _ & Hmu). set (B1 := <[r0 := l1 ++ (p, refk r) :: l2]> B) in *.
  assert (B1 !! r0 = Some (l1 ++ (p, refk r) :: l2)) as HB1 by apply lookup_insert_eq.
  pose proof (ring_kept g g1 B1 r0 _ _ gd (kept_rules _ _ K) Hx (inv_rep _ _ _ HI1) HB1) as Hx1.
  destruct (offer_spec g1 B1 E (left gd l1) p HI1 HU1) as (g2 & B2 & E2 & Eo & [HI2 HU2 Hs Hsem Hmu2 Hn2 Hd]).
  { eapply place_left; done. } { apply (place_cell g1 B1 r0 l1 (p, refk r) l2 gd); done. }
  { lia. } { rewrite (kept_nextID _ _ K). lia. }
  unfold substitute. run Es. cbn [fst snd]. exists g2, B2, E2. rewrite (kept_nextID _ _ K) in Hn2.
  rewrite (kept_start _ _ K) in Hs, Hsem. split; [done|]. do 4 (split; [done|]). split; [lia|]. split; [lia|].
  intros r' Hr'. apply Hd. unfold B1. apply lookup_insert_is_Some'. auto.
Qed.

(** [expandRef] at the last reference of a rule. *)
Lemma expandRef_spec g B E r0 r l1 l2 p : inv g B E -> useful g B -> B !! r0 = Some (l1 ++ (p, refk r) :: l2) ->
  usesOf g r = 1 -> mu g B - 1 < Z.of_nat f -> nextID g + mu g B < 2 ^ 63 -> exists g' B' E',
    expandRef chk p g = Ret tt g' /\ evolves g B E g' B' E' /\ mu g' B' <= mu g B - 1.
Proof using HC.
  intros HI HU HB H1 Hm Hn. destruct (rep_shape g B (inv_rep g B E HI) _ _ HB) as [gd Hx].
  destruct (unfold_spec g B E HI HU r0 r l1 l2 p gd HB Hx H1)
    as (m & g1 & Hne & HM & Ei & HI1 & HU1 & Hse & Hst & Hnx & Hmu & Hx1).
  set (B1 := inlinedB B r0 r l1 l2 m) in *. set (E1 := inlinedE E r) in *.
  assert (B1 !! r0 = Some (l1 ++ m ++ l2)) as HB1 by apply lookup_insert_eq.
  destruct (offer_spec g1 B1 E1 (left gd l1) (left gd (l1 ++ m)) HI1 HU1) as (g2 & B2 & E2 & Eo & V).
  { eapply place_left; done. } { rewrite app_assoc in HB1, Hx1. eapply place_left; done. } { lia. } { lia. }
  unfold expandRef. run Ei. cbn [fst snd]. exists g2, B2, E2. split; [done|]. destruct V. split; [|lia].
  constructor; try done; [congruence|congruence|lia|lia|]. intros r' Hr'. apply ev_dom0. unfold B1, inlinedB.
  rewrite !lookup_insert_is_Some'. auto.
Qed.

End cascade.

(** ** Minting a rule for a pair *)

Lemma loadr_ring g r l gd : ring (nodes g) (rules g) r l gd -> exists x,
  loadr r g = Ret x g /\ rules g !! r = Some x /\ rguard x = gd.
Proof.
  intros Hx. pose proof (ring_rule _ _ _ _ _ Hx) as H. apply fmap_Some in H as (x & H & ->).
  exists x. unfold loadr. rewrite H. done.
Qed.

Lemma guard_next g r l gd : ring (nodes g) (rules g) r l gd -> getNext gd g = Ret (right gd l) g.
Proof. intros Hx. apply getNext_eq. apply (ring_cut _ _ _ [] l gd Hx). Qed.

Section mint.
Context (g : gram) (B : bodies) (E : rptr -> list Symbol) (HI : inv g B E).
Context (r0 : rptr) (l1 l2 : list cell) (n s : ptr) (k1 k2 : symKey).
Context (HB : B !! r0 = Some (l1 ++ (n, k1) :: (s, k2) :: l2)).

Definition mintedE (r : rptr) : rptr -> list Symbol := fun r' => if decide (r' = r) then symE E k1 ++ symE E k2 else E r'.

(** The heap part: a fresh rule whose body is a copy of the pair. *)
Lemma mintPair_rep : nextID g + 1 < 2 ^ 63 -> exists c1 c2 g', let r := fresh g in
  let B' := <[r := [(c1, k1); (c2, k2)]]> B in
  mintPair n g = Ret r g' /\ B !! r = None /\ rep g' B' /\ byID g !! nextID g = None /\
  byID g' = <[nextID g := r]> (byID g) /\ start g' = start g /\ nextID g' = nextID g + 1 /\ index g' = index g /\
  (forall r', usesOf g' r' = usesOf g r' + hits k1 r' + hits k2 r').
Proof using HI HB.
  intros Hn. pose proof (inv_rep g B E HI) as HR.
  destruct (newRule_spec g B HR (inv_next _ _ _ HI) Hn) as (g1 & E1 & R1 & HBr & Hid & Hby & Hst & Hnx & Hix & Hus).
  set (r := fresh g) in *. unfold mintPair. run E1.
  assert (r <> r0) as Hne by congruence.
  assert (<[r := []]> B !! r = Some []) as Hr1 by apply lookup_insert_eq.
  assert (live g1 r) as Hlr by (exists (nextID g); rewrite Hby; apply lookup_insert_eq).
  destruct (rep_shape g1 _ R1 _ _ Hr1) as [gr Hg1]. destruct (loadr_ring _ _ _ _ Hg1) as (x & El & _ & Ex). run El. rewrite Ex.
  destruct (copyOf_spec g1 _ r0 _ n k1 R1 ltac:(rewrite lookup_insert_ne by done; exact HB) ltac:(set_solver +))
    as (c1 & g2 & E2 & R2 & L2 & K2 & I2 & U2 & X2). run E2.
  pose proof (ring_kept g1 g2 _ r _ _ gr (kept_rules _ _ K2) Hg1 R2 Hr1) as Hg2.
  destruct (insertAfter_spec g2 _ r [] [] c1 k1 gr R2 Hr1 Hg2 L2) as (g3 & E3 & R3 & K3 & I3 & _ & V3 & _).
  { right. apply (kept_live g1 g2); done. }
  { exact (guard_unindexed _ _ _ _ _ R2 Hg2). }
  cbn [fmap list_fmap List.last] in E3. run E3. rewrite insert_insert_eq in R3. cbn [app] in R3.
  set (B3 := <[r := [(c1, k1)]]> B) in *. assert (B3 !! r = Some [(c1, k1)]) as Hr3 by apply lookup_insert_eq.
  assert (kept g1 g3) as K13 by (etransitivity; done).
  pose proof (ring_kept g1 g3 _ r _ _ gr (kept_rules _ _ K13) Hg1 R3 Hr3) as Hg3.
  run (guard_next _ _ _ _ Hg3). cbn [fmap list_fmap hd fst].
  assert (B3 !! r0 = Some (l1 ++ (n, k1) :: (s, k2) :: l2)) as HB3 by (unfold B3; rewrite lookup_insert_ne by done; exact HB).
  destruct (rep_shape g3 B3 R3 _ _ HB3) as [gd3 Hx3]. run (getNext_eq _ _ _ (ring_next _ _ _ _ _ _ _ _ Hx3)).
  cbn [fmap list_fmap hd fst].
  destruct (copyOf_spec g3 B3 r0 _ s k2 R3 HB3 ltac:(set_solver +)) as (c2 & g4 & E4 & R4 & L4 & K4 & I4 & U4 & X4). run E4.
  assert (kept g1 g4) as K14 by (etransitivity; done).
  pose proof (ring_kept g1 g4 _ r _ _ gr (kept_rules _ _ K14) Hg1 R4 Hr3) as Hg4.
  destruct (insertAfter_spec g4 B3 r [(c1, k1)] [] c2 k2 gr R4 ltac:(exact Hr3) Hg4 L4) as (g5 & E5 & R5 & K5 & I5 & _ & V5 & _).
  { right. apply (kept_live g1 g4); done. }
  { cbn. apply (unindexed_index g2); [congruence|done]. }
  cbn [fmap list_fmap List.last fst] in E5. run E5. unfold B3 in R5. rewrite insert_insert_eq in R5. cbn [app] in R5.
  assert (kept g1 g5) as K15 by (etransitivity; done).
  exists c1, c2, g5. split; [done|]. split; [done|]. split; [done|]. split; [done|].
  split; [rewrite (kept_byID _ _ K15); done|]. split; [rewrite (kept_start _ _ K15); done|].
  split; [rewrite (kept_nextID _ _ K15); done|]. split; [congruence|].
  intros r'. unfold usesOf at 1. rewrite V5. fold (usesOf g4 r'). rewrite U4. unfold usesOf at 1. rewrite V3.
  fold (usesOf g2 r'). rewrite U2, Hus. lia.
Qed.

Lemma mint_solves r c1 c2 : r = fresh g -> solves (<[r := [(c1, k1); (c2, k2)]]> B) (mintedE r).
Proof using HI HB.
  intros ->. pose proof (inv_rep g B E HI) as HR. intros r' l Hl.
  assert (forall l, (forall c, c ∈ l -> kref c.2 <> Some (fresh g)) -> sem (mintedE (fresh g)) l = sem E l) as Hsem.
  { intros m Hm. apply sem_ext. intros c r1 Hc Hk. unfold mintedE. rewrite decide_False; [done|]. intros ->. eapply Hm; done. }
  assert (forall c, c ∈ l1 ++ (n, k1) :: (s, k2) :: l2 -> kref c.2 <> Some (fresh g)) as Hfr
    by (intros c; apply (fresh_unreferenced g B r0 _ c HR HB)).
  unfold mintedE at 1. destruct (decide (r' = fresh g)) as [->|Hr'].
  - rewrite lookup_insert_eq in Hl. injection Hl as <-. rewrite Hsem.
    + rewrite !sem_cons. cbn [snd]. rewrite app_nil_r. done.
    + intros c Hc. rewrite !elem_of_cons in Hc. destruct Hc as [->|[->|Hc]]; [| |apply elem_of_nil in Hc; done].
      * apply (Hfr (n, k1)). set_solver +.
      * apply (Hfr (s, k2)). set_solver +.
  - rewrite lookup_insert_ne in Hl by done. rewrite Hsem by (intros c; apply (fresh_unreferenced g B r' _ c HR Hl)).
    apply (inv_solves g B E HI). done.
Qed.

Lemma mint_acyclic r c1 c2 : r = fresh g -> exists rk, ranked (<[r := [(c1, k1); (c2, k2)]]> B) rk.
Proof using HI HB.
  intros ->. pose proof (inv_rep g B E HI) as HR. destruct (inv_acyclic g B E HI) as [rk Hrk].
  exists (fun x => if decide (x = fresh g) then S (Nat.max (symRank rk k1) (symRank rk k2)) else rk x).
  assert (forall k, kref k <> Some (fresh g) ->
    symRank (fun x => if decide (x = fresh g) then S (Nat.max (symRank rk k1) (symRank rk k2)) else rk x) k = symRank rk k) as Hk.
  { intros k H. unfold symRank. destruct (kref k) as [y|]; [|done]. rewrite decide_False by congruence. done. }
  intros r' l c Hl Hc. destruct (decide (r' = fresh g)) as [->|Hr'].
  - rewrite lookup_insert_eq in Hl. injection Hl as <-. rewrite !elem_of_cons in Hc.
    destruct Hc as [->|[->|Hc]]; [| |apply elem_of_nil in Hc; done]; cbn [snd]; rewrite Hk; try lia.
    + apply (fresh_unreferenced g B r0 _ (n, k1) HR HB). set_solver +.
    + apply (fresh_unreferenced g B r0 _ (s, k2) HR HB). set_solver +.
  - rewrite lookup_insert_ne in Hl by done. rewrite Hk by apply (fresh_unreferenced g B r' _ c HR Hl Hc). eapply Hrk; done.
Qed.

Lemma mintPair_spec : useful g B -> nextID g + 1 < 2 ^ 63 -> exists c1 c2 g', let r := fresh g in
  let B' := <[r := [(c1, k1); (c2, k2)]]> B in
  mintPair n g = Ret r g' /\ B !! r = None /\ inv g' B' (mintedE r) /\ live g' r /\
  (forall r', live g' r' -> r' <> r -> 1 <= nrefs B' r') /\ start g' = start g /\ nextID g' = nextID g + 1 /\
  index g' = index g /\ mu g' B' = mu g B + 3.
Proof using HI HB.
  intros HU Hn. destruct (mintPair_rep Hn) as (c1 & c2 & g' & Em & HBr & R' & Hid & Hby & Hst & Hnx & Hix & Hus).
  exists c1, c2, g'. cbn zeta. set (r := fresh g) in *. split; [done|]. split; [done|].
  assert (forall r', live g' r' -> r' <> r -> live g r') as Hlive.
  { intros r' [i Hi] Hne. rewrite Hby in Hi. apply lookup_insert_Some in Hi as [[_ <-]|[_ Hi]]; [done|]. eexists; eauto. }
  assert (forall r', nrefs (<[r := [(c1, k1); (c2, k2)]]> B) r' = nrefs B r' + hits k1 r' + hits k2 r') as Hnr.
  { intros r'. rewrite <- (nrefs_new B r r' HBr). rewrite <- (insert_insert_eq B r _ []).
    rewrite (nrefs_insert (<[r := []]> B) r []) by apply lookup_insert_eq. rewrite !refs_cons. cbn. lia. }
  split.
  { constructor; [done| | |apply mint_solves; done|apply mint_acyclic; done|rewrite Hnx; pose proof (inv_next _ _ _ HI); lia].
    - intros r' Hr'. rewrite Hnr, Hus. apply lookup_insert_is_Some' in Hr' as [<-|Hr']; [|rewrite (inv_exact g B E HI r' Hr'); done].
      rewrite nrefs_zero by (intros r1 l c; apply (fresh_unreferenced g B); apply HI). unfold usesOf.
      rewrite (rep_freshr g B (inv_rep _ _ _ HI)) by (unfold r; lia). done.
    - intros r' Hr'. destruct (decide (r = r')) as [<-|Hne]; [rewrite lookup_insert_eq; done|].
      rewrite lookup_insert_ne by done. apply (inv_nonempty g B E HI), Hlive; done. }
  split; [exists (nextID g); rewrite Hby; apply lookup_insert_eq|]. split.
  { intros r' Hr' Hne. rewrite Hnr. pose proof (HU r' (Hlive r' Hr' Hne)).
    destruct (hits_cases k1 r') as [[_ ?]|[_ ?]], (hits_cases k2 r') as [[_ ?]|[_ ?]]; lia. }
  split; [done|]. split; [done|]. split; [done|]. unfold mu. rewrite Hby, map_size_insert_None by done.
  rewrite cells_length_new by done. cbn [length]. lia.
Qed.

End mint.

(** ** [check] on a digram that is not indexed *)

Lemma cut_occurs B r l1 l2 gd k : B !! r = Some (l1 ++ l2) -> cutKey l1 l2 = Some k -> occurs B (left gd l1) k.
Proof.
  intros HB Hk. unfold cutKey in Hk. destruct l1 as [|[p k1] l1 _] using rev_ind; [done|].
  rewrite last_snoc in Hk. destruct l2 as [|[q k2] l2]; [done|]. injection Hk as <-. rewrite left_snoc.
  exists r, l1, q, l2. rewrite <- app_assoc in HB. done.
Qed.

Lemma set_index_same g : set_index (index g) g = g.
Proof. destruct g. done. Qed.

Lemma check_new f g B r l1 l2 gd : rep g B -> B !! r = Some (l1 ++ l2) -> ring (nodes g) (rules g) r (l1 ++ l2) gd ->
  (forall k, cutKey l1 l2 = Some k -> index g !! k = None) -> exists ix,
    check (S f) (left gd l1) g = Ret false (set_index ix g) /\ rep (set_index ix g) B /\
    (forall k q, ix !! k = Some q -> index g !! k = Some q \/ cutKey l1 l2 = Some k).
Proof.
  intros HR HB Hx Hk. cbn [check]. run (digramAt_cut _ _ _ _ _ Hx). destruct (cutKey l1 l2) as [k|] eqn:Ek.
  - exists (<[k := left gd l1]> (index g)). specialize (Hk k eq_refl).
    run (eq_refl : gets (fun g => index g !! k) g = Ret (index g !! k) g). rewrite Hk. split; [done|]. split.
    + apply rep_set_index; [done|]. intros k' q Hq. apply lookup_insert_Some in Hq as [[<- <-]|[_ Hq]].
      * eapply cut_occurs; done.
      * apply (rep_index g B HR). done.
    + intros k' q Hq. apply lookup_insert_Some in Hq as [[<- <-]|[_ Hq]]; auto.
  - exists (index g). rewrite set_index_same. split; [done|]. split; [done|auto].
Qed.

(** The two digrams around the first reference to a fresh rule cannot be indexed already. *)
Lemma offer_fresh f g B r0 l1 p r l2 gd : rep g B -> B !! r0 = Some (l1 ++ (p, refk r) :: l2) ->
  ring (nodes g) (rules g) r0 (l1 ++ (p, refk r) :: l2) gd ->
  (forall k q, index g !! k = Some q -> k.1 <> refk r /\ k.2 <> refk r) ->
  (forall c, c ∈ l1 ++ l2 -> c.2 <> refk r) -> exists ix,
    offer (check (S f)) (left gd l1) p g = Ret tt (set_index ix g) /\ rep (set_index ix g) B.
Proof.
  intros HR HB Hx Hkeys Hcells.
  destruct (check_new f g B r0 l1 _ gd HR HB Hx) as (ix1 & E1 & R1 & Hix1).
  { intros k Hk. destruct (index g !! k) as [q|] eqn:Eq; [|done]. destruct (Hkeys k q Eq) as [_ H2].
    unfold cutKey in Hk. destruct (last l1); [|done]. injection Hk as <-. done. }
  assert (l1 ++ (p, refk r) :: l2 = (l1 ++ [(p, refk r)]) ++ l2) as A1 by (rewrite <- app_assoc; done).
  rewrite A1 in HB, Hx.
  destruct (check_new f (set_index ix1 g) B r0 (l1 ++ [(p, refk r)]) l2 gd R1 HB Hx) as (ix2 & E2 & R2 & _).
  { intros k Hk. destruct (index (set_index ix1 g) !! k) as [q|] eqn:Eq; [|done]. exfalso.
    unfold cutKey in Hk. rewrite last_snoc in Hk. destruct (head l2); [|done]. injection Hk as <-.
    apply Hix1 in Eq as [Eq|Eq]; [apply Hkeys in Eq as [H _]; done|].
    unfold cutKey in Eq. destruct (last l1) as [d|] eqn:El; [|done]. injection Eq as Ed _.
    apply last_Some in El as [l' ->]. apply (Hcells d); [set_solver +|done]. }
  rewrite left_snoc in E2. cbn [fst] in E2. exists ix2. split; [|exact R2].
  unfold offer. run E1. run E2. done.
Qed.

(** ** The reuse branch never picks the start rule *)

Lemma rank_bound (B : bodies) (rk : rptr -> nat) : exists b, forall r, is_Some (B !! r) -> (rk r <= b)%nat.
Proof.
  exists (max_list (rk <$> (map_to_list B).*1)). intros r [l Hl]. apply max_list_elem_of_le.
  apply list_elem_of_fmap. exists r. split; [done|]. apply list_elem_of_fmap. exists (r, l). split; [done|].
  apply elem_of_map_to_list. done.
Qed.

(** Above every live rule there is a symbol of the start body. *)
Lemma climb g B rk r : rep g B -> useful g B -> ranked B rk -> live g r ->
  exists l c, B !! start g = Some l /\ c ∈ l /\ (rk r <= symRank rk c.2)%nat /\ kref c.2 <> None.
Proof.
  intros HR HU Hrk. destruct (rank_bound B rk) as [b Hb].
  assert (forall n r, (b - rk r < n)%nat -> live g r -> exists l c, B !! start g = Some l /\ c ∈ l /\
    (rk r <= symRank rk c.2)%nat /\ kref c.2 <> None) as H; [|eauto].
  clear r. intros n. induction n as [|n IH]; intros r Hn Hr; [lia|].
  destruct (proj1 (nrefs_pos B r) (HU r Hr)) as (r1 & l & c & Hl & Hc & Hk).
  pose proof (Hrk r1 l c Hl Hc) as Hlt. assert (symRank rk c.2 = rk r) as Hs by (unfold symRank; rewrite Hk; done).
  destruct (decide (r1 = start g)) as [->|Hs1].
  - exists l, c. split; [done|]. split; [done|]. rewrite Hs, Hk. done.
  - destruct (owner_live g B r1 l HR Hl) as [?|Hl1]; [intros ->; apply elem_of_nil in Hc; done|done|].
    pose proof (Hb r1 ltac:(eauto)) as Hb1.
    destruct (IH r1) as (l' & c' & H1 & H2 & H3 & H4); [lia|done|]. exists l', c'. repeat split; try done. lia.
Qed.

Lemma pair_not_start g B E r0 l1 n k1 s k2 l2 m1 m2 : inv g B E -> useful g B -> r0 <> start g ->
  B !! r0 = Some (l1 ++ (n, k1) :: (s, k2) :: l2) -> B !! start g <> Some [(m1, k1); (m2, k2)].
Proof.
  intros HI HU Hne HB Hs. pose proof (inv_rep g B E HI) as HR. destruct (inv_acyclic g B E HI) as [rk Hrk].
  destruct (owner_live g B r0 _ HR HB) as [?|Hlr]; [destruct l1; done|done|].
  destruct (climb g B rk r0 HR HU Hrk Hlr) as (l & c & Hl & Hc & Hle & _). rewrite Hs in Hl. injection Hl as <-.
  pose proof (Hrk r0 _ (n, k1) HB ltac:(set_solver +)) as H1. pose proof (Hrk r0 _ (s, k2) HB ltac:(set_solver +)) as H2.
  cbn in H1, H2. rewrite !elem_of_cons in Hc. destruct Hc as [->|[->|Hc]]; [cbn in Hle; lia|cbn in Hle; lia|].
  apply elem_of_nil in Hc. done.
Qed.

(** ** [match] *)

Lemma entireBody_eq g B r m1 m k1 m' k2 m2 gd : rep g B -> B !! r = Some (m1 ++ (m, k1) :: (m', k2) :: m2) ->
  ring (nodes g) (rules g) r (m1 ++ (m, k1) :: (m', k2) :: m2) gd ->
  entireBody m g = Ret (bool_decide (m1 = [] /\ m2 = [])) g.
Proof.
  intros HR HB Hx. unfold entireBody. run (getPrev_eq _ _ _ (ring_prev _ _ _ _ _ _ _ _ Hx)).
  destruct m1 as [|[p k] m1 _] using rev_ind.
  - cbn [fmap list_fmap List.last]. run (isGuard_eq _ _ _ _ (ring_guard _ _ _ _ _ Hx)). cbn.
    run (getNext_eq _ _ _ (ring_next _ _ _ _ _ _ _ _ Hx)). cbn [fmap list_fmap hd fst].
    change ([] ++ (m, k1) :: (m', k2) :: m2) with ([(m, k1)] ++ (m', k2) :: m2) in Hx.
    run (getNext_eq _ _ _ (ring_next _ _ _ _ _ _ _ _ Hx)). destruct m2 as [|[q k] m2]; cbn [fmap list_fmap hd fst].
    + rewrite (isGuard_eq _ _ _ _ (ring_guard _ _ _ _ _ Hx)). done.
    + change ([(m, k1)] ++ (m', k2) :: (q, k) :: m2) with ([(m, k1); (m', k2)] ++ (q, k) :: m2) in Hx.
      destruct (ring_cell _ _ _ _ _ _ _ Hx) as [Ht _]. cbn [fst snd] in Ht. rewrite (isGuard_eq _ _ _ _ Ht). done.
  - rewrite left_snoc. cbn [fst]. rewrite <- app_assoc in Hx. cbn [app] in Hx.
    destruct (ring_cell _ _ _ _ _ _ _ Hx) as [Ht _]. cbn [fst snd] in Ht. run (isGuard_eq _ _ _ _ Ht). cbn.
    unfold mret, M_ret. f_equal. symmetry. apply bool_decide_eq_false. intros [H _]. destruct m1; done.
Qed.

Lemma setDigram_spec g B r m gr : rep g B -> B !! r = Some m -> ring (nodes g) (rules g) r m gr -> exists ix,
  setDigram (right gr m) g = Ret tt (set_index ix g) /\ (forall k p, ix !! k = Some p -> occurs B p k).
Proof.
  intros HR HB Hx. unfold setDigram. destruct m as [|[p k] m].
  - cbn [fmap list_fmap hd]. run (digramAt_cut g r [] [] gr Hx : digramAt gr g = _). cbn. exists (index g). rewrite set_index_same.
    split; [done|apply (rep_index g B HR)].
  - cbn [fmap list_fmap hd fst]. run (digramAt_cell g r [] p k m gr Hx). destruct m as [|[q k'] m]; cbn.
    + exists (index g). rewrite set_index_same. split; [done|apply (rep_index g B HR)].
    + exists (<[(k, k') := p]> (index g)). split; [done|]. intros k0 p0 Hk.
      apply lookup_insert_Some in Hk as [[<- <-]|[_ Hk]]; [|apply (rep_index g B HR); done]. exists r, [], q, m. done.
Qed.

Section matching.
Context (f : nat) (HC : check_ok (check f) f).

Lemma repairFirst_spec g B E r : inv g B E -> useful g B -> is_Some (B !! r) -> mu g B - 1 < Z.of_nat f ->
  nextID g + mu g B < 2 ^ 63 -> exists g' B' E', repairFirst (check f) r g = Ret tt g' /\ evolves g B E g' B' E'.
Proof using HC.
  intros HI HU [m Hm] Hmu Hn. pose proof (inv_rep g B E HI) as HR. destruct (rep_shape g B HR _ _ Hm) as [gr Hr].
  assert (evolves g B E g B E) as Hrefl by (constructor; done).
  unfold repairFirst. destruct (loadr_ring _ _ _ _ Hr) as (x & El & _ & Ex). run El. rewrite Ex. run (guard_next _ _ _ _ Hr).
  destruct m as [|[p k] m].
  - cbn [fmap list_fmap hd]. destruct (load_tag _ _ _ _ (ring_guard _ _ _ _ _ Hr)) as (n & _ & Hl & _ & Hrf & _).
    run Hl. rewrite Hrf. cbn. eauto 10.
  - cbn [fmap list_fmap hd fst]. destruct (ring_cell _ _ _ [] _ _ _ Hr) as [Ht Hs]. cbn [fst snd] in Ht, Hs.
    destruct (load_tag _ _ _ _ Ht) as (n & _ & Hl & _ & Hrf & _). run Hl. rewrite Hrf.
    destruct (kref k) as [r1|] eqn:Ek; [|eauto 10].
    destruct (live_rule g B r1 HR) as (y & _ & Hy & _); [apply (rep_refs g B HR r _ (p, k) r1 Hm); [left|done]|].
    assert (loadr r1 g = Ret y g) as Ely by (unfold loadr; rewrite Hy; done). run Ely.
    destruct (uses y =? 1) eqn:Eu; [|eauto 10]. apply symbolic_ref in Ek as ->; [|done].
    destruct (expandRef_spec (check f) f HC g B E r r1 [] m p HI HU Hm) as (g' & B' & E' & Ee & V & _); [|done|done|eauto].
    unfold usesOf. rewrite Hy. cbn. apply Z.eqb_eq. done.
Qed.

Section pair.
Context (g : gram) (B : bodies) (E : rptr -> list Symbol) (HI : inv g B E) (HU : useful g B).
Context (r0 rm : rptr) (l1 l2 m1 m2 : list cell) (n s m m' : ptr) (k1 k2 : symKey).
Context (HB : B !! r0 = Some (l1 ++ (n, k1) :: (s, k2) :: l2)).
Context (HM : B !! rm = Some (m1 ++ (m, k1) :: (m', k2) :: m2)).
Context (Hmn : m <> n) (Hm'n : m' <> n) (Hsm : s <> m).
Context (Hmu : mu g B <= Z.of_nat f) (Hnx : nextID g + mu g B < 2 ^ 63).

(** The pair is the whole body of a rule: a reference to that rule replaces [n]. *)
Lemma match_reuse : m1 = [] -> m2 = [] -> exists g' B' E',
  (substitute (check f) n rm;; repairFirst (check f) rm) g = Ret tt g' /\ evolves g B E g' B' E'.
Proof using HC HI HU HB HM Hmn Hm'n Hsm Hmu Hnx.
  intros -> ->. cbn [app] in HM. pose proof (inv_rep g B E HI) as HR.
  assert (rm <> r0) as Hne.
  { intros ->. rewrite HM in HB. injection HB as HB'. destruct l1 as [|c l1']; [injection HB' as -> _; done|].
    apply (f_equal length) in HB'. cbn in HB'. rewrite length_app in HB'. cbn in HB'. lia. }
  assert (rm <> start g) as Hns by (intros ->; eapply (pair_not_start g B E r0); done).
  destruct (owner_live g B rm _ HR HM) as [?|Hlr]; [done|done|].
  destruct (substitute_spec (check f) f HC g B E r0 rm l1 l2 n s k1 k2 m m' HI HB HM Hne Hlr)
    as (g1 & B1 & E1 & Es & HI1 & HU1 & Hst & Hsem & Hmu1 & Hn1 & Hd); [auto|lia|lia|].
  destruct (repairFirst_spec g1 B1 E1 rm HI1 HU1) as (g2 & B2 & E2 & Er & V); [apply Hd; eauto|lia|lia|].
  exists g2, B2, E2. run Es. split; [done|]. eapply evolves_trans; [|exact V]. constructor; try done; lia.
Qed.

(** The first substitution of a fresh rule cannot cascade: only the index changes after the splice. *)
Lemma substitute_fresh f' g1 c1 c2 : f = S f' -> let r := fresh g in let B1 := <[r := [(c1, k1); (c2, k2)]]> B in
  inv g1 B1 (mintedE E k1 k2 r) -> live g1 r -> (forall r', live g1 r' -> r' <> r -> 1 <= nrefs B1 r') ->
  index g1 = index g -> rm <> r -> exists p g2, let B2 := <[rm := m1 ++ (p, refk r) :: m2]> B1 in
    substitute (check f) m r g1 = Ret tt g2 /\ inv g2 B2 (mintedE E k1 k2 r) /\ useful g2 B2 /\
    start g2 = start g1 /\ nextID g2 = nextID g1 /\ mu g2 B2 = mu g1 B1 - 2 /\ (forall r', live g2 r' <-> live g1 r').
Proof using HI HM.
  intros Hf r B1 HI1 Hlr Hu Hix Hne. pose proof (inv_rep g B E HI) as HR.
  assert (B1 !! rm = Some (m1 ++ (m, k1) :: (m', k2) :: m2)) as HM1 by (unfold B1; rewrite lookup_insert_ne by done; done).
  assert (B1 !! r = Some [(c1, k1); (c2, k2)]) as Hr1 by apply lookup_insert_eq.
  destruct (rep_shape g1 B1 (inv_rep _ _ _ HI1) _ _ HM1) as [gd Hx].
  destruct (fold_spec g1 B1 _ HI1 rm r m1 m2 m m' k1 k2 c1 c2 HM1 Hr1 (not_eq_sym Hne) gd Hx Hlr Hu)
    as (p & g2 & Es & HI2 & HU2 & K & Hsub & _ & _ & Hmu2). set (B2 := <[rm := m1 ++ (p, refk r) :: m2]> B1) in *.
  assert (B2 !! rm = Some (m1 ++ (p, refk r) :: m2)) as HB2 by apply lookup_insert_eq.
  pose proof (ring_kept g1 g2 B2 rm _ _ gd (kept_rules _ _ K) Hx (inv_rep _ _ _ HI2) HB2) as Hx2.
  assert (forall r' l c, B !! r' = Some l -> c ∈ l -> c.2 <> refk r) as Hold.
  { intros r' l c Hl Hc Ek. apply (fresh_unreferenced g B r' l c HR Hl Hc). rewrite Ek. done. }
  destruct (offer_fresh f' g2 B2 rm m1 p r m2 gd (inv_rep _ _ _ HI2) HB2 Hx2) as (ix & Eo & R3).
  { intros k q Hk. assert (index g !! k = Some q) as Hk0 by (rewrite <- Hix; eapply lookup_weaken; done).
    destruct (rep_index g B HR _ _ Hk0) as (r' & a & q' & b & Hl).
    split; [apply (Hold r' _ (q, k.1) Hl)|apply (Hold r' _ (q', k.2) Hl)]; set_solver +. }
  { intros c Hc. apply (Hold rm _ c HM). set_solver +Hc. }
  exists p, (set_index ix g2). rewrite Hf. unfold substitute. run Es. cbn [fst snd]. split; [done|].
  split; [|split; [done|split; [apply (kept_start _ _ K)|split; [apply (kept_nextID _ _ K)|split; [done|]]]]].
  - destruct HI2. constructor; done.
  - intros r'. apply (kept_live g1 g2 r' K).
Qed.

(** No rule has the pair as its body: a fresh one replaces both occurrences. *)
Lemma match_mint : exists g' B' E',
  (r ← mintPair n; substitute (check f) m r;; substitute (check f) n r;;
   x ← loadr r; p ← getNext (rguard x); setDigram p;; repairFirst (check f) r) g = Ret tt g' /\ evolves g B E g' B' E'.
Proof using HC HI HU HB HM Hmn Hm'n Hsm Hmu Hnx.
  pose proof (inv_rep g B E HI) as HR. pose proof (mu_cells g B HR HU) as Hcells.
  assert (length (cells B) <> 0%nat) as Hpos.
  { assert ((n, k1) ∈ cells B) as Hin by (apply elem_of_cells; exists r0, (l1 ++ (n, k1) :: (s, k2) :: l2); split; [done|set_solver +]).
    destruct (cells B); [apply elem_of_nil in Hin; done|done]. }
  assert (exists f', f = S f') as [f' Ef] by (destruct f; [lia|eauto]).
  destruct (mintPair_spec g B E HI r0 l1 l2 n s k1 k2 HB HU) as (c1 & c2 & g1 & Em & HBr & HI1 & Hlr & Hu1 & Hst1 & Hnx1 & Hix1 & Hmu1); [lia|].
  cbn zeta in *. set (r := fresh g) in *. set (B1 := <[r := [(c1, k1); (c2, k2)]]> B) in *.
  assert (rm <> r /\ r0 <> r /\ start g <> r) as (Hrm & Hr0 & Hsr).
  { destruct (rep_start g B HR) as [ls Hls]. split; [congruence|]. split; congruence. }
  destruct (substitute_fresh f' g1 c1 c2 Ef HI1 Hlr Hu1 Hix1 Hrm) as (p & g2 & E2 & HI2 & HU2 & Hst2 & Hnx2 & Hmu2 & Hlv2).
  cbn zeta in *. fold r in E2, HI2, HU2, Hmu2. fold B1 in HI2, HU2, Hmu2. set (B2 := <[rm := m1 ++ (p, refk r) :: m2]> B1) in *.
  assert (B1 !! r = Some [(c1, k1); (c2, k2)]) as Hr1 by apply lookup_insert_eq.
  assert (B1 !! r0 = Some (l1 ++ (n, k1) :: (s, k2) :: l2)) as HB1 by (unfold B1; rewrite lookup_insert_ne by done; done).
  assert (B1 !! rm = Some (m1 ++ [(m, k1); (m', k2)] ++ m2)) as HM1 by (unfold B1; rewrite lookup_insert_ne by done; done).
  assert (occurs B2 n (k1, k2)) as (r0' & a & q & b & Hn2).
  { destruct (rep_shape g B HR _ _ HM) as [gm Hgm]. destruct (rep_shape g B HR _ _ HB) as [gd Hgd].
    apply (occurs_edit B1 rm m1 [(m, k1); (m', k2)] m2 [(p, refk r)] gm n (k1, k2) HM1).
    - exists r0, l1, s, l2. done.
    - intros El. apply Hsm. pose proof (ring_cut _ _ _ _ _ _ Hgm) as [Hc _]. rewrite <- El in Hc. cbn in Hc.
      rewrite (ring_next _ _ _ _ _ _ _ _ Hgd) in Hc. cbn in Hc. congruence.
    - cbn. rewrite !not_elem_of_cons. split; [done|]. split; [done|apply not_elem_of_nil]. }
  cbn [fst snd] in Hn2. assert (B2 !! r = Some [(c1, k1); (c2, k2)]) as Hr2 by (unfold B2; rewrite lookup_insert_ne by done; done).
  assert (r <> r0') as Hne'.
  { intros <-. rewrite Hr2 in Hn2. injection Hn2 as Ha. destruct a as [|d a].
    - injection Ha as -> _ _. apply Hr0. symmetry.
      apply (cell_unique _ _ _ (rep_shape g1 B1 (inv_rep _ _ _ HI1)) r [] n k1 [(c2, k2)] r0 l1 k1 ((s, k2) :: l2) Hr1 HB1).
    - apply (f_equal length) in Ha. cbn in Ha. rewrite length_app in Ha. cbn in Ha. lia. }
  destruct (substitute_spec (check f) f HC g2 B2 _ r0' r a b n q k1 k2 c1 c2 HI2 Hn2 Hr2 Hne')
    as (g3 & B3 & E3 & Es3 & HI3 & HU3 & Hst3 & Hsem3 & Hmu3 & Hnx3 & Hd3);
    [apply Hlv2; done|intros r' Hr' _; auto|lia|lia|].
  destruct (Hd3 r ltac:(eauto)) as [m3 Hm3]. destruct (rep_shape g3 B3 (inv_rep _ _ _ HI3) _ _ Hm3) as [gr Hgr].
  destruct (setDigram_spec g3 B3 r m3 gr (inv_rep _ _ _ HI3) Hm3 Hgr) as (ix & Esd & Hix).
  destruct (repairFirst_spec (set_index ix g3) B3 E3 r) as (g4 & B4 & E4 & Er & V);
    [apply inv_set_index; done|done|eauto|cbn; unfold mu in *; cbn; lia|cbn; unfold mu in *; cbn; lia|].
  exists g4, B4, E4. destruct (loadr_ring _ _ _ _ Hgr) as (x & El & _ & Ex).
  run Em. run E2. run Es3. run El. rewrite Ex. run (guard_next _ _ _ _ Hgr). run Esd. split; [done|].
  eapply evolves_trans; [|exact V]. constructor; try done.
  - apply inv_set_index; done.
  - cbn. congruence.
  - rewrite Hst2, Hst1 in Hsem3. rewrite Hsem3. unfold mintedE. rewrite decide_False by done. done.
  - unfold mu in *. cbn. lia.
  - unfold mu in *. cbn. lia.
  - intros r' Hr'. apply Hd3. unfold B2, B1. rewrite !lookup_insert_is_Some'. auto.
Qed.

Lemma match_spec : exists g' B' E', match_ (check f) n m g = Ret tt g' /\ evolves g B E g' B' E'.
Proof using HC HI HU HB HM Hmn Hm'n Hsm Hmu Hnx.
  pose proof (inv_rep g B E HI) as HR. destruct (rep_shape g B HR _ _ HM) as [gm Hgm].
  unfold match_. run (entireBody_eq g B rm m1 m k1 m' k2 m2 gm HR HM Hgm). case_bool_decide as Hb.
  - destruct Hb as [H1 H2]. destruct (match_reuse H1 H2) as (g' & B' & E' & Er & V). exists g', B', E'. split; [|done].
    rewrite <- Er. unfold mbind, M_bind. rewrite (getPrev_eq _ _ _ (ring_prev _ _ _ _ _ _ _ _ Hgm)).
    rewrite H1. cbn [fmap list_fmap List.last].
    destruct (load_tag _ _ _ _ (ring_guard _ _ _ _ _ Hgm)) as (nd & _ & Hl & _ & _ & _ & Hg). rewrite Hl, Hg. cbn.
    destruct (substitute (check f) n rm g); done.
  - destruct match_mint as (g' & B' & E' & Er & V). exists g', B', E'. split; [|done]. rewrite <- Er.
    unfold mbind, M_bind. destruct (mintPair n g) as [r g1| |]; [|done|done].
    destruct (substitute (check f) m r g1) as [[] g2| |]; [|done|done].
    destruct (substitute (check f) n r g2) as [[] g3| |]; [|done|done].
    destruct (loadr r g3) as [x g4| |]; [|done|done]. destruct (getNext (rguard x) g4) as [p g5| |]; [|done|done].
    destruct (setDigram p g5) as [[] g6| |]; done.
Qed.

End pair.

End matching.

(** ** [check] *)

Lemma load_next g p q k o : nxt (nodes g) p = Some q -> tag (nodes g) p = Some (k, o) -> exists n,
  load p g = Ret n g /\ next n = Some q.
Proof.
  intros Hn Ht. destruct (load_tag _ _ _ _ Ht) as (n & Hp & Hl & _). exists n. split; [done|].
  unfold nxt in Hn. rewrite Hp in Hn. done.
Qed.

(** With more fuel than [mu], [check] returns from every well-formed grammar, which evolves. *)
Lemma check_total f : check_ok (check f) f.
Proof.
  induction f as [|f IH]; intros g B E p HI HU (r & l1 & l2 & gd & HB & Hx & ->) Hmu Hnx.
  { pose proof (mu_cells g B (inv_rep g B E HI) HU). lia. }
  pose proof (inv_rep g B E HI) as HR.
  destruct (cutKey l1 l2) as [k|] eqn:Ek; [destruct (index g !! k) as [m|] eqn:Em|].
  2,3: destruct (check_new f g B r l1 l2 gd HR HB Hx) as (ix & Ec & R & _); [intros k' Hk'; congruence|];
    exists false, (set_index ix g), B, E; (split; [done|]); (split; [|eauto]);
    apply evolves_index; [done|done|apply (rep_index _ _ R)].
  unfold cutKey in Ek. destruct l1 as [|[n k1] l1 _] using rev_ind; [done|]. rewrite last_snoc in Ek.
  destruct l2 as [|[s k2] l2]; [done|]. cbn in Ek. injection Ek as <-. rewrite <- app_assoc in HB, Hx. cbn [app] in HB, Hx.
  destruct (rep_index g B HR _ _ Em) as (rm & m1 & m' & m2 & HM). cbn [fst snd] in HM.
  destruct (rep_shape g B HR _ _ HM) as [gm Hgm]. rewrite left_snoc. cbn [fst check]. run (digramAt_cell _ _ _ _ _ _ _ Hx).
  cbn [head fmap option_fmap option_map snd].
  run (eq_refl : gets (fun g => index g !! (k1, k2)) g = Ret (index g !! (k1, k2)) g). rewrite Em.
  destruct (ring_cell _ _ _ _ _ _ _ Hx) as [Htn _]. destruct (ring_cell _ _ _ _ _ _ _ Hgm) as [Htm _]. cbn [fst snd] in Htn, Htm.
  destruct (load_next g m m' _ _ (ring_next _ _ _ _ _ _ _ _ Hgm) Htm) as (nm & Lm & Nm).
  destruct (load_next g n s _ _ (ring_next _ _ _ _ _ _ _ _ Hx) Htn) as (nn & Ln & Nn).
  run Lm. run Ln. rewrite Nm, Nn.
  destruct (bool_decide (m = n) || bool_decide (Some m' = Some n) || bool_decide (Some s = Some m)) eqn:Eb.
  - exists false, g, B, E. split; [done|]. split; [constructor; done|]. intros _. split; [done|].
    exists (index g). rewrite set_index_same. done.
  - apply orb_false_iff in Eb as [Eb E3]. apply orb_false_iff in Eb as [E1 E2].
    apply bool_decide_eq_false in E1, E2, E3.
    destruct (match_spec f IH g B E HI HU r rm l1 l2 m1 m2 n s m m' k1 k2 HB HM) as (g' & B' & E' & Ema & V);
      [done|congruence|congruence|lia|lia|].
    run Ema. exists true, g', B', E'. split; [done|]. split; [done|done].
Qed.
