(* ===== verification/SeqAppend.v ===== *)
(** [Append]: the walks over bodies, the utility sweep, and the theorems over whole streams. *)

From S2P Require Import Prelude Strconv Sequitur SeqInv SeqSplice SeqCascade.

(** ** Walks *)

Lemma cells_nodup N R B : shape N R B -> NoDup (cells B).*1.
Proof.
  induction B as [|r l B Hr IH] using map_ind; intros HS; [constructor|].
  assert (shape N R B) as HS'.
  { intros r' l' Hl'. apply HS. rewrite lookup_insert_ne; [done|congruence]. }
  rewrite (cells_insert B r l), (delete_id _ _ Hr), fmap_app. apply NoDup_app.
  assert (<[r := l]> B !! r = Some l) as Hl by apply lookup_insert_eq. destruct (HS _ _ Hl) as [gd Hx].
  pose proof (ring_nodup _ _ _ HS _ _ _ Hl Hx) as HN. apply NoDup_cons in HN as [_ HN]. split; [done|].
  split; [|auto]. intros p Hp Hq. apply list_elem_of_fmap in Hq as (c & -> & Hc).
  apply elem_of_cells in Hc as (r' & l' & Hl' & Hc).
  apply (cell_other _ _ _ HS r l r' l' c.1 Hl); [rewrite lookup_insert_ne; [done|congruence]|congruence|done|].
  apply list_elem_of_fmap. eauto.
Qed.

(** The cells are allocated and distinct, so there are no more of them than nodes. *)
Lemma nodup_size (N : gmap ptr node) l : NoDup l -> (forall p, p ∈ l -> is_Some (N !! p)) -> (length l <= size N)%nat.
Proof.
  intros ND H. rewrite <- (size_dom N), <- (size_list_to_set (C := gset ptr) l ND). apply subseteq_size.
  intros p Hp%elem_of_list_to_set. apply elem_of_dom. auto.
Qed.

Lemma tag_alloc N p : is_Some (tag N p) -> is_Some (N !! p).
Proof. unfold tag. rewrite fmap_is_Some. done. Qed.

Lemma cells_size g B : rep g B -> (length (cells B) <= size (nodes g))%nat.
Proof.
  intros HR. rewrite <- (length_fmap fst). apply nodup_size; [eapply cells_nodup, (rep_shape g B HR)|].
  intros p (c & -> & Hc)%list_elem_of_fmap. apply elem_of_cells in Hc as (r & l & Hl & Hc).
  destruct (cell_of _ _ _ (rep_shape g B HR) _ _ _ Hl Hc) as [Ht _]. apply tag_alloc. rewrite Ht. eauto.
Qed.

Lemma walk_spec g r l1 l2 gd fuel : ring (nodes g) (rules g) r (l1 ++ l2) gd -> (length l2 < fuel)%nat ->
  walk fuel (right gd l2) g = Ret l2.*1 g.
Proof.
  revert l1 fuel. induction l2 as [|[p k] l2 IH]; intros l1 [|fuel] Hx Hf; cbn in Hf; try lia; cbn [walk fmap list_fmap hd fst].
  - destruct (load_tag _ _ _ _ (ring_guard _ _ _ _ _ Hx)) as (n & _ & Hl & _ & _ & _ & Hg). run Hl.
    unfold is_guard. rewrite Hg. done.
  - destruct (ring_cell _ _ _ _ _ _ _ Hx) as [Ht _]. cbn [fst snd] in Ht.
    pose proof (ring_next _ _ _ _ _ _ _ _ Hx) as Hn. destruct (load_tag _ _ _ _ Ht) as (n & Hp & Hl & _ & _ & _ & Hg). run Hl.
    unfold is_guard. rewrite Hg. cbn. unfold nxt in Hn. rewrite Hp in Hn. cbn in Hn. rewrite Hn.
    run (deref_eq (right gd l2) g). replace (l1 ++ (p, k) :: l2) with ((l1 ++ [(p, k)]) ++ l2) in Hx by (rewrite <- app_assoc; done).
    rewrite (bind_ret _ _ _ _ _ (IH _ fuel Hx ltac:(lia))). done.
Qed.

Lemma bodyCells_spec g B r l : rep g B -> B !! r = Some l -> bodyCells r g = Ret l.*1 g.
Proof.
  intros HR Hl. destruct (rep_shape g B HR _ _ Hl) as [gd Hx]. unfold bodyCells.
  destruct (loadr_ring _ _ _ _ Hx) as (x & El & _ & Ex). run El. rewrite Ex. run (guard_next _ _ _ _ Hx).
  run (eq_refl : gets (fun g => S (size (nodes g))) g = Ret (S (size (nodes g))) g).
  apply (walk_spec g r [] l gd); [done|].
  assert (length l.*1 <= size (nodes g))%nat as H; [|rewrite length_fmap in H; lia].
  pose proof (ring_nodup _ _ _ (rep_shape g B HR) _ _ _ Hl Hx) as HN. apply NoDup_cons in HN as [_ HN].
  apply nodup_size; [done|]. intros p Hp. apply tag_alloc. eapply ring_tag; [exact Hx|]. right. done.
Qed.

Lemma findRef_spec g l r : Forall (cell_ok (nodes g)) l -> exists o, findRef l.*1 r g = Ret o g /\
  match o with Some p => (p, refk r) ∈ l | None => forall c, c ∈ l -> kref c.2 <> Some r end.
Proof.
  induction l as [|[p k] l IH]; intros HF; cbn [findRef fmap list_fmap fst].
  - exists None. split; [done|]. intros c Hc. apply elem_of_nil in Hc. done.
  - apply Forall_cons in HF as [[Ht Hs] HF]. cbn [fst snd] in Ht, Hs.
    destruct (load_tag _ _ _ _ Ht) as (n & _ & Hl & _ & Hr & _). run Hl. rewrite Hr. case_bool_decide as Hk.
    + exists (Some p). split; [done|]. rewrite (symbolic_ref k r Hs Hk). left.
    + destruct (IH HF) as (o & Eo & Ho). exists o. split; [done|]. destruct o as [q|]; [right; done|].
      intros c [->|Hc]%elem_of_cons; [done|auto].
Qed.

Lemma refIn_spec g B o r : rep g B -> is_Some (B !! o) -> exists q, refIn (Some o) r g = Ret q g /\
  match q with
  | Some p => exists l, B !! o = Some l /\ (p, refk r) ∈ l
  | None => forall l c, B !! o = Some l -> c ∈ l -> kref c.2 <> Some r
  end.
Proof.
  intros HR [l Hl]. cbn [refIn]. run (bodyCells_spec g B o l HR Hl). destruct (rep_shape g B HR _ _ Hl) as [gd Hx].
  destruct (findRef_spec g l r (ring_cells _ _ _ _ _ Hx)) as (q & Eq & Hq). exists q. split; [done|].
  destruct q as [p|]; [eauto|]. intros l' c Hl'. rewrite Hl in Hl'. injection Hl' as <-. auto.
Qed.

Lemma soleRefIn_spec g B ids r own : rep g B -> (forall i, i ∈ ids -> is_Some (byID g !! i)) -> exists q,
  soleRefIn ids r own g = Ret q g /\
  match q with
  | Some p => exists o l, B !! o = Some l /\ (p, refk r) ∈ l
  | None => forall i o l c, i ∈ ids -> i <> own -> byID g !! i = Some o -> B !! o = Some l -> c ∈ l -> kref c.2 <> Some r
  end.
Proof.
  intros HR. induction ids as [|i ids IH]; intros Hids; cbn [soleRefIn].
  - exists None. split; [done|]. intros i o l c Hi. apply elem_of_nil in Hi. done.
  - destruct IH as (q & Eq & Hq); [intros j Hj; apply Hids; right; done|]. destruct (i =? own) eqn:Ei.
    { apply Z.eqb_eq in Ei as ->. exists q. split; [done|]. destruct q as [p|]; [done|].
      intros j o l c [->|Hj]%elem_of_cons Hne; [done|eauto]. }
    destruct (Hids i) as [o Ho]; [left|]. run (eq_refl : gets (fun g => byID g !! i) g = Ret (byID g !! i) g). rewrite Ho.
    destruct (live_rule g B o HR (ex_intro _ i Ho)) as (_ & l & _ & Hl & _).
    destruct (refIn_spec g B o r HR (ex_intro _ l Hl)) as (q1 & Eq1 & Hq1). run Eq1. destruct q1 as [p|].
    { exists (Some p). split; [done|]. destruct Hq1 as (l' & H1 & H2). eauto. }
    exists q. split; [done|]. destruct q as [p|]; [done|]. intros j o' l' c [->|Hj]%elem_of_cons Hne Ho' Hl' Hc; [|eauto].
    rewrite Ho in Ho'. injection Ho' as <-. eapply Hq1; eauto.
Qed.

Lemma elem_sortedIDs g i : i ∈ sortedIDs g <-> is_Some (byID g !! i).
Proof.
  unfold sortedIDs. rewrite merge_sort_Permutation, list_elem_of_fmap. split.
  - intros ([j r] & -> & H). apply elem_of_map_to_list in H. eauto.
  - intros [r H]. exists (i, r). split; [done|]. apply elem_of_map_to_list. done.
Qed.

(** [soleRef] finds a reference when there is one outside the rule's own body. *)
Lemma soleRef_spec g B E r : inv g B E -> live g r -> 1 <= nrefs B r -> exists p r0 l1 l2,
  soleRef r g = Ret (Some p) g /\ B !! r0 = Some (l1 ++ (p, refk r) :: l2).
Proof.
  intros HI Hr Hn. pose proof (inv_rep g B E HI) as HR. destruct (rep_start g B HR) as [ls Hls].
  assert (forall p o l, B !! o = Some l -> (p, refk r) ∈ l -> exists r0 l1 l2, B !! r0 = Some (l1 ++ (p, refk r) :: l2)) as Hsplit.
  { intros p o l Hl Hin. apply list_elem_of_split in Hin as (l1 & l2 & ->). eauto. }
  unfold soleRef. run (eq_refl : gets start g = Ret (start g) g).
  destruct (refIn_spec g B (start g) r HR ltac:(eauto)) as (q & Eq & Hq). run Eq. destruct q as [p|].
  { destruct Hq as (l & H1 & H2). destruct (Hsplit p _ _ H1 H2) as (r0 & l1 & l2 & H). eauto 10. }
  destruct (live_rule g B r HR Hr) as (x & _ & Hx & _ & _ & Hid & _).
  assert (loadr r g = Ret x g) as El by (unfold loadr; rewrite Hx; done). run El.
  run (eq_refl : gets sortedIDs g = Ret (sortedIDs g) g).
  destruct (soleRefIn_spec g B (sortedIDs g) r (id x) HR) as (q & Eq' & Hq'); [intros i; apply elem_sortedIDs|].
  destruct q as [p|].
  { destruct Hq' as (o & l & H1 & H2). destruct (Hsplit p _ _ H1 H2) as (r0 & l1 & l2 & H). eauto 10. }
  exfalso. apply nrefs_pos in Hn as (r1 & l & c & Hl & Hc & Hk).
  destruct (decide (r1 = start g)) as [->|Hs]; [exact (Hq l c Hl Hc Hk)|].
  destruct (owner_live g B r1 l HR Hl) as [?|Hl1]; [intros ->; apply elem_of_nil in Hc; done|done|].
  destruct (live_rule g B r1 HR Hl1) as (y & _ & Hy & _ & _ & Hid1 & _).
  eapply (Hq' (id y) r1 l c); [apply elem_sortedIDs; eauto| |done|done|done|done].
  intros E1. assert (r1 = r) as -> by congruence. destruct (inv_acyclic g B E HI) as [rk Hrk].
  pose proof (Hrk r l c Hl Hc) as H. unfold symRank in H. rewrite Hk in H. lia.
Qed.

(** ** The utility sweep *)

Lemma evolves_refl g B E : inv g B E -> useful g B -> evolves g B E g B E.
Proof. intros. constructor; done. Qed.

Lemma inv_sweeps g B E n : inv g B E -> inv (with_sweeps n g) B E.
Proof. intros [[]]. constructor; done. Qed.

Section sweep.
Context (f : nat).

Lemma sweepOne_spec g B E i : inv g B E -> useful g B -> mu g B <= Z.of_nat f -> nextID g + mu g B < 2 ^ 63 ->
  exists g' B' E', sweepOne (check f) i g = Ret tt g' /\ evolves g B E g' B' E' /\
    (forall r, byID g !! i = Some r -> usesOf g r <= 1 -> mu g' B' <= mu g B - 1).
Proof.
  intros HI HU Hmu Hnx. pose proof (inv_rep g B E HI) as HR. unfold sweepOne.
  run (eq_refl : gets (fun g => byID g !! i) g = Ret (byID g !! i) g). destruct (byID g !! i) as [r|] eqn:Ei.
  2: { exists g, B, E. split; [done|]. split; [apply evolves_refl; done|done]. }
  assert (live g r) as Hr by (eexists; done). destruct (live_rule g B r HR Hr) as (x & _ & Hx & _).
  assert (loadr r g = Ret x g) as El by (unfold loadr; rewrite Hx; done). run El.
  assert (usesOf g r = uses x) as Eu by (unfold usesOf; rewrite Hx; done).
  pose proof (HU r Hr) as Hn. pose proof (inv_exact g B E HI r (rep_dom g B HR r Hr)) as He. rewrite (proj2 (Z.eqb_neq (uses x) 0)) by lia.
  destruct (uses x =? 1) eqn:E1; bsolve.
  - destruct (soleRef_spec g B E r HI Hr Hn) as (p & r0 & l1 & l2 & Es & HB). run Es.
    destruct (expandRef_spec (check f) f (check_total f) g B E r0 r l1 l2 p HI HU HB) as (g' & B' & E' & Ee & V & Hm);
      [lia|lia|done|]. eauto 10.
  - exists g, B, E. split; [done|]. split; [apply evolves_refl; done|]. intros r' [= <-] ?. lia.
Qed.

Lemma sweepAll_spec ids : forall g B E, inv g B E -> useful g B -> mu g B <= Z.of_nat f -> nextID g + mu g B < 2 ^ 63 ->
  exists g' B' E', forEach (sweepOne (check f)) ids g = Ret tt g' /\ evolves g B E g' B' E' /\
    (forall i r, head ids = Some i -> byID g !! i = Some r -> usesOf g r <= 1 -> mu g' B' <= mu g B - 1).
Proof.
  induction ids as [|i ids IH]; intros g B E HI HU Hmu Hnx; cbn [forEach].
  - exists g, B, E. split; [done|]. split; [apply evolves_refl; done|done].
  - destruct (sweepOne_spec g B E i HI HU Hmu Hnx) as (g1 & B1 & E1 & Es & V1 & H1). run Es. pose proof V1 as [I1 U1 _ _ M1 N1 _].
    destruct (IH g1 B1 E1 I1 U1) as (g2 & B2 & E2 & Es2 & V2 & _); [lia|lia|]. exists g2, B2, E2. split; [done|].
    split; [eapply evolves_trans; done|]. intros j r [= <-] Hj Hu. specialize (H1 r Hj Hu). pose proof (ev_mu _ _ _ _ _ _ V2). lia.
Qed.

Lemma elem_underUsed g i : i ∈ underUsed g <-> exists r, byID g !! i = Some r /\ usesOf g r <= 1.
Proof.
  unfold underUsed. rewrite merge_sort_Permutation, list_elem_of_fmap. split.
  - intros ([j r] & -> & H). apply list_elem_of_filter in H as [Hu H]. apply elem_of_map_to_list in H. eauto.
  - intros (r & H & Hu). exists (i, r). split; [done|]. apply list_elem_of_filter. split; [done|]. apply elem_of_map_to_list. done.
Qed.

(** The sweep ends, and leaves every rule with two uses at least. *)
Lemma enforce_spec n : forall g B E, inv g B E -> useful g B -> mu g B < Z.of_nat n -> mu g B <= Z.of_nat f ->
  nextID g + mu g B < 2 ^ 63 -> exists g' B' E', enforceRuleUtility (check f) n g = Ret tt g' /\
    evolves g B E g' B' E' /\ (forall r, live g' r -> 2 <= usesOf g' r).
Proof.
  induction n as [|n IH]; intros g B E HI HU Hn Hmu Hnx.
  { pose proof (mu_cells g B (inv_rep _ _ _ HI) HU). lia. }
  cbn [enforceRuleUtility]. run (eq_refl : gets underUsed g = Ret (underUsed g) g).
  destruct (underUsed g) as [|i ids] eqn:Eu.
  - exists g, B, E. split; [done|]. split; [apply evolves_refl; done|]. intros r [i Hi].
    destruct (decide (2 <= usesOf g r)); [done|]. exfalso. apply (not_elem_of_nil i). rewrite <- Eu. apply elem_underUsed.
    exists r. split; [done|lia].
  - run (eq_refl : gets utilitySweeps g = Ret (utilitySweeps g) g).
    run (eq_refl : modify (with_sweeps (utilitySweeps g + 1)) g = Ret tt (with_sweeps (utilitySweeps g + 1) g)).
    set (g0 := with_sweeps (utilitySweeps g + 1) g).
    destruct (sweepAll_spec (i :: ids) g0 B E) as (g1 & B1 & E1 & Es & V1 & H1); [apply inv_sweeps; done|done|done|done|].
    run Es. assert (i ∈ underUsed g) as Hi by (rewrite Eu; left). apply elem_underUsed in Hi as (r & Hi & Hle).
    specialize (H1 i r eq_refl Hi Hle). destruct V1 as [I1 U1 S1 T1 M1 N1 D1]. cbn in S1, N1.
    change (mu g0 B) with (mu g B) in *.
    destruct (IH g1 B1 E1 I1 U1) as (g2 & B2 & E2 & Ee & V2 & H2); [lia|lia|lia|]. exists g2, B2, E2. split; [done|].
    split; [|done]. eapply evolves_trans; [|exact V2]. constructor; done.
Qed.

End sweep.

(** ** One append *)

Lemma last_unindexed g B r l gd : rep g B -> B !! r = Some l -> ring (nodes g) (rules g) r l gd -> unindexed g (left gd l).
Proof.
  intros HR HB Hx. destruct l as [|[p k] l _] using rev_ind; [eapply guard_unindexed; done|].
  rewrite left_snoc. intros k0 Hk. destruct (rep_index g B HR _ _ Hk) as (r' & m1 & q & m2 & Hm).
  destruct (cell_unique _ _ _ (rep_shape g B HR) r l p k [] r' m1 k0.1 ((q, k0.2) :: m2) HB Hm) as (_ & _ & _ & E). done.
Qed.

Lemma start_unreferenced g B r l c : rep g B -> B !! r = Some l -> c ∈ l -> kref c.2 <> Some (start g).
Proof.
  intros HR Hl Hc Hk. destruct (live_rule g B _ HR (rep_refs g B HR _ _ _ _ Hl Hc Hk)) as (_ & _ & _ & _ & H & _). done.
Qed.

Section append.
Context (g : gram) (B : bodies) (E : rptr -> list Symbol) (HI : inv g B E) (HU : useful g B).
Context (ls : list cell) (HB : B !! start g = Some ls) (n : ptr) (s : Symbol).

Definition appendedE : rptr -> list Symbol := fun r => if decide (r = start g) then E r ++ [s] else E r.
Abbreviation B' := (<[start g := ls ++ [(n, term s)]]> B).

Lemma append_cell r l c : B' !! r = Some l -> c ∈ l -> (exists l', B !! r = Some l' /\ c ∈ l') \/ (r = start g /\ c = (n, term s)).
Proof using HB.
  intros Hl Hc. destruct (decide (start g = r)) as [<-|Hr].
  - rewrite lookup_insert_eq in Hl. injection Hl as <-. apply elem_of_app in Hc as [Hc|Hc%list_elem_of_singleton]; eauto.
  - rewrite lookup_insert_ne in Hl by done. eauto.
Qed.

Lemma append_solves : solves B' appendedE.
Proof using HI HB.
  pose proof (inv_rep g B E HI) as HR. intros r l Hl. rewrite (sem_ext E appendedE).
  2: { intros c r' Hc Hk. unfold appendedE. rewrite decide_False; [done|]. intros ->.
       destruct (append_cell r l c Hl Hc) as [(l' & Hl' & Hc')|[_ ->]]; [eapply start_unreferenced; done|done]. }
  unfold appendedE. destruct (decide (r = start g)) as [->|Hr].
  - rewrite lookup_insert_eq in Hl. injection Hl as <-. rewrite sem_app, (inv_solves g B E HI _ _ HB). done.
  - rewrite lookup_insert_ne in Hl by done. apply (inv_solves g B E HI). done.
Qed.

Lemma append_acyclic : exists rk, ranked B' rk.
Proof using HI HB.
  pose proof (inv_rep g B E HI) as HR. destruct (inv_acyclic g B E HI) as [rk Hrk].
  exists (fun r => if decide (r = start g) then S (rk r) else rk r). intros r l c Hl Hc.
  destruct (append_cell r l c Hl Hc) as [(l' & Hl' & Hc')|[-> ->]].
  - pose proof (Hrk r l' c Hl' Hc') as H. unfold symRank in *. destruct (kref c.2) as [y|] eqn:Ek.
    + rewrite (decide_False (P := y = start g)); [case_decide; lia|]. intros ->. eapply start_unreferenced; done.
    + case_decide; lia.
  - cbn. rewrite decide_True by done. lia.
Qed.

Lemma append_nrefs r : nrefs B' r = nrefs B r.
Proof using HB.
  rewrite (nrefs_insert B (start g) ls) by done. rewrite refs_app, refs_cons. cbn [snd].
  destruct (hits_cases (term s) r) as [[? _]|[_ ->]]; [done|]. change (refs [] r) with 0. lia.
Qed.

End append.

Lemma insertLast_spec g B E s : inv g B E -> useful g B -> exists ls n gd g',
  B !! start g = Some ls /\ ring (nodes g') (rules g') (start g) (ls ++ [(n, term s)]) gd /\
  (n ← alloc (mkNode s None None None None); st ← gets start; x ← loadr st; l ← getPrev (rguard x);
   insertAfter l n;; mret n) g = Ret n g' /\
  inv g' (<[start g := ls ++ [(n, term s)]]> B) (appendedE g E s) /\ useful g' (<[start g := ls ++ [(n, term s)]]> B) /\
  start g' = start g /\ nextID g' = nextID g /\ mu g' (<[start g := ls ++ [(n, term s)]]> B) = mu g B + 2.
Proof.
  intros HI HU. pose proof (inv_rep g B E HI) as HR. destruct (rep_start g B HR) as [ls Hls].
  destruct (alloc_spec g B (mkNode s None None None None) HR) as (g1 & E1 & R1 & L1 & K1 & I1 & U1 & F1 & _);
    [done|apply symbolic_term|done|].
  destruct (rep_shape g1 B R1 _ _ Hls) as [gd Hx]. rewrite <- (app_nil_r ls) in Hx. assert (B !! start g = Some (ls ++ [])) as Hls' by (rewrite app_nil_r; done).
  pose proof (last_unindexed g1 B (start g) _ gd R1 Hls' Hx) as Hun. rewrite app_nil_r in Hun.
  destruct (insertAfter_spec g1 B (start g) ls [] (fresh g) (term s) gd R1 Hls' Hx L1) as (g2 & E2 & R2 & K2 & I2 & F2 & U2 & _);
    [left; symmetry; apply (kept_start _ _ K1)|done|].
  assert (kept g g2) as K by (etransitivity; done). set (n := fresh g) in *.
  exists ls, n, gd, g2. split; [done|].
  split; [eapply ring_kept; [apply (kept_rules _ _ K2)|exact Hx|exact R2|apply lookup_insert_eq]|]. split.
  { run E1. run (eq_refl : gets start g1 = Ret (start g1) g1). rewrite (kept_start _ _ K1).
    destruct (loadr_ring _ _ _ _ Hx) as (x & El & _ & Ex). run El. rewrite Ex.
    pose proof (ring_cut _ _ _ _ _ _ Hx) as [_ Hp]. cbn in Hp. run (getPrev_eq _ _ _ Hp). run E2. done. }
  split; [|split; [|split; [apply (kept_start _ _ K)|split; [apply (kept_nextID _ _ K)|]]]].
  - constructor; [done| | |apply append_solves; done|apply (append_acyclic g B E); done|rewrite (kept_nextID _ _ K); apply HI].
    + intros r Hr. rewrite append_nrefs by done. unfold usesOf. rewrite U2, U1. apply (inv_exact g B E HI).
      apply lookup_insert_is_Some' in Hr as [<-|Hr]; [rewrite Hls; eauto|done].
    + intros r Hr. apply (kept_live g g2) in Hr; [|done]. destruct (decide (start g = r)) as [<-|Hne].
      * rewrite lookup_insert_eq. destruct ls; done.
      * rewrite lookup_insert_ne by done. apply (inv_nonempty g B E HI). done.
  - intros r Hr. apply (kept_live g g2) in Hr; [|done]. rewrite append_nrefs by done. auto.
  - unfold mu. rewrite (kept_byID _ _ K). pose proof (cells_length_insert B (start g) ls (ls ++ [(n, term s)]) Hls) as HL.
    rewrite length_app in HL. cbn in HL. lia.
Qed.

(** [Append] returns, appends its symbol to the expansion of the start rule, and leaves every rule used twice. *)
Lemma append_step g B E s : inv g B E -> useful g B -> nextID g + mu g B + 2 < 2 ^ 63 -> exists g' B' E',
  Append s g = Ret tt g' /\ inv g' B' E' /\ (forall r, live g' r -> 2 <= usesOf g' r) /\ start g' = start g /\
  E' (start g) = E (start g) ++ [s] /\ nextID g' + mu g' B' <= nextID g + mu g B + 2.
Proof.
  intros HI HU Hnx. destruct (insertLast_spec g B E s HI HU) as (ls & n & gd & g1 & Hls & Hx & E1 & I1 & U1 & S1 & N1 & M1).
  set (B1 := <[start g := ls ++ [(n, term s)]]> B) in *. set (k := gas g1).
  assert (mu g1 B1 < Z.of_nat k /\ mu g1 B1 <= Z.of_nat k) as [Hk Hk'].
  { pose proof (cells_size g1 B1 (inv_rep _ _ _ I1)). unfold mu, k, gas. lia. }
  destruct (check_total k g1 B1 _ (left gd ls) I1 U1) as (b & g2 & B2 & E2 & Ec & V2 & _); [|done|lia|].
  { eapply place_left; [apply lookup_insert_eq|done]. }
  pose proof V2 as [I2 U2 S2 T2 M2 N2 _].
  destruct (enforce_spec k k g2 B2 E2 I2 U2) as (g3 & B3 & E3 & Ee & V3 & H2); [lia|lia|lia|]. pose proof V3 as [I3 U3 S3 T3 M3 N3 _].
  exists g3, B3, E3. split.
  - transitivity ((n ← (n ← alloc (mkNode s None None None None); st ← gets start; x ← loadr st; l ← getPrev (rguard x);
      insertAfter l n;; mret n); k ← gets gas; p ← getPrev n; check k p;; enforceRuleUtility (check k) k) g).
    { unfold Append, mbind, M_bind. destruct (alloc _ g) as [a h| |]; [|done|done]. cbn. destruct (loadr (start h) h) as [x h1| |]; [|done|done].
      destruct (getPrev (rguard x) h1) as [l h2| |]; [|done|done]. destruct (insertAfter l a h2) as [[] h3| |]; done. }
    run E1. run (eq_refl : gets gas g1 = Ret k g1). run (getPrev_eq _ _ _ (ring_prev _ _ _ _ _ _ _ _ Hx)). run Ec. done.
  - split; [done|]. split; [done|]. split; [congruence|]. split; [|lia].
    rewrite S2, S1 in T3. rewrite S1 in T2. rewrite T3, T2. unfold appendedE. rewrite decide_True by done. done.
Qed.

(** ** Streams *)

Fixpoint appendAll (w : list Symbol) : M unit :=
  match w with [] => mret tt | s :: w => Append s;; appendAll w end.

(** [g] is a well-formed grammar for the stream [w] in which every rule is used at least twice. *)
Definition stands_for (g : gram) (w : list Symbol) : Prop := exists B E,
  inv g B E /\ (forall r, live g r -> 2 <= usesOf g r) /\ E (start g) = w /\
  nextID g + mu g B <= 1 + 2 * Z.of_nat (length w).

Lemma stands_useful g B E : inv g B E -> (forall r, live g r -> 2 <= usesOf g r) -> useful g B.
Proof.
  intros HI H r Hr. specialize (H r Hr).
  rewrite (inv_exact g B E HI r (rep_dom g B (inv_rep _ _ _ HI) r Hr)) in H. lia.
Qed.

Lemma append_stands g w s : stands_for g w -> 2 * Z.of_nat (length w) + 3 < 2 ^ 63 -> exists g',
  Append s g = Ret tt g' /\ stands_for g' (w ++ [s]).
Proof.
  intros (B & E & HI & H2 & Hw & Hb) Hl. pose proof (stands_useful g B E HI H2) as HU.
  destruct (append_step g B E s HI HU) as (g' & B' & E' & Ea & HI' & H2' & Hs & Hw' & Hb'); [lia|].
  exists g'. split; [done|]. exists B', E'. split; [done|]. split; [done|]. rewrite Hs, Hw', Hw, length_app. cbn. split; [done|]. lia.
Qed.

(** [clear] forgets whatever the heap held before. *)
Lemma clear_stands g : (forall p, (fresh g <= p)%nat -> nodes g !! p = None) ->
  (forall r, (fresh g <= r)%nat -> rules g !! r = None) -> exists g', clear g = Ret tt g' /\ stands_for g' [].
Proof.
  intros Hn Hr. set (r := fresh g). set (p := S r). eexists. split; [reflexivity|].
  exists {[r := []]}, (fun _ => []). set (g' := with_start _ _).
  assert (forall r' l, ({[r := []]} : bodies) !! r' = Some l -> r' = r /\ l = []) as Hone.
  { intros r' l Hl. apply lookup_singleton_Some in Hl as [<- <-]. done. }
  assert (forall r, ~ live g' r) as Hnone by (intros r' [i Hi]; done).
  split; [|split; [intros r' Hr'; destruct (Hnone r' Hr')|split; [done|]]].
  2: { unfold mu, cells. rewrite map_to_list_singleton. unfold g'. cbn. rewrite map_size_empty. unfold firstInducedRuleID. lia. }
  constructor.
  - constructor; cbn; fold r p.
    + intros r' l Hl. apply Hone in Hl as [-> ->]. exists p. constructor; unfold tag; rewrite ?lookup_insert_eq; try done.
      cbn [fmap list_fmap app]. apply chain_cons. split; [|done]. split; unfold nxt, prv; rewrite lookup_insert_eq; done.
    + intros r' Hr'. destruct (Hnone r' Hr').
    + intros q Hq. rewrite lookup_insert_ne by lia. apply Hn. lia.
    + intros q Hq. rewrite lookup_insert_ne by lia. apply Hr. lia.
    + rewrite lookup_singleton_eq. eauto.
    + done.
    + intros r' l Hl. apply Hone in Hl as [-> ->]. done.
    + intros r' l c r1 Hl Hc. apply Hone in Hl as [-> ->]. apply elem_of_nil in Hc. done.
    + done.
  - intros r' [l Hl]. apply Hone in Hl as [-> ->]. unfold usesOf, nrefs, cells. cbn. fold r.
    rewrite lookup_insert_eq, map_to_list_singleton. done.
  - intros r' Hr'. destruct (Hnone r' Hr').
  - intros r' l Hl. apply Hone in Hl as [-> ->]. done.
  - exists (fun _ => 0%nat). intros r' l c Hl Hc. apply Hone in Hl as [-> ->]. apply elem_of_nil in Hc. done.
  - done.
Qed.

Lemma new_stands : stands_for newSequiturGrammar [].
Proof.
  destruct (clear_stands emptyHeap) as (g & E & H); [done|done|]. unfold newSequiturGrammar. rewrite E. done.
Qed.

Lemma reset_stands g w : stands_for g w -> exists g', Reset g = Ret tt g' /\ stands_for g' [].
Proof. intros (B & E & HI & _). apply clear_stands; apply (inv_rep g B E HI). Qed.

Lemma appendAll_stands w : forall v g, stands_for g v -> 2 * Z.of_nat (length v + length w) + 1 < 2 ^ 63 -> exists g',
  appendAll w g = Ret tt g' /\ stands_for g' (v ++ w).
Proof.
  induction w as [|s w IH]; intros v g Hg Hl; cbn [appendAll].
  - exists g. rewrite app_nil_r. done.
  - cbn [length] in Hl. destruct (append_stands g v s Hg) as (g1 & E1 & H1); [lia|]. run E1.
    destruct (IH (v ++ [s]) g1 H1) as (g2 & E2 & H2); [rewrite length_app; cbn; lia|].
    exists g2. rewrite <- app_assoc in H2. done.
Qed.

(** From the empty grammar, every stream of a length below 2^62 is absorbed. *)
Lemma stream_stands w : Z.of_nat (length w) < 2 ^ 62 - 1 -> exists g,
  appendAll w newSequiturGrammar = Ret tt g /\ stands_for g w.
Proof. intros Hl. apply (appendAll_stands w [] newSequiturGrammar new_stands). cbn. lia. Qed.
