(* ===== verification/SeqRead.v ===== *)
(** The read-only side of the grammar: rule references as text, [bodyOf], [expansions], [Rules],
    [Thrash], [Compressed] and [Snapshot], and the theorems that what they report is exactly the
    appended stream. *)

From S2P Require Import Prelude Strconv Sequitur SeqInv SeqSplice SeqCascade SeqAppend.

(** ** Rule references *)

Lemma ruleRef_parse i : 0 <= i <= MaxInt -> ParseRuleRef (RuleRef i) = Some i.
Proof.
  intros Hi. assert (exists a b, ruleRefPrefix = [a; b]) as (a & b & Hp) by (vm_compute; eauto).
  unfold RuleRef, ParseRuleRef. rewrite Hp. cbn [app]. rewrite bool_decide_eq_true_2 by done.
  rewrite Itoa_parse by (unfold MaxInt in *; lia). rewrite bool_decide_eq_true_2 by done. rewrite (proj2 (Z.ltb_ge i 0)) by lia. done.
Qed.

(** A reference has one spelling: what parses is what [RuleRef] writes. *)
Lemma ruleRef_canonical s i : ParseRuleRef s = Some i -> s = RuleRef i /\ 0 <= i.
Proof.
  unfold ParseRuleRef. destruct s as [|c1 [|c2 rest]]; [done|done|]. case_bool_decide as Hp; [|done].
  destruct (Atoi rest) as [n|]; [|done]. destruct (n <? 0) eqn:En; [done|].
  destruct (bool_decide (Itoa n = rest)) eqn:Eb; [|done]. cbn. intros [= <-]. apply bool_decide_eq_true in Eb. bsolve.
  split; [|lia]. unfold RuleRef. rewrite Eb. transitivity ([c1; c2] ++ rest); [done|]. rewrite Hp. done.
Qed.

Lemma ruleRef_inj i j : RuleRef i = RuleRef j -> i = j.
Proof. unfold RuleRef. intros H. apply app_inv_head in H. apply Itoa_inj. done. Qed.

(** ** Encoded bodies *)

Definition idOf (g : gram) (r : rptr) : RuleID := from_option id 0 (rules g !! r).

(** What [encoded] renders a key as. *)
Definition enc (g : gram) (k : symKey) : Symbol :=
  match kref k with Some r => RuleRef (idOf g r) | None => kval k end.

Definition encs (g : gram) (l : list cell) : list Symbol := (fun c => enc g c.2) <$> l.

Lemma encodedAll_spec g l : Forall (cell_ok (nodes g)) l ->
  (forall c r, c ∈ l -> kref c.2 = Some r -> is_Some (rules g !! r)) -> encodedAll l.*1 g = Ret (encs g l) g.
Proof.
  induction l as [|[p k] l IH]; intros HF Hr; [done|]. apply Forall_cons in HF as [[Ht _] HF]. cbn [fst snd] in Ht.
  cbn [encodedAll fmap list_fmap fst]. destruct (load_tag _ _ _ _ Ht) as (n & _ & Hl & _ & Hrf & Hv & _). run Hl.
  assert (encoded n g = Ret (enc g k) g) as Ee.
  { unfold encoded, enc. rewrite Hrf, Hv. destruct (kref k) as [r|] eqn:Ek; [|done].
    destruct (Hr (p, k) r) as [x Hx]; [left|done|]. assert (loadr r g = Ret x g) as El by (unfold loadr; rewrite Hx; done).
    run El. unfold idOf. rewrite Hx. done. }
  run Ee. rewrite (bind_ret _ _ _ _ _ (IH HF (fun c r Hc => Hr c r (list_elem_of_further _ _ _ Hc)))). done.
Qed.

Lemma bodyOf_spec g B r l : rep g B -> B !! r = Some l -> bodyOf r g = Ret (appended (encs g l)) g.
Proof.
  intros HR Hl. unfold bodyOf. run (bodyCells_spec g B r l HR Hl). destruct (rep_shape g B HR _ _ Hl) as [gd Hx].
  rewrite (bind_ret _ _ _ _ _ (encodedAll_spec g l (ring_cells _ _ _ _ _ Hx) ltac:(intros c r' Hc Hk; eapply ref_rule; done))).
  done.
Qed.

(** ** Expansions *)

Section expand.
Context (g : gram) (B : bodies) (E : rptr -> list Symbol) (HI : inv g B E) (rk : rptr -> nat) (Hrk : ranked B rk).

(** The memo holds right answers; the rules in progress are above the one being expanded. *)
Definition memo_ok (m : memo) : Prop := forall i e, done_ m !! i = Some e -> exists r, byID g !! i = Some r /\ e = E r.
Definition above (m : memo) (r : rptr) : Prop :=
  forall i, i ∈ busy m -> exists r', byID g !! i = Some r' /\ (rk r < rk r')%nat.

Definition expands (fuel : nat) : Prop := forall r m, live g r -> memo_ok m -> above m r ->
  (size (byID g) < fuel + size (busy m))%nat -> exists m', expansionOf fuel r m g = Ret (E r, m') g /\
    memo_ok m' /\ busy m' = busy m /\ done_ m ⊆ done_ m' /\ (forall i, byID g !! i = Some r -> done_ m' !! i = Some (E r)).

Lemma expandCells_spec fuel l m : expands fuel -> Forall (cell_ok (nodes g)) l -> memo_ok m ->
  (forall c r, c ∈ l -> kref c.2 = Some r -> live g r /\ above m r) -> (size (byID g) < fuel + size (busy m))%nat ->
  exists m', expandCells (expansionOf fuel) l.*1 m g = Ret (sem E l, m') g /\
    memo_ok m' /\ busy m' = busy m /\ done_ m ⊆ done_ m'.
Proof.
  intros HX. revert m. induction l as [|[p k] l IH]; intros m HF Hm Hc Hf; [exists m; done|].
  apply Forall_cons in HF as [[Ht _] HF]. cbn [fst snd] in Ht. cbn [expandCells fmap list_fmap fst].
  destruct (load_tag _ _ _ _ Ht) as (n & _ & Hl & _ & Hrf & Hv & _). run Hl. rewrite Hrf, sem_cons. cbn [snd]. unfold symE.
  destruct (kref k) as [r|] eqn:Ek.
  - destruct (Hc (p, k) r) as [Hlr Hab]; [left|done|].
    destruct (HX r m Hlr Hm Hab Hf) as (m1 & E1 & Hm1 & Hb1 & Hd1 & _). run E1.
    destruct (IH m1 HF Hm1) as (m2 & E2 & Hm2 & Hb2 & Hd2).
    { intros c r' Hin Hk. destruct (Hc c r' ltac:(right; done) Hk) as [H1 H2]. split; [done|]. unfold above. rewrite Hb1. done. }
    { rewrite Hb1. done. }
    cbn [snd]. run E2. exists m2. split; [done|]. split; [done|]. split; [congruence|]. etransitivity; done.
  - destruct (IH m HF Hm) as (m2 & E2 & Hm2 & Hb2 & Hd2); [|done|].
    { intros c r' Hin. apply Hc. right. done. }
    run E2. exists m2. rewrite Hv. done.
Qed.

Lemma busy_bound m i : above m i -> (size (busy m) <= size (byID g))%nat.
Proof.
  intros Ha. rewrite <- (size_dom (byID g)). apply subseteq_size. intros j Hj. destruct (Ha j Hj) as (r & Hr & _).
  apply elem_of_dom. eauto.
Qed.

Lemma expansionOf_spec fuel : expands fuel.
Proof using HI Hrk.
  induction fuel as [|fuel IH]; intros r m Hr Hm Hab Hf; [pose proof (busy_bound m r Hab); lia|].
  pose proof (inv_rep g B E HI) as HR. destruct (live_rule g B r HR Hr) as (x & l & Hx & Hl & _ & Hid & _).
  cbn [expansionOf]. assert (loadr r g = Ret x g) as El by (unfold loadr; rewrite Hx; done). run El.
  assert (forall i, byID g !! i = Some r -> i = id x) as Huni.
  { intros i Hi. destruct (rep_byid g B HR _ _ Hi) as (y & Hy & <- & _). congruence. }
  destruct (done_ m !! id x) as [e|] eqn:Ed.
  { destruct (Hm _ _ Ed) as (r' & Hr' & ->). assert (r' = r) as -> by congruence. exists m. split; [done|]. split; [done|].
    split; [done|]. split; [done|]. intros i Hi. rewrite (Huni i Hi). done. }
  assert (id x ∉ busy m) as Hnb.
  { intros Hin. destruct (Hab _ Hin) as (r' & Hr' & Hlt). assert (r' = r) as -> by congruence. lia. }
  rewrite bool_decide_eq_false_2 by done. run (bodyCells_spec g B r l HR Hl).
  destruct (rep_shape g B HR _ _ Hl) as [gd Hgd].
  destruct (expandCells_spec fuel l (mkMemo (done_ m) ({[id x]} ∪ busy m)) IH (ring_cells _ _ _ _ _ Hgd) Hm) as (m' & E1 & Hm' & Hb' & Hd').
  { intros c r' Hc Hk. split; [eapply (rep_refs g B HR); done|]. pose proof (Hrk r l c Hl Hc) as Hlt. unfold symRank in Hlt. rewrite Hk in Hlt.
    intros i [->%elem_of_singleton|Hi]%elem_of_union; [eauto|]. destruct (Hab i Hi) as (r2 & H2 & H3). exists r2. split; [done|lia]. }
  { cbn. rewrite size_union, size_singleton by set_solver +Hnb. lia. }
  run E1. cbn [fst snd]. rewrite <- (inv_solves g B E HI r l Hl). eexists. split; [done|]. cbn in Hb', Hd'.
  assert (forall i, byID g !! i = Some r -> <[id x := E r]> (done_ m') !! i = Some (E r)) as Hmine.
  { intros i Hi. rewrite (Huni i Hi). apply lookup_insert_eq. }
  split; [|split; [|split; [|exact Hmine]]]; cbn.
  - intros i e He. cbn in He. apply lookup_insert_Some in He as [[<- <-]|[_ He]]; [eauto|auto].
  - rewrite Hb'. apply set_eq. intros i. rewrite elem_of_difference, elem_of_union, elem_of_singleton.
    split; [tauto|]. intros Hi. split; [auto|]. intros ->. done.
  - etransitivity; [exact Hd'|]. destruct (done_ m' !! id x) as [e|] eqn:Ee; [|apply insert_subseteq; done].
    destruct (Hm' _ _ Ee) as (r' & Hr' & ->). assert (r' = r) as -> by congruence. rewrite insert_id by done. done.
Qed.

Lemma expandIDs_spec ids fuel : (size (byID g) < fuel)%nat -> (forall i, i ∈ ids -> is_Some (byID g !! i)) ->
  forall m, memo_ok m -> busy m = ∅ -> exists m', expandIDs fuel ids m g = Ret m' g /\ memo_ok m' /\ done_ m ⊆ done_ m' /\
    (forall i r, i ∈ ids -> byID g !! i = Some r -> done_ m' !! i = Some (E r)).
Proof using HI Hrk.
  intros Hf. induction ids as [|i ids IH]; intros Hids m Hm Hb; cbn [expandIDs].
  - exists m. split; [done|]. split; [done|]. split; [done|]. intros i r Hi. apply elem_of_nil in Hi. done.
  - run (eq_refl : gets (fun g => byID g !! i) g = Ret (byID g !! i) g). destruct (Hids i) as [r Hr]; [left|]. rewrite Hr.
    run (deref_eq r g). destruct (expansionOf_spec fuel r m) as (m1 & E1 & Hm1 & Hb1 & Hd1 & Hi1); [eexists; done|done| | |].
    { intros j Hj. rewrite Hb in Hj. set_solver. } { rewrite Hb, size_empty. lia. }
    run E1. cbn [snd]. destruct (IH ltac:(intros j Hj; apply Hids; right; done) m1 Hm1 ltac:(congruence)) as (m2 & E2 & Hm2 & Hd2 & Hi2).
    exists m2. split; [done|]. split; [done|]. split; [etransitivity; done|].
    intros j r' [->|Hj]%elem_of_cons Hj'; [|eauto]. assert (r' = r) as -> by congruence. eapply lookup_weaken; [apply Hi1; done|done].
Qed.

End expand.

Lemma expansions_spec g B E : inv g B E -> exists memo, expansions g = Ret memo g /\
  forall i r, byID g !! i = Some r -> memo !! i = Some (E r).
Proof.
  intros HI. destruct (inv_acyclic g B E HI) as [rk Hrk]. unfold expansions.
  run (eq_refl : gets sortedIDs g = Ret (sortedIDs g) g).
  run (eq_refl : gets (fun g => S (S (size (byID g)))) g = Ret (S (S (size (byID g)))) g).
  destruct (expandIDs_spec g B E HI rk Hrk (sortedIDs g) (S (S (size (byID g)))) ltac:(lia)) with (m := mkMemo ∅ ∅)
    as (m & E1 & _ & _ & Hm); [intros i; apply elem_sortedIDs|done|done|].
  run E1. exists (done_ m). split; [done|]. intros i r Hi. apply Hm; [apply elem_sortedIDs; eauto|done].
Qed.

(** ** The exported rules *)

(** The rule at address [r], as [Rules] reports it. *)
Definition rendered (g : gram) (B : bodies) (E : rptr -> list Symbol) (r : rptr) : Rule :=
  mkRule (idOf g r) (appended (encs g (default [] (B !! r)))) (usesOf g r) (appended (E r)) (Z.of_nat (length (E r))).

Definition ruleAt (g : gram) (i : RuleID) : rptr := default 0%nat (byID g !! i).

Lemma renderRules_spec g B E memo ids : inv g B E -> (forall i r, byID g !! i = Some r -> memo !! i = Some (E r)) ->
  (forall i, i ∈ ids -> is_Some (byID g !! i)) ->
  renderRules memo ids g = Ret ((fun i => rendered g B E (ruleAt g i)) <$> ids) g.
Proof.
  intros HI Hmemo. pose proof (inv_rep g B E HI) as HR. induction ids as [|i ids IH]; intros Hids; [done|]. cbn [renderRules fmap list_fmap].
  destruct (Hids i) as [r Hr]; [left|]. run (eq_refl : gets (fun g => byID g !! i) g = Ret (byID g !! i) g). rewrite Hr.
  run (deref_eq r g). destruct (live_rule g B r HR (ex_intro _ i Hr)) as (x & l & Hx & Hl & _).
  assert (loadr r g = Ret x g) as El by (unfold loadr; rewrite Hx; done). run El. run (bodyOf_spec g B r l HR Hl).
  run (IH ltac:(intros j Hj; apply Hids; right; done)). unfold ruleAt. rewrite Hr, (Hmemo i r Hr). cbn.
  unfold rendered, idOf, usesOf. rewrite Hx, Hl. done.
Qed.

Definition renderedRules (g : gram) (B : bodies) (E : rptr -> list Symbol) : list Rule :=
  (fun i => rendered g B E (ruleAt g i)) <$> sortedIDs g.

Lemma snapshotRules_spec g B E : inv g B E -> snapshotRules g = Ret (appended (renderedRules g B E)) g.
Proof.
  intros HI. unfold snapshotRules, renderedRules. run (eq_refl : gets sortedIDs g = Ret (sortedIDs g) g).
  destruct (sortedIDs g) as [|i ids] eqn:Ei; [done|]. destruct (expansions_spec g B E HI) as (memo & Em & Hm). run Em.
  rewrite <- Ei. rewrite (bind_ret _ _ _ _ _ (renderRules_spec g B E memo (sortedIDs g) HI Hm ltac:(intros j; apply elem_sortedIDs))).
  rewrite Ei. done.
Qed.

Lemma compressed_spec g B E l : inv g B E -> B !! start g = Some l -> Compressed g = Ret (appended (encs g l)) g.
Proof.
  intros HI Hl. unfold Compressed. run (eq_refl : gets start g = Ret (start g) g). apply (bodyOf_spec g B); [apply HI|done].
Qed.

Lemma elems_appended {A} (l : list A) : elems (appended l) = l.
Proof. destruct l; done. Qed.
