(* ===== verification/SeqSpec.v ===== *)
(** What the grammar promises its consumers: over every session of appends and resets the exported
    rules and the compressed sequence stand for exactly the symbols appended since the last reset,
    every rule is used at least twice and really recurs in the stream. *)

From S2P Require Import Prelude Strconv Sequitur SeqInv SeqSplice SeqCascade SeqAppend SeqRead.

(** ** Reading an exported grammar *)

Definition ruleNamed (rs : list Rule) (i : RuleID) : option Rule := List.find (fun R => ID R =? i) rs.

(** The terminals one exported symbol stands for. *)
Definition meaning (rs : list Rule) (s : Symbol) : list Symbol :=
  match ParseRuleRef s with
  | Some i => match ruleNamed rs i with Some R => elems (Expansion R) | None => [s] end
  | None => [s]
  end.

(** A reader that "expands the references through Rules()". *)
Definition decompress (rs : list Rule) (l : list Symbol) : list Symbol := concat (meaning rs <$> l).

(** A symbol no encoder mistakes for a reference: the reserved prefix does not begin it. *)
Definition plain (s : Symbol) : Prop := ParseRuleRef s = None.

(** The keys of a grammar over plain symbols. *)
Definition plain_keys (B : bodies) : Prop := forall r l c, B !! r = Some l -> c ∈ l -> kref c.2 = None -> plain (kval c.2).

Section reading.
Context (g : gram) (B : bodies) (E : rptr -> list Symbol) (HI : inv g B E) (Hid : nextID g <= 2 ^ 63).

Lemma idOf_live r i : byID g !! i = Some r -> idOf g r = i /\ 1 <= i <= MaxInt.
Proof using HI Hid.
  intros Hi. destruct (rep_byid g B (inv_rep _ _ _ HI) _ _ Hi) as (x & Hx & <- & _ & Hb). unfold idOf. rewrite Hx.
  cbn. unfold MaxInt. lia.
Qed.

Lemma ruleNamed_spec ids i r : i ∈ ids -> (forall j, j ∈ ids -> is_Some (byID g !! j)) -> byID g !! i = Some r ->
  ruleNamed ((fun j => rendered g B E (ruleAt g j)) <$> ids) i = Some (rendered g B E r).
Proof using HI Hid.
  intros Hin Hall Hi. unfold ruleNamed. induction ids as [|j ids IH]; [apply elem_of_nil in Hin; done|].
  cbn [fmap list_fmap find]. destruct (Hall j) as [rj Hj]; [left|].
  assert (ID (rendered g B E (ruleAt g j)) = j) as -> by (unfold ruleAt; rewrite Hj; apply (idOf_live rj j Hj)).
  destruct (j =? i) eqn:Ej; bsolve.
  - subst j. rewrite Hi in Hj. injection Hj as <-. unfold ruleAt. rewrite Hi. done.
  - apply IH; [|intros k Hk; apply Hall; right; done]. apply elem_of_cons in Hin as [->|Hin]; [lia|done].
Qed.

Lemma meaning_ref r : live g r -> meaning (renderedRules g B E) (RuleRef (idOf g r)) = E r.
Proof using HI Hid.
  intros [i Hi]. destruct (idOf_live r i Hi) as [-> Hr]. unfold meaning. rewrite ruleRef_parse by lia.
  unfold renderedRules. rewrite (ruleNamed_spec _ i r); [apply elems_appended|apply elem_sortedIDs; eauto| |done].
  intros j. apply elem_sortedIDs.
Qed.

Lemma decompress_body r l : plain_keys B -> B !! r = Some l -> decompress (renderedRules g B E) (encs g l) = sem E l.
Proof using HI Hid.
  intros Hp Hl. unfold decompress, encs, sem. rewrite <- list_fmap_compose. f_equal. apply list_fmap_ext.
  intros k [p key] Hc. apply list_elem_of_lookup_2 in Hc. cbn [compose snd]. unfold compose, enc, symE. cbn [snd].
  destruct (kref key) as [r'|] eqn:Ek.
  - apply meaning_ref. eapply (rep_refs g B (inv_rep _ _ _ HI)); done.
  - unfold meaning. rewrite (Hp r l (p, key) Hl Hc Ek). done.
Qed.

(** The terminals of an acyclic grammar all come from the stream. *)
Lemma sem_terminal l c : c ∈ l -> kref c.2 = None -> kval c.2 ∈ sem E l.
Proof.
  intros Hc Hk. unfold sem. rewrite list_elem_of_In. apply in_concat. exists [kval c.2]. split; [|left; done].
  apply list_elem_of_In, list_elem_of_fmap. exists c. split; [|done]. unfold symE. rewrite Hk. done.
Qed.

Lemma sem_ref l c r s : c ∈ l -> kref c.2 = Some r -> s ∈ E r -> s ∈ sem E l.
Proof.
  intros Hc Hk Hs. unfold sem. rewrite list_elem_of_In. apply in_concat. exists (E r). split; [|apply list_elem_of_In; done].
  apply list_elem_of_In, list_elem_of_fmap. exists c. split; [|done]. unfold symE. rewrite Hk. done.
Qed.

Lemma reach_start rk : useful g B -> ranked B rk -> forall r s, live g r -> s ∈ E r -> s ∈ E (start g).
Proof using HI.
  intros HU Hrk. pose proof (inv_rep g B E HI) as HR. destruct (rank_bound B rk) as [b Hb].
  assert (forall n r s, (b - rk r < n)%nat -> live g r -> s ∈ E r -> s ∈ E (start g)) as H; [|eauto].
  intros n. induction n as [|n IH]; intros r s Hn Hr Hs; [lia|].
  destruct (proj1 (nrefs_pos B r) (HU r Hr)) as (r1 & l & c & Hl & Hc & Hk). pose proof (sem_ref l c r s Hc Hk Hs) as Hs1.
  rewrite <- (inv_solves g B E HI _ _ Hl) in Hs1. destruct (decide (r1 = start g)) as [->|Hs']; [done|].
  destruct (owner_live g B r1 l HR Hl) as [?|Hl1]; [intros ->; apply elem_of_nil in Hc; done|done|].
  pose proof (Hrk r1 l c Hl Hc) as Hlt. unfold symRank in Hlt. rewrite Hk in Hlt. pose proof (Hb r1 ltac:(eauto)).
  apply (IH r1); [lia|done|done].
Qed.

Lemma stream_plain : useful g B -> (forall s, s ∈ E (start g) -> plain s) -> plain_keys B.
Proof using HI.
  intros HU Hp r l c Hl Hc Hk. pose proof (inv_rep g B E HI) as HR. destruct (inv_acyclic g B E HI) as [rk Hrk].
  apply Hp. pose proof (sem_terminal l c Hc Hk) as Hs. rewrite <- (inv_solves g B E HI _ _ Hl) in Hs.
  destruct (decide (r = start g)) as [->|Hne]; [done|].
  destruct (owner_live g B r l HR Hl) as [?|Hl1]; [intros ->; apply elem_of_nil in Hc; done|done|].
  eapply reach_start; done.
Qed.

End reading.

(** ** Sessions *)

Inductive sop : Type :=
  | SAppend (s : Symbol)
  | SReset.

Definition stepOp (o : sop) : M unit := match o with SAppend s => Append s | SReset => Reset end.
Fixpoint runOps (ops : list sop) : M unit := match ops with [] => mret tt | o :: ops => stepOp o;; runOps ops end.

(** The abstract grammar: the symbols appended since the last reset. *)
Definition abstract_op (w : list Symbol) (o : sop) : list Symbol := match o with SAppend s => w ++ [s] | SReset => [] end.
Definition streamOf (ops : list sop) : list Symbol := fold_left abstract_op ops [].

Lemma runOps_stands ops : forall w g, stands_for g w -> 2 * Z.of_nat (length w + length ops) + 1 < 2 ^ 63 -> exists g',
  runOps ops g = Ret tt g' /\ stands_for g' (fold_left abstract_op ops w).
Proof.
  induction ops as [|[s|] ops IH]; intros w g Hg Hl; cbn [runOps fold_left stepOp abstract_op].
  - exists g. done.
  - cbn [length] in Hl. destruct (append_stands g w s Hg) as (g1 & E1 & H1); [lia|]. run E1.
    apply IH; [done|]. rewrite length_app. cbn. lia.
  - cbn [length] in Hl. destruct (reset_stands g w Hg) as (g1 & E1 & H1). run E1. apply IH; [done|]. cbn. lia.
Qed.

Lemma fold_abstract_length ops : forall w, (length (fold_left abstract_op ops w) <= length w + length ops)%nat.
Proof.
  induction ops as [|o ops IH]; intros w; cbn [fold_left length]; [lia|]. specialize (IH (abstract_op w o)).
  assert (length (abstract_op w o) <= S (length w))%nat; [|lia]. destruct o; cbn; [rewrite length_app; cbn; lia|lia].
Qed.

(** A session runs to a grammar that stands for its stream, with ids in range. *)
Lemma session ops : Z.of_nat (length ops) < 2 ^ 62 - 1 -> exists g B E,
  runOps ops newSequiturGrammar = Ret tt g /\ inv g B E /\ useful g B /\ (forall r, live g r -> 2 <= usesOf g r) /\
  E (start g) = streamOf ops /\ nextID g <= 2 ^ 63.
Proof.
  intros Hl. destruct (runOps_stands ops [] newSequiturGrammar new_stands) as (g & Eg & B & E & HI & H2 & Hw & Hb); [cbn; lia|].
  exists g, B, E. pose proof (stands_useful g B E HI H2) as HU. split; [done|]. split; [done|]. split; [done|]. split; [done|].
  split; [done|]. pose proof (mu_cells g B (inv_rep _ _ _ HI) HU). pose proof (fold_abstract_length ops []). cbn in *. lia.
Qed.

(** C1: nothing the session did is lost, and no operation fails.  After any sequence of appends and resets
    (fewer than 2^62 - 1), [Append]'s cascade and utility sweep having returned each time within the fuel and
    without dereferencing a nil pointer, [Rules] and [Compressed] return, and expanding the references of the
    compressed sequence through the rules gives exactly the symbols appended since the last reset.  The symbols
    must not be spelled like a rule reference: the prefix that marks one is reserved. *)
Theorem grammar_lossless ops :
  Z.of_nat (length ops) < 2 ^ 62 - 1 -> (forall s, s ∈ streamOf ops -> plain s) -> exists g rs c,
    runOps ops newSequiturGrammar = Ret tt g /\ Rules g = Ret rs g /\ Compressed g = Ret c g /\
    decompress (elems rs) (elems c) = streamOf ops.
Proof.
  intros Hl Hp. destruct (session ops Hl) as (g & B & E & Eg & HI & HU & _ & Hw & Hn).
  destruct (rep_start g B (inv_rep _ _ _ HI)) as [ls Hls].
  exists g, (appended (renderedRules g B E)), (appended (encs g ls)). split; [done|].
  split; [apply snapshotRules_spec; done|]. split; [eapply compressed_spec; done|]. rewrite !elems_appended.
  rewrite (decompress_body g B E HI Hn (start g) ls); [|apply (stream_plain g B E HI HU); rewrite Hw; done|done].
  rewrite <- Hw. symmetry. apply (inv_solves g B E HI). done.
Qed.

(** ** What [Rules] reports *)

(** How often a symbol occurs in a sequence. *)
Definition occ (s : Symbol) (l : list Symbol) : Z := Z.of_nat (length (filter (fun x => x = s) l)).

Lemma occ_app s l1 l2 : occ s (l1 ++ l2) = occ s l1 + occ s l2.
Proof. unfold occ. rewrite filter_app, length_app. lia. Qed.

Lemma occ_cons s x l : occ s (x :: l) = (if decide (x = s) then 1 else 0) + occ s l.
Proof. unfold occ. rewrite filter_cons. case_decide; cbn [length]; lia. Qed.

(** References from the bodies of some rules. *)
Definition refsFrom (B : bodies) (L : list rptr) (r : rptr) : Z := refs (concat ((fun r' => default [] (B !! r')) <$> L)) r.

Lemma refsFrom_cons B x L r : refsFrom B (x :: L) r = refs (default [] (B !! x)) r + refsFrom B L r.
Proof. unfold refsFrom. cbn [fmap list_fmap concat]. apply refs_app. Qed.

(** All references come from the bodies that have one. *)
Lemma nrefs_from L r : forall B : bodies, NoDup L -> (forall r' l, B !! r' = Some l -> r' ∉ L -> refs l r = 0) ->
  nrefs B r = refsFrom B L r.
Proof.
  induction L as [|x L IH]; intros B HN Hrest.
  - apply nrefs_zero. intros r' l c Hl Hc Hk. specialize (Hrest r' l Hl (not_elem_of_nil r')).
    assert (1 <= refs l r) by (apply refs_pos; eauto). lia.
  - apply NoDup_cons in HN as [Hx HN]. rewrite refsFrom_cons.
    assert (nrefs B r = refs (default [] (B !! x)) r + nrefs (delete x B) r) as ->.
    { destruct (B !! x) as [l|] eqn:El; [|rewrite delete_id by done; done]. unfold nrefs. rewrite (cells_split B x l El). apply refs_app. }
    f_equal. rewrite (IH (delete x B) HN).
    + unfold refsFrom. do 2 f_equal. apply list_fmap_ext. intros k r' Hr'. apply list_elem_of_lookup_2 in Hr'.
      rewrite lookup_delete_ne; [done|]. intros ->. done.
    + intros r' l Hl Hn. apply lookup_delete_Some in Hl as [Hne Hl]. apply (Hrest r' l Hl). rewrite not_elem_of_cons. auto.
Qed.

Section report.
Context (g : gram) (B : bodies) (E : rptr -> list Symbol) (HI : inv g B E) (Hid : nextID g <= 2 ^ 63) (Hp : plain_keys B).

Lemma refs_occ r l r' : live g r -> B !! r' = Some l -> refs l r = occ (RuleRef (idOf g r)) (encs g l).
Proof using HI Hid Hp.
  intros [i Hi] Hl. destruct (idOf_live g B E HI Hid r i Hi) as [Er Hb]. rewrite Er.
  assert (forall c, c ∈ l -> kref c.2 = Some r <-> enc g c.2 = RuleRef i) as Hiff.
  { intros c Hc. unfold enc. destruct (kref c.2) as [r1|] eqn:Ek.
    - destruct (rep_refs g B (inv_rep _ _ _ HI) r' l c r1 Hl Hc Ek) as [j Hj]. destruct (idOf_live g B E HI Hid r1 j Hj) as [-> _].
      split; [intros [= ->]|intros ->%ruleRef_inj; congruence].
      destruct (idOf_live g B E HI Hid r j Hj) as [<- _]. rewrite Er. done.
    - split; [done|]. intros Ev. pose proof (Hp r' l c Hl Hc Ek) as Hpl. rewrite Ev in Hpl. unfold plain in Hpl.
      rewrite ruleRef_parse in Hpl by lia. done. }
  clear Hl. induction l as [|c l IH]; [done|]. rewrite refs_cons, IH by (intros d Hd; apply Hiff; right; done).
  unfold encs at 2. cbn [fmap list_fmap]. rewrite occ_cons. fold (encs g l). f_equal. unfold hits.
  pose proof (Hiff c ltac:(left)) as Hc. repeat case_decide; tauto.
Qed.

(** Use counts count the references of the exported text. *)
Lemma uses_occ r : live g r ->
  usesOf g r = occ (RuleRef (idOf g r)) (encs g (default [] (B !! start g)) ++
                                         concat ((fun R => elems (Body R)) <$> renderedRules g B E)).
Proof using HI Hid Hp.
  intros Hr. pose proof (inv_rep g B E HI) as HR. rewrite (inv_exact g B E HI r (rep_dom g B HR r Hr)).
  set (L := start g :: (ruleAt g <$> sortedIDs g)).
  assert (forall i, i ∈ sortedIDs g -> exists r, byID g !! i = Some r /\ ruleAt g i = r) as Hat.
  { intros i Hi. apply elem_sortedIDs in Hi as [r' Hr']. exists r'. unfold ruleAt. rewrite Hr'. done. }
  rewrite (nrefs_from L r B).
  - unfold renderedRules. rewrite <- list_fmap_compose, occ_app. unfold L. rewrite refsFrom_cons. unfold refsFrom.
    assert (forall r1, is_Some (B !! r1) -> refs (default [] (B !! r1)) r = occ (RuleRef (idOf g r)) (encs g (default [] (B !! r1)))) as Hone.
    { intros r1 [l1 Hl1]. rewrite Hl1. eapply refs_occ; done. }
    f_equal; [apply Hone, (rep_start g B HR)|]. rewrite <- list_fmap_compose.
    assert (forall i, i ∈ sortedIDs g -> is_Some (B !! ruleAt g i)) as Hin.
    { intros i Hi. destruct (Hat i Hi) as (r1 & H1 & ->). apply (rep_dom g B HR). eexists; done. }
    clear Hat L. induction (sortedIDs g) as [|i ids IH]; [done|]. cbn [fmap list_fmap concat]. rewrite refs_app, occ_app. unfold compose at 1 3.
    rewrite IH by (intros j Hj; apply Hin; right; done). f_equal. unfold rendered. cbn [Body]. rewrite elems_appended.
    apply Hone, Hin. left.
  - unfold L. apply NoDup_cons. split.
    + intros (i & Es & Hi)%list_elem_of_fmap. destruct (Hat i Hi) as (r1 & H1 & E1). destruct (rep_byid g B HR _ _ H1) as (_ & _ & _ & Hn & _). congruence.
    + apply NoDup_fmap_2_strong.
      * intros i j Hi Hj Eij. destruct (Hat i Hi) as (r1 & H1 & E1). destruct (Hat j Hj) as (r2 & H2 & E2).
        destruct (idOf_live g B E HI Hid r1 i H1) as [<- _]. destruct (idOf_live g B E HI Hid r2 j H2) as [<- _]. congruence.
      * unfold sortedIDs. rewrite merge_sort_Permutation. apply NoDup_fst_map_to_list.
  - intros r1 l Hl Hn. unfold L in Hn. apply not_elem_of_cons in Hn as [Hs Hn]. rewrite (rep_dead g B HR r1 l Hl Hs); [done|].
    intros [i Hi]. apply Hn, list_elem_of_fmap. exists i. split; [unfold ruleAt; rewrite Hi; done|]. apply elem_sortedIDs. eauto.
Qed.

Lemma sortedIDs_ascending : StronglySorted Z.lt (sortedIDs g).
Proof using.
  assert (StronglySorted Z.le (sortedIDs g)) as HS.
  { apply Sorted_StronglySorted; [intros a b c; lia|]. unfold sortedIDs. apply Sorted_merge_sort. intros a b. lia. }
  assert (NoDup (sortedIDs g)) as HN by (unfold sortedIDs; rewrite merge_sort_Permutation; apply NoDup_fst_map_to_list).
  induction HS as [|i ids HS IH HF]; [constructor|]. apply NoDup_cons in HN as [Hi HN]. constructor; [auto|].
  rewrite Forall_forall in *. intros j Hj. specialize (HF j Hj). assert (i <> j) by (intros ->; done). lia.
Qed.

Lemma rendered_ids : ID <$> renderedRules g B E = sortedIDs g.
Proof using HI Hid.
  unfold renderedRules. rewrite <- list_fmap_compose. rewrite <- (list_fmap_id (sortedIDs g)) at 2. apply list_fmap_ext.
  intros k i Hi. apply list_elem_of_lookup_2, elem_sortedIDs in Hi as [r Hr]. unfold compose, ruleAt. rewrite Hr.
  apply (idOf_live g B E HI Hid r i Hr).
Qed.

Lemma elem_rendered R : R ∈ renderedRules g B E -> exists r, live g r /\ R = rendered g B E r.
Proof using.
  intros (i & -> & Hi)%list_elem_of_fmap. apply elem_sortedIDs in Hi as [r Hr]. exists r. split; [eexists; done|].
  unfold ruleAt. rewrite Hr. done.
Qed.

End report.

(** C2: rule utility and exact reporting.  After any session, [Rules] lists the rules by strictly ascending id;
    every rule is used at least twice, and its use count is the number of references to it in the compressed
    sequence and in all bodies; its expansion is its body with the references expanded, and its span is the
    length of the expansion. *)
Theorem rules_report ops :
  Z.of_nat (length ops) < 2 ^ 62 - 1 -> (forall s, s ∈ streamOf ops -> plain s) -> exists g rs c,
    runOps ops newSequiturGrammar = Ret tt g /\ Rules g = Ret rs g /\ Compressed g = Ret c g /\
    StronglySorted Z.lt (ID <$> elems rs) /\
    forall R, R ∈ elems rs -> 2 <= Uses R /\
      Uses R = occ (RuleRef (ID R)) (elems c ++ concat ((fun R => elems (Body R)) <$> elems rs)) /\
      elems (Expansion R) = decompress (elems rs) (elems (Body R)) /\
      Span R = Z.of_nat (length (elems (Expansion R))).
Proof.
  intros Hl Hs. destruct (session ops Hl) as (g & B & E & Eg & HI & HU & H2 & Hw & Hn).
  destruct (rep_start g B (inv_rep _ _ _ HI)) as [ls Hls].
  assert (plain_keys B) as Hp by (apply (stream_plain g B E HI HU); rewrite Hw; done).
  exists g, (appended (renderedRules g B E)), (appended (encs g ls)). split; [done|].
  split; [apply snapshotRules_spec; done|]. split; [eapply compressed_spec; done|]. rewrite !elems_appended.
  split; [rewrite (rendered_ids g B E HI Hn); apply sortedIDs_ascending|].
  intros R HR. destruct (elem_rendered g B E R HR) as (r & Hr & ->). cbn [Uses ID Body Expansion Span rendered].
  rewrite !elems_appended. split; [apply H2; done|]. split; [rewrite (uses_occ g B E HI Hn Hp r Hr), Hls; done|]. split; [|done].
  destruct (live_rule g B r (inv_rep _ _ _ HI) Hr) as (x & l & _ & Hl' & _). rewrite Hl'. change (default [] (Some l)) with l.
  rewrite (decompress_body g B E HI Hn r l Hp Hl'). apply (inv_solves g B E HI). done.
Qed.

(** ** Reported rules really recur *)

(** [e] occurs [n] times in [w], at disjoint positions. *)
Definition repeats (e : list Symbol) (n : nat) (w : list Symbol) : Prop :=
  exists gaps tl, length gaps = n /\ w = concat ((fun x => x ++ e) <$> gaps) ++ tl.

Lemma repeats_le e n m w : (n <= m)%nat -> repeats e m w -> repeats e n w.
Proof.
  intros Hle (gaps & tl & Hl & ->). exists (take n gaps), (concat ((fun x => x ++ e) <$> drop n gaps) ++ tl).
  split; [rewrite length_take; lia|]. rewrite app_assoc, <- concat_app, <- fmap_app, take_drop. done.
Qed.

(** Sentential forms: sequences of keys on the way from the start rule to the stream. *)
Definition semK (E : rptr -> list Symbol) (F : list symKey) : list Symbol := concat (symE E <$> F).
Definition refsK (F : list symKey) (r : rptr) : Z := foldr (fun k a => hits k r + a) 0 F.
Definition unroll (p : rptr) (body F : list symKey) : list symKey :=
  concat ((fun k => if decide (kref k = Some p) then body else [k]) <$> F).

Lemma refsK_app F1 F2 r : refsK (F1 ++ F2) r = refsK F1 r + refsK F2 r.
Proof. induction F1 as [|k F1 IH]; [done|]. cbn. unfold refsK in *. rewrite IH. lia. Qed.

Lemma refsK_cells l r : refsK l.*2 r = refs l r.
Proof. induction l as [|c l IH]; [done|]. rewrite refs_cons, <- IH. done. Qed.

Lemma refsK_nonneg F r : 0 <= refsK F r.
Proof. induction F as [|k F IH]; [done|]. cbn. destruct (hits_cases k r) as [[_ ->]|[_ ->]]; unfold refsK in *; lia. Qed.

Lemma semK_app E F1 F2 : semK E (F1 ++ F2) = semK E F1 ++ semK E F2.
Proof. unfold semK. rewrite fmap_app, concat_app. done. Qed.

Lemma semK_cells E l : semK E l.*2 = sem E l.
Proof. unfold semK, sem. rewrite <- list_fmap_compose. done. Qed.

Lemma unroll_sem E p body F : E p = semK E body -> semK E (unroll p body F) = semK E F.
Proof.
  intros Hp. induction F as [|k F IH]; [done|]. unfold unroll in *. cbn [fmap list_fmap concat]. rewrite semK_app, IH.
  change (semK E (k :: F)) with (symE E k ++ semK E F). f_equal. case_decide as Hk; [|apply app_nil_r].
  unfold symE. rewrite Hk. done.
Qed.

Lemma unroll_refs p body F q : q <> p -> refsK (unroll p body F) q = refsK F q + refsK F p * refsK body q.
Proof.
  intros Hne. induction F as [|k F IH]; [done|]. unfold unroll in *. cbn [fmap list_fmap concat]. rewrite refsK_app, IH.
  change (refsK (k :: F) q) with (hits k q + refsK F q). change (refsK (k :: F) p) with (hits k p + refsK F p).
  unfold hits. case_decide as Hk.
  - rewrite decide_False by congruence. lia.
  - cbn. unfold hits. case_decide; lia.
Qed.

Lemma semK_repeats E F r : repeats (E r) (Z.to_nat (refsK F r)) (semK E F).
Proof.
  induction F as [|k F IH]; [exists [], []; done|]. destruct IH as (gaps & tl & Hl & HF).
  change (refsK (k :: F) r) with (hits k r + refsK F r). change (semK E (k :: F)) with (symE E k ++ semK E F). pose proof (refsK_nonneg F r).
  destruct (hits_cases k r) as [[Hk ->]|[Hk ->]].
  - exists ([] :: gaps), tl. cbn [length fmap list_fmap concat]. split; [lia|]. unfold symE. rewrite Hk, HF. cbn. rewrite <- app_assoc. done.
  - rewrite Z.add_0_l. destruct gaps as [|x gaps].
    + exists [], (symE E k ++ tl). split; [done|]. rewrite HF. done.
    + exists ((symE E k ++ x) :: gaps), tl. split; [done|]. rewrite HF. cbn. rewrite <- !app_assoc. done.
Qed.

(** Rules ordered by falling rank. *)
Definition higher (rk : rptr -> nat) (a b : rptr) : Prop := (rk b <= rk a)%nat.

#[global] Instance higher_dec rk : RelDecision (higher rk).
Proof. intros a b. unfold higher. apply _. Defined.

Section recur.
Context (g : gram) (B : bodies) (E : rptr -> list Symbol) (HI : inv g B E) (HU : useful g B).
Context (rk : rptr -> nat) (Hrk : ranked B rk) (r : rptr).

(** Unrolling the rules of rank above [r]'s, from the top: every rule not yet unrolled occurs in the form at
    least as often as the unrolled bodies refer to it. *)
Lemma unroll_all ps : forall F D,
  StronglySorted (higher rk) ps -> NoDup (ps ++ D) -> start g ∈ D -> (forall p, p ∈ ps -> live g p) ->
  (forall p, live g p -> (rk r < rk p)%nat -> p ∈ ps ++ D) -> (forall p, p ∈ ps -> (rk r < rk p)%nat) ->
  (forall q, q ∉ D -> refsFrom B D q <= refsK F q) ->
  exists F', semK E F' = semK E F /\ (forall q, q ∉ ps ++ D -> refsFrom B (reverse ps ++ D) q <= refsK F' q).
Proof using HI HU Hrk.
  pose proof (inv_rep g B E HI) as HR.
  induction ps as [|p ps IH]; intros F D HS HN Hst Hlv Hall Hlow HF; [exists F; done|].
  destruct (live_rule g B p HR (Hlv p ltac:(left))) as (_ & l & _ & Hl & _). inversion HS as [|? ? HS' Hmax]; subst.
  apply NoDup_cons in HN as [Hp HN]. rewrite not_elem_of_app in Hp. destruct Hp as [Hp HpD].
  assert (1 <= refsFrom B D p) as Hpos.
  { destruct (proj1 (nrefs_pos B p) (HU p (Hlv p ltac:(left)))) as (r1 & l1 & c & Hl1 & Hc & Hk).
    pose proof (Hrk r1 l1 c Hl1 Hc) as Hlt. unfold symRank in Hlt. rewrite Hk in Hlt.
    assert (r1 ∈ D) as HD.
    { destruct (owner_live g B r1 l1 HR Hl1) as [->|Hlr]; [intros ->; apply elem_of_nil in Hc; done|done|].
      specialize (Hlow p ltac:(left)). specialize (Hall r1 Hlr ltac:(lia)). cbn in Hall. rewrite elem_of_cons, elem_of_app in Hall.
      destruct Hall as [->|[Hin|Hin]]; [lia| |done]. rewrite Forall_forall in Hmax. specialize (Hmax r1 Hin). unfold higher in Hmax. lia. }
    unfold refsFrom. apply refs_pos. exists c. split; [|done]. rewrite list_elem_of_In. apply in_concat. exists l1.
    split; [|apply list_elem_of_In; done]. apply list_elem_of_In, list_elem_of_fmap. exists r1. rewrite Hl1. done. }
  destruct (IH (unroll p l.*2 F) (p :: D)) as (F' & HE & HF'); try done.
  - rewrite <- Permutation_middle. apply NoDup_cons. rewrite not_elem_of_app. done.
  - right. done.
  - intros q Hq. apply Hlv. right. done.
  - intros q Hq Hlt. specialize (Hall q Hq Hlt). cbn in Hall. rewrite <- Permutation_middle. done.
  - intros q Hq. apply Hlow. right. done.
  - intros q Hq. apply not_elem_of_cons in Hq as [Hqp Hq]. rewrite refsFrom_cons, Hl, unroll_refs by done. change (default [] (Some l)) with l.
    rewrite refsK_cells. specialize (HF q Hq) as H1. specialize (HF p HpD) as H2. pose proof (refs_nonneg l q). nia.
  - exists F'. split; [rewrite HE; apply unroll_sem; rewrite semK_cells; apply (inv_solves g B E HI); done|].
    intros q Hq. rewrite reverse_cons, <- app_assoc. apply HF'. rewrite <- Permutation_middle. done.
Qed.

(** The rules of rank above [r]'s, from the top. *)
Lemma above_list : exists ps, StronglySorted (higher rk) ps /\ NoDup (ps ++ [start g]) /\
  (forall p, p ∈ ps <-> live g p /\ (rk r < rk p)%nat).
Proof using HI.
  pose proof (inv_rep g B E HI) as HR.
  set (ps := merge_sort (higher rk) (filter (fun p => (rk r < rk p)%nat) (map_to_list (byID g)).*2)).
  assert (forall p, p ∈ ps <-> live g p /\ (rk r < rk p)%nat) as Hps.
  { intros p. unfold ps. rewrite merge_sort_Permutation, list_elem_of_filter, list_elem_of_fmap. split.
    - intros [Hlt ([i p'] & -> & Hi)]. apply elem_of_map_to_list in Hi. split; [eexists; done|done].
    - intros [[i Hi] Hlt]. split; [done|]. exists (i, p). split; [done|]. apply elem_of_map_to_list. done. }
  exists ps. split; [|split; [|done]].
  - apply Sorted_StronglySorted; [intros a b c; unfold higher; lia|]. apply Sorted_merge_sort. intros a b. unfold higher. lia.
  - rewrite NoDup_app. split; [|split; [|apply NoDup_singleton]].
    + unfold ps. rewrite merge_sort_Permutation. apply NoDup_filter, NoDup_fmap_2_strong; [|apply NoDup_map_to_list].
      intros [i a] [j b] Hi Hj Eab. cbn in Eab. subst b. apply elem_of_map_to_list in Hi, Hj.
      destruct (rep_byid g B HR _ _ Hi) as (x & Hx & <- & _). destruct (rep_byid g B HR _ _ Hj) as (y & Hy & <- & _). congruence.
    + intros p Hp Hq. apply list_elem_of_singleton in Hq as ->. apply Hps in Hp as [Hp _].
      destruct (live_rule g B _ HR Hp) as (_ & _ & _ & _ & H & _). done.
Qed.

(** A rule's expansion occurs in the stream as often as the rule is used. *)
Lemma rule_recurs : live g r -> repeats (E r) (Z.to_nat (nrefs B r)) (E (start g)).
Proof using HI HU Hrk.
  intros Hr. pose proof (inv_rep g B E HI) as HR. destruct (rep_start g B HR) as [ls Hls].
  destruct above_list as (ps & HS & HN & Hps). destruct (live_rule g B r HR Hr) as (_ & lr & _ & Hlr & Hrs & _).
  destruct (unroll_all ps ls.*2 [start g]) as (F & HF & Hcnt); try done.
  - left.
  - intros p Hp. apply Hps. done.
  - intros p Hp Hlt. apply elem_of_app. left. apply Hps. done.
  - intros p Hp. apply Hps. done.
  - intros q _. rewrite refsFrom_cons, Hls, refsK_cells. change (refsFrom B [] q) with 0. change (default [] (Some ls)) with ls. lia.
  - assert (r ∉ ps ++ [start g]) as Hnr.
    { rewrite not_elem_of_app, Hps, list_elem_of_singleton. split; [|done]. intros [_ ?]. lia. }
    specialize (Hcnt r Hnr). rewrite <- (nrefs_from _ r B) in Hcnt.
    + rewrite semK_cells, <- (inv_solves g B E HI _ _ Hls) in HF. rewrite <- HF.
      eapply repeats_le; [|apply semK_repeats]. lia.
    + rewrite reverse_Permutation. done.
    + intros r' l Hl Hn. pose proof (refs_nonneg l r). destruct (decide (1 <= refs l r)) as [Hp|]; [|lia]. exfalso.
      apply refs_pos in Hp as (c & Hc & Hk). pose proof (Hrk r' l c Hl Hc) as Hlt. unfold symRank in Hlt. rewrite Hk in Hlt.
      destruct (owner_live g B r' l HR Hl) as [->|Hl1]; [intros ->; apply elem_of_nil in Hc; done|set_solver +Hn|].
      apply Hn, elem_of_app. left. apply elem_of_reverse, Hps. done.
Qed.

End recur.

(** A reported loop is a loop.  After any session, [Thrash(minUses)] returns exactly the rules of [Rules]
    used more than [minUses] times with an expansion of two symbols at least, and the expansion of each occurs in the
    session's stream at least [Uses] times, at pairwise disjoint positions: use counts never overstate repetition,
    however deeply the rules are nested. *)
Theorem thrash_recurs ops minUses : Z.of_nat (length ops) < 2 ^ 62 - 1 -> exists g rs ts,
  runOps ops newSequiturGrammar = Ret tt g /\ Rules g = Ret rs g /\ Thrash minUses g = Ret ts g /\
  (forall R, R ∈ elems ts <-> R ∈ elems rs /\ minUses < Uses R /\ (2 <= length (elems (Expansion R)))%nat) /\
  (forall R, R ∈ elems ts -> repeats (elems (Expansion R)) (Z.to_nat (Uses R)) (streamOf ops)).
Proof.
  intros Hl. destruct (session ops Hl) as (g & B & E & Eg & HI & HU & H2 & Hw & Hn).
  pose proof (snapshotRules_spec g B E HI) as Es.
  exists g, (appended (renderedRules g B E)), (appended (List.filter (thrashing minUses) (renderedRules g B E))).
  split; [done|]. split; [done|]. split; [unfold Thrash; run Es; rewrite elems_appended; done|]. rewrite !elems_appended.
  assert (forall R, R ∈ List.filter (thrashing minUses) (renderedRules g B E) <->
    R ∈ renderedRules g B E /\ minUses < Uses R /\ (2 <= length (elems (Expansion R)))%nat) as Hf.
  { intros R. rewrite !list_elem_of_In, filter_In. unfold thrashing. rewrite andb_true_iff, Z.ltb_lt, Nat.leb_le. done. }
  split; [done|]. intros R [HR _]%Hf. destruct (elem_rendered g B E R HR) as (r & Hr & ->).
  cbn [Uses Expansion rendered]. rewrite elems_appended, <- Hw, (inv_exact g B E HI r (rep_dom g B (inv_rep _ _ _ HI) r Hr)).
  destruct (inv_acyclic g B E HI) as [rk Hrk]. apply (rule_recurs g B E HI HU rk Hrk r Hr).
Qed.

(** ** Witnesses *)

(** A reset, then [abab]. *)
Definition demo : list sop := SReset :: (SAppend <$> ((fun b => [b]) <$> str "abab")).

Lemma demo_length : Z.of_nat (length demo) < 2 ^ 62 - 1.
Proof. vm_compute. done. Qed.

Lemma forall_check {A} (f : A -> bool) l : forallb f l = true -> forall x, x ∈ l -> f x = true.
Proof. intros H x Hx. apply (proj1 (forallb_forall f l) H), list_elem_of_In, Hx. Qed.

Lemma plain_check l : forallb (fun s => bool_decide (ParseRuleRef s = None)) l = true -> forall s, s ∈ l -> plain s.
Proof. intros H s Hs. apply (bool_decide_eq_true_1 _), (forall_check _ l H s Hs). Qed.

Lemma demo_plain s : s ∈ streamOf demo -> plain s.
Proof. revert s. apply plain_check. vm_compute. reflexivity. Qed.

Lemma grammar_lossless_witness : exists g rs c,
  runOps demo newSequiturGrammar = Ret tt g /\ Rules g = Ret rs g /\ Compressed g = Ret c g /\
  decompress (elems rs) (elems c) = streamOf demo.
Proof. exact (grammar_lossless demo demo_length demo_plain). Defined.

Lemma rules_report_witness : exists g rs c,
  runOps demo newSequiturGrammar = Ret tt g /\ Rules g = Ret rs g /\ Compressed g = Ret c g /\
  StronglySorted Z.lt (ID <$> elems rs) /\
  forall R, R ∈ elems rs -> 2 <= Uses R /\
    Uses R = occ (RuleRef (ID R)) (elems c ++ concat ((fun R => elems (Body R)) <$> elems rs)) /\
    elems (Expansion R) = decompress (elems rs) (elems (Body R)) /\
    Span R = Z.of_nat (length (elems (Expansion R))).
Proof. exact (rules_report demo demo_length demo_plain). Defined.

Lemma thrash_recurs_witness : exists g rs ts,
  runOps demo newSequiturGrammar = Ret tt g /\ Rules g = Ret rs g /\ Thrash 1 g = Ret ts g /\
  (forall R, R ∈ elems ts <-> R ∈ elems rs /\ 1 < Uses R /\ (2 <= length (elems (Expansion R)))%nat) /\
  (forall R, R ∈ elems ts -> repeats (elems (Expansion R)) (Z.to_nat (Uses R)) (streamOf demo)).
Proof. exact (thrash_recurs demo 1 demo_length). Defined.
