(* ===== verification/SeqRestore.v ===== *)
(** [Restore] ([sequitur.go]): the validation and rebuilding of a grammar from a snapshot.  Every accepted
    snapshot yields a well-formed grammar, a refusal leaves the receiver alone, and a session's own
    snapshot is accepted and reproduced. *)

From S2P Require Import Prelude Strconv Sequitur SeqInv SeqSplice SeqCascade SeqAppend SeqRead SeqSpec.

(** ** The code *)

(** The refusals; each wraps [core.ErrDegraded]. *)
Inductive restoreError : Type :=
  | BelowFirst (i : nat) (rid : RuleID)
  | NotAscending (i : nat) (rid after : RuleID)
  | EmptyBody (rid : RuleID)
  | NextCollides (nxt last : RuleID)
  | Dangling (owner rid : RuleID)
  | Unreferenced (rid : RuleID)
  | Cyclic (rid : RuleID).

(** Pass 1: mint every rule, checking identity. [i] counts the rules, [prev] is the last id seen. *)
Fixpoint mintRules (rs : list Rule) (i : nat) (prev : RuleID) : M (restoreError + RuleID) :=
  match rs with
  | [] => mret (inr prev)
  | r :: rs =>
      if ID r <? firstInducedRuleID then mret (inl (BelowFirst i (ID r)))
      else if (0 <? i)%nat && (ID r <=? prev) then mret (inl (NotAscending i (ID r) prev))
      else if (length (elems (Body r)) =? 0)%nat then mret (inl (EmptyBody (ID r)))
      else
        p ← newGuardedRule (ID r);
        modify (with_byID <[ID r := p]>);;
        mintRules rs (S i) (ID r)
  end.

(** The choice of [nextID] between the passes. *)
Definition chooseNext (rs : list Rule) (next prev : RuleID) : restoreError + RuleID :=
  if (length rs =? 0)%nat && (next <? firstInducedRuleID) then inr firstInducedRuleID
  else if next <=? prev then inl (NextCollides next prev)
  else inr next.

Definition pushBack (owner : rptr) (n : node) : M unit :=
  x ← loadr owner;
  l ← getPrev (rguard x);
  p ← alloc n;
  insertAfter l p.

Fixpoint fill (owner : rptr) (body : list Symbol) : M (option restoreError) :=
  match body with
  | [] => mret None
  | sym :: body =>
      match ParseRuleRef sym with
      | None => pushBack owner (mkNode sym None None None None);; fill owner body
      | Some i =>
          t ← gets (fun g => byID g !! i);
          match t with
          | None => x ← loadr owner; mret (Some (Dangling (id x) i))
          | Some target =>
              setUses target (fun u => u + 1);;
              pushBack owner (mkNode [] (Some target) None None None);;
              fill owner body
          end
      end
  end.

(** Pass 2 over the rules. *)
Fixpoint fillRules (rs : list Rule) : M (option restoreError) :=
  match rs with
  | [] => mret None
  | r :: rs =>
      t ← gets (fun g => byID g !! ID r);
      p ← deref t;
      e ← fill p (elems (Body r));
      match e with Some e => mret (Some e) | None => fillRules rs end
  end.

(** The first rule nothing references, in ascending order. *)
Fixpoint unreferenced (g : gram) (ids : list RuleID) : option RuleID :=
  match ids with
  | [] => None
  | i :: ids => if usesOf g (ruleAt g i) =? 0 then Some i else unreferenced g ids
  end.

(** The colours of [findCycle]; a missing entry is [unvisited]. *)
Inductive colour : Type := onStack | done.

#[global] Instance colour_eq_dec : EqDecision colour.
Proof. solve_decision. Defined.

(** The loop of [walk] over a body; [rec] walks a referenced rule. *)
Fixpoint walkCells (rec : rptr -> gmap RuleID colour -> M (bool * gmap RuleID colour)) (l : list ptr)
    (st : gmap RuleID colour) : M (bool * gmap RuleID colour) :=
  match l with
  | [] => mret (false, st)
  | p :: l =>
      n ← load p;
      match ref n with
      | None => walkCells rec l st
      | Some r =>
          x ← loadr r;
          match st !! id x with
          | Some onStack => mret (true, st)
          | Some done => walkCells rec l st
          | None => y ← rec r st; if (y.1 : bool) then mret (true, y.2) else walkCells rec l y.2
          end
      end
  end.

Fixpoint walkRule (fuel : nat) (r : rptr) (st : gmap RuleID colour) : M (bool * gmap RuleID colour) :=
  match fuel with
  | O => out_of_fuel
  | S fuel =>
      x ← loadr r;
      l ← bodyCells r;
      y ← walkCells (walkRule fuel) l (<[id x := onStack]> st);
      if (y.1 : bool) then mret (true, y.2) else mret (false, <[id x := done]> y.2)
  end.

Fixpoint walkIDs (fuel : nat) (ids : list RuleID) (st : gmap RuleID colour) : M (option RuleID) :=
  match ids with
  | [] => mret None
  | i :: ids =>
      match st !! i with
      | Some _ => walkIDs fuel ids st
      | None =>
          t ← gets (fun g => byID g !! i);
          r ← deref t;
          y ← walkRule fuel r st;
          if (y.1 : bool) then mret (Some i) else walkIDs fuel ids y.2
      end
  end.

Definition findCycle : M (option RuleID) :=
  ids ← gets sortedIDs;
  k ← gets (fun g => S (size (byID g)));
  walkIDs k ids ∅.

(** [record]'s body for one cell. *)
Definition recordDigram (p : ptr) : M unit :=
  k ← digramAt p;
  match k with
  | None => mret tt
  | Some k =>
      o ← gets (fun g => index g !! k);
      match o with None => modify (with_index <[k := p]>) | Some _ => mret tt end
  end.

Definition recordRule (r : rptr) : M unit := l ← bodyCells r; forEach recordDigram l.

Definition reindex : M unit :=
  st ← gets start;
  recordRule st;;
  ids ← gets sortedIDs;
  forEach (fun i => t ← gets (fun g => byID g !! i); r ← deref t; recordRule r) ids.

(** Passes 2 and 3, after the ids are settled. *)
Definition fillAndCheck (s : Snapshot) : M (option restoreError) :=
  e ← fillRules (elems (Rules_ s));
  match e with
  | Some e => mret (Some e)
  | None =>
      st ← gets start;
      e ← fill st (elems (Sequence s));
      match e with
      | Some e => mret (Some e)
      | None =>
          u ← gets (fun g => unreferenced g (sortedIDs g));
          match u with
          | Some i => mret (Some (Unreferenced i))
          | None =>
              c ← findCycle;
              match c with
              | Some i => mret (Some (Cyclic i))
              | None => reindex;; mret None
              end
          end
      end
  end.

Definition buildFromSnapshot (s : Snapshot) : M (option restoreError) :=
  m ← mintRules (elems (Rules_ s)) 0 startRuleID;
  match m with
  | inl e => mret (Some e)
  | inr prev =>
      match chooseNext (elems (Rules_ s)) (NextID s) prev with
      | inl e => mret (Some e)
      | inr n => modify (with_nextID n);; fillAndCheck s
      end
  end.

(** The fresh grammar replaces the receiver only when nothing was refused. *)
Definition Restore (s : Snapshot) : M (option restoreError) := fun g =>
  match buildFromSnapshot s newSequiturGrammar with
  | Ret None fresh => Ret None fresh
  | Ret (Some e) _ => Ret (Some e) g
  | Crash => Crash
  | OutOfFuel => OutOfFuel
  end.

(** One symbol per letter. *)
Definition word (s : string) : list Symbol := (fun b => [b]) <$> str s.

(** The answer of a program, if it returns. *)
Definition answer {A} (m : M A) (g : gram) : option A := match m g with Ret a _ => Some a | _ => None end.

#[global] Instance Rule_eq_dec : EqDecision Rule.
Proof. solve_decision. Defined.
#[global] Instance Snapshot_eq_dec : EqDecision Snapshot.
Proof. solve_decision. Defined.

(** The six symbols [abbbab], saved and restored, then [cbb]: the restored grammar, whose snapshot is the saved
    one, folds the repeated [bb]; the live one, whose index lost that digram, does not. *)
Lemma restored_diverges :
  answer (appendAll (word "abbbab");; appendAll (word "cbb");; c ← Compressed; mret (length (elems c)))
    newSequiturGrammar = Some 7%nat /\
  answer (appendAll (word "abbbab");; s ← TakeSnapshot; e ← Restore s; s' ← TakeSnapshot;
          appendAll (word "cbb");; c ← Compressed; mret (e, bool_decide (s = s'), length (elems c)))
    newSequiturGrammar = Some (None, true, 5%nat).
Proof. vm_compute. done. Qed.

(** Digram uniqueness does not hold: after [abbbabcbb] the pair [bb] stands twice in the top-level sequence, at
    disjoint positions, and no rule has it.  Folding [ab] dropped the index entry of the overlapping [bb]. *)
Lemma digram_repeats :
  answer (appendAll (word "abbbabcbb");; r ← Rules; c ← Compressed; mret (Body <$> elems r, elems c)) newSequiturGrammar =
    Some ([Some (word "ab")], RuleRef 1 :: word "bb" ++ [RuleRef 1] ++ word "cbb").
Proof. vm_compute. done. Qed.

(** ** Pass 1 *)

Lemma rep_set_nextID g B n : rep g B -> (forall i r, byID g !! i = Some r -> i < n) -> rep (with_nextID n g) B.
Proof.
  intros HR Hn. pose proof (rep_byid g B HR) as Hid. destruct HR. constructor; try done.
  intros i r Hi. destruct (Hid i r Hi) as (x & Hx & H1 & H2 & H3). specialize (Hn i r Hi).
  exists x. cbn. split; [done|]. split; [done|]. split; [done|lia].
Qed.

(** The state between the rounds of pass 1: empty rules under the ids seen so far. *)
Record minting (g : gram) (B : bodies) (i : nat) (last : RuleID) : Prop := {
  mt_rep : rep (with_nextID (2 ^ 63) g) B;
  mt_empty : forall r l, B !! r = Some l -> l = [];
  mt_uses : forall r, usesOf g r = 0;
  mt_index : index g = ∅;
  mt_ids : forall j, is_Some (byID g !! j) -> (0 < i)%nat /\ j <= last }.

(** What pass 1 requires of the rules that remain. *)
Fixpoint ids_valid (rs : list Rule) (i : nat) (last : RuleID) : Prop :=
  match rs with
  | [] => True
  | R :: rs => 1 <= ID R /\ ((0 < i)%nat -> last < ID R) /\ elems (Body R) <> [] /\ ids_valid rs (S i) (ID R)
  end.

Lemma newGuardedRule_grown i g : (p ← newGuardedRule i; modify (with_byID <[i := p]>)) g = Ret tt (grown i g).
Proof. done. Qed.

Lemma mintRules_spec rs : forall g B i last, minting g B i last -> (forall R, R ∈ rs -> ID R < 2 ^ 63) ->
  exists o g', mintRules rs i last g = Ret o g' /\ start g' = start g /\
    match o with
    | inl _ => ~ ids_valid rs i last
    | inr last' => ids_valid rs i last /\ last' = List.last (ID <$> rs) last /\
        (exists B', minting g' B' (i + length rs) last') /\
        (forall j, is_Some (byID g' !! j) <-> is_Some (byID g !! j) \/ j ∈ ID <$> rs)
    end.
Proof.
  induction rs as [|R rs IH]; intros g B i last HM Hb; cbn [mintRules].
  { exists (inr last), g. split; [done|]. split; [done|]. split; [done|]. split; [done|]. rewrite Nat.add_0_r. split; [eauto|].
    intros j. split; [auto|]. intros [Hj|Hj]; [done|]. apply elem_of_nil in Hj. done. }
  unfold firstInducedRuleID. destruct (ID R <? 1) eqn:E1; bsolve.
  { exists (inl (BelowFirst i (ID R))), g. split; [done|]. split; [done|]. cbn. lia. }
  destruct ((0 <? i)%nat && (ID R <=? last)) eqn:E2.
  { apply andb_true_iff in E2 as [E2 E3]. bsolve. exists (inl (NotAscending i (ID R) last)), g. split; [done|]. split; [done|].
    cbn. intros (_ & H & _). specialize (H E2). lia. }
  assert ((0 < i)%nat -> last < ID R) as Hasc.
  { intros Hi. apply andb_false_iff in E2 as [E2|E2]; bsolve; lia. }
  destruct (length (elems (Body R)) =? 0)%nat eqn:E4; bsolve.
  { exists (inl (EmptyBody (ID R))), g. split; [done|]. split; [done|]. cbn. intros (_ & _ & H & _). apply length_zero_iff_nil in E4. done. }
  assert (byID g !! ID R = None) as Hnew.
  { destruct (byID g !! ID R) as [r|] eqn:Er; [|done]. destruct (mt_ids _ _ _ _ HM (ID R)) as [Hi Hle]; [eauto|]. specialize (Hasc Hi). lia. }
  assert (minting (grown (ID R) g) (<[fresh g := []]> B) (S i) (ID R)) as HM'.
  { destruct HM as [H1 H2 H3 H4 H5]. constructor.
    - apply (grown_rep (with_nextID (2 ^ 63) g)); [done|done|]. cbn. specialize (Hb R ltac:(left)). lia.
    - intros r l Hl. apply lookup_insert_Some in Hl as [[_ <-]|[_ Hl]]; [done|eauto].
    - intros r. rewrite <- (H3 r). apply (grown_uses (with_nextID (2 ^ 63) g) B (ID R) r H1).
    - done.
    - intros j Hj. cbn in Hj. split; [lia|]. apply lookup_insert_is_Some' in Hj as [<-|Hj]; [lia|]. destruct (H5 j Hj) as [Hi Hle].
      specialize (Hasc Hi). lia. }
  destruct (IH _ _ _ _ HM') as (o & g' & Eo & Hst & Ho); [intros R' HR'; apply Hb; right; done|].
  exists o, g'. split; [exact Eo|]. split; [done|]. destruct o as [e|last'].
  - intros (_ & _ & _ & H). done.
  - destruct Ho as (H1 & H2 & (B' & H3) & H4). split; [|split; [|split]].
    + split; [lia|]. split; [done|]. split; [|done]. intros E0. rewrite E0 in E4. done.
    + rewrite H2. cbn [fmap list_fmap]. rewrite last_cons. done.
    + exists B'. cbn [length]. rewrite Nat.add_succ_r. done.
    + intros j. rewrite H4. cbn [fmap list_fmap byID grown]. rewrite lookup_insert_is_Some', elem_of_cons. intuition congruence.
Qed.

(** ** Pass 2 *)

Lemma pushBack_spec g B r l n : rep g B -> B !! r = Some l -> r = start g \/ live g r -> guard n = None -> symbolic (key n) ->
  (forall r', ref n = Some r' -> live g r') -> exists p g', pushBack r n g = Ret tt g' /\
    rep g' (<[r := l ++ [(p, key n)]]> B) /\ kept g g' /\ index g' = index g /\ rules g' = rules g.
Proof.
  intros HR Hl Hown Hg Hs Hr. destruct (rep_shape g B HR _ _ Hl) as [gd Hx]. unfold pushBack.
  destruct (loadr_ring _ _ _ _ Hx) as (x & El & _ & Ex). run El. rewrite Ex.
  rewrite <- (app_nil_r l) in Hx. pose proof (ring_cut _ _ _ _ _ _ Hx) as [_ Hp]. cbn in Hp. run (getPrev_eq _ _ _ Hp).
  destruct (alloc_spec g B n HR Hg Hs Hr) as (g1 & E1 & R1 & L1 & K1 & I1 & U1 & F1 & _). run E1.
  assert (B !! r = Some (l ++ [])) as Hl' by (rewrite app_nil_r; done).
  pose proof (ring_kept g g1 B r _ _ gd (kept_rules _ _ K1) Hx R1 Hl') as Hx1.
  pose proof (last_unindexed g1 B r _ gd R1 Hl' Hx1) as Hun. rewrite app_nil_r in Hun.
  destruct (insertAfter_spec g1 B r l [] (fresh g) (key n) gd R1 Hl' Hx1 L1) as (g2 & E2 & R2 & K2 & I2 & F2 & U2 & _); [|done|].
  { rewrite (kept_start _ _ K1), (kept_live g g1) by done. done. }
  exists (fresh g), g2. split; [done|]. split; [done|]. split; [etransitivity; done|]. split; congruence.
Qed.

(** Every reference of a body resolves. *)
Definition resolves (g : gram) (body : list Symbol) : Prop :=
  forall s i, s ∈ body -> ParseRuleRef s = Some i -> is_Some (byID g !! i).

Lemma encs_kept g g' l : same_rules (rules g) (rules g') -> encs g' l = encs g l.
Proof.
  intros HS. unfold encs. apply list_fmap_ext. intros _ c _. unfold enc, idOf. destruct (kref c.2) as [r|]; [|done]. f_equal.
  specialize (HS r). destruct (rules g' !! r), (rules g !! r); cbn in *; congruence.
Qed.

(** The cells [fill] makes carry no terminal that reads as a reference. *)
Definition plain_cells (l : list cell) : Prop := forall c, c ∈ l -> kref c.2 = None -> plain (kval c.2).

Lemma fill_one g B r l s : rep g B -> exact g B -> B !! r = Some l -> r = start g \/ live g r ->
  (forall i, ParseRuleRef s = Some i -> is_Some (byID g !! i)) -> exists c g',
    (forall k, fill r (s :: k) g = fill r k g') /\ rep g' (<[r := l ++ [c]]> B) /\ exact g' (<[r := l ++ [c]]> B) /\
    kept g g' /\ index g' = index g /\ enc g c.2 = s /\ plain_cells [c].
Proof.
  intros HR He Hl Hown Hres. assert (forall h c, (forall r', is_Some (B !! r') -> usesOf h r' = usesOf g r' + hits c.2 r') ->
    exact h (<[r := l ++ [c]]> B)) as Hex.
  { intros h c Hu r' Hr'. rewrite (nrefs_insert B r l) by done. rewrite refs_app, refs_cons. change (refs [] r') with 0.
    assert (is_Some (B !! r')) as Hr2 by (apply lookup_insert_is_Some' in Hr' as [<-|Hr']; [rewrite Hl; eauto|done]).
    rewrite (Hu r' Hr2), (He r' Hr2). lia. }
  cbn [fill]. destruct (ParseRuleRef s) as [i|] eqn:Es.
  - destruct (Hres i eq_refl) as [t Ht]. assert (live g t) as Hlt by (eexists; done).
    destruct (bump_spec g B 1 t HR Hlt) as (g1 & E1 & R1 & K1 & I1 & N1 & F1 & U1 & _).
    destruct (pushBack_spec g1 B r l (mkNode [] (Some t) None None None) R1 Hl) as (p & g2 & E2 & R2 & K2 & I2 & U2);
      [rewrite (kept_start _ _ K1), (kept_live g g1) by done; done|done|done| |].
    { intros r' [= <-]. apply (kept_live g g1); done. }
    exists (p, refk t), g2. split; [|split; [done|split; [|split; [etransitivity; done|split; [congruence|split]]]]].
    + intros k. run (eq_refl : gets (fun g => byID g !! i) g = Ret (byID g !! i) g). rewrite Ht. run E1. run E2. done.
    + apply Hex. intros r' _. unfold usesOf at 1. rewrite U2. fold (usesOf g1 r'). rewrite U1. cbn [snd]. lia.
    + destruct (rep_byid g B HR _ _ Ht) as (x & Hx & Hi & _). cbn. unfold enc, idOf. cbn. rewrite Hx. cbn. rewrite Hi.
      symmetry. apply ruleRef_canonical. done.
    + intros c Hc Hk. apply list_elem_of_singleton in Hc as ->. done.
  - destruct (pushBack_spec g B r l (mkNode s None None None None) HR Hl Hown) as (p & g2 & E2 & R2 & K2 & I2 & U2);
      [done|apply symbolic_term|done|].
    exists (p, term s), g2. split; [|split; [done|split; [|split; [done|split; [done|split; [done|]]]]]].
    + intros k. run E2. done.
    + apply Hex. intros r' _. unfold usesOf. rewrite U2. cbn [snd]. destruct (hits_cases (term s) r') as [[? _]|[_ ->]]; [done|]. lia.
    + intros c Hc _. apply list_elem_of_singleton in Hc as ->. done.
Qed.

Lemma fill_spec body : forall g B r l, rep g B -> exact g B -> B !! r = Some l -> r = start g \/ live g r -> exists o g',
  fill r body g = Ret o g' /\
  match o with
  | Some _ => ~ resolves g body
  | None => resolves g body /\ exists new, rep g' (<[r := l ++ new]> B) /\ exact g' (<[r := l ++ new]> B) /\ kept g g' /\
      index g' = index g /\ encs g new = body /\ plain_cells new
  end.
Proof.
  induction body as [|s body IH]; intros g B r l HR He Hl Hown.
  { exists None, g. split; [done|]. split; [intros s i Hs; apply elem_of_nil in Hs; done|]. exists []. rewrite app_nil_r, insert_id by done.
    do 5 (split; [done|]). intros c Hc. apply elem_of_nil in Hc. done. }
  assert ((forall i, ParseRuleRef s = Some i -> is_Some (byID g !! i)) \/
          (exists i, ParseRuleRef s = Some i /\ byID g !! i = None)) as [Hs|(i & Es & Et)].
  { destruct (ParseRuleRef s) as [i|]; [|left; done]. destruct (byID g !! i) eqn:Et; [left; intros ? [= <-]; rewrite Et; eauto|right; eauto]. }
  - destruct (fill_one g B r l s HR He Hl Hown Hs) as (c & g1 & E1 & R1 & X1 & K1 & I1 & En & Pl).
    destruct (IH g1 _ r (l ++ [c]) R1 X1 ltac:(apply lookup_insert_eq)) as (o & g2 & E2 & Ho).
    { rewrite (kept_start _ _ K1), (kept_live g g1) by done. done. }
    exists o, g2. rewrite E1. split; [done|].
    assert (resolves g1 body <-> resolves g body) as Hiff by (unfold resolves; rewrite (kept_byID _ _ K1); done).
    destruct o as [e|].
    + intros Hr. apply Ho, Hiff. intros s' i Hs' Hi. apply (Hr s' i); [right; done|done].
    + destruct Ho as (Hr & new & R2 & X2 & K2 & I2 & En2 & Pl2). split.
      { intros s' i [->|Hs']%elem_of_cons Hi; [eauto|]. apply Hiff in Hr. eapply Hr; done. }
      exists (c :: new). rewrite insert_insert_eq, <- app_assoc in R2, X2. split; [done|]. split; [done|].
      split; [etransitivity; done|]. split; [congruence|]. split.
      * unfold encs in *. cbn [fmap list_fmap]. rewrite En. f_equal. rewrite <- En2. symmetry. apply (encs_kept g g1), K1.
      * intros d [->|Hd]%elem_of_cons; [apply Pl; left|apply Pl2; done].
  - destruct (rep_shape g B HR _ _ Hl) as [gd Hx]. destruct (loadr_ring _ _ _ _ Hx) as (x & El & _).
    exists (Some (Dangling (id x) i)), g. split.
    + cbn [fill]. rewrite Es. run (eq_refl : gets (fun g => byID g !! i) g = Ret (byID g !! i) g). rewrite Et. run El. done.
    + intros Hr. destruct (Hr s i ltac:(left) Es) as [t Ht]. congruence.
Qed.

(** The body of a restored rule is the one the snapshot gives. *)
Definition holds (g : gram) (B : bodies) (R : Rule) : Prop :=
  exists r l, byID g !! ID R = Some r /\ B !! r = Some l /\ encs g l = elems (Body R) /\ plain_cells l.

Lemma fillRules_spec rs : forall g B, rep g B -> exact g B -> NoDup (ID <$> rs) ->
  (forall R, R ∈ rs -> exists r, byID g !! ID R = Some r /\ B !! r = Some []) -> exists o g',
  fillRules rs g = Ret o g' /\
  match o with
  | Some _ => exists R, R ∈ rs /\ ~ resolves g (elems (Body R))
  | None => (forall R, R ∈ rs -> resolves g (elems (Body R))) /\ exists B', rep g' B' /\ exact g' B' /\ kept g g' /\
      index g' = index g /\ (forall R, R ∈ rs -> holds g B' R) /\
      (forall r, (forall R, R ∈ rs -> byID g !! ID R <> Some r) -> B' !! r = B !! r)
  end.
Proof.
  induction rs as [|R rs IH]; intros g B HR He HN Hrs; cbn [fillRules].
  { exists None, g. split; [done|]. split; [intros R HR'; apply elem_of_nil in HR'; done|]. exists B.
    do 4 (split; [done|]). split; [|done]. intros R HR'. apply elem_of_nil in HR'. done. }
  destruct (Hrs R ltac:(left)) as (r & Hr & Hl). run (eq_refl : gets (fun g => byID g !! ID R) g = Ret (byID g !! ID R) g).
  rewrite Hr. run (deref_eq r g). destruct (fill_spec (elems (Body R)) g B r [] HR He Hl) as (o & g1 & E1 & Ho); [right; eexists; done|].
  run E1. destruct o as [e|].
  { exists (Some e), g1. split; [done|]. exists R. split; [left|done]. }
  destruct Ho as (Hres & new & R1 & X1 & K1 & I1 & En & Pl). cbn [app] in R1, X1.
  cbn [fmap list_fmap] in HN. apply NoDup_cons in HN as [Hni HN].
  assert (forall R', R' ∈ rs -> byID g !! ID R' <> Some r) as Hother.
  { intros R' HR' Hr'. destruct (rep_byid g B HR _ _ Hr) as (x & Hx & Hi & _). destruct (rep_byid g B HR _ _ Hr') as (y & Hy & Hj & _).
    apply Hni, list_elem_of_fmap. exists R'. split; [congruence|done]. }
  destruct (IH g1 (<[r := new]> B) R1 X1 HN) as (o & g2 & E2 & Ho).
  { intros R' HR'. destruct (Hrs R' ltac:(right; done)) as (r' & Hr' & Hl'). exists r'. rewrite (kept_byID _ _ K1). split; [done|].
    rewrite lookup_insert_ne; [done|]. intros <-. eapply Hother; done. }
  exists o, g2. split; [done|]. unfold resolves in *. rewrite (kept_byID _ _ K1) in Ho. destruct o as [e|].
  { destruct Ho as (R' & HR' & Hn). exists R'. split; [right; done|done]. }
  destruct Ho as (Hres2 & B2 & R2 & X2 & K2 & I2 & Hh & Hrest). split.
  { intros R' [->|HR']%elem_of_cons; [done|exact (Hres2 R' HR')]. }
  exists B2. split; [done|]. split; [done|]. split; [etransitivity; done|]. split; [congruence|].
  split.
  - intros R' [->|HR']%elem_of_cons.
    + exists r, new. split; [done|]. rewrite Hrest by done. rewrite lookup_insert_eq. done.
    + destruct (Hh R' HR') as (r' & l' & H1 & H2 & H3 & H4). rewrite (kept_byID _ _ K1) in H1. exists r', l'. split; [done|]. split; [done|].
      split; [|done]. rewrite <- H3. symmetry. apply encs_kept, K1.
  - intros r' Hr'. rewrite Hrest by (intros R' HR'; apply Hr'; right; done).
    rewrite lookup_insert_ne; [done|]. intros <-. eapply Hr'; [left|done].
Qed.

(** ** Pass 3 *)

Lemma unreferenced_spec g ids : match unreferenced g ids with
  | Some i => i ∈ ids /\ usesOf g (ruleAt g i) = 0
  | None => forall i, i ∈ ids -> usesOf g (ruleAt g i) <> 0
  end.
Proof.
  induction ids as [|i ids IH]; cbn [unreferenced]; [intros i Hi; apply elem_of_nil in Hi; done|].
  destruct (usesOf g (ruleAt g i) =? 0) eqn:E; bsolve; [split; [left|done]|]. destruct (unreferenced g ids) as [j|].
  - destruct IH as [H1 H2]. split; [right; done|done].
  - intros j [->|Hj]%elem_of_cons; [done|auto].
Qed.

(** The cycle search.  The finished rules are closed under references and ranked; a rule on the stack is only met
    again when there is no rank. *)
Section cycle.
Context (g : gram) (B : bodies) (HR : rep g B).

Definition finished (st : gmap RuleID colour) (r : rptr) : Prop := live g r /\ st !! idOf g r = Some done.

Definition ranked_part (st : gmap RuleID colour) : Prop := exists rk : rptr -> nat, forall r l c r',
  finished st r -> B !! r = Some l -> c ∈ l -> kref c.2 = Some r' -> finished st r' /\ (rk r' < rk r)%nat.

(** The rules on the stack. *)
Definition stacked (st : gmap RuleID colour) : gset RuleID := dom (filter (fun x => x.2 = onStack) st).

Lemma elem_stacked st i : i ∈ stacked st <-> st !! i = Some onStack.
Proof.
  unfold stacked. rewrite elem_of_dom. split.
  - intros [c Hc]. apply map_lookup_filter_Some in Hc as [Hc E]. cbn in E. congruence.
  - intros Hi. exists onStack. apply map_lookup_filter_Some. done.
Qed.

Lemma finished_id r i : byID g !! i = Some r -> idOf g r = i.
Proof using HR. intros Hi. destruct (rep_byid g B HR _ _ Hi) as (x & Hx & <- & _). unfold idOf. rewrite Hx. done. Qed.

(** A search that found no cycle only adds finished rules. *)
Record extends (st st' : gmap RuleID colour) : Prop := {
  ex_keep : forall j c, st !! j = Some c -> st' !! j = Some c;
  ex_stack : forall j, st' !! j = Some onStack -> st !! j = Some onStack;
  ex_dom : forall j, is_Some (st' !! j) -> is_Some (byID g !! j) }.

Lemma extends_stacked st st' : extends st st' -> stacked st' = stacked st.
Proof using. intros [H1 H2 _]. apply set_eq. intros i. rewrite !elem_stacked. split; auto. Qed.

Lemma extends_trans st1 st2 st3 : extends st1 st2 -> extends st2 st3 -> extends st1 st3.
Proof using. intros [] []. constructor; auto. Qed.

Lemma extends_finished st st' r : extends st st' -> finished st r -> finished st' r.
Proof using. intros [H _ _] [Hl Hd]. split; auto. Qed.

(** Every rule on the stack is above [r]. *)
Definition below_stack (rk : rptr -> nat) (st : gmap RuleID colour) (r : rptr) : Prop :=
  forall r', live g r' -> st !! idOf g r' = Some onStack -> (rk r < rk r')%nat.

Definition walks (fuel : nat) : Prop := forall r st, live g r -> st !! idOf g r = None -> ranked_part st ->
  (forall j, is_Some (st !! j) -> is_Some (byID g !! j)) -> (size (byID g) < fuel + size (stacked st))%nat -> exists b st',
    walkRule fuel r st g = Ret (b, st') g /\
    (b = false -> ranked_part st' /\ extends st st' /\ finished st' r) /\
    (forall rk, ranked B rk -> below_stack rk st r -> b = false).

Lemma walkCells_spec fuel l : walks fuel -> forall st, Forall (cell_ok (nodes g)) l ->
  (forall c r, c ∈ l -> kref c.2 = Some r -> live g r) -> ranked_part st ->
  (forall j, is_Some (st !! j) -> is_Some (byID g !! j)) -> (size (byID g) < fuel + size (stacked st))%nat -> exists b st',
    walkCells (walkRule fuel) l.*1 st g = Ret (b, st') g /\
    (b = false -> ranked_part st' /\ extends st st' /\ forall c r, c ∈ l -> kref c.2 = Some r -> finished st' r) /\
    (forall rk, ranked B rk -> (forall c r, c ∈ l -> kref c.2 = Some r -> below_stack rk st r) -> b = false).
Proof using HR.
  intros HW. induction l as [|[p k] l IH]; intros st HF Hlv Hrp Hdom Hf; cbn [walkCells fmap list_fmap fst].
  { exists false, st. split; [done|]. split; [|done]. intros _. split; [done|]. split; [constructor; done|].
    intros c r Hc. apply elem_of_nil in Hc. done. }
  apply Forall_cons in HF as [[Ht _] HF]. cbn [fst snd] in Ht.
  destruct (load_tag _ _ _ _ Ht) as (n & _ & Hl & _ & Hrf & _). run Hl. rewrite Hrf.
  assert (forall c r, c ∈ l -> kref c.2 = Some r -> live g r) as Hlv' by (intros c r Hc; apply Hlv; right; done).
  destruct (kref k) as [r|] eqn:Ek.
  2: { destruct (IH st HF Hlv' Hrp Hdom Hf) as (b & st' & E1 & H1 & H2). exists b, st'. split; [done|]. split.
       - intros Hb. destruct (H1 Hb) as (H3 & H4 & H5). split; [done|]. split; [done|].
         intros c r [->|Hc]%elem_of_cons Hk; [cbn in Hk; congruence|eauto].
       - intros rk Hrk Hbl. apply (H2 rk Hrk). intros c r Hc. apply Hbl. right. done. }
  assert (live g r) as Hlr by (apply (Hlv (p, k)); [left|done]).
  destruct (live_rule g B r HR Hlr) as (x & _ & Hx & _). assert (loadr r g = Ret x g) as El by (unfold loadr; rewrite Hx; done).
  assert (idOf g r = id x) as Eid by (unfold idOf; rewrite Hx; done). run El. destruct (st !! id x) as [[]|] eqn:Es.
  - exists true, st. split; [done|]. split; [done|]. intros rk Hrk Hbl. exfalso.
    assert (rk r < rk r)%nat; [|lia]. apply (Hbl (p, k) r ltac:(left) Ek r Hlr). rewrite Eid. done.
  - destruct (IH st HF Hlv' Hrp Hdom Hf) as (b & st' & E1 & H1 & H2). exists b, st'. split; [done|]. split.
    + intros Hb. destruct (H1 Hb) as (H3 & H4 & H5). split; [done|]. split; [done|].
      intros c r' [->|Hc]%elem_of_cons Hk; [|eauto]. cbn in Hk. assert (r' = r) as -> by congruence.
      apply (extends_finished st); [done|]. split; [done|]. rewrite Eid. done.
    + intros rk Hrk Hbl. apply (H2 rk Hrk). intros c r' Hc. apply Hbl. right. done.
  - destruct (HW r st Hlr ltac:(rewrite Eid; done) Hrp Hdom Hf) as (b1 & st1 & E1 & H1 & H2). run E1. cbn [fst snd]. destruct b1.
    { exists true, st1. split; [done|]. split; [done|]. intros rk Hrk Hbl. apply (H2 rk Hrk). apply (Hbl (p, k)); [left|done]. }
    destruct (H1 eq_refl) as (H3 & H4 & H5).
    destruct (IH st1 HF Hlv' H3 (ex_dom _ _ H4)) as (b & st' & E2 & H6 & H7); [rewrite (extends_stacked st st1 H4); done|].
    exists b, st'. split; [done|]. split.
    + intros Hb. destruct (H6 Hb) as (H8 & H9 & H10). split; [done|]. split; [eapply extends_trans; done|].
      intros c r' [->|Hc]%elem_of_cons Hk; [|eauto]. cbn in Hk. assert (r' = r) as -> by congruence.
      apply (extends_finished st1); done.
    + intros rk Hrk Hbl. apply (H7 rk Hrk). intros c r' Hc Hk r2 Hr2 Hs. apply (Hbl c r' ltac:(right; done) Hk r2 Hr2).
      apply (ex_stack _ _ H4). done.
Qed.

(** Finishing a rule whose references are finished keeps the rank. *)
Lemma ranked_finish st r l : ranked_part st -> live g r -> st !! idOf g r = Some onStack -> B !! r = Some l ->
  (forall c r', c ∈ l -> kref c.2 = Some r' -> finished st r') -> ranked_part (<[idOf g r := done]> st).
Proof using HR.
  intros [rk Hrk] Hlr Hst Hl Hc. exists (fun x => if decide (x = r) then S (max_list ((fun c => symRank rk c.2) <$> l)) else rk x).
  assert (forall r', finished st r' -> r' <> r) as Hne by (intros r' [_ Hd] ->; congruence).
  assert (forall r', finished st r' -> finished (<[idOf g r := done]> st) r') as Hmono.
  { intros r' [H1 H2]. split; [done|]. destruct (decide (idOf g r = idOf g r')) as [->|Hn]; [apply lookup_insert_eq|].
    rewrite lookup_insert_ne by done. done. }
  intros x lx c r' [Hlx Hdx] Hx Hin Hk. destruct (decide (x = r)) as [->|Hxr].
  - assert (lx = l) as -> by congruence. pose proof (Hc c r' Hin Hk) as Hf. split; [auto|].
    rewrite decide_False by auto. apply Nat.lt_succ_r, max_list_elem_of_le, list_elem_of_fmap.
    exists c. split; [unfold symRank; rewrite Hk; done|done].
  - assert (finished st x) as Hfx.
    { split; [done|]. rewrite lookup_insert_ne in Hdx; [done|]. intros E. apply Hxr. destruct Hlx as [i Hi], Hlr as [j Hj].
      rewrite (finished_id x i Hi), (finished_id r j Hj) in E. congruence. }
    destruct (Hrk x lx c r' Hfx Hx Hin Hk) as [H1 H2]. split; [auto|]. rewrite decide_False by auto. done.
Qed.

Lemma stacked_bound st : (forall j, is_Some (st !! j) -> is_Some (byID g !! j)) -> (size (stacked st) <= size (byID g))%nat.
Proof using.
  intros Hd. rewrite <- (size_dom (byID g)). apply subseteq_size. intros j Hj%elem_stacked. apply elem_of_dom, Hd. eauto.
Qed.

Lemma walkRule_spec fuel : walks fuel.
Proof using HR.
  induction fuel as [|fuel IH]; intros r st Hlr Hst Hrp Hdom Hf; [pose proof (stacked_bound st Hdom); lia|].
  destruct (live_rule g B r HR Hlr) as (x & l & Hx & Hl & _ & Hid & _). assert (idOf g r = id x) as Eid by (unfold idOf; rewrite Hx; done).
  cbn [walkRule]. assert (loadr r g = Ret x g) as El by (unfold loadr; rewrite Hx; done). run El. run (bodyCells_spec g B r l HR Hl).
  rewrite <- Eid in *. set (st1 := <[idOf g r := onStack]> st). destruct (rep_shape g B HR _ _ Hl) as [gd Hgd].
  assert (forall x, finished st1 x <-> finished st x) as Hfin.
  { intros y. unfold finished, st1. destruct (decide (idOf g r = idOf g y)) as [E|Hn].
    - rewrite <- E, lookup_insert_eq, Hst. split; intros [_ ?]; done.
    - rewrite lookup_insert_ne by done. done. }
  assert (stacked st1 = {[idOf g r]} ∪ stacked st) as Hs1.
  { apply set_eq. intros i. rewrite elem_of_union, elem_of_singleton, !elem_stacked. unfold st1. destruct (decide (idOf g r = i)) as [<-|Hn].
    - rewrite lookup_insert_eq. tauto.
    - rewrite lookup_insert_ne by done. intuition congruence. }
  destruct (walkCells_spec fuel l IH st1 (ring_cells _ _ _ _ _ Hgd)) as (b & st2 & E2 & H1 & H2).
  { intros c r' Hc. eapply (rep_refs g B HR); done. }
  { destruct Hrp as [rk Hrk]. exists rk. intros y ly c r' Hy. rewrite Hfin in Hy |- *. apply Hrk. done. }
  { intros j Hj. apply lookup_insert_is_Some' in Hj as [<-|Hj]; [rewrite Hid; eauto|auto]. }
  { rewrite Hs1, size_union, size_singleton; [lia|]. apply disjoint_singleton_l. rewrite elem_stacked, Hst. done. }
  run E2. cbn [fst snd]. assert (forall rk, ranked B rk -> below_stack rk st r -> b = false) as Hno.
  { intros rk Hrk Hbl. apply (H2 rk Hrk). intros c r' Hc Hk r2 Hr2 Hs. pose proof (Hrk r l c Hl Hc) as Hlt. unfold symRank in Hlt. rewrite Hk in Hlt.
    unfold st1 in Hs. apply lookup_insert_Some in Hs as [[E _]|[_ Hs]].
    - assert (r2 = r) as ->; [|done]. destruct Hr2 as [i Hi]. rewrite (finished_id r2 i Hi) in E. congruence.
    - specialize (Hbl r2 Hr2 Hs). lia. }
  destruct b; [exists true, st2; done|]. exists false, (<[idOf g r := done]> st2). split; [done|]. split; [|done]. intros _.
  destruct (H1 eq_refl) as (H3 & H4 & H5). assert (st2 !! idOf g r = Some onStack) as Hr2 by (apply (ex_keep _ _ H4); apply lookup_insert_eq).
  split; [eapply ranked_finish; done|]. split; [|split; [done|apply lookup_insert_eq]]. constructor.
  - intros j c Hj. assert (idOf g r <> j) as Hn by congruence. rewrite lookup_insert_ne by done. apply (ex_keep _ _ H4).
    unfold st1. rewrite lookup_insert_ne by done. done.
  - intros j Hj. apply lookup_insert_Some in Hj as [[_ ?]|[Hn Hj]]; [done|]. apply (ex_stack _ _ H4) in Hj. unfold st1 in Hj.
    rewrite lookup_insert_ne in Hj by done. done.
  - intros j Hj. apply lookup_insert_is_Some' in Hj as [<-|Hj]; [rewrite Hid; eauto|]. apply (ex_dom _ _ H4). done.
Qed.

Lemma walkIDs_spec fuel ids : (size (byID g) < fuel)%nat -> (forall i, i ∈ ids -> is_Some (byID g !! i)) -> forall st,
  ranked_part st -> (forall j, is_Some (st !! j) -> is_Some (byID g !! j)) -> stacked st = ∅ -> exists o,
    walkIDs fuel ids st g = Ret o g /\ (forall rk, ranked B rk -> o = None) /\
    (o = None -> exists st', ranked_part st' /\ extends st st' /\ forall i r, i ∈ ids -> byID g !! i = Some r -> finished st' r).
Proof using HR.
  intros Hf. induction ids as [|i ids IH]; intros Hids st Hrp Hdom Hs; cbn [walkIDs].
  { exists None. split; [done|]. split; [done|]. intros _. exists st. split; [done|]. split; [constructor; done|].
    intros i r Hi. apply elem_of_nil in Hi. done. }
  assert (forall i, i ∈ ids -> is_Some (byID g !! i)) as Hids' by (intros j Hj; apply Hids; right; done).
  destruct (Hids i) as [r Hr]; [left|]. pose proof (finished_id r i Hr) as Ei. assert (live g r) as Hlr by (eexists; done).
  destruct (st !! i) as [[]|] eqn:Es.
  - exfalso. assert (i ∈ stacked st) as H by (apply elem_stacked; done). rewrite Hs in H. set_solver +H.
  - destruct (IH Hids' st Hrp Hdom Hs) as (o & E1 & H1 & H2). exists o. split; [done|]. split; [done|]. intros Ho.
    destruct (H2 Ho) as (st' & H3 & H4 & H5). exists st'. split; [done|]. split; [done|]. intros j r' [->|Hj]%elem_of_cons Hr'; [|eauto].
    assert (r' = r) as -> by congruence. apply (extends_finished st); [done|]. split; [done|]. rewrite Ei. done.
  - run (eq_refl : gets (fun g => byID g !! i) g = Ret (byID g !! i) g). rewrite Hr. run (deref_eq r g).
    destruct (walkRule_spec fuel r st Hlr ltac:(rewrite Ei; done) Hrp Hdom ltac:(lia)) as (b & st1 & E1 & H1 & H2). run E1. cbn [fst snd].
    assert (forall rk, ranked B rk -> b = false) as Hb.
    { intros rk Hrk. apply (H2 rk Hrk). intros r' _ Hst'. apply elem_stacked in Hst'. rewrite Hs in Hst'. set_solver +Hst'. }
    destruct b; [exists (Some i); split; [done|]; split; [intros rk Hrk; specialize (Hb rk Hrk); done|done]|].
    destruct (H1 eq_refl) as (H3 & H4 & H5).
    destruct (IH Hids' st1 H3 (ex_dom _ _ H4)) as (o & E2 & H6 & H7); [rewrite (extends_stacked st st1 H4); done|].
    exists o. split; [done|]. split; [done|]. intros Ho. destruct (H7 Ho) as (st' & H8 & H9 & H10). exists st'. split; [done|].
    split; [eapply extends_trans; done|]. intros j r' [->|Hj]%elem_of_cons Hr'; [|eauto]. assert (r' = r) as -> by congruence.
    apply (extends_finished st1); done.
Qed.

(** [findCycle] reports a rule exactly when the references have no rank. *)
Lemma findCycle_spec : exists o, findCycle g = Ret o g /\ (o = None <-> exists rk, ranked B rk).
Proof using HR.
  unfold findCycle. run (eq_refl : gets sortedIDs g = Ret (sortedIDs g) g).
  run (eq_refl : gets (fun g => S (size (byID g))) g = Ret (S (size (byID g))) g).
  destruct (walkIDs_spec (S (size (byID g))) (sortedIDs g) ltac:(lia) ltac:(intros i; apply elem_sortedIDs) ∅) as (o & E1 & H1 & H2).
  { exists (fun _ => 0%nat). intros r l c r' [_ H]. done. } { intros j [c Hj]. done. }
  { apply set_eq. intros i. rewrite elem_stacked. split; [done|set_solver +]. }
  exists o. split; [done|]. split; [|intros [rk Hrk]; eauto]. intros Ho. destruct (H2 Ho) as (st & [rk Hrk] & _ & Hall).
  destruct (rank_bound B rk) as [b Hb].
  exists (fun x => if decide (x = start g) then S (S b) else S (rk x)). intros r l c Hl Hc. unfold symRank. destruct (kref c.2) as [r'|] eqn:Ek.
  - pose proof (rep_refs g B HR r l c r' Hl Hc Ek) as Hlr'. destruct (live_rule g B r' HR Hlr') as (_ & l' & _ & Hl' & Hs' & _).
    rewrite (decide_False (P := r' = start g)) by done. destruct (decide (r = start g)) as [->|Hns].
    + specialize (Hb r' ltac:(eauto)). lia.
    + destruct (owner_live g B r l HR Hl) as [?|[i Hi]]; [intros ->; apply elem_of_nil in Hc; done|done|].
      destruct (Hrk r l c r') as [_ Hlt]; [eapply (Hall i); [apply elem_sortedIDs; eauto|done]|done|done|done|lia].
  - case_decide; lia.
Qed.

End cycle.
