(* ===== verification/SeqRebuild.v ===== *)
(** What [Restore] guarantees: it accepts exactly the well-formed snapshots, a refusal leaves the receiver
    alone, an accepted snapshot is reproduced and the grammar goes on absorbing symbols without loss, and a
    session's own snapshot is always accepted and reproduced field by field. *)

From S2P Require Import Prelude Strconv Sequitur SeqInv SeqSplice SeqCascade SeqAppend SeqRead SeqSpec SeqRestore.

(** ** [reindex] *)

Lemma recordDigram_spec g B r l1 p k l2 : rep g B -> B !! r = Some (l1 ++ (p, k) :: l2) -> exists ix,
  recordDigram p g = Ret tt (set_index ix g) /\ rep (set_index ix g) B.
Proof.
  intros HR HB. destruct (rep_shape g B HR _ _ HB) as [gd Hx]. unfold recordDigram. run (digramAt_cell g r l1 p k l2 gd Hx).
  assert (exists ix, (mret tt : M unit) g = Ret tt (set_index ix g) /\ rep (set_index ix g) B) as Hskip.
  { exists (index g). rewrite set_index_same. done. }
  destruct l2 as [|[q k'] l2]; cbn [head fmap option_fmap option_map]; [done|].
  run (eq_refl : gets (fun g => index g !! (k, k')) g = Ret (index g !! (k, k')) g). destruct (index g !! (k, k')); [done|].
  exists (<[(k, k') := p]> (index g)). split; [done|]. apply rep_set_index; [done|].
  intros d q' [[<- <-]|[_ Hd]]%lookup_insert_Some; [exists r, l1, q, l2; done|apply (rep_index g B HR); done].
Qed.

Lemma recordCells_spec B r l2 : forall g l1, rep g B -> B !! r = Some (l1 ++ l2) -> exists ix,
  forEach recordDigram l2.*1 g = Ret tt (set_index ix g) /\ rep (set_index ix g) B.
Proof.
  induction l2 as [|[p k] l2 IH]; intros g l1 HR HB; cbn [fmap list_fmap forEach fst].
  { exists (index g). rewrite set_index_same. done. }
  destruct (recordDigram_spec g B r l1 p k l2 HR HB) as (ix & E1 & R1). run E1.
  destruct (IH (set_index ix g) (l1 ++ [(p, k)]) R1) as (ix2 & E2 & R2); [rewrite <- app_assoc; done|].
  exists ix2. done.
Qed.

Lemma recordRule_spec g B r : rep g B -> is_Some (B !! r) -> exists ix,
  recordRule r g = Ret tt (set_index ix g) /\ rep (set_index ix g) B.
Proof.
  intros HR [l Hl]. unfold recordRule. run (bodyCells_spec g B r l HR Hl). apply (recordCells_spec B r l g []); done.
Qed.

Lemma recordIDs_spec B ids : forall g, rep g B -> (forall i, i ∈ ids -> is_Some (byID g !! i)) -> exists ix,
  forEach (fun i => t ← gets (fun g => byID g !! i); r ← deref t; recordRule r) ids g = Ret tt (set_index ix g) /\
  rep (set_index ix g) B.
Proof.
  induction ids as [|i ids IH]; intros g HR Hids; cbn [forEach].
  { exists (index g). rewrite set_index_same. done. }
  destruct (Hids i) as [r Hr]; [left|]. destruct (recordRule_spec g B r HR) as (ix & E1 & R1).
  { apply (rep_dom g B HR). eexists. done. }
  assert ((t ← gets (fun g => byID g !! i); r ← deref t; recordRule r) g = Ret tt (set_index ix g)) as E2.
  { run (eq_refl : gets (fun g => byID g !! i) g = Ret (byID g !! i) g). rewrite Hr. run (deref_eq r g). done. }
  run E2. destruct (IH (set_index ix g) R1) as (ix2 & E3 & R2); [intros j Hj; apply Hids; right; done|]. exists ix2. done.
Qed.

(** [reindex] returns, rewrites the index alone, and leaves it sound. *)
Lemma reindex_spec g B : rep g B -> exists ix, reindex g = Ret tt (set_index ix g) /\ rep (set_index ix g) B.
Proof.
  intros HR. unfold reindex. run (eq_refl : gets start g = Ret (start g) g).
  destruct (recordRule_spec g B (start g) HR (rep_start g B HR)) as (ix & E1 & R1). run E1.
  run (eq_refl : gets sortedIDs (set_index ix g) = Ret (sortedIDs g) (set_index ix g)).
  destruct (recordIDs_spec B (sortedIDs g) (set_index ix g) R1) as (ix2 & E2 & R2); [intros i; apply elem_sortedIDs|].
  exists ix2. done.
Qed.

(** ** Expansions of an acyclic grammar *)

Fixpoint unfoldB (B : bodies) (n : nat) (r : rptr) : list Symbol :=
  match n with O => [] | S n => sem (unfoldB B n) (default [] (B !! r)) end.

Lemma unfoldB_stable B rk : ranked B rk -> forall n r, (rk r < n)%nat -> unfoldB B n r = unfoldB B (S (rk r)) r.
Proof.
  intros Hrk. induction n as [n IH] using lt_wf_ind. intros r Hn. destruct n as [|n]; [lia|]. cbn [unfoldB].
  destruct (B !! r) as [l|] eqn:Hl; [|done]. change (default [] (Some l)) with l. apply sem_ext. intros c r' Hc Hk.
  pose proof (Hrk r l c Hl Hc) as Hlt. unfold symRank in Hlt. rewrite Hk in Hlt.
  rewrite (IH n) by lia. destruct (decide (rk r = n)) as [<-|]; rewrite (IH (rk r)) by lia; done.
Qed.

Lemma ranked_solves B rk : ranked B rk -> exists E, solves B E.
Proof.
  intros Hrk. exists (fun r => unfoldB B (S (rk r)) r). intros r l Hl. cbn [unfoldB]. rewrite Hl.
  apply sem_ext. intros c r' Hc Hk. pose proof (Hrk r l c Hl Hc) as Hlt. unfold symRank in Hlt. rewrite Hk in Hlt.
  apply unfoldB_stable; done.
Qed.

(** ** Acceptable snapshots *)

(** The next id a restored grammar mints. *)
Definition nextOf (s : Snapshot) : RuleID :=
  match elems (Rules_ s) with [] => Z.max firstInducedRuleID (NextID s) | _ => NextID s end.

(** The sequences of a snapshot: its compressed sequence and the rule bodies. *)
Definition sequences (s : Snapshot) : list (list Symbol) := elems (Sequence s) :: ((fun R => elems (Body R)) <$> elems (Rules_ s)).

(** A snapshot read on its own: rules in strictly ascending order of ids from 1, with bodies; every reference
    resolves, every rule is referenced, and the references have no cycle. *)
Record acceptable (s : Snapshot) : Prop := {
  ac_ids : ids_valid (elems (Rules_ s)) 0 startRuleID;
  ac_next : forall R, R ∈ elems (Rules_ s) -> ID R < NextID s;
  ac_refs : forall l x i, l ∈ sequences s -> x ∈ l -> ParseRuleRef x = Some i -> i ∈ ID <$> elems (Rules_ s);
  ac_used : forall R, R ∈ elems (Rules_ s) -> exists l, l ∈ sequences s /\ RuleRef (ID R) ∈ l;
  ac_rank : exists rk : RuleID -> nat, forall R x i, R ∈ elems (Rules_ s) -> x ∈ elems (Body R) ->
    ParseRuleRef x = Some i -> (rk i < rk (ID R))%nat }.

(** The ids of a snapshot are ints. *)
Definition ints (s : Snapshot) : Prop := NextID s <= 2 ^ 63 /\ forall R, R ∈ elems (Rules_ s) -> ID R < 2 ^ 63.

Lemma ids_valid_ascending rs : forall i last, ids_valid rs i last ->
  StronglySorted Z.lt (ID <$> rs) /\ Forall (fun R => 1 <= ID R /\ ((0 < i)%nat -> last < ID R) /\ elems (Body R) <> []) rs.
Proof.
  induction rs as [|R rs IH]; intros i last H; cbn [fmap list_fmap]; [split; constructor|].
  destruct H as (H1 & H2 & H3 & H). destruct (IH _ _ H) as [HS HF]. split.
  - constructor; [done|]. apply Forall_fmap. eapply Forall_impl; [exact HF|]. cbn. intros R' (_ & Hlt & _). apply Hlt. lia.
  - constructor; [done|]. eapply Forall_impl; [exact HF|]. cbn. intros R' (H4 & H5 & H6). split; [done|]. split; [|done].
    intros Hi. specialize (H2 Hi). specialize (H5 ltac:(lia)). lia.
Qed.

Lemma sorted_NoDup l : StronglySorted Z.lt l -> NoDup l.
Proof.
  induction 1 as [|x l HS IH HF]; constructor; [|done]. rewrite Forall_forall in HF. intros Hx. specialize (HF x Hx). lia.
Qed.

Lemma ascending_unique l l' : StronglySorted Z.lt l -> StronglySorted Z.lt l' -> (forall x, x ∈ l <-> x ∈ l') -> l = l'.
Proof.
  intros H H' Hiff. apply (StronglySorted_unique_strong Z.lt); [|done|done|].
  - intros x y Hx Hy. lia.
  - apply NoDup_Permutation; auto using sorted_NoDup.
Qed.

Lemma last_in {A} (l : list A) d : l <> [] -> List.last l d ∈ l.
Proof.
  intros H. rewrite (app_removelast_last d H) at 2. apply elem_of_app. right. left.
Qed.

(** ** A grammar filled from a snapshot *)

(** [g] holds the rules, bodies and sequence of [s], whose ids pass 1 accepted. *)
Record builds (s : Snapshot) (g : gram) (B : bodies) : Prop := {
  bd_ids : ids_valid (elems (Rules_ s)) 0 startRuleID;
  bd_rep : rep g B;
  bd_exact : exact g B;
  bd_dom : forall j, is_Some (byID g !! j) <-> j ∈ ID <$> elems (Rules_ s);
  bd_holds : forall R, R ∈ elems (Rules_ s) -> holds g B R;
  bd_seq : exists ls, B !! start g = Some ls /\ encs g ls = elems (Sequence s) /\ plain_cells ls;
  bd_next : nextID g = nextOf s /\ 1 <= nextID g <= 2 ^ 63 }.

Section built.
Context (s : Snapshot) (g : gram) (B : bodies) (HB : builds s g B).

Lemma built_live r : live g r -> exists R l, R ∈ elems (Rules_ s) /\ byID g !! ID R = Some r /\ B !! r = Some l /\
  encs g l = elems (Body R) /\ plain_cells l.
Proof using HB.
  intros [i Hi]. assert (i ∈ ID <$> elems (Rules_ s)) as Hin by (apply (bd_dom s g B HB); eauto).
  apply list_elem_of_fmap in Hin as (R & -> & HR). destruct (bd_holds s g B HB R HR) as (r' & l & H1 & H2 & H3 & H4).
  exists R, l. assert (r' = r) as -> by congruence. done.
Qed.

Lemma built_body R : R ∈ elems (Rules_ s) -> exists r l, live g r /\ byID g !! ID R = Some r /\ B !! r = Some l /\
  encs g l = elems (Body R) /\ plain_cells l.
Proof using HB. intros HR. destruct (bd_holds s g B HB R HR) as (r & l & H1 & H2). exists r, l. split; [eexists|]; done. Qed.

(** Every body that holds cells is one of the snapshot's sequences, and conversely. *)
Lemma built_sequence r l : B !! r = Some l -> l <> [] -> encs g l ∈ sequences s /\ plain_cells l.
Proof using HB.
  intros Hl Hne. destruct (owner_live g B r l (bd_rep s g B HB) Hl Hne) as [->|Hr].
  - destruct (bd_seq s g B HB) as (ls & H1 & H2 & H3). assert (ls = l) as -> by congruence. rewrite H2. split; [left|done].
  - destruct (built_live r Hr) as (R & l' & HR & _ & H1 & H2 & H3). assert (l' = l) as -> by congruence. rewrite H2.
    split; [|done]. right. apply list_elem_of_fmap. eauto.
Qed.

Lemma sequence_built q : q ∈ sequences s -> exists r l, B !! r = Some l /\ encs g l = q.
Proof using HB.
  intros [->|Hq]%elem_of_cons; [destruct (bd_seq s g B HB) as (ls & H1 & H2 & _); eauto|].
  apply list_elem_of_fmap in Hq as (R & -> & HR). destruct (built_body R HR) as (r & l & _ & _ & H1 & H2 & _). eauto.
Qed.

Lemma built_plain : plain_keys B.
Proof using HB.
  intros r l c Hl Hc Hk. destruct (built_sequence r l Hl) as [_ Hp]; [intros ->; apply elem_of_nil in Hc; done|]. apply Hp; done.
Qed.

(** A reference in a sequence is a reference cell of the body. *)
Lemma reference_cell r l t : B !! r = Some l -> live g t ->
  RuleRef (idOf g t) ∈ encs g l <-> exists c, c ∈ l /\ kref c.2 = Some t.
Proof using HB.
  intros Hl Ht. pose proof (bd_rep s g B HB) as HR. destruct (bd_next s g B HB) as [_ Hn].
  destruct (live_rule g B t HR Ht) as (x & _ & Hx & _ & _ & Hid & Hb).
  assert (idOf g t = id x) as Et by (unfold idOf; rewrite Hx; done). rewrite Et. split.
  - intros (c & Ec & Hc)%list_elem_of_fmap. exists c. split; [done|]. unfold enc in Ec. destruct (kref c.2) as [t'|] eqn:Ek.
    + apply ruleRef_inj in Ec. pose proof (rep_refs g B HR r l c t' Hl Hc Ek) as Ht'.
      destruct (live_rule g B t' HR Ht') as (y & _ & Hy & _ & _ & Hyd & _). unfold idOf in Ec. rewrite Hy in Ec. cbn in Ec. congruence.
    + pose proof (built_plain r l c Hl Hc Ek) as Hp. unfold plain in Hp. rewrite <- Ec, ruleRef_parse in Hp; [done|unfold MaxInt; lia].
  - intros (c & Hc & Hk). apply list_elem_of_fmap. exists c. split; [|done]. unfold enc. rewrite Hk, Et. done.
Qed.

Lemma built_useful : useful g B <-> forall R, R ∈ elems (Rules_ s) -> exists l, l ∈ sequences s /\ RuleRef (ID R) ∈ l.
Proof using HB.
  pose proof (bd_rep s g B HB) as HR.
  assert (forall R r, byID g !! ID R = Some r -> idOf g r = ID R) as Hid by (intros R r; apply (finished_id g B HR)).
  split.
  - intros HU R HRs. destruct (built_body R HRs) as (r & l & Hr & Hi & _).
    destruct (proj1 (nrefs_pos B r) (HU r Hr)) as (r1 & l1 & c & Hl1 & Hc & Hk). exists (encs g l1).
    split; [apply (built_sequence r1 l1 Hl1); intros ->; apply elem_of_nil in Hc; done|].
    rewrite <- (Hid R r Hi). apply (reference_cell r1 l1 r Hl1 Hr). eauto.
  - intros Hu r Hr. destruct (built_live r Hr) as (R & l & HRs & Hi & _). destruct (Hu R HRs) as (q & Hq & Hin).
    destruct (sequence_built q Hq) as (r1 & l1 & Hl1 & <-). rewrite <- (Hid R r Hi) in Hin.
    apply (reference_cell r1 l1 r Hl1 Hr) in Hin as (c & Hc & Hk). apply nrefs_pos. eauto 10.
Qed.

Lemma built_rank : (exists rk, ranked B rk) <-> exists rk : RuleID -> nat, forall R x i, R ∈ elems (Rules_ s) ->
  x ∈ elems (Body R) -> ParseRuleRef x = Some i -> (rk i < rk (ID R))%nat.
Proof using HB.
  pose proof (bd_rep s g B HB) as HR. split.
  - intros [rk Hrk]. exists (fun i => rk (ruleAt g i)). intros R x i HRs Hx Hp.
    destruct (built_body R HRs) as (r & l & Hr & Hi & Hl & Hen & Hpl). rewrite <- Hen in Hx.
    apply list_elem_of_fmap in Hx as (c & -> & Hc). unfold ruleAt at 2. rewrite Hi. change (default 0%nat (Some r)) with r.
    pose proof (Hrk r l c Hl Hc) as Hlt. unfold symRank in Hlt. unfold enc in Hp. destruct (kref c.2) as [t|] eqn:Ek; [|rewrite (Hpl c Hc Ek) in Hp; done].
    apply ruleRef_canonical in Hp as [Hp _]. apply ruleRef_inj in Hp as <-.
    destruct (live_rule g B t HR) as (y & _ & Hy & _ & _ & Hyd & _); [eapply (rep_refs g B HR); done|].
    unfold ruleAt, idOf. rewrite Hy. cbn. rewrite Hyd. done.
  - intros [rk Hrk]. destruct (rank_bound B (fun r => rk (idOf g r))) as [b Hb].
    exists (fun x => if decide (x = start g) then S (S b) else S (rk (idOf g x))). intros r l c Hl Hc. unfold symRank.
    destruct (kref c.2) as [t|] eqn:Ek; [|case_decide; lia].
    pose proof (rep_refs g B HR r l c t Hl Hc Ek) as Ht. destruct (live_rule g B t HR Ht) as (y & lt & Hy & Hlt & Hst & Hyd & Hyb).
    rewrite (decide_False (P := t = start g)) by done. destruct (decide (r = start g)) as [->|Hns].
    + specialize (Hb t ltac:(eauto)). cbn in Hb. lia.
    + destruct (owner_live g B r l HR Hl) as [?|Hr]; [intros ->; apply elem_of_nil in Hc; done|done|].
      destruct (built_live r Hr) as (R & l' & HRs & Hi & Hl' & Hen & _). assert (l' = l) as -> by congruence.
      rewrite (finished_id g B HR r (ID R) Hi). destruct (bd_next s g B HB) as [_ Hn].
      pose proof (Hrk R (enc g c.2) (idOf g t) HRs) as H. specialize (H ltac:(rewrite <- Hen; apply list_elem_of_fmap; eauto)).
      unfold enc in H. rewrite Ek, ruleRef_parse in H; [specialize (H eq_refl); lia|].
      unfold idOf. rewrite Hy. cbn. unfold MaxInt. lia.
Qed.

End built.

Lemma builds_inv s g B : builds s g B -> useful g B -> (exists rk, ranked B rk) -> exists E, inv g B E.
Proof.
  intros HB HU [rk Hrk]. destruct (ranked_solves B rk Hrk) as [E HE]. exists E. constructor; [apply HB|apply HB| |done|eauto|apply HB].
  intros r Hr Hl. destruct (built_live s g B HB r Hr) as (R & l & HRs & _ & Hl' & Hen & _).
  assert (l = []) as -> by congruence. destruct (ids_valid_ascending _ _ _ (bd_ids s g B HB)) as [_ HF].
  rewrite Forall_forall in HF. destruct (HF R HRs) as (_ & _ & Hne). apply Hne. rewrite <- Hen. done.
Qed.

Lemma builds_index s g B ix : builds s g B -> rep (set_index ix g) B -> builds s (set_index ix g) B.
Proof. intros [] HR. constructor; done. Qed.

(** ** The passes together *)

Lemma new_minting : exists B, minting newSequiturGrammar B 0 startRuleID.
Proof.
  destruct new_stands as (B & E & HI & _ & Hw & _). exists B. pose proof (inv_rep _ _ _ HI) as HR.
  assert (byID newSequiturGrammar = ∅) as Hid by (vm_compute; reflexivity).
  assert (forall r, ~ live newSequiturGrammar r) as Hno by (intros r [i Hi]; rewrite Hid in Hi; done).
  constructor.
  - apply rep_set_nextID; [done|]. intros i r Hi. rewrite Hid in Hi. done.
  - intros r l Hl. destruct (decide (r = start newSequiturGrammar)) as [->|Hs]; [|eapply (rep_dead _ B HR); eauto].
    rewrite (inv_solves _ _ _ HI _ _ Hl) in Hw. destruct l as [|c l]; [done|exfalso]. rewrite sem_cons in Hw.
    apply app_eq_nil in Hw as [Hw _]. unfold symE in Hw. destruct (kref c.2) as [t|] eqn:Ek; [|done].
    apply (Hno t). apply (rep_refs _ B HR _ _ c t Hl); [left|done].
  - intros r. unfold usesOf. assert (rules newSequiturGrammar = {[0%nat := mkRule_ 0 1%nat 0]}) as -> by (vm_compute; done).
    destruct (decide (r = 0%nat)) as [->|Hr]; [rewrite lookup_singleton_eq; done|]. rewrite lookup_singleton_ne by done. done.
  - reflexivity.
  - intros j [r Hj]. rewrite Hid in Hj. done.
Qed.

Lemma empty_exact g B : (forall r l, B !! r = Some l -> l = []) -> (forall r, usesOf g r = 0) -> exact g B.
Proof.
  intros He Hu r _. rewrite Hu. destruct (decide (1 <= nrefs B r)) as [Hp|Hp]; [|pose proof (refs_nonneg (cells B) r); unfold nrefs in *; lia].
  apply nrefs_pos in Hp as (r' & l & c & Hl & Hc & _). rewrite (He r' l Hl) in Hc. apply elem_of_nil in Hc. done.
Qed.

(** What [fill] needs of a sequence, and what the snapshot says of it. *)
Lemma resolves_ids s g l : (forall j, is_Some (byID g !! j) <-> j ∈ ID <$> elems (Rules_ s)) ->
  resolves g l <-> forall x i, x ∈ l -> ParseRuleRef x = Some i -> i ∈ ID <$> elems (Rules_ s).
Proof. intros Hd. unfold resolves. split; intros H x i Hx Hp; apply Hd; eauto. Qed.

(** Pass 2, from the minted rules. *)
Lemma filled s g B : ids_valid (elems (Rules_ s)) 0 startRuleID -> rep g B -> exact g B ->
  (forall r l, B !! r = Some l -> l = []) -> (forall j, is_Some (byID g !! j) <-> j ∈ ID <$> elems (Rules_ s)) ->
  nextID g = nextOf s -> 1 <= nextID g <= 2 ^ 63 -> exists o g',
  (e ← fillRules (elems (Rules_ s)); match e with Some e => mret (Some e) | None => st ← gets start; fill st (elems (Sequence s)) end) g
    = Ret o g' /\
  match o with
  | Some _ => ~ forall l x i, l ∈ sequences s -> x ∈ l -> ParseRuleRef x = Some i -> i ∈ ID <$> elems (Rules_ s)
  | None => (forall l x i, l ∈ sequences s -> x ∈ l -> ParseRuleRef x = Some i -> i ∈ ID <$> elems (Rules_ s)) /\
      exists B', builds s g' B'
  end.
Proof.
  intros Hv HR He Hemp Hd Hnx Hnb. destruct (ids_valid_ascending _ _ _ Hv) as [HS _].
  destruct (fillRules_spec (elems (Rules_ s)) g B HR He (sorted_NoDup _ HS)) as (o & g1 & E1 & Ho).
  { intros R HRs. assert (is_Some (byID g !! ID R)) as [r Hr] by (apply Hd, list_elem_of_fmap; eauto). exists r. split; [done|].
    destruct (rep_dom g B HR r) as [l Hl]; [eexists; done|]. rewrite Hl, (Hemp r l Hl). done. }
  run E1. destruct o as [e|].
  { exists (Some e), g1. split; [done|]. destruct Ho as (R & HRs & Hn). intros Hall. apply Hn, (resolves_ids s g _ Hd). intros x i.
    apply Hall. right. apply list_elem_of_fmap. eauto. }
  destruct Ho as (Hres & B1 & R1 & X1 & K1 & I1 & Hh & Hrest). run (eq_refl : gets start g1 = Ret (start g1) g1).
  assert (B1 !! start g = Some []) as Hs1.
  { rewrite Hrest; [destruct (rep_start g B HR) as [l Hl]; rewrite Hl, (Hemp _ l Hl); done|]. intros R HRs Hi.
    destruct (rep_byid g B HR _ _ Hi) as (_ & _ & _ & Hne & _). done. }
  rewrite (kept_start _ _ K1).
  destruct (fill_spec (elems (Sequence s)) g1 B1 (start g) [] R1 X1 Hs1) as (o & g2 & E2 & Ho); [left; rewrite (kept_start _ _ K1); done|].
  exists o, g2. split; [done|].
  assert (resolves g1 (elems (Sequence s)) <-> resolves g (elems (Sequence s))) as Hiff by (unfold resolves; rewrite (kept_byID _ _ K1); done).
  destruct o as [e|].
  { intros Hall. apply Ho, Hiff, (resolves_ids s g _ Hd). intros x i. apply Hall. left. }
  destruct Ho as (Hres2 & new & R2 & X2 & K2 & I2 & En & Pl). cbn [app] in R2, X2. split.
  { intros l x i [->|Hl]%elem_of_cons; [apply (resolves_ids s g _ Hd), Hiff; done|].
    apply list_elem_of_fmap in Hl as (R & -> & HRs). apply (resolves_ids s g _ Hd). auto. }
  assert (kept g g2) as K by (etransitivity; done).
  exists (<[start g := new]> B1). constructor; try done.
  - rewrite (kept_byID _ _ K). done.
  - intros R HRs. destruct (Hh R HRs) as (r & l & H1 & H2 & H3 & H4). exists r, l. rewrite (kept_byID _ _ K). split; [done|].
    rewrite lookup_insert_ne; [|intros <-; destruct (rep_byid g B HR _ _ H1) as (_ & _ & _ & Hne & _); done]. split; [done|].
    split; [|done]. rewrite <- H3. apply encs_kept, K.
  - exists new. rewrite (kept_start _ _ K), lookup_insert_eq. split; [done|]. split; [|done]. rewrite <- En. apply encs_kept, K2.
  - rewrite (kept_nextID _ _ K). done.
Qed.

Lemma fillAndCheck_spec s g B : ids_valid (elems (Rules_ s)) 0 startRuleID -> rep g B -> exact g B ->
  (forall r l, B !! r = Some l -> l = []) -> (forall j, is_Some (byID g !! j) <-> j ∈ ID <$> elems (Rules_ s)) ->
  nextID g = nextOf s -> 1 <= nextID g <= 2 ^ 63 -> (forall R, R ∈ elems (Rules_ s) -> ID R < NextID s) -> exists o g',
  fillAndCheck s g = Ret o g' /\
  match o with Some _ => ~ acceptable s | None => acceptable s /\ exists B' E, builds s g' B' /\ inv g' B' E /\ useful g' B' end.
Proof.
  intros Hv HR He Hemp Hd Hnx Hnb Hlt. destruct (filled s g B Hv HR He Hemp Hd Hnx Hnb) as (o & g1 & E1 & Ho).
  unfold fillAndCheck. unfold mbind, M_bind in E1 |- *. destruct (fillRules (elems (Rules_ s)) g) as [[e|] g0| |]; [| |done|done].
  { injection E1 as <- <-. exists (Some e), g0. split; [done|]. intros Ha. apply Ho, Ha. }
  cbn [gets] in E1 |- *. rewrite E1. destruct o as [e|].
  { exists (Some e), g1. split; [done|]. intros Ha. apply Ho, Ha. }
  destruct Ho as (Hrefs & B1 & HB). cbn [gets].
  assert (forall r i, byID g1 !! i = Some r -> ruleAt g1 i = r) as Hat by (intros r i Hi; unfold ruleAt; rewrite Hi; done).
  assert (forall r, live g1 r -> usesOf g1 r = nrefs B1 r) as Hus by (intros r Hr; apply (bd_exact s g1 B1 HB), (rep_dom g1 B1 (bd_rep s g1 B1 HB) r Hr)).
  pose proof (unreferenced_spec g1 (sortedIDs g1)) as Hun. destruct (unreferenced g1 (sortedIDs g1)) as [i|].
  { exists (Some (Unreferenced i)), g1. split; [done|]. intros Ha. destruct Hun as [Hi Hu]. apply elem_sortedIDs in Hi as [r Hr].
    rewrite (Hat r i Hr), Hus in Hu by (eexists; done). pose proof (proj2 (built_useful s g1 B1 HB) (ac_used s Ha) r ltac:(eexists; done)). lia. }
  assert (useful g1 B1) as HU.
  { intros r Hr. pose proof Hr as [i Hi]. specialize (Hun i ltac:(apply elem_sortedIDs; eauto)). rewrite (Hat r i Hi), Hus in Hun by done.
    pose proof (refs_nonneg (cells B1) r). unfold nrefs in *. lia. }
  destruct (findCycle_spec g1 B1 (bd_rep s g1 B1 HB)) as (c & Ec & Hc). rewrite Ec. destruct c as [i|].
  { exists (Some (Cyclic i)), g1. split; [done|]. intros Ha. assert (Some i = None) as [=]. apply Hc, (built_rank s g1 B1 HB), (ac_rank s Ha). }
  pose proof (proj1 Hc eq_refl) as Hrk. destruct (reindex_spec g1 B1 (bd_rep s g1 B1 HB)) as (ix & Er & Rr). rewrite Er.
  exists None, (set_index ix g1). split; [done|]. split.
  { constructor; [done|done|done|apply (built_useful s g1 B1 HB); done|apply (built_rank s g1 B1 HB); done]. }
  pose proof (builds_index s g1 B1 ix HB Rr) as HB'. destruct (builds_inv s _ B1 HB' HU Hrk) as [E HI]. exists B1, E. done.
Qed.

Lemma build_spec s : ints s -> exists o g', buildFromSnapshot s newSequiturGrammar = Ret o g' /\
  match o with Some _ => ~ acceptable s | None => acceptable s /\ exists B E, builds s g' B /\ inv g' B E /\ useful g' B end.
Proof.
  intros [Hnx Hid]. destruct new_minting as [B0 HM]. unfold buildFromSnapshot.
  destruct (mintRules_spec _ _ _ _ _ HM Hid) as (o & g1 & E1 & Hst & Ho). run E1. destruct o as [e|last'].
  { exists (Some e), g1. split; [done|]. intros Ha. apply Ho, Ha. }
  destruct Ho as (Hv & Hlast & (B1 & HM1) & Hdom). destruct (ids_valid_ascending _ _ _ Hv) as [HS HF].
  assert (forall j, is_Some (byID g1 !! j) <-> j ∈ ID <$> elems (Rules_ s)) as Hd.
  { intros j. rewrite Hdom. split; [intros [[r Hr]|Hj]; [vm_compute in Hr; done|done]|auto]. }
  assert (forall R, R ∈ elems (Rules_ s) -> ID R <= last') as Hle.
  { intros R HRs. apply (mt_ids _ _ _ _ HM1). apply Hd, list_elem_of_fmap. eauto. }
  assert (forall n, n = nextOf s -> 1 <= n <= 2 ^ 63 -> (forall R, R ∈ elems (Rules_ s) -> ID R < n) ->
    (forall R, R ∈ elems (Rules_ s) -> ID R < NextID s) ->
    exists o g', (modify (with_nextID n);; fillAndCheck s) g1 = Ret o g' /\
    match o with Some _ => ~ acceptable s | None => acceptable s /\ exists B E, builds s g' B /\ inv g' B E /\ useful g' B end) as Hgo.
  { intros n Hn Hb Hlt Hlt'. destruct HM1 as [H1 H2 H3 H4 H5].
    assert (rep (with_nextID n g1) B1) as HR1; [|exact (fillAndCheck_spec s (with_nextID n g1) B1 Hv HR1 (empty_exact _ B1 H2 H3) H2 Hd Hn Hb Hlt')].
    apply (rep_set_nextID (with_nextID (2 ^ 63) g1)); [done|]. intros i r Hi. cbn in Hi.
    assert (i ∈ ID <$> elems (Rules_ s)) as Hin by (apply Hd; eauto). apply list_elem_of_fmap in Hin as (R & -> & HRs). auto. }
  unfold chooseNext, firstInducedRuleID. unfold nextOf in Hgo.
  destruct (elems (Rules_ s)) as [|R0 rs] eqn:Ers.
  - cbn [length Nat.eqb andb]. cbn in Hlast. subst last'. destruct (NextID s <? 1) eqn:E2; bsolve.
    + apply Hgo; unfold firstInducedRuleID; [lia|lia| |]; intros R HRs; apply elem_of_nil in HRs; done.
    + unfold startRuleID. rewrite (proj2 (Z.leb_gt _ _)) by lia.
      apply Hgo; unfold firstInducedRuleID; [lia|lia| |]; intros R HRs; apply elem_of_nil in HRs; done.
  - cbn [length Nat.eqb andb]. assert (1 <= last') as Hpos.
    { rewrite Forall_forall in HF. destruct (HF R0 ltac:(left)) as (H1 & _). specialize (Hle R0 ltac:(left)). lia. }
    destruct (NextID s <=? last') eqn:E2; bsolve.
    + exists (Some (NextCollides (NextID s) last')), g1. split; [done|]. intros Ha. pose proof (ac_next s Ha) as Hlt. rewrite Ers in Hlt.
      assert (List.last (ID <$> R0 :: rs) startRuleID ∈ ID <$> R0 :: rs) as Hin by (apply last_in; done). rewrite <- Hlast in Hin.
      apply list_elem_of_fmap in Hin as (R & E3 & HRs). specialize (Hlt R HRs). lia.
    + apply Hgo; [done|lia| |]; intros R HRs; specialize (Hle R HRs); lia.
Qed.

(** ** What the rebuilt grammar exports *)

Lemma takeSnapshot_spec g B E ls : inv g B E -> B !! start g = Some ls ->
  TakeSnapshot g = Ret (mkSnapshot (appended (renderedRules g B E)) (appended (encs g ls)) (nextID g)) g.
Proof.
  intros HI Hls. unfold TakeSnapshot. run (snapshotRules_spec g B E HI). run (compressed_spec g B E ls HI Hls). done.
Qed.

(** The part of the rules a snapshot determines; uses, expansions and spans follow from it. *)
Definition outline (rs : list Rule) : list (RuleID * list Symbol) := (fun R => (ID R, elems (Body R))) <$> rs.

Lemma built_ids s g B : builds s g B -> sortedIDs g = ID <$> elems (Rules_ s).
Proof.
  intros HB. destruct (ids_valid_ascending _ _ _ (bd_ids s g B HB)) as [HS _].
  apply ascending_unique; [apply sortedIDs_ascending|done|]. intros i. rewrite elem_sortedIDs. apply (bd_dom s g B HB).
Qed.

Lemma built_outline s g B E : builds s g B -> outline (renderedRules g B E) = outline (elems (Rules_ s)).
Proof.
  intros HB. unfold outline, renderedRules. rewrite (built_ids s g B HB), <- !list_fmap_compose. apply list_fmap_ext.
  intros k R HR. apply list_elem_of_lookup_2 in HR. destruct (built_body s g B HB R HR) as (r & l & _ & Hi & Hl & Hen & _).
  unfold compose, ruleAt. rewrite Hi. change (default 0%nat (Some r)) with r. unfold rendered. cbn [ID Body]. rewrite elems_appended, Hl.
  rewrite <- Hen. f_equal. apply (finished_id g B (bd_rep s g B HB)). done.
Qed.

Lemma cells_cover L : forall B : bodies, (forall r l, B !! r = Some l -> r ∉ L -> l = []) ->
  (length (cells B) <= length (concat ((fun r => default [] (B !! r)) <$> L)))%nat.
Proof.
  induction L as [|x L IH]; intros B Hc; cbn [fmap list_fmap concat].
  - destruct (cells B) as [|c l] eqn:Ec; [done|]. assert (c ∈ cells B) as Hin by (rewrite Ec; left).
    apply elem_of_cells in Hin as (r & l' & Hl & Hin). rewrite (Hc r l' Hl) in Hin by apply not_elem_of_nil. apply elem_of_nil in Hin. done.
  - rewrite length_app. specialize (IH (delete x B)).
    assert (length (cells B) = length (default [] (B !! x)) + length (cells (delete x B)))%nat as ->.
    { destruct (B !! x) as [l|] eqn:El; [|rewrite delete_id by done; done]. rewrite (cells_split B x l El), length_app. done. }
    apply Nat.add_le_mono_l. etransitivity; [apply IH|].
    + intros r l Hl Hn. apply lookup_delete_Some in Hl as [Hne Hl]. apply (Hc r l Hl). rewrite not_elem_of_cons. auto.
    + clear. induction L as [|y L IH]; cbn [fmap list_fmap concat]; [done|]. rewrite !length_app. apply Nat.add_le_mono; [|done].
      destruct (decide (x = y)) as [<-|Hne]; [rewrite lookup_delete_eq; cbn; lia|]. rewrite lookup_delete_ne by done. done.
Qed.

Lemma built_size s g B : builds s g B -> (length (cells B) <= length (concat (sequences s)))%nat.
Proof.
  intros HB. pose proof (bd_rep s g B HB) as HR. etransitivity; [apply (cells_cover (start g :: (ruleAt g <$> sortedIDs g)))|].
  - intros r l Hl Hn. apply not_elem_of_cons in Hn as [Hs Hn]. apply (rep_dead g B HR r l Hl Hs). intros [i Hi].
    apply Hn, list_elem_of_fmap. exists i. split; [unfold ruleAt; rewrite Hi; done|]. apply elem_sortedIDs. eauto.
  - rewrite (built_ids s g B HB). unfold sequences. cbn [fmap list_fmap concat]. rewrite !length_app.
    destruct (bd_seq s g B HB) as (ls & Hls & Hen & _). rewrite Hls, <- Hen. change (default [] (Some ls)) with ls.
    unfold encs. rewrite length_fmap. apply Nat.add_le_mono_l. pose proof (built_body s g B HB) as Hb.
    induction (elems (Rules_ s)) as [|R rs IH]; [done|]. cbn [fmap list_fmap concat]. rewrite !length_app.
    destruct (Hb R ltac:(left)) as (r & l & _ & Hi & Hl & Hbn & _). assert (ruleAt g (ID R) = r) as Ea by (unfold ruleAt; rewrite Hi; done).
    cbn beta. rewrite Ea, Hl, <- Hbn. change (default [] (Some l)) with l. unfold encs. rewrite length_fmap. apply Nat.add_le_mono_l, IH.
    intros R' HR'. apply Hb. right. done.
Qed.

(** C3: [Restore] accepts exactly the well-formed snapshots, and what it accepts it reproduces.  For every
    snapshot whose ids are ints and every receiver, [Restore] returns; it reports no error exactly when the snapshot
    is acceptable; a refusal leaves the receiver as it was; after an acceptance a snapshot of the receiver has the
    same rule ids, bodies, sequence and next id, and its use counts and expansions are recomputed from the bodies,
    whatever the restored snapshot claimed for them. *)
Theorem restore_exact s g : ints s -> exists o g', Restore s g = Ret o g' /\ (o = None <-> acceptable s) /\
  match o with
  | Some _ => g' = g
  | None => exists t, TakeSnapshot g' = Ret t g' /\ outline (elems (Rules_ t)) = outline (elems (Rules_ s)) /\
      elems (Sequence t) = elems (Sequence s) /\ NextID t = nextOf s /\
      forall R, R ∈ elems (Rules_ t) -> 1 <= Uses R /\ Uses R = occ (RuleRef (ID R)) (concat (sequences s)) /\
        elems (Expansion R) = decompress (elems (Rules_ t)) (elems (Body R)) /\ Span R = Z.of_nat (length (elems (Expansion R)))
  end.
Proof.
  intros Hi. destruct (build_spec s Hi) as (o & g' & Eb & Ho). unfold Restore. rewrite Eb. destruct o as [e|].
  { exists (Some e), g. split; [done|]. split; [split; [done|intros Ha; destruct (Ho Ha)]|done]. }
  destruct Ho as (Ha & B & E & HB & HI & HU). exists None, g'. split; [done|]. split; [done|].
  destruct (bd_seq s g' B HB) as (ls & Hls & Hen & _). destruct (bd_next s g' B HB) as [Hn1 Hn2].
  eexists. split; [apply (takeSnapshot_spec g' B E ls HI Hls)|]. cbn [Rules_ Sequence NextID]. rewrite !elems_appended.
  split; [apply built_outline; done|]. split; [done|]. split; [done|]. intros R HR.
  destruct (elem_rendered g' B E R HR) as (r & Hr & ->). cbn [Uses ID Body Expansion Span rendered]. rewrite !elems_appended.
  assert (nextID g' <= 2 ^ 63) as Hb by lia. pose proof (built_plain s g' B HB) as Hp.
  destruct (live_rule g' B r (inv_rep _ _ _ HI) Hr) as (x & l & _ & Hl & _).
  split; [rewrite (inv_exact g' B E HI r ltac:(eauto)); apply HU; done|]. split; [|split; [|done]].
  - rewrite (uses_occ g' B E HI Hb Hp r Hr), Hls. change (default [] (Some ls)) with ls. rewrite Hen. unfold sequences. cbn [concat]. do 3 f_equal.
    pose proof (built_outline s g' B E HB) as Ho. apply (f_equal (fmap snd)) in Ho. unfold outline in Ho. rewrite <- !list_fmap_compose in Ho. done.
  - rewrite Hl. change (default [] (Some l)) with l. rewrite (decompress_body g' B E HI Hb r l Hp Hl). apply (inv_solves g' B E HI). done.
Qed.

(** ** Going on after a restore *)

Lemma appendAll_step w : forall g B E, inv g B E -> useful g B -> nextID g + mu g B + 2 * Z.of_nat (length w) < 2 ^ 63 ->
  exists g' B' E', appendAll w g = Ret tt g' /\ inv g' B' E' /\ useful g' B' /\ start g' = start g /\
    E' (start g) = E (start g) ++ w /\ nextID g' + mu g' B' <= nextID g + mu g B + 2 * Z.of_nat (length w).
Proof.
  induction w as [|x w IH]; intros g B E HI HU Hb; cbn [appendAll].
  { exists g, B, E. rewrite app_nil_r. cbn. split; [done|]. do 4 (split; [done|]). lia. }
  cbn [length] in Hb. destruct (append_step g B E x HI HU) as (g1 & B1 & E1 & Ea & HI1 & H2 & Hs1 & Hw1 & Hb1); [lia|]. run Ea.
  destruct (IH g1 B1 E1 HI1 (stands_useful g1 B1 E1 HI1 H2)) as (g2 & B2 & E2 & Ew & HI2 & HU2 & Hs2 & Hw2 & Hb2); [lia|].
  exists g2, B2, E2. split; [done|]. split; [done|]. split; [done|]. split; [congruence|].
  split; [|cbn [length]; lia]. rewrite Hs1, Hw1, <- app_assoc in Hw2. done.
Qed.

Lemma expansion_plain g B E : inv g B E -> plain_keys B -> forall r x, is_Some (B !! r) -> x ∈ E r -> plain x.
Proof.
  intros HI Hp. destruct (inv_acyclic g B E HI) as [rk Hrk]. pose proof (inv_rep g B E HI) as HR.
  assert (forall n r x, (rk r < n)%nat -> is_Some (B !! r) -> x ∈ E r -> plain x) as H; [|eauto].
  intros n. induction n as [|n IH]; intros r x Hn [l Hl] Hx; [lia|]. rewrite (inv_solves g B E HI r l Hl) in Hx. unfold sem in Hx.
  apply list_elem_of_In, in_concat in Hx as (y & Hy & Hx). apply list_elem_of_In, list_elem_of_fmap in Hy as (c & -> & Hc).
  apply list_elem_of_In in Hx. unfold symE in Hx. destruct (kref c.2) as [t|] eqn:Ek.
  - pose proof (Hrk r l c Hl Hc) as Hlt. unfold symRank in Hlt. rewrite Ek in Hlt. apply (IH t); [lia| |done].
    apply (rep_dom g B HR). eapply (rep_refs g B HR); done.
  - apply list_elem_of_singleton in Hx as ->. eapply Hp; done.
Qed.

(** Reading the exported grammar gives the expansion of its start rule. *)
Lemma reads_start g B E ls : inv g B E -> nextID g <= 2 ^ 63 -> plain_keys B -> B !! start g = Some ls ->
  decompress (elems (appended (renderedRules g B E))) (elems (appended (encs g ls))) = E (start g).
Proof.
  intros HI Hn Hp Hls. rewrite !elems_appended, (decompress_body g B E HI Hn (start g) ls Hp Hls). symmetry. apply (inv_solves g B E HI). done.
Qed.

(** A restored grammar goes on without loss.  An acceptable snapshot, restored and then fed [w], absorbs every
    symbol within the fuel and without a nil dereference, and reading the rules and the compressed sequence gives
    what the restored snapshot stood for followed by [w]. *)
Theorem restored_continues s w g : ints s -> acceptable s -> (forall x, x ∈ w -> plain x) ->
  nextOf s + 2 * Z.of_nat (length (concat (sequences s))) + 2 * Z.of_nat (length w) < 2 ^ 63 -> exists g1 t g2 rs c,
    Restore s g = Ret None g1 /\ TakeSnapshot g1 = Ret t g1 /\ appendAll w g1 = Ret tt g2 /\
    Rules g2 = Ret rs g2 /\ Compressed g2 = Ret c g2 /\
    decompress (elems rs) (elems c) = decompress (elems (Rules_ t)) (elems (Sequence t)) ++ w.
Proof.
  intros Hi Ha Hw Hb. destruct (build_spec s Hi) as (o & g1 & Eb & Ho). destruct o as [e|]; [destruct (Ho Ha)|].
  destruct Ho as (_ & B & E & HB & HI & HU). destruct (bd_seq s g1 B HB) as (ls & Hls & Hen & _). destruct (bd_next s g1 B HB) as [Hn1 Hn2].
  pose proof (built_size s g1 B HB) as Hsz. pose proof (built_plain s g1 B HB) as Hp.
  destruct (appendAll_step w g1 B E HI HU) as (g2 & B2 & E2 & Ew & HI2 & HU2 & Hs2 & Hw2 & Hb2); [unfold mu; lia|].
  destruct (rep_start g2 B2 (inv_rep _ _ _ HI2)) as [ls2 Hls2]. rewrite <- Hs2 in Hw2.
  pose proof (mu_cells g2 B2 (inv_rep _ _ _ HI2) HU2) as Hmu. assert (nextID g2 <= 2 ^ 63) as Hn3 by (unfold mu in Hb2 at 2; lia).
  assert (plain_keys B2) as Hp2.
  { apply (stream_plain g2 B2 E2 HI2 HU2). rewrite Hw2, Hs2. intros x [Hx|Hx]%elem_of_app; [|auto].
    eapply (expansion_plain g1 B E HI Hp (start g1)); eauto. }
  exists g1, (mkSnapshot (appended (renderedRules g1 B E)) (appended (encs g1 ls)) (nextID g1)), g2,
    (appended (renderedRules g2 B2 E2)), (appended (encs g2 ls2)).
  split; [unfold Restore; rewrite Eb; done|]. split; [apply takeSnapshot_spec; done|]. split; [done|].
  split; [apply snapshotRules_spec; done|]. split; [eapply compressed_spec; done|]. cbn [Rules_ Sequence].
  rewrite (reads_start g2 B2 E2 ls2), (reads_start g1 B E ls) by (done || lia). rewrite Hw2, Hs2. done.
Qed.

(** ** A session's own snapshot *)

Definition readWith (F : RuleID -> list Symbol) (l : list Symbol) : list Symbol :=
  concat ((fun x => match ParseRuleRef x with Some i => F i | None => [x] end) <$> l).

Lemma sem_reads s g B E r l : builds s g B -> B !! r = Some l -> sem E l = readWith (fun i => E (ruleAt g i)) (encs g l).
Proof.
  intros HB Hl. pose proof (bd_rep s g B HB) as HR. destruct (bd_next s g B HB) as [_ Hn].
  unfold sem, readWith, encs. rewrite <- list_fmap_compose. f_equal. apply list_fmap_ext.
  intros k c Hc. apply list_elem_of_lookup_2 in Hc. unfold compose, symE, enc. destruct (kref c.2) as [t|] eqn:Ek.
  - destruct (live_rule g B t HR (rep_refs g B HR r l c t Hl Hc Ek)) as (y & _ & Hy & _ & _ & Hyd & Hyb).
    unfold idOf. rewrite Hy. cbn [from_option]. rewrite ruleRef_parse by (unfold MaxInt; lia). unfold ruleAt. rewrite Hyd. done.
  - rewrite (built_plain s g B HB r l c Hl Hc Ek). done.
Qed.

Section same.
Context (s : Snapshot) (g g' : gram) (B B' : bodies) (E E' : rptr -> list Symbol).
Context (HB : builds s g B) (HB' : builds s g' B') (HI : inv g B E) (HI' : inv g' B' E').

Lemma same_expansion R : R ∈ elems (Rules_ s) -> E (ruleAt g (ID R)) = E' (ruleAt g' (ID R)).
Proof using HB HB' HI HI'.
  destruct (proj1 (built_rank s g B HB) (inv_acyclic g B E HI)) as [rk Hrk].
  assert (forall n R, (rk (ID R) < n)%nat -> R ∈ elems (Rules_ s) -> E (ruleAt g (ID R)) = E' (ruleAt g' (ID R))) as H; [|eauto].
  intros n. clear R. induction n as [|n IH]; intros R Hn HR; [lia|].
  destruct (built_body s g B HB R HR) as (r & l & _ & Hi & Hl & Hen & _).
  destruct (built_body s g' B' HB' R HR) as (r' & l' & _ & Hi' & Hl' & Hen' & _).
  assert (ruleAt g (ID R) = r) as -> by (unfold ruleAt; rewrite Hi; done).
  assert (ruleAt g' (ID R) = r') as -> by (unfold ruleAt; rewrite Hi'; done).
  rewrite (inv_solves g B E HI r l Hl), (inv_solves g' B' E' HI' r' l' Hl').
  rewrite (sem_reads s g B E r l HB Hl), (sem_reads s g' B' E' r' l' HB' Hl'), Hen, Hen'.
  unfold readWith. f_equal. apply list_fmap_ext. intros k x Hx. apply list_elem_of_lookup_2 in Hx.
  destruct (ParseRuleRef x) as [i|] eqn:Ep; [|done]. specialize (Hrk R x i HR Hx Ep).
  rewrite <- Hen in Hx. apply list_elem_of_fmap in Hx as (c & -> & Hc). unfold enc in Ep. destruct (kref c.2) as [t|] eqn:Ek;
    [|rewrite (built_plain s g B HB r l c Hl Hc Ek) in Ep; done].
  apply ruleRef_canonical in Ep as [Ep _]. apply ruleRef_inj in Ep as <-.
  destruct (built_live s g B HB t (rep_refs g B (bd_rep s g B HB) r l c t Hl Hc Ek)) as (R' & _ & HR' & Hi2 & _).
  rewrite (finished_id g B (bd_rep s g B HB) t (ID R') Hi2) in *. apply IH; [lia|done].
Qed.

Lemma same_rules_exported : renderedRules g B E = renderedRules g' B' E'.
Proof using HB HB' HI HI'.
  pose proof (built_outline s g B E HB) as Ho. pose proof (built_outline s g' B' E' HB') as Ho'. rewrite <- Ho' in Ho. clear Ho'.
  apply (f_equal (fmap snd)) in Ho. unfold outline in Ho. rewrite <- !list_fmap_compose in Ho.
  destruct (bd_seq s g B HB) as (ls & Hls & Hen & _). destruct (bd_seq s g' B' HB') as (ls' & Hls' & Hen' & _).
  unfold renderedRules at 1 2. rewrite (built_ids s g B HB), (built_ids s g' B' HB'), <- !list_fmap_compose. apply list_fmap_ext.
  intros k R HR. apply list_elem_of_lookup_2 in HR. unfold compose. pose proof (same_expansion R HR) as He.
  destruct (built_body s g B HB R HR) as (r & l & Hr & Hi & Hl & Hb & _).
  destruct (built_body s g' B' HB' R HR) as (r' & l' & Hr' & Hi' & Hl' & Hb' & _).
  assert (ruleAt g (ID R) = r) as Ea by (unfold ruleAt; rewrite Hi; done).
  assert (ruleAt g' (ID R) = r') as Ea' by (unfold ruleAt; rewrite Hi'; done). rewrite Ea, Ea' in *.
  pose proof (bd_next s g B HB) as [_ Hn]. pose proof (bd_next s g' B' HB') as [_ Hn'].
  unfold rendered. rewrite (finished_id g B (bd_rep s g B HB) r _ Hi), (finished_id g' B' (bd_rep s g' B' HB') r' _ Hi'), He, Hl, Hl'.
  rewrite (uses_occ g B E HI ltac:(lia) (built_plain s g B HB) r Hr), (uses_occ g' B' E' HI' ltac:(lia) (built_plain s g' B' HB') r' Hr').
  rewrite (finished_id g B (bd_rep s g B HB) r _ Hi), (finished_id g' B' (bd_rep s g' B' HB') r' _ Hi').
  change (default [] (Some l)) with l. change (default [] (Some l')) with l'. rewrite Hb, Hb', Hls, Hls'.
  change (default [] (Some ls)) with ls. change (default [] (Some ls')) with ls'. rewrite Hen, Hen'.
  assert ((fun R => elems (Body R)) <$> renderedRules g B E = (fun R => elems (Body R)) <$> renderedRules g' B' E') as -> by exact Ho. done.
Qed.

End same.

Lemma ascending_valid rs : forall i last, StronglySorted Z.lt (ID <$> rs) ->
  Forall (fun R => 1 <= ID R /\ ((0 < i)%nat -> last < ID R) /\ elems (Body R) <> []) rs -> ids_valid rs i last.
Proof.
  induction rs as [|R rs IH]; intros i last HS HF; cbn [ids_valid]; [done|]. apply Forall_cons in HF as [(H1 & H2 & H3) HF].
  cbn [fmap list_fmap] in HS. inversion HS as [|? ? HS' Hlt]; subst. split; [done|]. split; [done|]. split; [done|]. apply IH; [done|].
  rewrite Forall_forall in *. intros R' HR'. destruct (HF R' HR') as (H4 & _ & H6). split; [done|]. split; [|done].
  intros _. eapply (proj1 (Forall_forall _ _) Hlt), list_elem_of_fmap. eauto.
Qed.

(** A live grammar over plain symbols builds its own snapshot. *)
Lemma own_snapshot g B E ls : inv g B E -> nextID g <= 2 ^ 63 -> plain_keys B -> B !! start g = Some ls ->
  builds (mkSnapshot (appended (renderedRules g B E)) (appended (encs g ls)) (nextID g)) g B.
Proof.
  intros HI Hn Hp Hls. pose proof (inv_rep g B E HI) as HR. pose proof (inv_next g B E HI) as H1.
  assert (forall r l, B !! r = Some l -> plain_cells l) as Hpc by (intros r l Hl c Hc; eapply Hp; done).
  assert (forall R, R ∈ renderedRules g B E -> exists r l, live g r /\ byID g !! ID R = Some r /\ B !! r = Some l /\
    elems (Body R) = encs g l /\ l <> [] /\ 1 <= ID R) as Hr.
  { intros R (r & Hr & ->)%elem_rendered. destruct (live_rule g B r HR Hr) as (x & l & Hx & Hl & _ & Hid & Hb). exists r, l.
    cbn [ID Body rendered]. rewrite elems_appended, Hl. unfold idOf. rewrite Hx. cbn [from_option]. do 4 (split; [done|]).
    split; [intros ->; eapply (inv_nonempty g B E HI); done|]. lia. }
  constructor; cbn [Rules_ Sequence NextID]; rewrite ?elems_appended; try done.
  - apply ascending_valid; [rewrite (rendered_ids g B E HI Hn); apply sortedIDs_ascending|]. apply Forall_forall. intros R HRs.
    destruct (Hr R HRs) as (r & l & _ & _ & _ & Hb & Hne & Hge). split; [done|]. split; [lia|]. rewrite Hb.
    intros H. apply Hne, (fmap_nil_inv _ l H).
  - apply (inv_exact g B E HI).
  - intros j. rewrite (rendered_ids g B E HI Hn), elem_sortedIDs. done.
  - intros R HRs. destruct (Hr R HRs) as (r & l & _ & Hi & Hl & Hb & _). exists r, l. eauto 10.
  - exists ls. eauto.
  - unfold nextOf. cbn [Rules_ NextID]. rewrite elems_appended. unfold firstInducedRuleID. destruct (renderedRules g B E); lia.
Qed.

Lemma builds_acceptable s g B E : builds s g B -> inv g B E -> useful g B ->
  (forall R, R ∈ elems (Rules_ s) -> ID R < NextID s) -> acceptable s.
Proof.
  intros HB HI HU Hlt. pose proof (bd_rep s g B HB) as HR. constructor; [apply HB|done| | |].
  - intros q x i Hq Hx Hp. destruct (sequence_built s g B HB q Hq) as (r & l & Hl & <-). apply (bd_dom s g B HB).
    apply list_elem_of_fmap in Hx as (c & -> & Hc). unfold enc in Hp. destruct (kref c.2) as [t|] eqn:Ek;
      [|rewrite (built_plain s g B HB r l c Hl Hc Ek) in Hp; done].
    apply ruleRef_canonical in Hp as [Hp _]. apply ruleRef_inj in Hp as <-.
    destruct (live_rule g B t HR (rep_refs g B HR r l c t Hl Hc Ek)) as (y & _ & Hy & _ & _ & Hyd & _).
    unfold idOf. rewrite Hy. eauto.
  - apply (built_useful s g B HB). done.
  - apply (built_rank s g B HB), (inv_acyclic g B E HI).
Qed.

(** [Restore] accepts the snapshot of a live grammar over plain symbols and reproduces it. *)
Lemma own_restored g B E ls : inv g B E -> useful g B -> nextID g <= 2 ^ 63 -> plain_keys B -> B !! start g = Some ls ->
  let s := mkSnapshot (appended (renderedRules g B E)) (appended (encs g ls)) (nextID g) in
  exists g', (forall g0, Restore s g0 = Ret None g') /\ TakeSnapshot g' = Ret s g'.
Proof.
  intros HI HU Hn Hp Hls s. pose proof (own_snapshot g B E ls HI Hn Hp Hls) as HB. fold s in HB.
  assert (forall R, R ∈ elems (Rules_ s) -> ID R < NextID s) as Hlt.
  { intros R HR. destruct (built_body s g B HB R HR) as (r & _ & _ & Hi & _).
    destruct (rep_byid g B (inv_rep _ _ _ HI) _ _ Hi) as (_ & _ & _ & _ & Hb). cbn. lia. }
  assert (ints s) as Hints by (split; [done|]; intros R HR; specialize (Hlt R HR); cbn in Hlt; lia).
  destruct (build_spec s Hints) as (o & g' & Eb & Ho). destruct o as [e|]; [destruct Ho; eapply builds_acceptable; done|].
  destruct Ho as (_ & B' & E' & HB' & HI' & _). destruct (bd_seq s g' B' HB') as (ls' & Hls' & Hen' & _).
  exists g'. split; [intros g0; unfold Restore; rewrite Eb; done|].
  rewrite (takeSnapshot_spec g' B' E' ls' HI' Hls'). f_equal. unfold s in Hen' |- *. cbn [Sequence] in Hen'. rewrite elems_appended in Hen'.
  rewrite (same_rules_exported s g g' B B' E E' HB HB' HI HI'), Hen'. f_equal.
  rewrite (proj1 (bd_next s g' B' HB')), (proj1 (bd_next s g B HB)). done.
Qed.

(** Snapshots round-trip.  After any session over plain symbols, the snapshot is accepted by [Restore] on
    any receiver, and a snapshot of the restored grammar is equal to it in every field, nil slices included. *)
Theorem snapshot_restores ops g0 : Z.of_nat (length ops) < 2 ^ 62 - 1 -> (forall x, x ∈ streamOf ops -> plain x) ->
  exists g s g', runOps ops newSequiturGrammar = Ret tt g /\ TakeSnapshot g = Ret s g /\
    Restore s g0 = Ret None g' /\ TakeSnapshot g' = Ret s g'.
Proof.
  intros Hl Hs. destruct (session ops Hl) as (g & B & E & Eg & HI & HU & _ & Hw & Hn).
  destruct (rep_start g B (inv_rep _ _ _ HI)) as [ls Hls].
  assert (plain_keys B) as Hp by (apply (stream_plain g B E HI HU); rewrite Hw; done).
  destruct (own_restored g B E ls HI HU Hn Hp Hls) as (g' & Er & Et). exists g. eexists _, g'. split; [done|].
  split; [apply takeSnapshot_spec; done|]. split; [apply Er|done].
Qed.

(** ** Witnesses *)

(** One rule for [ab], used twice. *)
Definition demo_snapshot : Snapshot :=
  let ab := Some [str "a"; str "b"] in mkSnapshot (Some [mkRule 1 ab 2 ab 2]) (Some [RuleRef 1; RuleRef 1]) 2.

Lemma demo_ints : ints demo_snapshot.
Proof. split; [vm_compute; done|]. apply Forall_forall. repeat constructor. Qed.

Lemma demo_acceptable : acceptable demo_snapshot.
Proof.
  constructor.
  - vm_compute. split; [done|]. split; [intros H; inversion H|]. done.
  - apply Forall_forall. repeat constructor.
  - intros l x i Hl Hx Hp. assert (x ∈ concat (sequences demo_snapshot)) as Hin.
    { apply list_elem_of_In, in_concat. exists l. split; apply list_elem_of_In; done. }
    assert (forallb (fun x => match ParseRuleRef x with Some i => bool_decide (i = 1) | None => true end) (concat (sequences demo_snapshot)) = true)
      as Hc by (vm_compute; reflexivity).
    pose proof (forall_check _ _ Hc x Hin) as H. cbn beta in H. rewrite Hp in H. apply bool_decide_eq_true in H as ->. left.
  - apply Forall_forall. repeat constructor. exists (elems (Sequence demo_snapshot)). split; left.
  - exists (fun _ => 0%nat).
    intros R x i HR Hx Hp. assert (R = mkRule 1 (Some [str "a"; str "b"]) 2 (Some [str "a"; str "b"]) 2) as ->.
    { apply list_elem_of_singleton in HR. done. }
    rewrite (plain_check [str "a"; str "b"] ltac:(vm_compute; reflexivity) x Hx) in Hp. done.
Qed.

Lemma restore_exact_witness : exists o g', Restore demo_snapshot newSequiturGrammar = Ret o g' /\ (o = None <-> acceptable demo_snapshot).
Proof.
  destruct (restore_exact demo_snapshot newSequiturGrammar demo_ints) as (o & g' & H1 & H2 & _). exists o, g'. exact (conj H1 H2).
Defined.

Lemma restored_continues_witness : exists g1 t g2 rs c,
  Restore demo_snapshot newSequiturGrammar = Ret None g1 /\ TakeSnapshot g1 = Ret t g1 /\ appendAll [str "a"; str "b"] g1 = Ret tt g2 /\
  Rules g2 = Ret rs g2 /\ Compressed g2 = Ret c g2 /\
  decompress (elems rs) (elems c) = decompress (elems (Rules_ t)) (elems (Sequence t)) ++ [str "a"; str "b"].
Proof.
  apply (restored_continues demo_snapshot [str "a"; str "b"] newSequiturGrammar demo_ints demo_acceptable).
  - apply plain_check. vm_compute. reflexivity.
  - vm_compute. reflexivity.
Defined.

Lemma snapshot_restores_witness : exists g s g', runOps demo newSequiturGrammar = Ret tt g /\ TakeSnapshot g = Ret s g /\
  Restore s newSequiturGrammar = Ret None g' /\ TakeSnapshot g' = Ret s g'.
Proof. exact (snapshot_restores demo newSequiturGrammar demo_length demo_plain). Defined.
