(* ===== verification/Varint.v ===== *)
(** The variable-length integers of [encoding/binary], which the grammar snapshots and the pages of the
    delivery index are written with: writing, reading, and that reading undoes writing. *)

From S2P Require Import Prelude.

(** ** Writing and reading *)

(** [AppendUvarint]'s loop; nine continuation bytes are enough for 64 bits. *)
Fixpoint putUvarint (n : nat) (x : Z) : bytes :=
  match n with
  | O => [z2b x]
  | S n => if 0x80 <=? x then z2b (Z.lor (x mod 256) 0x80) :: putUvarint n (Z.shiftr x 7) else [z2b x]
  end.

Definition AppendUvarint (buf : bytes) (x : Z) : bytes := buf ++ putUvarint 9 x.

(** The zig-zag image of an [int64]. *)
Definition zigzag (x : Z) : Z := if x <? 0 then MaxUint64 - shl64 (u64 x) 1 else shl64 (u64 x) 1.
Definition AppendVarint (buf : bytes) (x : Z) : bytes := AppendUvarint buf (zigzag x).

Fixpoint uvarintLoop (b : bytes) (i : Z) (x s : Z) : Z * Z :=
  match b with
  | [] => (0, 0)
  | c :: b =>
      if i =? 10 then (0, - (i + 1))
      else if b2z c <? 0x80 then
        if (i =? 9) && (1 <? b2z c) then (0, - (i + 1)) else (Z.lor x (shl64 (b2z c) s), i + 1)
      else uvarintLoop b (i + 1) (Z.lor x (shl64 (Z.land (b2z c) 0x7f) s)) (s + 7)
  end.

(** The value and the number of bytes read; not positive when there is no value. *)
Definition Uvarint (b : bytes) : Z * Z := uvarintLoop b 0 0 0.

Definition Varint (b : bytes) : Z * Z :=
  let (ux, n) := Uvarint b in
  let x := Z.shiftr ux 1 in
  (if Z.land ux 1 =? 0 then x else - x - 1, n).

(** ** Varints round-trip *)

Lemma lor_disjoint a b s : 0 <= s -> 0 <= a < 2 ^ s -> 0 <= b -> Z.lor a (Z.shiftl b s) = a + b * 2 ^ s.
Proof.
  intros Hs Ha Hb. rewrite Z.shiftl_mul_pow2 by lia. pose proof (Z.add_lor_land a (b * 2 ^ s)) as Hadd.
  assert (Z.land a (b * 2 ^ s) = 0) as Hz; [|lia]. clear Hadd. apply Z.bits_inj'. intros n Hn. rewrite Z.land_spec, Z.bits_0.
  destruct (decide (n < s)) as [Hlt|Hge].
  - rewrite Z.mul_pow2_bits_low by lia. apply andb_false_r.
  - destruct (decide (a = 0)) as [->|]; [rewrite Z.bits_0; done|]. rewrite (Z.bits_above_log2 a n); [done|lia|].
    apply (Z.lt_le_trans _ s); [apply Z.log2_lt_pow2; lia|lia].
Qed.

Lemma low7 x : 0 <= x -> b2z (z2b (Z.lor (x mod 256) 0x80)) = 128 + x mod 128 /\ Z.land (128 + x mod 128) 0x7f = x mod 128.
Proof.
  intros H0. assert (0 <= x mod 128 < 128) as Hy by (apply Z.mod_pos_bound; lia). set (y := x mod 128) in *.
  assert (Z.lor y 128 = 128 + y) as Ey by (pose proof (lor_disjoint y 1 7 ltac:(lia) ltac:(lia) ltac:(lia)) as Hd; change (Z.shiftl 1 7) with 128 in Hd; lia).
  assert (Z.lor (x mod 256) 128 = 128 + y) as E.
  { rewrite <- Ey. assert (x mod 256 = y \/ x mod 256 = 128 + y) as [->| ->].
    { unfold y. change 256 with (128 * 2). rewrite Z.rem_mul_r by lia. pose proof (Z.mod_pos_bound (x / 128) 2). lia. }
    - done.
    - rewrite <- Ey, <- Z.lor_assoc. done. }
  split; [rewrite b2z_z2b, E; apply Z.mod_small; lia|]. change 0x7f with (Z.ones 7). rewrite Z.land_ones by lia.
  change (2 ^ 7) with 128. rewrite <- Z.add_mod_idemp_l by lia. apply Z.mod_small. done.
Qed.

(** The reader, part way through a varint, finishes with the value the writer had left. *)
Lemma uvarintLoop_put n : forall x t i acc s, i = 9 - Z.of_nat n -> s = 7 * i -> 0 <= i -> 0 <= acc < 2 ^ s ->
  0 <= x < 2 ^ (64 - s) -> uvarintLoop (putUvarint n x ++ t) i acc s = (acc + x * 2 ^ s, i + Z.of_nat (length (putUvarint n x))).
Proof.
  assert (forall c i acc s, i <= 9 -> s = 7 * i -> 0 <= i -> 0 <= acc < 2 ^ s -> 0 <= c < 2 ^ (64 - s) ->
    Z.lor acc (shl64 c s) = acc + c * 2 ^ s) as Hor.
  { intros c i acc s Hi Hs H0 Ha Hc. unfold shl64. rewrite u64_small; [apply lor_disjoint; lia|]. rewrite Z.shiftl_mul_pow2 by lia.
    split; [apply Z.mul_nonneg_nonneg; lia|]. replace (2 ^ 64) with (2 ^ (64 - s) * 2 ^ s) by (rewrite <- Z.pow_add_r by lia; f_equal; lia).
    apply Z.mul_lt_mono_pos_r; lia. }
  assert (forall x t i acc s, i <= 9 -> s = 7 * i -> 0 <= i -> 0 <= acc < 2 ^ s -> 0 <= x < 128 -> x < 2 ^ (64 - s) ->
    uvarintLoop ([z2b x] ++ t) i acc s = (acc + x * 2 ^ s, i + 1)) as Hlast.
  { intros x t i acc s Hi Hs H0 Ha Hx Hx'. cbn [app uvarintLoop]. rewrite b2z_z2b, Z.mod_small by lia.
    rewrite (proj2 (Z.eqb_neq i 10)), (proj2 (Z.ltb_lt x _)) by lia. rewrite (Hor x i) by lia. destruct (i =? 9) eqn:E9; [|done]. bsolve. subst i.
    assert (2 ^ (64 - s) = 2) as E2 by (subst s; done). rewrite (proj2 (Z.ltb_ge 1 x)) by lia. done. }
  induction n as [|n IH]; intros x t i acc s Hi Hs H0 Ha Hx; cbn [putUvarint].
  - apply Hlast; try lia. assert (s = 63) as -> by lia. change (2 ^ (64 - 63)) with 2 in Hx. lia.
  - destruct (0x80 <=? x) eqn:E; bsolve; [|apply Hlast; lia].
    destruct (low7 x) as [E1 E2]; [lia|]. cbn [app uvarintLoop length]. rewrite E1, E2.
    assert (0 <= x mod 128 < 128) as Hm by (apply Z.mod_pos_bound; lia).
    rewrite (proj2 (Z.eqb_neq i 10)), (proj2 (Z.ltb_ge (128 + x mod 128) _)) by lia.
    assert (2 ^ (s + 7) = 2 ^ s * 128) as Ep by (rewrite Z.pow_add_r by lia; done).
    assert (2 ^ (64 - s) = 2 ^ (64 - (s + 7)) * 128) as Eq.
    { change 128 with (2 ^ 7). rewrite <- Z.pow_add_r by lia. f_equal. lia. }
    assert (0 < 2 ^ (64 - (s + 7))) as Hpos by (apply Z.pow_pos_nonneg; lia).
    rewrite (Hor (x mod 128) i) by lia. rewrite Z.shiftr_div_pow2 by lia. change (2 ^ 7) with 128.
    pose proof (Z.div_mod x 128) as Hdm.
    rewrite IH; [f_equal; [rewrite Ep; nia|lia]|lia|lia|lia| |].
    + rewrite Ep. nia.
    + split; [apply Z.div_pos; lia|]. apply Z.div_lt_upper_bound; lia.
Qed.

Lemma putUvarint_length n x : (1 <= length (putUvarint n x))%nat.
Proof. destruct n; cbn [putUvarint]; [done|]. destruct (_ <=? _); cbn [length]; lia. Qed.

Lemma Uvarint_put x t : 0 <= x < 2 ^ 64 -> Uvarint (putUvarint 9 x ++ t) = (x, Z.of_nat (length (putUvarint 9 x))).
Proof. intros Hx. unfold Uvarint. rewrite uvarintLoop_put by lia. f_equal; lia. Qed.

Lemma drop_put x t : drop (Z.to_nat (Z.of_nat (length (putUvarint 9 x)))) (putUvarint 9 x ++ t) = t.
Proof. rewrite Nat2Z.id, drop_app_length. done. Qed.
