(* ===== verification/SeqCodec.v ===== *)
(** The grammar snapshot codec ([codec.go]) and the two methods that use it ([sequitur.go]), over the varints of
    [Varint.v]: the nil-preserving counts, [EncodeSnapshot] and the compatibility reader.  Frames
    round-trip for every snapshot, no frame is a prefix of another, what a frame makes the reader build is
    bounded by its length, and a session saved and loaded is the same grammar. *)

From S2P Require Import Prelude Varint Strconv Sequitur SeqInv SeqSplice SeqCascade SeqAppend SeqRead SeqSpec SeqRestore SeqRebuild.

(** ** The frame *)

Definition codecMagic : bytes := str "qompack-grammar" ++ [x00].
Definition codecMagicLen : nat := 16.
Definition codecHeaderLen : nat := 18.
Definition CodecVersion : Z := 1.

Definition appendCodecCount {A} (buf : bytes) (s : goslice A) : bytes :=
  match s with
  | None => buf ++ [x00]
  | Some l => AppendUvarint buf (add64 (Z.of_nat (length l)) 1)
  end.

Definition appendCodecSymbols (buf : bytes) (syms : goslice Symbol) : bytes :=
  fold_left (fun buf s => AppendUvarint buf (Z.of_nat (length s)) ++ s) (elems syms) (appendCodecCount buf syms).

Definition appendRule (buf : bytes) (r : Rule) : bytes :=
  let buf := AppendVarint buf (ID r) in
  let buf := AppendVarint buf (Uses r) in
  let buf := AppendVarint buf (Span r) in
  let buf := appendCodecSymbols buf (Body r) in
  appendCodecSymbols buf (Expansion r).

Definition EncodeSnapshot (s : Snapshot) : bytes :=
  let buf := codecMagic ++ le_put 2 CodecVersion in
  let buf := appendCodecCount buf (Rules_ s) in
  let buf := fold_left appendRule (elems (Rules_ s)) buf in
  let buf := appendCodecSymbols buf (Sequence s) in
  AppendVarint buf (NextID s).

(** What [DecodeSnapshot] reports; each wraps [core.ErrDegraded]. *)
Inductive codecError : Type :=
  | TruncatedFrame (n : nat)
  | BadMagic
  | UnsupportedVersion (v : Z)
  | MalformedVarint (remaining : nat)
  | MalformedLength (remaining : nat)
  | CountTooLarge (n : Z) (remaining : nat)
  | SymbolTooLong (n : Z) (remaining : nat)
  | TrailingBytes (n : nat).

(** [codecReader]: a value and the bytes left, or the first failure. *)
Definition reader (A : Type) : Type := bytes -> codecError + (A * bytes).
#[global] Instance reader_ret : MRet reader := fun _ a b => inr (a, b).
#[global] Instance reader_bind : MBind reader := fun _ _ f m b =>
  match m b with inl e => inl e | inr (a, b') => f a b' end.

Definition varint : reader Z := fun b =>
  let (v, n) := Varint b in
  if n <=? 0 then inl (MalformedVarint (length b)) else inr (v, drop (Z.to_nat n) b).

Definition uvarint : reader Z := fun b =>
  let (v, n) := Uvarint b in
  if n <=? 0 then inl (MalformedLength (length b)) else inr (v, drop (Z.to_nat n) b).

(** The check of a count against the bytes that remain. *)
Definition boundedCount (n : Z) : reader nat := fun b =>
  if Z.of_nat (length b) <? n then inl (CountTooLarge n (length b)) else inr (Z.to_nat n, b).

(** [None] is the absent slice. *)
Definition count : reader (option nat) :=
  raw ← uvarint;
  if raw =? 0 then mret None else n ← boundedCount (raw - 1); mret (Some n).

Definition takeSymbol (len : Z) : reader Symbol := fun b =>
  if Z.of_nat (length b) <? len then inl (SymbolTooLong len (length b))
  else inr (take (Z.to_nat len) b, drop (Z.to_nat len) b).

Definition symbol : reader Symbol := len ← uvarint; takeSymbol len.

(** The loops over a freshly made slice. *)
Fixpoint readN {A} (m : reader A) (n : nat) : reader (list A) :=
  match n with
  | O => mret []
  | S n => x ← m; l ← readN m n; mret (x :: l)
  end.

Definition readSlice {A} (m : reader A) : reader (goslice A) :=
  c ← count;
  match c with
  | None => mret None
  | Some n => l ← readN m n; mret (Some l)
  end.

Definition symbols : reader (goslice Symbol) := readSlice symbol.

Definition readRule : reader Rule :=
  i ← varint;
  u ← varint;
  sp ← varint;
  body ← symbols;
  expn ← symbols;
  mret (mkRule i body u expn sp).

Definition readSnapshot : reader Snapshot :=
  rs ← readSlice readRule;
  sequence ← symbols;
  nextID ← varint;
  mret (mkSnapshot rs sequence nextID).

Definition decodeSnapshotV1 (payload : bytes) : codecError + Snapshot :=
  match readSnapshot payload with
  | inl e => inl e
  | inr (s, rest) => if (length rest =? 0)%nat then inr s else inl (TrailingBytes (length rest))
  end.

Definition DecodeSnapshot (b : bytes) : codecError + Snapshot :=
  if (length b <? codecHeaderLen)%nat then inl (TruncatedFrame (length b))
  else if negb (bool_decide (take codecMagicLen b = codecMagic)) then inl BadMagic
  else
    let ver := le_get (slice b codecMagicLen codecHeaderLen) in
    if ver =? CodecVersion then decodeSnapshotV1 (drop codecHeaderLen b) else inl (UnsupportedVersion ver).

(** ** The methods of the grammar *)

Definition MarshalBinary : M bytes := s ← TakeSnapshot; mret (EncodeSnapshot s).

Definition UnmarshalBinary (b : bytes) : M (option (codecError + restoreError)) :=
  match DecodeSnapshot b with
  | inl e => mret (Some (inl e))
  | inr s => e ← Restore s; mret (inr <$> e)
  end.

(** ** Varints round-trip *)

Lemma uvarint_put x t : 0 <= x < 2 ^ 64 -> uvarint (putUvarint 9 x ++ t) = inr (x, t).
Proof.
  intros Hx. unfold uvarint. rewrite Uvarint_put by done. pose proof (putUvarint_length 9 x).
  rewrite (proj2 (Z.leb_gt _ _)), drop_put by lia. done.
Qed.

Lemma zigzag_spec x : - 2 ^ 63 <= x < 2 ^ 63 -> 0 <= zigzag x < 2 ^ 64 /\
  (if Z.land (zigzag x) 1 =? 0 then Z.shiftr (zigzag x) 1 else - Z.shiftr (zigzag x) 1 - 1) = x.
Proof.
  intros Hx. assert (zigzag x = if x <? 0 then -2 * x - 1 else 2 * x) as ->.
  { unfold zigzag, shl64, u64, MaxUint64. rewrite Z.shiftl_mul_pow2 by lia. change (2 ^ 1) with 2. destruct (x <? 0) eqn:E; bsolve.
    - rewrite Zmult_mod_idemp_l. replace (x * 2) with (x * 2 + 2 ^ 64 + (-1) * 2 ^ 64) by lia. rewrite Z_mod_plus_full, Z.mod_small by lia. lia.
    - rewrite Zmult_mod_idemp_l, Z.mod_small by lia. lia. }
  assert (forall z, Z.land z 1 = z mod 2) as Hl by (intros z; apply (Z.land_ones z 1); lia).
  assert (forall z, Z.shiftr z 1 = z / 2) as Hr by (intros z; apply (Z.shiftr_div_pow2 z 1); lia). rewrite Hl, Hr.
  destruct (x <? 0) eqn:E; bsolve; (split; [lia|]); (destruct (_ =? 0) eqn:E0; bsolve); Z.div_mod_to_equations; lia.
Qed.

Lemma varint_put x t : - 2 ^ 63 <= x < 2 ^ 63 -> varint (putUvarint 9 (zigzag x) ++ t) = inr (x, t).
Proof.
  intros Hx. destruct (zigzag_spec x Hx) as [Hz Ex]. unfold varint, Varint. rewrite Uvarint_put by done.
  pose proof (putUvarint_length 9 (zigzag x)). rewrite (proj2 (Z.leb_gt _ _)), drop_put, Ex by lia. done.
Qed.

(** ** The encoder writes after what it was given *)

Lemma appendCodecCount_app {A} buf (s : goslice A) : appendCodecCount buf s = buf ++ appendCodecCount [] s.
Proof. destruct s; done. Qed.

Definition encSymbol (x : Symbol) : bytes := putUvarint 9 (Z.of_nat (length x)) ++ x.
Definition encSymbols (syms : goslice Symbol) : bytes := appendCodecCount [] syms ++ concat (encSymbol <$> elems syms).
Definition encInt (x : Z) : bytes := putUvarint 9 (zigzag x).
Definition encRule (r : Rule) : bytes :=
  encInt (ID r) ++ encInt (Uses r) ++ encInt (Span r) ++ encSymbols (Body r) ++ encSymbols (Expansion r).
Definition encPayload (s : Snapshot) : bytes :=
  (appendCodecCount [] (Rules_ s) ++ concat (encRule <$> elems (Rules_ s))) ++ encSymbols (Sequence s) ++ encInt (NextID s).

Lemma fold_append {A} (f : bytes -> A -> bytes) (e : A -> bytes) l : (forall buf x, f buf x = buf ++ e x) ->
  forall buf, fold_left f l buf = buf ++ concat (e <$> l).
Proof.
  intros Hf. induction l as [|x l IH]; intros buf; cbn [fold_left fmap list_fmap concat]; [rewrite app_nil_r; done|].
  rewrite IH, Hf, app_assoc. done.
Qed.

Lemma appendCodecSymbols_app buf syms : appendCodecSymbols buf syms = buf ++ encSymbols syms.
Proof.
  unfold appendCodecSymbols. rewrite (fold_append _ encSymbol) by (intros b x; unfold AppendUvarint, encSymbol; rewrite app_assoc; done).
  rewrite appendCodecCount_app, <- app_assoc. done.
Qed.

Lemma appendRule_app buf r : appendRule buf r = buf ++ encRule r.
Proof.
  unfold appendRule, AppendVarint, AppendUvarint, encRule. rewrite !appendCodecSymbols_app, <- !app_assoc. done.
Qed.

Lemma EncodeSnapshot_app s : EncodeSnapshot s = (codecMagic ++ le_put 2 CodecVersion) ++ encPayload s.
Proof.
  unfold EncodeSnapshot, AppendVarint, AppendUvarint, encPayload. rewrite appendCodecSymbols_app, (fold_append _ encRule) by apply appendRule_app.
  rewrite appendCodecCount_app, <- !app_assoc. done.
Qed.

(** ** The reader reads what the encoder wrote *)

Definition reads {A} (m : reader A) (e : bytes) (a : A) : Prop := forall t, m (e ++ t) = inr (a, t).

Lemma reads_bind {A B} (m : reader A) (f : A -> reader B) e1 e2 a b : reads m e1 a -> reads (f a) e2 b -> reads (m ≫= f) (e1 ++ e2) b.
Proof. intros H1 H2 t. unfold mbind, reader_bind. rewrite <- app_assoc, H1. apply H2. Qed.

Lemma reads_ret {A} (a : A) : reads (mret a) [] a.
Proof. intros t. done. Qed.

(** A bind whose continuation only wraps the value. *)
Lemma reads_map {A B} (m : reader A) (f : A -> B) e a : reads m e a -> reads (x ← m; mret (f x)) e (f a).
Proof. intros H. rewrite <- (app_nil_r e). eapply reads_bind; [exact H|apply reads_ret]. Qed.

Lemma reads_readN {A} (m : reader A) (e : A -> bytes) l : (forall x, x ∈ l -> reads m (e x) x) -> reads (readN m (length l)) (concat (e <$> l)) l.
Proof.
  induction l as [|x l IH]; intros H; cbn [readN length fmap list_fmap concat]; [apply reads_ret|].
  eapply reads_bind; [apply H; left|]. apply (reads_map (readN m (length l)) (cons x)), IH. intros y Hy. apply H. right. done.
Qed.

Lemma concat_length {A} (e : A -> bytes) l : (forall x, (1 <= length (e x))%nat) -> (length l <= length (concat (e <$> l)))%nat.
Proof. intros He. induction l as [|x l IH]; cbn [length fmap list_fmap concat]; [done|]. rewrite length_app. specialize (He x). lia. Qed.

Lemma reads_slice {A} (m : reader A) (e : A -> bytes) (s : goslice A) : (forall x, (1 <= length (e x))%nat) ->
  (forall x, x ∈ elems s -> reads m (e x) x) -> Z.of_nat (length (elems s)) < 2 ^ 63 ->
  reads (readSlice m) (appendCodecCount [] s ++ concat (e <$> elems s)) s.
Proof.
  intros He Hm Hl t. unfold readSlice, count. destruct s as [l|]; cbn [elems] in *.
  - cbn [appendCodecCount]. unfold AppendUvarint, add64. change (elems (Some l)) with l in *. rewrite u64_small by lia.
    unfold mbind, reader_bind. rewrite app_nil_l, <- app_assoc, uvarint_put by lia. rewrite (proj2 (Z.eqb_neq _ 0)) by lia.
    unfold boundedCount. pose proof (concat_length e l He) as Hc. rewrite (proj2 (Z.ltb_ge _ _)) by (rewrite length_app; lia).
    cbn. replace (Z.to_nat (Z.of_nat (length l) + 1 - 1)) with (length l) by lia. rewrite (reads_readN m e l Hm t). done.
  - done.
Qed.

(** The lengths and integers a Go value can have. *)
Definition is_int (x : Z) : Prop := - 2 ^ 63 <= x < 2 ^ 63.
Definition ok_symbols (s : goslice Symbol) : Prop :=
  Z.of_nat (length (elems s)) < 2 ^ 63 /\ forall x, x ∈ elems s -> Z.of_nat (length x) < 2 ^ 63.
Record ok_rule (r : Rule) : Prop := {
  ok_id : is_int (ID r); ok_uses : is_int (Uses r); ok_span : is_int (Span r);
  ok_body : ok_symbols (Body r); ok_expansion : ok_symbols (Expansion r) }.
Record ok_snapshot (s : Snapshot) : Prop := {
  ok_count : Z.of_nat (length (elems (Rules_ s))) < 2 ^ 63;
  ok_rules : forall r, r ∈ elems (Rules_ s) -> ok_rule r;
  ok_seq : ok_symbols (Sequence s);
  ok_next : is_int (NextID s) }.

Lemma reads_symbol x : Z.of_nat (length x) < 2 ^ 63 -> reads symbol (encSymbol x) x.
Proof.
  intros Hx t. unfold symbol, encSymbol, mbind, reader_bind. rewrite <- app_assoc, uvarint_put by lia. unfold takeSymbol.
  rewrite (proj2 (Z.ltb_ge _ _)) by (rewrite length_app; lia). rewrite Nat2Z.id, take_app_length, drop_app_length. done.
Qed.

Lemma reads_symbols s : ok_symbols s -> reads symbols (encSymbols s) s.
Proof.
  intros [Hl Hs]. apply (reads_slice symbol encSymbol); [|intros x Hx; apply reads_symbol; auto|done].
  intros x. unfold encSymbol. rewrite length_app. pose proof (putUvarint_length 9 (Z.of_nat (length x))). lia.
Qed.

Lemma reads_int x : is_int x -> reads varint (encInt x) x.
Proof. intros Hx t. apply varint_put. done. Qed.

Lemma reads_rule r : ok_rule r -> reads readRule (encRule r) r.
Proof.
  intros []. unfold readRule, encRule. eapply reads_bind; [apply reads_int; done|]. eapply reads_bind; [apply reads_int; done|].
  eapply reads_bind; [apply reads_int; done|]. eapply reads_bind; [apply reads_symbols; done|].
  pose proof (reads_map symbols (fun e => mkRule (ID r) (Body r) (Uses r) e (Span r)) _ _ (reads_symbols (Expansion r) ltac:(done))) as H.
  destruct r. exact H.
Qed.

Lemma reads_snapshot s : ok_snapshot s -> reads readSnapshot (encPayload s) s.
Proof.
  intros []. unfold readSnapshot, encPayload. eapply reads_bind; [apply (reads_slice readRule encRule); [|intros r Hr; apply reads_rule; auto|done]|].
  { intros r. unfold encRule. rewrite length_app. pose proof (putUvarint_length 9 (zigzag (ID r))). unfold encInt. lia. }
  eapply reads_bind; [apply reads_symbols; done|].
  pose proof (reads_map varint (mkSnapshot (Rules_ s) (Sequence s)) _ _ (reads_int (NextID s) ltac:(done))) as H.
  destruct s. exact H.
Qed.

(** A frame is the header and a payload; anything else is refused. *)
Lemma decode_framed p : DecodeSnapshot ((codecMagic ++ le_put 2 CodecVersion) ++ p) = decodeSnapshotV1 p.
Proof.
  unfold DecodeSnapshot. set (h := codecMagic ++ le_put 2 CodecVersion). assert (length h = 18%nat) as Hh by done.
  rewrite length_app, Hh. rewrite (proj2 (Nat.ltb_ge _ _)) by (unfold codecHeaderLen; lia).
  assert (take codecMagicLen (h ++ p) = codecMagic) as -> by done. rewrite bool_decide_eq_true_2 by done. cbn [negb].
  assert (slice (h ++ p) codecMagicLen codecHeaderLen = le_put 2 CodecVersion) as -> by done.
  assert (drop codecHeaderLen (h ++ p) = p) as -> by done. rewrite le_get_put. done.
Qed.

(** C4: snapshots survive the wire.  For every snapshot a Go program can hold, decoding its encoding gives it
    back, each field exactly, the difference between a nil and an empty slice included. *)
Theorem codec_roundtrip s : ok_snapshot s -> DecodeSnapshot (EncodeSnapshot s) = inr s.
Proof.
  intros Hs. rewrite EncodeSnapshot_app, decode_framed. unfold decodeSnapshotV1.
  pose proof (reads_snapshot s Hs []) as H. rewrite app_nil_r in H. rewrite H. done.
Qed.

(** ** What the reader does on any bytes *)

(** A success leaves a suffix no longer than the budget [k] and the input allow for the weight of the value,
    its value satisfies [Q], and further bytes after the input are left unread. *)
Definition steady {A} (m : reader A) (k : nat) (w : A -> nat) (Q : A -> Prop) : Prop := forall b a t, m b = inr (a, t) ->
  (w a + length t <= k + length b)%nat /\ Q a /\ forall x, m (b ++ x) = inr (a, t ++ x).

Lemma steady_bind {A B} (m : reader A) (f : A -> reader B) k w1 Q1 w Q : steady m k w1 Q1 ->
  (forall a, Q1 a -> steady (f a) (w1 a) w Q) -> steady (m ≫= f) k w Q.
Proof.
  intros Hm Hf b c t E. unfold mbind, reader_bind in *. destruct (m b) as [e|[a t1]] eqn:Em; [done|].
  destruct (Hm b a t1 Em) as (H1 & H2 & H3). destruct (Hf a H2 t1 c t E) as (H4 & H5 & H6). split; [lia|]. split; [done|].
  intros x. rewrite H3. apply H6.
Qed.

Lemma steady_ret {A} (a : A) k (w : A -> nat) (Q : A -> Prop) : (w a <= k)%nat -> Q a -> steady (mret a) k w Q.
Proof. intros Hw HQ b a' t [= <- <-]. split; [lia|]. done. Qed.

Lemma uvarintLoop_steady b : forall i x s v n, 0 <= i -> 0 <= x < 2 ^ 64 -> uvarintLoop b i x s = (v, n) -> 0 < n ->
  i < n <= i + Z.of_nat (length b) /\ 0 <= v < 2 ^ 64 /\ forall y, uvarintLoop (b ++ y) i x s = (v, n).
Proof.
  assert (forall x c s, 0 <= x < 2 ^ 64 -> 0 <= Z.lor x (shl64 c s) < 2 ^ 64) as Hor.
  { intros x c s Hx. pose proof (u64_range (Z.shiftl c s)). unfold shl64. set (y := u64 _) in *. split; [apply Z.lor_nonneg; lia|].
    destruct (decide (Z.lor x y = 0)) as [->|Hne]; [lia|]. assert (0 <= Z.lor x y) by (apply Z.lor_nonneg; lia).
    apply Z.log2_lt_pow2; [lia|]. rewrite Z.log2_lor by lia.
    assert (forall z, 0 <= z < 2 ^ 64 -> Z.log2 z < 64) as Hlog; [|pose proof (Hlog x Hx); pose proof (Hlog y ltac:(lia)); lia].
    intros z Hz. destruct (decide (z = 0)) as [->|]; [done|]. apply Z.log2_lt_pow2; lia. }
  induction b as [|c b IH]; intros i x s v n Hi Hx E Hn; cbn [uvarintLoop app length] in *; [injection E as <- <-; lia|].
  destruct (i =? 10); [injection E as <- <-; lia|]. destruct (b2z c <? 0x80).
  - destruct ((i =? 9) && (1 <? b2z c)); injection E as <- <-; [lia|]. split; [lia|]. split; [auto|done].
  - destruct (IH (i + 1) _ (s + 7) v n ltac:(lia) (Hor x _ s Hx) E Hn) as (H1 & H2 & H3). split; [lia|]. split; [done|]. intros y. apply H3.
Qed.

Lemma Uvarint_steady b v n : Uvarint b = (v, n) -> 0 < n ->
  1 <= n <= Z.of_nat (length b) /\ 0 <= v < 2 ^ 64 /\ forall y, Uvarint (b ++ y) = (v, n).
Proof.
  intros E Hn. destruct (uvarintLoop_steady b 0 0 0 v n) as (H1 & H2 & H3); [lia|lia|done|done|]. split; [lia|]. done.
Qed.

(** [uvarint] and [varint] read at least one byte. *)
Lemma steady_uvarint k : steady uvarint k (fun _ => S k) (fun v => 0 <= v < 2 ^ 64).
Proof.
  intros b v t E. unfold uvarint in *. destruct (Uvarint b) as [v' n] eqn:Eu. destruct (n <=? 0) eqn:En; [done|]. bsolve.
  injection E as <- <-. destruct (Uvarint_steady b v' n Eu En) as (H1 & H2 & H3). rewrite length_drop. split; [lia|]. split; [done|].
  intros x. rewrite H3, (proj2 (Z.leb_gt n 0)), drop_app_le by lia. done.
Qed.

Lemma steady_varint k : steady varint k (fun _ => S k) is_int.
Proof.
  intros b v t E. unfold varint, Varint in *. destruct (Uvarint b) as [ux n] eqn:Eu. destruct (n <=? 0) eqn:En; [done|]. bsolve.
  injection E as <- <-. destruct (Uvarint_steady b ux n Eu En) as (H1 & H2 & H3). rewrite length_drop. split; [lia|]. split.
  - assert (0 <= Z.shiftr ux 1 < 2 ^ 63); [|unfold is_int; destruct (Z.land ux 1 =? 0); lia].
    rewrite Z.shiftr_div_pow2 by lia. change (2 ^ 1) with 2. Z.div_mod_to_equations; lia.
  - intros x. rewrite H3, (proj2 (Z.leb_gt n 0)), drop_app_le by lia. done.
Qed.

Lemma steady_count k : steady count k (fun _ => S k) (fun _ => True).
Proof.
  unfold count. eapply steady_bind; [apply steady_uvarint|]. cbn. intros raw Hr. destruct (raw =? 0) eqn:E0; [apply steady_ret; done|]. bsolve.
  apply (steady_bind _ _ _ (fun _ => S k) (fun _ => True)); [|intros n _; apply steady_ret; done].
  intros b n t E. unfold boundedCount in *. destruct (_ <? raw - 1) eqn:El; [done|]. injection E as <- <-. bsolve. split; [lia|]. split; [done|].
  intros x. rewrite (proj2 (Z.ltb_ge _ _)) by (rewrite length_app; lia). done.
Qed.

Lemma steady_symbol k : steady symbol k (fun x => k + S (length x))%nat (fun _ => True).
Proof.
  unfold symbol. eapply steady_bind; [apply steady_uvarint|]. cbn. intros len Hr b x t E. unfold takeSymbol in *.
  destruct (_ <? len) eqn:El; [done|]. injection E as <- <-. bsolve. rewrite length_take, length_drop. split; [lia|]. split; [done|].
  intros y. rewrite (proj2 (Z.ltb_ge _ _)), take_app_le, drop_app_le by (rewrite ?length_app; lia). done.
Qed.

Lemma steady_readN {A} (m : reader A) (w : A -> nat) (Q : A -> Prop) n : (forall k, steady m k (fun a => k + w a)%nat Q) ->
  forall k, steady (readN m n) k (fun l => k + list_sum (w <$> l))%nat (fun l => length l = n /\ Forall Q l).
Proof.
  intros Hm. induction n as [|n IH]; intros k; cbn [readN].
  { apply steady_ret; [cbn; lia|]. split; [done|constructor]. }
  eapply steady_bind; [apply Hm|]. cbn. intros a Ha. eapply steady_bind; [apply IH|]. cbn. intros l [Hl HF].
  apply steady_ret; [change (list_sum (w <$> a :: l)) with (w a + list_sum (w <$> l))%nat; lia|]. cbn [length]. split; [lia|]. constructor; done.
Qed.

Lemma steady_slice {A} (m : reader A) (w : A -> nat) (Q : A -> Prop) k : (forall k, steady m k (fun a => k + w a)%nat Q) ->
  steady (readSlice m) k (fun s => k + S (list_sum (w <$> elems s)))%nat (fun s => Forall Q (elems s)).
Proof.
  intros Hm. unfold readSlice. eapply steady_bind; [apply steady_count|]. cbn beta. intros [n|] _; [|apply steady_ret; [cbn; lia|constructor]].
  eapply steady_bind; [apply (steady_readN m w Q n Hm)|]. cbn beta. intros l [_ HF]. apply steady_ret; [|done].
  change (elems (Some l)) with l. lia.
Qed.

(** What a value costs on the wire at the least: one byte per number and count, and the bytes of its symbols. *)
Definition weightSymbols (s : goslice Symbol) : nat := S (list_sum ((fun x => S (length x)) <$> elems s)).
Definition weightRule (r : Rule) : nat := (3 + weightSymbols (Body r) + weightSymbols (Expansion r))%nat.
Definition weight (s : Snapshot) : nat :=
  (2 + list_sum (weightRule <$> elems (Rules_ s)) + weightSymbols (Sequence s))%nat.

Lemma steady_symbols k : steady symbols k (fun s => k + weightSymbols s)%nat (fun s => Forall (fun _ => True) (elems s)).
Proof. apply (steady_slice symbol (fun x => S (length x))). intros k'. apply steady_symbol. Qed.

Lemma steady_rule k : steady readRule k (fun r => k + weightRule r)%nat (fun r => is_int (ID r)).
Proof.
  unfold readRule. eapply steady_bind; [apply steady_varint|]. cbn beta. intros i Hi.
  eapply steady_bind; [apply steady_varint|]. cbn beta. intros u _. eapply steady_bind; [apply steady_varint|]. cbn beta. intros sp _.
  eapply steady_bind; [apply steady_symbols|]. cbn beta. intros body _. eapply steady_bind; [apply steady_symbols|]. cbn beta. intros ex _.
  apply steady_ret; [unfold weightRule; cbn [Body Expansion]; lia|exact Hi].
Qed.

Lemma steady_snapshot : steady readSnapshot 0 weight (fun s => is_int (NextID s) /\ Forall (fun r => is_int (ID r)) (elems (Rules_ s))).
Proof.
  unfold readSnapshot. eapply steady_bind; [apply (steady_slice readRule weightRule), steady_rule|]. cbn beta. intros rs Hrs.
  eapply steady_bind; [apply steady_symbols|]. cbn beta. intros sq _. eapply steady_bind; [apply steady_varint|]. cbn beta. intros nx Hn.
  apply steady_ret; [unfold weight; cbn [Rules_ Sequence]; lia|done].
Qed.

Lemma decode_success b s : DecodeSnapshot b = inr s -> exists p, b = (codecMagic ++ le_put 2 CodecVersion) ++ p /\ readSnapshot p = inr (s, []).
Proof.
  unfold DecodeSnapshot. destruct (length b <? codecHeaderLen)%nat eqn:El; [done|]. bsolve. case_bool_decide as Em; [|done]. cbn [negb].
  destruct (_ =? CodecVersion) eqn:Ev; [|done]. bsolve. unfold decodeSnapshotV1. destruct (readSnapshot _) as [e|[s' rest]] eqn:Er; [done|].
  destruct (length rest =? 0)%nat eqn:E0; [|done]. bsolve. intros [= ->]. apply length_zero_iff_nil in E0 as ->.
  exists (drop codecHeaderLen b). split; [|done].
  assert (slice b codecMagicLen codecHeaderLen = le_put 2 CodecVersion) as Es.
  { rewrite <- Ev. assert (length (slice b codecMagicLen codecHeaderLen) = 2%nat) as Hl.
    { unfold slice. rewrite length_take, length_drop. unfold codecMagicLen, codecHeaderLen in *. lia. }
    pose proof (le_put_get (slice b codecMagicLen codecHeaderLen)) as H. rewrite Hl in H. done. }
  rewrite <- Em, <- Es. unfold slice. rewrite <- app_assoc.
  assert (drop codecHeaderLen b = drop 2 (drop codecMagicLen b)) as -> by (rewrite drop_drop; done).
  change (codecHeaderLen - codecMagicLen)%nat with 2%nat. rewrite !take_drop. done.
Qed.

(** Frames end where they end, and cost what they hold.  If a frame decodes, the same frame with bytes after
    it is refused as having that many trailing bytes, so no frame that decodes is a strict prefix of another; and
    the symbols and rules the decoder built weigh no more than the frame's own bytes. *)
Theorem codec_prefix_free b s : DecodeSnapshot b = inr s ->
  (codecHeaderLen + weight s <= length b)%nat /\
  forall x, x <> [] -> DecodeSnapshot (b ++ x) = inl (TrailingBytes (length x)).
Proof.
  intros (p & -> & Hp)%decode_success. destruct (steady_snapshot p s [] Hp) as (H1 & _ & H2). split.
  - rewrite length_app. cbn [length] in H1. change (length (codecMagic ++ le_put 2 CodecVersion)) with 18%nat. unfold codecHeaderLen. lia.
  - intros x Hx. rewrite <- app_assoc, decode_framed. unfold decodeSnapshotV1. rewrite H2. cbn [app].
    destruct x; [done|]. done.
Qed.

(** C5: loading is safe on any bytes.  [UnmarshalBinary] returns on every byte string and every receiver; an
    error, of the codec or of [Restore], leaves the receiver as it was; without one the bytes were a frame of an
    acceptable snapshot, and a snapshot of the receiver has its rule ids, bodies, sequence and next id. *)
Theorem unmarshal_safe b g : exists o g', UnmarshalBinary b g = Ret o g' /\
  match o with
  | Some _ => g' = g
  | None => exists s t, DecodeSnapshot b = inr s /\ acceptable s /\ TakeSnapshot g' = Ret t g' /\
      outline (elems (Rules_ t)) = outline (elems (Rules_ s)) /\ elems (Sequence t) = elems (Sequence s) /\ NextID t = nextOf s
  end.
Proof.
  unfold UnmarshalBinary. destruct (DecodeSnapshot b) as [e|s] eqn:Ed; [eexists _, _; done|].
  apply decode_success in Ed as (p & _ & Hp). destruct (steady_snapshot p s [] Hp) as (_ & [Hn Hr] & _).
  assert (ints s) as Hi.
  { split; [unfold is_int in Hn; lia|]. intros R HR. rewrite Forall_forall in Hr. specialize (Hr R HR). unfold is_int in Hr. lia. }
  destruct (build_spec s Hi) as (o & g' & Eb & Ho). unfold mbind, M_bind, Restore. rewrite Eb. destruct o as [e|]; [eexists _, _; done|].
  destruct Ho as (Ha & B & E & HB & HI & HU). destruct (bd_seq s g' B HB) as (ls & Hls & Hen & _).
  exists None, g'. split; [done|]. exists s. eexists. split; [done|]. split; [done|]. split; [apply (takeSnapshot_spec g' B E ls HI Hls)|].
  cbn [Rules_ Sequence NextID]. rewrite !elems_appended. split; [apply built_outline; done|]. split; [done|]. apply (bd_next s g' B HB).
Qed.

(** ** Saving and loading a session *)

Lemma RuleRef_length i : 1 <= i < 2 ^ 63 -> Z.of_nat (length (RuleRef i)) < 2 ^ 63.
Proof.
  intros Hi. unfold RuleRef, Itoa. rewrite (proj2 (Z.ltb_ge i 0)) by lia. rewrite length_app. unfold udec, digit_fuel.
  pose proof (digits_length (S (Z.to_nat (Z.log2 i))) i []) as H. cbn [length] in H.
  assert (Z.log2 i < 63) by (apply Z.log2_lt_pow2; lia). pose proof (Z.log2_nonneg i). change (length ruleRefPrefix) with 2%nat. lia.
Qed.

Lemma refs_length l r : refs l r <= Z.of_nat (length l).
Proof. induction l as [|c l IH]; [done|]. rewrite refs_cons. cbn [length]. unfold hits. case_decide; lia. Qed.

Lemma body_length B r l : B !! r = Some l -> (length l <= length (cells B))%nat.
Proof. intros Hl. rewrite (cells_split B r l Hl), length_app. lia. Qed.

Lemma repeats_length e n w : (1 <= n)%nat -> repeats e n w -> (length e <= length w)%nat.
Proof.
  intros Hn (gaps & tl & Hl & ->). destruct gaps as [|x gaps]; [cbn in Hl; lia|]. cbn [fmap list_fmap concat]. rewrite !length_app. lia.
Qed.

Section sized.
Context (g : gram) (B : bodies) (E : rptr -> list Symbol) (HI : inv g B E) (HU : useful g B).
Context (Hsize : nextID g + mu g B <= 2 ^ 62) (Hlen : forall x, x ∈ E (start g) -> Z.of_nat (length x) < 2 ^ 63)
  (Hw : Z.of_nat (length (E (start g))) < 2 ^ 62).

Lemma sized_cells : Z.of_nat (length (cells B)) <= 2 ^ 62 /\ nextID g <= 2 ^ 62.
Proof using HI HU Hsize.
  pose proof (mu_cells g B (inv_rep _ _ _ HI) HU). pose proof (inv_next g B E HI). lia.
Qed.

Lemma sized_symbols l : (forall x, x ∈ l -> x ∈ E (start g)) -> Z.of_nat (length l) < 2 ^ 63 -> ok_symbols (appended l).
Proof using Hlen. intros Hin Hl. split; rewrite elems_appended; [done|]. intros x Hx. auto. Qed.

Lemma sized_body r l : B !! r = Some l -> ok_symbols (appended (encs g l)).
Proof using HI HU Hsize Hlen.
  intros Hl. destruct sized_cells as [Hc Hn]. pose proof (body_length B r l Hl). pose proof (inv_rep g B E HI) as HR.
  destruct (inv_acyclic g B E HI) as [rk Hrk].
  split; rewrite elems_appended; [unfold encs; rewrite length_fmap; lia|]. intros x (c & -> & Hx)%list_elem_of_fmap.
  unfold enc. destruct (kref c.2) as [t|] eqn:Ek.
  - destruct (live_rule g B t HR (rep_refs g B HR r l c t Hl Hx Ek)) as (y & _ & Hy & _ & _ & _ & Hb). unfold idOf. rewrite Hy.
    apply RuleRef_length. cbn. lia.
  - apply Hlen. pose proof (sem_terminal E l c Hx Ek) as Hs. rewrite <- (inv_solves g B E HI r l Hl) in Hs.
    destruct (owner_live g B r l HR Hl) as [->|Hr]; [intros ->; apply elem_of_nil in Hx; done|done|].
    eapply (reach_start g B E HI rk); done.
Qed.

Lemma sized_snapshot ls : B !! start g = Some ls ->
  ok_snapshot (mkSnapshot (appended (renderedRules g B E)) (appended (encs g ls)) (nextID g)).
Proof using HI HU Hsize Hlen Hw.
  intros Hls. destruct sized_cells as [Hc Hn]. pose proof (inv_rep g B E HI) as HR. pose proof (inv_next g B E HI).
  destruct (inv_acyclic g B E HI) as [rk Hrk]. constructor; cbn [Rules_ Sequence NextID]; rewrite ?elems_appended.
  - unfold renderedRules, sortedIDs. rewrite length_fmap. rewrite (Permutation_length (merge_sort_Permutation Z.le _)), length_fmap, length_map_to_list.
    pose proof (rules_le_cells g B HR HU). lia.
  - intros R (r & Hr & ->)%elem_rendered. destruct (live_rule g B r HR Hr) as (x & l & Hx & Hl & _ & _ & Hb).
    assert (Z.of_nat (length (E r)) < 2 ^ 62) as He.
    { pose proof (rule_recurs g B E HI HU rk Hrk r Hr) as Hrep. apply repeats_length in Hrep; [lia|]. specialize (HU r Hr). lia. }
    constructor; cbn [ID Uses Span Body Expansion rendered]; unfold is_int.
    + unfold idOf. rewrite Hx. cbn. lia.
    + rewrite (inv_exact g B E HI r ltac:(eauto)). pose proof (refs_length (cells B) r). pose proof (refs_nonneg (cells B) r). unfold nrefs. lia.
    + lia.
    + rewrite Hl. change (default [] (Some l)) with l. eapply sized_body. done.
    + apply sized_symbols; [|lia]. intros y Hy. eapply (reach_start g B E HI rk); done.
  - eapply sized_body. done.
  - unfold is_int. lia.
Qed.

End sized.

(** A session saved and loaded is the same grammar.  After any session over plain symbols, [MarshalBinary]
    gives bytes that [UnmarshalBinary] accepts on any receiver, and the receiver's rules, compressed sequence and
    snapshot are those of the saved grammar. *)
Theorem session_persists ops g0 : Z.of_nat (length ops) < 2 ^ 60 ->
  (forall x, x ∈ streamOf ops -> plain x /\ Z.of_nat (length x) < 2 ^ 63) -> exists g b g' s,
    runOps ops newSequiturGrammar = Ret tt g /\ MarshalBinary g = Ret b g /\ UnmarshalBinary b g0 = Ret None g' /\
    TakeSnapshot g = Ret s g /\ TakeSnapshot g' = Ret s g'.
Proof.
  intros Hl Hs. destruct (runOps_stands ops [] newSequiturGrammar new_stands) as (g & Eg & B & E & HI & H2 & Hw & Hb); [cbn; lia|].
  pose proof (stands_useful g B E HI H2) as HU. pose proof (fold_abstract_length ops []) as Hlen. cbn in Hlen. fold (streamOf ops) in Hw, Hb, Hlen.
  assert (nextID g + mu g B <= 2 ^ 62) as Hsz by lia. destruct (sized_cells g B E HI HU Hsz) as [_ Hn].
  destruct (rep_start g B (inv_rep _ _ _ HI)) as [ls Hls].
  assert (plain_keys B) as Hp by (apply (stream_plain g B E HI HU); rewrite Hw; intros x Hx; apply Hs; done).
  assert (nextID g <= 2 ^ 63) as Hn' by lia. pose proof (own_snapshot g B E ls HI Hn' Hp Hls) as HB.
  pose proof (sized_snapshot g B E HI HU Hsz ltac:(rewrite Hw; intros x Hx; apply Hs; done) ltac:(rewrite Hw; lia) ls Hls) as Hok.
  destruct (own_restored g B E ls HI HU Hn' Hp Hls) as (g' & Er & Et). set (s := mkSnapshot _ _ _) in *.
  pose proof (takeSnapshot_spec g B E ls HI Hls) as Es. exists g, (EncodeSnapshot s), g', s. split; [done|].
  split; [unfold MarshalBinary; run Es; done|]. split; [|split; done].
  unfold UnmarshalBinary. rewrite EncodeSnapshot_app, decode_framed. unfold decodeSnapshotV1.
  pose proof (reads_snapshot s Hok []) as H. rewrite app_nil_r in H. rewrite H. cbn [length Nat.eqb]. run (Er g0). done.
Qed.

(** ** Witnesses *)

(** Slices of at most 100 symbols of at most 100 bytes. *)
Definition short (s : goslice Symbol) : bool := (length (elems s) <=? 100)%nat && forallb (fun x => length x <=? 100)%nat (elems s).

Lemma short_ok s : short s = true -> ok_symbols s.
Proof.
  intros [H1 H2]%andb_true_iff. bsolve. split; [lia|]. intros x Hx. pose proof (forall_check _ _ H2 x Hx) as H. cbn beta in H. bsolve. lia.
Qed.

Lemma demo_ok : ok_snapshot demo_snapshot.
Proof.
  constructor; [done| |apply short_ok; vm_compute; reflexivity|done].
  intros r Hr. apply list_elem_of_singleton in Hr as ->. constructor; (done || (apply short_ok; vm_compute; reflexivity)).
Qed.

Lemma codec_roundtrip_witness : DecodeSnapshot (EncodeSnapshot demo_snapshot) = inr demo_snapshot.
Proof. exact (codec_roundtrip demo_snapshot demo_ok). Defined.

Lemma codec_prefix_free_witness : let b := EncodeSnapshot demo_snapshot in
  (codecHeaderLen + weight demo_snapshot <= length b)%nat /\
  DecodeSnapshot (b ++ [x00]) = inl (TrailingBytes 1).
Proof.
  assert (DecodeSnapshot (EncodeSnapshot demo_snapshot) = inr demo_snapshot) as H by (vm_compute; reflexivity).
  destruct (codec_prefix_free _ _ H) as [H1 H2]. split; [exact H1|apply (H2 [x00]); discriminate].
Defined.

Lemma session_persists_witness : exists g b g' s,
  runOps demo newSequiturGrammar = Ret tt g /\ MarshalBinary g = Ret b g /\ UnmarshalBinary b newSequiturGrammar = Ret None g' /\
  TakeSnapshot g = Ret s g /\ TakeSnapshot g' = Ret s g'.
Proof.
  apply (session_persists demo newSequiturGrammar); [vm_compute; reflexivity|]. intros x Hx. split; [apply demo_plain; exact Hx|].
  assert (short (Some (streamOf demo)) = true) as H by (vm_compute; reflexivity). destruct (short_ok _ H) as [_ H1]. apply H1. exact Hx.
Defined.
