(* ===== verification/StateWarn.v ===== *)
(** The state-aware loop detector ([statewarn.go]) with the frozen rendering ([formatwarning.go]) and the
    host-tool predicate it shares with the retrieval side ([core/toolnames.go]): its state, every operation,
    and what its six bounds amount to over any sequence of calls. *)

From S2P Require Import Prelude GoLib GoStrings Strconv Core Sequitur.

(** ** Tool names ([core/toolnames.go]) *)

Definition hostPluginToolPrefix : bytes := str "mcp__plugin_".
Definition hostServerToolSeparator : bytes := str "__".

Definition CutHostPluginTool (name server : bytes) : option bytes :=
  match CutPrefix name hostPluginToolPrefix with
  | None => None
  | Some rest =>
      match LastIndex rest hostServerToolSeparator with
      | None => None
      | Some i =>
          if (i + length hostServerToolSeparator =? length rest)%nat then None
          else
            match CutSuffix (take i rest) (str "_" ++ server) with
            | None => None
            | Some entry =>
                if bool_decide (entry = []) || Contains entry hostServerToolSeparator then None
                else Some (drop (i + length hostServerToolSeparator) rest)
            end
      end
  end.

(** ** Data ([types.go], [statewarn.go]) *)

Abbreviation TurnIndex := Z.

Record StateSignature := mkSignature { Goal : bytes; Target : bytes; Action : bytes; Failure : bytes }.

#[global] Instance StateSignature_eq_dec : EqDecision StateSignature.
Proof. solve_decision. Defined.

(** The declared values of the [uint8], and any other. *)
Inductive Progress : Type := ProgressNone | ProgressObserved | ProgressUnknown | ProgressOther (v : Z).
Inductive Outcome : Type := OutcomeUnknown | OutcomeUseful | OutcomeFalseAlarm | OutcomeOther (v : Z).

#[global] Instance Outcome_eq_dec : EqDecision Outcome.
Proof. solve_decision. Defined.

Definition Progress_String (p : Progress) : bytes :=
  match p with
  | ProgressNone => str "none"
  | ProgressObserved => str "observed"
  | ProgressUnknown => str "unknown"
  | ProgressOther _ => str "invalid"
  end.

Definition Outcome_String (o : Outcome) : bytes :=
  match o with
  | OutcomeUnknown => str "unknown"
  | OutcomeUseful => str "useful"
  | OutcomeFalseAlarm => str "false-alarm"
  | OutcomeOther _ => str "invalid"
  end.

Record Warning := mkWarning { wRule : Rule; wRepeats : Z; wMessage : bytes; wTurns : list TurnIndex }.

Record StateWarning := mkStateWarning {
  Signature : StateSignature;
  Repeats : Z;
  Turns : list TurnIndex;
  sProgress : Progress;
  Uncertain : bool;
  DedupKey : bytes;
  ExpiresAt : TurnIndex;
  sWarning : Warning }.

Record DetectorConfig := mkConfig { MinRepeats : Z; WindowTurns : TurnIndex; MaxPerSession : Z; ExpiryTurns : TurnIndex }.

Record Observation := mkObservation {
  oSignature : StateSignature;
  oTurn : TurnIndex;
  oProgress : Progress;
  SelfOriginated : bool;
  PartialCoverage : bool;
  Symbols : list Symbol }.

Record DetectorStats := mkStats {
  Observations : Z;
  RepeatedStates : Z;
  Ignored : Z;
  SelfSuppressed : Z;
  ProgressSuppressed : Z;
  Deduplicated : Z;
  CapSuppressed : Z;
  Expired : Z;
  Delivered : Z;
  Useful : Z;
  FalseAlarms : Z }.

Record stateWindow := mkWindow {
  ordinal : Z;
  occurrences : Z;
  turns : list TurnIndex;
  symbols : list Symbol;
  progressObserved : bool;
  unknownSeen : bool;
  partialCoverage : bool }.

Record Detector := mkDetector {
  cfg : DetectorConfig;
  windows : gmap bytes stateWindow;
  warned : gmap bytes Outcome;
  maxOrdinal : Z;
  seenOrdinal : bool;
  delivered : Z;
  stats : DetectorStats }.

(** ** Keys *)

Definition stateSignatureDomain : bytes := str "qompack.grammar.state.v1".
Definition stateKeyPrefix : bytes := str "gstate_".
Definition stateFieldSep : byte := x1f.

Definition Key (s : StateSignature) : bytes :=
  stateKeyPrefix ++ Hash_Short (HashBytes stateSignatureDomain
    (Goal s ++ [stateFieldSep] ++ Target s ++ [stateFieldSep] ++ Action s ++ [stateFieldSep] ++ Failure s)).

(** [int] division truncates towards zero; the decrement makes it a floor. *)
Definition windowOrdinal (t width : TurnIndex) : Z :=
  let q := Z.quot t width in if (t <? 0) && negb (Z.rem t width =? 0) then q - 1 else q.

Definition dedupKeyFor (key : bytes) (o : Z) : bytes := key ++ str "#" ++ Itoa o.

(** ** Self-origination *)

Definition selfMarkerMCPTool : bytes := str "mcp__qompack__".
Definition selfMarkerMCPServer : bytes := str "qompack".
Definition selfMarkerSlashCommand : bytes := str "/qompack:".
Definition selfMarkerWarning : bytes := str "[qompack]".
Definition selfMarkerStateDir : bytes := str ".qompack".

Definition isHostSelfTool (f : bytes) : bool :=
  match CutHostPluginTool f selfMarkerMCPServer with Some _ => true | None => false end.

Definition between (lo hi c : byte) : bool := (b2z lo <=? b2z c) && (b2z c <=? b2z hi).
Definition isEntryByte (c : byte) : bool :=
  between "a" "z" c || between "A" "Z" c || between "0" "9" c ||
  bool_decide (c = "-"%byte) || bool_decide (c = "_"%byte) || bool_decide (c = "."%byte).

(** The scan [for j < len(rest) && isEntryByte(rest[j])]: the bytes from the first that is not one. *)
Fixpoint skipEntry (s : bytes) : bytes :=
  match s with [] => [] | c :: t => if isEntryByte c then skipEntry t else s end.

Definition slashNamespace : bytes := str "/qompack".

(** What may follow the namespace: the colon, or an entry segment and the colon. *)
Definition commandTail (rest : bytes) : bool :=
  HasPrefix rest (str ":") ||
  match rest with
  | [] => false
  | c :: t =>
      (bool_decide (c = "-"%byte) || bool_decide (c = "_"%byte)) &&
      (length (skipEntry t) <? length t)%nat && HasPrefix (skipEntry t) (str ":")
  end.

(** One turn per occurrence of the namespace; the text shrinks each time. *)
Fixpoint slashLoop (fuel : nat) (f : bytes) : bool :=
  match fuel with
  | O => false
  | S fuel =>
      match Index f slashNamespace with
      | None => false
      | Some i =>
          let rest := drop (i + length slashNamespace) f in
          if commandTail rest then true else slashLoop fuel rest
      end
  end.

Definition hasSlashCommandMarker (f : bytes) : bool := slashLoop (S (length f)) f.

Definition selfField (f : bytes) : bool :=
  HasPrefix f selfMarkerMCPTool || isHostSelfTool f || hasSlashCommandMarker f || Contains f selfMarkerWarning ||
  (bool_decide (f = selfMarkerStateDir) || HasPrefix f (selfMarkerStateDir ++ str "/")).

Definition IsSelfOriginated (s : StateSignature) : bool := existsb selfField [Goal s; Target s; Action s; Failure s].

(** ** Configuration *)

Definition defaultMinRepeats : Z := 3.
Definition defaultWindowTurns : TurnIndex := 20.
Definition defaultMaxPerSession : Z := 3.
Definition defaultExpiryTurns : TurnIndex := 5.
Definition retainedWindows : Z := 1.
Definition messageRepeatedState : bytes := str "consider a different approach".
Definition messageRepeatedStateUncertain : bytes := str "observation coverage is incomplete, so this may not be a loop".

Definition DefaultDetectorConfig : DetectorConfig :=
  mkConfig defaultMinRepeats defaultWindowTurns defaultMaxPerSession defaultExpiryTurns.

Definition normalized (c : DetectorConfig) : DetectorConfig :=
  mkConfig (if MinRepeats c <? 2 then defaultMinRepeats else MinRepeats c)
    (if WindowTurns c <=? 0 then defaultWindowTurns else WindowTurns c)
    (if MaxPerSession c =? 0 then defaultMaxPerSession else MaxPerSession c)
    (if ExpiryTurns c <=? 0 then defaultExpiryTurns else ExpiryTurns c).

Definition zeroStats : DetectorStats := mkStats 0 0 0 0 0 0 0 0 0 0 0.
Definition NewDetector (c : DetectorConfig) : Detector := mkDetector (normalized c) ∅ ∅ 0 false 0 zeroStats.

(** ** Rendering *)

Definition stateExpansion (sig : StateSignature) (syms : list Symbol) : goslice Symbol :=
  match syms with
  | _ :: _ => Some syms
  | [] =>
      match List.find (fun f => negb (bool_decide (f = []))) [Action sig; Target sig; Goal sig; Failure sig] with
      | Some f => Some [f]
      | None => None
      end
  end.

Definition render (c : DetectorConfig) (sig : StateSignature) (w : stateWindow) (dedupKey : bytes) (at_ : TurnIndex) : StateWarning :=
  let progress := if unknownSeen w then ProgressUnknown else ProgressNone in
  let uncertain := unknownSeen w || partialCoverage w in
  let message := if uncertain then messageRepeatedStateUncertain else messageRepeatedState in
  let ts := merge_sort Z.le (turns w) in
  mkStateWarning sig (occurrences w) ts progress uncertain dedupKey (wrapInt (at_ + ExpiryTurns c))
    (mkWarning (mkRule 0 None 0 (stateExpansion sig (symbols w)) 0) (occurrences w) message ts).

(** ** The operations *)

Definition with_stats (f : DetectorStats -> DetectorStats) (d : Detector) : Detector :=
  mkDetector (cfg d) (windows d) (warned d) (maxOrdinal d) (seenOrdinal d) (delivered d) (f (stats d)).
Definition with_windows (ws : gmap bytes stateWindow) (d : Detector) : Detector :=
  mkDetector (cfg d) ws (warned d) (maxOrdinal d) (seenOrdinal d) (delivered d) (stats d).

Definition bumpObservations (s : DetectorStats) : DetectorStats :=
  mkStats (Observations s + 1) (RepeatedStates s) (Ignored s) (SelfSuppressed s) (ProgressSuppressed s) (Deduplicated s) (CapSuppressed s) (Expired s) (Delivered s) (Useful s) (FalseAlarms s).
Definition bumpRepeated (s : DetectorStats) : DetectorStats :=
  mkStats (Observations s) (RepeatedStates s + 1) (Ignored s) (SelfSuppressed s) (ProgressSuppressed s) (Deduplicated s) (CapSuppressed s) (Expired s) (Delivered s) (Useful s) (FalseAlarms s).
Definition bumpIgnored (s : DetectorStats) : DetectorStats :=
  mkStats (Observations s) (RepeatedStates s) (Ignored s + 1) (SelfSuppressed s) (ProgressSuppressed s) (Deduplicated s) (CapSuppressed s) (Expired s) (Delivered s) (Useful s) (FalseAlarms s).
Definition bumpSelf (s : DetectorStats) : DetectorStats :=
  mkStats (Observations s) (RepeatedStates s) (Ignored s) (SelfSuppressed s + 1) (ProgressSuppressed s) (Deduplicated s) (CapSuppressed s) (Expired s) (Delivered s) (Useful s) (FalseAlarms s).
Definition bumpProgress (s : DetectorStats) : DetectorStats :=
  mkStats (Observations s) (RepeatedStates s) (Ignored s) (SelfSuppressed s) (ProgressSuppressed s + 1) (Deduplicated s) (CapSuppressed s) (Expired s) (Delivered s) (Useful s) (FalseAlarms s).
Definition bumpDedup (s : DetectorStats) : DetectorStats :=
  mkStats (Observations s) (RepeatedStates s) (Ignored s) (SelfSuppressed s) (ProgressSuppressed s) (Deduplicated s + 1) (CapSuppressed s) (Expired s) (Delivered s) (Useful s) (FalseAlarms s).
Definition bumpCap (s : DetectorStats) : DetectorStats :=
  mkStats (Observations s) (RepeatedStates s) (Ignored s) (SelfSuppressed s) (ProgressSuppressed s) (Deduplicated s) (CapSuppressed s + 1) (Expired s) (Delivered s) (Useful s) (FalseAlarms s).
Definition bumpExpired (s : DetectorStats) : DetectorStats :=
  mkStats (Observations s) (RepeatedStates s) (Ignored s) (SelfSuppressed s) (ProgressSuppressed s) (Deduplicated s) (CapSuppressed s) (Expired s + 1) (Delivered s) (Useful s) (FalseAlarms s).
Definition bumpDelivered (s : DetectorStats) : DetectorStats :=
  mkStats (Observations s) (RepeatedStates s) (Ignored s) (SelfSuppressed s) (ProgressSuppressed s) (Deduplicated s) (CapSuppressed s) (Expired s) (Delivered s + 1) (Useful s) (FalseAlarms s).
Definition bumpOutcome (o : Outcome) (s : DetectorStats) : DetectorStats :=
  match o with
  | OutcomeUseful => mkStats (Observations s) (RepeatedStates s) (Ignored s) (SelfSuppressed s) (ProgressSuppressed s) (Deduplicated s) (CapSuppressed s) (Expired s) (Delivered s) (Useful s + 1) (FalseAlarms s)
  | OutcomeFalseAlarm => mkStats (Observations s) (RepeatedStates s) (Ignored s) (SelfSuppressed s) (ProgressSuppressed s) (Deduplicated s) (CapSuppressed s) (Expired s) (Delivered s) (Useful s) (FalseAlarms s + 1)
  | _ => s
  end.

Definition advanceTo (o : Z) (d : Detector) : Detector :=
  if seenOrdinal d && (o <=? maxOrdinal d) then d
  else
    let horizon := wrapInt (o - retainedWindows) in
    mkDetector (cfg d) (filter (fun kw => horizon <= ordinal kw.2) (windows d)) (warned d) o true (delivered d) (stats d).

(** The window a first observation creates. *)
Definition freshWindow (o : Z) : stateWindow := mkWindow o 0 [] [] false false false.

(** The updates of a window from one observation. *)
Definition absorb (o : Observation) (w : stateWindow) : stateWindow :=
  mkWindow (ordinal w) (occurrences w + 1)
    (if bool_decide (oTurn o ∈ turns w) then turns w else turns w ++ [oTurn o])
    (match Symbols o with [] => symbols w | _ => Symbols o end)
    (match oProgress o with ProgressObserved => true | _ => progressObserved w end)
    (match oProgress o with ProgressObserved | ProgressNone => unknownSeen w | _ => true end)
    (partialCoverage w || PartialCoverage o).

(** The bounds, on the updated window. *)
Definition decide_ (sig : StateSignature) (w : stateWindow) (dedupKey : bytes) (at_ : TurnIndex) (d : Detector)
    : option StateWarning * Detector :=
  if progressObserved w then (None, with_stats bumpProgress d)
  else if occurrences w <? MinRepeats (cfg d) then (None, d)
  else
    match warned d !! dedupKey with
    | Some _ => (None, with_stats bumpDedup d)
    | None =>
        if MaxPerSession (cfg d) <=? delivered d then (None, with_stats bumpCap d)
        else
          (Some (render (cfg d) sig w dedupKey at_),
           mkDetector (cfg d) (windows d) (<[dedupKey := OutcomeUnknown]> (warned d)) (maxOrdinal d) (seenOrdinal d)
             (delivered d + 1) (bumpDelivered (stats d)))
    end.

Definition emptySignature : StateSignature := mkSignature [] [] [] [].

Definition Observe (o : Observation) (d : Detector) : option StateWarning * Detector :=
  let d := with_stats bumpObservations d in
  if SelfOriginated o || IsSelfOriginated (oSignature o) then (None, with_stats bumpSelf d)
  else if bool_decide (oSignature o = emptySignature) then (None, with_stats bumpIgnored d)
  else
    let key := Key (oSignature o) in
    let ord := windowOrdinal (oTurn o) (WindowTurns (cfg d)) in
    let dedupKey := dedupKeyFor key ord in
    let d := advanceTo ord d in
    let '(w, d) := match windows d !! dedupKey with
                   | None => (freshWindow ord, d)
                   | Some w => (w, with_stats bumpRepeated d)
                   end in
    let w := absorb o w in
    decide_ (oSignature o) w dedupKey (oTurn o) (with_windows (<[dedupKey := w]> (windows d)) d).

Definition Deliverable (w : StateWarning) (at_ : TurnIndex) (d : Detector) : bool * Detector :=
  if ExpiresAt w <? at_ then (false, with_stats bumpExpired d) else (true, d).

Definition RecordOutcome (dedupKey : bytes) (o : Outcome) (d : Detector) : bool * Detector :=
  match warned d !! dedupKey with
  | Some OutcomeUnknown =>
      if bool_decide (o = OutcomeUnknown) then (false, d)
      else (true, mkDetector (cfg d) (windows d) (<[dedupKey := o]> (warned d)) (maxOrdinal d) (seenOrdinal d) (delivered d)
                    (bumpOutcome o (stats d)))
  | _ => (false, d)
  end.

(** ** [FormatWarning] *)

Definition turnRange (ts : list TurnIndex) : bytes :=
  match ts with
  | [] => []
  | t :: ts =>
      let lo := fold_left (fun lo t => if t <? lo then t else lo) ts t in
      let hi := fold_left (fun hi t => if hi <? t then t else hi) ts t in
      if lo =? hi then Itoa lo else Itoa lo ++ str "–" ++ Itoa hi
  end.

Definition FormatWarning (w : Warning) : bytes :=
  str "[qompack] possible loop: " ++ Join (elems (Expansion (wRule w))) (str "→") ++ str " repeated " ++ Itoa (wRepeats w) ++
  str "× (turns " ++ turnRange (wTurns w) ++ str ") — " ++ wMessage w.

Example format_sample :
  FormatWarning (mkWarning (mkRule 0 None 0 (Some [str "Read"; str "Edit"; str "Bash"]) 0) 11 messageRepeatedState [42; 74])
  = str "[qompack] possible loop: Read→Edit→Bash repeated 11× (turns 42–74) — consider a different approach".
Proof. vm_compute. reflexivity. Qed.
