(* ===== verification/WarnSpec.v ===== *)
(** What the loop detector guarantees: the self-origination tests are exactly the documented shapes, a rendered
    warning can never feed the next one, in turn order and where no state recurs across a window boundary
    the pruned windows answer as the whole history would, and
    over any calls in any order the bounds, the accounting and the independence from outcomes hold. *)

From S2P Require Import Prelude GoLib GoStrings Strconv Core Sequitur StateWarn.

(** ** Names and markers *)

Lemma skipEntry_spec s : exists seg, s = seg ++ skipEntry s /\ Forall (fun c => isEntryByte c = true) seg /\
  (skipEntry s = [] \/ exists c t, skipEntry s = c :: t /\ isEntryByte c = false).
Proof.
  induction s as [|c s IH]; cbn [skipEntry]; [exists []; split; [done|]; split; [constructor|auto]|].
  destruct (isEntryByte c) eqn:E.
  - destruct IH as (seg & H1 & H2 & H3). exists (c :: seg). cbn. split; [f_equal; done|]. split; [constructor; done|done].
  - exists []. split; [done|]. split; [constructor|]. right. eauto.
Qed.

(** The tail of a command as the comment spells it: nothing, or a hyphen or underscore and an entry segment. *)
Definition entry_segment (seg : bytes) : Prop := seg = [] \/ exists c t, seg = c :: t /\ (c = "-"%byte \/ c = "_"%byte) /\
  t <> [] /\ Forall (fun c => isEntryByte c = true) t.

Lemma colon_not_entry : isEntryByte ":" = false.
Proof. vm_compute. done. Qed.

Lemma skipEntry_app seg c t : Forall (fun c => isEntryByte c = true) seg -> isEntryByte c = false -> skipEntry (seg ++ c :: t) = c :: t.
Proof. induction 1 as [|x seg Hx _ IH]; intros Hc; cbn; [rewrite Hc; done|]. rewrite Hx. auto. Qed.

Lemma commandTail_spec rest : commandTail rest = true <-> exists seg b, rest = seg ++ str ":" ++ b /\ entry_segment seg.
Proof.
  unfold commandTail. rewrite orb_true_iff, HasPrefix_spec. split.
  - intros [[t ->]|H]; [exists [], t; split; [done|left; done]|]. destruct rest as [|c t]; [done|].
    rewrite !andb_true_iff, orb_true_iff, !bool_decide_eq_true, Nat.ltb_lt, HasPrefix_spec in H. destruct H as [[Hc Hl] [b Hb]].
    destruct (skipEntry_spec t) as (seg & H1 & H2 & _). exists (c :: seg), b. cbn [app]. rewrite <- Hb, <- H1. split; [done|].
    right. exists c, seg. split; [done|]. split; [done|]. split; [|done]. intros ->. cbn in H1. rewrite <- H1 in Hl. lia.
  - intros (seg & b & -> & [->|(c & t & -> & Hc & Ht & HF)]); [left; eauto|]. right.
    change (str ":" ++ b) with (":"%byte :: b). cbn [app]. rewrite (skipEntry_app t ":" b HF colon_not_entry).
    rewrite !andb_true_iff, orb_true_iff, !bool_decide_eq_true, Nat.ltb_lt. split; [split; [done|]|done].
    rewrite length_app. destruct t; [done|]. cbn. lia.
Qed.

(** An occurrence of the namespace starts at a slash, so two occurrences do not overlap. *)
Lemma namespace_at a b i : HasPrefix (drop i (a ++ slashNamespace ++ b)) slashNamespace = true -> (length a < i)%nat ->
  (length a + length slashNamespace <= i)%nat.
Proof.
  intros Hp Hi. destruct (decide (length a + length slashNamespace <= i)%nat) as [|Hn]; [done|]. exfalso.
  rewrite drop_app_ge in Hp by lia. set (j := (i - length a)%nat) in *. assert (0 < j < 8)%nat as Hj by (unfold j; cbn in Hn; lia).
  assert (head (drop j (slashNamespace ++ b)) = Some "/"%byte) as Hh.
  { apply HasPrefix_spec in Hp as [u Hu]. rewrite Hu. done. }
  clear - Hh Hj. do 8 (destruct j as [|j]; [try lia; vm_compute in Hh; discriminate|]). lia.
Qed.

Lemma slashLoop_spec fuel : forall f, (length f < fuel)%nat -> slashLoop fuel f = true <->
  exists a seg b, f = a ++ slashNamespace ++ seg ++ str ":" ++ b /\ entry_segment seg.
Proof.
  induction fuel as [|fuel IH]; intros f Hf; [lia|]. cbn [slashLoop]. pose proof (Index_spec f slashNamespace) as Hi.
  destruct (Index f slashNamespace) as [i|].
  - destruct Hi as ([r Hr] & Hil & Hfirst). set (p := take i f) in *. assert (length p = i) as Hp by (unfold p; rewrite length_take; lia).
    assert (drop (i + length slashNamespace) f = r) as Hd.
    { rewrite Hr, app_assoc, <- Hp, <- length_app. apply drop_app_length. }
    rewrite Hd. destruct (commandTail r) eqn:Ec.
    { split; [|done]. intros _. apply commandTail_spec in Ec as (seg & b & -> & Hs). exists p, seg, b. done. }
    rewrite IH by (apply (f_equal length) in Hr; rewrite !length_app in Hr; change (length slashNamespace) with 8%nat in Hr; lia).
    split.
    + intros (a & seg & b & -> & Hs). exists (p ++ slashNamespace ++ a), seg, b. rewrite Hr at 1. rewrite <- !app_assoc. done.
    + intros (a & seg & b & Ha & Hs).
      assert (HasPrefix (drop (length a) f) slashNamespace = true) as Hpre.
      { rewrite Ha, drop_app_length. apply HasPrefix_app. }
      assert (~ (length a < i)%nat) as H1 by (intros Hlt; rewrite (Hfirst _ Hlt) in Hpre; done).
      assert (length a <> i) as H2.
      { intros E. assert (a = p /\ slashNamespace ++ seg ++ str ":" ++ b = slashNamespace ++ r) as [_ E2].
        { apply app_inj_1; [lia|]. rewrite <- Ha. done. }
        apply app_inv_head in E2. rewrite (proj2 (commandTail_spec r)) in Ec; [done|]. exists seg, b. done. }
      assert (length p + length slashNamespace <= length a)%nat as H3.
      { apply (namespace_at p r); [rewrite <- Hr; done|lia]. }
      exists (drop (length p + length slashNamespace) a), seg, b. split; [|done].
      rewrite <- Hd, Ha, Hp. rewrite drop_app_le by lia. done.
  - split; [done|]. intros (a & seg & b & Ha & _). destruct (Hi a (seg ++ str ":" ++ b) Ha).
Qed.

(** The slash-command test is exactly the documented shape.  [hasSlashCommandMarker] holds of a text exactly
    when it contains the plugin's namespace followed by a colon, or by a hyphen or underscore, one or more entry
    bytes and a colon; the scan terminates on every text. *)
Theorem slash_marker_exact f : hasSlashCommandMarker f = true <->
  exists a seg b, f = a ++ str "/qompack" ++ seg ++ str ":" ++ b /\ entry_segment seg.
Proof. apply slashLoop_spec. lia. Qed.

Lemma CutHostPluginTool_spec name server tool : CutHostPluginTool name server = Some tool <->
  exists entry, name = str "mcp__plugin_" ++ entry ++ (str "_" ++ server) ++ str "__" ++ tool /\
    entry <> [] /\ tool <> [] /\ Contains entry (str "__") = false /\ Contains (str "_" ++ tool) (str "__") = false.
Proof.
  unfold CutHostPluginTool. split.
  - destruct (CutPrefix name hostPluginToolPrefix) as [rest|] eqn:Ep; [|done]. apply CutPrefix_spec in Ep as ->.
    pose proof (LastIndex_spec rest hostServerToolSeparator ltac:(done)) as Hl. destruct (LastIndex rest hostServerToolSeparator) as [i|]; [|done].
    destruct Hl as ([b Hb] & Hi & Hlast). destruct (_ =? length rest)%nat eqn:Ee; [done|]. bsolve.
    destruct (CutSuffix _ _) as [entry|] eqn:Es; [|done]. apply CutSuffix_spec in Es. rewrite Es in Hb.
    assert (length (take i rest) = i) as Hti by (rewrite length_take; lia).
    assert (drop (i + length hostServerToolSeparator) rest = b) as ->.
    { rewrite Hb at 1. rewrite <- Es, app_assoc. rewrite <- Hti at 1. rewrite <- length_app. apply drop_app_length. }
    case_bool_decide as He; [done|]. destruct (Contains entry hostServerToolSeparator) eqn:Ec; [done|]. intros [= <-].
    exists entry. split; [rewrite Hb at 1; rewrite <- !app_assoc; done|]. split; [done|]. split; [|split; [done|]].
    + intros ->. apply (f_equal length) in Hb. rewrite <- Es, !length_app, Hti in Hb. cbn in Hb, Ee. lia.
    + destruct (Contains (str "_" ++ b) (str "__")) eqn:Ex; [|done]. exfalso. apply Contains_spec in Ex as (x & y & Exy).
      assert (drop (S i) rest = str "_" ++ b) as Hd.
      { rewrite Hb at 1. rewrite <- Es. change (hostServerToolSeparator ++ b) with (str "_" ++ str "_" ++ b). rewrite app_assoc.
        replace (S i) with (length (take i rest ++ str "_")) by (rewrite length_app, Hti; cbn; lia). apply drop_app_length. }
      assert (HasPrefix (drop (S i + length x) rest) hostServerToolSeparator = false) as Hno by (apply Hlast; lia).
      rewrite <- drop_drop, Hd, Exy, drop_app_length, (HasPrefix_app hostServerToolSeparator) in Hno. done.
  - intros (entry & -> & He & Ht & Hc & Hx). rewrite (proj2 (CutPrefix_spec _ _ _) eq_refl).
    set (A := entry ++ str "_" ++ server). assert (entry ++ (str "_" ++ server) ++ str "__" ++ tool = A ++ str "__" ++ tool) as ->
      by (unfold A; rewrite <- !app_assoc; done).
    pose proof (LastIndex_spec (A ++ str "__" ++ tool) hostServerToolSeparator ltac:(done)) as Hl.
    destruct (LastIndex _ _) as [i|]; [|destruct (Hl A tool); done]. destruct Hl as ([b Hb] & Hi & Hlast).
    assert (i = length A) as ->.
    { destruct (decide (i < length A)%nat) as [Hlt|Hge].
      - specialize (Hlast _ Hlt). rewrite drop_app_length, (HasPrefix_app hostServerToolSeparator) in Hlast. done.
      - destruct (decide (i = length A)) as [|Hne]; [done|]. exfalso.
        assert (Contains (str "_" ++ tool) (str "__") = true) as Hyes; [|congruence]. apply Contains_spec.
        change (A ++ str "__" ++ tool) with (A ++ str "_" ++ str "_" ++ tool) in Hb. rewrite app_assoc in Hb.
        set (Z := A ++ str "_") in *. assert (length Z = S (length A)) as HZ by (unfold Z; rewrite length_app; cbn; lia).
        exists (drop (length Z) (take i (Z ++ str "_" ++ tool))), b.
        transitivity (drop (length Z) (Z ++ str "_" ++ tool)); [rewrite drop_app_length; done|]. rewrite Hb at 1.
        rewrite drop_app_le; [done|]. rewrite length_take. unfold A in *. rewrite !length_app in *. cbn in *. lia. }
    assert ((length A + length hostServerToolSeparator =? length (A ++ str "__" ++ tool))%nat = false) as ->.
    { apply Nat.eqb_neq. rewrite !length_app. destruct tool; [done|]. cbn. lia. }
    rewrite take_app_length. unfold A at 1. rewrite (proj2 (CutSuffix_spec _ _ _) eq_refl). rewrite bool_decide_eq_false_2 by done.
    unfold hostServerToolSeparator at 1. rewrite Hc. cbn [orb]. f_equal. rewrite app_assoc.
    change (length A + length hostServerToolSeparator)%nat with (length A + length (str "__"))%nat. rewrite <- length_app. apply drop_app_length.
Qed.

(** A warning cannot cause the next one.  Whatever the warning, an observation any of whose four fields quotes
    its rendered text is taken as the plugin's own: no warning results, and nothing but the counts of observations
    and of self-suppressed ones changes. *)
Theorem warning_never_feeds_back w a b o d :
  (exists f, f ∈ [Goal (oSignature o); Target (oSignature o); Action (oSignature o); Failure (oSignature o)] /\ f = a ++ FormatWarning w ++ b) ->
  Observe o d = (None, with_stats (fun s => bumpSelf (bumpObservations s)) d).
Proof.
  intros (f & Hf & ->). assert (IsSelfOriginated (oSignature o) = true) as Hs.
  { apply existsb_exists. eexists. split; [apply list_elem_of_In; exact Hf|]. unfold selfField.
    assert (Contains (a ++ FormatWarning w ++ b) selfMarkerWarning = true) as ->; [|rewrite !orb_true_r; done].
    apply Contains_app, Contains_spec. unfold FormatWarning. exists []. eexists.
    change (str "[qompack] possible loop: ") with (selfMarkerWarning ++ str " possible loop: "). rewrite <- app_assoc. cbn [app]. done. }
  unfold Observe. rewrite Hs, orb_true_r. done.
Qed.

(** ** Windows *)

Lemma windowOrdinal_floor t w : 0 < w -> windowOrdinal t w = t / w.
Proof.
  intros Hw. unfold windowOrdinal. pose proof (Z.quot_rem' t w) as Hq. destruct (t <? 0) eqn:Et; bsolve; cbn [andb].
  - pose proof (Z.rem_bound_pos_neg t w ltac:(lia) ltac:(lia)) as Hr. destruct (Z.rem t w =? 0) eqn:Er; bsolve; cbn [negb].
    + apply (Z.div_unique t w (Z.quot t w) 0); lia.
    + apply (Z.div_unique t w (Z.quot t w - 1) (Z.rem t w + w)); lia.
  - apply Z.quot_div_nonneg; lia.
Qed.

Lemma Key_length s : length (Key s) = 19%nat.
Proof.
  unfold Key, Hash_Short. rewrite length_app, length_take, Hex.encode_length. unfold HashBytes. rewrite Sha256.sum_length. done.
Qed.

(** The dedup key determines the signature key and the window. *)
Lemma dedupKey_inj s s' o o' : dedupKeyFor (Key s) o = dedupKeyFor (Key s') o' -> Key s = Key s' /\ o = o'.
Proof.
  unfold dedupKeyFor. intros H. apply app_inj_1 in H as [H1 H2]; [|rewrite !Key_length; done]. split; [done|].
  apply app_inv_head in H2. apply Itoa_inj. done.
Qed.

(** ** The history-based detector *)

Definition accepted (o : Observation) : bool :=
  negb (SelfOriginated o || IsSelfOriginated (oSignature o)) && negb (bool_decide (oSignature o = emptySignature)).

Definition ordinalOf (c : DetectorConfig) (o : Observation) : Z := windowOrdinal (oTurn o) (WindowTurns c).
Definition keyOf (c : DetectorConfig) (o : Observation) : bytes := dedupKeyFor (Key (oSignature o)) (ordinalOf c o).

(** The observations of one signature in one window, out of a whole history. *)
Definition runOf (c : DetectorConfig) (H : list Observation) (k : bytes) : list Observation :=
  List.filter (fun o => accepted o && bool_decide (keyOf c o = k)) H.

Definition moved (o : Observation) : bool := match oProgress o with ProgressObserved => true | _ => false end.
Definition unseen (o : Observation) : bool := match oProgress o with ProgressObserved | ProgressNone => false | _ => true end.

(** The last symbols a run supplied. *)
Definition lastSymbols (r : list Observation) : list Symbol :=
  fold_left (fun acc o => match Symbols o with [] => acc | _ => Symbols o end) r [].

(** The warning a run deserves. *)
Definition runWarning (c : DetectorConfig) (r : list Observation) (o : Observation) : StateWarning :=
  let n := Z.of_nat (length r) in
  let ts := merge_sort Z.le (elements (list_to_set (oTurn <$> r) : gset Z)) in
  let unknown := existsb unseen r in
  let uncertain := unknown || existsb PartialCoverage r in
  mkStateWarning (oSignature o) n ts (if unknown then ProgressUnknown else ProgressNone) uncertain (keyOf c o)
    (wrapInt (oTurn o + ExpiryTurns c))
    (mkWarning (mkRule 0 None 0 (stateExpansion (oSignature o) (lastSymbols r)) 0) n
       (if uncertain then messageRepeatedStateUncertain else messageRepeatedState) ts).

(** One observation, against the history [H] and the dedup keys [sent] already warned about. *)
Definition specObserve (c : DetectorConfig) (H : list Observation) (sent : list bytes) (o : Observation) : option StateWarning :=
  let r := runOf c (H ++ [o]) (keyOf c o) in
  if accepted o && negb (existsb moved r) && (MinRepeats c <=? Z.of_nat (length r)) &&
     negb (bool_decide (keyOf c o ∈ sent)) && (Z.of_nat (length sent) <? MaxPerSession c)
  then Some (runWarning c r o) else None.

Fixpoint specWatch (c : DetectorConfig) (H : list Observation) (sent : list bytes) (os : list Observation) : list (option StateWarning) :=
  match os with
  | [] => []
  | o :: os =>
      let r := specObserve c H sent o in
      r :: specWatch c (H ++ [o]) (match r with Some w => sent ++ [DedupKey w] | None => sent end) os
  end.

(** The detector over a sequence of observations. *)
Fixpoint watch (os : list Observation) (d : Detector) : list (option StateWarning) * Detector :=
  match os with
  | [] => ([], d)
  | o :: os => let '(r, d) := Observe o d in let '(rs, d) := watch os d in (r :: rs, d)
  end.

(** What the updates of a window have recorded of its run. *)
Record windowFor (r : list Observation) (ord : Z) (w : stateWindow) : Prop := {
  wf_ordinal : ordinal w = ord;
  wf_occ : occurrences w = Z.of_nat (length r);
  wf_nodup : NoDup (turns w);
  wf_turns : forall t, t ∈ turns w <-> t ∈ oTurn <$> r;
  wf_symbols : symbols w = lastSymbols r;
  wf_moved : progressObserved w = existsb moved r;
  wf_unseen : unknownSeen w = existsb unseen r;
  wf_partial : partialCoverage w = existsb PartialCoverage r }.

Lemma windowFor_fresh ord : windowFor [] ord (freshWindow ord).
Proof. constructor; try done. constructor. Qed.

Lemma windowFor_absorb r ord w o : windowFor r ord w -> windowFor (r ++ [o]) ord (absorb o w).
Proof.
  intros [H1 H2 H3 H4 H5 H6 H7 H8]. constructor; cbn [absorb ordinal occurrences turns symbols progressObserved unknownSeen partialCoverage].
  - done.
  - rewrite H2, length_app. cbn. lia.
  - case_bool_decide as Ht; [done|]. apply NoDup_app. split; [done|]. split; [|apply NoDup_singleton]. intros t Hin ->%list_elem_of_singleton. done.
  - intros t. rewrite fmap_app, elem_of_app, <- H4. cbn. rewrite list_elem_of_singleton. case_bool_decide as Ht.
    + split; [auto|]. intros [?| ->]; done.
    + rewrite elem_of_app, list_elem_of_singleton. done.
  - unfold lastSymbols. rewrite fold_left_app. cbn. rewrite H5. done.
  - rewrite existsb_app. cbn. rewrite H6. unfold moved. destruct (oProgress o); rewrite ?orb_false_r, ?orb_true_r; done.
  - rewrite existsb_app. cbn. rewrite H7. unfold unseen. destruct (oProgress o); rewrite ?orb_false_r, ?orb_true_r; done.
  - rewrite existsb_app. cbn. rewrite H8, orb_false_r. done.
Qed.

(** Sorting forgets the order of arrival. *)
Lemma sort_set (l : list Z) (X : gset Z) : NoDup l -> (forall t, t ∈ l <-> t ∈ X) -> merge_sort Z.le l = merge_sort Z.le (elements X).
Proof.
  intros HN HX. apply (Sorted_unique Z.le); [apply Sorted_merge_sort; intros a b; lia|apply Sorted_merge_sort; intros a b; lia|].
  rewrite !merge_sort_Permutation. apply NoDup_Permutation; [done|apply NoDup_elements|]. intros t. rewrite elem_of_elements. done.
Qed.

Lemma render_run c r w o : windowFor r (ordinalOf c o) w -> render c (oSignature o) w (keyOf c o) (oTurn o) = runWarning c r o.
Proof.
  intros [H1 H2 H3 H4 H5 H6 H7 H8]. unfold render, runWarning. rewrite H2, H5, H7, H8.
  rewrite (sort_set (turns w) (list_to_set (oTurn <$> r))); [done|done|]. intros t. rewrite elem_of_list_to_set. apply H4.
Qed.

(** ** In turn order the windows answer as the history would *)

Lemma runOf_snoc c H o k : runOf c (H ++ [o]) k = runOf c H k ++ (if accepted o && bool_decide (keyOf c o = k) then [o] else []).
Proof. unfold runOf. rewrite List.filter_app. cbn [List.filter]. destruct (accepted o && _); reflexivity. Qed.

Lemma elem_runOf c H k o : o ∈ runOf c H k <-> o ∈ H /\ accepted o = true /\ keyOf c o = k.
Proof. unfold runOf. rewrite list_elem_of_In, filter_In, <- list_elem_of_In, andb_true_iff, bool_decide_eq_true. done. Qed.

Definition sound_windows (c : DetectorConfig) (H : list Observation) (ws : gmap bytes stateWindow) : Prop :=
  forall k w, ws !! k = Some w -> exists o, o ∈ runOf c H k /\ windowFor (runOf c H k) (ordinalOf c o) w.

Record tracks (c : DetectorConfig) (d : Detector) (H : list Observation) (sent : list bytes) : Prop := {
  tr_cfg : cfg d = c;
  tr_windows : sound_windows c H (windows d);
  tr_current : forall o, o ∈ H -> accepted o = true -> ordinalOf c o = maxOrdinal d -> is_Some (windows d !! keyOf c o);
  tr_ords : forall o, o ∈ H -> accepted o = true -> seenOrdinal d = true /\ ordinalOf c o <= maxOrdinal d;
  tr_max : seenOrdinal d = true -> exists o, o ∈ H /\ accepted o = true /\ ordinalOf c o = maxOrdinal d;
  tr_warned : forall k, is_Some (warned d !! k) <-> k ∈ sent;
  tr_delivered : delivered d = Z.of_nat (length sent) }.

Lemma tracks_stats c d H sent f : tracks c d H sent -> tracks c (with_stats f d) H sent.
Proof. intros []. constructor; done. Qed.

(** An observation that is not counted leaves the histories as they are. *)
Lemma tracks_skip c d H sent o : tracks c d H sent -> accepted o = false -> tracks c d (H ++ [o]) sent.
Proof.
  intros [H1 H2 H3 H4 H5 H6 H7] Ho. assert (forall k, runOf c (H ++ [o]) k = runOf c H k) as Hr.
  { intros k. rewrite runOf_snoc, Ho. apply app_nil_r. }
  assert (forall o', o' ∈ H ++ [o] -> accepted o' = true -> o' ∈ H) as Hin.
  { intros o' [?|Hx%list_elem_of_singleton]%elem_of_app Ha; [done|]. subst o'. congruence. }
  constructor; try done; eauto.
  - intros k w Hw. rewrite Hr. apply H2. done.
  - intros Hs. destruct (H5 Hs) as (o' & Ho' & ?). exists o'. split; [apply elem_of_app; left; done|done].
Qed.

Section step.
Context (c : DetectorConfig) (Hw : 0 < WindowTurns c) (d : Detector) (H : list Observation) (sent : list bytes) (o : Observation).
Context (HT : tracks c d H sent) (Ha : accepted o = true) (Ht : 0 <= oTurn o < 2 ^ 63).
Context (Hord : forall o', o' ∈ H -> accepted o' = true -> oTurn o' <= oTurn o).

Lemma ordinal_le o' : o' ∈ H -> accepted o' = true -> ordinalOf c o' <= ordinalOf c o.
Proof using Hord Hw.
  intros Hin Ha'. unfold ordinalOf. rewrite !windowOrdinal_floor by done. apply Z.div_le_mono; [done|]. auto.
Qed.

Lemma same_ordinal o' : keyOf c o' = keyOf c o -> ordinalOf c o' = ordinalOf c o.
Proof using. intros E. exact (proj2 (dedupKey_inj _ _ _ _ E)). Qed.

(** After [advanceTo] the window of the observation is there exactly when its run has begun. *)
Lemma advance_window d1 : d1 = advanceTo (ordinalOf c o) d -> sound_windows c H (windows d1) /\ maxOrdinal d1 = ordinalOf c o /\ seenOrdinal d1 = true /\
  (forall o', o' ∈ H -> accepted o' = true -> ordinalOf c o' = ordinalOf c o -> is_Some (windows d1 !! keyOf c o')) /\
  cfg d1 = cfg d /\ warned d1 = warned d /\ delivered d1 = delivered d.
Proof using HT Hord Hw Ht.
  destruct HT as [H1 H2 H3 H4 H5 H6 H7]. intros ->. unfold advanceTo. destruct (seenOrdinal d && (ordinalOf c o <=? maxOrdinal d)) eqn:E.
  - apply andb_true_iff in E as [Es El]. bsolve. destruct (H5 Es) as (o1 & Ho1 & Ha1 & E1). pose proof (ordinal_le o1 Ho1 Ha1).
    assert (maxOrdinal d = ordinalOf c o) as Em by lia. rewrite Em in *. do 4 (split; [done|]). done.
  - cbn [windows maxOrdinal seenOrdinal cfg warned delivered]. split; [|split; [done|split; [done|split; [|done]]]].
    + intros k w Hk. apply map_lookup_filter_Some in Hk as [Hk _]. apply H2. done.
    + intros o' Ho' Ha' Eo'. exfalso. destruct (H4 o' Ho' Ha') as [Hs Hle]. rewrite Hs in E. cbn in E. bsolve. lia.
Qed.

Lemma step_window d1 : d1 = advanceTo (ordinalOf c o) d -> exists w,
  match windows d1 !! keyOf c o with None => freshWindow (ordinalOf c o) | Some w => w end = w /\ windowFor (runOf c H (keyOf c o)) (ordinalOf c o) w.
Proof using HT Hord Hw Ht.
  intros Ed. destruct (advance_window d1 Ed) as (Hs & _ & _ & Hc & _). eexists. split; [done|].
  destruct (windows d1 !! keyOf c o) as [w|] eqn:Ew.
  - destruct (Hs _ _ Ew) as (o' & Ho' & HF). apply elem_runOf in Ho' as (_ & _ & Ek). rewrite <- (same_ordinal o' Ek). done.
  - assert (runOf c H (keyOf c o) = []) as ->; [|apply windowFor_fresh]. destruct (runOf c H (keyOf c o)) as [|o' r] eqn:Er; [done|exfalso].
    assert (o' ∈ runOf c H (keyOf c o)) as Ho' by (rewrite Er; left). apply elem_runOf in Ho' as (Hin & Ha' & Ek).
    destruct (Hc o' Hin Ha' (same_ordinal o' Ek)) as [w Hw']. rewrite Ek in Hw'. congruence.
Qed.

(** The detector after the window is stored, whatever the counters. *)
Lemma step_tracks d1 d2 w : d1 = advanceTo (ordinalOf c o) d -> windowFor (runOf c H (keyOf c o)) (ordinalOf c o) w ->
  windows d2 = <[keyOf c o := absorb o w]> (windows d1) -> cfg d2 = cfg d1 -> maxOrdinal d2 = maxOrdinal d1 -> seenOrdinal d2 = seenOrdinal d1 ->
  warned d2 = warned d1 -> delivered d2 = delivered d1 -> tracks c d2 (H ++ [o]) sent.
Proof using HT Hord Hw Ht Ha.
  intros Ed HF E1 E2 E3 E4 E5 E6. destruct (advance_window d1 Ed) as (Hs & Em & Es & Hc & F1 & F2 & F3).
  assert (forall o', o' ∈ H ++ [o] -> o' ∈ H \/ o' = o) as Hin by (intros o' [?|Hx%list_elem_of_singleton]%elem_of_app; auto).
  constructor.
  - rewrite E2, F1. apply HT.
  - intros k w' Hk. rewrite E1 in Hk. rewrite runOf_snoc, Ha. cbn [andb]. apply lookup_insert_Some in Hk as [[<- <-]|[Hne Hk]].
    + rewrite bool_decide_eq_true_2 by done. exists o. split; [apply elem_of_app; right; left|]. apply windowFor_absorb. done.
    + rewrite bool_decide_eq_false_2 by done. rewrite app_nil_r. apply Hs. done.
  - intros o' Ho' Ha' Eo'. rewrite E1. apply lookup_insert_is_Some'. destruct (Hin o' Ho') as [Ho| ->]; [|auto]. right.
    apply Hc; [done|done|congruence].
  - intros o' Ho' Ha'. rewrite E4, E3, Es, Em. split; [done|]. destruct (Hin o' Ho') as [Ho| ->]; [apply ordinal_le; done|lia].
  - intros _. exists o. rewrite E3, Em. split; [apply elem_of_app; right; left|done].
  - intros k. rewrite E5, F2. apply HT.
  - rewrite E6, F3. apply HT.
Qed.

Lemma obs_refines : exists d2, Observe o d = (specObserve c H sent o, d2) /\
  tracks c d2 (H ++ [o]) (match specObserve c H sent o with Some w => sent ++ [DedupKey w] | None => sent end).
Proof using HT Hord Hw Ht Ha.
  unfold Observe. pose proof Ha as Ha'. unfold accepted in Ha'. apply andb_true_iff in Ha' as [Hself Hempty].
  apply negb_true_iff in Hself, Hempty. rewrite Hself, Hempty. pose proof (tr_cfg _ _ _ _ HT) as Hcfg. cbn [cfg with_stats]. rewrite Hcfg.
  fold (ordinalOf c o). fold (keyOf c o). set (d0 := with_stats bumpObservations d).
  assert (exists d1, advanceTo (ordinalOf c o) d0 = d1 /\ windows d1 = windows (advanceTo (ordinalOf c o) d) /\ cfg d1 = cfg (advanceTo (ordinalOf c o) d) /\
    maxOrdinal d1 = maxOrdinal (advanceTo (ordinalOf c o) d) /\ seenOrdinal d1 = seenOrdinal (advanceTo (ordinalOf c o) d) /\
    warned d1 = warned (advanceTo (ordinalOf c o) d) /\ delivered d1 = delivered (advanceTo (ordinalOf c o) d)) as (d1 & -> & G1 & G2 & G3 & G4 & G5 & G6).
  { eexists. split; [done|]. unfold d0, advanceTo. cbn. destruct (seenOrdinal d && _); done. }
  destruct (step_window _ eq_refl) as (w & Ew & HF). rewrite <- G1 in Ew.
  assert (exists d3, (match windows d1 !! keyOf c o with None => (freshWindow (ordinalOf c o), d1) | Some w => (w, with_stats bumpRepeated d1) end) = (w, d3) /\
    windows d3 = windows d1 /\ cfg d3 = cfg d1 /\ maxOrdinal d3 = maxOrdinal d1 /\ seenOrdinal d3 = seenOrdinal d1 /\ warned d3 = warned d1 /\ delivered d3 = delivered d1)
    as (d3 & -> & J1 & J2 & J3 & J4 & J5 & J6).
  { destruct (windows d1 !! keyOf c o); subst; eexists; done. }
  rewrite J1. set (d4 := with_windows _ d3).
  assert (tracks c d4 (H ++ [o]) sent) as HT4 by (apply (step_tracks _ d4 w eq_refl HF); unfold d4; cbn; congruence).
  pose proof (windowFor_absorb _ _ _ o HF) as HA. pose proof HA as [_ Ho _ _ _ Hm _ _].
  assert (runOf c (H ++ [o]) (keyOf c o) = runOf c H (keyOf c o) ++ [o]) as Hrun.
  { rewrite runOf_snoc, Ha, bool_decide_eq_true_2 by done. done. }
  unfold specObserve, decide_. rewrite Hrun, Hm, Ho, Ha. pose proof (tr_cfg _ _ _ _ HT4) as Hc4. rewrite Hc4. cbn [andb].
  destruct (existsb moved _); cbn [negb andb]; [eexists; split; [done|apply tracks_stats; done]|].
  destruct (Z.of_nat _ <? MinRepeats c) eqn:E1.
  { rewrite (proj2 (Z.leb_gt (MinRepeats c) _)) by (bsolve; lia). cbn [andb]. eexists. split; done. }
  rewrite (proj2 (Z.leb_le (MinRepeats c) _)) by (bsolve; lia). cbn [andb]. pose proof (tr_warned _ _ _ _ HT4 (keyOf c o)) as Hwd.
  destruct (warned d4 !! keyOf c o) as [x|] eqn:Ex.
  { rewrite bool_decide_eq_true_2 by (apply Hwd; eauto). cbn. eexists. split; [done|apply tracks_stats; done]. }
  assert (keyOf c o ∉ sent) as Hni by (intros Hk; apply Hwd in Hk as [? ?]; done). rewrite bool_decide_eq_false_2 by done. cbn [negb andb].
  rewrite (tr_delivered _ _ _ _ HT4). destruct (MaxPerSession c <=? _) eqn:E2.
  { rewrite (proj2 (Z.ltb_ge _ (MaxPerSession c))) by (bsolve; lia). eexists. split; [done|apply tracks_stats; done]. }
  rewrite (proj2 (Z.ltb_lt _ (MaxPerSession c))) by (bsolve; lia). rewrite (render_run c _ _ o HA). eexists. split; [done|].
  destruct HT4 as [K1 K2 K3 K4 K5 K6 K7]. constructor; try done; cbn [warned delivered].
  - intros k. rewrite lookup_insert_is_Some', K6, elem_of_app, list_elem_of_singleton. cbn [DedupKey runWarning]. split; intros [?|?]; auto.
  - rewrite length_app. cbn. lia.
Qed.

End step.

(** Observations in turn order: no earlier counted observation has a later turn. *)
Fixpoint in_order (last : TurnIndex) (os : list Observation) : Prop :=
  match os with
  | [] => True
  | o :: os => if accepted o then last <= oTurn o < 2 ^ 63 /\ in_order (oTurn o) os else in_order last os
  end.

Lemma watch_refines c os : 0 < WindowTurns c -> forall d H sent last, tracks c d H sent -> 0 <= last ->
  (forall o, o ∈ H -> accepted o = true -> oTurn o <= last) -> in_order last os -> (watch os d).1 = specWatch c H sent os.
Proof.
  intros Hw. induction os as [|o os IH]; intros d H sent last HT H0 Hlast Hord; cbn [watch specWatch]; [done|].
  cbn [in_order] in Hord. destruct (accepted o) eqn:Ea.
  - destruct Hord as [Ho Hord]. destruct (obs_refines c Hw d H sent o HT Ea ltac:(lia)) as (d2 & Eo & HT2).
    { intros o' Ho' Ha'. specialize (Hlast o' Ho' Ha'). lia. }
    rewrite Eo. specialize (IH d2 _ _ (oTurn o) HT2 ltac:(lia)).
    destruct (watch os d2) as [rs d3] eqn:Er. cbn [fst] in IH |- *. f_equal. apply IH; [|done].
    intros o' [Ho'|Hx%list_elem_of_singleton]%elem_of_app Ha'; [specialize (Hlast o' Ho' Ha'); lia|subst; lia].
  - assert (exists d2, Observe o d = (None, d2) /\ tracks c d2 H sent) as (d2 & Eo & HT2).
    { unfold Observe. unfold accepted in Ea. destruct (SelfOriginated o || _); [eexists; split; [done|apply (tracks_stats _ _ _ _ bumpSelf), tracks_stats; done]|].
      cbn [negb andb] in Ea. apply negb_false_iff in Ea. rewrite Ea. eexists. split; [done|]. apply (tracks_stats _ _ _ _ bumpIgnored), tracks_stats. done. }
    assert (specObserve c H sent o = None) as Es by (unfold specObserve; rewrite Ea; done). rewrite Eo, Es.
    specialize (IH d2 _ _ last (tracks_skip _ _ _ _ o HT2 Ea) H0).
    destruct (watch os d2) as [rs d3] eqn:Er. cbn [fst] in IH |- *. f_equal. apply IH; [|done].
    intros o' [Ho'|Hx%list_elem_of_singleton]%elem_of_app Ha'; [auto|subst; congruence].
Qed.

(** In turn order the two windows kept answer as the windows of the whole history do. *)
Lemma detector_refines_windows c os : in_order 0 os ->
  (watch os (NewDetector c)).1 = specWatch (normalized c) [] [] os.
Proof.
  intros Hord. apply (watch_refines _ _) with (last := 0); [|constructor; cbn; try done|done| |done].
  - unfold normalized. cbn. destruct (WindowTurns c <=? 0) eqn:E; bsolve; [done|lia].
  - intros o Ho. apply elem_of_nil in Ho. done.
  - intros o Ho. apply elem_of_nil in Ho. done.
  - intros k. split; [intros [? ?]; done|]. intros Hk. apply elem_of_nil in Hk. done.
  - intros o Ho. apply elem_of_nil in Ho. done.
Qed.

(** *** Runs across the windows kept *)

(** The occurrences of the state of [o] up to [o] in its window and the one before, out of the whole history. *)
Definition recentRun (c : DetectorConfig) (H : list Observation) (o : Observation) : list Observation :=
  List.filter (fun o' => accepted o' && bool_decide (Key (oSignature o') = Key (oSignature o)) && (ordinalOf c o - 1 <=? ordinalOf c o') && (ordinalOf c o' <=? ordinalOf c o)) (H ++ [o]).

Definition recentObserve (c : DetectorConfig) (H : list Observation) (sent : list bytes) (o : Observation) : option StateWarning :=
  let r := recentRun c H o in
  if accepted o && negb (existsb moved r) && (MinRepeats c <=? Z.of_nat (length r)) &&
     negb (bool_decide (keyOf c o ∈ sent)) && (Z.of_nat (length sent) <? MaxPerSession c)
  then Some (runWarning c r o) else None.

Fixpoint recentWatch (c : DetectorConfig) (H : list Observation) (sent : list bytes) (os : list Observation) : list (option StateWarning) :=
  match os with
  | [] => []
  | o :: os =>
      let r := recentObserve c H sent o in
      r :: recentWatch c (H ++ [o]) (match r with Some w => sent ++ [DedupKey w] | None => sent end) os
  end.

(** No state is observed in two adjacent windows. *)
Definition uncrossed (c : DetectorConfig) (os : list Observation) : Prop := forall o o', o ∈ os -> o' ∈ os -> accepted o = true -> accepted o' = true ->
  Key (oSignature o) = Key (oSignature o') -> ordinalOf c o' <> ordinalOf c o - 1.

Lemma recent_run c H o : uncrossed c (H ++ [o]) -> accepted o = true -> recentRun c H o = runOf c (H ++ [o]) (keyOf c o).
Proof.
  intros Hu Ha. unfold recentRun, runOf. assert (o ∈ H ++ [o]) as Ho by (apply elem_of_app; right; left). apply filter_ext_in. intros o' Ho'%list_elem_of_In.
  destruct (accepted o') eqn:Ea; cbn [andb]; [|done]. apply eq_true_iff_eq. rewrite !andb_true_iff, !bool_decide_eq_true, !Z.leb_le. split.
  - intros [[Hk H1] H2]. specialize (Hu o o' Ho Ho' Ha Ea (eq_sym Hk)). unfold keyOf. rewrite Hk. f_equal. lia.
  - intros [Hk He]%dedupKey_inj. split; [split; [done|]|]; unfold ordinalOf in *; lia.
Qed.

Lemma recent_watch c os : forall H sent, uncrossed c (H ++ os) -> recentWatch c H sent os = specWatch c H sent os.
Proof.
  induction os as [|o os IH]; intros H sent Hu; [done|]. cbn [recentWatch specWatch].
  assert (recentObserve c H sent o = specObserve c H sent o) as ->.
  { unfold recentObserve, specObserve. destruct (accepted o) eqn:Ea; [|done]. rewrite recent_run; [done| |done]. intros a b Ha Hb. apply Hu; set_solver. }
  f_equal. apply IH. by rewrite <- app_assoc.
Qed.

(** C6: for every configuration and every sequence of observations whose counted members arrive in turn order and in which no
    state is observed in two adjacent windows, the detector, which keeps two windows and prunes the rest, warns at exactly
    the observations, with exactly the warnings, that the whole history calls for: the occurrences of the state in the
    current window and the one before are at least [MinRepeats], no progress was observed in them, the window was not yet warned
    about, and fewer than [MaxPerSession] warnings were given; uncertain when any of those observations was.  (A state observed on
    both sides of a boundary is [boundary_splits_run].) *)
Theorem detector_refines_history c os : in_order 0 os -> uncrossed (normalized c) os ->
  (watch os (NewDetector c)).1 = recentWatch (normalized c) [] [] os.
Proof. intros Ho Hu. rewrite recent_watch by done. by apply detector_refines_windows. Qed.

(** ** Any calls in any order *)

Inductive wop : Type :=
  | WObserve (o : Observation)
  | WDeliver (w : StateWarning) (at_ : TurnIndex)
  | WOutcome (key : bytes) (o : Outcome).

(** The warnings produced along the way. *)
Fixpoint runW (ops : list wop) (d : Detector) : list StateWarning * Detector :=
  match ops with
  | [] => ([], d)
  | WObserve o :: ops =>
      let '(r, d) := Observe o d in
      let '(ws, d) := runW ops d in ((match r with Some w => [w] | None => [] end) ++ ws, d)
  | WDeliver w t :: ops => runW ops (Deliverable w t d).2
  | WOutcome k o :: ops => runW ops (RecordOutcome k o d).2
  end.

Definition observes (ops : list wop) : list wop := List.filter (fun op => match op with WObserve _ => true | _ => false end) ops.

(** Detectors that differ in their counters and in what their warnings turned out to be worth. *)
Record alike (d d' : Detector) : Prop := {
  al_cfg : cfg d' = cfg d;
  al_windows : windows d' = windows d;
  al_warned : dom (warned d') = dom (warned d);
  al_max : maxOrdinal d' = maxOrdinal d;
  al_seen : seenOrdinal d' = seenOrdinal d;
  al_delivered : delivered d' = delivered d }.

Lemma alike_refl d : alike d d.
Proof. constructor; done. Qed.

Lemma alike_trans d1 d2 d3 : alike d1 d2 -> alike d2 d3 -> alike d1 d3.
Proof. intros [] []. constructor; congruence. Qed.

Lemma alike_stats f f' d d' : alike d d' -> alike (with_stats f d) (with_stats f' d').
Proof. intros []. constructor; done. Qed.

Lemma decide_alike sig w k t d d' : alike d d' -> (decide_ sig w k t d').1 = (decide_ sig w k t d).1 /\ alike (decide_ sig w k t d).2 (decide_ sig w k t d').2.
Proof.
  intros HA. pose proof HA as [H1 H2 H3 H4 H5 H6]. unfold decide_. rewrite H1, H6.
  destruct (progressObserved w); [split; [done|apply alike_stats; done]|]. destruct (occurrences w <? _); [done|].
  assert (is_Some (warned d' !! k) <-> is_Some (warned d !! k)) as Hk by (rewrite <- !elem_of_dom, H3; done).
  destruct (warned d' !! k) as [x|], (warned d !! k) as [y|];
    [split; [done|apply alike_stats; done]|destruct Hk as [Hk _]; destruct (Hk ltac:(eauto)); done|destruct Hk as [_ Hk]; destruct (Hk ltac:(eauto)); done|].
  destruct (_ <=? delivered d); [split; [done|apply alike_stats; done]|]. split; [done|].
  constructor; cbn; [done|done|rewrite !dom_insert_L, H3; done|done|done|lia].
Qed.

Lemma Observe_alike o d d' : alike d d' -> (Observe o d').1 = (Observe o d).1 /\ alike (Observe o d).2 (Observe o d').2.
Proof.
  intros HA. pose proof HA as [H1 H2 H3 H4 H5 H6]. unfold Observe. destruct (SelfOriginated o || _); [split; [done|do 2 apply alike_stats; done]|].
  case_bool_decide; [split; [done|do 2 apply alike_stats; done]|]. cbn [cfg with_stats]. rewrite H1.
  set (ord := windowOrdinal _ _). set (k := dedupKeyFor _ _).
  assert (alike (advanceTo ord (with_stats bumpObservations d)) (advanceTo ord (with_stats bumpObservations d'))) as HA1.
  { unfold advanceTo. cbn. rewrite H5, H4. destruct (_ && _); [apply alike_stats; done|]. constructor; cbn; try done. rewrite H2. done. }
  set (d1 := advanceTo _ _) in *. set (d1' := advanceTo _ (with_stats _ d')) in *. rewrite (al_windows _ _ HA1).
  destruct (windows d1 !! k) as [w|]; apply decide_alike; pose proof HA1 as [G1 G2 G3 G4 G5 G6]; constructor; cbn; congruence.
Qed.

(** Feedback is counted, never consulted. *)
Lemma feedback_alike d : (forall w t, alike d (Deliverable w t d).2) /\ (forall k o, alike d (RecordOutcome k o d).2).
Proof.
  split.
  - intros w t. unfold Deliverable. destruct (_ <? _); [constructor; done|apply alike_refl].
  - intros k o. unfold RecordOutcome. destruct (warned d !! k) as [[]|] eqn:E; try apply alike_refl. case_bool_decide; [apply alike_refl|].
    constructor; try done. cbn. rewrite dom_insert_L. assert (k ∈ dom (warned d)) by (apply elem_of_dom; eauto). set_solver.
Qed.

Lemma runW_alike ops : forall d d', alike d d' -> (runW ops d').1 = (runW (observes ops) d).1.
Proof.
  induction ops as [|[o|w t|k o] ops IH]; intros d d' HA; cbn [runW observes List.filter]; [done| | |].
  - destruct (Observe_alike o d d' HA) as [H1 H2]. fold (observes ops). destruct (Observe o d) as [r d1], (Observe o d') as [r' d1']. cbn [fst snd] in *. subst r'.
    specialize (IH d1 d1' H2). destruct (runW ops d1') as [ws e], (runW (observes ops) d1) as [ws' e']. cbn [fst] in *. congruence.
  - apply IH. eapply alike_trans; [exact HA|apply feedback_alike].
  - apply IH. eapply alike_trans; [exact HA|apply feedback_alike].
Qed.

(** Outcomes never change what is said.  Whatever deliveries are attempted and whatever outcomes are recorded
    in between, the warnings a detector produces are those its observations alone produce. *)
Theorem outcomes_never_decide ops c : (runW ops (NewDetector c)).1 = (runW (observes ops) (NewDetector c)).1.
Proof. apply runW_alike, alike_refl. Qed.

(** The windows of any run: distinct turns, all of one window, no more than the occurrences. *)
Definition wide_windows (c : DetectorConfig) (ws : gmap bytes stateWindow) : Prop := forall k w, ws !! k = Some w ->
  NoDup (turns w) /\ (forall t, t ∈ turns w -> t / WindowTurns c = ordinal w) /\ Z.of_nat (length (turns w)) <= occurrences w /\
  exists s, k = dedupKeyFor (Key s) (ordinal w).

(** What every warning satisfies. *)
Record proper (c : DetectorConfig) (w : StateWarning) : Prop := {
  pr_repeats : MinRepeats c <= Repeats w;
  pr_turns : StronglySorted Z.lt (Turns w);
  pr_count : Z.of_nat (length (Turns w)) <= Z.min (WindowTurns c) (Repeats w);
  pr_window : exists ord, DedupKey w = dedupKeyFor (Key (Signature w)) ord /\ forall t, t ∈ Turns w -> t / WindowTurns c = ord;
  pr_origin : IsSelfOriginated (Signature w) = false /\ Signature w <> emptySignature;
  pr_text : elems (Expansion (wRule (sWarning w))) <> [] }.

(** [m] observations, of which at most [n] have been attributed to a bound or a delivery. *)
Definition accounted (m n : Z) (s : DetectorStats) : Prop :=
  Observations s = m /\ 0 <= RepeatedStates s <= m /\ 0 <= SelfSuppressed s /\ 0 <= Ignored s /\ 0 <= ProgressSuppressed s /\ 0 <= Deduplicated s /\
  0 <= CapSuppressed s /\ 0 <= Delivered s /\
  SelfSuppressed s + Ignored s + ProgressSuppressed s + Deduplicated s + CapSuppressed s + Delivered s <= n.

Definition judged (o : Outcome) (m : gmap bytes Outcome) : Z := Z.of_nat (size (filter (fun kv => kv.2 = o) m)).

Record bounded (c : DetectorConfig) (m n : Z) (ws : list StateWarning) (d : Detector) : Prop := {
  bo_cfg : cfg d = c;
  bo_windows : wide_windows c (windows d);
  bo_warned : dom (warned d) = list_to_set (DedupKey <$> ws);
  bo_nodup : NoDup (DedupKey <$> ws);
  bo_delivered : delivered d = Z.of_nat (length ws) /\ Delivered (stats d) = delivered d;
  bo_cap : delivered d <= Z.max 0 (MaxPerSession c);
  bo_stats : accounted m n (stats d);
  bo_judged : Useful (stats d) = judged OutcomeUseful (warned d) /\ FalseAlarms (stats d) = judged OutcomeFalseAlarm (warned d);
  bo_proper : Forall (proper c) ws }.

Lemma window_bound W (l : list Z) ord : 0 < W -> NoDup l -> (forall t, t ∈ l -> t / W = ord) -> Z.of_nat (length l) <= W.
Proof.
  intros HW HN Hl. assert (length l <= length (seqZ (ord * W) W))%nat as H; [|rewrite length_seqZ in H; lia].
  apply NoDup_incl_length; [apply NoDup_ListNoDup; done|]. intros t Ht. apply list_elem_of_In in Ht. apply list_elem_of_In, elem_of_seqZ.
  specialize (Hl t Ht). pose proof (Z.div_mod t W). pose proof (Z.mod_pos_bound t W HW). nia.
Qed.

Lemma sorted_turns l : NoDup l -> StronglySorted Z.lt (merge_sort Z.le l).
Proof.
  intros HN. assert (StronglySorted Z.le (merge_sort Z.le l)) as HS.
  { apply Sorted_StronglySorted; [intros a b c; lia|]. apply Sorted_merge_sort. intros a b. lia. }
  assert (NoDup (merge_sort Z.le l)) as HN' by (rewrite merge_sort_Permutation; done).
  induction HS as [|x m HS IH HF]; [constructor|]. apply NoDup_cons in HN' as [Hx HN']. constructor; [auto|].
  rewrite Forall_forall in *. intros y Hy. specialize (HF y Hy). assert (x <> y) by (intros ->; done). lia.
Qed.

Lemma expansion_nonempty sig syms : sig <> emptySignature -> elems (stateExpansion sig syms) <> [].
Proof.
  intros Hs. unfold stateExpansion. destruct syms as [|x syms]; [|done].
  destruct (List.find _ _) as [f|] eqn:Ef; [done|]. exfalso. apply Hs. destruct sig as [g t a f]. unfold emptySignature.
  assert (forall x, x ∈ [a; t; g; f] -> x = []) as Hall.
  { intros x Hx. apply list_elem_of_In in Hx. pose proof (find_none _ _ Ef x Hx) as Hn. cbn beta in Hn. apply negb_false_iff, bool_decide_eq_true in Hn. done. }
  rewrite (Hall g), (Hall t), (Hall a), (Hall f) by set_solver. done.
Qed.

Lemma bounded_stats c m n m' n' ws d f : bounded c m n ws d -> accounted m' n' (f (stats d)) -> Delivered (f (stats d)) = Delivered (stats d) ->
  Useful (f (stats d)) = Useful (stats d) -> FalseAlarms (f (stats d)) = FalseAlarms (stats d) -> bounded c m' n' ws (with_stats f d).
Proof. intros [] Ha Hd Hu Hf. constructor; cbn; try done; [rewrite Hd; done|rewrite Hu, Hf; done]. Qed.

(** Close an accounting goal on one bumped counter. *)
Ltac tally := unfold accounted in *; cbn in *; lia.

Lemma absorb_wide c o w s : 0 < WindowTurns c -> ordinal w = ordinalOf c o -> NoDup (turns w) -> (forall t, t ∈ turns w -> t / WindowTurns c = ordinal w) ->
  Z.of_nat (length (turns w)) <= occurrences w -> wide_windows c {[dedupKeyFor (Key s) (ordinalOf c o) := absorb o w]}.
Proof.
  intros HW Ho HN Ht Hl k w' [<- <-]%lookup_singleton_Some. cbn [absorb turns ordinal occurrences].
  split; [|split; [|split; [|exists s; rewrite Ho; done]]]; case_bool_decide as Hin; try done.
  - apply NoDup_app. split; [done|]. split; [|apply NoDup_singleton]. intros t H1 ->%list_elem_of_singleton. done.
  - intros t [H1|H1%list_elem_of_singleton]%elem_of_app; [auto|]. subst t. rewrite Ho. unfold ordinalOf. rewrite windowOrdinal_floor by done. done.
  - lia.
  - rewrite length_app. cbn. lia.
Qed.

Lemma judged_insert o k m : m !! k = None -> o <> OutcomeUnknown -> judged o (<[k := OutcomeUnknown]> m) = judged o m.
Proof.
  intros Hk Ho. unfold judged. rewrite map_filter_insert_False by (cbn; congruence). rewrite delete_id by done. done.
Qed.

Lemma decide_bounded c m n ws d o w : 0 < WindowTurns c -> IsSelfOriginated (oSignature o) = false -> oSignature o <> emptySignature ->
  bounded c m n ws d -> wide_windows c {[keyOf c o := w]} -> ordinal w = ordinalOf c o ->
  exists r d', decide_ (oSignature o) w (keyOf c o) (oTurn o) d = (r, d') /\
    bounded c m (n + 1) (ws ++ match r with Some x => [x] | None => [] end) d'.
Proof.
  intros HW Hself Hne HB Hwide Hord. pose proof HB as [B1 B2 B3 B4 [B5 B5'] B6 B7 [B8 B8'] B9]. unfold decide_. rewrite B1.
  destruct (progressObserved w).
  { eexists _, _. split; [done|]. rewrite app_nil_r. eapply bounded_stats; [exact HB|tally|done|done|done]. }
  destruct (occurrences w <? MinRepeats c) eqn:E1.
  { eexists _, _. split; [done|]. rewrite app_nil_r. constructor; try done. tally. }
  destruct (warned d !! keyOf c o) as [x|] eqn:Ex.
  { eexists _, _. split; [done|]. rewrite app_nil_r. eapply bounded_stats; [exact HB|tally|done|done|done]. }
  destruct (MaxPerSession c <=? delivered d) eqn:E2.
  { eexists _, _. split; [done|]. rewrite app_nil_r. eapply bounded_stats; [exact HB|tally|done|done|done]. }
  bsolve. eexists _, _. split; [done|]. set (x := render c _ _ _ _). assert (DedupKey x = keyOf c o) as Hx by done.
  assert (keyOf c o ∉ DedupKey <$> ws) as Hni.
  { intros Hin. assert (keyOf c o ∈ dom (warned d)) as Hd by (rewrite B3; apply elem_of_list_to_set; done). apply elem_of_dom in Hd as [? ?]. congruence. }
  destruct (Hwide _ w (lookup_singleton_eq _ _)) as (W1 & W2 & W3 & _).
  constructor; cbn [cfg windows warned delivered stats]; try done.
  - rewrite dom_insert_L, fmap_app, list_to_set_app_L, B3. cbn [fmap list_fmap list_to_set]. rewrite Hx. set_solver +.
  - rewrite fmap_app. apply NoDup_app. split; [done|]. split; [|apply NoDup_singleton]. intros k Hk. cbn [fmap list_fmap]. rewrite Hx, list_elem_of_singleton. congruence.
  - rewrite length_app. cbn. lia.
  - lia.
  - tally.
  - cbn. rewrite !judged_insert by done. done.
  - apply Forall_app. split; [done|]. constructor; [|constructor]. constructor; cbn [Repeats Turns DedupKey Signature sWarning wRule Expansion x render].
    + lia.
    + apply sorted_turns. done.
    + rewrite (Permutation_length (merge_sort_Permutation Z.le _)). pose proof (window_bound _ _ _ HW W1 W2). lia.
    + exists (ordinalOf c o). split; [done|]. intros t. rewrite merge_sort_Permutation, <- Hord. apply W2.
    + done.
    + apply expansion_nonempty. done.
Qed.

Lemma observe_bounded c m ws d o : 0 < WindowTurns c -> bounded c m m ws d -> exists r d', Observe o d = (r, d') /\
  bounded c (m + 1) (m + 1) (ws ++ match r with Some x => [x] | None => [] end) d'.
Proof.
  intros HW HB. pose proof HB as [B1 B2 B3 B4 [B5 B5'] B6 B7 [B8 B8'] B9]. unfold Observe.
  assert (bounded c (m + 1) m ws (with_stats bumpObservations d)) as HB0 by (eapply bounded_stats; [exact HB|tally|done|done|done]).
  set (d0 := with_stats bumpObservations d) in *.
  destruct (SelfOriginated o || IsSelfOriginated (oSignature o)) eqn:Es.
  { eexists _, _. split; [done|]. rewrite app_nil_r. eapply bounded_stats; [exact HB0|clear HB; pose proof (bo_stats _ _ _ _ _ HB0); tally|done|done|done]. }
  apply orb_false_iff in Es as [_ Es]. case_bool_decide as He.
  { eexists _, _. split; [done|]. rewrite app_nil_r. eapply bounded_stats; [exact HB0|pose proof (bo_stats _ _ _ _ _ HB0); tally|done|done|done]. }
  rewrite (bo_cfg _ _ _ _ _ HB0). fold (ordinalOf c o). fold (keyOf c o).
  assert (bounded c (m + 1) m ws (advanceTo (ordinalOf c o) d0)) as HB1.
  { unfold advanceTo. destruct (_ && _); [done|]. destruct HB0. constructor; try done. cbn.
    intros k w Hk. apply map_lookup_filter_Some in Hk as [Hk _]. apply bo_windows0. done. }
  assert (stats (advanceTo (ordinalOf c o) d0) = bumpObservations (stats d)) as Est by (unfold advanceTo; destruct (_ && _); done).
  set (d1 := advanceTo _ _) in *.
  assert (exists w d2, match windows d1 !! keyOf c o with None => (freshWindow (ordinalOf c o), d1) | Some w => (w, with_stats bumpRepeated d1) end = (w, d2) /\
    ordinal w = ordinalOf c o /\ wide_windows c {[keyOf c o := absorb o w]} /\ bounded c (m + 1) m ws d2) as (w & d2 & -> & Ho & Hwide & HB2).
  { destruct (windows d1 !! keyOf c o) as [w|] eqn:Ew.
    - destruct (bo_windows _ _ _ _ _ HB1 _ _ Ew) as (W1 & W2 & W3 & s & Ek). eexists _, _. split; [done|].
      assert (ordinal w = ordinalOf c o) as Ho by (symmetry; apply (dedupKey_inj _ _ _ _ Ek)). split; [done|].
      split; [apply absorb_wide; done|]. eapply bounded_stats; [exact HB1|rewrite Est; tally|done|done|done].
    - eexists _, _. split; [done|]. split; [done|]. split; [|done]. apply absorb_wide; try done; [constructor|]. intros t Ht. apply elem_of_nil in Ht. done. }
  apply (decide_bounded c (m + 1) m ws); try done. destruct HB2. constructor; try done. cbn.
  intros k w' [[<- <-]|[_ Hk]]%lookup_insert_Some; [apply Hwide, lookup_singleton_eq|]. apply bo_windows0. done.
Qed.

Lemma outcome_bounded c m ws d k o : bounded c m m ws d -> bounded c m m ws (RecordOutcome k o d).2.
Proof.
  intros HB. pose proof HB as [B1 B2 B3 B4 [B5 B5'] B6 B7 [B8 B8'] B9]. unfold RecordOutcome.
  destruct (warned d !! k) as [[]|] eqn:E; try done. case_bool_decide as Ho; [done|]. cbn [snd].
  assert (forall o', o' <> OutcomeUnknown -> judged o' (<[k := o]> (warned d)) = judged o' (warned d) + (if decide (o = o') then 1 else 0)) as Hj.
  { intros o' Ho'. unfold judged. destruct (decide (o = o')) as [->|Hne].
    - rewrite map_filter_insert_True by done. rewrite map_size_insert_None; [lia|]. apply map_lookup_filter_None. right. intros x Hx. cbn. congruence.
    - rewrite map_filter_insert_False by done. rewrite map_filter_delete, delete_id; [lia|]. apply map_lookup_filter_None. right. intros x Hx. cbn. congruence. }
  constructor; cbn [cfg windows warned delivered stats]; try done.
  - rewrite dom_insert_L, B3. assert (k ∈ dom (warned d)) as Hk by (apply elem_of_dom; eauto). rewrite B3 in Hk. set_solver +Hk.
  - destruct o; done.
  - destruct o; tally.
  - rewrite !Hj by done. destruct o; cbn; repeat case_decide; try done; lia.
Qed.

Lemma runW_bounded c ops : 0 < WindowTurns c -> forall m ws d, bounded c m m ws d ->
  bounded c (m + Z.of_nat (length (observes ops))) (m + Z.of_nat (length (observes ops))) (ws ++ (runW ops d).1) (runW ops d).2.
Proof.
  intros HW. induction ops as [|[o|w t|k o] ops IH]; intros m ws d HB; cbn [runW observes List.filter].
  - cbn. rewrite app_nil_r, Z.add_0_r. done.
  - fold (observes ops). destruct (observe_bounded c m ws d o HW HB) as (r & d' & -> & HB'). specialize (IH _ _ _ HB').
    destruct (runW ops d') as [xs d2]. cbn [fst snd length] in *. rewrite <- app_assoc in IH.
    replace (m + Z.of_nat (S (length (observes ops)))) with (m + 1 + Z.of_nat (length (observes ops))) by lia. done.
  - apply IH. unfold Deliverable. destruct (_ <? _); [|done]. pose proof (bo_stats _ _ _ _ _ HB). eapply bounded_stats; [exact HB|tally|done|done|done].
  - apply IH, outcome_bounded. done.
Qed.

(** The bounds hold whatever is called, in whatever order.  Over any calls on a new detector: at most
    [MaxPerSession] warnings, no two with the same dedup key; every warning names [MinRepeats] occurrences at
    least, on ascending turns of one window, no more of them than the window is wide, of a signature that is not
    the plugin's own and not empty, with something to render; judged outcomes never exceed deliveries, and every
    observation is charged to one suppression or delivery at most. *)
Theorem detector_bounds c ops : let '(ws, d) := runW ops (NewDetector c) in
  Z.of_nat (length ws) <= Z.max 0 (MaxPerSession (normalized c)) /\ NoDup (DedupKey <$> ws) /\ Forall (proper (normalized c)) ws /\
  Delivered (stats d) = Z.of_nat (length ws) /\ Useful (stats d) + FalseAlarms (stats d) <= Delivered (stats d) /\
  accounted (Z.of_nat (length (observes ops))) (Z.of_nat (length (observes ops))) (stats d).
Proof.
  assert (bounded (normalized c) 0 0 [] (NewDetector c)) as HB.
  { constructor; try done; try constructor; cbn; lia. }
  assert (0 < WindowTurns (normalized c)) as HW by (cbn; destruct (WindowTurns c <=? 0) eqn:E; bsolve; [done|lia]).
  pose proof (runW_bounded _ ops HW 0 [] _ HB) as H. destruct (runW ops (NewDetector c)) as [ws d]. cbn [fst snd app] in H.
  destruct H as [B1 B2 B3 B4 [B5 B5'] B6 B7 [B8 B8'] B9]. split; [lia|]. split; [done|]. split; [done|]. split; [lia|]. split; [|done].
  rewrite B8, B8', B5', B5. unfold judged. rewrite <- (length_fmap DedupKey ws), <- (size_list_to_set (C := gset bytes)), <- B3, size_dom by done.
  set (A := filter _ (warned d)). set (A' := filter (fun kv => kv.2 = OutcomeFalseAlarm) (warned d)).
  assert (A ##ₘ A') as Hdis.
  { apply map_disjoint_spec. intros k x y Hx Hy. apply map_lookup_filter_Some in Hx as [Hx E1], Hy as [Hy E2]. cbn in *. congruence. }
  assert (A ∪ A' ⊆ warned d) as Hsub.
  { apply map_union_least; apply map_filter_subseteq. }
  apply map_subseteq_size in Hsub. rewrite map_size_disj_union in Hsub by done. lia.
Qed.

(** The comment at [retainedWindows] says that an observation just after a window boundary still joins the run it
    belongs to.  It does not: the same state at turns 18 to 21 of the default configuration is two runs of two, and
    nothing is said, where at turns 16 to 19, inside one window, it is reported. *)
Lemma boundary_splits_run :
  let o t := WObserve (mkObservation (mkSignature (str "fix") (str "a.go") (str "Bash") (str "E1")) t ProgressNone false false []) in
  length (runW [o 18; o 19; o 20; o 21] (NewDetector DefaultDetectorConfig)).1 = 0%nat /\
  length (runW [o 16; o 17; o 18; o 19] (NewDetector DefaultDetectorConfig)).1 = 1%nat.
Proof. vm_compute. done. Qed.

(** ** Witnesses *)

Definition demo_obs (t : TurnIndex) (p : Progress) : Observation :=
  mkObservation (mkSignature (str "fix") (str "a.go") (str "Bash") (str "E1")) t p false false [].

Definition demo_run : list Observation := [demo_obs 3 ProgressNone; demo_obs 4 ProgressUnknown; demo_obs 4 ProgressNone; demo_obs 45 ProgressObserved].

Lemma demo_uncrossed : uncrossed (normalized DefaultDetectorConfig) demo_run.
Proof.
  assert (Forall (fun o => ordinalOf (normalized DefaultDetectorConfig) o = 0 \/ ordinalOf (normalized DefaultDetectorConfig) o = 2) demo_run) as H
    by (repeat constructor; vm_compute; tauto).
  rewrite Forall_forall in H. intros o o' Ho Ho' _ _ _. destruct (H o Ho), (H o' Ho'); lia.
Qed.

Lemma detector_refines_history_witness : (watch demo_run (NewDetector DefaultDetectorConfig)).1 = recentWatch (normalized DefaultDetectorConfig) [] [] demo_run.
Proof. apply detector_refines_history; [vm_compute; repeat split; discriminate|exact demo_uncrossed]. Defined.

Lemma warning_never_feeds_back_witness :
  let w := mkWarning (mkRule 0 None 0 (Some [str "Bash"]) 0) 3 messageRepeatedState [3; 4] in
  let o := mkObservation (mkSignature (str "stuck: " ++ FormatWarning w ++ str " (quoted)") [] (str "Bash") []) 5 ProgressNone false false [] in
  Observe o (NewDetector DefaultDetectorConfig) = (None, with_stats (fun s => bumpSelf (bumpObservations s)) (NewDetector DefaultDetectorConfig)).
Proof.
  intros w o. apply (warning_never_feeds_back w (str "stuck: ") (str " (quoted)")). eexists. split; [left|reflexivity].
Defined.
