(* ===== verification/F64Ops.v ===== *)
(** * float64 arithmetic and order

    Sums, differences and products of [float64] values, as the Standard Library's IEEE 754
    operations on bit patterns (one rounding per operation, as on targets that do not fuse a
    multiplication with an addition), and the order of the finite values, which are integer
    multiples of [2^-1074]. *)

From S2P Require Import Prelude GoLib F32.
From Stdlib Require Import SpecFloat.

Module Float.

Definition add (v w : Z) : Z := F64.of_sf (SFadd 53 1024 (F64.to_sf v) (F64.to_sf w)).
Definition sub (v w : Z) : Z := F64.of_sf (SFsub 53 1024 (F64.to_sf v) (F64.to_sf w)).
Definition mul (v w : Z) : Z := F64.of_sf (SFmul 53 1024 (F64.to_sf v) (F64.to_sf w)).

(** [v != w], which holds of a NaN and anything. *)
Definition ne (v w : Z) : bool := match F64.cmp v w with Some Eq => false | _ => true end.
Definition le (v w : Z) : bool := match F64.cmp v w with Some (Lt | Eq) => true | _ => false end.

(** [-v]. *)
Definition opp (v : Z) : Z := Z.lxor v (2 ^ 63).

Definition zero : Z := 0.
Definition one : Z := F64.of_int 1.

(** A decimal constant: the nearest float to [p / 10^k]. *)
Definition decimal (p k : Z) : Z := F64.div (F64.of_int p) (F64.of_int (10 ^ k)).

(** Sums and products whose rounding shows: 0.1 + 0.2, 0.3 - 0.2, 0.1 * 3, and an overflow. *)
Example arith_vectors :
  (add (decimal 1 1) (decimal 2 1), sub (decimal 3 1) (decimal 2 1), mul (decimal 1 1) (F64.of_int 3),
   mul 0x7fefffffffffffff (F64.of_int 2), sub one one, add (opp one) zero)
  = (0x3fd3333333333334, 0x3fb9999999999998, 0x3fd3333333333334,
     0x7ff0000000000000, 0, 0xbff0000000000000).
Proof. vm_compute. reflexivity. Qed.

(** [float64(x)] of a [float32], which is exact. *)
Definition of_f32 (x : f32) : Z :=
  match x with
  | NaN => F64.of_sf S754_nan
  | Inf s => F64.of_sf (S754_infinity s)
  | Fin s v => F64.of_sf (binary_normalize 53 1024 (F32.signed s v) (-149) s)
  end.

Example of_f32_vectors :
  (of_f32 (F32.of_ratio 85 100), of_f32 F32.one, of_f32 (Fin false 1), of_f32 (Fin true 0))
  = (0x3feb333340000000, one, 0x36a0000000000000, 0x8000000000000000).
Proof. vm_compute. reflexivity. Qed.

(** ** The finite values *)

(** The value of a finite float in units of [2^-1074]; zero for the others. *)
Definition units (v : Z) : Z :=
  match F64.classify v with F64.Fin s m e => F64.scaled s m e | _ => 0 end.

Definition finite (v : Z) : Prop :=
  match F64.classify v with F64.Fin _ _ _ => True | _ => False end.

#[global] Instance finite_dec v : Decision (finite v).
Proof. unfold finite. destruct (F64.classify v); apply _. Defined.

Lemma finite_cmp v w : finite v -> finite w -> F64.cmp v w = Some (Z.compare (units v) (units w)).
Proof. unfold finite, F64.cmp, units. by destruct (F64.classify v), (F64.classify w). Qed.

Lemma finite_ne v w : finite v -> finite w -> ne v w = negb (units v =? units w).
Proof.
  intros Hv Hw. unfold ne. rewrite finite_cmp by done. destruct (Z.compare_spec (units v) (units w)) as [->|H|H].
  - by rewrite Z.eqb_refl.
  - symmetry. apply negb_true_iff, Z.eqb_neq. lia.
  - symmetry. apply negb_true_iff, Z.eqb_neq. lia.
Qed.

Lemma finite_gt v w : finite v -> finite w -> F64.gt v w = (units w <? units v).
Proof.
  intros Hv Hw. unfold F64.gt. rewrite finite_cmp by done.
  destruct (Z.compare_spec (units v) (units w)); symmetry; [apply Z.ltb_ge|apply Z.ltb_ge|apply Z.ltb_lt]; lia.
Qed.

Lemma finite_le v w : finite v -> finite w -> le v w = (units v <=? units w).
Proof.
  intros Hv Hw. unfold le. rewrite finite_cmp by done.
  destruct (Z.compare_spec (units v) (units w)); symmetry; [apply Z.leb_le|apply Z.leb_le|apply Z.leb_gt]; lia.
Qed.

End Float.
