(* ===== verification/GoSort.v ===== *)
(** * sort.SliceStable

    A stable sort by a [less] function, as the insertion sort the Go standard library runs on slices
    of up to twenty elements: an element moves left while it is less than its left neighbour.  On
    longer slices the library merges sorted blocks of twenty; for a strict weak order there is only
    one stable arrangement, so the result is the same. *)

From S2P Require Import Prelude GoLib Core Frame.

Section Sort.
Context {A : Type} (less : A -> A -> bool).

(** One insertion into the sorted prefix, held with its last element first. *)
Fixpoint insert_back (x : A) (l : list A) : list A :=
  match l with
  | [] => [x]
  | y :: l' => if less x y then y :: insert_back x l' else x :: l
  end.

Definition stable_sort (l : list A) : list A := reverse (fold_left (fun acc x => insert_back x acc) l []).

Lemma insert_back_perm x l : insert_back x l ≡ₚ x :: l.
Proof.
  induction l as [|y l IH]; cbn; [done|]. destruct (less x y); [|done]. rewrite IH. apply Permutation_swap.
Qed.

Lemma stable_sort_perm l : stable_sort l ≡ₚ l.
Proof.
  unfold stable_sort. rewrite reverse_Permutation.
  assert (forall acc, fold_left (fun acc x => insert_back x acc) l acc ≡ₚ l ++ acc) as H.
  { induction l as [|x l IH]; intros acc; cbn; [done|]. rewrite IH, insert_back_perm. symmetry. apply Permutation_middle. }
  by rewrite H, app_nil_r.
Qed.

(** A list in order already stays as it is. *)
Lemma stable_sort_id l : StronglySorted (fun x y => less y x = false) l -> stable_sort l = l.
Proof.
  intros Hs. unfold stable_sort.
  assert (forall acc, (forall x y, x ∈ l -> head acc = Some y -> less x y = false) ->
    fold_left (fun acc x => insert_back x acc) l acc = reverse l ++ acc) as H.
  { induction Hs as [|x l Hs IH Hf]; intros acc Ha; cbn [fold_left]; [done|].
    assert (insert_back x acc = x :: acc) as -> by (destruct acc as [|y acc]; cbn; [done|]; by rewrite (Ha x y) by (by left || done)).
    rewrite IH, reverse_cons, <- app_assoc; [done|]. intros z y Hz [= <-]. rewrite Forall_forall in Hf. by apply Hf. }
  rewrite H by (intros; done). by rewrite app_nil_r, reverse_involutive.
Qed.

(** For a comparison that is the strict part of a total preorder the result is sorted. *)
Context (le : A -> A -> Prop).
Context (le_trans : forall x y z, le x y -> le y z -> le x z).
Context (less_le : forall x y, less x y = true -> le x y) (not_less_le : forall x y, less x y = false -> le y x).

Lemma insert_back_sorted x l : StronglySorted (flip le) l -> StronglySorted (flip le) (insert_back x l).
Proof.
  induction 1 as [|y l Hs IH Hf]; cbn; [by repeat constructor|]. destruct (less x y) eqn:E.
  - constructor; [done|]. rewrite insert_back_perm. constructor; [by apply less_le|done].
  - constructor; [by constructor|]. apply not_less_le in E. constructor; [done|].
    eapply Forall_impl; [done|]. intros z Hz. unfold flip in *. eauto.
Qed.

Lemma StronglySorted_snoc (R : A -> A -> Prop) l x :
  StronglySorted R l -> Forall (fun y => R y x) l -> StronglySorted R (l ++ [x]).
Proof.
  induction 1 as [|y l Hs IH Hf]; intros Hx; cbn; [by repeat constructor|].
  apply Forall_cons in Hx as [Hy Hx]. constructor; [auto|]. apply Forall_app. split; [done|by constructor].
Qed.

Lemma StronglySorted_flip l : StronglySorted (flip le) l -> StronglySorted le (reverse l).
Proof.
  induction 1 as [|y l Hs IH Hf]; [constructor|]. rewrite reverse_cons. apply StronglySorted_snoc; [done|].
  by rewrite reverse_Permutation.
Qed.

Lemma stable_sort_sorted l : StronglySorted le (stable_sort l).
Proof.
  apply StronglySorted_flip. assert (forall acc, StronglySorted (flip le) acc ->
    StronglySorted (flip le) (fold_left (fun acc x => insert_back x acc) l acc)) as H.
  { induction l as [|x l IH]; intros acc Ha; cbn; [done|]. apply IH. by apply insert_back_sorted. }
  apply H. constructor.
Qed.

End Sort.

(** Distinct keys tell elements apart. *)
Lemma key_inj {A B : Type} (key : A -> B) l x y : NoDup (key <$> l) -> x ∈ l -> y ∈ l -> key x = key y -> x = y.
Proof.
  intros Hn [i Hi]%list_elem_of_lookup [j Hj]%list_elem_of_lookup He.
  assert (i = j) as ->; [|congruence].
  eapply NoDup_lookup; [done| |]; rewrite list_lookup_fmap; [by rewrite Hi|by rewrite Hj, He].
Qed.

(** ** Sorting by a string key *)

Section ByKey.
Context {A : Type} (key : A -> bytes).

Definition key_less (a b : A) : bool := bool_decide (bytes_lt (key a) (key b)).
Definition key_le (a b : A) : Prop := bytes_le (key a) (key b).

Definition sort_by_key (l : list A) : list A := stable_sort key_less l.

Lemma sort_by_key_perm l : sort_by_key l ≡ₚ l.
Proof. apply stable_sort_perm. Qed.

Lemma sort_by_key_sorted l : StronglySorted key_le (sort_by_key l).
Proof.
  apply stable_sort_sorted; unfold key_less, key_le.
  - intros x y z. apply transitivity.
  - intros x y H. apply bool_decide_eq_true_1 in H. apply bytes_le_lt. by right.
  - intros x y H. apply bool_decide_eq_false_1 in H. destruct (total bytes_le (key x) (key y)) as [Hl|]; [|done].
    apply bytes_le_lt in Hl as [->|]; [by apply bytes_le_lt; left|done].
Qed.

(** With distinct keys the order of the input does not matter. *)
Lemma sort_by_key_unique l l' : l ≡ₚ l' -> NoDup (key <$> l) -> sort_by_key l = sort_by_key l'.
Proof.
  intros Hp Hn. eapply (StronglySorted_unique_strong key_le);
    [|apply sort_by_key_sorted|apply sort_by_key_sorted|by rewrite !sort_by_key_perm].
  intros x y Hx Hy H1 H2. rewrite sort_by_key_perm in Hx, Hy. rewrite <- Hp in Hy.
  apply (key_inj key l); [done..|]. by apply (anti_symm bytes_le).
Qed.

End ByKey.
