(* ===== verification/Greedy.v ===== *)
(** * The lazy-greedy engine

    Models the first half of [src/internal/analyzer/greedy.go]: the priority queue of cached gains and
    [runLazyGreedy] with its eager half [repriceAll].  The closures of a [greedyProblem] share the
    objective's mutable state; here they are functions of a state of any type, and [accept] returns
    the next one.  The context is an oracle: whether it is cancelled at the n-th poll. *)

From S2P Require Import Prelude GoLib Core Frame F64Ops Heap.

Record gainEntry := MkEntry { move : nat; gain : Z; epoch : nat }.

(** [gainHeap.Less]. *)
Definition gain_less (a b : gainEntry) : bool :=
  if Float.ne (gain a) (gain b) then F64.gt (gain a) (gain b) else (move a <? move b)%nat.

Definition maxFiniteGain : Z := Eval vm_compute in F64.of_int (10 ^ 18).

Definition finiteGain (v : Z) : Z :=
  if Float.ne v v || F64.gt v maxFiniteGain || F64.lt v (Float.opp maxFiniteGain) then Float.zero else v.

Definition satur (v : Z) : Z :=
  if F64.lt v Float.zero then Float.zero else if F64.gt v Float.one then Float.one else v.

(** [core.Tokens] is an [int]: its sums wrap. *)
Definition add_tokens (a b : Z) : Z := s64 (a + b).

Record greedyResult := MkResult { Accepted : list nat; Spent : Z; Iters : nat }.

Record greedyProblem (St : Type) := MkProblem {
  moves : nat;
  lazy : bool;
  p_gain : St -> nat -> Z;
  p_cost : St -> nat -> Z;
  p_afford : St -> nat -> Z -> Z -> bool;
  p_live : St -> nat -> bool;
  p_accept : St -> nat -> St
}.
Arguments MkProblem {_} _ _ _ _ _ _ _.
Arguments moves {_} _.
Arguments lazy {_} _.
Arguments p_gain {_} _ _ _.
Arguments p_cost {_} _ _ _.
Arguments p_afford {_} _ _ _ _ _.
Arguments p_live {_} _ _ _.
Arguments p_accept {_} _ _ _.

Section Engine.
Context {St : Type} (p : greedyProblem St) (budget : Z).

(** The entry of a move measured now. *)
Definition measured (st : St) (ep m : nat) : gainEntry := MkEntry m (finiteGain (p_gain p st m)) ep.

(** One turn of the loops that fill the queue: a move that is still legal is measured and pushed. *)
Definition push_live (st : St) (ep : nat) (acc : list gainEntry * nat) (m : nat) : list gainEntry * nat :=
  if p_live p st m then (heap_push gain_less acc.1 (measured st ep m), S acc.2) else acc.

(** The moves of a queue in the order they pop. *)
Fixpoint drain (fuel : nat) (h : list gainEntry) : list nat :=
  match fuel with
  | O => []
  | S f => match heap_pop gain_less h with None => [] | Some (e, h') => move e :: drain f h' end
  end.

Definition repriceAll (st : St) (h deferred : list gainEntry) (ep : nat) : list gainEntry * nat :=
  let pending := drain (length h) h ++ (move <$> deferred) in
  fold_left (push_live st ep) (merge_sort (≤)%nat pending) ([], 0%nat).

(** The variables of the loop, the objective's state included. *)
Record gstate := MkG {
  g_st : St; g_heap : list gainEntry; g_deferred : list gainEntry; g_epoch : nat; g_res : greedyResult
}.

Inductive turn := Next (g : gstate) | Break (g : gstate).

Definition refused (st : St) (m : nat) (spent : Z) : bool :=
  let cost := p_cost p st m in
  (cost <? 0) || (add_tokens spent cost >? budget) || negb (p_afford p st m cost spent).

Definition reprice (g : gstate) (e : gainEntry) (h : list gainEntry) : gstate :=
  let r := g_res g in
  MkG (g_st g) (heap_push gain_less h (measured (g_st g) (g_epoch g) (move e))) (g_deferred g) (g_epoch g)
    (MkResult (Accepted r) (Spent r) (S (Iters r))).

Definition defer (g : gstate) (e : gainEntry) (h : list gainEntry) : gstate :=
  MkG (g_st g) h (g_deferred g ++ [e]) (g_epoch g) (g_res g).

(** The acceptance and what follows it, in the lazy and in the eager mode. *)
Definition take_move (g : gstate) (e : gainEntry) (h : list gainEntry) : gstate :=
  let st := p_accept p (g_st g) (move e) in
  let ep := S (g_epoch g) in
  let r := g_res g in
  let acc := Accepted r ++ [move e] in
  let spent := add_tokens (Spent r) (p_cost p (g_st g) (move e)) in
  if lazy p then
    MkG st (fold_left (heap_push gain_less) (g_deferred g) h) [] ep (MkResult acc spent (Iters r))
  else
    let '(h, k) := repriceAll st h (g_deferred g) ep in
    MkG st h [] ep (MkResult acc spent (Iters r + k)).

(** The body of the loop, after [e] left the queue. *)
Definition turn_of (g : gstate) (e : gainEntry) (h : list gainEntry) : turn :=
  if negb (p_live p (g_st g) (move e)) then Next (MkG (g_st g) h (g_deferred g) (g_epoch g) (g_res g))
  else if negb (epoch e =? g_epoch g)%nat then Next (reprice g e h)
  else if Float.le (gain e) Float.zero then Break (MkG (g_st g) h (g_deferred g) (g_epoch g) (g_res g))
  else if refused (g_st g) (move e) (Spent (g_res g)) then Next (defer g e h)
  else Next (take_move g e h).

Fixpoint greedy_loop (fuel : nat) (cancelled : nat -> bool) (poll : nat) (g : gstate) :
    option (outcome core_error (St * greedyResult)) :=
  match heap_pop gain_less (g_heap g) with
  | None => Some (Ok (g_st g, g_res g))
  | Some (e, h) =>
      match fuel with
      | O => None
      | S f =>
          if cancelled poll then Some (Err ErrBudget)
          else match turn_of g e h with
               | Next g => greedy_loop f cancelled (S poll) g
               | Break g => Some (Ok (g_st g, g_res g))
               end
      end
  end.

Definition initial (st : St) : gstate :=
  let '(h, k) := fold_left (push_live st 0) (seq 0 (moves p)) ([], 0%nat) in
  MkG st h [] 0 (MkResult [] 0 k).

(** Between two acceptances an entry is popped twice at most, and an acceptance removes one. *)
Definition greedy_fuel : nat := ((2 * moves p + 2) * (moves p + 1))%nat.

Definition runLazyGreedy (cancelled : nat -> bool) (st : St) : option (outcome core_error (St * greedyResult)) :=
  greedy_loop greedy_fuel cancelled 0 (initial st).

End Engine.
