(* ===== verification/GreedySpec.v ===== *)
(** * What the lazy-greedy engine guarantees

    For any problem: the loop ends, spends only on legal, strictly improving, affordable moves, and
    evaluates each move at most once per acceptance.  For a problem whose moves stay illegal once they
    are and whose gains do not grow, both modes of the engine make exactly the choices of the
    reference rule (the best affordable move, ties to the lower index), and the lazy one never
    measures more than the eager one. *)

From S2P Require Import Prelude GoLib Core Frame F64Ops Heap Greedy.

(** ** Cached gains and their order *)

Lemma finiteGain_finite v : Float.finite (finiteGain v).
Proof.
  unfold finiteGain. destruct (F64.classify v) as [|s|s m e] eqn:E.
  - assert (Float.ne v v = true) as -> by (unfold Float.ne, F64.cmp; by rewrite E). exact I.
  - assert (F64.gt v maxFiniteGain || F64.lt v (Float.opp maxFiniteGain) = true) as H.
    { unfold F64.gt, F64.lt, F64.cmp. rewrite E.
      change (F64.classify maxFiniteGain) with (F64.Fin false 7812500000000000 7).
      change (F64.classify (Float.opp maxFiniteGain)) with (F64.Fin true 7812500000000000 7).
      by destruct s. }
    rewrite <- orb_assoc, H, orb_true_r. exact I.
  - destruct (_ || _); [exact I|]. unfold Float.finite. by rewrite E.
Qed.

Lemma zero_finite : Float.finite Float.zero.
Proof. exact I. Qed.

Definition finite_gain (e : gainEntry) : Prop := Float.finite (gain e).

(** [a] is taken before [b]: a larger gain, or the same and a lower index. *)
Definition outranks (g : Z) (m : nat) (g' : Z) (m' : nat) : Prop :=
  Float.units g' < Float.units g \/ (Float.units g' = Float.units g /\ (m < m')%nat).

Lemma gain_less_spec a b : finite_gain a -> finite_gain b ->
  gain_less a b = true <-> outranks (gain a) (move a) (gain b) (move b).
Proof.
  intros Ha Hb. unfold gain_less, outranks. rewrite Float.finite_ne, Float.finite_gt by done.
  destruct (Z.eqb_spec (Float.units (gain a)) (Float.units (gain b))) as [E|E]; cbn [negb].
  - rewrite Nat.ltb_lt. lia.
  - rewrite Z.ltb_lt. lia.
Qed.

Lemma gain_below a b : finite_gain a -> finite_gain b ->
  below gain_less a b <-> ~ outranks (gain a) (move a) (gain b) (move b).
Proof.
  intros Ha Hb. unfold below. rewrite <- gain_less_spec by done. symmetry. apply not_true_iff_false.
Qed.

Lemma gain_below_trans x y z : finite_gain x -> finite_gain y -> finite_gain z ->
  below gain_less x y -> below gain_less y z -> below gain_less x z.
Proof. intros Hx Hy Hz. rewrite !gain_below by done. unfold outranks. lia. Qed.

Lemma gain_less_asym x y : finite_gain x -> finite_gain y -> gain_less x y = true -> gain_less y x = false.
Proof.
  intros Hx Hy H. apply gain_less_spec in H; [|done..]. apply gain_below; [done..|]. unfold outranks in *. lia.
Qed.

Lemma gain_less_irrefl x : finite_gain x -> gain_less x x = false.
Proof. intros Hx. apply gain_below; [done..|]. unfold outranks. lia. Qed.

#[local] Opaque gain_less finiteGain Float.units.

(** ** The queue *)

Definition queue (h : list gainEntry) : Prop :=
  Forall finite_gain h /\ heap_ordered gain_less (length h) h.

Lemma queue_nil : queue [].
Proof. split; [constructor|]. intros k Hk. cbn in Hk. lia. Qed.

Lemma gain_push h e : queue h -> finite_gain e -> queue (heap_push gain_less h e).
Proof.
  intros [Hf Ho] He. split; [rewrite heap_push_perm; by constructor|].
  apply (heap_push_ordered gain_less finite_gain gain_below_trans gain_less_asym); [by constructor|done].
Qed.

Lemma gain_pop h e h' : queue h -> heap_pop gain_less h = Some (e, h') ->
  queue h' /\ finite_gain e /\ h ≡ₚ e :: h' /\
  Forall (fun y => ~ outranks (gain y) (move y) (gain e) (move e)) h'.
Proof.
  intros [Hf Ho] Hp. pose proof (heap_pop_perm _ _ _ _ Hp) as Hperm.
  assert (finite_gain e /\ Forall finite_gain h') as [He Hh'] by (rewrite Hperm in Hf; by apply Forall_cons in Hf).
  destruct (heap_pop_ordered gain_less finite_gain gain_below_trans gain_less_asym gain_less_irrefl _ _ _ Hf Ho Hp)
    as [Ho' Hb].
  split_and!; [by split|done|done|].
  rewrite Forall_forall in Hb, Hh' |- *. intros y Hy.
  apply (gain_below y e (Hh' y Hy) He). exact (Hb y Hy).
Qed.

Lemma queue_push_all d h : queue h -> Forall finite_gain d ->
  queue (fold_left (heap_push gain_less) d h) /\ fold_left (heap_push gain_less) d h ≡ₚ d ++ h.
Proof.
  revert h. induction d as [|e d IH]; intros h Hq Hd; [done|]. apply Forall_cons in Hd as [He Hd].
  cbn [fold_left]. destruct (IH (heap_push gain_less h e)) as [H1 H2]; [by apply gain_push|done|].
  split; [done|]. rewrite H2, heap_push_perm. symmetry. apply Permutation_middle.
Qed.

Section Spec.
Context {St : Type} (p : greedyProblem St) (budget : Z).

Definition value_at (st : St) (m : nat) : Z := finiteGain (p_gain p st m).

Definition live_moves (st : St) (ms : list nat) : list nat := List.filter (p_live p st) ms.

Lemma measured_finite st ep m : finite_gain (measured p st ep m).
Proof. apply finiteGain_finite. Qed.

Lemma push_live_fold st ep ms h k : queue h ->
  exists h', fold_left (push_live p st ep) ms (h, k) = (h', (k + length (live_moves st ms))%nat) /\
    queue h' /\ h' ≡ₚ (measured p st ep <$> live_moves st ms) ++ h.
Proof.
  revert h k. induction ms as [|m ms IH]; intros h k Hq; cbn [fold_left live_moves List.filter].
  { exists h. split_and!; [f_equal; cbn; lia|done|done]. }
  unfold push_live at 2. cbn [fst snd]. destruct (p_live p st m); [|apply IH, Hq].
  destruct (IH (heap_push gain_less h (measured p st ep m)) (S k)) as (h' & E & Hq' & Hp);
    [by apply gain_push, measured_finite|].
  exists h'. split_and!; [rewrite E; f_equal; apply Nat.add_succ_comm|done|].
  rewrite Hp, heap_push_perm. symmetry. apply Permutation_middle.
Qed.

Lemma drain_perm n h : (length h <= n)%nat -> drain n h ≡ₚ move <$> h.
Proof.
  revert h. induction n as [|n IH]; intros h Hn; cbn [drain]; [by destruct h; [|cbn in Hn; lia]|].
  destruct (heap_pop gain_less h) as [[e h']|] eqn:E.
  - pose proof (heap_pop_perm _ _ _ _ E) as Hp. rewrite Hp. cbn. rewrite IH; [done|].
    apply Permutation_length in Hp. cbn in Hp. lia.
  - destruct h; [done|]. by destruct (heap_pop_some gain_less (g :: h)) as (? & ? & ?); [|congruence].
Qed.

Lemma live_moves_perm st ms ms' : ms ≡ₚ ms' -> live_moves st ms ≡ₚ live_moves st ms'.
Proof.
  unfold live_moves. induction 1 as [|x l l' _ IH|x y l|l l' l'' _ IH1 _ IH2]; cbn; [done| | |by etrans].
  - destruct (p_live p st x); by rewrite IH.
  - destruct (p_live p st x), (p_live p st y); try done. apply Permutation_swap.
Qed.

Lemma repriceAll_spec st h d ep : exists h', repriceAll p st h d ep = (h', length h') /\
  queue h' /\ h' ≡ₚ measured p st ep <$> live_moves st (move <$> h ++ d).
Proof.
  unfold repriceAll. set (ms := merge_sort _ _).
  destruct (push_live_fold st ep ms [] 0 queue_nil) as (h' & E & Hq & Hp).
  assert (Hms : ms ≡ₚ move <$> h ++ d).
  { unfold ms. rewrite merge_sort_Permutation, fmap_app. by rewrite drain_perm. }
  rewrite app_nil_r in Hp. exists h'. split_and!; [|done|by rewrite Hp, (live_moves_perm _ _ _ Hms)].
  rewrite E. f_equal. apply Permutation_length in Hp. rewrite length_fmap in Hp. lia.
Qed.

(** ** The invariant of the loop and its measure *)

Definition stale (ep : nat) (h : list gainEntry) : nat := length (filter (fun e => epoch e <> ep) h).

#[local] Arguments stale : simpl never.
#[local] Arguments Nat.mul : simpl never.
#[local] Arguments measured : simpl never.

Lemma stale_perm ep h h' : h ≡ₚ h' -> stale ep h = stale ep h'.
Proof. intros H. unfold stale. by rewrite H. Qed.

Lemma stale_cons ep e h : stale ep (e :: h) = ((if decide (epoch e = ep) then 0 else 1) + stale ep h)%nat.
Proof. unfold stale. rewrite filter_cons. destruct (decide (epoch e = ep)), (decide (epoch e <> ep)); done. Qed.

Lemma stale_le ep h : (stale ep h <= length h)%nat.
Proof. apply length_filter. Qed.

Lemma stale_measured st ep ms : stale ep (measured p st ep <$> ms) = 0%nat.
Proof. induction ms as [|m ms IH]; [done|]. rewrite fmap_cons, stale_cons, IH. by destruct (decide _). Qed.

Definition entries (g : gstate (St:=St)) : list gainEntry := g_heap g ++ g_deferred g.

(** The moves taken or still queued. *)
Definition tracked (g : gstate (St:=St)) : list nat := Accepted (g_res g) ++ (move <$> entries g).

#[local] Arguments tracked : simpl never.

(** The fields of a loop state that is written out. *)
Ltac gproj :=
  unfold reprice, defer; cbn [g_st g_heap g_deferred g_epoch g_res Accepted Spent Iters].

Record ginv (g : gstate (St:=St)) : Prop := {
  gi_queue : queue (g_heap g);
  gi_heap : Forall (fun e => (epoch e <= g_epoch g)%nat /\ (epoch e = g_epoch g -> gain e = value_at (g_st g) (move e))) (g_heap g);
  gi_def : Forall (fun e => epoch e = g_epoch g /\ gain e = value_at (g_st g) (move e)) (g_deferred g);
  gi_nodup : NoDup (tracked g);
  gi_range : Forall (fun m => (m < moves p)%nat) (tracked g);
  gi_epoch : g_epoch g = length (Accepted (g_res g));
  gi_iters : (Iters (g_res g) + stale (g_epoch g) (g_heap g) <= moves p * (1 + g_epoch g))%nat
}.

Definition measure (g : gstate (St:=St)) : nat :=
  ((2 * moves p + 2) * length (entries g) + length (g_heap g) + stale (g_epoch g) (g_heap g))%nat.

Lemma tracked_length g : ginv g -> (length (Accepted (g_res g)) + length (entries g) <= moves p)%nat.
Proof.
  intros H. assert (length (tracked g) <= length (seq 0 (moves p)))%nat as Hl.
  { apply submseteq_length, NoDup_submseteq; [apply H|]. intros m Hm.
    apply elem_of_seq. pose proof (gi_range g H) as Hr. rewrite Forall_forall in Hr. specialize (Hr m Hm). lia. }
  unfold tracked in Hl. rewrite length_app, length_fmap, length_seq in Hl. done.
Qed.

Lemma def_finite g : ginv g -> Forall finite_gain (g_deferred g).
Proof.
  intros H. eapply Forall_impl; [apply (gi_def g H)|]. intros e [_ He]. unfold finite_gain. rewrite He.
  apply finiteGain_finite.
Qed.

Section Pop.
Context (g : gstate (St:=St)) (e : gainEntry) (h : list gainEntry).
Context (HI : ginv g) (Hpop : heap_pop gain_less (g_heap g) = Some (e, h)).

Lemma popped_queue : queue h.
Proof. by destruct (gain_pop _ _ _ (gi_queue g HI) Hpop). Qed.

Lemma popped_perm : g_heap g ≡ₚ e :: h.
Proof. by apply (heap_pop_perm gain_less). Qed.

Lemma tracked_perm : tracked g ≡ₚ move e :: Accepted (g_res g) ++ (move <$> h ++ g_deferred g).
Proof. unfold tracked, entries. rewrite popped_perm. cbn. by rewrite Permutation_middle. Qed.

Lemma popped_heap : ((epoch e <= g_epoch g)%nat /\ (epoch e = g_epoch g -> gain e = value_at (g_st g) (move e))) /\
  Forall (fun e => (epoch e <= g_epoch g)%nat /\ (epoch e = g_epoch g -> gain e = value_at (g_st g) (move e))) h.
Proof. pose proof (gi_heap g HI) as H. rewrite popped_perm in H. by apply Forall_cons in H. Qed.

Lemma popped_stale : stale (g_epoch g) (g_heap g)
  = ((if decide (epoch e = g_epoch g) then 0 else 1) + stale (g_epoch g) h)%nat.
Proof. by rewrite (stale_perm _ _ _ popped_perm), stale_cons. Qed.

Lemma popped_length : length (g_heap g) = S (length h) /\ length (entries g) = S (length (h ++ g_deferred g)).
Proof.
  assert (length (g_heap g) = S (length h)) as E by (by rewrite popped_perm).
  split; [done|]. unfold entries. rewrite !length_app, E. done.
Qed.

(** What is left of the tracked moves when the popped one is dropped, and when it is kept. *)
Lemma rest_tracked : NoDup (move e :: Accepted (g_res g) ++ (move <$> h ++ g_deferred g)) /\ Forall (fun m => (m < moves p)%nat) (move e :: Accepted (g_res g) ++ (move <$> h ++ g_deferred g)).
Proof. rewrite <- tracked_perm. split; apply HI. Qed.

(** One turn keeps the invariant and lowers the measure, whatever it does. *)
Lemma dead_inv : ginv (MkG (g_st g) h (g_deferred g) (g_epoch g) (g_res g)) /\
  (measure (MkG (g_st g) h (g_deferred g) (g_epoch g) (g_res g)) < measure g)%nat.
Proof.
  destruct rest_tracked as [Hn Hr]. apply NoDup_cons in Hn as [_ Hn]. apply Forall_cons in Hr as [_ Hr].
  pose proof popped_stale as Hs. destruct popped_length as [Hl1 Hl2].
  split; [|unfold measure, entries in *; gproj; lia].
  constructor; gproj; try apply HI; [apply popped_queue|apply popped_heap|done|done|].
  pose proof (gi_iters g HI). lia.
Qed.

Lemma reprice_inv : epoch e <> g_epoch g -> ginv (reprice p g e h) /\ (measure (reprice p g e h) < measure g)%nat.
Proof.
  intros He. set (x := measured p (g_st g) (g_epoch g) (move e)).
  pose proof (heap_push_perm gain_less h x) as Hp.
  pose proof popped_stale as Hs. rewrite decide_False in Hs by done. destruct popped_length as [Hl1 Hl2].
  assert (Hs' : stale (g_epoch g) (heap_push gain_less h x) = stale (g_epoch g) h).
  { rewrite (stale_perm _ _ _ Hp), stale_cons. by rewrite decide_True. }
  assert (Ht : tracked (reprice p g e h) ≡ₚ tracked g).
  { rewrite tracked_perm. unfold tracked, entries. gproj. fold x. rewrite Hp. cbn. by rewrite Permutation_middle. }
  unfold reprice in Ht. fold x in Ht. pose proof (gi_iters g HI) as Hi. split.
  - constructor; gproj; fold x; try apply HI.
    + apply gain_push; [apply popped_queue|apply measured_finite].
    + rewrite Hp. constructor; [done|apply popped_heap].
    + rewrite Ht. apply HI.
    + rewrite Ht. apply HI.
    + rewrite Hs'. lia.
  - unfold measure, entries. gproj. fold x. rewrite Hs', !length_app, Hp.
    cbn [length]. rewrite Hl1. lia.
Qed.

Lemma defer_inv : epoch e = g_epoch g -> ginv (defer g e h) /\ (measure (defer g e h) < measure g)%nat.
Proof.
  intros He. pose proof popped_stale as Hs. rewrite decide_True in Hs by done. destruct popped_length as [Hl1 Hl2].
  assert (Ht : tracked (defer g e h) ≡ₚ tracked g).
  { rewrite tracked_perm. unfold tracked, entries. gproj. rewrite (app_assoc h), (Permutation_app_comm _ [e]).
    cbn. by rewrite Permutation_middle. }
  unfold defer in Ht. pose proof (gi_iters g HI) as Hi. destruct popped_heap as [[_ Hg] Hh]. split.
  - constructor; gproj; try apply HI; [apply popped_queue|done| | | |lia].
    + apply Forall_app. split; [apply HI|]. constructor; [auto|done].
    + rewrite Ht. apply HI.
    + rewrite Ht. apply HI.
  - unfold measure, entries in *. gproj. rewrite !length_app in *. cbn [length]. lia.
Qed.

(** The entries an acceptance leaves. *)
Lemma take_entries : exists h' k, take_move p g e h =
    MkG (p_accept p (g_st g) (move e)) h' [] (S (g_epoch g))
      (MkResult (Accepted (g_res g) ++ [move e]) (add_tokens (Spent (g_res g)) (p_cost p (g_st g) (move e)))
        (Iters (g_res g) + k)) /\ queue h' /\
  if lazy p then k = 0%nat /\ h' ≡ₚ h ++ g_deferred g
  else k = length h' /\ h' ≡ₚ measured p (p_accept p (g_st g) (move e)) (S (g_epoch g)) <$>
         live_moves (p_accept p (g_st g) (move e)) (move <$> h ++ g_deferred g).
Proof.
  unfold take_move. destruct (lazy p).
  - destruct (queue_push_all (g_deferred g) h popped_queue (def_finite g HI)) as [Hq Hp].
    eexists _, 0%nat. rewrite Nat.add_0_r. split_and!; [done|done|done|]. by rewrite Hp, Permutation_app_comm.
  - destruct (repriceAll_spec (p_accept p (g_st g) (move e)) h (g_deferred g) (S (g_epoch g))) as (h' & E & Hq & Hp).
    rewrite E. eauto 10.
Qed.

Lemma live_moves_elem st m ms : m ∈ live_moves st ms <-> m ∈ ms /\ p_live p st m = true.
Proof. unfold live_moves. rewrite !list_elem_of_In. apply filter_In. Qed.

Lemma live_moves_NoDup st ms : NoDup ms -> NoDup (live_moves st ms).
Proof. rewrite !NoDup_ListNoDup. apply List.NoDup_filter. Qed.

Lemma move_measured st ep (ms : list nat) : move <$> (measured p st ep <$> ms) = ms.
Proof. rewrite <- list_fmap_compose. apply list_fmap_id. Qed.

(** After an acceptance the queue holds a sub-collection of the moves that were there. *)
Lemma take_moves h' st : (if lazy p then h' ≡ₚ h ++ g_deferred g
    else h' ≡ₚ measured p st (S (g_epoch g)) <$> live_moves st (move <$> h ++ g_deferred g)) ->
  NoDup (move <$> h') /\ (forall m, m ∈ move <$> h' -> m ∈ move <$> h ++ g_deferred g).
Proof.
  destruct rest_tracked as [Hn _]. apply NoDup_cons in Hn as [_ Hn]. apply NoDup_app in Hn as (_ & _ & Hn).
  destruct (lazy p); intros Hp; (split; [rewrite Hp|intros m; rewrite Hp]); try done; rewrite move_measured.
  - by apply live_moves_NoDup.
  - by intros [Hm _]%live_moves_elem.
Qed.

Lemma take_inv : epoch e = g_epoch g -> ginv (take_move p g e h) /\ (measure (take_move p g e h) < measure g)%nat.
Proof.
  intros He. destruct take_entries as (h' & k & -> & Hq & Hcase).
  destruct popped_length as [Hl1 Hl2]. destruct rest_tracked as [Hn Hr].
  set (st := p_accept p (g_st g) (move e)) in *.
  destruct (take_moves h' st) as [Hn' Hsub]; [by destruct (lazy p); apply Hcase|].
  set (rest := move <$> h ++ g_deferred g) in *.
  assert (length h' <= length (h ++ g_deferred g))%nat as Hlen.
  { rewrite <- (length_fmap move h'), <- (length_fmap move (h ++ g_deferred g)).
    by apply submseteq_length, NoDup_submseteq. }
  pose proof (tracked_length g HI) as Htl. pose proof (stale_le (S (g_epoch g)) h') as Hst.
  pose proof (gi_iters g HI) as Hi. apply NoDup_cons in Hn as [Hne Hn]. apply Forall_cons in Hr as [Hre Hr].
  apply NoDup_app in Hn as (Hna & Hdis & _). apply Forall_app in Hr as [Hra Hrr].
  split.
  - constructor; gproj; try done.
    + destruct (lazy p); destruct Hcase as [_ Hp]; rewrite Hp.
      * apply Forall_app. split; eapply Forall_impl; [apply popped_heap| |apply (gi_def g HI)|]; cbn; intros x Hx; lia.
      * apply Forall_fmap, Forall_forall. intros m _. cbn. auto.
    + unfold tracked, entries. gproj. rewrite app_nil_r, <- app_assoc. apply NoDup_app. split_and!; [done| |].
      * intros m Hm [->|Hm']%elem_of_cons; [apply Hne; set_solver|]. eapply Hdis; eauto.
      * apply NoDup_cons. split; [|done]. intros Hm. apply Hne. set_solver.
    + unfold tracked, entries. gproj. rewrite app_nil_r, <- app_assoc. apply Forall_app. split; [done|].
      constructor; [done|]. rewrite Forall_forall in Hrr |- *. auto.
    + rewrite length_app, (gi_epoch g HI). cbn. lia.
    + destruct (lazy p); destruct Hcase as [-> Hp]; [lia|].
      rewrite (stale_perm _ _ _ Hp), stale_measured. lia.
  - unfold measure, entries in *. gproj. rewrite app_nil_r. nia.
Qed.

Lemma turn_inv g' : turn_of p budget g e h = Next g' -> ginv g' /\ (measure g' < measure g)%nat.
Proof.
  unfold turn_of. destruct (negb (p_live _ _ _)); [intros [= <-]; apply dead_inv|].
  destruct (Nat.eqb_spec (epoch e) (g_epoch g)) as [He|He]; cbn [negb]; [|intros [= <-]; by apply reprice_inv].
  destruct (Float.le _ _); [done|]. destruct (refused _ _ _ _ _); intros [= <-]; [by apply defer_inv|by apply take_inv].
Qed.

End Pop.

(** The loop is over: the queue is empty, or its best entry is fresh and does not improve. *)
Definition finished (g : gstate (St:=St)) : Prop :=
  match heap_pop gain_less (g_heap g) with
  | None => True
  | Some (e, h) => exists g', turn_of p budget g e h = Break g'
  end.

Lemma turn_break g e h g' : turn_of p budget g e h = Break g' -> g_st g' = g_st g /\ g_res g' = g_res g.
Proof. unfold turn_of. repeat case_match; intros [= <-]; done. Qed.

(** A property every turn keeps holds where the loop stops, and the loop stops. *)
Lemma loop_rule (Q : gstate (St:=St) -> Prop) :
  (forall g e h g', ginv g -> Q g -> heap_pop gain_less (g_heap g) = Some (e, h) ->
     turn_of p budget g e h = Next g' -> Q g') ->
  forall fuel cancelled poll g, ginv g -> Q g -> (measure g <= fuel)%nat ->
  exists r, greedy_loop p budget fuel cancelled poll g = Some r /\
    ((r = Err ErrBudget /\ exists n, cancelled n = true) \/
     exists g', r = Ok (g_st g', g_res g') /\ ginv g' /\ Q g' /\ finished g').
Proof.
  intros Hstep fuel c. induction fuel as [|f IH]; intros poll g HI HQ Hf; cbn [greedy_loop];
    destruct (heap_pop gain_less (g_heap g)) as [[e h]|] eqn:Epop.
  - destruct (popped_length g e h Epop) as [Hl _]. unfold measure in Hf. lia.
  - eexists. split; [done|]. right. exists g. unfold finished. rewrite Epop. eauto.
  - destruct (c poll) eqn:Ec; [eexists; split; [done|]; left; eauto|].
    destruct (turn_of p budget g e h) as [g'|g'] eqn:Et.
    + destruct (turn_inv g e h HI Epop g' Et) as [HI' Hm]. apply IH; [done|exact (Hstep g e h g' HI HQ Epop Et)|lia].
    + destruct (turn_break _ _ _ _ Et) as [-> ->]. eexists. split; [done|]. right. exists g.
      unfold finished. rewrite Epop. eauto.
  - eexists. split; [done|]. right. exists g. unfold finished. rewrite Epop. eauto.
Qed.

(** ** The start *)

Lemma initial_spec st : exists h, initial p st = MkG st h [] 0 (MkResult [] 0 (length h)) /\ queue h /\
  h ≡ₚ measured p st 0 <$> live_moves st (seq 0 (moves p)).
Proof.
  unfold initial. destruct (push_live_fold st 0 (seq 0 (moves p)) [] 0 queue_nil) as (h & -> & Hq & Hp).
  rewrite app_nil_r in Hp. exists h. split_and!; [|done|done]. repeat f_equal.
  apply Permutation_length in Hp. rewrite length_fmap in Hp. lia.
Qed.

Lemma live_moves_length st ms : (length (live_moves st ms) <= length ms)%nat.
Proof. apply List.filter_length_le. Qed.

Lemma initial_inv st : ginv (initial p st) /\ (measure (initial p st) <= greedy_fuel p)%nat.
Proof.
  destruct (initial_spec st) as (h & -> & Hq & Hp).
  pose proof (Permutation_length Hp) as Hl. rewrite length_fmap in Hl.
  pose proof (live_moves_length st (seq 0 (moves p))) as Hll. rewrite length_seq in Hll.
  assert (Hs : stale 0 h = 0%nat) by (rewrite (stale_perm _ _ _ Hp); apply stale_measured).
  assert (Hm : move <$> h ≡ₚ live_moves st (seq 0 (moves p))) by (rewrite Hp; by rewrite move_measured).
  split.
  - constructor; gproj; try done.
    + rewrite Hp. apply Forall_fmap, Forall_forall. intros m _. cbn. auto.
    + unfold tracked, entries. gproj. rewrite app_nil_r, Hm. apply live_moves_NoDup, NoDup_seq.
    + unfold tracked, entries. gproj. rewrite app_nil_r, Hm. apply Forall_forall.
      intros m [Hi _]%live_moves_elem. apply elem_of_seq in Hi. lia.
    + rewrite Hs. lia.
  - unfold measure, entries, greedy_fuel. gproj. rewrite app_nil_r, Hs. nia.
Qed.

(** ** What is spent on *)

(** A move the rule may take: legal, strictly improving, within the budget and permitted. *)
Definition eligible (st : St) (spent : Z) (m : nat) : bool :=
  p_live p st m && negb (Float.le (value_at st m) Float.zero) && negb (refused p budget st m spent).

Definition spent_after (st : St) (spent : Z) (m : nat) : Z := add_tokens spent (p_cost p st m).

(** A sequence of acceptances, each of a move that is eligible where it is taken. *)
Inductive spends : St -> Z -> list nat -> St -> Z -> Prop :=
  | spends_nil st sp : spends st sp [] st sp
  | spends_cons st sp m l st' sp' :
      (m < moves p)%nat -> eligible st sp m = true ->
      spends (p_accept p st m) (spent_after st sp m) l st' sp' -> spends st sp (m :: l) st' sp'.

Lemma spends_snoc st sp l st' sp' m : spends st sp l st' sp' -> (m < moves p)%nat -> eligible st' sp' m = true ->
  spends st sp (l ++ [m]) (p_accept p st' m) (spent_after st' sp' m).
Proof.
  induction 1 as [st sp|st sp m' l st' sp' Hm' He' Hr IH]; intros Hm He; cbn.
  - by repeat econstructor.
  - econstructor; eauto.
Qed.

(** What a turn does to the trace: nothing, or one eligible move. *)
Lemma turn_trace g e h g' : ginv g -> heap_pop gain_less (g_heap g) = Some (e, h) ->
  turn_of p budget g e h = Next g' ->
  (g_st g' = g_st g /\ Accepted (g_res g') = Accepted (g_res g) /\ Spent (g_res g') = Spent (g_res g)) \/
  ((move e < moves p)%nat /\ eligible (g_st g) (Spent (g_res g)) (move e) = true /\ epoch e = g_epoch g /\
   g' = take_move p g e h).
Proof.
  intros HI Hpop. unfold turn_of. destruct (p_live _ _ _) eqn:El; cbn [negb]; [|intros [= <-]; by left].
  destruct (Nat.eqb_spec (epoch e) (g_epoch g)) as [He|He]; cbn [negb]; [|intros [= <-]; by left].
  destruct (Float.le _ _) eqn:Eg; [done|]. destruct (refused _ _ _ _ _) eqn:Er; intros [= <-]; [by left|]. right.
  destruct (popped_heap g e h HI Hpop) as [[_ Hg] _]. split_and!; try done.
  - destruct (rest_tracked g e h HI Hpop) as [_ Hr]. by apply Forall_cons in Hr as [? _].
  - unfold eligible. rewrite <- Hg, El, Eg, Er by done. done.
Qed.

Lemma take_trace g e h : ginv g -> heap_pop gain_less (g_heap g) = Some (e, h) ->
  g_st (take_move p g e h) = p_accept p (g_st g) (move e) /\
  Accepted (g_res (take_move p g e h)) = Accepted (g_res g) ++ [move e] /\
  Spent (g_res (take_move p g e h)) = spent_after (g_st g) (Spent (g_res g)) (move e).
Proof. intros HI Hpop. by destruct (take_entries g e h HI Hpop) as (h' & k & -> & _). Qed.

(** For every problem, state, budget and cancellation the loop ends.  It reports the budget error and
    a cancellation happened, or the moves it took are distinct, each was eligible when it was taken,
    the amount is what they cost, and every move was measured at most once per acceptance and once at
    the start. *)
Lemma run_spends cancelled st : exists r, runLazyGreedy p budget cancelled st = Some r /\
  ((r = Err ErrBudget /\ exists n, cancelled n = true) \/
   exists st' res, r = Ok (st', res) /\ spends st 0 (Accepted res) st' (Spent res) /\
     NoDup (Accepted res) /\ (Iters res <= moves p * (1 + length (Accepted res)))%nat).
Proof.
  destruct (initial_inv st) as [HI Hm].
  destruct (loop_rule (fun g => spends st 0 (Accepted (g_res g)) (g_st g) (Spent (g_res g)))) with
    (fuel := greedy_fuel p) (cancelled := cancelled) (poll := 0%nat) (g := initial p st) as (r & Hr & Hcase); try done.
  - intros g e h g' HIg HQ Hpop Ht.
    destruct (turn_trace g e h g' HIg Hpop Ht) as [(-> & -> & ->)|(Hlt & He & _ & ->)]; [done|].
    destruct (take_trace g e h HIg Hpop) as (-> & -> & ->). by apply spends_snoc.
  - destruct (initial_spec st) as (h & -> & _). constructor.
  - exists r. split; [done|]. destruct Hcase as [?|(g' & -> & HI' & HQ & _)]; [by left|right].
    eexists _, _. split_and!; [done|done| |].
    + pose proof (gi_nodup g' HI') as Hn. by apply NoDup_app in Hn as [? _].
    + pose proof (gi_iters g' HI'). rewrite <- (gi_epoch g' HI'). lia.
Qed.

(** ** The reference rule *)

(** The move the rule takes: eligible, and ranked before every other eligible one. *)
Definition best (st : St) (sp : Z) (m : nat) : Prop :=
  (m < moves p)%nat /\ eligible st sp m = true /\
  forall m', (m' < moves p)%nat -> eligible st sp m' = true ->
    m' = m \/ outranks (value_at st m) m (value_at st m') m'.

Definition exhausted (st : St) (sp : Z) : Prop := forall m, (m < moves p)%nat -> eligible st sp m = false.

Definition live_count (st : St) : nat := length (live_moves st (seq 0 (moves p))).

(** The choices of the rule, with the number of legal moves at every state passed on the way. *)
Inductive chooses : St -> Z -> list nat -> St -> Z -> nat -> Prop :=
  | chooses_nil st sp : chooses st sp [] st sp 0
  | chooses_cons st sp m l st' sp' n :
      best st sp m -> chooses (p_accept p st m) (spent_after st sp m) l st' sp' n ->
      chooses st sp (m :: l) st' sp' (live_count st + n).

Lemma chooses_snoc st sp l st' sp' n m : chooses st sp l st' sp' n -> best st' sp' m ->
  chooses st sp (l ++ [m]) (p_accept p st' m) (spent_after st' sp' m) (n + live_count st').
Proof.
  induction 1 as [st sp|st sp m' l st' sp' n Hb Hr IH]; intros Hm; cbn.
  - replace (live_count st) with (live_count st + 0)%nat by lia. econstructor; [done|constructor].
  - rewrite <- Nat.add_assoc. econstructor; [done|auto].
Qed.

Lemma outranks_asym g m g' m' : outranks g m g' m' -> outranks g' m' g m -> False.
Proof. unfold outranks. lia. Qed.

Lemma best_unique st sp m m' : best st sp m -> best st sp m' -> m = m'.
Proof.
  intros (Hm & He & Hb) (Hm' & He' & Hb').
  destruct (Hb m' Hm' He') as [->|H1]; [done|]. destruct (Hb' m Hm He) as [->|H2]; [done|].
  exfalso. by eapply outranks_asym.
Qed.

(** Two runs of the rule that go on until nothing is left make the same choices. *)
Lemma chooses_unique st sp l st' sp' n : chooses st sp l st' sp' n -> exhausted st' sp' ->
  forall l2 st2 sp2 n2, chooses st sp l2 st2 sp2 n2 -> exhausted st2 sp2 ->
  l = l2 /\ st' = st2 /\ sp' = sp2 /\ n = n2.
Proof.
  induction 1 as [st sp|st sp m l st' sp' n Hb Hr IH]; intros Hx l2 st2 sp2 n2 H2 Hx2; inversion H2; subst.
  - done.
  - match goal with H : best _ _ _ |- _ => destruct H as (Hm & He & _) end. by rewrite Hx in He.
  - destruct Hb as (Hm & He & _). by rewrite Hx2 in He.
  - match goal with H : best _ _ ?a |- _ => assert (a = m) as -> by (by eapply best_unique) end.
    match goal with H : chooses (p_accept p st m) _ _ _ _ _ |- _ => destruct (IH Hx _ _ _ _ H Hx2) as (-> & -> & -> & ->) end.
    done.
Qed.

(** ** Problems on which both modes follow the rule *)

(** A move that is not legal never becomes legal, a taken move is no longer legal, and, where gains
    are cached, a gain that can still be collected does not grow. *)
Record regular (I : St -> Prop) : Prop := {
  rg_keep : forall st sp m, I st -> (m < moves p)%nat -> eligible st sp m = true -> I (p_accept p st m);
  rg_dead : forall st sp m m', I st -> (m < moves p)%nat -> eligible st sp m = true -> (m' < moves p)%nat ->
    p_live p st m' = false -> p_live p (p_accept p st m) m' = false;
  rg_taken : forall st sp m, I st -> (m < moves p)%nat -> eligible st sp m = true ->
    p_live p (p_accept p st m) m = false;
  rg_gain : lazy p = true -> forall st sp m m', I st -> (m < moves p)%nat -> eligible st sp m = true ->
    (m' < moves p)%nat -> p_live p (p_accept p st m) m' = true ->
    Float.units (value_at (p_accept p st m) m') <= Float.units (value_at st m')
}.

(** The entries of the queue that would be measured again. *)
Definition pending_live (st : St) (ep : nat) (h : list gainEntry) : nat :=
  length (filter (fun e => epoch e <> ep /\ p_live p st (move e) = true) h).
#[local] Arguments pending_live : simpl never.

Lemma pending_perm st ep h h' : h ≡ₚ h' -> pending_live st ep h = pending_live st ep h'.
Proof. intros H. unfold pending_live. by rewrite H. Qed.

Lemma pending_cons st ep e h : pending_live st ep (e :: h)
  = ((if decide (epoch e <> ep /\ p_live p st (move e) = true) then 1 else 0) + pending_live st ep h)%nat.
Proof. unfold pending_live. rewrite filter_cons. by destruct (decide _). Qed.

Lemma pending_count st ep h : NoDup (move <$> h) -> Forall (fun m => (m < moves p)%nat) (move <$> h) ->
  (pending_live st ep h <= live_count st)%nat.
Proof.
  intros Hn Hr. unfold pending_live, live_count. set (f := filter _ h).
  assert (f `sublist_of` h) as Hs by apply sublist_filter.
  rewrite <- (length_fmap move f). apply submseteq_length, NoDup_submseteq.
  - eapply sublist_NoDup; [done|by apply fmap_sublist].
  - intros m (e & -> & He)%list_elem_of_fmap. apply list_elem_of_filter in He as [[_ Hl] Hh]. apply live_moves_elem.
    split; [|done]. apply elem_of_seq. rewrite Forall_forall in Hr.
    specialize (Hr (move e) (list_elem_of_fmap_2 move _ _ Hh)). lia.
Qed.

Lemma pending_stale st ep h : (pending_live st ep h <= stale ep h)%nat.
Proof.
  induction h as [|e h IH]; [done|]. rewrite pending_cons, stale_cons.
  destruct (decide (epoch e <> ep /\ _)) as [[H _]|_]; [rewrite decide_False by done|destruct (decide _)]; lia.
Qed.

(** A list of moves that holds every legal one holds as many as there are. *)
Lemma legal_count st ms : NoDup ms -> Forall (fun m => (m < moves p)%nat) ms ->
  (forall m, (m < moves p)%nat -> p_live p st m = true -> m ∈ ms) -> length (live_moves st ms) = live_count st.
Proof.
  intros Hn Hr Hall. unfold live_count. apply Permutation_length, NoDup_Permutation.
  - by apply live_moves_NoDup.
  - apply live_moves_NoDup, NoDup_seq.
  - intros m. rewrite !live_moves_elem, elem_of_seq. rewrite Forall_forall in Hr. split.
    + intros [Hm Hl]. specialize (Hr m Hm). split; [lia|done].
    + intros [Hm Hl]. split; [apply Hall; [lia|done]|done].
Qed.

Section Exact.
Context (I : St -> Prop) (HR : regular I) (st0 : St).

Record exact (g : gstate (St:=St)) : Prop := {
  ex_state : I (g_st g);
  ex_all : forall m, (m < moves p)%nat -> p_live p (g_st g) m = true -> m ∈ move <$> entries g;
  ex_def : Forall (fun e => refused p budget (g_st g) (move e) (Spent (g_res g)) = true) (g_deferred g);
  ex_bound : Forall (fun e => p_live p (g_st g) (move e) = true ->
    Float.units (value_at (g_st g) (move e)) <= Float.units (gain e)) (g_heap g);
  ex_trace : exists n, chooses st0 0 (Accepted (g_res g)) (g_st g) (Spent (g_res g)) n /\
    (Iters (g_res g) + pending_live (g_st g) (g_epoch g) (g_heap g) <= n + live_count (g_st g))%nat /\
    (lazy p = false -> stale (g_epoch g) (g_heap g) = 0%nat /\ Iters (g_res g) = (n + live_count (g_st g))%nat)
}.

Section Turn.
Context (g : gstate (St:=St)) (e : gainEntry) (h : list gainEntry).
Context (HI : ginv g) (HE : exact g) (Hpop : heap_pop gain_less (g_heap g) = Some (e, h)).

Lemma top_bound m : (m < moves p)%nat -> eligible (g_st g) (Spent (g_res g)) m = true ->
  m = move e \/ (m ∈ move <$> h /\ Float.units (value_at (g_st g) m) <= Float.units (gain e) /\
                 (Float.units (value_at (g_st g) m) = Float.units (gain e) -> (move e < m)%nat)).
Proof.
  intros Hm Hel. unfold eligible in Hel. apply andb_true_iff in Hel as [Hel Hrf]. apply andb_true_iff in Hel as [Hl _].
  apply negb_true_iff in Hrf. pose proof (ex_all g HE m Hm Hl) as Hin. unfold entries in Hin.
  rewrite (popped_perm g e h Hpop), fmap_app in Hin. apply elem_of_app in Hin as [Hin|Hin].
  - cbn in Hin. apply elem_of_cons in Hin as [->|Hin]; [by left|right].
    pose proof (ex_bound g HE) as Hb. rewrite (popped_perm g e h Hpop) in Hb. apply Forall_cons in Hb as [_ Hb].
    destruct (gain_pop _ _ _ (gi_queue g HI) Hpop) as (_ & _ & _ & Hr).
    apply list_elem_of_fmap in Hin as (y & -> & Hy). rewrite Forall_forall in Hb, Hr.
    specialize (Hb y Hy Hl). specialize (Hr y Hy). unfold outranks in Hr.
    assert (move y <> move e) as Hne.
    { intros Heq. destruct (rest_tracked g e h HI Hpop) as [Hn _]. apply NoDup_cons in Hn as [Hn _]. apply Hn.
      rewrite <- Heq, elem_of_app. right. apply list_elem_of_fmap_2, elem_of_app. by left. }
    split_and!; [by apply list_elem_of_fmap_2|lia|lia].
  - pose proof (ex_def g HE) as Hd. apply list_elem_of_fmap in Hin as (y & -> & Hy).
    rewrite Forall_forall in Hd. by rewrite Hd in Hrf.
Qed.

Lemma top_best : epoch e = g_epoch g -> eligible (g_st g) (Spent (g_res g)) (move e) = true ->
  best (g_st g) (Spent (g_res g)) (move e).
Proof.
  intros He Hel. destruct (popped_heap g e h HI Hpop) as [[_ Hg] _]. specialize (Hg He).
  destruct (rest_tracked g e h HI Hpop) as [_ Hr]. apply Forall_cons in Hr as [Hr _].
  split_and!; [done|done|]. intros m Hm Hel'. destruct (top_bound m Hm Hel') as [->|(_ & H1 & H2)]; [by left|right].
  rewrite <- Hg. unfold outranks. lia.
Qed.

Lemma dead_exact : p_live p (g_st g) (move e) = false ->
  exact (MkG (g_st g) h (g_deferred g) (g_epoch g) (g_res g)).
Proof.
  intros Hd. pose proof (popped_perm g e h Hpop) as Hp.
  destruct (ex_trace g HE) as (n & Ht & Hi & Hz). constructor; gproj; try apply HE.
  - intros m Hm Hl. pose proof (ex_all g HE m Hm Hl) as Hin. unfold entries in *. gproj. rewrite Hp in Hin.
    cbn in Hin. apply elem_of_cons in Hin as [->|]; [congruence|done].
  - pose proof (ex_bound g HE) as Hb. rewrite Hp in Hb. by apply Forall_cons in Hb as [_ ?].
  - exists n. split_and!; [done| |].
    + rewrite (pending_perm _ _ _ _ Hp), pending_cons in Hi. lia.
    + intros Hlz. destruct (Hz Hlz) as [Hs He]. rewrite (stale_perm _ _ _ Hp), stale_cons in Hs. split; [lia|done].
Qed.

Lemma reprice_exact : p_live p (g_st g) (move e) = true -> epoch e <> g_epoch g -> exact (reprice p g e h).
Proof.
  intros Hl He. pose proof (popped_perm g e h Hpop) as Hp. set (x := measured p (g_st g) (g_epoch g) (move e)).
  pose proof (heap_push_perm gain_less h x) as Hq.
  destruct (ex_trace g HE) as (n & Ht & Hi & Hz). constructor; gproj; fold x; try apply HE.
  - intros m Hm Hlm. pose proof (ex_all g HE m Hm Hlm) as Hin. unfold entries in *. gproj. fold x.
    rewrite Hp in Hin. rewrite Hq. done.
  - rewrite Hq. constructor; [done|]. pose proof (ex_bound g HE) as Hb. rewrite Hp in Hb. by apply Forall_cons in Hb as [_ ?].
  - exists n. rewrite (pending_perm _ _ _ _ Hp), pending_cons, decide_True in Hi by done. split_and!; [done| |].
    + rewrite (pending_perm _ _ _ _ Hq), pending_cons, decide_False by (intros [Hx _]; by apply Hx). lia.
    + intros Hlz. destruct (Hz Hlz) as [Hs _]. rewrite (stale_perm _ _ _ Hp), stale_cons, decide_False in Hs by done. done.
Qed.

Lemma defer_exact : epoch e = g_epoch g -> refused p budget (g_st g) (move e) (Spent (g_res g)) = true ->
  exact (defer g e h).
Proof.
  intros He Hrf. pose proof (popped_perm g e h Hpop) as Hp.
  destruct (ex_trace g HE) as (n & Ht & Hi & Hz). constructor; gproj; try apply HE.
  - intros m Hm Hlm. pose proof (ex_all g HE m Hm Hlm) as Hin. unfold entries in *. gproj.
    rewrite Hp in Hin. rewrite !fmap_app, !elem_of_app in *. cbn in *. set_solver.
  - apply Forall_app. split; [apply HE|]. by constructor.
  - pose proof (ex_bound g HE) as Hb. rewrite Hp in Hb. by apply Forall_cons in Hb as [_ ?].
  - exists n. rewrite (pending_perm _ _ _ _ Hp), pending_cons in Hi. split_and!; [done|lia|].
    intros Hlz. destruct (Hz Hlz) as [Hs Hit]. rewrite (stale_perm _ _ _ Hp), stale_cons in Hs. split; [lia|done].
Qed.

(** The moves left after an acceptance still hold every legal one. *)
Lemma take_all m' : eligible (g_st g) (Spent (g_res g)) (move e) = true -> (move e < moves p)%nat ->
  (m' < moves p)%nat -> p_live p (p_accept p (g_st g) (move e)) m' = true -> m' ∈ move <$> h ++ g_deferred g.
Proof.
  intros Hel Hlt Hm' Hl'. assert (p_live p (g_st g) m' = true) as Hlm.
  { apply not_false_iff_true. intros Hd. pose proof (rg_dead I HR _ _ _ _ (ex_state g HE) Hlt Hel Hm' Hd). congruence. }
  pose proof (ex_all g HE m' Hm' Hlm) as Hin. unfold entries in Hin. rewrite (popped_perm g e h Hpop) in Hin. cbn in Hin.
  apply elem_of_cons in Hin as [->|]; [|done].
  pose proof (rg_taken I HR _ _ _ (ex_state g HE) Hlt Hel). congruence.
Qed.

(** In the lazy mode a cached gain still bounds what the move would bring. *)
Lemma take_bound : lazy p = true -> eligible (g_st g) (Spent (g_res g)) (move e) = true -> (move e < moves p)%nat ->
  Forall (fun x => p_live p (p_accept p (g_st g) (move e)) (move x) = true ->
    Float.units (value_at (p_accept p (g_st g) (move e)) (move x)) <= Float.units (gain x)) (h ++ g_deferred g).
Proof.
  intros Hlz Hel Hlt. apply Forall_forall. intros x Hx Hlx.
  destruct (rest_tracked g e h HI Hpop) as [_ Hr]. apply Forall_cons in Hr as [_ Hr]. apply Forall_app in Hr as [_ Hr].
  rewrite Forall_forall in Hr. specialize (Hr (move x) (list_elem_of_fmap_2 move _ _ Hx)).
  pose proof (rg_gain I HR Hlz _ _ _ _ (ex_state g HE) Hlt Hel Hr Hlx) as Hle.
  assert (p_live p (g_st g) (move x) = true) as Hlm.
  { apply not_false_iff_true. intros Hd. pose proof (rg_dead I HR _ _ _ _ (ex_state g HE) Hlt Hel Hr Hd). congruence. }
  apply elem_of_app in Hx as [Hx|Hx].
  - pose proof (ex_bound g HE) as Hb. rewrite (popped_perm g e h Hpop) in Hb. apply Forall_cons in Hb as [_ Hb].
    rewrite Forall_forall in Hb. specialize (Hb x Hx Hlm). lia.
  - pose proof (gi_def g HI) as Hd. rewrite Forall_forall in Hd. destruct (Hd x Hx) as [_ ->]. done.
Qed.

Lemma take_exact : epoch e = g_epoch g -> eligible (g_st g) (Spent (g_res g)) (move e) = true ->
  (move e < moves p)%nat -> exact (take_move p g e h).
Proof.
  intros He Hel Hlt. pose proof (take_all) as Hall. pose proof (top_best He Hel) as Hbest.
  destruct (take_entries g e h HI Hpop) as (h' & k & -> & Hq & Hcase). set (st := p_accept p (g_st g) (move e)) in *.
  destruct (take_moves g e h HI Hpop h' st) as [Hn' Hsub]; [by destruct (lazy p); apply Hcase|].
  destruct (rest_tracked g e h HI Hpop) as [_ Hr]. apply Forall_cons in Hr as [_ Hr]. apply Forall_app in Hr as [_ Hr].
  assert (Forall (fun m => (m < moves p)%nat) (move <$> h')) as Hr'.
  { rewrite Forall_forall in Hr |- *. auto. }
  pose proof (pending_count st (S (g_epoch g)) h' Hn' Hr') as Hpc.
  destruct (ex_trace g HE) as (n & Ht & Hi & Hz). constructor; gproj.
  - by eapply (rg_keep I HR); [apply HE|..].
  - intros m Hm Hl. unfold entries. gproj. rewrite app_nil_r. specialize (Hall m Hel Hlt Hm Hl).
    destruct (lazy p); destruct Hcase as [_ Hp]; rewrite Hp; [done|]. rewrite move_measured. by apply live_moves_elem.
  - constructor.
  - pose proof take_bound as Hb. destruct (lazy p); destruct Hcase as [_ Hp]; rewrite Hp; [by apply Hb|].
    apply Forall_fmap, Forall_forall. intros m _ _. done.
  - assert (lazy p = false -> k = live_count st /\ pending_live st (S (g_epoch g)) h' = 0%nat /\
              stale (S (g_epoch g)) h' = 0%nat) as Hk.
    { intros Hlz. rewrite Hlz in Hcase. destruct Hcase as [-> Hp].
      pose proof (pending_stale st (S (g_epoch g)) h') as Hps.
      rewrite (stale_perm _ _ _ Hp), stale_measured in Hps |- *. split_and!; [|lia|done].
      rewrite Hp, length_fmap. apply legal_count; [|done|auto].
      destruct (rest_tracked g e h HI Hpop) as [Hn _]. apply NoDup_cons in Hn as [_ Hn]. by apply NoDup_app in Hn as (_ & _ & ?). }
    exists (n + live_count (g_st g))%nat. split_and!; [by apply chooses_snoc|..].
    + destruct (lazy p); [destruct Hcase as [-> _]; lia|]. destruct (Hk eq_refl) as (-> & -> & _). destruct (Hz eq_refl). lia.
    + intros Hlz. destruct (Hk Hlz) as (-> & _ & ->). destruct (Hz Hlz) as [_ ->]. done.
Qed.

End Turn.

Lemma finished_exhausted g : ginv g -> exact g -> finished g -> exhausted (g_st g) (Spent (g_res g)).
Proof.
  intros HI HE Hf m Hm. apply not_true_iff_false. intros Hel.
  assert (Hel' := Hel). unfold eligible in Hel'.
  apply andb_true_iff in Hel' as [Hel' Hrf]. apply andb_true_iff in Hel' as [Hl Hg]. apply negb_true_iff in Hg, Hrf.
  unfold finished in Hf. destruct (heap_pop gain_less (g_heap g)) as [[e h]|] eqn:Epop.
  - destruct Hf as [g' Ht]. destruct (popped_heap g e h HI Epop) as [[_ Hge] _].
    unfold turn_of in Ht. destruct (p_live p (g_st g) (move e)) eqn:El; cbn in Ht; [|done].
    destruct (Nat.eqb_spec (epoch e) (g_epoch g)) as [He|]; cbn in Ht; [|done]. specialize (Hge He).
    destruct (Float.le (gain e) Float.zero) eqn:Ele; [clear Ht|by destruct (refused _ _ _ _ _)].
    destruct (top_bound g e h HI HE Epop m Hm Hel) as [->|(_ & Hb & _)]; [congruence|].
    assert (Float.finite (gain e)) as Hfe by (rewrite Hge; apply finiteGain_finite).
    rewrite (Float.finite_le _ _ Hfe zero_finite) in Ele.
    rewrite (Float.finite_le (value_at (g_st g) m) _ (finiteGain_finite _) zero_finite) in Hg. apply Z.leb_le in Ele. apply Z.leb_gt in Hg. lia.
  - assert (g_heap g = []) as Hnil by (destruct (g_heap g) eqn:Eh; [done|];
      destruct (heap_pop_some gain_less (g0 :: l)) as (? & ? & ?); [done|congruence]).
    pose proof (ex_all g HE m Hm Hl) as Hin. unfold entries in Hin. rewrite Hnil in Hin. cbn in Hin.
    pose proof (ex_def g HE) as Hd. apply list_elem_of_fmap in Hin as (y & -> & Hy).
    rewrite Forall_forall in Hd. by rewrite Hd in Hrf.
Qed.

Lemma turn_exact g e h g' : ginv g -> exact g -> heap_pop gain_less (g_heap g) = Some (e, h) ->
  turn_of p budget g e h = Next g' -> exact g'.
Proof.
  intros HI HE Hpop Ht. destruct (turn_trace g e h g' HI Hpop Ht) as [_|(Hlt & Hel & He & ->)];
    [|by apply take_exact].
  revert Ht. unfold turn_of. destruct (p_live _ _ _) eqn:El; cbn [negb]; [|intros [= <-]; by eapply dead_exact].
  destruct (Nat.eqb_spec (epoch e) (g_epoch g)) as [He|He]; cbn [negb]; [|intros [= <-]; by apply reprice_exact].
  destruct (Float.le _ _) eqn:Eg; [done|]. destruct (refused _ _ _ _ _) eqn:Er; intros [= <-]; [by apply defer_exact|].
  destruct (popped_heap g e h HI Hpop) as [[_ Hg] _]. apply take_exact; try done.
  - unfold eligible. by rewrite <- Hg, El, Eg, Er.
  - destruct (rest_tracked g e h HI Hpop) as [_ Hr]. by apply Forall_cons in Hr as [? _].
Qed.

Lemma initial_exact : I st0 -> exact (initial p st0).
Proof.
  intros H0. destruct (initial_spec st0) as (h & -> & Hq & Hp).
  assert (stale 0 h = 0%nat) as Hs by (by rewrite (stale_perm _ _ _ Hp), stale_measured).
  assert (length h = live_count st0) as Hl by (by rewrite Hp, length_fmap).
  pose proof (pending_stale st0 0 h). constructor; gproj; try done.
  - intros m Hm Hlm. unfold entries. gproj. rewrite app_nil_r, Hp, move_measured. apply live_moves_elem.
    split; [apply elem_of_seq; lia|done].
  - rewrite Hp. apply Forall_fmap, Forall_forall. intros m _ _. done.
  - exists 0%nat. split_and!; [constructor|lia|auto].
Qed.

(** Both modes make the choices of the rule until nothing is left. *)
Lemma run_exact cancelled : I st0 -> (forall n, cancelled n = false) ->
  exists st' res n, runLazyGreedy p budget cancelled st0 = Some (Ok (st', res)) /\
    chooses st0 0 (Accepted res) st' (Spent res) n /\ exhausted st' (Spent res) /\
    (Iters res <= n + live_count st')%nat /\ (lazy p = false -> Iters res = (n + live_count st')%nat).
Proof.
  intros H0 Hc. destruct (initial_inv st0) as [HI Hm].
  destruct (loop_rule exact turn_exact (greedy_fuel p) cancelled 0 (initial p st0) HI (initial_exact H0) Hm)
    as (r & Hr & [[_ [n Hn]]|(g & -> & HIg & HE & Hf)]); [by rewrite Hc in Hn|].
  destruct (ex_trace g HE) as (n & Ht & Hi & Hz).
  exists (g_st g), (g_res g), n. split_and!; [done|done|by apply finished_exhausted|lia|]. intros Hlz. by apply Hz.
Qed.

End Exact.

End Spec.

(** ** The two modes *)

Definition eager {St} (p : greedyProblem St) : greedyProblem St :=
  MkProblem (moves p) false (p_gain p) (p_cost p) (p_afford p) (p_live p) (p_accept p).

Lemma regular_eager {St} (p : greedyProblem St) budget I : regular p budget I -> regular (eager p) budget I.
Proof. intros [H1 H2 H3 H4]. constructor; [exact H1|exact H2|exact H3|done]. Qed.

Lemma chooses_eager {St} (p : greedyProblem St) budget st sp l st' sp' n :
  chooses (eager p) budget st sp l st' sp' n -> chooses p budget st sp l st' sp' n.
Proof. induction 1; [constructor|]. by eapply (chooses_cons p budget). Qed.

Lemma spends_budget {St} (p : greedyProblem St) budget st sp l st' sp' :
  spends p budget st sp l st' sp' -> l <> [] -> sp' <= budget.
Proof.
  induction 1 as [|st sp m l st' sp' Hm He Hr IH]; [done|]. intros _. destruct l as [|m' l]; [|by apply IH].
  inversion Hr; subst. unfold eligible, refused in He. unfold spent_after.
  apply andb_true_iff in He as [_ He]. apply negb_true_iff, orb_false_iff in He as [He _].
  apply orb_false_iff in He as [_ He]. lia.
Qed.

(** C9: Whatever the objective, the budget and the moment of a cancellation, [runLazyGreedy] returns.
    It reports the budget error only if the context was cancelled; otherwise the moves it took are
    distinct, each was legal, of strictly positive gain, affordable and permitted in the state it was
    taken in, the amount reported is what they cost there and within the budget, and no move was
    measured more than once per acceptance besides the first time. *)
Theorem greedy_ends_guarded {St} (p : greedyProblem St) (budget : Z) (cancelled : nat -> bool) (st : St) :
  exists r, runLazyGreedy p budget cancelled st = Some r /\
  ((r = Err ErrBudget /\ exists n, cancelled n = true) \/
   exists st' res, r = Ok (st', res) /\ spends p budget st 0 (Accepted res) st' (Spent res) /\
     NoDup (Accepted res) /\ (Accepted res <> [] -> Spent res <= budget) /\
     (Iters res <= moves p * (1 + length (Accepted res)))%nat).
Proof.
  destruct (run_spends p budget cancelled st) as (r & Hr & H). exists r. split; [done|].
  destruct H as [?|(st' & res & -> & Hs & Hn & Hi)]; [by left|]. right. exists st', res. split_and!; try done. by eapply spends_budget.
Qed.

(** C10: On a problem whose illegal moves stay illegal, whose taken moves become illegal and whose gains
    do not grow as others are taken, the lazy queue, which measures a stale entry only when it reaches
    the top, ends in the same state, with the same moves in the same order and the same amount as
    re-measuring every move after every acceptance; both follow the rule "best affordable improving
    move, ties to the lower index" until no such move is left; and it never measures more often. *)
Theorem lazy_equals_eager {St} (p : greedyProblem St) (budget : Z) (I : St -> Prop) (cancelled cancelled' : nat -> bool) st :
  lazy p = true -> regular p budget I -> I st ->
  (forall n, cancelled n = false) -> (forall n, cancelled' n = false) ->
  exists st' l sp k k' n,
    runLazyGreedy p budget cancelled st = Some (Ok (st', MkResult l sp k)) /\
    runLazyGreedy (eager p) budget cancelled' st = Some (Ok (st', MkResult l sp k')) /\
    chooses p budget st 0 l st' sp n /\ exhausted p budget st' sp /\ (k <= k')%nat.
Proof.
  intros Hlz HR HI Hc Hc'.
  destruct (run_exact p budget I HR st cancelled HI Hc) as (s1 & [l1 sp1 k1] & n1 & E1 & C1 & X1 & Hk1 & _).
  destruct (run_exact (eager p) budget I (regular_eager _ _ _ HR) st cancelled' HI Hc')
    as (s2 & [l2 sp2 k2] & n2 & E2 & C2 & X2 & _ & Hk2).
  apply chooses_eager in C2. cbn in *. destruct (chooses_unique p budget _ _ _ _ _ _ C1 X1 _ _ _ _ C2 X2) as (-> & -> & -> & ->).
  exists s2, l2, sp2, k1, k2, n2. split_and!; try done. rewrite (Hk2 eq_refl). done.
Qed.

(** Three moves worth 3, 5 and 4 at prices 2, 4 and 3, a bag of taken moves, a budget of 6: the second
    move leaves room for the first only. *)
Definition knapsack : greedyProblem (list nat) :=
  MkProblem 3 true (fun _ m => F64.of_int (nth m [3; 5; 4] 0)) (fun _ m => nth m [2; 4; 3] 0)
    (fun _ _ _ _ => true) (fun st m => negb (existsb (Nat.eqb m) st)) (fun st m => m :: st).

Lemma knapsack_regular : regular knapsack 6 (fun _ => True).
Proof.
  constructor; cbn; try done.
  - intros st sp m m' _ _ _ _ H. by rewrite negb_orb, H, andb_false_r.
  - intros st sp m _ _ _. by rewrite Nat.eqb_refl.
Qed.

Lemma lazy_equals_eager_witness : exists k k', (k <= k')%nat /\
  runLazyGreedy knapsack 6 (fun _ => false) [] = Some (Ok ([0%nat; 1%nat], MkResult [1%nat; 0%nat] 6 k)) /\
  runLazyGreedy (eager knapsack) 6 (fun _ => false) [] = Some (Ok ([0%nat; 1%nat], MkResult [1%nat; 0%nat] 6 k')).
Proof.
  destruct (lazy_equals_eager knapsack 6 (fun _ => True) (fun _ => false) (fun _ => false) [] eq_refl knapsack_regular I
    (fun _ => eq_refl) (fun _ => eq_refl)) as (st' & l & sp & k & k' & n & E1 & E2 & _ & _ & Hk).
  assert (exists k0, runLazyGreedy knapsack 6 (fun _ => false) [] = Some (Ok ([0%nat; 1%nat], MkResult [1%nat; 0%nat] 6 k0)))
    as [k0 Hv] by (eexists; vm_compute; reflexivity).
  rewrite Hv in E1. injection E1 as <- <- <- <-. eauto.
Defined.
