(* ===== verification/BlockSelect.v ===== *)
(** * Block selection

    Models [src/internal/analyzer/selector.go] and the [Block] and [Selection] types of [types.go]: the
    two guards of [NewSelector], the frozen candidate set, and [Select] over the engine of
    [Greedy.v].  The [kept] slice and the [blockState] a call of [Select] captures are one state.
    Whether p-selection is available is the value [scheduler.PSelectionAvailable] answers. *)

From S2P Require Import Prelude GoLib Core Frame F32 F64Ops GoSort Heap Dag DagSlice Greedy.

Record Block := MkBlock {
  bID : bytes; bPos : Z; bTokens : Z; bKind : Z; bRoot : Hash; bEphemeral : bool; bSuperseded : bool
}.

Record Selection := MkSelection {
  Keep : list bytes; selTokens : Z; selValue : Z; Dropped : list bytes; selIters : nat
}.

Record greedySelector := MkSelector {
  sel_p : Z; sel_blocks : list Block; sel_value : gmap bytes Z; sel_lambda : Z; sel_lazy : bool
}.

(** [blockGroup]: a content root, or the id of a block that has none. *)
Definition blockGroup : Type := Hash * bytes.

Definition groupOf (b : Block) : blockGroup :=
  if Hash_IsZero (bRoot b) then (zeroHash, bID b) else (bRoot b, []).

(** What a block contributes: its score if it was scored, else its relevance, else nothing. *)
Definition block_value (slice : Slice) (delta : gmap bytes Z) (b : Block) : Z :=
  match delta !! bID b with
  | Some v => satur v
  | None => match Scores slice !! bID b with Some v => satur (Float.of_f32 v) | None => Float.zero end
  end.

Definition newGreedySelector (p : Z) (blocks : list Block) (slice : Slice) (delta : gmap bytes Z)
    (lambda : Z) (lazy : bool) : greedySelector :=
  let blocks := sort_by_key bID blocks in
  {| sel_p := p; sel_blocks := blocks;
     sel_value := fold_left (fun m b => <[bID b := block_value slice delta b]> m) blocks ∅;
     sel_lambda := lambda; sel_lazy := lazy |}.

Definition NewSelector (available : bool) (p : Z) (blocks : list Block) (slice : Slice) (delta : gmap bytes Z)
    (lambda : Z) (lazy : bool) : outcome core_error greedySelector :=
  if existsb (fun b => bPos b <? p) blocks then Err ErrBudget
  else if negb available then Err ErrNotImplemented
  else Ok (newGreedySelector p blocks slice delta lambda lazy).

Definition P (s : greedySelector) : Z := sel_p s.

(** ** One call of [Select] *)

Record blockState := MkBlockState {
  bs_cov : gmap blockGroup Z; bs_count : gmap blockGroup Z; bs_kept : list bool
}.

(** A map that misses a key answers the zero value. *)
Definition at_key `{Countable K} (m : gmap K Z) (k : K) : Z := default 0 (m !! k).

Section Selector.
Context (s : greedySelector).

Definition no_block : Block := MkBlock [] 0 0 0 zeroHash false false.

(** [s.blocks[i]]; the engine's moves are indices of the slice. *)
Definition block_at (i : nat) : Block := nth i (sel_blocks s) no_block.

Definition value_of_id (id : bytes) : Z := at_key (sel_value s) id.

Definition gainOf (b : Block) (st : blockState) : Z :=
  let g := groupOf b in
  let old := at_key (bs_cov st) g in
  let gain := Float.sub (satur (Float.add old (value_of_id (bID b)))) (satur old) in
  let red := (if bSuperseded b then 1 else 0) + (if at_key (bs_count st) g >? 0 then 1 else 0) in
  Float.sub gain (Float.mul (sel_lambda s) (F64.of_int red)).

Definition accept_block (st : blockState) (i : nat) : blockState :=
  let b := block_at i in
  let g := groupOf b in
  MkBlockState (<[g := Float.add (at_key (bs_cov st) g) (value_of_id (bID b))]> (bs_cov st))
    (<[g := at_key (bs_count st) g + 1]> (bs_count st)) (<[i := true]> (bs_kept st)).

Definition is_kept (st : blockState) (i : nat) : bool := nth i (bs_kept st) false.

Definition select_problem : greedyProblem blockState := {|
  moves := length (sel_blocks s);
  lazy := sel_lazy s;
  p_gain := fun st i => gainOf (block_at i) st;
  p_cost := fun _ i => bTokens (block_at i);
  p_afford := fun _ _ _ _ => true;
  p_live := fun st i => negb (is_kept st i);
  p_accept := accept_block
|}.

Definition fresh_state : blockState := MkBlockState ∅ ∅ (replicate (length (sel_blocks s)) false).

(** [valueOf]: the first pass counts and accumulates, the second sums one term per group. *)
Record tally := MkTally { t_cov : gmap blockGroup Z; t_count : gmap blockGroup Z; t_red : Z }.

Definition by_id : gmap bytes Block := fold_left (fun m b => <[bID b := b]> m) (sel_blocks s) ∅.

Definition count_block (t : tally) (id : bytes) : tally :=
  match by_id !! id with
  | None => t
  | Some b =>
      let g := groupOf b in
      let red := t_red t + (if bSuperseded b then 1 else 0) + (if at_key (t_count t) g >? 0 then 1 else 0) in
      MkTally (<[g := Float.add (at_key (t_cov t) g) (value_of_id id)]> (t_cov t))
        (<[g := at_key (t_count t) g + 1]> (t_count t)) red
  end.

Definition sum_group (cov : gmap blockGroup Z) (acc : Z * gset blockGroup) (id : bytes) : Z * gset blockGroup :=
  match by_id !! id with
  | None => acc
  | Some b =>
      let g := groupOf b in
      if bool_decide (g ∈ acc.2) then acc else (Float.add acc.1 (satur (at_key cov g)), {[g]} ∪ acc.2)
  end.

Definition valueOf (keep : list bytes) : Z :=
  let t := fold_left count_block keep (MkTally ∅ ∅ 0) in
  let total := (fold_left (sum_group (t_cov t)) keep (Float.zero, ∅)).1 in
  Float.sub total (Float.mul (sel_lambda s) (F64.of_int (t_red t))).

Definition dropped (st : blockState) : list bytes :=
  (fun i => bID (block_at i)) <$> List.filter (fun i => negb (is_kept st i)) (seq 0 (length (sel_blocks s))).

Definition Select (cancelled : nat -> bool) (budget : Z) : option (outcome core_error Selection) :=
  match runLazyGreedy select_problem budget cancelled fresh_state with
  | None => None
  | Some (Panic) => Some Panic
  | Some (Err e) => Some (Err e)
  | Some (Ok (st, res)) =>
      let keep := (fun i => bID (block_at i)) <$> Accepted res in
      let tokens := fold_left (fun t i => add_tokens t (bTokens (block_at i))) (Accepted res) 0 in
      Some (Ok (MkSelection keep tokens (valueOf keep) (dropped st) (Iters res)))
  end.

End Selector.
