(* ===== verification/BlockSpec.v ===== *)
(** * What block selection guarantees

    A constructed selector holds no block before the compaction point; a selection partitions the
    candidate set, spends at most the budget and only on improving blocks; eagerly, or when no two
    blocks share a content root, it follows the reference rule; and the order in which the blocks are
    handed over does not matter.  Two examples show what rounding does to claims of the comments. *)

From S2P Require Import Prelude GoLib Core Frame F32 F64Ops GoSort Heap Dag DagSlice Greedy GreedySpec BlockSelect.

(** ** The constructor *)

Lemma NewSelector_ok av p blocks slice delta lambda lz s :
  NewSelector av p blocks slice delta lambda lz = Ok s ->
  s = newGreedySelector p blocks slice delta lambda lz /\ Forall (fun b => p <= bPos b) blocks /\ av = true.
Proof.
  unfold NewSelector. destruct (existsb _ _) eqn:E; [done|]. destruct av; cbn; [|done]. intros [= <-].
  split_and!; [done| |done]. apply Forall_forall. intros b Hb.
  apply not_true_iff_false in E. destruct (Z.ltb_spec (bPos b) p) as [Hlt|]; [|lia]. exfalso. apply E.
  apply existsb_exists. exists b. split; [by apply list_elem_of_In|lia].
Qed.

Lemma newGreedySelector_perm p blocks blocks' slice delta lambda lz :
  blocks ≡ₚ blocks' -> NoDup (bID <$> blocks) ->
  newGreedySelector p blocks slice delta lambda lz = newGreedySelector p blocks' slice delta lambda lz.
Proof. intros Hp Hn. unfold newGreedySelector. by rewrite (sort_by_key_unique bID _ _ Hp Hn). Qed.

Lemma existsb_perm {A} (f : A -> bool) l l' : l ≡ₚ l' -> existsb f l = existsb f l'.
Proof.
  intros Hp. apply eq_true_iff_eq. rewrite !existsb_exists.
  split; intros (x & Hx & Hf); exists x; (split; [|done]); apply list_elem_of_In; apply list_elem_of_In in Hx; by rewrite Hp in *.
Qed.

(** ** A run of the engine over blocks *)

Section Run.
Context (s : greedySelector) (budget : Z).
Abbreviation n := (length (sel_blocks s)).
Abbreviation pr := (select_problem s).

Definition total_tokens (bs : list Block) : Z := foldr (fun b t => bTokens b + t) 0 bs.

Definition sane (st : blockState) : Prop := length (bs_kept st) = n.

Lemma is_kept_accept st i j : sane st -> (i < n)%nat ->
  is_kept (accept_block s st i) j = bool_decide (j = i) || is_kept st j.
Proof.
  intros Hs Hi. unfold is_kept, accept_block. cbn [bs_kept]. rewrite !nth_lookup.
  destruct (decide (j = i)) as [->|Hne].
  - rewrite list_lookup_insert_eq by (by rewrite Hs). by rewrite bool_decide_true.
  - rewrite list_lookup_insert_ne by done. by rewrite bool_decide_false.
Qed.

Lemma sane_accept st i : sane st -> sane (accept_block s st i).
Proof. unfold sane, accept_block. cbn. by rewrite length_insert. Qed.

Lemma select_spends st sp l st' sp' : spends pr budget st sp l st' sp' -> sane st ->
  sane st' /\ (forall j, is_kept st' j = bool_decide (j ∈ l) || is_kept st j) /\
  sp' = fold_left (fun t i => add_tokens t (bTokens (block_at s i))) l sp /\
  Forall (fun i => 0 <= bTokens (block_at s i)) l.
Proof.
  induction 1 as [st sp|st sp m l st' sp' Hm He Hr IH]; intros Hs.
  { split_and!; try done. }
  destruct (IH (sane_accept _ _ Hs)) as (Hs' & Hk & Hsp & Hnn). split_and!; [done| |done|].
  - intros j. rewrite Hk. cbn [p_accept select_problem]. rewrite is_kept_accept by done. rewrite orb_assoc. f_equal.
    rewrite <- bool_decide_or. apply bool_decide_ext. set_solver.
  - constructor; [|done]. unfold eligible, refused in He. cbn [p_cost select_problem] in He.
    apply andb_true_iff in He as [_ He]. apply negb_true_iff, orb_false_iff in He as [He _].
    apply orb_false_iff in He as [He _]. lia.
Qed.

(** Where no price can push the running sum past the integer range, the amount is the true sum. *)
Lemma select_sum st sp l st' sp' : spends pr budget st sp l st' sp' ->
  Forall (fun b => bTokens b <= MaxInt - budget) (sel_blocks s) -> 0 <= sp <= budget ->
  sp' = sp + total_tokens (block_at s <$> l) /\ 0 <= sp' <= budget.
Proof.
  induction 1 as [st sp|st sp m l st' sp' Hm He Hr IH]; intros Hb Hsp; [cbn; lia|].
  unfold eligible, refused in He. cbn [p_cost p_afford select_problem] in He.
  apply andb_true_iff in He as [_ He]. apply negb_true_iff, orb_false_iff in He as [He _].
  apply orb_false_iff in He as [He1 He2]. unfold spent_after in *. cbn [p_cost select_problem moves] in *.
  assert (bTokens (block_at s m) <= MaxInt - budget) as Hc.
  { rewrite Forall_forall in Hb. apply Hb. unfold block_at. apply list_elem_of_In, nth_In. lia. }
  assert (add_tokens sp (bTokens (block_at s m)) = sp + bTokens (block_at s m)) as Ha.
  { unfold add_tokens, MaxInt in *. rewrite <- (s64_u64 (sp + _)) at 2 by lia. unfold s64, u64. by rewrite Z.mod_mod. }
  rewrite Ha in *. destruct (IH Hb) as [-> ?]; [lia|]. cbn. unfold total_tokens in *. split; [cbn; lia|lia].
Qed.

Lemma fresh_sane : sane (fresh_state s).
Proof. unfold sane, fresh_state. cbn. apply length_replicate. Qed.

Lemma fresh_kept j : is_kept (fresh_state s) j = false.
Proof.
  unfold is_kept, fresh_state. cbn [bs_kept]. rewrite nth_lookup. destruct (replicate _ _ !! j) eqn:E; [|done].
  by apply lookup_replicate in E as [-> _].
Qed.

(** The kept indices and the others, in order, are all the indices. *)
Lemma keep_drop_perm st l : NoDup l -> Forall (fun i => (i < n)%nat) l ->
  (forall j, is_kept st j = bool_decide (j ∈ l)) ->
  l ++ List.filter (fun i => negb (is_kept st i)) (seq 0 n) ≡ₚ seq 0 n.
Proof.
  intros Hn Hr Hk. rewrite Forall_forall in Hr. apply NoDup_Permutation; [| apply NoDup_seq|].
  - apply NoDup_app. split_and!; [done| |].
    + intros i Hi Hf. apply list_elem_of_In, filter_In in Hf as [_ Hf]. rewrite Hk, bool_decide_true in Hf by done. done.
    + rewrite NoDup_ListNoDup. apply List.NoDup_filter. rewrite <- NoDup_ListNoDup. apply NoDup_seq.
  - intros i. rewrite elem_of_app, (list_elem_of_In (List.filter _ _)), filter_In, <- list_elem_of_In, elem_of_seq, Hk.
    destruct (decide (i ∈ l)) as [Hi|Hi].
    + specialize (Hr i Hi). split; [lia|]. by left.
    + rewrite bool_decide_false by done. split; [intros [?|[? _]]; done|intros ?; right; done].
Qed.

Lemma blocks_seq : block_at s <$> seq 0 n = sel_blocks s.
Proof.
  apply list_eq. intros i. rewrite list_lookup_fmap. destruct (decide (i < n)%nat) as [Hi|Hi].
  - rewrite lookup_seq_lt by done. cbn. unfold block_at. rewrite nth_lookup.
    by destruct (lookup_lt_is_Some_2 _ _ Hi) as [b ->].
  - rewrite lookup_seq_ge by lia. symmetry. apply lookup_ge_None. lia.
Qed.

(** ** When the rule is followed *)

(** No group has been touched that a block still on offer belongs to. *)
Definition untouched (st : blockState) : Prop :=
  sane st /\ forall i, (i < n)%nat -> is_kept st i = false ->
    bs_cov st !! groupOf (block_at s i) = None /\ bs_count st !! groupOf (block_at s i) = None.

Lemma eager_regular : sel_lazy s = false -> regular pr budget sane.
Proof.
  intros Hl. constructor; cbn [select_problem p_live p_accept moves lazy]; try congruence.
  - intros st sp m Hs _ _. by apply sane_accept.
  - intros st sp m m' Hs Hm _ Hm' Hd. rewrite is_kept_accept by done. apply negb_false_iff in Hd. by rewrite Hd, orb_true_r.
  - intros st sp m Hs Hm _. rewrite is_kept_accept by done. by rewrite bool_decide_true.
Qed.

Lemma block_at_lookup i : (i < n)%nat -> sel_blocks s !! i = Some (block_at s i).
Proof. intros [b Hb]%lookup_lt_is_Some_2. unfold block_at. by rewrite nth_lookup, Hb. Qed.

Lemma group_inj i j : NoDup (groupOf <$> sel_blocks s) -> (i < n)%nat -> (j < n)%nat ->
  groupOf (block_at s i) = groupOf (block_at s j) -> i = j.
Proof.
  intros Hn Hi Hj He. apply (NoDup_lookup _ i j (groupOf (block_at s i)) Hn); rewrite list_lookup_fmap.
  - by rewrite (block_at_lookup i Hi).
  - rewrite (block_at_lookup j Hj), He. done.
Qed.

Lemma distinct_regular : NoDup (groupOf <$> sel_blocks s) -> regular pr budget untouched.
Proof.
  intros Hn. assert (forall st m, untouched st -> (m < n)%nat -> untouched (accept_block s st m)) as Hkeep.
  { intros st m [Hs Hu] Hm. split; [by apply sane_accept|]. intros i Hi Hk.
    rewrite is_kept_accept in Hk by done. apply orb_false_iff in Hk as [Hne Hk]. apply bool_decide_eq_false_1 in Hne.
    destruct (Hu i Hi Hk) as [H1 H2]. unfold accept_block. cbn [bs_cov bs_count].
    rewrite !lookup_insert_ne; [done|..]; intros He; apply Hne; symmetry; by apply (group_inj _ _ Hn). }
  constructor; cbn [select_problem p_live p_accept moves lazy].
  - intros st sp m Hs Hm _. by apply Hkeep.
  - intros st sp m m' [Hs _] Hm _ Hm' Hd. rewrite is_kept_accept by done. apply negb_false_iff in Hd. by rewrite Hd, orb_true_r.
  - intros st sp m [Hs _] Hm _. rewrite is_kept_accept by done. by rewrite bool_decide_true.
  - intros _ st sp m m' Hu Hm _ Hm' Hl. apply negb_true_iff in Hl. assert (is_kept st m' = false) as Hk.
    { destruct Hu as [Hs _]. rewrite is_kept_accept in Hl by done. by apply orb_false_iff in Hl as [_ ?]. }
    destruct (proj2 (Hkeep st m Hu Hm) m' Hm' Hl) as [H1 H2]. destruct (proj2 Hu m' Hm' Hk) as [H3 H4].
    unfold value_at. cbn [p_gain select_problem]. unfold gainOf, at_key. rewrite H1, H2, H3, H4. done.
Qed.

Lemma fresh_untouched : untouched (fresh_state s).
Proof. split; [apply fresh_sane|]. intros i _ _. split; apply lookup_empty. Qed.

End Run.

(** ** The theorems *)

(** [NewSelector] refuses with the budget error exactly when some block precedes the compaction
    point, whether or not p-selection is available, and otherwise with "not implemented" exactly when
    it is not available.  The selector it builds holds the same blocks, none before the point. *)
Theorem selector_guards (av : bool) (p : Z) (blocks : list Block) (slice : Slice) (delta : gmap bytes Z)
    (lambda : Z) (lz : bool) :
  (NewSelector av p blocks slice delta lambda lz = Err ErrBudget <-> exists b, b ∈ blocks /\ bPos b < p) /\
  (NewSelector av p blocks slice delta lambda lz = Err ErrNotImplemented <->
     av = false /\ Forall (fun b => p <= bPos b) blocks) /\
  (forall s, NewSelector av p blocks slice delta lambda lz = Ok s ->
     P s = p /\ sel_blocks s ≡ₚ blocks /\ Forall (fun b => p <= bPos b) (sel_blocks s)).
Proof.
  split_and!.
  - unfold NewSelector. destruct (existsb _ _) eqn:E.
    + split; [intros _|done]. apply existsb_exists in E as (b & Hb & Hl). exists b. split; [by apply list_elem_of_In|lia].
    + split; [by destruct av|]. intros (b & Hb & Hl). apply not_true_iff_false in E. exfalso. apply E.
      apply existsb_exists. exists b. split; [by apply list_elem_of_In|lia].
  - unfold NewSelector. destruct (existsb _ _) eqn:E.
    + split; [done|]. intros [_ Hf]. apply existsb_exists in E as (b & Hb & Hl).
      rewrite Forall_forall in Hf. specialize (Hf b (proj2 (list_elem_of_In _ _) Hb)). lia.
    + destruct av; cbn; (split; [try done|by intros []]). intros _. split; [done|].
      apply Forall_forall. intros b Hb. destruct (Z.le_gt_cases p (bPos b)); [done|].
      apply not_true_iff_false in E. exfalso. apply E. apply existsb_exists. exists b. split; [by apply list_elem_of_In|lia].
  - intros s Hs. apply NewSelector_ok in Hs as (-> & Hp & _). unfold P, newGreedySelector. cbn.
    split_and!; [done|apply sort_by_key_perm|by rewrite sort_by_key_perm].
Qed.

(** The order in which distinct blocks are handed over reaches neither the selector nor its answers. *)
Theorem selector_order_independent (av : bool) (p : Z) (blocks blocks' : list Block) (slice : Slice) (delta : gmap bytes Z)
    (lambda : Z) (lz : bool) :
  blocks ≡ₚ blocks' -> NoDup (bID <$> blocks) ->
  NewSelector av p blocks slice delta lambda lz = NewSelector av p blocks' slice delta lambda lz.
Proof.
  intros Hp Hn. unfold NewSelector. by rewrite (existsb_perm _ _ _ Hp), (newGreedySelector_perm _ _ _ _ _ _ _ Hp Hn).
Qed.

(** A selection that is not cancelled returns.  Its kept and dropped blocks are the candidate set,
    each block once and none before the compaction point; [Tokens] is the true sum of the kept prices
    and within the budget; and each kept block was of strictly positive gain when it was taken. *)
Theorem select_partitions (av : bool) (p : Z) (blocks : list Block) (slice : Slice) (delta : gmap bytes Z)
    (lambda : Z) (lz : bool) (s : greedySelector) (budget : Z) (cancelled : nat -> bool) :
  NewSelector av p blocks slice delta lambda lz = Ok s ->
  0 <= budget -> Forall (fun b => bTokens b <= MaxInt - budget) blocks -> (forall k, cancelled k = false) ->
  exists l st sel kept lost, Select s cancelled budget = Some (Ok sel) /\
    kept ++ lost ≡ₚ blocks /\ Keep sel = bID <$> kept /\ Dropped sel = bID <$> lost /\
    Forall (fun b => p <= bPos b) blocks /\
    selTokens sel = total_tokens kept /\ 0 <= selTokens sel <= budget /\
    kept = block_at s <$> l /\ spends (select_problem s) budget (fresh_state s) 0 l st (selTokens sel).
Proof.
  intros Hs H0 Hb Hc. apply NewSelector_ok in Hs as (Es & Hpos & _).
  assert (sel_blocks s ≡ₚ blocks) as Hperm by (rewrite Es; apply sort_by_key_perm).
  rewrite <- Hperm in Hb. destruct (run_spends (select_problem s) budget cancelled (fresh_state s))
    as (r & Hr & [[_ [k Hk]]|(st & res & -> & Hsp & Hn & _)]); [by rewrite Hc in Hk|].
  destruct (select_spends s budget _ _ _ _ _ Hsp (fresh_sane s)) as (_ & Hkept & Htok & _).
  destruct (select_sum s budget _ _ _ _ _ Hsp Hb ltac:(lia)) as [Hsum Hrange]. rewrite Z.add_0_l in Hsum.
  set (lost := List.filter (fun i => negb (is_kept st i)) (seq 0 (length (sel_blocks s)))).
  exists (Accepted res), st, (MkSelection (bID <$> (block_at s <$> Accepted res)) (Spent res)
    (valueOf s (bID <$> (block_at s <$> Accepted res))) (bID <$> (block_at s <$> lost)) (Iters res)),
    (block_at s <$> Accepted res), (block_at s <$> lost).
  unfold Select. rewrite Hr. rewrite <- Htok. rewrite <- !list_fmap_compose. split_and!; try done.
  - rewrite <- fmap_app, <- Hperm, <- (blocks_seq s). apply fmap_Permutation, keep_drop_perm; [done| |].
    + clear -Hsp. induction Hsp; constructor; done.
    + intros j. by rewrite Hkept, fresh_kept, orb_false_r.
  - cbn. lia.
  - cbn. lia.
Qed.

(** C11: When every move is re-measured after each acceptance, or when no two blocks share a content root,
    [Select] keeps exactly what the reference rule keeps, in its order: the affordable block of largest
    positive gain, the lower id on ties, until no block is both affordable and improving. *)
Theorem select_follows_rule (p : Z) (blocks : list Block) (slice : Slice) (delta : gmap bytes Z)
    (lambda : Z) (lz : bool) (budget : Z) (cancelled : nat -> bool) :
  lz = false \/ NoDup (groupOf <$> blocks) -> (forall k, cancelled k = false) ->
  let s := newGreedySelector p blocks slice delta lambda lz in
  exists l st sp n sel, Select s cancelled budget = Some (Ok sel) /\
    Keep sel = (fun i => bID (block_at s i)) <$> l /\
    chooses (select_problem s) budget (fresh_state s) 0 l st sp n /\ exhausted (select_problem s) budget st sp.
Proof.
  intros Hcase Hc s.
  assert (exists I, regular (select_problem s) budget I /\ I (fresh_state s)) as (I & HR & HI).
  { destruct Hcase as [Hl|Hn].
    - exists (sane s). split; [by apply eager_regular|apply fresh_sane].
    - exists (untouched s). split; [|apply fresh_untouched]. apply distinct_regular.
      assert (sel_blocks s ≡ₚ blocks) as -> by apply sort_by_key_perm. done. }
  destruct (run_exact (select_problem s) budget I HR (fresh_state s) cancelled HI Hc) as (st & res & n & Hr & Hch & Hx & _).
  eexists (Accepted res), st, (Spent res), n, _. unfold Select. rewrite Hr. split_and!; [done..|by eauto|done].
Qed.

(** ** Examples *)

Definition no_slice : Slice := MkSlice ∅ [] false 0 0.
Definition block_named (c : string) (tokens : Z) (root : Hash) (superseded : bool) : Block :=
  MkBlock (str c) 10 tokens 0 root false superseded.
Definition root_one : Hash := replicate 32 x01.

(** Two blocks with the same content and one with other content. *)
Definition shared_blocks : list Block :=
  [block_named "a" 1 root_one false; block_named "b" 1 root_one false; block_named "c" 1 zeroHash false].
Definition shared_delta : gmap bytes Z :=
  list_to_map [(str "a", Float.decimal 2 1); (str "b", Float.decimal 1 1); (str "c", Float.decimal 1 1 + 1)].

(** Rounding lets a gain grow: at coverage 0.2 a block worth 0.1 brings 0.30000000000000004 - 0.2, more
    than the 0.1 it brought at the start.  The cached gain is then no upper bound, and with the same
    budget the lazy and the eager selection keep different blocks. *)
Theorem lazy_select_diverges :
  let keep lz := match Select (newGreedySelector 0 shared_blocks no_slice shared_delta Float.zero lz) (fun _ => false) 2 with
                 | Some (Ok sel) => Some (Keep sel) | _ => None end in
  keep true = Some [str "a"; str "c"] /\ keep false = Some [str "a"; str "b"].
Proof. vm_compute. split; reflexivity. Qed.

(** Seven superseded blocks, each worth one unit in the last place more than the penalty. *)
Definition marginal_blocks : list Block :=
  (fun c => block_named c 1 zeroHash true) <$> ["a"; "b"; "c"; "d"; "e"; "f"; "g"]%string.
Definition marginal_delta : gmap bytes Z :=
  list_to_map ((fun b => (bID b, Float.decimal 93 2 + 1)) <$> marginal_blocks).

(** Every kept block had a strictly positive gain, and the reported value is negative: the sum of the
    coverages rounds down and the product with the penalty does not. *)
Theorem select_value_negative :
  match Select (newGreedySelector 0 marginal_blocks no_slice marginal_delta (Float.decimal 93 2) true) (fun _ => false) 7 with
  | Some (Ok sel) => length (Keep sel) = 7%nat /\ F64.lt (selValue sel) Float.zero = true
  | _ => False
  end.
Proof. vm_compute. split; reflexivity. Qed.

Lemma select_partitions_witness : exists s sel,
  NewSelector true 10 shared_blocks no_slice shared_delta Float.zero true = Ok s /\
  Select s (fun _ => false) 2 = Some (Ok sel) /\ selTokens sel <= 2.
Proof.
  destruct (select_partitions true 10 shared_blocks no_slice shared_delta Float.zero true
    (newGreedySelector 10 shared_blocks no_slice shared_delta Float.zero true) 2 (fun _ => false)
    eq_refl ltac:(done) ltac:(repeat constructor; done) (fun _ => eq_refl)) as (l & st & sel & kept & lost & E & _ & _ & _ & _ & _ & [_ Ht] & _).
  exists (newGreedySelector 10 shared_blocks no_slice shared_delta Float.zero true), sel. split; [reflexivity|]. split; [exact E|exact Ht].
Defined.

Lemma select_follows_rule_witness : exists sel,
  Select (newGreedySelector 10 marginal_blocks no_slice marginal_delta (Float.decimal 93 2) true) (fun _ => false) 3 = Some (Ok sel).
Proof.
  assert (NoDup (groupOf <$> marginal_blocks)) as Hn by (apply (bool_decide_unpack _); vm_compute; exact I).
  destruct (select_follows_rule 10 marginal_blocks no_slice marginal_delta (Float.decimal 93 2) true 3 (fun _ => false)
    (or_intror Hn) (fun _ => eq_refl)) as (l & st & sp & n & sel & E & _). exists sel. exact E.
Defined.
