(* ===== verification/RepSelect.v ===== *)
(** * Representation selection

    Models the second half of [src/internal/analyzer/greedy.go] and the candidate types of [types.go]:
    the normalised solver, dependency bundles, the objective, the reserve kept for mandatory records,
    and [Propose] over the engine of [Greedy.v].  A map with only [true] entries is a set, an index of
    -1 is [None].  The solver's slices are indexed only by positions it computed from them. *)

From S2P Require Import Prelude GoLib Core Frame F64Ops GoSort Strconv Heap Dag DagSlice Greedy BlockSelect.

(** ** Representations and candidates ([types.go]) *)

Definition RepExactSpan : Z := 0.
Definition RepCapsule : Z := 1.
Definition RepPointer : Z := 2.
Definition RepArchiveOnly : Z := 3.

Definition QualUncertain : Z := 0.
Definition QualCurrent : Z := 1.
Definition QualStale : Z := 2.

Definition Active (q : Z) : bool := q =? QualCurrent.

Record Provenance := MkProv {
  Origin : bytes; provRoot : Hash; Derived : bool; provQual : Z; provTurn : Z
}.

Record Representation := MkRep {
  rItem : bytes; rKind : Z; rCoverage : Z; rCost : Z; rRequires : list bytes; rProv : Provenance
}.

Record Candidate := MkCand {
  cItem : bytes; cPos : Z; cWeight : Z; cMandatory : bool; cReps : list Representation
}.

Record Proposal := MkProposal {
  Chosen : list Representation; pTokens : Z; pValue : Z; Archive : list bytes;
  Overflow : bool; pItem : bytes; Reason : bytes; pIters : nat
}.

(** ** The running selection *)

Record repState := MkRepState {
  chosen : gmap bytes Representation; rcov : gmap bytes Z; roots : gmap Hash Z
}.

Definition newRepState : repState := MkRepState ∅ ∅ ∅.

Definition apply_rep (st : repState) (r : Representation) : repState :=
  MkRepState (<[rItem r := r]> (chosen st))
    (<[rItem r := Float.add (at_key (rcov st) (rItem r)) (rCoverage r)]> (rcov st))
    (let h := provRoot (rProv r) in
     if Hash_IsZero h then roots st else <[h := at_key (roots st) h + 1]> (roots st)).

Definition apply (st : repState) (bundle : list Representation) : repState := fold_left apply_rep bundle st.

(** ** The solver *)

Record repMove := MkMove { m_cand : nat; m_rep : nat }.

Record repSolver := MkSolver {
  rs_p : Z; rs_cands : list Candidate; rs_index : gmap bytes nat; rs_minRep : list (option nat);
  rs_binding : list bool; rs_moves : list repMove; rs_dead : list bool; rs_lambda : Z; rs_budget : Z
}.

Definition repLess (a b : Representation) : bool :=
  if negb (rKind a =? rKind b) then rKind a <? rKind b
  else if negb (rCost a =? rCost b) then rCost a <? rCost b
  else F64.gt (rCoverage a) (rCoverage b).

Definition bindsAsConstraint (c : Candidate) : bool :=
  cMandatory c &&
  existsb (fun r => negb (rKind r =? RepArchiveOnly) && Active (provQual (rProv r))) (cReps c).

(** [allowed], of a representation of a candidate that binds or does not. *)
Definition allowed (binding : bool) (r : Representation) : bool :=
  negb (rKind r =? RepArchiveOnly) && (negb binding || Active (provQual (rProv r))).

(** The copy of a candidate the solver keeps. *)
Definition normalize (c : Candidate) : Candidate :=
  MkCand (cItem c) (cPos c) (cWeight c) (cMandatory c)
    (stable_sort repLess
      ((fun r => MkRep (rItem r) (rKind r) (rCoverage r) (rCost r) (merge_sort bytes_le (rRequires r)) (rProv r))
        <$> cReps c)).

(** The loop over one candidate's representations: the index of the cheapest allowed one, the first
    of equals. *)
Definition cheaper (binding : bool) (reps : list Representation) (best : option nat) (j : nat) : option nat :=
  match reps !! j with
  | None => best
  | Some r =>
      if negb (allowed binding r) then best
      else match best with
           | None => Some j
           | Some b => match reps !! b with
                       | Some rb => if rCost r <? rCost rb then Some j else best
                       | None => best
                       end
           end
  end.

Definition minRep_of (binding : bool) (c : Candidate) : option nat :=
  fold_left (cheaper binding (cReps c)) (seq 0 (length (cReps c))) None.

(** [index]: the first position of each item. *)
Definition index_of (cands : list Candidate) : gmap bytes nat :=
  fold_left (fun m ic => match m !! cItem ic.2 with None => <[cItem ic.2 := ic.1]> m | Some _ => m end)
    (imap pair cands) ∅.

Definition moves_of (i : nat) (c : Candidate) : list repMove :=
  (MkMove i) <$> List.filter (fun j => match cReps c !! j with
                                       | Some r => allowed (bindsAsConstraint c) r
                                       | None => false
                                       end) (seq 0 (length (cReps c))).

(** ** Bundles *)

Section Solver.
Context (s : repSolver).

Definition no_rep : Representation := MkRep [] 0 0 0 [] (MkProv [] zeroHash false 0 0).
Definition no_cand : Candidate := MkCand [] 0 0 false [].

Definition cand_at (i : nat) : Candidate := nth i (rs_cands s) no_cand.
Definition rep_at (i j : nat) : Representation := nth j (cReps (cand_at i)) no_rep.
Definition min_at (i : nat) : option nat := nth i (rs_minRep s) None.
Definition binds_at (i : nat) : bool := nth i (rs_binding s) false.

Definition weightOf (item : bytes) : Z :=
  match rs_index s !! item with
  | None => Float.zero
  | Some i => let w := cWeight (cand_at i) in if F64.gt w Float.zero then w else Float.zero
  end.

(** The queue of [bundleFor]: what is picked so far, in order, until nothing is left to look at. *)
Fixpoint close (fuel : nat) (taken : gmap bytes Representation) (picked : gset bytes)
    (out : list Representation) (todo : list bytes) : option (list Representation) :=
  match todo with
  | [] => Some out
  | d :: todo =>
      match fuel with
      | O => None
      | S f =>
          if bool_decide (d ∈ picked) then close f taken picked out todo
          else match taken !! d with
          | Some _ => close f taken picked out todo
          | None =>
              match rs_index s !! d with
              | None => close f taken picked out todo
              | Some di =>
                  match min_at di with
                  | None => None
                  | Some ri =>
                      let r := rep_at di ri in
                      close f taken ({[d]} ∪ picked) (out ++ [r]) (todo ++ rRequires r)
                  end
              end
          end
      end
  end.

(** Every item joins the bundle once, so its list of requirements is read once. *)
Definition all_requires : nat :=
  sum_list_with (fun c => sum_list_with (fun r => length (rRequires r)) (cReps c)) (rs_cands s).

Definition bundle_cost (out : list Representation) : Z := fold_left (fun t r => add_tokens t (rCost r)) out 0.

Definition bundleFor (m : repMove) (st : repState) : option (list Representation * Z) :=
  let main := rep_at (m_cand m) (m_rep m) in
  match close (S (length (rRequires main) + all_requires)) (chosen st) {[rItem main]} [main] (rRequires main) with
  | None => None
  | Some out => Some (out, bundle_cost out)
  end.

Definition cheapestBundle (i : nat) (st : repState) : option (list Representation * Z) :=
  match min_at i with None => None | Some j => bundleFor (MkMove i j) st end.

(** ** The objective *)

Definition gain_term (st : repState) (g : Z) (r : Representation) : Z :=
  let old := at_key (rcov st) (rItem r) in
  Float.add g (Float.mul (weightOf (rItem r)) (Float.sub (satur (Float.add old (rCoverage r))) (satur old))).

Definition count_dup (known : gmap Hash Z) (acc : gmap Hash Z * Z) (r : Representation) : gmap Hash Z * Z :=
  let '(seen, dup) := acc in
  let h := provRoot (rProv r) in
  if Hash_IsZero h then acc
  else (<[h := at_key seen h + 1]> seen, if at_key known h + at_key seen h >? 0 then dup + 1 else dup).

Definition rep_gain (bundle : list Representation) (st : repState) : Z :=
  let g := fold_left (gain_term st) bundle Float.zero in
  let dup := (fold_left (count_dup (roots st)) bundle (∅, 0)).2 in
  Float.sub g (Float.mul (rs_lambda s) (F64.of_int dup)).

(** ** The reserve *)

(** The queue of [priceInto]: the items held, those this call added, and the cost. *)
Fixpoint price (fuel : nat) (have added : gset bytes) (cost : Z) (todo : list bytes) :
    gset bytes * option Z :=
  match todo with
  | [] => (have, Some cost)
  | d :: todo =>
      match fuel with
      | O => (have ∖ added, None)
      | S f =>
          if bool_decide (d ∈ have) then price f have added cost todo
          else match rs_index s !! d with
          | None => price f have added cost todo
          | Some di =>
              match min_at di with
              | None => (have ∖ added, None)
              | Some ri =>
                  let r := rep_at di ri in
                  price f ({[d]} ∪ have) ({[d]} ∪ added) (add_tokens cost (rCost r)) (todo ++ rRequires r)
              end
          end
      end
  end.

(** [priceInto]: the items held afterwards and the cost; a failure takes back what it added. *)
Definition priceInto (i : nat) (have : gset bytes) : gset bytes * option Z :=
  match min_at i with
  | None => (have, None)
  | Some ri =>
      let main := rep_at i ri in
      price (S (length (rRequires main) + all_requires)) ({[rItem main]} ∪ have) {[rItem main]} (rCost main)
        (rRequires main)
  end.

(** The loop of [reserve] over the candidates; [Some item] is the first that cannot be carried. *)
Fixpoint reserve_loop (ks : list nat) (have : gset bytes) (total limit : Z) : option bytes :=
  match ks with
  | [] => None
  | i :: ks =>
      let item := cItem (cand_at i) in
      if negb (binds_at i) || bool_decide (item ∈ have) then reserve_loop ks have total limit
      else match priceInto i have with
           | (_, None) => Some item
           | (have, Some cost) =>
               let total := add_tokens total cost in
               if total >? limit then Some item else reserve_loop ks have total limit
           end
  end.

Definition positions : list nat := seq 0 (length (rs_cands s)).

Definition reserve (st : repState) (extra : gset bytes) (limit : Z) : option bytes :=
  reserve_loop positions (dom (chosen st) ∪ extra) 0 limit.

(** ** The problem handed to the engine *)

Definition move_at (i : nat) : repMove := nth i (rs_moves s) (MkMove 0 0).

Definition rep_live (st : repState) (i : nat) : bool :=
  negb (nth i (rs_dead s) false) && negb (bool_decide (is_Some (chosen st !! cItem (cand_at (m_cand (move_at i)))))).

Definition items_of (bundle : list Representation) : gset bytes := list_to_set (rItem <$> bundle).

Definition rep_afford (st : repState) (i : nat) (cost spent : Z) : bool :=
  match bundleFor (move_at i) st with
  | None => false
  | Some (bundle, _) =>
      let remaining := s64 (s64 (rs_budget s - spent) - cost) in
      if remaining <? 0 then false
      else match reserve st (items_of bundle) remaining with None => true | Some _ => false end
  end.

Definition problem : greedyProblem repState := {|
  moves := length (rs_moves s);
  lazy := true;
  p_live := rep_live;
  p_gain := fun st i => match bundleFor (move_at i) st with None => Float.zero | Some (b, _) => rep_gain b st end;
  p_cost := fun st i => match bundleFor (move_at i) st with None => add_tokens (rs_budget s) 1 | Some (_, c) => c end;
  p_afford := rep_afford;
  p_accept := fun st i => match bundleFor (move_at i) st with None => st | Some (b, _) => apply st b end
|}.

(** ** The outcome *)

(** One turn of [valueOf]'s outer loop: the coverage of a run of representations of one item. *)
Fixpoint run_cov (item : bytes) (sum : Z) (l : list Representation) : Z * list Representation :=
  match l with
  | r :: l' => if bool_decide (rItem r = item) then run_cov item (Float.add sum (rCoverage r)) l' else (sum, l)
  | [] => (sum, [])
  end.

Fixpoint cov_loop (fuel : nat) (cov : Z) (l : list Representation) : Z :=
  match fuel, l with
  | S f, r :: _ =>
      let '(sum, rest) := run_cov (rItem r) Float.zero l in
      cov_loop f (Float.add cov (Float.mul (weightOf (rItem r)) (satur sum))) rest
  | _, _ => cov
  end.

Definition rep_value (l : list Representation) : Z :=
  let cov := cov_loop (length l) Float.zero l in
  let dup := (fold_left (count_dup ∅) l (∅, 0)).2 in
  let v := Float.sub cov (Float.mul (rs_lambda s) (F64.of_int dup)) in
  if F64.lt v Float.zero then Float.zero else v.

Definition proposal (st : repState) (iters : nat) : Proposal :=
  let chs := omap (fun c => chosen st !! cItem c) (rs_cands s) in
  let archive := cItem <$> List.filter (fun c =>
      negb (bool_decide (is_Some (chosen st !! cItem c))) && existsb (fun r => rKind r =? RepArchiveOnly) (cReps c))
    (rs_cands s) in
  MkProposal chs (bundle_cost chs) (rep_value chs) archive false [] [] iters.

Definition overflow (item : bytes) : Proposal :=
  MkProposal [] 0 Float.zero [item] true item
    (str "mandatory item " ++ item ++ str " cannot be carried at any qualified representation within " ++
     Itoa (rs_budget s) ++ str " tokens at p=" ++ Itoa (rs_p s)) 0.

(** The last loop of [Propose]: the mandatory candidates the engine did not take, or the one that
    does not fit. *)
Fixpoint carry (ks : list nat) (st : repState) (spent : Z) : bytes + repState :=
  match ks with
  | [] => inr st
  | i :: ks =>
      let item := cItem (cand_at i) in
      if negb (binds_at i) || bool_decide (is_Some (chosen st !! item)) then carry ks st spent
      else match cheapestBundle i st with
           | None => inl item
           | Some (bundle, cost) =>
               if add_tokens spent cost >? rs_budget s then inl item
               else carry ks (apply st bundle) (add_tokens spent cost)
           end
  end.

End Solver.

(** ** [newRepSolver] and [Propose] *)

Definition newRepSolver (p : Z) (cands : list Candidate) (lambda budget : Z) : repSolver :=
  let cs := sort_by_key cItem (normalize <$> cands) in
  let bindings := bindsAsConstraint <$> cs in
  let s := {| rs_p := p; rs_cands := cs; rs_index := index_of cs;
              rs_minRep := (fun c => minRep_of (bindsAsConstraint c) c) <$> cs;
              rs_binding := bindings; rs_moves := mjoin (imap moves_of cs); rs_dead := [];
              rs_lambda := lambda; rs_budget := budget |} in
  {| rs_p := rs_p s; rs_cands := rs_cands s; rs_index := rs_index s; rs_minRep := rs_minRep s;
     rs_binding := rs_binding s; rs_moves := rs_moves s;
     rs_dead := (fun m => match bundleFor s m newRepState with None => true | Some _ => false end) <$> rs_moves s;
     rs_lambda := rs_lambda s; rs_budget := rs_budget s |}.

Definition cheapest_price (acc : option Z) (r : Representation) : option Z :=
  if rKind r =? RepArchiveOnly then acc
  else match acc with
       | None => Some (rCost r)
       | Some c => if rCost r <? c then Some (rCost r) else acc
       end.

Definition candidateBlocks (cands : list Candidate) : list Block :=
  (fun c => MkBlock (cItem c) (cPos c) (default 0 (fold_left cheapest_price (cReps c) None)) 0 zeroHash false false)
    <$> cands.

Definition Propose (available : bool) (cancelled : nat -> bool) (p : Z) (cands : list Candidate) (lambda budget : Z) :
    option (outcome core_error Proposal) :=
  if cancelled 0%nat then Some (Err ErrBudget)
  else match NewSelector available p (candidateBlocks cands) (MkSlice ∅ [] false 0 0) ∅ lambda true with
  | Panic => Some Panic
  | Err e => Some (Err e)
  | Ok sel =>
      let s := newRepSolver (P sel) cands lambda budget in
      match reserve s newRepState ∅ budget with
      | Some offender => Some (Ok (overflow s offender))
      | None =>
          match runLazyGreedy (problem s) budget (fun n => cancelled (S n)) newRepState with
          | None => None
          | Some Panic => Some Panic
          | Some (Err e) => Some (Err e)
          | Some (Ok (st, res)) =>
              match carry s (positions s) st (Spent res) with
              | inl item => Some (Ok (overflow s item))
              | inr st => Some (Ok (proposal s st (Iters res)))
              end
          end
      end
  end.
