(* ===== verification/RepSolve.v ===== *)
(** * The solver: normalisation, cheapest representations, bundles

    The facts about [newRepSolver] the selection rests on: its index, cheapest representations and
    moves point into the candidates; a bundle is the dependency closure of its main representation
    over what is already delivered, each item once, and is computed within its fuel; pricing a closure
    into the reserve agrees with building it. *)

From S2P Require Import Prelude GoLib Core Frame F64Ops GoSort Heap Dag DagSlice Greedy BlockSelect RepSelect.

(** ** Sums of prices *)

Definition cost_sum (l : list Representation) : Z := foldr (fun r t => rCost r + t) 0 l.

Lemma cost_sum_app l k : cost_sum (l ++ k) = cost_sum l + cost_sum k.
Proof. induction l as [|r l IH]; cbn; [done|]. unfold cost_sum in *. cbn. lia. Qed.

#[global] Instance cost_sum_perm : Proper ((≡ₚ) ==> (=)) cost_sum.
Proof. intros l k H. unfold cost_sum. induction H; cbn; lia. Qed.

Lemma cost_sum_nonneg l : Forall (fun r => 0 <= rCost r) l -> 0 <= cost_sum l.
Proof. induction 1; cbn; [lia|]. unfold cost_sum in *. cbn. lia. Qed.

Lemma cost_sum_sub l k : l ⊆+ k -> Forall (fun r => 0 <= rCost r) k -> cost_sum l <= cost_sum k.
Proof.
  intros [k' Hp]%submseteq_Permutation Hk. rewrite Hp in Hk |- *. apply Forall_app in Hk as [_ Hk].
  rewrite cost_sum_app. apply cost_sum_nonneg in Hk. lia.
Qed.

Lemma add_tokens_exact a b : - 2 ^ 63 <= a + b < 2 ^ 63 -> add_tokens a b = a + b.
Proof. intros H. unfold add_tokens. rewrite <- (s64_u64 (a + b)) at 2 by done. unfold s64, u64. by rewrite Z.mod_mod. Qed.

Lemma fold_cost l t : Forall (fun r => 0 <= rCost r) l -> 0 <= t -> t + cost_sum l < 2 ^ 63 ->
  fold_left (fun t r => add_tokens t (rCost r)) l t = t + cost_sum l.
Proof.
  intros Hl. revert t. induction Hl as [|r l Hr Hl IH]; intros t Ht Hb; cbn [fold_left]; [cbn; lia|].
  apply cost_sum_nonneg in Hl. cbn [cost_sum foldr] in *. fold (cost_sum l) in *.
  rewrite add_tokens_exact by lia. rewrite IH by lia. lia.
Qed.

(** ** The candidates a caller may hand over *)

Record wf_cands (budget : Z) (cands : list Candidate) : Prop := {
  wc_nodup : NoDup (cItem <$> cands);
  wc_items : Forall (fun c => Forall (fun r => rItem r = cItem c) (cReps c)) cands;
  wc_costs : Forall (fun c => Forall (fun r => 0 <= rCost r) (cReps c)) cands;
  wc_total : cost_sum (mjoin (cReps <$> cands)) <= MaxInt - budget;
  wc_budget : 0 <= budget
}.

(** The cheapest allowed representation. *)
Definition cheapest (b : bool) (c : Candidate) (j : nat) : Prop :=
  exists r, cReps c !! j = Some r /\ allowed b r = true /\
    forall r', r' ∈ cReps c -> allowed b r' = true -> rCost r <= rCost r'.

Lemma cheaper_inv b reps k best :
  (match best with
   | None => forall j r, (j < k)%nat -> reps !! j = Some r -> allowed b r = false
   | Some i => exists ri, reps !! i = Some ri /\ allowed b ri = true /\
       forall j r, (j < k)%nat -> reps !! j = Some r -> allowed b r = true -> rCost ri <= rCost r
   end) ->
  match cheaper b reps best k with
  | None => forall j r, (j < S k)%nat -> reps !! j = Some r -> allowed b r = false
  | Some i => exists ri, reps !! i = Some ri /\ allowed b ri = true /\
       forall j r, (j < S k)%nat -> reps !! j = Some r -> allowed b r = true -> rCost ri <= rCost r
  end.
Proof.
  intros H. unfold cheaper. destruct (reps !! k) as [rk|] eqn:Ek.
  2:{ destruct best as [i|].
      - destruct H as (ri & Hi & Ha & Hm). exists ri. split_and!; [done..|]. intros j r Hj Hr.
        destruct (decide (j = k)) as [->|]; [congruence|]. apply (Hm j); [lia|done].
      - intros j r Hj Hr. destruct (decide (j = k)) as [->|]; [congruence|]. apply (H j); [lia|done]. }
  destruct (allowed b rk) eqn:Eb; cbn [negb].
  - destruct best as [i|].
    + destruct H as (ri & Hi & Ha & Hm). rewrite Hi. destruct (Z.ltb_spec (rCost rk) (rCost ri)).
      * exists rk. split_and!; [done..|]. intros j r Hj Hr Har. destruct (decide (j = k)) as [->|].
        -- assert (r = rk) as -> by congruence. lia.
        -- specialize (Hm j r ltac:(lia) Hr Har). lia.
      * exists ri. split_and!; [done..|]. intros j r Hj Hr Har. destruct (decide (j = k)) as [->|].
        -- assert (r = rk) as -> by congruence. lia.
        -- apply (Hm j); [lia|done..].
    + exists rk. split_and!; [done..|]. intros j r Hj Hr Har. destruct (decide (j = k)) as [->|].
      * assert (r = rk) as -> by congruence. lia.
      * specialize (H j r ltac:(lia) Hr). congruence.
  - destruct best as [i|].
    + destruct H as (ri & Hi & Ha & Hm). exists ri. split_and!; [done..|]. intros j r Hj Hr Har.
      destruct (decide (j = k)) as [->|]; [congruence|]. apply (Hm j); [lia|done..].
    + intros j r Hj Hr. destruct (decide (j = k)) as [->|]; [congruence|]. apply (H j); [lia|done].
Qed.

Lemma minRep_spec b c : match minRep_of b c with
  | Some j => cheapest b c j
  | None => Forall (fun r => allowed b r = false) (cReps c)
  end.
Proof.
  unfold minRep_of. assert (forall k, (k <= length (cReps c))%nat ->
    match fold_left (cheaper b (cReps c)) (seq 0 k) None with
    | None => forall j r, (j < k)%nat -> cReps c !! j = Some r -> allowed b r = false
    | Some i => exists ri, cReps c !! i = Some ri /\ allowed b ri = true /\
         forall j r, (j < k)%nat -> cReps c !! j = Some r -> allowed b r = true -> rCost ri <= rCost r
    end) as H.
  { induction k as [|k IH]; intros Hk; [cbn; intros; lia|].
    rewrite seq_S, fold_left_app. cbn [fold_left]. rewrite Nat.add_0_l. apply cheaper_inv, IH. lia. }
  specialize (H (length (cReps c)) ltac:(lia)). destruct (fold_left _ _ _) as [i|].
  - destruct H as (ri & Hi & Ha & Hm). exists ri. split_and!; [done..|].
    intros r' [j Hj]%list_elem_of_lookup. eapply Hm; [by eapply lookup_lt_Some|done].
  - apply Forall_forall. intros r [j Hj]%list_elem_of_lookup. eapply H; [by eapply lookup_lt_Some|done].
Qed.

Lemma index_of_spec cands d i : NoDup (cItem <$> cands) ->
  index_of cands !! d = Some i <-> exists c, cands !! i = Some c /\ cItem c = d.
Proof.
  intros Hn. unfold index_of.
  set (f := fun (m : gmap bytes nat) (ic : nat * Candidate) =>
    match m !! cItem ic.2 with None => <[cItem ic.2 := ic.1]> m | Some _ => m end).
  assert (forall (l pre : list Candidate), NoDup (cItem <$> pre ++ l) -> forall m,
    (forall d i, m !! d = Some i <-> exists c, pre !! i = Some c /\ cItem c = d) ->
    forall d i, fold_left f (imap (fun i c => ((length pre + i)%nat, c)) l) m !! d = Some i <->
      exists c, (pre ++ l) !! i = Some c /\ cItem c = d) as H.
  { induction l as [|c l IH]; intros pre Hnd m Hm d' i'; [by rewrite app_nil_r|].
    cbn [imap fold_left]. rewrite Nat.add_0_r.
    replace (imap _ l) with (imap (fun i c0 => ((length (pre ++ [c]) + i)%nat, c0)) l)
      by (apply imap_ext; intros j x _; cbn; f_equal; rewrite length_app; cbn; lia).
    replace (pre ++ c :: l) with ((pre ++ [c]) ++ l) in * by (by rewrite <- app_assoc).
    apply IH; [done|]. unfold f. cbn [fst snd].
    assert (m !! cItem c = None) as Hc.
    { apply eq_None_not_Some. intros [j (c' & Hj & He)%Hm]. rewrite <- app_assoc, fmap_app in Hnd.
      apply NoDup_app in Hnd as (_ & Hd & _). apply (Hd (cItem c)); [|cbn; left].
      rewrite <- He. apply list_elem_of_fmap_2. by eapply list_elem_of_lookup_2. }
    rewrite Hc. intros d2 i2. destruct (decide (d2 = cItem c)) as [->|Hne].
    - rewrite lookup_insert_eq. split.
      + intros [= <-]. exists c. by rewrite lookup_app_r, Nat.sub_diag.
      + intros (c' & Hi & He). apply lookup_app_Some in Hi as [Hi|[Hge Hi]].
        * assert (m !! cItem c = Some i2) by (apply Hm; eauto). congruence.
        * destruct (i2 - length pre)%nat as [|k] eqn:Ek; [|done]. f_equal. lia.
    - rewrite lookup_insert_ne by done. rewrite Hm. split.
      + intros (c' & Hi & He). exists c'. split; [|done]. apply lookup_app_l_Some. done.
      + intros (c' & Hi & He). apply lookup_app_Some in Hi as [Hi|[Hge Hi]]; [eauto|].
        destruct (i2 - length pre)%nat as [|k]; [|done]. cbn in Hi. injection Hi as <-. congruence. }
  specialize (H cands [] Hn ∅). rewrite <- (H ltac:(intros; rewrite lookup_empty; split; [done|by intros (? & ? & ?)]) d i). done.
Qed.

(** ** Well-formed solvers *)

Record wf_solver (s : repSolver) : Prop := {
  ws_nodup : NoDup (cItem <$> rs_cands s);
  ws_items : forall i c r, rs_cands s !! i = Some c -> r ∈ cReps c -> rItem r = cItem c /\ 0 <= rCost r;
  ws_index : forall d i, rs_index s !! d = Some i <-> exists c, rs_cands s !! i = Some c /\ cItem c = d;
  ws_bind : forall i c, rs_cands s !! i = Some c -> binds_at s i = bindsAsConstraint c;
  ws_min : forall i c, rs_cands s !! i = Some c -> min_at s i = minRep_of (bindsAsConstraint c) c;
  ws_moves : forall m, m ∈ rs_moves s <->
    exists c r, rs_cands s !! m_cand m = Some c /\ cReps c !! m_rep m = Some r /\ allowed (bindsAsConstraint c) r = true;
  ws_total : cost_sum (mjoin (cReps <$> rs_cands s)) <= MaxInt - rs_budget s;
  ws_budget : 0 <= rs_budget s
}.

Lemma normalize_items c : cItem (normalize c) = cItem c.
Proof. done. Qed.

Lemma normalize_reps c r : r ∈ cReps (normalize c) -> exists r', r' ∈ cReps c /\ rItem r = rItem r' /\ rKind r = rKind r' /\
  rCost r = rCost r' /\ rProv r = rProv r' /\ rCoverage r = rCoverage r' /\ rRequires r ≡ₚ rRequires r'.
Proof.
  cbn. rewrite stable_sort_perm. intros (r' & -> & Hr)%list_elem_of_fmap. exists r'. split_and!; try done.
  apply merge_sort_Permutation.
Qed.

Lemma normalize_cost c : cost_sum (cReps (normalize c)) = cost_sum (cReps c).
Proof.
  cbn. rewrite stable_sort_perm. induction (cReps c) as [|r l IH]; [done|]. unfold cost_sum in *. cbn. by rewrite IH.
Qed.

Lemma mjoin_cost_perm l k : l ≡ₚ k -> cost_sum (mjoin (cReps <$> l)) = cost_sum (mjoin (cReps <$> k)).
Proof.
  induction 1 as [|c l k _ IH|c c' l|l k m _ IH1 _ IH2]; cbn; rewrite ?cost_sum_app; try done.
  - unfold mjoin in *. lia.
  - lia.
  - congruence.
Qed.

Lemma mjoin_cons {A} (x : list A) l : mjoin (x :: l) = x ++ mjoin l.
Proof. done. Qed.

Lemma mjoin_cost_normalize l : cost_sum (mjoin (cReps <$> (normalize <$> l))) = cost_sum (mjoin (cReps <$> l)).
Proof.
  induction l as [|c l IH]; [done|]. rewrite !fmap_cons, !mjoin_cons, !cost_sum_app, normalize_cost. by rewrite IH.
Qed.

Lemma newRepSolver_cands p cands lambda budget : rs_cands (newRepSolver p cands lambda budget) ≡ₚ normalize <$> cands.
Proof. apply sort_by_key_perm. Qed.

Lemma moves_of_elem i c m : m ∈ moves_of i c <->
  m_cand m = i /\ exists r, cReps c !! m_rep m = Some r /\ allowed (bindsAsConstraint c) r = true.
Proof.
  unfold moves_of. split.
  - intros (j & -> & Hj)%list_elem_of_fmap. apply list_elem_of_In, filter_In in Hj as [_ Hj]. split; [done|].
    cbn. destruct (cReps c !! j) as [r|]; [eauto|done].
  - intros [<- (r & Hr & Ha)]. apply list_elem_of_fmap. exists (m_rep m). split; [by destruct m|].
    apply list_elem_of_In, filter_In. split; [|by rewrite Hr]. apply in_seq. apply lookup_lt_Some in Hr. lia.
Qed.

Lemma newRepSolver_wf p cands lambda budget : wf_cands budget cands -> wf_solver (newRepSolver p cands lambda budget).
Proof.
  intros [Hn Hi Hc Ht Hb]. pose proof (newRepSolver_cands p cands lambda budget) as Hp.
  set (s := newRepSolver p cands lambda budget) in *.
  assert (NoDup (cItem <$> rs_cands s)) as Hnd.
  { rewrite Hp, <- list_fmap_compose. done. }
  constructor; try done.
  - intros i c r Hlk Hr. assert (c ∈ normalize <$> cands) as (c' & -> & Hc')%list_elem_of_fmap
      by (rewrite <- Hp; by eapply list_elem_of_lookup_2).
    destruct (normalize_reps c' r Hr) as (r' & Hr' & E1 & _ & E2 & _). rewrite Forall_forall in Hi, Hc.
    specialize (Hi c' Hc'). specialize (Hc c' Hc'). rewrite Forall_forall in Hi, Hc.
    rewrite E1, E2, normalize_items. split; [by apply Hi|by apply Hc].
  - intros d i. by apply index_of_spec.
  - intros i c Hlk. unfold binds_at. rewrite nth_lookup. change (rs_binding s) with (bindsAsConstraint <$> rs_cands s).
    by rewrite list_lookup_fmap, Hlk.
  - intros i c Hlk. unfold min_at. rewrite nth_lookup.
    change (rs_minRep s) with ((fun c => minRep_of (bindsAsConstraint c) c) <$> rs_cands s).
    by rewrite list_lookup_fmap, Hlk.
  - intros m. change (rs_moves s) with (mjoin (imap moves_of (rs_cands s))). rewrite list_elem_of_join. split.
    + intros (l & Hm & Hl). apply elem_of_lookup_imap in Hl as (i & c & -> & Hlk).
      apply moves_of_elem in Hm as (<- & r & Hr & Ha). eauto.
    + intros (c & r & Hlk & Hr & Ha). exists (moves_of (m_cand m) c). split; [apply moves_of_elem; eauto|].
      apply elem_of_lookup_imap. eauto.
  - rewrite (mjoin_cost_perm _ _ Hp), mjoin_cost_normalize. exact Ht.
Qed.

(** ** Bundles *)

Section Bundle.
Context (s : repSolver) (HW : wf_solver s).

(** [r] is a legal choice for its candidate. *)
Definition valid_rep (r : Representation) : Prop :=
  exists i c, rs_cands s !! i = Some c /\ r ∈ cReps c /\ rItem r = cItem c /\ allowed (bindsAsConstraint c) r = true.

(** [r] is what a dependency on [d] is carried at. *)
Definition min_rep (d : bytes) (r : Representation) : Prop :=
  exists di ri, rs_index s !! d = Some di /\ min_at s di = Some ri /\ r = rep_at s di ri.

Lemma cand_at_lookup i c : rs_cands s !! i = Some c -> cand_at s i = c.
Proof. intros H. unfold cand_at. by rewrite nth_lookup, H. Qed.

Lemma rep_at_lookup i j c r : rs_cands s !! i = Some c -> cReps c !! j = Some r -> rep_at s i j = r.
Proof. intros Hc Hr. unfold rep_at. by rewrite (cand_at_lookup i c Hc), nth_lookup, Hr. Qed.

Lemma min_at_spec i c j : rs_cands s !! i = Some c -> min_at s i = Some j ->
  exists r, rep_at s i j = r /\ cReps c !! j = Some r /\ rItem r = cItem c /\ valid_rep r.
Proof.
  intros Hc Hm. rewrite (ws_min s HW i c Hc) in Hm. pose proof (minRep_spec (bindsAsConstraint c) c) as H. rewrite Hm in H.
  destruct H as (r & Hr & Ha & _). assert (r ∈ cReps c) as Hin by (by eapply list_elem_of_lookup_2).
  exists r. destruct (ws_items s HW i c r Hc Hin) as [Hi _].
  split_and!; [by eapply rep_at_lookup|done|done|]. exists i, c. done.
Qed.

Lemma min_rep_spec d r : min_rep d r -> rItem r = d /\ valid_rep r.
Proof.
  intros (di & ri & Hd & Hm & ->). apply (ws_index s HW) in Hd as (c & Hc & <-).
  destruct (min_at_spec di c ri Hc Hm) as (r & -> & _ & ? & ?). done.
Qed.

(** The requirements that could still be read. *)
Definition reads (c : Candidate) : nat := sum_list_with (fun r => length (rRequires r)) (cReps c).
Definition remaining (picked : gset bytes) : nat :=
  sum_list_with (fun c => if decide (cItem c ∈ picked) then 0%nat else reads c) (rs_cands s).

Lemma remaining_all picked : (remaining picked <= all_requires s)%nat.
Proof.
  unfold remaining, all_requires. induction (rs_cands s) as [|c l IH]; cbn; [lia|].
  fold (reads c). destruct (decide _); lia.
Qed.

Lemma remaining_pick d picked r : d ∉ picked -> min_rep d r ->
  (length (rRequires r) + remaining ({[d]} ∪ picked) <= remaining picked)%nat.
Proof.
  intros Hd (di & ri & Hi & Hm & ->). apply (ws_index s HW) in Hi as (c & Hc & Hci).
  destruct (min_at_spec di c ri Hc Hm) as (r & Er & Hr & _). rewrite Er.
  assert (length (rRequires r) <= reads c)%nat as Hlen.
  { apply list_elem_of_lookup_2 in Hr. unfold reads. clear -Hr. generalize dependent (cReps c).
    induction 1; cbn; lia. }
  apply list_elem_of_lookup_2 in Hc. unfold remaining. clear -Hc Hci Hd Hlen.
  assert (forall l, sum_list_with (fun c => if decide (cItem c ∈ {[d]} ∪ picked) then 0%nat else reads c) l <=
    sum_list_with (fun c => if decide (cItem c ∈ picked) then 0%nat else reads c) l)%nat as Hmono.
  { induction l as [|c' l IH]; cbn; [lia|]. destruct (decide (cItem c' ∈ picked)).
    - rewrite decide_True by set_solver. lia.
    - destruct (decide _); lia. }
  induction Hc as [c l|c c' l _ IH]; cbn.
  - rewrite decide_True by set_solver. rewrite (decide_False (P := _ ∈ picked)) by congruence. specialize (Hmono l). lia.
  - specialize (IH Hci Hlen). destruct (decide (cItem c' ∈ picked)); [rewrite decide_True by set_solver; lia|]. destruct (decide _); lia.
Qed.

(** Every requirement is in the bundle, already delivered, not a candidate, or still queued. *)
Definition covered (taken : gmap bytes Representation) (items : gset bytes) (out : list Representation) (todo : list bytes) : Prop :=
  forall r d, r ∈ out -> d ∈ rRequires r -> d ∈ items \/ is_Some (taken !! d) \/ rs_index s !! d = None \/ d ∈ todo.

Lemma covered_skip taken items out d todo : covered taken items out (d :: todo) ->
  d ∈ items \/ is_Some (taken !! d) \/ rs_index s !! d = None -> covered taken items out todo.
Proof.
  intros H Hd r x Hr Hx. destruct (H r x Hr Hx) as [?|[?|[?|Hin]]]; auto.
  apply elem_of_cons in Hin as [->|]; [|auto]. destruct Hd as [?|[?|?]]; auto.
Qed.

Lemma items_of_snoc out r : items_of (out ++ [r]) = {[rItem r]} ∪ items_of out.
Proof. unfold items_of. rewrite fmap_app, list_to_set_app_L. cbn. set_solver. Qed.

Lemma items_of_elem out d : d ∈ items_of out <-> d ∈ rItem <$> out.
Proof. unfold items_of. by rewrite elem_of_list_to_set. Qed.

(** A set of items that holds what its members need. *)
Definition self_contained (F : bytes -> Prop) : Prop :=
  forall d r x, F d -> min_rep d r -> x ∈ rRequires r -> is_Some (rs_index s !! x) -> F x.

Lemma close_spec (F : bytes -> Prop) fuel taken out todo : self_contained F ->
  (length todo + remaining (items_of out) <= fuel)%nat ->
  NoDup (rItem <$> out) -> Forall valid_rep out -> covered taken (items_of out) out todo ->
  (forall d, d ∈ todo -> is_Some (rs_index s !! d) -> F d) ->
  match close s fuel taken (items_of out) out todo with
  | Some out' => exists ext, out' = out ++ ext /\ NoDup (rItem <$> out') /\ Forall valid_rep out' /\
      Forall (fun r => taken !! rItem r = None /\ min_rep (rItem r) r /\ F (rItem r)) ext /\
      covered taken (items_of out') out' []
  | None => exists d di, rs_index s !! d = Some di /\ min_at s di = None /\ F d
  end.
Proof.
  intros HF. revert out todo. induction fuel as [|f IH]; intros out todo Hf Hn Hv Hc Ht; (destruct todo as [|d todo]; cbn [close length] in *).
  1, 3: exists []; rewrite app_nil_r; done.
  1: lia.
  assert (forall x, x ∈ todo -> is_Some (rs_index s !! x) -> F x) as Ht' by (intros; apply Ht; [by right|done]).
  destruct (bool_decide_reflect (d ∈ items_of out)) as [Hd|Hd]; [apply IH; [lia|done..|by eapply covered_skip; eauto|done]|].
  destruct (taken !! d) as [x|] eqn:Et; [apply IH; [lia|done..|eapply covered_skip; eauto|done]|].
  destruct (rs_index s !! d) as [di|] eqn:Ei; [|apply IH; [lia|done..|eapply covered_skip; eauto|done]].
  assert (F d) as HFd by (apply Ht; [left|by rewrite Ei]).
  destruct (min_at s di) as [ri|] eqn:Em; [|by eauto 6].
  assert (min_rep d (rep_at s di ri)) as Hmr by (exists di, ri; done). set (r := rep_at s di ri) in *.
  destruct (min_rep_spec d r Hmr) as [Hr Hvr].
  pose proof (remaining_pick d (items_of out) r Hd Hmr) as Hrem.
  replace ({[d]} ∪ items_of out) with (items_of (out ++ [r])) in * by (by rewrite items_of_snoc, Hr).
  specialize (IH (out ++ [r]) (todo ++ rRequires r)). rewrite length_app in IH.
  assert (rItem r ∉ rItem <$> out) as Hfresh by (rewrite Hr; by rewrite <- items_of_elem).
  refine (_ (IH _ _ _ _ _)); clear IH.
  - intros H. destruct (close s f taken _ _ _) as [out'|]; [|done]. destruct H as (ext & -> & H1 & H2 & H3 & H4).
    exists (r :: ext). rewrite <- app_assoc in *. split_and!; try done. constructor; [|done]. by rewrite Hr.
  - lia.
  - rewrite fmap_app. apply NoDup_app. split_and!; [done|set_solver|apply NoDup_singleton].
  - apply Forall_app. split; [done|by constructor].
  - intros x y Hx Hy. apply elem_of_app in Hx as [Hx|Hx].
    + destruct (Hc x y Hx Hy) as [?|[?|[?|Hin]]]; auto; [left; rewrite items_of_snoc; set_solver|].
      apply elem_of_cons in Hin as [->|]; [left; rewrite items_of_snoc; set_solver|]. right; right; right. set_solver.
    + apply list_elem_of_singleton in Hx as ->. right; right; right. set_solver.
  - intros x [Hx|Hx]%elem_of_app Hsx; [by apply Ht'|]. by eapply HF.
Qed.

Definition total_cost : Z := cost_sum (mjoin (cReps <$> rs_cands s)).

Lemma valid_cost r : valid_rep r -> 0 <= rCost r.
Proof. intros (i & c & Hc & Hr & _). by apply (ws_items s HW i c r). Qed.

Lemma valid_costs l : Forall valid_rep l -> Forall (fun r => 0 <= rCost r) l.
Proof. intros H. eapply Forall_impl; [done|apply valid_cost]. Qed.

(** Legal choices for distinct items cost no more than everything on offer. *)
Lemma cost_sum_valid l : NoDup (rItem <$> l) -> Forall valid_rep l -> 0 <= cost_sum l <= total_cost.
Proof.
  intros Hn Hv. split; [by apply cost_sum_nonneg, valid_costs|]. apply cost_sum_sub.
  - apply NoDup_submseteq; [by eapply NoDup_fmap_1|]. intros r Hr. rewrite Forall_forall in Hv.
    destruct (Hv r Hr) as (i & c & Hc & Hrc & _). apply list_elem_of_join. exists (cReps c). split; [done|].
    apply list_elem_of_fmap_2. by eapply list_elem_of_lookup_2.
  - apply Forall_forall. intros r Hr. apply list_elem_of_join in Hr as (l' & Hr & (c & -> & Hc)%list_elem_of_fmap).
    apply list_elem_of_lookup in Hc as [i Hc]. by apply (ws_items s HW i c r).
Qed.

Lemma total_bound : total_cost <= MaxInt - rs_budget s.
Proof. apply HW. Qed.

Lemma bundle_cost_valid l : NoDup (rItem <$> l) -> Forall valid_rep l -> bundle_cost l = cost_sum l.
Proof.
  intros Hn Hv. pose proof (cost_sum_valid l Hn Hv). pose proof total_bound. pose proof (ws_budget s HW).
  unfold bundle_cost, MaxInt in *. rewrite fold_cost; [lia|by apply valid_costs|lia|lia].
Qed.

(** A bundle for a legal main representation whose item is not delivered yet. *)
Lemma bundleFor_spec (F : bytes -> Prop) m st : let main := rep_at s (m_cand m) (m_rep m) in
  self_contained F -> (forall d, d ∈ rRequires main -> is_Some (rs_index s !! d) -> F d) ->
  valid_rep main -> chosen st !! rItem main = None ->
  match bundleFor s m st with
  | Some (out, cost) => (exists ext, out = main :: ext /\ Forall (fun r => min_rep (rItem r) r /\ F (rItem r)) ext) /\
      NoDup (rItem <$> out) /\ Forall valid_rep out /\
      Forall (fun r => chosen st !! rItem r = None) out /\ covered (chosen st) (items_of out) out [] /\
      cost = cost_sum out
  | None => exists d di, rs_index s !! d = Some di /\ min_at s di = None /\ F d
  end.
Proof.
  intros main HF HFm Hv Hf. unfold bundleFor. fold main. assert ({[rItem main]} = items_of [main]) as -> by (unfold items_of; set_solver).
  pose proof (remaining_all (items_of [main])) as Hr.
  pose proof (close_spec F (S (length (rRequires main) + all_requires s)) (chosen st) [main] (rRequires main) HF ltac:(lia)
    (NoDup_singleton _) ltac:(by constructor)) as H. destruct (close _ _ _ _ _ _) as [out|].
  - destruct H as (ext & -> & Hn & Hvs & He & Hc); [by intros r d ->%list_elem_of_singleton; auto|done|].
    split_and!; [|done|done| |done|by apply bundle_cost_valid].
    + exists ext. split; [done|]. eapply Forall_impl; [done|]. by intros r (_ & ? & ?).
    + constructor; [done|]. eapply Forall_impl; [done|]. by intros r [? _].
  - apply H; [by intros r d ->%list_elem_of_singleton; auto|done].
Qed.

(** ** Pricing and building agree *)

Lemma price_close fuel taken picked have added out cost todo :
  have = dom taken ∪ picked ->
  match close s fuel taken picked out todo with
  | Some out' => exists ext, out' = out ++ ext /\
      price s fuel have added cost todo
        = (have ∪ items_of ext, Some (fold_left (fun t r => add_tokens t (rCost r)) ext cost))
  | None => (price s fuel have added cost todo).2 = None
  end.
Proof.
  revert picked have added out cost todo.
  induction fuel as [|f IH]; intros picked have added out cost todo Hh; (destruct todo as [|d todo]; cbn [close price]).
  1, 3: exists []; rewrite app_nil_r; split; [done|]; cbn; f_equal; set_solver.
  1: done.
  destruct (bool_decide_reflect (d ∈ picked)) as [Hd|Hd]; [rewrite bool_decide_true by set_solver; by apply IH|].
  destruct (taken !! d) as [x|] eqn:Et.
  { rewrite bool_decide_true by (rewrite Hh; apply elem_of_union_l, elem_of_dom; eauto). by apply IH. }
  rewrite bool_decide_false by (rewrite Hh, elem_of_union, elem_of_dom, Et; by intros [[? ?]|]).
  destruct (rs_index s !! d) as [di|] eqn:Ei; [|by apply IH].
  destruct (min_at s di) as [ri|] eqn:Em; [|done].
  assert (min_rep d (rep_at s di ri)) as Hmr by (exists di, ri; done).
  destruct (min_rep_spec d _ Hmr) as [Hr _]. set (r := rep_at s di ri) in *.
  specialize (IH ({[d]} ∪ picked) ({[d]} ∪ have) ({[d]} ∪ added) (out ++ [r]) (add_tokens cost (rCost r)) (todo ++ rRequires r)
    ltac:(set_solver)).
  destruct (close _ _ _ _ _ _) as [out'|]; [|done]. destruct IH as (ext & -> & Hp).
  exists (r :: ext). rewrite <- app_assoc. split; [done|]. rewrite Hp. cbn. f_equal. unfold items_of. cbn. rewrite Hr. set_solver.
Qed.

Lemma price_bundle i st : let item := cItem (cand_at s i) in
  (i < length (rs_cands s))%nat -> chosen st !! item = None ->
  match cheapestBundle s i st with
  | Some (out, cost) => priceInto s i (dom (chosen st)) = (dom (chosen st) ∪ items_of out, Some cost)
  | None => (priceInto s i (dom (chosen st))).2 = None
  end.
Proof.
  intros item [c Hc]%lookup_lt_is_Some_2 Hf. unfold cheapestBundle, priceInto.
  destruct (min_at s i) as [ri|] eqn:Em; [|done]. destruct (min_at_spec i c ri Hc Em) as (r & Er & Hr & Hi & Hv).
  unfold bundleFor. cbn [m_cand m_rep]. rewrite Er.
  pose proof (price_close (S (length (rRequires r) + all_requires s)) (chosen st) {[rItem r]}
    ({[rItem r]} ∪ dom (chosen st)) {[rItem r]} [r] (rCost r) (rRequires r) ltac:(set_solver)) as H.
  destruct (close _ _ _ _ _ _) as [out|]; [|done]. destruct H as (ext & -> & ->).
  unfold bundle_cost. cbn [app fold_left]. rewrite (add_tokens_exact 0), Z.add_0_l.
  - f_equal. unfold items_of. cbn. set_solver.
  - pose proof (cost_sum_valid [r] (NoDup_singleton _) ltac:(by constructor)) as Hcs. cbn in Hcs.
    pose proof total_bound. pose proof (ws_budget s HW). unfold MaxInt in *. lia.
Qed.

End Bundle.
