(* ===== verification/RepSpec.v ===== *)
(** * What a proposal guarantees

    On candidates with distinct items, matching representations and prices that fit the integer range:
    a proposal stays within the budget, carries at most one legal representation per item together
    with everything it requires, and carries every record that binds; where all representations of a
    record require the same it overflows exactly when the binding records cannot be delivered at all.  Three
    examples show what happens outside these hypotheses or beyond what the comments promise. *)

From S2P Require Import Prelude GoLib Core Frame F64Ops GoSort Heap Dag DagSlice Greedy GreedySpec BlockSelect BlockSpec.
From S2P Require Import RepSelect RepSolve.

Section State.
Context (s : repSolver) (HW : wf_solver s).

(** [L] lists what the state has chosen. *)
Record rinv (st : repState) (L : list Representation) : Prop := {
  ri_chosen : forall d r, chosen st !! d = Some r <-> r ∈ L /\ rItem r = d;
  ri_nodup : NoDup (rItem <$> L);
  ri_valid : Forall (valid_rep s) L;
  ri_closed : forall r d, r ∈ L -> d ∈ rRequires r -> rs_index s !! d = None \/ d ∈ rItem <$> L
}.

Lemma rinv_empty : rinv newRepState [].
Proof.
  constructor; [|constructor|constructor|set_solver]. intros d r. cbn. rewrite lookup_empty. set_solver.
Qed.

Lemma rinv_some st L d : rinv st L -> is_Some (chosen st !! d) <-> d ∈ rItem <$> L.
Proof.
  intros HR. rewrite list_elem_of_fmap. split.
  - intros [r Hr]. apply (ri_chosen st L HR) in Hr as [? <-]. eauto.
  - intros (r & -> & Hr). exists r. by apply (ri_chosen st L HR).
Qed.

Lemma rinv_dom st L : rinv st L -> dom (chosen st) = items_of L.
Proof. intros HR. apply set_eq. intros d. by rewrite elem_of_dom, items_of_elem, (rinv_some st L d HR). Qed.

Lemma apply_chosen out st d r : NoDup (rItem <$> out) ->
  chosen (apply st out) !! d = Some r <-> ((r ∈ out /\ rItem r = d) \/ (~ (d ∈ rItem <$> out) /\ chosen st !! d = Some r)).
Proof.
  revert st. induction out as [|x out IH]; intros st Hn.
  - cbn. split; [intros H; right; split; [apply not_elem_of_nil|done]|intros [[[]%not_elem_of_nil _]|[_ ?]]; done].
  - apply NoDup_cons in Hn as [Hx Hn]. change (apply st (x :: out)) with (apply (apply_rep st x) out).
    rewrite IH, fmap_cons by done. cbn [apply_rep chosen].
    rewrite !elem_of_cons. destruct (decide (d = rItem x)) as [->|Hne].
    + rewrite lookup_insert_eq. split.
      * intros [[Hr He]|[_ [= <-]]]; [|left; auto]. exfalso. apply Hx. rewrite <- He. by apply list_elem_of_fmap_2.
      * intros [[[->|Hr] He]|[Hd _]]; [right; auto|left; auto|tauto].
    + rewrite lookup_insert_ne by done. split.
      * intros [[Hr He]|[Hd Hs]]; [left; auto|right]. split; [|done]. intros [?|?]; auto.
      * intros [[[->|Hr] He]|[Hd Hs]]; [congruence|left; auto|right]. split; [|done]. tauto.
Qed.

Lemma apply_rinv st L out : rinv st L -> NoDup (rItem <$> out) -> Forall (valid_rep s) out ->
  Forall (fun r => chosen st !! rItem r = None) out -> covered s (chosen st) (items_of out) out [] ->
  rinv (apply st out) (L ++ out).
Proof.
  intros HR Hn Hv Hf Hc. rewrite Forall_forall in Hf.
  assert (forall d, d ∈ rItem <$> out -> d ∈ rItem <$> L -> False) as Hdis.
  { intros d (r & -> & Hr)%list_elem_of_fmap Hd. apply (rinv_some st L _ HR) in Hd as [x Hx]. by rewrite Hf in Hx. }
  constructor.
  - intros d r. rewrite apply_chosen by done. rewrite (ri_chosen st L HR), elem_of_app. split; [naive_solver|].
    intros [[Hr|Hr] He]; [right|left; done]. split; [|done]. intros Hd. apply (Hdis d); [done|].
    rewrite <- He. by apply list_elem_of_fmap_2.
  - rewrite fmap_app. apply NoDup_app. split_and!; [apply HR| |done]. intros d H1 H2. by eapply Hdis.
  - apply Forall_app. split; [apply HR|done].
  - intros r d [Hr|Hr]%elem_of_app Hd; rewrite fmap_app, elem_of_app.
    + destruct (ri_closed st L HR r d Hr Hd); auto.
    + destruct (Hc r d Hr Hd) as [H|[H|[H|H]]]; [|apply (rinv_some st L d HR) in H|..]; auto; [|set_solver].
      right. right. by apply items_of_elem.
Qed.

Lemma rinv_cost st L : rinv st L -> 0 <= cost_sum L <= total_cost s.
Proof. intros HR. apply (cost_sum_valid s HW); apply HR. Qed.

(** ** The engine's moves *)

Lemma self_contained_all : self_contained s (fun _ => True).
Proof. done. Qed.

Lemma move_valid i : (i < length (rs_moves s))%nat ->
  let m := move_at s i in let main := rep_at s (m_cand m) (m_rep m) in
  valid_rep s main /\ rItem main = cItem (cand_at s (m_cand m)).
Proof.
  intros Hi m main. assert (m ∈ rs_moves s) as Hm by (apply list_elem_of_In, nth_In; lia).
  apply (ws_moves s HW) in Hm as (c & r & Hc & Hr & Ha). assert (r ∈ cReps c) as Hin by (by eapply list_elem_of_lookup_2).
  unfold main. rewrite (rep_at_lookup s _ _ _ _ Hc Hr), (cand_at_lookup s _ _ Hc).
  destruct (ws_items s HW _ _ _ Hc Hin) as [He _]. split; [|done]. by exists (m_cand m), c.
Qed.

(** What one accepted move does. *)
Lemma accept_spec st L sp i : rinv st L -> sp = cost_sum L -> sp <= rs_budget s -> (i < length (rs_moves s))%nat ->
  eligible (problem s) (rs_budget s) st sp i = true ->
  exists out, rinv (p_accept (problem s) st i) (L ++ out) /\
    spent_after (problem s) st sp i = cost_sum (L ++ out) /\ cost_sum (L ++ out) <= rs_budget s /\
    reserve s (p_accept (problem s) st i) ∅ (rs_budget s - cost_sum (L ++ out)) = None.
Proof.
  intros HR -> Hb Hi He. destruct (move_valid i Hi) as [Hv Hitem].
  unfold eligible, refused in He. cbn [p_live p_cost p_afford problem] in He.
  apply andb_true_iff in He as [He Hr]. apply andb_true_iff in He as [Hl _].
  apply negb_true_iff, orb_false_iff in Hr as [Hr Haf]. apply orb_false_iff in Hr as [Hc0 Hc1]. apply negb_false_iff in Haf.
  unfold rep_live in Hl. apply andb_true_iff in Hl as [_ Hl]. apply negb_true_iff, bool_decide_eq_false_1 in Hl.
  rewrite <- Hitem in Hl. apply eq_None_not_Some in Hl.
  pose proof (bundleFor_spec s HW (fun _ => True) (move_at s i) st self_contained_all ltac:(done) Hv Hl) as H.
  unfold spent_after. cbn [p_accept p_cost problem]. unfold rep_afford in Haf.
  destruct (bundleFor s (move_at s i) st) as [[out cost]|]; [|done].
  destruct H as (_ & Hn & Hvs & Hf & Hcov & ->). pose proof (apply_rinv st L out HR Hn Hvs Hf Hcov) as HR'.
  pose proof (rinv_cost st L HR). pose proof (rinv_cost _ _ HR') as HB'. pose proof (cost_sum_valid s HW out Hn Hvs).
  pose proof (total_bound s HW). pose proof (ws_budget s HW). unfold MaxInt in *.
  rewrite cost_sum_app in HB'. rewrite add_tokens_exact in Hc1 by lia.
  exists out. rewrite cost_sum_app, add_tokens_exact by lia. split_and!; [done|lia|lia|].
  destruct (_ <? 0) eqn:Eneg in Haf; [done|]. destruct (reserve s st _ _) eqn:Er in Haf; [done|].
  unfold reserve in Er |- *. rewrite (rinv_dom _ _ HR'), (union_empty_r_L (items_of _)).
  rewrite (rinv_dom _ _ HR) in Er. unfold items_of in *. rewrite fmap_app, list_to_set_app_L. rewrite <- Er. f_equal.
  pose proof (add_tokens_exact (rs_budget s) (- cost_sum L) ltac:(lia)) as E1.
  pose proof (add_tokens_exact (rs_budget s - cost_sum L) (- cost_sum out) ltac:(lia)) as E2.
  unfold add_tokens in E1, E2. rewrite !Z.add_opp_r in E1, E2. rewrite E1, E2. lia.
Qed.

(** The engine keeps room for every record that binds. *)
Lemma engine_run st sp l st' sp' : spends (problem s) (rs_budget s) st sp l st' sp' ->
  forall L, rinv st L -> sp = cost_sum L -> sp <= rs_budget s -> reserve s st ∅ (rs_budget s - sp) = None ->
  exists L', rinv st' L' /\ sp' = cost_sum L' /\ sp' <= rs_budget s /\ reserve s st' ∅ (rs_budget s - sp') = None.
Proof.
  induction 1 as [st sp|st sp m l st' sp' Hm He Hr IH]; intros L HR Hsp Hb Hres; [by exists L|].
  destruct (accept_spec st L sp m HR Hsp Hb Hm He) as (out & HR' & Hs' & Hb' & Hres').
  rewrite <- Hs' in Hb', Hres'. by apply (IH (L ++ out)).
Qed.

(** ** Carrying what binds *)

Lemma min_bundle st L i c : rinv st L -> rs_cands s !! i = Some c -> chosen st !! cItem c = None ->
  forall F, self_contained s F -> F (cItem c) ->
  match cheapestBundle s i st with
  | Some (out, cost) => rinv (apply st out) (L ++ out) /\ cost = cost_sum out /\ 0 <= cost <= total_cost s /\
      cItem c ∈ rItem <$> out /\ Forall (fun r => min_rep s (rItem r) r /\ F (rItem r)) out /\
      priceInto s i (dom (chosen st)) = (dom (chosen (apply st out)), Some cost)
  | None => (priceInto s i (dom (chosen st))).2 = None /\ exists d di, rs_index s !! d = Some di /\ min_at s di = None /\ F d
  end.
Proof.
  intros HR Hc Hf F HF HFc. pose proof (lookup_lt_Some _ _ _ Hc) as Hlt.
  pose proof (price_bundle s HW i st Hlt) as Hp. rewrite (cand_at_lookup s i c Hc) in Hp. specialize (Hp Hf).
  unfold cheapestBundle in *. assert (rs_index s !! cItem c = Some i) as Hidx by (apply (ws_index s HW); eauto).
  destruct (min_at s i) as [j|] eqn:Em; [|split; [done|eauto 6]].
  destruct (min_at_spec s HW i c j Hc Em) as (r & Er & Hr & Hir & Hv).
  assert (min_rep s (cItem c) r) as Hmr by (exists i, j; auto).
  pose proof (bundleFor_spec s HW F (MkMove i j) st HF) as H. cbn [m_cand m_rep] in H. rewrite Er in H.
  specialize (H ltac:(intros; by eapply HF) Hv). rewrite Hir in H. specialize (H Hf).
  destruct (bundleFor s (MkMove i j) st) as [[out cost]|]; [|done].
  destruct H as ((ext & -> & He) & Hn & Hvs & Hfr & Hcov & ->).
  pose proof (apply_rinv st L _ HR Hn Hvs Hfr Hcov) as HR'. split_and!; try done.
  - by apply (cost_sum_valid s HW).
  - by apply (cost_sum_valid s HW).
  - rewrite fmap_cons, Hir. left.
  - constructor; [by rewrite Hir|done].
  - rewrite Hp, (rinv_dom _ _ HR'), (rinv_dom _ _ HR). f_equal. unfold items_of. by rewrite fmap_app, list_to_set_app_L.
Qed.

(** If the reserve fits, the last loop carries every binding candidate within it. *)
Lemma reserve_carry ks st L total limit : rinv st L -> Forall (fun i => (i < length (rs_cands s))%nat) ks ->
  0 <= total <= limit -> limit <= rs_budget s -> cost_sum L + (limit - total) <= rs_budget s ->
  reserve_loop s ks (dom (chosen st)) total limit = None ->
  exists st' ext, carry s ks st (cost_sum L) = inr st' /\ rinv st' (L ++ ext) /\ cost_sum ext <= limit - total /\
    Forall (fun r => min_rep s (rItem r) r) ext /\
    forall i, i ∈ ks \/ is_Some (chosen st !! cItem (cand_at s i)) -> binds_at s i = true ->
      is_Some (chosen st' !! cItem (cand_at s i)).
Proof.
  intros HR Hks. revert st L total HR. induction Hks as [|i ks Hi Hks IH]; intros st L total HR Ht Hl Hb Hres.
  { exists st, []. rewrite app_nil_r. split_and!; try done; [cbn; lia|]. intros i [[]%not_elem_of_nil|?]; done. }
  cbn [reserve_loop carry] in *. apply lookup_lt_is_Some_2 in Hi as [c Hc]. rewrite (cand_at_lookup s i c Hc) in *.
  assert (bool_decide (cItem c ∈ dom (chosen st)) = bool_decide (is_Some (chosen st !! cItem c))) as Hdom
    by (apply bool_decide_ext, elem_of_dom).
  rewrite Hdom in Hres. destruct (negb (binds_at s i) || _) eqn:Eskip.
  - destruct (IH st L total HR Ht Hl Hb Hres) as (st' & ext & E & HR' & Hc' & Hm & Hall).
    exists st', ext. split_and!; try done. intros k [[->|Hk]%elem_of_cons|Hk] Hbk; [|apply Hall; auto..].
    apply orb_true_iff in Eskip as [Es|Es]; [by rewrite Hbk in Es|]. apply bool_decide_eq_true_1 in Es.
    apply Hall; [right|done]. by rewrite (cand_at_lookup s i c Hc).
  - apply orb_false_iff in Eskip as [_ Ef]. apply bool_decide_eq_false_1, eq_None_not_Some in Ef.
    pose proof (min_bundle st L i c HR Hc Ef (fun _ => True) self_contained_all I) as H.
    destruct (cheapestBundle s i st) as [[out cost]|].
    2:{ destruct H as [H _]. destruct (priceInto s i _) as [h [k|]]; [done|]. done. }
    destruct H as (HR1 & -> & Hcost & Hin & Hm1 & Hpr). rewrite Hpr in Hres.
    pose proof (rinv_cost st L HR). pose proof (rinv_cost _ _ HR1) as Hc1. rewrite cost_sum_app in Hc1.
    pose proof (total_bound s HW). unfold MaxInt in *.
    rewrite add_tokens_exact in Hres by lia. destruct (Z.gtb_spec (total + cost_sum out) limit) as [|Hle]; [done|].
    rewrite (add_tokens_exact (cost_sum L)) by lia. destruct (Z.gtb_spec (cost_sum L + cost_sum out) (rs_budget s)); [lia|].
    destruct (IH (apply st out) (L ++ out) (total + cost_sum out) HR1) as (st' & ext & E & HR' & Hc' & Hm & Hall);
      [lia|done|rewrite cost_sum_app; lia|done|].
    rewrite cost_sum_app in E. exists st', (out ++ ext). rewrite app_assoc, cost_sum_app. split_and!; [done|done|lia| |].
    + apply Forall_app. split; [|done]. eapply Forall_impl; [done|]. by intros r [? _].
    + intros k Hk Hbk. apply Hall; [|done]. destruct (decide (k = i)) as [->|Hne].
      * right. rewrite (cand_at_lookup s i c Hc). apply (rinv_some _ _ _ HR1). rewrite fmap_app, elem_of_app. by right.
      * destruct Hk as [[->|Hk]%elem_of_cons|Hk]; [done|by left|right].
        apply (rinv_some _ _ _ HR1). rewrite fmap_app, elem_of_app. left. by apply (rinv_some _ _ _ HR).
Qed.

(** ** When the binding records fit *)

(** [F] carries every binding record, and what it needs, at its cheapest representation. *)
Record carries (F : list Representation) (limit : Z) : Prop := {
  ca_nodup : NoDup (rItem <$> F);
  ca_min : Forall (fun r => min_rep s (rItem r) r) F;
  ca_closed : forall r d, r ∈ F -> d ∈ rRequires r -> is_Some (rs_index s !! d) -> d ∈ rItem <$> F;
  ca_binding : forall i c, rs_cands s !! i = Some c -> bindsAsConstraint c = true -> cItem c ∈ rItem <$> F;
  ca_cost : cost_sum F <= limit
}.

Lemma min_rep_unique d r r' : min_rep s d r -> min_rep s d r' -> r = r'.
Proof. intros (i & j & Hi & Hj & ->) (i' & j' & Hi' & Hj' & ->). by simplify_eq. Qed.

Lemma carries_item F limit r : carries F limit -> rItem r ∈ rItem <$> F -> min_rep s (rItem r) r -> r ∈ F.
Proof.
  intros HC (x & Ex & Hx)%list_elem_of_fmap Hm. pose proof (ca_min F limit HC) as Hf. rewrite Forall_forall in Hf.
  specialize (Hf x Hx). rewrite <- Ex in Hf. by rewrite (min_rep_unique _ _ _ Hm Hf).
Qed.

Lemma carries_self F limit : carries F limit -> self_contained s (fun d => d ∈ rItem <$> F).
Proof.
  intros HC d r x Hd Hm Hx Hs. destruct (min_rep_spec s HW d r Hm) as [<- _].
  apply (ca_closed F limit HC r); [by eapply carries_item|done|done].
Qed.

Lemma reserve_fail ks st L total limit item F : rinv st L -> Forall (fun i => (i < length (rs_cands s))%nat) ks ->
  0 <= total -> total = cost_sum L -> (forall r, r ∈ L -> r ∈ F) -> carries F limit ->
  reserve_loop s ks (dom (chosen st)) total limit = Some item -> False.
Proof.
  intros HR Hks. revert st L total HR. induction Hks as [|i ks Hi Hks IH]; intros st L total HR H0 -> HL HC Hres; [done|].
  cbn [reserve_loop] in Hres. apply lookup_lt_is_Some_2 in Hi as [c Hc]. rewrite (cand_at_lookup s i c Hc) in *.
  assert (bool_decide (cItem c ∈ dom (chosen st)) = bool_decide (is_Some (chosen st !! cItem c))) as Hdom
    by (apply bool_decide_ext, elem_of_dom).
  rewrite Hdom in Hres. destruct (negb (binds_at s i) || _) eqn:Eskip; [by eapply (IH st L)|].
  apply orb_false_iff in Eskip as [Eb Ef]. apply bool_decide_eq_false_1, eq_None_not_Some in Ef.
  apply negb_false_iff in Eb. rewrite (ws_bind s HW i c Hc) in Eb.
  pose proof (min_bundle st L i c HR Hc Ef _ (carries_self F limit HC) (ca_binding F limit HC i c Hc Eb)) as H.
  destruct (cheapestBundle s i st) as [[out cost]|].
  2:{ destruct H as (_ & d & di & Hd & Hm & (r & Er & Hr)%list_elem_of_fmap). pose proof (ca_min F limit HC) as Hf.
      rewrite Forall_forall in Hf. destruct (Hf r Hr) as (k & j & Hk & Hj & _). rewrite <- Er in Hk. by simplify_eq. }
  destruct H as (HR1 & -> & Hcost & _ & Hm1 & Hpr). rewrite Hpr in Hres.
  pose proof (rinv_cost _ _ HR1) as Hc1. pose proof (rinv_cost _ _ HR). rewrite cost_sum_app in Hc1.
  pose proof (total_bound s HW). pose proof (ws_budget s HW). unfold MaxInt in *.
  assert (forall r, r ∈ L ++ out -> r ∈ F) as HLF.
  { intros r [Hr|Hr]%elem_of_app; [auto|]. rewrite Forall_forall in Hm1. destruct (Hm1 r Hr). by eapply carries_item. }
  rewrite add_tokens_exact in Hres by lia. destruct (Z.gtb_spec (cost_sum L + cost_sum out) limit) as [Hgt|Hle].
  - assert (cost_sum (L ++ out) <= cost_sum F) as Hsub.
    { apply cost_sum_sub; [apply NoDup_submseteq; [eapply NoDup_fmap_1, (ri_nodup _ _ HR1)|done]|].
      eapply Forall_impl; [apply (ca_min F limit HC)|]. intros r [_ Hv]%(min_rep_spec s HW). by apply (valid_cost s HW). }
    rewrite cost_sum_app in Hsub. pose proof (ca_cost F limit HC). lia.
  - apply (IH (apply st out) (L ++ out) (cost_sum L + cost_sum out)); try done; [lia|by rewrite cost_sum_app].
Qed.

Lemma reserve_item ks have total limit item : reserve_loop s ks have total limit = Some item ->
  exists i, i ∈ ks /\ binds_at s i = true /\ cItem (cand_at s i) = item.
Proof.
  revert have total. induction ks as [|i ks IH]; intros have total; cbn [reserve_loop]; [done|].
  destruct (binds_at s i) eqn:Eb; cbn [negb orb].
  2:{ intros H. apply IH in H as (k & Hk & ?). exists k. split; [by right|done]. }
  destruct (bool_decide _).
  { intros H. apply IH in H as (k & Hk & ?). exists k. split; [by right|done]. }
  assert (exists k, k ∈ i :: ks /\ binds_at s k = true /\ cItem (cand_at s k) = cItem (cand_at s i)) as Hi
    by (exists i; split; [left|done]).
  destruct (priceInto s i have) as [h [c|]]; [|intros [= <-]; done]. destruct (_ >? _); [intros [= <-]; done|].
  intros H. apply IH in H as (k & Hk & ?). exists k. split; [by right|done].
Qed.

Lemma positions_in : Forall (fun i => (i < length (rs_cands s))%nat) (positions s).
Proof. unfold positions. apply Forall_forall. intros i Hi. apply elem_of_seq in Hi. lia. Qed.

(** The first reserve fits exactly when the binding records can be carried. *)
Lemma reserve_exact : reserve s newRepState ∅ (rs_budget s) = None <-> exists F, carries F (rs_budget s).
Proof.
  unfold reserve. rewrite (union_empty_r_L (dom (chosen newRepState))). split.
  - intros H. pose proof (ws_budget s HW).
    destruct (reserve_carry (positions s) newRepState [] 0 (rs_budget s) rinv_empty positions_in) as
      (st & F & _ & HR & Hc & Hm & Hall); [lia|lia|cbn; lia|done|].
    rewrite app_nil_l in HR. exists F. constructor; [apply HR|done| | |lia].
    + intros r d Hr Hd [k Hk]. destruct (ri_closed st F HR r d Hr Hd); [congruence|done].
    + intros i c Hci Hb. apply (rinv_some st F _ HR). rewrite <- (cand_at_lookup s i c Hci). apply Hall.
      * left. unfold positions. apply elem_of_seq. pose proof (lookup_lt_Some _ _ _ Hci). lia.
      * by rewrite (ws_bind s HW i c Hci).
  - intros [F HF]. destruct (reserve_loop _ _ _ _ _) as [item|] eqn:E; [|done]. exfalso.
    exact (reserve_fail (positions s) newRepState [] 0 (rs_budget s) item F rinv_empty positions_in ltac:(lia) eq_refl
      ltac:(set_solver) HF E).
Qed.

End State.

(** ** The outcome *)

Lemma omap_chosen s st L : wf_solver s -> rinv s st L ->
  omap (fun c => chosen st !! cItem c) (rs_cands s) ≡ₚ L.
Proof.
  intros HW HR. apply NoDup_Permutation; [|by eapply NoDup_fmap_1, HR|].
  - eapply (NoDup_fmap_1 rItem). pose proof (ws_nodup s HW) as Hn. induction (rs_cands s) as [|c l IH]; [constructor|].
    cbn. apply NoDup_cons in Hn as [Hc Hn]. specialize (IH Hn). destruct (chosen st !! cItem c) as [r|] eqn:E; [|done].
    cbn. apply NoDup_cons. split; [|done]. apply (ri_chosen s st L HR) in E as [_ Er]. rewrite Er.
    intros (x & Ex & (c' & Hc' & Hx)%list_elem_of_omap)%list_elem_of_fmap.
    apply (ri_chosen s st L HR) in Hx as [_ Hx]. apply Hc. rewrite Ex, Hx. by apply list_elem_of_fmap_2.
  - intros r. rewrite list_elem_of_omap. split.
    + intros (c & Hc & Hr). by apply (ri_chosen s st L HR) in Hr as [? _].
    + intros Hr. pose proof (ri_valid s st L HR) as Hv. rewrite Forall_forall in Hv.
      destruct (Hv r Hr) as (i & c & Hc & _ & He & _). exists c. split; [by eapply list_elem_of_lookup_2|].
      by apply (ri_chosen s st L HR).
Qed.

Lemma candidateBlocks_pos p cands :
  existsb (fun b => bPos b <? p) (candidateBlocks cands) = existsb (fun c => cPos c <? p) cands.
Proof. unfold candidateBlocks. induction cands as [|c l IH]; [done|]. cbn. by rewrite <- IH. Qed.

Lemma propose_guards av cancelled p cands lambda budget : cancelled 0%nat = false ->
  existsb (fun c => cPos c <? p) cands = false -> av = true ->
  Propose av cancelled p cands lambda budget =
    let s := newRepSolver p cands lambda budget in
    match reserve s newRepState ∅ budget with
    | Some offender => Some (Ok (overflow s offender))
    | None =>
        match runLazyGreedy (problem s) budget (fun n => cancelled (S n)) newRepState with
        | None => None
        | Some Panic => Some Panic
        | Some (Err e) => Some (Err e)
        | Some (Ok (st, res)) =>
            match carry s (positions s) st (Spent res) with
            | inl item => Some (Ok (overflow s item))
            | inr st => Some (Ok (proposal s st (Iters res)))
            end
        end
    end.
Proof. intros Hc Hp ->. unfold Propose, NewSelector. by rewrite Hc, candidateBlocks_pos, Hp. Qed.

(** The two outcomes of a call that is not refused or cancelled. *)
Lemma propose_cases cancelled p cands lambda budget :
  wf_cands budget cands -> Forall (fun c => p <= cPos c) cands -> (forall n, cancelled n = false) ->
  let s := newRepSolver p cands lambda budget in
  (exists item, reserve s newRepState ∅ budget = Some item /\
     Propose true cancelled p cands lambda budget = Some (Ok (overflow s item))) \/
  (exists st L iters, reserve s newRepState ∅ budget = None /\
     Propose true cancelled p cands lambda budget = Some (Ok (proposal s st iters)) /\
     rinv s st L /\ cost_sum L <= budget /\
     forall i c, rs_cands s !! i = Some c -> bindsAsConstraint c = true -> is_Some (chosen st !! cItem c)).
Proof.
  intros Hw Hp Hc s. pose proof (newRepSolver_wf p cands lambda budget Hw) as HW. fold s in HW.
  pose proof (ws_budget s HW) as Hb. change (rs_budget s) with budget in Hb.
  rewrite propose_guards; [|done| |done].
  2:{ apply not_true_iff_false. intros (c & Hin & Hlt)%existsb_exists. rewrite Forall_forall in Hp.
      specialize (Hp c (proj2 (list_elem_of_In _ _) Hin)). lia. }
  cbv zeta. fold s. destruct (reserve s newRepState ∅ budget) as [item|] eqn:Er; [left; eauto|right].
  destruct (run_spends (problem s) budget (fun n => cancelled (S n)) newRepState) as (r & Hr & [[_ [k Hk]]|(st & res & -> & Hs & _)]);
    [by rewrite Hc in Hk|].
  rewrite Hr. destruct (engine_run s HW _ _ _ _ _ Hs [] (rinv_empty s HW) eq_refl) as (L & HR & Hsp & Hle & Hres); [done|..].
  { change (rs_budget s) with budget. by rewrite Z.sub_0_r. }
  change (rs_budget s) with budget in *. unfold reserve in Hres. rewrite (union_empty_r_L (dom (chosen st))) in Hres.
  pose proof (rinv_cost s HW st L HR).
  destruct (reserve_carry s HW (positions s) st L 0 (budget - Spent res) HR (positions_in s)) as
    (st' & ext & Hcr & HR' & Hcost & _ & Hall); [lia|change (rs_budget s) with budget; lia|change (rs_budget s) with budget; lia|done|].
  rewrite Hsp, Hcr. exists st', (L ++ ext), (Iters res). split_and!; [done|done|done|rewrite cost_sum_app; lia|].
  intros i c Hi Hbd. rewrite <- (cand_at_lookup s i c Hi). apply Hall; [left|by rewrite (ws_bind s HW i c Hi)].
  unfold positions. apply elem_of_seq. pose proof (lookup_lt_Some _ _ _ Hi). lia.
Qed.

(** ** In terms of the caller's candidates *)

Lemma binds_normalize c : bindsAsConstraint (normalize c) = bindsAsConstraint c.
Proof.
  unfold bindsAsConstraint. cbn [cMandatory normalize cReps]. f_equal. rewrite (existsb_perm _ _ _ (stable_sort_perm _ _)).
  induction (cReps c) as [|r l IH]; [done|]. cbn. by rewrite IH.
Qed.

Lemma solver_cand p cands lambda budget c : c ∈ cands -> exists i, rs_cands (newRepSolver p cands lambda budget) !! i = Some (normalize c).
Proof.
  intros Hc. apply list_elem_of_lookup. rewrite newRepSolver_cands. by apply list_elem_of_fmap_2.
Qed.

Lemma cand_solver p cands lambda budget i c : rs_cands (newRepSolver p cands lambda budget) !! i = Some c ->
  exists c', c' ∈ cands /\ c = normalize c'.
Proof.
  intros Hc%list_elem_of_lookup_2. rewrite newRepSolver_cands in Hc. apply list_elem_of_fmap in Hc as (c' & -> & ?). eauto.
Qed.

(** A representation as the caller wrote it, its requirements put in order. *)
Definition written_as (r' r : Representation) : Prop :=
  rItem r = rItem r' /\ rKind r = rKind r' /\ rCost r = rCost r' /\ rProv r = rProv r' /\ rCoverage r = rCoverage r' /\
  rRequires r ≡ₚ rRequires r'.

(** A legal choice for one of the candidates: not archive-only, and active if the candidate binds. *)
Definition legal (cands : list Candidate) (r : Representation) : Prop :=
  exists c r', c ∈ cands /\ r' ∈ cReps c /\ written_as r' r /\ rItem r = cItem c /\ rKind r <> RepArchiveOnly /\
    (bindsAsConstraint c = true -> Active (provQual (rProv r)) = true).

Lemma valid_legal p cands lambda budget r : valid_rep (newRepSolver p cands lambda budget) r -> legal cands r.
Proof.
  intros (i & c & Hc & Hr & Hi & Ha). destruct (cand_solver _ _ _ _ _ _ Hc) as (c' & Hc' & ->).
  destruct (normalize_reps c' r Hr) as (r' & Hr' & Hw). exists c', r'. unfold allowed in Ha. rewrite binds_normalize in Ha.
  apply andb_true_iff in Ha as [Hk Hq]. split_and!; try done; [apply Hw..| |].
  - apply negb_true_iff in Hk. lia.
  - intros Hb. by rewrite Hb in Hq.
Qed.

Lemma archive_elem p cands lambda budget st L (chs : list Representation) d :
  rinv (newRepSolver p cands lambda budget) st L -> rItem <$> chs ≡ₚ rItem <$> L ->
  d ∈ Archive (proposal (newRepSolver p cands lambda budget) st 0) <-> ~ (d ∈ rItem <$> chs) /\
    exists c r, c ∈ cands /\ cItem c = d /\ r ∈ cReps c /\ rKind r = RepArchiveOnly.
Proof.
  intros HR HP. rewrite HP, <- (rinv_some _ st L d HR). cbn [proposal Archive]. rewrite list_elem_of_fmap. split.
  - intros (c & -> & (Hc & (Hn & Hx)%andb_true_iff)%list_elem_of_In%filter_In).
    apply negb_true_iff, bool_decide_eq_false_1 in Hn. split; [done|]. apply existsb_exists in Hx as (r & Hr & Hk).
    apply list_elem_of_In, list_elem_of_lookup in Hc as [i Hc]. destruct (cand_solver _ _ _ _ _ _ Hc) as (c' & Hc' & ->).
    apply list_elem_of_In in Hr. destruct (normalize_reps c' r Hr) as (r' & Hr' & _ & Ek & _). exists c', r'. split_and!; [done..|lia].
  - intros [Hn (c & r & Hc & <- & Hr & Hk)]. destruct (solver_cand p cands lambda budget c Hc) as [i Hi].
    exists (normalize c). split; [done|]. apply list_elem_of_In, filter_In. split; [apply list_elem_of_In; by eapply list_elem_of_lookup_2|].
    rewrite bool_decide_false by done. cbn [negb andb]. apply existsb_exists.
    cbn [normalize cReps]. eexists. split; [apply list_elem_of_In; rewrite stable_sort_perm; by apply list_elem_of_fmap_2|]. cbn. lia.
Qed.

(** ** The theorems *)

(** A call of [Propose] always answers, whatever the candidates.  It is refused with the budget error
    when it was cancelled or when a candidate precedes the compaction point, before anything is said
    about p-selection, and with "not implemented" when p-selection is not available; otherwise it
    proposes, or was cancelled on the way. *)
Theorem propose_total (av : bool) (cancelled : nat -> bool) (p : Z) (cands : list Candidate) (lambda budget : Z) :
  exists r, Propose av cancelled p cands lambda budget = Some r /\
  if cancelled 0%nat then r = Err ErrBudget
  else if existsb (fun c => cPos c <? p) cands then r = Err ErrBudget
  else if negb av then r = Err ErrNotImplemented
  else (exists pr, r = Ok pr) \/ (r = Err ErrBudget /\ exists n, cancelled n = true).
Proof.
  destruct (cancelled 0%nat) eqn:Ec; [unfold Propose; rewrite Ec; eauto|].
  destruct (existsb _ cands) eqn:Ep; [unfold Propose, NewSelector; rewrite Ec, candidateBlocks_pos, Ep; eauto|].
  destruct av; cbn [negb]; [|unfold Propose, NewSelector; rewrite Ec, candidateBlocks_pos, Ep; eauto].
  rewrite propose_guards by done. cbv zeta. set (s := newRepSolver p cands lambda budget).
  destruct (reserve _ _ _ _); [eauto|].
  destruct (run_spends (problem s) budget (fun n => cancelled (S n)) newRepState) as (r & -> & H).
  destruct H as [[-> [n Hn]]|(st & res & -> & _)]; [eauto 7|]. destruct (carry _ _ _ _); eauto.
Qed.

(** C7: On candidates with distinct items, representations that name their own candidate, non-negative prices whose sum with
    the budget fits an int ([wf_cands]), positions at or after [p] and a context that does not end, a proposal that does not
    report an overflow chooses at most one representation per item, each as a caller offered it, never an archive-only one
    and only an active one where the candidate binds; everything a choice requires among the candidates is chosen too;
    every binding candidate is carried; [Tokens] is the true sum of the chosen prices and within the
    budget; and [Archive] names exactly the items left out that had an archive-only representation.  Two candidates with one
    item are [propose_duplicate_overrun]. *)
Theorem propose_sound (cancelled : nat -> bool) (p : Z) (cands : list Candidate) (lambda budget : Z) :
  wf_cands budget cands -> Forall (fun c => p <= cPos c) cands -> (forall n, cancelled n = false) ->
  exists pr, Propose true cancelled p cands lambda budget = Some (Ok pr) /\
  (Overflow pr = false ->
    NoDup (rItem <$> Chosen pr) /\ Forall (legal cands) (Chosen pr) /\
    (forall r d, r ∈ Chosen pr -> d ∈ rRequires r -> d ∈ cItem <$> cands -> d ∈ rItem <$> Chosen pr) /\
    (forall c, c ∈ cands -> bindsAsConstraint c = true -> cItem c ∈ rItem <$> Chosen pr) /\
    pTokens pr = cost_sum (Chosen pr) /\ pTokens pr <= budget /\
    (forall d, d ∈ Archive pr <-> ~ (d ∈ rItem <$> Chosen pr) /\
       exists c r, c ∈ cands /\ cItem c = d /\ r ∈ cReps c /\ rKind r = RepArchiveOnly)).
Proof.
  intros Hw Hp Hc. pose proof (newRepSolver_wf p cands lambda budget Hw) as HW.
  destruct (propose_cases cancelled p cands lambda budget Hw Hp Hc) as [(item & _ & E)|(st & L & iters & _ & E & HR & Hcost & Hall)];
    eexists; (split; [exact E|]); [done|intros _].
  set (s := newRepSolver p cands lambda budget) in *. pose proof (omap_chosen s st L HW HR) as HP.
  unfold proposal. cbn [Chosen pTokens Archive]. set (chs := omap _ _) in *.
  assert (NoDup (rItem <$> chs)) as Hn by (rewrite HP; apply HR).
  assert (Forall (valid_rep s) chs) as Hv by (rewrite HP; apply HR).
  rewrite (bundle_cost_valid s HW chs Hn Hv). split_and!; try done.
  - eapply Forall_impl; [done|]. apply valid_legal.
  - intros r d Hr Hd (c & -> & Hcin)%list_elem_of_fmap. rewrite HP in Hr |- *.
    destruct (ri_closed s st L HR r _ Hr Hd) as [Hnone|]; [|done]. exfalso.
    destruct (solver_cand p cands lambda budget c Hcin) as [i Hi].
    assert (rs_index s !! cItem c = Some i) by (apply (ws_index s HW); eauto). congruence.
  - intros c Hcin Hb. destruct (solver_cand p cands lambda budget c Hcin) as [i Hi]. rewrite HP.
    apply (rinv_some s st L _ HR). apply (Hall i _ Hi). by rewrite binds_normalize.
  - by rewrite HP.
  - intros d. apply (archive_elem p cands lambda budget st L); [done|by rewrite HP].
Qed.

(** ** What can be carried at all *)

(** A delivery within a budget: at most one legal representation per item, with everything they require among the
    candidates, and every binding candidate among them. *)
Record delivery (cands : list Candidate) (S : list Representation) (budget : Z) : Prop := {
  dl_nodup : NoDup (rItem <$> S);
  dl_legal : Forall (legal cands) S;
  dl_closed : forall r d, r ∈ S -> d ∈ rRequires r -> d ∈ cItem <$> cands -> d ∈ rItem <$> S;
  dl_binding : forall c, c ∈ cands -> bindsAsConstraint c = true -> cItem c ∈ rItem <$> S;
  dl_cost : cost_sum S <= budget
}.

(** All deliverable representations of a candidate require the same items. *)
Definition uniform_needs (cands : list Candidate) : Prop :=
  forall c r r' d, c ∈ cands -> r ∈ cReps c -> r' ∈ cReps c -> rKind r <> RepArchiveOnly -> rKind r' <> RepArchiveOnly -> d ∈ rRequires r -> d ∈ rRequires r'.

Section Deliver.
Context (p : Z) (cands : list Candidate) (lambda budget : Z) (Hw : wf_cands budget cands).
Let s := newRepSolver p cands lambda budget.
Let HW : wf_solver s := newRepSolver_wf p cands lambda budget Hw.

Lemma index_cand d : is_Some (rs_index s !! d) <-> d ∈ cItem <$> cands.
Proof.
  rewrite list_elem_of_fmap. split.
  - intros [i (c & Hc & <-)%(ws_index s HW)]. destruct (cand_solver _ _ _ _ _ _ Hc) as (c' & Hc' & ->). by exists c'.
  - intros (c & -> & Hc). destruct (solver_cand p cands lambda budget c Hc) as [i Hi]. exists i. apply (ws_index s HW). by exists (normalize c).
Qed.

(** What is carried at the cheapest representations is delivered. *)
Lemma carries_delivery F : carries s F budget -> delivery cands F budget.
Proof.
  intros [C1 C2 C3 C4 C5]. constructor; [done| | | |done].
  - eapply Forall_impl; [exact C2|]. intros r [_ Hv]%(min_rep_spec s HW). by apply (valid_legal p cands lambda budget).
  - intros r d Hr Hd Hin. apply (C3 r d Hr Hd). by apply index_cand.
  - intros c Hc Hb. destruct (solver_cand p cands lambda budget c Hc) as [i Hi]. apply (C4 i (normalize c) Hi). by rewrite binds_normalize.
Qed.

(** A legal representation against the cheapest one of its item. *)
Lemma legal_cheapest r : uniform_needs cands -> legal cands r ->
  exists m, min_rep s (rItem r) m /\ rItem m = rItem r /\ rCost m <= rCost r /\ forall d, d ∈ rRequires m -> d ∈ rRequires r.
Proof.
  intros Hun (c & r' & Hc & Hr' & (W1 & W2 & W3 & W4 & W5 & W6) & Hi & Hk & Hq). destruct (solver_cand p cands lambda budget c Hc) as [i Hci].
  set (x := MkRep (rItem r') (rKind r') (rCoverage r') (rCost r') (merge_sort bytes_le (rRequires r')) (rProv r')).
  assert (x ∈ cReps (normalize c)) as Hx by (cbn [normalize cReps]; rewrite stable_sort_perm; apply list_elem_of_fmap; by exists r').
  assert (allowed (bindsAsConstraint (normalize c)) x = true) as Hax.
  { rewrite binds_normalize. unfold allowed. cbn [x rKind rProv]. rewrite <- W2, <- W4. rewrite (proj2 (Z.eqb_neq _ _) Hk). cbn [negb andb].
    destruct (bindsAsConstraint c); [by apply Hq|done]. }
  pose proof (minRep_spec (bindsAsConstraint (normalize c)) (normalize c)) as Hm. rewrite <- (ws_min s HW i _ Hci) in Hm. destruct (min_at s i) as [j|] eqn:Ej.
  2: { rewrite Forall_forall in Hm. by rewrite Hm in Hax. }
  destruct Hm as (m & Hmj & Ham & Hmin). assert (m ∈ cReps (normalize c)) as Hmin' by (by eapply list_elem_of_lookup_2). exists m.
  assert (min_rep s (rItem r) m) as Hmr.
  { exists i, j. split; [apply (ws_index s HW); exists (normalize c); split; [done|]; by rewrite Hi|]. split; [done|]. symmetry. by eapply rep_at_lookup. }
  split; [done|]. split; [by apply (min_rep_spec s HW)|]. split; [rewrite W3; by apply (Hmin x)|].
  destruct (normalize_reps c m Hmin') as (m' & Hm' & _ & M2 & _ & _ & _ & M6). intros d Hd. rewrite W6. apply (Hun c m' r' d Hc Hm' Hr'); [|congruence|by rewrite <- M6].
  rewrite <- M2. unfold allowed in Ham. apply andb_true_iff in Ham as [Ham _]. apply negb_true_iff, Z.eqb_neq in Ham. done.
Qed.

(** Where all representations require the same, what can be delivered can be carried at the cheapest. *)
Lemma delivery_carries S : uniform_needs cands -> delivery cands S budget -> exists F, carries s F budget.
Proof.
  intros Hun [D1 D2 D3 D4 D5].
  assert (exists F, Forall2 (fun r m => min_rep s (rItem r) m /\ rItem m = rItem r /\ rCost m <= rCost r /\ forall d, d ∈ rRequires m -> d ∈ rRequires r) S F) as [F HF].
  { clear D1 D3 D4 D5. induction D2 as [|r S Hr _ [F IH]]; [by exists []|]. destruct (legal_cheapest r Hun Hr) as [m Hm]. exists (m :: F). by constructor. }
  assert (rItem <$> F = rItem <$> S /\ cost_sum F <= cost_sum S) as [Ei Ec].
  { clear -HF. induction HF as [|r m S F (_ & Hi & Hc & _) _ [IH1 IH2]]; [done|]. rewrite !fmap_cons, Hi, IH1. split; [done|]. change (rCost m + cost_sum F <= rCost r + cost_sum S). lia. }
  exists F. constructor; rewrite ?Ei; [done| | | |lia].
  - apply Forall_forall. intros m Hm. apply list_elem_of_lookup in Hm as [i Hm]. destruct (Forall2_lookup_r _ _ _ _ _ HF Hm) as (r & _ & Hr & -> & _). done.
  - intros m d Hm Hd Hin. apply list_elem_of_lookup in Hm as [i Hm]. destruct (Forall2_lookup_r _ _ _ _ _ HF Hm) as (r & Hr & _ & _ & _ & Hq).
    apply (D3 r d); [by eapply list_elem_of_lookup_2|by apply Hq|by apply index_cand].
  - intros i c Hc Hb. destruct (cand_solver _ _ _ _ _ _ Hc) as (c' & Hc' & ->). apply (D4 c' Hc'). by rewrite binds_normalize in Hb.
Qed.

End Deliver.

(** C8: Where the deliverable representations of each candidate require the same items, [Propose] on well-formed
    candidates reports an overflow exactly when nothing can be delivered within the budget: no choice of at most one legal
    representation per item, closed under what it requires, carries every binding candidate.  An overflow names a binding
    candidate and proposes nothing.  (Where a dearer representation requires less, see [overflow_despite_fit].) *)
Theorem overflow_exact (cancelled : nat -> bool) (p : Z) (cands : list Candidate) (lambda budget : Z) :
  wf_cands budget cands -> uniform_needs cands -> Forall (fun c => p <= cPos c) cands -> (forall n, cancelled n = false) ->
  exists pr, Propose true cancelled p cands lambda budget = Some (Ok pr) /\
  (Overflow pr = true <-> ~ exists S, delivery cands S budget) /\
  (Overflow pr = true -> Chosen pr = [] /\ pTokens pr = 0 /\ Archive pr = [pItem pr] /\
     exists c, c ∈ cands /\ cItem c = pItem pr /\ bindsAsConstraint c = true).
Proof.
  intros Hw Hun Hp Hc. pose proof (newRepSolver_wf p cands lambda budget Hw) as HW.
  assert (reserve (newRepSolver p cands lambda budget) newRepState ∅ budget = None <-> exists S, delivery cands S budget) as Hex.
  { rewrite (reserve_exact _ HW). change (rs_budget _) with budget. split; intros [F HF]; [exists F; by apply (carries_delivery p cands lambda budget Hw)|].
    by apply (delivery_carries p cands lambda budget Hw F). }
  destruct (propose_cases cancelled p cands lambda budget Hw Hp Hc) as [(item & Hr & E)|(st & L & iters & Hr & E & _)];
    eexists; (split; [exact E|]); rewrite <- Hex, Hr.
  - split; [by split|]. intros _. split_and!; [done..|]. cbn [pItem overflow].
    apply reserve_item in Hr as (i & Hi & Hb & <-). unfold positions in Hi. apply elem_of_seq in Hi as [_ Hi].
    apply lookup_lt_is_Some_2 in Hi as [c Hi]. destruct (cand_solver _ _ _ _ _ _ Hi) as (c' & Hc' & ->).
    rewrite (ws_bind _ HW i _ Hi), binds_normalize in Hb. exists c'. by rewrite (cand_at_lookup _ i _ Hi).
  - split; [|done]. split; [done|]. intros H. by destruct H.
Qed.

(** The order in which distinct candidates are handed over does not reach the proposal. *)
Theorem propose_order_independent (av : bool) (cancelled : nat -> bool) (p : Z) (cands cands' : list Candidate) (lambda budget : Z) :
  cands ≡ₚ cands' -> NoDup (cItem <$> cands) ->
  Propose av cancelled p cands lambda budget = Propose av cancelled p cands' lambda budget.
Proof.
  intros Hp Hn. assert (newRepSolver p cands lambda budget = newRepSolver p cands' lambda budget) as Hs.
  { unfold newRepSolver. rewrite (sort_by_key_unique cItem (normalize <$> cands) (normalize <$> cands')); [done| |].
    - by rewrite Hp.
    - by rewrite <- list_fmap_compose. }
  unfold Propose, NewSelector. rewrite !candidateBlocks_pos, (existsb_perm _ _ _ Hp).
  destruct (cancelled 0%nat); [done|]. destruct (existsb _ _); [done|]. destruct av; [|done]. cbn [negb P newGreedySelector sel_p].
  by rewrite Hs.
Qed.

(** ** Examples *)

Definition rep_of (item : string) (kind cov cost : Z) (req : list bytes) (root : Hash) : Representation :=
  MkRep (str item) kind cov cost req (MkProv [] root false QualCurrent 0).

Definition outcome_of (cands : list Candidate) (lambda budget : Z) : option (list (bytes * Z) * Z * bool * bytes) :=
  match Propose true (fun _ => false) 0 cands lambda budget with
  | Some (Ok pr) => Some ((fun r => (rItem r, rKind r)) <$> Chosen pr, pTokens pr, Overflow pr, pItem pr)
  | _ => None
  end.

(** A mandatory record with a capsule that needs a file, and an optional one. *)
Definition sample_cands : list Candidate :=
  [MkCand (str "m") 5 Float.zero true [rep_of "m" RepCapsule Float.one 3 [str "f"] root_one; rep_of "m" RepArchiveOnly 0 0 [] root_one];
   MkCand (str "f") 5 Float.one false [rep_of "f" RepExactSpan Float.one 9 [] zeroHash; rep_of "f" RepPointer (Float.decimal 5 1) 2 [] zeroHash];
   MkCand (str "o") 5 Float.one false [rep_of "o" RepExactSpan Float.one 6 [] zeroHash; rep_of "o" RepArchiveOnly 0 0 [] zeroHash]].

Lemma sample_wf budget : 0 <= budget <= 1000 -> wf_cands budget sample_cands.
Proof.
  intros Hb. constructor; [apply (bool_decide_unpack _); vm_compute; exact I| | | |lia].
  - repeat constructor.
  - repeat constructor; cbn; lia.
  - unfold MaxInt. cbn. lia.
Qed.

Lemma sample_uniform : uniform_needs sample_cands.
Proof.
  intros c r r' d Hc Hr Hr' Hk Hk' Hd. unfold sample_cands in Hc. rewrite !elem_of_cons, elem_of_nil in Hc.
  destruct Hc as [->|[->|[->|[]]]]; cbn [cReps] in *; rewrite !elem_of_cons, elem_of_nil in Hr, Hr'; naive_solver.
Qed.

(** With a budget of 12 the file is delivered in full beside the mandatory record; with 11 it is
    delivered as a pointer and the optional record fits too; with 4 the mandatory record does not fit. *)
Example sample_outcomes :
  outcome_of sample_cands Float.zero 12 = Some ([(str "f", RepExactSpan); (str "m", RepCapsule)], 12, false, []) /\
  outcome_of sample_cands Float.zero 11 = Some ([(str "f", RepPointer); (str "m", RepCapsule); (str "o", RepExactSpan)], 11, false, []) /\
  outcome_of sample_cands Float.zero 4 = Some ([], 0, true, str "m").
Proof. vm_compute. split_and!; reflexivity. Qed.

Lemma propose_sound_witness : exists pr,
  Propose true (fun _ => false) 0 sample_cands Float.zero 12 = Some (Ok pr) /\ Overflow pr = false /\ pTokens pr <= 12.
Proof.
  destruct (propose_sound (fun _ => false) 0 sample_cands Float.zero 12 (sample_wf 12 ltac:(lia))
    ltac:(repeat constructor; cbn; lia) (fun _ => eq_refl)) as (pr & E & H). exists pr.
  assert (Overflow pr = false) as Ho.
  { assert (match Propose true (fun _ => false) 0 sample_cands Float.zero 12 with
            | Some (Ok pr) => Overflow pr | _ => true end = false) as Hv by (vm_compute; reflexivity).
    rewrite E in Hv. exact Hv. }
  destruct (H Ho) as (_ & _ & _ & _ & _ & Ht & _). split; [exact E|]. split; [exact Ho|exact Ht].
Defined.

Lemma overflow_exact_witness : exists pr,
  Propose true (fun _ => false) 0 sample_cands Float.zero 4 = Some (Ok pr) /\ Overflow pr = true /\
  ~ exists S, delivery sample_cands S 4.
Proof.
  destruct (overflow_exact (fun _ => false) 0 sample_cands Float.zero 4 (sample_wf 4 ltac:(lia)) sample_uniform
    ltac:(repeat constructor; cbn; lia) (fun _ => eq_refl)) as (pr & E & H & _). exists pr.
  assert (Overflow pr = true) as Ho.
  { assert (match Propose true (fun _ => false) 0 sample_cands Float.zero 4 with
            | Some (Ok pr) => Overflow pr | _ => false end = true) as Hv by (vm_compute; reflexivity).
    rewrite E in Hv. exact Hv. }
  split; [exact E|]. split; [exact Ho|]. by apply H.
Defined.

(** *** Beyond the hypotheses and the comments *)

(** An item offered twice is chosen once, listed twice and counted twice: the proposal is over budget. *)
Theorem propose_duplicate_overrun :
  let c := MkCand (str "a") 0 Float.one false [rep_of "a" RepExactSpan Float.one 6 [] zeroHash] in
  outcome_of [c; c] Float.zero 10 = Some ([(str "a", RepExactSpan); (str "a", RepExactSpan)], 12, false, []).
Proof. vm_compute. reflexivity. Qed.

(** The cheapest representation of a mandatory record may need more than a dearer one does: here the
    span alone costs 5 of a budget of 10, but the reserve prices the capsule with the file it needs and
    reports that no representation fits. *)
Theorem overflow_despite_fit :
  let c := MkCand (str "m") 0 Float.one true
    [rep_of "m" RepExactSpan Float.one 5 [] zeroHash; rep_of "m" RepCapsule Float.one 1 [str "x"] zeroHash] in
  let x := MkCand (str "x") 0 Float.one false [rep_of "x" RepExactSpan Float.one 100 [] zeroHash] in
  outcome_of [c; x] Float.zero 10 = Some ([], 0, true, str "m") /\
  rs_minRep (newRepSolver 0 [c; x] Float.zero 10) = [Some 1%nat; Some 0%nat].
Proof. vm_compute. split; reflexivity. Qed.

(** A gain can grow when another move pays for a shared dependency, so a cached gain is not an upper
    bound: [a] needs [d], whose root [e] already delivered.  While [d] is unpaid [a] is worth 0.5 less
    the penalty; after [b] has brought [d] it is worth 0.5 again, but [z], measured again first, is
    worth less than nothing and ends the loop. *)
Definition rising_cands : list Candidate :=
  [MkCand (str "a") 0 (Float.decimal 5 1) false [rep_of "a" RepExactSpan Float.one 1 [str "d"] zeroHash];
   MkCand (str "b") 0 (Float.decimal 15 1) false [rep_of "b" RepExactSpan Float.one 1 [str "d"] zeroHash];
   MkCand (str "d") 0 Float.zero false [rep_of "d" RepExactSpan Float.one 1 [] root_one];
   MkCand (str "e") 0 (F64.of_int 2) false [rep_of "e" RepExactSpan Float.one 1 [] root_one];
   MkCand (str "z") 0 (Float.decimal 9 1) false [rep_of "z" RepExactSpan Float.one 1 [] root_one]].

Theorem propose_loses_move :
  let s := newRepSolver 0 rising_cands Float.one 100 in
  match runLazyGreedy (problem s) 100 (fun _ => false) newRepState with
  | Some (Ok (st, res)) => Accepted res = [3%nat; 1%nat] /\ eligible (problem s) 100 st (Spent res) 0 = true
  | _ => False
  end.
Proof. vm_compute. split; reflexivity. Qed.
