(* ===== verification/Admission.v ===== *)
(** * Admission control

    Models [src/internal/admission]: the policy surface ([types.go]), the envelope markers
    ([envelope.go]), meanings, baselines and the representation decision ([capsule.go]), handle
    resolution ([resolve.go]), the pipeline ([pipeline.go]) and the rollback and quality report
    ([report.go]).  The ports of the pipeline are parameters: functions that answer from a world they
    may change, absent when the composition root did not wire them; every call is logged in order.  A
    slice that Go can tell nil from empty is an [option]. *)

From S2P Require Import Prelude GoLib Core GoStrings.

(** ** The policy surface ([types.go]) *)

Inductive Outcome := OutcomePassThrough | OutcomeTransform | OutcomeDeny.

Inductive Reason :=
  | ReasonDisabled | ReasonUnknownTarget | ReasonCaptureFailed | ReasonPublicationUnverified
  | ReasonParseFailed | ReasonNoRepresentation | ReasonHandleUnresolvable | ReasonPolicyUnavailable
  | ReasonPrivacyDenied | ReasonAlreadyProcessed | ReasonForeignTransform | ReasonAdmitted.

Inductive Stage :=
  | StageNone | StageCapture | StagePublication | StageParse | StageSelection | StageResolution
  | StagePolicy | StagePrivacy.

#[global] Instance Outcome_eq_dec : EqDecision Outcome. Proof. solve_decision. Defined.
#[global] Instance Reason_eq_dec : EqDecision Reason. Proof. solve_decision. Defined.
#[global] Instance Stage_eq_dec : EqDecision Stage. Proof. solve_decision. Defined.

Definition Outcome_String (o : Outcome) : bytes :=
  match o with
  | OutcomePassThrough => str "pass-through"
  | OutcomeTransform => str "transform"
  | OutcomeDeny => str "deny"
  end.

Definition Reason_String (r : Reason) : bytes :=
  match r with
  | ReasonDisabled => str "disabled"
  | ReasonUnknownTarget => str "unknown-target"
  | ReasonCaptureFailed => str "capture-failed"
  | ReasonPublicationUnverified => str "publication-unverified"
  | ReasonParseFailed => str "parse-failed"
  | ReasonNoRepresentation => str "no-representation"
  | ReasonHandleUnresolvable => str "handle-unresolvable"
  | ReasonPolicyUnavailable => str "policy-unavailable"
  | ReasonAlreadyProcessed => str "already-processed"
  | ReasonForeignTransform => str "foreign-transform"
  | ReasonPrivacyDenied => str "privacy-denied"
  | ReasonAdmitted => str "admitted"
  end.

Definition Stage_String (s : Stage) : bytes :=
  match s with
  | StageNone => str "none"
  | StageCapture => str "capture"
  | StagePublication => str "publication"
  | StageParse => str "parse"
  | StageSelection => str "selection"
  | StageResolution => str "resolution"
  | StagePolicy => str "policy"
  | StagePrivacy => str "privacy"
  end.

Record Target := MkTarget { Schema : bytes; Version : bytes }.

#[global] Instance Target_eq_dec : EqDecision Target. Proof. solve_decision. Defined.
#[global] Program Instance Target_countable : Countable Target :=
  inj_countable' (fun t => (Schema t, Version t)) (fun p => MkTarget p.1 p.2) _.
Next Obligation. by intros []. Qed.

(** [Allowlist] holds the set of its targets. *)
Definition Allowlist : Type := gset Target.

Definition NewAllowlist (targets : list Target) : Allowlist := list_to_set targets.
Definition Permits (a : Allowlist) (t : Target) : bool := bool_decide (t ∈ a).
Definition Empty (a : Allowlist) : bool := bool_decide (size a = 0%nat).

Record Gate := MkGate { Enabled : bool; Owned : bool; Allow : Allowlist }.

Definition Admits (g : Gate) (t : Target) : bool * Reason :=
  if negb (Enabled g) then (false, ReasonDisabled)
  else if Owned g || Permits (Allow g) t then (true, ReasonAdmitted)
  else (false, ReasonUnknownTarget).

(** The errors a stage can fail with; a port's own error is its text. *)
Inductive stage_error :=
  | ErrPortsUnwired | ErrUnrecoverableCapture | ErrSchemaDisagrees | ErrHandleUnresolvable
  | PortError (msg : bytes).

Record Failure := MkFailure { fStage : Stage; fErr : option stage_error }.

Definition no_failure : Failure := MkFailure StageNone None.

(** ** Handles, fidelity, meanings *)

(** [HandleState]; a resolver may answer a number that is none of the named states. *)
Inductive HandleState :=
  | HandleUnknown | HandleResolvable | HandleDenied | HandleUnavailable | HandleUncertain
  | HandleOther (n : Z).

Definition Resolvable (h : HandleState) : bool := match h with HandleResolvable => true | _ => false end.

Definition HandleState_String (h : HandleState) : bytes :=
  match h with
  | HandleUnknown => str "unknown"
  | HandleResolvable => str "resolvable"
  | HandleDenied => str "denied"
  | HandleUnavailable => str "unavailable"
  | HandleUncertain => str "uncertain"
  | HandleOther _ => str "unrecognized"
  end.

(** [Fidelity] is a string; the empty one is the zero value. *)
Definition FidelityExact : bytes := str "exact".
Definition FidelityFull : bytes := str "full".
Definition FidelityCanonical : bytes := str "canonical".

Definition Recoverable (f : bytes) : bool := bool_decide (f = FidelityExact) || bool_decide (f = FidelityFull).

Record Span := MkSpan { Start : Z; End_ : Z }.
Definition Known (s : Span) : bool := End_ s >? Start s.

Record Source := MkSource { srcID : bytes; srcSpan : Span }.

Record Meaning := MkMeaning {
  Status : bytes; Stderr : bytes; Diagnostics : option (list bytes); Interrupted : bool; Media : bool;
  InputCount : Z; OutputCount : Z; Signature : bytes; mSource : Source; mSchema : Target;
  Structured : option bytes; Displayed : bytes
}.

Definition zero_target : Target := MkTarget [] [].
Definition zero_meaning : Meaning :=
  MkMeaning [] [] None false false 0 0 [] (MkSource [] (MkSpan 0 0)) zero_target None [].

#[global] Instance Span_eq_dec : EqDecision Span. Proof. solve_decision. Defined.
#[global] Instance Source_eq_dec : EqDecision Source. Proof. solve_decision. Defined.
#[global] Instance Meaning_eq_dec : EqDecision Meaning. Proof. solve_decision. Defined.

(** [Preserves]: the names of the fields that differ, in the order the struct declares them. *)
Definition Preserves (want got : Meaning) : list bytes :=
  let keep {A} `{EqDecision A} (name : string) (f : Meaning -> A) :=
    if bool_decide (f want = f got) then [] else [str name] in
  keep "Status" Status ++ keep "Stderr" Stderr ++ keep "Diagnostics" Diagnostics ++
  keep "Interrupted" Interrupted ++ keep "Media" Media ++ keep "InputCount" InputCount ++
  keep "OutputCount" OutputCount ++ keep "Signature" Signature ++ keep "Source" mSource ++
  keep "Schema" mSchema ++ keep "Structured" Structured ++ keep "Displayed" Displayed.

(** ** The representation decision ([capsule.go]) *)

Inductive Form := FormNone | FormCapsule | FormDelta.
Definition Emits (f : Form) : bool := match f with FormNone => false | _ => true end.

Definition Form_String (f : Form) : bytes :=
  match f with FormNone => str "none" | FormCapsule => str "capsule" | FormDelta => str "delta" end.

Inductive ResetCause :=
  | ResetNone | ResetNoBaseline | ResetUnverified | ResetSignatureChanged | ResetSchemaChanged
  | ResetUncertainCapture.

#[global] Instance ResetCause_eq_dec : EqDecision ResetCause. Proof. solve_decision. Defined.

Definition ResetCause_String (r : ResetCause) : bytes :=
  match r with
  | ResetNone => str "none"
  | ResetNoBaseline => str "no-baseline"
  | ResetUnverified => str "unverified"
  | ResetSignatureChanged => str "signature-changed"
  | ResetSchemaChanged => str "schema-changed"
  | ResetUncertainCapture => str "uncertain-capture"
  end.

Record Baseline := MkBaseline {
  baseID : bytes; baseSignature : bytes; baseSchema : Target; baseFidelity : bytes; verified : bool
}.

Definition VerifyBaseline (id signature : bytes) (schema : Target) (f : bytes) : Baseline :=
  MkBaseline id signature schema f (negb (bool_decide (id = []))).

Record Selection := MkSel { selForm : Form; selReason : Reason; selReset : ResetCause; selBase : bytes }.

Definition baselineReset (m : Meaning) (base : Baseline) : ResetCause :=
  if bool_decide (baseID base = []) then ResetNoBaseline
  else if negb (verified base) then ResetUnverified
  else if negb (bool_decide (baseSchema base = mSchema m)) then ResetSchemaChanged
  else if negb (bool_decide (baseSignature base = Signature m)) then ResetSignatureChanged
  else if negb (Recoverable (baseFidelity base)) then ResetUncertainCapture
  else ResetNone.

(** The zero [Reason] of a selection that emits is [ReasonDisabled]. *)
Definition Select (m : Meaning) (captured : bytes) (base : Baseline) : Selection :=
  if Media m then MkSel FormNone ReasonNoRepresentation ResetNone []
  else if negb (Recoverable captured) then MkSel FormNone ReasonNoRepresentation ResetNone []
  else
    let reset := baselineReset m base in
    if negb (bool_decide (reset = ResetNone)) then MkSel FormCapsule ReasonDisabled reset []
    else MkSel FormDelta ReasonDisabled ResetNone (baseID base).

(** ** The envelope ([envelope.go]) *)

Definition MarkerProducer : bytes := str "qompack.admission.v1".

Definition Processed (markers : list bytes) : bool :=
  existsb (fun m => negb (bool_decide (TrimSpace m = []))) markers.

Definition Ours (markers : list bytes) : bool := existsb (fun m => bool_decide (TrimSpace m = MarkerProducer)) markers.

Definition Bypass (markers : list bytes) : bool * Reason :=
  if Ours markers then (true, ReasonAlreadyProcessed)
  else if Processed markers then (true, ReasonForeignTransform)
  else (false, ReasonAdmitted).

(** ** Records and [Decide] *)

Record AdmissionRecord := MkRecord {
  rOutcome : Outcome; rReason : Reason; rTarget : Target; rStage : Stage; rErr : option stage_error;
  rHandle : bytes; rFidelity : bytes; rCoverage : bytes; rMeaning : Meaning; rForm : Form; rBase : bytes;
  rMark : bytes; rObserved : list bytes; rHandleState : HandleState; rReset : ResetCause
}.

Definition reasonForStage (s : Stage) : Reason :=
  match s with
  | StageCapture => ReasonCaptureFailed
  | StagePublication => ReasonPublicationUnverified
  | StageParse => ReasonParseFailed
  | StageResolution => ReasonHandleUnresolvable
  | StagePolicy => ReasonPolicyUnavailable
  | _ => ReasonNoRepresentation
  end.

(** A record with an outcome, a reason and the stage that failed, and nothing to act on. *)
Definition bare (o : Outcome) (why : Reason) (t : Target) (s : Stage) (e : option stage_error) : AdmissionRecord :=
  MkRecord o why t s e [] [] CoverageUnknown zero_meaning FormNone [] [] [] HandleUnknown ResetNone.

Definition Decide (g : Gate) (t : Target) (f : Failure) : AdmissionRecord :=
  if bool_decide (fStage f = StagePrivacy) then bare OutcomeDeny ReasonPrivacyDenied t (fStage f) (fErr f)
  else
    let '(ok, why) := Admits g t in
    if negb ok then bare OutcomePassThrough why t StageNone (fErr f)
    else if negb (bool_decide (fStage f = StageNone)) then
      bare OutcomePassThrough (reasonForStage (fStage f)) t (fStage f) (fErr f)
    else bare OutcomeTransform ReasonAdmitted t (fStage f) (fErr f).

(** ** The pipeline ([pipeline.go], [resolve.go]) *)

Record Capture := MkCapture { cHandle : bytes; cFidelity : bytes; Truncated : bool; Redacted : Z }.

Record Delivery := MkDelivery { dTarget : Target; Payload : bytes; dMarkers : list bytes; dBaseline : Baseline }.

(** The calls a pipeline makes on its ports. *)
Inductive event :=
  | AskPrivacy (payload : bytes)
  | DoCapture (payload : bytes)
  | VerifyPublished (c : Capture)
  | DoParse (d : Delivery)
  | DoResolve (handle : bytes).

Section Pipeline.
Context {W : Type}.

(** A port answers an error or a value, and may change the world. *)
Definition port (A B : Type) : Type := A -> W -> (bytes + B) * W.

Record Ports := MkPorts {
  PrivacyPort : option (port bytes bool);
  CapturePort : option (port bytes Capture);
  PublishPort : option (port Capture unit);
  ParsePort : option (port Delivery Meaning);
  ResolvePort : option (port bytes HandleState)
}.

(** A computation over the world and the log of calls. *)
Definition M (A : Type) : Type := W * list event -> A * (W * list event).

#[local] Instance M_ret : MRet M := fun A x s => (x, s).
#[local] Instance M_bind : MBind M := fun A B k m s => let '(x, s) := m s in k x s.

Definition call {A B} (e : event) (f : port A B) (x : A) : M (bytes + B) :=
  fun s => let '(r, w) := f x s.1 in (r, (w, s.2 ++ [e])).

Record Pipeline := MkPipeline { gate : Gate; ports : Ports }.

Definition checkPrivacy (p : Pipeline) (d : Delivery) : M Failure :=
  match PrivacyPort (ports p) with
  | None => mret (MkFailure StagePolicy (Some ErrPortsUnwired))
  | Some permits =>
      r ← call (AskPrivacy (Payload d)) permits (Payload d);
      match r with
      | inl e => mret (MkFailure StagePolicy (Some (PortError e)))
      | inr false => mret (MkFailure StagePrivacy None)
      | inr true => mret no_failure
      end
  end.

(** A stage that yields a value or the failure it recorded. *)
Definition failed {A} (s : Stage) (e : stage_error) : M (Failure + A) := mret (inl (MkFailure s (Some e))).

Definition capture (p : Pipeline) (d : Delivery) : M (Failure + Capture) :=
  match CapturePort (ports p), PublishPort (ports p) with
  | Some cap, Some pub =>
      r ← call (DoCapture (Payload d)) cap (Payload d);
      match r with
      | inl e => failed StageCapture (PortError e)
      | inr c =>
          if negb (Recoverable (cFidelity c)) then failed StageCapture ErrUnrecoverableCapture
          else
            v ← call (VerifyPublished c) pub c;
            match v with
            | inl e => failed StagePublication (PortError e)
            | inr _ => mret (inr c)
            end
      end
  | _, _ => failed StageCapture ErrPortsUnwired
  end.

Definition parse (p : Pipeline) (d : Delivery) : M (Failure + Meaning) :=
  match ParsePort (ports p) with
  | None => failed StageParse ErrPortsUnwired
  | Some f =>
      r ← call (DoParse d) f d;
      match r with
      | inl e => failed StageParse (PortError e)
      | inr m => if negb (bool_decide (mSchema m = dTarget d)) then failed StageParse ErrSchemaDisagrees else mret (inr m)
      end
  end.

(** [resolve] returns the state beside the failure. *)
Definition resolve (p : Pipeline) (handle : bytes) : M (HandleState * Failure) :=
  match ResolvePort (ports p) with
  | None => mret (HandleUnknown, MkFailure StageResolution (Some ErrPortsUnwired))
  | Some f =>
      r ← call (DoResolve handle) f handle;
      match r with
      | inl e => mret (HandleUncertain, MkFailure StageResolution (Some (PortError e)))
      | inr h =>
          if negb (Resolvable h) then mret (h, MkFailure StageResolution (Some ErrHandleUnresolvable))
          else mret (h, no_failure)
      end
  end.

(** [record]: the observed markers on every record. *)
Definition observe (r : AdmissionRecord) (d : Delivery) : AdmissionRecord :=
  MkRecord (rOutcome r) (rReason r) (rTarget r) (rStage r) (rErr r) (rHandle r) (rFidelity r) (rCoverage r)
    (rMeaning r) (rForm r) (rBase r) (rMark r) (dMarkers d) (rHandleState r) (rReset r).

Definition set_outcome (o : Outcome) (why : Reason) (r : AdmissionRecord) : AdmissionRecord :=
  MkRecord o why (rTarget r) (rStage r) (rErr r) (rHandle r) (rFidelity r) (rCoverage r)
    (rMeaning r) (rForm r) (rBase r) (rMark r) (rObserved r) (rHandleState r) (rReset r).

Definition set_state (h : HandleState) (r : AdmissionRecord) : AdmissionRecord :=
  MkRecord (rOutcome r) (rReason r) (rTarget r) (rStage r) (rErr r) (rHandle r) (rFidelity r) (rCoverage r)
    (rMeaning r) (rForm r) (rBase r) (rMark r) (rObserved r) h (rReset r).

(** The fields an admitted record gets. *)
Definition fill_record (c : Capture) (m : Meaning) (sel : Selection) (h : HandleState) (r : AdmissionRecord) : AdmissionRecord :=
  MkRecord (rOutcome r) (rReason r) (rTarget r) (rStage r) (rErr r) (cHandle c) (cFidelity c) CoverageArchiveOnly
    m (selForm sel) (selBase sel) MarkerProducer (rObserved r) h (selReset sel).

Definition refuse (p : Pipeline) (d : Delivery) (f : Failure) : M AdmissionRecord :=
  mret (observe (Decide (gate p) (dTarget d) f) d).

(** The second half of [Admit], from the capture on. *)
Definition admit_fresh (p : Pipeline) (d : Delivery) : M AdmissionRecord :=
  captured ← capture p d;
  match captured with
  | inl f => refuse p d f
  | inr c =>
      parsed ← parse p d;
      match parsed with
      | inl f => refuse p d f
      | inr m =>
          let sel := Select m (cFidelity c) (dBaseline d) in
          if negb (Emits (selForm sel)) then refuse p d (MkFailure StageSelection None)
          else
            '(h, f) ← resolve p (cHandle c);
            if negb (bool_decide (fStage f = StageNone)) then
              mret (observe (set_state h (Decide (gate p) (dTarget d) f)) d)
            else mret (observe (fill_record c m sel h (Decide (gate p) (dTarget d) no_failure)) d)
      end
  end.

Definition Admit (p : Pipeline) (d : Delivery) : M AdmissionRecord :=
  fail ← checkPrivacy p d;
  if negb (bool_decide (fStage fail = StageNone)) then refuse p d fail
  else if negb (Admits (gate p) (dTarget d)).1 then refuse p d no_failure
  else
    let '(bypass, why) := Bypass (dMarkers d) in
    if bypass then
      mret (observe (set_outcome OutcomePassThrough why (Decide (gate p) (dTarget d) no_failure)) d)
    else admit_fresh p d.

End Pipeline.
Arguments Ports : clear implicits.
Arguments Pipeline : clear implicits.

(** ** Rollback and quality ([report.go]) *)

Inductive RollbackStep :=
  | StepDisableReplacement | StepRestorePassThrough | StepVerifyReaderOrRestore | StepPreserveEvidence.

Definition RollbackStep_String (s : RollbackStep) : bytes :=
  match s with
  | StepDisableReplacement => str "disable-replacement"
  | StepRestorePassThrough => str "restore-pass-through"
  | StepVerifyReaderOrRestore => str "verify-reader-or-restore"
  | StepPreserveEvidence => str "preserve-evidence"
  end.

Definition RollbackPlan : list RollbackStep :=
  [StepDisableReplacement; StepRestorePassThrough; StepVerifyReaderOrRestore; StepPreserveEvidence].

Record Backup := MkBackup { backupID : bytes; backupVersion : bytes; backup_verified : bool }.

Definition VerifyBackup (id version : bytes) : Backup := MkBackup id version (negb (bool_decide (id = []))).

Record SchemaWrite := MkWrite { From_ : bytes; To : bytes; Downgrade : bool }.

Inductive PermitCause :=
  | PermitNoReaderNoBackup | PermitReaderCompatible | PermitBackupVerified | PermitUndeclaredDowngrade.

Definition PermitCause_String (c : PermitCause) : bytes :=
  match c with
  | PermitNoReaderNoBackup => str "no-reader-no-backup"
  | PermitReaderCompatible => str "reader-compatible"
  | PermitBackupVerified => str "backup-verified"
  | PermitUndeclaredDowngrade => str "undeclared-downgrade"
  end.

Definition allReadersSupport (readers : list bytes) (v : bytes) : bool :=
  match readers with [] => false | _ => forallb (fun r => bool_decide (r = v)) readers end.

(** Versions are strings and [<] compares them bytewise. *)
Definition PermitSchemaWrite (w : SchemaWrite) (readers : list bytes) (backup : Backup) : bool * PermitCause :=
  if match bytes_compare (To w) (From_ w) with Lt => negb (Downgrade w) | _ => false end
  then (false, PermitUndeclaredDowngrade)
  else if allReadersSupport readers (To w) then (true, PermitReaderCompatible)
  else if backup_verified backup then (true, PermitBackupVerified)
  else (false, PermitNoReaderNoBackup).

Record RollbackResult := MkRollback { OK : bool; Restored : bool; EvidenceRetained : bool }.

Definition ValidateRollback (readable : bool) (backup : Backup) : RollbackResult :=
  if readable then MkRollback true false true
  else if backup_verified backup then MkRollback true true true
  else MkRollback false false true.

Inductive Layer := LayerTaskCompletion | LayerConstraints | LayerRecoverability.

#[global] Instance Layer_eq_dec : EqDecision Layer. Proof. solve_decision. Defined.

Definition layer_code (l : Layer) : nat :=
  match l with LayerTaskCompletion => 0 | LayerConstraints => 1 | LayerRecoverability => 2 end.
Definition layer_of (n : nat) : Layer :=
  match n with 0%nat => LayerTaskCompletion | 1%nat => LayerConstraints | _ => LayerRecoverability end.

#[global] Instance Layer_countable : Countable Layer.
Proof. refine (inj_countable' layer_code layer_of _). by intros []. Defined.

Definition Layer_String (l : Layer) : bytes :=
  match l with
  | LayerTaskCompletion => str "task-completion"
  | LayerConstraints => str "constraints"
  | LayerRecoverability => str "recoverability"
  end.

Inductive Verdict := VerdictInconclusive | VerdictRetained | VerdictRegressed.

#[global] Instance Verdict_eq_dec : EqDecision Verdict. Proof. solve_decision. Defined.

Definition Verdict_String (v : Verdict) : bytes :=
  match v with
  | VerdictInconclusive => str "inconclusive"
  | VerdictRetained => str "retained"
  | VerdictRegressed => str "regressed"
  end.

Record LayerResult := MkLayer { lObserved : Z; lRetained : Z; minRetained : Z; predeclared : bool }.

Definition zero_layer : LayerResult := MkLayer 0 0 0 false.
Definition Predeclare (min : Z) : LayerResult := MkLayer 0 0 min true.
Definition Observe (l : LayerResult) (retained total : Z) : LayerResult :=
  MkLayer total retained (minRetained l) (predeclared l).

(** [float64] of an [int] that may be negative. *)
Definition float_of_int (n : Z) : Z := if n <? 0 then Z.lxor (F64.of_int (- n)) (2 ^ 63) else F64.of_int n.

Definition layer_verdict (l : LayerResult) : Verdict :=
  if negb (predeclared l) || (lObserved l =? 0) then VerdictInconclusive
  else if F64.lt (F64.div (float_of_int (lRetained l)) (float_of_int (lObserved l))) (minRetained l) then VerdictRegressed
  else VerdictRetained.

(** The loop over the three layers: the first regression ends it. *)
Fixpoint worst_of (layers : gmap Layer LayerResult) (ls : list Layer) (worst : Verdict) : Verdict :=
  match ls with
  | [] => worst
  | l :: ls =>
      match layer_verdict (default zero_layer (layers !! l)) with
      | VerdictRegressed => VerdictRegressed
      | VerdictInconclusive => worst_of layers ls VerdictInconclusive
      | VerdictRetained => worst_of layers ls worst
      end
  end.

Definition comparison_verdict (layers : gmap Layer LayerResult) : Verdict :=
  worst_of layers [LayerTaskCompletion; LayerConstraints; LayerRecoverability] VerdictRetained.

Definition Enables (layers : gmap Layer LayerResult) : bool := bool_decide (comparison_verdict layers = VerdictRetained).
