(* ===== verification/AdmissionSpec.v ===== *)
(** * What admission guarantees

    For any ports and any world: a result is replaced exactly when every stage said yes, in order; a
    refusal carries nothing a caller could act on; nothing is captured before privacy, the gate and the
    envelope allowed it; and what admission produced is never admitted again.  Two examples show gaps
    of the rollback and quality report. *)

From S2P Require Import Prelude GoLib Core GoStrings Admission.

Section Run.
Context {W : Type} (p : Pipeline W) (d : Delivery) (w : W).

(** Every stage of a run said yes. *)
Record every_stage_passed (c : Capture) (m : Meaning) : Prop := {
  sp_calls : exists ask cap pub par res w1 w2 w3 w4 w5,
    PrivacyPort (ports p) = Some ask /\ CapturePort (ports p) = Some cap /\ PublishPort (ports p) = Some pub /\
    ParsePort (ports p) = Some par /\ ResolvePort (ports p) = Some res /\
    ask (Payload d) w = (inr true, w1) /\ cap (Payload d) w1 = (inr c, w2) /\ pub c w2 = (inr tt, w3) /\
    par d w3 = (inr m, w4) /\ res (cHandle c) w4 = (inr HandleResolvable, w5);
  sp_gate : (Admits (gate p) (dTarget d)).1 = true;
  sp_fresh : (Bypass (dMarkers d)).1 = false;
  sp_recoverable : Recoverable (cFidelity c) = true;
  sp_schema : mSchema m = dTarget d;
  sp_media : Media m = false
}.

(** The record of an admitted delivery. *)
Definition admitted (c : Capture) (m : Meaning) : AdmissionRecord :=
  let sel := Select m (cFidelity c) (dBaseline d) in
  MkRecord OutcomeTransform ReasonAdmitted (dTarget d) StageNone None (cHandle c) (cFidelity c) CoverageArchiveOnly
    m (selForm sel) (selBase sel) MarkerProducer (dMarkers d) HandleResolvable (selReset sel).

Definition full_log (c : Capture) : list event :=
  [AskPrivacy (Payload d); DoCapture (Payload d); VerifyPublished c; DoParse d; DoResolve (cHandle c)].

(** A record that authorizes nothing. *)
Definition inert (r : AdmissionRecord) : Prop :=
  rOutcome r <> OutcomeTransform /\ rHandle r = [] /\ rFidelity r = [] /\ rCoverage r = CoverageUnknown /\
  rMeaning r = zero_meaning /\ rForm r = FormNone /\ rBase r = [] /\ rMark r = [] /\ rReset r = ResetNone.

Lemma select_emits m f b : Media m = false -> Recoverable f = true -> Emits (selForm (Select m f b)) = true.
Proof. intros Hm Hf. unfold Select. rewrite Hm, Hf. cbn. by destruct (bool_decide _). Qed.

Lemma select_silent m f b : Recoverable f = true -> Emits (selForm (Select m f b)) = false -> Media m = true.
Proof. intros Hf. unfold Select. rewrite Hf. destruct (Media m); [done|]. cbn. by destruct (bool_decide _). Qed.

Lemma decide_inert f : fStage f <> StageNone \/ (Admits (gate p) (dTarget d)).1 = false ->
  inert (observe (Decide (gate p) (dTarget d) f) d).
Proof.
  intros H. unfold Decide. destruct (bool_decide_reflect (fStage f = StagePrivacy)); [by repeat split|].
  destruct (Admits _ _) as [ok why]. destruct ok; cbn [negb fst] in *; [|by repeat split].
  destruct (bool_decide_reflect (fStage f = StageNone)); [|by repeat split]. by destruct H.
Qed.

Lemma decide_deny f : rOutcome (Decide (gate p) (dTarget d) f) = OutcomeDeny <-> fStage f = StagePrivacy.
Proof.
  unfold Decide. destruct (bool_decide_reflect (fStage f = StagePrivacy)) as [E|E]; [done|].
  destruct (Admits _ _) as [[] why]; cbn; [|done]. by destruct (bool_decide _).
Qed.

(** The shape of every run. *)
Definition run_shape (r : AdmissionRecord) (log : list event) : Prop :=
  (exists c m, every_stage_passed c m /\ r = admitted c m /\ log = full_log c) \/
  (inert r /\ (exists c, log `prefix_of` full_log c) /\ rObserved r = dMarkers d /\ rTarget r = dTarget d /\
   (forall c m, ~ every_stage_passed c m) /\
   (rOutcome r = OutcomeDeny <-> exists ask w1, PrivacyPort (ports p) = Some ask /\ ask (Payload d) w = (inr false, w1)) /\
   ((length log > 1)%nat -> (Admits (gate p) (dTarget d)).1 = true /\ (Bypass (dMarkers d)).1 = false /\
      exists ask w1, PrivacyPort (ports p) = Some ask /\ ask (Payload d) w = (inr true, w1))).

(** A stage refused: the rest of the calls cannot all have succeeded. *)
Ltac stage_failed :=
  intros c' m' [(ask' & cap' & pub' & par' & res' & v1 & v2 & v3 & v4 & v5 & E1 & E2 & E3 & E4 & E5 & C1 & C2 & C3 & C4 & C5) G F R S Md];
  repeat match goal with H1 : ?x = _, H2 : ?x = _ |- _ => rewrite H1 in H2; simplify_eq/= end; try done.

Lemma observe_fields r : rObserved (observe r d) = dMarkers d /\ rTarget (observe r d) = rTarget r /\
  rOutcome (observe r d) = rOutcome r.
Proof. done. Qed.

Lemma decide_target f : rTarget (Decide (gate p) (dTarget d) f) = dTarget d.
Proof. unfold Decide. destruct (bool_decide _); [done|]. destruct (Admits _ _) as [[] why]; cbn; [|done]. by destruct (bool_decide _). Qed.

(** What a capture that never happened would have returned. *)
Definition no_capture : Capture := MkCapture [] [] false 0.

(** The shape of a run that stopped before the capture. *)
Lemma early_shape f log : inert (observe (Decide (gate p) (dTarget d) f) d) ->
  log = [] \/ log = [AskPrivacy (Payload d)] ->
  (forall c m, ~ every_stage_passed c m) ->
  (fStage f = StagePrivacy <-> exists ask w1, PrivacyPort (ports p) = Some ask /\ ask (Payload d) w = (inr false, w1)) ->
  run_shape (observe (Decide (gate p) (dTarget d) f) d) log.
Proof.
  intros Hi Hl Hn Hp. right. refine (conj Hi (conj _ (conj eq_refl (conj _ (conj Hn (conj _ _)))))).
  - exists no_capture. destruct Hl as [-> | ->]; [apply prefix_nil|by eexists].
  - apply decide_target.
  - rewrite <- Hp. apply decide_deny.
  - destruct Hl as [-> | ->]; cbn; lia.
Qed.

Section Captured.
Context (ask : port (W:=W) bytes bool) (w1 : W).
Context (Hask : PrivacyPort (ports p) = Some ask) (Hyes : ask (Payload d) w = (inr true, w1)).
Context (Hgate : (Admits (gate p) (dTarget d)).1 = true) (Hfresh : (Bypass (dMarkers d)).1 = false).

(** The shape of a run that asked for a capture and was refused at a later stage. *)
Lemma late_shape (f : Failure) (h : HandleState) log c : fStage f <> StageNone -> fStage f <> StagePrivacy ->
  log `prefix_of` full_log c -> (forall c m, ~ every_stage_passed c m) ->
  run_shape (observe (set_state h (Decide (gate p) (dTarget d) f)) d) log.
Proof.
  intros Hf Hp Hl Hn. right. destruct (decide_inert f (or_introl Hf)) as (I1 & I2 & I3 & I4 & I5 & I6 & I7 & I8 & I9).
  refine (conj _ (conj _ (conj eq_refl (conj _ (conj Hn (conj _ _)))))); [done|by eauto|apply decide_target| |by eauto 6].
  split; [by intros Ho%decide_deny|]. intros (ask' & w' & E & E'). rewrite Hask in E. simplify_eq. congruence.
Qed.

Lemma refuse_shape f log c : fStage f <> StageNone -> fStage f <> StagePrivacy -> rHandleState (Decide (gate p) (dTarget d) f) = HandleUnknown ->
  log `prefix_of` full_log c -> (forall c m, ~ every_stage_passed c m) ->
  run_shape (observe (Decide (gate p) (dTarget d) f) d) log.
Proof.
  intros Hf Hp Hh Hl Hn. pose proof (late_shape f HandleUnknown log c Hf Hp Hl Hn) as H.
  replace (set_state HandleUnknown (Decide (gate p) (dTarget d) f)) with (Decide (gate p) (dTarget d) f) in H; [done|].
  rewrite <- Hh. by destruct (Decide _ _ _).
Qed.

Lemma decide_state f : rHandleState (Decide (gate p) (dTarget d) f) = HandleUnknown.
Proof. unfold Decide. destruct (bool_decide _); [done|]. destruct (Admits _ _) as [[] why]; cbn; [|done]. by destruct (bool_decide _). Qed.

Lemma decide_admitted : Decide (gate p) (dTarget d) no_failure = bare OutcomeTransform ReasonAdmitted (dTarget d) StageNone None.
Proof. unfold Decide. cbn. revert Hgate. by destruct (Admits _ _) as [[] why]. Qed.

Ltac late_refusal c := apply (refuse_shape _ _ c); [done|done|apply decide_state|by eexists|stage_failed].

(** The resolution of a delivery that has a capture, a meaning and a form. *)
Lemma resolved_shape cap pub par c m w2 w3 w4 :
  CapturePort (ports p) = Some cap -> PublishPort (ports p) = Some pub -> ParsePort (ports p) = Some par ->
  cap (Payload d) w1 = (inr c, w2) -> Recoverable (cFidelity c) = true -> pub c w2 = (inr tt, w3) ->
  par d w3 = (inr m, w4) -> mSchema m = dTarget d -> Media m = false ->
  let '((h, f), (_, log)) := resolve p (cHandle c) (w4, take 4 (full_log c)) in
  run_shape (if negb (bool_decide (fStage f = StageNone)) then observe (set_state h (Decide (gate p) (dTarget d) f)) d
             else observe (fill_record c m (Select m (cFidelity c) (dBaseline d)) h (Decide (gate p) (dTarget d) no_failure)) d) log.
Proof.
  intros Ecap Epub Epar Ec Er Ep Em Es Emd. unfold resolve, mbind, M_bind, mret, M_ret.
  destruct (ResolvePort (ports p)) as [res|] eqn:Eres; [|apply (late_shape _ _ _ c); [done|done|by eexists [_]|stage_failed]].
  unfold call. cbn [fst snd take app full_log].
  destruct (res (cHandle c) w4) as [[e|h] w5] eqn:Eh; [apply (late_shape _ _ _ c); [done|done|by exists []|stage_failed]|].
  destruct (Resolvable h) eqn:Erh; cbn [negb]; [|apply (late_shape _ _ _ c); [done|done|by exists []|]; stage_failed].
  left. exists c, m. destruct h; try discriminate Erh. cbn [bool_decide negb]. rewrite decide_admitted.
  refine (conj _ (conj eq_refl eq_refl)). split; [|done..].
  exists ask, cap, pub, par, res, w1, w2, w3, w4, w5. by repeat split.
Qed.

Lemma admit_fresh_shape : let '(r, (_, log)) := admit_fresh p d (w1, [AskPrivacy (Payload d)]) in run_shape r log.
Proof.
  unfold admit_fresh, capture, failed, mbind, M_bind, mret, M_ret, refuse.
  destruct (CapturePort (ports p)) as [cap|] eqn:Ecap; [|late_refusal no_capture].
  destruct (PublishPort (ports p)) as [pub|] eqn:Epub; [|late_refusal no_capture].
  unfold call at 1. cbn [fst snd app]. destruct (cap (Payload d) w1) as [[e|c] w2] eqn:Ec; [late_refusal no_capture|].
  destruct (Recoverable (cFidelity c)) eqn:Er; cbn [negb]; [|late_refusal c].
  unfold call at 1. cbn [fst snd app]. destruct (pub c w2) as [[e|[]] w3] eqn:Ep; [late_refusal c|].
  unfold parse, failed, mbind, M_bind, mret, M_ret.
  destruct (ParsePort (ports p)) as [par|] eqn:Epar; [|late_refusal c].
  unfold call at 1. cbn [fst snd app]. destruct (par d w3) as [[e|m] w4] eqn:Em; [late_refusal c|].
  destruct (bool_decide_reflect (mSchema m = dTarget d)) as [Es|Es]; cbn [negb]; [|late_refusal c].
  destruct (Emits (selForm (Select m (cFidelity c) (dBaseline d)))) eqn:Ee; cbn [negb].
  - assert (Media m = false) as Emd by (destruct (Media m) eqn:E; [unfold Select in Ee; by rewrite E in Ee|done]).
    pose proof (resolved_shape _ _ _ _ _ _ _ _ Ecap Epub Epar Ec Er Ep Em Es Emd) as H. cbn [take full_log] in H.
    destruct (resolve p (cHandle c) _) as [[h f] [w5 log]]. by destruct (negb _).
  - pose proof (select_silent _ _ _ Er Ee) as Emd. late_refusal c.
Qed.

End Captured.

Lemma bypass_shape ask w1 why : PrivacyPort (ports p) = Some ask -> ask (Payload d) w = (inr true, w1) ->
  Bypass (dMarkers d) = (true, why) ->
  run_shape (observe (set_outcome OutcomePassThrough why (Decide (gate p) (dTarget d) no_failure)) d) [AskPrivacy (Payload d)].
Proof.
  intros Ea Ew Eb. right. refine (conj _ (conj _ (conj eq_refl (conj _ (conj _ (conj _ _)))))).
  - unfold Decide. destruct (Admits _ _) as [[] ?]; by repeat split.
  - exists no_capture. by eexists.
  - apply decide_target.
  - stage_failed. by rewrite Eb in F.
  - split; [done|]. intros (? & ? & ? & ?). congruence.
  - cbn. lia.
Qed.

(** Every run has the shape. *)
Lemma admit_shape : let '(r, (_, log)) := Admit p d (w, []) in run_shape r log.
Proof.
  unfold Admit, checkPrivacy, mbind, M_bind, mret, M_ret, refuse.
  destruct (PrivacyPort (ports p)) as [ask|] eqn:Ea.
  2: { apply early_shape; [by apply decide_inert; left|by left|stage_failed|]. split; [done|]. intros (? & ? & ? & ?). congruence. }
  unfold call at 1. cbn [fst snd app]. destruct (ask (Payload d) w) as [[e|[]] w1] eqn:Ew.
  - apply early_shape; [by apply decide_inert; left|by right|stage_failed|]. split; [done|]. intros (? & ? & ? & ?). congruence.
  - cbn [fStage no_failure]. rewrite bool_decide_eq_true_2 by done. cbn [negb].
    destruct (Admits (gate p) (dTarget d)).1 eqn:Eg; cbn [negb].
    2: { apply early_shape; [by apply decide_inert; right|by right|stage_failed|]. split; [done|]. intros (? & ? & ? & ?). congruence. }
    destruct (Bypass (dMarkers d)) as [[] why] eqn:Eb; [by eapply bypass_shape|].
    by eapply admit_fresh_shape; eauto; rewrite Eb.
  - apply early_shape; [by apply decide_inert; left|by right|stage_failed|]. split; [|done]. intros _. by exists ask, w1.
Qed.

Lemma passed_unique c m c' m' : every_stage_passed c m -> every_stage_passed c' m' -> c' = c /\ m' = m.
Proof.
  intros [(? & ? & ? & ? & ? & ? & ? & ? & ? & ? & ? & ? & ? & ? & ? & ? & ? & ? & ? & ?) ? ? ? ? ?].
  revert c' m'. stage_failed.
Qed.

End Run.

Lemma bypass_fresh ms : (Bypass ms).1 = false -> Processed ms = false.
Proof. unfold Bypass. destruct (Ours ms); [done|]. by destruct (Processed ms). Qed.

(** A marker equal to ours up to surrounding blanks is recognised. *)
Lemma ours_bypasses ms x : x ∈ ms -> TrimSpace x = MarkerProducer -> Bypass ms = (true, ReasonAlreadyProcessed).
Proof.
  intros Hx Ht. unfold Bypass. assert (Ours ms = true) as -> by (apply existsb_exists; exists x; split; [by apply list_elem_of_In|by rewrite Ht]).
  done.
Qed.

Section Claims.
Context {W : Type}.

(** C12: for any gate, ports, world and delivery, [Admit] replaces the delivered result exactly when privacy
    permitted it, the gate admits its target, the envelope carries no marker, the capture succeeded and is
    recoverable, its publication was verified, the payload parsed under the declared schema, it is not
    media, and the handle resolved, each in the world the previous call left; then the record and the calls
    made are exactly those of that run.  Any other record is inert (no handle, fidelity, meaning, form, base
    or mark), names the declared target and carries the observed markers; it denies exactly when privacy answered no. *)
Theorem admission_exact (p : Pipeline W) (d : Delivery) (w : W) :
  let '(r, (_, log)) := Admit p d (w, []) in
  (rOutcome r = OutcomeTransform <-> exists c m, every_stage_passed p d w c m) /\
  (forall c m, every_stage_passed p d w c m -> r = admitted d c m /\ log = full_log d c) /\
  (rOutcome r <> OutcomeTransform -> inert r /\ rTarget r = dTarget d /\ rObserved r = dMarkers d) /\
  (rOutcome r = OutcomeDeny <-> exists ask w1, PrivacyPort (ports p) = Some ask /\ ask (Payload d) w = (inr false, w1)).
Proof.
  pose proof (admit_shape p d w) as H. destruct (Admit p d (w, [])) as [r [w' log]].
  destruct H as [(c & m & H & -> & ->)|(Hi & _ & Ho & Ht & Hn & Hd & _)].
  - refine (conj _ (conj _ (conj _ _))); [naive_solver| |done|].
    + intros c' m' H'. by destruct (passed_unique _ _ _ _ _ _ _ H H') as [-> ->].
    + split; [done|]. intros (ask & w1 & Ea & Ew). destruct H as [(? & ? & ? & ? & ? & ? & ? & ? & ? & ? & Ea' & ? & ? & ? & ? & Ew' & ?)]. congruence.
  - refine (conj _ (conj _ (conj _ Hd))); [|by intros c m ?%Hn|by intros _].
    split; [|by intros (c & m & []%Hn)]. intros E. by destruct Hi.
Qed.

(** The calls a run makes on its ports are, in this order, a beginning of: ask privacy, capture, verify
    the publication, parse, resolve, each at most once and on this delivery; and anything past the privacy
    question is called only after privacy answered yes, with a gate that admits the target and an envelope
    without a marker, so a refused, disabled or already processed delivery never writes a second copy. *)
Theorem admission_ordered (p : Pipeline W) (d : Delivery) (w : W) :
  let '(_, (_, log)) := Admit p d (w, []) in
  (exists c, log `prefix_of` full_log d c) /\
  ((length log > 1)%nat -> (Admits (gate p) (dTarget d)).1 = true /\ Processed (dMarkers d) = false /\
    exists ask w1, PrivacyPort (ports p) = Some ask /\ ask (Payload d) w = (inr true, w1)).
Proof.
  pose proof (admit_shape p d w) as H. destruct (Admit p d (w, [])) as [r [w' log]].
  destruct H as [(c & m & H & -> & ->)|(_ & Hl & _ & _ & _ & _ & Hg)].
  - split; [by exists c, []; rewrite app_nil_r|]. intros _. destruct H as [(? & ? & ? & ? & ? & ? & ? & ? & ? & ? & Ea & ? & ? & ? & ? & Ew & ?) G F].
    apply bypass_fresh in F. by eauto 6.
  - refine (conj Hl _). intros (? & F%bypass_fresh & ?)%Hg. by eauto 6.
Qed.

Lemma admit_bypassed (p : Pipeline W) (d : Delivery) (w : W) ask w1 why :
  PrivacyPort (ports p) = Some ask -> ask (Payload d) w = (inr true, w1) -> (Admits (gate p) (dTarget d)).1 = true ->
  Bypass (dMarkers d) = (true, why) ->
  Admit p d (w, []) = (observe (set_outcome OutcomePassThrough why (Decide (gate p) (dTarget d) no_failure)) d,
                       (w1, [AskPrivacy (Payload d)])).
Proof.
  intros Ea Ew Eg Eb. unfold Admit, checkPrivacy, mbind, M_bind, mret, M_ret, call. rewrite Ea. cbn [fst snd app].
  rewrite Ew. cbn [fStage no_failure]. rewrite bool_decide_eq_true_2 by done. cbn [negb]. by rewrite Eg, Eb.
Qed.

End Claims.

(** C13: what admission produced is never admitted again.  When a delivery was transformed, any later delivery
    whose envelope carries the mark of that record (blanks around it ignored), to any pipeline, in any
    world, is not transformed and asks at most for privacy: nothing of it is captured.  Where privacy permits
    it and the gate admits it, it passes through with the reason "already-processed". *)
Theorem admission_never_chains {W W' : Type} (p : Pipeline W) d w (p' : Pipeline W') d' w' x :
  rOutcome (Admit p d (w, [])).1 = OutcomeTransform ->
  x ∈ dMarkers d' -> TrimSpace x = rMark (Admit p d (w, [])).1 ->
  let '(r', (_, log')) := Admit p' d' (w', []) in
  rOutcome r' <> OutcomeTransform /\ (length log' <= 1)%nat /\
  (forall ask w1, PrivacyPort (ports p') = Some ask -> ask (Payload d') w' = (inr true, w1) ->
     (Admits (gate p') (dTarget d')).1 = true ->
     rOutcome r' = OutcomePassThrough /\ rReason r' = ReasonAlreadyProcessed /\ log' = [AskPrivacy (Payload d')]).
Proof.
  intros Ht Hx Hm. assert (Bypass (dMarkers d') = (true, ReasonAlreadyProcessed)) as Hb.
  { apply (ours_bypasses _ x); [done|]. rewrite Hm. pose proof (admit_shape p d w) as H. destruct (Admit p d (w, [])) as [r [? ?]].
    destruct H as [(c & m & _ & -> & _)|([] & _)]; done. }
  pose proof (admit_shape p' d' w') as H. destruct (Admit p' d' (w', [])) as [r' [v log']] eqn:E.
  destruct H as [(c & m & H & _)|(Hi & _ & _ & _ & _ & _ & Hg)]; [by destruct H as [_ _ F]; rewrite Hb in F|].
  refine (conj (proj1 Hi) (conj _ _)).
  - destruct (decide (length log' <= 1)%nat) as [|Hl]; [done|]. destruct Hg as (_ & F & _); [lia|]. by rewrite Hb in F.
  - intros ask w1 Ea Ew Eg. rewrite (admit_bypassed p' d' w' ask w1 _ Ea Ew Eg Hb) in E. by simplify_eq.
Qed.

(** ** A pipeline that admits *)

Definition ex_target : Target := MkTarget (str "qompack.slice") (str "1").
Definition ex_meaning : Meaning :=
  MkMeaning (str "ok") [] None false false 3 1 (str "sig") (MkSource (str "src") (MkSpan 0 3)) ex_target None (str "shown").

(** The world of the example counts the calls. *)
Definition ex_pipeline : Pipeline nat :=
  MkPipeline (MkGate true false (NewAllowlist [ex_target]))
    (MkPorts (Some (fun _ n => (inr true, S n))) (Some (fun x n => (inr (MkCapture (str "h") FidelityExact false 0), S n)))
       (Some (fun _ n => (inr tt, S n))) (Some (fun _ n => (inr ex_meaning, S n))) (Some (fun _ n => (inr HandleResolvable, S n)))).

Definition ex_delivery (markers : list bytes) : Delivery :=
  MkDelivery ex_target (str "abc") markers (VerifyBaseline (str "b0") (str "sig") ex_target FidelityFull).

(** The example is admitted as a delta over its baseline. *)
Example ex_admitted :
  let '(r, (n, log)) := Admit ex_pipeline (ex_delivery []) (0%nat, []) in
  (rOutcome r, rReason r, rForm r, rBase r, rHandle r) = (OutcomeTransform, ReasonAdmitted, FormDelta, str "b0", str "h") /\
  n = 5%nat /\ length log = 5%nat.
Proof. by vm_compute. Qed.

Lemma admission_never_chains_witness :
  let '(r', (_, log')) := Admit ex_pipeline (ex_delivery [str "other"; str " qompack.admission.v1 "]) (5%nat, []) in
  rOutcome r' <> OutcomeTransform /\ (length log' <= 1)%nat /\
  (forall ask w1, PrivacyPort (ports ex_pipeline) = Some ask -> ask (str "abc") 5%nat = (inr true, w1) ->
     (Admits (gate ex_pipeline) ex_target).1 = true ->
     rOutcome r' = OutcomePassThrough /\ rReason r' = ReasonAlreadyProcessed /\ log' = [AskPrivacy (str "abc")]).
Proof.
  apply (admission_never_chains ex_pipeline (ex_delivery []) 0%nat ex_pipeline
    (ex_delivery [str "other"; str " qompack.admission.v1 "]) 5%nat (str " qompack.admission.v1 ")).
  - by vm_compute.
  - apply list_elem_of_In. right. by left.
  - by vm_compute.
Defined.

(** ** Representation, rollback and quality *)

(** A delta is chosen exactly for a recoverable capture of something other than media, over a named and
    verified baseline of the same schema and signature whose own original is recoverable; its base is that
    baseline.  Otherwise a recoverable capture gets a capsule, and the record says why. *)
Lemma select_exact m f b :
  (selForm (Select m f b) = FormDelta <-> Media m = false /\ Recoverable f = true /\ baseID b <> [] /\ verified b = true /\
     baseSchema b = mSchema m /\ baseSignature b = Signature m /\ Recoverable (baseFidelity b) = true) /\
  (selBase (Select m f b) = if Emits (selForm (Select m f b)) then
     match selForm (Select m f b) with FormDelta => baseID b | _ => [] end else []) /\
  (Emits (selForm (Select m f b)) = true <-> Media m = false /\ Recoverable f = true).
Proof.
  unfold Select, baselineReset. destruct (Media m); [naive_solver|]. destruct (Recoverable f); [|naive_solver]. cbn [negb].
  repeat (case_bool_decide; cbn [negb selForm selBase Emits]; try (destruct (verified b); cbn [negb]);
          try (destruct (Recoverable (baseFidelity b)); cbn [negb])); naive_solver.
Qed.

Lemma worst_retained layers ls v : worst_of layers ls v = VerdictRetained <->
  v = VerdictRetained /\ Forall (fun l => layer_verdict (default zero_layer (layers !! l)) = VerdictRetained) ls.
Proof.
  revert v. induction ls as [|l ls IH]; intros v; cbn; [naive_solver|].
  rewrite Forall_cons. destruct (layer_verdict _) eqn:E; rewrite ?IH; split; try (by intros [? ?]); try (by intros (? & ? & ?)).
  done.
Qed.

(** The comparison enables replacement exactly when each of the three layers was measured against a margin
    fixed beforehand, observed something, and its ratio is not below the margin. *)
Lemma enables_exact layers : Enables layers = true <->
  forall l, exists res, layers !! l = Some res /\ predeclared res = true /\ lObserved res <> 0 /\
    F64.lt (F64.div (float_of_int (lRetained res)) (float_of_int (lObserved res))) (minRetained res) = false.
Proof.
  unfold Enables. rewrite bool_decide_eq_true. unfold comparison_verdict. rewrite worst_retained, !Forall_cons.
  assert (forall l, layer_verdict (default zero_layer (layers !! l)) = VerdictRetained <->
    exists res, layers !! l = Some res /\ predeclared res = true /\ lObserved res <> 0 /\
    F64.lt (F64.div (float_of_int (lRetained res)) (float_of_int (lObserved res))) (minRetained res) = false) as H.
  { intros l. unfold layer_verdict. destruct (layers !! l) as [[o rt mn pd]|]; cbn [default from_option id zero_layer predeclared lObserved lRetained minRetained negb orb].
    2: { split; [done|]. by intros (? & ? & ?). }
    destruct pd; cbn [negb orb]; [|split; [done|]; intros (? & E & ? & ?); by simplify_eq/=].
    destruct (Z.eqb_spec o 0) as [->|Ho]; [split; [done|]; intros (? & E & _ & ? & ?); by simplify_eq/=|].
    destruct (F64.lt _ _) eqn:El; split; try done; [intros (? & E & ? & ? & ?); simplify_eq/=; congruence|].
    intros _. by eexists. }
  rewrite !H. split; [|naive_solver]. intros (_ & ? & ? & ? & _) l. by destruct l.
Qed.

(** A write is permitted only towards readers that all read the new version, or with a verified backup,
    and never when the version goes down in byte order undeclared. *)
Lemma permit_exact w readers b : (PermitSchemaWrite w readers b).1 = true <->
  (bytes_compare (To w) (From_ w) = Lt -> Downgrade w = true) /\
  ((readers <> [] /\ Forall (fun r => r = To w) readers) \/ backup_verified b = true).
Proof.
  unfold PermitSchemaWrite, allReadersSupport.
  assert (forallb (fun r => bool_decide (r = To w)) readers = true <-> Forall (fun r => r = To w) readers) as Hf.
  { rewrite forallb_forall, Forall_forall. setoid_rewrite bool_decide_eq_true. setoid_rewrite list_elem_of_In. done. }
  destruct readers as [|r rs]; [clear Hf|destruct (forallb _ _)];
    destruct (bytes_compare _ _), (Downgrade w), (backup_verified b); cbn [negb fst]; naive_solver.
Qed.

(** The byte order takes version 10 to be below version 9: the upgrade from 9 to 10 is refused as an
    undeclared downgrade, and the downgrade from 10 to 9 is permitted undeclared. *)
Lemma version_order_inverted :
  PermitSchemaWrite (MkWrite (str "9") (str "10") false) [str "10"] (VerifyBackup (str "b") (str "9")) = (false, PermitUndeclaredDowngrade) /\
  PermitSchemaWrite (MkWrite (str "10") (str "9") false) [str "9"] (VerifyBackup (str "b") (str "10")) = (true, PermitReaderCompatible).
Proof. by vm_compute. Qed.

(** A margin that is not a number retains everything: nothing is below it. *)
Lemma nan_margin_enables :
  let nan := 0x7FF8000000000001 in
  let l := Observe (Predeclare nan) 0 100 in
  Enables (<[LayerTaskCompletion := l]> (<[LayerConstraints := l]> (<[LayerRecoverability := l]> ∅))) = true.
Proof. by vm_compute. Qed.
