(* ===== verification/Canon.v ===== *)
(** * Canonicalisation: the registry, composition, restoring

    Models [src/internal/canon]: classes and options ([classes.go], [types.go]), matches ([match.go]),
    the composition of matches ([apply.go]), the registry ([registry.go], [default.go], [builtins.go]),
    restoring ([restore.go]), the line-ending canonicaliser and the byte helpers of [generic.go].  A
    [Canonicalizer] is a record of its methods; the pattern tables of the built-ins are regular
    expressions and stay parameters.  Offsets and lengths are Go [int]s, so their sums wrap; a slice
    expression outside the length of its operand is [Panic]. *)

From S2P Require Import Prelude GoLib Core Frame GoStrings Select MinHash F64Ops GoSort.

Open Scope go_scope.

(** ** Classes and options ([types.go], [classes.go]) *)

Abbreviation Class := bytes.

Definition ClassTimestamps : Class := str "timestamps".
Definition ClassANSI : Class := str "ansi".
Definition ClassPIDs : Class := str "pids".
Definition ClassAddresses : Class := str "addresses".
Definition ClassTmpPaths : Class := str "tmpPaths".
Definition ClassDurations : Class := str "durations".
Definition ClassCRLF : Class := str "crlf".
Definition ClassPaths : Class := str "paths".

Definition DefaultShingleSize : Z := 5.

Definition knownClasses : list Class :=
  [ClassCRLF; ClassANSI; ClassTimestamps; ClassDurations; ClassPIDs; ClassAddresses; ClassTmpPaths; ClassPaths].

Definition alwaysOn : gset Class := {[ClassCRLF; ClassPaths]}.

Definition KnownClasses : list Class := knownClasses.

Definition ParseClass (s : bytes) : option Class := List.find (fun c => bool_decide (c = s)) knownClasses.

(** A nil [Strip] is [None]: every class. *)
Definition gateSet (strip : option (list Class)) : gset Class :=
  match strip with
  | None => list_to_set knownClasses
  | Some l => list_to_set l ∪ alwaysOn
  end.

Record Options := MkCanonOptions { Strip : option (list Class); KeepDeltas : bool; oMinHash : MinHashOptions }.

(** The configuration block the options are built from. *)
Record MinHashCfg := MkMinHashCfg { mhEnabled : bool; mhPermutations : Z; mhNearDupThreshold : Z }.
Record CanonicalizeCfg := MkCanonicalizeCfg { cfgEnabled : bool; cfgStrip : list bytes; cfgMinHash : MinHashCfg }.

Definition OptionsFrom (cfg : CanonicalizeCfg) (keepDeltas : bool) : Options :=
  MkCanonOptions (Some (omap ParseClass (cfgStrip cfg))) keepDeltas
    (MkOptions (mhEnabled (cfgMinHash cfg)) (mhPermutations (cfgMinHash cfg)) DefaultShingleSize (mhNearDupThreshold (cfgMinHash cfg))).

(** ** Matches ([match.go]), deltas and results ([types.go]) *)

Record Match := MkMatch { Offset : Z; Len : Z; Token : bytes; mClass : Class }.

Definition End (m : Match) : Z := s64 (Offset m + Len m).

Record Delta := MkDelta { dOffset : Z; dLen : Z; Original : bytes; dClass : Class }.

(** [Deltas] is nil when they were not asked for. *)
Record Result := MkResult {
  Canonical : bytes; Deltas : option (list Delta); Applied : list bytes; rSignature : Signature; Reduced : Z
}.

Inductive canon_error := ErrUnknownClass (c : Class) | ErrNotMatcher | ErrDuplicateName (n : bytes) | ErrDeltaRange | ErrDeltaOrder.

(** ** Composition ([apply.go]) *)

Definition MaxInputBytes : Z := 8 * 2 ^ 20.

Record candidate := MkCand { cMatch : Match; rank : Z; owner : bytes }.

Definition splitCapped (inp : bytes) : bytes * bytes :=
  if Z.of_nat (length inp) <=? MaxInputBytes then (inp, [])
  else (take (Z.to_nat MaxInputBytes) inp, drop (Z.to_nat MaxInputBytes) inp).

(** The order: ascending offset, then descending length, then ascending rank. *)
Definition cand_less (x y : candidate) : bool :=
  let (mx, my) := (cMatch x, cMatch y) in
  if negb (Offset mx =? Offset my) then Offset mx <? Offset my
  else if negb (Len mx =? Len my) then Len mx >? Len my
  else rank x <? rank y.

Definition sortCandidates (cands : list candidate) : list candidate := stable_sort cand_less cands.

Fixpoint accept_loop (gate : gset Class) (cands : list candidate) (end_ : Z) : list candidate :=
  match cands with
  | [] => []
  | c :: cands =>
      let m := cMatch c in
      if negb (bool_decide (mClass m ∈ gate)) then accept_loop gate cands end_
      else if Z.of_nat (length (Token m)) >? Len m then accept_loop gate cands end_
      else if Len m =? 0 then accept_loop gate cands end_
      else if Offset m <? end_ then accept_loop gate cands end_
      else c :: accept_loop gate cands (End m)
  end.

Definition acceptCandidates (cands : list candidate) (gate : gset Class) : list candidate := accept_loop gate cands 0.

(** [b[lo:hi]] for [int] bounds. *)
Definition sub_int {E} (b : bytes) (lo hi : Z) : outcome E bytes :=
  if (0 <=? lo) && (lo <=? hi) && (hi <=? Z.of_nat (length b)) then Ok (slice b (Z.to_nat lo) (Z.to_nat hi)) else Panic.

(** The loop of [applyMatches]: the output so far, the deltas so far, the end of the last match. *)
Fixpoint apply_loop {E} (inp : bytes) (ms : list candidate) (keep : bool) (out : bytes) (deltas : list Delta) (prev : Z)
  : outcome E (bytes * list Delta * Z) :=
  match ms with
  | [] => Ok (out, deltas, prev)
  | c :: ms =>
      let m := cMatch c in
      let! gap := sub_int inp prev (Offset m) in
      let out := out ++ gap in
      let! deltas :=
        if keep then
          let! orig := sub_int inp (Offset m) (End m) in
          Ok (deltas ++ [MkDelta (Z.of_nat (length out)) (Z.of_nat (length (Token m))) orig (mClass m)])
        else Ok deltas in
      apply_loop inp ms keep (out ++ Token m) deltas (End m)
  end.

Definition applyMatches {E} (inp : bytes) (ms : list candidate) (keep : bool) : outcome E (bytes * option (list Delta)) :=
  let! (r, prev) := apply_loop inp ms keep [] [] 0 in
  let! rest := sub_int inp prev (Z.of_nat (length inp)) in
  Ok (r.1 ++ rest, if keep then Some r.2 else None).

Definition compose {E} (inp : bytes) (cands : list candidate) (o : Options)
  : outcome E (bytes * option (list Delta) * list candidate) :=
  let '(head, tail) := splitCapped inp in
  let accepted := acceptCandidates (sortCandidates cands) (gateSet (Strip o)) in
  let! (canonical, deltas) := applyMatches head accepted (KeepDeltas o) in
  Ok (canonical ++ tail, deltas, accepted).

(** The first accepted candidate of each owner. *)
Fixpoint first_of_owner (seen : gset bytes) (accepted : list candidate) : list candidate :=
  match accepted with
  | [] => []
  | m :: accepted =>
      if bool_decide (owner m ∈ seen) then first_of_owner seen accepted
      else m :: first_of_owner ({[owner m]} ∪ seen) accepted
  end.

Definition appliedNames (accepted : list candidate) : list bytes :=
  owner <$> stable_sort (fun a b => rank a <? rank b) (first_of_owner ∅ accepted).

Definition reduced (inLen outLen : Z) : Z :=
  if inLen =? 0 then Float.zero else Float.sub Float.one (F64.div (F64.of_int outLen) (F64.of_int inLen)).

Definition zero_signature : Signature := MkSignature 0 [].

(** What a canonicaliser does alone: composition of its own matches, without a signature. *)
Definition canonicalizeVia (matches : bytes -> Options -> list Match) (name inp : bytes) (o : Options) : outcome canon_error Result :=
  if bool_decide (inp = []) then Ok (MkResult [] None [] zero_signature Float.zero)
  else
    let found := matches (splitCapped inp).1 o in
    let! (cd, accepted) := compose inp ((fun f => MkCand f 0 name) <$> found) o in
    Ok (MkResult cd.1 cd.2 (appliedNames accepted) zero_signature (reduced (Z.of_nat (length inp)) (Z.of_nat (length cd.1)))).

(** ** The registry ([registry.go], [canonicalizer.go]) *)

(** A canonicaliser that is no [Matcher] has no [Matches]; its own [Canonicalize] is never called here. *)
Record Canonicalizer := MkCanonicalizer {
  Name : bytes; Applies : bytes -> bytes -> bool; Matches : option (bytes -> Options -> list Match)
}.

Definition MatchesOf (c : Canonicalizer) (inp : bytes) (o : Options) : outcome canon_error (list Match) :=
  match Matches c with None => Err ErrNotMatcher | Some m => Ok (m inp o) end.

Record registry := MkRegistry { canons : list Canonicalizer; byName : gset bytes }.

Definition NewRegistry : registry := MkRegistry [] ∅.

Definition Register (r : registry) (c : option Canonicalizer) : registry * option canon_error :=
  match c with
  | None => (r, None)
  | Some c =>
      if bool_decide (Name c ∈ byName r) then (r, Some (ErrDuplicateName (Name c)))
      else (MkRegistry (canons r ++ [c]) ({[Name c]} ∪ byName r), None)
  end.

Definition For (r : registry) (tool path : bytes) : list Canonicalizer := List.filter (fun c => Applies c tool path) (canons r).

Definition Names (r : registry) : list bytes := Name <$> canons r.

(** [collect], from the canonicaliser at index [i] on. *)
Fixpoint collect_from (i : Z) (cs : list Canonicalizer) (tool path head : bytes) (o : Options) : list candidate :=
  match cs with
  | [] => []
  | c :: cs =>
      (if negb (Applies c tool path) then []
       else match MatchesOf c head o with
            | Ok found => (fun m => MkCand m i (Name c)) <$> found
            | _ => []
            end) ++ collect_from (i + 1) cs tool path head o
  end.

Definition collect (r : registry) (tool path head : bytes) (o : Options) : list candidate := collect_from 0 (canons r) tool path head o.

Definition validateStrip (strip : option (list Class)) : option canon_error :=
  match List.find (fun c => match ParseClass c with None => true | Some _ => false end) (default [] strip) with
  | Some c => Some (ErrUnknownClass c)
  | None => None
  end.

(** [sketch.MinHash] always returns ([minHash_spec]); a run of it that would not is [Panic]. *)
Definition Run (r : registry) (tool path inp : bytes) (o : Options) : outcome canon_error Result :=
  match validateStrip (Strip o) with
  | Some e => Err e
  | None =>
      if bool_decide (inp = []) then Ok (MkResult [] None [] zero_signature Float.zero)
      else
        let cands := collect r tool path (splitCapped inp).1 o in
        let! (cd, accepted) := compose inp cands o in
        let! sig := if Enabled (oMinHash o)
                    then match MinHash cd.1 (oMinHash o) with Ok s => Ok s | _ => Panic end
                    else Ok zero_signature in
        Ok (MkResult cd.1 cd.2 (appliedNames accepted) sig (reduced (Z.of_nat (length inp)) (Z.of_nat (length cd.1))))
  end.

Definition nameCRLF : bytes := str "crlf".

(** [Default] over the table of built-ins. *)
Definition Default (builtins : list Canonicalizer) (cfg : CanonicalizeCfg) : registry :=
  fold_left (fun r c => if negb (cfgEnabled cfg) && negb (bool_decide (Name c = nameCRLF)) then r else (Register r (Some c)).1)
    builtins NewRegistry.

(** ** Restoring ([restore.go]) *)

(** The loop of [Restore]: the last delta's offset ([None] before the first), the output, the position. *)
Fixpoint restore_loop (canonical : bytes) (deltas : list Delta) (last : option Z) (out : bytes) (prev : Z) : outcome canon_error bytes :=
  match deltas with
  | [] => let! rest := sub_int canonical prev (Z.of_nat (length canonical)) in Ok (out ++ rest)
  | d :: deltas =>
      if match last with Some l => dOffset d <? l | None => false end then Err ErrDeltaOrder
      else if (dOffset d <? prev) || (dLen d <? 0) || (dOffset d <? 0) || (s64 (dOffset d + dLen d) >? Z.of_nat (length canonical))
      then Err ErrDeltaRange
      else
        let! gap := sub_int canonical prev (dOffset d) in
        restore_loop canonical deltas (Some (dOffset d)) (out ++ gap ++ Original d) (s64 (dOffset d + dLen d))
  end.

Definition Restore (canonical : bytes) (deltas : list Delta) : outcome canon_error bytes :=
  match deltas with [] => Ok canonical | _ => restore_loop canonical deltas None [] 0 end.

(** One or more carriage returns and one newline. *)
Definition isCRRunLineEnding (s : bytes) : bool :=
  if (length s <? 2)%nat || negb (bool_decide (s !! (length s - 1)%nat = Some x0a)) then false
  else forallb (fun c => bool_decide (c = x0d)) (take (length s - 1) s).

Definition LineEndingClass (deltas : list Delta) (canonicalNewlines : Z) : bytes :=
  let crlfCount := Z.of_nat (length (List.filter (fun d => bool_decide (dClass d = ClassCRLF) && isCRRunLineEnding (Original d)) deltas)) in
  if crlfCount =? 0 then str "lf"
  else if crlfCount =? canonicalNewlines then str "crlf"
  else str "mixed".

(** ** The line-ending canonicaliser and byte helpers ([generic.go]) *)

Definition lf : bytes := [x0a].

(** [for start > 0 && in[start-1] == '\r' { start-- }]. *)
Fixpoint cr_back (inp : bytes) (start : nat) : nat :=
  match start with
  | O => O
  | S s => if bool_decide (inp !! s = Some x0d) then cr_back inp s else start
  end.

(** The loop of [crlfCanon.Matches] from index [i], one turn per newline. *)
Fixpoint crlf_loop (fuel : nat) (inp : bytes) (i : nat) : list Match :=
  match fuel with
  | O => []
  | S fuel =>
      match Index (drop i inp) [x0a] with
      | None => []
      | Some n =>
          let e := (i + n)%nat in
          (if (0 <? e)%nat && bool_decide (inp !! (e - 1)%nat = Some x0d) then
             let start := cr_back inp (e - 1) in
             [MkMatch (Z.of_nat start) (Z.of_nat (e + 1 - start)) lf ClassCRLF]
           else []) ++ crlf_loop fuel inp (e + 1)
      end
  end.

(** Each turn passes a newline, so one per byte and a last one are enough. *)
Definition crlf_Matches (inp : bytes) (o : Options) : list Match := crlf_loop (S (length inp)) inp 0.

Definition crlfCanon : Canonicalizer := MkCanonicalizer nameCRLF (fun _ _ => true) (Some crlf_Matches).

Definition between (lo hi : Z) (c : byte) : bool := (lo <=? b2z c) && (b2z c <=? hi).

Definition escByte : byte := x1b.
Definition belByte : byte := x07.

(** The length of the run of bytes in a range. *)
Fixpoint run_in (lo hi : Z) (s : bytes) : nat :=
  match s with c :: s => if between lo hi c then S (run_in lo hi s) else O | [] => O end.

(** [csiLen] at the start of [s], which is [in[i:]]. *)
Definition csiLen (s : bytes) : nat :=
  if negb (bool_decide (s !! 1%nat = Some x5b)) then O
  else
    let j := (2 + run_in 0x30 0x3f (drop 2 s))%nat in
    let j := (j + run_in 0x20 0x2f (drop j s))%nat in
    match s !! j with
    | Some c => if between 0x40 0x7e c then S j else O
    | None => O
    end.

(** The loop of [oscLen] over the body, [k] bytes in. *)
Fixpoint osc_body (s : bytes) (k : nat) : nat :=
  match s with
  | [] => O
  | c :: s =>
      if bool_decide (c = belByte) then S k
      else if bool_decide (c = escByte) then
        match s with b :: _ => if bool_decide (b = x5c) then S (S k) else O | [] => O end
      else osc_body s (S k)
  end.

Definition oscLen (s : bytes) : nat := if negb (bool_decide (s !! 1%nat = Some x5d)) then O else osc_body (drop 2 s) 2.

Definition escLen (s : bytes) : nat :=
  match s with
  | [] => O
  | c :: t =>
      if negb (bool_decide (c = escByte)) then O
      else if (0 <? csiLen s)%nat then csiLen s
      else if (0 <? oscLen s)%nat then oscLen s
      else match t with
           | b :: _ => if between 0x40 0x5a b || between 0x5c 0x5f b then 2%nat else 1%nat
           | [] => 1%nat
           end
  end.

(** [forEachLine] as the spans it visits. *)
Fixpoint line_spans (fuel : nat) (inp : bytes) (start : nat) : list (nat * nat) :=
  match fuel with
  | O => []
  | S fuel =>
      if (start <? length inp)%nat then
        match Index (drop start inp) [x0a] with
        | None => [(start, length inp)]
        | Some n => (start, start + n)%nat :: line_spans fuel inp (start + n + 1)
        end
      else []
  end.

Definition forEachLine (inp : bytes) : list (nat * nat) := line_spans (S (length inp)) inp 0.

(** [c += 'a' - 'A'] for an upper-case letter. *)
Definition fold_byte (c : byte) : byte := if between 0x41 0x5a c then z2b (b2z c + 32) else c.

(** [equalFold] compares as many bytes as the literal has; its callers pass that many. *)
Fixpoint equalFold (buf lit : bytes) : bool :=
  match lit, buf with
  | [], _ => true
  | l :: lit, c :: buf => if bool_decide (fold_byte c = l) then equalFold buf lit else false
  | _ :: _, [] => false
  end.

(** One pass of [containsFold]: the positions whose byte is [first], within the last possible start. *)
Fixpoint fold_pass (fuel : nat) (buf lit : bytes) (first : byte) (off : nat) : bool :=
  match fuel with
  | O => false
  | S fuel =>
      if (off + length lit <=? length buf)%nat then
        match Index (slice buf off (length buf - length lit + 1)) [first] with
        | None => false
        | Some i => if equalFold (slice buf (off + i) (off + i + length lit)) lit then true else fold_pass fuel buf lit first (off + i + 1)
        end
      else false
  end.

Definition containsFold (buf lit : bytes) : bool :=
  match lit with
  | [] => true
  | lo :: _ => fold_pass (S (length buf)) buf lit lo 0 || fold_pass (S (length buf)) buf lit (z2b (Z.land (b2z lo - 32) 255)) 0
  end.

(** The prefilter of a rule: [needAll], [need] and whether they fold case. *)
Definition hasLiteral (needFold : bool) (buf lit : bytes) : bool := if needFold then containsFold buf lit else Contains buf lit.

Definition triggered (need needAll : list bytes) (needFold : bool) (buf : bytes) : bool :=
  forallb (hasLiteral needFold buf) needAll && (match need with [] => true | _ => existsb (hasLiteral needFold buf) need end).

Fixpoint hasPlainLead (line lead : bytes) : bool :=
  match line with
  | c :: rest => if bool_decide (c = x20) || bool_decide (c = x09) then hasPlainLead rest lead else HasPrefix line lead
  | [] => HasPrefix [] lead
  end.

Definition isPlainLine (line : bytes) : bool := negb (existsb (fun c => bool_decide (c = x0d)) line) && negb (existsb (fun c => bool_decide (c = escByte)) line).
