(* ===== verification/CanonSpec.v ===== *)
(** * What canonicalisation guarantees

    For any canonicalisers that report spans of the input: a pass never fails, never grows its input,
    rewrites disjoint spans of the enabled classes only, and is undone byte for byte by [Restore].
    [Restore] answers on any deltas whose ends do not overflow; the line-ending canonicaliser turns
    every run of carriage returns before a newline into the newline, and nothing else. *)

From S2P Require Import Prelude GoLib Core Frame GoStrings Select MinHash F64Ops GoSort Canon.

Open Scope go_scope.

(** ** Spans of the input *)

(** A match that lies in a buffer of [n] bytes. *)
Definition in_range (n : Z) (m : Match) : Prop := 0 <= Offset m /\ 0 <= Len m /\ Offset m + Len m <= n.

(** What [Matcher] asks of its implementations. *)
Definition honest (c : Canonicalizer) : Prop :=
  forall f inp o, Matches c = Some f -> Forall (in_range (Z.of_nat (length inp))) (f inp o).

(** Buffers whose lengths are machine integers. *)
Definition addressable (b : bytes) : Prop := Z.of_nat (length b) < 2 ^ 63.

(** Consecutive spans of a buffer of [n] bytes from [prev] on, each shrinking or keeping its length. *)
Fixpoint chained (n prev : Z) (ms : list candidate) : Prop :=
  match ms with
  | [] => prev <= n
  | c :: ms =>
      let m := cMatch c in
      prev <= Offset m /\ 0 < Len m /\ Offset m + Len m <= n /\ Z.of_nat (length (Token m)) <= Len m /\
      chained n (Offset m + Len m) ms
  end.

(** The canonical text from [prev] on. *)
Fixpoint render (inp : bytes) (prev : Z) (ms : list candidate) : bytes :=
  match ms with
  | [] => drop (Z.to_nat prev) inp
  | c :: ms =>
      let m := cMatch c in
      slice inp (Z.to_nat prev) (Z.to_nat (Offset m)) ++ Token m ++ render inp (Offset m + Len m) ms
  end.

(** The deltas of the spans, from the canonical position [at_] on. *)
Fixpoint deltas_of (inp : bytes) (prev at_ : Z) (ms : list candidate) : list Delta :=
  match ms with
  | [] => []
  | c :: ms =>
      let m := cMatch c in
      let at' := at_ + (Offset m - prev) in
      let d := MkDelta at' (Z.of_nat (length (Token m))) (slice inp (Z.to_nat (Offset m)) (Z.to_nat (Offset m + Len m))) (mClass m) in
      d :: deltas_of inp (Offset m + Len m) (at' + Z.of_nat (length (Token m))) ms
  end.

Lemma s64_fits z : - 2 ^ 63 <= z < 2 ^ 63 -> s64 z = z.
Proof.
  intros H. rewrite <- (s64_u64 z H) at 2. unfold s64, u64. by rewrite Z.mod_mod.
Qed.

Lemma sub_int_in {E} b lo hi : 0 <= lo <= hi -> hi <= Z.of_nat (length b) ->
  sub_int (E:=E) b lo hi = Ok (slice b (Z.to_nat lo) (Z.to_nat hi)).
Proof. intros H1 H2. unfold sub_int. by rewrite !(proj2 (Z.leb_le _ _)) by lia. Qed.

Lemma slice_len (b : bytes) lo hi : 0 <= lo <= hi -> hi <= Z.of_nat (length b) ->
  Z.of_nat (length (slice b (Z.to_nat lo) (Z.to_nat hi))) = hi - lo.
Proof. intros. rewrite slice_length by lia. lia. Qed.

(** The matches [acceptCandidates] keeps. *)
Lemma accept_chained gate cs : forall n e, 0 <= e <= n -> n < 2 ^ 63 -> Forall (fun c => in_range n (cMatch c)) cs ->
  chained n e (accept_loop gate cs e) /\
  Forall (fun c => c ∈ cs /\ mClass (cMatch c) ∈ gate) (accept_loop gate cs e).
Proof.
  induction cs as [|c cs IH]; intros n e He Hn Hr; cbn [accept_loop]; [split; [cbn; lia|done]|].
  apply Forall_cons in Hr as [(R1 & R2 & R3) Hr].
  assert (forall e, 0 <= e <= n -> chained n e (accept_loop gate cs e) /\
    Forall (fun c0 => c0 ∈ c :: cs /\ mClass (cMatch c0) ∈ gate) (accept_loop gate cs e)) as Hskip.
  { intros e' He'. destruct (IH n e' He' Hn Hr) as [H1 H2]. split; [done|]. eapply Forall_impl; [exact H2|]. set_solver. }
  repeat case_match; try by apply Hskip. bsolve.
  assert (End (cMatch c) = Offset (cMatch c) + Len (cMatch c)) as E by (unfold End; apply s64_fits; lia). rewrite E.
  destruct (Hskip (Offset (cMatch c) + Len (cMatch c))) as [H3 H4]; [lia|].
  split; [cbn; repeat split; try lia; done|]. constructor; [|done]. split; [set_solver|].
  by eapply bool_decide_eq_true_1.
Qed.

Lemma apply_loop_spec {E} inp keep ms : addressable inp -> forall out ds prev, 0 <= prev -> chained (Z.of_nat (length inp)) prev ms ->
  exists out' prev', apply_loop (E:=E) inp ms keep out ds prev =
    Ok (out', if keep then ds ++ deltas_of inp prev (Z.of_nat (length out)) ms else ds, prev') /\
  0 <= prev' <= Z.of_nat (length inp) /\ out' ++ drop (Z.to_nat prev') inp = out ++ render inp prev ms.
Proof.
  unfold addressable. intros Ha. induction ms as [|c ms IH]; intros out ds prev Hp Hc; cbn [apply_loop deltas_of render chained] in *.
  - exists out, prev. split; [|done]. by destruct keep; rewrite ?app_nil_r.
  - destruct Hc as (H1 & H2 & H3 & H4 & Hc). set (m := cMatch c) in *.
    assert (End m = Offset m + Len m) as Ee by (unfold End; apply s64_fits; lia). rewrite Ee.
    rewrite sub_int_in by lia. cbn [obind].
    set (gap := slice inp (Z.to_nat prev) (Z.to_nat (Offset m))).
    assert (Z.of_nat (length gap) = Offset m - prev) as Hg by (apply slice_len; lia).
    destruct keep.
    + rewrite sub_int_in by lia. cbn [obind].
      edestruct (IH ((out ++ gap) ++ Token m)) as (out' & prev' & -> & Hp' & Ho); [..|exact Hc|]; [lia|].
      exists out', prev'. split; [|split; [done|by rewrite Ho, <- !app_assoc]].
      rewrite <- app_assoc. cbn [app]. rewrite !length_app, !Nat2Z.inj_add, Hg. done.
    + cbn [obind]. edestruct (IH ((out ++ gap) ++ Token m)) as (out' & prev' & -> & Hp' & Ho); [..|exact Hc|]; [lia|].
      exists out', prev'. split; [done|]. split; [done|]. by rewrite Ho, <- !app_assoc.
Qed.

Lemma applyMatches_spec {E} inp keep ms : addressable inp -> chained (Z.of_nat (length inp)) 0 ms ->
  applyMatches (E:=E) inp ms keep = Ok (render inp 0 ms, if keep then Some (deltas_of inp 0 0 ms) else None).
Proof.
  intros Ha Hc. unfold applyMatches. destruct (apply_loop_spec (E:=E) inp keep ms Ha [] [] 0 ltac:(lia) Hc) as (out & prev & -> & Hp & Ho).
  cbn [obind]. rewrite sub_int_in by lia. cbn [obind fst snd]. rewrite Nat2Z.id. unfold slice.
  rewrite take_ge by (rewrite length_drop; lia). rewrite Ho. by destruct keep.
Qed.

(** ** Restoring *)

Lemma slice_app_mid (pre mid post : bytes) lo hi : Z.of_nat (length pre) = lo -> lo + Z.of_nat (length mid) = hi ->
  slice (pre ++ mid ++ post) (Z.to_nat lo) (Z.to_nat hi) = mid.
Proof.
  intros <- <-. unfold slice. rewrite Nat2Z.id, drop_app_length. rewrite take_app_le by lia. rewrite take_ge by lia. done.
Qed.

Lemma restore_deltas inp tail ms : forall pre prev last out, 0 <= prev -> chained (Z.of_nat (length inp)) prev ms ->
  addressable (pre ++ render inp prev ms ++ tail) -> (forall l, last = Some l -> l <= Z.of_nat (length pre)) ->
  restore_loop (pre ++ render inp prev ms ++ tail) (deltas_of inp prev (Z.of_nat (length pre)) ms) last out (Z.of_nat (length pre)) =
    Ok (out ++ drop (Z.to_nat prev) inp ++ tail).
Proof.
  unfold addressable. induction ms as [|c ms IH]; intros pre prev last out Hp Hc Ha Hl; cbn [render deltas_of restore_loop chained] in *.
  - rewrite sub_int_in by (rewrite !length_app in *; lia). cbn [obind]. rewrite !Nat2Z.id. unfold slice. rewrite drop_app_length.
    rewrite take_ge by (rewrite !length_app; lia). done.
  - destruct Hc as (H1 & H2 & H3 & H4 & Hc). set (m := cMatch c) in *.
    set (gap := slice inp (Z.to_nat prev) (Z.to_nat (Offset m))) in *.
    assert (Z.of_nat (length gap) = Offset m - prev) as Hg by (apply slice_len; lia).
    rewrite <- !app_assoc in *. cbn [dOffset dLen Original].
    set (canonical := pre ++ gap ++ Token m ++ render inp (Offset m + Len m) ms ++ tail) in *.
    assert (Z.of_nat (length canonical) = Z.of_nat (length pre) + Z.of_nat (length gap) + Z.of_nat (length (Token m)) +
      Z.of_nat (length (render inp (Offset m + Len m) ms ++ tail))) as HL by (unfold canonical; rewrite !length_app; lia).
    destruct (match last with Some l => _ | None => _ end) eqn:El.
    { exfalso. destruct last as [l|]; [|done]. specialize (Hl l eq_refl). bsolve. lia. }
    rewrite s64_fits by lia.
    destruct (_ || _) eqn:Eo; bsolve; [lia|]. clear El.
    rewrite sub_int_in by lia. cbn [obind]. unfold canonical at 2. rewrite (slice_app_mid pre gap) by lia.
    specialize (IH (pre ++ gap ++ Token m) (Offset m + Len m) (Some (Z.of_nat (length pre) + (Offset m - prev)))
      (out ++ gap ++ slice inp (Z.to_nat (Offset m)) (Z.to_nat (Offset m + Len m)))).
    rewrite !length_app, !Nat2Z.inj_add, Hg in IH. rewrite <- !app_assoc in IH. fold canonical in IH.
    replace (Z.of_nat (length pre) + (Offset m - prev + Z.of_nat (length (Token m)))) with
      (Z.of_nat (length pre) + (Offset m - prev) + Z.of_nat (length (Token m))) in IH by lia.
    rewrite IH; [|lia|done|rewrite length_app in HL; lia|intros l [= <-]; lia]. do 2 f_equal.
    rewrite (drop_slice inp (Z.to_nat prev) (Z.to_nat (Offset m))) by lia. fold gap. rewrite <- app_assoc. f_equal.
    rewrite (drop_slice inp (Z.to_nat (Offset m)) (Z.to_nat (Offset m + Len m))) by lia. by rewrite <- app_assoc.
Qed.

Lemma render_length inp ms : forall prev, 0 <= prev -> chained (Z.of_nat (length inp)) prev ms ->
  Z.of_nat (length (render inp prev ms)) <= Z.of_nat (length inp) - prev.
Proof.
  induction ms as [|c ms IH]; intros prev Hp Hc; cbn [render chained] in *; [rewrite length_drop; lia|].
  destruct Hc as (H1 & H2 & H3 & H4 & Hc). rewrite !length_app. specialize (IH (Offset (cMatch c) + Len (cMatch c)) ltac:(lia) Hc).
  pose proof (slice_len inp prev (Offset (cMatch c)) ltac:(lia) ltac:(lia)). lia.
Qed.

(** Restoring what the spans were rewritten to, with an untouched tail behind. *)
Lemma restore_render inp tail ms : chained (Z.of_nat (length inp)) 0 ms -> addressable (inp ++ tail) ->
  Restore (render inp 0 ms ++ tail) (deltas_of inp 0 0 ms) = Ok (inp ++ tail).
Proof.
  intros Hc Ha. unfold Restore. destruct (deltas_of inp 0 0 ms) as [|d ds] eqn:Ed.
  - destruct ms; [|done]. cbn. by rewrite drop_0.
  - rewrite <- Ed. apply (restore_deltas inp tail ms [] 0 None []); [lia|done| |done].
    unfold addressable in *. pose proof (render_length inp ms 0 ltac:(lia) Hc). rewrite length_app in *. cbn. rewrite length_app. lia.
Qed.

(** ** The order of candidates *)

(** No later than, in the order of [sortCandidates]. *)
Definition no_later (x y : candidate) : Prop :=
  let (mx, my) := (cMatch x, cMatch y) in
  Offset mx < Offset my \/ Offset mx = Offset my /\ (Len mx > Len my \/ Len mx = Len my /\ rank x <= rank y).

Lemma sorted_candidates cs : StronglySorted no_later (sortCandidates cs).
Proof.
  apply stable_sort_sorted; unfold no_later, cand_less.
  - intros x y z. lia.
  - intros x y H. repeat case_match; bsolve; lia.
  - intros x y H. repeat case_match; bsolve; lia.
Qed.

(** A match [acceptCandidates] would apply if nothing were in its way. *)
Definition eligible (gate : gset Class) (m : Match) : Prop :=
  mClass m ∈ gate /\ Z.of_nat (length (Token m)) <= Len m /\ Len m <> 0.

(** A candidate that is left out overlaps an accepted one that is no later. *)
Lemma accept_maximal gate n cs : n < 2 ^ 63 -> StronglySorted no_later cs -> Forall (fun c => in_range n (cMatch c)) cs ->
  forall e c, c ∈ cs -> eligible gate (cMatch c) ->
  c ∈ accept_loop gate cs e \/ Offset (cMatch c) < e \/
  exists a, a ∈ accept_loop gate cs e /\ no_later a c /\ Offset (cMatch c) < Offset (cMatch a) + Len (cMatch a).
Proof.
  intros Hn. induction 1 as [|c0 cs Hs IH Hf]; intros Hr e c Hc He; [by apply not_elem_of_nil in Hc|].
  apply Forall_cons in Hr as [(R1 & R2 & R3) Hr]. specialize (IH Hr).
  assert (End (cMatch c0) = Offset (cMatch c0) + Len (cMatch c0)) as E by (unfold End; apply s64_fits; lia).
  cbn [accept_loop]. apply elem_of_cons in Hc as [->|Hc].
  - destruct He as (H1 & H2 & H3). rewrite bool_decide_true by done. cbn [negb].
    rewrite Z.gtb_ltb, (proj2 (Z.ltb_ge _ _)), (proj2 (Z.eqb_neq _ _)) by done.
    destruct (Z.ltb_spec (Offset (cMatch c0)) e); [by right; left|]. left. apply list_elem_of_here.
  - repeat case_match; try by apply IH. rewrite E.
    destruct (IH (Offset (cMatch c0) + Len (cMatch c0)) c Hc He) as [Hi|[Hi|(a & Ha & Hb & Hd)]].
    + left. by apply list_elem_of_further.
    + right. right. exists c0. split; [apply list_elem_of_here|]. split; [|done].
      rewrite Forall_forall in Hf. by apply Hf.
    + right. right. exists a. split; [by apply list_elem_of_further|done].
Qed.

(** ** The registry *)

(** Names are unique and indexed: what [NewRegistry] and [Register] maintain. *)
Definition registered (r : registry) : Prop := NoDup (Names r) /\ byName r = list_to_set (Names r).

Lemma registered_new : registered NewRegistry.
Proof. split; [constructor|done]. Qed.

Lemma registered_register r c : registered r -> registered (Register r c).1.
Proof.
  intros [Hn Hb]. unfold Register. destruct c as [c|]; [|done]. case_bool_decide as Hc; [done|].
  split; unfold Names in *; cbn [fst canons byName]; rewrite fmap_app; cbn.
  - rewrite Hb, elem_of_list_to_set in Hc. apply NoDup_app. split; [done|]. split; [|apply NoDup_singleton]. set_solver.
  - rewrite Hb, list_to_set_app_L. cbn. set_solver.
Qed.

Lemma collect_from_elem cs tool path head o c : forall i, c ∈ collect_from i cs tool path head o <->
  exists k cn f m, cs !! k = Some cn /\ Applies cn tool path = true /\ Matches cn = Some f /\ m ∈ f head o /\
    c = MkCand m (i + Z.of_nat k) (Name cn).
Proof.
  induction cs as [|cn cs IH]; intros i; cbn [collect_from].
  - split; [by intros ?%not_elem_of_nil|]. by intros (k & ? & ? & ? & ? & _).
  - rewrite elem_of_app, IH. split.
    + intros [Hc|(k & cn' & f & m & H1 & H2 & H3 & H4 & ->)].
      * destruct (Applies cn tool path) eqn:Ea; [|by apply not_elem_of_nil in Hc]. cbn [negb] in Hc. unfold MatchesOf in Hc.
        destruct (Matches cn) as [f|] eqn:Em; [|by apply not_elem_of_nil in Hc].
        apply list_elem_of_fmap in Hc as (m & -> & Hm). exists 0%nat, cn, f, m. rewrite Z.add_0_r. done.
      * exists (S k), cn', f, m. split_and!; try done. f_equal. lia.
    + intros ([|k] & cn' & f & m & H1 & H2 & H3 & H4 & ->).
      * left. injection H1 as <-. rewrite H2. unfold MatchesOf. rewrite H3. cbn [negb]. rewrite Z.add_0_r.
        apply (list_elem_of_fmap_2 (fun m => MkCand m i (Name cn))). done.
      * right. exists k, cn', f, m. split_and!; try done. f_equal. lia.
Qed.

Lemma collect_in_range r tool path head o : Forall honest (canons r) ->
  Forall (fun c => in_range (Z.of_nat (length head)) (cMatch c)) (collect r tool path head o).
Proof.
  intros Hh. apply Forall_forall. intros c (k & cn & f & m & H1 & H2 & H3 & H4 & ->)%collect_from_elem.
  rewrite Forall_forall in Hh. specialize (Hh cn (list_elem_of_lookup_2 _ _ _ H1) f head o H3). rewrite Forall_forall in Hh. by apply Hh.
Qed.

Lemma splitCapped_app inp : (splitCapped inp).1 ++ (splitCapped inp).2 = inp.
Proof. unfold splitCapped. case_match; cbn [fst snd]; [apply app_nil_r|apply take_drop]. Qed.

Lemma addressable_head inp : addressable inp -> addressable (splitCapped inp).1.
Proof. unfold addressable. intros H. rewrite <- (splitCapped_app inp), length_app in H. lia. Qed.

(** ** Composition *)

Lemma compose_spec {E} inp cands o : addressable inp ->
  Forall (fun c => in_range (Z.of_nat (length (splitCapped inp).1)) (cMatch c)) cands ->
  let acc := acceptCandidates (sortCandidates cands) (gateSet (Strip o)) in
  let '(head, tail) := splitCapped inp in
  compose (E:=E) inp cands o = Ok (render head 0 acc ++ tail, if KeepDeltas o then Some (deltas_of head 0 0 acc) else None, acc) /\
  chained (Z.of_nat (length head)) 0 acc /\
  Forall (fun c => c ∈ cands /\ mClass (cMatch c) ∈ gateSet (Strip o)) acc /\
  (forall c, c ∈ cands -> eligible (gateSet (Strip o)) (cMatch c) -> c ∈ acc \/
     exists a, a ∈ acc /\ no_later a c /\ Offset (cMatch c) < Offset (cMatch a) + Len (cMatch a)).
Proof.
  intros Ha Hr acc. pose proof (addressable_head inp Ha) as Hh. unfold compose. destruct (splitCapped inp) as [head tail]. cbn [fst snd] in *.
  assert (Forall (fun c => in_range (Z.of_nat (length head)) (cMatch c)) (sortCandidates cands)) as Hs
    by (unfold sortCandidates; by rewrite stable_sort_perm).
  destruct (accept_chained (gateSet (Strip o)) (sortCandidates cands) (Z.of_nat (length head)) 0 ltac:(lia) Hh Hs) as [Hc Hf].
  fold (acceptCandidates (sortCandidates cands) (gateSet (Strip o))) in *. fold acc in Hc, Hf |- *.
  rewrite (applyMatches_spec (E:=E) head (KeepDeltas o) acc Hh Hc). cbn [obind].
  split; [done|]. split; [done|]. split.
  - eapply Forall_impl; [exact Hf|]. intros c [Hc' ?]. split; [|done]. unfold sortCandidates in Hc'. by rewrite stable_sort_perm in Hc'.
  - intros c Hc' He. destruct (accept_maximal (gateSet (Strip o)) (Z.of_nat (length head)) (sortCandidates cands) Hh (sorted_candidates cands) Hs 0 c) as [?|[Ho|?]];
      [unfold sortCandidates; by rewrite stable_sort_perm|done|by left| |by right].
    rewrite Forall_forall in Hr. destruct (Hr c Hc'). lia.
Qed.

(** Every run without an unknown class, in terms of the accepted matches. *)
Lemma run_spec r tool path inp o : Forall honest (canons r) -> addressable inp -> validateStrip (Strip o) = None -> inp <> [] ->
  let '(head, tail) := splitCapped inp in
  let cands := collect r tool path head o in
  exists acc, Run r tool path inp o = Ok (MkResult (render head 0 acc ++ tail)
      (if KeepDeltas o then Some (deltas_of head 0 0 acc) else None) (appliedNames acc)
      (if Enabled (oMinHash o) then signature_of (render head 0 acc ++ tail) (oMinHash o) else zero_signature)
      (reduced (Z.of_nat (length inp)) (Z.of_nat (length (render head 0 acc ++ tail))))) /\
    chained (Z.of_nat (length head)) 0 acc /\
    Forall (fun c => c ∈ cands /\ mClass (cMatch c) ∈ gateSet (Strip o)) acc /\
    (forall c, c ∈ cands -> eligible (gateSet (Strip o)) (cMatch c) -> c ∈ acc \/
       exists a, a ∈ acc /\ no_later a c /\ Offset (cMatch c) < Offset (cMatch a) + Len (cMatch a)).
Proof.
  intros Hh Ha Hv Hne. unfold Run. rewrite Hv, bool_decide_false by done.
  pose proof (compose_spec (E:=canon_error) inp (collect r tool path (splitCapped inp).1 o) o Ha (collect_in_range _ _ _ _ _ Hh)) as H.
  destruct (splitCapped inp) as [head tail]. cbn [fst snd] in *. destruct H as (-> & H1 & H2 & H3). cbn [obind fst snd].
  eexists. split; [|by split_and!]. destruct (Enabled (oMinHash o)); [|done].
  destruct (minHash_spec (render head 0 (acceptCandidates (sortCandidates (collect r tool path head o)) (gateSet (Strip o))) ++ tail) (oMinHash o)) as (k & E & _).
  unfold MinHash. rewrite E. done.
Qed.

(** ** The names applied *)

Lemma first_of_owner_spec acc : forall seen, let l := first_of_owner seen acc in
  NoDup (owner <$> l) /\ Forall (fun c => c ∈ acc) l /\
  (forall x, x ∈ owner <$> l <-> x ∈ owner <$> acc /\ x ∉ seen).
Proof.
  induction acc as [|c acc IH]; intros seen; cbn [first_of_owner].
  - split_and!; [constructor|constructor|]. intros x. cbn. set_solver.
  - case_bool_decide as Hc.
    + destruct (IH seen) as (H1 & H2 & H3). split_and!; [done|eapply Forall_impl; [exact H2|]; set_solver|].
      intros x. rewrite H3. cbn. set_solver.
    + destruct (IH ({[owner c]} ∪ seen)) as (H1 & H2 & H3). cbn [fmap list_fmap]. split_and!.
      * constructor; [|done]. rewrite H3. set_solver.
      * constructor; [set_solver|]. eapply Forall_impl; [exact H2|]. set_solver.
      * intros x. rewrite !elem_of_cons, H3, not_elem_of_union, not_elem_of_singleton.
        destruct (decide (x = owner c)) as [->|Hx]; [by split; [intros _; split; [by left|]|left]|]. naive_solver.
Qed.

(** Order of position in a list. *)
Definition before {A} (L : list A) (x y : A) : Prop := exists i j, (i <= j)%nat /\ L !! i = Some x /\ L !! j = Some y.

Lemma before_antisymm {A} (L : list A) : NoDup L -> AntiSymm (=) (before L).
Proof.
  intros Hn x y (i & j & Hij & H1 & H2) (k & m & Hkm & H3 & H4).
  pose proof (NoDup_lookup _ _ _ _ Hn H1 H4). pose proof (NoDup_lookup _ _ _ _ Hn H2 H3). assert (i = j) by lia. congruence.
Qed.

Lemma before_sorted {A} (l : list A) : forall pre, StronglySorted (before (pre ++ l)) l.
Proof.
  induction l as [|x l IH]; intros pre; constructor.
  - specialize (IH (pre ++ [x])). by rewrite <- app_assoc in IH.
  - apply Forall_forall. intros y (k & Hk)%list_elem_of_lookup. exists (length pre), (length pre + S k)%nat.
    split; [lia|]. rewrite !lookup_app_r by lia. split; [by rewrite Nat.sub_diag|]. by rewrite Nat.add_sub_swap, Nat.sub_diag.
Qed.

Lemma sorted_filter {A} (R : A -> A -> Prop) (P : A -> Prop) `{forall x, Decision (P x)} l :
  StronglySorted R l -> StronglySorted R (filter P l).
Proof.
  induction 1 as [|x l Hs IH Hx]; [constructor|]. rewrite filter_cons. case_decide; [|done]. constructor; [done|].
  apply Forall_forall. intros y [_ Hy]%list_elem_of_filter. rewrite Forall_forall in Hx. by apply Hx.
Qed.

(** [Applied] lists, in registration order, the canonicalisers that contributed a match. *)
Lemma applied_exact r acc : registered r ->
  Forall (fun c => exists k cn, canons r !! k = Some cn /\ rank c = Z.of_nat k /\ owner c = Name cn) acc ->
  appliedNames acc = filter (fun n => n ∈ owner <$> acc) (Names r).
Proof.
  intros [Hnd _] Hf. unfold appliedNames. destruct (first_of_owner_spec acc ∅) as (H1 & H2 & H3).
  set (l := stable_sort (fun a b => rank a <? rank b) (first_of_owner ∅ acc)).
  assert (l ≡ₚ first_of_owner ∅ acc) as Hp by apply stable_sort_perm.
  assert (forall c, c ∈ l -> exists k, Names r !! k = Some (owner c) /\ rank c = Z.of_nat k) as Hl.
  { intros c Hc. rewrite Hp in Hc. rewrite Forall_forall in H2, Hf. destruct (Hf c (H2 c Hc)) as (k & cn & E1 & E2 & E3).
    exists k. unfold Names. by rewrite list_lookup_fmap, E1, E3. }
  assert (StronglySorted (fun a b => rank a <= rank b) l) as Hs by (apply stable_sort_sorted; intros; cbn in *; bsolve; lia).
  apply (StronglySorted_unique_strong (before (Names r))).
  - intros x y _ _. by apply before_antisymm.
  - clear -Hs Hl. induction Hs as [|x l Hs IH Hx]; cbn; constructor; [apply IH; intros; apply Hl; by right|].
    apply Forall_fmap. apply Forall_forall. intros y Hy. rewrite Forall_forall in Hx. specialize (Hx y Hy).
    destruct (Hl x) as (i & E1 & E2); [by left|]. destruct (Hl y) as (j & E3 & E4); [by right|]. exists i, j. split; [lia|done].
  - apply sorted_filter. apply (before_sorted (Names r) []).
  - apply NoDup_Permutation; [by rewrite Hp|by apply NoDup_filter|]. intros x. rewrite list_elem_of_filter.
    rewrite (list_elem_of_fmap owner l). rewrite <- list_elem_of_fmap. rewrite Hp, H3. split; [|set_solver].
    intros [Hx _]. split; [done|]. apply list_elem_of_fmap in Hx as (c & -> & Hc). rewrite Forall_forall in Hf.
    destruct (Hf c Hc) as (k & cn & E1 & E2 & ->). unfold Names. apply list_elem_of_fmap_2. by eapply list_elem_of_lookup_2.
Qed.

(** ** The properties of a pass *)

(** C14: Whatever the canonicalisers, as long as their matches lie in the buffer they were given, a pass that
    keeps its deltas succeeds on every input and option with known classes, and [Restore] gives back the
    input byte for byte: gated, overlapping, growing and empty matches, and the part of the input past
    the scanned prefix included. *)
Theorem canon_roundtrip r tool path inp o :
  Forall honest (canons r) -> addressable inp -> validateStrip (Strip o) = None -> KeepDeltas o = true ->
  exists res, Run r tool path inp o = Ok res /\ Restore (Canonical res) (default [] (Deltas res)) = Ok inp.
Proof.
  intros Hh Ha Hv Hk. destruct (decide (inp = [])) as [->|Hne]; [unfold Run; rewrite Hv; by eexists|].
  pose proof (run_spec r tool path inp o Hh Ha Hv Hne) as H. pose proof (splitCapped_app inp) as Hs. destruct (splitCapped inp) as [head tail].
  destruct H as (acc & -> & Hc & _). eexists. split; [done|]. rewrite Hk. cbn in *. rewrite restore_render; [by rewrite Hs|done|by rewrite Hs].
Qed.

(** C15: A pass changes nothing but accepted matches.  They are matches that an applicable canonicaliser
    reported in the scanned prefix, of a class that is switched on or structural, pairwise disjoint and
    never shorter than what replaces them; every other eligible match overlaps an accepted one that
    comes no later (leftmost first, then longest, then registration order).  Everything else, and all
    beyond the prefix, is copied, so the text never grows; [Applied] is, in registration order, exactly
    who contributed; the signature is that of the canonical text. *)
Theorem canon_confined r tool path inp o :
  registered r -> Forall honest (canons r) -> addressable inp -> validateStrip (Strip o) = None ->
  let '(head, tail) := splitCapped inp in
  let cands := collect r tool path head o in
  exists res ms, Run r tool path inp o = Ok res /\ Canonical res = render head 0 ms ++ tail /\
    chained (Z.of_nat (length head)) 0 ms /\ (length (Canonical res) <= length inp)%nat /\
    Forall (fun c => c ∈ cands /\ mClass (cMatch c) ∈ gateSet (Strip o)) ms /\
    (forall c, c ∈ cands -> eligible (gateSet (Strip o)) (cMatch c) -> c ∈ ms \/
       exists a, a ∈ ms /\ no_later a c /\ Offset (cMatch c) < Offset (cMatch a) + Len (cMatch a)) /\
    Applied res = filter (fun n => n ∈ owner <$> ms) (Names r) /\
    (Enabled (oMinHash o) = true -> inp <> [] -> rSignature res = signature_of (Canonical res) (oMinHash o)).
Proof.
  intros Hr Hh Ha Hv. destruct (decide (inp = [])) as [->|Hne].
  - cbn [splitCapped length Z.of_nat Z.leb Z.compare MaxInputBytes]. unfold Run. rewrite Hv. change (splitCapped []) with (@nil byte, @nil byte).
    eexists _, []. split; [done|]. cbn. split_and!; try done; try lia.
    + intros c Hc (_ & _ & He). pose proof (collect_in_range r tool path [] o Hh) as Hin. rewrite Forall_forall in Hin.
      destruct (Hin c Hc) as (H1 & H2 & H3). cbn in H3. lia.
    + symmetry. induction (Names r) as [|n l IH]; [done|]. rewrite filter_cons_False; [|by apply not_elem_of_nil]. exact IH.
  - pose proof (run_spec r tool path inp o Hh Ha Hv Hne) as H. pose proof (splitCapped_app inp) as Hs. destruct (splitCapped inp) as [head tail].
    cbn [fst snd] in Hs. destruct H as (acc & -> & Hc & Hf & Hm). eexists _, acc. split; [done|]. cbn [Canonical Applied rSignature].
    split; [done|]. split; [done|]. split.
    { pose proof (render_length head acc 0 ltac:(lia) Hc). rewrite <- Hs, !length_app. lia. }
    split; [done|]. split; [done|]. split; [|by intros -> _].
    apply applied_exact; [done|]. eapply Forall_impl; [exact Hf|]. intros c [(k & cn & f & m & H1 & _ & _ & _ & ->)%collect_from_elem _].
    by exists k, cn.
Qed.

(** Deltas that a canonical buffer of [n] bytes can carry. *)
Fixpoint deltas_ok (n prev : Z) (ds : list Delta) : Prop :=
  match ds with
  | [] => prev <= n
  | d :: ds => prev <= dOffset d /\ 0 <= dLen d /\ dOffset d + dLen d <= n /\ deltas_ok n (dOffset d + dLen d) ds
  end.

Lemma restore_loop_total canonical ds : Forall (fun d => - 2 ^ 63 <= dOffset d + dLen d < 2 ^ 63) ds ->
  forall last out prev, 0 <= prev <= Z.of_nat (length canonical) -> (forall l, last = Some l -> l <= prev) ->
  match restore_loop canonical ds last out prev with
  | Ok _ => deltas_ok (Z.of_nat (length canonical)) prev ds
  | Err e => ~ deltas_ok (Z.of_nat (length canonical)) prev ds /\ (e = ErrDeltaRange \/ e = ErrDeltaOrder)
  | Panic => False
  end.
Proof.
  intros Hf. induction Hf as [|d ds Hd Hf IH]; intros last out prev Hp Hl; cbn [restore_loop deltas_ok].
  - rewrite sub_int_in by lia. cbn. lia.
  - destruct (match last with Some l => _ | None => _ end) eqn:El.
    { split; [|by right]. intros (H & _). destruct last as [l|]; [|done]. specialize (Hl l eq_refl). bsolve. lia. }
    rewrite s64_fits by done. destruct (_ || _) eqn:Eo; [split; [|by left]; bsolve; lia|].
    bsolve. rewrite sub_int_in by lia. cbn [obind].
    specialize (IH (Some (dOffset d)) (out ++ slice canonical (Z.to_nat prev) (Z.to_nat (dOffset d)) ++ Original d) (dOffset d + dLen d)).
    destruct (restore_loop _ _ _ _ _); [|destruct IH as [? ?]; [lia|intros l [= <-]; lia|]; split; [intuition|done]|]; [|apply IH; [lia|intros l [= <-]; lia]].
    split; [lia|]. split; [lia|]. split; [lia|]. apply IH; [lia|]. intros l [= <-]. lia.
Qed.

(** C16: [Restore] answers on any canonical text and any deltas whose ends are machine integers: it succeeds
    exactly when they are ascending, disjoint and within the text, and otherwise reports a range or an order error. *)
Theorem restore_total canonical ds : Forall (fun d => - 2 ^ 63 <= dOffset d + dLen d < 2 ^ 63) ds ->
  match Restore canonical ds with
  | Ok _ => deltas_ok (Z.of_nat (length canonical)) 0 ds
  | Err e => ~ deltas_ok (Z.of_nat (length canonical)) 0 ds /\ (e = ErrDeltaRange \/ e = ErrDeltaOrder)
  | Panic => False
  end.
Proof.
  intros Hf. unfold Restore. destruct ds as [|d ds]; [cbn; lia|]. apply restore_loop_total; [done|lia|done].
Qed.

(** A length near the top of [int] wraps the end of a delta below zero, past the range check: the slice behind it panics. *)
Lemma restore_overflow_panics : Restore (str "abc") [MkDelta 1 (2 ^ 63 - 1) (str "x") ClassANSI] = Panic.
Proof. by vm_compute. Qed.

(** ** Line endings *)

(** Carriage returns up to a newline. *)
Fixpoint cr_then_lf (s : bytes) : bool :=
  match s with
  | c :: t => if bool_decide (c = x0a) then true else if bool_decide (c = x0d) then cr_then_lf t else false
  | [] => false
  end.

(** The text with every run of carriage returns before a newline dropped. *)
Fixpoint unix (s : bytes) : bytes :=
  match s with
  | [] => []
  | c :: t => if bool_decide (c = x0d) && cr_then_lf t then unix t else c :: unix t
  end.

(** The newlines, and those with a carriage return before them. *)
Fixpoint newlines (s : bytes) : nat :=
  match s with c :: t => ((if bool_decide (c = x0a) then 1 else 0) + newlines t)%nat | [] => O end.

Fixpoint cr_newlines (s : bytes) : nat :=
  match s with
  | c :: t => ((if bool_decide (c = x0d) && bool_decide (head t = Some x0a) then 1 else 0) + cr_newlines t)%nat
  | [] => O
  end.

Lemma cr_then_lf_run k t : cr_then_lf (replicate k x0d ++ x0a :: t) = true.
Proof. induction k as [|k IH]; cbn; [done|]. done. Qed.

Lemma unix_run k t : unix (replicate k x0d ++ x0a :: t) = x0a :: unix t.
Proof. induction k as [|k IH]; cbn; [done|]. by rewrite cr_then_lf_run. Qed.

Lemma cr_newlines_run k t : cr_newlines (replicate k x0d ++ x0a :: t) = ((if decide (k = 0) then 0 else 1) + cr_newlines t)%nat.
Proof.
  induction k as [|[|k] IH]; [done|done|]. cbn [replicate app cr_newlines] in *. rewrite IH. cbn [head]. by destruct (decide _).
Qed.

(** A line's body: no newline, and no carriage return at its end. *)
Definition body (l : bytes) : Prop := (x0a ∉ l) /\ last l <> Some x0d.

Lemma body_cons c l : body (c :: l) -> c <> x0a /\ (l <> [] -> body l) /\ (l = [] -> c <> x0d).
Proof.
  intros [H1 H2]. apply not_elem_of_cons in H1 as [H1 H3]. split; [done|]. split.
  - intros Hl. split; [done|]. destruct l; [done|]. done.
  - intros -> ->. done.
Qed.

Lemma cr_then_lf_body l r : body l -> l <> [] -> cr_then_lf (l ++ r) = false.
Proof.
  induction l as [|c l IH]; intros Hb Hn; [done|]. apply body_cons in Hb as (H1 & H2 & H3). cbn.
  rewrite bool_decide_false by done. case_bool_decide; [|done]. destruct l as [|d l]; [by destruct H3|]. apply IH; [by apply H2|done].
Qed.

Lemma unix_body l k t : body l -> unix (l ++ replicate k x0d ++ x0a :: t) = l ++ x0a :: unix t.
Proof.
  induction l as [|c l IH]; intros Hb; [apply unix_run|]. apply body_cons in Hb as (H1 & H2 & H3). cbn [unix app].
  destruct l as [|d l].
  - rewrite bool_decide_false by (by apply H3). cbn [app andb]. by rewrite unix_run.
  - rewrite cr_then_lf_body by (by try apply H2). rewrite andb_false_r, IH by (by apply H2). done.
Qed.

Lemma cr_newlines_body l k t : body l -> cr_newlines (l ++ replicate k x0d ++ x0a :: t) = ((if decide (k = 0) then 0 else 1) + cr_newlines t)%nat.
Proof.
  induction l as [|c l IH]; intros Hb; [apply cr_newlines_run|]. apply body_cons in Hb as (H1 & H2 & H3). cbn [cr_newlines app].
  destruct l as [|d l].
  - rewrite bool_decide_false by (by apply H3). cbn [app andb]. rewrite cr_newlines_run. done.
  - rewrite IH by (by apply H2). cbn [app head].
    destruct (body_cons d l (H2 ltac:(done))) as (Hd & _). rewrite (bool_decide_false (Some d = Some x0a)) by congruence. by rewrite andb_false_r.
Qed.

Lemma newlines_body l k t : body l -> newlines (l ++ replicate k x0d ++ x0a :: t) = S (newlines t).
Proof.
  intros [Hl _]. induction l as [|c l IH]; cbn [newlines app].
  - induction k as [|k IHk]; cbn; [done|]. done.
  - apply not_elem_of_cons in Hl as [H1 H2]. rewrite bool_decide_false by done. by apply IH.
Qed.

(** Without a newline there is nothing to do. *)
Lemma no_newline s : x0a ∉ s -> unix s = s /\ newlines s = 0%nat /\ cr_newlines s = 0%nat /\ cr_then_lf s = false.
Proof.
  induction s as [|c s IH]; intros Hs; [done|]. apply not_elem_of_cons in Hs as [H1 H2]. destruct (IH H2) as (E1 & E2 & E3 & E4). cbn.
  rewrite E1, E2, E3, E4, andb_false_r. rewrite (bool_decide_false (c = x0a)) by done. split; [done|]. split; [done|].
  split; [|by destruct (bool_decide _)]. rewrite (bool_decide_false (head s = Some x0a)); [by rewrite andb_false_r|].
  destruct s; [done|]. intros [= ->]. set_solver.
Qed.

(** The first line of a text. *)
Lemma first_line s : x0a ∈ s -> exists l k t, s = l ++ replicate k x0d ++ x0a :: t /\ body l.
Proof.
  induction s as [|c s IH]; intros Hs; [by apply not_elem_of_nil in Hs|]. destruct (decide (c = x0a)) as [->|Hc].
  - exists [], 0%nat, s. split; [done|]. split; [apply not_elem_of_nil|done].
  - apply elem_of_cons in Hs as [?|Hs]; [done|]. destruct (IH Hs) as (l & k & t & -> & Hb). destruct l as [|d l].
    + destruct (decide (c = x0d)) as [->|Hd]; [exists [], (S k), t; split; [done|]; split; [apply not_elem_of_nil|done]|].
      exists [c], k, t. split; [done|]. split; [set_solver|]. cbn. congruence.
    + exists (c :: d :: l), k, t. split; [done|]. destruct Hb as [Hb1 Hb2]. split; [set_solver|]. done.
Qed.

Lemma cr_back_spec inp n m : (m <= n)%nat -> (forall j, (m <= j < n)%nat -> inp !! j = Some x0d) ->
  (forall k, m = S k -> inp !! k <> Some x0d) -> cr_back inp n = m.
Proof.
  induction n as [|n IH]; intros Hm Hr Hb; cbn [cr_back]; [lia|]. destruct (decide (m = S n)) as [->|].
  - rewrite bool_decide_false by (by apply Hb). done.
  - rewrite bool_decide_true by (apply Hr; lia). apply IH; [lia|intros; apply Hr; lia|done].
Qed.

Lemma index_newline l t : x0a ∉ l -> Index (l ++ x0a :: t) [x0a] = Some (length l).
Proof.
  induction l as [|c l IH]; intros Hl; [done|]. apply not_elem_of_cons in Hl as [H1 H2]. cbn [app Index length].
  assert (HasPrefix (c :: l ++ x0a :: t) [x0a] = false) as -> by (unfold HasPrefix; apply bool_decide_eq_false; cbn; congruence). by rewrite IH.
Qed.

Lemma index_no_newline s : x0a ∉ s -> Index s [x0a] = None.
Proof.
  induction s as [|c s IH]; intros Hs; [done|]. apply not_elem_of_cons in Hs as [H1 H2]. cbn [Index].
  assert (HasPrefix (c :: s) [x0a] = false) as -> by (unfold HasPrefix; apply bool_decide_eq_false; cbn; congruence). by rewrite IH.
Qed.

(** The canonicaliser's matches over the rest [s] of a text, one line at a time. *)
Lemma crlf_line fuel pre l k t : body l -> (pre = [] \/ last pre = Some x0a) ->
  crlf_loop (S fuel) (pre ++ l ++ replicate k x0d ++ x0a :: t) (length pre) =
    (if decide (k = 0)%nat then [] else [MkMatch (Z.of_nat (length pre + length l)) (Z.of_nat (S k)) lf ClassCRLF]) ++
    crlf_loop fuel ((pre ++ l ++ replicate k x0d ++ [x0a]) ++ t) (length (pre ++ l ++ replicate k x0d ++ [x0a])).
Proof.
  intros [Hb1 Hb2] Hpre. cbn [crlf_loop]. rewrite drop_app_length.
  rewrite (app_assoc l), index_newline, length_app, length_replicate
    by (intros [?|Hx%elem_of_replicate]%elem_of_app; [done|by destruct Hx]).
  set (inp := pre ++ (l ++ replicate k x0d) ++ x0a :: t).
  assert ((pre ++ l ++ replicate k x0d ++ [x0a]) ++ t = inp) as Ei by (unfold inp; by rewrite <- !app_assoc).
  rewrite Ei. f_equal; [|f_equal; rewrite !length_app, length_replicate; cbn; lia].
  assert (forall j, (length pre + length l <= j < length pre + length l + k)%nat -> inp !! j = Some x0d) as Hrun.
  { intros j Hj. unfold inp. rewrite <- app_assoc, !lookup_app_r by lia. rewrite lookup_app_l by (rewrite length_replicate; lia).
    apply lookup_replicate_2. lia. }
  assert (forall j, (length pre + length l = S j)%nat -> inp !! j <> Some x0d) as Hedge.
  { intros j Hj. unfold inp. rewrite <- app_assoc. destruct (decide (l = [])) as [->|Hl].
    - destruct Hpre as [->|Hpre]; [cbn in Hj; lia|]. rewrite lookup_app_l by (cbn in Hj; lia). rewrite last_lookup in Hpre. cbn in Hj.
      replace j with (pred (length pre)) by lia. congruence.
    - assert (0 < length l)%nat by (destruct l; [done|cbn; lia]). rewrite lookup_app_r, lookup_app_l by lia. rewrite last_lookup in Hb2.
      replace (j - length pre)%nat with (pred (length l)) by lia. done. }
  case_decide as Hk.
  - subst k. destruct (Nat.ltb_spec 0 (length pre + (length l + 0))); [|done]. cbn [andb]. rewrite bool_decide_false; [done|]. apply Hedge. lia.
  - rewrite (proj2 (Nat.ltb_lt _ _)) by lia. cbn [andb]. rewrite bool_decide_true by (apply Hrun; lia).
    rewrite (cr_back_spec inp _ (length pre + length l)); [|lia|intros; apply Hrun; lia|done]. do 2 f_equal; lia.
Qed.

Abbreviation tag name := (fun m => MkCand m 0 name).

Lemma slice_mid_nat (pre mid post : bytes) lo hi : lo = length pre -> hi = (length pre + length mid)%nat -> slice (pre ++ mid ++ post) lo hi = mid.
Proof. intros -> ->. unfold slice. rewrite drop_app_length, Nat.add_comm, Nat.add_sub. by rewrite take_app_length. Qed.

Lemma is_cr_run k : isCRRunLineEnding (replicate (S k) x0d ++ [x0a]) = true.
Proof.
  unfold isCRRunLineEnding. rewrite length_app, length_replicate. cbn [length].
  rewrite (proj2 (Nat.ltb_ge _ _)) by lia. replace (S k + 1 - 1)%nat with (length (replicate (S k) x0d)) by (rewrite length_replicate; lia).
  rewrite lookup_app_r, Nat.sub_diag by lia. cbn [lookup list_lookup]. rewrite bool_decide_true by done. cbn [orb negb].
  rewrite take_app_length. apply forallb_forall. intros x Hx. apply list_elem_of_In, elem_of_replicate in Hx as [-> _]. done.
Qed.

(** Starting earlier copies more. *)
Lemma chained_earlier n p q ms : p <= q -> chained n q ms -> chained n p ms.
Proof. destruct ms; cbn; lia || (intros ? (? & ?); split; [lia|done]). Qed.

Lemma deltas_earlier inp p q at_ ms : deltas_of inp p at_ ms = deltas_of inp q (at_ + (q - p)) ms.
Proof. destruct ms as [|c ms]; [done|]. cbn. by replace (at_ + (q - p) + (Offset (cMatch c) - q)) with (at_ + (Offset (cMatch c) - p)) by lia. Qed.

Lemma slice_split (b : bytes) (x y z : nat) : (x <= y <= z)%nat -> (z <= length b)%nat -> slice b x z = slice b x y ++ slice b y z.
Proof.
  intros H1 H2. unfold slice. rewrite <- (take_drop (y - x) (take (z - x) (drop x b))). rewrite take_take, Nat.min_l by lia. f_equal.
  rewrite skipn_firstn_comm, drop_drop. f_equal; [lia|]. f_equal. lia.
Qed.

Lemma render_earlier inp p q ms : 0 <= p <= q -> q <= Z.of_nat (length inp) -> chained (Z.of_nat (length inp)) q ms ->
  render inp p ms = slice inp (Z.to_nat p) (Z.to_nat q) ++ render inp q ms.
Proof.
  intros Hp Hq Hc. destruct ms as [|c ms]; cbn [render chained] in *; [rewrite (drop_slice inp (Z.to_nat p) (Z.to_nat q)) by lia; done|].
  rewrite (slice_split inp (Z.to_nat p) (Z.to_nat q)) by lia. by rewrite <- app_assoc.
Qed.

(** What holds of the matches of the line-ending canonicaliser over the rest [s] of a text after [pre]. *)
Definition crlf_good (pre s : bytes) (cs : list candidate) : Prop :=
  chained (Z.of_nat (length (pre ++ s))) (Z.of_nat (length pre)) cs /\ render (pre ++ s) (Z.of_nat (length pre)) cs = unix s /\
  length cs = cr_newlines s /\ Forall (fun c => mClass (cMatch c) = ClassCRLF) cs /\
  forall at_, Forall (fun d => dClass d = ClassCRLF /\ isCRRunLineEnding (Original d) = true) (deltas_of (pre ++ s) (Z.of_nat (length pre)) at_ cs).

(** One line more in front. *)
Lemma crlf_good_line name pre l k t cs : body l -> crlf_good (pre ++ l ++ replicate k x0d ++ [x0a]) t cs ->
  crlf_good pre (l ++ replicate k x0d ++ x0a :: t)
    ((tag name <$> if decide (k = 0)%nat then [] else [MkMatch (Z.of_nat (length pre + length l)) (Z.of_nat (S k)) lf ClassCRLF]) ++ cs).
Proof.
  intros Hb. unfold crlf_good. set (pre' := pre ++ l ++ replicate k x0d ++ [x0a]).
  assert (pre ++ l ++ replicate k x0d ++ x0a :: t = pre' ++ t) as Ei by (unfold pre'; by rewrite <- !app_assoc). rewrite Ei.
  assert (length pre' = length pre + length l + k + 1)%nat as Hlen by (unfold pre'; rewrite !length_app, length_replicate; cbn; lia).
  intros (C1 & C2 & C3 & C4 & C5). rewrite unix_body, cr_newlines_body by done.
  assert (Z.of_nat (length (pre' ++ t)) = Z.of_nat (length pre') + Z.of_nat (length t)) as Hn by (rewrite length_app; lia).
  case_decide as Hk; cbn [app fmap list_fmap].
  - subst k. split; [by eapply chained_earlier; [|exact C1]; lia|]. split; [|split; [done|split; [done|]]].
    + rewrite (render_earlier _ _ (Z.of_nat (length pre'))), C2 by (done || lia). rewrite !Nat2Z.id, <- Ei. cbn [replicate app].
      change (l ++ x0a :: t) with (l ++ [x0a] ++ t). rewrite (app_assoc l), (slice_mid_nat pre (l ++ [x0a])) by (rewrite ?length_app in *; cbn in *; lia).
      by rewrite <- app_assoc.
    + intros at_. rewrite (deltas_earlier _ _ (Z.of_nat (length pre'))). apply C5.
  - cbn [chained render deltas_of length cMatch Offset Len Token mClass lf].
    replace (Z.of_nat (length pre + length l) + Z.of_nat (S k)) with (Z.of_nat (length pre')) by lia.
    split; [split_and!; try lia; done|]. split; [|split; [by rewrite C3|split; [by constructor|]]].
    + rewrite C2, !Nat2Z.id, <- Ei. rewrite (slice_mid_nat pre l) by lia. done.
    + intros at_. constructor; [|apply C5]. cbn [dClass Original]. split; [done|]. rewrite !Nat2Z.id, <- Ei.
      rewrite !(app_assoc pre), (app_assoc (replicate k x0d) [x0a] t : replicate k x0d ++ x0a :: t = _).
      rewrite slice_mid_nat by (rewrite ?length_app, ?length_replicate; cbn; lia). destruct k; [done|]. apply is_cr_run.
Qed.

Lemma crlf_all name n s : (length s <= n)%nat -> forall pre fuel, (n < fuel)%nat -> (pre = [] \/ last pre = Some x0a) ->
  crlf_good pre s (tag name <$> crlf_loop fuel (pre ++ s) (length pre)).
Proof.
  revert s. induction n as [|n IH]; intros s Hs pre [|fuel] Hfuel Hpre; try lia;
    (destruct (decide (x0a ∈ s)) as [Hin|Hin]; [|cbn [crlf_loop]; rewrite drop_app_length, index_no_newline by done;
       destruct (no_newline s Hin) as (E1 & _ & E3 & _); unfold crlf_good; cbn; rewrite E1, E3, Nat2Z.id, drop_app_length;
       split_and!; try done; rewrite length_app; lia]).
  { destruct s; [by apply not_elem_of_nil in Hin|cbn in Hs; lia]. }
  destruct (first_line s Hin) as (l & k & t & -> & Hb). rewrite (crlf_line fuel pre l k t Hb Hpre), fmap_app.
  apply crlf_good_line; [done|]. apply IH; [rewrite !length_app in Hs; cbn in Hs; lia|lia|]. right. by rewrite !app_assoc, last_snoc.
Qed.

Lemma chained_in_range n ms : forall p, 0 <= p -> chained n p ms -> Forall (fun c => in_range n (cMatch c)) ms /\ Forall (fun c => p <= Offset (cMatch c)) ms.
Proof.
  induction ms as [|c ms IH]; intros p Hp Hc; [done|]. destruct Hc as (H1 & H2 & H3 & H4 & Hc). cbn zeta in *.
  destruct (IH (Offset (cMatch c) + Len (cMatch c)) ltac:(lia) Hc) as [I1 I2]. split; constructor; try done; [unfold in_range; lia|]. eapply Forall_impl; [exact I2|]. intros x Hx. cbn in *. lia.
Qed.

(** Disjoint ascending matches are in order, and all accepted. *)
Lemma chained_sorted n ms : forall p, 0 <= p -> chained n p ms -> StronglySorted (fun x y => cand_less y x = false) ms.
Proof.
  induction ms as [|c ms IH]; intros p Hp Hc; [constructor|]. destruct Hc as (H1 & H2 & H3 & H4 & Hc). cbn zeta in *.
  constructor; [by eapply IH; [|exact Hc]; lia|]. destruct (chained_in_range n ms (Offset (cMatch c) + Len (cMatch c)) ltac:(lia) Hc) as [_ Hf].
  eapply Forall_impl; [exact Hf|]. intros x Hx. cbn in Hx. unfold cand_less. repeat case_match; bsolve; lia.
Qed.

Lemma accept_chained_all gate n ms : n < 2 ^ 63 -> Forall (fun c => mClass (cMatch c) ∈ gate) ms ->
  forall p, 0 <= p -> chained n p ms -> accept_loop gate ms p = ms.
Proof.
  intros Hn. induction 1 as [|c ms Hg _ IH]; intros p Hp Hc; [done|]. destruct Hc as (H1 & H2 & H3 & H4 & Hc). cbn zeta in *.
  cbn [accept_loop]. rewrite bool_decide_true by done. cbn [negb].
  rewrite Z.gtb_ltb, (proj2 (Z.ltb_ge _ _)), (proj2 (Z.eqb_neq _ _)), (proj2 (Z.ltb_ge _ _)) by lia. f_equal.
  unfold End. rewrite s64_fits by lia. apply IH; [lia|done].
Qed.

Lemma accept_all gate n ms : n < 2 ^ 63 -> Forall (fun c => mClass (cMatch c) ∈ gate) ms -> chained n 0 ms ->
  acceptCandidates (sortCandidates ms) gate = ms.
Proof.
  intros Hn Hg Hc. unfold sortCandidates. rewrite stable_sort_id by (by eapply chained_sorted; [|exact Hc]).
  by eapply accept_chained_all; [exact Hn| |lia|].
Qed.

Lemma crlf_gated strip : ClassCRLF ∈ gateSet strip.
Proof.
  destruct strip as [l|]; unfold gateSet, knownClasses, alwaysOn; [|by apply elem_of_list_to_set; left].
  apply elem_of_union_r, elem_of_union_l. by apply elem_of_singleton.
Qed.

Lemma crlf_matches_good inp o name : crlf_good [] inp (tag name <$> crlf_Matches inp o).
Proof. apply (crlf_all name (length inp) inp); [done|lia|by left]. Qed.

Lemma crlf_honest : honest crlfCanon.
Proof.
  intros f inp o [= <-]. destruct (crlf_matches_good inp o []) as (Hc & _). cbn [length app] in Hc.
  destruct (chained_in_range _ _ 0 ltac:(lia) Hc) as [H _]. apply Forall_fmap in H. rewrite <- list_fmap_compose in H. change (cMatch ∘ tag []) with (@id Match) in H. by rewrite list_fmap_id in H.
Qed.

Lemma unix_idempotent s : unix (unix s) = unix s /\ newlines (unix s) = newlines s /\ cr_newlines (unix s) = 0%nat.
Proof.
  induction s as [s IH] using (induction_ltof1 _ length). unfold ltof in IH. destruct (decide (x0a ∈ s)) as [Hin|Hin].
  - destruct (first_line s Hin) as (l & k & t & -> & Hb). destruct (IH t) as (E1 & E2 & E3); [rewrite !length_app; cbn; lia|].
    rewrite unix_body, newlines_body by done.
    pose proof (unix_body l 0 (unix t) Hb) as H1. pose proof (newlines_body l 0 (unix t) Hb) as H2. pose proof (cr_newlines_body l 0 (unix t) Hb) as H3.
    cbn [replicate app] in *. rewrite H1, H2, H3, E1, E2, E3. done.
  - destruct (no_newline s Hin) as (E1 & E2 & E3 & _). rewrite !E1, E2, E3. done.
Qed.

(** The line-ending canonicaliser, on any text within the scanned prefix and under any options, drops
    exactly the carriage returns that stand in a run before a newline; doing it again changes nothing and no
    such run is left.  With the deltas kept, [LineEndingClass] reads back from them whether no, every, or
    only some newline of the original had a carriage return before it. *)
Theorem crlf_exact inp o : Z.of_nat (length inp) <= MaxInputBytes ->
  exists res, canonicalizeVia crlf_Matches nameCRLF inp o = Ok res /\ Canonical res = unix inp /\
    unix (Canonical res) = Canonical res /\ cr_newlines (Canonical res) = 0%nat /\
    (KeepDeltas o = true -> LineEndingClass (default [] (Deltas res)) (Z.of_nat (newlines (Canonical res))) =
       if (cr_newlines inp =? 0)%nat then str "lf"
       else if (cr_newlines inp =? newlines inp)%nat then str "crlf" else str "mixed").
Proof.
  intros Hmax. unfold canonicalizeVia. case_bool_decide as Hn; [subst; by eexists|].
  assert (splitCapped inp = (inp, [])) as Hs by (unfold splitCapped; by rewrite (proj2 (Z.leb_le _ _))).
  destruct (crlf_matches_good inp o nameCRLF) as (Hc & Hu & Hl & Hk & Hd). cbn [app length] in *.
  unfold compose. rewrite Hs. cbn [fst].
  assert (addressable inp) as Ha by (unfold addressable, MaxInputBytes in *; lia).
  rewrite (accept_all _ (Z.of_nat (length inp))); [|done| |done].
  2: { eapply Forall_impl; [exact Hk|]. cbn. intros c ->. apply crlf_gated. }
  rewrite (applyMatches_spec (E:=canon_error) inp (KeepDeltas o) _ Ha Hc). cbn [obind fst snd].
  eexists. split; [done|]. cbn [Canonical Deltas]. change (Z.of_nat 0) with 0 in *. rewrite Hu, app_nil_r. destruct (unix_idempotent inp) as (E1 & E2 & E3).
  split; [done|]. split; [done|]. split; [done|]. intros ->. cbn [default from_option id]. rewrite E2. unfold LineEndingClass.
  assert (forall ds, Forall (fun d => dClass d = ClassCRLF /\ isCRRunLineEnding (Original d) = true) ds ->
    List.filter (fun d => bool_decide (dClass d = ClassCRLF) && isCRRunLineEnding (Original d)) ds = ds) as Hfil.
  { induction 1 as [|d ds [H1 H2] _ IH]; [done|]. cbn [List.filter]. rewrite (bool_decide_true _ H1), H2. cbn [andb]. by rewrite IH. }
  rewrite Hfil by apply Hd.
  assert (forall at_ p ms, length (deltas_of inp p at_ ms) = length ms) as Hdl by (intros at_ p ms; revert at_ p; induction ms; intros; cbn; [done|by rewrite IHms]).
  rewrite Hdl, Hl. destruct (Nat.eqb_spec (cr_newlines inp) 0) as [->|Hz]; [done|]. rewrite (proj2 (Z.eqb_neq _ _)) by lia.
  destruct (Nat.eqb_spec (cr_newlines inp) (newlines inp)); [by rewrite (proj2 (Z.eqb_eq _ _)) by lia|by rewrite (proj2 (Z.eqb_neq _ _)) by lia].
Qed.

(** ** Samples *)

Definition ex_registry : registry := Default [crlfCanon] (MkCanonicalizeCfg false [] (MkMinHashCfg false 0 0)).
Definition ex_options : Options := MkCanonOptions (Some [ClassANSI]) true (MkOptions false 0 0 0).
Definition ex_input : bytes := str "ab" ++ [x0d; x0a; x0d; x0d; x0a] ++ str "c".

Lemma ex_registered : registered ex_registry /\ canons ex_registry = [crlfCanon].
Proof. split; [|done]. apply (registered_register NewRegistry (Some crlfCanon)), registered_new. Qed.

Lemma canon_roundtrip_witness : exists res, Run ex_registry (str "Bash") [] ex_input ex_options = Ok res /\
  Restore (Canonical res) (default [] (Deltas res)) = Ok ex_input.
Proof.
  apply (canon_roundtrip ex_registry (str "Bash") [] ex_input ex_options); [|by vm_compute|by vm_compute|done].
  repeat constructor. exact crlf_honest.
Defined.

Lemma canon_confined_witness :
  let '(head, tail) := splitCapped ex_input in
  let cands := collect ex_registry (str "Bash") [] head ex_options in
  exists res ms, Run ex_registry (str "Bash") [] ex_input ex_options = Ok res /\ Canonical res = render head 0 ms ++ tail /\
    chained (Z.of_nat (length head)) 0 ms /\ (length (Canonical res) <= length ex_input)%nat /\
    Forall (fun c => c ∈ cands /\ mClass (cMatch c) ∈ gateSet (Strip ex_options)) ms /\
    (forall c, c ∈ cands -> eligible (gateSet (Strip ex_options)) (cMatch c) -> c ∈ ms \/
       exists a, a ∈ ms /\ no_later a c /\ Offset (cMatch c) < Offset (cMatch a) + Len (cMatch a)) /\
    Applied res = filter (fun n => n ∈ owner <$> ms) (Names ex_registry) /\
    (Enabled (oMinHash ex_options) = true -> ex_input <> [] -> rSignature res = signature_of (Canonical res) (oMinHash ex_options)).
Proof.
  apply (canon_confined ex_registry (str "Bash") [] ex_input ex_options); [exact (proj1 ex_registered)| |by vm_compute|by vm_compute].
  repeat constructor. exact crlf_honest.
Defined.

Lemma restore_total_witness : match Restore (str "a<ts>b") [MkDelta 1 4 (str "12:00:00") ClassTimestamps] with
  | Ok _ => deltas_ok 6 0 [MkDelta 1 4 (str "12:00:00") ClassTimestamps]
  | Err e => ~ deltas_ok 6 0 [MkDelta 1 4 (str "12:00:00") ClassTimestamps] /\ (e = ErrDeltaRange \/ e = ErrDeltaOrder)
  | Panic => False
  end.
Proof. apply (restore_total (str "a<ts>b") [MkDelta 1 4 (str "12:00:00") ClassTimestamps]). repeat constructor; cbn; lia. Defined.

Lemma crlf_exact_witness : exists res, canonicalizeVia crlf_Matches nameCRLF ex_input ex_options = Ok res /\ Canonical res = unix ex_input /\
  unix (Canonical res) = Canonical res /\ cr_newlines (Canonical res) = 0%nat /\
  (KeepDeltas ex_options = true -> LineEndingClass (default [] (Deltas res)) (Z.of_nat (newlines (Canonical res))) =
     if (cr_newlines ex_input =? 0)%nat then str "lf"
     else if (cr_newlines ex_input =? newlines ex_input)%nat then str "crlf" else str "mixed").
Proof. apply (crlf_exact ex_input ex_options). by vm_compute. Defined.
