(* ===== verification/Scheduler.v ===== *)
(** * The compaction scheduler

    Models [src/internal/scheduler] but for its changepoint detector: the types ([types.go]), thresholds
    ([thresholds.go]), cache regimes ([cacheregime.go]), the cache clock ([ttl.go]), the cadence
    ([youngdaly.go]), the choice of the cut ([pselect.go]), [Evaluate] ([evaluate.go]), the ranking of
    droppable blocks ([dropclass.go]), the capability register ([unsupported.go]), the write policy
    ([skirental.go]) and the warm prior ([warmprior.go]).  A float64 is its bit pattern, an int or
    [UnixMilli] a [Z] whose differences wrap; products are rounded before they are added.  What Go leaves to
    the implementation, the conversion to an integer of a float out of range, and [math.Exp2], are parameters.
    Fields that nothing here reads ([MaxOutputTokens], [ExpectedRemainingReads], [Posterior], the detector's
    configuration and [DetectAfterSeconds]) are left out. *)

From S2P Require Import Prelude GoLib Core Frame GoStrings F64Ops GoSort.
From Stdlib Require Import SpecFloat.

(** ** Float helpers *)

(** [float64(n)] of a signed integer. *)
Definition fint (n : Z) : Z := if n <? 0 then Float.opp (F64.of_int (- n)) else F64.of_int n.

(** [math.Sqrt], correctly rounded. *)
Definition fsqrt (v : Z) : Z := F64.of_sf (SFsqrt 53 1024 (F64.to_sf v)).

Definition isNaN (v : Z) : bool := F64.isNaN v.
Definition isInf (v : Z) : bool := match F64.classify v with F64.Inf _ => true | _ => false end.

(** [v == w]. *)
Definition feq (v w : Z) : bool := negb (Float.ne v w).

(** The builtins [max] and [min]: a NaN wins, and so does the zero of the right sign. *)
Definition fmax (v w : Z) : Z :=
  match F64.cmp v w with None => if isNaN v then v else w | Some Lt => w | Some Gt => v | Some Eq => Z.land v w end.
Definition fmin (v w : Z) : Z :=
  match F64.cmp v w with None => if isNaN v then v else w | Some Lt => v | Some Gt => w | Some Eq => Z.lor v w end.

Example float_helper_vectors :
  (fint (-3), fsqrt (F64.of_int 2), fmax (Float.opp 0) 0, fmin (Float.opp 0) 0, fmax (F64.of_int 3) (F64.of_int 2), feq 0 (Float.opp 0))
  = (0xc008000000000000, 0x3ff6a09e667f3bcd, 0, 0x8000000000000000, F64.of_int 3, true).
Proof. vm_compute. reflexivity. Qed.

(** ** Types ([types.go], [config.go]) *)

Inductive TriggerReason :=
  | TriggerSoftFloor | TriggerChangepoint | TriggerYoungDaly | TriggerHardCeiling | TriggerIdleColdCache | TriggerCacheExpiring.

Inductive TTLState := TTLWarm | TTLExpiring | TTLCold | TTLUnknown.
Inductive Urgency := UrgencyNone | UrgencyAdvisory | UrgencyNow.

Inductive BackgroundTask :=
  | BackgroundAdvanceFrontier | BackgroundGC | BackgroundPrecomputeSlice | BackgroundRefreshDelta
  | BackgroundRebuildBloom | BackgroundCompactDAG.

#[global] Instance TriggerReason_eq_dec : EqDecision TriggerReason. Proof. solve_decision. Defined.
#[global] Instance TTLState_eq_dec : EqDecision TTLState. Proof. solve_decision. Defined.
#[global] Instance Urgency_eq_dec : EqDecision Urgency. Proof. solve_decision. Defined.

Record ChangepointState := MkChangepoint { RunLength : Z; ProbChangepoint : Z; AtChangepoint : bool }.

Record Candidate := MkCandidate {
  Pos : Z; Turn : Z; SegmentID : Z; RoundBoundary : bool; ReclaimableTokens : Z; Coupling : Z
}.

#[global] Instance Candidate_eq_dec : EqDecision Candidate. Proof. solve_decision. Defined.

Record YoungDalyCfg := MkYoungDalyCfg { ydEnabled : bool; ydMeasuredDeltaSeconds : option Z }.
Record CacheCfg := MkCacheCfg { cacheReadMultiplier : Z; cacheWriteMultiplier : Z; TTLSeconds : Z }.
Record IdleCfg := MkIdleCfg { BackgroundWork : bool; DeepCutWhenCold : bool }.
Record SchedulerCfg := MkSchedulerCfg {
  SoftFloorPct : Z; HardCeilingMargin : Z; cYoungDaly : YoungDalyCfg; cCache : CacheCfg; cIdle : IdleCfg
}.

Record CacheRegime := MkRegime {
  TTLMinSeconds : Z; TTLMaxSeconds : Z; ReadMultiplier : Z; WriteMultiplier : Z; Disabled : bool; rgSource : bytes
}.

Record Inputs := MkInputs {
  Now : Z; ContextTokens : Z; iEffectiveWindow : Z; LastAPICallTS : Z; LastCacheWriteTS : Z;
  BurnRateTokensPerMin : Z; MeasuredDeltaSeconds : option Z; Changepoint : ChangepointState;
  Candidates : list Candidate; FrontierTurn : Z; ResidualTokens : Z; Cfg : SchedulerCfg; LastCompactionTS : Z;
  CouplingLambda : Z; Regime : CacheRegime; LastRequestStartTS : Z; EffortChanged : bool;
  ExpiringTriggerFraction : Z; AssumeMaxTTLSeconds : Z; HostTriggerAbsent : bool
}.

(** [Reasons] and [Background] are only told apart from nil by their emptiness. *)
Record Decision := MkDecision {
  ShouldCompact : bool; Reasons : list TriggerReason; P : Candidate; PScore : Z; Breakdown : gmap bytes Z;
  dUrgency : Urgency; dTTL : TTLState; YoungDalySeconds : Z; Background : list BackgroundTask;
  SoftFloorTokens : Z; HardCeilingTokens : Z
}.

Definition zero_candidate : Candidate := MkCandidate 0 0 0 false 0 0.

(** ** Thresholds ([thresholds.go]) *)

Definition HostAutoCompactBuffer : Z := 13000.
Definition HostMaxOutputCap : Z := 20000.
Definition HostDefaultContextWindow : Z := 200000.
Definition HostDefaultMaxOutput : Z := 32000.

Definition EffectiveWindow (contextWindow maxOutputTokens : Z) : Z :=
  if contextWindow <=? 0 then 0
  else
    let outputCap := if maxOutputTokens <? 0 then 0 else maxOutputTokens in
    let outputCap := if outputCap >? HostMaxOutputCap then HostMaxOutputCap else outputCap in
    let ew := s64 (contextWindow - outputCap) in
    if ew >? 0 then ew else 0.

Section Conversion.
(** The integer a float outside the range of [int64] converts to. *)
Context (out_of_range : Z -> Z).

(** [core.Tokens(v)]. *)
Definition to_tokens (v : Z) : Z :=
  match F64.classify v with
  | F64.Fin _ _ _ =>
      let t := F64.to_int v in if (- 2 ^ 63 <=? t) && (t <? 2 ^ 63) then t else out_of_range v
  | _ => out_of_range v
  end.

Definition SoftFloor (effectiveWindow : Z) (cfg : SchedulerCfg) : Z :=
  if (effectiveWindow <=? 0) || F64.le_int (SoftFloorPct cfg) 0 then 0
  else to_tokens (Float.mul (SoftFloorPct cfg) (fint effectiveWindow)).

Definition HardCeiling (effectiveWindow : Z) (cfg : SchedulerCfg) : Z :=
  if effectiveWindow <=? 0 then 0
  else
    let hc := s64 (s64 (effectiveWindow - HostAutoCompactBuffer) - HardCeilingMargin cfg) in
    let hc := if hc <? 1 then 1 else hc in
    if hc >? effectiveWindow then effectiveWindow else hc.

(** ** Cache regimes ([cacheregime.go]) *)

Definition HostOneHourTTLSeconds : Z := 3600.
Definition HostOneHourWriteMultiplier : Z := F64.of_int 2.

Definition envDisablePromptCaching : bytes := str "DISABLE_PROMPT_CACHING".
Definition envForcePromptCaching5M : bytes := str "FORCE_PROMPT_CACHING_5M".
Definition envEnablePromptCaching1H : bytes := str "ENABLE_PROMPT_CACHING_1H".

Definition regimeSourceDisabled : bytes := str "disabled".
Definition regimeSourceSubagent : bytes := str "subagent_5m".
Definition regimeSourceForce5M : bytes := str "force_5m".
Definition regimeSourceEnable1H : bytes := str "enable_1h".
Definition regimeSourceUnknown : bytes := str "unknown".

Definition modelFamilies : list bytes := [str "OPUS"; str "SONNET"; str "HAIKU"; str "FABLE"; str "MYTHOS"].

(** [strings.ToUpper] and [strings.ToLower], as far as ASCII words can tell: the letters, and the four
    runes outside ASCII whose upper or lower case is an ASCII letter.  Any other rune stays outside. *)
Fixpoint upper (s : bytes) : bytes :=
  match s with
  | xc4 :: xb1 :: s => x49 :: upper s
  | xc5 :: xbf :: s => x53 :: upper s
  | c :: s => (if (0x61 <=? b2z c) && (b2z c <=? 0x7a) then z2b (b2z c - 32) else c) :: upper s
  | [] => []
  end.

Fixpoint lower (s : bytes) : bytes :=
  match s with
  | xc4 :: xb0 :: s => x69 :: lower s
  | xe2 :: x84 :: xaa :: s => x6b :: lower s
  | c :: s => (if (0x41 <=? b2z c) && (b2z c <=? 0x5a) then z2b (b2z c + 32) else c) :: lower s
  | [] => []
  end.

Definition modelFamily (model : bytes) : option bytes :=
  if bool_decide (model = []) then None else List.find (Contains (upper model)) modelFamilies.

Definition envTruthy (v : bytes) : bool :=
  negb (bool_decide (lower (TrimSpace v) ∈ [[]; str "0"; str "false"; str "no"; str "off"])).

Definition disabledRegime : CacheRegime := MkRegime 0 0 Float.one Float.one true regimeSourceDisabled.

Definition fiveMinuteRegime (cfg : SchedulerCfg) (source : bytes) : CacheRegime :=
  let c := cCache cfg in MkRegime (TTLSeconds c) (TTLSeconds c) (cacheReadMultiplier c) (cacheWriteMultiplier c) false source.

Definition oneHourRegime (cfg : SchedulerCfg) : CacheRegime :=
  MkRegime HostOneHourTTLSeconds HostOneHourTTLSeconds (cacheReadMultiplier (cCache cfg)) HostOneHourWriteMultiplier false regimeSourceEnable1H.

Definition UnknownRegime (cfg : SchedulerCfg) (assumeMaxTTLSeconds : Z) : CacheRegime :=
  let c := cCache cfg in
  let ttlMax := if assumeMaxTTLSeconds <=? 0 then HostOneHourTTLSeconds else assumeMaxTTLSeconds in
  MkRegime (TTLSeconds c) (Z.max ttlMax (TTLSeconds c)) (cacheReadMultiplier c)
    (fmax (cacheWriteMultiplier c) HostOneHourWriteMultiplier) false regimeSourceUnknown.

(** A nil [getenv] is [None]. *)
Definition ResolveCacheRegime (getenv : option (bytes -> bytes)) (cfg : SchedulerCfg) (model : bytes) (subagent : bool)
    (assumeMaxTTLSeconds : Z) : CacheRegime :=
  let getenv := default (fun _ => []) getenv in
  if envTruthy (getenv envDisablePromptCaching) then disabledRegime
  else if match modelFamily model with Some fam => envTruthy (getenv (envDisablePromptCaching ++ str "_" ++ fam)) | None => false end
  then disabledRegime
  else if subagent then fiveMinuteRegime cfg regimeSourceSubagent
  else if envTruthy (getenv envForcePromptCaching5M) then fiveMinuteRegime cfg regimeSourceForce5M
  else if envTruthy (getenv envEnablePromptCaching1H) then oneHourRegime cfg
  else UnknownRegime cfg assumeMaxTTLSeconds.

(** ** The cache clock ([ttl.go]) *)

Definition ttlExpiringFraction : Z := Float.decimal 5 1.
Definition millisPerSecond : Z := F64.of_int 1000.

Definition resolveTTLAnchor (lastRequestStartTS lastAPICallTS : Z) : Z :=
  if lastRequestStartTS >? 0 then lastRequestStartTS else lastAPICallTS.

Definition ClassifyTTL (now anchorTS : Z) (reg : CacheRegime) (effortChanged : bool) : TTLState * Z :=
  if (anchorTS <=? 0) || (TTLMaxSeconds reg <=? 0) then (TTLUnknown, Float.zero)
  else
    let gap := F64.div (fint (s64 (now - anchorTS))) millisPerSecond in
    let gap := if F64.lt gap Float.zero then Float.zero else gap in
    if effortChanged then (TTLCold, gap)
    else if F64.ge gap (fint (TTLMaxSeconds reg)) then (TTLCold, gap)
    else if F64.ge gap (Float.mul ttlExpiringFraction (fint (TTLMinSeconds reg))) then (TTLExpiring, gap)
    else (TTLWarm, gap).

Definition CacheFactor (state : TTLState) (idleGapSeconds : Z) (reg : CacheRegime) : Z :=
  if TTLMaxSeconds reg <=? 0 then Float.one
  else match state with
  | TTLCold => Float.zero
  | TTLExpiring =>
      let ttlMax := fint (TTLMaxSeconds reg) in
      let band := Float.sub ttlMax (Float.mul ttlExpiringFraction (fint (TTLMinSeconds reg))) in
      if Float.le band Float.zero || isNaN idleGapSeconds then Float.one
      else fmin (fmax (F64.div (Float.sub ttlMax idleGapSeconds) band) Float.zero) Float.one
  | _ => Float.one
  end.

(** ** The cadence ([youngdaly.go]) *)

Definition YoungDaly (deltaSeconds mtbfSeconds : Z) : Z :=
  if Float.le deltaSeconds Float.zero || Float.le mtbfSeconds Float.zero || isNaN deltaSeconds || isNaN mtbfSeconds
     || isInf deltaSeconds || isInf mtbfSeconds
  then Float.zero
  else fsqrt (Float.mul (Float.mul (F64.of_int 2) deltaSeconds) mtbfSeconds).

Definition secondsPerMinute : Z := F64.of_int 60.

Definition mtbfSeconds (contextTokens hardCeiling burnTokensPerMin : Z) : Z :=
  let headroom := fint (s64 (hardCeiling - contextTokens)) in
  if Float.le headroom Float.zero || Float.le burnTokensPerMin Float.zero then Float.zero
  else Float.mul (F64.div headroom burnTokensPerMin) secondsPerMinute.

(** [v != nil && *v > 0]. *)
Definition positive (v : option Z) : option Z :=
  match v with Some d => if F64.gt d Float.zero then Some d else None | None => None end.

Definition resolveDelta (inp : Inputs) (cfg : SchedulerCfg) : Z * bool :=
  match positive (ydMeasuredDeltaSeconds (cYoungDaly cfg)) with
  | Some d => (d, true)
  | None => match positive (MeasuredDeltaSeconds inp) with Some d => (d, true) | None => (Float.zero, false) end
  end.

Definition SkiRentalShouldWrite (expectedReads r w : Z) : bool :=
  if Float.le r Float.zero || Float.le w Float.zero then false else F64.gt expectedReads (F64.div w r).

(** ** The choice of the cut ([pselect.go]) *)

Definition maxScoredCandidates : nat := 32.

Record scored := MkScored { sc : Candidate; tail : Z; reclaim : Z; rewrite_ : Z; distortion : Z; score : Z }.

Definition eligible (cands : list Candidate) : list Candidate * bool :=
  match cands with
  | [] => ([], false)
  | _ => match List.filter RoundBoundary cands with [] => (cands, true) | out => (out, false) end
  end.

Definition score_one (n cacheFactor lambda : Z) (reg : CacheRegime) (c : Candidate) : scored :=
  let t := Float.sub (fint n) (fint (Pos c)) in
  let t := if F64.lt t Float.zero then Float.zero else t in
  let rc := Float.mul (fint (ReclaimableTokens c)) (ReadMultiplier reg) in
  let rw := Float.mul (Float.mul (WriteMultiplier reg) t) cacheFactor in
  let dist := if F64.gt lambda Float.zero then Float.mul lambda (fint (Coupling c)) else Float.zero in
  MkScored c t rc rw dist (Float.sub (Float.sub rc rw) dist).

Definition scoreCandidates (cands : list Candidate) (n cacheFactor lambda : Z) (reg : CacheRegime) : list scored :=
  score_one n cacheFactor lambda reg <$> cands.

(** The step of [chooseP]'s loop. *)
Definition better (deep : bool) (best s : scored) : scored :=
  if F64.gt (score s) (score best) then s
  else if feq (score s) (score best) then
    if (deep && (Pos (sc s) <? Pos (sc best))) || (negb deep && (Pos (sc s) >? Pos (sc best))) then s else best
  else best.

Definition chooseP (ss : list scored) (ttl : TTLState) (cfg : SchedulerCfg) : option scored :=
  match ss with
  | [] => None
  | s :: ss => Some (fold_left (better (bool_decide (ttl = TTLCold) && DeepCutWhenCold (cIdle cfg))) ss s)
  end.

Fixpoint increases (cands : list Candidate) : bool :=
  match cands with
  | a :: ((b :: _) as rest) => (ReclaimableTokens b >? ReclaimableTokens a) || increases rest
  | _ => false
  end.

Definition prepareCandidates (cands : list Candidate) : list Candidate * bool :=
  let out := stable_sort (fun a b => Pos a <? Pos b) cands in (out, increases out).

Definition capHighestPos (cands : list Candidate) : list Candidate :=
  if (maxScoredCandidates <? length cands)%nat then drop (length cands - maxScoredCandidates) cands else cands.

(** ** [Evaluate] ([evaluate.go]) *)

Definition isFinite (v : Z) : bool := negb (isNaN v) && negb (isInf v).
Definition finiteOrZero (v : Z) : Z := if isFinite v then v else Float.zero.

Definition clampUnit (v : Z) : Z :=
  if negb (isFinite v) then Float.one
  else if F64.lt v Float.zero then Float.zero
  else if F64.gt v Float.one then Float.one
  else v.

Definition ageSeconds (now then_ : Z) : Z :=
  if then_ <=? 0 then Float.zero
  else
    let a := F64.div (fint (s64 (now - then_))) millisPerSecond in
    if F64.lt a Float.zero then Float.zero else a.

Definition regimeRung (source : bytes) : Z :=
  if bool_decide (source = regimeSourceUnknown) then F64.of_int 1
  else if bool_decide (source = regimeSourceEnable1H) then F64.of_int 2
  else if bool_decide (source = regimeSourceDisabled) then F64.of_int 3
  else if bool_decide (source = regimeSourceForce5M) then F64.of_int 4
  else if bool_decide (source = regimeSourceSubagent) then F64.of_int 5
  else Float.zero.

Definition planBackground (inp : Inputs) (ttl : TTLState) (soft : Z) (haveDelta : bool) : list BackgroundTask :=
  if negb (BackgroundWork (cIdle (Cfg inp))) then []
  else
    (if ResidualTokens inp >? 0 then [BackgroundAdvanceFrontier] else []) ++
    (if ContextTokens inp >? soft then [BackgroundPrecomputeSlice] else []) ++
    (if negb haveDelta then [BackgroundRefreshDelta] else []) ++
    (if bool_decide (ttl = TTLCold) then [BackgroundRebuildBloom; BackgroundCompactDAG; BackgroundGC] else []).

(** The regime in force: the unknown rung when none was resolved, its multipliers finite. *)
Definition regime_of (inp : Inputs) : CacheRegime :=
  let reg := Regime inp in
  let reg := if (TTLMaxSeconds reg <=? 0) && negb (Disabled reg) then UnknownRegime (Cfg inp) (AssumeMaxTTLSeconds inp) else reg in
  MkRegime (TTLMinSeconds reg) (TTLMaxSeconds reg) (finiteOrZero (ReadMultiplier reg)) (finiteOrZero (WriteMultiplier reg))
    (Disabled reg) (rgSource reg).

(** The cadence clause: the measured cost, whether there is one, the interval, the elapsed time, and the
    note left in the breakdown. *)
Record cadence := MkCadence { cd_delta : Z; cd_have : bool; cd_interval : Z; cd_elapsed : Z; cd_note : option bytes }.

Definition cadence_of (inp : Inputs) (m : Z) : cadence :=
  let '(delta, have) := resolveDelta inp (Cfg inp) in
  let '(delta, have) := if negb (isFinite delta) then (Float.zero, false) else (delta, have) in
  if negb (ydEnabled (cYoungDaly (Cfg inp))) then MkCadence delta have Float.zero Float.zero (Some (str "young_daly_disabled"))
  else if negb have then MkCadence delta have Float.zero Float.zero (Some (str "young_daly_delta_unmeasured"))
  else if LastCompactionTS inp <=? 0 then MkCadence delta have Float.zero Float.zero (Some (str "young_daly_no_baseline"))
  else MkCadence delta have (YoungDaly delta m) (ageSeconds (Now inp) (LastCompactionTS inp)) None.

(** The conditions of the composite trigger. *)
Record conditions := MkConditions {
  aboveSoftFloor : bool; atChangepoint : bool; youngDalyElapsed : bool; aboveHardCeiling : bool; idleColdCache : bool; cacheExpiring : bool
}.

Definition conditions_of (inp : Inputs) (soft hard : Z) (reg : CacheRegime) (ttl : TTLState) (gap : Z) (cd : cadence) : conditions :=
  let n := ContextTokens inp in
  let expiringFraction := finiteOrZero (ExpiringTriggerFraction inp) in
  MkConditions (n >? soft) (AtChangepoint (Changepoint inp))
    (F64.gt (cd_interval cd) Float.zero && F64.gt (cd_elapsed cd) (cd_interval cd))
    (n >? hard) (bool_decide (ttl = TTLCold))
    (F64.gt expiringFraction Float.zero && bool_decide (ttl = TTLExpiring) && (TTLMinSeconds reg =? TTLMaxSeconds reg)
     && F64.ge gap (Float.mul expiringFraction (fint (TTLMaxSeconds reg)))).

Definition reasons_of (c : conditions) : list TriggerReason :=
  if aboveSoftFloor c then
    [TriggerSoftFloor] ++
    (if atChangepoint c then [TriggerChangepoint] else []) ++
    (if youngDalyElapsed c then [TriggerYoungDaly] else []) ++
    (if aboveHardCeiling c then [TriggerHardCeiling] else []) ++
    (if idleColdCache c then [TriggerIdleColdCache] else []) ++
    (if cacheExpiring c then [TriggerCacheExpiring] else [])
  else [].

Definition fired_of (c : conditions) : bool :=
  aboveSoftFloor c && (atChangepoint c || youngDalyElapsed c || aboveHardCeiling c || idleColdCache c || cacheExpiring c).

Definition put (k : string) (v : Z) (b : gmap bytes Z) : gmap bytes Z := <[str k := v]> b.

(** The terms of the chosen cut. *)
Definition cut_terms (best : scored) (cf : Z) (b : gmap bytes Z) : gmap bytes Z :=
  put "rewrite_tokens" (Float.mul (tail best) cf) (put "reclaimable_tokens" (fint (ReclaimableTokens (sc best)))
  (put "coupling" (fint (Coupling (sc best))) (put "p_segment" (fint (SegmentID (sc best))) (put "p_turn" (fint (Turn (sc best)))
  (put "p" (fint (Pos (sc best))) (put "score" (score best) (put "distortion" (distortion best) (put "rewrite" (rewrite_ best)
  (put "reclaimable" (reclaim best) b))))))))).

(** The observability block. *)
Definition observed_terms (inp : Inputs) (soft hard : Z) (reg : CacheRegime) (gap cf lambda burn prob m : Z) (cd : cadence) (scored_n : nat)
    (b : gmap bytes Z) : gmap bytes Z :=
  let b := put "context_tokens" (fint (ContextTokens inp)) b in
  let b := put "effective_window" (fint (iEffectiveWindow inp)) b in
  let b := put "soft_floor" (fint soft) b in
  let b := put "hard_ceiling" (fint hard) b in
  let b := put "idle_gap_seconds" gap b in
  let b := put "cache_factor" cf b in
  let b := put "ttl_min_seconds" (fint (TTLMinSeconds reg)) b in
  let b := put "ttl_max_seconds" (fint (TTLMaxSeconds reg)) b in
  let b := put "regime_read_multiplier" (ReadMultiplier reg) b in
  let b := put "regime_write_multiplier" (WriteMultiplier reg) b in
  let b := put "regime_rung" (regimeRung (rgSource reg)) b in
  let b := put "fired_at_ttl_fraction" (if TTLMaxSeconds reg >? 0 then F64.div gap (fint (TTLMaxSeconds reg)) else Float.zero) b in
  let b := if Disabled reg then put "cache_disabled" Float.one b else b in
  let b := if EffortChanged inp then put "cold_reason_effort_change" Float.one b else b in
  let b := put "read_multiplier" (finiteOrZero (cacheReadMultiplier (cCache (Cfg inp)))) b in
  let b := put "write_multiplier" (finiteOrZero (cacheWriteMultiplier (cCache (Cfg inp)))) b in
  let b := put "lambda" lambda b in
  let b := put "delta_seconds" (cd_delta cd) b in
  let b := put "mtbf_seconds" m b in
  let b := put "young_daly_seconds" (cd_interval cd) b in
  let b := put "elapsed_seconds" (cd_elapsed cd) b in
  let b := put "burn_rate_tokens_per_min" burn b in
  let b := put "prob_changepoint" prob b in
  let b := put "run_length" (fint (RunLength (Changepoint inp))) b in
  let b := put "candidates" (fint (Z.of_nat scored_n)) b in
  let b := put "candidates_supplied" (fint (Z.of_nat (length (Candidates inp)))) b in
  let b := put "frontier_turn" (fint (FrontierTurn inp)) b in
  let b := put "residual_tokens" (fint (ResidualTokens inp)) b in
  put "last_cache_write_age_seconds" (ageSeconds (Now inp) (LastCacheWriteTS inp)) b.

Definition urgency_of (inp : Inputs) (c : conditions) : Urgency * bool :=
  let u := if aboveHardCeiling c then UrgencyNow else if fired_of c then UrgencyAdvisory else UrgencyNone in
  if HostTriggerAbsent inp && bool_decide (u = UrgencyNow) then (UrgencyAdvisory, true) else (u, false).

Definition note (cond : bool) (k : string) (b : gmap bytes Z) : gmap bytes Z := if cond then put k Float.one b else b.

Definition Evaluate (inp : Inputs) : Decision :=
  if iEffectiveWindow inp <=? 0 then
    MkDecision false [] zero_candidate Float.zero (put "error_no_window" Float.one ∅) UrgencyNone TTLUnknown Float.zero [] 0 0
  else
    let cfg := Cfg inp in
    let burn := finiteOrZero (BurnRateTokensPerMin inp) in
    let lambda := finiteOrZero (CouplingLambda inp) in
    let prob := finiteOrZero (ProbChangepoint (Changepoint inp)) in
    let soft := SoftFloor (iEffectiveWindow inp) cfg in
    let hard := HardCeiling (iEffectiveWindow inp) cfg in
    let n := ContextTokens inp in
    let reg := regime_of inp in
    let anchor := resolveTTLAnchor (LastRequestStartTS inp) (LastAPICallTS inp) in
    let '(ttl, gap) := ClassifyTTL (Now inp) anchor reg (EffortChanged inp) in
    let cf := clampUnit (CacheFactor ttl gap reg) in
    let m := mtbfSeconds n hard burn in
    let cd := cadence_of inp m in
    let b := match cd_note cd with Some k => <[k := Float.one]> ∅ | None => ∅ end in
    let c := conditions_of inp soft hard reg ttl gap cd in
    let fired := fired_of c in
    let '(cands, nonMono) := prepareCandidates (Candidates inp) in
    let b := note nonMono "reclaimable_nonmonotonic" b in
    let '(elig, relaxed) := eligible cands in
    let b := note relaxed "round_boundary_relaxed" b in
    let ss := scoreCandidates (capHighestPos elig) n cf lambda reg in
    let best := chooseP ss ttl cfg in
    let '(should, p, pscore, b) :=
      match fired, best with
      | false, _ => (false, zero_candidate, Float.zero, b)
      | true, None => (false, zero_candidate, Float.zero, put "no_candidates" Float.one b)
      | true, Some best => (true, sc best, score best, cut_terms best cf b)
      end in
    let '(urgency, capped) := urgency_of inp c in
    let b := note capped "urgency_capped_advisory" b in
    let background := planBackground inp ttl soft (cd_have cd) in
    let b := observed_terms inp soft hard reg gap cf lambda burn prob m cd (length ss) b in
    MkDecision should (reasons_of c) p (finiteOrZero pscore) (finiteOrZero <$> b) urgency ttl (finiteOrZero (cd_interval cd)) background soft hard.

End Conversion.

(** ** Droppable blocks ([dropclass.go]) *)

Inductive DropClass := DropNone | DropOrdinary | DropSuperseded | DropEphemeral.

Definition EvictionRank (c : DropClass) : Z :=
  match c with DropNone => 0 | DropOrdinary => 1 | DropSuperseded => 2 | DropEphemeral => 3 end.

Definition compactableTools : list bytes :=
  [str "fileread"; str "read"; str "bash"; str "powershell"; str "grep"; str "glob"; str "websearch"; str "webfetch";
   str "fileedit"; str "edit"; str "multiedit"; str "filewrite"; str "write"].
Definition preservedTools : list bytes := [str "agenttool"; str "agent"; str "task"].
Definition mcpToolPrefix : bytes := str "mcp__".

Definition DropClassOf (tool : bytes) (ephemeral superseded : bool) : DropClass :=
  if ephemeral then DropEphemeral
  else if superseded then DropSuperseded
  else
    let name := lower (TrimSpace tool) in
    if HasPrefix name mcpToolPrefix then DropNone
    else if bool_decide (name ∈ preservedTools) then DropNone
    else if bool_decide (name ∈ compactableTools) then DropOrdinary
    else DropNone.

(** ** The capability register ([unsupported.go]) *)

Definition CapNativeCut : bytes := str "native_cut".
Definition CapNativeVeto : bytes := str "native_veto".
Definition CapNativeEviction : bytes := str "native_eviction".
Definition CapNativeODelta : bytes := str "native_o_delta_compaction".
Definition CapYoungDalyPacing : bytes := str "young_daly_pacing".
Definition CapSkiRentalWritePolicy : bytes := str "ski_rental_write_policy".
Definition CapChangepointForecast : bytes := str "changepoint_forecast".

Definition unsupportedCaps : list bytes := [CapNativeCut; CapNativeVeto; CapNativeEviction; CapNativeODelta].
Definition experimentalCaps : list bytes := [CapYoungDalyPacing; CapSkiRentalWritePolicy; CapChangepointForecast].

Inductive SupportClass := ClassUnsupported | ClassExperimental | ClassUnknown.

(** The reason texts are left out; one is there exactly when the capability is not available. *)
Record Support := MkSupport { sCapability : bytes; Available : bool; sClass : SupportClass }.

Definition Capabilities : list bytes := unsupportedCaps ++ experimentalCaps.

(** [experimental] is the process-wide opt-in. *)
Definition Supports (experimental : bool) (c : bytes) (cfg : SchedulerCfg) : Support :=
  if bool_decide (c ∈ unsupportedCaps) then MkSupport c false ClassUnsupported
  else if bool_decide (c ∈ experimentalCaps) then
    if negb experimental then MkSupport c false ClassExperimental
    else if bool_decide (c = CapYoungDalyPacing) && negb (ydEnabled (cYoungDaly cfg)) then MkSupport c false ClassExperimental
    else MkSupport c true ClassExperimental
  else MkSupport c false ClassUnknown.

(** Whether [Require] returns nil. *)
Definition Require_ok (experimental : bool) (c : bytes) (cfg : SchedulerCfg) : bool := Available (Supports experimental c cfg).

(** ** The warm prior ([warmprior.go]) *)

Record WarmStartPolicy := MkPolicy {
  MinSessions : Z; MinObservations : Z; HalfLifeSeconds : Z; MaxWeight : Z; MaxAgeSeconds : Z
}.

Definition maxWeightCeiling : Z := Float.decimal 5 1.

Definition DefaultWarmStartPolicy : WarmStartPolicy :=
  MkPolicy 3 30 (F64.of_int (24 * 60 * 60)) (Float.decimal 25 2) (F64.of_int (14 * 24 * 60 * 60)).

Definition Clamp (p : WarmStartPolicy) : WarmStartPolicy :=
  MkPolicy (Z.max (MinSessions p) 1) (Z.max (MinObservations p) 1)
    (if F64.lt (HalfLifeSeconds p) Float.zero || isNaN (HalfLifeSeconds p) then Float.zero else HalfLifeSeconds p)
    (fmin (if isNaN (MaxWeight p) || Float.le (MaxWeight p) Float.zero then Float.zero else MaxWeight p) maxWeightCeiling)
    (if F64.lt (MaxAgeSeconds p) Float.zero || isNaN (MaxAgeSeconds p) then Float.zero else MaxAgeSeconds p).

Record PriorEvidence := MkEvidence { Sessions : Z; Observations : Z; AgeSeconds : Z; Authorized : bool }.

(** Which rung of the ladder answered stands for the label. *)
Inductive warm_label := NotAuthorized | TooThin | AgeUnknown | TooOld | NotPositive | WarmPrior.

Record WarmStartDecision := MkWarm { wApply : bool; Weight : Z; Label : warm_label }.

Definition no_warm (l : warm_label) : WarmStartDecision := MkWarm false Float.zero l.

Definition WarmStart (Exp2 : Z -> Z) (e : PriorEvidence) (p : WarmStartPolicy) : WarmStartDecision :=
  let p := Clamp p in
  if negb (Authorized e) then no_warm NotAuthorized
  else if (Sessions e <? MinSessions p) || (Observations e <? MinObservations p) then no_warm TooThin
  else if isNaN (AgeSeconds e) || F64.lt (AgeSeconds e) Float.zero then no_warm AgeUnknown
  else if F64.gt (MaxAgeSeconds p) Float.zero && F64.gt (AgeSeconds e) (MaxAgeSeconds p) then no_warm TooOld
  else
    let w := MaxWeight p in
    let w := if F64.gt (HalfLifeSeconds p) Float.zero
             then Float.mul w (Exp2 (F64.div (Float.opp (AgeSeconds e)) (HalfLifeSeconds p))) else w in
    if Float.le w Float.zero || isNaN w then no_warm NotPositive
    else MkWarm true w WarmPrior.

Definition Blend (prior observed : Z) (observedCount : Z) (d : WarmStartDecision) : Z :=
  if negb (wApply d) || Float.le (Weight d) Float.zero || (observedCount <? 0) || isNaN prior || isNaN (Weight d) then observed
  else
    let den := Float.add (Weight d) (fint observedCount) in
    if Float.le den Float.zero then observed
    else F64.div (Float.add (Float.mul prior (Weight d)) (Float.mul observed (fint observedCount))) den.
