(* ===== verification/SchedSpec.v ===== *)
(** * What the scheduler guarantees

    [Evaluate] is finite on any inputs, fires exactly on its named conditions, cuts at the best legal
    candidate, and does not depend on the order candidates arrive in; the thresholds, regimes, register and
    warm prior keep their bounds.  One example shows an urgency without a trigger. *)

From S2P Require Import Prelude GoLib Core Frame GoStrings F64Ops GoSort Scheduler.

#[local] Opaque F64.classify F64.of_int Float.mul Float.sub Float.add F64.div fsqrt Float.decimal finiteOrZero observed_terms cut_terms put note.

(** ** Finite numbers *)

Lemma isFinite_spec v : isFinite v = true <-> Float.finite v.
Proof. unfold isFinite, isNaN, isInf, F64.isNaN, Float.finite. by destruct (F64.classify v). Qed.

Lemma finite_zero : Float.finite Float.zero.
Proof. apply isFinite_spec. by vm_compute. Qed.

Lemma finiteOrZero_finite v : Float.finite (finiteOrZero v).
Proof. with_strategy transparent [finiteOrZero] unfold finiteOrZero. destruct (isFinite v) eqn:E; [by apply isFinite_spec|apply finite_zero]. Qed.

Lemma finiteOrZero_zero : finiteOrZero Float.zero = Float.zero.
Proof. by vm_compute. Qed.

Lemma finiteOrZero_id v : isFinite v = true -> finiteOrZero v = v.
Proof. with_strategy transparent [finiteOrZero] unfold finiteOrZero. by intros ->. Qed.

Lemma finiteOrZero_bad v : isFinite v = false -> finiteOrZero v = Float.zero.
Proof. with_strategy transparent [finiteOrZero] unfold finiteOrZero. by intros ->. Qed.

Lemma finite_one : Float.finite Float.one.
Proof. apply isFinite_spec. by vm_compute. Qed.

Lemma finite_lt v w : Float.finite v -> Float.finite w -> F64.lt v w = (Float.units v <? Float.units w).
Proof.
  intros Hv Hw. unfold F64.lt. rewrite Float.finite_cmp by done.
  destruct (Z.compare_spec (Float.units v) (Float.units w)); symmetry; [apply Z.ltb_ge|apply Z.ltb_lt|apply Z.ltb_ge]; lia.
Qed.

(** The clamped cache factor lies between 0 and 1. *)
Lemma clampUnit_bounds v : Float.finite (clampUnit v) /\ Float.units Float.zero <= Float.units (clampUnit v) <= Float.units Float.one.
Proof.
  assert (Float.units Float.zero < Float.units Float.one) as H01 by by vm_compute.
  unfold clampUnit. destruct (isFinite v) eqn:E; cbn [negb]; [|split; [apply finite_one|lia]].
  apply isFinite_spec in E. rewrite finite_lt, Float.finite_gt by (done || apply finite_zero || apply finite_one).
  destruct (Z.ltb_spec (Float.units v) (Float.units Float.zero)); [split; [apply finite_zero|lia]|].
  destruct (Z.ltb_spec (Float.units Float.one) (Float.units v)); [split; [apply finite_one|lia]|split; [done|lia]].
Qed.

(** ** Unfolding [Evaluate] *)

Section Evaluate.
Context (oor : Z -> Z) (inp : Inputs).

Abbreviation d := (Evaluate oor inp).
Definition soft_of : Z := SoftFloor oor (iEffectiveWindow inp) (Cfg inp).
Definition hard_of : Z := HardCeiling (iEffectiveWindow inp) (Cfg inp).
Definition clock_of : TTLState * Z :=
  ClassifyTTL (Now inp) (resolveTTLAnchor (LastRequestStartTS inp) (LastAPICallTS inp)) (regime_of inp) (EffortChanged inp).
Definition factor_of : Z := clampUnit (CacheFactor clock_of.1 clock_of.2 (regime_of inp)).
Definition cad_of : cadence := cadence_of inp (mtbfSeconds (ContextTokens inp) hard_of (finiteOrZero (BurnRateTokensPerMin inp))).
Definition conds_of : conditions := conditions_of inp soft_of hard_of (regime_of inp) clock_of.1 clock_of.2 cad_of.
(** The candidates that are scored: legal ones, at most the 32 at the highest positions. *)
Definition sweep_of : list Candidate := capHighestPos (eligible (prepareCandidates (Candidates inp)).1).1.
Definition score_of (c : Candidate) : scored :=
  score_one (ContextTokens inp) factor_of (finiteOrZero (CouplingLambda inp)) (regime_of inp) c.
Definition best_of : option scored := chooseP (score_of <$> sweep_of) clock_of.1 (Cfg inp).

Lemma evaluate_fields : 0 < iEffectiveWindow inp ->
  Reasons d = reasons_of conds_of /\ dUrgency d = (urgency_of inp conds_of).1 /\ dTTL d = clock_of.1 /\
  YoungDalySeconds d = finiteOrZero (cd_interval cad_of) /\ SoftFloorTokens d = soft_of /\ HardCeilingTokens d = hard_of /\
  (ShouldCompact d, P d, PScore d) =
    match fired_of conds_of, best_of with
    | true, Some best => (true, sc best, finiteOrZero (score best))
    | _, _ => (false, zero_candidate, Float.zero)
    end.
Proof.
  intros Hw. unfold Evaluate. rewrite (proj2 (Z.leb_gt _ _)) by done. cbv zeta.
  unfold best_of, sweep_of, score_of, conds_of, factor_of, cad_of. fold clock_of soft_of hard_of. destruct clock_of as [ttl gap]. cbn [fst snd].
  destruct (prepareCandidates _) as [cands mono]. cbn [fst]. destruct (eligible cands) as [elig relaxed]. cbn [fst]. unfold scoreCandidates.
  destruct (chooseP _ _ _) as [best|], (fired_of _); destruct (urgency_of _ _) as [u capped]; cbn [fst];
    refine (conj eq_refl (conj eq_refl (conj eq_refl (conj eq_refl (conj eq_refl (conj eq_refl _)))))).
  - exact eq_refl.
  - exact (f_equal (pair _) finiteOrZero_zero).
  - exact (f_equal (pair _) finiteOrZero_zero).
  - exact (f_equal (pair _) finiteOrZero_zero).
Qed.

Lemma breakdown_finite : 0 < iEffectiveWindow inp -> map_Forall (fun _ v => Float.finite v) (Breakdown d).
Proof.
  intros Hw. unfold Evaluate. rewrite (proj2 (Z.leb_gt _ _)) by done. cbv zeta. destruct (ClassifyTTL _ _ _ _) as [ttl gap].
  destruct (prepareCandidates _) as [cands mono]. destruct (eligible cands) as [elig relaxed].
  destruct (if fired_of _ then _ else _) as [[[should p] pscore] b]. destruct (urgency_of _ _) as [u capped]. cbn [Breakdown].
  intros k v Hv. rewrite lookup_fmap in Hv. apply fmap_Some in Hv as (w & _ & ->). apply finiteOrZero_finite.
Qed.

End Evaluate.

(** ** The order on candidates *)

Definition pos_le (a b : Candidate) : Prop := Pos a <= Pos b.

Lemma prepare_perm cands : (prepareCandidates cands).1 ≡ₚ cands.
Proof. apply stable_sort_perm. Qed.

Lemma prepare_sorted cands : StronglySorted pos_le (prepareCandidates cands).1.
Proof.
  apply stable_sort_sorted; unfold pos_le; [lia|intros x y H%Z.ltb_lt; lia|intros x y H%Z.ltb_ge; lia].
Qed.

Lemma prepare_unique cands cands' : cands ≡ₚ cands' -> NoDup (Pos <$> cands) -> prepareCandidates cands = prepareCandidates cands'.
Proof.
  intros Hp Hn. assert ((prepareCandidates cands).1 = (prepareCandidates cands').1) as He.
  { eapply (StronglySorted_unique_strong pos_le);
      [|apply prepare_sorted|apply prepare_sorted|by rewrite !prepare_perm].
    intros x y Hx Hy H1 H2. rewrite prepare_perm in Hx, Hy. rewrite <- Hp in Hy. unfold pos_le in *.
    apply (key_inj Pos cands); [done..|lia]. }
  unfold prepareCandidates in *. cbn [fst] in He. by rewrite He.
Qed.

(** The legal cuts: the round boundaries, or every candidate when there is none. *)
Definition legal (cands : list Candidate) : list Candidate :=
  if existsb RoundBoundary cands then List.filter RoundBoundary cands else cands.

Lemma filter_nil_existsb {A} (f : A -> bool) l : List.filter f l = [] <-> existsb f l = false.
Proof. induction l as [|x l IH]; cbn; [done|]. destruct (f x); cbn; [done|exact IH]. Qed.

Lemma eligible_legal cands : (eligible cands).1 = legal cands.
Proof.
  unfold eligible, legal. destruct cands as [|c cands]; [done|].
  destruct (existsb RoundBoundary (c :: cands)) eqn:E, (List.filter RoundBoundary (c :: cands)) eqn:F; try done.
  - apply filter_nil_existsb in F. congruence.
  - apply filter_nil_existsb in E. congruence.
Qed.

Lemma list_filter_perm {A} (f : A -> bool) l l' : l ≡ₚ l' -> List.filter f l ≡ₚ List.filter f l'.
Proof.
  induction 1 as [|x l l' H IH|x y l|l l' l'' H IH H' IH']; cbn; [done| | |by etrans].
  - destruct (f x); [by constructor|done].
  - destruct (f x), (f y); try done. apply Permutation_swap.
Qed.

#[export] Instance legal_perm : Proper ((≡ₚ) ==> (≡ₚ)) legal.
Proof.
  intros l l' H. unfold legal. assert (existsb RoundBoundary l = existsb RoundBoundary l') as ->.
  { apply eq_true_iff_eq. rewrite !existsb_exists. split; intros (x & Hx & Hb); exists x; (split; [|done]).
    - by apply (Permutation_in _ H).
    - by apply (Permutation_in _ (Permutation_sym H)). }
  destruct (existsb _ _); [by apply list_filter_perm|done].
Qed.

Lemma legal_incl c cands : c ∈ legal cands -> c ∈ cands.
Proof. unfold legal. destruct (existsb _ _); [|done]. rewrite !list_elem_of_In. by intros [? _]%filter_In. Qed.

Lemma legal_nil cands : legal cands = [] <-> cands = [].
Proof.
  unfold legal. destruct (existsb RoundBoundary cands) eqn:E; [|done]. split; [|by intros ->].
  intros F%filter_nil_existsb. congruence.
Qed.

(** A legal cut off the round boundaries is taken only when no candidate is on one. *)
Lemma legal_round c c' cands : c ∈ legal cands -> RoundBoundary c = false -> c' ∈ cands -> RoundBoundary c' = false.
Proof.
  unfold legal. destruct (existsb RoundBoundary cands) eqn:E; rewrite !list_elem_of_In.
  - intros [_ H]%filter_In H'. congruence.
  - intros _ _ Hin. destruct (RoundBoundary c') eqn:Hb; [|done]. rewrite <- E. symmetry. apply existsb_exists. by exists c'.
Qed.

Lemma StronglySorted_filter {A} (R : A -> A -> Prop) (f : A -> bool) l : StronglySorted R l -> StronglySorted R (List.filter f l).
Proof.
  induction 1 as [|x l Hs IH Hf]; cbn; [constructor|]. destruct (f x); [|done]. constructor; [done|].
  rewrite Forall_forall in Hf |- *. intros y Hy. apply Hf. rewrite list_elem_of_In in Hy |- *. by apply filter_In in Hy as [? _].
Qed.

Lemma legal_sorted l : StronglySorted pos_le l -> StronglySorted pos_le (legal l).
Proof. unfold legal. destruct (existsb _ _); [apply StronglySorted_filter|done]. Qed.

Lemma StronglySorted_app_le {A} (R : A -> A -> Prop) l l' x y : StronglySorted R (l ++ l') -> x ∈ l -> y ∈ l' -> R x y.
Proof.
  induction l as [|z l IH]; cbn; [by intros _ ?%not_elem_of_nil|]. intros [Hs Hf]%StronglySorted_inv [->|Hx]%elem_of_cons Hy.
  - rewrite Forall_forall in Hf. apply Hf, elem_of_app. by right.
  - by apply IH.
Qed.

(** [capHighestPos] keeps a suffix of at most 32. *)
Lemma cap_split cands : exists low, cands = low ++ capHighestPos cands /\ length (capHighestPos cands) = Nat.min maxScoredCandidates (length cands).
Proof.
  unfold capHighestPos. destruct (Nat.ltb_spec maxScoredCandidates (length cands)).
  - exists (take (length cands - maxScoredCandidates) cands). split; [by rewrite take_drop|]. rewrite length_drop. lia.
  - exists []. split; [done|lia].
Qed.

Lemma sweep_legal inp c : c ∈ sweep_of inp -> c ∈ legal (Candidates inp).
Proof.
  unfold sweep_of. rewrite eligible_legal. intros Hc. rewrite <- (prepare_perm (Candidates inp)).
  destruct (cap_split (legal (prepareCandidates (Candidates inp)).1)) as (low & -> & _). apply elem_of_app. by right.
Qed.

(** The sweep is a set of the highest legal positions, all of them up to 32. *)
Lemma sweep_highest inp :
  exists low, low ++ sweep_of inp ≡ₚ legal (Candidates inp) /\
  length (sweep_of inp) = Nat.min maxScoredCandidates (length (legal (Candidates inp))) /\
  (forall c c', c ∈ low -> c' ∈ sweep_of inp -> Pos c <= Pos c').
Proof.
  unfold sweep_of. rewrite eligible_legal. pose proof (legal_sorted _ (prepare_sorted (Candidates inp))) as Hs.
  assert (legal (prepareCandidates (Candidates inp)).1 ≡ₚ legal (Candidates inp)) as Hp by by rewrite prepare_perm.
  destruct (cap_split (legal (prepareCandidates (Candidates inp)).1)) as (low & He & Hl).
  exists low. split; [by rewrite <- He|]. split; [by rewrite Hl, Hp|]. intros c c' Hc Hc'. rewrite He in Hs.
  by apply (StronglySorted_app_le pos_le low (capHighestPos (legal (prepareCandidates (Candidates inp)).1))).
Qed.

Lemma sweep_nil inp : sweep_of inp = [] <-> Candidates inp = [].
Proof.
  destruct (sweep_highest inp) as (low & _ & Hl & _). rewrite <- (legal_nil (Candidates inp)), <- !length_zero_iff_nil, Hl. unfold maxScoredCandidates. lia.
Qed.

(** ** The best cut *)

(** The order of [chooseP]: by score, ties towards the deep or the late end. *)
Definition cut_le (deep : bool) (a b : scored) : Prop :=
  Float.units (score a) < Float.units (score b) \/
  (Float.units (score a) = Float.units (score b) /\ if deep then Pos (sc b) <= Pos (sc a) else Pos (sc a) <= Pos (sc b)).

Lemma better_spec deep a b : Float.finite (score a) -> Float.finite (score b) ->
  (better deep a b = a \/ better deep a b = b) /\ cut_le deep a (better deep a b) /\ cut_le deep b (better deep a b).
Proof.
  intros Ha Hb. unfold better, feq, cut_le. rewrite Float.finite_gt, Float.finite_ne, negb_involutive by done.
  destruct (Z.ltb_spec (Float.units (score a)) (Float.units (score b))); [split; [by right|]; destruct deep; lia|].
  destruct (Z.eqb_spec (Float.units (score b)) (Float.units (score a))); [|split; [by left|]; destruct deep; lia].
  rewrite Z.gtb_ltb. destruct deep; cbn [andb orb negb].
  - rewrite orb_false_r. destruct (Z.ltb_spec (Pos (sc b)) (Pos (sc a))); (split; [auto|lia]).
  - destruct (Z.ltb_spec (Pos (sc a)) (Pos (sc b))); (split; [auto|lia]).
Qed.

Lemma cut_le_trans deep a b c : cut_le deep a b -> cut_le deep b c -> cut_le deep a c.
Proof. unfold cut_le. destruct deep; lia. Qed.

Lemma fold_better deep ss s : (forall x, x ∈ s :: ss -> Float.finite (score x)) ->
  fold_left (better deep) ss s ∈ s :: ss /\ forall x, x ∈ s :: ss -> cut_le deep x (fold_left (better deep) ss s).
Proof.
  revert s. induction ss as [|y ss IH]; intros s Hf; cbn [fold_left].
  - split; [by apply list_elem_of_singleton|]. intros x ->%list_elem_of_singleton. right. destruct deep; lia.
  - destruct (better_spec deep s y) as (Hor & Hs & Hy); [apply Hf; set_solver..|].
    destruct (IH (better deep s y)) as [Hin Hle].
    { intros x [->|Hx]%elem_of_cons; [destruct Hor as [->| ->]|]; apply Hf; set_solver. }
    assert (cut_le deep (better deep s y) (fold_left (better deep) ss (better deep s y))) as Hb by (apply Hle; set_solver).
    split; [destruct Hor as [Hor|Hor]; rewrite Hor in Hin |- *; set_solver|].
    intros x [->|[->|Hx]%elem_of_cons]%elem_of_cons; [by eapply cut_le_trans|by eapply cut_le_trans|apply Hle; set_solver].
Qed.

(** Whatever the scores are, the choice is one of them. *)
Lemma fold_better_in deep ss s : fold_left (better deep) ss s ∈ s :: ss.
Proof.
  revert s. induction ss as [|y ss IH]; intros s; cbn [fold_left]; [by apply list_elem_of_singleton|].
  specialize (IH (better deep s y)). assert (better deep s y = s \/ better deep s y = y) as [E|E].
  { unfold better. destruct (F64.gt _ _); [by right|]. destruct (feq _ _); [|by left]. destruct (_ || _); [by right|by left]. }
  all: rewrite E in IH |- *; set_solver.
Qed.

Lemma chooseP_in ss ttl cfg best : chooseP ss ttl cfg = Some best -> best ∈ ss.
Proof. destruct ss; [done|]. intros [= <-]. apply fold_better_in. Qed.

Lemma chooseP_best ss ttl cfg best x : chooseP ss ttl cfg = Some best -> (forall y, y ∈ ss -> Float.finite (score y)) -> x ∈ ss ->
  cut_le (bool_decide (ttl = TTLCold) && DeepCutWhenCold (cIdle cfg)) x best.
Proof. destruct ss; [done|]. intros [= <-] Hf. by apply fold_better. Qed.

Lemma chooseP_none ss ttl cfg : chooseP ss ttl cfg = None <-> ss = [].
Proof. by destruct ss. Qed.

(** ** What fires the trigger *)

(** The condition a reason names, read off the decision. *)
Definition condition_holds (oor : Z -> Z) (inp : Inputs) (r : TriggerReason) : Prop :=
  let d := Evaluate oor inp in
  let fraction := finiteOrZero (ExpiringTriggerFraction inp) in
  match r with
  | TriggerSoftFloor => True
  | TriggerChangepoint => AtChangepoint (Changepoint inp) = true
  | TriggerYoungDaly =>
      F64.gt (YoungDalySeconds d) Float.zero = true /\ F64.gt (ageSeconds (Now inp) (LastCompactionTS inp)) (YoungDalySeconds d) = true
  | TriggerHardCeiling => HardCeilingTokens d < ContextTokens inp
  | TriggerIdleColdCache => dTTL d = TTLCold
  | TriggerCacheExpiring =>
      dTTL d = TTLExpiring /\ TTLMinSeconds (regime_of inp) = TTLMaxSeconds (regime_of inp) /\
      F64.gt fraction Float.zero = true /\ F64.ge (clock_of inp).2 (Float.mul fraction (fint (TTLMaxSeconds (regime_of inp)))) = true
  end.

Lemma nonfinite_no_interval i e : isFinite i = false -> F64.gt i Float.zero && F64.gt e i = false.
Proof.
  unfold isFinite, isNaN, isInf, F64.isNaN, F64.gt, F64.cmp. destruct (F64.classify i) as [|[]|s m ex]; cbn [negb andb]; [..|done].
  - done.
  - intros _. by destruct (F64.classify Float.zero) as [|[]|].
  - intros _. rewrite andb_false_iff. right. by destruct (F64.classify e) as [|[]|].
Qed.

Lemma gt_zero_zero : F64.gt Float.zero Float.zero = false.
Proof. by vm_compute. Qed.

(** The cadence clause compares with the interval that is reported. *)
Lemma cadence_clause inp m : let cd := cadence_of inp m in
  F64.gt (cd_interval cd) Float.zero && F64.gt (cd_elapsed cd) (cd_interval cd) =
  F64.gt (finiteOrZero (cd_interval cd)) Float.zero && F64.gt (ageSeconds (Now inp) (LastCompactionTS inp)) (finiteOrZero (cd_interval cd)).
Proof.
  cbv zeta. unfold cadence_of. destruct (resolveDelta inp (Cfg inp)) as [d0 h0]. destruct (if negb _ then _ else _) as [delta have].
  destruct (negb (ydEnabled _)); [cbn [cd_interval]; by rewrite finiteOrZero_zero, gt_zero_zero|].
  destruct (negb have); [cbn [cd_interval]; by rewrite finiteOrZero_zero, gt_zero_zero|].
  destruct (LastCompactionTS inp <=? 0); cbn [cd_interval cd_elapsed]; [by rewrite finiteOrZero_zero, gt_zero_zero|].
  destruct (isFinite (YoungDaly delta m)) eqn:E.
  - by rewrite (finiteOrZero_id _ E).
  - by rewrite nonfinite_no_interval, (finiteOrZero_bad _ E), gt_zero_zero.
Qed.

Lemma elem_of_if_singleton {A} (x y : A) (b : bool) : x ∈ (if b then [y] else []) <-> x = y /\ b = true.
Proof. destruct b; [rewrite list_elem_of_singleton|rewrite elem_of_nil]; naive_solver. Qed.

Lemma reason_condition oor inp r : 0 < iEffectiveWindow inp ->
  (r ∈ Reasons (Evaluate oor inp) <-> SoftFloorTokens (Evaluate oor inp) < ContextTokens inp /\ condition_holds oor inp r).
Proof.
  intros Hw. unfold condition_holds. destruct (evaluate_fields oor inp Hw) as (-> & _ & -> & -> & -> & -> & _).
  pose proof (cadence_clause inp (mtbfSeconds (ContextTokens inp) (hard_of inp) (finiteOrZero (BurnRateTokensPerMin inp)))) as Hy.
  cbv zeta in Hy. fold (cad_of inp) in Hy. unfold reasons_of, conds_of, conditions_of. cbn [aboveSoftFloor atChangepoint youngDalyElapsed aboveHardCeiling idleColdCache cacheExpiring].
  rewrite Hy. clear Hy. rewrite !Z.gtb_ltb. destruct (Z.ltb_spec (soft_of oor inp) (ContextTokens inp)) as [Hs|Hs].
  - rewrite !elem_of_app, list_elem_of_singleton, !elem_of_if_singleton, !andb_true_iff, !bool_decide_eq_true, Z.ltb_lt, Z.eqb_eq.
    destruct r; naive_solver.
  - split; [by intros ?%not_elem_of_nil|lia].
Qed.

Lemma fired_reasons c : fired_of c = true <-> exists r, r ∈ reasons_of c /\ r <> TriggerSoftFloor.
Proof.
  unfold fired_of, reasons_of. destruct (aboveSoftFloor c); [|split; [done|by intros (r & ?%not_elem_of_nil & _)]].
  destruct (atChangepoint c), (youngDalyElapsed c), (aboveHardCeiling c), (idleColdCache c), (cacheExpiring c); cbn;
    (split; [intros H|intros (r & Hr & Hne)]); try done; try (eexists; split; [by right; left|done]).
  by apply list_elem_of_singleton in Hr.
Qed.

Lemma best_none inp : best_of inp = None <-> sweep_of inp = [].
Proof. unfold best_of. rewrite chooseP_none. by destruct (sweep_of inp). Qed.

Lemma verdict_cut oor inp : 0 < iEffectiveWindow inp ->
  (ShouldCompact (Evaluate oor inp) = true <-> fired_of (conds_of oor inp) = true /\ Candidates inp <> []).
Proof.
  intros Hw. destruct (evaluate_fields oor inp Hw) as (_ & _ & _ & _ & _ & _ & Hv).
  rewrite <- sweep_nil, <- best_none.
  destruct (fired_of _), (best_of inp); injection Hv as -> _ _; naive_solver.
Qed.

Lemma urgency_now oor inp : 0 < iEffectiveWindow inp ->
  (dUrgency (Evaluate oor inp) = UrgencyNow <-> HardCeilingTokens (Evaluate oor inp) < ContextTokens inp /\ HostTriggerAbsent inp = false).
Proof.
  intros Hw. destruct (evaluate_fields oor inp Hw) as (_ & -> & _ & _ & _ & -> & _). unfold urgency_of, conds_of, conditions_of.
  cbn [aboveHardCeiling]. rewrite Z.gtb_ltb. destruct (Z.ltb_spec (hard_of inp) (ContextTokens inp)).
  - destruct (HostTriggerAbsent inp); cbn; naive_solver lia.
  - destruct (fired_of _), (HostTriggerAbsent inp); cbn; naive_solver lia.
Qed.

Lemma urgency_fired inp c : fired_of c = true -> (urgency_of inp c).1 <> UrgencyNone.
Proof. unfold urgency_of. intros ->. by destruct (aboveHardCeiling c), (HostTriggerAbsent inp). Qed.

(** ** Sample inputs *)

(** The defaults of the configuration, with a cost measured at 30 seconds. *)
Definition sample_cfg : SchedulerCfg :=
  MkSchedulerCfg (Float.decimal 55 2) 20000 (MkYoungDalyCfg true (Some (F64.of_int 30)))
    (MkCacheCfg (Float.decimal 1 1) (Float.decimal 125 2) 300) (MkIdleCfg true true).

Definition sample_inputs (window tokens : Z) (cands : list Candidate) : Inputs :=
  MkInputs 1000000 tokens window 900000 900000 (F64.of_int 500) None (MkChangepoint 10 Float.zero false) cands 5 1200 sample_cfg
    500000 (F64.of_int 1) (fiveMinuteRegime sample_cfg regimeSourceForce5M) 0 false (Float.decimal 8 1) 3600 false.

Definition sample_cands : list Candidate :=
  [MkCandidate 90000 7 2 true 60000 3; MkCandidate 40000 3 1 true 100000 0; MkCandidate 120000 9 3 false 20000 0].

(** ** The guarantees *)

(** C17: with a positive window and a context above the soft floor, each reason is reported exactly when its
    condition holds; a cut is recommended exactly when some reason besides the soft floor is reported and there is
    a candidate; a recommendation always carries an urgency, which is "now" exactly above the hard ceiling of a
    host that still compacts by itself.  At or below the soft floor nothing is recommended.  (What is reported there
    is not claimed: see [reasons_withheld].) *)
Theorem evaluate_trigger oor inp : 0 < iEffectiveWindow inp ->
  let d := Evaluate oor inp in
  (SoftFloorTokens d < ContextTokens inp ->
     (forall r, r ∈ Reasons d <-> condition_holds oor inp r) /\
     (ShouldCompact d = true <-> (exists r, condition_holds oor inp r /\ r <> TriggerSoftFloor) /\ Candidates inp <> []) /\
     (ShouldCompact d = true -> dUrgency d <> UrgencyNone) /\
     (dUrgency d = UrgencyNow <-> HardCeilingTokens d < ContextTokens inp /\ HostTriggerAbsent inp = false)) /\
  (ContextTokens inp <= SoftFloorTokens d -> ShouldCompact d = false).
Proof.
  intros Hw. cbv zeta. pose proof (fun r => reason_condition oor inp r Hw) as Hrc. destruct (evaluate_fields oor inp Hw) as (Hr & Hu & _). split.
  - intros Hs. assert (forall r, r ∈ Reasons (Evaluate oor inp) <-> condition_holds oor inp r) as Hc by (intros r; rewrite Hrc; tauto).
    split; [exact Hc|]. rewrite !verdict_cut, fired_reasons, <- Hr by done. split; [by setoid_rewrite Hc|]. split; [|by apply urgency_now].
    rewrite Hu. intros [Hf _]. apply urgency_fired, fired_reasons. by rewrite <- Hr.
  - intros Hs. apply not_true_iff_false. rewrite verdict_cut, fired_reasons, <- Hr by done. intros [(r & [Hr1 _]%Hrc & _) _]. lia.
Qed.

Lemma evaluate_trigger_witness :
  TriggerHardCeiling ∈ Reasons (Evaluate id (sample_inputs 180000 150000 sample_cands)) /\
  ShouldCompact (Evaluate id (sample_inputs 180000 150000 sample_cands)) = true.
Proof.
  destruct (evaluate_trigger id (sample_inputs 180000 150000 sample_cands)) as [H _]; [done|]. destruct (H ltac:(by vm_compute)) as (Hr & Hs & _).
  assert (condition_holds id (sample_inputs 180000 150000 sample_cands) TriggerHardCeiling) as Hc by (by vm_compute).
  split; [exact (proj2 (Hr TriggerHardCeiling) Hc)|]. apply Hs. split; [exists TriggerHardCeiling; split; [exact Hc|discriminate]|discriminate].
Defined.

(** The comments say that every condition that evaluates true is reported, so that one can see why a decision did not fire.  Below
    the soft floor none is: here the context is at a changepoint and no reason is given. *)
Example reasons_withheld :
  let inp := sample_inputs 180000 20000 sample_cands in
  let inp := MkInputs (Now inp) (ContextTokens inp) (iEffectiveWindow inp) 900000 900000 (F64.of_int 500) None (MkChangepoint 10 Float.zero true) sample_cands 5 1200 sample_cfg
    500000 (F64.of_int 1) (fiveMinuteRegime sample_cfg regimeSourceForce5M) 0 false (Float.decimal 8 1) 3600 false in
  condition_holds id inp TriggerChangepoint /\ Reasons (Evaluate id inp) = [] /\ ShouldCompact (Evaluate id inp) = false.
Proof. split; [done|]. vm_compute. split; reflexivity. Qed.

(** C18: a recommended cut is one of the candidates, on a round boundary unless no candidate is on one, and among
    the 32 legal candidates at the highest positions; when the scores there are finite none is higher, and of
    equal ones the cut is the deepest on a cold cache configured for deep cuts and the latest otherwise. *)
Theorem evaluate_cut oor inp : 0 < iEffectiveWindow inp -> ShouldCompact (Evaluate oor inp) = true ->
  let p := P (Evaluate oor inp) in
  p ∈ Candidates inp /\
  (RoundBoundary p = false -> forall c, c ∈ Candidates inp -> RoundBoundary c = false) /\
  p ∈ sweep_of inp /\
  (exists low, low ++ sweep_of inp ≡ₚ legal (Candidates inp) /\
     length (sweep_of inp) = Nat.min maxScoredCandidates (length (legal (Candidates inp))) /\
     (forall c c', c ∈ low -> c' ∈ sweep_of inp -> Pos c <= Pos c')) /\
  ((forall c, c ∈ sweep_of inp -> Float.finite (score (score_of inp c))) ->
   forall c, c ∈ sweep_of inp ->
     cut_le (bool_decide (dTTL (Evaluate oor inp) = TTLCold) && DeepCutWhenCold (cIdle (Cfg inp))) (score_of inp c) (score_of inp p)).
Proof.
  intros Hw. destruct (evaluate_fields oor inp Hw) as (_ & _ & Ht & _ & _ & _ & Hv). cbv zeta. rewrite Ht.
  destruct (fired_of _); [|by injection Hv as -> _ _]. destruct (best_of inp) as [best|] eqn:Hb; injection Hv as -> -> _; [|done].
  intros _. unfold best_of in Hb. pose proof (chooseP_in _ _ _ _ Hb) as (c0 & -> & Hc0)%list_elem_of_fmap.
  change (sc (score_of inp c0)) with c0. split; [by eapply legal_incl, sweep_legal|].
  split; [intros Hf c; eapply legal_round; [by apply sweep_legal|done]|]. split; [done|]. split; [apply sweep_highest|].
  intros Hf c Hc. eapply chooseP_best; [done| |apply list_elem_of_fmap; by exists c].
  intros y (c' & -> & Hc')%list_elem_of_fmap. by apply Hf.
Qed.

Lemma evaluate_cut_witness : P (Evaluate id (sample_inputs 180000 150000 sample_cands)) ∈ sample_cands.
Proof. apply (evaluate_cut id (sample_inputs 180000 150000 sample_cands)); [done|by vm_compute]. Defined.

Definition with_candidates (inp : Inputs) (cands : list Candidate) : Inputs :=
  MkInputs (Now inp) (ContextTokens inp) (iEffectiveWindow inp) (LastAPICallTS inp) (LastCacheWriteTS inp) (BurnRateTokensPerMin inp)
    (MeasuredDeltaSeconds inp) (Changepoint inp) cands (FrontierTurn inp) (ResidualTokens inp) (Cfg inp) (LastCompactionTS inp)
    (CouplingLambda inp) (Regime inp) (LastRequestStartTS inp) (EffortChanged inp) (ExpiringTriggerFraction inp) (AssumeMaxTTLSeconds inp)
    (HostTriggerAbsent inp).

Lemma observed_candidates inp cands cands' soft hard reg gap cf lambda burn prob m cd n b : length cands = length cands' ->
  observed_terms (with_candidates inp cands) soft hard reg gap cf lambda burn prob m cd n b =
  observed_terms (with_candidates inp cands') soft hard reg gap cf lambda burn prob m cd n b.
Proof. intros Hl. with_strategy transparent [observed_terms] unfold observed_terms. cbn [Candidates with_candidates]. rewrite Hl. exact eq_refl. Qed.

(** C19: the decision does not depend on the order in which candidates at distinct positions are supplied. *)
Theorem evaluate_order_independent oor inp cands cands' : cands ≡ₚ cands' -> NoDup (Pos <$> cands) ->
  Evaluate oor (with_candidates inp cands) = Evaluate oor (with_candidates inp cands').
Proof.
  intros Hp Hn. pose proof (Permutation_length Hp) as Hl. pose proof (prepare_unique _ _ Hp Hn) as He.
  unfold Evaluate. cbn [Candidates with_candidates iEffectiveWindow]. rewrite He. destruct (_ <=? 0); [exact eq_refl|]. cbv zeta.
  destruct (prepareCandidates cands') as [cs mono]. destruct (eligible cs) as [elig relaxed].
  change (regime_of (with_candidates inp cands)) with (regime_of (with_candidates inp cands')).
  change (cadence_of (with_candidates inp cands)) with (cadence_of (with_candidates inp cands')).
  change (conditions_of (with_candidates inp cands)) with (conditions_of (with_candidates inp cands')).
  change (urgency_of (with_candidates inp cands)) with (urgency_of (with_candidates inp cands')).
  change (planBackground (with_candidates inp cands)) with (planBackground (with_candidates inp cands')).
  cbn [with_candidates Now ContextTokens LastRequestStartTS LastAPICallTS EffortChanged Cfg BurnRateTokensPerMin CouplingLambda Changepoint].
  fold (with_candidates inp cands) (with_candidates inp cands').
  destruct (ClassifyTTL _ _ _ _) as [ttl gap]. destruct (if fired_of _ then _ else _) as [[[should p] pscore] b].
  destruct (urgency_of _ _) as [u capped]. by rewrite (observed_candidates inp cands cands').
Qed.

Lemma evaluate_order_independent_witness :
  Evaluate id (with_candidates (sample_inputs 180000 150000 []) sample_cands) =
  Evaluate id (with_candidates (sample_inputs 180000 150000 []) (reverse sample_cands)).
Proof.
  apply evaluate_order_independent; [by rewrite reverse_Permutation|]. apply (bool_decide_unpack _). exact I.
Defined.

(** Whatever is measured, not-a-number and infinities included, every number of the decision is finite, and its
    thresholds are those of the window and the configuration, the ceiling between 1 and the window. *)
Lemma evaluate_finite oor inp :
  let d := Evaluate oor inp in
  map_Forall (fun _ v => Float.finite v) (Breakdown d) /\ Float.finite (PScore d) /\ Float.finite (YoungDalySeconds d) /\
  SoftFloorTokens d = SoftFloor oor (iEffectiveWindow inp) (Cfg inp) /\
  (0 < iEffectiveWindow inp -> 1 <= HardCeilingTokens d <= iEffectiveWindow inp).
Proof.
  cbv zeta. destruct (Z.leb_spec (iEffectiveWindow inp) 0) as [Hw|Hw].
  - unfold Evaluate, SoftFloor. rewrite (proj2 (Z.leb_le _ _) Hw). cbn [Breakdown PScore YoungDalySeconds SoftFloorTokens orb].
    split; [|refine (conj finite_zero (conj finite_zero (conj eq_refl _))); lia].
    with_strategy transparent [put] unfold put. apply map_Forall_insert_2; [apply finite_one|apply map_Forall_empty].
  - destruct (evaluate_fields oor inp Hw) as (_ & _ & _ & -> & -> & -> & Hv). split; [apply breakdown_finite; done|].
    split; [destruct (fired_of _); [destruct (best_of inp)|]; injection Hv as _ _ ->; apply finiteOrZero_finite || apply finite_zero|].
    refine (conj (finiteOrZero_finite _) (conj eq_refl _)). intros _. unfold hard_of, HardCeiling.
    rewrite (proj2 (Z.leb_gt _ _) Hw), Z.gtb_ltb. destruct (Z.ltb_spec (s64 (s64 (iEffectiveWindow inp - HostAutoCompactBuffer) - HardCeilingMargin (Cfg inp))) 1);
      [destruct (Z.ltb_spec (iEffectiveWindow inp) 1)|destruct (Z.ltb_spec (iEffectiveWindow inp) (s64 (s64 (iEffectiveWindow inp - HostAutoCompactBuffer) - HardCeilingMargin (Cfg inp))))]; lia.
Qed.

(** A window of 50000 with the default configuration puts the soft floor above the ceiling: between the two
    the urgency is "now" although nothing is recommended and no reason is given. *)
Example urgency_without_trigger :
  let d := Evaluate id (sample_inputs 50000 20000 sample_cands) in
  (SoftFloorTokens d, HardCeilingTokens d, dUrgency d, ShouldCompact d, Reasons d) = (27500, 17000, UrgencyNow, false, []).
Proof. vm_compute. reflexivity. Qed.

(** ** The capability register and the warm prior *)

(** Without the opt-in nothing is available, and with it no control over the host is. *)
Lemma register_off c cfg : Require_ok false c cfg = false.
Proof. unfold Require_ok, Supports. destruct (bool_decide _); [done|]. by destruct (bool_decide _). Qed.

Lemma register_no_native e c cfg : c ∈ unsupportedCaps -> Require_ok e c cfg = false.
Proof. intros H. unfold Require_ok, Supports. by rewrite bool_decide_eq_true_2. Qed.

Lemma register_known e c cfg : Require_ok e c cfg = true -> e = true /\ c ∈ experimentalCaps.
Proof.
  unfold Require_ok, Supports. destruct (bool_decide (c ∈ unsupportedCaps)); [done|].
  destruct (bool_decide_reflect (c ∈ experimentalCaps)); [|done]. by destruct e.
Qed.

(** The band of a resolved regime is never inverted, and only the unknown rung leaves it open. *)
Lemma regime_band getenv cfg model sub ceiling : let r := ResolveCacheRegime getenv cfg model sub ceiling in
  TTLMinSeconds r <= TTLMaxSeconds r /\ (TTLMinSeconds r < TTLMaxSeconds r -> rgSource r = regimeSourceUnknown).
Proof.
  cbv zeta. unfold ResolveCacheRegime. repeat case_match; cbn [TTLMinSeconds TTLMaxSeconds disabledRegime fiveMinuteRegime oneHourRegime UnknownRegime rgSource]; (split; [lia|]); intros Hlt; try reflexivity; lia.
Qed.

(** A prior is applied only past every rung of the ladder, and one that is not applied weighs nothing and
    leaves the observation as it is. *)
Lemma warm_ladder Exp2 e p : wApply (WarmStart Exp2 e p) = true ->
  Authorized e = true /\ 1 <= Sessions e /\ MinSessions p <= Sessions e /\ 1 <= Observations e /\ MinObservations p <= Observations e /\
  isNaN (AgeSeconds e) = false /\ F64.lt (AgeSeconds e) Float.zero = false.
Proof.
  unfold WarmStart. cbv zeta. cbn [MinSessions MinObservations Clamp]. destruct (Authorized e); cbn [negb]; [|done].
  destruct (Z.ltb_spec (Sessions e) (Z.max (MinSessions p) 1)); [done|]. destruct (Z.ltb_spec (Observations e) (Z.max (MinObservations p) 1)); [done|].
  cbn [orb]. destruct (isNaN (AgeSeconds e)); [done|]. destruct (F64.lt (AgeSeconds e) Float.zero); [done|]. intros _.
  repeat split; lia.
Qed.

Lemma warm_refused Exp2 e p prior observed n : wApply (WarmStart Exp2 e p) = false ->
  Weight (WarmStart Exp2 e p) = Float.zero /\ Blend prior observed n (WarmStart Exp2 e p) = observed.
Proof.
  intros H. split; [|unfold Blend; by rewrite H]. revert H. unfold WarmStart. cbv zeta.
  destruct (negb _); [done|]. destruct (_ || _); [done|]. destruct (_ || _); [done|]. destruct (_ && _); [done|].
  by destruct (Float.le _ _ || isNaN _).
Qed.

(** A tool of a server, of an agent or of no known name is never dropped by its name. *)
Lemma drop_by_name tool : DropClassOf tool false false = DropOrdinary <->
  lower (TrimSpace tool) ∈ compactableTools.
Proof.
  unfold DropClassOf. cbv zeta. assert (forall n, n ∈ compactableTools -> HasPrefix n mcpToolPrefix = false /\ n ∉ preservedTools) as Hd.
  { apply Forall_forall, (bool_decide_unpack _). exact I. }
  destruct (decide (lower (TrimSpace tool) ∈ compactableTools)) as [Hc|Hc].
  - destruct (Hd _ Hc) as [-> Hp]. by rewrite bool_decide_eq_false_2, bool_decide_eq_true_2.
  - rewrite (bool_decide_eq_false_2 _ Hc). destruct (HasPrefix _ _); [done|]. by destruct (bool_decide _).
Qed.
