(* ===== verification/GcGate.v ===== *)
(** * The serializer of collection passes

    Models [src/internal/store/gcgate.go] with the policy and report types of [gc.go]: one store runs one
    collection pass at a time, a request that finds a pass running waits, and one follow-up pass answers all
    that wait.  Each critical section under [gcGate.mu] is one event; so are the end of a context, the end of
    a pass, and a waiting call resuming.  A trace of events is one interleaving of any number of calls.  The
    pass itself is outside: it ends with any report, any error, or a panic. *)

From S2P Require Import Prelude GoLib Core.

(** ** Policies and reports ([gc.go], [lifecycle.go]) *)

Record GCPolicy := MkPolicy {
  RetainDays : Z; RetainSessions : Z; DryRun : bool; Deadline : Z; QuotaBytes : Z; MaxOutcomes : Z
}.

#[global] Instance GCPolicy_eq_dec : EqDecision GCPolicy. Proof. solve_decision. Defined.

Definition defaultMaxOutcomes : Z := 1024.

Inductive RootResult := RootRetained | RootExpired | RootQuotaEvicted | RootUnsafeToCollect.

Inductive RetentionClass :=
  | RetentionLease | RetentionPending | RetentionCheckpoint | RetentionPin | RetentionEvidence | RetentionDeltaBase | RetentionRollback.

(** The class is absent where none applies. *)
Record RootOutcome := MkOutcome {
  roRoot : bytes; roResult : RootResult; roClass : option RetentionClass; roReason : bytes; roBytes : Z
}.

Record GCReport := MkReport {
  ScannedObjects : Z; LiveObjects : Z; DeletedObjects : Z; BytesFreed : Z; Roots : Z; Duration : Z; Truncated : bool;
  Retained : Z; Expired : Z; QuotaEvicted : Z; Unsafe : Z; Outcomes : list RootOutcome; OutcomesTruncated : bool;
  rQuotaBytes : Z; QuotaBytesBefore : Z; QuotaTargetBytes : Z; QuotaExceeded : bool; PendingWrites : Z; PendingExpired : Z;
  RetentionRootsError : bool; DeliveryCarryOverBound : bool; RetentionRootsShed : Z
}.

Definition zero_report : GCReport :=
  MkReport 0 0 0 0 0 0 false 0 0 0 0 [] false 0 0 0 false 0 0 false false 0.

(** An error, by the context error it wraps, if it wraps one. *)
Inductive ctx_error := Canceled | DeadlineExceeded.
Record gc_error := MkErr { wraps : option ctx_error; text : bytes }.

(** ** Keys *)

Definition gcRetentionDisabled : Z := -1.

(** The retention windows of the configuration. *)
Record RetentionCfg := MkRetention { cfgDays : Z; cfgSessions : Z }.

Definition resolveRetention (cfg : RetentionCfg) (p : GCPolicy) : Z * Z :=
  let days := if RetainDays p =? 0 then cfgDays cfg else RetainDays p in
  let sessions := if RetainSessions p =? 0 then cfgSessions cfg else RetainSessions p in
  (if days <? 0 then gcRetentionDisabled else days, if sessions <? 0 then gcRetentionDisabled else sessions).

Record gcPolicyKey := MkKey { kdays : Z; ksessions : Z; kdryRun : bool; kquota : Z; kmaxOutcomes : Z }.

#[global] Instance gcPolicyKey_eq_dec : EqDecision gcPolicyKey. Proof. solve_decision. Defined.

Definition gcKey (cfg : RetentionCfg) (p : GCPolicy) : gcPolicyKey :=
  let '(days, sessions) := resolveRetention cfg p in
  MkKey days sessions (DryRun p) (if QuotaBytes p <? 0 then 0 else QuotaBytes p)
    (if MaxOutcomes p =? 0 then defaultMaxOutcomes else if MaxOutcomes p <? 0 then -1 else MaxOutcomes p).

(** ** Requests and outcomes *)

Record gcOutcome := MkGcOutcome { op : GCPolicy; okey : gcPolicyKey; orep : GCReport; oerr : option gc_error; panicked : bool }.

(** The fate carries what is written with it: the number of the elected pass, the outcome that answers. *)
Inductive gcFate := gcWaiting | gcElected (seq : Z) | gcServed (out : gcOutcome) | gcWithdrawn.

(** A waiting request: its identity, which stands for the pointer, and the fields that never change.
    Its fate is in the gate's [fates]. *)
Record gcWaiter := MkWaiter { who : nat; wctx : nat; wp : GCPolicy; wkey : gcPolicyKey; floor : Z }.

#[global] Instance gcWaiter_eq_dec : EqDecision gcWaiter. Proof. solve_decision. Defined.

Definition gcDeadlineLonger (a b : Z) : bool :=
  if a <=? 0 then b >? 0 else if b <=? 0 then false else a >? b.

(** Whether an error is a context's. *)
Definition is_ctx_error (e : option gc_error) : bool := match e with Some e => bool_decide (is_Some (wraps e)) | None => false end.

Definition serves (o : gcOutcome) (w : gcWaiter) : bool :=
  if panicked o then false
  else if is_ctx_error (oerr o) then false
  else if negb (bool_decide (okey o = wkey w)) then false
  else if Truncated (orep o) && gcDeadlineLonger (Deadline (wp w)) (Deadline (op o)) then false
  else true.

(** The report is copied, its outcomes too. *)
Definition report (o : gcOutcome) : GCReport := orep o.

(** ** The gate *)

(** A call of [serializeGC]: blocked in its select, inside [runGCPass], returned, or ended by a panic. *)
Inductive call :=
  | Blocked (w : gcWaiter) | Passing (p : GCPolicy) (key : gcPolicyKey) (seq : Z)
  | Returned (rep : GCReport) (err : option gc_error) | Crashed.

Record gate := MkGate {
  running : bool; seq : Z; queue : list gcWaiter; fates : gmap nat gcFate;
  calls : gmap nat call; ended : gmap nat ctx_error; gcQueued : Z; gcShared : Z
}.

Definition idle : gate := MkGate false 0 [] ∅ ∅ ∅ 0 0.

Definition set_call (i : nat) (c : call) (g : gate) : gate :=
  MkGate (running g) (seq g) (queue g) (fates g) (<[i := c]> (calls g)) (ended g) (gcQueued g) (gcShared g).

(** [slices.DeleteFunc] with a function that decides a fate and closes the channel of what it deletes. *)
Definition undecided (d : gcWaiter -> option gcFate) (w : gcWaiter) : bool := bool_decide (d w = None).

Definition decide_fates (d : gcWaiter -> option gcFate) (q : list gcWaiter) (fs : gmap nat gcFate) : gmap nat gcFate :=
  fold_left (fun fs w => match d w with Some f => <[who w := f]> fs | None => fs end) q fs.

Definition deleteFunc (d : gcWaiter -> option gcFate) (g : gate) : gate :=
  MkGate (running g) (seq g) (List.filter (undecided d) (queue g)) (decide_fates d (queue g) (fates g))
    (calls g) (ended g) (gcQueued g) (gcShared g).

(** [ctx.Err()]. *)
Definition ctx_Err (g : gate) (c : nat) : option gc_error := (fun e => MkErr (Some e) []) <$> ended g !! c.

Definition withdraw_ended (g : gate) (w : gcWaiter) : option gcFate := match ended g !! wctx w with Some _ => Some gcWithdrawn | None => None end.

(** The scan for the request that starts the next pass. *)
Definition longest (kind : gcPolicyKey) (best iw : nat * gcWaiter) : nat * gcWaiter :=
  if bool_decide (wkey iw.2 = kind) && gcDeadlineLonger (Deadline (wp iw.2)) (Deadline (wp best.2)) then iw else best.

Definition electLocked (g : gate) : gate :=
  let g := deleteFunc (withdraw_ended g) g in
  match queue g with
  | [] => g
  | w0 :: _ =>
      let '(best, w) := fold_left (longest (wkey w0)) (imap pair (queue g)) (0%nat, w0) in
      let n := add64 (seq g) 1 in
      MkGate true n (delete best (queue g)) (<[who w := gcElected n]> (fates g)) (calls g) (ended g) (gcQueued g) (gcShared g)
  end.

Definition answered (n : Z) (out : gcOutcome) (w : gcWaiter) : option gcFate :=
  if (floor w >=? n) || negb (serves out w) then None else Some (gcServed out).

Definition finishGCPass (n : Z) (out : gcOutcome) (g : gate) : gate :=
  let g := MkGate false (seq g) (queue g) (fates g) (calls g) (ended g) (gcQueued g) (gcShared g) in
  electLocked (deleteFunc (answered n out) g).

(** What [runGCPass] hands to the gate when its pass ends: nothing but the policy when it panicked. *)
Definition outcome_of (p : GCPolicy) (key : gcPolicyKey) (r : option (GCReport * option gc_error)) : gcOutcome :=
  match r with
  | None => MkGcOutcome p key zero_report None true
  | Some (rep, err) => MkGcOutcome p key rep err false
  end.

(** ** Events *)

Inductive event :=
  | Call (i c : nat) (p : GCPolicy)       (** the first critical section of [serializeGC] *)
  | CtxEnds (c : nat) (e : ctx_error)     (** a context ends *)
  | PassEnds (i : nat) (r : option (GCReport * option gc_error))  (** the pass of a call returns, or panics *)
  | Wake (i : nat)                        (** a call whose channel is closed resumes *)
  | Withdraw (i : nat).                   (** a call whose context ended takes itself out of the queue *)

Section Step.
Context (cfg : RetentionCfg).

Definition enter (i c : nat) (p : GCPolicy) (g : gate) : gate :=
  let key := gcKey cfg p in
  if negb (running g) then
    let n := add64 (seq g) 1 in
    set_call i (Passing p key n) (MkGate true n (queue g) (fates g) (calls g) (ended g) (gcQueued g) (gcShared g))
  else
    let w := MkWaiter i c p key (seq g) in
    set_call i (Blocked w)
      (MkGate (running g) (seq g) (queue g ++ [w]) (<[i := gcWaiting]> (fates g)) (calls g) (ended g) (gcQueued g + 1) (gcShared g)).

Definition runGCPass_ends (i : nat) (p : GCPolicy) (key : gcPolicyKey) (n : Z) (r : option (GCReport * option gc_error)) (g : gate) : gate :=
  set_call i (match r with None => Crashed | Some (rep, err) => Returned rep err end) (finishGCPass n (outcome_of p key r) g).

Definition resume (i : nat) (w : gcWaiter) (f : gcFate) (g : gate) : option gate :=
  match f with
  | gcWaiting => None
  | gcElected n => Some (set_call i (Passing (wp w) (wkey w) n) g)
  | gcServed out =>
      Some (set_call i (Returned (report out) (oerr out))
        (MkGate (running g) (seq g) (queue g) (fates g) (calls g) (ended g) (gcQueued g) (gcShared g + 1)))
  | gcWithdrawn => Some (set_call i (Returned zero_report (ctx_Err g (wctx w))) g)
  end.

Definition leave (i : nat) (w : gcWaiter) (g : gate) : gate :=
  set_call i (Returned zero_report (ctx_Err g (wctx w)))
    (MkGate (running g) (seq g) (List.filter (fun q => negb (who q =? who w)%nat) (queue g)) (<[i := gcWithdrawn]> (fates g))
       (calls g) (ended g) (gcQueued g) (gcShared g)).

(** One event; [None] when it cannot happen in this state. *)
Definition step (e : event) (g : gate) : option gate :=
  match e with
  | Call i c p => match calls g !! i with Some _ => None | None => Some (enter i c p g) end
  | CtxEnds c e =>
      match ended g !! c with
      | Some _ => None
      | None => Some (MkGate (running g) (seq g) (queue g) (fates g) (calls g) (<[c := e]> (ended g)) (gcQueued g) (gcShared g))
      end
  | PassEnds i r => match calls g !! i with Some (Passing p key n) => Some (runGCPass_ends i p key n r g) | _ => None end
  | Wake i =>
      match calls g !! i, fates g !! i with Some (Blocked w), Some f => resume i w f g | _, _ => None end
  | Withdraw i =>
      match calls g !! i, fates g !! i with
      | Some (Blocked w), Some gcWaiting => match ended g !! wctx w with Some _ => Some (leave i w g) | None => None end
      | _, _ => None
      end
  end.

Fixpoint run (tr : list event) (g : gate) : option gate :=
  match tr with
  | [] => Some g
  | e :: tr => match step e g with Some g => run tr g | None => None end
  end.

End Step.
