(* ===== verification/GcGateSpec.v ===== *)
(** * What the serializer of collection passes guarantees

    Over every interleaving of calls, endings of contexts and endings of passes: one pass at a time, answers
    only from passes that started after the request, one follow-up for everyone of a kind, and no request
    lost. *)

From S2P Require Import Prelude GoLib Core GcGate.

(** ** The holder of the gate *)

(** The pass a call holds the gate for: the one it is inside, or the one it was elected for. *)
Definition pass_of (g : gate) (i : nat) : option (GCPolicy * gcPolicyKey * Z) :=
  match calls g !! i with
  | Some (Passing p key n) => Some (p, key, n)
  | Some (Blocked w) => match fates g !! i with Some (gcElected n) => Some (wp w, wkey w, n) | _ => None end
  | _ => None
  end.

(** The queue is the undecided requests, each once. *)
Record queue_ok (g : gate) : Prop := {
  q_seq : 0 <= seq g;
  q_nodup : NoDup (who <$> queue g);
  q_queue : forall w, w ∈ queue g -> calls g !! who w = Some (Blocked w) /\ fates g !! who w = Some gcWaiting;
  q_wait : forall i w, calls g !! i = Some (Blocked w) ->
    who w = i /\ 0 <= floor w <= seq g /\ exists f, fates g !! i = Some f /\ (f = gcWaiting -> w ∈ queue g);
  q_fate : forall i, calls g !! i = None -> fates g !! i = None
}.

Record gate_ok (g : gate) : Prop := {
  g_queue : queue_ok g;
  g_number : forall i p key n, pass_of g i = Some (p, key, n) -> running g = true /\ n = seq g;
  g_one : forall i j x y, pass_of g i = Some x -> pass_of g j = Some y -> i = j;
  g_running : running g = true -> exists i x, pass_of g i = Some x;
  g_idle : running g = false -> queue g = [];
  g_longest : forall i p key n w, pass_of g i = Some (p, key, n) -> w ∈ queue g -> floor w < n -> wkey w = key ->
    gcDeadlineLonger (Deadline (wp w)) (Deadline p) = false
}.

Lemma idle_ok : gate_ok idle.
Proof.
  assert (forall i, pass_of idle i = None) as Hp by (intros i; unfold pass_of; cbn [calls idle]; by rewrite lookup_empty).
  constructor; cbn [running idle]; try done; try (intros; by rewrite Hp in *).
  constructor; cbn [seq queue calls fates idle]; try done; [constructor|by intros w ?%not_elem_of_nil].
Qed.

(** ** Deciding fates *)

Lemma decide_fates_other d q fs i : (forall w, w ∈ q -> who w = i -> d w = None) -> decide_fates d q fs !! i = fs !! i.
Proof.
  unfold decide_fates. revert fs. induction q as [|w q IH]; intros fs H; cbn; [done|].
  rewrite IH by (intros w' Hw'; apply H; by right). destruct (d w) eqn:E; [|done].
  rewrite lookup_insert_ne; [done|]. intros He. rewrite (H w) in E; [done|by left|done].
Qed.

Lemma decide_fates_in d q fs w f : NoDup (who <$> q) -> w ∈ q -> d w = Some f -> decide_fates d q fs !! who w = Some f.
Proof.
  revert fs. induction q as [|x q IH]; intros fs; [by intros _ ?%not_elem_of_nil|].
  rewrite fmap_cons, NoDup_cons. intros [Hx Hn] [->|Hw]%elem_of_cons Hd.
  - unfold decide_fates. cbn [fold_left]. rewrite Hd. fold (decide_fates d q (<[who x := f]> fs)).
    rewrite decide_fates_other, lookup_insert_eq; [done|]. intros w' Hw' He. destruct Hx. rewrite <- He. by apply list_elem_of_fmap_2.
  - apply IH; done.
Qed.

(** A fate is an old one or was just decided. *)
Lemma decide_fates_inv d q fs i f : decide_fates d q fs !! i = Some f -> fs !! i = Some f \/ exists w, w ∈ q /\ who w = i /\ d w = Some f.
Proof.
  unfold decide_fates. revert fs. induction q as [|x q IH]; intros fs; cbn; [by left|]. intros [H|(w & Hw & Hi & Hd)]%IH.
  - destruct (d x) as [f'|] eqn:E; [|by left]. apply lookup_insert_Some in H as [[<- <-]|[_ H]]; [|by left]. right. exists x. set_solver.
  - right. exists w. set_solver.
Qed.

Lemma filter_undecided d q w : w ∈ List.filter (undecided d) q <-> w ∈ q /\ d w = None.
Proof. rewrite !list_elem_of_In, filter_In. unfold undecided. by rewrite bool_decide_eq_true. Qed.

Lemma NoDup_fmap_filter {A B} (f : A -> B) (b : A -> bool) l : NoDup (f <$> l) -> NoDup (f <$> List.filter b l).
Proof.
  induction l as [|x l IH]; cbn; [done|]. rewrite NoDup_cons. intros [Hx Hn]. destruct (b x); cbn; [|by apply IH].
  rewrite NoDup_cons. split; [|by apply IH]. intros (y & He & Hy)%list_elem_of_fmap. apply Hx. rewrite He. apply list_elem_of_fmap_2.
  rewrite list_elem_of_In in Hy |- *. by apply filter_In in Hy as [? _].
Qed.

(** A deletion decides a fate that is neither waiting nor an election. *)
Definition settles (d : gcWaiter -> option gcFate) : Prop :=
  forall w f, d w = Some f -> match f with gcServed _ | gcWithdrawn => True | _ => False end.

Lemma delete_fate d g i w : queue_ok g -> calls g !! i = Some (Blocked w) ->
  fates (deleteFunc d g) !! i = if bool_decide (w ∈ queue g) then match d w with Some f => Some f | None => fates g !! i end else fates g !! i.
Proof.
  intros Hq Hc. destruct (q_wait g Hq i w Hc) as (<- & _ & _). cbn [deleteFunc fates]. destruct (bool_decide_reflect (w ∈ queue g)) as [Hw|Hw].
  - destruct (d w) eqn:E; [by apply decide_fates_in; [apply Hq| |]|]. apply decide_fates_other. intros w' Hw' He.
    destruct (q_queue g Hq w' Hw') as [Hc' _]. rewrite He, Hc in Hc'. by injection Hc' as <-.
  - apply decide_fates_other. intros w' Hw' He. destruct (q_queue g Hq w' Hw') as [Hc' _]. rewrite He, Hc in Hc'. injection Hc' as <-. done.
Qed.

Lemma delete_ok d g : queue_ok g -> settles d -> queue_ok (deleteFunc d g).
Proof.
  intros Hq Hd. constructor; cbn [deleteFunc seq queue calls fates].
  - apply Hq.
  - apply NoDup_fmap_filter, Hq.
  - intros w [Hw Hn]%filter_undecided. destruct (q_queue g Hq w Hw) as [Hc Hf]. split; [done|].
    pose proof (delete_fate d g _ _ Hq Hc) as He. cbn [deleteFunc fates] in He. by rewrite He, bool_decide_eq_true_2, Hn.
  - intros i w Hc. destruct (q_wait g Hq i w Hc) as (Hi & Hb & f & Hf & Hin). split; [done|]. split; [done|].
    pose proof (delete_fate d g i w Hq Hc) as He. cbn [deleteFunc fates] in He. rewrite He, Hf. case_bool_decide as Hw.
    + destruct (d w) as [f'|] eqn:E; [|exists f; split; [done|]; intros ->; by apply filter_undecided].
      exists f'. split; [done|]. intros ->. by specialize (Hd w _ E).
    + exists f. split; [done|]. intros ->. destruct Hw. by apply Hin.
  - intros i Hc. rewrite decide_fates_other; [by apply Hq|]. intros w Hw <-. destruct (q_queue g Hq w Hw). congruence.
Qed.

Lemma delete_pass d g i : queue_ok g -> settles d -> pass_of (deleteFunc d g) i = pass_of g i.
Proof.
  intros Hq Hd. unfold pass_of. cbn [deleteFunc calls]. destruct (calls g !! i) as [[w| | |]|] eqn:Hc; try done.
  rewrite (delete_fate d g i w Hq Hc). case_bool_decide as Hw; [|done]. destruct (d w) as [f|] eqn:E; [|done].
  destruct (q_queue g Hq w Hw) as [_ Hf]. destruct (q_wait g Hq i w Hc) as (<- & _). rewrite Hf.
  specialize (Hd w f E). by destruct f.
Qed.

(** ** The election *)

Lemma longer_asym a b : gcDeadlineLonger a b = true -> gcDeadlineLonger b a = false.
Proof. unfold gcDeadlineLonger. repeat case_match; lia. Qed.

Lemma longer_chain a b c : gcDeadlineLonger a b = false -> gcDeadlineLonger b c = false -> gcDeadlineLonger a c = false.
Proof. unfold gcDeadlineLonger. repeat case_match; lia. Qed.

Lemma longer_irrefl a : gcDeadlineLonger a a = false.
Proof. unfold gcDeadlineLonger. repeat case_match; lia. Qed.

(** The scan ends at a request of the kind that nobody of the kind outlasts. *)
Lemma longest_scan kind l best : wkey best.2 = kind ->
  let r := fold_left (longest kind) l best in
  r ∈ best :: l /\ wkey r.2 = kind /\
  forall x, x ∈ best :: l -> wkey x.2 = kind -> gcDeadlineLonger (Deadline (wp x.2)) (Deadline (wp r.2)) = false.
Proof.
  cbv zeta. revert best. induction l as [|y l IH]; intros best Hk; cbn [fold_left].
  - split; [by apply list_elem_of_singleton|]. split; [done|]. intros x ->%list_elem_of_singleton _. apply longer_irrefl.
  - assert (wkey (longest kind best y).2 = kind) as Hk' by (unfold longest; case_bool_decide; cbn; [by destruct (gcDeadlineLonger _ _)|done]).
    destruct (IH _ Hk') as (Hin & Hr & Hall). split; [|split; [done|]].
    + apply elem_of_cons in Hin as [Hin|Hin]; [|set_solver]. rewrite Hin. unfold longest. destruct (_ && _); set_solver.
    + set (r := fold_left _ _ _) in *. intros x [->|[->|Hx]%elem_of_cons]%elem_of_cons Hxk; [| |apply Hall; set_solver].
      all: pose proof (Hall (longest kind best y) ltac:(left) Hk') as Hb; unfold longest in Hb, Hall.
      * destruct (bool_decide _ && gcDeadlineLonger _ _) eqn:E; [|done]. apply andb_true_iff in E as [_ E].
        eapply longer_chain; [|exact Hb]. by apply longer_asym.
      * rewrite bool_decide_eq_true_2 in Hb by done. cbn [andb] in Hb. destruct (gcDeadlineLonger (Deadline (wp y.2)) _) eqn:E; [done|].
        by eapply longer_chain.
Qed.

(** A gate handed to a waiting request. *)
Definition hand_over (g : gate) (b : nat) (w : gcWaiter) : gate :=
  MkGate true (seq g + 1) (delete b (queue g)) (<[who w := gcElected (seq g + 1)]> (fates g)) (calls g) (ended g) (gcQueued g) (gcShared g).

Definition elects (g : gate) (b : nat) (w : gcWaiter) : Prop :=
  queue g !! b = Some w /\ (exists w0, head (queue g) = Some w0 /\ wkey w = wkey w0) /\
  forall x, x ∈ queue g -> wkey x = wkey w -> gcDeadlineLonger (Deadline (wp x)) (Deadline (wp w)) = false.

Lemma elem_of_imap_pair {A} (l : list A) i x : (i, x) ∈ imap pair l <-> l !! i = Some x.
Proof.
  rewrite list_elem_of_lookup. setoid_rewrite list_lookup_imap. split.
  - intros (j & (y & Hy & [= -> ->])%fmap_Some). done.
  - intros H. exists i. by rewrite H.
Qed.

Lemma electLocked_cases g : seq g + 1 < 2 ^ 64 -> 0 <= seq g ->
  let g1 := deleteFunc (withdraw_ended g) g in
  (queue g1 = [] /\ electLocked g = g1) \/ exists b w, elects g1 b w /\ electLocked g = hand_over g1 b w.
Proof.
  intros Hn H0. cbv zeta. unfold electLocked. set (g1 := deleteFunc _ g). assert (seq g1 = seq g) as Hs by done.
  destruct (queue g1) as [|w0 q] eqn:Hq; [by left|]. right.
  destruct (longest_scan (wkey w0) (imap pair (w0 :: q)) (0%nat, w0) eq_refl) as (Hin & Hk & Hall).
  destruct (fold_left _ _ _) as [b w] eqn:E. cbn [snd] in Hk, Hall. exists b, w.
  assert (add64 (seq g1) 1 = seq g1 + 1) as Ha by (unfold add64, u64; rewrite Z.mod_small by lia; done).
  rewrite Ha. unfold hand_over. rewrite Hq. split; [|done]. unfold elects. rewrite Hq. split; [|split].
  - apply elem_of_cons in Hin as [[= -> ->]|Hin]; [done|]. by apply elem_of_imap_pair in Hin.
  - by exists w0.
  - intros x Hx Hxk. apply list_elem_of_lookup in Hx as [i Hi]. apply (Hall (i, x)); [|cbn; congruence].
    right. by apply elem_of_imap_pair.
Qed.

Lemma who_inj g w w' : queue_ok g -> w ∈ queue g -> w' ∈ queue g -> who w = who w' -> w = w'.
Proof. intros Hq H1 H2 He. destruct (q_queue g Hq w H1) as [Hc _], (q_queue g Hq w' H2) as [Hc' _]. congruence. Qed.

Lemma elem_of_delete_queue g b w x : queue_ok g -> queue g !! b = Some w -> x ∈ delete b (queue g) <-> x ∈ queue g /\ x <> w.
Proof.
  intros Hq Hb. pose proof (delete_Permutation _ _ _ Hb) as Hp. pose proof (q_nodup g Hq) as Hn. rewrite Hp, fmap_cons, NoDup_cons in Hn.
  assert (x ∈ queue g <-> x = w \/ x ∈ delete b (queue g)) as Hx by by rewrite Hp at 1; rewrite elem_of_cons.
  destruct Hn as [Hn _]. rewrite Hx. split; [|naive_solver]. intros Hd. split; [by right|]. intros ->.
  apply Hn. by apply list_elem_of_fmap_2.
Qed.

Lemma hand_over_ok g b w : queue_ok g -> queue g !! b = Some w -> queue_ok (hand_over g b w).
Proof.
  intros Hq Hb. assert (w ∈ queue g) as Hw by by eapply list_elem_of_lookup_2. constructor; cbn [hand_over seq queue calls fates].
  - pose proof (q_seq g Hq). lia.
  - pose proof (q_nodup g Hq) as Hn. rewrite (delete_Permutation _ _ _ Hb), fmap_cons, NoDup_cons in Hn. apply Hn.
  - intros x [Hx Hne]%(elem_of_delete_queue g b w) ; [|done..]. destruct (q_queue g Hq x Hx) as [Hc Hf]. split; [done|].
    rewrite lookup_insert_ne; [done|]. intros He. by apply Hne, (who_inj g).
  - intros i x Hc. destruct (q_wait g Hq i x Hc) as (Hi & Hfl & f & Hf & Hin). split; [done|]. split; [lia|].
    destruct (decide (who w = i)) as [<-|Hne]; [rewrite lookup_insert_eq; by eexists|]. rewrite lookup_insert_ne by done.
    exists f. split; [done|]. intros ->. apply (elem_of_delete_queue g b w); [done..|]. split; [by apply Hin|]. congruence.
  - intros i Hc. destruct (q_queue g Hq w Hw). rewrite lookup_insert_ne by congruence. by apply Hq.
Qed.

Lemma hand_over_pass g b w i : queue_ok g -> queue g !! b = Some w ->
  pass_of (hand_over g b w) i = if decide (i = who w) then Some (wp w, wkey w, seq g + 1) else pass_of g i.
Proof.
  intros Hq Hb. assert (w ∈ queue g) as Hw by by eapply list_elem_of_lookup_2. destruct (q_queue g Hq w Hw) as [Hc Hf].
  unfold pass_of. cbn [hand_over calls fates]. case_decide as Hd; [subst i; by rewrite Hc, lookup_insert_eq|].
  by rewrite lookup_insert_ne by done.
Qed.

(** ** Every event keeps the gate in order *)

Lemma queue_ok_ext g g' : seq g' = seq g -> queue g' = queue g -> fates g' = fates g -> calls g' = calls g -> queue_ok g -> queue_ok g'.
Proof. intros Hs Hq Hf Hc [H1 H2 H3 H4 H5]. constructor; rewrite ?Hs, ?Hq, ?Hf, ?Hc; done. Qed.

Lemma pass_of_ext g g' i : fates g' = fates g -> calls g' = calls g -> pass_of g' i = pass_of g i.
Proof. intros Hf Hc. unfold pass_of. by rewrite Hf, Hc. Qed.

(** A call that is over. *)
Definition over (c : call) : Prop := match c with Returned _ _ | Crashed => True | _ => False end.

Definition not_queued (g : gate) (i : nat) : Prop := forall w, w ∈ queue g -> who w <> i.

Lemma set_call_ok i c g : queue_ok g -> not_queued g i -> (match c with Blocked _ => False | _ => True end) -> queue_ok (set_call i c g).
Proof.
  intros Hq Hi Hc. constructor; cbn [set_call seq queue calls fates]; [apply Hq|apply Hq|..].
  - intros w Hw. destruct (q_queue g Hq w Hw). split; [|done]. rewrite lookup_insert_ne; [done|]. intros He. by apply (Hi w Hw).
  - intros j w. destruct (decide (i = j)) as [<-|Hne]; [rewrite lookup_insert_eq; intros [= ->]; done|]. rewrite lookup_insert_ne by done. apply Hq.
  - intros j. destruct (decide (i = j)) as [<-|Hne]; [by rewrite lookup_insert_eq|]. rewrite lookup_insert_ne by done. apply Hq.
Qed.

Lemma set_call_pass i c g j : over c -> pass_of (set_call i c g) j = if decide (j = i) then None else pass_of g j.
Proof.
  intros Hc. unfold pass_of. cbn [set_call calls fates]. case_decide as Hd; [subst; rewrite lookup_insert_eq; by destruct c|].
  by rewrite lookup_insert_ne by done.
Qed.

Lemma passing_not_queued g i p key n : queue_ok g -> calls g !! i = Some (Passing p key n) -> not_queued g i.
Proof. intros Hq Hc w Hw <-. destruct (q_queue g Hq w Hw). congruence. Qed.

Lemma settles_answered n out : settles (answered n out).
Proof. intros w f. unfold answered. destruct (_ || _); [done|]. by intros [= <-]. Qed.

Lemma settles_ended g : settles (withdraw_ended g).
Proof. intros w f. unfold withdraw_ended. destruct (ended g !! wctx w); [|done]. by intros [= <-]. Qed.

(** The gate once the pass that ended and the contexts that ended are dealt with, before the election. *)
Definition released (n : Z) (out : gcOutcome) (g : gate) : gate :=
  let g := MkGate false (seq g) (queue g) (fates g) (calls g) (ended g) (gcQueued g) (gcShared g) in
  let g := deleteFunc (answered n out) g in deleteFunc (withdraw_ended g) g.

Lemma released_ok n out g : queue_ok g -> queue_ok (released n out g).
Proof.
  intros Hq. apply delete_ok; [|apply settles_ended]. apply delete_ok; [|apply settles_answered]. by apply (queue_ok_ext g).
Qed.

Lemma released_pass n out g i : queue_ok g -> pass_of (released n out g) i = pass_of g i.
Proof.
  intros Hq. unfold released. cbv zeta. rewrite delete_pass; [|apply delete_ok; [by apply (queue_ok_ext g)|apply settles_answered]|apply settles_ended].
  rewrite delete_pass; [done|by apply (queue_ok_ext g)|apply settles_answered].
Qed.

Lemma released_queue n out g w : w ∈ queue (released n out g) <->
  w ∈ queue g /\ (n <= floor w \/ serves out w = false) /\ ended g !! wctx w = None.
Proof.
  unfold released. cbn [deleteFunc queue]. rewrite !filter_undecided. unfold withdraw_ended, answered. cbn [deleteFunc ended queue].
  rewrite Z.geb_leb. destruct (ended g !! wctx w), (Z.leb_spec n (floor w)), (serves out w); cbn; naive_solver lia.
Qed.

(** The request is neither answered by the pass nor given up by its caller. *)
Definition remains (n : Z) (out : gcOutcome) (g : gate) (w : gcWaiter) : bool :=
  ((n <=? floor w) || negb (serves out w)) && bool_decide (ended g !! wctx w = None).

Lemma filter_filter_ext {A} (a b c : A -> bool) q : (forall x, c x = b x && a x) -> List.filter a (List.filter b q) = List.filter c q.
Proof. intros H. induction q as [|x q IH]; cbn; [done|]. rewrite H. destruct (b x); cbn; [by rewrite IH|done]. Qed.

Lemma released_remains n out g : queue (released n out g) = List.filter (remains n out g) (queue g).
Proof.
  unfold released. cbn [deleteFunc queue]. apply filter_filter_ext. intros w. unfold remains, undecided, answered, withdraw_ended.
  cbn [deleteFunc ended]. rewrite Z.geb_leb. destruct (_ || _); cbn [andb]; by destruct (ended g !! wctx w).
Qed.

Lemma finish_cases n out g : seq g + 1 < 2 ^ 64 -> 0 <= seq g ->
  (queue (released n out g) = [] /\ finishGCPass n out g = released n out g) \/
  exists b w, elects (released n out g) b w /\ finishGCPass n out g = hand_over (released n out g) b w.
Proof. intros Hn H0. unfold finishGCPass. by apply electLocked_cases. Qed.

Lemma pass_ends_ok i p key n r g : gate_ok g -> seq g + 1 < 2 ^ 64 -> calls g !! i = Some (Passing p key n) -> gate_ok (runGCPass_ends i p key n r g).
Proof.
  intros Hg Hb Hc. pose proof (g_queue g Hg) as Hq. assert (pass_of g i = Some (p, key, n)) as Hp by (unfold pass_of; by rewrite Hc).
  unfold runGCPass_ends. set (c := match r with None => Crashed | Some (rep, err) => Returned rep err end).
  assert (over c) as Ho by (subst c; by destruct r as [[]|]). set (out := outcome_of p key r).
  assert (forall j, j <> i -> pass_of (released n out g) j = None) as Hnone.
  { intros j Hj. rewrite released_pass by done. destruct (pass_of g j) eqn:E; [|done]. destruct Hj. by eapply (g_one g Hg). }
  pose proof (released_ok n out g Hq) as Hr. assert (calls (released n out g) !! i = Some (Passing p key n)) as Hcr by done.
  destruct (finish_cases n out g Hb (q_seq g Hq)) as [[Hnil ->]|(b & w & (Hw & _ & Hl) & ->)].
  - assert (forall j, pass_of (set_call i c (released n out g)) j = None) as Hall.
    { intros j. rewrite set_call_pass by done. case_decide; [done|by apply Hnone]. }
    constructor; try (intros; by rewrite Hall in * ).
    + apply set_call_ok; [done|by apply (passing_not_queued _ _ _ _ _ Hr Hcr)|by destruct c].
    + intros Hrun. discriminate Hrun.
    + intros _. exact Hnil.
  - pose proof (hand_over_ok _ b w Hr Hw) as Hh. assert (w ∈ queue (released n out g)) as Hin by by eapply list_elem_of_lookup_2.
    assert (who w <> i) as Hwi by by apply (passing_not_queued _ _ _ _ _ Hr Hcr).
    assert (forall j, pass_of (set_call i c (hand_over (released n out g) b w)) j =
      if decide (j = who w) then Some (wp w, wkey w, seq g + 1) else None) as Hall.
    { intros j. rewrite set_call_pass by done. rewrite hand_over_pass by done. repeat case_decide; try done; [congruence|by apply Hnone]. }
    constructor; [|intros j p' k' n'|intros j j' x y|intros _; exists (who w); eexists; rewrite Hall; by rewrite decide_True|done|intros j p' k' n' x]; rewrite ?Hall.
    + apply set_call_ok; [done| |by destruct c]. eapply passing_not_queued; [done|]. exact Hcr.
    + case_decide; [|done]. by intros [= <- <- <-].
    + repeat case_decide; congruence.
    + case_decide; [|done]. intros [= <- <- <-] [Hx _]%(elem_of_delete_queue _ b w) _ Hk; [|done..]. by apply Hl.
Qed.

(** A request that finds a pass running. *)
Definition enqueue (w : gcWaiter) (g : gate) : gate :=
  set_call (who w) (Blocked w)
    (MkGate (running g) (seq g) (queue g ++ [w]) (<[who w := gcWaiting]> (fates g)) (calls g) (ended g) (gcQueued g + 1) (gcShared g)).

Lemma enqueue_queue_ok w g : queue_ok g -> calls g !! who w = None -> floor w = seq g -> queue_ok (enqueue w g).
Proof.
  intros Hq Hc Hfl. pose proof (q_seq g Hq) as H0.
  assert (forall x, x ∈ queue g -> who w <> who x) as Hnq by (intros x Hx He; destruct (q_queue g Hq x Hx); congruence).
  constructor; cbn [enqueue set_call seq queue calls fates]; [done|..].
  - rewrite fmap_app, NoDup_app. split; [apply Hq|]. split; [|apply NoDup_singleton]. intros x (y & -> & Hy)%list_elem_of_fmap Hx%list_elem_of_singleton.
    by apply (Hnq y Hy).
  - intros x [Hx|Hx%list_elem_of_singleton]%elem_of_app; [|subst x; by rewrite !lookup_insert_eq]. rewrite !lookup_insert_ne by by apply Hnq. by apply Hq.
  - intros j x. destruct (decide (who w = j)) as [<-|Hne].
    + rewrite !lookup_insert_eq. intros [= <-]. split; [done|]. split; [lia|]. eexists. split; [done|]. intros _. set_solver.
    + rewrite !lookup_insert_ne by done. intros Hx. destruct (q_wait g Hq j x Hx) as (? & ? & f & ? & Hin). split; [done|]. split; [done|].
      exists f. split; [done|]. intros Hf. apply elem_of_app. left. by apply Hin.
  - intros j. destruct (decide (who w = j)) as [<-|Hne]; [by rewrite lookup_insert_eq|]. rewrite !lookup_insert_ne by done. apply Hq.
Qed.

Lemma enqueue_ok w g : gate_ok g -> running g = true -> calls g !! who w = None -> floor w = seq g -> gate_ok (enqueue w g).
Proof.
  intros Hg Hr Hc Hfl. pose proof (g_queue g Hg) as Hq.
  assert (forall j, pass_of (enqueue w g) j = if decide (j = who w) then None else pass_of g j) as Hp.
  { intros j. unfold pass_of. cbn [enqueue set_call calls fates]. case_decide as Hd; [subst; by rewrite !lookup_insert_eq|by rewrite !lookup_insert_ne by done]. }
  assert (forall j x, pass_of g j = Some x -> j <> who w) as Hni by (intros j x Hx ->; unfold pass_of in Hx; by rewrite Hc in Hx).
  constructor; [by apply enqueue_queue_ok|intros j p' k' n'|intros j j' x y|intros _| |intros j p' k' n' x]; rewrite ?Hp.
  - case_decide; [done|]. intros Hx. by destruct (g_number g Hg _ _ _ _ Hx).
  - repeat case_decide; try done. by apply (g_one g Hg).
  - destruct (g_running g Hg Hr) as (h & x & Hx). exists h, x. rewrite Hp, decide_False; [done|by eapply Hni].
  - cbn [enqueue set_call running]. by rewrite Hr.
  - case_decide; [done|]. intros Hx [Hin|Hin%list_elem_of_singleton]%elem_of_app Hf Hk; [by eapply (g_longest g Hg)|]. subst x.
    destruct (g_number g Hg _ _ _ _ Hx) as [_ ->]. lia.
Qed.

(** A request that finds no pass running. *)
Definition start (i : nat) (p : GCPolicy) (key : gcPolicyKey) (g : gate) : gate :=
  set_call i (Passing p key (seq g + 1)) (MkGate true (seq g + 1) (queue g) (fates g) (calls g) (ended g) (gcQueued g) (gcShared g)).

Lemma start_pass_ok i p key g : gate_ok g -> running g = false -> calls g !! i = None -> gate_ok (start i p key g).
Proof.
  intros Hg Hr Hc. pose proof (g_queue g Hg) as Hq. pose proof (q_seq g Hq) as H0. pose proof (g_idle g Hg Hr) as Hnil.
  assert (forall j, pass_of g j = None) as Hnone.
  { intros j. destruct (pass_of g j) as [[[p' k'] n']|] eqn:E; [|done]. destruct (g_number g Hg _ _ _ _ E). congruence. }
  assert (forall j, pass_of (start i p key g) j = if decide (j = i) then Some (p, key, seq g + 1) else None) as Hp.
  { intros j. unfold pass_of. cbn [start set_call calls fates]. case_decide as Hd; [subst; by rewrite lookup_insert_eq|].
    rewrite lookup_insert_ne by done. exact (Hnone j). }
  constructor; [|intros j p' k' n'|intros j j' x y|intros _; exists i; eexists; by rewrite Hp, decide_True|done|intros j p' k' n' x]; rewrite ?Hp.
  - constructor; cbn [start set_call seq queue calls fates]; rewrite ?Hnil; [lia|constructor|by intros ? ?%not_elem_of_nil|..].
    + intros j x. destruct (decide (i = j)) as [<-|Hne]; [by rewrite lookup_insert_eq|]. rewrite lookup_insert_ne by done. intros Hx.
      destruct (q_wait g Hq j x Hx) as (? & ? & f & ? & Hin). split; [done|]. split; [lia|]. exists f. split; [done|]. by rewrite Hnil in Hin.
    + intros j. destruct (decide (i = j)) as [<-|Hne]; [by rewrite lookup_insert_eq|]. rewrite lookup_insert_ne by done. apply Hq.
  - case_decide; [|done]. by intros [= <- <- <-].
  - repeat case_decide; congruence.
  - intros _ Hx. cbn [start set_call queue] in Hx. rewrite Hnil in Hx. by apply not_elem_of_nil in Hx.
Qed.

Lemma enter_cases cfg i c p g : 0 <= seq g -> seq g + 1 < 2 ^ 64 ->
  enter cfg i c p g = if running g then enqueue (MkWaiter i c p (gcKey cfg p) (seq g)) g else start i p (gcKey cfg p) g.
Proof.
  intros H0 Hb. unfold enter, enqueue, start. assert (add64 (seq g) 1 = seq g + 1) as -> by (unfold add64, u64; rewrite Z.mod_small by lia; done).
  by destruct (running g).
Qed.

(** A call that ends without holding the gate. *)
Lemma end_call_ok i c g : gate_ok g -> over c -> pass_of g i = None -> not_queued g i -> gate_ok (set_call i c g).
Proof.
  intros Hg Ho Hi Hnq. assert (forall j, pass_of (set_call i c g) j = pass_of g j) as Hp.
  { intros j. rewrite set_call_pass by done. case_decide; [by subst|done]. }
  destruct Hg as [H1 H2 H3 H4 H5 H6]. constructor; cbn [set_call running queue seq].
  - apply set_call_ok; [done..|by destruct c].
  - intros j p k n. rewrite Hp. apply H2.
  - intros j j' x y. rewrite !Hp. apply H3.
  - intros Hr. destruct (H4 Hr) as (j & x & Hx). exists j, x. by rewrite Hp.
  - done.
  - intros j p k n w. rewrite Hp. apply H6.
Qed.

Lemma gate_ok_ext g g' : running g' = running g -> seq g' = seq g -> queue g' = queue g -> fates g' = fates g -> calls g' = calls g ->
  gate_ok g -> gate_ok g'.
Proof.
  intros Hr Hs Hq Hf Hc [H1 H2 H3 H4 H5 H6]. pose proof (pass_of_ext g g') as Hp.
  constructor; rewrite ?Hr, ?Hs, ?Hq; [by eapply queue_ok_ext|..].
  - intros i p k n. rewrite Hp by done. apply H2.
  - intros i j x y. rewrite !Hp by done. apply H3.
  - intros H. destruct (H4 H) as (i & x & Hx). exists i, x. by rewrite Hp.
  - done.
  - intros i p k n w. rewrite Hp by done. apply H6.
Qed.

Lemma decided_not_queued g i w f : queue_ok g -> calls g !! i = Some (Blocked w) -> fates g !! i = Some f -> f <> gcWaiting -> not_queued g i.
Proof. intros Hq Hc Hf Hne x Hx <-. destruct (q_queue g Hq x Hx). congruence. Qed.

Lemma resume_ok i w f g g' : gate_ok g -> calls g !! i = Some (Blocked w) -> fates g !! i = Some f -> resume i w f g = Some g' -> gate_ok g'.
Proof.
  intros Hg Hc Hf. pose proof (g_queue g Hg) as Hq. destruct f as [|n|out|]; cbn [resume]; intros [= <-].
  - assert (forall j, pass_of (set_call i (Passing (wp w) (wkey w) n) g) j = pass_of g j) as Hp.
    { intros j. unfold pass_of. cbn [set_call calls fates]. destruct (decide (i = j)) as [<-|Hne]; [by rewrite lookup_insert_eq, Hc, Hf|].
      by rewrite lookup_insert_ne by done. }
    pose proof (decided_not_queued g i w _ Hq Hc Hf ltac:(done)) as Hnq. destruct Hg as [H1 H2 H3 H4 H5 H6].
    constructor; cbn [set_call running queue seq]; [by apply set_call_ok|..].
    + intros j p k n'. rewrite Hp. apply H2.
    + intros j j' x y. rewrite !Hp. apply H3.
    + intros Hr. destruct (H4 Hr) as (j & x & Hx). exists j, x. by rewrite Hp.
    + done.
    + intros j p k n' x. rewrite Hp. apply H6.
  - apply end_call_ok; [by apply (gate_ok_ext g)|done|unfold pass_of; cbn [calls fates]; by rewrite Hc, Hf|].
    exact (decided_not_queued g i w _ Hq Hc Hf ltac:(done)).
  - apply end_call_ok; [done|done|unfold pass_of; by rewrite Hc, Hf|]. by eapply decided_not_queued.
Qed.

(** A request that takes itself out is a deletion of one. *)
Definition only (i : nat) (w : gcWaiter) : option gcFate := if (who w =? i)%nat then Some gcWithdrawn else None.

Lemma leave_eq i w g : queue_ok g -> calls g !! i = Some (Blocked w) -> fates g !! i = Some gcWaiting ->
  fates (deleteFunc (only i) g) !! i = Some gcWithdrawn /\ w ∈ queue g /\
  List.filter (fun q => negb (who q =? who w)%nat) (queue g) = queue (deleteFunc (only i) g) /\
  <[i := gcWithdrawn]> (fates g) = fates (deleteFunc (only i) g).
Proof.
  intros Hq Hc Hf. destruct (q_wait g Hq i w Hc) as (Hi & _ & f & Hf' & Hin). assert (w ∈ queue g) as Hw by (apply Hin; congruence).
  assert (only i w = Some gcWithdrawn) as Ho by (unfold only; by rewrite Hi, Nat.eqb_refl).
  assert (fates (deleteFunc (only i) g) !! i = Some gcWithdrawn) as Hd by (rewrite (delete_fate _ g i w) by done; by rewrite bool_decide_eq_true_2, Ho).
  split; [done|]. split; [done|]. split.
  - cbn [deleteFunc queue]. rewrite Hi. apply filter_ext. intros x. unfold undecided, only. by destruct (who x =? i)%nat.
  - apply map_eq. intros j. destruct (decide (i = j)) as [<-|Hne]; [by rewrite lookup_insert_eq|]. rewrite lookup_insert_ne by done.
    cbn [deleteFunc fates]. symmetry. apply decide_fates_other. intros x _ Hx. unfold only. by rewrite (proj2 (Nat.eqb_neq _ _)) by congruence.
Qed.

Lemma settles_only i : settles (only i).
Proof. intros w f. unfold only. destruct (_ =? _)%nat; [|done]. by intros [= <-]. Qed.

Lemma delete_gate_ok d g : gate_ok g -> settles d -> gate_ok (deleteFunc d g).
Proof.
  intros Hg Hd. pose proof (g_queue g Hg) as Hq. pose proof (delete_pass d g) as Hp.
  constructor; [by apply delete_ok|intros i p k n|intros i j x y|intros Hr|intros Hr|intros i p k n w]; rewrite ?Hp by done.
  - apply (g_number g Hg).
  - apply (g_one g Hg).
  - destruct (g_running g Hg Hr) as (i & x & Hx). exists i, x. by rewrite Hp.
  - cbn [deleteFunc queue]. by rewrite (g_idle g Hg Hr).
  - intros Hx [Hw _]%filter_undecided. by eapply (g_longest g Hg).
Qed.

Lemma leave_ok i w g : gate_ok g -> calls g !! i = Some (Blocked w) -> fates g !! i = Some gcWaiting -> gate_ok (leave i w g).
Proof.
  intros Hg Hc Hf. destruct (leave_eq i w g (g_queue g Hg) Hc Hf) as (Hd & Hw & Hq & Hfs). unfold leave. rewrite Hq, Hfs.
  pose proof (delete_gate_ok _ g Hg (settles_only i)) as Hg'. apply end_call_ok; [exact Hg'|done| |].
  - unfold pass_of. cbn [calls fates]. rewrite Hc. by rewrite Hd.
  - exact (decided_not_queued (deleteFunc (only i) g) i w _ (g_queue _ Hg') Hc Hd ltac:(done)).
Qed.

(** ** Reachable gates *)

Section Runs.
Context (cfg : RetentionCfg).

Lemma step_ok e g g' : gate_ok g -> seq g + 1 < 2 ^ 64 -> step cfg e g = Some g' -> gate_ok g'.
Proof.
  intros Hg Hb. pose proof (q_seq g (g_queue g Hg)) as H0. destruct e as [i c p|c e|i r|i|i]; cbn [step].
  - destruct (calls g !! i) eqn:Hc; [done|]. intros [= <-]. rewrite enter_cases by done.
    destruct (running g) eqn:Hr; [by apply enqueue_ok|by apply start_pass_ok].
  - destruct (ended g !! c); [done|]. intros [= <-]. by apply (gate_ok_ext g).
  - destruct (calls g !! i) as [[]|] eqn:Hc; try done. intros [= <-]. by apply pass_ends_ok.
  - destruct (calls g !! i) as [[]|] eqn:Hc; try done. destruct (fates g !! i) eqn:Hf; [|done]. by apply resume_ok.
  - destruct (calls g !! i) as [[]|] eqn:Hc; try done. destruct (fates g !! i) as [[]|] eqn:Hf; try done.
    destruct (ended g !! wctx w); [|done]. intros [= <-]. by apply leave_ok.
Qed.

Lemma step_seq e g g' : 0 <= seq g -> seq g + 1 < 2 ^ 64 -> step cfg e g = Some g' -> seq g <= seq g' <= seq g + 1.
Proof.
  intros H0 Hb. destruct e as [i c p|c e|i r|i|i]; cbn [step].
  - destruct (calls g !! i); [done|]. intros [= <-]. rewrite enter_cases by done. destruct (running g); cbn; lia.
  - destruct (ended g !! c); [done|]. intros [= <-]. cbn. lia.
  - destruct (calls g !! i) as [[|p key n| |]|]; try done. intros [= <-]. unfold runGCPass_ends. cbn [set_call seq].
    destruct (finish_cases n (outcome_of p key r) g Hb H0) as [[_ ->]|(b & w & _ & ->)]; cbn; lia.
  - destruct (calls g !! i) as [[]|]; try done. destruct (fates g !! i) as [[]|]; cbn [resume]; try done; intros [= <-]; cbn; lia.
  - destruct (calls g !! i) as [[w| | |]|]; try done. destruct (fates g !! i) as [[]|]; try done. destruct (ended g !! wctx w); [|done].
    intros [= <-]. cbn. lia.
Qed.

Lemma run_app tr1 tr2 g : run cfg (tr1 ++ tr2) g = match run cfg tr1 g with Some g1 => run cfg tr2 g1 | None => None end.
Proof. revert g. induction tr1 as [|e tr1 IH]; intros g; cbn; [done|]. by destruct (step cfg e g). Qed.

Lemma run_snoc tr e g g' : run cfg (tr ++ [e]) g = Some g' <-> exists g1, run cfg tr g = Some g1 /\ step cfg e g1 = Some g'.
Proof. rewrite run_app. cbn. destruct (run cfg tr g) as [g1|]; [destruct (step cfg e g1) eqn:E|]; naive_solver. Qed.

(** A trace short enough for the 64-bit number of passes. *)
Definition short (tr : list event) : Prop := Z.of_nat (length tr) < 2 ^ 64 - 1.

Lemma reach_seq tr g : run cfg tr idle = Some g -> short tr -> gate_ok g /\ seq g <= Z.of_nat (length tr).
Proof.
  revert g. induction tr as [|e tr IH] using rev_ind; intros g; [intros [= <-] _; split; [apply idle_ok|done]|].
  intros (g1 & H1 & Hs)%run_snoc Hb. unfold short in *. rewrite length_app in *. cbn [length] in *.
  destruct (IH g1 H1 ltac:(lia)) as [Hg Hq]. pose proof (q_seq g1 (g_queue g1 Hg)).
  split; [eapply step_ok; [done|lia|done]|]. pose proof (step_seq e g1 g ltac:(lia) ltac:(lia) Hs). lia.
Qed.

Lemma reach_ok tr g : run cfg tr idle = Some g -> short tr -> gate_ok g.
Proof. intros H Hb. by destruct (reach_seq tr g H Hb). Qed.

Lemma short_app tr1 tr2 : short (tr1 ++ tr2) -> short tr1.
Proof. unfold short. rewrite length_app. lia. Qed.

Lemma reach_bound tr g : run cfg tr idle = Some g -> short tr -> seq g + 1 < 2 ^ 64.
Proof. intros H Hb. destruct (reach_seq tr g H Hb). unfold short in Hb. lia. Qed.

(** ** Where calls, fates and answers come from *)

Lemma finish_calls n out g : calls (finishGCPass n out g) = calls g /\ ended (finishGCPass n out g) = ended g.
Proof. unfold finishGCPass, electLocked. cbv zeta. destruct (queue _); [done|]. by destruct (fold_left _ _ _). Qed.

Lemma finish_fate n out g i f : seq g + 1 < 2 ^ 64 -> 0 <= seq g -> fates (finishGCPass n out g) !! i = Some f ->
  fates g !! i = Some f \/ (exists m, f = gcElected m) \/
  exists w, w ∈ queue g /\ who w = i /\ ((f = gcServed out /\ floor w < n /\ serves out w = true) \/ (f = gcWithdrawn /\ is_Some (ended g !! wctx w))).
Proof.
  intros Hb H0 Hf. assert (fates (released n out g) !! i = Some f \/ exists m, f = gcElected m) as [Hr|Hr].
  { destruct (finish_cases n out g Hb H0) as [[_ He]|(b & w & _ & He)]; rewrite He in Hf; [by left|].
    cbn [hand_over fates] in Hf. apply lookup_insert_Some in Hf as [[_ <-]|[_ Hf]]; [right; by eexists|by left]. }
  2: { right. by left. }
  unfold released in Hr. cbn [deleteFunc fates queue] in Hr. apply decide_fates_inv in Hr as [Hr|(w & [Hw _]%filter_undecided & Hi & Hd)].
  - apply decide_fates_inv in Hr as [Hr|(w & Hw & Hi & Hd)]; [by left|]. right; right. exists w. split; [done|]. split; [done|].
    unfold answered in Hd. rewrite Z.geb_leb in Hd. destruct (Z.leb_spec n (floor w)); [done|]. destruct (serves out w); [|done]. injection Hd as <-. by left.
  - right; right. exists w. split; [done|]. split; [done|]. unfold withdraw_ended in Hd. cbn [deleteFunc ended] in Hd.
    destruct (ended g !! wctx w) eqn:E; [|done]. injection Hd as <-. right. by split.
Qed.

(** What an event may do to the fate of a call. *)
Lemma step_fate e g g' i f : seq g + 1 < 2 ^ 64 -> gate_ok g -> step cfg e g = Some g' -> fates g' !! i = Some f ->
  fates g !! i = Some f \/ f = gcWaiting \/ (exists m, f = gcElected m) \/
  (f = gcWithdrawn /\ exists w, calls g !! i = Some (Blocked w) /\ is_Some (ended g !! wctx w)) \/
  exists j r p key n w, e = PassEnds j r /\ calls g !! j = Some (Passing p key n) /\ f = gcServed (outcome_of p key r) /\
    calls g !! i = Some (Blocked w) /\ floor w < n /\ serves (outcome_of p key r) w = true.
Proof.
  intros Hb Hg. pose proof (g_queue g Hg) as Hq. pose proof (q_seq g Hq) as H0. destruct e as [j c p|c e|j r|j|j]; cbn [step].
  - destruct (calls g !! j); [done|]. intros [= <-]. rewrite enter_cases by done. destruct (running g); cbn [enqueue start set_call fates]; [|by left].
    intros [[_ <-]|[_ H]]%lookup_insert_Some; [right; by left|by left].
  - destruct (ended g !! c); [done|]. intros [= <-]. by left.
  - destruct (calls g !! j) as [[|p key n| |]|] eqn:Hc; try done. intros [= <-] Hf. cbn [runGCPass_ends set_call fates] in Hf.
    apply finish_fate in Hf as [Hf|[Hf|(w & Hw & <- & [(-> & Hfl & Hsv)|(-> & He)])]]; [by left|right; right; by left| |..]; [| |done..].
    + do 4 right. exists j, r, p, key, n, w. destruct (q_queue g Hq w Hw). done.
    + do 3 right. left. split; [done|]. exists w. by destruct (q_queue g Hq w Hw).
  - destruct (calls g !! j) as [[]|]; try done. destruct (fates g !! j) as [[]|]; cbn [resume]; try done; intros [= <-]; by left.
  - destruct (calls g !! j) as [[w| | |]|] eqn:Hc; try done. destruct (fates g !! j) as [[]|]; try done. destruct (ended g !! wctx w) eqn:He; [|done].
    intros [= <-]. cbn [leave set_call fates]. intros [[<- <-]|[_ H]]%lookup_insert_Some; [|by left]. do 3 right. left. split; [done|]. exists w. by rewrite He.
Qed.

(** Contexts stay ended. *)
Lemma step_ended e g g' c x : step cfg e g = Some g' -> ended g !! c = Some x -> ended g' !! c = Some x.
Proof.
  intros Hs He. destruct e as [j c' p|c' e|j r|j|j]; cbn [step] in Hs.
  - destruct (calls g !! j); [done|]. injection Hs as <-. unfold enter. by destruct (negb _).
  - destruct (ended g !! c') eqn:E; [done|]. injection Hs as <-. cbn [ended]. rewrite lookup_insert_ne; [done|congruence].
  - destruct (calls g !! j) as [[|p key n| |]|]; try done. injection Hs as <-. cbn [runGCPass_ends set_call ended]. by destruct (finish_calls n (outcome_of p key r) g) as [_ ->].
  - destruct (calls g !! j) as [[]|]; try done. destruct (fates g !! j) as [[]|]; cbn [resume] in Hs; try done; by injection Hs as <-.
  - destruct (calls g !! j) as [[w| | |]|]; try done. destruct (fates g !! j) as [[]|]; try done. destruct (ended g !! wctx w); [|done]. by injection Hs as <-.
Qed.

Lemma step_blocked e g g' i w : 0 <= seq g -> seq g + 1 < 2 ^ 64 -> step cfg e g = Some g' -> calls g' !! i = Some (Blocked w) ->
  calls g !! i = Some (Blocked w) \/
  (e = Call i (wctx w) (wp w) /\ floor w = seq g /\ wkey w = gcKey cfg (wp w) /\ fates g' !! i = Some gcWaiting).
Proof.
  intros H0 Hb. destruct e as [j c p|c e|j r|j|j]; cbn [step].
  - destruct (calls g !! j); [done|]. intros [= <-]. rewrite enter_cases by done. destruct (running g); cbn [enqueue start set_call calls fates];
      intros [[<- Hx]|[_ H]]%lookup_insert_Some; try (by left). injection Hx as <-. right. cbn [who wctx wp floor wkey]. by rewrite lookup_insert_eq.
  - destruct (ended g !! c); [done|]. intros [= <-]. by left.
  - destruct (calls g !! j) as [[|p key n| |]|]; try done. intros [= <-]. cbn [runGCPass_ends set_call calls].
    destruct (finish_calls n (outcome_of p key r) g) as [-> _]. intros [[_ Hx]|[_ H]]%lookup_insert_Some; [by destruct r as [[]|]|by left].
  - destruct (calls g !! j) as [[]|]; try done. destruct (fates g !! j) as [[]|]; cbn [resume]; try done; intros [= <-]; cbn [set_call calls];
      intros [[_ Hx]|[_ H]]%lookup_insert_Some; (done || by left).
  - destruct (calls g !! j) as [[v| | |]|]; try done. destruct (fates g !! j) as [[]|]; try done. destruct (ended g !! wctx v); [|done].
    intros [= <-]. cbn [leave set_call calls]. intros [[_ Hx]|[_ H]]%lookup_insert_Some; [done|by left].
Qed.

Lemma step_returned e g g' i rep err : step cfg e g = Some g' -> calls g' !! i = Some (Returned rep err) ->
  calls g !! i = Some (Returned rep err) \/ e = PassEnds i (Some (rep, err)) \/
  exists w, calls g !! i = Some (Blocked w) /\
    ((exists out, fates g !! i = Some (gcServed out) /\ rep = report out /\ err = oerr out) \/
     (rep = zero_report /\ err = ctx_Err g (wctx w) /\ (fates g !! i = Some gcWithdrawn \/ is_Some (ended g !! wctx w)))).
Proof.
  destruct e as [j c p|c e|j r|j|j]; cbn [step].
  - destruct (calls g !! j); [done|]. intros [= <-]. unfold enter. cbv zeta. destruct (negb _); cbn [set_call calls];
      intros [[_ Hx]|[_ H]]%lookup_insert_Some; (done || by left).
  - destruct (ended g !! c); [done|]. intros [= <-]. by left.
  - destruct (calls g !! j) as [[|p key n| |]|]; try done. intros [= <-]. cbn [runGCPass_ends set_call calls].
    destruct (finish_calls n (outcome_of p key r) g) as [-> _]. intros [[<- Hx]|[_ H]]%lookup_insert_Some; [|by left].
    destruct r as [[]|]; [|done]. injection Hx as -> ->. right. by left.
  - destruct (calls g !! j) as [[w| | |]|] eqn:Hc; try done. destruct (fates g !! j) as [f|] eqn:Hf; [|done].
    destruct f as [|n|out|]; cbn [resume]; try done; intros [= <-]; cbn [set_call calls]; intros [[<- Hx]|[_ H]]%lookup_insert_Some; try (by left);
      injection Hx as <- <-; right; right; exists w; (split; [done|]); [left; by exists out|right]. split; [done|]. split; [done|]. by left.
  - destruct (calls g !! j) as [[w| | |]|] eqn:Hc; try done. destruct (fates g !! j) as [[]|]; try done. destruct (ended g !! wctx w) eqn:He; [|done].
    intros [= <-]. cbn [leave set_call calls]. intros [[<- Hx]|[_ H]]%lookup_insert_Some; [|by left]. injection Hx as <- <-. right; right. exists w.
    split; [done|]. right. split; [done|]. split; [done|]. right. by rewrite He.
Qed.

(** Where a waiting call came in. *)
Definition arrival (tr : list event) (i : nat) (w : gcWaiter) (tr1 tr2 : list event) (g1 : gate) : Prop :=
  tr = tr1 ++ Call i (wctx w) (wp w) :: tr2 /\ run cfg tr1 idle = Some g1 /\ seq g1 = floor w /\ wkey w = gcKey cfg (wp w).

Lemma blocked_arrival tr g i w : run cfg tr idle = Some g -> short tr -> calls g !! i = Some (Blocked w) -> exists tr1 tr2 g1, arrival tr i w tr1 tr2 g1.
Proof.
  revert g. induction tr as [|e tr IH] using rev_ind; intros g; [by intros [= <-]|]. intros (g1 & H1 & Hs)%run_snoc Hb%short_app Hc.
  pose proof (reach_ok tr g1 H1 Hb) as Hg. pose proof (q_seq g1 (g_queue g1 Hg)). pose proof (reach_bound tr g1 H1 Hb).
  apply (step_blocked e g1 g) in Hc as [Hc|(-> & Hf & Hk & _)]; [| |done..].
  - destruct (IH g1 H1 Hb Hc) as (tr1 & tr2 & g0 & -> & Hr). exists tr1, (tr2 ++ [e]), g0. split; [by rewrite <- app_assoc|done].
  - by exists tr, [], g1.
Qed.

Lemma withdrawn_ended tr g i w : run cfg tr idle = Some g -> short tr -> calls g !! i = Some (Blocked w) -> fates g !! i = Some gcWithdrawn ->
  is_Some (ended g !! wctx w).
Proof.
  revert g. induction tr as [|e tr IH] using rev_ind; intros g; [by intros [= <-]|]. intros (g1 & H1 & Hs)%run_snoc Hb%short_app Hc Hf.
  pose proof (reach_ok tr g1 H1 Hb) as Hg. pose proof (q_seq g1 (g_queue g1 Hg)). pose proof (reach_bound tr g1 H1 Hb).
  assert (is_Some (ended g1 !! wctx w) -> is_Some (ended g !! wctx w)) as He by (intros [x Hx]; exists x; by eapply step_ended).
  apply (step_blocked e g1 g) in Hc as [Hc|(_ & _ & _ & Hw)]; [|congruence|done..]. apply He.
  apply (step_fate e g1 g) in Hf as [Hf|[?|[[]|[(_ & x & Hx & Hend)|(j & r & p & key & n & x & _ & _ & ? & _)]]]]; try done; [by eapply IH|].
  rewrite Hc in Hx. by injection Hx as <-.
Qed.

(** Call [i] is answered with [rep] and [err] by the pass of another call: the pass had not started when [i] came in, is of
    its kind, ended on its own, and was not cut short by a deadline shorter than that of [i]. *)
Definition answered_later (tr : list event) (i : nat) (rep : GCReport) (err : option gc_error) : Prop :=
  exists tr1 c p tr2 j tr3 g1 g2 pj n,
    tr = tr1 ++ Call i c p :: tr2 ++ PassEnds j (Some (rep, err)) :: tr3 /\
    run cfg tr1 idle = Some g1 /\ run cfg (tr1 ++ Call i c p :: tr2) idle = Some g2 /\
    calls g2 !! j = Some (Passing pj (gcKey cfg p) n) /\ seq g1 < n /\
    is_ctx_error err = false /\ (Truncated rep = true -> gcDeadlineLonger (Deadline p) (Deadline pj) = false).

Lemma answered_later_snoc tr e i rep err : answered_later tr i rep err -> answered_later (tr ++ [e]) i rep err.
Proof.
  intros (tr1 & c & p & tr2 & j & tr3 & g1 & g2 & pj & n & -> & H). exists tr1, c, p, tr2, j, (tr3 ++ [e]), g1, g2, pj, n.
  split; [|done]. cbn. rewrite <- !app_assoc. cbn. by rewrite <- !app_assoc.
Qed.

Lemma serves_inv p key r w : serves (outcome_of p key r) w = true ->
  exists rep err, r = Some (rep, err) /\ key = wkey w /\ is_ctx_error err = false /\
    (Truncated rep = true -> gcDeadlineLonger (Deadline (wp w)) (Deadline p) = false).
Proof.
  unfold serves. destruct r as [[rep err]|]; cbn [outcome_of panicked oerr okey orep op]; [|done]. intros H. exists rep, err. revert H.
  destruct (is_ctx_error err); [done|]. case_bool_decide; cbn [negb]; [|done]. by destruct (Truncated rep), (gcDeadlineLonger _ _).
Qed.

Lemma served_later tr g i out : run cfg tr idle = Some g -> short tr -> fates g !! i = Some (gcServed out) -> answered_later tr i (orep out) (oerr out).
Proof.
  revert g. induction tr as [|e tr IH] using rev_ind; intros g; [by intros [= <-]|]. intros (g1 & H1 & Hs)%run_snoc Hb%short_app Hf.
  pose proof (reach_ok tr g1 H1 Hb) as Hg. pose proof (reach_bound tr g1 H1 Hb).
  apply (step_fate e g1 g) in Hf as [Hf|[?|[[]|[(? & _)|(j & r & p & key & n & w & -> & Hj & [= ->] & Hc & Hfl & Hsv)]]]]; try done.
  { eapply answered_later_snoc, IH; done. }
  destruct (blocked_arrival tr g1 i w H1 Hb Hc) as (tr1 & tr2 & g0 & -> & H0 & Hfe & Hk).
  apply serves_inv in Hsv as (rep & err & -> & -> & Herr & Ht). exists tr1, (wctx w), (wp w), tr2, j, [], g0, g1, p, n.
  rewrite <- app_assoc. rewrite <- Hk, Hfe. done.
Qed.

End Runs.

(** ** The guarantees *)

(** C20: in every interleaving at most one call is inside a pass, and the gate is held exactly when some call is in the
    latest pass or elected for it; a call that waits undecided is in the queue, once, while the gate is held. *)
Theorem gc_one_pass cfg tr g : run cfg tr idle = Some g -> short tr ->
  (forall i j p key n p' key' n', calls g !! i = Some (Passing p key n) -> calls g !! j = Some (Passing p' key' n') -> i = j) /\
  (running g = true <-> exists i p key, pass_of g i = Some (p, key, seq g)) /\
  (forall i w, calls g !! i = Some (Blocked w) -> fates g !! i = Some gcWaiting -> running g = true /\ w ∈ queue g) /\
  NoDup (who <$> queue g).
Proof.
  intros Hr Hb. pose proof (reach_ok cfg tr g Hr Hb) as Hg. split; [|split; [split|split]].
  - intros i j p key n p' key' n' Hi Hj. eapply (g_one g Hg); unfold pass_of; [by rewrite Hi|by rewrite Hj].
  - intros Hrun. destruct (g_running g Hg Hrun) as (i & [[p key] n] & Hp). exists i, p, key. by destruct (g_number g Hg _ _ _ _ Hp) as [_ <-].
  - intros (i & p & key & Hp). by destruct (g_number g Hg _ _ _ _ Hp).
  - intros i w Hc Hf. destruct (q_wait g (g_queue g Hg) i w Hc) as (_ & _ & f & Hf' & Hin). assert (w ∈ queue g) as Hw by (apply Hin; congruence).
    split; [|done]. destruct (running g) eqn:E; [done|]. rewrite (g_idle g Hg E) in Hw. by apply not_elem_of_nil in Hw.
  - apply Hg.
Qed.

(** C21: a call that returned ran its own pass to that result, or was answered by a pass of its kind that started after it
    came in and ended on its own, or returned its own context's error because that context ended: no request is answered
    by an older pass or dropped for another's sake. *)
Theorem gc_answers cfg tr g i rep err : run cfg tr idle = Some g -> short tr -> calls g !! i = Some (Returned rep err) ->
  PassEnds i (Some (rep, err)) ∈ tr \/ answered_later cfg tr i rep err \/
  (rep = zero_report /\ exists c p e, Call i c p ∈ tr /\ ended g !! c = Some e /\ err = Some (MkErr (Some e) [])).
Proof.
  revert g. induction tr as [|e tr IH] using rev_ind; intros g; [by intros [= <-]|]. intros (g1 & H1 & Hs)%run_snoc Hb%short_app Hc.
  apply (step_returned cfg e g1 g) in Hc as [Hc|[->|(w & Hw & [(out & Hf & -> & ->)|(-> & -> & He)])]]; [| | | |done].
  - destruct (IH g1 H1 Hb Hc) as [Hp|[Ha|(-> & c & p & x & Hin & He & ->)]]; [left; set_solver|right; left; by apply answered_later_snoc|].
    right; right. split; [done|]. exists c, p, x. split; [set_solver|]. split; [by eapply step_ended|done].
  - left. set_solver.
  - right; left. apply answered_later_snoc. by eapply served_later.
  - right; right. split; [done|]. destruct (blocked_arrival cfg tr g1 i w H1 Hb Hw) as (tr1 & tr2 & g0 & -> & _).
    assert (is_Some (ended g1 !! wctx w)) as [x Hx] by (destruct He as [He|He]; [by eapply withdrawn_ended|done]).
    exists (wctx w), (wp w), x. split; [set_solver|]. split; [by eapply step_ended|]. unfold ctx_Err. by rewrite Hx.
Qed.

Lemma released_served n out g w : queue_ok g -> w ∈ queue g -> floor w < n -> serves out w = true ->
  fates (released n out g) !! who w = Some (gcServed out) /\ w ∉ queue (released n out g).
Proof.
  intros Hq Hw Hf Hs. assert (answered n out w = Some (gcServed out)) as Ha.
  { unfold answered. rewrite Z.geb_leb, (proj2 (Z.leb_gt _ _) Hf), Hs. done. }
  set (g0 := MkGate false (seq g) (queue g) (fates g) (calls g) (ended g) (gcQueued g) (gcShared g)).
  assert (queue_ok g0) as H0 by by apply (queue_ok_ext g). destruct (q_queue g Hq w Hw) as [Hc _].
  assert (w ∉ queue (released n out g)) as Hn by (rewrite released_queue; intros (_ & [?|?] & _); [lia|congruence]).
  split; [|done]. change (released n out g) with (deleteFunc (withdraw_ended (deleteFunc (answered n out) g0)) (deleteFunc (answered n out) g0)).
  rewrite (delete_fate _ _ _ w); [|apply delete_ok; [done|apply settles_answered]|done].
  rewrite bool_decide_eq_false_2; [rewrite (delete_fate _ g0 _ w) by done; by rewrite bool_decide_eq_true_2, Ha|].
  cbn [deleteFunc queue]. intros [_ Hx]%filter_undecided. congruence.
Qed.

(** C22: a pass that ends without its context's error answers every request of its kind that came in before it started,
    even when a deadline cut it short; then, unless nobody is left, the next pass is of the kind of the oldest request left
    and goes to a request of that kind that none outlasts. *)
Theorem gc_followup cfg tr g j p key n rep err g' : run cfg tr idle = Some g -> short tr ->
  calls g !! j = Some (Passing p key n) -> is_ctx_error err = false -> step cfg (PassEnds j (Some (rep, err))) g = Some g' ->
  let out := MkGcOutcome p key rep err false in
  (forall w, w ∈ queue g -> floor w < n -> wkey w = key -> fates g' !! who w = Some (gcServed out)) /\
  match List.filter (remains n out g) (queue g) with
  | [] => running g' = false /\ queue g' = []
  | w0 :: rest => exists w, queue g' ++ [w] ≡ₚ w0 :: rest /\ wkey w = wkey w0 /\ running g' = true /\ fates g' !! who w = Some (gcElected (seq g + 1)) /\
      forall x, x ∈ w0 :: rest -> wkey x = wkey w0 -> gcDeadlineLonger (Deadline (wp x)) (Deadline (wp w)) = false
  end.
Proof.
  intros Hr Hb Hj He. cbn [step]. rewrite Hj. intros [= <-]. cbv zeta. pose proof (reach_ok cfg tr g Hr Hb) as Hg. pose proof (g_queue g Hg) as Hq.
  set (out := MkGcOutcome p key rep err false). rewrite <- released_remains.
  change (runGCPass_ends j p key n (Some (rep, err)) g) with (set_call j (Returned rep err) (finishGCPass n out g)).
  assert (forall w, w ∈ queue g -> floor w < n -> wkey w = key -> serves out w = true) as Hsv.
  { intros w Hw Hf Hk. unfold serves, out. cbn [panicked oerr okey orep op]. rewrite He, (bool_decide_eq_true_2 (key = wkey w)) by done. cbn [negb].
    rewrite (g_longest g Hg j p key n w); [by rewrite andb_false_r| |done..]. unfold pass_of. by rewrite Hj. }
  destruct (finish_cases n out g (reach_bound cfg tr g Hr Hb) (q_seq g Hq)) as [[Hnil Hfin]|(b & w & (Hw & (w0 & Hh & Hk) & Hl) & Hfin)]; rewrite Hfin; cbn [set_call fates queue running].
  - split; [|by rewrite Hnil]. intros w Hw Hf Hk. apply released_served; [done..|]. by apply Hsv.
  - assert (w ∈ queue (released n out g)) as Hin by by eapply list_elem_of_lookup_2. split.
    + intros x Hx Hf Hkx. destruct (released_served n out g x Hq Hx Hf (Hsv x Hx Hf Hkx)) as [Hs Hn]. cbn [fates hand_over].
      rewrite lookup_insert_ne; [exact Hs|]. intros Hwho. apply Hn. assert (w = x) as <-; [|done].
      apply (who_inj g); [done| |done|done]. by apply released_queue in Hin as [? _].
    + destruct (queue (released n out g)) as [|w1 rest] eqn:E; [done|]. injection Hh as ->. exists w. cbn [queue running fates hand_over].
      rewrite E, lookup_insert_eq. split; [by rewrite Permutation_app_comm; symmetry; apply delete_Permutation|]. split; [done|]. split; [done|]. split; [done|].
      intros x Hx Hkx. apply Hl; [done|congruence].
Qed.

(** ** Progress *)

Definition work (e : event) : bool := match e with PassEnds _ _ | Wake _ | Withdraw _ => true | _ => false end.
Definition is_call (e : event) : bool := match e with Call _ _ _ => true | _ => false end.

(** The events a call still has before it. *)
Definition weight (c : call) : nat := match c with Blocked _ => 2 | Passing _ _ _ => 1 | _ => 0 end.
Definition pending (g : gate) : nat := map_fold (fun _ c n => weight c + n)%nat 0%nat (calls g).

Lemma weight_insert (m : gmap nat call) i c c' : m !! i = Some c -> (weight c' < weight c)%nat ->
  (map_fold (fun _ c n => weight c + n) 0 (<[i := c']> m) < map_fold (fun _ c n => weight c + n) 0 m)%nat.
Proof.
  intros Hi Hw. rewrite <- (insert_delete_id m i c Hi) at 2. rewrite <- insert_delete_eq.
  rewrite !map_fold_insert_L; try (by rewrite lookup_delete_eq); try lia.
Qed.

Lemma pending_bound g : (pending g <= 2 * size (calls g))%nat.
Proof.
  unfold pending. apply (map_fold_weak_ind (fun n m => (n <= 2 * size m)%nat)); [done|].
  intros i c m n Hi IH. rewrite map_size_insert_None by done. destruct c; cbn [weight]; lia.
Qed.

Lemma step_pending cfg e g g' : step cfg e g = Some g' -> is_call e = false ->
  ((if work e then S (pending g') else pending g') <= pending g)%nat.
Proof.
  destruct e as [i c p|c e|i r|i|i]; cbn [step is_call work]; [done|..]; intros Hs _; unfold pending.
  - destruct (ended g !! c); [done|]. by injection Hs as <-.
  - destruct (calls g !! i) as [[|p key n| |]|] eqn:Hc; try done. injection Hs as <-. cbn [runGCPass_ends set_call calls].
    destruct (finish_calls n (outcome_of p key r) g) as [-> _]. apply (weight_insert _ _ _ _ Hc). by destruct r as [[]|]; cbn; lia.
  - destruct (calls g !! i) as [[]|] eqn:Hc; try done. destruct (fates g !! i) as [[]|]; cbn [resume] in Hs; try done; injection Hs as <-;
      apply (weight_insert _ _ _ _ Hc); cbn; lia.
  - destruct (calls g !! i) as [[w| | |]|] eqn:Hc; try done. destruct (fates g !! i) as [[]|]; try done. destruct (ended g !! wctx w); [|done].
    injection Hs as <-. apply (weight_insert _ _ _ _ Hc). cbn. lia.
Qed.

Lemma run_pending cfg tr g g' : run cfg tr g = Some g' -> Forall (fun e => is_call e = false) tr ->
  (length (List.filter work tr) + pending g' <= pending g)%nat.
Proof.
  revert g. induction tr as [|e tr IH]; intros g; cbn [run]; [intros [= <-] _; done|]. destruct (step cfg e g) as [g1|] eqn:Hs; [|done].
  intros Hr [He Ht]%Forall_cons. specialize (IH g1 Hr Ht). pose proof (step_pending cfg e g g1 Hs He). cbn [List.filter]. destruct (work e); cbn; lia.
Qed.

(** C23: no call waits for ever: while one has not returned, some pass can end or some call can resume, and once no new call
    comes in at most two such events per call are left, in any order, before all have returned. *)
Theorem gc_progress cfg tr g : run cfg tr idle = Some g -> short tr ->
  (forall i c, calls g !! i = Some c -> ~ over c ->
     exists j, (forall r, is_Some (step cfg (PassEnds j r) g)) \/ is_Some (step cfg (Wake j) g)) /\
  (forall tr' g', run cfg tr' g = Some g' -> Forall (fun e => is_call e = false) tr' ->
     (length (List.filter work tr') <= 2 * size (calls g))%nat).
Proof.
  intros Hr Hb. pose proof (reach_ok cfg tr g Hr Hb) as Hg. split.
  - assert (forall j x, pass_of g j = Some x -> (forall r, is_Some (step cfg (PassEnds j r) g)) \/ is_Some (step cfg (Wake j) g)) as Hold.
    { intros j x. unfold pass_of. cbn [step]. destruct (calls g !! j) as [[w|p key n| |]|]; try done; [|intros _; by left].
      destruct (fates g !! j) as [[]|]; try done. intros _. right. by eexists. }
    intros i c Hc Ho. destruct c as [w|p key n| |]; [|exists i; eapply Hold; unfold pass_of; by rewrite Hc|by destruct Ho..].
    destruct (q_wait g (g_queue g Hg) i w Hc) as (_ & _ & f & Hf & Hin). destruct f as [|n|out|].
    + destruct (running g) eqn:E; [|specialize (Hin eq_refl); rewrite (g_idle g Hg E) in Hin; by apply not_elem_of_nil in Hin].
      destruct (g_running g Hg E) as (j & x & Hx). exists j. by eapply Hold.
    + exists i. eapply Hold. unfold pass_of. by rewrite Hc, Hf.
    + exists i. right. cbn [step]. rewrite Hc, Hf. by eexists.
    + exists i. right. cbn [step]. rewrite Hc, Hf. by eexists.
  - intros tr' g' Hr' Ht. pose proof (run_pending cfg tr' g g' Hr' Ht). pose proof (pending_bound g). lia.
Qed.

(** ** A burst of calls *)

Definition sample_cfg : RetentionCfg := MkRetention 30 10.
Definition sample_policy (deadline : Z) : GCPolicy := MkPolicy 0 0 false deadline 0 0.

(** Three calls while a pass runs, one of them given up; the follow-up answers the rest. *)
Definition burst : list event :=
  [Call 0 0 (sample_policy 0); Call 1 1 (sample_policy 5); Call 2 2 (sample_policy 9); Call 3 3 (sample_policy 5); CtxEnds 3 Canceled;
   PassEnds 0 (Some (zero_report, None)); Wake 2].

Definition after (tr : list event) : gate := default idle (run sample_cfg tr idle).

Definition burst_done : list event := burst ++ [PassEnds 2 (Some (zero_report, None)); Wake 1; Wake 3].

Lemma gc_one_pass_witness : running (after burst) = true <-> exists i p key, pass_of (after burst) i = Some (p, key, seq (after burst)).
Proof. apply (gc_one_pass sample_cfg burst); [vm_compute; reflexivity|by unfold short]. Defined.

Lemma gc_answers_witness :
  PassEnds 1 (Some (zero_report, None)) ∈ burst_done \/ answered_later sample_cfg burst_done 1 zero_report None \/
  (zero_report = zero_report /\ exists c p e, Call 1 c p ∈ burst_done /\ ended (after burst_done) !! c = Some e /\ None = Some (MkErr (Some e) [])).
Proof. apply (gc_answers sample_cfg burst_done (after burst_done)); [vm_compute; reflexivity|by unfold short|vm_compute; reflexivity]. Defined.

Lemma gc_followup_witness : fates (after (burst ++ [PassEnds 2 (Some (zero_report, None))])) !! 1%nat =
  Some (gcServed (MkGcOutcome (sample_policy 9) (gcKey sample_cfg (sample_policy 9)) zero_report None false)).
Proof.
  destruct (gc_followup sample_cfg burst (after burst) 2 (sample_policy 9) (gcKey sample_cfg (sample_policy 9)) 2 zero_report None
    (after (burst ++ [PassEnds 2 (Some (zero_report, None))]))) as [H _];
    [vm_compute; reflexivity|by unfold short|vm_compute; reflexivity|reflexivity|vm_compute; reflexivity|].
  apply (H (MkWaiter 1 1 (sample_policy 5) (gcKey sample_cfg (sample_policy 5)) 1)); [|done|done].
  apply (bool_decide_unpack _). vm_compute. exact I.
Defined.

Lemma gc_progress_witness :
  (length (List.filter work [PassEnds 2 (Some (zero_report, None)); Wake 1; Wake 3]) <= 2 * size (calls (after burst)))%nat.
Proof.
  destruct (gc_progress sample_cfg burst (after burst)) as [_ H]; [vm_compute; reflexivity|by unfold short|].
  apply (H _ (after burst_done)); [vm_compute; reflexivity|by repeat constructor].
Defined.
