(* ===== verification/Pins.v ===== *)
(** * Pinned invariants

    Models [src/internal/pins]: minting of ids, the append-only log of pins and tombstones with its bounded
    line reader, the fold of the log into memory, catching up with what other processes appended, the four
    operations, and the view derived from the log, over a file system that may refuse any call and that other
    processes append to ([paths.AppendJSONLDurable], [paths.TerminatePartialTail]).  The text of a record is
    [encoding/json]'s, the class [PinJson]; day logs are left out. *)

From S2P Require Import Prelude GoLib Core GoStrings Utf8 GoSort.

(** ** Pins and their ids ([pins.go]) *)

Record Invariant := MkInvariant { ID : bytes; Text : bytes; Source : bytes; Pinned : Z }.

#[global] Instance Invariant_eq_dec : EqDecision Invariant. Proof. solve_decision. Defined.

Definition hashDomainPin : bytes := str "qompack.pin".
Definition invariantIDPrefix : bytes := str "inv_".
Definition invariantIDHexLen : nat := 12.

(** The text of [U+FFFD], which [WriteRune] writes for an invalid byte. *)
Definition rune_error : bytes := [xef; xbf; xbd].

Fixpoint norm_loop (fuel : nat) (s : bytes) (pendingSpace : bool) (b : bytes) : bytes :=
  match fuel, s with
  | S fuel, _ :: _ =>
      let w := rune_width s in
      let r := if (w =? 0)%nat then rune_error else take w s in
      let s' := drop (if (w =? 0)%nat then 1 else w) s in
      if bool_decide (r ∈ spaces) then norm_loop fuel s' true b
      else norm_loop fuel s' false (b ++ (if pendingSpace && negb (bool_decide (b = [])) then [x20] else []) ++ r)
  | _, _ => b
  end.

Definition normalizeWS (s : bytes) : bytes := norm_loop (length s) s false [].

Definition MintID (text : bytes) : bytes :=
  invariantIDPrefix ++ take invariantIDHexLen (Hex.encode (HashBytes hashDomainPin (normalizeWS text))).

(** ** Records ([store.go]) *)

Definition opAdd : bytes := str "add".
Definition opRemove : bytes := str "remove".

Definition sourceUser : bytes := str "user".
Definition sourceAgent : bytes := str "agent".
Definition sourceDecision : bytes := str "decision".

Definition maxTextBytes : nat := 2000.
Definition maxLineBytes : nat := Z.to_nat (32 * 2000).
Definition newline : byte := x0a.

Record record := MkRecord { rOp : bytes; rTS : Z; rInvariant : option Invariant; rID : bytes }.

(** [json.Encoder.Encode] without its newline, and [json.Unmarshal]. *)
Class PinJson := { enc_record : record -> bytes; dec_record : bytes -> option record }.

Definition capText (text : bytes) : bytes :=
  if (length text <=? maxTextBytes)%nat then text else take (back_off text maxTextBytes) text.

Definition normalizeSource (src : bytes) : bytes :=
  if bool_decide (src ∈ [sourceUser; sourceAgent; sourceDecision]) then src else sourceAgent.

(** ** The store *)

Record logCursor := MkCursor { offset : nat; size : nat; exists_ : bool }.

Record pinStore := MkStore {
  order : list bytes; live : gmap bytes Invariant; seen : gset bytes; cur : logCursor; warnedGone : bool; viewDirty : bool;
  badLine : Z  (** the counter of skipped lines *)
}.

(** The log and the view on disk; the view is the list it renders. *)
Inductive node := Absent | Irregular | Regular (b : bytes).
Record disk := MkDisk { log : node; view : option (list Invariant) }.

Definition world : Type := pinStore * disk.

(** What the file system, the clock and the context answer to one call. *)
Record io := MkIO {
  io_ctx : bool;            (** the context is live *)
  io_now : Z * Z;           (** the two readings of the clock *)
  io_stat : bool;           (** the log can be stat'ed, *)
  io_open : bool;           (** opened, *)
  io_read : option nat;     (** read to its end, or only so many bytes further, *)
  io_probe : bool;          (** and its last byte read before an append *)
  io_append : option nat;   (** an append succeeds, or fails with so many of its bytes written *)
  io_view : bool            (** the view can be replaced *)
}.

Inductive pins_error := ErrCtx | ErrEmptyText | ErrNotFound | ErrStat | ErrOpen | ErrRead | ErrAppend | ErrView.

Definition set_mem (o : list bytes) (l : gmap bytes Invariant) (s : gset bytes) (st : pinStore) : pinStore :=
  MkStore o l s (cur st) (warnedGone st) (viewDirty st) (badLine st).

Definition applyAdd (inv : Invariant) (st : pinStore) : pinStore :=
  set_mem (match live st !! ID inv with None => order st ++ [ID inv] | Some _ => order st end)
    (<[ID inv := inv]> (live st)) ({[ID inv]} ∪ seen st) st.

Fixpoint remove_first (id : bytes) (l : list bytes) : list bytes :=
  match l with [] => [] | x :: l => if bool_decide (x = id) then l else x :: remove_first id l end.

Definition applyRemove (id : bytes) (st : pinStore) : pinStore :=
  match live st !! id with
  | None => set_mem (order st) (live st) ({[id]} ∪ seen st) st
  | Some _ => set_mem (remove_first id (order st)) (delete id (live st)) ({[id]} ∪ seen st) st
  end.

Definition inv_less (a b : Invariant) : bool :=
  if negb (Pinned a =? Pinned b) then Pinned a <? Pinned b else bool_decide (bytes_lt (ID a) (ID b)).

Definition snapshotLocked (st : pinStore) : list Invariant :=
  stable_sort inv_less (omap (fun id => live st !! id) (order st)).

(** ** Reading the log *)

(** [bufio.Reader.ReadSlice] with its buffer of 4096 bytes: up to a newline, a full buffer, or the end. *)
Definition bufSize : nat := 4096.
Inductive slice_end := SliceLine | SliceFull | SliceEOF.

Fixpoint newline_at (s : bytes) : option nat :=
  match s with [] => None | b :: s => if bool_decide (b = newline) then Some 0%nat else S <$> newline_at s end.

Definition ReadSlice (s : bytes) : bytes * slice_end * bytes :=
  match newline_at (take bufSize s) with
  | Some k => (take (S k) s, SliceLine, drop (S k) s)
  | None => if (bufSize <=? length s)%nat then (take bufSize s, SliceFull, drop bufSize s) else (s, SliceEOF, [])
  end.

(** The line, its length, whether it ran past the cap, whether a newline ended it, and what follows. *)
Fixpoint capped_loop (fuel : nat) (s line : bytes) (n : nat) (oversize : bool) : bytes * nat * bool * bool * bytes :=
  let '(chunk, e, rest) := ReadSlice s in
  let n := (n + length chunk)%nat in
  let '(oversize, line) := if negb oversize && (maxLineBytes <? length line + length chunk)%nat then (true, []) else (oversize, line) in
  let line := if negb oversize then line ++ chunk else line in
  match e, fuel with
  | SliceLine, _ => (line, n, oversize, true, rest)
  | SliceEOF, _ | _, O => (line, n, oversize, false, rest)
  | SliceFull, S fuel => capped_loop fuel rest line n oversize
  end.

Definition readCappedLine (s : bytes) : bytes * nat * bool * bool * bytes := capped_loop (length s) s [] 0 false.

Section Store.
Context {J : PinJson}.

Definition applyLine (line : bytes) (st : pinStore) : option pinStore :=
  match dec_record line with
  | None => None
  | Some rec =>
      if bool_decide (rOp rec = opAdd) then
        match rInvariant rec with
        | Some inv => if bool_decide (ID inv = []) then None else Some (applyAdd inv st)
        | None => None
        end
      else if bool_decide (rOp rec = opRemove) then if bool_decide (rID rec = []) then None else Some (applyRemove (rID rec) st)
      else None
  end.

Definition bad (st : pinStore) : pinStore :=
  MkStore (order st) (live st) (seen st) (cur st) (warnedGone st) (viewDirty st) (badLine st + 1).

(** The loop of [foldFrom]: the store and the end of the last terminated line. *)
Fixpoint fold_loop (fuel : nat) (countTail : bool) (st : pinStore) (pos : nat) (s : bytes) : pinStore * nat :=
  match fuel with
  | O => (st, pos)
  | S fuel =>
      let '(line, n, oversize, terminated, rest) := readCappedLine s in
      let folded := if oversize then None else if bool_decide (TrimSpace line = []) then Some st else applyLine line st in
      let st := match folded with Some st => st | None => if terminated || countTail then bad st else st end in
      if terminated then fold_loop fuel countTail st (pos + n) rest else (st, pos)
  end.

Definition set_cur (c : logCursor) (st : pinStore) : pinStore :=
  MkStore (order st) (live st) (seen st) c (warnedGone st) (viewDirty st) (badLine st).

Definition foldFrom (i : io) (start : nat) (countTail : bool) (d : disk) (st : pinStore) : pinStore * option pins_error :=
  match log d with
  | Absent => if exists_ (cur st) then (st, Some ErrOpen) else (st, None)
  | Irregular => (st, Some ErrOpen)
  | Regular b =>
      if negb (io_open i) then (st, Some ErrOpen)
      else
        let s := drop start b in
        match io_read i with
        | Some k => ((fold_loop (S (length s)) countTail st start (take k s)).1, Some ErrRead)
        | None =>
            let '(st, pos) := fold_loop (S (length s)) countTail st start s in
            (set_cur (MkCursor pos (Nat.max (length b) pos) true) st, None)
        end
  end.

Definition new_store : pinStore := MkStore [] ∅ ∅ (MkCursor 0 0 false) false false 0.

(** [OpenWith] past the creation of the directory. *)
Definition OpenWith (i : io) (d : disk) : pinStore * option pins_error := foldFrom i 0 true d new_store.

Definition set_warned (b : bool) (st : pinStore) : pinStore :=
  MkStore (order st) (live st) (seen st) (cur st) b (viewDirty st) (badLine st).

Definition catchUpLocked (i : io) (d : disk) (st : pinStore) : pinStore * option pins_error :=
  if negb (io_stat i) then (st, Some ErrStat)
  else match log d with
  | Absent | Irregular => (if exists_ (cur st) then set_warned true st else st, None)
  | Regular b =>
      let st := set_warned false st in
      if exists_ (cur st) && (length b =? size (cur st))%nat then (st, None)
      else if (length b <? offset (cur st))%nat then foldFrom i 0 true d (set_mem [] ∅ ∅ st)
      else foldFrom i (offset (cur st)) false d st
  end.

(** ** Appending *)

(** The terminator an append writes first when the log ends inside a line. *)
Definition terminator (probe : bool) (b : bytes) : bytes :=
  match last b with Some c => if probe && negb (bool_decide (c = newline)) then [newline] else [] | None => [] end.

Definition append_bytes (probe : bool) (b : bytes) (rec : record) : bytes := terminator probe b ++ enc_record rec ++ [newline].

Definition log_bytes (n : node) : bytes := match n with Regular b => b | _ => [] end.

(** An append of which only the first bytes are written when it fails; all of them when only the sync fails. *)
Definition appended (probe : bool) (cut : option nat) (rec : record) (d : disk) : disk :=
  match log d with
  | Irregular => d
  | n =>
      let more := append_bytes probe (log_bytes n) rec in
      MkDisk (Regular (log_bytes n ++ match cut with None => more | Some k => take k more end)) (view d)
  end.

(** The encoder's guard refuses a document that is more than one line. *)
Definition appendLocked (i : io) (rec : record) (d : disk) : disk * option pins_error :=
  if bool_decide (newline ∈ enc_record rec) then (d, Some ErrAppend)
  else
    (appended (io_probe i) (io_append i) rec d,
     match log d, io_append i with Irregular, _ => Some ErrAppend | _, Some _ => Some ErrAppend | _, None => None end).

(** ** The view *)

Definition set_dirty (b : bool) (st : pinStore) : pinStore :=
  MkStore (order st) (live st) (seen st) (cur st) (warnedGone st) b (badLine st).

Definition materializeLocked (i : io) (w : world) : world * option pins_error :=
  let '(st, d) := w in
  if io_view i then ((set_dirty false st, MkDisk (log d) (Some (snapshotLocked st))), None)
  else ((set_dirty true st, d), Some ErrView).

(** ** The operations *)

(** What another process appends: a record, whole or cut short. *)
Definition foreign (d : disk) (a : record * option nat) : disk := appended true a.2 a.1 d.

(** The pin as [Add] stores it. *)
Definition prepared (now : Z) (inv : Invariant) : Invariant :=
  let text := capText (Text inv) in
  MkInvariant (if bool_decide (ID inv = []) then MintID text else ID inv) text (normalizeSource (Source inv))
    (if Pinned inv =? 0 then now else Pinned inv).

(** [others] is what other processes append between the catch-up and the append of this one. *)
Definition Add (i : io) (others : list (record * option nat)) (inv : Invariant) (w : world) : world * option pins_error :=
  if negb (io_ctx i) then (w, Some ErrCtx)
  else if bool_decide (TrimSpace (Text inv) = []) then (w, Some ErrEmptyText)
  else
    let inv := prepared (io_now i).1 inv in
    match catchUpLocked i w.2 w.1 with
    | (st, Some e) => ((st, w.2), Some e)
    | (st, None) =>
        let d := fold_left foreign others w.2 in
        match live st !! ID inv with
        | Some _ => if viewDirty st then materializeLocked i (st, d) else ((st, d), None)
        | None =>
            match appendLocked i (MkRecord opAdd (io_now i).2 (Some inv) []) d with
            | (d, Some e) => ((st, d), Some e)
            | (d, None) => materializeLocked i (applyAdd inv st, d)
            end
        end
    end.

Definition Remove (i : io) (others : list (record * option nat)) (id : bytes) (w : world) : world * option pins_error :=
  if negb (io_ctx i) then (w, Some ErrCtx)
  else
    match catchUpLocked i w.2 w.1 with
    | (st, Some e) => ((st, w.2), Some e)
    | (st, None) =>
        let d := fold_left foreign others w.2 in
        match live st !! id with
        | None =>
            if bool_decide (id ∈ seen st) then if viewDirty st then materializeLocked i (st, d) else ((st, d), None)
            else ((st, d), Some ErrNotFound)
        | Some _ =>
            match appendLocked i (MkRecord opRemove (io_now i).2 None id) d with
            | (d, Some e) => ((st, d), Some e)
            | (d, None) => materializeLocked i (applyRemove id st, d)
            end
        end
    end.

Definition All (i : io) (w : world) : world * outcome pins_error (list Invariant) :=
  if negb (io_ctx i) then (w, Err ErrCtx)
  else
    match catchUpLocked i w.2 w.1 with
    | (st, Some e) => ((st, w.2), Err e)
    | (st, None) => ((st, w.2), Ok (snapshotLocked st))
    end.

Definition Materialize (i : io) (w : world) : world * option pins_error :=
  if negb (io_ctx i) then (w, Some ErrCtx)
  else
    match catchUpLocked i w.2 w.1 with
    | (st, Some e) => ((st, w.2), Some e)
    | (st, None) => materializeLocked i (st, w.2)
    end.

End Store.
