(* ===== verification/PinsSpec.v ===== *)
(** * What the store of pins guarantees

    A store that answers gives the answer a store opened now would give, whatever other processes appended
    meanwhile, whichever calls failed and wherever an append was cut short; the last record of an id decides
    it; and the operations only append. *)

From S2P Require Import Prelude GoLib Core Frame GoStrings Utf8 GoSort Pins.

(** ** Lines *)

(** The newline-terminated lines of a text, newlines included, and what follows the last. *)
Fixpoint lines_of (s : bytes) : list bytes * bytes :=
  match s with
  | [] => ([], [])
  | b :: s =>
      let '(ls, t) := lines_of s in
      if bool_decide (b = newline) then ([newline] :: ls, t)
      else match ls with l :: ls => ((b :: l) :: ls, t) | [] => ([], b :: t) end
  end.

Lemma lines_tail t : newline ∉ t -> lines_of t = ([], t).
Proof.
  induction t as [|b t IH]; [done|]. intros [Hb Ht]%not_elem_of_cons. cbn. rewrite IH by done. by rewrite bool_decide_eq_false_2 by congruence.
Qed.

Lemma lines_line l s : newline ∉ l -> lines_of (l ++ newline :: s) = ((l ++ [newline]) :: (lines_of s).1, (lines_of s).2).
Proof.
  induction l as [|b l IH]; intros Hl; cbn; [by destruct (lines_of s)|]. apply not_elem_of_cons in Hl as [Hb Hl].
  rewrite IH by done. by rewrite bool_decide_eq_false_2 by congruence.
Qed.

Lemma lines_concat s : concat (lines_of s).1 ++ (lines_of s).2 = s.
Proof.
  induction s as [|b s IH]; [done|]. cbn. destruct (lines_of s) as [ls t]. cbn [fst snd] in IH. case_bool_decide as Hb.
  - cbn. by rewrite <- IH, Hb.
  - destruct ls as [|l ls]; cbn in *; congruence.
Qed.

Lemma lines_tail_free s : newline ∉ (lines_of s).2.
Proof.
  induction s as [|b s IH]; [apply not_elem_of_nil|]. cbn. destruct (lines_of s) as [ls t]. cbn [snd] in IH. case_bool_decide as Hb; [done|].
  destruct ls; cbn; [|done]. apply not_elem_of_cons. split; [congruence|done].
Qed.

(** A text is no line at all, or its first line and the rest. *)
Lemma first_line_cases s : newline ∉ s \/ exists l r, s = l ++ newline :: r /\ newline ∉ l.
Proof.
  induction s as [|b s [IH|(l & r & -> & Hl)]]; [left; apply not_elem_of_nil|..]; destruct (decide (b = newline)) as [->|Hb].
  - right. exists [], s. split; [done|apply not_elem_of_nil].
  - left. apply not_elem_of_cons. split; [congruence|done].
  - right. exists [], (l ++ newline :: r). split; [done|apply not_elem_of_nil].
  - right. exists (b :: l), r. split; [done|]. apply not_elem_of_cons. split; [congruence|done].
Qed.

Lemma lines_whole s : lines_of (concat (lines_of s).1) = ((lines_of s).1, []).
Proof.
  remember (length s) as n eqn:Hn. revert s Hn. induction n as [n IH] using lt_wf_ind. intros s ->.
  destruct (first_line_cases s) as [Hs|(l & r & -> & Hl)]; [by rewrite (lines_tail s Hs)|]. rewrite lines_line by done. cbn [fst concat]. rewrite <- app_assoc. cbn [app].
  rewrite lines_line by done. rewrite (IH (length r)); [done| |done]. rewrite length_app. cbn. lia.
Qed.

(** Lines are found from the last unfinished one on. *)
Lemma lines_app a s : lines_of (a ++ s) = ((lines_of a).1 ++ (lines_of ((lines_of a).2 ++ s)).1, (lines_of ((lines_of a).2 ++ s)).2).
Proof.
  remember (length a) as n eqn:Hn. revert a Hn. induction n as [n IH] using lt_wf_ind. intros a ->.
  destruct (first_line_cases a) as [Ha|(l & r & -> & Hl)].
  - rewrite (lines_tail a Ha). cbn. by destruct (lines_of (a ++ s)).
  - rewrite <- app_assoc. cbn [app]. rewrite !lines_line by done. cbn [fst snd]. rewrite (IH (length r)); [done| |done]. rewrite length_app. cbn. lia.
Qed.

Lemma lines_app_nil a s : (lines_of a).2 = [] -> lines_of (a ++ s) = ((lines_of a).1 ++ (lines_of s).1, (lines_of s).2).
Proof. intros H. by rewrite lines_app, H. Qed.

(** ** The bounded reader *)

Lemma newline_at_none s : newline_at s = None <-> newline ∉ s.
Proof.
  induction s as [|b s IH]; cbn; [split; [intros _; apply not_elem_of_nil|done]|]. rewrite not_elem_of_cons. case_bool_decide as Hb.
  - split; [done|]. intros [? _]. congruence.
  - rewrite fmap_None, IH. split; [intros; split; [congruence|done]|by intros []].
Qed.

Lemma newline_at_line l r : newline ∉ l -> newline_at (l ++ newline :: r) = Some (length l).
Proof.
  induction l as [|b l IH]; intros Hl; cbn; [done|]. apply not_elem_of_cons in Hl as [Hb Hl]. rewrite bool_decide_eq_false_2 by congruence. by rewrite IH.
Qed.

Definition over_cap (s : bytes) : bool := (maxLineBytes <? length s)%nat.
Definition capped (s : bytes) : bytes := if over_cap s then [] else s.

Lemma capped_step pre chunk :
  (if negb (over_cap pre) && (maxLineBytes <? length (capped pre) + length chunk)%nat then (true, []) else (over_cap pre, capped pre))
  = (over_cap (pre ++ chunk), if over_cap (pre ++ chunk) then [] else pre).
Proof.
  unfold capped, over_cap. rewrite length_app. destruct (Nat.ltb_spec maxLineBytes (length pre)); cbn [negb andb].
  - rewrite (proj2 (Nat.ltb_lt _ _)) by lia. done.
  - by destruct (Nat.ltb_spec maxLineBytes (length pre + length chunk)).
Qed.

Lemma capped_next pre chunk : (if negb (over_cap (pre ++ chunk)) then (if over_cap (pre ++ chunk) then [] else pre) ++ chunk else if over_cap (pre ++ chunk) then [] else pre) = capped (pre ++ chunk).
Proof. unfold capped. by destruct (over_cap _). Qed.

#[local] Opaque bufSize maxLineBytes.

Lemma bufSize_pos : (0 < bufSize)%nat.
Proof. with_strategy transparent [bufSize] unfold bufSize. lia. Qed.

(** One step of the reader. *)
Lemma capped_loop_eq fuel s pre : let '(chunk, e, rest) := ReadSlice s in
  capped_loop fuel s (capped pre) (length pre) (over_cap pre) =
  match e, fuel with
  | SliceLine, _ => (capped (pre ++ chunk), length (pre ++ chunk), over_cap (pre ++ chunk), true, rest)
  | SliceEOF, _ | _, O => (capped (pre ++ chunk), length (pre ++ chunk), over_cap (pre ++ chunk), false, rest)
  | SliceFull, S fuel => capped_loop fuel rest (capped (pre ++ chunk)) (length (pre ++ chunk)) (over_cap (pre ++ chunk))
  end.
Proof.
  destruct (ReadSlice s) as [[chunk e] rest] eqn:E. rewrite length_app.
  destruct fuel; cbn [capped_loop]; rewrite E, capped_step, capped_next; done.
Qed.

Lemma take_no_newline n s : newline ∉ s -> newline ∉ take n s.
Proof. intros H Hin. apply H. rewrite <- (take_drop n s). apply elem_of_app. by left. Qed.

Lemma drop_no_newline n s : newline ∉ s -> newline ∉ drop n s.
Proof. intros H Hin. apply H. rewrite <- (take_drop n s). apply elem_of_app. by right. Qed.

Lemma capped_loop_tail fuel s pre : newline ∉ s -> (length s <= fuel)%nat ->
  capped_loop fuel s (capped pre) (length pre) (over_cap pre) = (capped (pre ++ s), length (pre ++ s), over_cap (pre ++ s), false, []).
Proof.
  revert s pre. induction fuel as [|fuel IH]; intros s pre Hs Hl; pose proof bufSize_pos as Hb.
  - pose proof (capped_loop_eq 0 s pre) as H. unfold ReadSlice in H. rewrite (proj2 (newline_at_none _)) in H by by apply take_no_newline.
    rewrite (proj2 (Nat.leb_gt _ _)) in H by lia. exact H.
  - pose proof (capped_loop_eq (S fuel) s pre) as H. unfold ReadSlice in H. rewrite (proj2 (newline_at_none _)) in H by by apply take_no_newline.
    destruct (Nat.leb_spec bufSize (length s)); [|exact H]. rewrite H, IH; [|by apply drop_no_newline|rewrite length_drop; lia].
    by rewrite <- !app_assoc, take_drop.
Qed.

Lemma newline_take l r n : (length l < n)%nat -> exists r', take n (l ++ newline :: r) = l ++ newline :: r'.
Proof.
  intros H. exists (take (n - length l - 1) r). rewrite take_app_ge by lia. destruct (n - length l)%nat as [|k] eqn:E; [lia|].
  cbn [take]. by replace (S k - 1)%nat with k by lia.
Qed.

Lemma take_line l r : take (S (length l)) (l ++ newline :: r) = l ++ [newline] /\ drop (S (length l)) (l ++ newline :: r) = r.
Proof.
  rewrite take_app_ge, drop_app_ge by lia. by replace (S (length l) - length l)%nat with 1%nat by lia.
Qed.

Lemma capped_loop_line fuel l r pre : newline ∉ l -> (length l <= fuel)%nat ->
  capped_loop fuel (l ++ newline :: r) (capped pre) (length pre) (over_cap pre) =
  (capped (pre ++ l ++ [newline]), length (pre ++ l ++ [newline]), over_cap (pre ++ l ++ [newline]), true, r).
Proof.
  pose proof bufSize_pos as Hb. revert l pre. induction fuel as [|fuel IH]; intros l pre Hl Hf;
    destruct (Nat.ltb_spec (length l) bufSize) as [Hlt|Hge]; try lia.
  1, 2: pose proof (capped_loop_eq) as H; match goal with |- capped_loop ?f _ _ _ _ = _ => specialize (H f (l ++ newline :: r) pre) end;
    unfold ReadSlice in H; destruct (newline_take l r bufSize Hlt) as [r' Hr']; rewrite Hr', newline_at_line in H by done;
    destruct (take_line l r) as [Ht Hd]; rewrite Ht, Hd in H; exact H.
  pose proof (capped_loop_eq (S fuel) (l ++ newline :: r) pre) as H. unfold ReadSlice in H. rewrite take_app_le, drop_app_le in H by done.
  rewrite (proj2 (newline_at_none _)) in H by by apply take_no_newline. rewrite (proj2 (Nat.leb_le _ _)) in H by (rewrite length_app; lia).
  rewrite H, IH; [|by apply drop_no_newline|rewrite length_drop; lia]. rewrite (app_assoc (pre ++ _)), <- (app_assoc pre), take_drop. by rewrite <- app_assoc.
Qed.

(** What one call of the reader gives. *)
Lemma read_tail s : newline ∉ s -> readCappedLine s = (capped s, length s, over_cap s, false, []).
Proof. intros H. exact (capped_loop_tail (length s) s [] H ltac:(lia)). Qed.

Lemma read_line l r : newline ∉ l ->
  readCappedLine (l ++ newline :: r) = (capped (l ++ [newline]), length (l ++ [newline]), over_cap (l ++ [newline]), true, r).
Proof. intros H. unfold readCappedLine. apply (capped_loop_line _ l r [] H). rewrite length_app. lia. Qed.

(** ** What memory holds of an id *)

Inductive action := AAdd (inv : Invariant) | ARemove (id : bytes).

Definition subject (a : action) : bytes := match a with AAdd inv => ID inv | ARemove id => id end.
Definition verdict (a : action) : option Invariant := match a with AAdd inv => Some inv | ARemove _ => None end.
Definition apply_action (st : pinStore) (a : action) : pinStore := match a with AAdd inv => applyAdd inv st | ARemove id => applyRemove id st end.

(** The last action on an id decides it. *)
Fixpoint final (acts : list action) (id : bytes) : option (option Invariant) :=
  match acts with
  | [] => None
  | a :: acts => match final acts id with Some v => Some v | None => if bool_decide (subject a = id) then Some (verdict a) else None end
  end.

Lemma final_app as1 as2 id : final (as1 ++ as2) id = match final as2 id with Some v => Some v | None => final as1 id end.
Proof. induction as1 as [|a as1 IH]; cbn; [by destruct (final as2 id)|]. rewrite IH. by destruct (final as2 id). Qed.

(** What memory says of an id: its pin, and whether it was ever recorded. *)
Definition held (st : pinStore) (id : bytes) : option Invariant * bool := (live st !! id, bool_decide (id ∈ seen st)).
Definition decided (acts : list action) (id : bytes) : option Invariant * bool := match final acts id with Some v => (v, true) | None => (None, false) end.

Lemma held_apply st a id : held (apply_action st a) id = if bool_decide (subject a = id) then (verdict a, true) else held st id.
Proof.
  unfold held. destruct a as [inv|id']; cbn [apply_action subject verdict].
  - cbn [applyAdd set_mem live seen]. destruct (bool_decide_reflect (ID inv = id)) as [<-|Hd].
    + rewrite lookup_insert_eq. f_equal. apply bool_decide_eq_true_2. set_solver.
    + rewrite lookup_insert_ne by done. f_equal. apply bool_decide_ext. set_solver.
  - unfold applyRemove. destruct (bool_decide_reflect (id' = id)) as [->|Hd].
    + destruct (live st !! id) eqn:E; cbn [set_mem live seen]; rewrite ?E, ?lookup_delete_eq; f_equal; apply bool_decide_eq_true_2; set_solver.
    + destruct (live st !! id') eqn:E; cbn [set_mem live seen]; rewrite ?lookup_delete_ne by done; f_equal; apply bool_decide_ext; set_solver.
Qed.

Lemma held_fold acts st id : held (fold_left apply_action acts st) id = match final acts id with Some v => (v, true) | None => held st id end.
Proof.
  revert st. induction acts as [|a acts IH]; intros st; cbn; [done|]. rewrite IH, held_apply. destruct (final acts id); [done|]. by case_bool_decide.
Qed.

(** The order lists the live ids, each once, and pins are kept under their ids. *)
Record mem_ok (st : pinStore) : Prop := {
  m_nodup : NoDup (order st);
  m_order : forall id, id ∈ order st <-> is_Some (live st !! id);
  m_ids : forall id inv, live st !! id = Some inv -> ID inv = id
}.

Lemma remove_first_nodup id l : NoDup l -> NoDup (remove_first id l) /\ forall x, x ∈ remove_first id l <-> x ∈ l /\ x <> id.
Proof.
  induction 1 as [|y l Hy Hn [IH1 IH2]]; cbn; [split; [constructor|set_solver]|]. case_bool_decide as Hd.
  - subst y. split; [done|]. set_solver.
  - split; [|set_solver]. constructor; [|done]. rewrite IH2. naive_solver.
Qed.

Lemma apply_ok st a : mem_ok st -> mem_ok (apply_action st a).
Proof.
  intros [H1 H2 H3]. destruct a as [inv|id]; cbn [apply_action].
  - constructor; cbn [applyAdd set_mem order live].
    + destruct (live st !! ID inv) eqn:E; [done|]. apply NoDup_app. split; [done|]. split; [|apply NoDup_singleton].
      intros x Hx ->%list_elem_of_singleton. apply H2 in Hx as [? ?]. congruence.
    + intros id. destruct (decide (ID inv = id)) as [<-|Hne].
      * rewrite lookup_insert_eq. split; [done|]. intros _. destruct (live st !! ID inv) eqn:E; [by apply H2; rewrite E|set_solver].
      * rewrite lookup_insert_ne, <- H2 by done. destruct (live st !! ID inv); [done|]. set_solver.
    + intros id inv'. destruct (decide (ID inv = id)) as [<-|Hne]; [rewrite lookup_insert_eq; by intros [= <-]|]. rewrite lookup_insert_ne by done. apply H3.
  - unfold applyRemove. destruct (live st !! id) as [inv|] eqn:E; constructor; cbn [set_mem order live]; try done.
    + by apply remove_first_nodup.
    + intros x. rewrite (proj2 (remove_first_nodup id _ H1)), H2. destruct (decide (id = x)) as [<-|Hne]; [rewrite lookup_delete_eq; by split; [intros []|intros [? ?]]|].
      rewrite lookup_delete_ne by done. naive_solver.
    + intros x inv'. rewrite lookup_delete_Some. intros [_ Hx]. by apply H3.
Qed.

Lemma fold_ok acts st : mem_ok st -> mem_ok (fold_left apply_action acts st).
Proof. revert st. induction acts as [|a acts IH]; intros st H; cbn; [done|]. by apply IH, apply_ok. Qed.

(** ** The answer depends on the live pins only *)

Definition inv_le (a b : Invariant) : Prop := Pinned a < Pinned b \/ (Pinned a = Pinned b /\ bytes_le (ID a) (ID b)).

Lemma snapshot_sorted st : StronglySorted inv_le (snapshotLocked st).
Proof.
  apply stable_sort_sorted; unfold inv_le, inv_less.
  - intros x y z [H|[H1 H2]] [H'|[H1' H2']]; try lia. right. split; [lia|]. by etrans.
  - intros x y. destruct (Z.eqb_spec (Pinned x) (Pinned y)); cbn [negb]; [|intros ?%Z.ltb_lt; lia].
    intros H%bool_decide_eq_true_1. right. split; [done|]. apply bytes_le_lt. by right.
  - intros x y. destruct (Z.eqb_spec (Pinned x) (Pinned y)); cbn [negb]; [|intros ?%Z.ltb_ge; lia].
    intros H%bool_decide_eq_false_1. right. split; [done|]. destruct (total bytes_le (ID x) (ID y)) as [Hl|]; [|done].
    apply bytes_le_lt in Hl as [->|]; [by apply bytes_le_lt; left|done].
Qed.

Lemma snapshot_elem st inv : mem_ok st -> inv ∈ snapshotLocked st <-> live st !! ID inv = Some inv.
Proof.
  intros [H1 H2 H3]. unfold snapshotLocked. rewrite (stable_sort_perm inv_less), list_elem_of_omap. split.
  - intros (id & _ & Hl). by rewrite (H3 _ _ Hl).
  - intros Hl. exists (ID inv). split; [|done]. apply H2. by rewrite Hl.
Qed.

Lemma snapshot_live st st' : mem_ok st -> mem_ok st' -> live st = live st' -> snapshotLocked st = snapshotLocked st'.
Proof.
  intros Hm Hm' Hl. apply (StronglySorted_unique_strong inv_le); [|apply snapshot_sorted|apply snapshot_sorted|].
  - intros x y Hx Hy [H|[H1 H2]] [H'|[H1' H2']]; try lia. assert (ID x = ID y) as He by by apply (anti_symm bytes_le).
    apply (snapshot_elem st x Hm) in Hx. apply (snapshot_elem st' y Hm') in Hy. rewrite <- Hl, <- He in Hy. congruence.
  - unfold snapshotLocked. rewrite !(stable_sort_perm inv_less). rewrite Hl. apply omap_Permutation.
    apply NoDup_Permutation; [apply Hm|apply Hm'|]. intros id. by rewrite (m_order st Hm), (m_order st' Hm'), Hl.
Qed.

(** ** What the code relies on of [encoding/json] *)

Definition int64 (z : Z) : Prop := - 2 ^ 63 <= z < 2 ^ 63.

Definition text_length (r : record) : nat :=
  length (rOp r) + length (rID r) + match rInvariant r with Some inv => length (ID inv) + length (Text inv) + length (Source inv) | None => 0 end.

(** The records the encoder carries exactly: valid UTF-8 and machine integers. *)
Definition wire_ok (r : record) : Prop :=
  runes (rOp r) /\ runes (rID r) /\ int64 (rTS r) /\
  match rInvariant r with Some inv => runes (ID inv) /\ runes (Text inv) /\ runes (Source inv) /\ int64 (Pinned inv) | None => True end.

(** The round trip, that blanks at the end do not matter and are no document alone, that an object cut short is none, that
    a document is one line, and that escaping costs at most six bytes a byte and the rest of a line is bounded. *)
Class PinJsonLaws {J : PinJson} : Prop := {
  dec_round r : wire_ok r -> dec_record (enc_record r) = Some r;
  dec_newline l : dec_record (l ++ [newline]) = dec_record l;
  dec_blank l : TrimSpace l = [] -> dec_record l = None;
  dec_cut r k : (k < length (enc_record r))%nat -> dec_record (take k (enc_record r)) = None;
  enc_line r : newline ∉ enc_record r;
  enc_length r : wire_ok r -> (length (enc_record r) <= 6 * text_length r + 1000)%nat
}.

(** A record that survives the log: exact, and below the cap of a line. *)
Definition fits (r : record) : Prop := wire_ok r /\ (6 * text_length r + 1000 < maxLineBytes)%nat.

Section Log.
Context {J : PinJson} {laws : PinJsonLaws}.

(** ** The actions of a log *)

Definition act_rec (r : record) : option action :=
  if bool_decide (rOp r = opAdd) then
    match rInvariant r with Some inv => if bool_decide (ID inv = []) then None else Some (AAdd inv) | None => None end
  else if bool_decide (rOp r = opRemove) then if bool_decide (rID r = []) then None else Some (ARemove (rID r))
  else None.

Definition act_of (line : bytes) : option action :=
  if over_cap line then None else match dec_record line with Some r => act_rec r | None => None end.

Lemma act_of_nil : act_of [] = None.
Proof. unfold act_of. destruct (over_cap []); [done|]. by rewrite dec_blank. Qed.

Definition acts (s : bytes) : list action := omap act_of (lines_of s).1 ++ option_list (act_of (lines_of s).2).

Lemma applyLine_act line st :
  applyLine line st = match match dec_record line with Some r => act_rec r | None => None end with Some a => Some (apply_action st a) | None => None end.
Proof.
  unfold applyLine, act_rec. destruct (dec_record line) as [r|]; [|done]. case_bool_decide; [destruct (rInvariant r); [by case_bool_decide|done]|].
  case_bool_decide; [by case_bool_decide|done].
Qed.

Lemma acts_line l r : newline ∉ l -> acts (l ++ newline :: r) = option_list (act_of (l ++ [newline])) ++ acts r.
Proof.
  intros H. unfold acts. rewrite lines_line by done. cbn [fst snd]. rewrite app_assoc. f_equal.
  change (omap act_of (?x :: ?ls)) with (omap act_of ([x] ++ ls)). rewrite omap_app. f_equal.
Qed.

Lemma acts_tail t : newline ∉ t -> acts t = option_list (act_of t).
Proof. intros H. unfold acts. by rewrite lines_tail by done. Qed.

(** Whole lines first. *)
Lemma acts_app_nil a s : (lines_of a).2 = [] -> acts (a ++ s) = acts a ++ acts s.
Proof.
  intros H. unfold acts. rewrite lines_app_nil by done. cbn [fst snd]. rewrite H, act_of_nil, omap_app. by rewrite app_nil_r, <- app_assoc.
Qed.

(** ** The fold *)

(** Stores that differ in what the fold does not read. *)
Definition same_mem (st st' : pinStore) : Prop := order st = order st' /\ live st = live st' /\ seen st = seen st' /\ cur st = cur st' /\ viewDirty st = viewDirty st'.

#[local] Instance same_mem_trans : Transitive same_mem.
Proof. intros a b c (?&?&?&?&?) (?&?&?&?&?). repeat split; congruence. Qed.

Lemma apply_same st st' a : same_mem st st' -> same_mem (apply_action st a) (apply_action st' a).
Proof.
  intros (H1 & H2 & H3 & H4 & H5). destruct a as [inv|id]; cbn [apply_action]; [unfold applyAdd|unfold applyRemove]; rewrite H1, H2, H3.
  - by repeat split.
  - destruct (live st' !! id); by repeat split.
Qed.

Lemma fold_same l st st' : same_mem st st' -> same_mem (fold_left apply_action l st) (fold_left apply_action l st').
Proof. revert st st'. induction l as [|a l IH]; intros st st' H; cbn; [done|]. by apply IH, apply_same. Qed.

Lemma fold_dirty l st : viewDirty (fold_left apply_action l st) = viewDirty st.
Proof.
  revert st. induction l as [|a l IH]; intros st; cbn; [done|]. rewrite IH. destruct a as [inv|id]; [done|]. cbn [apply_action]. unfold applyRemove. by destruct (live st !! id).
Qed.

(** One line of the loop. *)
Lemma folded_act st line (b : bool) :
  same_mem (match (if over_cap line then None else if bool_decide (TrimSpace (capped line) = []) then Some st else applyLine (capped line) st)
            with Some st => st | None => if b then bad st else st end)
    (fold_left apply_action (option_list (act_of line)) st).
Proof.
  assert (forall st, same_mem (if b then bad st else st) st) as Hbad by (intros s; destruct b; by repeat split).
  unfold act_of, capped. destruct (over_cap line); [apply Hbad|]. case_bool_decide as Hbl; [by rewrite dec_blank|].
  rewrite applyLine_act. destruct (match dec_record line with Some r => act_rec r | None => None end); [by repeat split|apply Hbad].
Qed.

(** The loop applies the actions of the text and stops at the end of its last whole line. *)
Lemma fold_loop_acts fuel ct st pos s : (length s < fuel)%nat ->
  let '(st', pos') := fold_loop fuel ct st pos s in
  same_mem st' (fold_left apply_action (acts s) st) /\ pos' = (pos + length (concat (lines_of s).1))%nat.
Proof.
  revert st pos s. induction fuel as [|fuel IH]; intros st pos s Hf; [lia|]. cbn [fold_loop]. destruct (first_line_cases s) as [Hs|(l & r & -> & Hl)].
  - rewrite read_tail, acts_tail, lines_tail by done. cbn [fst concat]. split; [|cbn; lia]. apply folded_act.
  - rewrite read_line, acts_line, lines_line by done. cbn [fst concat].
    match goal with |- context [fold_loop fuel ct ?x ?p r] => specialize (IH x p r) end. rewrite length_app in Hf. cbn [length] in Hf.
    destruct (fold_loop fuel ct _ _ r) as [st' pos']. destruct IH as [IH ->]; [lia|]. split; [|rewrite !length_app; lia].
    rewrite fold_left_app. etrans; [exact IH|]. apply fold_same, folded_act.
Qed.

(** ** Appends *)

(** No unfinished line sits exactly at the cap, where its newline would put it over. *)
Definition tame (b : bytes) : Prop := length (lines_of b).2 <> maxLineBytes.

Lemma tame_nil : tame [].
Proof. unfold tame. cbn [lines_of snd length]. with_strategy transparent [maxLineBytes] unfold maxLineBytes. lia. Qed.

Lemma act_newline t : length t <> maxLineBytes -> act_of (t ++ [newline]) = act_of t.
Proof.
  intros H. unfold act_of. rewrite dec_newline. assert (over_cap (t ++ [newline]) = over_cap t) as ->; [|done].
  unfold over_cap. rewrite length_app. cbn [length]. destruct (Nat.ltb_spec maxLineBytes (length t)); [apply Nat.ltb_lt|apply Nat.ltb_ge]; lia.
Qed.

Lemma lines_snoc b : lines_of (b ++ [newline]) = ((lines_of b).1 ++ [(lines_of b).2 ++ [newline]], []).
Proof. rewrite lines_app, (lines_line _ []) by apply lines_tail_free. done. Qed.

Lemma terminator_spec b : tame b -> acts (b ++ terminator true b) = acts b /\ (lines_of (b ++ terminator true b)).2 = [].
Proof.
  intros Ht. unfold terminator. destruct (last b) as [c|] eqn:El; [|apply last_None in El as ->; done]. cbn [andb]. case_bool_decide as Hc; cbn [negb].
  - subst c. apply last_Some in El as [b' ->]. rewrite app_nil_r, lines_snoc. done.
  - unfold acts. rewrite lines_snoc. cbn [fst snd]. rewrite omap_app, act_of_nil, app_nil_r. split; [|done]. f_equal.
    rewrite <- (act_newline _ Ht). cbn [omap list_omap]. by destruct (act_of _).
Qed.

Lemma acts_nil : acts [] = [].
Proof. unfold acts. cbn [lines_of fst snd]. by rewrite act_of_nil. Qed.

Lemma act_record r : fits r -> act_of (enc_record r) = act_rec r /\ (length (enc_record r) < maxLineBytes)%nat.
Proof.
  intros [Hw Hl]. pose proof (enc_length r Hw). split; [|lia]. unfold act_of, over_cap. rewrite (proj2 (Nat.ltb_ge _ _)) by lia. by rewrite dec_round.
Qed.

(** A record that is cut short is all there or not at all. *)
Lemma acts_cut r k : fits r ->
  let s := take k (enc_record r ++ [newline]) in
  (acts s = [] \/ acts s = option_list (act_rec r)) /\ (length (lines_of s).2 < maxLineBytes)%nat.
Proof.
  intros Hf. cbv zeta. destruct (act_record r Hf) as [Ha Hl]. pose proof (enc_line r) as Hn. destruct (Nat.le_gt_cases k (length (enc_record r))) as [Hk|Hk].
  - rewrite take_app_le, acts_tail, lines_tail by (done || by apply take_no_newline). split; [|cbn; rewrite length_take; lia].
    destruct (decide (k = length (enc_record r))) as [->|Hne]; [right; by rewrite firstn_all, Ha|left].
    unfold act_of. rewrite dec_cut by lia. by destruct (over_cap _).
  - rewrite take_ge by (rewrite length_app; cbn; lia). rewrite (acts_line _ []), act_newline, Ha, acts_nil, app_nil_r, (lines_line _ []) by (done || lia). split; [by right|cbn; lia].
Qed.

Lemma acts_whole r : fits r -> acts (enc_record r ++ [newline]) = option_list (act_rec r).
Proof.
  intros Hf. destruct (act_record r Hf) as [Ha Hl]. pose proof (enc_line r). by rewrite (acts_line _ []), act_newline, Ha, acts_nil, app_nil_r by (done || lia).
Qed.

(** What an append adds to the actions of a log. *)
Definition written (b : bytes) (r : record) (cut : option nat) : bytes :=
  match cut with None => append_bytes true b r | Some k => take k (append_bytes true b r) end.

Lemma acts_written b r cut : tame b -> fits r ->
  (acts (b ++ written b r cut) = acts b \/ acts (b ++ written b r cut) = acts b ++ option_list (act_rec r)) /\
  (cut = None -> acts (b ++ written b r cut) = acts b ++ option_list (act_rec r)) /\ tame (b ++ written b r cut).
Proof.
  intros Ht Hf. destruct (terminator_spec b Ht) as [Ha Hn]. unfold written, append_bytes. destruct cut as [k|].
  - destruct (terminator true b) as [|c [|c' tl]] eqn:E.
    + rewrite app_nil_r in Ha, Hn. cbn [app]. destruct (acts_cut r k Hf) as [Hc Hl]. split; [|split; [done|unfold tame; rewrite lines_app_nil by done; cbn; lia]].
      rewrite acts_app_nil by done. destruct Hc as [-> | ->]; [left; by rewrite app_nil_r|by right].
    + destruct k as [|k]; [cbn [app take]; rewrite app_nil_r; split; [by left|done]|]. cbn [app take]. change (b ++ c :: ?x) with (b ++ [c] ++ x). rewrite (app_assoc b).
      destruct (acts_cut r k Hf) as [Hc Hl]. split; [|split; [done|unfold tame; rewrite lines_app_nil by done; cbn; lia]].
      rewrite acts_app_nil, Ha by done. destruct Hc as [-> | ->]; [left; by rewrite app_nil_r|by right].
    + exfalso. unfold terminator in E. destruct (last b); [|done]. by destruct (_ && _).
  - rewrite (app_assoc b), acts_app_nil, Ha, acts_whole by done. split; [by right|]. split; [done|]. unfold tame. rewrite lines_app_nil by done. cbn [snd].
    rewrite (lines_line _ []) by apply enc_line. with_strategy transparent [maxLineBytes] unfold maxLineBytes. cbn. lia.
Qed.

Lemma terminator_aligned a : (lines_of a).2 = [] -> terminator true a = [].
Proof.
  intros H. unfold terminator. destruct (last a) as [c|] eqn:El; [|done]. cbn [andb]. case_bool_decide as Hc; [done|]. exfalso.
  apply last_Some in El as [a' ->]. rewrite lines_app in H. cbn [snd] in H. rewrite lines_tail in H; [by destruct (lines_of a').2|].
  apply not_elem_of_app. split; [apply lines_tail_free|]. intros Hx%list_elem_of_singleton. congruence.
Qed.

Lemma written_aligned a s r cut : (lines_of a).2 = [] -> written (a ++ s) r cut = written s r cut.
Proof.
  intros H. assert (terminator true (a ++ s) = terminator true s) as Ht; [|unfold written, append_bytes; by rewrite Ht].
  destruct s as [|x s]; [rewrite app_nil_r; by apply terminator_aligned|]. unfold terminator. by rewrite last_app_cons.
Qed.

(** ** Memory and the log *)

(** Up to the cursor memory is the log; any id it holds otherwise is decided by a record after the cursor. *)
Record tracks (st : pinStore) (b : bytes) : Prop := {
  t_offset : (offset (cur st) <= length b)%nat;
  t_aligned : (lines_of (take (offset (cur st)) b)).2 = [];
  t_held : forall id, held st id = decided (acts (take (offset (cur st)) b)) id \/ is_Some (final (acts (drop (offset (cur st)) b)) id);
  t_size : (size (cur st) <= length b)%nat;
  t_synced : exists_ (cur st) = true -> size (cur st) = length b -> forall id, held st id = decided (acts b) id;
  t_mem : mem_ok st
}.

Lemma tracks_written st b r cut : tracks st b -> tame b -> fits r -> tracks st (b ++ written b r cut).
Proof.
  intros [H1 H2 H3 H4 H5 H6] Ht Hf. set (a := take (offset (cur st)) b) in *. set (s := drop (offset (cur st)) b) in *.
  assert (b = a ++ s) as Hb by (symmetry; apply take_drop). assert (tame s) as Hs by (unfold tame in *; rewrite Hb, lines_app_nil in Ht by done; done).
  assert (written b r cut = written s r cut) as Hw by (rewrite Hb; by apply written_aligned).
  assert (length (b ++ written b r cut) = length b -> written b r cut = []) as Hn by (rewrite length_app; intros; apply nil_length_inv; lia).
  constructor; rewrite ?take_app_le, ?drop_app_le by done; fold a s; [rewrite length_app; lia|done| |rewrite length_app; lia| |done].
  - intros id. destruct (H3 id) as [|[v Hv]]; [by left|]. right. rewrite Hw. destruct (acts_written s r cut Hs Hf) as ([-> | ->] & _); [by rewrite Hv|].
    rewrite final_app, Hv. by destruct (final (option_list _) id).
  - intros He Hsz. assert (written b r cut = []) as Hx by (apply Hn; rewrite length_app in *; lia). rewrite Hx, app_nil_r. apply H5; [done|].
    rewrite Hx, app_nil_r in Hsz. done.
Qed.

(** The file a node stands for. *)
Definition log_is (d : disk) (b : bytes) : Prop := log d = Regular b \/ (log d = Absent /\ b = []).

Lemma held_same st st' id : same_mem st st' -> held st id = held st' id.
Proof. intros (_ & H1 & H2 & _). unfold held. by rewrite H1, H2. Qed.

Lemma mem_ok_same st st' : same_mem st st' -> mem_ok st' -> mem_ok st.
Proof. intros (H1 & H2 & _) [A B C]. constructor; rewrite ?H1, ?H2; done. Qed.

Lemma decided_app as1 as2 id : decided (as1 ++ as2) id = match final as2 id with Some v => (v, true) | None => decided as1 id end.
Proof. unfold decided. rewrite final_app. by destruct (final as2 id). Qed.

(** Folding from the cursor brings memory up to the log. *)
Lemma fold_tracks i ct st b d : tracks st b -> log d = Regular b -> io_open i = true -> io_read i = None ->
  let '(st', e) := foldFrom i (offset (cur st)) ct d st in
  e = None /\ tracks st' b /\ (forall id, held st' id = decided (acts b) id) /\ viewDirty st' = viewDirty st.
Proof.
  intros [H1 H2 H3 H4 H5 H6] Hl Ho Hr. unfold foldFrom. rewrite Hl, Ho, Hr. cbn [negb]. set (off := offset (cur st)) in *. set (s := drop off b) in *.
  pose proof (fold_loop_acts (S (length s)) ct st off s ltac:(lia)) as Hf. destruct (fold_loop _ _ _ _ _) as [st' pos']. destruct Hf as [Hm ->].
  assert (b = take off b ++ s) as Hb by (symmetry; apply take_drop).
  assert (acts b = acts (take off b) ++ acts s) as Ha by (rewrite Hb at 1; by apply acts_app_nil).
  assert (forall id, held st' id = decided (acts b) id) as Hd.
  { intros id. rewrite (held_same _ _ id Hm), held_fold, Ha, decided_app. destruct (final (acts s) id) eqn:E; [done|]. destruct (H3 id) as [H|[v Hv]]; [done|congruence]. }
  split; [done|]. set (k := length (concat (lines_of s).1)). pose proof (lines_concat s) as Hc. assert (length b = off + length s)%nat as Hlen by (subst s; rewrite length_drop; lia).
  assert (k <= length s)%nat as Hk by (rewrite <- Hc, length_app; lia).
  assert (take (off + k) b = take off b ++ concat (lines_of s).1) as Htk.
  { rewrite Hb at 1. rewrite take_app, length_take, take_ge by (rewrite length_take; lia). f_equal. replace (off + k - off `min` length b)%nat with k by lia.
    transitivity (take k (concat (lines_of s).1 ++ (lines_of s).2)); [by rewrite Hc|apply take_app_length]. }
  split; [|split; [intros id; exact (Hd id)|destruct Hm as (_ & _ & _ & _ & Hv); cbn [set_cur viewDirty]; rewrite Hv; apply fold_dirty]].
  assert ((lines_of (take (off + k) b)).2 = []) as Hal by (rewrite Htk, lines_app_nil by done; cbn [snd]; by rewrite lines_whole).
  constructor; cbn [set_cur cur offset size exists_]; [lia|done|intros id|lia|intros _ _ id; exact (Hd id)|].
  - change (held (set_cur _ st') id) with (held st' id). rewrite Hd. rewrite <- (take_drop (off + k) b) at 1. rewrite acts_app_nil, decided_app by done.
    destruct (final (acts (drop (off + k) b)) id) eqn:E; [right; by eexists|by left].
  - destruct (mem_ok_same _ _ Hm (fold_ok _ _ H6)). by constructor.
Qed.

Lemma tracks_frame st st' b : order st' = order st -> live st' = live st -> seen st' = seen st -> cur st' = cur st -> tracks st b -> tracks st' b.
Proof.
  intros Ho Hl Hs Hc [H1 H2 H3 H4 H5 [A B C]]. constructor; unfold held; rewrite ?Hc, ?Hl, ?Hs; try done.
  constructor; rewrite ?Ho, ?Hl; done.
Qed.

(** A store opened on a log. *)
Lemma new_tracks b : tracks new_store b.
Proof.
  constructor; cbn [new_store cur offset size exists_]; [lia|by rewrite take_0|intros id; left; by rewrite take_0, acts_nil|lia|done|].
  constructor; cbn [new_store order live]; [constructor| |done]. intros id. rewrite lookup_empty. split; [by intros ?%not_elem_of_nil|by intros []].
Qed.

(** Calls that read the log to its end once they opened it, and look at its last byte before they append. *)
Definition steady (i : io) : Prop := io_read i = None /\ io_probe i = true.

Lemma fold_tracks_any i ct st b d : tracks st b -> log_is d b -> steady i ->
  let '(st', e) := foldFrom i (offset (cur st)) ct d st in
  tracks st' b /\ (e = None -> forall id, held st' id = decided (acts b) id).
Proof.
  intros Ht Hl [Hr _]. destruct (io_open i) eqn:Ho; [destruct Hl as [Hl|[Hl ->]]|].
  - pose proof (fold_tracks i ct st b d Ht Hl Ho Hr) as H. destruct (foldFrom _ _ _ _ _). naive_solver.
  - unfold foldFrom. rewrite Hl. destruct (exists_ (cur st)) eqn:E; [done|]. split; [done|]. intros _ id.
    destruct (t_held _ _ Ht id) as [H|[v Hv]]; [by rewrite take_nil in H|]. by rewrite drop_nil, acts_nil in Hv.
  - unfold foldFrom. rewrite Ho. destruct Hl as [Hl|[Hl ->]]; rewrite Hl; [done|]. destruct (exists_ (cur st)) eqn:E; [done|]. split; [done|]. intros _ id.
    destruct (t_held _ _ Ht id) as [H|[v Hv]]; [by rewrite take_nil in H|]. by rewrite drop_nil, acts_nil in Hv.
Qed.

Lemma catch_up_tracks i st b d : tracks st b -> log_is d b -> steady i ->
  let '(st', e) := catchUpLocked i d st in
  tracks st' b /\ (e = None -> forall id, held st' id = decided (acts b) id).
Proof.
  intros Ht Hl Hi. unfold catchUpLocked. destruct (io_stat i); cbn [negb]; [|done]. destruct Hl as [Hl|[Hl ->]]; rewrite Hl.
  - assert (tracks (set_warned false st) b) as Hw by by apply (tracks_frame st). destruct (exists_ (cur (set_warned false st)) && _) eqn:E.
    { apply andb_true_iff in E as [E1 E2%Nat.eqb_eq]. split; [done|]. intros _. by apply Hw. }
    rewrite (proj2 (Nat.ltb_ge _ _)) by apply Hw. apply fold_tracks_any; [done|by left|done].
  - assert (tracks (if exists_ (cur st) then set_warned true st else st) []) as Hw by (destruct (exists_ (cur st)); [by apply (tracks_frame st)|done]).
    split; [done|]. intros _ id. destruct (t_held _ _ Hw id) as [H|[v Hv]]; [by rewrite take_nil in H|]. by rewrite drop_nil, acts_nil in Hv.
Qed.

(** A record of one's own, applied to memory and appended. *)
Lemma tracks_apply st b r a : tracks st b -> tame b -> fits r -> act_rec r = Some a -> tracks (apply_action st a) (b ++ written b r None).
Proof.
  intros Ht Hta Hf Ha. pose proof (tracks_written st b r None Ht Hta Hf) as [H1 H2 H3 H4 _ H6].
  assert (cur (apply_action st a) = cur st) as Hc by (destruct a as [|id]; [done|]; cbn [apply_action]; unfold applyRemove; by destruct (live st !! id)).
  set (off := offset (cur st)) in *. destruct Ht as [G1 G2 _ G4 _ _]. fold off in G1, G2.
  assert (drop off (b ++ written b r None) = drop off b ++ written (drop off b) r None) as Hd.
  { rewrite drop_app_le by done. f_equal. rewrite <- (take_drop off b) at 1. by apply written_aligned. }
  assert (tame (drop off b)) as Hs by (unfold tame in *; rewrite <- (take_drop off b), lines_app_nil in Hta by done; done).
  destruct (acts_written (drop off b) r None Hs Hf) as (_ & Hw & _). specialize (Hw eq_refl). rewrite Ha in Hw. cbn [option_list] in Hw.
  constructor; rewrite ?Hc; fold off; [done|done| |done| |by apply apply_ok].
  - intros id. rewrite held_apply. destruct (bool_decide_reflect (subject a = id)) as [<-|Hne]; [|apply H3]. right. rewrite Hd, Hw, final_app. cbn.
    rewrite bool_decide_eq_true_2 by done. by eexists.
  - intros _ Hsz. rewrite length_app in Hsz. assert (0 < length (written b r None))%nat; [|lia]. unfold written, append_bytes. rewrite !length_app. cbn. lia.
Qed.

(** ** Runs *)

Definition in_step (w : world) : Prop := exists b, log_is w.2 b /\ tame b /\ tracks w.1 b.

Lemma appended_log d b r cut : log_is d b -> log_is (appended true cut r d) (b ++ written b r cut).
Proof. intros [H|[H ->]]; unfold appended; rewrite H; left; cbn [log log_bytes]; unfold written; by destruct cut. Qed.

Lemma foreign_step others d b st : log_is d b -> tame b -> tracks st b -> Forall (fun a => fits a.1) others ->
  exists b', log_is (fold_left foreign others d) b' /\ tame b' /\ tracks st b' /\ b `prefix_of` b'.
Proof.
  intros Hl Hta Ht Ho. revert d b Hl Hta Ht. induction Ho as [|[r cut] others Hr _ IH]; intros d b Hl Hta Ht; [by exists b|].
  cbn [fold_left]. destruct (IH (foreign d (r, cut)) (b ++ written b r cut)) as (b' & H1 & H2 & H3 & H4).
  - by apply appended_log.
  - by apply acts_written.
  - by apply tracks_written.
  - exists b'. split; [done|]. split; [done|]. split; [done|]. etrans; [by apply prefix_app_r|done].
Qed.

Lemma materialize_step i st d b : log_is d b -> tame b -> tracks st b -> in_step (materializeLocked i (st, d)).1.
Proof.
  intros Hl Hta Ht. exists b. unfold materializeLocked. destruct (io_view i); cbn [fst snd]; (split; [done|split; [done|by apply (tracks_frame st)]]).
Qed.

(** The record an operation appends. *)
Definition add_record (i : io) (inv : Invariant) : record := MkRecord opAdd (io_now i).2 (Some (prepared (io_now i).1 inv)) [].
Definition remove_record (i : io) (id : bytes) : record := MkRecord opRemove (io_now i).2 None id.

Lemma appendLocked_line i r d : appendLocked i r d =
  (appended (io_probe i) (io_append i) r d, match log d, io_append i with Irregular, _ => Some ErrAppend | _, Some _ => Some ErrAppend | _, None => None end).
Proof. unfold appendLocked. rewrite bool_decide_eq_false_2; [done|apply enc_line]. Qed.

Lemma pin_append_step i r a st d b (Hi : steady i) : log_is d b -> tame b -> tracks st b -> fits r -> act_rec r = Some a ->
  in_step (match appendLocked i r d with (d, Some e) => (st, d) | (d, None) => (materializeLocked i (apply_action st a, d)).1 end).
Proof.
  intros Hl Hta Ht Hf Ha. rewrite appendLocked_line. destruct Hi as [_ ->]. pose proof (appended_log d b r (io_append i) Hl) as Hd.
  assert (log d <> Irregular) as Hn by (destruct Hl as [H|[H _]]; congruence). destruct (acts_written b r (io_append i) Hta Hf) as (_ & _ & Hta').
  destruct (log d) eqn:El; [|done|]; destruct (io_append i) as [k|] eqn:Ek;
    [exists (b ++ written b r (Some k)); cbn [fst snd]; (split; [done|split; [done|by apply tracks_written]])
    |by apply (materialize_step i _ _ (b ++ written b r None)); [| |apply tracks_apply]
    |exists (b ++ written b r (Some k)); cbn [fst snd]; (split; [done|split; [done|by apply tracks_written]])
    |by apply (materialize_step i _ _ (b ++ written b r None)); [| |apply tracks_apply]].
Qed.

Lemma prepared_id now inv : ID (prepared now inv) <> [].
Proof. unfold prepared. cbn [ID]. by case_bool_decide. Qed.

Lemma add_act i inv : act_rec (add_record i inv) = Some (AAdd (prepared (io_now i).1 inv)).
Proof. unfold act_rec, add_record. cbn [rOp rInvariant]. rewrite bool_decide_eq_true_2 by done. rewrite bool_decide_eq_false_2; [done|apply prepared_id]. Qed.

Lemma remove_act i id : id <> [] -> act_rec (remove_record i id) = Some (ARemove id).
Proof. intros H. unfold act_rec, remove_record. cbn [rOp rID]. rewrite (bool_decide_eq_false_2 (opRemove = opAdd)), (bool_decide_eq_true_2 (opRemove = opRemove)) by done. by rewrite bool_decide_eq_false_2. Qed.

Lemma act_subject line a : act_of line = Some a -> subject a <> [].
Proof.
  unfold act_of, act_rec. destruct (over_cap line); [done|]. destruct (dec_record line) as [r|]; [|done]. case_bool_decide.
  - destruct (rInvariant r) as [inv|]; [|done]. case_bool_decide; [done|]. by intros [= <-].
  - case_bool_decide; [|done]. case_bool_decide; [done|]. by intros [= <-].
Qed.

(** No record is about the empty id. *)
Lemma decided_empty b : decided (acts b) [] = (None, false).
Proof.
  assert (Forall (fun a => subject a <> []) (acts b)) as H.
  { unfold acts. apply Forall_app. split.
    - apply Forall_forall. intros a (l & _ & Hl)%list_elem_of_omap. by eapply act_subject.
    - destruct (act_of _) eqn:E; constructor; [by eapply act_subject|constructor]. }
  unfold decided. induction H as [|a l Ha _ IH]; [done|]. cbn. destruct (final l []); [done|]. by rewrite bool_decide_eq_false_2.
Qed.

Lemma Add_step i others inv w : in_step w -> steady i -> fits (add_record i inv) -> Forall (fun a => fits a.1) others -> in_step (Add i others inv w).1.
Proof.
  intros (b & Hl & Hta & Ht) Hi Hf Ho. unfold Add. destruct (io_ctx i); cbn [negb]; [|by exists b]. case_bool_decide; [by exists b|].
  pose proof (catch_up_tracks i w.1 b w.2 Ht Hl Hi) as Hc. destruct (catchUpLocked i w.2 w.1) as [st [e|]]; destruct Hc as [Hc _]; [by exists b|].
  destruct (foreign_step others w.2 b st Hl Hta Hc Ho) as (b' & Hl' & Hta' & Ht' & _).
  destruct (live st !! ID (prepared (io_now i).1 inv)); [destruct (viewDirty st); [by eapply materialize_step|by exists b']|].
  pose proof (pin_append_step i (add_record i inv) _ st _ b' Hi Hl' Hta' Ht' Hf (add_act i inv)) as Hap. fold (add_record i inv).
  destruct (appendLocked i (add_record i inv) _) as [d [e|]]; exact Hap.
Qed.

Lemma Remove_step i others id w : in_step w -> steady i -> fits (remove_record i id) -> Forall (fun a => fits a.1) others -> in_step (Remove i others id w).1.
Proof.
  intros (b & Hl & Hta & Ht) Hi Hf Ho. unfold Remove. destruct (io_ctx i); cbn [negb]; [|by exists b].
  pose proof (catch_up_tracks i w.1 b w.2 Ht Hl Hi) as Hc. destruct (catchUpLocked i w.2 w.1) as [st [e|]]; destruct Hc as [Hc Hs]; [by exists b|].
  destruct (foreign_step others w.2 b st Hl Hta Hc Ho) as (b' & Hl' & Hta' & Ht' & _).
  destruct (live st !! id) as [inv|] eqn:El; [|case_bool_decide; [destruct (viewDirty st); [by eapply materialize_step|]|]; by exists b'].
  assert (id <> []) as Hid. { intros ->. specialize (Hs eq_refl []). rewrite decided_empty in Hs. unfold held in Hs. congruence. }
  pose proof (pin_append_step i (remove_record i id) _ st _ b' Hi Hl' Hta' Ht' Hf (remove_act i id Hid)) as Hap. fold (remove_record i id).
  destruct (appendLocked i (remove_record i id) _) as [d [e|]]; exact Hap.
Qed.

Lemma All_step i w : in_step w -> steady i -> in_step (All i w).1.
Proof.
  intros (b & Hl & Hta & Ht) Hi. unfold All. destruct (io_ctx i); cbn [negb]; [|by exists b].
  pose proof (catch_up_tracks i w.1 b w.2 Ht Hl Hi) as Hc. destruct (catchUpLocked i w.2 w.1) as [st [e|]]; destruct Hc as [Hc _]; by exists b.
Qed.

Lemma Materialize_step i w : in_step w -> steady i -> in_step (Materialize i w).1.
Proof.
  intros (b & Hl & Hta & Ht) Hi. unfold Materialize. destruct (io_ctx i); cbn [negb]; [|by exists b].
  pose proof (catch_up_tracks i w.1 b w.2 Ht Hl Hi) as Hc. destruct (catchUpLocked i w.2 w.1) as [st [e|]]; destruct Hc as [Hc _]; [by exists b|].
  by eapply materialize_step.
Qed.

Lemma Open_step i d b : log_is d b -> tame b -> steady i -> in_step ((OpenWith i d).1, d).
Proof.
  intros Hl Hta Hi. pose proof (fold_tracks_any i true new_store b d (new_tracks b) Hl Hi) as H. unfold OpenWith.
  change (offset (cur new_store)) with 0%nat in H. destruct (foldFrom i 0 true d new_store) as [st e]. exists b. by destruct H.
Qed.

(** Worlds reached from a log, whatever it holds, by calls of one store, appends of other processes, and reopening. *)
Inductive run : world -> Prop :=
  | run_open i d b : log_is d b -> tame b -> steady i -> run ((OpenWith i d).1, d)
  | run_add i others inv w : run w -> steady i -> fits (add_record i inv) -> Forall (fun a => fits a.1) others -> run (Add i others inv w).1
  | run_remove i others id w : run w -> steady i -> fits (remove_record i id) -> Forall (fun a => fits a.1) others -> run (Remove i others id w).1
  | run_all i w : run w -> steady i -> run (All i w).1
  | run_materialize i w : run w -> steady i -> run (Materialize i w).1
  | run_foreign r cut w : run w -> fits r -> run (w.1, foreign w.2 (r, cut))
  | run_reopen i w : run w -> steady i -> run ((OpenWith i w.2).1, w.2).

Lemma run_in_step w : run w -> in_step w.
Proof.
  induction 1 as [i d b Hl Hta Hi|i others inv w _ IH Hi Hf Ho|i others id w _ IH Hi Hf Ho|i w _ IH Hi|i w _ IH Hi|r cut w _ (b & Hl & Hta & Ht) Hf|i w _ (b & Hl & Hta & Ht) Hi].
  - by eapply Open_step.
  - by apply Add_step.
  - by apply Remove_step.
  - by apply All_step.
  - by apply Materialize_step.
  - destruct (foreign_step [(r, cut)] w.2 b w.1 Hl Hta Ht) as (b' & H1 & H2 & H3 & _); [constructor; [exact Hf|constructor]|]. by exists b'.
  - by eapply Open_step.
Qed.

(** ** The guarantees *)

(** What a store opened now on the same disk answers. *)
Definition quiet : io := MkIO true (0, 0) true true None true None true.
Definition answer_now (d : disk) : list Invariant := snapshotLocked (OpenWith quiet d).1.

Lemma opened d b : log_is d b -> tame b -> tracks (OpenWith quiet d).1 b /\ forall id, held (OpenWith quiet d).1 id = decided (acts b) id.
Proof.
  intros Hl Hta. pose proof (fold_tracks_any quiet true new_store b d (new_tracks b) Hl ltac:(done)) as H.
  unfold OpenWith. change (offset (cur new_store)) with 0%nat in H.
  assert ((foldFrom quiet 0 true d new_store).2 = None) as He.
  { unfold foldFrom. destruct Hl as [-> |[-> _]]; [|done]. cbn [quiet io_open io_read negb]. by destruct (fold_loop _ _ _ _ _). }
  destruct (foldFrom quiet 0 true d new_store) as [st e]. cbn [snd] in He. destruct H as [H1 H2]. split; [done|]. by apply H2.
Qed.

Lemma synced_answer st d b : log_is d b -> tame b -> mem_ok st -> (forall id, held st id = decided (acts b) id) -> snapshotLocked st = answer_now d.
Proof.
  intros Hl Hta Hm Hh. destruct (opened d b Hl Hta) as [Ht Ho]. apply snapshot_live; [done|apply Ht|]. apply map_eq. intros id.
  pose proof (Hh id) as H1. pose proof (Ho id) as H2. unfold held in H1, H2. congruence.
Qed.

Lemma answer_elem d b inv : log_is d b -> tame b -> inv ∈ answer_now d <-> final (acts b) (ID inv) = Some (Some inv).
Proof.
  intros Hl Hta. destruct (opened d b Hl Hta) as [Ht Ho]. unfold answer_now. rewrite snapshot_elem by apply Ht.
  specialize (Ho (ID inv)). unfold held, decided in Ho. destruct (final (acts b) (ID inv)) as [v|]; injection Ho as Hv _; rewrite Hv; split; congruence.
Qed.

(** C24: over every [run]: whatever the log held but an unfinished line of exactly the cap ([tame]), whichever appends, stats and
    view writes failed, whatever records that fit a line ([fits]) other processes appended, whole or cut short, and however often the
    store was reopened, with calls that read the log to its end ([steady]): when [All] answers, the answer is the one a store opened
    on the log now would give, sorted, and a pin is in it exactly when the last record of its id in the log adds it.  A record
    that does not fit is [oversize_pin_lost]. *)
Theorem pins_answer_is_log i w w' l : run w -> steady i -> All i w = (w', Ok l) ->
  l = answer_now w.2 /\ StronglySorted inv_le l /\
  exists b, log_is w.2 b /\ forall inv, inv ∈ l <-> final (acts b) (ID inv) = Some (Some inv).
Proof.
  intros (b & Hl & Hta & Ht)%run_in_step Hi. unfold All. destruct (io_ctx i); cbn [negb]; [|done].
  pose proof (catch_up_tracks i w.1 b w.2 Ht Hl Hi) as Hc. destruct (catchUpLocked i w.2 w.1) as [st [e|]]; [done|]. destruct Hc as [Hc Hs].
  intros [= _ <-]. split; [apply (synced_answer st w.2 b Hl Hta (t_mem _ _ Hc)); by apply Hs|]. split; [apply snapshot_sorted|].
  exists b. split; [done|]. intros inv. rewrite (synced_answer st w.2 b Hl Hta (t_mem _ _ Hc) (Hs eq_refl)). by apply answer_elem.
Qed.

(** What an append of one's own leaves on disk. *)
Lemma append_answer i r a st d b w e (Hi : steady i) : log_is d b -> tame b -> fits r -> act_rec r = Some a ->
  match appendLocked i r d with (d, Some e) => ((st, d), Some e) | (d, None) => materializeLocked i (apply_action st a, d) end = (w, e) ->
  exists b', log_is w.2 b' /\ tame b' /\ b `prefix_of` b' /\ (e = None -> final (acts b') (subject a) = Some (verdict a)).
Proof.
  intros Hl Hta Hf Ha. rewrite appendLocked_line. destruct Hi as [_ ->]. pose proof (appended_log d b r (io_append i) Hl) as Hd.
  assert (log d <> Irregular) as Hn by (destruct Hl as [H|[H _]]; congruence). destruct (acts_written b r (io_append i) Hta Hf) as (_ & Hw & Hta').
  intros Heq. exists (b ++ written b r (io_append i)). assert (log w.2 = log (appended true (io_append i) r d) /\ (e = None -> io_append i = None)) as [Hlog He].
  { destruct (log d) eqn:El; [|done|]; destruct (io_append i); try (injection Heq as <- <-; done); unfold materializeLocked in Heq; destruct (io_view i); injection Heq as <- <-; done. }
  split; [unfold log_is; rewrite Hlog; exact Hd|]. split; [done|]. split; [by apply prefix_app_r|]. intros Hnone. rewrite (Hw (He Hnone)), final_app, Ha. cbn.
  by rewrite bool_decide_eq_true_2.
Qed.

Lemma log_is_bytes d b : log_is d b -> log_bytes (log d) = b.
Proof. by intros [-> |[-> ->]]. Qed.

Lemma materialize_log i st d w e : materializeLocked i (st, d) = (w, e) -> log w.2 = log d.
Proof. unfold materializeLocked. destruct (io_view i); by intros [= <- <-]. Qed.

Lemma same_log_answer d d' : log d = log d' -> answer_now d = answer_now d'.
Proof. intros H. unfold answer_now, OpenWith, foldFrom. by rewrite H. Qed.

Lemma Add_effect i inv w w' e : in_step w -> steady i -> fits (add_record i inv) -> Add i [] inv w = (w', e) ->
  log_bytes (log w.2) `prefix_of` log_bytes (log w'.2) /\
  (e = None -> let p := prepared (io_now i).1 inv in
     (exists p', p' ∈ answer_now w'.2 /\ ID p' = ID p /\ (p' ∈ answer_now w.2 \/ p' = p)) /\
     (forall p', p' ∈ answer_now w.2 -> ID p' = ID p -> log w'.2 = log w.2)).
Proof.
  intros (b & Hl & Hta & Ht) Hi Hf. unfold Add. cbv zeta. destruct (io_ctx i); cbn [negb]; [|by intros [= <- <-]]. case_bool_decide; [by intros [= <- <-]|].
  pose proof (catch_up_tracks i w.1 b w.2 Ht Hl Hi) as Hc. destruct (catchUpLocked i w.2 w.1) as [st [e'|]]; [by intros [= <- <-]|]. destruct Hc as [Hc Hs].
  cbn [fold_left]. set (p := prepared (io_now i).1 inv). assert (snapshotLocked st = answer_now w.2) as Hsnap by (apply (synced_answer st w.2 b Hl Hta (t_mem _ _ Hc)); by apply Hs).
  destruct (live st !! ID p) as [p'|] eqn:El; intros Heq.
  - assert (log w'.2 = log w.2) as Hlog by (destruct (viewDirty st); [by apply materialize_log in Heq|by injection Heq as <- <-]).
    rewrite Hlog. split; [done|]. intros _. split; [|done]. exists p'. pose proof (m_ids st (t_mem _ _ Hc) _ _ El) as Hid.
    assert (p' ∈ answer_now w.2) as Hp by (rewrite <- Hsnap; apply snapshot_elem; [apply Hc|by rewrite Hid]). rewrite (same_log_answer _ _ Hlog). by split; [|split; [|left]].
  - destruct (append_answer i (add_record i inv) (AAdd p) st w.2 b w' e Hi Hl Hta Hf (add_act i inv) Heq) as (b' & Hl' & Hta' & Hpre & Hfin).
    rewrite (log_is_bytes _ _ Hl), (log_is_bytes _ _ Hl'). split; [done|]. intros He. split.
    + exists p. split; [apply (answer_elem w'.2 b' p Hl' Hta'); exact (Hfin He)|]. split; [done|by right].
    + intros p' Hp Hid. rewrite <- Hsnap in Hp. apply snapshot_elem in Hp; [|apply Hc]. rewrite Hid in Hp. congruence.
Qed.

Lemma Remove_effect i id w w' e : in_step w -> steady i -> fits (remove_record i id) -> Remove i [] id w = (w', e) ->
  log_bytes (log w.2) `prefix_of` log_bytes (log w'.2) /\ (e = None -> forall p, p ∈ answer_now w'.2 -> ID p <> id).
Proof.
  intros (b & Hl & Hta & Ht) Hi Hf. unfold Remove. destruct (io_ctx i); cbn [negb]; [|by intros [= <- <-]].
  pose proof (catch_up_tracks i w.1 b w.2 Ht Hl Hi) as Hc. destruct (catchUpLocked i w.2 w.1) as [st [e'|]]; [by intros [= <- <-]|]. destruct Hc as [Hc Hs].
  cbn [fold_left]. destruct (live st !! id) as [p|] eqn:El; intros Heq.
  - assert (id <> []) as Hid. { intros ->. specialize (Hs eq_refl []). rewrite decided_empty in Hs. unfold held in Hs. congruence. }
    destruct (append_answer i (remove_record i id) (ARemove id) st w.2 b w' e Hi Hl Hta Hf (remove_act i id Hid) Heq) as (b' & Hl' & Hta' & Hpre & Hfin).
    rewrite (log_is_bytes _ _ Hl), (log_is_bytes _ _ Hl'). split; [done|]. intros He q Hq Hidq. apply (answer_elem w'.2 b' q Hl' Hta') in Hq.
    specialize (Hfin He). cbn [subject verdict] in Hfin. rewrite Hidq in Hq. congruence.
  - assert (log w'.2 = log w.2) as Hlog.
    { case_bool_decide; [destruct (viewDirty st); [by apply materialize_log in Heq|]|]; by injection Heq as <- <-. }
    rewrite Hlog. split; [done|]. intros He p Hp Hid. rewrite (same_log_answer _ _ Hlog) in Hp.
    rewrite <- (synced_answer st w.2 b Hl Hta (t_mem _ _ Hc) (Hs eq_refl)) in Hp. apply snapshot_elem in Hp; [|apply Hc]. rewrite Hid in Hp. congruence.
Qed.

(** The view after it was regenerated is the log's answer. *)
Lemma materialize_view i w w' : run w -> steady i -> Materialize i w = (w', None) -> view w'.2 = Some (answer_now w'.2).
Proof.
  intros (b & Hl & Hta & Ht)%run_in_step Hi. unfold Materialize. destruct (io_ctx i); cbn [negb]; [|done].
  pose proof (catch_up_tracks i w.1 b w.2 Ht Hl Hi) as Hc. destruct (catchUpLocked i w.2 w.1) as [st [e|]]; [done|]. destruct Hc as [Hc Hs].
  unfold materializeLocked. destruct (io_view i); intros [= <-]. cbn [snd view]. f_equal.
  rewrite (synced_answer st w.2 b Hl Hta (t_mem _ _ Hc) (Hs eq_refl)). by apply same_log_answer.
Qed.

(** The cap of a line bounds nothing but the text: a pin whose id makes the line longer is accepted and then skipped by every
    reader of the log, so that it is gone once the store is opened again. *)
Lemma oversize_pin_lost inv : TrimSpace (Text inv) <> [] -> (maxLineBytes <= length (enc_record (add_record quiet inv)))%nat ->
  let '(w, e) := Add quiet [] inv (new_store, MkDisk Absent None) in
  e = None /\ snapshotLocked w.1 = [prepared 0 inv] /\ answer_now w.2 = [].
Proof.
  intros Ht Hl. unfold Add. cbn [quiet io_ctx negb io_now fst snd]. rewrite bool_decide_eq_false_2 by done.
  cbn [catchUpLocked quiet io_stat negb log new_store cur exists_ fold_left live]. rewrite lookup_empty. fold (add_record quiet inv).
  rewrite appendLocked_line; unfold appended, materializeLocked. cbn [log quiet io_append io_probe io_view log_bytes app append_bytes terminator last].
  split; [done|]. split.
  - unfold snapshotLocked. cbn [fst set_dirty applyAdd set_mem order live new_store omap list_omap app]. rewrite lookup_empty. cbn [app omap list_omap]. by rewrite lookup_insert_eq.
  - set (r := add_record quiet inv) in *. assert (acts (enc_record r ++ [newline]) = []) as Ha.
    { rewrite (acts_line _ []), acts_nil, app_nil_r by apply enc_line. unfold act_of, over_cap. rewrite (proj2 (Nat.ltb_lt _ _)); [done|]. rewrite length_app. cbn. lia. }
    assert (tame (enc_record r ++ [newline])) as Hta.
    { unfold tame. rewrite lines_snoc. cbn [snd length]. with_strategy transparent [maxLineBytes] unfold maxLineBytes. lia. }
    cbn [snd]. apply elem_of_nil_inv. intros p Hp. apply (answer_elem _ (enc_record r ++ [newline])) in Hp; [by rewrite Ha in Hp|by left|done].
Qed.

(** C25: after every [run], for a call that reads the log to its end ([steady]), a record that fits a line ([fits]) and no other
    process appending in between: an [Add] or [Remove] only appends to the log; an [Add] that succeeds leaves a pin under its id in
    the log's answer, the one given unless one was there, and then appends nothing; a [Remove] that succeeds leaves none under its
    id.  A record that does not fit is [oversize_pin_lost]. *)
Theorem pins_effects i w : run w -> steady i ->
  (forall inv w' e, fits (add_record i inv) -> Add i [] inv w = (w', e) ->
     log_bytes (log w.2) `prefix_of` log_bytes (log w'.2) /\
     (e = None -> let p := prepared (io_now i).1 inv in
        (exists p', p' ∈ answer_now w'.2 /\ ID p' = ID p /\ (p' ∈ answer_now w.2 \/ p' = p)) /\
        (forall p', p' ∈ answer_now w.2 -> ID p' = ID p -> log w'.2 = log w.2))) /\
  (forall id w' e, fits (remove_record i id) -> Remove i [] id w = (w', e) ->
     log_bytes (log w.2) `prefix_of` log_bytes (log w'.2) /\ (e = None -> forall p, p ∈ answer_now w'.2 -> ID p <> id)).
Proof. intros Hw%run_in_step Hi. split; [intros; by eapply Add_effect|intros; by eapply Remove_effect]. Qed.

End Log.
