(* ===== verification/PinsJson.v ===== *)
(** * The laws of [encoding/json] for pins can hold

    An instance of [PinJson] that satisfies [PinJsonLaws]: one object of comma-separated fields between braces, strings in
    hexadecimal and integers in decimal.  It is not the program's text format; it shows that the laws are
    consistent, and the witnesses of the theorems on pins are evaluated with it. *)

From S2P Require Import Prelude GoLib Core Frame Select F32 Utf8 Strconv Dag DagIndex DagLog DagJson.
From S2P Require Import GoStrings GoSort Pins PinsSpec.

(** A text without its trailing newlines. *)
Fixpoint skip_newlines (s : bytes) : bytes := match s with b :: s' => if bool_decide (b = newline) then skip_newlines s' else s | [] => [] end.
Definition strip (s : bytes) : bytes := reverse (skip_newlines (reverse s)).

Definition inv_fields (inv : option Invariant) : list bytes :=
  match inv with
  | Some inv => [bool_text true; Hex.encode (ID inv); Hex.encode (Text inv); Hex.encode (Source inv); Itoa (Pinned inv)]
  | None => [bool_text false; []; []; []; []]
  end.

Definition record_fields (r : record) : list bytes := [Hex.encode (rOp r); Itoa (rTS r)] ++ inv_fields (rInvariant r) ++ [Hex.encode (rID r)].

Definition dec_inv (fl id text src pinned : bytes) : option (option Invariant) :=
  if bool_decide (fl = bool_text true) then
    match Hex.decode id, Hex.decode text, Hex.decode src, Atoi pinned with
    | Some id, Some text, Some src, Some pinned => Some (Some (MkInvariant id text src pinned))
    | _, _, _, _ => None
    end
  else Some None.

Definition dec_object (l : bytes) : option record :=
  if bool_decide (last l = Some close_brace) then
    match object_fields l with
    | [op; ts; fl; id; text; src; pinned; rid] =>
        match Hex.decode op, Atoi ts, dec_inv fl id text src pinned, Hex.decode rid with
        | Some op, Some ts, Some inv, Some rid => Some (MkRecord op ts inv rid)
        | _, _, _, _ => None
        end
    | _ => None
    end
  else None.

#[global] Instance TextPinJson : PinJson := {
  enc_record r := object (record_fields r);
  dec_record l := dec_object (strip l)
}.

(** ** Braces *)

Lemma hex_no_brace s : close_brace ∉ Hex.encode s.
Proof.
  assert (forall n, Hex.digit n <> close_brace) as Hd.
  { intros n. unfold Hex.digit. destruct (nth_in_or_default (Z.to_nat n) Hex.digits x00) as [Hin| ->]; [|done].
    revert Hin. generalize (nth (Z.to_nat n) Hex.digits x00). apply List.Forall_forall. by repeat (constructor; [done|]). }
  induction s as [|c s IH]; [apply not_elem_of_nil|]. cbn [Hex.encode flat_map app]. rewrite !not_elem_of_cons. split_and!; [|by intros H; apply (Hd _ (eq_sym H))..|done].
  intros H. apply (Hd _ (eq_sym H)).
Qed.

Lemma Itoa_no_brace n : close_brace ∉ Itoa n.
Proof.
  assert (forall m, 0 <= m -> close_brace ∉ udec m) as Hu.
  { intros m Hm Hin. destruct (udec_spec m Hm) as (_ & Hd & _). rewrite Forall_forall in Hd. destruct (Hd _ Hin) as [d Hx]. discriminate Hx. }
  unfold Itoa. destruct (Z.ltb_spec n 0); [|by apply Hu]. apply not_elem_of_cons. split; [done|]. apply Hu. lia.
Qed.

Lemma bool_no_brace b : close_brace ∉ bool_text b.
Proof. destruct b; intros H%list_elem_of_singleton; discriminate H. Qed.

Lemma record_fields_ok r : Forall field (record_fields r) /\ Forall (fun f => close_brace ∉ f) (record_fields r).
Proof.
  unfold record_fields, inv_fields. destruct (rInvariant r); split; cbn [app]; repeat (apply Forall_cons; split;
    [first [apply hex_field|apply Itoa_field|apply bool_field|apply hex_no_brace|apply Itoa_no_brace|apply bool_no_brace|apply not_elem_of_nil|exact (Forall_nil_2 _)]|]);
    apply Forall_nil_2.
Qed.

Lemma concat_no_brace fs : Forall (fun f => close_brace ∉ f) fs -> close_brace ∉ concat (map (fun f => f ++ [comma]) fs).
Proof.
  induction 1 as [|f fs Hf _ IH]; cbn [map concat]; [apply not_elem_of_nil|]. rewrite !not_elem_of_app. split_and!; [done| |done].
  intros H%list_elem_of_singleton. discriminate H.
Qed.

Lemma last_strip s : last s = Some close_brace -> strip s = s.
Proof.
  intros [t ->]%last_Some. unfold strip. rewrite reverse_snoc. cbn [skip_newlines]. rewrite bool_decide_eq_false_2 by done.
  by rewrite <- reverse_snoc, reverse_involutive.
Qed.

Lemma skip_in s b : b ∈ skip_newlines s -> b ∈ s.
Proof. induction s as [|c s IH]; cbn; [done|]. case_bool_decide; [intros H'; right; by apply IH|done]. Qed.

Lemma strip_in s b : b ∈ strip s -> b ∈ s.
Proof. unfold strip. rewrite elem_of_reverse. intros H%skip_in. by rewrite elem_of_reverse in H. Qed.

Lemma strip_newline s : strip (s ++ [newline]) = strip s.
Proof. unfold strip. by rewrite reverse_snoc. Qed.

Lemma dec_needs_brace l : close_brace ∉ l -> dec_record l = None.
Proof.
  intros H. cbn [dec_record TextPinJson]. unfold dec_object. rewrite bool_decide_eq_false_2; [done|]. intros Hl. apply H, strip_in.
  apply last_Some in Hl as [t ->]. set_solver.
Qed.

(** ** Blanks *)

Lemma space_no_brace p : p ∈ spaces -> close_brace ∉ p.
Proof. revert p. apply Forall_forall, (bool_decide_unpack _). vm_compute. exact I. Qed.

Lemma trim_left_keeps fuel s : close_brace ∈ s -> close_brace ∈ trim_left fuel s.
Proof.
  revert s. induction fuel as [|fuel IH]; intros s Hs; cbn [trim_left]; [done|]. destruct (List.find (HasPrefix s) spaces) as [p|] eqn:E; [|done].
  apply find_some in E as [Hp Hpre]. apply HasPrefix_spec in Hpre as [t ->]. rewrite drop_app_length. apply IH.
  apply elem_of_app in Hs as [Hs|Hs]; [|done]. destruct (space_no_brace p); [by apply list_elem_of_In|done].
Qed.

Lemma trim_right_keeps fuel s : close_brace ∈ s -> close_brace ∈ trim_right fuel s.
Proof.
  revert s. induction fuel as [|fuel IH]; intros s Hs; cbn [trim_right]; [done|]. destruct (List.find (HasSuffix s) spaces) as [p|] eqn:E; [|done].
  apply find_some in E as [Hp Hsuf]. apply HasSuffix_spec in Hsuf as [t ->]. rewrite length_app, Nat.add_sub, take_app_length. apply IH.
  apply elem_of_app in Hs as [Hs|Hs]; [done|]. destruct (space_no_brace p); [by apply list_elem_of_In|done].
Qed.

#[global] Instance TextPinJson_laws : PinJsonLaws.
Proof.
  split.
  - intros r (H1 & H2 & H3 & H4). cbn [dec_record enc_record TextPinJson]. destruct (record_fields_ok r) as [Hf _].
    assert (last (object (record_fields r)) = Some close_brace) as Hl by (unfold object; by rewrite app_comm_cons, last_snoc).
    rewrite (last_strip _ Hl). unfold dec_object. rewrite bool_decide_eq_true_2, object_fields_spec by done. unfold record_fields. destruct r as [op ts [inv|] rid]; cbn [rOp rTS rInvariant rID app inv_fields] in *.
    + destruct H4 as (_ & _ & _ & H4). unfold dec_inv. rewrite bool_decide_eq_true_2 by done. rewrite !Hex.hex_decode_encode, !int64_parse by done. by destruct inv.
    + unfold dec_inv. rewrite bool_decide_eq_false_2 by done. by rewrite !Hex.hex_decode_encode, !int64_parse by done.
  - intros l. cbn [dec_record TextPinJson]. by rewrite strip_newline.
  - intros l Hl. apply dec_needs_brace. intros Hin. pose proof (trim_right_keeps (length (trim_left (length l) l)) _ (trim_left_keeps (length l) _ Hin)) as H.
    unfold TrimSpace in Hl. cbv zeta in Hl. rewrite Hl in H. by apply not_elem_of_nil in H.
  - intros r k Hk. apply dec_needs_brace. cbn [enc_record TextPinJson] in *. unfold object in *. rewrite app_comm_cons in *. rewrite length_app in Hk. cbn [length] in Hk.
    rewrite take_app_le by (cbn [length]; lia). destruct (record_fields_ok r) as [_ Hb]. intros Hin. assert (close_brace ∈ open_brace :: concat (map (fun f => f ++ [comma]) (record_fields r))) as Hx.
    { rewrite <- (take_drop k (open_brace :: _)). apply elem_of_app. by left. }
    apply elem_of_cons in Hx as [Hx|Hx]; [discriminate Hx|]. by apply (concat_no_brace _ Hb).
  - intros r. destruct (record_fields_ok r) as [Hf _]. destruct (object_is_line _ Hf) as (t & Ht & Hn). cbn [enc_record TextPinJson]. rewrite Ht.
    rewrite !not_elem_of_cons, not_elem_of_app. split; [done|]. split; [exact Hn|]. by intros Hx%list_elem_of_singleton.
  - intros r (H1 & H2 & H3 & H4). cbn [enc_record TextPinJson]. unfold object, record_fields, inv_fields, text_length. apply int64_length in H3.
    destruct (rInvariant r) as [inv|]; [destruct H4 as (_ & _ & _ & H4); apply int64_length in H4|]; cbn [app map concat];
      repeat (rewrite !length_app || rewrite Hex.encode_length || cbn [length]); cbn; lia.
Qed.

(** ** Examples *)

Definition sample_pin : Invariant := MkInvariant (str "inv_1") (str "never touch main") (str "user") 5.
Definition fresh_disk : disk := MkDisk Absent None.
Definition opened_world : world := ((OpenWith quiet fresh_disk).1, fresh_disk).
Definition pinned_world : world := (Add quiet [] sample_pin opened_world).1.

Lemma sample_fits : fits (add_record quiet sample_pin).
Proof.
  split.
  - unfold wire_ok. cbn [add_record rOp rID rTS rInvariant quiet io_now fst snd].
    split; [apply ValidString_runes; reflexivity|]. split; [apply ValidString_runes; reflexivity|]. split; [unfold PinsSpec.int64; lia|].
    split; [apply ValidString_runes; reflexivity|]. split; [apply ValidString_runes; reflexivity|]. split; [apply ValidString_runes; reflexivity|].
    unfold PinsSpec.int64. cbn. lia.
  - assert (text_length (add_record quiet sample_pin) = 28%nat) as -> by reflexivity. unfold maxLineBytes. lia.
Qed.

Lemma sample_run : run pinned_world.
Proof.
  apply run_add; [|done|apply sample_fits|constructor]. apply (run_open quiet fresh_disk []); [by right|apply tame_nil|done].
Qed.

Lemma pins_answer_is_log_witness : [sample_pin] = answer_now pinned_world.2.
Proof.
  destruct (pins_answer_is_log quiet pinned_world (All quiet pinned_world).1 [sample_pin] sample_run) as [H _]; [done|vm_compute; reflexivity|exact H].
Defined.

Lemma pins_effects_witness : exists p, p ∈ answer_now pinned_world.2 /\ ID p = str "inv_1".
Proof.
  destruct (pins_effects quiet opened_world) as [H _]; [apply (run_open quiet fresh_disk []); [by right|apply tame_nil|done]|done|].
  destruct (H sample_pin pinned_world None sample_fits) as [_ Hx]; [vm_compute; reflexivity|]. destruct (Hx eq_refl) as [(p & Hp & Hid & _) _].
  exists p. split; [exact Hp|]. rewrite Hid. reflexivity.
Defined.
