(* ===== verification/Radix.v ===== *)
(** * The delivery index

    Models [src/internal/daemon/delivery_radix.go]: the Merkle radix (binary Patricia) index of the delivery journal.
    Pages and their encoding, the packs and root pointers they are read from with every check of a read, the
    cache of committed branches and the read-ahead of [merge], lookups, the write transaction with [insert],
    [update] and [merge], and [commit] with every point at which it may stop.  A file that cannot be read is
    a file that is not there; the handles of open packs are left out (a pack never changes once it is
    published).  Indices of bits and bytes are natural numbers: the guards of the code keep them in range. *)

From S2P Require Import Prelude GoLib Varint.

(** ** Constants *)

Definition radixMagic : bytes := str "QRDX".
Definition radixVersion : byte := x01.
Definition radixKindLeaf : byte := x00.
Definition radixKindBranch : byte := x01.
Definition radixHashBytes : nat := 32.
Definition radixHashBits : nat := 256.
Definition radixMaxKeyBytes : Z := 4096.
Definition radixMaxValueBytes : Z := 2 ^ 16.
Definition radixMaxPageBytes : Z := radixMaxKeyBytes + radixMaxValueBytes + 128.
Definition radixKeyDomain : bytes := str "qompack.delivery.radix.key.v1".
Definition radixPageDomain : bytes := str "qompack.delivery.radix.page.v1".
Definition radixPackMagic : bytes := str "QRDXPK" ++ [x00; x01].
Definition radixRootMagic : bytes := str "QRDXRT" ++ [x00; x01].
Definition radixPackHeaderLen : nat := 8.
Definition radixRootFileLen : nat := 24.
Definition radixRecordHeaderLen : nat := 4.
Definition radixTrailerLen : nat := 32.
Definition radixRecordReadAhead : nat := 512.
Definition radixNodeCacheMax : nat := Z.to_nat (2 ^ 15).
Definition radixReadAheadBytes : nat := Z.to_nat (16 * 2 ^ 10).
Definition radixReadAheadPacks : nat := 64.

Inductive radix_error := ErrUnavailable | ErrCollision | ErrTooLarge | ErrMergeOrder | ErrCtx | ErrDecide (e : Z) | ErrIO.

(** ** Digests and bits *)

Definition radixHash : Type := bytes.
Definition zeroHash : radixHash := replicate radixHashBytes x00.
Definition isZero (h : radixHash) : bool := bool_decide (h = zeroHash).

Definition radixDigest (domain b : bytes) : radixHash := Sha256.sum (domain ++ [x00] ++ b).
Definition pageHash (raw : bytes) : radixHash := radixDigest radixPageDomain raw.

Definition bitAt (b : bytes) (i : nat) : bool := Z.testbit (b2z (nth (i / 8) b x00)) (7 - Z.of_nat (i mod 8)).

Fixpoint bits_loop (a b : bytes) (i rest : nat) : bool :=
  match rest with O => true | S rest => if negb (Bool.eqb (bitAt a i) (bitAt b i)) then false else bits_loop a b (S i) rest end.
Definition bitsEqual (a b : bytes) (from to : nat) : bool := bits_loop a b from (to - from).

(** The loop of [firstDiffBit] with the bits left to look at. *)
Fixpoint diff_loop (a b : bytes) (i rest : nat) : nat :=
  match rest with O => radixHashBits | S rest => if negb (Bool.eqb (bitAt a i) (bitAt b i)) then i else diff_loop a b (S i) rest end.
Definition firstDiffBit (a b : bytes) (from : nat) : nat := diff_loop a b from (radixHashBits - from).

Definition setBit (out : bytes) (j : nat) : bytes :=
  alter (fun c => z2b (Z.lor (b2z c) (Z.shiftl 1 (7 - Z.of_nat (j mod 8))))) (j / 8)%nat out.

(** Copies of bits: each set bit of the source among [n] from [from] on is set at its place in [out]. *)
Definition copyBits (src : bytes) (from at_ n : nat) (out : bytes) : bytes :=
  fold_left (fun out j => if bitAt src (from + j) then setBit out (at_ + j) else out) (seq 0 n) out.
Definition packBits (src : bytes) (from n : nat) : bytes := copyBits src from 0 n (replicate ((n + 7) / 8) x00).

Fixpoint prefix_loop (target : radixHash) (depth : nat) (skipBits : bytes) (j rest : nat) : nat * bool :=
  match rest with
  | O => ((depth + j)%nat, true)
  | S rest => if negb (Bool.eqb (bitAt target (depth + j)) (bitAt skipBits j)) then ((depth + j)%nat, false)
              else prefix_loop target depth skipBits (S j) rest
  end.
Definition comparePrefix (target : radixHash) (depth : nat) (skipBits : bytes) (skipLen : nat) : nat * bool :=
  prefix_loop target depth skipBits 0 skipLen.

(** ** Pages *)

Record radixLoc := MkLoc { pack : Z; off : Z }.
Definition noLoc : radixLoc := MkLoc 0 0.
Definition valid (l : radixLoc) : bool := negb (pack l =? 0) && (Z.of_nat radixPackHeaderLen <=? off l).

Inductive radixNode :=
  | LeafNode (keyHash : radixHash) (key value : bytes)
  | BranchNode (skipLen : nat) (skipBits : bytes) (child0 child1 : radixHash) (loc0 loc1 : radixLoc).

#[global] Instance radixLoc_eq_dec : EqDecision radixLoc. Proof. solve_decision. Defined.
#[global] Instance radixNode_eq_dec : EqDecision radixNode. Proof. solve_decision. Defined.

Definition encodeRadixLeaf (keyHash : radixHash) (key value : bytes) : bytes :=
  radixMagic ++ [radixVersion; radixKindLeaf] ++ keyHash ++
  putUvarint 9 (Z.of_nat (length key)) ++ key ++ putUvarint 9 (Z.of_nat (length value)) ++ value.

(** [copy] into a slice of exactly [n] bytes. *)
Definition resize (n : nat) (b : bytes) : bytes := take n b ++ replicate (n - length b) x00.

Definition encodeRadixBranch (skipLen : nat) (skipBits : bytes) (c0 c1 : radixHash) : bytes :=
  radixMagic ++ [radixVersion; radixKindBranch] ++ be_put 2 (Z.of_nat skipLen) ++ resize ((skipLen + 7) / 8) skipBits ++ c0 ++ c1.

Definition encodeRadixNode (n : radixNode) : bytes :=
  match n with
  | BranchNode skipLen skipBits c0 c1 _ _ => encodeRadixBranch skipLen skipBits c0 c1
  | LeafNode keyHash key value => encodeRadixLeaf keyHash key value
  end.

Definition decodeLeaf (p : bytes) : radix_error + radixNode :=
  if (length p <? radixHashBytes)%nat then inl ErrUnavailable
  else
    let keyHash := take radixHashBytes p in
    let p := drop radixHashBytes p in
    let '(klen, k) := Uvarint p in
    if (k <=? 0) || (klen >? radixMaxKeyBytes) then inl ErrUnavailable
    else
      let p := drop (Z.to_nat k) p in
      if Z.of_nat (length p) <? klen then inl ErrUnavailable
      else
        let key := take (Z.to_nat klen) p in
        let p := drop (Z.to_nat klen) p in
        let '(vlen, k2) := Uvarint p in
        if (k2 <=? 0) || (vlen >? radixMaxValueBytes) then inl ErrUnavailable
        else
          let p := drop (Z.to_nat k2) p in
          if negb (Z.of_nat (length p) =? vlen) then inl ErrUnavailable else inr (LeafNode keyHash key p).

(** The unused low bits of the last byte of a skip are zero. *)
Definition skipCanonical (skipLen : nat) (skipBits : bytes) : bool :=
  (skipLen mod 8 =? 0)%nat ||
  (Z.land (b2z (nth ((skipLen + 7) / 8 - 1) skipBits x00)) (Z.shiftr 0xff (Z.of_nat (skipLen mod 8))) =? 0).

Definition decodeBranch (p : bytes) : radix_error + radixNode :=
  if (length p <? 2)%nat then inl ErrUnavailable
  else
    let skipLen := Z.to_nat (be_get (take 2 p)) in
    let p := drop 2 p in
    if (radixHashBits <? skipLen)%nat then inl ErrUnavailable
    else
      let nb := ((skipLen + 7) / 8)%nat in
      if negb (length p =? nb + 2 * radixHashBytes)%nat then inl ErrUnavailable
      else
        let skipBits := take nb p in
        let p := drop nb p in
        if negb (skipCanonical skipLen skipBits) then inl ErrUnavailable
        else
          let c0 := take radixHashBytes p in
          let c1 := drop radixHashBytes p in
          if isZero c0 || isZero c1 then inl ErrUnavailable else inr (BranchNode skipLen skipBits c0 c1 noLoc noLoc).

Definition decodeRadixPage (raw : bytes) : radix_error + radixNode :=
  match drop 4 raw with
  | version :: kind :: p =>
      if negb (bool_decide (take 4 raw = radixMagic)) then inl ErrUnavailable
      else if negb (bool_decide (version = radixVersion)) then inl ErrUnavailable
      else if bool_decide (kind = radixKindLeaf) then decodeLeaf p
      else if bool_decide (kind = radixKindBranch) then decodeBranch p
      else inl ErrUnavailable
  | _ => inl ErrUnavailable
  end.

(** ** The files *)

(** The packs by id and the root pointers by root, as far as they are regular files that can be read. *)
Record disk := MkDisk { packs : gmap Z bytes; roots : gmap radixHash bytes }.

Definition encodeLoc (l : radixLoc) : bytes := be_put 8 (pack l) ++ be_put 8 (off l).
Definition decodeLoc (b : bytes) : radixLoc := MkLoc (be_get (take 8 b)) (be_get (take 8 (drop 8 b))).

Definition encodeRadixRecord (raw : bytes) (n : radixNode) : bytes :=
  be_put 4 (Z.of_nat (length raw)) ++ raw ++
  match n with BranchNode _ _ _ _ l0 l1 => encodeLoc l0 ++ encodeLoc l1 | LeafNode _ _ _ => [] end.

Definition readRootPointer (d : disk) (h : radixHash) : radix_error + radixLoc :=
  match roots d !! h with
  | None => inl ErrUnavailable
  | Some raw =>
      if negb (length raw =? radixRootFileLen)%nat then inl ErrUnavailable
      else if negb (bool_decide (take 8 raw = radixRootMagic)) then inl ErrUnavailable
      else let loc := decodeLoc (drop 8 raw) in if valid loc then inr loc else inl ErrUnavailable
  end.

Definition acquirePack (d : disk) (id : Z) : radix_error + bytes :=
  match packs d !! id with
  | None => inl ErrUnavailable
  | Some f => if bool_decide (take radixPackHeaderLen f = radixPackMagic) then inr f else inl ErrUnavailable
  end.

(** [ReadAt]: [n] bytes of a file from an offset on. *)
Definition ReadAt (f : bytes) (o n : nat) : bytes := take n (drop o f).

Definition readRecordBytes (d : disk) (h : radixHash) (loc : radixLoc) : radix_error + bytes * bytes :=
  if negb (valid loc) || (MaxInt <? off loc) then inl ErrUnavailable
  else
    match acquirePack d (pack loc) with
    | inl e => inl e
    | inr f =>
        if (Z.of_nat (length f) <? off loc) || (Z.of_nat (length f) - off loc <? Z.of_nat radixRecordHeaderLen) then inl ErrUnavailable
        else
          let o := Z.to_nat (off loc) in
          let avail := (length f - o)%nat in
          let first := Nat.min radixRecordReadAhead avail in
          let buf := ReadAt f o first in
          let n := be_get (take radixRecordHeaderLen buf) in
          if (n <? 6) || (n >? radixMaxPageBytes) || (n >? Z.of_nat (avail - radixRecordHeaderLen)) then inl ErrUnavailable
          else
            let n := Z.to_nat n in
            let want := Nat.min (radixRecordHeaderLen + n + radixTrailerLen) avail in
            let buf := if (first <? want)%nat then buf ++ ReadAt f (o + first) (want - first) else take want buf in
            let buf := drop radixRecordHeaderLen buf in
            let raw := take n buf in
            if negb (bool_decide (pageHash raw = h)) then inl ErrUnavailable else inr (raw, drop n buf)
    end.

(** What [readRecordRA] makes of the bytes of a record. *)
Definition recordNode (rec : radix_error + bytes * bytes) : radix_error + radixNode :=
  match rec with
  | inl e => inl e
  | inr (raw, trailer) =>
      match decodeRadixPage raw with
      | inl e => inl e
      | inr (LeafNode keyHash key value) => inr (LeafNode keyHash key value)
      | inr (BranchNode skipLen skipBits c0 c1 _ _) =>
          if (length trailer <? radixTrailerLen)%nat then inl ErrUnavailable
          else
            let l0 := decodeLoc trailer in
            let l1 := decodeLoc (drop 16 trailer) in
            if negb (valid l0) || negb (valid l1) then inl ErrUnavailable else inr (BranchNode skipLen skipBits c0 c1 l0 l1)
      end
  end.

Definition readRecord (d : disk) (h : radixHash) (loc : radixLoc) : radix_error + radixNode := recordNode (readRecordBytes d h loc).

Definition readRoot (d : disk) (h : radixHash) : radix_error + radixNode * radixLoc :=
  match readRootPointer d h with
  | inl e => inl e
  | inr loc => match readRecord d h loc with inl e => inl e | inr n => inr (n, loc) end
  end.

(** ** State *)

Record radixCached := MkCached { cnode : radixNode; cloc : radixLoc }.
Record radixWindow := MkWindow { woff : nat; wbuf : bytes }.

(** An index with its cache and a write transaction with the pages it holds and its read-ahead; [ctx] is the number of
    times the context is still found live, without end when there is none. *)
Record txn := MkTxn {
  ctx : option nat; cache : gmap radixHash radixCached; pending : gmap radixHash radixNode; ra : option (gmap Z radixWindow)
}.

Definition set_cache (c : gmap radixHash radixCached) (t : txn) : txn := MkTxn (ctx t) c (pending t) (ra t).
Definition set_pending (p : gmap radixHash radixNode) (t : txn) : txn := MkTxn (ctx t) (cache t) p (ra t).
Definition set_ra (r : option (gmap Z radixWindow)) (t : txn) : txn := MkTxn (ctx t) (cache t) (pending t) r.

Definition begin_ (t : txn) : txn := MkTxn (ctx t) (cache t) ∅ None.

(** Computations over the state that may fail, keeping what they changed. *)
Definition M (A : Type) : Type := txn -> (radix_error + A) * txn.
#[global] Instance M_ret : MRet M := fun _ a t => (inr a, t).
#[global] Instance M_bind : MBind M := fun _ _ f m t => match m t with (inl e, t) => (inl e, t) | (inr a, t) => f a t end.

Definition fail {A} (e : radix_error) : M A := fun t => (inl e, t).
Definition gets {A} (f : txn -> A) : M A := fun t => (inr (f t), t).
Definition modify (f : txn -> txn) : M unit := fun t => (inr tt, f t).
Definition lift {A} (r : radix_error + A) : M A := fun t => (r, t).
Definition guard_ (b : bool) (e : radix_error) : M unit := if b then mret tt else fail e.

Definition ctx_Err : M unit := fun t =>
  match ctx t with
  | None => (inr tt, t)
  | Some O => (inl ErrCtx, t)
  | Some (S n) => (inr tt, MkTxn (Some n) (cache t) (pending t) (ra t))
  end.

(** What a key is hashed to, a digest of 32 bytes, and the orders in which Go walks its maps. *)
Class KeyHash := { hashKey : bytes -> radixHash; hashKey_length k : length (hashKey k) = radixHashBytes }.
Class MapOrder := { cacheOrder : gmap radixHash radixCached -> list radixHash; windowOrder : gmap Z radixWindow -> list Z }.

Definition defaultKeyHash (key : bytes) : radixHash := radixDigest radixKeyDomain key.

(** ** Reading pages *)

Section Ops.
Context {KH : KeyHash} {Or : MapOrder} (d : disk).

Definition remember (h : radixHash) (n : radixNode) (loc : radixLoc) (t : txn) : txn :=
  match n with
  | LeafNode _ _ _ => t
  | BranchNode _ _ _ _ _ _ =>
      if negb (valid loc) then t
      else
        let c := cache t in
        let c := if (radixNodeCacheMax <=? size c)%nat then foldr delete c (take (radixNodeCacheMax / 8) (cacheOrder c)) else c in
        set_cache (<[h := MkCached n loc]> c) t
  end.

(** A record out of a window that holds it whole, or a direct read. *)
Definition serve (h : radixHash) (loc : radixLoc) (w : radixWindow) : radix_error + bytes * bytes :=
  let rest := drop (Z.to_nat (off loc) - woff w) (wbuf w) in
  let n := be_get (take radixRecordHeaderLen rest) in
  let want := Z.of_nat radixRecordHeaderLen + n + Z.of_nat radixTrailerLen in
  if (n <? 6) || (n >? radixMaxPageBytes) || (want >? Z.of_nat (length rest)) then readRecordBytes d h loc
  else
    let rec := drop radixRecordHeaderLen (take (Z.to_nat want) rest) in
    let raw := take (Z.to_nat n) rec in
    if negb (bool_decide (pageHash raw = h)) then inl ErrUnavailable else inr (raw, drop (Z.to_nat n) rec).

Definition readRecordBytesRA (h : radixHash) (loc : radixLoc) : M (bytes * bytes) := fun t =>
  match ra t with
  | None => (readRecordBytes d h loc, t)
  | Some ws =>
      if negb (valid loc) || (MaxInt <? off loc) then (readRecordBytes d h loc, t)
      else
        let o := Z.to_nat (off loc) in
        let hit := match ws !! pack loc with
          | Some w => if (o <? woff w)%nat || (length (wbuf w) <? o - woff w + radixRecordHeaderLen)%nat then None else Some w
          | None => None
          end in
        match hit with
        | Some w => (serve h loc w, t)
        | None =>
            match acquirePack d (pack loc) with
            | inl e => (inl e, t)
            | inr f =>
                if (Z.of_nat (length f) <? off loc) || (Z.of_nat (length f) - off loc <? Z.of_nat radixRecordHeaderLen) then (inl ErrUnavailable, t)
                else
                  let w := MkWindow o (ReadAt f o (Nat.min radixReadAheadBytes (length f - o))) in
                  let ws := match ws !! pack loc, windowOrder ws with
                    | None, id :: _ => if (radixReadAheadPacks <=? size ws)%nat then delete id ws else ws
                    | _, _ => ws
                    end in
                  (serve h loc w, set_ra (Some (<[pack loc := w]> ws)) t)
            end
        end
  end.

Definition readRecordRA (useRA : bool) (h : radixHash) (loc : radixLoc) : M radixNode := fun t =>
  if useRA then let '(r, t) := readRecordBytesRA h loc t in (recordNode r, t) else (readRecord d h loc, t).

Definition nodeAtRA (pend : gmap radixHash radixNode) (useRA : bool) (h : radixHash) (loc : radixLoc) : M (radixNode * radixLoc) := fun t =>
  match pend !! h with
  | Some n => (inr (n, noLoc), t)
  | None =>
      match cache t !! h with
      | Some c => (inr (cnode c, cloc c), t)
      | None =>
          let '(r, t) :=
            if valid loc then let '(r, t) := readRecordRA useRA h loc t in (match r with inl e => inl e | inr n => inr (n, loc) end, t)
            else (readRoot d h, t) in
          match r with
          | inl e => (inl e, t)
          | inr (n, loc) => (inr (n, loc), remember h n loc t)
          end
      end
  end.

Definition nodeAt (pend : gmap radixHash radixNode) (h : radixHash) (loc : radixLoc) : M (radixNode * radixLoc) := nodeAtRA pend false h loc.

(** ** Lookups *)

Fixpoint lookup_loop (steps : nat) (pend : gmap radixHash radixNode) (target : radixHash) (key : bytes)
    (cur : radixHash) (curLoc : radixLoc) (depth : nat) : M (option bytes) :=
  match steps with
  | O => fail ErrUnavailable
  | S steps =>
      ctx_Err;;
      '(node, _) ← nodeAt pend cur curLoc;
      match node with
      | LeafNode keyHash k v =>
          if negb (bitsEqual keyHash target 0 depth) then fail ErrUnavailable
          else if bool_decide (keyHash = target) then if bool_decide (k = key) then mret (Some v) else fail ErrCollision
          else mret None
      | BranchNode skipLen skipBits c0 c1 l0 l1 =>
          let splitBit := (depth + skipLen)%nat in
          if (radixHashBits <=? splitBit)%nat then fail ErrUnavailable
          else if negb (comparePrefix target depth skipBits skipLen).2 then mret None
          else
            let '(next, nextLoc) := if bitAt target splitBit then (c1, l1) else (c0, l0) in
            if isZero next then fail ErrUnavailable else lookup_loop steps pend target key next nextLoc (S splitBit)
      end
  end.

Definition lookupIn (pend : gmap radixHash radixNode) (root : radixHash) (key : bytes) : M (option bytes) :=
  ctx_Err;;
  if isZero root then mret None else lookup_loop (S radixHashBits) pend (hashKey key) key root noLoc 0.

(** The lookups of an index and of a transaction. *)
Definition lookup (root : radixHash) (key : bytes) : M (option bytes) := lookupIn ∅ root key.
Definition txn_lookup (root : radixHash) (key : bytes) : M (option bytes) := pend ← gets pending; lookupIn pend root key.

(** ** Writing pages *)

Definition drop_ (h : radixHash) : M unit := modify (fun t => set_pending (delete h (pending t)) t).

Definition hold (raw : bytes) (n : radixNode) : M radixHash :=
  if Z.of_nat (length raw) >? radixMaxPageBytes then fail ErrTooLarge
  else modify (fun t => set_pending (<[pageHash raw := n]> (pending t)) t);; mret (pageHash raw).

Definition writeLeaf (keyHash : radixHash) (key value : bytes) : M radixHash :=
  hold (encodeRadixLeaf keyHash key value) (LeafNode keyHash key value).

Definition set_locs (n : radixNode) (l0 l1 : radixLoc) : radixNode :=
  match n with BranchNode skipLen skipBits c0 c1 _ _ => BranchNode skipLen skipBits c0 c1 l0 l1 | LeafNode _ _ _ => n end.

Definition writeBranch (skipLen : nat) (skipBits : bytes) (c0 : radixHash) (l0 : radixLoc) (c1 : radixHash) (l1 : radixLoc) : M radixHash :=
  if (radixHashBits <? skipLen)%nat || isZero c0 || isZero c1 then fail ErrUnavailable
  else
    let raw := encodeRadixBranch skipLen skipBits c0 c1 in
    n ← lift (decodeRadixPage raw);
    hold raw (set_locs n l0 l1).

Definition split (depth p : nat) (target : radixHash) (key value : bytes) (other : radixHash) (otherLoc : radixLoc) : M radixHash :=
  leaf ← writeLeaf target key value;
  let '(c0, l0, c1, l1) := if bitAt target p then (other, otherLoc, leaf, noLoc) else (leaf, noLoc, other, otherLoc) in
  writeBranch (p - depth) (packBits target depth (p - depth)) c0 l0 c1 l1.

(** ** Insert and update *)

(** What to store under a key, given what is there: an error, nothing, or a value. *)
Definition radixDecide : Type := option bytes -> Z + option bytes.

Definition decideChecked (decide : radixDecide) (old : option bytes) : M (option bytes) :=
  match decide old with
  | inl e => fail (ErrDecide e)
  | inr None => mret None
  | inr (Some value) => if Z.of_nat (length value) >? radixMaxValueBytes then fail ErrTooLarge else mret (Some value)
  end.

Fixpoint insertAt (fuel : nat) (cur : radixHash) (curLoc : radixLoc) (depth : nat) (target : radixHash) (key : bytes)
    (decide : radixDecide) : M (radixHash * radixLoc) :=
  match fuel with
  | O => fail ErrUnavailable
  | S fuel =>
      ctx_Err;;
      if (radixHashBits <=? depth)%nat then fail ErrUnavailable
      else
        pend ← gets pending;
        '(node, ownLoc) ← nodeAt pend cur curLoc;
        match node with
        | LeafNode keyHash k v =>
            if negb (bitsEqual keyHash target 0 depth) then fail ErrUnavailable
            else if bool_decide (keyHash = target) then
              if negb (bool_decide (k = key)) then fail ErrCollision
              else
                w ← decideChecked decide (Some v);
                match w with
                | None => mret (cur, ownLoc)
                | Some value => drop_ cur;; h ← writeLeaf target key value; mret (h, noLoc)
                end
            else
              let p := firstDiffBit keyHash target depth in
              if (p <? depth)%nat || (radixHashBits <=? p)%nat then fail ErrUnavailable
              else
                w ← decideChecked decide None;
                match w with
                | None => mret (cur, ownLoc)
                | Some value => h ← split depth p target key value cur ownLoc; mret (h, noLoc)
                end
        | BranchNode skipLen skipBits child0 child1 loc0 loc1 =>
            let splitBit := (depth + skipLen)%nat in
            if (radixHashBits <=? splitBit)%nat then fail ErrUnavailable
            else
              let '(diff, matched) := comparePrefix target depth skipBits skipLen in
              if matched then
                let b := bitAt target splitBit in
                let '(childHash, childLoc) := if b then (child1, loc1) else (child0, loc0) in
                if isZero childHash then fail ErrUnavailable
                else
                  '(newChild, newLoc) ← insertAt fuel childHash childLoc (S splitBit) target key decide;
                  if bool_decide (newChild = childHash) then mret (cur, ownLoc)
                  else
                    let '(c0, l0, c1, l1) := if b then (child0, loc0, newChild, newLoc) else (newChild, newLoc, child1, loc1) in
                    drop_ cur;;
                    h ← writeBranch skipLen skipBits c0 l0 c1 l1;
                    mret (h, noLoc)
              else if (splitBit <? S diff)%nat then fail ErrUnavailable
              else
                let newSkipLen := (splitBit - S diff)%nat in
                w ← decideChecked decide None;
                match w with
                | None => mret (cur, ownLoc)
                | Some value =>
                    rebased ← writeBranch newSkipLen (packBits skipBits (S diff - depth) newSkipLen) child0 loc0 child1 loc1;
                    drop_ cur;;
                    h ← split depth diff target key value rebased noLoc;
                    mret (h, noLoc)
                end
        end
  end.

Definition key_ok (key : bytes) : bool := negb (bool_decide (key = [])) && negb (Z.of_nat (length key) >? radixMaxKeyBytes).

Definition update (root : radixHash) (key : bytes) (decide : radixDecide) : M radixHash :=
  ctx_Err;;
  if negb (key_ok key) then fail ErrTooLarge
  else if isZero root then
    w ← decideChecked decide None;
    match w with None => mret root | Some value => writeLeaf (hashKey key) key value end
  else '(h, _) ← insertAt (S radixHashBits) root noLoc 0 (hashKey key) key decide; mret h.

(** The decision of [insert]: write unless the value is there. *)
Definition put (value : bytes) : radixDecide := fun old => inr (if bool_decide (old = Some value) then None else Some value).

Definition insert (root : radixHash) (key value : bytes) : M radixHash :=
  if Z.of_nat (length value) >? radixMaxValueBytes then fail ErrTooLarge else update root key (put value).

(** ** Merge *)

Record radixOp := MkOp { target : radixHash; okey : bytes; odecide : radixDecide }.

Inductive radixItem :=
  | LeafItem (pat hash : radixHash) (loc : radixLoc)
  | BranchItem (pat hash : radixHash) (loc : radixLoc) (split depth : nat) (dirty : bool) (c0 c1 : radixHash) (l0 l1 : radixLoc).

Definition item_pat (i : radixItem) : radixHash := match i with LeafItem pat _ _ => pat | BranchItem pat _ _ _ _ _ _ _ _ _ => pat end.
Definition item_hash (i : radixItem) : radixHash := match i with LeafItem _ h _ => h | BranchItem _ h _ _ _ _ _ _ _ _ => h end.

(** The loop of [sortSearchBit]. *)
Fixpoint search_loop (fuel : nat) (ops : list radixOp) (i lo hi : nat) : nat :=
  match fuel with
  | O => lo
  | S fuel =>
      if (lo <? hi)%nat then
        let m := ((lo + hi) / 2)%nat in
        match ops !! m with
        | Some op => if bitAt (target op) i then search_loop fuel ops i lo m else search_loop fuel ops i (S m) hi
        | None => lo
        end
      else lo
  end.
Definition sortSearchBit (ops : list radixOp) (i : nat) : nat := search_loop (S (length ops)) ops i 0 (length ops).

(** [resident] is the leaf that is there, as an item, with its key and value. *)
Fixpoint mergeLeaves (ops : list radixOp) (resident : option (radixHash * radixHash * radixLoc * bytes * bytes)) (items : list radixItem)
    (placed : bool) : M (list radixItem) :=
  match ops with
  | [] => mret (match resident with Some (pat, h, l, _, _) => if placed then items else items ++ [LeafItem pat h l] | None => items end)
  | op :: ops =>
      let '(items, placed) := match resident with
        | Some (pat, h, l, _, _) =>
            if negb placed && bool_decide (bytes_compare pat (target op) = Lt) then (items ++ [LeafItem pat h l], true) else (items, placed)
        | None => (items, placed)
        end in
      match match resident with Some (pat, h, l, k, v) => if bool_decide (target op = pat) then Some (pat, h, l, k, v) else None | None => None end with
      | Some (pat, h, l, k, v) =>
          if negb (bool_decide (k = okey op)) then fail ErrCollision
          else
            w ← decideChecked (odecide op) (Some v);
            match w with
            | None => mergeLeaves ops resident (items ++ [LeafItem pat h l]) true
            | Some value =>
                drop_ h;;
                h' ← writeLeaf (target op) (okey op) value;
                mergeLeaves ops resident (items ++ [LeafItem (target op) h' noLoc]) true
            end
      | None =>
          w ← decideChecked (odecide op) None;
          match w with
          | None => mergeLeaves ops resident items placed
          | Some value =>
              h' ← writeLeaf (target op) (okey op) value;
              mergeLeaves ops resident (items ++ [LeafItem (target op) h' noLoc]) placed
          end
      end
  end.

(** How many leading elements satisfy a test. *)
Fixpoint run_length {A} (f : A -> bool) (l : list A) : nat :=
  match l with x :: l => if f x then S (run_length f l) else O | [] => O end.

Fixpoint build (fuel : nat) (depth : nat) (items : list radixItem) : M (radixHash * radixLoc) :=
  match fuel, items with
  | O, _ | _, [] => fail ErrUnavailable
  | S _, [LeafItem _ h l] => mret (h, l)
  | S _, [BranchItem pat h l sp dp dirty c0 c1 l0 l1] =>
      if negb dirty && (dp =? depth)%nat then mret (h, l)
      else if (sp <? depth)%nat then fail ErrUnavailable
      else
        drop_ h;;
        h' ← writeBranch (sp - depth) (packBits pat depth (sp - depth)) c0 l0 c1 l1;
        mret (h', noLoc)
  | S fuel, first :: _ =>
      let p := firstDiffBit (item_pat first) (default zeroHash (item_pat <$> last items)) depth in
      if (radixHashBits <=? p)%nat then fail ErrUnavailable
      else
        let k := run_length (fun i => negb (bitAt (item_pat i) p)) items in
        if (k =? 0)%nat || (k =? length items)%nat then fail ErrUnavailable
        else
          '(h0, l0) ← build fuel (S p) (take k items);
          '(h1, l1) ← build fuel (S p) (drop k items);
          h ← writeBranch (p - depth) (packBits (item_pat first) depth (p - depth)) h0 l0 h1 l1;
          mret (h, noLoc)
  end.

(** Whether an operation lies before (-1), inside (0) or after (1) the prefix of a branch. *)
Definition side (depth : nat) (skipBits : bytes) (skipLen : nat) (op : radixOp) : Z :=
  let '(diff, matched) := comparePrefix (target op) depth skipBits skipLen in
  if matched then 0 else if bitAt (target op) diff then 1 else -1.

Definition merge_child (mergeAt : radixHash -> radixLoc -> nat -> list radixOp -> M (radixHash * radixLoc))
    (c : radixHash) (l : radixLoc) (depth : nat) (ops : list radixOp) : M (radixHash * radixLoc) :=
  match ops with
  | [] => mret (c, l)
  | _ => if isZero c then fail ErrUnavailable else mergeAt c l depth ops
  end.

Definition use_ra : M unit := modify (fun t => match ra t with None => set_ra (Some ∅) t | Some _ => t end).

Fixpoint mergeAt (fuel : nat) (cur : radixHash) (curLoc : radixLoc) (depth : nat) (ops : list radixOp) : M (radixHash * radixLoc) :=
  match fuel with
  | O => fail ErrUnavailable
  | S fuel =>
      ctx_Err;;
      if (radixHashBits <=? depth)%nat then fail ErrUnavailable
      else
        use_ra;;
        pend ← gets pending;
        '(node, ownLoc) ← nodeAtRA pend true cur curLoc;
        let t0 := default zeroHash (target <$> head ops) in
        match node with
        | LeafNode keyHash k v =>
            if negb (bitsEqual keyHash t0 0 depth) then fail ErrUnavailable
            else
              items ← mergeLeaves ops (Some (keyHash, cur, ownLoc, k, v)) [] false;
              if (length items =? 1)%nat && bool_decide (item_hash <$> head items = Some cur) then mret (cur, ownLoc)
              else build (S (length items)) depth items
        | BranchNode skipLen skipBits child0 child1 loc0 loc1 =>
            let splitBit := (depth + skipLen)%nat in
            if (radixHashBits <=? splitBit)%nat then fail ErrUnavailable
            else
              let lo := run_length (fun op => side depth skipBits skipLen op <? 0) ops in
              let n := run_length (fun op => side depth skipBits skipLen op =? 0) (drop lo ops) in
              let hi := (lo + n)%nat in
              if negb (forallb (fun op => side depth skipBits skipLen op =? 1) (drop hi ops)) then fail ErrMergeOrder
              else
                let inside := drop lo (take hi ops) in
                let mid := sortSearchBit inside splitBit in
                '(c0, l0) ← merge_child (mergeAt fuel) child0 loc0 (S splitBit) (take mid inside);
                '(c1, l1) ← merge_child (mergeAt fuel) child1 loc1 (S splitBit) (drop mid inside);
                let pat := copyBits skipBits 0 depth skipLen (copyBits t0 0 0 depth zeroHash) in
                let dirty := negb (bool_decide (c0 = child0)) || negb (bool_decide (c1 = child1)) in
                below ← mergeLeaves (take lo ops) None [] false;
                above ← mergeLeaves (drop hi ops) None [] false;
                if negb dirty && (length below =? 0)%nat && (length above =? 0)%nat then mret (cur, ownLoc)
                else
                  let items := below ++ [BranchItem pat cur ownLoc splitBit depth dirty c0 c1 l0 l1] ++ above in
                  build (S (length items)) depth items
        end
  end.

(** The checks of [merge] on its input, an operation and the one before it. *)
Fixpoint ops_ok (prev : option radixOp) (ops : list radixOp) : option radix_error :=
  match ops with
  | [] => None
  | op :: ops =>
      if negb (key_ok (okey op)) then Some ErrTooLarge
      else
        match prev with
        | None => ops_ok (Some op) ops
        | Some q =>
            if bool_decide (target q = target op) && negb (bool_decide (okey q = okey op)) then Some ErrCollision
            else if negb (bool_decide (bytes_compare (target q) (target op) = Lt)) then Some ErrMergeOrder
            else ops_ok (Some op) ops
        end
  end.

Definition merge (root : radixHash) (ops : list radixOp) : M radixHash :=
  ctx_Err;;
  match ops_ok None ops with
  | Some e => fail e
  | None =>
      match ops with
      | [] => mret root
      | _ =>
          if isZero root then
            items ← mergeLeaves ops None [] false;
            match items with [] => mret root | _ => '(h, _) ← build (S (length items)) 0 items; mret h end
          else '(h, _) ← mergeAt (S radixHashBits) root noLoc 0 ops; mret h
      end
  end.

End Ops.

(** ** Commit *)

(** What the file system answers to a commit: the fresh id of its pack, how many records could be written, whether the pack is
    staged, linked and its directory synced; whether the pointer's directory is there and the pointer staged, linked,
    its temporary name removed and its directory synced. *)
Record commit_io := MkCommitIO {
  io_id : Z; io_writes : option nat; io_stage : bool; io_link : bool; io_clean : bool;
  io_shard : bool; io_ptr_stage : bool; io_ptr_clean : bool; io_ptr_sync : bool
}.

Record radixPublished := MkPublished { phash : radixHash; pnode : radixNode; ploc : radixLoc }.

(** The writer of a pack: the bytes so far, the pages held, what was published, and the writes that will still succeed. *)
Record pack_writer := MkWriter { wbytes : bytes; wpending : gmap radixHash radixNode; wpub : list radixPublished; wleft : option nat }.

(** [node.loc0 = loc] and [node.loc1 = loc] write through the pointer the transaction holds. *)
Definition set_held (h : radixHash) (n : radixNode) (w : pack_writer) : pack_writer :=
  MkWriter (wbytes w) (<[h := n]> (wpending w)) (wpub w) (wleft w).

(** The record of a page whose children are located. *)
Definition emit_record (id : Z) (h : radixHash) (n : radixNode) (w : pack_writer) : (radix_error + radixLoc) * pack_writer :=
  let raw := encodeRadixNode n in
  if negb (bool_decide (pageHash raw = h)) then (inl ErrUnavailable, w)
  else
    let loc := MkLoc id (Z.of_nat (length (wbytes w))) in
    let pub := match n with BranchNode _ _ _ _ _ _ => wpub w ++ [MkPublished h n loc] | LeafNode _ _ _ => wpub w end in
    match wleft w with
    | Some O => (inl ErrIO, w)
    | left_ => (inr loc, MkWriter (wbytes w ++ encodeRadixRecord raw n) (wpending w) pub (Nat.pred <$> left_))
    end.

Fixpoint emit (fuel : nat) (id : Z) (h : radixHash) (w : pack_writer) : (radix_error + radixLoc) * pack_writer :=
  match fuel with
  | O => (inl ErrUnavailable, w)
  | S fuel =>
      match wpending w !! h with
      | None => (inl ErrUnavailable, w)
      | Some (LeafNode keyHash k v) => emit_record id h (LeafNode keyHash k v) w
      | Some (BranchNode skipLen skipBits c0 c1 l0 l1) =>
          match if valid l0 then (inr l0, w) else emit fuel id c0 w with
          | (inl e, w) => (inl e, w)
          | (inr l0, w) =>
              let w := set_held h (BranchNode skipLen skipBits c0 c1 l0 l1) w in
              match if valid l1 then (inr l1, w) else emit fuel id c1 w with
              | (inl e, w) => (inl e, w)
              | (inr l1, w) =>
                  let n := BranchNode skipLen skipBits c0 c1 l0 l1 in
                  emit_record id h n (set_held h n w)
              end
          end
      end
  end.

(** The pack of a transaction: where its root is, the branches written, the pages held and the files. *)
Definition writePack (io : commit_io) (root : radixHash) (t : txn) (d : disk) :
    (radix_error + radixLoc * list radixPublished) * gmap radixHash radixNode * disk :=
  let '(r, w) := emit (S radixHashBits) (io_id io) root (MkWriter radixPackMagic (pending t) [] (io_writes io)) in
  match r with
  | inl e => (inl e, wpending w, d)
  | inr loc =>
      if negb (io_stage io) || (MaxInt <? Z.of_nat (length (wbytes w))) then (inl ErrIO, wpending w, d)
      else
        match packs d !! io_id io with
        | Some _ => (inl ErrIO, wpending w, d)
        | None =>
            if negb (io_link io) then (inl ErrIO, wpending w, d)
            else
              let d := MkDisk (<[io_id io := wbytes w]> (packs d)) (roots d) in
              (if io_clean io then inr (loc, wpub w) else inl ErrIO, wpending w, d)
        end
  end.

Definition publishRoot (io : commit_io) (root : radixHash) (loc : radixLoc) (d : disk) : (radix_error + unit) * disk :=
  if negb (io_shard io) then (inl ErrIO, d)
  else
    match roots d !! root with
    | Some _ => (match readRoot d root with inl _ => inl ErrUnavailable | inr _ => inr tt end, d)
    | None =>
        if negb (io_ptr_stage io) then (inl ErrIO, d)
        else
          let d := MkDisk (packs d) (<[root := radixRootMagic ++ encodeLoc loc]> (roots d)) in
          (if io_ptr_clean io then if io_ptr_sync io then inr tt else inl ErrIO
           else match readRoot d root with inl _ => inl ErrIO | inr _ => inr tt end, d)
    end.

Section Commit.
Context {Or : MapOrder}.

Definition commit (io : commit_io) (root : radixHash) (t : txn) (d : disk) : (radix_error + unit) * txn * disk :=
  match ctx_Err t with
  | (inl e, t) => (inl e, t, d)
  | (inr _, t) =>
      if isZero root then (inr tt, t, d)
      else match pending t !! root with
      | None => (inr tt, t, d)
      | Some _ =>
          match writePack io root t d with
          | (inl e, p, d) => (inl e, set_pending p t, d)
          | (inr (loc, published), p, d) =>
              let t := set_pending p t in
              match publishRoot io root loc d with
              | (inl e, d) => (inl e, t, d)
              | (inr _, d) => (inr tt, set_ra None (set_pending ∅ (foldl (fun t c => remember (phash c) (pnode c) (ploc c) t) t published)), d)
              end
          end
      end
  end.

End Commit.
