(* ===== verification/RadixBits.v ===== *)
(** * The bits of the delivery index

    Byte strings as lists of bits, most significant first, and what the bit loops of [delivery_radix.go]
    ([bitsEqual], [firstDiffBit], [packBits], [comparePrefix]) compute on them. *)

From S2P Require Import Prelude GoLib Varint Radix.

(** ** Bits and bytes *)

Definition bits (b : bytes) : list bool := bitAt b <$> seq 0 (8 * length b).

Lemma bits_length b : length (bits b) = (8 * length b)%nat.
Proof. unfold bits. by rewrite length_fmap, length_seq. Qed.

Lemma bits_at b i : (i < 8 * length b)%nat -> bits b !! i = Some (bitAt b i).
Proof. intros Hi. unfold bits. rewrite list_lookup_fmap, lookup_seq_lt by done. done. Qed.

Lemma bits_ext a b : length a = length b -> (forall i, (i < 8 * length a)%nat -> bitAt a i = bitAt b i) -> bits a = bits b.
Proof.
  intros Hl H. apply list_eq_same_length with (n := (8 * length a)%nat); rewrite ?bits_length; [lia|lia|].
  intros i x y Hi Hx Hy. rewrite bits_at in Hx, Hy by lia. injection Hx as <-. injection Hy as <-. apply H. lia.
Qed.

Lemma byte_ext c c' : (forall j, 0 <= j < 8 -> Z.testbit (b2z c) j = Z.testbit (b2z c') j) -> c = c'.
Proof.
  intros Hj. apply b2z_inj, Z.bits_inj'. intros n Hn. destruct (decide (n < 8)); [by apply Hj|].
  pose proof (b2z_range c). pose proof (b2z_range c'). rewrite <- (Z.mod_small (b2z c) (2 ^ 8)), <- (Z.mod_small (b2z c') (2 ^ 8)) by lia.
  by rewrite !Z.mod_pow2_bits_high by lia.
Qed.

Lemma bitAt_byte b q j : (q < length b)%nat -> 0 <= j < 8 -> Z.testbit (b2z (nth q b x00)) j = bitAt b (8 * q + Z.to_nat (7 - j)).
Proof.
  intros Hq Hj. unfold bitAt. replace ((8 * q + Z.to_nat (7 - j)) / 8)%nat with q by (apply Nat.div_unique with (Z.to_nat (7 - j)); lia).
  replace ((8 * q + Z.to_nat (7 - j)) mod 8)%nat with (Z.to_nat (7 - j)) by (apply Nat.mod_unique with q; lia). f_equal. lia.
Qed.

Lemma bits_inj a b : bits a = bits b -> a = b.
Proof.
  intros H. assert (length a = length b) as Hl by (pose proof (f_equal length H) as E; rewrite !bits_length in E; lia).
  apply list_eq_same_length with (n := length a); [done|done|]. intros q x y Hq Hx Hy.
  rewrite <- (nth_lookup_Some a q x00 x Hx), <- (nth_lookup_Some b q x00 y Hy). apply byte_ext. intros j Hj.
  rewrite !bitAt_byte by lia. assert (bits a !! (8 * q + Z.to_nat (7 - j))%nat = bits b !! (8 * q + Z.to_nat (7 - j))%nat) as E by by rewrite H.
  rewrite !bits_at in E by lia. by injection E.
Qed.

(** ** Setting and copying bits *)

Lemma setBit_length b j : length (setBit b j) = length b.
Proof. apply length_alter. Qed.

Lemma pow2_bit k j : 0 <= k -> Z.testbit (Z.shiftl 1 k) j = (j =? k).
Proof.
  intros Hk. rewrite Z.shiftl_1_l. destruct (Z.eqb_spec j k) as [->|Hne]; [by apply Z.pow2_bits_true|by apply Z.pow2_bits_false].
Qed.

Lemma setBit_at b j i : (j < 8 * length b)%nat -> bitAt (setBit b j) i = bitAt b i || (i =? j)%nat.
Proof.
  intros Hj. unfold bitAt, setBit. assert (j / 8 < length b)%nat as Hq by (apply Nat.Div0.div_lt_upper_bound; lia).
  destruct (decide (i / 8 = j / 8)%nat) as [E|E].
  - rewrite E. destruct (lookup_lt_is_Some_2 b (j / 8) Hq) as [c Hc].
    erewrite nth_lookup_Some by (rewrite list_lookup_alter_eq, Hc; done). rewrite (nth_lookup_Some b _ x00 c Hc).
    set (k := 7 - Z.of_nat (j mod 8)). pose proof (Nat.mod_upper_bound j 8). pose proof (Nat.mod_upper_bound i 8).
    assert (0 <= Z.lor (b2z c) (Z.shiftl 1 k) < 256) as Hr.
    { split; [apply Z.lor_nonneg; split; [apply b2z_range|apply Z.shiftl_nonneg; lia]|]. destruct (decide (Z.lor (b2z c) (Z.shiftl 1 k) = 0)) as [->|]; [lia|].
      pose proof (b2z_range c). apply (Z.log2_lt_pow2 _ 8); [|].
      { assert (0 <= Z.lor (b2z c) (Z.shiftl 1 k)); [apply Z.lor_nonneg; split; [lia|apply Z.shiftl_nonneg; lia]|lia]. }
      rewrite Z.log2_lor by (try apply Z.shiftl_nonneg; lia). apply Z.max_lub_lt.
      - destruct (decide (b2z c = 0)) as [->|]; [done|]. apply Z.log2_lt_pow2; lia.
      - rewrite Z.shiftl_1_l, Z.log2_pow2; lia. }
    rewrite b2z_z2b, Z.mod_small by done. rewrite Z.lor_spec, pow2_bit by lia. f_equal. destruct (Nat.eqb_spec i j) as [->|Hne]; [apply Z.eqb_eq; lia|].
    apply Z.eqb_neq. intros Hk. apply Hne. rewrite (Nat.div_mod_eq i 8), (Nat.div_mod_eq j 8), E. lia.
  - rewrite (nth_lookup (alter _ _ _)), list_lookup_alter_ne, <- nth_lookup by done. destruct (Nat.eqb_spec i j) as [->|]; [done|]. by rewrite orb_false_r.
Qed.

Lemma copyBits_snoc src from at_ n out :
  copyBits src from at_ (S n) out = if bitAt src (from + n) then setBit (copyBits src from at_ n out) (at_ + n) else copyBits src from at_ n out.
Proof. unfold copyBits. rewrite seq_S, fold_left_app. done. Qed.

Lemma copyBits_length src from at_ n out : length (copyBits src from at_ n out) = length out.
Proof. induction n as [|n IH]; [done|]. rewrite copyBits_snoc. destruct (bitAt src _); by rewrite ?setBit_length. Qed.

Lemma copyBits_at src from at_ n out i : (at_ + n <= 8 * length out)%nat ->
  bitAt (copyBits src from at_ n out) i = bitAt out i || ((at_ <=? i)%nat && (i <? at_ + n)%nat && bitAt src (from + (i - at_))).
Proof.
  induction n as [|n IH]; intros Hn.
  { assert ((at_ <=? i)%nat && (i <? at_ + 0)%nat = false) as -> by (apply andb_false_iff; rewrite Nat.leb_gt, Nat.ltb_ge; lia). by rewrite orb_false_r. }
  rewrite copyBits_snoc. specialize (IH ltac:(lia)). destruct (Nat.eqb_spec i (at_ + n)) as [->|Hne].
  - rewrite (proj2 (Nat.leb_le _ _)), (proj2 (Nat.ltb_lt (at_ + n) _)) by lia. replace (from + (at_ + n - at_))%nat with (from + n)%nat by lia. cbn [andb].
    rewrite (proj2 (Nat.ltb_ge (at_ + n) (at_ + n))), andb_false_r, orb_false_r in IH by lia.
    destruct (bitAt src (from + n)); [rewrite setBit_at by (rewrite copyBits_length; lia); by rewrite Nat.eqb_refl, orb_true_r, orb_true_r|by rewrite orb_false_r].
  - assert ((i <? at_ + S n)%nat = (i <? at_ + n)%nat) as ->.
    { destruct (Nat.ltb_spec i (at_ + n)); [apply Nat.ltb_lt; lia|apply Nat.ltb_ge; lia]. }
    rewrite <- IH. destruct (bitAt src (from + n)); [|done]. rewrite setBit_at by (rewrite copyBits_length; lia). by rewrite (proj2 (Nat.eqb_neq _ _)), orb_false_r by done.
Qed.

Lemma zeros_at n i : bitAt (replicate n x00) i = false.
Proof.
  unfold bitAt. rewrite nth_lookup. destruct (decide (i / 8 < n)%nat); [rewrite lookup_replicate_2 by done|rewrite lookup_ge_None_2 by (rewrite length_replicate; lia)]; by destruct (7 - _).
Qed.

(** ** Packed bits *)

(** The bytes of a list of bits, padded with zeros. *)
Definition packed (l : list bool) : bytes :=
  fold_left (fun out j => if default false (l !! j) then setBit out j else out) (seq 0 (length l)) (replicate ((length l + 7) / 8) x00).

Lemma packed_size n : (n <= 8 * ((n + 7) / 8))%nat /\ (8 * ((n + 7) / 8) <= n + 7)%nat.
Proof. pose proof (Nat.div_mod_eq (n + 7) 8). pose proof (Nat.mod_upper_bound (n + 7) 8). lia. Qed.

Lemma packed_loop (l : list bool) n out : (n <= 8 * length out)%nat ->
  let r := fold_left (fun out j => if default false (l !! j) then setBit out j else out) (seq 0 n) out in
  length r = length out /\ forall i, bitAt r i = bitAt out i || ((i <? n)%nat && default false (l !! i)).
Proof.
  induction n as [|n IH]; intros Hn; cbv zeta; [split; [done|]; intros i; by rewrite orb_false_r|].
  rewrite seq_S, fold_left_app. cbn [fold_left]. destruct (IH ltac:(lia)) as [Hl Hb]. set (r := fold_left _ (seq 0 n) out) in *. cbn [Nat.add].
  assert (forall i, (i <? S n)%nat && default false (l !! i) = ((i <? n)%nat && default false (l !! i)) || ((i =? n)%nat && default false (l !! n))) as E.
  { intros i. destruct (Nat.eqb_spec i n) as [->|Hne]; [rewrite (proj2 (Nat.ltb_lt n (S n))), (proj2 (Nat.ltb_ge n n)) by lia; done|].
    rewrite orb_false_r. f_equal. destruct (Nat.ltb_spec i n); [apply Nat.ltb_lt; lia|apply Nat.ltb_ge; lia]. }
  destruct (default false (l !! n)) eqn:En.
  - split; [by rewrite setBit_length|]. intros i. rewrite setBit_at, Hb, E, andb_true_r by lia. by rewrite orb_assoc.
  - split; [done|]. intros i. by rewrite Hb, E, andb_false_r, orb_false_r.
Qed.

Lemma packed_length l : length (packed l) = ((length l + 7) / 8)%nat.
Proof. destruct (packed_loop l (length l) (replicate ((length l + 7) / 8) x00)) as [H _]; rewrite length_replicate in *; [apply packed_size|exact H]. Qed.

Lemma packed_at l i : bitAt (packed l) i = default false (l !! i).
Proof.
  destruct (packed_loop l (length l) (replicate ((length l + 7) / 8) x00)) as [_ H]; [rewrite length_replicate; apply packed_size|].
  unfold packed. rewrite H, zeros_at. cbn [orb]. destruct (Nat.ltb_spec i (length l)); [done|]. by rewrite lookup_ge_None_2.
Qed.

Lemma packed_eq l b : length b = ((length l + 7) / 8)%nat -> (forall i, bitAt b i = default false (l !! i)) -> b = packed l.
Proof. intros Hl Hb. apply bits_inj, bits_ext; [by rewrite packed_length|]. intros i _. by rewrite Hb, packed_at. Qed.

Lemma bits_default b i : default false (bits b !! i) = if (i <? 8 * length b)%nat then bitAt b i else false.
Proof. destruct (Nat.ltb_spec i (8 * length b)); [by rewrite bits_at|]. by rewrite lookup_ge_None_2 by (rewrite bits_length; lia). Qed.

Lemma packBits_packed src from n : (from + n <= 8 * length src)%nat -> packBits src from n = packed (take n (drop from (bits src))).
Proof.
  intros Hn. assert (length (take n (drop from (bits src))) = n) as Hl by (rewrite length_take, length_drop, bits_length; lia).
  apply packed_eq; unfold packBits; rewrite ?copyBits_length, ?length_replicate, ?Hl; [done|]. intros i.
  rewrite copyBits_at by (rewrite length_replicate; apply packed_size). rewrite zeros_at. cbn [orb Nat.leb andb]. rewrite Nat.sub_0_r.
  destruct (Nat.ltb_spec i (0 + n)) as [Hi|Hi]; cbn [andb].
  - rewrite lookup_take_lt, lookup_drop, bits_at by lia. done.
  - by rewrite lookup_take_ge by lia.
Qed.

Lemma packed_bits l : take (length l) (bits (packed l)) = l.
Proof.
  pose proof (packed_size (length l)). apply list_eq_same_length with (n := length l); rewrite ?length_take, ?bits_length, ?packed_length; [lia..|].
  intros i x y Hi Hx Hy. rewrite lookup_take_lt, bits_at in Hx by (rewrite ?packed_length; lia). injection Hx as <-. by rewrite packed_at, Hy.
Qed.

Lemma packed_inj l l' : length l = length l' -> packed l = packed l' -> l = l'.
Proof. intros Hl H. rewrite <- (packed_bits l), <- (packed_bits l'), Hl. by f_equal; f_equal. Qed.

(** ** Comparisons *)

Lemma eqb_neg a b : negb (Bool.eqb a b) = true <-> a <> b.
Proof. by destruct a, b. Qed.

Lemma bits_drop_cons b i : (i < 8 * length b)%nat -> drop i (bits b) = bitAt b i :: drop (S i) (bits b).
Proof. intros Hi. apply drop_S. by apply bits_at. Qed.

Lemma bits_loop_spec a b i n : (i + n <= 8 * length a)%nat -> (i + n <= 8 * length b)%nat ->
  bits_loop a b i n = bool_decide (take n (drop i (bits a)) = take n (drop i (bits b))).
Proof.
  revert i. induction n as [|n IH]; intros i Ha Hb; cbn [bits_loop]; [by rewrite bool_decide_eq_true_2|].
  rewrite (bits_drop_cons a i), (bits_drop_cons b i) by lia. cbn [take]. destruct (negb (Bool.eqb (bitAt a i) (bitAt b i))) eqn:E.
  - rewrite eqb_neg in E. rewrite bool_decide_eq_false_2; [done|congruence].
  - assert (bitAt a i = bitAt b i) as -> by (destruct (bitAt a i), (bitAt b i); done). rewrite IH by lia. apply bool_decide_ext. split; congruence.
Qed.

Lemma bitsEqual_spec a b n : (n <= 8 * length a)%nat -> (n <= 8 * length b)%nat -> bitsEqual a b 0 n = bool_decide (take n (bits a) = take n (bits b)).
Proof. intros Ha Hb. unfold bitsEqual. rewrite Nat.sub_0_r. by rewrite bits_loop_spec by lia. Qed.

(** The first difference: nothing differs, or two lists part after a common beginning. *)
Lemma diff_loop_spec a b i n : (i + n = 256)%nat -> (8 * length a = 256)%nat -> (8 * length b = 256)%nat ->
  let p := diff_loop a b i n in
  (p = 256%nat /\ drop i (bits a) = drop i (bits b)) \/
  ((i <= p < 256)%nat /\ take (p - i) (drop i (bits a)) = take (p - i) (drop i (bits b)) /\ bitAt a p <> bitAt b p).
Proof.
  intros Hn Ha Hb. cbv zeta. revert i Hn. induction n as [|n IH]; intros i Hn; cbn [diff_loop].
  - left. split; [done|]. by rewrite !drop_ge by (rewrite bits_length; lia).
  - destruct (negb (Bool.eqb (bitAt a i) (bitAt b i))) eqn:E.
    + right. rewrite eqb_neg in E. split; [lia|]. by rewrite Nat.sub_diag.
    + assert (bitAt a i = bitAt b i) as Ei by (destruct (bitAt a i), (bitAt b i); done). rewrite (bits_drop_cons a i), (bits_drop_cons b i), Ei by lia.
      destruct (IH (S i) ltac:(lia)) as [[-> Hd]|(Hp & Ht & Hd)]; [left; split; [done|by rewrite Hd]|right]. split; [lia|]. split; [|done].
      replace (diff_loop a b (S i) n - i)%nat with (S (diff_loop a b (S i) n - S i)) by lia. cbn [take]. by rewrite Ht.
Qed.

Lemma prefix_loop_spec t depth sk j n : (depth + j + n <= 8 * length t)%nat -> (j + n <= 8 * length sk)%nat ->
  let '(p, m) := prefix_loop t depth sk j n in
  (m = true /\ p = (depth + j + n)%nat /\ take n (drop (depth + j) (bits t)) = take n (drop j (bits sk))) \/
  (m = false /\ exists q, (q < n)%nat /\ p = (depth + j + q)%nat /\ take q (drop (depth + j) (bits t)) = take q (drop j (bits sk)) /\
     bitAt t p <> bitAt sk (j + q)).
Proof.
  revert j. induction n as [|n IH]; intros j Ht Hs; cbn [prefix_loop]; [left; split; [done|split; [lia|done]]|].
  destruct (negb (Bool.eqb (bitAt t (depth + j)) (bitAt sk j))) eqn:E.
  - right. split; [done|]. exists 0%nat. rewrite eqb_neg in E. rewrite !Nat.add_0_r. split; [lia|done].
  - assert (bitAt t (depth + j) = bitAt sk j) as Ei by (destruct (bitAt t (depth + j)), (bitAt sk j); done).
    specialize (IH (S j) ltac:(lia) ltac:(lia)). destruct (prefix_loop t depth sk (S j) n) as [p m]. rewrite Nat.add_succ_r in IH.
    rewrite (bits_drop_cons t (depth + j)), (bits_drop_cons sk j), Ei by lia. destruct IH as [(-> & -> & Hd)|(-> & q & Hq & -> & Hd & Hb)]; [left|right]; (split; [done|]).
    + split; [lia|]. cbn [take]. by rewrite Hd.
    + exists (S q). split; [lia|]. split; [lia|]. cbn [take]. rewrite Hd. split; [done|]. by rewrite Nat.add_succ_r.
Qed.
