(* ===== verification/RadixTree.v ===== *)
(** * The trees of the delivery index

    A Patricia tree over the bits of key digests as a mathematical object: its pages and their encoding, its contents,
    what it means for every leaf to be in its place, and that a tree in its place is the only one with its
    contents. *)

From S2P Require Import Prelude GoLib Varint Radix RadixBits.

Section Trees.
Context {KH : KeyHash}.

Inductive tree := Leaf (k v : bytes) | Branch (sk : list bool) (t0 t1 : tree).

Definition kbits (k : bytes) : list bool := bits (hashKey k).

Lemma kbits_length k : length (kbits k) = 256%nat.
Proof. unfold kbits. rewrite bits_length, hashKey_length. done. Qed.

(** ** Pages *)

Fixpoint page (t : tree) : bytes :=
  match t with
  | Leaf k v => encodeRadixLeaf (hashKey k) k v
  | Branch sk t0 t1 => encodeRadixBranch (length sk) (packed sk) (pageHash (page t0)) (pageHash (page t1))
  end.

Definition root (t : tree) : radixHash := pageHash (page t).

Lemma root_length t : length (root t) = 32%nat.
Proof. apply Sha256.sum_length. Qed.

(** The decoded page of a tree whose children are at two locations. *)
Definition node (t : tree) (l0 l1 : radixLoc) : radixNode :=
  match t with
  | Leaf k v => LeafNode (hashKey k) k v
  | Branch sk t0 t1 => BranchNode (length sk) (packed sk) (root t0) (root t1) l0 l1
  end.

Lemma encode_node t l0 l1 : encodeRadixNode (node t l0 l1) = page t.
Proof. by destruct t. Qed.

(** ** Places and contents *)

Definition leaf_ok (k v : bytes) : Prop := key_ok k = true /\ Z.of_nat (length v) <= radixMaxValueBytes.

Fixpoint placed (p : list bool) (t : tree) : Prop :=
  match t with
  | Leaf k v => leaf_ok k v /\ p `prefix_of` kbits k
  | Branch sk t0 t1 => placed (p ++ sk ++ [false]) t0 /\ placed (p ++ sk ++ [true]) t1
  end.

Fixpoint contents (t : tree) : gmap bytes bytes :=
  match t with Leaf k v => {[k := v]} | Branch _ t0 t1 => contents t0 ∪ contents t1 end.

Definition keys (t : tree) : gset bytes := dom (contents t).

Lemma keys_branch sk t0 t1 : keys (Branch sk t0 t1) = keys t0 ∪ keys t1.
Proof. unfold keys. cbn [contents]. by rewrite dom_union_L. Qed.

Lemma keys_leaf k v : keys (Leaf k v) = {[k]}.
Proof. unfold keys. cbn [contents]. by rewrite dom_singleton_L. Qed.

Lemma some_key t : exists k, k ∈ keys t.
Proof.
  induction t as [k v|sk t0 [k Hk] t1 _]; [exists k; rewrite keys_leaf; set_solver|]. exists k. rewrite keys_branch. set_solver.
Qed.

Lemma placed_prefix p t k : placed p t -> k ∈ keys t -> p `prefix_of` kbits k.
Proof.
  revert p. induction t as [k' v|sk t0 IH0 t1 IH1]; intros p; cbn [placed].
  - rewrite keys_leaf. intros [_ Hp] ->%elem_of_singleton. done.
  - rewrite keys_branch. intros [H0 H1] [Hk|Hk]%elem_of_union; [apply (IH0 _ H0) in Hk|apply (IH1 _ H1) in Hk]; (etrans; [by apply prefix_app_r|exact Hk]).
Qed.

Lemma prefix_same_length {A} (a b l : list A) : a `prefix_of` l -> b `prefix_of` l -> length a = length b -> a = b.
Proof. intros [x ->] [y E] Hl. apply app_inj_1 in E; [|done]. by destruct E. Qed.

(** The two sides of a branch have no key in common. *)
Lemma apart p (x y : bool) k : p ++ [x] `prefix_of` kbits k -> p ++ [y] `prefix_of` kbits k -> x = y.
Proof. intros Hx Hy. assert (p ++ [x] = p ++ [y]) as E by (apply (prefix_same_length _ _ (kbits k)); rewrite ?length_app; done). apply app_inj_2 in E as [_ E]; [|done]. by injection E. Qed.

Lemma sides_disjoint p sk t0 t1 : placed p (Branch sk t0 t1) -> contents t0 ##ₘ contents t1.
Proof.
  cbn [placed]. intros [H0 H1]. apply map_disjoint_dom_2. intros k K0 K1. apply (placed_prefix _ _ _ H0) in K0. apply (placed_prefix _ _ _ H1) in K1.
  rewrite app_assoc in K0, K1. by pose proof (apart _ _ _ _ K0 K1).
Qed.

Lemma placed_depth p t : placed p t -> (length p <= 256)%nat.
Proof. destruct (some_key t) as [k Hk]. intros H. pose proof (prefix_length _ _ (placed_prefix _ _ _ H Hk)). by rewrite kbits_length in *. Qed.

Lemma branch_depth p sk t0 t1 : placed p (Branch sk t0 t1) -> (length p + length sk < 256)%nat.
Proof. cbn [placed]. intros [H _]. apply placed_depth in H. rewrite !length_app in H. cbn in H. lia. Qed.

(** ** The encoding of pages *)

Lemma be_get_put n z : 0 <= z < 256 ^ Z.of_nat n -> be_get (be_put n z) = z.
Proof. intros H. unfold be_get, be_put. rewrite reverse_involutive, le_get_put. by apply Z.mod_small. Qed.

Lemma be_put_length n z : length (be_put n z) = n.
Proof. unfold be_put. by rewrite length_reverse, le_put_length. Qed.

Lemma take_app_n {A} n (a b : list A) : length a = n -> take n (a ++ b) = a.
Proof. intros <-. apply take_app_length. Qed.

Lemma drop_app_n {A} n (a b : list A) : length a = n -> drop n (a ++ b) = b.
Proof. intros <-. apply drop_app_length. Qed.

Lemma resize_id n b : length b = n -> resize n b = b.
Proof. intros <-. unfold resize. rewrite take_ge by done. by rewrite Nat.sub_diag, app_nil_r. Qed.

Lemma packed_canonical sk : skipCanonical (length sk) (packed sk) = true.
Proof.
  unfold skipCanonical. destruct (Nat.eqb_spec (length sk mod 8) 0) as [|Hm]; [done|]. cbn [orb]. apply Z.eqb_eq, Z.bits_inj'. intros j Hj.
  rewrite Z.bits_0, Z.land_spec. pose proof (Nat.div_mod_eq (length sk) 8). pose proof (Nat.mod_upper_bound (length sk) 8).
  assert (((length sk + 7) / 8 = S (length sk / 8))%nat) as Hn by (symmetry; apply Nat.div_unique with (length sk mod 8 - 1)%nat; lia).
  destruct (decide (j < 8)) as [Hj8|Hj8].
  - rewrite bitAt_byte by (rewrite ?packed_length; lia). rewrite packed_at, Z.shiftr_spec by lia.
    destruct (decide (j + Z.of_nat (length sk mod 8) < 8)); [|change 0xff with (Z.ones 8); rewrite Z.ones_spec_high by lia; apply andb_false_r].
    rewrite lookup_ge_None_2; [done|]. rewrite Hn. lia.
  - rewrite Z.shiftr_spec by lia. change 0xff with (Z.ones 8). rewrite Z.ones_spec_high by lia. apply andb_false_r.
Qed.

Lemma decode_branch sk t0 t1 : (length sk <= 256)%nat -> root t0 <> zeroHash -> root t1 <> zeroHash ->
  decodeRadixPage (page (Branch sk t0 t1)) = inr (node (Branch sk t0 t1) noLoc noLoc).
Proof.
  intros Hs H0 H1. cbn [page]. fold (root t0) (root t1). unfold encodeRadixBranch. rewrite (resize_id _ (packed sk)) by apply packed_length.
  unfold decodeRadixPage. rewrite (drop_app_n 4 radixMagic), (take_app_n 4 radixMagic) by done. cbn [app].
  rewrite bool_decide_eq_true_2 by done. cbn [negb]. rewrite bool_decide_eq_true_2 by done. cbn [negb].
  rewrite bool_decide_eq_false_2, bool_decide_eq_true_2 by done. unfold decodeBranch. rewrite !length_app, be_put_length, (proj2 (Nat.ltb_ge _ 2)) by lia.
  rewrite (take_app_n 2), (drop_app_n 2), be_get_put, Nat2Z.id by (rewrite ?be_put_length; lia).
  rewrite (proj2 (Nat.ltb_ge radixHashBits _)) by (unfold radixHashBits; lia).
  rewrite !length_app, packed_length, !root_length, Nat.eqb_refl by done. cbn [negb].
  rewrite (take_app_n _ (packed sk)), (drop_app_n _ (packed sk)) by apply packed_length. rewrite packed_canonical. cbn [negb].
  rewrite (take_app_n radixHashBytes), (drop_app_n radixHashBytes) by apply root_length. unfold isZero. by rewrite !bool_decide_eq_false_2 by done.
Qed.

Lemma decode_leaf k v : leaf_ok k v -> decodeRadixPage (page (Leaf k v)) = inr (node (Leaf k v) noLoc noLoc).
Proof.
  intros [Hk Hv]. unfold key_ok in Hk. apply andb_true_iff in Hk as [_ Hk]. apply negb_true_iff in Hk. rewrite Z.gtb_ltb, Z.ltb_ge in Hk.
  unfold radixMaxKeyBytes, radixMaxValueBytes in *. cbn [page]. unfold encodeRadixLeaf, decodeRadixPage.
  rewrite (drop_app_n 4 radixMagic), (take_app_n 4 radixMagic) by done. cbn [app]. repeat (rewrite bool_decide_eq_true_2 by done; cbn [negb]).
  unfold decodeLeaf. rewrite !length_app, hashKey_length. rewrite (proj2 (Nat.ltb_ge _ radixHashBytes)) by lia.
  rewrite (take_app_n radixHashBytes), (drop_app_n radixHashBytes) by apply hashKey_length.
  rewrite Uvarint_put by lia. pose proof (putUvarint_length 9 (Z.of_nat (length k))). pose proof (putUvarint_length 9 (Z.of_nat (length v))).
  rewrite Z.gtb_ltb, (proj2 (Z.ltb_ge radixMaxKeyBytes _)), (proj2 (Z.leb_gt _ 0)) by (unfold radixMaxKeyBytes; lia). cbn [orb].
  rewrite drop_put, !length_app. rewrite (proj2 (Z.ltb_ge _ (Z.of_nat (length k)))), Nat2Z.id by lia.
  rewrite (take_app_n _ k), (drop_app_n _ k) by done. rewrite Uvarint_put by lia.
  rewrite Z.gtb_ltb, (proj2 (Z.ltb_ge radixMaxValueBytes _)), (proj2 (Z.leb_gt _ 0)) by (unfold radixMaxValueBytes; lia). cbn [orb].
  rewrite drop_put, Z.eqb_refl. done.
Qed.

(** ** The tree of a map *)

Definition item : Type := list bool * (bytes * bytes).

(** The items whose next bit is [b], past it. *)
Definition side_items (b : bool) (l : list item) : list item :=
  omap (fun x : item => match x.1 with c :: r => if Bool.eqb c b then Some (r, x.2) else None | [] => None end) l.

Definition cons_bit (b : bool) (t : tree) : tree := match t with Leaf _ _ => t | Branch sk t0 t1 => Branch (b :: sk) t0 t1 end.

Fixpoint grow (n : nat) (l : list item) : tree :=
  match l, n with
  | [(_, (k, v))], _ => Leaf k v
  | _, O => Leaf [] []
  | _, S n =>
      match side_items false l, side_items true l with
      | [], ones => cons_bit true (grow n ones)
      | zeros, [] => cons_bit false (grow n zeros)
      | zeros, ones => Branch [] (grow n zeros) (grow n ones)
      end
  end.

Definition entries (n : nat) (m : gmap bytes bytes) : list item := (fun e => (drop n (kbits e.1), e)) <$> map_to_list m.

(** The canonical tree of a map, [None] for the empty one. *)
Definition patricia (m : gmap bytes bytes) : option tree := if decide (m = ∅) then None else Some (grow 256 (entries 0 m)).

Lemma side_items_app b l l' : side_items b (l ++ l') = side_items b l ++ side_items b l'.
Proof. apply omap_app. Qed.

Lemma side_items_cons b c r e l : side_items b ((c :: r, e) :: l) = if Bool.eqb c b then (r, e) :: side_items b l else side_items b l.
Proof. unfold side_items. cbn. by destruct (Bool.eqb c b). Qed.

Lemma entries_perm n m m' : m ##ₘ m' -> entries n (m ∪ m') ≡ₚ entries n m ++ entries n m'.
Proof.
  intros H. unfold entries. rewrite <- fmap_app. apply fmap_Permutation, NoDup_Permutation; [apply NoDup_map_to_list| |].
  - apply NoDup_app. split; [apply NoDup_map_to_list|]. split; [|apply NoDup_map_to_list]. intros [k v] H1%elem_of_map_to_list H2%elem_of_map_to_list. by eapply map_disjoint_spec.
  - intros [k v]. rewrite elem_of_app, !elem_of_map_to_list. by apply lookup_union_Some.
Qed.

Lemma side_entries (p : list bool) b m : (forall k, k ∈ dom m -> p ++ [b] `prefix_of` kbits k) ->
  side_items b (entries (length p) m) = entries (S (length p)) m /\ side_items (negb b) (entries (length p) m) = [].
Proof.
  intros H. assert (Forall (fun e => p ++ [b] `prefix_of` kbits e.1) (map_to_list m)) as Hf.
  { apply Forall_forall. intros [k v] Hk%elem_of_map_to_list. apply H. by apply elem_of_dom_2 in Hk. }
  unfold entries. induction Hf as [|e l [r Hr] _ [IH0 IH1]]; [done|]. rewrite !fmap_cons.
  assert (drop (length p) (kbits e.1) = b :: drop (S (length p)) (kbits e.1)) as E.
  { rewrite Hr, <- app_assoc. cbn [app]. rewrite drop_app_length. f_equal. rewrite cons_middle, app_assoc. symmetry. apply drop_app_n. rewrite length_app. cbn. lia. }
  rewrite E, !side_items_cons, Bool.eqb_reflx. assert (Bool.eqb b (negb b) = false) as -> by by destruct b. split; [f_equal; exact IH0|exact IH1].
Qed.

Lemma grow_skip n l b : (2 <= length l)%nat -> side_items (negb b) l = [] -> side_items b l <> [] -> grow (S n) l = cons_bit b (grow n (side_items b l)).
Proof.
  intros Hl Hn Hb. destruct l as [|[x [k v]] [|y l]]; [cbn in Hl; lia|cbn in Hl; lia|]. cbn [grow]. destruct b; cbn [negb] in Hn; rewrite Hn; [done|].
  by destruct (side_items false _).
Qed.

Lemma grow_fork n l : side_items false l <> [] -> side_items true l <> [] -> grow (S n) l = Branch [] (grow n (side_items false l)) (grow n (side_items true l)).
Proof.
  intros H0 H1. destruct l as [|[x [k v]] [|y l]]; [done| |].
  - cbn [side_items omap list_omap fst] in H0, H1. exfalso. destruct x as [|[] x]; done.
  - cbn [grow]. destruct (side_items false _) as [|z zs]; [done|]. by destruct (side_items true _).
Qed.

Lemma entries_length n m : length (entries n m) = size m.
Proof. unfold entries. by rewrite length_fmap, length_map_to_list. Qed.

Lemma size_contents t : (1 <= size (contents t))%nat.
Proof. destruct (some_key t) as [k Hk]. unfold keys in Hk. assert (contents t <> ∅) as H by (intros E; rewrite E in Hk; set_solver). pose proof (map_size_empty_inv (contents t)). destruct (size (contents t)); [naive_solver|lia]. Qed.

Lemma perm_nonempty {A} (l l' : list A) : l ≡ₚ l' -> (1 <= length l')%nat -> l <> [].
Proof. intros H%Permutation_length Hl ->. cbn in H. lia. Qed.

#[local] Instance side_items_proper b : Proper ((≡ₚ) ==> (≡ₚ)) (side_items b).
Proof. intros l l' H. by apply omap_Permutation. Qed.

Lemma grow_branch t0 t1 :
  (forall p l, placed p t0 -> l ≡ₚ entries (length p) (contents t0) -> grow (256 - length p) l = t0) ->
  (forall p l, placed p t1 -> l ≡ₚ entries (length p) (contents t1) -> grow (256 - length p) l = t1) ->
  forall sk p l, placed p (Branch sk t0 t1) -> l ≡ₚ entries (length p) (contents t0 ∪ contents t1) -> grow (256 - length p) l = Branch sk t0 t1.
Proof.
  intros IH0 IH1. induction sk as [|b sk IH]; intros p l Hp Hl; pose proof (branch_depth _ _ _ _ Hp) as Hd; pose proof (sides_disjoint _ _ _ _ Hp) as Hdis;
    pose proof (size_contents t0) as S0; pose proof (size_contents t1) as S1; replace (256 - length p)%nat with (S (256 - S (length p))) by (cbn in Hd; lia).
  - cbn [placed app] in Hp. destruct Hp as [H0 H1]. rewrite entries_perm in Hl by done.
    destruct (side_entries p false (contents t0)) as [E0 E0']; [intros k; by apply placed_prefix|]. destruct (side_entries p true (contents t1)) as [E1 E1']; [intros k; by apply placed_prefix|].
    cbn [negb] in *. assert (side_items false l ≡ₚ entries (S (length p)) (contents t0)) as P0 by (rewrite Hl, side_items_app, E0, E1'; by rewrite app_nil_r).
    assert (side_items true l ≡ₚ entries (S (length p)) (contents t1)) as P1 by (rewrite Hl, side_items_app, E1, E0'; done).
    rewrite grow_fork by (eapply perm_nonempty; [eassumption|rewrite entries_length; lia]). specialize (IH0 (p ++ [false]) (side_items false l) H0). specialize (IH1 (p ++ [true]) (side_items true l) H1).
    rewrite !length_app, !Nat.add_1_r in *. by rewrite IH0, IH1.
  - assert (placed (p ++ [b]) (Branch sk t0 t1)) as Hp' by (cbn [placed app] in *; by rewrite <- !(app_assoc p [b])).
    destruct (side_entries p b (contents t0 ∪ contents t1)) as [E E'].
    { intros k Hk. apply (placed_prefix _ (Branch sk t0 t1)); [done|]. exact Hk. }
    assert (side_items b l ≡ₚ entries (S (length p)) (contents t0 ∪ contents t1)) as P by (rewrite Hl, E; done).
    assert (2 <= size (contents t0 ∪ contents t1))%nat as Hs by (rewrite map_size_disj_union by done; lia).
    rewrite (grow_skip _ l b).
    + specialize (IH (p ++ [b]) (side_items b l) Hp'). rewrite length_app, Nat.add_1_r in IH. rewrite IH by done. done.
    + rewrite Hl, entries_length. lia.
    + apply Permutation_nil. rewrite Hl, E'. done.
    + eapply perm_nonempty; [exact P|]. rewrite entries_length. lia.
Qed.

Lemma grow_canonical t : forall p l, placed p t -> l ≡ₚ entries (length p) (contents t) -> grow (256 - length p) l = t.
Proof.
  induction t as [k v|sk t0 IH0 t1 IH1]; intros p l Hp Hl; [|by apply grow_branch].
  cbn [contents] in Hl. unfold entries in Hl. rewrite map_to_list_singleton in Hl. apply Permutation_singleton_r in Hl as ->. by destruct (256 - length p)%nat.
Qed.

(** A tree in its place is the canonical tree of its contents. *)
Lemma patricia_canonical t : placed [] t -> patricia (contents t) = Some t.
Proof.
  intros H. unfold patricia. destruct (decide (contents t = ∅)) as [E|_]; [pose proof (size_contents t) as Hs; rewrite E, map_size_empty in Hs; lia|].
  f_equal. by apply (grow_canonical t [] _ H).
Qed.

Lemma placed_unique t t' : placed [] t -> placed [] t' -> contents t = contents t' -> t = t'.
Proof. intros H H' E. pose proof (patricia_canonical t H) as P. rewrite E, (patricia_canonical t' H') in P. congruence. Qed.

(** ** Writing a key *)

Fixpoint lcp (a b : list bool) : list bool :=
  match a, b with x :: a, y :: b => if Bool.eqb x y then x :: lcp a b else [] | _, _ => [] end.

(** A branch over a new leaf and what was there. *)
Definition join (c : list bool) (bit : bool) (k v : bytes) (other : tree) : tree :=
  if bit then Branch c other (Leaf k v) else Branch c (Leaf k v) other.

(** The tree with a key written, [n] bits below the root of the whole. *)
Fixpoint tput (n : nat) (k v : bytes) (t : tree) : tree :=
  match t with
  | Leaf k' v' =>
      if decide (k = k') then Leaf k v
      else let c := lcp (drop n (kbits k')) (drop n (kbits k)) in join c (bitAt (hashKey k) (n + length c)) k v (Leaf k' v')
  | Branch sk t0 t1 =>
      let c := lcp sk (drop n (kbits k)) in
      if decide (length c = length sk) then
        let n' := (n + length sk)%nat in
        if bitAt (hashKey k) n' then Branch sk t0 (tput (S n') k v t1) else Branch sk (tput (S n') k v t0) t1
      else join c (bitAt (hashKey k) (n + length c)) k v (Branch (drop (S (length c)) sk) t0 t1)
  end.

Lemma lcp_prefix a : forall b, lcp a b `prefix_of` a /\ lcp a b `prefix_of` b.
Proof.
  induction a as [|x a IH]; intros [|y b]; cbn [lcp]; try (split; apply prefix_nil). destruct (Bool.eqb x y) eqn:E; [|split; apply prefix_nil].
  apply Bool.eqb_prop in E as ->. destruct (IH b). split; by apply prefix_cons.
Qed.

Lemma lcp_take a : forall b q x y, take q a = take q b -> a !! q = Some x -> b !! q = Some y -> x <> y -> lcp a b = take q a.
Proof.
  induction a as [|c a IH]; intros b q x y Ht Hx Hy Hne; [done|]. destruct b as [|c' b]; [done|]. destruct q as [|q]; cbn in *.
  - injection Hx as ->. injection Hy as ->. destruct (Bool.eqb x y) eqn:E; [by apply Bool.eqb_prop in E|done].
  - injection Ht as -> Ht. rewrite Bool.eqb_reflx. f_equal. by eapply IH.
Qed.

Lemma lcp_full a : forall b, take (length a) b = a -> lcp a b = a.
Proof. induction a as [|x a IH]; intros [|y b]; cbn; [done|done|done|]. intros [= -> H]. rewrite Bool.eqb_reflx. f_equal. by apply IH. Qed.

(** Where two lists part. *)
Lemma lcp_part a : forall b, (length (lcp a b) < length a)%nat -> (length (lcp a b) < length b)%nat ->
  exists x r r', a = lcp a b ++ x :: r /\ b = lcp a b ++ negb x :: r'.
Proof.
  induction a as [|x a IH]; intros [|y b]; cbn [lcp length]; try lia. destruct (Bool.eqb x y) eqn:E; cbn [length]; intros H1 H2.
  - apply Bool.eqb_prop in E as ->. destruct (IH b) as (z & r & r' & Ha & Hb); [lia|lia|]. exists z, r, r'. cbn [app]. by rewrite <- Ha, <- Hb.
  - exists x, a, b. cbn [app]. split; [done|]. f_equal. by destruct x, y.
Qed.

Lemma kbits_split p k r : kbits k = p ++ r -> drop (length p) (kbits k) = r.
Proof. intros ->. apply drop_app_length. Qed.

Lemma kbits_at k l b r : kbits k = l ++ b :: r -> bitAt (hashKey k) (length l) = b.
Proof.
  intros H. assert (kbits k !! length l = Some b) as E by (rewrite H, lookup_app_r, Nat.sub_diag by lia; done).
  unfold kbits in E. rewrite bits_at in E; [by injection E|]. rewrite <- bits_length. fold (kbits k). rewrite H, length_app. cbn. lia.
Qed.

Lemma prefix_mid l x r k : kbits k = l ++ x :: r -> l ++ [x] `prefix_of` kbits k.
Proof. intros ->. exists r. by rewrite <- (app_assoc l). Qed.

Lemma placed_join p c k v o r x : leaf_ok k v -> kbits k = p ++ c ++ x :: r -> placed (p ++ c ++ [negb x]) o ->
  placed p (join c (bitAt (hashKey k) (length p + length c)) k v o) /\
  contents (join c (bitAt (hashKey k) (length p + length c)) k v o) = <[k := v]> (contents o).
Proof.
  intros Hok Hk Ho. assert (bitAt (hashKey k) (length p + length c) = x) as ->.
  { rewrite <- length_app. apply (kbits_at k _ x r). by rewrite <- app_assoc. }
  assert (p ++ c ++ [x] `prefix_of` kbits k) as Hpre by (exists r; rewrite Hk, <- !app_assoc; done).
  assert (contents o !! k = None) as Hn.
  { apply not_elem_of_dom. intros Hin%(placed_prefix _ _ _ Ho). rewrite app_assoc in Hin, Hpre. pose proof (apart _ _ _ _ Hin Hpre) as E. by destruct x. }
  unfold join. destruct x; cbn [placed contents negb] in *.
  - split; [done|]. rewrite <- insert_empty, <- insert_union_r, map_union_empty by done. done.
  - split; [done|]. by rewrite <- insert_union_singleton_l.
Qed.

Definition collision_free (k : bytes) (m : gmap bytes bytes) : Prop := forall k', k' ∈ dom m -> k' <> k -> hashKey k' <> hashKey k.

Lemma collision_sub k m m' : collision_free k m' -> m ⊆ m' -> collision_free k m.
Proof. intros H Hs k' Hk'. apply H. apply subseteq_dom in Hs. set_solver. Qed.

Lemma placed_suffix p t k : placed p t -> k ∈ keys t -> exists r, kbits k = p ++ r.
Proof. intros H Hk. destruct (placed_prefix _ _ _ H Hk) as [r Hr]. by exists r. Qed.

(** The bits of two keys below a common place. *)
Lemma leaf_parts p k k' r r' : kbits k = p ++ r -> kbits k' = p ++ r' -> hashKey k' <> hashKey k ->
  exists x s s', r' = lcp r' r ++ x :: s /\ r = lcp r' r ++ negb x :: s'.
Proof.
  intros Hk Hk' Hne. pose proof (kbits_length k) as L. pose proof (kbits_length k') as L'. rewrite Hk, length_app in L. rewrite Hk', length_app in L'.
  destruct (lcp_prefix r' r) as [[a Ha] [b Hb]]. destruct (decide (length (lcp r' r) = length r')) as [E|E].
  - exfalso. apply Hne, bits_inj. fold (kbits k) (kbits k'). rewrite Hk, Hk'. f_equal. apply (prefix_same_length _ _ r); [|done|lia].
    replace r' with (lcp r' r); [by exists b|]. rewrite Ha at 2. rewrite Ha, length_app in E. destruct a; [by rewrite app_nil_r|]. exfalso. rewrite <- Ha in E. pose proof (f_equal length Ha) as E'. rewrite length_app in E'. cbn in *. lia.
  - apply lcp_part; [|]; pose proof (f_equal length Ha) as E1; pose proof (f_equal length Hb) as E2; rewrite length_app in E1, E2; lia.
Qed.

Lemma tput_spec k v t : leaf_ok k v -> forall p, placed p t -> p `prefix_of` kbits k -> collision_free k (contents t) ->
  placed p (tput (length p) k v t) /\ contents (tput (length p) k v t) = <[k := v]> (contents t).
Proof.
  intros Hok. induction t as [k' v'|sk t0 IH0 t1 IH1]; intros p Hp [r Hr] Hc; cbn [tput].
  - cbn [placed] in Hp. destruct Hp as [Hok' [r' Hr']]. destruct (decide (k = k')) as [<-|Hne].
    { cbn [placed contents]. rewrite insert_singleton_eq. split; [|done]. split; [done|by exists r]. }
    destruct (leaf_parts p k k' r r' Hr Hr') as (x & s & s' & E' & E); [apply Hc; [cbn; set_solver|done]|].
    rewrite (kbits_split _ _ _ Hr), (kbits_split _ _ _ Hr'). set (c := lcp r' r) in *. apply (placed_join p c k v (Leaf k' v') s' (negb x)); [done|by rewrite Hr, E|].
    rewrite negb_involutive. cbn [placed]. split; [done|]. exists s. rewrite Hr', E'. by rewrite <- !app_assoc.
  - rewrite (kbits_split _ _ _ Hr). set (c := lcp sk r) in *. pose proof (branch_depth _ _ _ _ Hp) as Hd. pose proof (sides_disjoint _ _ _ _ Hp) as Hdis.
    assert (length p + length r = 256)%nat as Lr by (rewrite <- length_app, <- Hr; apply kbits_length). destruct (lcp_prefix sk r) as [[a Ha] [b Hb]]. fold c in Ha, Hb.
    destruct (decide (length c = length sk)) as [E|E].
    + assert (c = sk) as Ec. { rewrite Ha in E. rewrite length_app in E. destruct a; [by rewrite Ha, app_nil_r|cbn in E; lia]. }
      rewrite Ec in Hb. destruct b as [|x b]; [pose proof (f_equal length Hb) as L; rewrite length_app in L; cbn in L; lia|].
      assert (kbits k = (p ++ sk) ++ x :: b) as Hk by (rewrite Hr, Hb; by rewrite app_assoc).
      rewrite <- length_app. rewrite (kbits_at k _ x b Hk). cbn [placed] in Hp. destruct Hp as [H0 H1]. rewrite app_assoc in H0, H1.
      assert (collision_free k (contents t0) /\ collision_free k (contents t1)) as [C0 C1].
      { split; (eapply collision_sub; [exact Hc|]); cbn [contents]; [apply map_union_subseteq_l|by apply map_union_subseteq_r]. }
      assert ((p ++ sk) ++ [x] `prefix_of` kbits k) as Hx by (apply (prefix_mid _ _ b), Hk).
      destruct x; [destruct (IH1 _ H1 Hx C1) as [P C]|destruct (IH0 _ H0 Hx C0) as [P C]]; rewrite length_app, Nat.add_1_r in P, C; cbn [placed contents]; rewrite !(app_assoc p sk), C.
      * split; [done|]. rewrite insert_union_r; [done|]. apply not_elem_of_dom. intros Hin%(placed_prefix _ _ _ H0). pose proof (apart _ _ _ _ Hin Hx). done.
      * split; [done|]. by rewrite insert_union_l.
    + assert (length c < length sk /\ length c < length r)%nat as [L1 L2].
      { pose proof (f_equal length Ha) as L. pose proof (f_equal length Hb) as L'. rewrite length_app in L, L'. lia. }
      destruct (lcp_part sk r L1 L2) as (x & s & s' & E1 & E2). fold c in E1, E2.
      assert (drop (S (length c)) sk = s) as Es. { rewrite E1 at 1. rewrite cons_middle, app_assoc. apply drop_app_n. rewrite length_app. cbn. lia. }
      rewrite Es. apply (placed_join p c k v (Branch s t0 t1) s' (negb x)); [done|by rewrite Hr, E2|]. rewrite negb_involutive. cbn [placed] in *.
      rewrite E1 in Hp. repeat rewrite <- app_assoc in Hp. cbn [app] in Hp. repeat rewrite <- app_assoc. cbn [app]. exact Hp.
Qed.

End Trees.
