(* ===== verification/RadixRead.v ===== *)
(** * Reading the delivery index

    What a read of a page gives: a record read through the windows of [merge] is the record read directly, and a page of a
    tree that a transaction holds, that the cache knows or that the files carry is found, with the places of
    its children. *)

From S2P Require Import Prelude GoLib Varint Radix RadixBits RadixTree.

(** ** Records *)

Lemma take_take_drop {A} (a b : nat) (s : list A) : take a (take b s) = take (Nat.min a b) s.
Proof. apply take_take. Qed.

(** The bytes read in two steps are one run of the file. *)
Lemma two_reads {A} (s : list A) (a b : nat) : (a < b)%nat -> take a s ++ take (b - a) (drop a s) = take b s.
Proof. intros H. rewrite <- (take_drop a (take b s)), take_take, Nat.min_l, skipn_firstn_comm by lia. done. Qed.

Lemma readRecordBytes_simpl d h loc f s n :
  valid loc = true -> off loc <= MaxInt -> acquirePack d (pack loc) = inr f -> s = drop (Z.to_nat (off loc)) f -> (4 <= length s)%nat ->
  be_get (take 4 s) = Z.of_nat n -> 6 <= Z.of_nat n <= radixMaxPageBytes -> (4 + n <= length s)%nat ->
  readRecordBytes d h loc = if bool_decide (pageHash (take n (drop 4 s)) = h) then inr (take n (drop 4 s), take 32 (drop (4 + n) s)) else inl ErrUnavailable.
Proof.
  intros Hv Ho Hf -> Hs Hn Hb Hl. unfold readRecordBytes. rewrite Hv, (proj2 (Z.ltb_ge _ _)) by lia. cbn [negb orb]. rewrite Hf.
  set (o := Z.to_nat (off loc)) in *. rewrite length_drop in Hs, Hl. assert (0 <= off loc) as H0 by (unfold valid, radixPackHeaderLen in Hv; bsolve; lia).
  unfold radixRecordHeaderLen, radixTrailerLen, radixRecordReadAhead in *. rewrite (proj2 (Z.ltb_ge _ (off loc))), (proj2 (Z.ltb_ge _ (Z.of_nat 4))) by lia. cbn [orb].
  set (first := Nat.min 512 (length f - o)). unfold ReadAt. rewrite take_take, (Nat.min_l 4 first), Hn by lia.
  rewrite (proj2 (Z.ltb_ge _ 6)), Z.gtb_ltb, (proj2 (Z.ltb_ge radixMaxPageBytes _)), Z.gtb_ltb, (proj2 (Z.ltb_ge (Z.of_nat (length f - o - 4)) _)) by lia. cbn [orb].
  rewrite Nat2Z.id. set (want := Nat.min (4 + n + 32) (length f - o)).
  assert ((if (first <? want)%nat then take first (drop o f) ++ take (want - first) (drop (o + first) f) else take want (take first (drop o f))) = take want (drop o f)) as ->.
  { destruct (Nat.ltb_spec first want); [rewrite <- drop_drop; by apply two_reads|]. rewrite take_take. f_equal. lia. }
  assert (take n (drop 4 (take want (drop o f))) = take n (drop 4 (drop o f))) as Er.
  { rewrite skipn_firstn_comm, take_take. f_equal. lia. }
  assert (drop n (drop 4 (take want (drop o f))) = take 32 (drop (4 + n) (drop o f))) as Et.
  { rewrite drop_drop, skipn_firstn_comm. destruct (Nat.le_gt_cases (4 + n + 32) (length f - o)) as [Hc|Hc].
    - f_equal. lia.
    - rewrite !take_ge; [done|rewrite !length_drop; lia|rewrite !length_drop; lia]. }
  rewrite Er, Et. by destruct (bool_decide _).
Qed.

(** ** The windows of a merge *)

Definition ra_ok (d : disk) (t : txn) : Prop := forall ws id w, ra t = Some ws -> ws !! id = Some w ->
  exists f, acquirePack d id = inr f /\ wbuf w = ReadAt f (woff w) (length (wbuf w)) /\ (woff w + length (wbuf w) <= length f)%nat.

Section Read.
Context {KH : KeyHash} {Or : MapOrder} (d : disk).

Lemma serve_direct h loc w f : valid loc = true -> off loc <= MaxInt -> acquirePack d (pack loc) = inr f ->
  wbuf w = ReadAt f (woff w) (length (wbuf w)) -> (woff w + length (wbuf w) <= length f)%nat ->
  (woff w <= Z.to_nat (off loc))%nat -> (Z.to_nat (off loc) - woff w + 4 <= length (wbuf w))%nat -> serve d h loc w = readRecordBytes d h loc.
Proof.
  intros Hv Ho Hf Hw Hl H1 H2. unfold serve. set (o := Z.to_nat (off loc)) in *. set (rest := drop (o - woff w) (wbuf w)).
  assert (rest = take (length rest) (drop o f)) as Hr.
  { unfold rest. rewrite length_drop. rewrite Hw at 1. unfold ReadAt. rewrite skipn_firstn_comm, drop_drop. repeat f_equal. lia. }
  assert (length rest = (length (wbuf w) - (o - woff w))%nat) as Hlr by apply length_drop. unfold radixRecordHeaderLen, radixTrailerLen.
  set (n := be_get (take 4 rest)). destruct (_ || _) eqn:E; [done|]. rewrite !orb_false_iff, !Z.gtb_ltb, !Z.ltb_ge in E. destruct E as [[E1 E2] E3].
  assert (take 4 rest = take 4 (drop o f)) as H4 by (rewrite Hr, take_take; f_equal; lia).
  rewrite (readRecordBytes_simpl d h loc f (drop o f) (Z.to_nat n) Hv Ho Hf eq_refl); [|rewrite length_drop; lia|rewrite <- H4; fold n; lia|lia|rewrite length_drop; lia].
  assert (take (Z.to_nat n) (drop 4 (take (Z.to_nat (Z.of_nat 4 + n + Z.of_nat 32)) rest)) = take (Z.to_nat n) (drop 4 (drop o f))) as ->.
  { rewrite Hr, take_take, skipn_firstn_comm, take_take. f_equal. lia. }
  assert (drop (Z.to_nat n) (drop 4 (take (Z.to_nat (Z.of_nat 4 + n + Z.of_nat 32)) rest)) = take 32 (drop (4 + Z.to_nat n) (drop o f))) as ->.
  { rewrite Hr, take_take, drop_drop, skipn_firstn_comm. f_equal. lia. }
  by destruct (bool_decide _).
Qed.

(** A read through the windows is a direct read. *)
Lemma readRA_direct h loc t : ra_ok d t ->
  exists r, readRecordBytesRA d h loc t = (readRecordBytes d h loc, set_ra r t) /\ ra_ok d (set_ra r t).
Proof.
  intros Hw. assert (set_ra (ra t) t = t) as Hid by by destruct t. unfold readRecordBytesRA. destruct (ra t) as [ws|] eqn:Er; [|exists None; by rewrite Hid].
  destruct (negb (valid loc) || (MaxInt <? off loc)) eqn:Ev; [exists (Some ws); by rewrite Hid|]. apply orb_false_iff in Ev as [Hv Ho]. apply negb_false_iff in Hv. apply Z.ltb_ge in Ho.
  destruct (match ws !! pack loc with Some w => _ | None => None end) as [w|] eqn:Eh.
  - destruct (ws !! pack loc) as [w'|] eqn:El; [|done]. destruct (_ || _) eqn:Eb; [done|]. injection Eh as ->. apply orb_false_iff in Eb as [E1%Nat.ltb_ge E2%Nat.ltb_ge].
    destruct (Hw _ _ _ Er El) as (f & Hf & Hb & Hl). rewrite (serve_direct h loc w f) by done. exists (Some ws). by rewrite Hid.
  - destruct (acquirePack d (pack loc)) as [e|f] eqn:Ef.
    { exists (Some ws). rewrite Hid. split; [|done]. f_equal. unfold readRecordBytes. rewrite Hv, (proj2 (Z.ltb_ge _ _)), Ef by done. done. }
    destruct (_ || _) eqn:Eb.
    { exists (Some ws). rewrite Hid. split; [|done]. f_equal. unfold readRecordBytes. rewrite Hv, (proj2 (Z.ltb_ge _ _)), Ef, Eb by done. done. }
    apply orb_false_iff in Eb as [E1%Z.ltb_ge E2%Z.ltb_ge]. unfold radixRecordHeaderLen in E2. assert (0 <= off loc) as H0 by (unfold valid, radixPackHeaderLen in Hv; bsolve; lia).
    set (o := Z.to_nat (off loc)) in *. set (nb := Nat.min radixReadAheadBytes (length f - o)). assert (length (ReadAt f o nb) = nb) as Ln by (unfold ReadAt; rewrite length_take, length_drop; lia).
    assert (4 <= radixReadAheadBytes)%nat as Hra by (unfold radixReadAheadBytes; lia).
    rewrite (serve_direct h loc (MkWindow o (ReadAt f o nb)) f); cbn [woff wbuf]; rewrite ?Ln; try done; try lia. eexists. split; [reflexivity|].
    intros ws' id w Hra'. cbn [ra set_ra] in Hra'. injection Hra' as <-. rewrite lookup_insert_Some. intros [[<- <-]|[_ Hl]]; [exists f; cbn [woff wbuf]; rewrite Ln; split; [done|split; [done|lia]]|].
    apply (Hw ws id w Er). repeat case_match; try exact Hl; by apply lookup_delete_Some in Hl as [_ Hl].
Qed.

(** ** Trees on disk and in a transaction *)

(** Trees whose pages are told apart by their digests, none of them zero. *)
Record universe (U : tree -> Prop) : Prop := {
  u_sub sk t0 t1 : U (Branch sk t0 t1) -> U t0 /\ U t1;
  u_inj t t' : U t -> U t' -> root t = root t' -> t = t';
  u_nonzero t : U t -> root t <> zeroHash
}.

(** The records of a tree are in the files from a location on. *)
Fixpoint committed (loc : radixLoc) (t : tree) : Prop :=
  match t with
  | Leaf _ _ => readRecord d (root t) loc = inr (node t noLoc noLoc)
  | Branch _ t0 t1 => exists l0 l1, readRecord d (root t) loc = inr (node t l0 l1) /\ valid l0 = true /\ valid l1 = true /\ committed l0 t0 /\ committed l1 t1
  end.

Definition held (pend : gmap radixHash radixNode) (t : tree) : Prop := is_Some (pend !! root t).

(** Where the page of a tree is found: held, or in the files at the location given or named by its root pointer. *)
Definition source (pend : gmap radixHash radixNode) (loc : radixLoc) (t : tree) (l0 l1 own : radixLoc) : Prop :=
  (pend !! root t = Some (node t l0 l1) /\ own = noLoc) \/
  (pend !! root t = None /\ committed own t /\ readRecord d (root t) own = inr (node t l0 l1) /\
   if valid loc then own = loc else readRootPointer d (root t) = inr own).

(** Every page of a tree is found from its parent. *)
Fixpoint rep (pend : gmap radixHash radixNode) (loc : radixLoc) (t : tree) : Prop :=
  exists l0 l1 own, source pend loc t l0 l1 own /\
  match t with
  | Leaf _ _ => True
  | Branch _ t0 t1 => ((committed l0 t0 \/ valid l0 = false /\ held pend t0) /\ rep pend l0 t0) /\ ((committed l1 t1 \/ valid l1 = false /\ held pend t1) /\ rep pend l1 t1)
  end.

Definition child (pend : gmap radixHash radixNode) (loc : radixLoc) (t : tree) : Prop := (committed loc t \/ valid loc = false /\ held pend t) /\ rep pend loc t.

Lemma readRecord_valid h loc n : readRecord d h loc = inr n -> valid loc = true.
Proof. unfold readRecord, readRecordBytes. by destruct (valid loc). Qed.

Lemma committed_read loc t : committed loc t -> exists l0 l1, readRecord d (root t) loc = inr (node t l0 l1).
Proof. destruct t; cbn [committed]; [by exists noLoc, noLoc|]. intros (l0 & l1 & H & _). by exists l0, l1. Qed.

Lemma committed_valid loc t : committed loc t -> valid loc = true.
Proof. intros (l0 & l1 & H)%committed_read. by apply readRecord_valid in H. Qed.

(** A tree that is found is found at any place its records are. *)
Lemma rep_moved pend t : forall loc loc', rep pend loc t -> committed loc' t -> child pend loc' t.
Proof.
  induction t as [k v|sk t0 IH0 t1 IH1]; intros loc loc' Hr Hc; (split; [by left|]); pose proof (committed_valid _ _ Hc) as Hv.
  - destruct Hr as (l0 & l1 & own & [[Hp ->]|(Hp & _)] & _).
    + exists l0, l1, noLoc. split; [by left|done].
    + exists noLoc, noLoc, loc'. split; [|done]. right. rewrite Hv. done.
  - destruct Hr as (l0 & l1 & own & [[Hp ->]|(Hp & _)] & [Hv0 H0] & [Hv1 H1]).
    + exists l0, l1, noLoc. split; [by left|done].
    + pose proof Hc as (m0 & m1 & Hm & Hm0 & Hm1 & Hc0 & Hc1). exists m0, m1, loc'. split; [right; rewrite Hv; done|]. split; [by apply (IH0 l0)|by apply (IH1 l1)].
Qed.

Context (U : tree -> Prop) (HU : universe U).

(** What the cache holds is in the files. *)
Definition cache_ok (t : txn) : Prop := forall h c, cache t !! h = Some c ->
  exists tr, U tr /\ root tr = h /\ committed (cloc c) tr /\ readRecord d h (cloc c) = inr (cnode c).

Definition clean (t : txn) : Prop := cache_ok t /\ ra_ok d t.

Lemma delete_subset {A} (ks : list radixHash) (m : gmap radixHash A) : foldr delete m ks ⊆ m.
Proof. induction ks as [|k ks IH]; [done|]. cbn [foldr]. etrans; [apply delete_subseteq|done]. Qed.

Lemma remember_clean tr loc n t : clean t -> U tr -> committed loc tr -> readRecord d (root tr) loc = inr n ->
  clean (remember (root tr) n loc t) /\ pending (remember (root tr) n loc t) = pending t /\ ctx (remember (root tr) n loc t) = ctx t.
Proof.
  intros [Hc Hw] Hu Hcm Hr. unfold remember. destruct n; [done|]. destruct (valid loc); cbn [negb]; [|done]. split; [|done]. split; [|exact Hw].
  intros h c. cbn [cache set_cache]. rewrite lookup_insert_Some. intros [[<- <-]|[_ Hl]]; [by exists tr|]. apply Hc.
  destruct (_ <=? _)%nat; [|done]. eapply lookup_weaken; [exact Hl|]. apply delete_subset.
Qed.

(** What is known of the page of a tree once it is read. *)
Definition found (pend : gmap radixHash radixNode) (t : tree) (n : radixNode) (own : radixLoc) : Prop :=
  exists l0 l1, n = node t l0 l1 /\ child pend own t /\ match t with Leaf _ _ => True | Branch _ t0 t1 => child pend l0 t0 /\ child pend l1 t1 end.

Lemma node_inj_locs t n l0 l1 m0 m1 : n = node t l0 l1 -> n = node t m0 m1 -> match t with Leaf _ _ => True | Branch _ _ _ => l0 = m0 /\ l1 = m1 end.
Proof. intros ->. destruct t; [done|]. by intros [= -> ->]. Qed.

Lemma found_committed pend t loc own n : rep pend loc t -> pend !! root t = None -> committed own t -> readRecord d (root t) own = inr n -> found pend t n own.
Proof.
  intros Hr Hp Hc Hn. destruct (committed_read _ _ Hc) as (l0 & l1 & Hn'). rewrite Hn' in Hn. injection Hn as <-. exists l0, l1. split; [done|]. split; [by apply (rep_moved _ _ loc)|].
  destruct t as [|sk t0 t1]; [done|]. destruct Hc as (m0 & m1 & Hm & _ & _ & Hc0 & Hc1). rewrite Hn' in Hm. injection Hm as -> ->.
  destruct Hr as (? & ? & ? & _ & [_ H0] & [_ H1]). split; [by eapply rep_moved|by eapply rep_moved].
Qed.

Lemma readRecordRA_direct b h loc t : ra_ok d t -> exists r, readRecordRA d b h loc t = (readRecord d h loc, set_ra r t) /\ ra_ok d (set_ra r t).
Proof.
  intros Hw. unfold readRecordRA. destruct b; [|exists (ra t); by destruct t]. destruct (readRA_direct h loc t Hw) as (r & -> & Hr). by exists r.
Qed.

Lemma nodeAt_found b pend t loc s : U t -> rep pend loc t -> clean s ->
  exists n own s', nodeAtRA d pend b (root t) loc s = (inr (n, own), s') /\ found pend t n own /\ clean s' /\ pending s' = pending s /\ ctx s' = ctx s.
Proof.
  intros Hu Hr Hs. unfold nodeAtRA. destruct (pend !! root t) as [n|] eqn:Ep.
  { exists n, noLoc, s. split; [done|]. split; [|done]. destruct t as [k v|sk t0 t1]; destruct Hr as (l0 & l1 & own & [[Hp ->]|[Hp _]] & Hch); try congruence;
      rewrite Hp in Ep; injection Ep as <-; exists l0, l1; (split; [done|]); (split; [split; [right; split; [done|by eexists]|]; exists l0, l1, noLoc; split; [by left|done]|done]). }
  destruct (cache s !! root t) as [c|] eqn:Ec.
  { destruct (proj1 Hs _ _ Ec) as (t' & Hu' & He & Hcm & Hn). apply (u_inj _ HU) in He as ->; [|done|done]. exists (cnode c), (cloc c), s. split; [done|]. split; [|done]. by eapply found_committed. }
  assert (exists own, committed own t /\ if valid loc then own = loc else readRootPointer d (root t) = inr own) as (own & Hcm & Hown).
  { destruct t; destruct Hr as (l0 & l1 & own & [[Hp ->]|(_ & Hcm & _ & Hown)] & _); try congruence; by exists own. }
  destruct (committed_read _ _ Hcm) as (l0 & l1 & Hn). destruct (valid loc) eqn:Ev.
  - subst own. destruct (readRecordRA_direct b (root t) loc s (proj2 Hs)) as (r & -> & Hw). rewrite Hn.
    destruct (remember_clean t loc _ (set_ra r s) (conj (proj1 Hs) Hw) Hu Hcm Hn) as (H1 & H2 & H3).
    exists (node t l0 l1), loc, (remember (root t) (node t l0 l1) loc (set_ra r s)). split; [done|]. split; [by eapply found_committed|done].
  - unfold readRoot. rewrite Hown, Hn. destruct (remember_clean t own _ s Hs Hu Hcm Hn) as (H1 & H2 & H3).
    exists (node t l0 l1), own, (remember (root t) (node t l0 l1) own s). split; [done|]. split; [by eapply found_committed|done].
Qed.

End Read.
