(* ===== verification/RadixSpec.v ===== *)
(** * Keys of the delivery index against prefixes

    What the comparisons of a digest with a prefix of a branch and with another digest find. *)

From S2P Require Import Prelude GoLib Varint Radix RadixBits RadixTree RadixRead.

(** ** Comparisons on the bits of keys *)

Section Compare.
Context {KH : KeyHash}.

Lemma drop_at {A} (l a : list A) : drop (length l) (l ++ a) = a.
Proof. apply drop_app_length. Qed.

Lemma bits_from k p r : kbits k = p ++ r -> drop (length p) (bits (hashKey k)) = r.
Proof. apply kbits_split. Qed.

Lemma hash_bits k : (8 * length (hashKey k) = 256)%nat.
Proof. rewrite hashKey_length. done. Qed.

Lemma lookup_kbits k i : (i < 256)%nat -> kbits k !! i = Some (bitAt (hashKey k) i).
Proof. intros Hi. apply bits_at. rewrite hash_bits. done. Qed.

Lemma part_at (l : list bool) c x : forall q, q = length c -> take q l = c -> l !! q = Some x -> exists s, l = c ++ x :: s.
Proof. intros q -> Ht Hx. exists (drop (S (length c)) l). rewrite <- Ht at 1. rewrite <- (take_drop_middle l (length c) x Hx) at 1. done. Qed.

(** A target against the prefix of a branch: it matches, or parts from it at a bit. *)
Lemma compare_spec k p r sk : kbits k = p ++ r -> (length sk <= length r)%nat ->
  let '(q, m) := comparePrefix (hashKey k) (length p) (packed sk) (length sk) in
  (m = true /\ q = (length p + length sk)%nat /\ take (length sk) r = sk) \/
  (m = false /\ exists c x s s', sk = c ++ x :: s /\ r = c ++ negb x :: s' /\ q = (length p + length c)%nat).
Proof.
  intros Hk Hl. pose proof (kbits_length k) as L. rewrite Hk, length_app in L. pose proof (packed_size (length sk)) as [Hps _].
  pose proof (prefix_loop_spec (hashKey k) (length p) (packed sk) 0 (length sk)) as H. rewrite hash_bits, packed_length in H. specialize (H ltac:(lia) ltac:(lia)).
  unfold comparePrefix. destruct (prefix_loop _ _ _ _ _) as [q m]. rewrite Nat.add_0_r, (bits_from k p r Hk), drop_0 in H.
  destruct H as [(-> & -> & H)|(-> & n & Hn & -> & Ht & Hb)]; [left|right]; (split; [done|]).
  - rewrite packed_bits in H. done.
  - cbn [Nat.add] in Hb. rewrite packed_at in Hb. assert (take n (bits (packed sk)) = take n sk) as Et.
    { rewrite <- (packed_bits sk) at 2. rewrite take_take. f_equal. lia. }
    rewrite Et in Ht. destruct (lookup_lt_is_Some_2 sk n Hn) as [x Hx]. rewrite Hx in Hb. cbn in Hb.
    assert (r !! n = Some (bitAt (hashKey k) (length p + n))) as Hr.
    { rewrite <- (lookup_kbits k (length p + n)) by lia. rewrite Hk, lookup_app_r by lia. f_equal. lia. }
    assert (length (take n sk) = n) as Ln by (rewrite length_take; lia).
    destruct (part_at sk (take n sk) x n (eq_sym Ln) eq_refl Hx) as [s Hs]. destruct (part_at r (take n sk) _ n (eq_sym Ln) Ht Hr) as [s' Hs'].
    exists (take n sk), x, s, s'. split; [done|]. rewrite Ln. split; [|done]. rewrite Hs' at 1. f_equal. f_equal. by destruct (bitAt (hashKey k) (length p + n)), x.
Qed.

(** Two different digests part at a bit. *)
Lemma first_diff_spec k k' p r r' : kbits k = p ++ r -> kbits k' = p ++ r' -> hashKey k' <> hashKey k ->
  exists c x s s', r' = c ++ x :: s /\ r = c ++ negb x :: s' /\ firstDiffBit (hashKey k') (hashKey k) (length p) = (length p + length c)%nat.
Proof.
  intros Hk Hk' Hne. pose proof (kbits_length k) as L. rewrite Hk, length_app in L. pose proof (kbits_length k') as L'. rewrite Hk', length_app in L'.
  destruct (leaf_parts p k k' r r' Hk Hk' Hne) as (x & s & s' & E & E'). set (c := lcp r' r) in *. exists c, x, s, s'. split; [done|]. split; [done|]. unfold firstDiffBit.
  pose proof (diff_loop_spec (hashKey k') (hashKey k) (length p) (256 - length p) ltac:(lia) (hash_bits _) (hash_bits _)) as H. cbv zeta in H.
  change radixHashBits with 256%nat. set (q := diff_loop _ _ _ _) in *. rewrite (bits_from k p r Hk), (bits_from k' p r' Hk') in H.
  destruct H as [[_ H]|(Hq & Ht & Hb)].
  - exfalso. apply Hne, bits_inj. fold (kbits k) (kbits k'). by rewrite Hk, Hk', H.
  - assert (forall j, (j < length r)%nat -> r !! j = Some (bitAt (hashKey k) (length p + j)) /\ r' !! j = Some (bitAt (hashKey k') (length p + j))) as Hat.
    { intros j Hj. rewrite <- !lookup_kbits by lia. rewrite Hk, Hk', !lookup_app_r by lia. by rewrite Nat.add_comm, Nat.add_sub. }
    destruct (Hat (q - length p)%nat ltac:(lia)) as [H1 H2]. replace (length p + (q - length p))%nat with q in H1, H2 by lia.
    pose proof (lcp_take r' r (q - length p) _ _ Ht H2 H1 Hb) as Hc. fold c in Hc. rewrite Hc, length_take. lia.
Qed.

End Compare.
