(* ===== verification/RadixTxn.v ===== *)
(** * Lookups and updates of the delivery index

    A lookup answers what the tree holds, and [update] turns the tree into the tree with the key written, whatever pages the
    transaction holds, the cache knows and the files carry. *)

From S2P Require Import Prelude GoLib Varint Radix RadixBits RadixTree RadixRead RadixSpec.

Section Answers.
Context {KH : KeyHash} {Or : MapOrder} (d : disk).

(** ** Lookups *)

(** Another key with the digest of [key]. *)
Definition collides (m : gmap bytes bytes) (key : bytes) : bool := existsb (fun k => bool_decide (hashKey k = hashKey key)) (elements (dom m)).

(** What a map answers under [key]. *)
Definition answer (m : gmap bytes bytes) (key : bytes) : radix_error + option bytes :=
  match m !! key with Some v => inr (Some v) | None => if collides m key then inl ErrCollision else inr None end.

Lemma collides_spec m key : collides m key = true <-> exists k, k ∈ dom m /\ hashKey k = hashKey key.
Proof.
  unfold collides. rewrite existsb_exists. split; intros (k & Hk & He); exists k.
  - rewrite <- list_elem_of_In, elem_of_elements in Hk. by apply bool_decide_eq_true in He.
  - rewrite <- list_elem_of_In, elem_of_elements. split; [done|]. by apply bool_decide_eq_true.
Qed.

Lemma answer_none m key : (forall k, k ∈ dom m -> hashKey k <> hashKey key) -> answer m key = inr None.
Proof.
  intros H. unfold answer. destruct (m !! key) as [v|] eqn:E; [by destruct (H key (elem_of_dom_2 _ _ _ E))|].
  destruct (collides m key) eqn:Ec; [|done]. apply collides_spec in Ec as (k & Hk & He). by destruct (H k Hk).
Qed.

(** The side of a branch a key cannot be on does not matter. *)
Lemma answer_union m m' key : m ##ₘ m' -> (forall k, k ∈ dom m' -> hashKey k <> hashKey key) -> answer (m ∪ m') key = answer m key /\ answer (m' ∪ m) key = answer m key.
Proof.
  intros Hd Hn. assert (m' ∪ m = m ∪ m') as -> by (by apply map_union_comm). assert (answer (m ∪ m') key = answer m key); [|done].
  assert (m' !! key = None) as E by (apply not_elem_of_dom; intros H; by apply (Hn key H)). unfold answer. rewrite (lookup_union_l m m' key E).
  assert (collides (m ∪ m') key = collides m key) as ->; [|done]. apply eq_true_iff_eq. rewrite !collides_spec. split; intros (k & Hk & He); exists k; [|set_solver].
  rewrite dom_union_L in Hk. apply elem_of_union in Hk as [Hk|Hk]; [done|]. by destruct (Hn k Hk).
Qed.

Lemma no_hash (p : list bool) (m : gmap bytes bytes) key : (forall k, k ∈ dom m -> p `prefix_of` kbits k) -> ~ p `prefix_of` kbits key -> forall k, k ∈ dom m -> hashKey k <> hashKey key.
Proof. intros H Hn k Hk E. apply Hn. unfold kbits. rewrite <- E. by apply H. Qed.

Lemma not_prefix_part p c x s k : kbits k = p ++ c ++ negb x :: s -> forall q, ~ p ++ (c ++ x :: q) `prefix_of` kbits k.
Proof.
  intros Hk q [r Hr]. rewrite Hk in Hr. rewrite <- !app_assoc in Hr. apply app_inv_head, app_inv_head in Hr. cbn in Hr. injection Hr as Hx _. by destruct x.
Qed.

(** The state after a call that only reads, with what is known of the cache kept. *)
Definition kept (inv : txn -> Prop) (s s' : txn) : Prop := inv s' /\ pending s' = pending s /\ (ctx s = None -> ctx s' = None).

Lemma kept_trans inv s s' s'' : kept inv s s' -> kept inv s' s'' -> kept inv s s''.
Proof. intros (H1 & H2 & H3) (H4 & H5 & H6). split; [done|]. split; [congruence|auto]. Qed.

(** One level of a lookup or a descent. *)
Lemma matched_bit k p r sk : kbits k = p ++ r -> (length sk < length r)%nat -> take (length sk) r = sk ->
  exists s, kbits k = (p ++ sk) ++ bitAt (hashKey k) (length p + length sk) :: s.
Proof.
  intros Hk Hl Ht. destruct (lookup_lt_is_Some_2 r (length sk) Hl) as [x Hx]. destruct (part_at r sk x (length sk) eq_refl Ht Hx) as [s Hs].
  rewrite Hs, app_assoc in Hk. exists s. rewrite <- length_app. by rewrite (kbits_at k (p ++ sk) x s Hk).
Qed.

(** What a read of a page of the trees [V] gives: an error of [bad], or the node with children that can be read in turn. *)
Record reading (V : tree -> Prop) (reads : radixLoc -> tree -> Prop) (inv : txn -> Prop) (bad : radix_error -> Prop) (pend : gmap radixHash radixNode) : Prop := {
  rd_sub sk t0 t1 : V (Branch sk t0 t1) -> V t0 /\ V t1;
  rd_nonzero t : V t -> root t <> zeroHash;
  rd_ctx s : inv s -> (ctx_Err s = (inl ErrCtx, s) /\ ctx s <> None) \/ (exists s', ctx_Err s = (inr tt, s') /\ kept inv s s');
  rd_node t loc s : V t -> reads loc t -> inv s -> exists s', kept inv s s' /\
    ((exists e, nodeAt d pend (root t) loc s = (inl e, s') /\ bad e) \/
     (exists l0 l1 own, nodeAt d pend (root t) loc s = (inr (node t l0 l1, own), s') /\ match t with Leaf _ _ => True | Branch _ t0 t1 => reads l0 t0 /\ reads l1 t1 end))
}.

(** A lookup that can read gives the answer of the tree, or the error of a read. *)
Lemma lookup_loop_reads V reads inv bad pend (HR : reading V reads inv bad pend) key t : forall p steps loc s, V t -> placed p t -> p `prefix_of` kbits key -> (257 <= steps + length p)%nat ->
  reads loc t -> inv s ->
  exists r s', lookup_loop d steps pend (hashKey key) key (root t) loc (length p) s = (r, s') /\ kept inv s s' /\
    (r = answer (contents t) key \/ (r = inl ErrCtx /\ ctx s <> None) \/ exists e, r = inl e /\ bad e).
Proof.
  induction t as [k v|sk t0 IH0 t1 IH1]; intros p steps loc s Hu Hp [r Hr] Hst Hrep Hc; pose proof (placed_depth _ _ Hp) as Hd; (destruct steps as [|steps]; [lia|]);
    cbn [lookup_loop]; unfold mbind, M_bind; (destruct (rd_ctx _ _ _ _ _ HR s Hc) as [[-> Hctx]|(s1 & -> & Hs1)]; [exists (inl ErrCtx), s; split; [done|]; split; [done|by right; left]|]);
    destruct (rd_node _ _ _ _ _ HR _ loc s1 Hu Hrep (proj1 Hs1)) as (s2 & Hs12 & [(e & -> & He)|(l0 & l1 & own & -> & Hch)]);
    (assert (kept inv s s2) as Hs2 by (by eapply kept_trans)); [exists (inl e), s2; split; [done|]; split; [done|right; right; by exists e]| |exists (inl e), s2; split; [done|]; split; [done|right; right; by exists e]|];
    pose proof (proj1 Hs2) as Hc2; cbn [node].
  - cbn [placed] in Hp. destruct Hp as [_ [r' Hr']]. rewrite bitsEqual_spec by (rewrite hash_bits; lia). fold (kbits k) (kbits key). rewrite Hr, Hr', !take_app_length, bool_decide_eq_true_2 by done.
    cbn [negb contents]. case_bool_decide as He; [case_bool_decide as Hk|].
    + subst k. exists (inr (Some v)), s2. split; [done|]. split; [done|]. left. unfold answer. by rewrite lookup_singleton_eq.
    + exists (inl ErrCollision), s2. split; [done|]. split; [done|]. left. unfold answer. rewrite lookup_singleton_ne by done.
      assert (collides {[k := v]} key = true) as ->; [|done]. apply collides_spec. exists k. split; [set_solver|done].
    + exists (inr None), s2. split; [done|]. split; [done|]. left. symmetry. apply answer_none. intros k' Hk'. rewrite dom_singleton_L in Hk'. apply elem_of_singleton in Hk' as ->. done.
  - pose proof (branch_depth _ _ _ _ Hp) as Hb. pose proof (kbits_length key) as Lk. rewrite Hr, length_app in Lk. change radixHashBits with 256%nat.
    rewrite (proj2 (Nat.leb_gt 256 _)) by lia. pose proof (compare_spec key p r sk Hr ltac:(lia)) as Hcmp. destruct (comparePrefix _ _ _ _) as [q m]. cbn [snd].
    pose proof (sides_disjoint _ _ _ _ Hp) as Hdis. destruct Hcmp as [(-> & -> & Hm)|(-> & c & x & sc & sc' & Esk & Er & _)]; cbn [negb].
    + destruct (matched_bit key p r sk Hr ltac:(lia) Hm) as [z Hz]. pose proof (prefix_mid _ _ _ _ Hz) as Hpre. pose proof (rd_sub _ _ _ _ _ HR _ _ _ Hu) as [Hu0 Hu1].
      cbn [placed] in Hp. destruct Hp as [P0 P1]. rewrite app_assoc in P0, P1. destruct Hch as [Hch0 Hch1].
      assert (length p + length sk = length (p ++ sk))%nat as Lp by by rewrite length_app.
      assert (forall b t, placed ((p ++ sk) ++ [b]) t -> b <> bitAt (hashKey key) (length p + length sk) -> forall k', k' ∈ dom (contents t) -> hashKey k' <> hashKey key) as Hother.
      { intros b t Hpb Hne. apply (no_hash ((p ++ sk) ++ [b])); [intros k'; by apply placed_prefix|]. intros Hx. by apply Hne, (apart _ _ _ _ Hx Hpre). }
      destruct (bitAt (hashKey key) (length p + length sk)); unfold isZero; rewrite bool_decide_eq_false_2 by (by apply (rd_nonzero _ _ _ _ _ HR)).
      * destruct (IH1 _ steps l1 s2 Hu1 P1 Hpre ltac:(rewrite !length_app; cbn; lia) Hch1 Hc2) as (a & s3 & Ha & Hs3 & Hres). rewrite !length_app, Nat.add_1_r in Ha.
        exists a, s3. split; [exact Ha|]. split; [by eapply kept_trans|]. cbn [contents]. rewrite (proj2 (answer_union _ _ key (map_disjoint_sym _ _ Hdis) (Hother false t0 P0 ltac:(done)))).
        destruct Hres as [->|[[-> Hx]|Hx]]; [by left|right; left|by right; right]. split; [done|]. intros E. apply Hx. by apply Hs2.
      * destruct (IH0 _ steps l0 s2 Hu0 P0 Hpre ltac:(rewrite !length_app; cbn; lia) Hch0 Hc2) as (a & s3 & Ha & Hs3 & Hres). rewrite !length_app, Nat.add_1_r in Ha.
        exists a, s3. split; [exact Ha|]. split; [by eapply kept_trans|]. cbn [contents]. rewrite (proj1 (answer_union _ _ key Hdis (Hother true t1 P1 ltac:(done)))).
        destruct Hres as [->|[[-> Hx]|Hx]]; [by left|right; left|by right; right]. split; [done|]. intros E. apply Hx. by apply Hs2.
    + exists (inr None), s2. split; [done|]. split; [done|]. left. symmetry. apply answer_none.
      apply (no_hash (p ++ sk)); [|rewrite Esk; apply (not_prefix_part p c x sc'); by rewrite Hr, Er].
      intros k Hk. apply (placed_prefix _ (Branch sk t0 t1) k Hp) in Hk as Hk'. cbn [placed] in Hp. destruct Hp as [P0 P1]. fold (keys (Branch sk t0 t1)) in Hk. rewrite keys_branch in Hk.
      apply elem_of_union in Hk as [Hk|Hk]; [apply (placed_prefix _ _ _ P0) in Hk|apply (placed_prefix _ _ _ P1) in Hk]; rewrite app_assoc in Hk; (etrans; [by apply prefix_app_r|exact Hk]).
Qed.

End Answers.

Section Txn.
Context {KH : KeyHash} {Or : MapOrder} (d : disk) (U : tree -> Prop) (HU : universe U).

(** The state after a call that only reads. *)
Definition same_pages (s s' : txn) : Prop := kept (clean d U) s s'.

Lemma same_pages_trans s s' s'' : same_pages s s' -> same_pages s' s'' -> same_pages s s''.
Proof. apply kept_trans. Qed.

Lemma ctx_cases s : clean d U s -> (ctx_Err s = (inl ErrCtx, s) /\ ctx s <> None) \/ (exists s', ctx_Err s = (inr tt, s') /\ same_pages s s').
Proof.
  intros Hc. unfold ctx_Err. destruct (ctx s) as [[|n]|] eqn:E; [left; done|right|right]; eexists; (split; [reflexivity|]); [|done].
  split; [exact Hc|]. split; [done|]. by rewrite E.
Qed.

Lemma clean_reading pend : reading d U (rep d pend) (clean d U) (fun _ => False) pend.
Proof.
  split; [apply (u_sub _ HU)|apply (u_nonzero _ HU)|exact ctx_cases|]. intros t loc s Hu Hr Hc.
  destruct (nodeAt_found d U HU false pend t loc s Hu Hr Hc) as (n & own & s' & E & (l0 & l1 & -> & _ & Hch) & Hc' & Hp & Hx).
  exists s'. split; [split; [done|]; split; [done|by rewrite Hx]|]. right. exists l0, l1, own. split; [exact E|]. destruct t; [done|]. destruct Hch as [[_ H0] [_ H1]]. done.
Qed.

Lemma lookup_loop_spec pend key t p steps loc s : U t -> placed p t -> p `prefix_of` kbits key -> (257 <= steps + length p)%nat ->
  rep d pend loc t -> clean d U s ->
  exists r s', lookup_loop d steps pend (hashKey key) key (root t) loc (length p) s = (r, s') /\ same_pages s s' /\
    (r = answer (contents t) key \/ (r = inl ErrCtx /\ ctx s <> None)).
Proof.
  intros Hu Hp Hk Hst Hr Hc. destruct (lookup_loop_reads d _ _ _ _ _ (clean_reading pend) key t p steps loc s Hu Hp Hk Hst Hr Hc) as (r & s' & H1 & H2 & [->|[H|(e & _ & [])]]);
    eexists _, s'; (split; [exact H1|]); (split; [done|]); [by left|by right].
Qed.

(** ** Pages written and dropped *)

(** The pages that differ are those of trees all of whose keys lie below [p]. *)
Definition within (p : list bool) (a b : gmap radixHash radixNode) : Prop :=
  forall h, b !! h <> a !! h -> exists x, U x /\ h = root x /\ forall k, k ∈ keys x -> p `prefix_of` kbits k.

(** The pages that differ are those of trees with a key that does not lie below [q]. *)
Definition outside (q : list bool) (a b : gmap radixHash radixNode) : Prop :=
  forall h, b !! h <> a !! h -> exists x k, U x /\ h = root x /\ k ∈ keys x /\ ~ q `prefix_of` kbits k.

Lemma within_refl p a : within p a a.
Proof. by intros h. Qed.

Lemma lookup_moves {A} `{EqDecision A} (m1 m2 m3 : gmap radixHash A) h : m3 !! h <> m1 !! h -> m2 !! h <> m1 !! h \/ m3 !! h <> m2 !! h.
Proof. intros H. destruct (decide (m2 !! h = m1 !! h)) as [E|E]; [right; congruence|by left]. Qed.

Lemma within_trans p a b c : within p a b -> within p b c -> within p a c.
Proof. intros H1 H2 h [H|H]%(lookup_moves a b c); [by apply H1|by apply H2]. Qed.

Lemma outside_trans p a b c : outside p a b -> outside p b c -> outside p a c.
Proof. intros H1 H2 h [H|H]%(lookup_moves a b c); [by apply H1|by apply H2]. Qed.

Lemma within_weaken p q a b : p `prefix_of` q -> within q a b -> within p a b.
Proof. intros Hp H h Hh. destruct (H h Hh) as (x & Hu & -> & Hk). exists x. split; [done|]. split; [done|]. intros k Hin. etrans; [exact Hp|by apply Hk]. Qed.

(** Two sides of a fork. *)
Lemma within_outside p b a c : within (p ++ [b]) a c -> outside (p ++ [negb b]) a c.
Proof.
  intros H h Hh. destruct (H h Hh) as (x & Hu & -> & Hk). destruct (some_key x) as [k Hin]. exists x, k. split; [done|]. split; [done|]. split; [done|].
  intros Hp. pose proof (apart _ _ _ _ (Hk k Hin) Hp) as E. by destruct b.
Qed.

Lemma touch_within p x a n : U x -> (forall k, k ∈ keys x -> p `prefix_of` kbits k) -> within p a (<[root x := n]> a) /\ within p a (delete (root x) a).
Proof.
  intros Hu Hp. split; intros h Hh; (destruct (decide (h = root x)) as [->|Hne]; [|exfalso; apply Hh; by rewrite ?lookup_insert_ne, ?lookup_delete_ne by done]);
    by exists x.
Qed.

Lemma touch_outside q x a n k : U x -> k ∈ keys x -> ~ q `prefix_of` kbits k -> outside q a (<[root x := n]> a) /\ outside q a (delete (root x) a).
Proof.
  intros Hu Hk Hn. split; intros h Hh; (destruct (decide (h = root x)) as [->|Hne]; [|exfalso; apply Hh; by rewrite ?lookup_insert_ne, ?lookup_delete_ne by done]);
    exists x, k; done.
Qed.

Lemma within_ins p x a n : U x -> placed p x -> within p a (<[root x := n]> a).
Proof. intros Hu Hp. apply touch_within; [done|]. intros k. by apply placed_prefix. Qed.

Lemma within_del p x a : U x -> placed p x -> within p a (delete (root x) a).
Proof. intros Hu Hp. apply (touch_within p x a (node x noLoc noLoc)); [done|]. intros k. by apply placed_prefix. Qed.

Lemma outside_ins q x a n k : U x -> k ∈ keys x -> ~ q `prefix_of` kbits k -> outside q a (<[root x := n]> a).
Proof. intros Hu Hk Hn. by apply (touch_outside q x a n k). Qed.

Lemma outside_del q x a k : U x -> k ∈ keys x -> ~ q `prefix_of` kbits k -> outside q a (delete (root x) a).
Proof. intros Hu Hk Hn. by apply (touch_outside q x a (node x noLoc noLoc) k). Qed.

(** Pages elsewhere leave a subtree alone. *)
Lemma root_outside q s a b : U s -> placed q s -> outside q a b -> b !! root s = a !! root s.
Proof.
  intros Hu Hp Ho. destruct (decide (b !! root s = a !! root s)) as [E|E]; [done|]. destruct (Ho _ E) as (x & k & Hx & He & Hk & Hn).
  apply (u_inj _ HU) in He as <-; [|done|done]. destruct Hn. by eapply placed_prefix.
Qed.

Lemma outside_deeper q r a b : outside q a b -> outside (q ++ r) a b.
Proof. intros H h Hh. destruct (H h Hh) as (x & k & Hu & -> & Hk & Hn). exists x, k. split; [done|]. split; [done|]. split; [done|]. intros Hp. apply Hn. etrans; [by apply prefix_app_r|exact Hp]. Qed.

Lemma child_outside s : forall q a b l, U s -> placed q s -> outside q a b -> child d a l s -> child d b l s.
Proof.
  induction s as [k v|sk t0 IH0 t1 IH1]; intros q a b l Hu Hp Ho [Hv Hr]; pose proof (root_outside q _ a b Hu Hp Ho) as E;
    (split; [unfold held in *; by rewrite E|]); destruct Hr as (l0 & l1 & own & Hs & Hch); exists l0, l1, own; (split; [unfold source; rewrite E; exact Hs|]); [done|].
  pose proof (u_sub _ HU _ _ _ Hu) as [Hu0 Hu1]. cbn [placed] in Hp. destruct Hp as [P0 P1], Hch as [H0 H1].
  split; [apply (IH0 _ a b l0 Hu0 P0); [by apply outside_deeper|exact H0]|apply (IH1 _ a b l1 Hu1 P1); [by apply outside_deeper|exact H1]].
Qed.

(** A page just held. *)
Lemma held_leaf a l k v : committed d l (Leaf k v) \/ valid l = false -> a !! root (Leaf k v) = Some (node (Leaf k v) noLoc noLoc) -> child d a l (Leaf k v).
Proof. intros Hl H. split; [destruct Hl; [by left|right; split; [done|by eexists]]|]. exists noLoc, noLoc, noLoc. split; [by left|done]. Qed.

Lemma held_branch a l sk t0 t1 l0 l1 : committed d l (Branch sk t0 t1) \/ valid l = false -> a !! root (Branch sk t0 t1) = Some (node (Branch sk t0 t1) l0 l1) -> child d a l0 t0 -> child d a l1 t1 -> child d a l (Branch sk t0 t1).
Proof. intros Hl H H0 H1. split; [destruct Hl; [by left|right; split; [done|by eexists]]|]. exists l0, l1, noLoc. split; [by left|done]. Qed.

Lemma putUvarint_max n x : (length (putUvarint n x) <= S n)%nat.
Proof. revert x. induction n as [|n IH]; intros x; cbn [putUvarint]; [done|]. destruct (_ <=? _); cbn [length]; [|lia]. specialize (IH (Z.shiftr x 7)). lia. Qed.

Lemma writeLeaf_spec k v s : leaf_ok k v ->
  writeLeaf (hashKey k) k v s = (inr (root (Leaf k v)), set_pending (<[root (Leaf k v) := node (Leaf k v) noLoc noLoc]> (pending s)) s).
Proof.
  intros [Hk Hv]. unfold key_ok in Hk. apply andb_true_iff in Hk as [_ Hk]. apply negb_true_iff in Hk. rewrite Z.gtb_ltb, Z.ltb_ge in Hk.
  unfold writeLeaf, hold. rewrite Z.gtb_ltb, (proj2 (Z.ltb_ge _ _)); [done|]. unfold encodeRadixLeaf. rewrite !length_app, hashKey_length.
  pose proof (putUvarint_max 9 (Z.of_nat (length k))). pose proof (putUvarint_max 9 (Z.of_nat (length v))).
  change (length radixMagic) with 4%nat. change (length [radixVersion; radixKindLeaf]) with 2%nat. unfold radixMaxPageBytes, radixHashBytes. lia.
Qed.

Lemma writeBranch_spec sk t0 t1 l0 l1 s : (length sk <= 256)%nat -> U t0 -> U t1 ->
  writeBranch (length sk) (packed sk) (root t0) l0 (root t1) l1 s =
  (inr (root (Branch sk t0 t1)), set_pending (<[root (Branch sk t0 t1) := node (Branch sk t0 t1) l0 l1]> (pending s)) s).
Proof.
  intros Hl H0 H1. pose proof (u_nonzero _ HU _ H0) as N0. pose proof (u_nonzero _ HU _ H1) as N1. unfold writeBranch. change radixHashBits with 256%nat.
  rewrite (proj2 (Nat.ltb_ge 256 _)) by lia. unfold isZero. rewrite !bool_decide_eq_false_2 by done. cbn [orb].
  change (encodeRadixBranch (length sk) (packed sk) (root t0) (root t1)) with (page (Branch sk t0 t1)). unfold mbind, M_bind, lift. rewrite decode_branch by done. cbn [node set_locs].
  unfold hold. rewrite Z.gtb_ltb, (proj2 (Z.ltb_ge _ _)); [done|]. cbn [page]. fold (root t0) (root t1). unfold encodeRadixBranch. rewrite resize_id by apply packed_length.
  rewrite !length_app, be_put_length, packed_length, !root_length. pose proof (packed_size (length sk)).
  change (length radixMagic) with 4%nat. change (length [radixVersion; radixKindBranch]) with 2%nat. unfold radixMaxPageBytes, radixMaxKeyBytes, radixMaxValueBytes. lia.
Qed.

(** ** Update *)

Lemma lcp_parts c x s s' : lcp (c ++ x :: s) (c ++ negb x :: s') = c.
Proof. induction c as [|y c IH]; cbn [app lcp]; [by destruct x|]. by rewrite Bool.eqb_reflx, IH. Qed.

Lemma join_keys c b k v o : keys (join c b k v o) = {[k]} ∪ keys o.
Proof. unfold join. destruct b; rewrite keys_branch, keys_leaf; [by rewrite (comm_L (∪))|done]. Qed.

Lemma join_sub c b k v o : U (join c b k v o) -> U (Leaf k v) /\ U o.
Proof. unfold join. destruct b; intros H%(u_sub _ HU); naive_solver. Qed.

Lemma clean_pending p s : clean d U s -> clean d U (set_pending p s).
Proof. done. Qed.

(** A new leaf beside a subtree. *)
Lemma split_spec p c x r k v o l s : leaf_ok k v -> kbits k = p ++ c ++ negb x :: r -> placed (p ++ c ++ [x]) o ->
  let t := join c (bitAt (hashKey k) (length p + length c)) k v o in
  U t -> child d (pending s) l o ->
  exists a, split (length p) (length p + length c) (hashKey k) k v (root o) l s = (inr (root t), set_pending a s) /\ within p (pending s) a /\ child d a noLoc t.
Proof.
  intros Hok Hk Ho t Hu Hch. pose proof (kbits_length k) as Lk. rewrite Hk, !length_app in Lk. cbn [length] in Lk.
  assert (placed p t) as Hp by (apply (placed_join p c k v o r (negb x)); [done|done|by rewrite negb_involutive]). destruct (join_sub _ _ _ _ _ Hu) as [Hul Huo].
  assert (bitAt (hashKey k) (length p + length c) = negb x) as Hb by (rewrite <- length_app; apply (kbits_at k _ (negb x) r); by rewrite <- app_assoc).
  assert (packBits (hashKey k) (length p) (length p + length c - length p) = packed c) as Hsk.
  { rewrite packBits_packed by (rewrite hash_bits; lia). f_equal. rewrite (bits_from k p (c ++ negb x :: r) Hk). by rewrite take_app_n by lia. }
  set (tl := Leaf k v) in *. set (a1 := <[root tl := node tl noLoc noLoc]> (pending s)).
  assert (~ p ++ c ++ [x] `prefix_of` kbits k) as Hno by (apply (not_prefix_part p c x r); done).
  assert (p ++ c ++ [negb x] `prefix_of` kbits k) as Hyes by (rewrite app_assoc; apply (prefix_mid _ _ r); by rewrite Hk, app_assoc).
  assert (placed p tl) as Hpl by (split; [done|]; exists (c ++ negb x :: r); done).
  assert (k ∈ keys tl /\ k ∈ keys t) as [Kl Kt] by (unfold tl, t; rewrite join_keys, keys_leaf; set_solver).
  pose proof (touch_outside (p ++ c ++ [x]) tl (pending s) (node tl noLoc noLoc) k Hul Kl Hno) as [O1 _]. fold a1 in O1.
  pose proof (child_outside o _ _ _ l Huo Ho O1 Hch) as Hch1. pose proof (within_ins p tl (pending s) (node tl noLoc noLoc) Hul Hpl) as W1. fold a1 in W1.
  unfold split, mbind, M_bind. rewrite writeLeaf_spec, Hb by done. fold tl a1. subst t. unfold join in *. rewrite Hb in *. rewrite Hsk.
  replace (length p + length c - length p)%nat with (length c) by lia.
  assert (forall u, root u = root tl -> U u -> u = tl) as Hself by (intros u E Huu; by apply (u_inj _ HU)).
  destruct x; cbn [negb] in *; rewrite writeBranch_spec by (done || lia); cbn [pending set_pending].
  - set (t := Branch c tl o) in *. exists (<[root t := node t noLoc l]> a1). split; [done|]. pose proof (within_ins p t a1 (node t noLoc l) Hu Hp) as W2.
    split; [by eapply within_trans|]. apply (held_branch _ _ _ _ _ noLoc l); [by right|by rewrite lookup_insert_eq| |].
    + apply held_leaf; [by right|]. rewrite lookup_insert_ne; [unfold a1; by rewrite lookup_insert_eq|]. intros E. apply Hself in E; [|done]. done.
    + destruct (touch_outside (p ++ c ++ [true]) t a1 (node t noLoc l) k Hu Kt Hno) as [O2 _]. by apply (child_outside o _ a1 _ l Huo Ho O2).
  - set (t := Branch c o tl) in *. exists (<[root t := node t l noLoc]> a1). split; [done|]. pose proof (within_ins p t a1 (node t l noLoc) Hu Hp) as W2.
    split; [by eapply within_trans|]. apply (held_branch _ _ _ _ _ l noLoc); [by right|by rewrite lookup_insert_eq| |].
    + destruct (touch_outside (p ++ c ++ [false]) t a1 (node t l noLoc) k Hu Kt Hno) as [O2 _]. by apply (child_outside o _ a1 _ l Huo Ho O2).
    + apply held_leaf; [by right|]. rewrite lookup_insert_ne; [unfold a1; by rewrite lookup_insert_eq|]. intros E. apply Hself in E; [|done]. done.
Qed.

(** The decision on a key, with what the index makes of it. *)
Definition decision (f : radixDecide) (old : option bytes) : radix_error + option bytes :=
  match f old with
  | inl e => inl (ErrDecide e)
  | inr None => inr None
  | inr (Some v) => if Z.of_nat (length v) >? radixMaxValueBytes then inl ErrTooLarge else inr (Some v)
  end.

Definition plan (m : gmap bytes bytes) (key : bytes) (f : radixDecide) : radix_error + option bytes :=
  match answer m key with inl e => inl e | inr old => decision f old end.

Lemma decideChecked_eq f old s : decideChecked f old s = (decision f old, s).
Proof. unfold decideChecked, decision. destruct (f old) as [|[v|]]; [done| |done]. by destruct (_ >? _). Qed.

Lemma plan_value m key f v : plan m key f = inr (Some v) -> Z.of_nat (length v) <= radixMaxValueBytes.
Proof.
  unfold plan, decision. destruct (answer m key) as [|old]; [done|]. destruct (f old) as [|[w|]]; [done| |done]. destruct (Z.gtb_spec (Z.of_nat (length w)) radixMaxValueBytes); [done|].
  by intros [= <-].
Qed.

(** No page lies as deep as a digest is long: [insertAt] and [mergeAt] refuse to go there. *)
Fixpoint shallow (n : nat) (t : tree) : Prop :=
  (n < 256)%nat /\ match t with Leaf _ _ => True | Branch sk t0 t1 => shallow (S (n + length sk)) t0 /\ shallow (S (n + length sk)) t1 end.

(** What a write below [p] leaves: the new subtree in the place of the old. *)
Definition wrote (p : list bool) (t t' : tree) (s : txn) (own : radixLoc) (s' : txn) : Prop :=
  clean d U s' /\ (ctx s = None -> ctx s' = None) /\ within p (pending s) (pending s') /\ child d (pending s') own t' /\
  (t' = t -> forall l, child d (pending s) l t -> child d (pending s') l t) /\ (t' = t \/ own = noLoc).

Definition inserted (p : list bool) (k : bytes) (f : radixDecide) (t : tree) (s : txn) (r : radix_error + radixHash * radixLoc) (s' : txn) : Prop :=
  (r = inl ErrCtx /\ ctx s <> None /\ same_pages s s') \/
  match plan (contents t) k f with
  | inl e => r = inl e /\ same_pages s s'
  | inr None => exists own, r = inr (root t, own) /\ same_pages s s' /\ child d (pending s) own t
  | inr (Some v) => exists own, r = inr (root (tput (length p) k v t), own) /\ wrote p t (tput (length p) k v t) s own s'
  end.

Lemma inserted_from p k f t s s1 r s' : same_pages s s1 -> inserted p k f t s1 r s' -> inserted p k f t s r s'.
Proof.
  intros (H1 & H2 & H3) [(-> & Hx & Hs)|H]; [left; split; [done|]; split; [intros E; by apply Hx, H3|by eapply same_pages_trans]|right].
  destruct (plan _ _ _) as [e|[v|]].
  - destruct H as [-> H]. split; [done|]. by eapply same_pages_trans.
  - destruct H as (own & -> & (W1 & W2 & W3 & W4 & W5 & W6)). exists own. split; [done|]. split; [done|]. split; [auto|]. rewrite <- H2. done.
  - destruct H as (own & -> & Hs & Hc). exists own. split; [done|]. split; [by eapply same_pages_trans|]. by rewrite <- H2.
Qed.

Lemma insert_leaf p k f k' v' own s : key_ok k = true -> placed p (Leaf k' v') -> p `prefix_of` kbits k -> U (Leaf k' v') ->
  (forall v, plan (contents (Leaf k' v')) k f = inr (Some v) -> U (tput (length p) k v (Leaf k' v'))) -> clean d U s -> child d (pending s) own (Leaf k' v') ->
  let '(r, s') := (if negb (bitsEqual (hashKey k') (hashKey k) 0 (length p)) then fail ErrUnavailable
    else if bool_decide (hashKey k' = hashKey k) then
      if negb (bool_decide (k' = k)) then fail ErrCollision
      else w ← decideChecked f (Some v'); match w with None => mret (root (Leaf k' v'), own) | Some value => drop_ (root (Leaf k' v'));; h ← writeLeaf (hashKey k) k value; mret (h, noLoc) end
    else
      let q := firstDiffBit (hashKey k') (hashKey k) (length p) in
      if (q <? length p)%nat || (radixHashBits <=? q)%nat then fail ErrUnavailable
      else w ← decideChecked f None; match w with None => mret (root (Leaf k' v'), own) | Some value => h ← split (length p) q (hashKey k) k value (root (Leaf k' v')) own; mret (h, noLoc) end) s in
  inserted p k f (Leaf k' v') s r s'.
Proof.
  intros Hkey Hp [r Hr] Hu Hut Hc Hch. set (t := Leaf k' v') in *. pose proof (placed_depth _ _ Hp) as Hd. pose proof Hp as [Hok' [r' Hr']].
  rewrite bitsEqual_spec by (rewrite hash_bits; lia). fold (kbits k) (kbits k'). rewrite Hr, Hr', !take_app_length, bool_decide_eq_true_2 by done. cbn [negb].
  assert (same_pages s s) as Hss by done. case_bool_decide as He; [case_bool_decide as Hk|].
  - subst k'. cbn [negb]. unfold mbind, M_bind. rewrite decideChecked_eq. assert (plan (contents t) k f = decision f (Some v')) as Hpl by (unfold plan, answer, t; cbn [contents]; by rewrite lookup_singleton_eq).
    unfold inserted. rewrite Hpl. destruct (decision f (Some v')) as [e|[v|]] eqn:Ed; [by right| |right; by exists own]. unfold drop_, modify. rewrite writeLeaf_spec.
    2: { split; [done|]. apply (plan_value (contents t) k f). by rewrite Hpl. }
    specialize (Hut v Hpl). cbn [tput] in *. unfold t in Hut |- *. cbn [tput] in *. destruct (decide (k = k)) as [_|]; [|done]. right. exists noLoc. split; [done|]. fold t.
    set (t' := Leaf k v) in *. assert (placed p t') as Hp' by (split; [split; [done|apply (plan_value (contents t) k f); by rewrite Hpl]|by exists r]).
    split; [done|]. split; [done|]. cbn [pending set_pending]. split.
    + eapply within_trans; [by apply (within_del p t)|by apply (within_ins p t')].
    + split; [apply held_leaf; [by right|by rewrite lookup_insert_eq]|]. split; [|by right]. intros E l [Hl _]. unfold t, t' in E. injection E as ->. apply held_leaf; [naive_solver|apply lookup_insert_eq].
  - cbn [negb]. right. unfold plan, answer, t. cbn [contents]. rewrite lookup_singleton_ne by done. assert (collides {[k' := v']} k = true) as ->; [|done].
    apply collides_spec. exists k'. split; [set_solver|done].
  - assert (plan (contents t) k f = decision f None) as Hpl.
    { unfold plan. rewrite answer_none; [done|]. unfold t. cbn [contents]. intros x Hx. rewrite dom_singleton_L in Hx. by apply elem_of_singleton in Hx as ->. }
    destruct (first_diff_spec k k' p r r' Hr Hr' He) as (c & x & y & y' & Er' & Er & Hq). cbv zeta. rewrite Hq.
    pose proof (kbits_length k) as Lk. rewrite Hr, Er, !length_app in Lk. cbn [length] in Lk. change radixHashBits with 256%nat.
    rewrite (proj2 (Nat.ltb_ge _ (length p))), (proj2 (Nat.leb_gt 256 _)) by lia. cbn [orb]. unfold mbind, M_bind. rewrite decideChecked_eq. unfold inserted. rewrite Hpl.
    destruct (decision f None) as [e|[v|]] eqn:Ed; [by right| |right; by exists own]. specialize (Hut v Hpl). assert (k <> k') as Hkk by congruence.
    assert (tput (length p) k v t = join c (bitAt (hashKey k) (length p + length c)) k v t) as Ht.
    { unfold t. cbn [tput]. destruct (decide (k = k')) as [|_]; [done|]. rewrite (kbits_split _ _ _ Hr), (kbits_split _ _ _ Hr'), Er, Er', lcp_parts. done. }
    rewrite Ht in *. destruct (split_spec p c x y' k v t own s) as (a & -> & Hw & Hchild); [split; [done|apply (plan_value (contents t) k f); by rewrite Hpl]|by rewrite Hr, Er| |done|done|].
    { split; [done|]. exists y. rewrite Hr', Er'. by rewrite <- !app_assoc. }
    right. exists noLoc. split; [done|]. split; [done|]. split; [done|]. split; [done|]. split; [done|]. split; [|by right]. intros E. exfalso. unfold join, t in E. by destruct (bitAt _ _).
Qed.

(** The side of a branch a key of the other side is not on. *)
Lemma other_side p sk (b : bool) u k : placed (p ++ sk ++ [b]) u -> k ∈ keys u -> ~ p ++ sk ++ [negb b] `prefix_of` kbits k.
Proof. intros Hp Hk Hn. apply (placed_prefix _ _ _ Hp) in Hk. rewrite app_assoc in Hk, Hn. pose proof (apart _ _ _ _ Hk Hn) as E. by destruct b. Qed.

(** Touching the page of a branch leaves its two subtrees alone. *)
Lemma fork_outside p sk t0 t1 x a n : placed p (Branch sk t0 t1) -> U x -> keys t0 ∪ keys t1 ⊆ keys x ->
  (outside (p ++ sk ++ [false]) a (<[root x := n]> a) /\ outside (p ++ sk ++ [true]) a (<[root x := n]> a)) /\
  (outside (p ++ sk ++ [false]) a (delete (root x) a) /\ outside (p ++ sk ++ [true]) a (delete (root x) a)).
Proof.
  cbn [placed]. intros [P0 P1] Hu Hk. destruct (some_key t0) as [k0 K0], (some_key t1) as [k1 K1].
  pose proof (other_side p sk false t0 k0 P0 K0) as N0. pose proof (other_side p sk true t1 k1 P1 K1) as N1. cbn [negb] in N0, N1.
  split; split; [apply (outside_ins _ x a n k1)|apply (outside_ins _ x a n k0)|apply (outside_del _ x a k1)|apply (outside_del _ x a k0)]; set_solver.
Qed.

Lemma insert_beside p sk t0 t1 c x sc sc' k v own l0 l1 s : leaf_ok k v -> let t := Branch sk t0 t1 in U t -> placed p t -> sk = c ++ x :: sc -> kbits k = p ++ c ++ negb x :: sc' ->
  let t' := join c (bitAt (hashKey k) (length p + length c)) k v (Branch sc t0 t1) in U t' -> clean d U s ->
  child d (pending s) own t -> child d (pending s) l0 t0 -> child d (pending s) l1 t1 ->
  let n := (length p + length sk - S (length p + length c))%nat in
  exists s', (rebased ← writeBranch n (packBits (packed sk) (S (length p + length c) - length p) n) (root t0) l0 (root t1) l1;
     drop_ (root t);; h ← split (length p) (length p + length c) (hashKey k) k v rebased noLoc; mret (h, noLoc)) s = (inr (root t', noLoc), s') /\ wrote p t t' s noLoc s'.
Proof.
  intros Hok t Hu Hp Hsk Hk t' Hu' Hc Hch H0 H1 n. set (o := Branch sc t0 t1) in *. destruct (join_sub _ _ _ _ _ Hu') as [_ Huo]. pose proof (u_sub _ HU _ _ _ Hu) as [Hu0 Hu1].
  pose proof (branch_depth _ _ _ _ Hp) as Hd. pose proof (f_equal length Hsk) as Ls. rewrite length_app in Ls. cbn [length] in Ls.
  assert (n = length sc) as -> by lia. replace (S (length p + length c) - length p)%nat with (S (length c)) by lia.
  assert (packBits (packed sk) (S (length c)) (length sc) = packed sc) as ->.
  { pose proof (packed_size (length sk)). rewrite packBits_packed by (rewrite packed_length; lia). f_equal.
    assert (take (length sc) (drop (S (length c)) (bits (packed sk))) = drop (S (length c)) (take (length sk) (bits (packed sk)))) as ->.
    { rewrite skipn_firstn_comm. f_equal. lia. }
    rewrite packed_bits, Hsk, cons_middle, app_assoc. apply drop_app_n. rewrite length_app. cbn. lia. }
  assert (placed (p ++ c ++ [x]) o) as Hpo.
  { pose proof Hp as [Q0 Q1]. rewrite Hsk in Q0, Q1. repeat rewrite <- app_assoc in Q0, Q1. cbn [app] in Q0, Q1. cbn [o placed]. repeat rewrite <- app_assoc. done. }
  set (a1 := <[root o := node o l0 l1]> (pending s)). set (a2 := delete (root t) a1). assert (root t <> root o) as Hto.
  { intros E. apply (u_inj _ HU) in E; [|done|done]. unfold t, o in E. injection E as E. rewrite Hsk in E. apply (f_equal length) in E. rewrite length_app in E. cbn in E. lia. }
  pose proof (fork_outside p sk t0 t1 o (pending s) (node o l0 l1) Hp Huo ltac:(unfold o; by rewrite keys_branch)) as [[O1 O2] _].
  pose proof (fork_outside p sk t0 t1 t a1 (node o l0 l1) Hp Hu ltac:(unfold t; by rewrite keys_branch)) as [_ [O3 O4]]. fold a1 in O1, O2. fold a2 in O3, O4.
  pose proof (outside_trans _ _ _ _ O1 O3) as Oa. pose proof (outside_trans _ _ _ _ O2 O4) as Ob. pose proof Hp as [P0 P1].
  pose proof (child_outside t0 _ _ _ l0 Hu0 P0 Oa H0) as C0. pose proof (child_outside t1 _ _ _ l1 Hu1 P1 Ob H1) as C1.
  assert (child d a2 noLoc o) as Co by (apply (held_branch _ _ _ _ _ l0 l1); [by right|unfold a2, a1; rewrite lookup_delete_ne by done; by rewrite lookup_insert_eq|done|done]).
  destruct (split_spec p c x sc' k v o noLoc (set_pending a2 s) Hok Hk Hpo Hu' Co) as (a & Hs & Hw & Hcc). cbn [pending set_pending] in Hw.
  exists (set_pending a s). unfold mbind, M_bind, drop_, modify. rewrite writeBranch_spec by (done || lia). fold o a1. cbn [pending set_pending]. fold a2.
  change (set_pending a2 (set_pending a1 s)) with (set_pending a2 s). rewrite Hs. split; [done|]. split; [done|]. split; [done|]. cbn [pending set_pending]. split.
  - assert (within p (pending s) a1) as W1.
    { apply (touch_within p o (pending s) (node o l0 l1) Huo). intros k' Hk'%(placed_prefix _ _ _ Hpo). etrans; [by apply prefix_app_r|exact Hk']. }
    eapply within_trans; [exact W1|]. eapply within_trans; [by apply (within_del p t a1)|done].
  - split; [done|]. split; [|by right]. intros E. exfalso. apply (f_equal contents) in E. unfold t' in E. destruct (placed_join p c k v o sc' (negb x) Hok Hk) as [_ Ej]; [by rewrite negb_involutive|].
    rewrite Ej in E. assert (contents t !! k = Some v) as Hin by (rewrite <- E; by rewrite lookup_insert_eq).
    assert (k ∈ keys t) as Hkt by (by eapply elem_of_dom_2). assert (p ++ sk `prefix_of` kbits k) as Hpk.
    { unfold t in Hkt. rewrite keys_branch in Hkt. apply elem_of_union in Hkt as [Hkt|Hkt]; [apply (placed_prefix _ _ _ P0) in Hkt|apply (placed_prefix _ _ _ P1) in Hkt];
        rewrite app_assoc in Hkt; (etrans; [by apply prefix_app_r|exact Hkt]). }
    rewrite Hsk in Hpk. by apply (not_prefix_part p c x sc' k Hk sc).
Qed.

(** A branch with the subtree [u] on side [b]. *)
Definition fork (b : bool) (sk : list bool) (u w : tree) : tree := if b then Branch sk w u else Branch sk u w.

Lemma fork_sub b sk u w : U (fork b sk u w) -> U u /\ U w.
Proof. destruct b; intros H%(u_sub _ HU); naive_solver. Qed.

Lemma fork_placed b sk u w p : placed p (fork b sk u w) <-> placed (p ++ sk ++ [b]) u /\ placed (p ++ sk ++ [negb b]) w.
Proof. destruct b; cbn [fork placed negb]; naive_solver. Qed.

Lemma fork_keys b sk u w : keys (fork b sk u w) = keys u ∪ keys w.
Proof. destruct b; cbn [fork]; rewrite keys_branch; [by rewrite (comm_L (∪))|done]. Qed.

Lemma fork_held b sk u w a l lu lw : committed d l (fork b sk u w) \/ valid l = false -> a !! root (fork b sk u w) = Some (node (fork b sk u w) (if b then lw else lu) (if b then lu else lw)) ->
  child d a lu u -> child d a lw w -> child d a l (fork b sk u w).
Proof. destruct b; cbn [fork]; intros Hl H Hu Hw; by eapply held_branch. Qed.

(** The page of a branch and its other side after a write on one side. *)
Lemma fork_kept b sk u w p a a' l : U (fork b sk u w) -> placed p (fork b sk u w) -> within (p ++ sk ++ [b]) a a' ->
  (forall l, child d a l u -> child d a' l u) -> child d a l (fork b sk u w) -> child d a' l (fork b sk u w).
Proof.
  intros Hu Hp Hw Hsub [Hv Hr]. set (t := fork b sk u w) in *. pose proof (proj1 (fork_placed b sk u w p) Hp) as [Pu Pw]. pose proof (fork_sub b sk u w Hu) as [Uu Uw].
  assert (outside (p ++ sk ++ [negb b]) a a') as Ho by (rewrite app_assoc in *; by apply within_outside). assert (a' !! root t = a !! root t) as E.
  { destruct (decide (a' !! root t = a !! root t)) as [|Hne]; [done|]. destruct (Hw _ Hne) as (x & Hx & He & Hk). apply (u_inj _ HU) in He as <-; [|done|done].
    destruct (some_key w) as [kw Kw]. exfalso. apply (other_side p sk (negb b) w kw Pw Kw). rewrite negb_involutive. apply Hk. unfold t. rewrite fork_keys. set_solver. }
  split; [unfold held in *; by rewrite E|]. unfold t in *. destruct b; cbn [fork] in *; destruct Hr as (l0 & l1 & own & Hs & [H0 H1]); exists l0, l1, own;
    (split; [unfold source; rewrite E; exact Hs|]); split.
  - by apply (child_outside w _ a a' l0 Uw Pw Ho).
  - by apply Hsub.
  - by apply Hsub.
  - by apply (child_outside w _ a a' l1 Uw Pw Ho).
Qed.

Lemma insert_below p b sk u u' w own lw newLoc s s' :
  U (fork b sk u w) -> U (fork b sk u' w) -> placed p (fork b sk u w) -> placed (p ++ sk ++ [b]) u' ->
  wrote (p ++ sk ++ [b]) u u' s newLoc s' -> child d (pending s) own (fork b sk u w) -> child d (pending s) lw w ->
  exists own' s'', (if bool_decide (root u' = root u) then mret (root (fork b sk u w), own)
    else let '(c0, l0, c1, l1) := if b then (root w, lw, root u', newLoc) else (root u', newLoc, root w, lw) in
      drop_ (root (fork b sk u w));; h ← writeBranch (length sk) (packed sk) c0 l0 c1 l1; mret (h, noLoc)) s' = (inr (root (fork b sk u' w), own'), s'') /\
    wrote p (fork b sk u w) (fork b sk u' w) s own' s''.
Proof.
  intros Hu Hu' Hp Pu' (W1 & W2 & W3 & W4 & W5 & W6) Hown Hlw. pose proof (proj1 (fork_placed b sk u w p) Hp) as [Pu Pw]. pose proof (fork_sub b sk u w Hu) as [Uu Uw].
  pose proof (fork_sub b sk u' w Hu') as [Uu' _]. set (t := fork b sk u w) in *. set (t' := fork b sk u' w) in *.
  assert (within p (pending s) (pending s')) as W3' by (eapply within_weaken; [|exact W3]; by apply prefix_app_r). case_bool_decide as He.
  - apply (u_inj _ HU) in He; [|done|done]. exists own, s'. assert (t' = t) as Et by (unfold t, t'; by rewrite He). rewrite Et. split; [done|].
    assert (forall l, child d (pending s) l t -> child d (pending s') l t) as Hk by (intros l; apply (fork_kept b sk u w p); [done|done|done|by apply W5]).
    split; [done|]. split; [done|]. split; [done|]. split; [by apply Hk|]. split; [|by left]. intros _. exact Hk.
  - set (a1 := delete (root t) (pending s')). set (a2 := <[root t' := node t' (if b then lw else newLoc) (if b then newLoc else lw)]> a1).
    assert (length sk <= 256)%nat as Hsk by (destruct b; cbn [fork] in *; pose proof (branch_depth _ _ _ _ Hp); lia).
    assert (placed p t') as Pt' by (by apply fork_placed). destruct (some_key u) as [ku Ku], (some_key w) as [kw Kw], (some_key u') as [ku' Ku'].
    assert (outside (p ++ sk ++ [negb b]) (pending s) (pending s')) as O0 by (rewrite app_assoc in *; by apply within_outside).
    pose proof (other_side p sk (negb b) w kw Pw Kw) as Nw. rewrite negb_involutive in Nw. pose proof (other_side p sk b u ku Pu Ku) as Nu. pose proof (other_side p sk b u' ku' Pu' Ku') as Nu'.
    assert (kw ∈ keys t /\ ku ∈ keys t /\ kw ∈ keys t' /\ ku' ∈ keys t') as (K1 & K2 & K3 & K4) by (unfold t, t'; rewrite !fork_keys; set_solver).
    assert (child d a2 newLoc u') as Cu'.
    { apply (child_outside u' (p ++ sk ++ [b]) (pending s')); [done|done| |done]. eapply outside_trans; [by apply (outside_del _ t _ kw)|by apply (outside_ins _ t' _ _ kw)]. }
    assert (child d a2 lw w) as Cw.
    { apply (child_outside w (p ++ sk ++ [negb b]) (pending s)); [done|done| |done]. eapply outside_trans; [exact O0|]. eapply outside_trans; [by apply (outside_del _ t _ ku)|by apply (outside_ins _ t' _ _ ku')]. }
    exists noLoc, (set_pending a2 s'). unfold mbind, M_bind, drop_, modify. split.
    { subst a2 a1 t t'. destruct b; cbn [fork] in *; rewrite writeBranch_spec by done; done. }
    split; [done|]. split; [done|]. cbn [pending set_pending]. split; [|split].
    + eapply within_trans; [exact W3'|]. eapply within_trans; [by apply (within_del p t)|by apply (within_ins p t')].
    + apply (fork_held b sk u' w a2 noLoc newLoc lw); [by right|unfold a2; by rewrite lookup_insert_eq|done|done].
    + split; [|by right]. intros E. exfalso. apply He. unfold t, t' in E. f_equal. destruct b; cbn [fork] in E; by injection E.
Qed.

Lemma plan_union m m' k f : m ##ₘ m' -> (forall x, x ∈ dom m' -> hashKey x <> hashKey k) -> plan (m ∪ m') k f = plan m k f /\ plan (m' ∪ m) k f = plan m k f.
Proof. intros Hd Hn. unfold plan. destruct (answer_union m m' k Hd Hn) as [-> ->]. done. Qed.

Lemma plan_collision m k f v : plan m k f = inr (Some v) -> m !! k = None -> collision_free k m.
Proof.
  unfold plan, answer. intros H Hn k' Hk' Hne He. rewrite Hn in H. assert (collides m k = true) as E by (apply collides_spec; by exists k'). by rewrite E in H.
Qed.

(** No two keys of a tree have one digest. *)
Lemma placed_hash t : forall p k k', placed p t -> k ∈ keys t -> k' ∈ keys t -> hashKey k = hashKey k' -> k = k'.
Proof.
  induction t as [x v|sk t0 IH0 t1 IH1]; intros p k k' Hp Hk Hk' He.
  - rewrite keys_leaf in Hk, Hk'. set_solver.
  - cbn [placed] in Hp. destruct Hp as [P0 P1]. rewrite keys_branch in Hk, Hk'.
    assert (forall b u w x y, placed (p ++ sk ++ [b]) u -> placed (p ++ sk ++ [negb b]) w -> x ∈ keys u -> y ∈ keys w -> hashKey x = hashKey y -> False) as Hno.
    { intros b u w x y Pu Pw Hx Hy Exy. apply (other_side p sk (negb b) w y Pw Hy). rewrite negb_involutive. unfold kbits. rewrite <- Exy. by apply (placed_prefix _ _ _ Pu). }
    apply elem_of_union in Hk as [Hk|Hk], Hk' as [Hk'|Hk'].
    + by apply (IH0 _ _ _ P0).
    + by destruct (Hno false t0 t1 k k').
    + by destruct (Hno true t1 t0 k k').
    + by apply (IH1 _ _ _ P1).
Qed.

Lemma plan_free p t k f v : placed p t -> plan (contents t) k f = inr (Some v) -> collision_free k (contents t).
Proof.
  intros Hp Hpl. destruct (contents t !! k) as [w|] eqn:E; [|by apply (plan_collision _ k f v)]. intros k' Hk' Hne He. apply Hne.
  apply (placed_hash t p); [done|exact Hk'|by eapply elem_of_dom_2|done].
Qed.

Lemma tput_fork n k v b sk u w : lcp sk (drop n (kbits k)) = sk -> bitAt (hashKey k) (n + length sk) = b ->
  tput n k v (fork b sk u w) = fork b sk (tput (S (n + length sk)) k v u) w.
Proof. intros Hl Hb. destruct b; cbn [fork tput]; rewrite Hl, decide_True, Hb by done; done. Qed.

Lemma fork_plan p b sk u w k f : placed p (fork b sk u w) -> p ++ sk ++ [b] `prefix_of` kbits k -> plan (contents (fork b sk u w)) k f = plan (contents u) k f.
Proof.
  intros [Pu Pw]%fork_placed Hpre. assert (forall x, x ∈ dom (contents w) -> hashKey x <> hashKey k) as Hother.
  { apply (no_hash (p ++ sk ++ [negb b])); [intros x; by apply placed_prefix|]. intros Hx. rewrite app_assoc in Hx, Hpre. pose proof (apart _ _ _ _ Hx Hpre) as E. by destruct b. }
  assert (contents u ##ₘ contents w) as Hd.
  { apply map_disjoint_dom_2. intros y Yu Yw. apply (placed_prefix _ _ _ Pu) in Yu. by apply (other_side p sk (negb b) w y Pw Yw); rewrite negb_involutive. }
  destruct (plan_union (contents u) (contents w) k f Hd Hother) as [E1 E2]. destruct b; [exact E2|exact E1].
Qed.

(** The descent into the side of a branch the key is on, given what it does there. *)
Lemma insert_matched p b sk u w k f own lw s (rec : M (radixHash * radixLoc)) : let t := fork b sk u w in
  key_ok k = true -> U t -> placed p t -> p ++ sk ++ [b] `prefix_of` kbits k -> lcp sk (drop (length p) (kbits k)) = sk -> bitAt (hashKey k) (length p + length sk) = b ->
  (forall v, plan (contents t) k f = inr (Some v) -> U (tput (length p) k v t)) -> child d (pending s) own t -> child d (pending s) lw w ->
  (exists r s', rec s = (r, s') /\ inserted (p ++ sk ++ [b]) k f u s r s') ->
  exists r s', ('(newChild, newLoc) ← rec;
    if bool_decide (newChild = root u) then mret (root t, own)
    else let '(c0, l0, c1, l1) := if b then (root w, lw, newChild, newLoc) else (newChild, newLoc, root w, lw) in
      drop_ (root t);; h ← writeBranch (length sk) (packed sk) c0 l0 c1 l1; mret (h, noLoc)) s = (r, s') /\ inserted p k f t s r s'.
Proof.
  intros t Hkey Hu Hp Hpre Hlcp Hb Hut Hown Cw (r1 & s3 & H1 & H2). pose proof (proj1 (fork_placed b sk u w p) Hp) as [Pu Pw].
  assert (length (p ++ sk ++ [b]) = S (length p + length sk)) as Lp by (rewrite !length_app; cbn; lia). pose proof (fork_plan p b sk u w k f Hp Hpre) as Hplan. fold t in Hplan.
  unfold mbind at 1, M_bind at 1. rewrite H1. destruct H2 as [(-> & Hx & Hs3)|H2]; [exists (inl ErrCtx), s3; split; [done|]; by left|].
  unfold inserted. rewrite Hplan. destruct (plan (contents u) k f) as [e|[v|]] eqn:Epl.
  - destruct H2 as [-> H2]. exists (inl e), s3. split; [done|]. by right.
  - destruct H2 as (ol & E & H2). rewrite Lp in E, H2. subst r1. set (u' := tput (S (length p + length sk)) k v u) in *.
    assert (placed (p ++ sk ++ [b]) u') as Pu'.
    { unfold u'. rewrite <- Lp. apply tput_spec; [split; [done|by apply (plan_value (contents u) k f)]|done|done|by apply (plan_free _ _ k f v Pu)]. }
    assert (tput (length p) k v t = fork b sk u' w) as Htp by (by apply tput_fork). pose proof (Hut v Hplan) as Hut'. rewrite Htp in Hut'.
    destruct (insert_below p b sk u u' w own lw ol s s3 Hu Hut' Hp Pu' H2 Hown Cw) as (own' & s4 & Hcode & Hw).
    exists (inr (root (fork b sk u' w), own')), s4. rewrite Htp. split; [exact Hcode|]. right. by exists own'.
  - destruct H2 as (ol & -> & H2 & _). exists (inr (root t, own)), s3. split; [by rewrite bool_decide_eq_true_2|]. right. by exists own.
Qed.

(** A key that leaves the prefix of a branch is not below it. *)
Lemma parted_plan p sk t0 t1 c x sc sc' k f : placed p (Branch sk t0 t1) -> sk = c ++ x :: sc -> kbits k = p ++ c ++ negb x :: sc' -> plan (contents (Branch sk t0 t1)) k f = decision f None.
Proof.
  intros [P0 P1] Esk Hk. unfold plan. rewrite answer_none; [done|]. apply (no_hash (p ++ sk)); [|rewrite Esk; by apply (not_prefix_part p c x sc')].
  intros y Hy. fold (keys (Branch sk t0 t1)) in Hy. rewrite keys_branch in Hy.
  apply elem_of_union in Hy as [Hy|Hy]; [apply (placed_prefix _ _ _ P0) in Hy|apply (placed_prefix _ _ _ P1) in Hy]; rewrite app_assoc in Hy; (etrans; [by apply prefix_app_r|exact Hy]).
Qed.

Lemma tput_parted n sk t0 t1 c x sc sc' k v : sk = c ++ x :: sc -> drop n (kbits k) = c ++ negb x :: sc' ->
  tput n k v (Branch sk t0 t1) = join c (bitAt (hashKey k) (n + length c)) k v (Branch sc t0 t1).
Proof.
  intros Esk Hk. cbn [tput]. rewrite Hk, Esk, lcp_parts, decide_False by (rewrite length_app; cbn; lia). do 2 f_equal. rewrite cons_middle, app_assoc. apply drop_app_n. rewrite length_app. cbn. lia.
Qed.

Lemma insertAt_spec k f t : key_ok k = true -> forall p fuel loc s, U t -> placed p t -> p `prefix_of` kbits k -> shallow (length p) t -> (257 <= fuel + length p)%nat ->
  (forall v, plan (contents t) k f = inr (Some v) -> U (tput (length p) k v t)) -> rep d (pending s) loc t -> clean d U s ->
  exists r s', insertAt d fuel (root t) loc (length p) (hashKey k) k f s = (r, s') /\ inserted p k f t s r s'.
Proof.
  intros Hkey. induction t as [k' v'|sk t0 IH0 t1 IH1]; intros p fuel loc s Hu Hp Hpk [Hlt Hsh] Hf Hut Hrep Hc; (destruct fuel as [|fuel]; [lia|]); cbn [insertAt].
  1,2: unfold mbind at 1, M_bind at 1; (destruct (ctx_cases s Hc) as [[-> Hctx]|(s1 & -> & Hs1)]; [exists (inl ErrCtx), s; split; [done|]; by left|]);
    change radixHashBits with 256%nat; rewrite (proj2 (Nat.leb_gt 256 _)) by done; unfold mbind at 1, M_bind at 1, gets; unfold mbind at 1, M_bind at 1, nodeAt;
    rewrite <- (proj1 (proj2 Hs1)) in Hrep;
    destruct (nodeAt_found d U HU false (pending s1) _ loc s1 Hu Hrep (proj1 Hs1)) as (n & own & s2 & -> & (l0 & l1 & -> & Hown & Hch) & Hc2 & Hp2 & Hx2);
    assert (same_pages s s2) as Hs2 by (destruct Hs1 as (H1 & H2 & H3); split; [done|]; split; [congruence|intros H; rewrite Hx2; auto]); rewrite <- Hp2 in Hown; try rewrite <- Hp2 in Hch; cbn [node].
  - pose proof (insert_leaf p k f k' v' own s2 Hkey Hp Hpk Hu Hut Hc2 Hown) as H. match type of H with let '(r, s') := ?X in _ => destruct X as [r s'] eqn:E end.
    exists r, s'. split; [exact E|]. by eapply inserted_from.
  - pose proof (branch_depth _ _ _ _ Hp) as Hb. pose proof Hpk as [r Hr]. pose proof (kbits_length k) as Lk. rewrite Hr, length_app in Lk. rewrite (proj2 (Nat.leb_gt 256 _)) by lia.
    pose proof (compare_spec k p r sk Hr ltac:(lia)) as Hcmp. destruct (comparePrefix _ _ _ _) as [q m]. destruct Hch as [Hch0 Hch1]. pose proof (u_sub _ HU _ _ _ Hu) as [Hu0 Hu1].
    destruct Hcmp as [(-> & -> & Hm)|(-> & c & x & sc & sc' & Esk & Er & ->)].
    + destruct (matched_bit k p r sk Hr ltac:(lia) Hm) as [z Hz]. pose proof (prefix_mid _ _ _ _ Hz) as Hpre. rewrite <- app_assoc in Hpre. pose proof Hp as [P0 P1]. destruct Hsh as [Hsh0 Hsh1].
      assert (lcp sk (drop (length p) (kbits k)) = sk) as Hlcp by (rewrite (kbits_split _ _ _ Hr); by apply lcp_full).
      assert (forall b, length (p ++ sk ++ [b]) = S (length p + length sk)) as Lp by (intros b; rewrite !length_app; cbn; lia).
      assert (forall b u w, Branch sk t0 t1 = fork b sk u w -> p ++ sk ++ [b] `prefix_of` kbits k -> bitAt (hashKey k) (length p + length sk) = b ->
        forall v, plan (contents u) k f = inr (Some v) -> U (tput (length (p ++ sk ++ [b])) k v u)) as Hsub.
      { intros b u w E Hb1 Hb2 v Hv. rewrite E in *. rewrite <- (fork_plan p b sk u w k f Hp Hb1) in Hv. specialize (Hut v Hv). rewrite (tput_fork _ _ _ b) in Hut by done. rewrite Lp. by apply fork_sub in Hut as []. }
      destruct (bitAt (hashKey k) (length p + length sk)) eqn:Eb; unfold isZero; rewrite bool_decide_eq_false_2 by (by apply (u_nonzero _ HU)).
      * destruct (insert_matched p true sk t1 t0 k f own l0 s2 (insertAt d fuel (root t1) l1 (S (length p + length sk)) (hashKey k) k f)) as (r' & s' & H1 & H2); try done.
        { rewrite <- (Lp true). apply IH1; try done; [by rewrite Lp|rewrite Lp; lia|by apply (Hsub true t1 t0)|apply Hch1]. }
        exists r', s'. split; [exact H1|]. by eapply inserted_from.
      * destruct (insert_matched p false sk t0 t1 k f own l1 s2 (insertAt d fuel (root t0) l0 (S (length p + length sk)) (hashKey k) k f)) as (r' & s' & H1 & H2); try done.
        { rewrite <- (Lp false). apply IH0; try done; [by rewrite Lp|rewrite Lp; lia|by apply (Hsub false t0 t1)|apply Hch0]. }
        exists r', s'. split; [exact H1|]. by eapply inserted_from.
    + pose proof (f_equal length Esk) as Ls. rewrite length_app in Ls. cbn [length] in Ls. rewrite (proj2 (Nat.ltb_ge _ (S (length p + length c)))) by lia.
      assert (kbits k = p ++ c ++ negb x :: sc') as Hk by by rewrite Hr, Er. pose proof (parted_plan p sk t0 t1 c x sc sc' k f Hp Esk Hk) as Hplan.
      unfold mbind at 1, M_bind at 1. rewrite decideChecked_eq. destruct (decision f None) as [e|[v|]] eqn:Ed.
      * exists (inl e), s2. split; [done|]. right. by rewrite Hplan.
      * pose proof (tput_parted (length p) sk t0 t1 c x sc sc' k v Esk ltac:(by rewrite (kbits_split _ _ _ Hr))) as Ht. pose proof (Hut v Hplan) as Hut'. rewrite Ht in Hut'.
        destruct (insert_beside p sk t0 t1 c x sc sc' k v own l0 l1 s2) as (s4 & Hcode & Hw); try done; [split; [done|by apply (plan_value (contents (Branch sk t0 t1)) k f)]|].
        eexists _, s4. split; [exact Hcode|]. apply (inserted_from p k f _ s s2); [done|]. right. rewrite Hplan, Ht. by exists noLoc.
      * exists (inr (root (Branch sk t0 t1), own)), s2. split; [done|]. apply (inserted_from p k f _ s s2); [done|]. right. rewrite Hplan. by exists own.
Qed.

(** ** Roots *)

(** No two keys have digests that differ in their last bit only. *)
Definition spread (m : gmap bytes bytes) : Prop := forall k k', k ∈ dom m -> k' ∈ dom m -> k <> k' -> take 255 (kbits k) <> take 255 (kbits k').

Lemma spread_shallow t : forall p, placed p t -> spread (contents t) -> (length p < 256)%nat -> shallow (length p) t.
Proof.
  induction t as [k v|sk t0 IH0 t1 IH1]; intros p Hp Hs Hl; [done|]. pose proof (branch_depth _ _ _ _ Hp) as Hd. pose proof (sides_disjoint _ _ _ _ Hp) as Hdis. pose proof Hp as [P0 P1].
  assert (spread (contents t0) /\ spread (contents t1)) as [S0 S1] by (split; intros k k' Hk Hk'; apply Hs; cbn [contents]; rewrite dom_union_L; set_solver).
  assert (length p + length sk < 255)%nat as Hd'.
  { destruct (decide (length p + length sk = 255)%nat) as [E|]; [|lia]. exfalso. destruct (some_key t0) as [k0 K0], (some_key t1) as [k1 K1].
    assert (k0 <> k1) as Hne by (intros ->; rewrite map_disjoint_dom in Hdis; unfold keys in *; set_solver).
    apply (Hs k0 k1); cbn [contents]; rewrite ?dom_union_L; [unfold keys in *; set_solver|unfold keys in *; set_solver|done|].
    assert (forall b k, p ++ sk ++ [b] `prefix_of` kbits k -> take 255 (kbits k) = p ++ sk) as Ht.
    { intros b k [r ->]. rewrite app_assoc, <- app_assoc. apply take_app_n. rewrite length_app. lia. }
    rewrite (Ht false k0), (Ht true k1); [done|by apply (placed_prefix _ _ _ P1)|by apply (placed_prefix _ _ _ P0)]. }
  split; [done|]. specialize (IH0 _ P0 S0). specialize (IH1 _ P1 S1). rewrite !length_app in IH0, IH1. cbn [length] in IH0, IH1.
  replace (S (length p + length sk)) with (length p + (length sk + 1))%nat by lia. split; [apply IH0; lia|apply IH1; lia].
Qed.

(** A root is found by the transaction, or by its pointer. *)
Definition rooted (pend : gmap radixHash radixNode) (t : tree) : Prop :=
  (held pend t \/ exists o, readRootPointer d (root t) = inr o /\ committed d o t) /\ exists l, rep d pend l t.

Lemma rooted_rep pend t : rooted pend t -> rep d pend noLoc t.
Proof.
  intros [Hh [l Hr]]. destruct (pend !! root t) as [n|] eqn:E.
  - destruct t; destruct Hr as (l0 & l1 & own & [[Hp ->]|[Hp _]] & Hch); try congruence; exists l0, l1, noLoc; (split; [by left|done]).
  - destruct Hh as [[n Hn]|(o & Ho & Hc)]; [congruence|]. pose proof (rep_moved d pend t l o Hr Hc) as [_ Hr']. pose proof (committed_valid _ _ _ Hc) as Hv.
    destruct t; destruct Hr' as (l0 & l1 & own & [[Hp _]|(Hp & H1 & H2 & H3)] & Hch); try congruence; rewrite Hv in H3; subst own;
      exists l0, l1, o; (split; [right; split; [done|]; split; [done|]; split; [done|]; exact Ho|done]).
Qed.

(** The map a root stands for. *)
Definition holds (pend : gmap radixHash radixNode) (h : radixHash) (m : gmap bytes bytes) : Prop :=
  (h = zeroHash /\ m = ∅) \/ exists t, h = root t /\ placed [] t /\ contents t = m /\ U t /\ rooted pend t.

(** Every tree of a map is one of those told apart. *)
Definition covered (m : gmap bytes bytes) : Prop := forall t, placed [] t -> contents t = m -> U t.

Lemma lookupIn_spec pend h m key s : holds pend h m -> clean d U s ->
  exists r s', lookupIn d pend h key s = (r, s') /\ same_pages s s' /\ (r = answer m key \/ (r = inl ErrCtx /\ ctx s <> None)).
Proof.
  intros Hh Hc. unfold lookupIn, mbind, M_bind. destruct (ctx_cases s Hc) as [[-> Hctx]|(s1 & -> & Hs1)]; [exists (inl ErrCtx), s; split; [done|]; split; [done|by right]|].
  destruct Hh as [[-> ->]|(t & -> & Hp & <- & Hu & Hr%rooted_rep)]; unfold isZero.
  - rewrite bool_decide_eq_true_2 by done. exists (inr None), s1. split; [done|]. split; [done|]. left. symmetry. apply answer_none. intros k. set_solver.
  - rewrite bool_decide_eq_false_2 by by apply (u_nonzero _ HU). destruct (lookup_loop_spec pend key t [] (S radixHashBits) noLoc s1 Hu Hp (prefix_nil _) ltac:(cbn; lia) Hr (proj1 Hs1)) as (r & s' & H1 & H2 & H3).
    exists r, s'. split; [exact H1|]. split; [by eapply same_pages_trans|]. destruct H3 as [->|[-> H3]]; [by left|right]. split; [done|]. intros E. by apply H3, Hs1.
Qed.

(** What an update does to the map of a root. *)
Definition updated (h : radixHash) (m : gmap bytes bytes) (k : bytes) (f : radixDecide) (s : txn) (r : radix_error + radixHash) (s' : txn) : Prop :=
  (r = inl ErrCtx /\ ctx s <> None /\ same_pages s s') \/
  match plan m k f with
  | inl e => r = inl e /\ same_pages s s'
  | inr None => r = inr h /\ same_pages s s'
  | inr (Some v) => exists h', r = inr h' /\ clean d U s' /\ (ctx s = None -> ctx s' = None) /\ holds (pending s') h' (<[k := v]> m)
  end.

Lemma child_held pend t : child d pend noLoc t -> held pend t.
Proof. intros [[H|[_ H]] _]; [|done]. by apply committed_valid in H. Qed.

Lemma wrote_rooted t t' s own s' : rooted (pending s) t -> wrote [] t t' s own s' -> rooted (pending s') t'.
Proof.
  intros Hr (W1 & W2 & W3 & W4 & W5 & [Et| ->]).
  - split; [|exists own; apply W4]. pose proof (rooted_rep _ _ Hr) as Hrep. subst t'. destruct Hr as [[Hh|Hp] _]; [left|by right].
    apply child_held, W5; [done|]. split; [by right|done].
  - split; [left; by apply child_held|]. exists noLoc. apply W4.
Qed.

Lemma update_spec h m k f s : holds (pending s) h m -> clean d U s -> spread m -> key_ok k = true ->
  (forall v, plan m k f = inr (Some v) -> covered (<[k := v]> m)) ->
  exists r s', update d h k f s = (r, s') /\ updated h m k f s r s'.
Proof.
  intros Hh Hc Hs Hkey Hcov. unfold update. unfold mbind at 1, M_bind at 1. destruct (ctx_cases s Hc) as [[-> Hctx]|(s1 & -> & Hs1)]; [exists (inl ErrCtx), s; split; [done|]; by left|].
  rewrite Hkey. cbn [negb]. destruct Hh as [[-> ->]|(t & -> & Hp & <- & Hu & Hr)]; unfold isZero.
  - rewrite bool_decide_eq_true_2 by done. unfold mbind, M_bind. rewrite decideChecked_eq. assert (plan ∅ k f = decision f None) as Hpl by (unfold plan; rewrite answer_none; [done|]; intros x; set_solver).
    unfold updated. rewrite Hpl in *. destruct (decision f None) as [e|[v|]] eqn:Ed; [exists (inl e), s1; split; [done|by right]| |exists (inr zeroHash), s1; split; [done|by right]].
    assert (leaf_ok k v) as Hok by (split; [done|]; by apply (plan_value ∅ k f)). rewrite writeLeaf_spec by done. eexists _, _. split; [reflexivity|]. right. exists (root (Leaf k v)). split; [done|]. split; [apply Hs1|]. split; [intros E; by apply Hs1|].
    assert (placed [] (Leaf k v)) as Hpl' by (split; [done|apply prefix_nil]). right. exists (Leaf k v). split; [done|]. split; [done|]. split; [by rewrite insert_empty|]. split; [apply (Hcov v); [done|done|by rewrite insert_empty]|].
    split; [left; eexists; apply lookup_insert_eq|]. exists noLoc. apply held_leaf; [by right|]. apply lookup_insert_eq.
  - rewrite bool_decide_eq_false_2 by by apply (u_nonzero _ HU). unfold mbind, M_bind. rewrite <- (proj1 (proj2 Hs1)) in Hr.
    assert (forall v, plan (contents t) k f = inr (Some v) -> placed [] (tput 0 k v t) /\ contents (tput 0 k v t) = <[k := v]> (contents t)) as Htp.
    { intros v Hv. apply (tput_spec k v t) with (p := []); [split; [done|by apply (plan_value (contents t) k f)]|done|apply prefix_nil|by apply (plan_free [] t k f v)]. }
    destruct (insertAt_spec k f t Hkey [] (S radixHashBits) noLoc s1 Hu Hp (prefix_nil _) (spread_shallow t [] Hp Hs ltac:(cbn; lia)) ltac:(cbn; lia)) as (r & s' & H1 & H2); [|by apply rooted_rep|apply Hs1|].
    { intros v Hv. destruct (Htp v Hv) as [T1 T2]. by apply (Hcov v Hv). }
    cbn [length] in H1. rewrite H1. unfold updated. destruct H2 as [(-> & Hx & H2)|H2].
    { exists (inl ErrCtx), s'. split; [done|]. left. split; [done|]. split; [intros E; by apply Hx, Hs1|by eapply same_pages_trans]. }
    destruct (plan (contents t) k f) as [e|[v|]] eqn:Epl.
    + destruct H2 as [-> H2]. exists (inl e), s'. split; [done|]. right. split; [done|]. by eapply same_pages_trans.
    + destruct H2 as (own & -> & H2). cbn [length] in *. eexists _, s'. split; [reflexivity|]. right. eexists. split; [reflexivity|]. split; [apply H2|]. split; [intros E; by apply H2, Hs1|].
      destruct (Htp v eq_refl) as [T1 T2]. right. exists (tput 0 k v t). split; [done|]. split; [done|]. split; [done|]. split; [by apply (Hcov v eq_refl)|]. by eapply wrote_rooted.
    + destruct H2 as (own & -> & H2 & _). exists (inr (root t)), s'. split; [done|]. right. split; [done|]. by eapply same_pages_trans.
Qed.

End Txn.
