(* ===== verification/RadixCommit.v ===== *)
(** * Committing to the delivery index

    The records of a pack can be read back, a pack holds every page its root needs, and a commit only ever adds files: what
    was committed stays, and a root whose commit succeeds is found from the files alone. *)

From S2P Require Import Prelude GoLib Varint Radix RadixBits RadixTree RadixRead RadixSpec RadixTxn.

Section Commit.
Context {KH : KeyHash} {Or : MapOrder} (U : tree -> Prop) (HU : universe U).

(** ** More files *)

Definition extends (d d' : disk) : Prop := packs d ⊆ packs d' /\ roots d ⊆ roots d'.

Lemma acquire_more d d' id f : packs d ⊆ packs d' -> acquirePack d id = inr f -> acquirePack d' id = inr f.
Proof. unfold acquirePack. intros Hs. destruct (packs d !! id) as [g|] eqn:E; [|done]. by rewrite (lookup_weaken _ _ _ _ E Hs). Qed.

Lemma readRecord_more d d' h loc n : packs d ⊆ packs d' -> readRecord d h loc = inr n -> readRecord d' h loc = inr n.
Proof.
  intros Hs. unfold readRecord, readRecordBytes. destruct (_ || _); [done|]. destruct (acquirePack d (pack loc)) as [e|f] eqn:E; [done|]. by rewrite (acquire_more d d' _ f Hs E).
Qed.

Lemma committed_more d d' t : packs d ⊆ packs d' -> forall l, committed d l t -> committed d' l t.
Proof.
  intros Hs. induction t as [k v|sk t0 IH0 t1 IH1]; intros l; cbn [committed]; [by apply readRecord_more|].
  intros (l0 & l1 & Hr & H0 & H1 & C0 & C1). exists l0, l1. split; [by eapply readRecord_more|]. split; [done|]. split; [done|]. split; [by apply IH0|by apply IH1].
Qed.

Lemma pointer_more d d' h o : roots d ⊆ roots d' -> readRootPointer d h = inr o -> readRootPointer d' h = inr o.
Proof. unfold readRootPointer. intros Hs. destruct (roots d !! h) as [r|] eqn:E; [|done]. by rewrite (lookup_weaken _ _ _ _ E Hs). Qed.

Lemma clean_more d d' s : packs d ⊆ packs d' -> clean d U s -> clean d' U s.
Proof.
  intros Hs [Hc Hw]. split.
  - intros h c Hl. destruct (Hc h c Hl) as (t & Hu & He & Hcm & Hr). exists t. split; [done|]. split; [done|]. split; [by eapply committed_more|by eapply readRecord_more].
  - intros ws id w H1 H2. destruct (Hw ws id w H1 H2) as (f & Hf & Hb). exists f. split; [by eapply acquire_more|done].
Qed.

(** A tree in the files is found from them alone. *)
Lemma committed_rep d t : forall l, committed d l t -> rep d ∅ l t.
Proof.
  induction t as [k v|sk t0 IH0 t1 IH1]; intros l Hc; pose proof (committed_valid _ _ _ Hc) as Hv.
  - exists noLoc, noLoc, l. split; [|done]. right. rewrite lookup_empty, Hv. done.
  - pose proof Hc as (l0 & l1 & Hr & V0 & V1 & C0 & C1). exists l0, l1, l. split; [right; rewrite lookup_empty, Hv; done|]. split; (split; [by left|auto]).
Qed.

(** Packs have ids, and what a root pointer names is there. *)
Definition disk_ok (d : disk) : Prop :=
  (forall id f, packs d !! id = Some f -> 0 < id < 2 ^ 64) /\
  (forall h raw, roots d !! h = Some raw -> exists o t, readRootPointer d h = inr o /\ U t /\ root t = h /\ committed d o t).

(** ** Records *)

Definition loc_ok (l : radixLoc) : Prop := 0 <= pack l < 2 ^ 64 /\ 0 <= off l < 2 ^ 64.

Lemma decode_encodeLoc l b : loc_ok l -> decodeLoc (encodeLoc l ++ b) = l.
Proof.
  intros [H1 H2]. unfold decodeLoc, encodeLoc. rewrite <- app_assoc. rewrite (take_app_n 8), (drop_app_n 8), (take_app_n 8) by apply be_put_length.
  rewrite !be_get_put by (change (256 ^ Z.of_nat 8) with (2 ^ 64); lia). by destruct l.
Qed.

Lemma encodeLoc_length l : length (encodeLoc l) = 16%nat.
Proof. unfold encodeLoc. by rewrite length_app, !be_put_length. Qed.

Lemma committed_loc d l t : disk_ok d -> committed d l t -> loc_ok l /\ valid l = true.
Proof.
  intros [Hd _] Hc. pose proof (committed_valid _ _ _ Hc) as Hv. destruct (committed_read _ _ _ Hc) as (l0 & l1 & Hr). unfold readRecord, readRecordBytes in Hr.
  rewrite Hv in Hr. cbn [negb orb] in Hr. destruct (MaxInt <? off l) eqn:Eo; [done|]. apply Z.ltb_ge in Eo. unfold acquirePack in Hr.
  destruct (packs d !! pack l) as [f|] eqn:Ep; [|done]. apply Hd in Ep. split; [|done]. unfold valid, radixPackHeaderLen, MaxInt in *. apply andb_true_iff in Hv as [_ Hv%Z.leb_le]. split; lia.
Qed.

Lemma page_bounds p t : placed p t -> 6 <= Z.of_nat (length (page t)) <= radixMaxPageBytes.
Proof.
  destruct t as [k v|sk t0 t1]; intros Hp; cbn [page].
  - destruct Hp as [[Hk Hv] _]. unfold key_ok in Hk. apply andb_true_iff in Hk as [_ Hk]. apply negb_true_iff in Hk. rewrite Z.gtb_ltb, Z.ltb_ge in Hk.
    unfold encodeRadixLeaf. rewrite !length_app, hashKey_length. pose proof (putUvarint_max 9 (Z.of_nat (length k))). pose proof (putUvarint_max 9 (Z.of_nat (length v))).
    change (length radixMagic) with 4%nat. change (length [radixVersion; radixKindLeaf]) with 2%nat. unfold radixMaxPageBytes, radixHashBytes. lia.
  - pose proof (branch_depth _ _ _ _ Hp). fold (root t0) (root t1). unfold encodeRadixBranch. rewrite resize_id by apply packed_length.
    rewrite !length_app, be_put_length, packed_length, !root_length. pose proof (packed_size (length sk)).
    change (length radixMagic) with 4%nat. change (length [radixVersion; radixKindBranch]) with 2%nat. unfold radixMaxPageBytes, radixMaxKeyBytes, radixMaxValueBytes. lia.
Qed.

(** The room of a page and its record. *)
Definition room : Z := radixMaxPageBytes + 36.

Lemma record_room p t l0 l1 : placed p t -> Z.of_nat (length (encodeRadixRecord (page t) (node t l0 l1))) <= room.
Proof.
  intros Hp%page_bounds. unfold encodeRadixRecord, room. rewrite !length_app, be_put_length. destruct t; cbn [node]; rewrite ?length_app, ?encodeLoc_length; cbn [length]; lia.
Qed.

(** A record in a pack is read back. *)
Lemma record_read d p t l0 l1 id pre post : placed p t -> U t -> id <> 0 -> packs d !! id = Some (pre ++ encodeRadixRecord (page t) (node t l0 l1) ++ post) ->
  take 8 pre = radixPackMagic -> Z.of_nat (length pre) <= MaxInt ->
  match t with Leaf _ _ => l0 = noLoc /\ l1 = noLoc | Branch _ _ _ => loc_ok l0 /\ loc_ok l1 /\ valid l0 = true /\ valid l1 = true end ->
  readRecord d (root t) (MkLoc id (Z.of_nat (length pre))) = inr (node t l0 l1).
Proof.
  intros Hp Hu Hid Hf Hm Hpre Hl. assert (8 <= length pre)%nat as H8 by (apply (f_equal length) in Hm; rewrite length_take in Hm; change (length radixPackMagic) with 8%nat in Hm; lia).
  set (tr := match node t l0 l1 with BranchNode _ _ _ _ l0 l1 => encodeLoc l0 ++ encodeLoc l1 | LeafNode _ _ _ => [] end).
  assert (encodeRadixRecord (page t) (node t l0 l1) = be_put 4 (Z.of_nat (length (page t))) ++ page t ++ tr) as He by (by destruct t). rewrite He in Hf.
  pose proof (page_bounds p t Hp) as Hb. assert (radixMaxPageBytes < 256 ^ Z.of_nat 4) as Hmax by (unfold radixMaxPageBytes, radixMaxKeyBytes, radixMaxValueBytes; cbn; lia).
  set (s := be_put 4 (Z.of_nat (length (page t))) ++ (page t ++ tr) ++ post). unfold readRecord.
  rewrite (readRecordBytes_simpl d (root t) _ (pre ++ s) s (length (page t))); cbn [pack off valid].
  - assert (drop 4 s = page t ++ tr ++ post) as E4 by (unfold s; rewrite (drop_app_n 4) by apply be_put_length; by rewrite <- app_assoc).
    assert (take (length (page t)) (drop 4 s) = page t) as Er by (rewrite E4; by rewrite take_app_n). rewrite Er. fold (root t). rewrite bool_decide_eq_true_2 by done.
    assert (drop (4 + length (page t)) s = tr ++ post) as -> by (rewrite <- drop_drop, E4; by rewrite drop_app_n).
    unfold recordNode. destruct t as [k v|sk t0 t1]; [rewrite decode_leaf by apply Hp; by destruct Hl as [-> ->]|].
    pose proof (branch_depth _ _ _ _ Hp) as Hd. pose proof (u_sub _ HU _ _ _ Hu) as [Hu0 Hu1]. rewrite decode_branch by (try lia; by apply (u_nonzero _ HU)). cbn [node].
    destruct Hl as (L0 & L1 & V0 & V1). unfold tr. cbn [node]. rewrite (take_app_n 32) by (rewrite length_app, !encodeLoc_length; done).
    rewrite length_app, !encodeLoc_length. cbn [Nat.add Nat.ltb Nat.leb radixTrailerLen]. rewrite decode_encodeLoc, (drop_app_n 16) by (done || apply encodeLoc_length).
    rewrite <- (app_nil_r (encodeLoc l1)), decode_encodeLoc, V0, V1 by done. done.
  - unfold valid, radixPackHeaderLen. cbn [pack off]. apply andb_true_iff. split; [by apply negb_true_iff, Z.eqb_neq|apply Z.leb_le; lia].
  - done.
  - unfold acquirePack. rewrite Hf, <- !app_assoc. unfold radixPackHeaderLen. rewrite take_app_le, Hm, bool_decide_eq_true_2 by (done || lia). unfold s. by rewrite <- !app_assoc.
  - rewrite Nat2Z.id. by rewrite drop_app_length.
  - unfold s. rewrite length_app, be_put_length. lia.
  - unfold s. rewrite take_app_n by apply be_put_length. apply be_get_put. lia.
  - done.
  - unfold s. rewrite !length_app, be_put_length. lia.
Qed.

(** ** The pack of a transaction *)

Section Pack.
Context (d : disk) (Hd : disk_ok d) (id : Z) (Hid : 0 < id < 2 ^ 64).

(** The files once the pack is published. *)
Definition with_pack (f : bytes) : disk := MkDisk (<[id := f]> (packs d)) (roots d).

(** A pack with a fresh id that begins with what is written so far. *)
Definition pack_from (w : pack_writer) (f : bytes) : Prop := packs d !! id = None /\ wbytes w `prefix_of` f /\ Z.of_nat (length f) <= MaxInt.

Lemma with_pack_more f : packs d !! id = None -> packs d ⊆ packs (with_pack f).
Proof. apply insert_subseteq. Qed.

(** Branches written are in the files. *)
Definition published_ok (d' : disk) (c : radixPublished) : Prop :=
  exists t, U t /\ root t = phash c /\ committed d' (ploc c) t /\ readRecord d' (phash c) (ploc c) = inr (pnode c).

(** The pages of a tree. *)
Fixpoint pages (t : tree) : nat := match t with Leaf _ _ => 1 | Branch _ t0 t1 => S (pages t0 + pages t1) end.

(** What writing the pages below [p] of a tree leaves. *)
Definition emitted (p : list bool) (t : tree) (w : pack_writer) (r : radix_error + radixLoc) (w' : pack_writer) : Prop :=
  (r = inl ErrIO /\ wleft w <> None) \/
  exists loc, r = inr loc /\ wbytes w `prefix_of` wbytes w' /\ (wleft w = None -> wleft w' = None) /\ within U p (wpending w) (wpending w') /\
    Z.of_nat (length (wbytes w')) <= Z.of_nat (length (wbytes w)) + Z.of_nat (pages t) * room /\
    forall f, pack_from w' f -> committed (with_pack f) loc t /\ loc_ok loc /\ valid loc = true /\ (Forall (published_ok (with_pack f)) (wpub w) -> Forall (published_ok (with_pack f)) (wpub w')).

Lemma pack_prefix w w' f : wbytes w `prefix_of` wbytes w' -> pack_from w' f -> pack_from w f.
Proof. intros H (H0 & H1 & H2). split; [done|]. split; [by etrans|done]. Qed.

Lemma magic_start (w : bytes) : radixPackMagic `prefix_of` w -> take 8 w = radixPackMagic.
Proof. intros [r ->]. by apply take_app_n. Qed.

(** The record of a page whose children are in the files. *)
Lemma emit_record_spec p t l0 l1 w : placed p t -> U t -> radixPackMagic `prefix_of` wbytes w ->
  (match t with
   | Leaf _ _ => l0 = noLoc /\ l1 = noLoc
   | Branch _ t0 t1 => forall f, pack_from w f -> (committed (with_pack f) l0 t0 /\ loc_ok l0 /\ valid l0 = true) /\ (committed (with_pack f) l1 t1 /\ loc_ok l1 /\ valid l1 = true)
   end) ->
  exists r w', emit_record id (root t) (node t l0 l1) w = (r, w') /\ emitted p t w r w' /\ wpending w' = wpending w /\ Z.of_nat (length (wbytes w')) <= Z.of_nat (length (wbytes w)) + room.
Proof.
  intros Hp Hu Hm Hch. unfold emit_record. rewrite encode_node. fold (root t). rewrite bool_decide_eq_true_2 by done. cbn [negb].
  set (loc := MkLoc id (Z.of_nat (length (wbytes w)))). set (pub := match node t l0 l1 with BranchNode _ _ _ _ _ _ => _ | LeafNode _ _ _ => _ end).
  set (w1 := MkWriter (wbytes w ++ encodeRadixRecord (page t) (node t l0 l1)) (wpending w) pub (Nat.pred <$> wleft w)).
  assert (Z.of_nat (length (wbytes w1)) <= Z.of_nat (length (wbytes w)) + room) as Hroom.
  { unfold w1. cbn [wbytes]. rewrite length_app. pose proof (record_room p t l0 l1 Hp). lia. }
  assert (emitted p t w (inr loc) w1) as Hok.
  { right. exists loc. split; [done|]. split; [by apply prefix_app_r|]. split; [intros E; unfold w1; cbn [wleft]; by rewrite E|]. split; [by intros h|]. split; [destruct t; cbn [pages]; unfold room, radixMaxPageBytes, radixMaxKeyBytes, radixMaxValueBytes in *; lia|]. intros f Hf.
    assert (pack_from w f) as Hf0 by (apply (pack_prefix w w1); [by apply prefix_app_r|exact Hf]). destruct Hf as (_ & [post Hpost] & Hmax). cbn [wbytes w1] in Hpost.
    assert (8 <= length (wbytes w))%nat as H8 by (apply prefix_length in Hm; change (length radixPackMagic) with 8%nat in Hm; lia).
    assert (Z.of_nat (length (wbytes w)) <= MaxInt) as Hpre by (rewrite Hpost, !length_app in Hmax; lia).
    assert (readRecord (with_pack f) (root t) loc = inr (node t l0 l1)) as Hread.
    { apply (record_read _ p t l0 l1 id (wbytes w) post); [done|done|lia| |by apply magic_start|done|].
      - cbn [packs with_pack]. rewrite lookup_insert_eq, Hpost. by rewrite <- app_assoc.
      - destruct t; [done|]. destruct (Hch f Hf0) as [(_ & L0 & V0) (_ & L1 & V1)]. done. }
    assert (committed (with_pack f) loc t) as Hcm.
    { destruct t; [destruct Hch as [-> ->]; exact Hread|]. destruct (Hch f Hf0) as [(C0 & L0 & V0) (C1 & L1 & V1)]. by exists l0, l1. }
    split; [done|]. split; [split; cbn [loc pack off]; unfold MaxInt in *; lia|]. split.
    { unfold valid, radixPackHeaderLen. cbn [loc pack off]. apply andb_true_iff. split; [apply negb_true_iff, Z.eqb_neq; lia|apply Z.leb_le; lia]. }
    intros Hpub. cbn [w1 wpub]. unfold pub. destruct t as [|sk t0 t1]; cbn [node]; [done|]. apply Forall_app. split; [done|]. constructor; [|constructor]. exists (Branch sk t0 t1). done. }
  destruct (wleft w) as [[|n]|] eqn:El; [exists (inl ErrIO), w|exists (inr loc), w1|exists (inr loc), w1]; (split; [done|]); (split; [|split; [done|]]);
    [left; by rewrite El|unfold room, radixMaxPageBytes, radixMaxKeyBytes, radixMaxValueBytes; lia|exact Hok|exact Hroom|exact Hok|exact Hroom].
Qed.

(** The height of a tree. *)
Fixpoint height (t : tree) : nat := match t with Leaf _ _ => 0 | Branch _ t0 t1 => S (Nat.max (height t0) (height t1)) end.

Lemma height_placed t : forall p, placed p t -> (height t + length p <= 256)%nat.
Proof.
  induction t as [k v|sk t0 IH0 t1 IH1]; intros p Hp; [by apply placed_depth in Hp|]. destruct Hp as [P0 P1]. apply IH0 in P0. apply IH1 in P1. rewrite !length_app in *. cbn [height length] in *. lia.
Qed.

Lemma held_child pend t l : valid l = false -> child d pend l t -> child d pend noLoc t.
Proof.
  intros Hv [[Hc|[_ Hh]] Hr]; [apply committed_valid in Hc; congruence|]. split; [by right|]. destruct Hh as [n Hn].
  destruct t; destruct Hr as (l0 & l1 & own & [[Hp ->]|[Hp _]] & Hch); try congruence; exists l0, l1, noLoc; (split; [by left|done]).
Qed.

Lemma set_held_same h n w : wbytes (set_held h n w) = wbytes w /\ wleft (set_held h n w) = wleft w /\ wpub (set_held h n w) = wpub w.
Proof. done. Qed.

(** A child is in the files, or its pages are written now. *)
Lemma emit_child p t l w (go : pack_writer -> (radix_error + radixLoc) * pack_writer) : child d (wpending w) l t ->
  (child d (wpending w) noLoc t -> exists r w', go w = (r, w') /\ emitted p t w r w') ->
  exists r w', (if valid l then (inr l, w) else go w) = (r, w') /\ emitted p t w r w'.
Proof.
  intros Hch Hgo. destruct (valid l) eqn:Ev; [|apply Hgo; by eapply held_child]. exists (inr l), w. split; [done|]. right. exists l. split; [done|]. split; [done|]. split; [done|]. split; [by intros h|].
  split; [unfold room, radixMaxPageBytes, radixMaxKeyBytes, radixMaxValueBytes; lia|]. destruct Hch as [[Hc|[Hv _]] _]; [|congruence]. intros f [Hnew _]. destruct (committed_loc d l t Hd Hc) as [L V]. split; [by apply (committed_more d); [apply with_pack_more|]|]. done.
Qed.

Lemma emit_pages t : forall p fuel w, placed p t -> U t -> (height t < fuel)%nat -> radixPackMagic `prefix_of` wbytes w -> child d (wpending w) noLoc t ->
  exists r w', emit fuel id (root t) w = (r, w') /\ emitted p t w r w'.
Proof.
  induction t as [k v|sk t0 IH0 t1 IH1]; intros p fuel w Hp Hu Hf Hm Hch; (destruct fuel as [|fuel]; [lia|]); cbn [emit]; pose proof (child_held _ _ _ Hch) as [n Hn];
    destruct Hch as [_ (l0 & l1 & own & [[Hs ->]|[Hs _]] & Hch)]; try congruence; rewrite Hs; cbn [node].
  - destruct (emit_record_spec p (Leaf k v) noLoc noLoc w Hp Hu Hm) as (r & w' & H1 & H2 & _); [done|]. by exists r, w'.
  - destruct Hch as [C0 C1]. pose proof Hp as [P0 P1]. pose proof (u_sub _ HU _ _ _ Hu) as [U0 U1]. cbn [height] in Hf. set (t := Branch sk t0 t1) in *.
    destruct (emit_child (p ++ sk ++ [false]) t0 l0 w (emit fuel id (root t0)) C0) as (r0 & w0 & -> & E0); [intros H; apply IH0; try done; lia|].
    destruct E0 as [[-> El]|(m0 & -> & B0 & L0 & W0 & R0 & F0)]; [exists (inl ErrIO), w0; split; [done|by left]|]. cbv zeta. change (BranchNode (length sk) (packed sk) (root t0) (root t1) m0 l1) with (node t m0 l1).
    set (w1 := set_held (root t) (node t m0 l1) w0). destruct (fork_outside U HU p sk t0 t1 t (wpending w0) (node t m0 l1) Hp Hu) as [[O1 O2] _]; [unfold t; by rewrite keys_branch|].
    assert (child d (wpending w1) l1 t1) as C1'.
    { apply (child_outside d U HU t1 _ (wpending w) _ l1 U1 P1); [|exact C1]. eapply outside_trans; [|exact O2]. rewrite app_assoc in *. by apply (within_outside U _ false). }
    destruct (emit_child (p ++ sk ++ [true]) t1 l1 w1 (emit fuel id (root t1)) C1') as (r1 & w2 & -> & E1).
    { intros H. apply IH1; try done; [lia|]. by etrans. }
    destruct E1 as [[-> El]|(m1 & -> & B1 & L1 & W1 & R1 & F1)]; [exists (inl ErrIO), w2; split; [done|]; left; split; [done|]; intros E; by apply El, L0|]. change (BranchNode (length sk) (packed sk) (root t0) (root t1) m0 m1) with (node t m0 m1).
    set (w3 := set_held (root t) (node t m0 m1) w2). destruct (emit_record_spec p t m0 m1 w3 Hp Hu) as (r & w' & -> & E & Ep & Er).
    { do 2 etrans; done. }
    { intros f Hf3. destruct (F1 f Hf3) as (A1 & A2 & A3 & _). destruct (F0 f) as (D1 & D2 & D3 & _); [by eapply pack_prefix|]. done. }
    exists r, w'. split; [done|]. destruct E as [[-> El]|(loc & -> & B & L & W & _ & F)].
    { left. split; [done|]. intros E. by apply El, L1, L0. }
    right. exists loc. split; [done|]. split; [do 2 (etrans; [done|]); done|]. split; [intros E; by apply L, L1, L0|]. split.
    + rewrite Ep. eapply within_trans; [eapply within_weaken; [by apply prefix_app_r|exact W0]|]. eapply within_trans; [by apply (within_ins U p t (wpending w0))|].
      eapply within_trans; [eapply within_weaken; [by apply prefix_app_r|exact W1]|]. by apply (within_ins U p t (wpending w2)).
    + split; [unfold t, w1, w3, set_held in *; cbn [pages wbytes] in *; lia|]. intros f Hf'. destruct (F f Hf') as (G1 & G2 & G3 & G4). split; [done|]. split; [done|]. split; [done|]. intros Hpub. apply G4. apply (F1 f); [by eapply (pack_prefix w2 w')|]. apply (F0 f); [|done].
      eapply (pack_prefix w0 w'); [|done]. by etrans.
Qed.

End Pack.


Lemma pages_size t : forall p, placed p t -> (S (pages t) <= 2 * size (contents t))%nat.
Proof.
  induction t as [k v|sk t0 IH0 t1 IH1]; intros p Hp; cbn [pages contents]; [rewrite map_size_singleton; lia|]. rewrite map_size_disj_union by (by eapply sides_disjoint).
  destruct Hp as [P0 P1]. apply IH0 in P0. apply IH1 in P1. lia.
Qed.

(** ** Publishing *)

Lemma packs_only d d' : packs d ⊆ packs d' -> roots d' = roots d -> (forall id f, packs d' !! id = Some f -> 0 < id < 2 ^ 64) -> disk_ok d -> extends d d' /\ disk_ok d'.
Proof.
  intros Hs Hr Hid [_ Hp]. split; [split; [done|by rewrite Hr]|]. split; [done|]. intros h raw Hl. rewrite Hr in Hl. destruct (Hp h raw Hl) as (o & t & Ho & Hu & He & Hc).
  exists o, t. split; [unfold readRootPointer in *; by rewrite Hr|]. split; [done|]. split; [done|]. by eapply committed_more.
Qed.

(** The file system does what it is asked. *)
Definition io_fine (io : commit_io) (d : disk) : Prop :=
  packs d !! io_id io = None /\ io_writes io = None /\ io_stage io && io_link io && io_clean io && io_shard io && io_ptr_stage io && io_ptr_clean io && io_ptr_sync io = true.

(** Every pack of a map is short enough to be addressed. *)
Definition fits (m : gmap bytes bytes) : Prop := 8 + 2 * Z.of_nat (size m) * room <= MaxInt.

Definition io_failed (io : commit_io) (d : disk) (m : gmap bytes bytes) : Prop := ~ (io_fine io d /\ fits m).

Lemma writePack_spec io t s d : disk_ok d -> 0 < io_id io < 2 ^ 64 -> U t -> placed [] t -> child d (pending s) noLoc t ->
  exists r p d', writePack io (root t) s d = (r, p, d') /\ extends d d' /\ disk_ok d' /\ roots d' = roots d /\
    match r with
    | inl e => e = ErrIO /\ io_failed io d (contents t)
    | inr (loc, pub) => committed d' loc t /\ loc_ok loc /\ valid loc = true /\ Forall (published_ok d') pub
    end.
Proof.
  intros Hd Hid Hu Hp Hch. unfold writePack. set (w := MkWriter radixPackMagic (pending s) [] (io_writes io)).
  destruct (emit_pages d Hd (io_id io) Hid t [] (S radixHashBits) w Hp Hu) as (r & w' & -> & E); [pose proof (height_placed t [] Hp); change radixHashBits with 256%nat; lia|done|done|].
  destruct E as [[-> El]|(loc & -> & B & L & _ & R & F)].
  { exists (inl ErrIO), (wpending w'), d. split; [done|]. split; [done|]. split; [done|]. split; [done|]. split; [done|]. intros [(_ & Hw & _) _]. by apply El. }
  assert (forall d', (inl ErrIO, wpending w', d) = d' -> io_failed io d (contents t) -> exists r p d'', d' = (r, p, d'') /\ extends d d'' /\ disk_ok d'' /\ roots d'' = roots d /\
    match r with inl e => e = ErrIO /\ io_failed io d (contents t) | inr (loc, pub) => committed d'' loc t /\ loc_ok loc /\ valid loc = true /\ Forall (published_ok d'') pub end) as Hfail.
  { intros d' <- Hf. exists (inl ErrIO), (wpending w'), d. done. }
  destruct (negb (io_stage io) || (MaxInt <? _)) eqn:Es.
  { apply (Hfail _ eq_refl). intros [(_ & _ & Hio) Hfit]. rewrite !andb_true_iff in Hio. destruct (io_stage io); [|by destruct Hio as [[[[[[? _] _] _] _] _] _]].
    apply Z.ltb_lt in Es. pose proof (pages_size t [] Hp). unfold fits, room, radixMaxPageBytes, radixMaxKeyBytes, radixMaxValueBytes in *. cbn [w wbytes] in R. change (length radixPackMagic) with 8%nat in R. lia. }
  apply orb_false_iff in Es as [_ Es%Z.ltb_ge]. destruct (packs d !! io_id io) as [f0|] eqn:Ef; [apply (Hfail _ eq_refl); intros [(H & _) _]; congruence|].
  destruct (io_link io) eqn:Ek; cbn [negb]; [|apply (Hfail _ eq_refl); intros [(_ & _ & Hio) _]; rewrite Ek, !andb_true_iff in Hio; by destruct Hio as [[[[[[_ ?] _] _] _] _] _]].
  change (MkDisk (<[io_id io := wbytes w']> (packs d)) (roots d)) with (with_pack d (io_id io) (wbytes w')). set (d' := with_pack _ _ _).
  destruct (packs_only d d') as [Hx Hok]; [by apply with_pack_more|done| |done|].
  { intros id f. cbn [packs d' with_pack]. rewrite lookup_insert_Some. intros [[<- _]|[_ Hl]]; [done|]. by apply Hd in Hl. }
  eexists _, _, d'. split; [reflexivity|]. split; [done|]. split; [done|]. split; [done|].
  destruct (F (wbytes w')) as (F1 & F2 & F3 & F4); [by split|]. destruct (io_clean io) eqn:Ec; [by auto|]. split; [done|]. intros [(_ & _ & Hio) _]. rewrite Ec, !andb_true_iff in Hio. by destruct Hio as [[[[[_ ?] _] _] _] _].
Qed.

(** The tree of [h] is in the files and its pointer names it. *)
Definition pointed (d : disk) (t : tree) : Prop := exists o, readRootPointer d (root t) = inr o /\ committed d o t.

Lemma pointed_read d t : pointed d t -> exists n, readRoot d (root t) = inr n.
Proof. intros (o & Ho & Hc). destruct (committed_read _ _ _ Hc) as (l0 & l1 & Hr). exists (node t l0 l1, o). unfold readRoot. by rewrite Ho, Hr. Qed.

Lemma new_pointer d t loc : loc_ok loc -> valid loc = true -> committed d loc t ->
  pointed (MkDisk (packs d) (<[root t := radixRootMagic ++ encodeLoc loc]> (roots d))) t.
Proof.
  intros Hl Hv Hc. exists loc. split; [|by apply (committed_more d)]. unfold readRootPointer. cbn [roots]. rewrite lookup_insert_eq, length_app, encodeLoc_length.
  change (negb (length radixRootMagic + 16 =? radixRootFileLen)%nat) with false. cbn iota. rewrite take_app_n, bool_decide_eq_true_2 by done. cbn [negb].
  rewrite (drop_app_n 8) by done. rewrite <- (app_nil_r (encodeLoc loc)), decode_encodeLoc, Hv by done. done.
Qed.

Lemma publishRoot_spec io t loc d : disk_ok d -> U t -> committed d loc t -> loc_ok loc -> valid loc = true ->
  exists r d', publishRoot io (root t) loc d = (r, d') /\ extends d d' /\ disk_ok d' /\
    match r with inl e => e = ErrIO /\ io_shard io && io_ptr_stage io && io_ptr_clean io && io_ptr_sync io = false | inr _ => pointed d' t end.
Proof.
  intros Hd Hu Hc Hl Hv. unfold publishRoot. destruct (io_shard io); cbn [negb]; [|by exists (inl ErrIO), d]. destruct (roots d !! root t) as [raw|] eqn:Er.
  - destruct (proj2 Hd _ _ Er) as (o & t' & Ho & Hu' & He & Hc'). apply (u_inj _ HU) in He as ->; [|done|done].
    destruct (pointed_read d t) as [n Hn]; [by exists o|]. rewrite Hn. exists (inr tt), d. split; [done|]. split; [done|]. split; [done|]. by exists o.
  - destruct (io_ptr_stage io); cbn [negb]; [|by exists (inl ErrIO), d]. set (d' := MkDisk _ _). pose proof (new_pointer d t loc Hl Hv Hc) as Hp. fold d' in Hp.
    assert (extends d d') as Hx by (split; [done|by apply insert_subseteq]). assert (disk_ok d') as Hd'.
    { split; [apply Hd|]. intros h r. cbn [roots d']. rewrite lookup_insert_Some. intros [[<- _]|[_ Hr]]; [destruct Hp as (o & Ho & Hco); by exists o, t|].
      destruct (proj2 Hd _ _ Hr) as (o & t' & Ho & Hu' & He & Hc'). exists o, t'. split; [by apply (pointer_more d); [apply Hx|]|]. split; [done|]. split; [done|]. by apply (committed_more d). }
    destruct (pointed_read d' t Hp) as [n Hn]. rewrite Hn. destruct (io_ptr_clean io); [destruct (io_ptr_sync io)|]; eexists _, d'; (split; [reflexivity|]); done.
Qed.

Lemma remember_all d pub : forall s, clean d U s -> Forall (published_ok d) pub -> clean d U (foldl (fun t c => remember (phash c) (pnode c) (ploc c) t) s pub).
Proof.
  induction pub as [|c pub IH]; intros s Hc Hp; [done|]. apply Forall_cons in Hp as [(t & Hu & He & Hcm & Hr) Hp]. cbn [foldl]. apply IH; [|done].
  rewrite <- He. apply (remember_clean d U t (ploc c) (pnode c) s Hc Hu Hcm). by rewrite He.
Qed.

Lemma durable_more d d' h m : extends d d' -> holds d U ∅ h m -> holds d' U ∅ h m.
Proof.
  intros [Hp Hr] [H|(t & -> & Pt & Ct & Ut & [[Hh|(o & Ho & Hc)] _])]; [by left|by destruct Hh|]. right. exists t. split; [done|]. split; [done|]. split; [done|]. split; [done|].
  pose proof (committed_more d d' t Hp o Hc) as Hc'. split; [right; exists o; split; [by eapply pointer_more|done]|]. exists o. by apply committed_rep.
Qed.

Lemma pointed_holds d t : U t -> placed [] t -> pointed d t -> holds d U ∅ (root t) (contents t).
Proof. intros Hu Hp (o & Ho & Hc). right. exists t. split; [done|]. split; [done|]. split; [done|]. split; [done|]. split; [right; by exists o|]. exists o. by apply committed_rep. Qed.

(** A commit only adds files; when it succeeds the map is found from the files alone, and it fails only when the context is
    done or the file system does. *)
Lemma commit_spec io h m s d : disk_ok d -> 0 < io_id io < 2 ^ 64 -> holds d U (pending s) h m -> clean d U s ->
  exists r s' d', commit io h s d = (r, s', d') /\ extends d d' /\ disk_ok d' /\ clean d' U s' /\
    match r with inr _ => holds d' U ∅ h m | inl e => (e = ErrCtx /\ ctx s <> None) \/ (e = ErrIO /\ io_failed io d m) end.
Proof.
  intros Hd Hid Hh Hc. unfold commit. destruct (ctx_cases d U s Hc) as [[-> Hctx]|(s1 & -> & (Hc1 & Hp1 & Hx1))]; [exists (inl ErrCtx), s, d; split; [done|]; split; [done|]; split; [done|]; split; [done|by left]|].
  assert (extends d d) as Hrefl by done. destruct Hh as [[-> ->]|(t & -> & Hp & <- & Hu & Hr)]; unfold isZero.
  { rewrite bool_decide_eq_true_2 by done. exists (inr tt), s1, d. split; [done|]. split; [done|]. split; [done|]. split; [done|by left]. }
  rewrite bool_decide_eq_false_2 by (by apply (u_nonzero _ HU)). rewrite Hp1. destruct (pending s !! root t) as [n|] eqn:En.
  2: { exists (inr tt), s1, d. split; [done|]. split; [done|]. split; [done|]. split; [done|]. apply pointed_holds; [done|done|]. destruct Hr as [[[? ?]|?] _]; [congruence|done]. }
  assert (child d (pending s1) noLoc t) as Hch by (rewrite Hp1; split; [right; split; [done|by eexists]|by apply rooted_rep]).
  destruct (writePack_spec io t s1 d Hd Hid Hu Hp Hch) as (r & p & d1 & -> & Hx & Hd1 & Er & Hres). assert (forall s, clean d U s -> clean d1 U s) as Hmore by (intros s0; apply clean_more, Hx).
  destruct r as [e|[loc pub]].
  { destruct Hres as [-> Hf]. exists (inl ErrIO), (set_pending p s1), d1. split; [done|]. split; [done|]. split; [done|]. split; [by apply clean_pending, Hmore|by right]. }
  destruct Hres as (Hcm & Hl & Hv & Hpub). destruct (publishRoot_spec io t loc d1 Hd1 Hu Hcm Hl Hv) as (r & d2 & -> & Hx2 & Hd2 & Hres).
  assert (extends d d2) as Hx' by (split; (etrans; [apply Hx|apply Hx2])). assert (forall s, clean d1 U s -> clean d2 U s) as Hmore2 by (intros s0; apply clean_more, Hx2).
  destruct r as [e|[]].
  - destruct Hres as [-> Hf]. exists (inl ErrIO), (set_pending p s1), d2. split; [done|]. split; [done|]. split; [done|]. split; [by apply Hmore2, clean_pending, Hmore|]. right. split; [done|].
    intros [(_ & _ & Hio) _]. destruct (io_shard io), (io_ptr_stage io), (io_ptr_clean io), (io_ptr_sync io), (io_stage io), (io_link io), (io_clean io); done.
  - eexists (inr tt), _, d2. split; [reflexivity|]. split; [done|]. split; [done|]. split; [|by apply pointed_holds].
    assert (clean d2 U (foldl (fun t c => remember (phash c) (pnode c) (ploc c) t) (set_pending p s1) pub)) as [H1 _] by (by apply Hmore2, remember_all; [apply clean_pending, Hmore|]).
    split; [exact H1|]. by intros ws id w.
Qed.

(** A commit adds one pack at most. *)
Lemma commit_packs io h s d : dom (packs (commit io h s d).2) ⊆ {[io_id io]} ∪ dom (packs d).
Proof using KH Or.
  clear HU U. unfold commit. destruct (ctx_Err s) as [[e|[]] s1]; [set_solver|]. destruct (isZero h); [set_solver|]. destruct (pending s1 !! h) as [n|]; [|set_solver].
  unfold writePack. destruct (emit _ _ _ _) as [[e|loc] w]; [set_solver|]. destruct (_ || _); [set_solver|]. destruct (packs d !! io_id io); [set_solver|]. destruct (negb (io_link io)); [set_solver|].
  destruct (io_clean io); [|cbn; rewrite dom_insert_L; set_solver]. unfold publishRoot. repeat case_match; simplify_eq; cbn; rewrite ?dom_insert_L; set_solver.
Qed.

Lemma remember_ctx h n l t : ctx (remember h n l t) = ctx t.
Proof. unfold remember. by repeat case_match. Qed.

Lemma commit_live io h s d : ctx s = None -> ctx (commit io h s d).1.2 = None.
Proof.
  intros E. unfold commit, ctx_Err. rewrite E. destruct (isZero h); [done|]. destruct (pending s !! h) as [n|]; [|done]. destruct (writePack _ _ _ _) as [[[e|[loc pub]] p] d1]; [done|].
  destruct (publishRoot _ _ _ _) as [[e|[]] d2]; [done|]. cbn. assert (forall s, ctx s = None -> ctx (foldl (fun t c => remember (phash c) (pnode c) (ploc c) t) s pub) = None) as H; [|by apply H].
  induction pub as [|c pub IH]; intros s0 E0; [done|]. apply IH. by rewrite remember_ctx.
Qed.

End Commit.
