(* ===== verification/RadixSafe.v ===== *)
(** * Lookups in damaged files

    Whatever the packs and root pointers hold, a lookup from a root gives the answer of the tree of that root or says that it
    is unavailable: every page it uses passed the digest its parent names. *)

From S2P Require Import Prelude GoLib Varint Radix RadixBits RadixTree RadixRead RadixSpec RadixTxn.

(** ** The pages in the files *)

(** What could be a page of a file: the bytes after each four that read as their number. *)
Definition records (f : bytes) : list bytes :=
  seq 0 (length f) ≫= (fun o =>
    let n := be_get (take 4 (drop o f)) in
    if (6 <=? n) && (n <=? Z.of_nat (length f - o - 4)) then [take (Z.to_nat n) (drop 4 (drop o f))] else []).

Definition disk_pages (d : disk) : list bytes := map_to_list (packs d) ≫= (fun e => records e.2).

Section Safe.
Context {KH : KeyHash} {Or : MapOrder} (d : disk).

Fixpoint subtrees (t : tree) : list tree := t :: match t with Leaf _ _ => [] | Branch _ t0 t1 => subtrees t0 ++ subtrees t1 end.

(** No page of the files passes for another page of the tree. *)
Definition genuine (t : tree) : bool :=
  let ps := (fun raw => (pageHash raw, raw)) <$> disk_pages d in
  forallb (fun x => let h := root x in let raw := page x in negb (isZero h) && forallb (fun e => implb (bool_decide (e.1 = h)) (bool_decide (e.2 = raw))) ps) (subtrees t).

Lemma subtrees_self t : t ∈ subtrees t.
Proof. destruct t; apply elem_of_cons; by left. Qed.

Lemma subtrees_sub t sk t0 t1 : Branch sk t0 t1 ∈ subtrees t -> t0 ∈ subtrees t /\ t1 ∈ subtrees t.
Proof.
  induction t as [k v|sk' u0 IH0 u1 IH1]; cbn [subtrees]; rewrite !elem_of_cons, ?elem_of_app; [intros [H|H]; [done|by apply elem_of_nil in H]|].
  intros [H|[H|H]]; [|destruct (IH0 H); auto|destruct (IH1 H); auto]. injection H as _ -> ->. split; right; [left|right]; apply subtrees_self.
Qed.

Lemma subtrees_placed t x : forall p, placed p t -> x ∈ subtrees t -> exists q, placed q x.
Proof.
  induction t as [k v|sk t0 IH0 t1 IH1]; intros p Hp; cbn [subtrees]; rewrite elem_of_cons, ?elem_of_app; [intros [->|H]; [by exists p|by apply elem_of_nil in H]|].
  destruct Hp as [P0 P1] eqn:E. intros [->|[H|H]]; [by exists p|by apply (IH0 _ P0)|by apply (IH1 _ P1)].
Qed.

Lemma genuine_spec t x : genuine t = true -> x ∈ subtrees t -> root x <> zeroHash /\ forall raw, raw ∈ disk_pages d -> pageHash raw = root x -> raw = page x.
Proof.
  unfold genuine. rewrite forallb_forall. intros H Hx%list_elem_of_In. specialize (H x Hx). apply andb_true_iff in H as [Hz Hp]. split; [by apply negb_true_iff, bool_decide_eq_false in Hz|].
  intros raw Hr He. rewrite forallb_forall in Hp. specialize (Hp (pageHash raw, raw)). cbn [fst snd] in Hp. rewrite bool_decide_eq_true_2 in Hp by done. apply (bool_decide_eq_true_1 (raw = page x)), Hp.
  apply list_elem_of_In, (list_elem_of_fmap_2 (fun raw => (pageHash raw, raw))), Hr.
Qed.

(** ** Reads *)

Lemma records_at f o n : (o < length f)%nat -> be_get (take 4 (drop o f)) = Z.of_nat n -> (6 <= n)%nat -> (n <= length f - o - 4)%nat -> take n (drop 4 (drop o f)) ∈ records f.
Proof.
  intros Ho Hn H1 H2. unfold records. apply list_elem_of_bind. exists o. split; [|by apply elem_of_seq; lia]. rewrite Hn, (proj2 (Z.leb_le 6 _)), (proj2 (Z.leb_le (Z.of_nat n) _)), Nat2Z.id by lia. cbn. by left.
Qed.

Lemma acquirePack_cases id : acquirePack d id = inl ErrUnavailable \/ exists f, acquirePack d id = inr f /\ packs d !! id = Some f.
Proof. unfold acquirePack. destruct (packs d !! id) as [f|]; [|by left]. case_bool_decide; [right; by exists f|by left]. Qed.

(** A record that is read is in the files and has its digest. *)
Lemma readRecordBytes_page h loc : readRecordBytes d h loc = inl ErrUnavailable \/ exists raw tr, readRecordBytes d h loc = inr (raw, tr) /\ pageHash raw = h /\ raw ∈ disk_pages d.
Proof.
  destruct (negb (valid loc) || (MaxInt <? off loc)) eqn:E1; [left; unfold readRecordBytes; by rewrite E1|]. destruct (acquirePack_cases (pack loc)) as [E2|(f & E2 & Hf)]; [left; unfold readRecordBytes; by rewrite E1, E2|].
  destruct ((Z.of_nat (length f) <? off loc) || (Z.of_nat (length f) - off loc <? Z.of_nat radixRecordHeaderLen)) eqn:E3; [left; unfold readRecordBytes; by rewrite E1, E2, E3|].
  pose proof E1 as [Hv Ho]%orb_false_iff. apply negb_false_iff in Hv. apply Z.ltb_ge in Ho. pose proof E3 as [H3 H4]%orb_false_iff. rewrite Z.ltb_ge in H3, H4. unfold radixRecordHeaderLen in H4.
  assert (0 <= off loc) as H0 by (unfold valid, radixPackHeaderLen in Hv; bsolve; lia). set (o := Z.to_nat (off loc)). set (n := be_get (take 4 (drop o f))).
  assert (be_get (take radixRecordHeaderLen (ReadAt f o (Nat.min radixRecordReadAhead (length f - o)))) = n) as En.
  { unfold ReadAt, n, radixRecordHeaderLen, radixRecordReadAhead. rewrite take_take. repeat f_equal. lia. }
  destruct ((n <? 6) || (n >? radixMaxPageBytes) || (n >? Z.of_nat (length f - o - radixRecordHeaderLen))) eqn:E4.
  { left. unfold readRecordBytes. rewrite E1, E2, E3. fold o. rewrite En, E4. done. }
  rewrite !orb_false_iff, !Z.gtb_ltb, !Z.ltb_ge in E4. destruct E4 as [[E5 E6] E7]. unfold radixRecordHeaderLen in E7.
  rewrite (readRecordBytes_simpl d h loc f (drop o f) (Z.to_nat n) Hv Ho E2 eq_refl); [|rewrite length_drop; lia|fold n; lia|lia|rewrite length_drop; lia].
  case_bool_decide as Eh; [|by left]. right. eexists _, _. split; [reflexivity|]. split; [done|]. unfold disk_pages. apply list_elem_of_bind. exists (pack loc, f). split; [|by apply elem_of_map_to_list].
  apply (records_at f o (Z.to_nat n)); unfold o in *; fold n; lia.
Qed.

(** A node as its page says it. *)
Definition paged (h : radixHash) (n : radixNode) : Prop :=
  exists raw m l0 l1, raw ∈ disk_pages d /\ pageHash raw = h /\ decodeRadixPage raw = inr m /\ n = set_locs m l0 l1.

Lemma decode_error raw e : decodeRadixPage raw = inl e -> e = ErrUnavailable.
Proof. unfold decodeRadixPage, decodeLeaf, decodeBranch. repeat case_match; congruence. Qed.

Lemma readRecord_paged h loc : readRecord d h loc = inl ErrUnavailable \/ exists n, readRecord d h loc = inr n /\ paged h n.
Proof.
  unfold readRecord. destruct (readRecordBytes_page h loc) as [->|(raw & tr & -> & Hh & Hd)]; [by left|]. cbn [recordNode]. destruct (decodeRadixPage raw) as [e|m] eqn:E; [left; by rewrite (decode_error raw e E)|].
  destruct m as [kh k v|sl sb c0 c1 m0 m1]; [right; eexists; split; [done|]; by exists raw, (LeafNode kh k v), noLoc, noLoc|]. destruct (length tr <? radixTrailerLen)%nat; [by left|]. destruct (_ || _); [by left|].
  right. eexists. split; [done|]. by eexists raw, (BranchNode sl sb c0 c1 m0 m1), _, _.
Qed.

Lemma readRoot_paged h : readRoot d h = inl ErrUnavailable \/ exists n l, readRoot d h = inr (n, l) /\ paged h n.
Proof.
  unfold readRoot. assert (readRootPointer d h = inl ErrUnavailable \/ exists l, readRootPointer d h = inr l) as [->|[l ->]]; [|by left|].
  { unfold readRootPointer. repeat case_match; eauto. }
  destruct (readRecord_paged h l) as [->|(n & -> & Hn)]; [by left|]. right. by exists n, l.
Qed.

(** What the cache holds was read from the files. *)
Definition sourced (s : txn) : Prop := forall h c, cache s !! h = Some c -> paged h (cnode c).

Lemma remember_sourced h n l s : sourced s -> paged h n -> sourced (remember h n l s).
Proof.
  intros Hs Hn. unfold remember. destruct n; [done|]. destruct (negb (valid l)); [done|]. intros h' c. cbn [cache set_cache]. rewrite lookup_insert_Some. intros [[<- <-]|[_ Hl]]; [done|].
  apply Hs. destruct (_ <=? _)%nat; [|done]. eapply lookup_weaken; [exact Hl|apply delete_subset].
Qed.

Lemma nodeAt_paged h loc s : sourced s -> exists s', kept sourced s s' /\ ((nodeAt d ∅ h loc s = (inl ErrUnavailable, s')) \/ exists n own, nodeAt d ∅ h loc s = (inr (n, own), s') /\ paged h n).
Proof.
  intros Hs. unfold nodeAt, nodeAtRA. rewrite lookup_empty. destruct (cache s !! h) as [c|] eqn:Ec; [exists s; split; [done|]; right; eexists _, _; split; [reflexivity|]; by apply Hs|].
  assert (forall n l, paged h n -> kept sourced s (remember h n l s)) as Hrem.
  { intros n l Hn. split; [by apply remember_sourced|]. unfold remember. by repeat case_match. }
  cbn [readRecordRA]. destruct (valid loc).
  - unfold readRecordRA. destruct (readRecord_paged h loc) as [->|(n & -> & Hn)]; [exists s; split; [done|by left]|]. eexists. split; [by apply Hrem|]. right. by eexists n, loc.
  - destruct (readRoot_paged h) as [->|(n & l & -> & Hn)]; [exists s; split; [done|by left]|]. eexists. split; [by apply Hrem|]. right. by eexists n, l.
Qed.

(** ** Lookups *)

Lemma paged_node t x n : placed [] t -> genuine t = true -> x ∈ subtrees t -> paged (root x) n -> exists l0 l1, n = node x l0 l1.
Proof.
  intros Hp Hg Hx (raw & m & l0 & l1 & Hd & Hh & Hm & ->). destruct (genuine_spec t x Hg Hx) as [_ Hraw]. rewrite (Hraw raw Hd Hh) in Hm. exists l0, l1.
  destruct (subtrees_placed t x [] Hp Hx) as [q Hq]. destruct x as [k v|sk t0 t1]; [rewrite decode_leaf in Hm by apply Hq; by injection Hm as <-|].
  destruct (subtrees_sub t sk t0 t1 Hx) as [H0 H1]. pose proof (branch_depth _ _ _ _ Hq). rewrite decode_branch in Hm by (lia || by apply (genuine_spec t)). by injection Hm as <-.
Qed.

Lemma sourced_reading t : placed [] t -> genuine t = true -> reading d (fun x => x ∈ subtrees t) (fun _ _ => True) sourced (fun e => e = ErrUnavailable) ∅.
Proof.
  intros Hp Hg. split.
  - apply subtrees_sub.
  - intros x Hx. by apply (genuine_spec t).
  - intros s Hs. unfold ctx_Err. destruct (ctx s) as [[|n]|] eqn:E; [by left|right|right]; eexists; (split; [reflexivity|]); [|done]. split; [exact Hs|]. split; [done|]. by rewrite E.
  - intros x loc s Hx _ Hs. destruct (nodeAt_paged (root x) loc s Hs) as (s' & Hk & [->|(n & own & -> & Hn)]); exists s'; (split; [done|]); [left; by eexists|right].
    destruct (paged_node t x n Hp Hg Hx Hn) as (l0 & l1 & ->). exists l0, l1, own. split; [done|]. by destruct x.
Qed.

Lemma lookup_sourced t key s : placed [] t -> genuine t = true -> sourced s ->
  exists r s', lookup d (root t) key s = (r, s') /\ kept sourced s s' /\ (r = answer (contents t) key \/ r = inl ErrUnavailable \/ (r = inl ErrCtx /\ ctx s <> None)).
Proof.
  intros Hp Hg Hs. pose proof (sourced_reading t Hp Hg) as HR. unfold lookup, lookupIn, mbind, M_bind.
  destruct (rd_ctx _ _ _ _ _ _ HR s Hs) as [[-> Hx]|(s1 & -> & Hs1)]; [exists (inl ErrCtx), s; split; [done|]; split; [done|by right; right]|].
  unfold isZero. rewrite bool_decide_eq_false_2 by apply (genuine_spec t t Hg (subtrees_self t)).
  destruct (lookup_loop_reads d _ _ _ _ _ HR key t [] (S radixHashBits) noLoc s1 (subtrees_self t) Hp (prefix_nil _) ltac:(cbn; lia) I (proj1 Hs1)) as (r & s' & H1 & H2 & H3).
  exists r, s'. split; [exact H1|]. split; [by eapply kept_trans|]. destruct H3 as [->|[[-> Hx]|(e & -> & ->)]]; [by left| |by right; left]. right; right. split; [done|]. intros E. by apply Hx, Hs1.
Qed.

End Safe.

(** C27: Damaged or forged files never change an answer.  For a tree of the index and files with any bytes in them, as long as no page in
    the files passes the digest of another page of the tree, a lookup from the root of the tree returns exactly what the tree
    holds under the key (its value, absence, or the collision of two keys with one digest), or reports the index unavailable, or
    the end of the context; and what it leaves in the cache was again read from pages that passed their digest. *)
Theorem lookup_exact_or_unavailable {KH : KeyHash} {Or : MapOrder} (d : disk) (t : tree) (key : bytes) (s : txn) : placed [] t -> genuine d t = true -> sourced d s ->
  exists r s', lookup d (root t) key s = (r, s') /\ sourced d s' /\
    (r = answer (contents t) key \/ r = inl ErrUnavailable \/ (r = inl ErrCtx /\ ctx s <> None)).
Proof. intros Hp Hg Hs. destruct (lookup_sourced d t key s Hp Hg Hs) as (r & s' & H1 & H2 & H3). exists r, s'. split; [done|]. split; [apply H2|done]. Qed.

Module Sample.

#[export] Instance sampleHash : KeyHash := {| hashKey := defaultKeyHash; hashKey_length k := Sha256.sum_length _ |}.
#[export] Instance sampleOrder : MapOrder := {| cacheOrder m := elements (dom m); windowOrder m := elements (dom m) |}.

Definition empty : disk := MkDisk ∅ ∅.
Definition start : txn := MkTxn None ∅ ∅ None.
Definition fine (id : Z) : commit_io := MkCommitIO id None true true true true true true true.

(** A tree of two keys, its files, and the files with the value of the first leaf changed. *)
Definition two : tree := tput 0 (str "b") (str "2") (Leaf (str "a") (str "1")).
Definition files : disk :=
  match (h ← insert empty zeroHash (str "a") (str "1"); insert empty h (str "b") (str "2")) start with
  | (inr h, s) => (commit (fine 7) h s empty).2
  | (inl _, _) => empty
  end.
Definition pack7 : bytes := Eval vm_compute in default [] (packs files !! 7).
Definition pointers : list (radixHash * bytes) := Eval vm_compute in map_to_list (roots files).
Definition damaged : disk := MkDisk {[7 := <[53%nat := x78]> pack7]} (list_to_map pointers).

End Sample.

#[local] Existing Instances Sample.sampleHash Sample.sampleOrder.

Lemma two_placed : placed [] Sample.two.
Proof.
  assert (leaf_ok (str "a") (str "1") /\ leaf_ok (str "b") (str "2")) as [H1 H2] by (split; split; [reflexivity|cbn; unfold radixMaxValueBytes; lia|reflexivity|cbn; unfold radixMaxValueBytes; lia]).
  assert (hashKey (str "a") <> hashKey (str "b")) as Hne by (apply (bool_decide_eq_false_1 _); vm_compute; reflexivity).
  unfold Sample.two. refine (proj1 (tput_spec (str "b") (str "2") (Leaf (str "a") (str "1")) H2 [] (conj H1 (prefix_nil _)) (prefix_nil _) _)).
  intros k Hk _. cbn [contents] in Hk. rewrite dom_singleton_L in Hk. apply elem_of_singleton in Hk as ->. exact Hne.
Qed.

(** One key is answered from the damaged files, the other is not. *)
Lemma lookup_exact_or_unavailable_witness :
  ((lookup Sample.damaged (root Sample.two) (str "a") Sample.start).1, (lookup Sample.damaged (root Sample.two) (str "b") Sample.start).1) = (inl ErrUnavailable, inr (Some (str "2"))) /\
  exists r s', lookup Sample.damaged (root Sample.two) (str "a") Sample.start = (r, s') /\ sourced Sample.damaged s' /\
    (r = answer (contents Sample.two) (str "a") \/ r = inl ErrUnavailable \/ (r = inl ErrCtx /\ ctx Sample.start <> None)).
Proof.
  split; [vm_compute; reflexivity|]. apply (lookup_exact_or_unavailable Sample.damaged Sample.two (str "a") Sample.start).
  - exact two_placed.
  - vm_compute. reflexivity.
  - by intros h c.
Defined.

(** A commit whose write fails leaves the places of an unpublished pack in the pages it holds: the same transaction committed again
    reports success, and the tree cannot be read from the files. *)
Definition retried : (radix_error + unit) * (radix_error + unit) * (radix_error + option bytes) :=
  match (h ← insert Sample.empty zeroHash (str "a") (str "1"); insert Sample.empty h (str "b") (str "2")) Sample.start with
  | (inr h, s) =>
      let '(r1, s1, d1) := commit (MkCommitIO 8 (Some 2%nat) true true true true true true true) h s Sample.empty in
      let '(r2, s2, d2) := commit (Sample.fine 9) h s1 d1 in
      (r1, r2, (lookup d2 h (str "a") (begin_ s2)).1)
  | (inl e, _) => (inl e, inl e, inl e)
  end.

Lemma retried_commit_loses : retried = (inl ErrIO, inr tt, inl ErrUnavailable).
Proof. vm_compute. reflexivity. Qed.
