(* ===== verification/Generations.v ===== *)
(** * The writer of delivery generations

    Models the write path of [src/internal/daemon/delivery_generation.go] over the delivery index: the writer of a commit call,
    its [update] and [insert], the intermediate and final publication of a generation by [finishCommit], and
    lookups in a committed generation.  The manifest a generation is appended to is not modelled: whether the append succeeds
    is an argument, and so is whether a record whose append failed is found when the store is opened again. *)

From S2P Require Import Prelude GoLib Varint Radix.

Section Generations.
Context {KH : KeyHash} {Or : MapOrder}.

(** The files, the index with the transaction of the open writer, [g.root], the writer's own root, the roots of the generations
    so far and [g.fault] with the root whose append failed. *)
Record store := MkStore { sdisk : disk; stxn : txn; sroot : radixHash; swriter : option radixHash; slog : list radixHash; sfault : option radixHash }.

Definition set_ctx (c : option nat) (t : txn) : txn := MkTxn c (cache t) (pending t) (ra t).

Definition emptyStore : store := MkStore (MkDisk ∅ ∅) (MkTxn None ∅ ∅ None) zeroHash None [] None.

(** What is asked of a store: a commit call begins; its keys are written and read; it publishes what it has, and goes on in a
    fresh transaction; a generation is read; the process ends and the store is opened again. *)
Inductive event :=
  | EOpen (c : option nat)
  | EUpdate (key : bytes) (f : radixDecide)
  | EInsert (key value : bytes)
  | ERead (key : bytes)
  | EFinish (io : commit_io) (append : bool)
  | ELookup (c : option nat) (i : nat) (key : bytes)
  | EReopen (adopt : bool).

Inductive reply := RUnit (r : radix_error + unit) | RValue (r : radix_error + option bytes) | RFault | RNone.

#[global] Instance radix_error_eq_dec : EqDecision radix_error. Proof. solve_decision. Defined.
#[global] Instance reply_eq_dec : EqDecision reply. Proof. solve_decision. Defined.

(** The end of a commit call that returns an error: the writer is gone. *)
Definition abandoned (d : disk) (t : txn) (s : store) : store := MkStore d t (sroot s) None (slog s) (sfault s).

Definition opened (c : option nat) (s : store) : store * reply :=
  match sfault s with
  | Some _ => (s, RFault)
  | None =>
      match ctx_Err (set_ctx c (stxn s)) with
      | (inl e, t) => (abandoned (sdisk s) t s, RUnit (inl e))
      | (inr _, t) => (MkStore (sdisk s) (begin_ t) (sroot s) (Some (sroot s)) (slog s) None, RUnit (inr tt))
      end
  end.

(** [genWriter.update] and [genWriter.insert]: the writer's root becomes what the transaction returns. *)
Definition wrote_root (s : store) (r : (radix_error + radixHash) * txn) : store * reply :=
  match r with
  | (inl e, t) => (abandoned (sdisk s) t s, RUnit (inl e))
  | (inr next, t) => (MkStore (sdisk s) t (sroot s) (Some next) (slog s) (sfault s), RUnit (inr tt))
  end.

Definition w_update (s : store) (w : radixHash) (key : bytes) (f : radixDecide) : store * reply := wrote_root s (update (sdisk s) w key f (stxn s)).
Definition w_insert (s : store) (w : radixHash) (key value : bytes) : store * reply := wrote_root s (insert (sdisk s) w key value (stxn s)).

Definition w_lookup (s : store) (w : radixHash) (key : bytes) : store * reply :=
  let '(r, t) := lookupIn (sdisk s) (pending (stxn s)) w key (stxn s) in
  (match r with
   | inl _ => abandoned (sdisk s) t s
   | inr _ => MkStore (sdisk s) t (sroot s) (Some w) (slog s) (sfault s)
   end, RValue r).

Definition finishCommit (io : commit_io) (append : bool) (s : store) (w : radixHash) : store * reply :=
  if bool_decide (w = sroot s) then (MkStore (sdisk s) (begin_ (stxn s)) (sroot s) (Some w) (slog s) (sfault s), RUnit (inr tt))
  else
    match commit io w (stxn s) (sdisk s) with
    | (inl e, t, d) => (abandoned d t s, RUnit (inl e))
    | (inr _, t, d) =>
        if append then (MkStore d (begin_ t) w (Some w) (slog s ++ [w]) (sfault s), RUnit (inr tt))
        else (MkStore d t (sroot s) None (slog s) (Some w), RFault)
    end.

(** [deliveryRadix.lookup] in a committed generation; the transaction of an open writer is another's. *)
Definition lookup_committed (c : option nat) (h : radixHash) (key : bytes) (s : store) : store * reply :=
  let '(r, t) := lookupIn (sdisk s) ∅ h key (set_ctx c (stxn s)) in
  (MkStore (sdisk s) (set_cache (cache t) (stxn s)) (sroot s) (swriter s) (slog s) (sfault s), RValue r).

Definition reopened (adopt : bool) (s : store) : store :=
  match (if adopt then sfault s else None) with
  | Some w => MkStore (sdisk s) (MkTxn None ∅ ∅ None) w None (slog s ++ [w]) None
  | None => MkStore (sdisk s) (MkTxn None ∅ ∅ None) (sroot s) None (slog s) None
  end.

Definition with_writer (f : radixHash -> store * reply) (s : store) : store * reply := match swriter s with Some w => f w | None => (s, RNone) end.

Definition gstep (s : store) (e : event) : store * reply :=
  match e with
  | EOpen c => opened c s
  | EUpdate key f => with_writer (fun w => w_update s w key f) s
  | EInsert key value => with_writer (fun w => w_insert s w key value) s
  | ERead key => with_writer (fun w => w_lookup s w key) s
  | EFinish io append => with_writer (finishCommit io append s) s
  | ELookup c i key => match slog s !! i with Some h => lookup_committed c h key s | None => (s, RNone) end
  | EReopen adopt => (reopened adopt s, RUnit (inr tt))
  end.

Fixpoint grun (s : store) (es : list event) : store * list reply :=
  match es with [] => (s, []) | e :: es => let '(s1, r) := gstep s e in let '(s2, rs) := grun s1 es in (s2, r :: rs) end.

End Generations.
