(* ===== verification/GenerationsSpec.v ===== *)
(** * What a store of generations promises

    A store is a map and the list of the maps that were published.  [astep] says which replies a map would give and where it goes
    from there; the theorem is that a store run from empty files, through commits that fail anywhere and restarts, never
    gives another. *)

From S2P Require Import Prelude GoLib Varint Radix RadixBits RadixTree RadixRead RadixSpec RadixTxn RadixCommit RadixSafe Generations.

Section Spec.
Context {KH : KeyHash} {Or : MapOrder}.

(** The current map, the writer's map, the maps published, the map whose record may or may not have been appended, whether the
    writer's context can end, and the pack ids tried. *)
Record astore := MkA { aroot : gmap bytes bytes; awork : option (gmap bytes bytes); alog : list (gmap bytes bytes); afault : option (gmap bytes bytes); aends : bool; aids : gset Z }.

Definition emptyA : astore := MkA ∅ None [] None false ∅.

Definition set_work (w : option (gmap bytes bytes)) (a : astore) : astore := MkA (aroot a) w (alog a) (afault a) (aends a) (aids a).
Definition add_id (id : Z) (a : astore) : astore := MkA (aroot a) (awork a) (alog a) (afault a) (aends a) ({[id]} ∪ aids a).

(** A reply and the state it leads to, if it is the one expected. *)
Definition expect (r : reply) (want : reply) (a : astore) : option astore := if bool_decide (r = want) then Some a else None.

(** A context that can end may be found ended. *)
Definition or_ended (r want : reply) (ended a : astore) (next : option astore) : option astore := if aends a && bool_decide (r = want) then Some ended else next.

Definition a_update (a : astore) (m : gmap bytes bytes) (key : bytes) (f : radixDecide) (r : reply) : option astore :=
  or_ended r (RUnit (inl ErrCtx)) (set_work None a) a
    (if negb (key_ok key) then expect r (RUnit (inl ErrTooLarge)) (set_work None a)
     else match plan m key f with
     | inl e => expect r (RUnit (inl e)) (set_work None a)
     | inr None => expect r (RUnit (inr tt)) a
     | inr (Some v) => expect r (RUnit (inr tt)) (set_work (Some (<[key := v]> m)) a)
     end).

Definition a_insert (a : astore) (m : gmap bytes bytes) (key value : bytes) (r : reply) : option astore :=
  if Z.of_nat (length value) >? radixMaxValueBytes then expect r (RUnit (inl ErrTooLarge)) (set_work None a) else a_update a m key (put value) r.

Definition a_read (a : astore) (m : gmap bytes bytes) (key : bytes) (r : reply) : option astore :=
  or_ended r (RValue (inl ErrCtx)) (set_work None a) a
    (expect r (RValue (answer m key)) (match answer m key with inl _ => set_work None a | inr _ => a end)).

(** The file system does what it is asked, for a pack that can be addressed. *)
Definition io_good (io : commit_io) (ids : gset Z) (m : gmap bytes bytes) : bool :=
  bool_decide (io_id io ∉ ids) && bool_decide (io_writes io = None) && (8 + 2 * Z.of_nat (size m) * room <=? MaxInt) &&
  (io_stage io && io_link io && io_clean io && io_shard io && io_ptr_stage io && io_ptr_clean io && io_ptr_sync io).

(** A map that is not the current one is published, unless the context or the file system fails. *)
Definition a_finish (a : astore) (m : gmap bytes bytes) (io : commit_io) (append : bool) (r : reply) : option astore :=
  if bool_decide (m = aroot a) then expect r (RUnit (inr tt)) a
  else
    let a' := add_id (io_id io) a in
    or_ended r (RUnit (inl ErrCtx)) (set_work None a') a
      (if negb (io_good io (aids a) m) && bool_decide (r = RUnit (inl ErrIO)) then Some (set_work None a')
       else if append then expect r (RUnit (inr tt)) (MkA m (Some m) (alog a' ++ [m]) (afault a') (aends a') (aids a'))
       else expect r RFault (MkA (aroot a') None (alog a') (Some m) (aends a') (aids a'))).

Definition a_reopen (adopt : bool) (a : astore) : astore :=
  match (if adopt then afault a else None) with
  | Some m => MkA m None (alog a ++ [m]) None false (aids a)
  | None => MkA (aroot a) None (alog a) None false (aids a)
  end.

Definition with_work (f : gmap bytes bytes -> option astore) (a : astore) (r : reply) : option astore := match awork a with Some m => f m | None => expect r RNone a end.

Definition astep (a : astore) (e : event) (r : reply) : option astore :=
  match e with
  | EOpen c =>
      match afault a with
      | Some _ => expect r RFault a
      | None =>
          let a' := MkA (aroot a) None (alog a) None (bool_decide (c <> None)) (aids a) in
          or_ended r (RUnit (inl ErrCtx)) a' a' (expect r (RUnit (inr tt)) (set_work (Some (aroot a)) a'))
      end
  | EUpdate key f => with_work (fun m => a_update a m key f r) a r
  | EInsert key value => with_work (fun m => a_insert a m key value r) a r
  | ERead key => with_work (fun m => a_read a m key r) a r
  | EFinish io append => with_work (fun m => a_finish a m io append r) a r
  | ELookup c i key =>
      match alog a !! i with
      | Some m => if bool_decide (c <> None) && bool_decide (r = RValue (inl ErrCtx)) then Some a else expect r (RValue (answer m key)) a
      | None => expect r RNone a
      end
  | EReopen adopt => expect r (RUnit (inr tt)) (a_reopen adopt a)
  end.

Fixpoint monitor (a : astore) (es : list event) (rs : list reply) : option astore :=
  match es, rs with
  | [], [] => Some a
  | e :: es, r :: rs => match astep a e r with Some a => monitor a es rs | None => None end
  | _, _ => None
  end.

(** The map an event would write. *)
Definition wanted (a : astore) (e : event) : list (gmap bytes bytes) :=
  match awork a, e with
  | Some m, EUpdate key f => match plan m key f with inr (Some v) => [<[key := v]> m] | _ => [] end
  | Some m, EInsert key value => match plan m key (put value) with inr (Some v) => [<[key := v]> m] | _ => [] end
  | _, _ => []
  end.

Fixpoint visited (a : astore) (es : list event) (rs : list reply) : list (gmap bytes bytes) :=
  match es, rs with
  | e :: es, r :: rs => wanted a e ++ match astep a e r with Some a => visited a es rs | None => [] end
  | _, _ => []
  end.

(** Pack ids are drawn from the non-zero 64-bit numbers. *)
Definition event_ok (e : event) : Prop := match e with EFinish io _ => 0 < io_id io < 2 ^ 64 | _ => True end.

Context (U : tree -> Prop) (HU : universe U).

Definition good (m : gmap bytes bytes) : Prop := covered U m /\ spread m.

Definition keeps (d : disk) (h : radixHash) (m : gmap bytes bytes) : Prop := holds d U ∅ h m /\ spread m.

Record refines (s : store) (a : astore) : Prop := {
  r_disk : disk_ok U (sdisk s);
  r_ids : dom (packs (sdisk s)) ⊆ aids a;
  r_clean : clean (sdisk s) U (stxn s);
  r_root : keeps (sdisk s) (sroot s) (aroot a);
  r_log : Forall2 (keeps (sdisk s)) (slog s) (alog a);
  r_fault : option_Forall2 (keeps (sdisk s)) (sfault s) (afault a);
  r_work : option_Forall2 (fun h m => holds (sdisk s) U (pending (stxn s)) h m /\ spread m) (swriter s) (awork a);
  r_ctx : aends a = false -> ctx (stxn s) = None
}.

(** ** Roots and maps *)

Lemma holds_inj d p p' h m m' : holds d U p h m -> holds d U p' h m' -> m = m'.
Proof.
  intros [[-> ->]|(t & -> & _ & <- & Hu & _)] [[E ->]|(t' & E & _ & <- & Hu' & _)]; [done|by destruct (u_nonzero _ HU _ Hu')|by destruct (u_nonzero _ HU _ Hu)|].
  by apply (u_inj _ HU) in E as ->.
Qed.

Lemma holds_fun d p p' h h' m : holds d U p h m -> holds d U p' h' m -> h = h'.
Proof.
  intros [[-> ->]|(t & -> & Hp & <- & Hu & _)] [[-> E]|(t' & -> & Hp' & E & Hu' & _)]; [done| | |].
  - destruct (some_key t') as [k Hk]. unfold keys in Hk. rewrite E in Hk. set_solver.
  - destruct (some_key t) as [k Hk]. unfold keys in Hk. rewrite E in Hk. set_solver.
  - apply patricia_canonical in Hp, Hp'. congruence.
Qed.

(** ** The operations *)

Lemma keeps_more d d' h m : extends d d' -> keeps d h m -> keeps d' h m.
Proof. intros Hx [H1 H2]. split; [by eapply durable_more|done]. Qed.

(** The writer is gone. *)
Lemma abandoned_refines s a d t : refines s a -> extends (sdisk s) d -> disk_ok U d -> dom (packs d) ⊆ aids a -> clean d U t -> (aends a = false -> ctx t = None) ->
  refines (abandoned d t s) (set_work None a).
Proof.
  intros [R1 R2 R3 R4 R5 R6 R7 R8] Hx Hd Hi Hc Hctx. split; cbn; try done.
  - by apply (keeps_more (sdisk s)).
  - eapply Forall2_impl; [exact R5|]. intros h m. by apply keeps_more.
  - destruct R6; constructor. by apply (keeps_more (sdisk s)).
  - constructor.
Qed.

Lemma abandoned_same s a t : refines s a -> clean (sdisk s) U t -> (aends a = false -> ctx t = None) -> refines (abandoned (sdisk s) t s) (set_work None a).
Proof. intros Hr Hc Hctx. apply abandoned_refines; [done|done|apply Hr|apply Hr|done|done]. Qed.

(** The writer's map moves. *)
Lemma moved_refines s a w m t : refines s a -> clean (sdisk s) U t -> (aends a = false -> ctx t = None) -> holds (sdisk s) U (pending t) w m -> spread m ->
  refines (MkStore (sdisk s) t (sroot s) (Some w) (slog s) (sfault s)) (set_work (Some m) a).
Proof. intros [R1 R2 R3 R4 R5 R6 R7 R8] Hc Hctx Hh Hs. split; cbn; try done. by constructor. Qed.

Lemma set_work_id m a : awork a = Some m -> set_work (Some m) a = a.
Proof. destruct a; cbn. by intros ->. Qed.

Lemma expect_ok r a : expect r r a = Some a.
Proof. unfold expect. by rewrite bool_decide_eq_true_2. Qed.

(** A reply that is expected is given; the one that says that the context has ended is not another. *)
Lemma or_ended_ok r want ended a next : (aends a = true /\ r = want) \/ r <> want -> or_ended r want ended a next = if bool_decide (r = want) then Some ended else next.
Proof. unfold or_ended. intros [[-> ->]|Hne]; [by rewrite bool_decide_eq_true_2|]. by rewrite bool_decide_eq_false_2, andb_false_r. Qed.

Lemma ctx_ends s a : refines s a -> ctx (stxn s) <> None -> aends a = true.
Proof. intros Hr Hx. destruct (aends a) eqn:E; [done|]. by destruct Hx; apply Hr. Qed.

Lemma still_live s a t : refines s a -> same_pages (sdisk s) U (stxn s) t -> aends a = false -> ctx t = None.
Proof. intros Hr (_ & _ & Hx) E. by apply Hx, Hr. Qed.

Lemma plan_not_ctx m k f : plan m k f <> inl ErrCtx.
Proof.
  unfold plan, answer, decision. repeat case_match; try done; congruence.
Qed.

Lemma update_refines s a w m k f : refines s a -> swriter s = Some w -> awork a = Some m -> (forall v, plan m k f = inr (Some v) -> good (<[k := v]> m)) ->
  exists a', a_update a m k f (w_update s w k f).2 = Some a' /\ refines (w_update s w k f).1 a'.
Proof.
  intros Hr Hw Hm Hgood. pose proof (r_work _ _ Hr) as Hwk. rewrite Hw, Hm in Hwk. inversion_clear Hwk as [? ? [Hh Hs]|]. unfold w_update, a_update.
  destruct (key_ok k) eqn:Ek; cbn [negb].
  - destruct (update_spec (sdisk s) U HU w m k f (stxn s) Hh (r_clean _ _ Hr) Hs Ek) as (r & t & -> & Hu); [intros v Hv; by apply Hgood|].
    destruct Hu as [(-> & Hx & Hsame)|Hu]; cbn [wrote_root fst snd].
    { rewrite or_ended_ok, bool_decide_eq_true_2 by (done || (left; split; [by eapply ctx_ends|done])). eexists. split; [done|]. apply abandoned_same; [done|apply Hsame|by eapply still_live]. }
    pose proof (plan_not_ctx m k f) as Hne. destruct (plan m k f) as [e|[v|]].
    + destruct Hu as [-> Hsame]. cbn [wrote_root fst snd]. assert (RUnit (inl e) <> RUnit (inl ErrCtx)) as Hn by congruence.
      rewrite or_ended_ok, bool_decide_eq_false_2, expect_ok by (done || by right). eexists. split; [done|]. apply abandoned_same; [done|apply Hsame|by eapply still_live].
    + destruct Hu as (h' & -> & Hc & Hx & Hh'). cbn [wrote_root fst snd]. rewrite or_ended_ok, bool_decide_eq_false_2, expect_ok by (done || by right). eexists. split; [done|].
      apply moved_refines; [done|done| |done|by apply Hgood]. intros E. by apply Hx, Hr.
    + destruct Hu as [-> Hsame]. cbn [wrote_root fst snd]. rewrite or_ended_ok, bool_decide_eq_false_2, expect_ok by (done || by right). eexists. split; [done|].
      rewrite <- (set_work_id m a) by done. apply moved_refines; [done|apply Hsame|by eapply still_live| |done]. destruct Hsame as (_ & -> & _). done.
  - unfold update, mbind, M_bind. destruct (ctx_cases (sdisk s) U (stxn s) (r_clean _ _ Hr)) as [[-> Hx]|(t & -> & Hsame)]; [|rewrite Ek]; cbn [wrote_root fst snd negb fail].
    + rewrite or_ended_ok, bool_decide_eq_true_2 by (done || (left; split; [by eapply ctx_ends|done])). eexists. split; [done|]. apply abandoned_same; [done|apply Hr|apply Hr].
    + rewrite or_ended_ok, bool_decide_eq_false_2, expect_ok by (done || by right). eexists. split; [done|]. apply abandoned_same; [done|apply Hsame|by eapply still_live].
Qed.

Lemma insert_refines s a w m k v : refines s a -> swriter s = Some w -> awork a = Some m -> (forall v', plan m k (put v) = inr (Some v') -> good (<[k := v']> m)) ->
  exists a', a_insert a m k v (w_insert s w k v).2 = Some a' /\ refines (w_insert s w k v).1 a'.
Proof.
  intros Hr Hw Hm Hgood. unfold w_insert, a_insert, Radix.insert. destruct (_ >? _); [|by apply update_refines]. cbn [fail wrote_root fst snd]. rewrite expect_ok. eexists. split; [done|].
  apply abandoned_same; [done|apply Hr|apply Hr].
Qed.

Lemma read_refines s a w m k : refines s a -> swriter s = Some w -> awork a = Some m -> exists a', a_read a m k (w_lookup s w k).2 = Some a' /\ refines (w_lookup s w k).1 a'.
Proof.
  intros Hr Hw Hm. pose proof (r_work _ _ Hr) as Hwk. rewrite Hw, Hm in Hwk. inversion_clear Hwk as [? ? [Hh Hs]|]. unfold w_lookup, a_read.
  destruct (lookupIn_spec (sdisk s) U HU _ w m k (stxn s) Hh (r_clean _ _ Hr)) as (r & t & -> & Hsame & [->|[-> Hx]]); cbn [fst snd].
  - rewrite or_ended_ok by (right; unfold answer; repeat case_match; congruence). rewrite bool_decide_eq_false_2, expect_ok by (unfold answer; repeat case_match; congruence). eexists. split; [done|].
    destruct (answer m k); [apply abandoned_same; [done|apply Hsame|by eapply still_live]|]. rewrite <- (set_work_id m a) by done. apply moved_refines; [done|apply Hsame|by eapply still_live| |done].
    destruct Hsame as (_ & -> & _). done.
  - rewrite or_ended_ok, bool_decide_eq_true_2 by (done || (left; split; [by eapply ctx_ends|done])). eexists. split; [done|]. apply abandoned_same; [done|apply Hsame|by eapply still_live].
Qed.

Lemma io_good_failed io s a m : refines s a -> io_failed io (sdisk s) m -> io_good io (aids a) m = false.
Proof.
  intros Hr Hf. destruct (io_good io (aids a) m) eqn:E; [|done]. destruct Hf. unfold io_good in E. apply andb_true_iff in E as [[[E1 E2]%andb_true_iff E3]%andb_true_iff E4].
  apply bool_decide_eq_true in E1, E2. apply Z.leb_le in E3. split; [|done]. split; [|by split]. apply not_elem_of_dom. intros Hin. by apply E1, (r_ids _ _ Hr).
Qed.

Lemma begin_clean d t : clean d U t -> clean d U (begin_ t).
Proof. intros [Hc _]. split; [exact Hc|]. by intros ws id w. Qed.

(** A generation that is published, or whose record may be. *)
Lemma published_refines s a d t w m (append : bool) : refines s a -> extends (sdisk s) d -> disk_ok U d -> dom (packs d) ⊆ aids a -> clean d U t -> (aends a = false -> ctx t = None) -> keeps d w m ->
  refines (if append then MkStore d (begin_ t) w (Some w) (slog s ++ [w]) (sfault s) else MkStore d t (sroot s) None (slog s) (Some w))
    (if append then MkA m (Some m) (alog a ++ [m]) (afault a) (aends a) (aids a) else MkA (aroot a) None (alog a) (Some m) (aends a) (aids a)).
Proof.
  intros Hr Hx Hd Hi Hc Hctx Hk. pose proof (abandoned_refines s a d t Hr Hx Hd Hi Hc Hctx) as [R1 R2 R3 R4 R5 R6 R7 R8]. destruct append; split; cbn in *; try done.
  - by apply begin_clean.
  - by apply Forall2_app; [|constructor].
  - by constructor.
  - by constructor.
Qed.

Lemma finish_refines s a w m io append : refines s a -> swriter s = Some w -> awork a = Some m -> 0 < io_id io < 2 ^ 64 ->
  exists a', a_finish a m io append (finishCommit io append s w).2 = Some a' /\ refines (finishCommit io append s w).1 a'.
Proof.
  intros Hr Hw Hm Hid. pose proof (r_work _ _ Hr) as Hwk. rewrite Hw, Hm in Hwk. inversion_clear Hwk as [? ? [Hh Hs]|]. unfold finishCommit, a_finish. pose proof (r_root _ _ Hr) as [Hroot Hsr].
  assert (bool_decide (m = aroot a) = bool_decide (w = sroot s)) as ->.
  { apply bool_decide_ext. split; [intros E; rewrite E in Hh; by eapply holds_fun|intros E; rewrite E in Hh; by eapply holds_inj]. }
  case_bool_decide as Ew.
  { cbn [fst snd]. rewrite expect_ok. eexists. split; [done|]. rewrite <- (set_work_id m a) by done. apply (moved_refines s a w m (begin_ (stxn s))); [done|by apply begin_clean, Hr|apply Hr| |done].
    assert (m = aroot a) as -> by (rewrite Ew in Hh; by eapply holds_inj). by rewrite Ew. }
  pose proof (commit_packs io w (stxn s) (sdisk s)) as Hpk. pose proof (commit_live io w (stxn s) (sdisk s)) as Hlive.
  destruct (commit_spec U HU io w m (stxn s) (sdisk s) (r_disk _ _ Hr) Hid Hh (r_clean _ _ Hr)) as (r & t & d & E & Hx & Hd & Hc & Hres). rewrite E in *. cbn [fst snd] in Hpk, Hlive.
  set (a' := add_id (io_id io) a). assert (refines s a') as Hr' by (destruct Hr; split; try done; cbn; set_solver).
  assert (dom (packs d) ⊆ aids a') as Hi by (cbn; pose proof (r_ids _ _ Hr); set_solver). assert (aends a' = false -> ctx t = None) as Hctx by (intros H; by apply Hlive, Hr).
  destruct r as [e|[]]; cbn [fst snd].
  - pose proof (abandoned_refines s a' d t Hr' Hx Hd Hi Hc Hctx) as Hab. destruct Hres as [[-> Hn]|[-> Hf]].
    + rewrite or_ended_ok, bool_decide_eq_true_2 by (done || (left; split; [by eapply ctx_ends|done])). by eexists.
    + rewrite or_ended_ok, bool_decide_eq_false_2 by (done || by right). rewrite (io_good_failed _ _ _ _ Hr Hf), bool_decide_eq_true_2 by done. by eexists.
  - pose proof (published_refines s a' d t w m append Hr' Hx Hd Hi Hc Hctx (conj Hres Hs)) as Hp. rewrite or_ended_ok by (right; by destruct append). rewrite bool_decide_eq_false_2 by by destruct append.
    rewrite (bool_decide_eq_false_2 (_ = RUnit (inl ErrIO))), andb_false_r by by destruct append. destruct append; cbn [fst snd]; rewrite expect_ok; by eexists.
Qed.

Lemma opened_refines s a c : refines s a -> exists a', astep a (EOpen c) (opened c s).2 = Some a' /\ refines (opened c s).1 a'.
Proof.
  intros Hr. cbn [astep]. unfold opened. pose proof (r_fault _ _ Hr) as Hf. destruct (sfault s) as [w|] eqn:Es, (afault a) as [m|] eqn:Ea; try by inversion Hf.
  { cbn [fst snd]. rewrite expect_ok. by eexists. }
  set (a' := MkA _ _ _ _ _ _). assert (refines (abandoned (sdisk s) (set_ctx c (stxn s)) s) a') as Hr'.
  { destruct Hr as [R1 R2 R3 R4 R5 R6 R7 R8]. split; cbn; try done; [by rewrite Es; constructor|constructor|]. intros H%bool_decide_eq_false. destruct c; [by destruct H|done]. }
  destruct (ctx_cases (sdisk s) U (set_ctx c (stxn s)) (r_clean _ _ Hr')) as [[-> Hn]|(t & -> & Hsame)]; cbn [fst snd].
  - rewrite or_ended_ok, bool_decide_eq_true_2 by (done || (left; split; [by eapply (ctx_ends _ a' Hr')|done])). by eexists.
  - rewrite or_ended_ok, bool_decide_eq_false_2, expect_ok by (done || by right). eexists. split; [done|].
    pose proof (moved_refines _ a' (sroot s) (aroot a) (begin_ t) Hr' ltac:(apply begin_clean, Hsame) ltac:(intros H; by apply Hsame, (r_ctx _ _ Hr')) (proj1 (r_root _ _ Hr)) (proj2 (r_root _ _ Hr))) as H.
    cbn in H. by rewrite Es in H.
Qed.

Lemma lookup_refines s a c i k h : refines s a -> slog s !! i = Some h -> exists a', astep a (ELookup c i k) (lookup_committed c h k s).2 = Some a' /\ refines (lookup_committed c h k s).1 a'.
Proof.
  intros Hr Hl. destruct (Forall2_lookup_l _ _ _ _ _ (r_log _ _ Hr) Hl) as (m & Hm & [Hh _]). cbn [astep]. rewrite Hm. unfold lookup_committed.
  destruct (lookupIn_spec (sdisk s) U HU ∅ h m k (set_ctx c (stxn s)) Hh (r_clean _ _ Hr)) as (r & t & -> & Hsame & Hres). cbn [fst snd].
  assert (refines (MkStore (sdisk s) (set_cache (cache t) (stxn s)) (sroot s) (swriter s) (slog s) (sfault s)) a) as Hr'.
  { destruct Hr as [R1 R2 R3 R4 R5 R6 R7 R8]. split; cbn; try done. split; [apply Hsame|apply R3]. }
  exists a. split; [|done]. destruct Hres as [->|[-> Hc]].
  - rewrite (bool_decide_eq_false_2 (_ = RValue (inl ErrCtx))) by (unfold answer; repeat case_match; congruence). by rewrite andb_false_r, expect_ok.
  - cbn [set_ctx ctx] in Hc. by rewrite !bool_decide_eq_true_2.
Qed.

Lemma reopened_refines s a adopt : refines s a -> refines (reopened adopt s) (a_reopen adopt a).
Proof.
  intros [R1 R2 R3 R4 R5 R6 R7 R8]. unfold reopened, a_reopen. assert (clean (sdisk s) U (MkTxn None ∅ ∅ None)) as Hc by (split; [by intros h c|by intros ws id w]).
  destruct adopt; [destruct R6 as [w m Hk|]|]; split; cbn; try done; try constructor. by apply Forall2_app; [|constructor].
Qed.

(** ** Runs *)

Lemma writer_cases s a : refines s a -> (swriter s = None /\ awork a = None) \/ exists w m, swriter s = Some w /\ awork a = Some m.
Proof. intros Hr. destruct (r_work _ _ Hr); [right; by eexists _, _|by left]. Qed.

Lemma gstep_refines s a e : refines s a -> event_ok e -> Forall good (wanted a e) -> exists a', astep a e (gstep s e).2 = Some a' /\ refines (gstep s e).1 a'.
Proof.
  intros Hr Hok Hg. destruct e as [c|k f|k v|k|io append|c i k|adopt]; cbn [gstep]; [by apply opened_refines| | | | | |].
  5: { pose proof (r_log _ _ Hr) as Hl. destruct (slog s !! i) as [h|] eqn:Ei; [by apply lookup_refines|]. cbn [astep fst snd].
    assert (alog a !! i = None) as -> by (apply lookup_ge_None; apply lookup_ge_None in Ei; by rewrite <- (Forall2_length _ _ _ Hl)). rewrite expect_ok. by eexists. }
  5: { cbn [astep fst snd]. rewrite expect_ok. eexists. split; [done|]. by apply reopened_refines. }
  all: cbn [astep]; unfold with_writer, with_work; destruct (writer_cases s a Hr) as [[Hw Hm]|(w & m & Hw & Hm)]; rewrite Hw, Hm; [cbn [fst snd]; rewrite expect_ok; by eexists|]; unfold wanted in Hg; rewrite Hm in Hg.
  - apply update_refines; [done|done|done|]. intros v Hv. rewrite Hv in Hg. apply Forall_cons in Hg as [Hg _]. exact Hg.
  - apply insert_refines; [done|done|done|]. intros v' Hv. rewrite Hv in Hg. apply Forall_cons in Hg as [Hg _]. exact Hg.
  - by apply read_refines.
  - by apply finish_refines.
Qed.

Lemma run_refines es : forall s a, refines s a -> Forall event_ok es -> Forall good (visited a es (grun s es).2) ->
  exists a', monitor a es (grun s es).2 = Some a' /\ refines (grun s es).1 a'.
Proof.
  induction es as [|e es IH]; intros s a Hr Hok Hg; [by exists a|]. apply Forall_cons in Hok as [Hok Hoks]. cbn [grun] in *. destruct (gstep s e) as [s1 r] eqn:Es. destruct (grun s1 es) as [s2 rs] eqn:Er.
  cbn [fst snd visited monitor] in *. apply Forall_app in Hg as [Hg1 Hg2]. destruct (gstep_refines s a e Hr Hok Hg1) as (a1 & Ha & Hr1). rewrite Es in Ha, Hr1. cbn [fst snd] in *. rewrite Ha in *.
  destruct (IH s1 a1 Hr1 Hoks) as (a2 & H1 & H2); rewrite Er in *; [exact Hg2|]. by exists a2.
Qed.

Lemma empty_refines : refines emptyStore emptyA.
Proof.
  split; cbn.
  - split; intros; by simplify_map_eq.
  - rewrite dom_empty_L. done.
  - split; [by intros h c|by intros ws id w].
  - split; [by left|]. intros k k'. set_solver.
  - constructor.
  - constructor.
  - constructor.
  - done.
Qed.

End Spec.

(** C26: A store of delivery generations is a map and the history of its published versions.  Run from empty files through any sequence
    of commit calls, updates, inserts, reads, publications that fail at any point, lookups in any generation ever published and
    restarts, every reply is the one the abstract store allows: updates and lookups answer exactly what the
    map holds, a publication that reports success is durable and found after a restart, one that fails leaves the current
    generation as it was, a publication fails only when the context has ended or the file system fails, and no generation ever
    changes.  The trees of the maps the run writes are told apart by their page digests ([universe], [good]). *)
Theorem generations_refine {KH : KeyHash} {Or : MapOrder} (U : tree -> Prop) (es : list event) : universe U -> Forall event_ok es ->
  Forall (good U) (visited emptyA es (grun emptyStore es).2) ->
  exists a, monitor emptyA es (grun emptyStore es).2 = Some a /\ refines U (grun emptyStore es).1 a.
Proof. intros HU Hok Hg. apply run_refines; [done|by apply empty_refines|done|done]. Qed.

(** ** A run *)

Section Check.
Context {KH : KeyHash}.

#[local] Instance tree_eq_dec : EqDecision tree.
Proof. solve_decision. Defined.

(** The trees of some maps, and whether they are told apart. *)
Definition trees_of (ms : list (gmap bytes bytes)) : list tree := remove_dups (ms ≫= (fun m => match patricia m with Some t => subtrees t | None => [] end)).
Definition apart_check (ts : list tree) : bool := let rs := root <$> ts in bool_decide (NoDup rs) && bool_decide (zeroHash ∉ rs).
Definition spread_check (m : gmap bytes bytes) : bool := bool_decide (NoDup ((fun k => take 255 (kbits k)) <$> elements (dom m))).

Lemma trees_universe ms : apart_check (trees_of ms) = true -> universe (fun t => t ∈ trees_of ms).
Proof.
  unfold apart_check. rewrite andb_true_iff, !bool_decide_eq_true. intros [Hn Hz]. split.
  - intros sk t0 t1. unfold trees_of. rewrite !elem_of_remove_dups, !list_elem_of_bind. intros (m & Hb & Hm). destruct (patricia m) as [t|] eqn:E; [|by apply elem_of_nil in Hb].
    apply subtrees_sub in Hb as [H0 H1]. split; exists m; rewrite E; done.
  - intros t t' [i Hi]%list_elem_of_lookup [j Hj]%list_elem_of_lookup He. assert (i = j) as ->; [|congruence].
    apply (NoDup_lookup _ i j (root t) Hn); rewrite list_lookup_fmap; [by rewrite Hi|by rewrite Hj, He].
  - intros t Ht E. apply Hz. rewrite <- E. by apply list_elem_of_fmap_2.
Qed.

Lemma trees_good ms : forallb spread_check ms = true -> Forall (good (fun t => t ∈ trees_of ms)) ms.
Proof.
  intros Hs. apply Forall_forall. intros m Hm. split.
  - intros t Hp <-. unfold trees_of. rewrite elem_of_remove_dups, list_elem_of_bind. exists (contents t). rewrite patricia_canonical by done. split; [apply subtrees_self|done].
  - rewrite forallb_forall in Hs. specialize (Hs m (proj1 (list_elem_of_In _ _) Hm)). apply bool_decide_eq_true in Hs. intros k k' Hk Hk' Hne He. apply Hne.
    apply elem_of_elements, list_elem_of_lookup in Hk as [i Hi], Hk' as [j Hj]. assert (i = j) as ->; [|congruence].
    apply (NoDup_lookup _ i j (take 255 (kbits k)) Hs); rewrite list_lookup_fmap; [by rewrite Hi|by rewrite Hj, He].
Qed.

End Check.

Module Demo.

Definition cut (id : Z) (n : nat) : commit_io := MkCommitIO id (Some n) true true true true true true true.

(** A generation is published, the next write is lost, and a third generation whose append failed is found again. *)
Definition events : list event :=
  [EOpen None; EInsert (str "a") (str "1"); EFinish (Sample.fine 7) true; EInsert (str "b") (str "2"); EFinish (cut 8 1) true;
   EOpen (Some 9%nat); EInsert (str "b") (str "3"); EFinish (Sample.fine 9) false; EReopen true; ELookup None 0 (str "b"); ELookup None 1 (str "b")].

Definition replies : list reply :=
  [RUnit (inr tt); RUnit (inr tt); RUnit (inr tt); RUnit (inr tt); RUnit (inl ErrIO);
   RUnit (inr tt); RUnit (inr tt); RFault; RUnit (inr tt); RValue (inr None); RValue (inr (Some (str "3")))].

Definition maps : list (gmap bytes bytes) := [{[str "a" := str "1"]}; {[str "a" := str "1"; str "b" := str "2"]}; {[str "a" := str "1"; str "b" := str "3"]}].

End Demo.

#[local] Existing Instances Sample.sampleHash Sample.sampleOrder.

(** At a run with a failed write, a failed append and a restart. *)
Lemma generations_refine_witness : exists a, monitor emptyA Demo.events Demo.replies = Some a /\ refines (fun t => t ∈ trees_of Demo.maps) (grun emptyStore Demo.events).1 a.
Proof.
  assert ((grun emptyStore Demo.events).2 = Demo.replies) as E by (vm_compute; reflexivity).
  assert (visited emptyA Demo.events Demo.replies = Demo.maps) as Ev by (apply (bool_decide_eq_true_1 _); vm_compute; reflexivity).
  rewrite <- E. apply (generations_refine (fun t => t ∈ trees_of Demo.maps) Demo.events).
  - apply trees_universe. vm_compute. reflexivity.
  - repeat constructor.
  - rewrite E, Ev. apply trees_good. vm_compute. reflexivity.
Defined.
